(* ===== verification/_CoqProject ===== *)
-Q . S2P
Prelude.v
GoStd.v
Json.v
JsonText.v
JsonCodec.v
Base64.v
Classify.v
Crypto.v
Checkpoint.v
Ledger.v
Sealed.v
Frame.v
Endpoint.v
Delivery.v
Store.v
Policy.v
Engine.v
Capability.v
Approval.v
Delegation.v
Filter.v
PubSub.v
EventLog.v
Broker.v
BrokerInv.v
BrokerThm.v
BrokerGroup.v
BrokerRuns.v
SqlGuard.v
DbGate.v
Idem.v
AirText.v
Handoff.v
HandoffInbox.v
Rows.v
Pairing.v
Grants.v
KgBridge.v
Server.v
Gateways.v
MoveControl.v
Edge.v
EdgeInv.v
EdgeRuns.v
EdgeMcp.v
Secrets.v
Presence.v
Workflow.v
KnowStore.v
KnowFacade.v
HttpPolicy.v
HttpThm.v
Dpop.v
DpopThm.v
Federation.v
FedThm.v
Exchange.v
ExchThm.v
