(* ===== verification/Prelude.v ===== *)
(** * meshmcp: a verification library of the gateway's core

    meshmcp is a gateway that carries the Model Context Protocol over a mesh network. A
    client and a gateway exchange newline-delimited JSON-RPC over a reliable session, the
    gateway decides each request against a policy, records the decision in a hash-chained
    audit log and forwards what is allowed to a backend. This library models the parts that
    carry those guarantees and proves them.

    ** The parts and how they interact

    - The session layer ([session/]) gives exactly-once, ordered delivery of byte chunks over
      connections that break: frames on the wire, an endpoint with a send buffer and cursors
      at each side, and a store of session snapshots guarded by leases, from which another
      gateway resumes a session.
    - The filter ([policy/filter.go]) cuts the client's bytes into lines, classifies each
      line, asks the engine for a decision, folds in capability and delegation tokens and
      plugin hooks, writes the audit record and forwards or denies.
    - The engine ([policy/engine.go]) evaluates the rules with their windows, token buckets,
      session labels and co-signs; approvals, capabilities and router delegations are signed
      tokens with single-use stores.
    - The audit log ([policy/audit.go], [chain.go]) links each record to the one before; the
      checkpointer ([checkpoint.go]) signs a Merkle root over every batch, and
      [VerifySigned] checks both.
    - The event bus ([pubsub/]) is a broker beside the gateway: it authorizes publishers and
      subscribers by topic rules and capabilities, seals events into a hash chain, keeps a
      window and a log of them, and fans them out under data-flow labels.
    - The session server ([session/server.go], [failover.go], [move.go]) runs sessions on
      several gateways over one lease store: a client reattaches at any of them, a standby
      adopts what a dead owner left, an operator moves a live session.
    - The device layer ([air/]) adds governed endpoints beside the gateway: a database
      endpoint behind an SQL guard, hand-offs of work with consent, pairing of peers and
      grants on request for the knowledge graph and for moves. Tool calls carry idempotency
      keys ([mcp/idempotency.go]).
    - The edge ([edge/]) lets hosted clients in over HTTPS: it registers them, obtains the
      operator's approval, issues codes and tokens that carry a capability, and relays their
      MCP requests through the capability and the policy gate.

    ** Files

    - [Prelude]: results with a bind notation, machine integers, [star], automation. [GoStd]:
      the parts of Go's library that the code calls on strings ([hex], [strings], [strconv],
      [utf8], [path.Match]). [Json]: the parser and the encoder of [encoding/json].
      [JsonCodec]: structs as JSON objects and their round trip. [Crypto]: Ed25519 and
      SHA-256 as classes; no theorem assumes that a hash is injective or that signatures
      cannot be forged.
    - [Frame], [Endpoint], [Delivery], [Store]: [session/frame.go], [endpoint.go], two
      endpoints joined by a network as a step relation, and [store.go].
    - [Classify]: [policy/classify.go] with the duplicate-key scan of [filter.go] and the
      token stripping of [capability.go]. [Policy]: [policy.go], [groups.go], [validate.go].
      [Engine], [Capability], [Approval], [Delegation]: [engine.go], [capability.go] and
      [capability_delegation.go], [approval_token.go], [delegation.go] and
      [delegation_wire.go]. [Filter]: [filter.go] and [hook.go].
    - [Checkpoint]: [merkle.go], [sign.go], [checkpoint.go]. [Ledger]: [audit.go],
      [chain.go] and the restart path of [cmd/meshmcp/serve.go]. [Sealed]:
      [verify_signed.go].
    - [PubSub]: [pubsub/pubsub.go], [authorizer.go], [ring.go], [ratelimit.go]. [JsonText]:
      texts of JSON values and their compaction, for payloads that the bus carries raw.
      [EventLog]: [eventlog.go] and the restart in [cmd/meshmcp/pubsub.go]. [Broker]:
      [broker.go] and [subscription.go]; [BrokerInv] its invariant, [BrokerThm] runs of calls
      and the theorems on them, [BrokerGroup] consumer groups, [BrokerRuns] computed runs.
    - [Server]: [session/server.go], [failover.go], [move.go]; [Gateways]: several gateways
      over one store; [MoveControl]: control connections of moves, computed runs.
    - [SqlGuard]: [air/sqlguard/]; [DbGate]: [cmd/meshmcp/airdatabase.go] and its handler,
      [globMatch] of [airbind.go], [acl.go]. [Idem]: [mcp/idempotency.go] and the claims of
      [pgstore/]. [AirText], [Handoff], [HandoffInbox]: [air/handoff.go] and
      [cmd/meshmcp/airhandoff_store.go]. [Rows], [Pairing], [Grants]: [air/pairing.go],
      [air/grant.go] and [move_grant.go]; [KgBridge]: [cmd/meshmcp/airkggrant.go] and
      [air/know/scope.go]. [Edge]: [edge/clients.go], [register.go],
      [authorize.go], [tokens.go], [token.go], [lifecycle.go], [session.go]; [EdgeInv] the
      server's steps and its theorems, [EdgeRuns] computed runs, [EdgeMcp] the MCP endpoint
      of [edge/mcp.go].
    - [Secrets]: [secrets/broker.go], [policy/redact.go] and the response path of [filter.go].
      [Presence]: [air/presence.go], [target.go]. [Workflow]: [air/workflow.go],
      [steer.go] and the runner of [cmd/meshmcp/airworkflow.go].
      [KnowStore]: [kg/store.go]; [KnowFacade]: [air/knowstore/], [air/know/hash.go],
      [audit.go], [envelope.go] and [air/kgresolve.go].
      [HttpPolicy]: [cmd/meshmcp/httppolicy.go], [httpsession.go], [httprewrite.go]; [HttpThm]
      its theorems and computed runs.
      [Base64]: the encodings of [encoding/base64]; [Dpop]: [policy/dpopsign.go]; [DpopThm] its
      theorems and computed runs.
      [Federation]: [federation/boundary.go], [meter.go] and [policy/spiffe.go]; [FedThm] its
      theorems; [Exchange]: [federation/exchange.go]; [ExchThm] its theorems and computed runs.

    Each file's definitions carry the source's names. State is a record that the operations
    take and return, error paths are values of [result], [option] or an error component, what
    the environment decides (a write that fails, the clock, the arm of a [select]) is an
    argument, and 64-bit integers wrap where the code lets them.

    ** What the theorems show

    - Sessions: delivery is exactly once and in order in every reachable state, nothing that
      was accepted is forgotten, a reconnect delivers the rest, the decoder inverts the
      encoder, a cut stream yields the frames before the cut; leases fence off all but the
      latest grantee, the file store refines the in-memory one, a restored snapshot resumes.
    - Decisions: an allow is justified by the first applicable rule, buckets stay in range and
      bound throughput, labels block, a stateless policy is decided as the pure function
      does, validation rules out dead rules; capabilities attenuate, are single-use and
      verify when issued; approvals and delegations bind one request and are not reused;
      hooks only tighten; what reaches the backend was authorized and audited; decisions do
      not depend on how the stream is cut.
    - Audit: the head hash of a verified log commits to all of it, what the log writes
      verifies, a repair keeps a verified prefix, a sealed log is complete and covered by
      signatures.
    - Event bus: every call of the broker returns from every reachable state, labelled events
      stay with subscribers cleared for them, caps and counters are exact, the stream is a
      verified chain whose end the ring holds and which a restart continues, a published
      event is authorized and keeps its labels, an at-least-once group keeps its un-acked
      work when a member leaves.
    - Gateways: whatever interleaves, a session is entered only by the identity that opened
      it; the commit of a move keeps the stored session wherever it fails, and once it
      succeeds the source is fenced and yields.
    - Governed endpoints: the SQL guard returns and reports every table a statement
      introduces, what reaches the database was cleared and what is served was recorded; the
      wildcard matcher decides its declarative meaning; a keyed tool call runs at most once
      per claim; hand-offs are delivered once per consent and the inbox stays readable;
      recognition needs a written approval, pairing and grant stores survive restarts and
      failed writes, single-use grants are spent once, a knowledge-graph request is covered
      by a grant.
    - Edge: an accepted bearer goes back to an operator's decision, a code buys tokens only
      for the request that was approved, codes and refresh tokens are used once, revocation is
      final, and a tool call reaches the backend only through the capability and the policy
      gate, recorded.
    - Secrets, presence, workflows: the broker's behaviour does not depend on a secret that is
      not granted, every injected value was granted at its place and is scrubbed from what
      comes back; a resolved service was announced by the identity it is shown under, a name
      resolves to one card or to none; a validated workflow sends no unbound reference and
      launches a bounded number of agents.
    - Knowledge graph: the log verifies after every operation and reopens to the same store,
      history can be replayed, replicas converge; a corpus is read and written by its
      grantees, every read is receipted, receipts bind facts, name resolution ends and its
      cache is exact, the closing fence of untrusted text cannot be forged.
    - HTTP backends: the enforcer agrees with the stdio filter, labels hold under interleaved
      requests, injected values are not echoed, the session state is bounded.
    - Proofs of possession: acceptance means that the request, the key and the token are those
      signed; a proof is accepted once and a nonce redeemed once under every interleaving;
      what the signer builds is accepted.
    - Federation: what is advertised is what is admitted, a label names one key and one
      organisation, the usage report equals the decisions, a minted capability stays within
      the grant, and no body is read before its proof.
    - Several theorems exhibit runs in which the code does not do what its comments say;
      they are stated on concrete inputs and evaluated.

    ** Bounds and fuel

    Recursion that is not structural takes fuel, and the fuel given is enough: the JSON parser
    gets twice the length of its input (each call consumes a byte or descends into one), the
    Merkle loop the number of leaves ([Checkpoint.merkleLoop_enough]), the repair loop the
    length of the file (each round consumes a byte), [Frame.readAll] the length of the stream,
    the pattern matcher the length of the pattern ([GoStd.pathMatch_wellformed] relates its
    outcome to the pattern alone), the SQL tokenizer and the scan of a [FROM] list the length of
    their input, [globMatch] a bound on its rounds, the eviction of denials their number. Sequence numbers are [uint64] and [int] as in the code;
    theorems that need it assume that they have not wrapped.

    ** Not modelled

    Goroutine scheduling inside the session pumps and the client, process supervision, network
    dialling and most HTTP handlers; tracing and events of the filter;
    OIDC; the writing of key files; the bus's network commands and federation links; exposure and fan-out of
    the device layer, the network actions of a workflow step; the client registration of the federation, the listeners,
    pages and streams of the edge, the control plane, the harness, the MCP protocol types, the PostgreSQL session
    store and the command-line tools: they are input and output around the parts above, or
    are planned. Times are instants in nanoseconds, time zones and durations are
    arguments with the documented parsers as parameters. [float64] is a class with the laws
    that the proofs use, and exact rationals where a bound is proved. *)
From stdpp Require Import base list gmap strings.
From Stdlib Require Import ZArith Lia.
From Stdlib Require Import Strings.Byte.

Declare Scope mesh_scope.
Delimit Scope mesh_scope with mesh.

(** ** Results: a Go [(value, error)] pair, as a sum *)

Inductive result (E A : Type) : Type :=
| Ok (a : A)
| Err (e : E).
Arguments Ok {E A} a.
Arguments Err {E A} e.

Definition rbind {E A B} (m : result E A) (k : A → result E B) : result E B :=
  match m with
  | Ok a => k a
  | Err e => Err e
  end.

Notation "'let*' p := m 'in' k" := (rbind m (λ x, match x with p => k end))
  (at level 200, p pattern, m at level 200, k at level 200, only parsing) : mesh_scope.

Definition of_option {E A} (e : E) (o : option A) : result E A :=
  match o with
  | Some a => Ok a
  | None => Err e
  end.

(** The early return [if c then return e]. *)
Definition guard_err {E} (bad : bool) (e : E) : result E unit :=
  if bad then Err e else Ok tt.

Lemma rbind_ok {E A B} (m : result E A) (k : A → result E B) b :
  rbind m k = Ok b ↔ ∃ a, m = Ok a ∧ k a = Ok b.
Proof. destruct m; simpl; naive_solver. Qed.

Lemma guard_err_ok {E} bad (e : E) u : guard_err bad e = Ok u ↔ bad = false.
Proof. destruct bad, u; simpl; naive_solver. Qed.

Lemma of_option_ok {E A} (e : E) (o : option A) a :
  of_option e o = Ok a ↔ o = Some a.
Proof. destruct o; simpl; naive_solver. Qed.

Definition isNone {A} (o : option A) : bool := match o with None => true | _ => false end.

(** ** Automation *)

Create HintDb mesh.

(** Inverts every successful bind, guard and option lift in the context. *)
Ltac inv_ok :=
  repeat match goal with
  | H : rbind _ _ = Ok _ |- _ =>
      apply rbind_ok in H; destruct H as (? & ? & ?)
  | H : guard_err _ _ = Ok _ |- _ => apply guard_err_ok in H
  | H : of_option _ _ = Ok _ |- _ => apply of_option_ok in H
  | H : Ok _ = Ok _ |- _ => injection H as H
  | H : Err _ = Ok _ |- _ => discriminate H
  | H : Ok _ = Err _ |- _ => discriminate H
  | p : _ * _ |- _ => destruct p
  end; simplify_eq/=.

(** Case analysis on the first [if] or [match] scrutinee of a hypothesis or of the goal. *)
Ltac case_in H :=
  match type of H with
  | context [match ?x with _ => _ end] => destruct x eqn:?
  end.
Ltac case_goal :=
  match goal with
  | |- context [match ?x with _ => _ end] => destruct x eqn:?
  end.

(** Boolean guards turned into propositions. *)
Ltac breflect :=
  repeat match goal with
  | H : _ && _ = true |- _ => apply andb_true_iff in H; destruct H
  | H : _ || _ = false |- _ => apply orb_false_iff in H; destruct H
  | H : negb _ = true |- _ => apply negb_true_iff in H
  | H : negb _ = false |- _ => apply negb_false_iff in H
  | H : bool_decide _ = true |- _ => apply bool_decide_eq_true_1 in H
  | H : bool_decide _ = false |- _ => apply bool_decide_eq_false_1 in H
  | H : (_ <? _)%Z = true |- _ => apply Z.ltb_lt in H
  | H : (_ <? _)%Z = false |- _ => apply Z.ltb_ge in H
  | H : (_ <=? _)%Z = true |- _ => apply Z.leb_le in H
  | H : (_ <=? _)%Z = false |- _ => apply Z.leb_gt in H
  | H : (_ =? _)%Z = true |- _ => apply Z.eqb_eq in H
  | H : (_ =? _)%Z = false |- _ => apply Z.eqb_neq in H
  | H : (_ <? _)%nat = true |- _ => apply Nat.ltb_lt in H
  | H : (_ <? _)%nat = false |- _ => apply Nat.ltb_ge in H
  | H : (_ <=? _)%nat = true |- _ => apply Nat.leb_le in H
  | H : (_ <=? _)%nat = false |- _ => apply Nat.leb_gt in H
  | H : (_ =? _)%nat = true |- _ => apply Nat.eqb_eq in H
  | H : (_ =? _)%nat = false |- _ => apply Nat.eqb_neq in H
  | H : (_ =? _)%string = true |- _ => apply String.eqb_eq in H
  | H : (_ =? _)%string = false |- _ => apply String.eqb_neq in H
  end.

#[export] Instance byte_eq_dec : EqDecision Byte.byte := Byte.byte_eq_dec.

(** ** Machine integers *)

Open Scope Z_scope.

(** A [uint64]: the arithmetic of the code wraps at [2^64]. *)
Definition u64 (z : Z) : Z := z mod 2 ^ 64.
Definition is_u64 (z : Z) : Prop := 0 ≤ z < 2 ^ 64.

Lemma u64_small z : is_u64 z → u64 z = z.
Proof. intros. apply Z.mod_small. done. Qed.

Lemma is_u64_0 : is_u64 0.
Proof. unfold is_u64. lia. Qed.

Lemma u64_range z : is_u64 (u64 z).
Proof. apply Z.mod_pos_bound. lia. Qed.

(** An [int64] difference or sum, with the two's-complement wrap-around of Go. *)
Definition i64 (z : Z) : Z := (z + 2 ^ 63) mod 2 ^ 64 - 2 ^ 63.

Lemma i64_small z : - 2 ^ 63 ≤ z < 2 ^ 63 → i64 z = z.
Proof. intros. unfold i64. rewrite Z.mod_small; lia. Qed.

Lemma i64_idem_add a b : i64 (i64 a + b) = i64 (a + b).
Proof.
  unfold i64. f_equal.
  replace ((a + 2 ^ 63) mod 2 ^ 64 - 2 ^ 63 + b + 2 ^ 63) with ((a + 2 ^ 63) mod 2 ^ 64 + b) by lia.
  rewrite Z.add_mod_idemp_l by lia. f_equal. lia.
Qed.

Lemma i64_range z : - 2 ^ 63 ≤ i64 z < 2 ^ 63.
Proof. unfold i64. pose proof (Z.mod_pos_bound (z + 2 ^ 63) (2 ^ 64)). lia. Qed.

Lemma i64_idem z : i64 (i64 z) = i64 z.
Proof. apply i64_small, i64_range. Qed.

(** ** Finite transition sequences *)

Section Star.
Context {S : Type} (step : S → S → Prop).

(** [star step a b]: [b] is reachable from [a] by finitely many steps. *)
Inductive star : S → S → Prop :=
| star_refl a : star a a
| star_step a b c : step a b → star b c → star a c.

Lemma star_trans a b c : star a b → star b c → star a c.
Proof. induction 1; eauto using star. Qed.

Lemma star_one a b : step a b → star a b.
Proof. eauto using star. Qed.

(** Rule induction in the form every safety proof here uses. *)
Lemma star_invariant (I : S → Prop) :
  (∀ a b, step a b → I a → I b) → ∀ a b, star a b → I a → I b.
Proof. intros Hstep a b. induction 1; eauto. Qed.
End Star.

(** ** Lists *)

Lemma app_length_split {A} (a b c d : list A) :
  a ++ b = c ++ d → length a = length c → a = c ∧ b = d.
Proof. intros H L. by apply app_inj_1. Qed.

Lemma take_drop_lookup {A} (l : list A) n x :
  l !! n = Some x → drop n l = x :: drop (S n) l.
Proof. intros H. by apply drop_S. Qed.
