(* ===== verification/GoStd.v ===== *)
(** * GoStd: the parts of the Go standard library the modelled code calls

    A Go string is a sequence of bytes, here a [string] of 8-bit characters.
    - [encoding/hex]: [EncodeToString], [DecodeString];
    - [strings]: [CutPrefix], [TrimPrefix], [TrimSpace], [ToLower] (ASCII), [ContainsAny],
      [SplitN _ _ 2]; [strconv.Atoi], [strconv.Itoa];
    - [unicode/utf8]: [DecodeRuneInString];
    - [path.Match], with its scanner ([scanChunk], [matchChunk], [getEsc]). *)
From S2P Require Import Prelude.
From stdpp Require Import base list strings.
From Stdlib Require Import ZArith Lia Ascii.
From Stdlib Require Import Strings.Byte.
Open Scope Z_scope.

Definition ord (c : ascii) : Z := Z.of_N (N_of_ascii c).
Definition chr (z : Z) : ascii := ascii_of_N (Z.to_N z).
Definition strlen (s : string) : Z := Z.of_nat (String.length s).

Lemma ord_range c : 0 ≤ ord c < 256.
Proof. unfold ord. pose proof (N_ascii_bounded c). lia. Qed.

Lemma chr_ord c : chr (ord c) = c.
Proof. unfold chr, ord. by rewrite N2Z.id, ascii_N_embedding. Qed.

Lemma ord_chr z : 0 ≤ z < 256 → ord (chr z) = z.
Proof. intros. unfold chr, ord. rewrite N_ascii_embedding by lia. lia. Qed.

(** ** encoding/hex *)

Definition hexDigit (z : Z) : ascii :=
  if z <? 10 then chr (48 + z) else chr (87 + z).

Definition fromHexChar (c : ascii) : option Z :=
  let z := ord c in
  if (48 <=? z) && (z <=? 57) then Some (z - 48)
  else if (97 <=? z) && (z <=? 102) then Some (z - 87)
  else if (65 <=? z) && (z <=? 70) then Some (z - 55)
  else None.

Fixpoint hexEncode (l : list byte) : string :=
  match l with
  | [] => ""
  | b :: l =>
      let z := Z.of_N (Byte.to_N b) in
      String (hexDigit (z / 16)) (String (hexDigit (z mod 16)) (hexEncode l))
  end.

Definition byteZ (z : Z) : byte :=
  match Byte.of_N (Z.to_N z) with Some b => b | None => x00 end.

(** [None]: odd length or a character that is not a hexadecimal digit. *)
Fixpoint hexDecode (s : string) : option (list byte) :=
  match s with
  | "" => Some []
  | String a (String b s) =>
      match fromHexChar a, fromHexChar b, hexDecode s with
      | Some x, Some y, Some l => Some (byteZ (x * 16 + y) :: l)
      | _, _, _ => None
      end
  | _ => None
  end.

Lemma fromHex_digit z : 0 ≤ z < 16 → fromHexChar (hexDigit z) = Some z.
Proof.
  intros H. unfold fromHexChar, hexDigit.
  destruct (Z.ltb_spec z 10); rewrite ord_chr by lia; cbv zeta;
    repeat match goal with |- context [?a <=? ?b] => destruct (Z.leb_spec a b); try lia end;
    simpl; f_equal; lia.
Qed.

Lemma byteZ_to_N b : byteZ (Z.of_N (Byte.to_N b)) = b.
Proof. unfold byteZ. by rewrite N2Z.id, Byte.of_to_N. Qed.

Lemma hexDecode_encode l : hexDecode (hexEncode l) = Some l.
Proof.
  induction l as [|b l IH]; [done|]. cbn [hexEncode hexDecode].
  pose proof (Byte.to_N_bounded b). set (z := Z.of_N (Byte.to_N b)).
  assert (0 ≤ z < 256) by (unfold z; lia).
  rewrite !fromHex_digit, IH;
    [|apply Z.mod_pos_bound; lia
     |split; [apply Z.div_pos; lia|apply Z.div_lt_upper_bound; lia]].
  rewrite (Z.mul_comm (z / 16)), <- Z.div_mod by lia.
  unfold z. by rewrite byteZ_to_N.
Qed.

Lemma hexEncode_inj l1 l2 : hexEncode l1 = hexEncode l2 → l1 = l2.
Proof. intros H%(f_equal hexDecode). rewrite !hexDecode_encode in H. by simplify_eq. Qed.

(** ** strings *)

Fixpoint cutPrefix (pre s : string) : option string :=
  match pre, s with
  | "", _ => Some s
  | String a pre, String b s => if Ascii.eqb a b then cutPrefix pre s else None
  | String _ _, "" => None
  end.

Definition trimPrefix (pre s : string) : string := default s (cutPrefix pre s).

Lemma append_cons c a b : (String c a +:+ b)%string = String c (a +:+ b)%string.
Proof. reflexivity. Qed.

Lemma cutPrefix_Some pre s t : cutPrefix pre s = Some t ↔ s = (pre +:+ t)%string.
Proof.
  revert s. induction pre as [|a pre IH]; intros s; simpl.
  - change ("" +:+ t)%string with t. split; congruence.
  - rewrite append_cons. destruct s as [|b s]; [split; discriminate|].
    destruct (Ascii.eqb_spec a b) as [->|Hne]; [rewrite IH|]; split; congruence.
Qed.

Fixpoint containsAny (s chars : string) : bool :=
  match s with
  | "" => false
  | String c s => existsb (Ascii.eqb c) (String.list_ascii_of_string chars) || containsAny s chars
  end.

(** The UTF-8 encodings of the runes [unicode.IsSpace] accepts. *)
Definition spaceSeqs : list (list Z) :=
  [[9]; [10]; [11]; [12]; [13]; [32]; [194; 133]; [194; 160]; [225; 154; 128];
   [226; 128; 128]; [226; 128; 129]; [226; 128; 130]; [226; 128; 131]; [226; 128; 132];
   [226; 128; 133]; [226; 128; 134]; [226; 128; 135]; [226; 128; 136]; [226; 128; 137];
   [226; 128; 138]; [226; 128; 168]; [226; 128; 169]; [226; 128; 175]; [226; 129; 159];
   [227; 128; 128]].

(** The rest of [l] after one leading white-space rune, the runes spelt by [seqs]. *)
Definition stripSpace (seqs : list (list Z)) (l : list Z) : option (list Z) :=
  match filter (λ p, take (length p) l = p) seqs with
  | p :: _ => Some (drop (length p) l)
  | [] => None
  end.

Fixpoint trimLeft (fuel : nat) (seqs : list (list Z)) (l : list Z) : list Z :=
  match fuel with
  | O => l
  | S fuel => match stripSpace seqs l with Some l => trimLeft fuel seqs l | None => l end
  end.

Definition codes (s : string) : list Z := ord <$> String.list_ascii_of_string s.
Definition of_codes (l : list Z) : string := String.string_of_list_ascii (chr <$> l).

Definition trimSpace (s : string) : string :=
  let l := codes s in
  let l := trimLeft (length l) spaceSeqs l in
  of_codes (reverse (trimLeft (length l) (reverse <$> spaceSeqs) (reverse l))).

(** [strings.ToLower], exact wherever the result is compared with ASCII text: ASCII
    letters, and the two other runes whose lower case is ASCII (U+0130 and U+212A). *)
Fixpoint lowerCodes (l : list Z) : list Z :=
  match l with
  | 196 :: 176 :: l => 105 :: lowerCodes l
  | 226 :: 132 :: 170 :: l => 107 :: lowerCodes l
  | c :: l => (if (65 <=? c) && (c <=? 90) then c + 32 else c) :: lowerCodes l
  | [] => []
  end.
Definition toLower (s : string) : string := of_codes (lowerCodes (codes s)).

(** [strings.SplitN(s, sep, 2)] for a one-byte separator. *)
Fixpoint splitAt (sep : ascii) (s : string) : string * option string :=
  match s with
  | "" => ("", None)
  | String c s =>
      if Ascii.eqb c sep then ("", Some s)
      else let '(a, b) := splitAt sep s in (String c a, b)
  end.

(** ** strconv *)

Definition maxInt64 : Z := 2 ^ 63 - 1.
Definition minInt64 : Z := - 2 ^ 63.

Fixpoint digitsVal (acc : Z) (s : string) : option Z :=
  match s with
  | "" => Some acc
  | String c s =>
      if (48 <=? ord c) && (ord c <=? 57)
      then digitsVal (acc * 10 + (ord c - 48)) s else None
  end.

(** [strconv.Atoi] on a 64-bit platform: an optional sign, one or more digits, in range. *)
Definition atoi (s : string) : option Z :=
  let '(neg, d) := match s with
    | String "-" d => (true, d)
    | String "+" d => (false, d)
    | _ => (false, s)
    end in
  match d with
  | "" => None
  | _ =>
      match digitsVal 0 d with
      | Some n =>
          let n := if neg : bool then - n else n in
          if (minInt64 <=? n) && (n <=? maxInt64) then Some n else None
      | None => None
      end
  end.

Fixpoint itoaPos (fuel : nat) (n : Z) (acc : string) : string :=
  match fuel with
  | O => acc
  | S fuel =>
      let acc := String (chr (48 + n mod 10)) acc in
      if n <? 10 then acc else itoaPos fuel (n / 10) acc
  end.

(** [strconv.Itoa]; 20 digits cover every 64-bit integer. *)
Definition itoa (n : Z) : string :=
  if n <? 0 then String "-" (itoaPos 20 (- n) "") else itoaPos 20 n "".

(** ** unicode/utf8 *)

Definition runeError : Z := 65533.

(** [utf8.DecodeRuneInString] on the bytes [l]: the rune and its width; an encoding that
    is not valid UTF-8 gives [(runeError, 1)] and the empty string [(runeError, 0)]. *)
Definition decodeRune (l : list Z) : Z * nat :=
  let cont b := (128 <=? b) && (b <=? 191) in
  match l with
  | [] => (runeError, 0%nat)
  | a :: l =>
      if a <? 128 then (a, 1%nat)
      else if (194 <=? a) && (a <=? 223) then
        match l with
        | b :: _ => if cont b then ((a - 192) * 64 + (b - 128), 2%nat) else (runeError, 1%nat)
        | _ => (runeError, 1%nat)
        end
      else if (224 <=? a) && (a <=? 239) then
        match l with
        | b :: c :: _ =>
            let lo := if a =? 224 then 160 else 128 in
            let hi := if a =? 237 then 159 else 191 in
            if (lo <=? b) && (b <=? hi) && cont c
            then ((a - 224) * 4096 + (b - 128) * 64 + (c - 128), 3%nat)
            else (runeError, 1%nat)
        | _ => (runeError, 1%nat)
        end
      else if (240 <=? a) && (a <=? 244) then
        match l with
        | b :: c :: d :: _ =>
            let lo := if a =? 240 then 144 else 128 in
            let hi := if a =? 244 then 143 else 191 in
            if (lo <=? b) && (b <=? hi) && cont c && cont d
            then ((a - 240) * 262144 + (b - 128) * 4096 + (c - 128) * 64 + (d - 128), 4%nat)
            else (runeError, 1%nat)
        | _ => (runeError, 1%nat)
        end
      else (runeError, 1%nat)
  end.

(** [utf8.ValidString]: no byte decodes to an error of width one. *)
Fixpoint validCodes (fuel : nat) (l : list Z) : bool :=
  match fuel, l with
  | _, [] => true
  | O, _ => false
  | S fuel, _ =>
      let '(r, w) := decodeRune l in
      if (r =? runeError) && (w <=? 1)%nat then false else validCodes fuel (drop w l)
  end.
Definition validUTF8 (s : string) : bool := validCodes (String.length s) (codes s).

(** ** path.Match

    Patterns and names are byte lists. [None] is [path.ErrBadPattern]. *)
Module Glob.

Definition star := 42.
Definition quest := 63.
Definition lbrack := 91.
Definition rbrack := 93.
Definition bslash := 92.
Definition slash := 47.
Definition caret := 94.
Definition dash := 45.

(** The metacharacters of a pattern. *)
Definition is_meta (c : Z) : bool :=
  (c =? star) || (c =? quest) || (c =? lbrack) || (c =? bslash).

Fixpoint skipStars (p : list Z) : bool * list Z :=
  match p with
  | c :: p' => if c =? star then (true, (skipStars p').2) else (false, p)
  | [] => (false, [])
  end.

(** The chunk up to the next unescaped star outside brackets. *)
Fixpoint chunkEnd (inrange : bool) (p : list Z) : list Z * list Z :=
  match p with
  | [] => ([], [])
  | c :: p' =>
      if c =? bslash then
        match p' with
        | [] => ([c], [])
        | d :: p'' => let '(a, r) := chunkEnd inrange p'' in (c :: d :: a, r)
        end
      else if (c =? star) && negb inrange then ([], p)
      else
        let inrange := if c =? lbrack then true else if c =? rbrack then false else inrange in
        let '(a, r) := chunkEnd inrange p' in (c :: a, r)
  end.

Definition scanChunk (p : list Z) : bool * list Z * list Z :=
  let '(st, p) := skipStars p in
  let '(chunk, rest) := chunkEnd false p in
  (st, chunk, rest).

Definition getEsc (chunk : list Z) : option (Z * list Z) :=
  match chunk with
  | [] => None
  | c :: _ =>
      if (c =? dash) || (c =? rbrack) then None
      else
        let chunk := if c =? bslash then tail chunk else chunk in
        match chunk with
        | [] => None
        | _ =>
            let '(r, n) := decodeRune chunk in
            if (r =? runeError) && (n =? 1)%nat then None
            else
              match drop n chunk with
              | [] => None
              | nchunk => Some (r, nchunk)
              end
        end
  end.

(** The ranges of a character class, up to its closing bracket. *)
Fixpoint classRanges (fuel : nat) (r : Z) (nrange : bool) (found : bool) (chunk : list Z) :
  option (bool * list Z) :=
  match fuel with
  | O => None
  | S fuel =>
      match chunk, nrange with
      | 93 :: chunk, true => Some (found, chunk)
      | _, _ =>
          match getEsc chunk with
          | None => None
          | Some (lo, chunk) =>
              match chunk with
              | 45 :: chunk =>
                  match getEsc chunk with
                  | None => None
                  | Some (hi, chunk) =>
                      classRanges fuel r true (found || ((lo <=? r) && (r <=? hi))) chunk
                  end
              | _ => classRanges fuel r true (found || (lo =? r)) chunk
              end
          end
      end
  end.

(** [matchChunk]: after a mismatch ([failed]) the chunk is still checked for syntax.
    [Some None] is "no match", [Some (Some rest)] a match leaving [rest]. *)
Fixpoint matchChunk (fuel : nat) (failed : bool) (chunk s : list Z) :
  option (option (list Z)) :=
  match fuel with
  | O => None
  | S fuel =>
      match chunk with
      | [] => Some (if failed then None else Some s)
      | c :: chunk' =>
          let failed := failed || match s with [] => true | _ => false end in
          if c =? lbrack then
            let '(r, n) := if failed then (0, 0%nat) else decodeRune s in
            let '(neg, body) := match chunk' with
              | 94 :: b => (true, b) | _ => (false, chunk') end in
            match classRanges (S (length body)) r false false body with
            | None => None
            | Some (found, rest) =>
                matchChunk fuel (failed || Bool.eqb found neg) rest (drop n s)
            end
          else if c =? quest then
            match s with
            | b :: _ =>
                if failed then matchChunk fuel failed chunk' s
                else matchChunk fuel (b =? slash) chunk' (drop (decodeRune s).2 s)
            | [] => matchChunk fuel failed chunk' s
            end
          else
            match (if c =? bslash then chunk' else chunk) with
            | [] => None
            | lit :: chunk'' =>
                match s with
                | b :: s' =>
                    if failed then matchChunk fuel failed chunk'' s
                    else matchChunk fuel (negb (lit =? b)) chunk'' s'
                | [] => matchChunk fuel failed chunk'' s
                end
            end
      end
  end.

Definition matchC (chunk s : list Z) : option (option (list Z)) :=
  matchChunk (S (length chunk)) false chunk s.

(** The syntax check of the remaining pattern before a "no match" answer. *)
Fixpoint restOk (fuel : nat) (p : list Z) : bool :=
  match fuel, p with
  | _, [] => true
  | O, _ => false
  | S fuel, _ =>
      let '(_, chunk, p) := scanChunk p in
      match matchC chunk [] with None => false | Some _ => restOk fuel p end
  end.

(** The search of [Match] after a star: the first skip of [1 ..] bytes, never past a
    slash, at which the chunk matches (and ends the name when it is the last chunk). *)
Fixpoint skipSearch (chunk rest s : list Z) : option (option (list Z)) :=
  match s with
  | [] => Some None
  | b :: s' =>
      if b =? slash then Some None
      else
        match matchC chunk s' with
        | None => None
        | Some (Some t) =>
            match rest, t with
            | [], _ :: _ => skipSearch chunk rest s'
            | _, _ => Some (Some t)
            end
        | Some None => skipSearch chunk rest s'
        end
  end.

Fixpoint matchLoop (fuel : nat) (p s : list Z) : option bool :=
  match p with
  | [] => Some (match s with [] => true | _ => false end)
  | _ :: _ =>
      match fuel with
      | O => None
      | S fuel =>
          let '(st, chunk, rest) := scanChunk p in
          match st, chunk with
          | true, [] => Some (negb (existsb (Z.eqb slash) s))
          | _, _ =>
              let giveUp := if restOk (length rest) rest then Some false else None in
              let search :=
                if st then
                  match skipSearch chunk rest s with
                  | None => None
                  | Some (Some t) => matchLoop fuel rest t
                  | Some None => giveUp
                  end
                else giveUp in
              match matchC chunk s with
              | None => None
              | Some (Some t) =>
                  match rest, t with
                  | [], _ :: _ => search
                  | _, _ => matchLoop fuel rest t
                  end
              | Some None => search
              end
          end
      end
  end.

End Glob.

(** [path.Match(pattern, name)]; each chunk consumes at least one byte of the pattern, so
    its length is enough fuel. *)
Definition pathMatch (pattern name : string) : option bool :=
  Glob.matchLoop (S (String.length pattern)) (codes pattern) (codes name).

(** [ok, _ := path.Match(p, s)]. *)
Definition pathMatchOk (pattern name : string) : bool := default false (pathMatch pattern name).

(** ** Literal patterns match exactly themselves *)

Section Literal.
Import Glob.

Definition literal (p : list Z) : Prop := Forall (λ c, is_meta c = false) p.

Lemma literal_cons c p : literal (c :: p) →
  (c =? star) = false ∧ (c =? quest) = false ∧ (c =? lbrack) = false ∧
  (c =? bslash) = false ∧ literal p.
Proof.
  intros H. inversion H as [|?? Hc Hp]; subst. unfold is_meta in Hc.
  apply orb_false_iff in Hc as [[[? ?]%orb_false_iff ?]%orb_false_iff ?]. done.
Qed.

Lemma scanChunk_literal c p : literal (c :: p) → scanChunk (c :: p) = (false, c :: p, []).
Proof.
  intros H. unfold scanChunk. simpl.
  destruct (literal_cons _ _ H) as (-> & _). 
  assert (He : ∀ b q, literal q → chunkEnd b q = (q, [])).
  { intros b q. revert b. induction q as [|d q IH]; intros b Hq; [done|].
    simpl. apply literal_cons in Hq as (-> & _ & _ & -> & Hq).
    simpl. by rewrite IH. }
  by rewrite He.
Qed.

(** What is left of [s] after the prefix [p]. *)
Fixpoint stripLit (p s : list Z) : option (list Z) :=
  match p, s with
  | [], _ => Some s
  | c :: p, b :: s => if c =? b then stripLit p s else None
  | _ :: _, [] => None
  end.

Lemma matchChunk_literal fuel failed p s :
  literal p → (length p < fuel)%nat →
  matchChunk fuel failed p s = Some (if failed then None else stripLit p s).
Proof.
  revert failed p s. induction fuel as [|fuel IH]; intros failed p s Hp Hf; [lia|].
  destruct p as [|c p]; [by destruct failed|].
  pose proof (literal_cons _ _ Hp) as (_ & Hq & Hl & Hb & Hp').
  simpl in *. rewrite Hq, Hl, Hb. destruct s as [|b s].
  - rewrite orb_true_r, IH by (done || lia). by destruct failed.
  - rewrite orb_false_r. destruct failed; rewrite IH by (done || lia); [done|].
    by destruct (c =? b).
Qed.

Lemma stripLit_nil p s : stripLit p s = Some [] ↔ p = s.
Proof.
  revert s. induction p as [|c p IH]; intros [|b s]; simpl; try naive_solver.
  destruct (Z.eqb_spec c b); [|naive_solver]. rewrite IH. naive_solver.
Qed.

Lemma matchLoop_literal fuel p s :
  literal p → (0 < fuel)%nat → matchLoop fuel p s = Some (bool_decide (p = s)).
Proof.
  intros Hp Hf. destruct fuel as [|fuel]; [lia|]. destruct p as [|c p].
  { by destruct s. }
  unfold matchLoop; fold matchLoop. rewrite scanChunk_literal by done. cbv iota beta zeta.
  unfold matchC. rewrite matchChunk_literal by (done || lia).
  pose proof (stripLit_nil (c :: p) s) as Hn.
  destruct (stripLit (c :: p) s) as [[|b t]|].
  - rewrite bool_decide_true by (by apply Hn). by destruct fuel.
  - rewrite bool_decide_false; [done|]. intros H%Hn. done.
  - rewrite bool_decide_false; [done|]. intros H%Hn. done.
Qed.
End Literal.

Definition globChars : string := "*?[\".

Lemma codes_inj s t : codes s = codes t → s = t.
Proof.
  unfold codes. intros H.
  apply (f_equal (fmap chr)) in H. rewrite <- !list_fmap_compose in H.
  assert (Hid : ∀ l : list ascii, (chr ∘ ord) <$> l = l).
  { intros l. induction l; simpl; [done|]. by rewrite chr_ord; f_equal. }
  rewrite !Hid in H. apply (f_equal String.string_of_list_ascii) in H.
  by rewrite !String.string_of_list_ascii_of_string in H.
Qed.

Lemma literal_no_glob s : containsAny s globChars = false → literal (codes s).
Proof.
  unfold codes. induction s as [|c s IH]; [constructor|]. cbn [containsAny].
  intros [Hc Hs]%orb_false_iff. constructor; [|by apply IH].
  clear IH Hs. by destruct c as [[][][][][][][][]].
Qed.

(** A pattern without metacharacters matches exactly the name it spells. *)
Lemma pathMatch_literal p s :
  containsAny p globChars = false → pathMatch p s = Some (bool_decide (p = s)).
Proof.
  intros H%literal_no_glob. unfold pathMatch. rewrite matchLoop_literal by (done || lia).
  f_equal. apply bool_decide_ext. split; [apply codes_inj|by intros ->].
Qed.

(** ** Whether a pattern is malformed does not depend on the name *)

Section BadPattern.
Import Glob.

(** The syntax of the class ranges alone. *)
Lemma classRanges_syntax fuel r1 r2 n f1 f2 chunk :
  snd <$> classRanges fuel r1 n f1 chunk = snd <$> classRanges fuel r2 n f2 chunk.
Proof.
  revert n f1 f2 chunk. induction fuel as [|fuel IH]; intros n f1 f2 chunk; [done|].
  cbn [classRanges].
  assert (Hesc : ∀ (g1 g2 : bool),
    snd <$> match getEsc chunk with
      | None => None
      | Some (lo, chunk) =>
          match chunk with
          | 45 :: chunk => match getEsc chunk with
              | None => None
              | Some (hi, chunk) =>
                  classRanges fuel r1 true (g1 || ((lo <=? r1) && (r1 <=? hi))) chunk
              end
          | _ => classRanges fuel r1 true (g1 || (lo =? r1)) chunk
          end
      end =
    snd <$> match getEsc chunk with
      | None => None
      | Some (lo, chunk) =>
          match chunk with
          | 45 :: chunk => match getEsc chunk with
              | None => None
              | Some (hi, chunk) =>
                  classRanges fuel r2 true (g2 || ((lo <=? r2) && (r2 <=? hi))) chunk
              end
          | _ => classRanges fuel r2 true (g2 || (lo =? r2)) chunk
          end
      end).
  { intros g1 g2. repeat case_match; simplify_eq; try done; apply IH. }
  repeat case_match; simplify_eq; first [done | apply Hesc].
Qed.

Lemma classRanges_cases fuel r1 r2 n f1 f2 chunk :
  (classRanges fuel r1 n f1 chunk = None ∧ classRanges fuel r2 n f2 chunk = None) ∨
  ∃ m1 m2 rest, classRanges fuel r1 n f1 chunk = Some (m1, rest) ∧
    classRanges fuel r2 n f2 chunk = Some (m2, rest).
Proof.
  pose proof (classRanges_syntax fuel r1 r2 n f1 f2 chunk) as H.
  destruct (classRanges fuel r1 n f1 chunk) as [[m1 x1]|],
    (classRanges fuel r2 n f2 chunk) as [[m2 x2]|]; simplify_eq/=; eauto 10.
Qed.

Lemma matchChunk_syntax fuel f1 f2 chunk s1 s2 :
  matchChunk fuel f1 chunk s1 = None ↔ matchChunk fuel f2 chunk s2 = None.
Proof.
  revert f1 f2 chunk s1 s2. induction fuel as [|fuel IH]; intros f1 f2 chunk s1 s2; [done|].
  cbn [matchChunk]. destruct chunk as [|c chunk]; [done|].
  destruct (c =? lbrack).
  - destruct (match chunk with 94 :: b => _ | _ => _ end) as [neg body].
    destruct (if f1 || _ then _ else _) as [r1 n1], (if f2 || _ then _ else _) as [r2 n2].
    destruct (classRanges_cases (S (length body)) r1 r2 false false false body)
      as [[-> ->]|(m1 & m2 & rest & -> & ->)]; [done|]. apply IH.
  - destruct (c =? quest); [|destruct (if c =? bslash then _ else _) as [|lit chunk']; [done|]];
      destruct s1, s2; destruct f1, f2; apply IH.
Qed.

Lemma matchC_syntax chunk s1 s2 : matchC chunk s1 = None ↔ matchC chunk s2 = None.
Proof. apply matchChunk_syntax. Qed.

Lemma skipStars_rest p :
  (length (skipStars p).2 ≤ length p)%nat ∧
  ((skipStars p).1 = false → (skipStars p).2 = p) ∧
  ((skipStars p).1 = true → (length (skipStars p).2 < length p)%nat) ∧
  (∀ c q, (skipStars p).2 = c :: q → (c =? star) = false).
Proof.
  induction p as [|c p (IH1 & _ & _ & IH4)]; simpl; [by repeat split|].
  destruct (c =? star) eqn:E; simpl.
  - split; [lia|]. split; [done|]. split; [intros _; lia|exact IH4].
  - split; [lia|]. split; [done|]. split; [done|]. by intros ? ? [= <- <-].
Qed.

Lemma chunkEnd_split b p : p = (chunkEnd b p).1 ++ (chunkEnd b p).2.
Proof.
  remember (length p) as n eqn:Hn. revert b p Hn.
  induction n as [n IH] using lt_wf_ind. intros b [|c p] ->; [done|]. cbn [chunkEnd].
  destruct (c =? bslash).
  - destruct p as [|d p]; [done|].
    pose proof (IH (length p) ltac:(simpl; lia) b p eq_refl) as H.
    destruct (chunkEnd b p) as [x r]. simpl in *. by rewrite H.
  - case_match; [done|].
    match goal with |- context [chunkEnd ?b' p] =>
      pose proof (IH (length p) ltac:(simpl; lia) b' p eq_refl) as H';
      destruct (chunkEnd b' p) as [x r] end.
    simpl in *. by rewrite H'.
Qed.

Lemma chunkEnd_nil p : (∀ c q, p = c :: q → (c =? star) = false) →
  (chunkEnd false p).1 = [] → p = [].
Proof.
  intros Hs. destruct p as [|c p]; [done|]. specialize (Hs c p eq_refl). cbn [chunkEnd].
  rewrite Hs. simpl. repeat case_match; simplify_eq/=; done.
Qed.

Lemma scanChunk_spec c p st chunk rest :
  scanChunk (c :: p) = (st, chunk, rest) →
  (length rest ≤ length p)%nat ∧ (chunk = [] → rest = []).
Proof.
  unfold scanChunk. pose proof (skipStars_rest (c :: p)) as (H1 & H2 & H3 & H4).
  destruct (skipStars (c :: p)) as [st' q]. simpl in H1, H2, H3, H4.
  pose proof (chunkEnd_split false q) as Hq. pose proof (chunkEnd_nil q H4) as Hnil.
  destruct (chunkEnd false q) as [x r]. intros [= -> -> ->]. simpl in Hq, Hnil.
  assert (Hl := f_equal length Hq). rewrite length_app in Hl.
  assert (Hr : chunk = [] → rest = []) by (intros ->; by rewrite (Hnil eq_refl) in Hq).
  split; [|done]. destruct st; [specialize (H3 eq_refl); lia|].
  specialize (H2 eq_refl). destruct chunk; [rewrite (Hr eq_refl) in *; simpl; lia|].
  subst q. simpl in *. lia.
Qed.

Lemma restOk_fuel f1 f2 p :
  (length p ≤ f1)%nat → (length p ≤ f2)%nat → restOk f1 p = restOk f2 p.
Proof.
  revert f2 p. induction f1 as [|f1 IH]; intros [|f2] [|c p] H1 H2; simpl in *; try lia; try done.
  destruct (scanChunk (c :: p)) as [[st chunk] rest] eqn:E.
  apply scanChunk_spec in E as [Hl _].
  destruct (matchC chunk []); [|done]. apply IH; lia.
Qed.

Lemma skipSearch_syntax chunk rest s :
  matchC chunk [] ≠ None → skipSearch chunk rest s ≠ None.
Proof.
  intros H. induction s as [|b s IH]; simpl; [done|].
  pose proof (matchC_syntax chunk [] s). repeat case_match; naive_solver.
Qed.

Lemma matchLoop_syntax fuel p s :
  (length p ≤ fuel)%nat → matchLoop fuel p s = None ↔ restOk fuel p = false.
Proof.
  revert p s. induction fuel as [|fuel IH]; intros [|c p] s Hl; simpl in Hl; try lia; try done.
  cbn [matchLoop restOk]. destruct (scanChunk (c :: p)) as [[st chunk] rest] eqn:E.
  apply scanChunk_spec in E as [Hr Hnil].
  pose proof (matchC_syntax chunk s []) as Hs.
  pose proof (skipSearch_syntax chunk rest s) as Hk.
  pose proof (restOk_fuel (length rest) fuel rest ltac:(lia) ltac:(lia)) as Hfu.
  assert (Hgive : (if restOk (length rest) rest then Some false else None) = None ↔
    restOk fuel rest = false) by (rewrite Hfu; by destruct (restOk fuel rest)).
  assert (Hgo : match matchC chunk s with
    | None => None
    | Some (Some t) => match rest, t with
        | [], _ :: _ =>
            if st then match skipSearch chunk rest s with
              | None => None
              | Some (Some t) => matchLoop fuel rest t
              | Some None => if restOk (length rest) rest then Some false else None
              end
            else if restOk (length rest) rest then Some false else None
        | _, _ => matchLoop fuel rest t
        end
    | Some None =>
        if st then match skipSearch chunk rest s with
          | None => None
          | Some (Some t) => matchLoop fuel rest t
          | Some None => if restOk (length rest) rest then Some false else None
          end
        else if restOk (length rest) rest then Some false else None
    end = None ↔ match matchC chunk [] with None => false | Some _ => restOk fuel rest end = false).
  { destruct (matchC chunk []) eqn:E0; [|by rewrite (proj2 Hs eq_refl)].
    specialize (Hk ltac:(done)).
    assert (Hm : ∀ t, matchLoop fuel rest t = None ↔ restOk fuel rest = false)
      by (intros t; apply IH; lia).
    destruct (matchC chunk s) as [[t|]|]; [| |by destruct Hs; discriminate (H eq_refl)];
      destruct (skipSearch chunk rest s) as [[t'|]|]; try done;
      destruct st, rest, t || destruct st; first [apply Hm | apply Hgive]. }
  destruct st; [|exact Hgo]. destruct chunk as [|d chunk]; [|exact Hgo].
  rewrite (Hnil eq_refl). by destruct fuel.
Qed.
End BadPattern.

(** A pattern the empty name accepts syntactically is well-formed for every name. *)
Lemma pathMatch_wellformed p s : pathMatch p "" ≠ None → pathMatch p s ≠ None.
Proof.
  assert (Hl : (length (codes p) ≤ S (String.length p))%nat).
  { unfold codes. rewrite length_fmap. induction p; simpl; lia. }
  unfold pathMatch. rewrite !matchLoop_syntax by done. done.
Qed.

Lemma append_assoc_s a b c : ((a +:+ b) +:+ c = a +:+ (b +:+ c))%string.
Proof. induction a as [|x a IH]; [done|]. rewrite !append_cons. by f_equal. Qed.

Lemma strlength_app a b : String.length (a +:+ b)%string = (String.length a + String.length b)%nat.
Proof. induction a as [|c a IH]; [done|]. rewrite append_cons. simpl. by rewrite IH. Qed.

(** ** ASCII text is valid UTF-8 *)

Lemma codes_cons a s : codes (String a s) = ord a :: codes s.
Proof. done. Qed.

Lemma codes_app a b : codes (a +:+ b) = codes a ++ codes b.
Proof. induction a as [|c a IH]; [done|]. rewrite append_cons, !codes_cons. simpl. by f_equal. Qed.

Lemma length_codes s : length (codes s) = String.length s.
Proof. unfold codes. rewrite length_fmap. induction s; simpl; congruence. Qed.

Definition ascii_only (s : string) : Prop := Forall (λ z, z < 128) (codes s).

Lemma validUTF8_ascii s : ascii_only s → validUTF8 s = true.
Proof.
  unfold validUTF8, ascii_only. rewrite <- length_codes.
  generalize (codes s) as l. induction 1 as [|z l Hz Hl IH]; [done|].
  simpl. destruct (Z.ltb_spec z 128); [|lia].
  destruct (Z.eqb_spec z runeError) as [->|]; [unfold runeError in *; lia|]. done.
Qed.

Lemma ascii_only_app a b : ascii_only a → ascii_only b → ascii_only (a +:+ b).
Proof.
  unfold ascii_only. induction a as [|x a IH]; [done|].
  rewrite append_cons, !codes_cons, !Forall_cons. intros [Hx Ha] Hb. auto.
Qed.

Lemma ascii_only_hex l : ascii_only (hexEncode l).
Proof.
  assert (Hd : ∀ z, 0 ≤ z < 16 → ord (hexDigit z) < 128).
  { intros z Hz. unfold hexDigit. destruct (Z.ltb_spec z 10); rewrite ord_chr; lia. }
  induction l as [|b l IH]; [constructor|]. cbn [hexEncode].
  pose proof (Byte.to_N_bounded b).
  unfold ascii_only. rewrite !codes_cons. repeat constructor; [| |done]; apply Hd.
  - split; [apply Z.div_pos; lia|apply Z.div_lt_upper_bound; lia].
  - apply Z.mod_pos_bound. lia.
Qed.

Lemma hexDecode_ascii s l : hexDecode s = Some l → ascii_only s.
Proof.
  assert (Hc : ∀ c z, fromHexChar c = Some z → ord c < 128).
  { intros c z. unfold fromHexChar. repeat case_match; breflect; intros; lia || done. }
  revert s. induction l as [|b l IH]; intros s Hs.
  - destruct s as [|x [|y s]]; simpl in Hs; [constructor|done|].
    repeat case_match; done.
  - destruct s as [|x [|y s]]; simpl in Hs; [done..|].
    destruct (fromHexChar x) eqn:Hx; [|done]. destruct (fromHexChar y) eqn:Hy; [|done].
    destruct (hexDecode s) eqn:Hd; [|done]. simplify_eq.
    unfold ascii_only. rewrite !codes_cons. repeat constructor; [by eapply Hc|by eapply Hc|].
    by apply IH.
Qed.

(** ** Decimal text *)

Lemma digitsVal_itoaPos fuel n acc :
  0 ≤ n < 10 ^ Z.of_nat fuel → digitsVal 0 (itoaPos fuel n acc) = digitsVal n acc.
Proof.
  revert n acc. induction fuel as [|fuel IH]; intros n acc Hn.
  { simpl in Hn. assert (n = 0) as -> by lia. done. }
  assert (Hd : ∀ a, digitsVal a (String (chr (48 + n mod 10)) acc) =
    digitsVal (a * 10 + n mod 10) acc).
  { intros a. cbn [digitsVal]. pose proof (Z.mod_pos_bound n 10).
    rewrite ord_chr by lia. destruct (Z.leb_spec 48 (48 + n mod 10)); [|lia].
    destruct (Z.leb_spec (48 + n mod 10) 57); [|lia]. simpl. f_equal. lia. }
  cbn [itoaPos]. destruct (Z.ltb_spec n 10).
  - rewrite Hd, Z.mod_small by lia. f_equal.
  - rewrite IH, Hd.
    + f_equal. rewrite (Z.mul_comm _ 10). symmetry. apply Z.div_mod. lia.
    + rewrite Nat2Z.inj_succ, Z.pow_succ_r in Hn by lia.
      split; [apply Z.div_pos; lia|apply Z.div_lt_upper_bound; lia].
Qed.

Lemma itoa_inj i j : 0 ≤ i < 10 ^ 20 → 0 ≤ j < 10 ^ 20 → itoa i = itoa j → i = j.
Proof.
  intros Hi Hj. unfold itoa.
  destruct (Z.ltb_spec i 0), (Z.ltb_spec j 0); try lia.
  intros E%(f_equal (digitsVal 0)).
  rewrite !(digitsVal_itoaPos 20) in E by (simpl; lia). by simplify_eq/=.
Qed.

(** A string of digits is recovered from what is in front of the first separator. *)
Lemma splitAt_itoaPos sep fuel n acc rest :
  ord sep < 48 ∨ 57 < ord sep → (splitAt sep (acc +:+ String sep rest)).1 = acc →
  (splitAt sep (itoaPos fuel n acc +:+ String sep rest)).1 = itoaPos fuel n acc.
Proof.
  intros Hsep. revert n acc. induction fuel as [|fuel IH]; intros n acc Ha; [done|].
  assert (Hd : (splitAt sep (String (chr (48 + n mod 10)) acc +:+ String sep rest)).1 =
    String (chr (48 + n mod 10)) acc).
  { rewrite append_cons. cbn [splitAt].
    destruct (Ascii.eqb_spec (chr (48 + n mod 10)) sep) as [E|_].
    - exfalso. apply (f_equal ord) in E. pose proof (Z.mod_pos_bound n 10).
      rewrite ord_chr in E by lia. lia.
    - destruct (splitAt sep (acc +:+ String sep rest)) as [a b]. simpl in *. by subst a. }
  cbn [itoaPos]. destruct (n <? 10); [done|]. by apply IH.
Qed.

(** Texts of one length in front are cut off alike. *)
Lemma append_inj_length a b x y :
  String.length a = String.length b → (a +:+ x = b +:+ y)%string → a = b ∧ x = y.
Proof.
  revert b. induction a as [|c a IH]; intros [|d b] Hl He; try done.
  rewrite !append_cons in He. injection He as -> He. injection Hl as Hl.
  by destruct (IH b Hl He) as [-> ->].
Qed.
