(* ===== verification/Json.v ===== *)
(** * Json: the parts of encoding/json the policy code calls

    A parser for JSON text ([json.Valid] grammar, strings decoded with the replacement of
    invalid UTF-8, numbers kept as text, the nesting limit of the package), the lookup of
    a struct field (exact name first, then case folding), [json.Compact] with the HTML
    escaping of [json.Marshal], and the encoder of a string. An object keeps its members
    in order, each with the raw text of its value (a [json.RawMessage]). *)
From stdpp Require Import base list strings.
From Stdlib Require Import ZArith Lia Ascii.
From S2P Require Import Prelude GoStd.
Open Scope Z_scope.

Inductive json :=
| JNull
| JBool (b : bool)
| JNum (text : string)
| JStr (s : string)
| JArr (l : list json)
| JObj (l : list (string * string * json)).   (* key, raw text of the value, value *)

(** ** Lexing *)

Definition isWS (c : Z) : bool := (c =? 32) || (c =? 9) || (c =? 10) || (c =? 13).
Fixpoint skipWS (l : list Z) : list Z :=
  match l with
  | c :: l' => if isWS c then skipWS l' else l
  | [] => []
  end.

Definition isDigit (c : Z) : bool := (48 <=? c) && (c <=? 57).
Fixpoint digits (l : list Z) : list Z * list Z :=
  match l with
  | c :: l' => if isDigit c then let '(d, r) := digits l' in (c :: d, r) else ([], l)
  | [] => ([], [])
  end.

(** The literal [text] at the front of [l]. *)
Fixpoint literal (text l : list Z) : option (list Z) :=
  match text, l with
  | [], _ => Some l
  | c :: text, d :: l => if c =? d then literal text l else None
  | _ :: _, [] => None
  end.

(** A number: optional minus, integer part, optional fraction and exponent. *)
Definition number (l : list Z) : option (list Z) :=
  let l := match l with 45 :: l' => l' | _ => l end in
  let int := match l with
             | 48 :: l' => Some l'
             | c :: _ => if (49 <=? c) && (c <=? 57) then Some (digits l).2 else None
             | [] => None
             end in
  match int with
  | None => None
  | Some l =>
      let frac := match l with
                  | 46 :: l' => match digits l' with ([], _) => None | (_, r) => Some r end
                  | _ => Some l
                  end in
      match frac with
      | None => None
      | Some l =>
          match l with
          | c :: l' =>
              if (c =? 101) || (c =? 69) then
                let l' := match l' with s :: r => if (s =? 43) || (s =? 45) then r else l'
                          | [] => l' end in
                match digits l' with ([], _) => None | (_, r) => Some r end
              else Some l
          | [] => Some l
          end
      end
  end.

(** UTF-8 of a rune. *)
Definition encodeRune (r : Z) : list Z :=
  if r <? 128 then [r]
  else if r <? 2048 then [192 + r / 64; 128 + r mod 64]
  else if (55296 <=? r) && (r <=? 57343) then [239; 191; 189]
  else if r <? 65536 then [224 + r / 4096; 128 + (r / 64) mod 64; 128 + r mod 64]
  else [240 + r / 262144; 128 + (r / 4096) mod 64; 128 + (r / 64) mod 64; 128 + r mod 64].

Definition hexVal (c : Z) : option Z := fromHexChar (chr c).
Definition hex4 (l : list Z) : option (Z * list Z) :=
  match l with
  | a :: b :: c :: d :: r =>
      match hexVal a, hexVal b, hexVal c, hexVal d with
      | Some a, Some b, Some c, Some d => Some (a * 4096 + b * 256 + c * 16 + d, r)
      | _, _, _, _ => None
      end
  | _ => None
  end.

Definition simpleEscape (c : Z) : option Z :=
  if c =? 34 then Some 34 else if c =? 92 then Some 92 else if c =? 47 then Some 47
  else if c =? 98 then Some 8 else if c =? 102 then Some 12 else if c =? 110 then Some 10
  else if c =? 114 then Some 13 else if c =? 116 then Some 9 else None.

(** The body of a string after the opening quote: decoded bytes and what follows the
    closing quote. A surrogate pair of escapes is one rune, a lone surrogate and a byte
    that is not UTF-8 are the replacement rune. *)
Fixpoint stringBody (fuel : nat) (l : list Z) : option (list Z * list Z) :=
  match fuel with
  | O => None
  | S fuel =>
      let put bytes rest := match stringBody fuel rest with
                            | Some (s, r) => Some (bytes ++ s, r) | None => None end in
      match l with
      | [] => None
      | 34 :: r => Some ([], r)
      | 92 :: 117 :: r =>
          match hex4 r with
          | None => None
          | Some (u, r') =>
              if (55296 <=? u) && (u <=? 56319) then
                match r' with
                | 92 :: 117 :: r2 =>
                    match hex4 r2 with
                    | Some (w, r3) =>
                        if (56320 <=? w) && (w <=? 57343)
                        then put (encodeRune (65536 + (u - 55296) * 1024 + (w - 56320))) r3
                        else put (encodeRune runeError) r'
                    | None => None
                    end
                | _ => put (encodeRune runeError) r'
                end
              else if (56320 <=? u) && (u <=? 57343) then put (encodeRune runeError) r'
              else put (encodeRune u) r'
          end
      | 92 :: c :: r => match simpleEscape c with Some b => put [b] r | None => None end
      | [92] => None
      | c :: r =>
          if c <? 32 then None
          else let '(rune, w) := decodeRune l in
               if (rune =? runeError) && (w <=? 1)%nat then put (encodeRune runeError) r
               else put (take w l) (drop w l)
      end
  end.

(** ** Parsing *)

Definition maxNestingDepth : Z := 10000.

Definition rawText (before after : list Z) : string :=
  of_codes (take (length before - length after) before).

Fixpoint parseValue (fuel : nat) (depth : Z) (l : list Z) : option (json * list Z) :=
  match fuel with
  | O => None
  | S fuel =>
      match skipWS l with
      | [] => None
      | 123 :: r =>                                             (* object *)
          if maxNestingDepth <? depth + 1 then None
          else match skipWS r with
               | 125 :: r => Some (JObj [], r)
               | r => match parseMembers fuel (depth + 1) r with
                      | Some (ms, r) => Some (JObj ms, r) | None => None end
               end
      | 91 :: r =>                                              (* array *)
          if maxNestingDepth <? depth + 1 then None
          else match skipWS r with
               | 93 :: r => Some (JArr [], r)
               | r => match parseElements fuel (depth + 1) r with
                      | Some (vs, r) => Some (JArr vs, r) | None => None end
               end
      | 34 :: r => match stringBody (S (length r)) r with
                   | Some (s, r) => Some (JStr (of_codes s), r) | None => None end
      | (c :: _) as l =>
          match literal [110; 117; 108; 108] l, literal [116; 114; 117; 101] l,
                literal [102; 97; 108; 115; 101] l with
          | Some r, _, _ => Some (JNull, r)
          | _, Some r, _ => Some (JBool true, r)
          | _, _, Some r => Some (JBool false, r)
          | _, _, _ => match number l with
                       | Some r => Some (JNum (rawText l r), r) | None => None end
          end
      end
  end
with parseMembers (fuel : nat) (depth : Z) (l : list Z)
  : option (list (string * string * json) * list Z) :=
  match fuel with
  | O => None
  | S fuel =>
      match skipWS l with
      | 34 :: r =>
          match stringBody (S (length r)) r with
          | None => None
          | Some (k, r) =>
              match skipWS r with
              | 58 :: r =>
                  let start := skipWS r in
                  match parseValue fuel depth start with
                  | None => None
                  | Some (v, r) =>
                      let m := (of_codes k, rawText start r, v) in
                      match skipWS r with
                      | 125 :: r => Some ([m], r)
                      | 44 :: r => match parseMembers fuel depth r with
                                   | Some (ms, r) => Some (m :: ms, r) | None => None end
                      | _ => None
                      end
                  end
              | _ => None
              end
          end
      | _ => None
      end
  end
with parseElements (fuel : nat) (depth : Z) (l : list Z) : option (list json * list Z) :=
  match fuel with
  | O => None
  | S fuel =>
      match parseValue fuel depth l with
      | None => None
      | Some (v, r) =>
          match skipWS r with
          | 93 :: r => Some ([v], r)
          | 44 :: r => match parseElements fuel depth r with
                       | Some (vs, r) => Some (v :: vs, r) | None => None end
          | _ => None
          end
      end
  end.

(** [json.Unmarshal] to a value: the whole text is one value. Each call consumes a byte or
    descends into one, so twice the length is enough fuel. *)
Definition parseJSON (s : string) : option json :=
  match parseValue (S (2 * String.length s)) 0 (codes s) with
  | Some (v, r) => match skipWS r with [] => Some v | _ => None end
  | None => None
  end.

(** ** Struct fields *)

(** The rune a rune folds to: upper case for ASCII; the long s and the Kelvin sign fold to
    ASCII letters (no other rune folds to ASCII). *)
Definition foldRune (r : Z) : Z :=
  if (97 <=? r) && (r <=? 122) then r - 32
  else if r =? 383 then 83 else if r =? 8490 then 75 else r.
Fixpoint foldCodes (fuel : nat) (l : list Z) : list Z :=
  match fuel, l with
  | _, [] | O, _ => []
  | S fuel, _ => let '(r, w) := decodeRune l in foldRune r :: foldCodes fuel (drop w l)
  end.
Definition foldName (s : string) : list Z := foldCodes (String.length s) (codes s).

(** Whether key [k] sets the struct field [name]: [encoding/json] prefers an exact match
    and accepts a case-insensitive one. *)
Definition setsField (name k : string) : bool := bool_decide (foldName k = foldName name).

(** ** Encoding *)

Definition hexLower (z : Z) : Z := ord (hexDigit z).
Definition escapeHTML (c : Z) : list Z := [92; 117; 48; 48; hexLower (c / 16); hexLower (c mod 16)].
Definition isHTML (c : Z) : bool := (c =? 60) || (c =? 62) || (c =? 38).

(** [json.Compact] with the escaping of [json.Marshal], on text that is valid JSON: white
    space outside strings goes, [<], [>], [&] and U+2028, U+2029 are escaped. *)
Fixpoint compactCodes (instr esc : bool) (l : list Z) : list Z :=
  match l with
  | [] => []
  | c :: r =>
      if negb instr then
        if isWS c then compactCodes false false r
        else c :: compactCodes (c =? 34) false r
      else if isHTML c then escapeHTML c ++ compactCodes true false r
      else match l with
           | 226 :: 128 :: d :: r' =>
               if (d =? 168) || (d =? 169)
               then [92; 117; 50; 48; 50; hexLower (d - 160)] ++ compactCodes true false r'
               else c :: compactCodes true (negb esc && (c =? 92)) r
           | _ => c :: compactCodes (negb (negb esc && (c =? 34))) (negb esc && (c =? 92)) r
           end
  end.
Definition compact (s : string) : string := of_codes (compactCodes false false (codes s)).

(** The encoder of a string: quotes, backslash, control characters, HTML and line
    separators are escaped, invalid UTF-8 becomes the escaped replacement rune. *)
Fixpoint quoteCodes (fuel : nat) (l : list Z) : list Z :=
  match fuel, l with
  | _, [] | O, _ => []
  | S fuel, c :: r =>
      if c <? 128 then
        (if (c =? 34) || (c =? 92) then [92; c]
         else if c =? 8 then [92; 98] else if c =? 12 then [92; 102]
         else if c =? 10 then [92; 110] else if c =? 13 then [92; 114]
         else if c =? 9 then [92; 116]
         else if (c <? 32) || isHTML c then escapeHTML c
         else [c]) ++ quoteCodes fuel r
      else
        let '(rune, w) := decodeRune l in
        if (rune =? runeError) && (w <=? 1)%nat
        then [92; 117; 102; 102; 102; 100] ++ quoteCodes fuel r
        else if (rune =? 8232) || (rune =? 8233)
        then [92; 117; 50; 48; 50; hexLower (rune - 8224)] ++ quoteCodes fuel (drop w l)
        else take w l ++ quoteCodes fuel (drop w l)
  end.
Definition dquote : string := of_codes [34].
Definition marshalString (s : string) : string :=
  dquote +:+ of_codes (quoteCodes (String.length s) (codes s)) +:+ dquote.
