(* ===== verification/JsonText.v ===== *)
(** * JsonText: what [json.Compact] does to valid text

    The parser of [Json] rewritten with boolean tests on the next byte, the scan of a string
    as a relation on bytes ([scans]), and the two facts a [json.RawMessage] relies on when it
    is marshalled: compact text of a valid value is again the text of a value, whatever
    follows it, and compacting twice is compacting once. *)
From stdpp Require Import base list strings.
From Stdlib Require Import ZArith Lia Ascii.
From S2P Require Import Prelude GoStd Json.
Open Scope Z_scope.

(** The byte [z] at the front. *)
Definition eat (z : Z) (l : list Z) : option (list Z) :=
  match l with d :: r => if d =? z then Some r else None | [] => None end.

Lemma eat_Some z l r : eat z l = Some r ↔ l = z :: r.
Proof. destruct l as [|d l]; simpl; [done|]. destruct (Z.eqb_spec d z); naive_solver. Qed.

(** Case analysis on a byte that a pattern of the parser compares with numerals. *)
Ltac byte_cases c := destruct c as [|?p|?p]; [try reflexivity| |try reflexivity];
  repeat match goal with
  | p : positive |- _ => try reflexivity; destruct p as [p|p|]
  end; try reflexivity.

(** ** Equations *)

Lemma compact_in e c r :
  compactCodes true e (c :: r) =
  if isHTML c then escapeHTML c ++ compactCodes true false r
  else
    match (if c =? 226 then eat 128 r else None) with
    | Some (d :: r') =>
        if (d =? 168) || (d =? 169)
        then [92; 117; 50; 48; 50; hexLower (d - 160)] ++ compactCodes true false r'
        else c :: compactCodes true (negb e && (c =? 92)) r
    | _ => c :: compactCodes (negb (negb e && (c =? 34))) (negb e && (c =? 92)) r
    end.
Proof.
  cbn [compactCodes negb]. destruct (isHTML c); [done|].
  destruct (Z.eqb_spec c 226) as [->|Hc].
  - destruct r as [|b [|d r]]; cbn [eat]; [done|by destruct (b =? 128); byte_cases b|].
    destruct (Z.eqb_spec b 128) as [->|Hb]; [done|]. revert Hb. clear.
    by destruct b as [|p|p]; try done; do 8 (try (destruct p as [p|p|]; try done)).
  - revert Hc. clear.
    by destruct c as [|p|p]; try done; do 8 (try (destruct p as [p|p|]; try done)).
Qed.

Lemma compact_out e c r :
  compactCodes false e (c :: r) =
  if isWS c then compactCodes false false r else c :: compactCodes (c =? 34) false r.
Proof. reflexivity. Qed.

Lemma stringBody_eq fuel c r :
  stringBody (S fuel) (c :: r) =
  let put bytes rest := match stringBody fuel rest with
                        | Some (s, r) => Some (bytes ++ s, r) | None => None end in
  if c =? 34 then Some ([], r)
  else if c =? 92 then
    match r with
    | [] => None
    | d :: q =>
        if d =? 117 then
          match hex4 q with
          | None => None
          | Some (u, r') =>
              if (55296 <=? u) && (u <=? 56319) then
                match eat 92 r' ≫= eat 117 with
                | Some r2 =>
                    match hex4 r2 with
                    | Some (w, r3) =>
                        if (56320 <=? w) && (w <=? 57343)
                        then put (encodeRune (65536 + (u - 55296) * 1024 + (w - 56320))) r3
                        else put (encodeRune runeError) r'
                    | None => None
                    end
                | None => put (encodeRune runeError) r'
                end
              else if (56320 <=? u) && (u <=? 57343) then put (encodeRune runeError) r'
              else put (encodeRune u) r'
          end
        else match simpleEscape d with Some b => put [b] q | None => None end
    end
  else if c <? 32 then None
  else let '(rune, w) := decodeRune (c :: r) in
       if (rune =? runeError) && (w <=? 1)%nat then put (encodeRune runeError) r
       else put (take w (c :: r)) (drop w (c :: r)).
Proof.
  cbv zeta.
  destruct (Z.eqb_spec c 34) as [->|H1]; [reflexivity|].
  destruct (Z.eqb_spec c 92) as [->|H2].
  - destruct r as [|d q]; [reflexivity|].
    destruct (Z.eqb_spec d 117) as [->|Hd].
    + cbn [stringBody]. destruct (hex4 q) as [[u r']|]; [|reflexivity].
      destruct ((55296 <=? u) && (u <=? 56319)); [|reflexivity].
      destruct r' as [|x [|y r']]; cbn [eat mbind option_bind].
      * reflexivity.
      * destruct (Z.eqb_spec x 92) as [->|Hx]; [reflexivity|]. revert Hx. clear.
        by destruct x as [|p|p]; try done; do 7 (try (destruct p as [p|p|]; try done)).
      * destruct (Z.eqb_spec x 92) as [->|Hx].
        -- cbn [mbind option_bind eat]. destruct (Z.eqb_spec y 117) as [->|Hy]; [reflexivity|].
           revert Hy. clear.
           by destruct y as [|p|p]; try done; do 7 (try (destruct p as [p|p|]; try done)).
        -- revert Hx. clear.
           by destruct x as [|p|p]; try done; do 7 (try (destruct p as [p|p|]; try done)).
    + revert Hd. clear.
      by destruct d as [|p|p]; try done; do 7 (try (destruct p as [p|p|]; try done)).
  - revert H1 H2. clear.
    by destruct c as [|p|p]; try done; do 7 (try (destruct p as [p|p|]; try done)).
Qed.

(** ** The scan of a string, byte by byte *)

Inductive scans : list Z → list Z → Prop :=
| scan_end r : scans (34 :: r) r
| scan_u a b c d u x r : hex4 (a :: b :: c :: d :: x) = Some (u, x) → scans x r →
    scans (92 :: 117 :: a :: b :: c :: d :: x) r
| scan_esc c x r : c ≠ 117 → simpleEscape c ≠ None → scans x r → scans (92 :: c :: x) r
| scan_byte c x r : c ≠ 34 → c ≠ 92 → 32 ≤ c → scans x r → scans (c :: x) r.

Lemma hex4_inv l u r :
  hex4 l = Some (u, r) → ∃ a b c d, l = a :: b :: c :: d :: r ∧
    ∀ x, hex4 (a :: b :: c :: d :: x) = Some (u, x).
Proof.
  unfold hex4. destruct l as [|a [|b [|c [|d l]]]]; try done.
  destruct (hexVal a) eqn:Ha, (hexVal b) eqn:Hb, (hexVal c) eqn:Hc, (hexVal d) eqn:Hd; try done.
  intros. simplify_eq. exists a, b, c, d. split; [done|]. by rewrite Ha, Hb, Hc, Hd.
Qed.

Lemma scans_drop n x r : scans x r → (∀ i b, (i < n)%nat → x !! i = Some b → 128 ≤ b) →
  (n ≤ length x)%nat → scans (drop n x) r.
Proof.
  revert x. induction n as [|n IH]; intros x Hs Hb Hl; [done|].
  destruct x as [|b x]; [done|]. pose proof (Hb 0%nat b ltac:(lia) eq_refl).
  inversion Hs; subst; try lia. simpl. apply IH; [done| |simpl in Hl; lia].
  intros i y Hi Hy. apply (Hb (S i)); [lia|done].
Qed.

Lemma scans_prepend l r w : scans r w → Forall (λ b, 128 ≤ b) l → scans (l ++ r) w.
Proof. intros Hs. induction 1; simpl; [done|]. constructor; [lia..|done]. Qed.

(** A rune wider than a byte is made of bytes from 128 on. *)
Lemma decodeRune_wide l r w :
  decodeRune l = (r, w) → (1 < w)%nat →
  (w ≤ length l)%nat ∧ Forall (λ b, 128 ≤ b) (take w l).
Proof.
  intros Hd Hw. destruct l as [|a [|b [|c [|d l]]]]; simpl in Hd;
    repeat match type of Hd with
           | context [if ?x then _ else _] => destruct x eqn:?
           end; simplify_eq; try lia; (split; [simpl; lia|]); breflect;
    repeat (constructor; try (repeat match goal with
      | Hx : context [if ?x then _ else _] |- _ => destruct x eqn:? end; breflect; lia)).
Qed.

Lemma stringBody_scans fuel l s r : stringBody fuel l = Some (s, r) → scans l r.
Proof.
  revert l s. induction fuel as [|fuel IH]; intros l s Hb; [done|].
  destruct l as [|c l]; [done|]. rewrite stringBody_eq in Hb. cbv zeta in Hb.
  assert (Hput : ∀ bytes q, match stringBody fuel q with
    | Some (s, r) => Some (bytes ++ s, r) | None => None end = Some (s, r) → scans q r).
  { intros bytes q Hq. destruct (stringBody fuel q) as [[s' r']|] eqn:E; [|done].
    simplify_eq. by eapply IH. }
  destruct (Z.eqb_spec c 34) as [->|H1]; [simplify_eq; constructor|].
  destruct (Z.eqb_spec c 92) as [->|H2].
  - destruct l as [|d q]; [done|]. destruct (Z.eqb_spec d 117) as [->|Hd].
    + destruct (hex4 q) as [[u r']|] eqn:Hx; [|done].
      apply hex4_inv in Hx as (a & b & c & d & -> & Hx). econstructor; [apply Hx|].
      destruct ((55296 <=? u) && (u <=? 56319)).
      * destruct (eat 92 r' ≫= eat 117) as [r2|] eqn:He; [|by eapply Hput].
        destruct (hex4 r2) as [[v r3]|] eqn:Hv; [|done].
        destruct ((56320 <=? v) && (v <=? 57343)); [|by eapply Hput].
        destruct (eat 92 r') as [q|] eqn:Hq; [|done]. simpl in He.
        apply eat_Some in Hq as ->. apply eat_Some in He as ->.
        apply hex4_inv in Hv as (a' & b' & c' & d' & -> & Hv).
        econstructor; [apply Hv|]. by eapply Hput.
      * destruct ((56320 <=? u) && (u <=? 57343)); by eapply Hput.
    + destruct (simpleEscape d) as [b|] eqn:He; [|done].
      apply scan_esc; [done|by rewrite He|]. by eapply Hput.
  - destruct (Z.ltb_spec c 32) as [|H3]; [done|].
    apply scan_byte; [done..|].
    destruct (decodeRune (c :: l)) as [rune w] eqn:Hd.
    destruct ((rune =? runeError) && (w <=? 1)%nat) eqn:He; [by eapply Hput|].
    apply Hput in Hb. destruct (decide (w ≤ 1)%nat) as [Hw|Hw].
    + destruct w as [|[|w]]; [|exact Hb|lia].
      simpl in Hb. inversion Hb; subst; try done.
    + apply decodeRune_wide in Hd as [Hl Hf]; [|lia]. destruct w as [|w]; [lia|].
      simpl in Hb, Hf, Hl. apply Forall_cons in Hf as [_ Hf].
      rewrite <- (take_drop w l). by apply scans_prepend.
Qed.

(** The scan succeeds with one unit of fuel a byte. *)
Lemma scans_stringBody l r fuel :
  scans l r → (length l < fuel)%nat → ∃ s, stringBody fuel l = Some (s, r).
Proof.
  revert l. induction fuel as [|fuel IH]; intros l Hs Hf; [lia|].
  assert (Hput : ∀ bytes q, scans q r → (length q < fuel)%nat →
    ∃ s, match stringBody fuel q with
    | Some (s, r) => Some (bytes ++ s, r) | None => None end = Some (s, r)).
  { intros bytes q Hq Hl. destruct (IH q Hq Hl) as [s ->]. eauto. }
  destruct Hs as [r|a b c d u x r Hu Hs|c x r Hc He Hs|c x r H1 H2 H3 Hs];
    rewrite stringBody_eq; cbv zeta.
  - eauto.
  - cbn [Z.eqb Pos.eqb]. rewrite Hu. simpl in Hf.
    destruct ((55296 <=? u) && (u <=? 56319)); [|destruct ((56320 <=? u) && (u <=? 57343));
      apply Hput; [done|lia|done|lia]].
    destruct (eat 92 x ≫= eat 117) as [r2|] eqn:Hx; [|apply Hput; [done|lia]].
    destruct (eat 92 x) as [q|] eqn:Hq; [|done]. simpl in Hx.
    apply eat_Some in Hq as ->. apply eat_Some in Hx as ->.
    inversion Hs as [|a' b' c' d' v y ? Hv Hy|?????|]; subst; try done.
    rewrite Hv. simpl in Hf.
    destruct ((56320 <=? v) && (v <=? 57343)); apply Hput; [done|lia|done|simpl; lia].
  - cbn [Z.eqb Pos.eqb]. destruct (Z.eqb_spec c 117); [done|].
    destruct (simpleEscape c); [|done]. simpl in Hf. apply Hput; [done|lia].
  - destruct (Z.eqb_spec c 34); [done|]. destruct (Z.eqb_spec c 92); [done|].
    destruct (Z.ltb_spec c 32); [lia|]. simpl in Hf.
    destruct (decodeRune (c :: x)) as [rune w] eqn:Hd.
    destruct ((rune =? runeError) && (w <=? 1)%nat) eqn:He; [apply Hput; [done|lia]|].
    destruct (decide (w ≤ 1)%nat) as [Hw|Hw].
    + assert (w = 1%nat) as ->.
      { destruct w as [|[|w]]; [|done|lia]. exfalso. revert Hd. clear. simpl.
        repeat case_match; naive_solver. }
      apply Hput; [exact Hs|simpl; rewrite ?drop_0; lia].
    + apply decodeRune_wide in Hd as [Hl Hfa]; [|lia]. destruct w as [|w]; [lia|].
      simpl in Hfa, Hl. apply Forall_cons in Hfa as [_ Hfa]. cbn [drop].
      apply Hput; [|rewrite length_drop; lia].
      apply scans_drop; [done| |lia]. intros i b Hi Hb.
      eapply Forall_forall; [exact Hfa|]. apply list_elem_of_lookup. exists i.
      by rewrite lookup_take_lt.
Qed.

(** ** Compacting a string *)

Lemma compact_copy e c r :
  isHTML c = false → c ≠ 34 → c ≠ 92 → c ≠ 226 →
  compactCodes true e (c :: r) = c :: compactCodes true false r.
Proof.
  intros Hh H1 H2 H3. rewrite compact_in, Hh.
  destruct (Z.eqb_spec c 226); [done|]. destruct (Z.eqb_spec c 34); [done|].
  destruct (Z.eqb_spec c 92); [done|]. by rewrite !andb_false_r.
Qed.

Lemma hexVal_plain c z :
  hexVal c = Some z → isHTML c = false ∧ c ≠ 34 ∧ c ≠ 92 ∧ c ≠ 226.
Proof.
  intros Hh. split_and!; try (by intros ->). unfold isHTML.
  destruct (Z.eqb_spec c 60) as [->|]; [done|]. destruct (Z.eqb_spec c 62) as [->|]; [done|].
  by destruct (Z.eqb_spec c 38) as [->|].
Qed.

Lemma hexVal_high c z : hexVal c = Some z → 32 ≤ c.
Proof.
  intros Hh. destruct (Z.le_gt_cases 32 c); [done|exfalso]. revert Hh.
  destruct c as [|p|p]; [done| |done].
  do 5 (try (destruct p as [p|p|]; try done)); lia.
Qed.
Lemma hex4_high a b c d x u :
  hex4 (a :: b :: c :: d :: x) = Some (u, x) → Forall (Z.le 32) [a; b; c; d].
Proof.
  unfold hex4. destruct (hexVal a) eqn:Ha, (hexVal b) eqn:Hb, (hexVal c) eqn:Hc,
    (hexVal d) eqn:Hd; try done. intros _. repeat constructor; by eapply hexVal_high.
Qed.
Lemma simpleEscape_high c b : simpleEscape c = Some b → 32 ≤ c.
Proof.
  unfold simpleEscape. repeat match goal with |- context [?c =? ?z] =>
    destruct (Z.eqb_spec c z); [lia|] end. done.
Qed.

Lemma compact_hex e a b c d u x r :
  hex4 (a :: b :: c :: d :: x) = Some (u, x) →
  compactCodes true e (a :: b :: c :: d :: r) = a :: b :: c :: d :: compactCodes true false r.
Proof.
  unfold hex4. destruct (hexVal a) eqn:Ha, (hexVal b) eqn:Hb, (hexVal c) eqn:Hc,
    (hexVal d) eqn:Hd; try done. intros _.
  apply hexVal_plain in Ha, Hb, Hc, Hd. destruct_and!. by rewrite !compact_copy.
Qed.

Lemma compact_u e a b c d u x r :
  hex4 (a :: b :: c :: d :: x) = Some (u, x) →
  compactCodes true e (92 :: 117 :: a :: b :: c :: d :: r) =
  92 :: 117 :: a :: b :: c :: d :: compactCodes true false r.
Proof.
  intros Hx. rewrite compact_in. cbn [isHTML Z.eqb Pos.eqb orb andb].
  rewrite andb_false_r, andb_true_r. cbn [negb]. rewrite (compact_copy _ 117) by done.
  by erewrite compact_hex.
Qed.

Lemma compact_simple c b r :
  simpleEscape c = Some b →
  compactCodes true false (92 :: c :: r) = 92 :: c :: compactCodes true false r.
Proof.
  intros He. rewrite compact_in. cbn [isHTML Z.eqb Pos.eqb orb andb negb].
  rewrite compact_in. cbn [negb andb].
  assert (isHTML c = false ∧ c ≠ 226) as [-> Hc].
  { unfold isHTML. split; [|by intros ->].
    destruct (Z.eqb_spec c 60) as [->|]; [done|]. destruct (Z.eqb_spec c 62) as [->|]; [done|].
    by destruct (Z.eqb_spec c 38) as [->|]. }
  by destruct (Z.eqb_spec c 226).
Qed.

Lemma scans_html c x r : isHTML c = true → scans x r → scans (escapeHTML c ++ x) r.
Proof.
  unfold isHTML. intros Hc Hs. apply orb_true_iff in Hc as [Hc|Hc];
    [apply orb_true_iff in Hc as [Hc|Hc]|]; apply Z.eqb_eq in Hc as ->;
    by eapply (scan_u _ _ _ _ _ x).
Qed.

(** U+2028 or U+2029 at the front. *)
Definition separator (l : list Z) : Prop :=
  match l with 226 :: 128 :: d :: _ => d = 168 ∨ d = 169 | _ => False end.
#[local] Instance separator_dec l : Decision (separator l).
Proof.
  unfold separator. repeat case_match; apply _.
Defined.
Lemma separator_inv l : separator l → ∃ d q, l = 226 :: 128 :: d :: q ∧ (d = 168 ∨ d = 169).
Proof. unfold separator. repeat case_match; naive_solver. Qed.

(** A string is compacted to a string. *)
Lemma compact_scans l r :
  scans l r → ∃ w, compactCodes true false l = w ++ compactCodes false false r ∧
    Forall (Z.le 32) w ∧ ∀ rest, scans (w ++ rest) rest.
Proof.
  remember (length l) as n eqn:Hn. assert (Hl : (length l ≤ n)%nat) by lia. clear Hn.
  revert l Hl. induction n as [|n IH]; intros l Hl Hs; [by destruct Hs; simpl in Hl; lia|].
  inversion Hs as [q|a b c d u x ? Hu Hx|c x ? Hc He Hx|c x ? H1 H2 H3 Hx]; subst; simpl in Hl.
  - exists [34]. split; [done|]. split; [by repeat constructor|]. constructor.
  - destruct (IH x ltac:(lia) Hx) as (w & Hw & Hge & Hr).
    exists (92 :: 117 :: a :: b :: c :: d :: w). split.
    + erewrite compact_u by done. by rewrite Hw.
    + split; [apply hex4_high in Hu; do 2 (constructor; [done|]);
        by apply (Forall_app_2 _ [a; b; c; d])|].
      intros rest. simpl. econstructor; [|apply Hr]. apply hex4_inv in Hu as (? & ? & ? & ? & ? & Hu).
      simplify_eq. apply Hu.
  - destruct (IH x ltac:(lia) Hx) as (w & Hw & Hge & Hr). destruct (simpleEscape c) as [b|] eqn:E; [|done].
    exists (92 :: c :: w). split; [by erewrite compact_simple, Hw|].
    split; [constructor; [done|]; constructor; [by eapply simpleEscape_high|done]|].
    intros rest. apply scan_esc; [done|by rewrite E|apply Hr].
  - destruct (isHTML c) eqn:Hh.
    { destruct (IH x ltac:(lia) Hx) as (w & Hw & Hge & Hr). exists (escapeHTML c ++ w).
      rewrite compact_in, Hh, Hw, <- app_assoc. split; [done|]. split.
      { apply Forall_app. split; [|done]. unfold isHTML in Hh.
        repeat (apply orb_true_iff in Hh as [Hh|Hh]); apply Z.eqb_eq in Hh as ->;
          by repeat constructor. }
      intros rest. rewrite <- app_assoc. by apply scans_html. }
    destruct (decide (separator (c :: x))) as [(d & q & Hq & Hd)%separator_inv|Hsep].
    { injection Hq as -> ->. clear Hs. 
      assert (Hx1 : scans (d :: q) r) by (inversion Hx; by subst).
      assert (Hq : scans q r) by (inversion Hx1; subst; naive_solver).
      simpl in Hl. destruct (IH q ltac:(lia) Hq) as (w & Hw & Hge & Hr).
      exists ([92; 117; 50; 48; 50; hexLower (d - 160)] ++ w). split.
      - rewrite compact_in. cbn [isHTML Z.eqb Pos.eqb orb eat].
        assert ((d =? 168) || (d =? 169) = true) as -> by (apply orb_true_iff; lia).
        by rewrite Hw, <- app_assoc.
      - split; [apply Forall_app; split; [|done]; destruct Hd as [-> | ->]; by repeat constructor|].
        intros rest. simpl. destruct Hd as [-> | ->]; by eapply (scan_u _ _ _ _ _ (w ++ rest)). }
    destruct (IH x ltac:(lia) Hx) as (w & Hw & Hge & Hr). exists (c :: w). split.
    + rewrite compact_in, Hh. destruct (Z.eqb_spec c 34); [done|]. destruct (Z.eqb_spec c 92); [done|].
      rewrite !andb_false_r. cbn [negb]. rewrite Hw.
      destruct (Z.eqb_spec c 226) as [->|]; [|done]. destruct (eat 128 x) as [[|d q]|] eqn:He; [done| |done].
      apply eat_Some in He as ->. destruct (Z.eqb_spec d 168) as [->|]; [by destruct Hsep; left|].
      destruct (Z.eqb_spec d 169) as [->|]; [by destruct Hsep; right|]. done.
    + split; [by constructor|]. intros rest. by apply scan_byte.
Qed.

(** ** Numbers *)

(** What follows a value inside an object or an array. *)
Definition stops (rest : list Z) : Prop :=
  match rest with [] => True | c :: _ => c = 44 ∨ c = 93 ∨ c = 125 end.

Definition intPart (l : list Z) : option (list Z) :=
  match eat 48 l with
  | Some l' => Some l'
  | None => match l with
            | c :: _ => if (49 <=? c) && (c <=? 57) then Some (digits l).2 else None
            | [] => None
            end
  end.
Definition fracPart (l : list Z) : option (list Z) :=
  match eat 46 l with
  | Some l' => match digits l' with ([], _) => None | (_, r) => Some r end
  | None => Some l
  end.
Definition signPart (l : list Z) : list Z :=
  match l with s :: r => if (s =? 43) || (s =? 45) then r else l | [] => l end.
Definition expPart (l : list Z) : option (list Z) :=
  match l with
  | c :: l' =>
      if (c =? 101) || (c =? 69) then
        match digits (signPart l') with ([], _) => None | (_, r) => Some r end
      else Some l
  | [] => Some l
  end.

Lemma number_eq l :
  number l = match intPart (default l (eat 45 l)) with
             | None => None
             | Some l => match fracPart l with None => None | Some l => expPart l end
             end.
Proof.
  assert (E45 : ∀ l, match l with 45 :: l' => l' | _ => l end = default l (eat 45 l)).
  { intros [|c r]; [done|]. simpl. destruct (Z.eqb_spec c 45) as [->|Hc]; [done|]. simpl.
    revert Hc. by destruct c as [|p|p]; try done; do 6 (try (destruct p as [p|p|]; try done)). }
  assert (E48 : ∀ l, match l with
             | 48 :: l' => Some l'
             | c :: _ => if (49 <=? c) && (c <=? 57) then Some (digits l).2 else None
             | [] => None
             end = intPart l).
  { intros [|c r]; [done|]. unfold intPart, eat. destruct (Z.eqb_spec c 48) as [->|Hc]; [done|].
    revert Hc. by destruct c as [|p|p]; try done; do 6 (try (destruct p as [p|p|]; try done)). }
  assert (E46 : ∀ l, match l with
             | 46 :: l' => match digits l' with ([], _) => None | (_, r) => Some r end
             | _ => Some l
             end = fracPart l).
  { intros [|c r]; [done|]. unfold fracPart, eat. destruct (Z.eqb_spec c 46) as [->|Hc]; [done|].
    revert Hc. by destruct c as [|p|p]; try done; do 6 (try (destruct p as [p|p|]; try done)). }
  unfold number. rewrite E45, E48. destruct (intPart _) as [q|]; [|done]. rewrite E46. done.
Qed.

Definition noDigit (l : list Z) : Prop :=
  match l with [] => True | c :: _ => isDigit c = false end.
Lemma stops_noDigit rest : stops rest → noDigit rest.
Proof. destruct rest as [|x rest]; [done|]. by intros [-> | [-> | ->]]. Qed.
Definition numChar (c : Z) : bool :=
  isDigit c || (c =? 45) || (c =? 43) || (c =? 46) || (c =? 101) || (c =? 69).

Lemma digits_split l d r :
  digits l = (d, r) → l = d ++ r ∧ Forall (λ c, isDigit c = true) d ∧ noDigit r.
Proof.
  revert d. induction l as [|c l IH]; intros d Hd; simpl in Hd; [by simplify_eq|].
  destruct (isDigit c) eqn:Hc; [|by simplify_eq].
  destruct (digits l) as [d' r'] eqn:E. simplify_eq.
  destruct (IH d' eq_refl) as (-> & Hf & Hn). repeat split; [by constructor|done].
Qed.

Lemma digits_app ds rest :
  Forall (λ c, isDigit c = true) ds → noDigit rest → digits (ds ++ rest) = (ds, rest).
Proof.
  intros Hd Hs. induction Hd as [|c ds Hc Hds IH]; simpl; [|by rewrite Hc, IH].
  destruct rest as [|c r]; [done|]. simpl in *. by rewrite Hs.
Qed.

Lemma digits_num d : Forall (λ c, isDigit c = true) d → Forall (λ c, numChar c = true) d.
Proof. intros Hd. eapply Forall_impl; [done|]. intros c Hc. unfold numChar. by rewrite Hc. Qed.

Lemma intPart_split l r :
  intPart l = Some r → ∃ d w, l = (d :: w) ++ r ∧ isDigit d = true ∧
    Forall (λ c, isDigit c = true) w ∧ ∀ rest, noDigit rest → intPart ((d :: w) ++ rest) = Some rest.
Proof.
  unfold intPart. destruct (eat 48 l) as [q|] eqn:He.
  - intros. simplify_eq. apply eat_Some in He as ->. exists 48, []. repeat split; done.
  - destruct l as [|c l]; [done|]. simpl in He.
    destruct ((49 <=? c) && (c <=? 57)) eqn:Hc; [|done]. intros Hr.
    assert (Hd : isDigit c = true) by (unfold isDigit; breflect; apply andb_true_iff; lia).
    destruct (digits (c :: l)) as [d r'] eqn:E. injection Hr as <-. simpl in E.
    rewrite Hd in E. destruct (digits l) as [d' q] eqn:E'. simplify_eq.
    apply digits_split in E' as (-> & Hf & Hn). exists c, d'. repeat split; [done..|].
    intros rest Hrest. cbn [app eat]. destruct (c =? 48); [done|]. rewrite Hc.
    change (c :: d' ++ rest) with ((c :: d') ++ rest). rewrite digits_app; [done| |done].
    by constructor.
Qed.

Lemma fracPart_split l r :
  fracPart l = Some r → ∃ w, l = w ++ r ∧ Forall (λ c, numChar c = true) w ∧
    (w = [] ∨ ∃ w', w = 46 :: w') ∧
    ∀ rest, noDigit rest → eat 46 rest = None → fracPart (w ++ rest) = Some rest.
Proof.
  unfold fracPart. destruct (eat 46 l) as [q|] eqn:He.
  - apply eat_Some in He as ->. destruct (digits q) as [[|d ds] q'] eqn:E; [done|]. intros. simplify_eq.
    apply digits_split in E as (-> & Hf & Hn). exists (46 :: d :: ds). split; [done|].
    split; [constructor; [done|by apply digits_num]|]. split; [eauto|].
    intros rest Hr _. change ((46 :: d :: ds) ++ rest) with (46 :: (d :: ds) ++ rest).
    cbn [eat Z.eqb Pos.eqb]. by rewrite (digits_app (d :: ds)).
  - intros. simplify_eq. exists []. repeat split; [constructor|by left|].
    intros rest _ Hr. simpl. by rewrite Hr.
Qed.

Lemma expPart_split l r :
  expPart l = Some r → ∃ w, l = w ++ r ∧ Forall (λ c, numChar c = true) w ∧
    (w = [] ∨ ∃ c w', w = c :: w' ∧ (c = 101 ∨ c = 69)) ∧
    ∀ rest, stops rest → expPart (w ++ rest) = Some rest.
Proof.
  assert (Hstop : ∀ rest, stops rest → expPart rest = Some rest).
  { intros [|c rest]; [done|]. intros [-> | [-> | ->]]; done. }
  destruct l as [|c l]; simpl.
  { intros [= <-]. exists []. split_and!; [done|constructor|by left|done]. }
  destruct ((c =? 101) || (c =? 69)) eqn:Hc.
  2: { intros [= <-]. exists []. split_and!; [done|constructor|by left|done]. }
  destruct (digits (signPart l)) as [[|d ds] q] eqn:E; [done|]. intros. simplify_eq.
  assert (Hc' : c = 101 ∨ c = 69) by (apply orb_true_iff in Hc; lia).
  assert (Hnc : numChar c = true) by by destruct Hc' as [-> | ->].
  apply digits_split in E as (E & Hf & Hn).
  assert (Hnod := stops_noDigit).
  assert (Hd : isDigit d = true) by by apply Forall_inv in Hf.
  assert (Hds : ∀ rest, signPart (d :: ds ++ rest) = d :: ds ++ rest).
  { intros rest. simpl. unfold isDigit in Hd. breflect.
    destruct (Z.eqb_spec d 43); [lia|]. destruct (Z.eqb_spec d 45); [lia|]. done. }
  destruct l as [|s l]; [done|]. simpl in E.
  destruct ((s =? 43) || (s =? 45)) eqn:Hsg.
  - subst l. exists (c :: s :: d :: ds). split; [done|]. split.
    { constructor; [done|]. constructor; [|by apply digits_num]. unfold numChar.
      apply orb_true_iff in Hsg as [Hsg|Hsg]; rewrite Hsg; by rewrite !orb_true_r. }
    split; [right; eauto|]. intros rest Hr.
    change ((c :: s :: d :: ds) ++ rest) with (c :: s :: (d :: ds) ++ rest).
    cbn [expPart signPart]. rewrite Hc, Hsg. by rewrite (digits_app (d :: ds)) by auto.
  - exists (c :: d :: ds). rewrite E. split; [done|]. split; [constructor; [done|by apply digits_num]|].
    split; [right; eauto|]. intros rest Hr. cbn [app expPart]. rewrite Hc.
    rewrite Hds. change (d :: ds ++ rest) with ((d :: ds) ++ rest).
    by rewrite (digits_app (d :: ds)) by auto.
Qed.

(** A number ends where it did when something else follows it. *)
Lemma number_split l r :
  number l = Some r → ∃ c w, l = (c :: w) ++ r ∧ (c = 45 ∨ isDigit c = true) ∧
    Forall (λ c, numChar c = true) (c :: w) ∧
    ∀ rest, stops rest → number ((c :: w) ++ rest) = Some rest.
Proof.
  rewrite number_eq. destruct (intPart _) as [q|] eqn:Hi; [|done].
  destruct (fracPart q) as [q'|] eqn:Hf; [|done]. intros He.
  apply intPart_split in Hi as (d & w1 & Hl & Hd & Hw1 & H1).
  apply fracPart_split in Hf as (w2 & -> & Hw2 & Hh2 & H2).
  apply expPart_split in He as (w3 & -> & Hw3 & Hh3 & H3).
  assert (Hnum : Forall (λ c, numChar c = true) ((d :: w1) ++ w2 ++ w3)).
  { apply Forall_app. split; [|by apply Forall_app]. apply digits_num. by constructor. }
  assert (Hgo : ∀ rest, stops rest →
    match intPart ((d :: w1) ++ w2 ++ w3 ++ rest) with
    | None => None
    | Some l => match fracPart l with None => None | Some l => expPart l end
    end = Some rest).
  { intros rest Hr.
    assert (Hn3 : noDigit (w3 ++ rest) ∧ eat 46 (w3 ++ rest) = None).
    { destruct Hh3 as [-> | (c & w' & -> & [-> | ->])]; [|done..].
      destruct rest as [|c rest]; [done|]. by destruct Hr as [-> | [-> | ->]]. }
    rewrite H1; [rewrite H2 by apply Hn3; by apply H3|].
    destruct Hh2 as [-> | [w' ->]]; [apply Hn3|done]. }
  assert (Hd45 : eat 45 ((d :: w1) ++ w2 ++ w3 ++ r) = None ∧
    ∀ x, eat 45 ((d :: w1) ++ x) = None).
  { assert (d ≠ 45) by (unfold isDigit in Hd; breflect; lia).
    split; [|intros x]; simpl; by destruct (Z.eqb_spec d 45). }
  destruct (eat 45 l) as [l'|] eqn:E45; simpl in Hl; subst.
  - apply eat_Some in E45 as ->. exists 45, ((d :: w1) ++ w2 ++ w3).
    split; [simpl; by rewrite <- !app_assoc|]. split; [by left|].
    split; [by constructor|]. intros rest Hr. rewrite number_eq.
    change ((45 :: (d :: w1) ++ w2 ++ w3) ++ rest) with (45 :: ((d :: w1) ++ w2 ++ w3) ++ rest).
    cbn [eat Z.eqb Pos.eqb default]. rewrite <- !app_assoc. by apply Hgo.
  - exists d, (w1 ++ w2 ++ w3). split; [simpl; by rewrite <- !app_assoc|]. split; [by right|].
    split; [done|]. intros rest Hr. rewrite number_eq.
    rewrite app_comm_cons, <- !app_assoc.
    rewrite (proj2 Hd45). by apply Hgo.
Qed.

(** ** Values *)

Definition parseAtom (l : list Z) : option (json * list Z) :=
  match literal [110; 117; 108; 108] l, literal [116; 114; 117; 101] l,
        literal [102; 97; 108; 115; 101] l with
  | Some r, _, _ => Some (JNull, r)
  | _, Some r, _ => Some (JBool true, r)
  | _, _, Some r => Some (JBool false, r)
  | _, _, _ => match number l with
               | Some r => Some (JNum (rawText l r), r) | None => None end
  end.

Lemma parseValue_eq fuel depth l :
  parseValue (S fuel) depth l =
  match skipWS l with
  | [] => None
  | c :: r =>
      if c =? 123 then
        if maxNestingDepth <? depth + 1 then None
        else match eat 125 (skipWS r) with
             | Some q => Some (JObj [], q)
             | None => match parseMembers fuel (depth + 1) (skipWS r) with
                       | Some (ms, r) => Some (JObj ms, r) | None => None end
             end
      else if c =? 91 then
        if maxNestingDepth <? depth + 1 then None
        else match eat 93 (skipWS r) with
             | Some q => Some (JArr [], q)
             | None => match parseElements fuel (depth + 1) (skipWS r) with
                       | Some (vs, r) => Some (JArr vs, r) | None => None end
             end
      else if c =? 34 then
        match stringBody (S (length r)) r with
        | Some (s, r) => Some (JStr (of_codes s), r) | None => None end
      else parseAtom (c :: r)
  end.
Proof.
  cbn [parseValue]. destruct (skipWS l) as [|c r]; [done|].
  destruct (Z.eqb_spec c 123) as [->|H1].
  { destruct (maxNestingDepth <? depth + 1); [done|].
    destruct (skipWS r) as [|d q]; [done|]. simpl.
    destruct (Z.eqb_spec d 125) as [->|Hd]; [done|]. revert Hd. clear.
    by destruct d as [|p|p]; try done; do 7 (try (destruct p as [p|p|]; try done)). }
  destruct (Z.eqb_spec c 91) as [->|H2].
  { destruct (maxNestingDepth <? depth + 1); [done|].
    destruct (skipWS r) as [|d q]; [done|]. simpl.
    destruct (Z.eqb_spec d 93) as [->|Hd]; [done|]. revert Hd. clear.
    by destruct d as [|p|p]; try done; do 7 (try (destruct p as [p|p|]; try done)). }
  destruct (Z.eqb_spec c 34) as [->|H3]; [done|].
  revert H1 H2 H3. clear.
  by destruct c as [|p|p]; try done; do 7 (try (destruct p as [p|p|]; try done)).
Qed.

(** What follows a member or an element: the end of the collection, or another one. *)
Definition parseNext {A} (close : Z) (a : A) (more : list Z → option (list A * list Z))
    (r : list Z) : option (list A * list Z) :=
  match eat close (skipWS r) with
  | Some q => Some ([a], q)
  | None => match eat 44 (skipWS r) with
            | Some q => match more q with Some (l, r) => Some (a :: l, r) | None => None end
            | None => None
            end
  end.

Lemma parseMembers_eq fuel depth l :
  parseMembers (S fuel) depth l =
  match eat 34 (skipWS l) with
  | None => None
  | Some r =>
      match stringBody (S (length r)) r with
      | None => None
      | Some (k, r) =>
          match eat 58 (skipWS r) with
          | None => None
          | Some r =>
              match parseValue fuel depth (skipWS r) with
              | None => None
              | Some (v, q) => parseNext 125 (of_codes k, rawText (skipWS r) q, v)
                                 (parseMembers fuel depth) q
              end
          end
      end
  end.
Proof.
  cbn [parseMembers]. destruct (skipWS l) as [|c r]; [done|]. cbn [eat].
  destruct (Z.eqb_spec c 34) as [->|Hc].
  2: { revert Hc. clear.
       by destruct c as [|p|p]; try done; do 7 (try (destruct p as [p|p|]; try done)). }
  destruct (stringBody (S (length r)) r) as [[k q]|]; [|done].
  destruct (skipWS q) as [|d q']; [done|]. cbn [eat].
  destruct (Z.eqb_spec d 58) as [->|Hd].
  2: { revert Hd. clear.
       by destruct d as [|p|p]; try done; do 7 (try (destruct p as [p|p|]; try done)). }
  destruct (parseValue fuel depth (skipWS q')) as [[v x]|]; [|done]. unfold parseNext.
  destruct (skipWS x) as [|e y]; [done|]. cbn [eat].
  destruct (Z.eqb_spec e 125) as [->|He]; [done|]. destruct (Z.eqb_spec e 44) as [->|He']; [done|].
  revert He He'. clear.
  by destruct e as [|p|p]; try done; do 7 (try (destruct p as [p|p|]; try done)).
Qed.

Lemma parseElements_eq fuel depth l :
  parseElements (S fuel) depth l =
  match parseValue fuel depth l with
  | None => None
  | Some (v, r) => parseNext 93 v (parseElements fuel depth) r
  end.
Proof.
  cbn [parseElements]. destruct (parseValue fuel depth l) as [[v x]|]; [|done]. unfold parseNext.
  destruct (skipWS x) as [|e y]; [done|]. cbn [eat].
  destruct (Z.eqb_spec e 93) as [->|He]; [done|]. destruct (Z.eqb_spec e 44) as [->|He']; [done|].
  revert He He'. clear.
  by destruct e as [|p|p]; try done; do 7 (try (destruct p as [p|p|]; try done)).
Qed.

(** [skipWS] stops at a byte that is not white space. *)
Lemma skipWS_head l c r : skipWS l = c :: r → isWS c = false.
Proof.
  induction l as [|x l IH]; simpl; [done|]. destruct (isWS x) eqn:Hx; [done|].
  intros. by simplify_eq.
Qed.
Lemma skipWS_id c r : isWS c = false → skipWS (c :: r) = c :: r.
Proof. simpl. by intros ->. Qed.
Lemma compact_skipWS l :
  compactCodes false false (skipWS l) = compactCodes false false l.
Proof.
  induction l as [|c l IH]; [done|]. cbn [skipWS]. rewrite (compact_out _ c l).
  destruct (isWS c) eqn:Hc; [done|]. by rewrite compact_out, Hc.
Qed.

(** Compact text [w] of something that parses: it is followed by the compact rest, it
    starts with a byte of the value, and it parses whatever comes after. *)
Definition compacts {A} (parse : nat → list Z → option (A * list Z)) (n : nat) (ok : Z → Prop)
    (after : list Z → Prop) (l r : list Z) : Prop :=
  ∃ c w, compactCodes false false l = (c :: w) ++ compactCodes false false r ∧ ok c ∧
    Forall (Z.le 32) (c :: w) ∧
    ∀ m rest, (n ≤ m)%nat → after rest → ∃ a, parse m ((c :: w) ++ rest) = Some (a, rest).

Definition valueHead (c : Z) : Prop := isWS c = false ∧ c ≠ 93 ∧ c ≠ 125.

Lemma literal_split t l r : literal t l = Some r → l = t ++ r.
Proof.
  revert l. induction t as [|c t IH]; intros l Hl; simpl in *; [by simplify_eq|].
  destruct l as [|d l]; [done|]. destruct (Z.eqb_spec c d) as [->|]; [|done]. by rewrite (IH l).
Qed.
Lemma literal_app t rest : literal t (t ++ rest) = Some rest.
Proof. induction t as [|c t IH]; [done|]. simpl. by rewrite Z.eqb_refl. Qed.

Lemma compact_plain w r :
  Forall (λ c, isWS c = false ∧ c ≠ 34) w →
  compactCodes false false (w ++ r) = w ++ compactCodes false false r.
Proof.
  induction 1 as [|c w [Hc Hq] Hw IH]; [done|]. cbn [app]. rewrite compact_out, Hc.
  destruct (Z.eqb_spec c 34); [done|]. by rewrite IH.
Qed.

Lemma numChar_plain c : numChar c = true → isWS c = false ∧ c ≠ 34.
Proof.
  unfold numChar, isDigit, isWS. intros Hc.
  assert (c = 45 ∨ c = 43 ∨ c = 46 ∨ c = 101 ∨ c = 69 ∨ 48 ≤ c ≤ 57) as Hr.
  { repeat (apply orb_true_iff in Hc as [Hc|Hc]); breflect; lia. }
  split; [|lia]. rewrite !orb_false_iff. lia.
Qed.

Lemma numChar_high c : numChar c = true → 32 ≤ c.
Proof.
  unfold numChar, isDigit. intros Hc. repeat (apply orb_true_iff in Hc as [Hc|Hc]); breflect; lia.
Qed.

(** Whole values that are not collections or strings. *)
Lemma compact_atom l v r :
  parseAtom l = Some (v, r) →
  ∃ c w, l = (c :: w) ++ r ∧ valueHead c ∧ c ≠ 34 ∧ c ≠ 123 ∧ c ≠ 91 ∧
    Forall (λ c, isWS c = false ∧ c ≠ 34) (c :: w) ∧ Forall (Z.le 32) (c :: w) ∧
    ∀ rest, stops rest → ∃ v', parseAtom ((c :: w) ++ rest) = Some (v', rest).
Proof.
  unfold parseAtom, valueHead.
  destruct (literal [110; 117; 108; 108] l) as [q|] eqn:E1.
  { intros [= <- <-]. apply literal_split in E1 as ->. exists 110, [117; 108; 108].
    split_and!; try done; [by repeat (constructor; [done|])..|]. intros rest _. eauto. }
  destruct (literal [116; 114; 117; 101] l) as [q|] eqn:E2.
  { intros [= <- <-]. apply literal_split in E2 as ->. exists 116, [114; 117; 101].
    split_and!; try done; [by repeat (constructor; [done|])..|]. intros rest _. eauto. }
  destruct (literal [102; 97; 108; 115; 101] l) as [q|] eqn:E3.
  { intros [= <- <-]. apply literal_split in E3 as ->. exists 102, [97; 108; 115; 101].
    split_and!; try done; [by repeat (constructor; [done|])..|]. intros rest _. eauto. }
  destruct (number l) as [q|] eqn:E4; [|done]. intros [= <- <-].
  apply number_split in E4 as (c & w & -> & Hc & Hw & Hn). exists c, w.
  assert (Hr : c = 45 ∨ 48 ≤ c ≤ 57) by (unfold isDigit in Hc; destruct Hc; breflect; lia).
  pose proof (numChar_plain c (Forall_inv Hw)) as [Hws _].
  split_and!; try (done || lia).
  { eapply Forall_impl; [exact Hw|]. intros x. apply numChar_plain. }
  { eapply Forall_impl; [exact Hw|]. intros x. apply numChar_high. }
  intros rest Hrest. specialize (Hn rest Hrest). cbn [app] in Hn |- *.
  assert (Hlit : ∀ t x, x ≠ c → literal (x :: t) (c :: w ++ rest) = None).
  { intros t x Hx. simpl. by destruct (Z.eqb_spec x c). }
  rewrite !Hlit by lia. rewrite Hn. eauto.
Qed.

(** The string after its opening quote. *)
Lemma compact_string q s r :
  stringBody (S (length q)) q = Some (s, r) →
  ∃ w, compactCodes true false q = w ++ compactCodes false false r ∧ Forall (Z.le 32) w ∧
    ∀ rest, ∃ s', stringBody (S (length (w ++ rest))) (w ++ rest) = Some (s', rest).
Proof.
  intros Hs%stringBody_scans. destruct (compact_scans _ _ Hs) as (w & Hw & Hge & Hr).
  exists w. split; [done|]. split; [done|]. intros rest. apply scans_stringBody; [done|lia].
Qed.

(** What follows a member or an element. *)
Lemma compact_next {A} close (a : A) (more : list Z → option (list A * list Z)) (n : nat)
    parse ok r l q :
  (∀ l, parse n l = more l) → isWS close = false → close ≠ 34 → close ≠ 44 → 32 ≤ close →
  parseNext close a more r = Some (l, q) →
  (∀ l x, more x = Some (l, q) → compacts parse n ok (λ _, True) x q) →
  ∃ w, compactCodes false false r = w ++ compactCodes false false q ∧ Forall (Z.le 32) w ∧
    (∀ rest, ∃ c t, w ++ rest = c :: t ∧ (c = close ∨ c = 44)) ∧
    ∀ m rest a', (n ≤ m)%nat → ∃ l', parseNext close a' (parse m) (w ++ rest) = Some (l', rest).
Proof.
  intros Hp Hws Hq Hne Hhigh Hn Hmore. unfold parseNext in Hn.
  destruct (eat close (skipWS r)) as [q'|] eqn:E.
  - simplify_eq. apply eat_Some in E. exists [close].
    rewrite <- (compact_skipWS r), E, compact_out, Hws. destruct (Z.eqb_spec close 34); [done|].
    split; [done|]. split; [by repeat constructor|].
    split; [intros rest; exists close, rest; auto|].
    intros m rest a' _. unfold parseNext. cbn [app]. rewrite skipWS_id by done. cbn [eat].
    rewrite Z.eqb_refl. eauto.
  - destruct (eat 44 (skipWS r)) as [x|] eqn:E'; [|done]. apply eat_Some in E'.
    destruct (more x) as [[l' r']|] eqn:Em; [|done]. simplify_eq.
    destruct (Hmore _ _ Em) as (c & w & Hc & Hok & Hge & Hw). exists (44 :: c :: w).
    rewrite <- (compact_skipWS r), E'. rewrite compact_out. cbn [isWS Z.eqb Pos.eqb orb].
    rewrite Hc. split; [done|]. split; [by constructor|].
    split; [intros rest; exists 44, ((c :: w) ++ rest); auto|].
    intros m rest a' Hm. unfold parseNext. change ((44 :: c :: w) ++ rest) with (44 :: (c :: w) ++ rest).
    rewrite skipWS_id by done. cbn [eat]. destruct (Z.eqb_spec 44 close) as [<-|]; [done|].
    cbn [Z.eqb Pos.eqb]. destruct (Hw m rest Hm I) as [l'' ->]. eauto.
Qed.

Lemma compact_parse fuel :
  (∀ depth l v r, parseValue fuel depth l = Some (v, r) →
     compacts (λ m, parseValue m depth) fuel valueHead stops l r) ∧
  (∀ depth l ms r, parseMembers fuel depth l = Some (ms, r) →
     compacts (λ m, parseMembers m depth) fuel (λ c, c = 34) (λ _, True) l r) ∧
  (∀ depth l vs r, parseElements fuel depth l = Some (vs, r) →
     compacts (λ m, parseElements m depth) fuel valueHead (λ _, True) l r).
Proof.
  induction fuel as [|fuel (IHv & IHm & IHe)]; [by split_and!|]. split; [|split].
  - intros depth l v r Hp. rewrite parseValue_eq in Hp.
    destruct (skipWS l) as [|c q] eqn:Hl; [done|]. apply skipWS_head in Hl as Hc.
    unfold compacts. rewrite <- (compact_skipWS l), Hl, compact_out, Hc.
    destruct (Z.eqb_spec c 123) as [->|H1]; [|destruct (Z.eqb_spec c 91) as [->|H2];
      [|destruct (Z.eqb_spec c 34) as [->|H3]]].
    + destruct (maxNestingDepth <? depth + 1) eqn:Hd; [done|]. cbn [Z.eqb Pos.eqb].
      rewrite <- (compact_skipWS q). destruct (eat 125 (skipWS q)) as [q'|] eqn:E.
      * simplify_eq. apply eat_Some in E as ->. exists 123, [125]. split; [done|]. split; [done|]. split; [by repeat constructor|].
        intros [|m] rest Hm _; [lia|]. rewrite parseValue_eq. simpl. rewrite Hd. eauto.
      * destruct (parseMembers fuel (depth + 1) (skipWS q)) as [[ms q']|] eqn:Em; [|done]. simplify_eq.
        destruct (IHm _ _ _ _ Em) as (c & w & Hw & -> & Hge & Hr). exists 123, (34 :: w). rewrite Hw.
        split; [done|]. split; [done|]. split; [by constructor|]. intros [|m] rest Hm _; [lia|]. rewrite parseValue_eq.
        destruct (Hr m rest ltac:(lia) I) as [ms' Hms]. cbn [app] in Hms |- *.
        rewrite skipWS_id by done. cbn [Z.eqb Pos.eqb]. rewrite Hd, skipWS_id by done.
        cbn [eat Z.eqb Pos.eqb]. rewrite Hms. eauto.
    + destruct (maxNestingDepth <? depth + 1) eqn:Hd; [done|]. cbn [Z.eqb Pos.eqb].
      rewrite <- (compact_skipWS q). destruct (eat 93 (skipWS q)) as [q'|] eqn:E.
      * simplify_eq. apply eat_Some in E as ->. exists 91, [93]. split; [done|]. split; [done|]. split; [by repeat constructor|].
        intros [|m] rest Hm _; [lia|]. rewrite parseValue_eq. simpl. rewrite Hd. eauto.
      * destruct (parseElements fuel (depth + 1) (skipWS q)) as [[vs q']|] eqn:Em; [|done]. simplify_eq.
        destruct (IHe _ _ _ _ Em) as (c & w & Hw & (Hws & Hb & _) & Hge & Hr). exists 91, (c :: w). rewrite Hw.
        split; [done|]. split; [done|]. split; [by constructor|]. intros [|m] rest Hm _; [lia|]. rewrite parseValue_eq.
        destruct (Hr m rest ltac:(lia) I) as [vs' Hvs]. cbn [app] in Hvs |- *.
        rewrite skipWS_id by done. cbn [Z.eqb Pos.eqb]. rewrite Hd, skipWS_id by done.
        cbn [eat]. destruct (Z.eqb_spec c 93); [done|]. rewrite Hvs. eauto.
    + cbn [Z.eqb Pos.eqb].
      destruct (stringBody (S (length q)) q) as [[s q']|] eqn:Es; [|done]. simplify_eq.
      destruct (compact_string _ _ _ Es) as (w & Hw & Hge & Hr). exists 34, w. rewrite Hw.
      split; [done|]. split; [done|]. split; [by constructor|]. intros [|m] rest Hm _; [lia|]. rewrite parseValue_eq.
      cbn [app]. rewrite skipWS_id by done. cbn [Z.eqb Pos.eqb]. destruct (Hr rest) as [s' ->]. eauto.
    + destruct (compact_atom _ _ _ Hp) as (c' & w & Hq & Hh & H34 & H123 & H91 & Hf & Hge & Hr).
      injection Hq as -> ->. exists c', w. destruct (Z.eqb_spec c' 34); [done|].
      rewrite compact_plain by by apply Forall_inv_tail in Hf. split; [done|]. split; [done|]. split; [done|].
      intros [|m] rest Hm Hrest; [lia|]. rewrite parseValue_eq. cbn [app]. rewrite skipWS_id by apply Hh.
      destruct (Z.eqb_spec c' 123); [done|]. destruct (Z.eqb_spec c' 91); [done|].
      destruct (Z.eqb_spec c' 34); [done|]. destruct (Hr rest Hrest) as [v' Hv]. eauto.
  - intros depth l ms r Hp. rewrite parseMembers_eq in Hp.
    destruct (eat 34 (skipWS l)) as [q|] eqn:E; [|done]. apply eat_Some in E.
    destruct (stringBody (S (length q)) q) as [[k q1]|] eqn:Es; [|done].
    destruct (eat 58 (skipWS q1)) as [q2|] eqn:E2; [|done]. apply eat_Some in E2.
    destruct (parseValue fuel depth (skipWS q2)) as [[v q3]|] eqn:Ev; [|done].
    unfold compacts. rewrite <- (compact_skipWS l), E, compact_out. cbn [isWS Z.eqb Pos.eqb orb].
    destruct (compact_string _ _ _ Es) as (wk & Hwk & Hgk & Hrk). rewrite Hwk.
    rewrite <- (compact_skipWS q1), E2, compact_out. cbn [isWS Z.eqb Pos.eqb orb].
    destruct (IHv _ _ _ _ Ev) as (c & w & Hw & (Hws & _ & _) & Hge & Hr).
    rewrite compact_skipWS in Hw. rewrite Hw.
    destruct (compact_next 125 _ _ fuel (λ m, parseMembers m depth) (λ c, c = 34) q3 ms r
      ltac:(done) eq_refl ltac:(done) ltac:(done) ltac:(done) Hp) as (wn & Hwn & Hgn & Hstop & Hrn).
    { intros l' x Hx. by eapply IHm. }
    rewrite Hwn. exists 34, (wk ++ 58 :: (c :: w) ++ wn).
    split; [simpl; by rewrite <- !app_assoc; simpl; rewrite <- !app_assoc|]. split; [done|].
    split; [constructor; [done|]; apply Forall_app; split; [done|]; constructor; [done|];
      by apply Forall_app|].
    intros [|m] rest Hm _; [lia|]. rewrite parseMembers_eq. cbn [app]. rewrite skipWS_id by done.
    cbn [eat Z.eqb Pos.eqb]. rewrite <- app_assoc. cbn [app].
    match goal with |- context [wk ++ ?t] => destruct (Hrk t) as [s' ->] end.
    rewrite skipWS_id by done. cbn [eat Z.eqb Pos.eqb]. rewrite <- app_assoc. rewrite skipWS_id by done.
    destruct (Hr m (wn ++ rest) ltac:(lia)) as [v' Hv].
    { destruct (Hstop rest) as (x & t & -> & [-> | ->]); [right; by right|by left]. }
    cbn [app] in Hv |- *. rewrite Hv. by apply Hrn; lia.
  - intros depth l vs r Hp. rewrite parseElements_eq in Hp.
    destruct (parseValue fuel depth l) as [[v q3]|] eqn:Ev; [|done].
    destruct (IHv _ _ _ _ Ev) as (c & w & Hw & Hh & Hge & Hr).
    destruct (compact_next 93 _ _ fuel (λ m, parseElements m depth) valueHead q3 vs r
      ltac:(done) eq_refl ltac:(done) ltac:(done) ltac:(done) Hp) as (wn & Hwn & Hgn & Hstop & Hrn).
    { intros l' x Hx. by eapply IHe. }
    exists c, (w ++ wn). rewrite Hw, Hwn. split; [simpl; by rewrite <- app_assoc|]. split; [done|].
    split; [by apply (Forall_app_2 _ (c :: w))|].
    intros [|m] rest Hm _; [lia|]. rewrite parseElements_eq.
    destruct (Hr m (wn ++ rest) ltac:(lia)) as [v' Hv].
    { destruct (Hstop rest) as (x & t & -> & [-> | ->]); [right; by left|by left]. }
    cbn [app] in Hv |- *. rewrite <- app_assoc, Hv. by apply Hrn; lia.
Qed.

(** ** Fuel *)

Lemma length_skipWS l : (length (skipWS l) ≤ length l)%nat.
Proof. induction l as [|c l IH]; simpl; [done|]. destruct (isWS c); simpl; lia. Qed.
Lemma scans_length l r : scans l r → (length r < length l)%nat.
Proof. induction 1; simpl in *; lia. Qed.
Lemma eat_length z l r : eat z l = Some r → length l = S (length r).
Proof. intros ->%eat_Some. done. Qed.
Lemma parseAtom_length l v r : parseAtom l = Some (v, r) → (length r < length l)%nat.
Proof.
  intros (c & w & -> & _)%compact_atom. simpl. rewrite length_app. lia.
Qed.

(** Two units a consumed byte are enough for a collection, and one less for a value. *)
Lemma parse_fuel fuel :
  (∀ depth l v r, parseValue fuel depth l = Some (v, r) → (length r < length l)%nat ∧
     ∀ m, (2 * length l ≤ S m + 2 * length r)%nat → parseValue m depth l = Some (v, r)) ∧
  (∀ depth l ms r, parseMembers fuel depth l = Some (ms, r) → (length r < length l)%nat ∧
     ∀ m, (2 * length l ≤ m + 2 * length r)%nat → parseMembers m depth l = Some (ms, r)) ∧
  (∀ depth l vs r, parseElements fuel depth l = Some (vs, r) → (length r < length l)%nat ∧
     ∀ m, (2 * length l ≤ m + 2 * length r)%nat → parseElements m depth l = Some (vs, r)).
Proof.
  induction fuel as [|fuel (IHv & IHm & IHe)]; [by split_and!|].
  assert (Hnext : ∀ A close (a : A) more more' q l r,
    parseNext close a more q = Some (l, r) →
    (∀ x l, more x = Some (l, r) → (length r < length x)%nat ∧
       ((2 + length x ≤ length q)%nat ∨ (length x < length q)%nat → more' x = Some (l, r))) →
    (length r < length q)%nat ∧ parseNext close a more' q = Some (l, r)).
  { intros A close a more more' q l r Hn Hmore. unfold parseNext in Hn |- *.
    pose proof (length_skipWS q).
    destruct (eat close (skipWS q)) as [x|] eqn:E.
    { simplify_eq. apply eat_length in E. split; [lia|done]. }
    destruct (eat 44 (skipWS q)) as [x|] eqn:E'; [|done]. apply eat_length in E'.
    destruct (more x) as [[l' r']|] eqn:Em; [|done]. simplify_eq.
    destruct (Hmore _ _ Em) as [Hlt Hm]. split; [lia|]. rewrite Hm by lia. done. }
  split; [|split].
  - intros depth l v r Hp. pose proof (length_skipWS l) as Hl. rewrite parseValue_eq in Hp.
    destruct (skipWS l) as [|c q] eqn:Hs; [done|]. simpl in Hl. pose proof (length_skipWS q) as Hlq.
    assert (Hgo : (length r < length l)%nat →
      (∀ m, (2 * length l ≤ S (S m) + 2 * length r)%nat → parseValue (S m) depth l = Some (v, r)) →
      (length r < length l)%nat ∧
      ∀ m, (2 * length l ≤ S m + 2 * length r)%nat → parseValue m depth l = Some (v, r)).
    { intros Hlt Hm. split; [done|]. intros [|m] Hf; [lia|]. by apply Hm. }
    destruct (Z.eqb_spec c 123) as [->|H1]; [|destruct (Z.eqb_spec c 91) as [->|H2];
      [|destruct (Z.eqb_spec c 34) as [->|H3]]].
    + destruct (maxNestingDepth <? depth + 1) eqn:Hd; [done|].
      destruct (eat 125 (skipWS q)) as [x|] eqn:E.
      { simplify_eq. pose proof (eat_length _ _ _ E). apply Hgo; [lia|]. intros m _.
        rewrite parseValue_eq, Hs. cbn [Z.eqb Pos.eqb]. by rewrite Hd, E. }
      destruct (parseMembers fuel (depth + 1) (skipWS q)) as [[ms x]|] eqn:Em; [|done]. simplify_eq.
      destruct (IHm _ _ _ _ Em) as [Hlt Hm]. apply Hgo; [lia|]. intros m Hf.
      rewrite parseValue_eq, Hs. cbn [Z.eqb Pos.eqb]. by rewrite Hd, E, Hm by lia.
    + destruct (maxNestingDepth <? depth + 1) eqn:Hd; [done|].
      destruct (eat 93 (skipWS q)) as [x|] eqn:E.
      { simplify_eq. pose proof (eat_length _ _ _ E). apply Hgo; [lia|]. intros m _.
        rewrite parseValue_eq, Hs. cbn [Z.eqb Pos.eqb]. by rewrite Hd, E. }
      destruct (parseElements fuel (depth + 1) (skipWS q)) as [[ms x]|] eqn:Em; [|done]. simplify_eq.
      destruct (IHe _ _ _ _ Em) as [Hlt Hm]. apply Hgo; [lia|]. intros m Hf.
      rewrite parseValue_eq, Hs. cbn [Z.eqb Pos.eqb]. by rewrite Hd, E, Hm by lia.
    + destruct (stringBody (S (length q)) q) as [[s x]|] eqn:E; [|done]. simplify_eq.
      apply stringBody_scans in E as Hsc. apply scans_length in Hsc. apply Hgo; [lia|]. intros m _.
      rewrite parseValue_eq, Hs. cbn [Z.eqb Pos.eqb]. by rewrite E.
    + pose proof (parseAtom_length _ _ _ Hp) as Ha. simpl in Ha. apply Hgo; [lia|].
      intros m _. rewrite parseValue_eq, Hs. destruct (Z.eqb_spec c 123); [done|].
      destruct (Z.eqb_spec c 91); [done|]. by destruct (Z.eqb_spec c 34).
  - intros depth l ms r Hp. rewrite parseMembers_eq in Hp. pose proof (length_skipWS l).
    destruct (eat 34 (skipWS l)) as [q|] eqn:E; [|done]. apply eat_length in E as El.
    destruct (stringBody (S (length q)) q) as [[k q1]|] eqn:Es; [|done].
    apply stringBody_scans in Es as Hsc. apply scans_length in Hsc. pose proof (length_skipWS q1).
    destruct (eat 58 (skipWS q1)) as [q2|] eqn:E2; [|done]. apply eat_length in E2 as El2.
    pose proof (length_skipWS q2).
    destruct (parseValue fuel depth (skipWS q2)) as [[v q3]|] eqn:Ev; [|done].
    destruct (IHv _ _ _ _ Ev) as [Hlt Hv].
    assert (Hn := λ more', Hnext _ _ _ _ more' _ _ _ Hp). split.
    { destruct (Hn (parseMembers fuel depth)); [|lia]. intros x l' Hx. split; [|done]. by eapply IHm. }
    intros [|m] Hf; [destruct (Hn (parseMembers fuel depth)); [|lia]; intros x l' Hx;
      split; [by eapply IHm|done]|].
    rewrite parseMembers_eq, E, Es, E2, Hv.
    2: { destruct (Hn (parseMembers fuel depth)); [|lia]. intros x l' Hx. split; [|done]. by eapply IHm. }
    apply Hn. intros x l' Hx. destruct (IHm _ _ _ _ Hx) as [Hlx Hmx]. split; [done|].
    intros Hx'. apply Hmx. lia.
  - intros depth l vs r Hp. rewrite parseElements_eq in Hp.
    destruct (parseValue fuel depth l) as [[v q3]|] eqn:Ev; [|done].
    destruct (IHv _ _ _ _ Ev) as [Hlt Hv].
    assert (Hn := λ more', Hnext _ _ _ _ more' _ _ _ Hp).
    assert (Hlr : (length r < length q3)%nat).
    { destruct (Hn (parseElements fuel depth)); [|lia]. intros x l' Hx. split; [|done]. by eapply IHe. }
    split; [lia|]. intros [|m] Hf; [lia|]. rewrite parseElements_eq, Hv by lia.
    apply Hn. intros x l' Hx. destruct (IHe _ _ _ _ Hx) as [Hlx Hmx]. split; [done|].
    intros Hx'. apply Hmx. lia.
Qed.

(** A valid value compacts to text of a value, with any value delimiter after it; the text is
    not empty and starts with no white space. *)
Lemma compact_valid depth l v r :
  parseValue (S (2 * length l)) depth l = Some (v, r) → skipWS r = [] →
  ∃ c w, compactCodes false false l = c :: w ∧ isWS c = false ∧ Forall (Z.le 32) (c :: w) ∧
    ∀ m rest, (2 * length (c :: w) ≤ m)%nat → stops rest →
    ∃ v', parseValue m depth (c :: w ++ rest) = Some (v', rest).
Proof.
  intros Hp Hr. apply (proj1 (compact_parse _)) in Hp as (c & w & Hw & (Hc & _) & Hge & Hv).
  rewrite <- (compact_skipWS r), Hr, app_nil_r in Hw. exists c, w. split; [done|]. split; [done|].
  split; [done|]. intros m rest Hm Hs. destruct (Hv _ rest (le_n _) Hs) as [v' Hv'].
  exists v'. apply (proj1 (parse_fuel _)) in Hv' as [_ Hf]. apply Hf.
  simpl in Hm |- *. rewrite length_app. lia.
Qed.

(** ** Compacting twice *)

Lemma compact_in_head e d r :
  ∃ x t, compactCodes true e (d :: r) = x :: t ∧ (x = d ∨ x = 92).
Proof.
  rewrite compact_in. destruct (isHTML d); [simpl; eauto|].
  destruct (if d =? 226 then eat 128 r else None) as [[|y q]|]; [eauto| |eauto].
  destruct ((y =? 168) || (y =? 169)); simpl; eauto.
Qed.

Lemma compact_step e c r :
  isHTML c = false → ¬ separator (c :: r) →
  compactCodes true e (c :: r) =
  c :: compactCodes (negb (negb e && (c =? 34))) (negb e && (c =? 92)) r.
Proof.
  intros Hh Hs. rewrite compact_in, Hh. destruct (Z.eqb_spec c 226) as [->|]; [|done].
  destruct (eat 128 r) as [[|d q]|] eqn:E; [done| |done]. apply eat_Some in E as ->.
  destruct (Z.eqb_spec d 168) as [->|]; [by destruct Hs; left|].
  destruct (Z.eqb_spec d 169) as [->|]; [by destruct Hs; right|].
  cbn [orb Z.eqb Pos.eqb]. by rewrite !andb_false_r.
Qed.

(** Compacting does not bring a separator about. *)
Lemma compact_no_separator c e r :
  ¬ separator (c :: r) →
  ¬ separator (c :: compactCodes (negb (negb e && (c =? 34))) (negb e && (c =? 92)) r).
Proof.
  intros Hs (d & q & Hq & Hd)%separator_inv. injection Hq as -> Hq. cbn [Z.eqb Pos.eqb] in Hq.
  rewrite !andb_false_r in Hq. cbn [negb] in Hq. destruct r as [|b r]; [done|].
  destruct (compact_in_head false b r) as (x & t & Hx & Hb). rewrite Hx in Hq. simplify_eq.
  destruct Hb as [<-|?]; [|done]. rewrite compact_copy in Hx by done. simplify_eq.
  destruct r as [|y r]; [done|]. destruct (compact_in_head false y r) as (z & t & Hz & Hy).
  rewrite Hz in Hx. simplify_eq. destruct Hy as [-> | ->]; [by apply Hs|lia].
Qed.

Lemma compact_twice b e l :
  compactCodes b e (compactCodes b e l) = compactCodes b e l.
Proof.
  remember (length l) as n eqn:Hn. assert (Hl : (length l ≤ n)%nat) by lia. clear Hn.
  revert b e l Hl. induction n as [|n IH]; intros b e [|c r] Hl; try done; simpl in Hl; [lia|].
  destruct b.
  - destruct (isHTML c) eqn:Hh.
    { rewrite (compact_in e c r), Hh. unfold isHTML in Hh.
      assert (Hc : c = 60 ∨ c = 62 ∨ c = 38).
      { repeat (apply orb_true_iff in Hh as [Hh|Hh]); breflect; lia. }
      destruct Hc as [-> | [-> | ->]]; cbn [app escapeHTML];
        erewrite (compact_u _ _ _ _ _ _ []) by done; by rewrite IH by lia. }
    destruct (decide (separator (c :: r))) as [(d & q & Hq & Hd)%separator_inv|Hs].
    + injection Hq as -> ->. simpl in Hl. rewrite (compact_in e 226).
      cbn [isHTML Z.eqb Pos.eqb orb eat].
      assert ((d =? 168) || (d =? 169) = true) as -> by (apply orb_true_iff; lia).
      destruct Hd as [-> | ->]; cbn [app];
        erewrite (compact_u _ _ _ _ _ _ []) by done; by rewrite IH by lia.
    + rewrite (compact_step e c r) by done.
      rewrite compact_step by (done || by apply compact_no_separator). by rewrite IH by lia.
  - rewrite (compact_out e c r). destruct (isWS c) eqn:Hc.
    + assert (∀ x, compactCodes false e x = compactCodes false false x) as -> by by intros [].
      apply IH. lia.
    + rewrite compact_out, Hc. by rewrite IH by lia.
Qed.
