(* ===== verification/JsonCodec.v ===== *)
(** * JsonCodec: structs of strings and integers as JSON objects

    [json.Marshal] and [json.Unmarshal] on the structs the policy code writes: fields of
    type [string], [int] (64 bits), [uint64], [bool], [[]string] and [json.RawMessage], with
    or without [omitempty]. The results of the file are [struct_canon]: what was encoded from
    valid UTF-8 text decodes to the same fields, raw messages compacted; and
    [struct_roundtrip], its form for structs without raw messages. *)
From stdpp Require Import base list strings.
From Stdlib Require Import ZArith Lia Ascii.
From S2P Require Import Prelude GoStd Json JsonText.
Open Scope Z_scope.

Inductive fval :=
| VStr (s : string)
| VInt (z : Z)
| VUint (z : Z)
| VBool (b : bool)
| VRaw (r : string)
| VStrs (l : list string).

Record field := mkField { fName : string; fOmitEmpty : bool; fVal : fval }.

Definition isZeroVal (v : fval) : bool :=
  match v with
  | VStr s | VRaw s => (s =? "")%string
  | VInt z | VUint z => z =? 0
  | VBool b => negb b
  | VStrs l => isNone (head l)
  end.
Definition zeroVal (v : fval) : fval :=
  match v with
  | VStr _ => VStr "" | VInt _ => VInt 0 | VUint _ => VUint 0 | VBool _ => VBool false
  | VRaw _ => VRaw "" | VStrs _ => VStrs []
  end.
Definition setVal (v : fval) (f : field) : field := mkField f.(fName) f.(fOmitEmpty) v.

(** ** Encoding *)

Definition quote (s : string) : list Z :=
  34 :: quoteCodes (String.length s) (codes s) ++ [34].

Fixpoint sepBy (sep : Z) (ls : list (list Z)) : list Z :=
  match ls with
  | [] => []
  | [l] => l
  | l :: ls => l ++ sep :: sepBy sep ls
  end.

(** A [nil] slice is [null], a raw message is compacted. *)
Definition valCodes (v : fval) : list Z :=
  match v with
  | VStr s => quote s
  | VInt z | VUint z => codes (itoa z)
  | VBool b => codes (if b then "true" else "false")
  | VRaw r => if (r =? "")%string then codes "null" else compactCodes false false (codes r)
  | VStrs [] => codes "null"
  | VStrs l => 91 :: sepBy 44 (quote <$> l) ++ [93]
  end.
Definition memberCodes (f : field) : list Z := quote f.(fName) ++ 58 :: valCodes f.(fVal).

(** The fields that are written. *)
Definition present (f : field) : bool := negb (f.(fOmitEmpty) && isZeroVal f.(fVal)).
Definition shown (fs : list field) : list field := List.filter present fs.
Definition structCodes (fs : list field) : list Z :=
  123 :: sepBy 44 (memberCodes <$> shown fs) ++ [125].
Definition marshalStruct (fs : list field) : string := of_codes (structCodes fs).

(** ** Decoding *)

(** An element of a [[]string]: [null] leaves the zero value. *)
Fixpoint strings (l : list json) : option (list string) :=
  match l with
  | [] => Some []
  | JStr s :: l => r ← strings l; Some (s :: r)
  | JNull :: l => r ← strings l; Some ("" :: r)
  | _ => None
  end.

(** [strconv.ParseUint] in base 10, 64 bits. *)
Definition parseUint (t : string) : option Z :=
  match t with
  | "" => None
  | _ => z ← digitsVal 0 t; if z <? 2 ^ 64 then Some z else None
  end.

(** Decoding a value, with its text [raw], into a field; [null] leaves the field, except
    that a slice becomes [nil] and a raw message keeps the text; another type is an error. *)
Definition decodeVal (raw : string) (j : json) (old : fval) : option fval :=
  match old, j with
  | VRaw _, _ => Some (VRaw raw)
  | VStrs _, JNull => Some (VStrs [])
  | _, JNull => Some old
  | VStr _, JStr s => Some (VStr s)
  | VInt _, JNum t => z ← atoi t; Some (VInt z)
  | VUint _, JNum t => z ← parseUint t; Some (VUint z)
  | VBool _, JBool b => Some (VBool b)
  | VStrs _, JArr l => r ← strings l; Some (VStrs r)
  | _, _ => None
  end.

(** The field a key sets: the one of that name, else the first that folds to it. *)
Fixpoint assign (matches : field → bool) (raw : string) (j : json) (fs : list field)
  : option (option (list field)) :=
  match fs with
  | [] => None
  | f :: fs =>
      if matches f then Some (v ← decodeVal raw j f.(fVal); Some (setVal v f :: fs))
      else match assign matches raw j fs with
           | Some (Some fs) => Some (Some (f :: fs))
           | r => r
           end
  end.
Definition setMember (fs : list field) (m : string * string * json) : option (list field) :=
  let '(k, raw, j) := m in
  match assign (λ f, (f.(fName) =? k)%string) raw j fs with
  | Some r => r
  | None => match assign (λ f, setsField f.(fName) k) raw j fs with
            | Some r => r
            | None => Some fs
            end
  end.
Fixpoint setMembers (ms : list (string * string * json)) (fs : list field)
  : option (list field) :=
  match ms with
  | [] => Some fs
  | m :: ms => fs ← setMember fs m; setMembers ms fs
  end.
Definition unmarshalStruct (zero : list field) (s : string) : option (list field) :=
  v ← parseJSON s;
  match v with
  | JObj ms => setMembers ms zero
  | JNull => Some zero
  | _ => None
  end.

(** ** Bytes *)

Definition is_byte (z : Z) : Prop := 0 ≤ z < 256.

Lemma of_codes_codes s : of_codes (codes s) = s.
Proof.
  unfold of_codes, codes. induction s as [|c s IH]; [done|]. simpl.
  rewrite chr_ord. by f_equal.
Qed.

Lemma codes_of_codes l : Forall is_byte l → codes (of_codes l) = l.
Proof.
  unfold of_codes, codes. induction 1 as [|z l Hz Hl IH]; [done|]. simpl.
  rewrite ord_chr by done. by f_equal.
Qed.

Lemma codes_bytes s : Forall is_byte (codes s).
Proof.
  unfold codes. apply Forall_fmap, Forall_true. intros c. unfold is_byte, ord, compose.
  pose proof (N_ascii_bounded c). lia.
Qed.

Lemma hexLower_byte z : 0 ≤ z < 16 → is_byte (hexLower z).
Proof.
  intros Hz. unfold hexLower, hexDigit, is_byte.
  destruct (Z.ltb_spec z 10); rewrite ord_chr; lia.
Qed.

Lemma hexVal_lower z : 0 ≤ z < 16 → hexVal (hexLower z) = Some z.
Proof. intros Hz. unfold hexVal, hexLower. rewrite chr_ord. by apply fromHex_digit. Qed.

(** ** Strings *)

(** A rune that is not an encoding error is decoded from its own bytes. *)
Lemma decodeRune_take l r w rest :
  decodeRune l = (r, w) → ¬ (r = runeError ∧ (w ≤ 1)%nat) →
  decodeRune (take w l ++ rest) = (r, w) ∧ (0 < w ≤ length l)%nat.
Proof.
  intros Hd Hr. destruct l as [|a [|b [|c [|d l]]]]; simpl in Hd;
    repeat match type of Hd with
           | context [if ?x then _ else _] => destruct x eqn:?
           end; simplify_eq;
    try (exfalso; apply Hr; split; [done|lia]);
    (split; [|simpl; lia]); simpl;
    repeat match goal with Hx : _ = ?v |- context [if ?x then _ else _] =>
      match type of Hx with x = _ => rewrite Hx end end; done.
Qed.

Lemma decodeRune_sep l r w :
  Forall is_byte l → decodeRune l = (r, w) → r = 8232 ∨ r = 8233 →
  take w l = encodeRune r.
Proof.
  intros Hb Hd Hr. destruct l as [|a [|b [|c [|d l]]]]; simpl in Hd;
    repeat match goal with Hx : Forall _ (_ :: _) |- _ =>
      apply Forall_cons in Hx as [? ?] end; unfold is_byte, runeError in *;
    repeat match type of Hd with
           | context [if ?x then _ else _] => destruct x eqn:?
           end; simplify_eq; breflect; try lia.
  all: repeat match goal with
         | Hx : context [if ?a =? ?b then _ else _] |- _ => destruct (Z.eqb_spec a b)
         end; try lia.
  all: assert (a = 226 ∧ b = 128 ∧ (c = 168 ∨ c = 169)) as (-> & -> & [-> | ->]) by lia; done.
Qed.

Lemma stringBody_plain fuel c r :
  c ≠ 34 → c ≠ 92 → 32 ≤ c →
  stringBody (S fuel) (c :: r) =
  (let '(rune, w) := decodeRune (c :: r) in
   let put bytes rest := match stringBody fuel rest with
                         | Some (s, r) => Some (bytes ++ s, r) | None => None end in
   if (rune =? runeError) && (w <=? 1)%nat then put (encodeRune runeError) r
   else put (take w (c :: r)) (drop w (c :: r))).
Proof.
  intros H1 H2 H3. assert (Hc : (c <? 32) = false) by lia.
  destruct c as [|p|p]; [lia| |lia].
  do 7 (try (destruct p as [p|p|]; [| |try (cbn [stringBody]; rewrite ?Hc; reflexivity); congruence]));
    cbn [stringBody]; rewrite Hc; reflexivity.
Qed.

Lemma stringBody_u fuel a b c d u rest s r :
  hexVal a ≫= (λ a, hexVal b ≫= (λ b, hexVal c ≫= (λ c, hexVal d ≫= (λ d,
    Some (a * 4096 + b * 256 + c * 16 + d))))) = Some u →
  u < 55296 → stringBody fuel rest = Some (s, r) →
  stringBody (S fuel) (92 :: 117 :: a :: b :: c :: d :: rest) = Some (encodeRune u ++ s, r).
Proof.
  intros Hu Hs Hb. cbn [stringBody hex4].
  destruct (hexVal a), (hexVal b), (hexVal c), (hexVal d); simplify_eq/=.
  destruct (Z.leb_spec 55296 (z * 4096 + z0 * 256 + z1 * 16 + z2)); [lia|].
  destruct (Z.leb_spec 56320 (z * 4096 + z0 * 256 + z1 * 16 + z2)); [lia|].
  simpl. by rewrite Hb.
Qed.

Lemma stringBody_escape fuel c rest s r :
  is_byte c → c < 128 → stringBody fuel rest = Some (s, r) →
  stringBody (S fuel) (escapeHTML c ++ rest) = Some (c :: s, r).
Proof.
  intros Hc Hlt Hs. pose proof (Z.div_mod c 16). pose proof (Z.mod_pos_bound c 16).
  unfold is_byte in Hc. assert (0 ≤ c / 16 < 16) by lia.
  change (c :: s) with ([c] ++ s). replace [c] with (encodeRune c).
  - apply stringBody_u; [|lia|done]. rewrite !hexVal_lower by lia.
    change (hexVal 48) with (Some 0). cbn [mbind option_bind]. f_equal. lia.
  - unfold encodeRune. by destruct (Z.ltb_spec c 128); [|lia].
Qed.

(** An ASCII byte, escaped or not. *)
Lemma stringBody_ascii fuel c rest s r :
  is_byte c → c < 128 → stringBody fuel rest = Some (s, r) →
  stringBody (S fuel)
    ((if (c =? 34) || (c =? 92) then [92; c]
      else if c =? 8 then [92; 98] else if c =? 12 then [92; 102]
      else if c =? 10 then [92; 110] else if c =? 13 then [92; 114]
      else if c =? 9 then [92; 116]
      else if (c <? 32) || isHTML c then escapeHTML c
      else [c]) ++ rest) = Some (c :: s, r).
Proof.
  intros Hb Hc Hs.
  destruct (Z.eqb_spec c 34) as [->|]; [simpl; by rewrite Hs|].
  destruct (Z.eqb_spec c 92) as [->|]; [simpl; by rewrite Hs|]. cbn [orb].
  destruct (Z.eqb_spec c 8) as [->|]; [simpl; by rewrite Hs|].
  destruct (Z.eqb_spec c 12) as [->|]; [simpl; by rewrite Hs|].
  destruct (Z.eqb_spec c 10) as [->|]; [simpl; by rewrite Hs|].
  destruct (Z.eqb_spec c 13) as [->|]; [simpl; by rewrite Hs|].
  destruct (Z.eqb_spec c 9) as [->|]; [simpl; by rewrite Hs|].
  destruct ((c <? 32) || isHTML c) eqn:He; [by apply stringBody_escape|].
  breflect. simpl app. rewrite stringBody_plain by (done || lia).
  assert (decodeRune (c :: rest) = (c, 1%nat)) as ->
    by (simpl; destruct (Z.ltb_spec c 128); [done|lia]).
  destruct (Z.eqb_spec c runeError) as [->|]; [unfold runeError in *; lia|].
  cbn [andb take drop]. by rewrite drop_0, take_0, Hs.
Qed.

Lemma stringBody_rune fuel l rune w rest s r :
  Forall is_byte l → 128 ≤ default 0 (head l) → decodeRune l = (rune, w) →
  ¬ (rune = runeError ∧ (w ≤ 1)%nat) → stringBody fuel rest = Some (s, r) →
  stringBody (S fuel)
    ((if (rune =? 8232) || (rune =? 8233) then [92; 117; 50; 48; 50; hexLower (rune - 8224)]
      else take w l) ++ rest) = Some (take w l ++ s, r).
Proof.
  intros Hb Hc Hd Hr Hs. destruct ((rune =? 8232) || (rune =? 8233)) eqn:Hsep.
  - assert (rune = 8232 ∨ rune = 8233) as Hsp by (apply orb_true_iff in Hsep; lia).
    rewrite (decodeRune_sep l rune w) by done. simpl app.
    apply stringBody_u; [|lia|done]. rewrite hexVal_lower by lia.
    change (hexVal 48) with (Some 0). change (hexVal 50) with (Some 2).
    cbn [mbind option_bind]. f_equal. lia.
  - destruct (decodeRune_take l rune w rest Hd Hr) as [Hd' [Hw Hl]].
    destruct l as [|c l]; [simpl in Hl; lia|]. destruct w as [|w]; [lia|].
    simpl in Hc. cbn [take app] in Hd' |- *.
    rewrite stringBody_plain by lia. rewrite Hd'.
    destruct ((rune =? runeError) && (S w <=? 1)%nat) eqn:He.
    { breflect. exfalso. apply Hr. split; lia. }
    simpl in Hl. cbn [take drop].
    rewrite take_app_length', drop_app_length' by (rewrite length_take; lia).
    by rewrite Hs.
Qed.

Lemma stringBody_quote n l fuel rest :
  validCodes n l = true → (length l ≤ n)%nat → Forall is_byte l →
  (length (quoteCodes n l) < fuel)%nat →
  stringBody fuel (quoteCodes n l ++ 34 :: rest) = Some (l, rest).
Proof.
  revert l fuel. induction n as [|n IH]; intros l fuel Hv Hl Hb Hf.
  { destruct l; [|simpl in Hl; lia]. destruct fuel; [simpl in Hf; lia|]. done. }
  destruct l as [|c l]; [destruct fuel; [simpl in Hf; lia|]; done|].
  destruct fuel as [|fuel]; [lia|]. cbn [validCodes] in Hv.
  destruct (decodeRune (c :: l)) as [rune w] eqn:Hd.
  destruct ((rune =? runeError) && (w <=? 1)%nat) eqn:He; [done|].
  cbn [quoteCodes] in Hf |- *. pose proof (Forall_inv Hb) as Hc.
  destruct (Z.ltb_spec c 128).
  - simpl in Hd. destruct (Z.ltb_spec c 128); [|lia]. simplify_eq. cbn [drop] in Hv.
    rewrite length_app in Hf. rewrite <- app_assoc. apply stringBody_ascii; [done..|].
    apply IH; [done|simpl in Hl; lia|by apply Forall_inv_tail in Hb|].
    repeat case_match; simpl in Hf; lia.
  - rewrite Hd, He in *. assert (Hr : ¬ (rune = runeError ∧ (w ≤ 1)%nat)).
    { intros [-> Hw]. rewrite Z.eqb_refl in He. apply Nat.leb_le in Hw. by rewrite Hw in He. }
    destruct (decodeRune_take _ _ _ [] Hd Hr) as [_ [Hw Hw']].
    assert (Hrest : stringBody fuel (quoteCodes n (drop w (c :: l)) ++ 34 :: rest) =
      Some (drop w (c :: l), rest)).
    { apply IH; [done|rewrite length_drop; simpl in *; lia|by apply Forall_drop|].
      destruct ((rune =? 8232) || (rune =? 8233)); rewrite length_app in Hf; [simpl in Hf; lia|].
      rewrite length_take in Hf. lia. }
    pose proof (stringBody_rune fuel (c :: l) rune w _ _ _ Hb ltac:(done) Hd Hr Hrest) as Hs.
    rewrite take_drop in Hs.
    destruct ((rune =? 8232) || (rune =? 8233)); by rewrite <- app_assoc.
Qed.

(** ** Numbers *)

Lemma itoaPos_digits fuel n acc :
  0 ≤ n < 10 ^ Z.of_nat fuel → (0 < fuel)%nat →
  ∃ d ds, codes (itoaPos fuel n acc) = (d :: ds) ++ codes acc ∧
    Forall (λ c, isDigit c = true) (d :: ds) ∧
    (n = 0 ∧ d = 48 ∧ ds = [] ∨ 0 < n ∧ 49 ≤ d ≤ 57).
Proof.
  revert n acc. induction fuel as [|fuel IH]; intros n acc Hn Hf; [lia|].
  rewrite Nat2Z.inj_succ, Z.pow_succ_r in Hn by lia. cbn [itoaPos].
  pose proof (Z.mod_pos_bound n 10). pose proof (Z.div_mod n 10).
  assert (Hdig : isDigit (48 + n mod 10) = true)
    by (unfold isDigit; apply andb_true_iff; lia).
  destruct (Z.ltb_spec n 10).
  - exists (48 + n mod 10), []. rewrite codes_cons, ord_chr by lia.
    rewrite Z.mod_small in * by lia. split; [done|]. split; [by repeat constructor|].
    destruct (decide (n = 0)) as [->|]; [by left|right; lia].
  - destruct (decide (fuel = 0%nat)) as [->|]; [simpl in Hn; lia|].
    destruct (IH (n / 10) (String (chr (48 + n mod 10)) acc)) as (d & ds & Hc & Hd & Hz);
      [lia|lia|]. exists d, (ds ++ [48 + n mod 10]). rewrite Hc, codes_cons, ord_chr by lia.
    split; [by simpl; rewrite <- app_assoc|]. apply Forall_cons in Hd as [Hd1 Hd2].
    split; [constructor; [done|]; apply Forall_app; split; [done|by repeat constructor]|].
    right. lia.
Qed.

Definition is_int (z : Z) : Prop := minInt64 ≤ z ≤ maxInt64.

Lemma number_nat n rest :
  0 ≤ n < 10 ^ 20 → stops rest → number (codes (itoaPos 20 n "") ++ rest) = Some rest ∧
  ∃ d ds, codes (itoaPos 20 n "") = d :: ds ∧ isDigit d = true.
Proof.
  intros Hn Hs. destruct (itoaPos_digits 20 n "") as (d & ds & Hc & Hd & Hz); [done|lia|].
  rewrite app_nil_r in Hc. rewrite Hc. apply Forall_cons in Hd as Hd'. destruct Hd' as [Hd1 Hd2].
  split; [|by exists d, ds]. cbn [app]. unfold number.
  assert (Hdig := digits_app (d :: ds) rest Hd (stops_noDigit _ Hs)). cbn [app] in Hdig.
  assert (Hend : (let frac := match rest with
                  | 46 :: l' => match digits l' with ([], _) => None | (_, r) => Some r end
                  | _ => Some rest end in
      match frac with
      | None => None
      | Some l =>
          match l with
          | c :: l' =>
              if (c =? 101) || (c =? 69) then
                let l' := match l' with s :: r => if (s =? 43) || (s =? 45) then r else l'
                          | [] => l' end in
                match digits l' with ([], _) => None | (_, r) => Some r end
              else Some l
          | [] => Some l
          end
      end) = Some rest).
  { destruct rest as [|c r]; [done|]. by destruct Hs as [-> | [-> | ->]]. }
  destruct Hz as [(_ & -> & ->)|[_ Hr]]; [exact Hend|].
  assert (d ∈ [49; 50; 51; 52; 53; 54; 55; 56; 57]) as Hin by (rewrite !elem_of_cons; lia).
  rewrite !elem_of_cons, elem_of_nil in Hin.
  assert (Hnd : (digits (d :: ds ++ rest)).2 = rest) by by rewrite Hdig.
  destruct_or!; subst d; try done; cbv beta iota zeta; cbn [Z.leb Z.compare andb] in *;
    rewrite Hnd; exact Hend.
Qed.

Lemma atoi_nat a t n :
  isDigit (ord a) = true → digitsVal 0 (String a t) = Some n →
  atoi (String a t) = if (minInt64 <=? n) && (n <=? maxInt64) then Some n else None.
Proof.
  intros Hd Hv. unfold atoi.
  destruct a as [[] [] [] [] [] [] [] []]; try discriminate Hd; cbv beta iota zeta;
    rewrite Hv; reflexivity.
Qed.

Lemma atoi_itoa z : is_int z → atoi (itoa z) = Some z.
Proof.
  unfold is_int, minInt64, maxInt64. intros Hz. unfold itoa.
  destruct (Z.ltb_spec z 0).
  - unfold atoi. destruct (itoaPos_digits 20 (- z) "") as (d & ds & Hc & _ & _); [simpl; lia|lia|].
    assert (itoaPos 20 (- z) "" ≠ "") as Hne by (intros E; by rewrite E in Hc).
    destruct (itoaPos 20 (- z) "") eqn:E; [done|]. rewrite <- E, digitsVal_itoaPos by (simpl; lia).
    cbn [digitsVal]. cbv zeta. rewrite Z.opp_involutive.
    unfold minInt64, maxInt64. destruct (Z.leb_spec (- 2 ^ 63) z); [|lia].
    destruct (Z.leb_spec z (2 ^ 63 - 1)); [done|lia].
  - destruct (itoaPos_digits 20 z "") as (d & ds & Hc & Hd & _); [simpl; lia|lia|].
    pose proof (digitsVal_itoaPos 20 z "" ltac:(simpl; lia)) as Hv.
    destruct (itoaPos 20 z "") as [|a t]; [done|].
    rewrite codes_cons in Hc. apply Forall_cons in Hd as [Hd _]. simplify_eq/=.
    rewrite (atoi_nat a t z) by done.
    unfold minInt64, maxInt64. destruct (Z.leb_spec (- 2 ^ 63) z); [|lia].
    destruct (Z.leb_spec z (2 ^ 63 - 1)); [done|lia].
Qed.

(** ** Values *)

(** A raw message is the text of one value, nested one level inside the struct. *)
Definition raw_ok (r : string) : Prop :=
  ∃ v q, parseValue (S (2 * length (codes r))) 1 (codes r) = Some (v, q) ∧ skipWS q = [].
Definition val_ok (v : fval) : Prop :=
  match v with
  | VStr s => validUTF8 s = true
  | VInt z => is_int z
  | VUint z => is_u64 z
  | VBool _ => True
  | VRaw r => r ≠ "" → raw_ok r
  | VStrs l => Forall (λ s, validUTF8 s = true) l
  end.

(** What decodes from the text of a value. *)
Definition canonVal (v : fval) : fval :=
  match v with VRaw r => VRaw (compact r) | v => v end.
Definition noRaw (v : fval) : bool := match v with VRaw _ => false | _ => true end.

Lemma rawText_app l rest : rawText (l ++ rest) rest = of_codes l.
Proof. unfold rawText. rewrite length_app, Nat.add_sub, take_app_length. done. Qed.

Lemma stringBody_quoted s rest :
  validUTF8 s = true →
  stringBody (S (length (quoteCodes (String.length s) (codes s) ++ 34 :: rest)))
    (quoteCodes (String.length s) (codes s) ++ 34 :: rest) = Some (codes s, rest).
Proof.
  intros Hv. apply stringBody_quote; [done|by rewrite length_codes|apply codes_bytes|].
  rewrite length_app. lia.
Qed.

Lemma quote_app s rest :
  quote s ++ rest = 34 :: quoteCodes (String.length s) (codes s) ++ 34 :: rest.
Proof. unfold quote. simpl. by rewrite <- app_assoc. Qed.

Lemma parse_quote fuel depth s rest :
  validUTF8 s = true → parseValue (S fuel) depth (quote s ++ rest) = Some (JStr s, rest).
Proof.
  intros Hv. rewrite quote_app. cbn [parseValue skipWS isWS Z.eqb Pos.eqb orb].
  by rewrite stringBody_quoted, of_codes_codes.
Qed.

Lemma parseValue_num fuel depth c r :
  c = 45 ∨ isDigit c = true →
  parseValue (S fuel) depth (c :: r) =
  match number (c :: r) with Some r' => Some (JNum (rawText (c :: r) r'), r') | None => None end.
Proof.
  intros Hc.
  assert (c ∈ [45; 48; 49; 50; 51; 52; 53; 54; 55; 56; 57]) as Hin.
  { rewrite !elem_of_cons. unfold isDigit in Hc. destruct Hc as [->|Hc]; [auto|]. breflect. lia. }
  rewrite !elem_of_cons, elem_of_nil in Hin. by destruct_or!; subst c.
Qed.

Lemma parse_int fuel depth z rest :
  - 10 ^ 20 < z < 10 ^ 20 → stops rest →
  parseValue (S fuel) depth (codes (itoa z) ++ rest) = Some (JNum (itoa z), rest).
Proof.
  intros Hz Hs.
  assert (∃ c r, codes (itoa z) = c :: r ∧ (c = 45 ∨ isDigit c = true) ∧
    number (codes (itoa z) ++ rest) = Some rest) as (c & r & Hc & Hd & Hn).
  { unfold itoa. destruct (Z.ltb_spec z 0).
    - destruct (number_nat (- z) rest) as [Hn (d & ds & Hc & Hd)]; [lia|done|].
      exists 45, (d :: ds). rewrite codes_cons, Hc in *. split; [done|]. split; [by left|].
      rewrite <- Hn. change (ord "-") with 45. cbn [app]. unfold number.
      assert (d ∈ [48; 49; 50; 51; 52; 53; 54; 55; 56; 57]) as Hin
        by (rewrite !elem_of_cons; unfold isDigit in Hd; breflect; lia).
      rewrite !elem_of_cons, elem_of_nil in Hin. by destruct_or!; subst d.
    - destruct (number_nat z rest) as [Hn (d & ds & Hc & Hd)]; [lia|done|].
      exists d, ds. auto. }
  rewrite Hc in Hn |- *. cbn [app] in Hn |- *. rewrite parseValue_num, Hn by done.
  change (c :: r ++ rest) with ((c :: r) ++ rest).
  by rewrite rawText_app, <- Hc, of_codes_codes.
Qed.

Lemma quote_length s : (2 ≤ length (quote s))%nat.
Proof. unfold quote. simpl. rewrite length_app. simpl. lia. Qed.

Lemma parseElements_S fuel depth l :
  parseElements (S fuel) depth l =
  match parseValue fuel depth l with
  | None => None
  | Some (v, r) =>
      match skipWS r with
      | 93 :: r => Some ([v], r)
      | 44 :: r => match parseElements fuel depth r with
                   | Some (vs, r) => Some (v :: vs, r) | None => None end
      | _ => None
      end
  end.
Proof. reflexivity. Qed.

Lemma parse_elements l fuel depth rest :
  l ≠ [] → Forall (λ s, validUTF8 s = true) l →
  (length (sepBy 44 (quote <$> l)) < fuel)%nat →
  parseElements fuel depth (sepBy 44 (quote <$> l) ++ 93 :: rest) = Some (JStr <$> l, rest).
Proof.
  revert fuel. induction l as [|s l IH]; intros fuel Hne Hl Hf; [done|].
  apply Forall_cons in Hl as [Hs Hl]. destruct fuel as [|fuel]; [lia|].
  destruct l as [|s' l].
  - cbn [fmap list_fmap sepBy] in Hf |- *. destruct fuel as [|fuel]; [unfold quote in Hf; simpl in Hf; lia|].
    rewrite parseElements_S, parse_quote by done. done.
  - change (sepBy 44 (quote <$> s :: s' :: l)) with (quote s ++ 44 :: sepBy 44 (quote <$> s' :: l)) in *.
    rewrite length_app, length_cons in Hf.
    destruct fuel as [|fuel]; [lia|]. rewrite parseElements_S, <- app_assoc, parse_quote by done.
    cbn [app skipWS isWS Z.eqb Pos.eqb orb].
    pose proof (quote_length s). rewrite IH; [done|done|done|lia].
Qed.

Lemma strings_fmap l : strings (JStr <$> l) = Some l.
Proof. induction l as [|s l IH]; [done|]. cbn [fmap list_fmap strings]. by rewrite IH. Qed.

Lemma digits_uint z : 0 ≤ z < 10 ^ 20 → ∃ c t, itoa z = String c t ∧ digitsVal 0 (itoa z) = Some z.
Proof.
  intros Hz. unfold itoa. destruct (Z.ltb_spec z 0); [lia|].
  destruct (itoaPos_digits 20 z "") as (d & ds & Hc & _); [simpl; lia|lia|].
  pose proof (digitsVal_itoaPos 20 z "" ltac:(simpl; lia)) as Hv.
  destruct (itoaPos 20 z "") as [|a t]; [done|]. exists a, t. auto.
Qed.

(** The text of a value parses to what decodes to the value. *)
Lemma parse_value fuel v rest :
  val_ok v → v ≠ VRaw "" → stops rest → (2 * length (valCodes v) ≤ fuel)%nat →
  ∃ j, parseValue fuel 1 (valCodes v ++ rest) = Some (j, rest) ∧
    decodeVal (of_codes (valCodes v)) j (zeroVal v) = Some (canonVal v).
Proof.
  intros Hv Hne Hs Hf.
  assert (Hpos : ∀ z, codes (itoa z) ≠ []).
  { intros z E. unfold itoa in E. destruct (Z.ltb_spec z 0); [done|].
    rewrite <- length_zero_iff_nil, length_codes in E.
    destruct (itoaPos 20 z "") eqn:E'; [|done]. cbn [itoaPos] in E'.
    by repeat (case_match; try discriminate E'). }
  destruct v as [s|z|z|b|r|[|s l]]; cbn [valCodes zeroVal canonVal val_ok] in *.
  - destruct fuel as [|fuel]; [unfold quote in Hf; simpl in Hf; lia|].
    eexists. by rewrite parse_quote by done.
  - destruct fuel as [|fuel]; [destruct (codes (itoa z)) eqn:E; [by apply Hpos in E|simpl in Hf; lia]|].
    unfold is_int, minInt64, maxInt64 in Hv. eexists. rewrite parse_int by (done || lia).
    split; [done|]. cbn [decodeVal]. by rewrite atoi_itoa.
  - destruct fuel as [|fuel]; [destruct (codes (itoa z)) eqn:E; [by apply Hpos in E|simpl in Hf; lia]|].
    unfold is_u64 in Hv. eexists. rewrite parse_int by (done || lia). split; [done|].
    cbn [decodeVal]. destruct (digits_uint z) as (c & t & Ht & Hd); [lia|].
    unfold parseUint. rewrite Ht in Hd |- *. rewrite Hd. cbn [mbind option_bind].
    by destruct (Z.ltb_spec z (2 ^ 64)); [|lia].
  - destruct fuel as [|fuel]; [destruct b; simpl in Hf; lia|]. destruct b; by eexists.
  - destruct (String.eqb_spec r "") as [->|Hr]; [done|]. destruct (Hv Hr) as (x & q & Hp & Hq).
    destruct (compact_valid _ _ _ _ Hp Hq) as (c & w & Hc & _ & _ & Hgo). rewrite Hc in Hf |- *.
    destruct (Hgo fuel rest Hf Hs) as [v' Hv']. exists v'. split; [done|].
    cbn [decodeVal]. unfold compact. by rewrite Hc.
  - destruct fuel as [|fuel]; [simpl in Hf; lia|]. by eexists.
  - destruct fuel as [|fuel]; [simpl in Hf; lia|]. eexists.
    cbn [app]. rewrite <- app_assoc. cbn [app].
    assert (Hel := parse_elements (s :: l) fuel (1 + 1) rest ltac:(done) Hv).
    assert (Hq : ∃ r, sepBy 44 (quote <$> s :: l) ++ 93 :: rest = 34 :: r).
    { destruct l; cbn [fmap list_fmap sepBy quote app]; by eexists. }
    destruct Hq as [r Hq]. rewrite Hq in Hel |- *.
    cbn [parseValue skipWS isWS Z.eqb Pos.eqb orb].
    destruct (Z.ltb_spec maxNestingDepth (1 + 1)) as [Hlt|_]; [done|].
    rewrite Hel; [|rewrite length_cons, length_app in Hf; lia]. split; [done|].
    cbn [decodeVal]. by rewrite strings_fmap.
Qed.

(** ** Objects *)

(** A field can be encoded: its text is valid, and a raw message is not empty unless it is
    left out. *)
Definition field_ok (f : field) : Prop :=
  validUTF8 f.(fName) = true ∧ val_ok f.(fVal) ∧
  (f.(fVal) = VRaw "" → f.(fOmitEmpty) = true).
Definition canon (f : field) : field := setVal (canonVal f.(fVal)) f.

(** A member that decodes to field [f]. *)
Definition decodes (f : field) (m : string * string * json) : Prop :=
  m.1.1 = f.(fName) ∧ decodeVal m.1.2 m.2 (zeroVal f.(fVal)) = Some (canonVal f.(fVal)).

(** A value does not start with white space. *)
Lemma skipWS_value v rest :
  val_ok v → v ≠ VRaw "" → skipWS (valCodes v ++ rest) = valCodes v ++ rest.
Proof.
  assert (Hnum : ∀ z, - 10 ^ 20 < z < 10 ^ 20 →
    skipWS (codes (itoa z) ++ rest) = codes (itoa z) ++ rest).
  { intros z Hz. destruct (number_nat (Z.abs z) []) as [_ (d & ds & Hc & Hd)]; [lia|done|].
    unfold itoa. destruct (Z.ltb_spec z 0); [done|].
    rewrite Z.abs_eq in Hc by done. rewrite Hc. cbn [app skipWS].
    unfold isDigit in Hd. breflect.
    assert (isWS d = false) as -> by (unfold isWS; rewrite !orb_false_iff; lia). done. }
  destruct v as [s|z|z|b|r|[|s l]]; intros Hv Hne; try done; cbn [valCodes val_ok] in *.
  - apply Hnum. unfold is_int, minInt64, maxInt64 in Hv. lia.
  - apply Hnum. unfold is_u64 in Hv. lia.
  - by destruct b.
  - destruct (String.eqb_spec r "") as [->|Hr]; [done|]. destruct (Hv Hr) as (x & q & Hp & Hq).
    destruct (compact_valid _ _ _ _ Hp Hq) as (c & w & Hc & Hws & _). rewrite Hc.
    cbn [app]. by apply skipWS_id.
Qed.

Lemma parseMembers_S fuel depth k rest :
  validUTF8 k = true →
  parseMembers (S fuel) depth (quote k ++ 58 :: rest) =
  match parseValue fuel depth (skipWS rest) with
  | None => None
  | Some (v, r) =>
      let m := (k, rawText (skipWS rest) r, v) in
      match skipWS r with
      | 125 :: r => Some ([m], r)
      | 44 :: r => match parseMembers fuel depth r with
                   | Some (ms, r) => Some (m :: ms, r) | None => None end
      | _ => None
      end
  end.
Proof.
  intros Hk. rewrite quote_app. cbn [parseMembers skipWS isWS Z.eqb Pos.eqb orb].
  rewrite stringBody_quoted by done. by rewrite of_codes_codes.
Qed.

Lemma memberCodes_app f rest :
  memberCodes f ++ rest = quote f.(fName) ++ 58 :: valCodes f.(fVal) ++ rest.
Proof. unfold memberCodes. by rewrite <- app_assoc. Qed.

Lemma parse_members fs fuel rest :
  fs ≠ [] → Forall field_ok fs → Forall (λ f, present f = true) fs →
  (2 * length (sepBy 44 (memberCodes <$> fs)) ≤ fuel)%nat →
  ∃ ms, parseMembers fuel 1 (sepBy 44 (memberCodes <$> fs) ++ 125 :: rest) = Some (ms, rest) ∧
    Forall2 decodes fs ms.
Proof.
  revert fuel. induction fs as [|f fs IH]; intros fuel Hne Hfs Hpr Hf; [done|].
  apply Forall_cons in Hfs as [(Hn & Hv & Hraw) Hfs]. apply Forall_cons in Hpr as [Hp Hpr].
  assert (Hr : f.(fVal) ≠ VRaw "").
  { intros E. unfold present in Hp. rewrite (Hraw E), E in Hp. done. }
  pose proof (quote_length f.(fName)) as Hq.
  assert (Hm : length (memberCodes f) = (length (quote f.(fName)) + S (length (valCodes f.(fVal))))%nat)
    by (unfold memberCodes; by rewrite length_app).
  destruct fs as [|f' fs].
  - change (sepBy 44 (memberCodes <$> [f])) with (memberCodes f) in *.
    destruct fuel as [|fuel]; [lia|].
    rewrite memberCodes_app, parseMembers_S, skipWS_value by done.
    destruct (parse_value fuel f.(fVal) (125 :: rest)) as (j & -> & Hj);
      [done|done|by right; right|lia|].
    cbv zeta. rewrite rawText_app. cbn [skipWS isWS Z.eqb Pos.eqb orb]. eexists. split; [done|].
    by repeat constructor.
  - change (sepBy 44 (memberCodes <$> f :: f' :: fs))
      with (memberCodes f ++ 44 :: sepBy 44 (memberCodes <$> f' :: fs)) in *.
    rewrite length_app, length_cons in Hf. destruct fuel as [|fuel]; [lia|]. rewrite <- app_assoc.
    rewrite memberCodes_app, parseMembers_S, skipWS_value by done.
    cbn [app]. match goal with |- context [valCodes (fVal f) ++ ?t] =>
      destruct (parse_value fuel f.(fVal) t) as (j & -> & Hj); [done|done|by left|lia|] end.
    cbv zeta. rewrite rawText_app. cbn [skipWS isWS Z.eqb Pos.eqb orb].
    destruct (IH fuel) as (ms & -> & Hms); [done|done|done|lia|].
    eexists. split; [done|]. constructor; [done|exact Hms].
Qed.

Lemma quoteCodes_bytes n l : Forall is_byte l → Forall is_byte (quoteCodes n l).
Proof.
  revert l. induction n as [|n IH]; intros l Hl; [destruct l; constructor|].
  destruct l as [|c l]; [constructor|]. cbn [quoteCodes]. apply Forall_cons in Hl as Hl'.
  destruct Hl' as [Hc Hr]. unfold is_byte in Hc.
  destruct (Z.ltb_spec c 128).
  - pose proof (Z.mod_pos_bound c 16). pose proof (Z.div_mod c 16).
    apply Forall_app. split; [|by apply IH].
    repeat case_match; unfold escapeHTML; repeat constructor; unfold is_byte; try lia.
    all: apply hexLower_byte; lia.
  - destruct (decodeRune (c :: l)) as [rune w] eqn:Hd.
    repeat case_match.
    + apply Forall_app. split; [|by apply IH]. repeat constructor; unfold is_byte; lia.
    + apply Forall_app. split; [|by apply IH, Forall_drop].
      apply orb_true_iff in H1. repeat constructor; unfold is_byte; try lia.
      all: apply hexLower_byte; lia.
    + apply Forall_app. split; [by apply Forall_take|by apply IH, Forall_drop].
Qed.

Lemma quote_bytes s : Forall is_byte (quote s).
Proof.
  constructor; [unfold is_byte; lia|]. apply Forall_app. split.
  - apply quoteCodes_bytes, codes_bytes.
  - repeat constructor; unfold is_byte; lia.
Qed.

Lemma sepBy_bytes sep ls : is_byte sep → Forall (Forall is_byte) ls → Forall is_byte (sepBy sep ls).
Proof.
  intros Hs. induction 1 as [|l ls Hl Hls IH]; [constructor|].
  destruct ls; [done|]. apply Forall_app. split; [done|]. by constructor.
Qed.

Lemma compact_bytes b e l : Forall is_byte l → Forall is_byte (compactCodes b e l).
Proof.
  remember (length l) as n eqn:Hn. assert (Hl : (length l ≤ n)%nat) by lia. clear Hn.
  revert b e l Hl. induction n as [|n IH]; intros b e [|c r] Hl Hb; try (constructor || (simpl in Hl; lia)).
  simpl in Hl. apply Forall_cons in Hb as [Hc Hr]. destruct b.
  - rewrite compact_in. destruct (isHTML c) eqn:Hh.
    { apply Forall_app. split; [|apply IH; [lia|done]]. unfold isHTML in Hh. unfold is_byte.
      repeat (apply orb_true_iff in Hh as [Hh|Hh]); apply Z.eqb_eq in Hh as ->; by repeat constructor. }
    destruct (if c =? 226 then eat 128 r else None) as [[|d q]|] eqn:E;
      [constructor; [done|apply IH; [lia|done]]| |constructor; [done|apply IH; [lia|done]]].
    destruct (c =? 226); [|done]. apply eat_Some in E as ->. simpl in Hl.
    destruct (Z.eqb_spec d 168) as [->|]; [|destruct (Z.eqb_spec d 169) as [->|]]; cbn [orb].
    1,2: repeat (constructor; [by vm_compute|]); apply IH; [lia|];
      by do 2 apply Forall_inv_tail in Hr.
    constructor; [done|apply IH; [simpl; lia|done]].
  - rewrite compact_out. destruct (isWS c); [|constructor; [done|]]; (apply IH; [lia|done]).
Qed.

Lemma valCodes_bytes v : Forall is_byte (valCodes v).
Proof.
  destruct v as [s|z|z|b|r|[|s l]]; [apply quote_bytes|apply codes_bytes..| |apply codes_bytes|].
  { cbn [valCodes]. case_match; [apply codes_bytes|apply compact_bytes, codes_bytes]. }
  constructor; [unfold is_byte; lia|]. apply Forall_app. split.
  - apply sepBy_bytes; [unfold is_byte; lia|]. apply Forall_fmap, Forall_true.
    intros x. apply quote_bytes.
  - repeat constructor; unfold is_byte; lia.
Qed.

Lemma structCodes_bytes fs : Forall is_byte (structCodes fs).
Proof.
  constructor; [unfold is_byte; lia|]. apply Forall_app. split.
  - apply sepBy_bytes; [unfold is_byte; lia|]. apply Forall_fmap, Forall_true.
    intros f. unfold compose, memberCodes. apply Forall_app. split; [apply quote_bytes|].
    constructor; [unfold is_byte; lia|apply valCodes_bytes].
  - repeat constructor; unfold is_byte; lia.
Qed.

(** The text of a struct parses to its members, in order. *)
Lemma parse_struct fs :
  Forall field_ok fs →
  ∃ ms, parseJSON (marshalStruct fs) = Some (JObj ms) ∧ Forall2 decodes (shown fs) ms.
Proof.
  intros Hfs. assert (Hsh : Forall field_ok (shown fs) ∧ Forall (λ f, present f = true) (shown fs)).
  { rewrite !List.Forall_forall in *. split; intros f [Hf Hp]%List.filter_In; auto. }
  destruct Hsh as [Hok Hpr]. unfold parseJSON, marshalStruct.
  rewrite <- length_codes, codes_of_codes by apply structCodes_bytes.
  unfold structCodes. clear Hfs. revert Hok Hpr. generalize (shown fs). clear fs. intros fs Hfs Hpr.
  destruct (decide (fs = [])) as [->|Hne]; [exists []; split; [done|constructor]|].
  destruct (parse_members fs (2 * length (123 :: sepBy 44 (memberCodes <$> fs) ++ [125])) [] Hne Hfs Hpr)
    as (ms & Hp & Hms); [rewrite length_cons, length_app; lia|].
  exists ms. split; [|done].
  assert (Hq : ∃ r, sepBy 44 (memberCodes <$> fs) ++ [125] = 34 :: r).
  { destruct fs as [|f [|f' fs]]; [done| |]; cbn [fmap list_fmap sepBy memberCodes quote app];
      by eexists. }
  destruct Hq as [r Hq]. rewrite Hq in Hp |- *.
  cbn [parseValue skipWS isWS Z.eqb Pos.eqb orb].
  destruct (Z.ltb_spec maxNestingDepth (0 + 1)) as [Hlt|_]; [done|].
  change (0 + 1) with 1. by rewrite Hp.
Qed.

(** ** The round trip *)

Definition zeroes (fs : list field) : list field := (λ f, setVal (zeroVal f.(fVal)) f) <$> fs.

Lemma absent_zero f : present f = false → setVal (zeroVal f.(fVal)) f = canon f.
Proof.
  destruct f as [n o v]. unfold present, isZeroVal, canon. simpl. intros Hp. breflect.
  destruct v as [s|z|z|b|r|[|s l]]; simpl in *; breflect; unfold setVal; simpl; by subst.
Qed.

Lemma assign_at (m : field → bool) raw j done f rest v :
  Forall (λ g, m g = false) done → m f = true → decodeVal raw j f.(fVal) = Some v →
  assign m raw j (done ++ f :: rest) = Some (Some (done ++ setVal v f :: rest)).
Proof.
  intros Hd Hm Hv. induction Hd as [|g done Hg Hd IH]; simpl.
  - by rewrite Hm, Hv.
  - by rewrite Hg, IH.
Qed.

Lemma setMembers_from done todo ms :
  NoDup (fName <$> done ++ todo) → Forall2 decodes (shown todo) ms →
  setMembers ms (done ++ zeroes todo) = Some (done ++ (canon <$> todo)).
Proof.
  revert done ms. induction todo as [|f todo IH]; intros done ms Hnd Hms.
  { apply Forall2_nil_inv_l in Hms as ->. done. }
  assert (Hnext : ∀ ms, Forall2 decodes (shown todo) ms →
    setMembers ms (done ++ canon f :: zeroes todo) = Some (done ++ (canon <$> f :: todo))).
  { intros ms' Hms'. change (canon f :: zeroes todo) with ([canon f] ++ zeroes todo).
    change (canon <$> f :: todo) with ([canon f] ++ (canon <$> todo)). rewrite !app_assoc.
    apply IH; [|done]. rewrite <- app_assoc, !fmap_app in *. exact Hnd. }
  unfold shown in Hms. cbn [List.filter zeroes fmap list_fmap] in Hms |- *.
  destruct (present f) eqn:Hp; [|rewrite absent_zero by done; by apply Hnext].
  apply Forall2_cons_inv_l in Hms as (m & ms' & [Hk Hj] & Hms & ->).
  destruct m as [[k raw] j]. simpl in Hk, Hj. subst k. cbn [setMembers setMember].
  rewrite (assign_at _ _ _ _ (setVal (zeroVal (fVal f)) f) _ (canonVal f.(fVal)));
    [| |by apply String.eqb_eq|done].
  - cbn [mbind option_bind]. apply Hnext. done.
  - rewrite fmap_app, NoDup_app in Hnd. destruct Hnd as (_ & Hnd & _).
    apply Forall_forall. intros g Hg. apply String.eqb_neq. intros E.
    apply (Hnd g.(fName)); [by apply list_elem_of_fmap_2|].
    rewrite E. cbn [fmap list_fmap]. by apply list_elem_of_here.
Qed.

Theorem struct_canon fs :
  NoDup (fName <$> fs) → Forall field_ok fs →
  unmarshalStruct (zeroes fs) (marshalStruct fs) = Some (canon <$> fs).
Proof.
  intros Hnd Hok. unfold unmarshalStruct. destruct (parse_struct fs Hok) as (ms & -> & Hms).
  by apply (setMembers_from []).
Qed.

(** Decoded and encoded again, a struct has the same text. *)
Definition keeps (v : fval) : Prop := match v with VRaw r => r = "" ∨ compact r ≠ "" | _ => True end.

Lemma memberCodes_canon f :
  keeps f.(fVal) → present (canon f) = present f ∧ memberCodes (canon f) = memberCodes f.
Proof.
  destruct f as [n o [s|z|z|b|r|l]]; try done. unfold present, memberCodes.
  cbn [canon setVal canonVal fName fOmitEmpty fVal isZeroVal valCodes keeps].
  intros [->|Hne]; [done|]. assert (r ≠ "") as Hr by by intros ->.
  destruct (String.eqb_spec (compact r) ""); [done|]. destruct (String.eqb_spec r ""); [done|].
  split; [done|]. unfold compact. rewrite codes_of_codes by apply compact_bytes, codes_bytes.
  by rewrite compact_twice.
Qed.

Lemma marshal_canon fs :
  Forall (λ f, keeps f.(fVal)) fs → marshalStruct (canon <$> fs) = marshalStruct fs.
Proof.
  intros Hk. unfold marshalStruct, structCodes. do 4 f_equal.
  induction Hk as [|f fs Hf Hk IH]; [done|]. destruct (memberCodes_canon f Hf) as [Hp Hm].
  unfold shown in *. cbn [fmap list_fmap List.filter]. rewrite Hp.
  destruct (present f); [|done]. cbn [fmap list_fmap]. by rewrite Hm, IH.
Qed.

Lemma canon_plain fs : forallb (λ f, noRaw f.(fVal)) fs = true → canon <$> fs = fs.
Proof.
  induction fs as [|[n o v] fs IH]; [done|]. cbn [forallb]. intros [Hv Hfs]%andb_true_iff.
  cbn [fmap list_fmap]. rewrite IH by done. by destruct v.
Qed.

Theorem struct_roundtrip fs :
  NoDup (fName <$> fs) → Forall field_ok fs → forallb (λ f, noRaw f.(fVal)) fs = true →
  unmarshalStruct (zeroes fs) (marshalStruct fs) = Some fs.
Proof. intros Hnd Hok Hp. by rewrite struct_canon, canon_plain. Qed.

(** ** The text of a struct is one line *)

Definition on_line (c : Z) : Prop := c ≠ 10 ∧ c ≠ 13.

Lemma decodeRune_high c l r w :
  128 ≤ c → decodeRune (c :: l) = (r, w) → ¬ (r = runeError ∧ (w ≤ 1)%nat) →
  Forall (λ z, 128 ≤ z) (take w (c :: l)).
Proof.
  intros Hc Hd Hr. destruct l as [|b [|c' [|d l]]]; simpl in Hd;
    repeat match type of Hd with
           | context [if ?x then _ else _] => destruct x eqn:?
           end; simplify_eq; try (exfalso; apply Hr; split; [done|lia]);
    breflect; simpl; repeat constructor; try lia.
  all: repeat match goal with
         | Hx : context [if ?a =? ?b then _ else _] |- _ => destruct (Z.eqb_spec a b)
         end; lia.
Qed.

Lemma quoteCodes_line n l : Forall is_byte l → Forall on_line (quoteCodes n l).
Proof.
  revert l. induction n as [|n IH]; intros l Hl; [destruct l; constructor|].
  destruct l as [|c l]; [constructor|]. cbn [quoteCodes]. apply Forall_cons in Hl as Hl'.
  destruct Hl' as [Hc Hr].
  assert (Hx : ∀ z, 0 ≤ z < 16 → on_line (hexLower z)).
  { intros z Hz. unfold hexLower, hexDigit, on_line.
    destruct (Z.ltb_spec z 10); rewrite ord_chr; lia. }
  destruct (Z.ltb_spec c 128).
  - pose proof (Z.mod_pos_bound c 16). pose proof (Z.div_mod c 16). unfold is_byte in Hc.
    apply Forall_app. split; [|by apply IH].
    repeat case_match; unfold escapeHTML; repeat (constructor; try (apply Hx; lia));
      unfold on_line; breflect; lia.
  - destruct (decodeRune (c :: l)) as [rune w] eqn:Hd.
    repeat case_match.
    + apply Forall_app. split; [|by apply IH]. repeat constructor; unfold on_line; lia.
    + apply Forall_app. split; [|by apply IH, Forall_drop].
      repeat constructor; try (unfold on_line; lia); apply Hx; apply orb_true_iff in H1; lia.
    + apply Forall_app. split; [|by apply IH, Forall_drop].
      eapply Forall_impl; [apply (decodeRune_high c l rune w); [done|done|]|].
      * intros [-> Hw]. rewrite Z.eqb_refl in H0. apply Nat.leb_le in Hw. by rewrite Hw in H0.
      * intros z Hz. unfold on_line. simpl in Hz. lia.
Qed.

Lemma quote_line s : Forall on_line (quote s).
Proof.
  constructor; [unfold on_line; lia|]. apply Forall_app. split.
  - apply quoteCodes_line, codes_bytes.
  - repeat constructor; unfold on_line; lia.
Qed.

Lemma sepBy_line sep ls : on_line sep → Forall (Forall on_line) ls → Forall on_line (sepBy sep ls).
Proof.
  intros Hs. induction 1 as [|l ls Hl Hls IH]; [constructor|].
  destruct ls; [done|]. apply Forall_app. split; [done|]. by constructor.
Qed.

Lemma itoa_line z : - 10 ^ 20 < z < 10 ^ 20 → Forall on_line (codes (itoa z)).
Proof.
  intros Hz.
  assert (Hd : ∀ n, 0 ≤ n < 10 ^ 20 → Forall on_line (codes (itoaPos 20 n ""))).
  { intros n Hn. destruct (itoaPos_digits 20 n "") as (d & ds & -> & Hd & _); [done|lia|].
    rewrite app_nil_r. eapply Forall_impl; [done|]. intros c Hc. simpl in Hc.
    unfold isDigit, on_line in *. breflect. lia. }
  unfold itoa. destruct (Z.ltb_spec z 0); [|apply Hd; lia].
  rewrite codes_cons. constructor; [done|apply Hd; lia].
Qed.

Lemma valCodes_line v : val_ok v → Forall on_line (valCodes v).
Proof.
  destruct v as [s|z|z|b|r|[|s l]]; intros Hv; [apply quote_line| | | | |by repeat constructor|].
  { apply itoa_line. simpl in Hv. unfold is_int, minInt64, maxInt64 in Hv. lia. }
  { apply itoa_line. simpl in Hv. unfold is_u64 in Hv. lia. }
  { destruct b; by repeat constructor. }
  { cbn [valCodes]. destruct (String.eqb_spec r "") as [->|Hr]; [by repeat constructor|].
    destruct (Hv Hr) as (x & q & Hp & Hq).
    destruct (compact_valid _ _ _ _ Hp Hq) as (c & w & -> & _ & Hge & _).
    eapply Forall_impl; [exact Hge|]. intros y Hy. unfold on_line. lia. }
  constructor; [done|]. apply Forall_app. split; [|by repeat constructor].
  apply sepBy_line; [done|]. apply Forall_fmap, Forall_true. intros x. apply quote_line.
Qed.

Lemma structCodes_line fs : Forall field_ok fs → Forall on_line (structCodes fs).
Proof.
  intros Hfs. constructor; [done|]. apply Forall_app. split; [|by repeat constructor].
  apply sepBy_line; [done|]. rewrite List.Forall_forall in Hfs |- *.
  intros l (f & <- & [Hf _]%List.filter_In)%List.in_map_iff. apply Hfs in Hf as (_ & Hv & _).
  apply Forall_app. split; [apply quote_line|]. constructor; [done|by apply valCodes_line].
Qed.

Lemma codes_marshal fs : codes (marshalStruct fs) = structCodes fs.
Proof. apply codes_of_codes, structCodes_bytes. Qed.

Lemma trimSpace_struct fs : trimSpace (marshalStruct fs) = marshalStruct fs.
Proof.
  unfold trimSpace. rewrite codes_marshal. unfold marshalStruct, structCodes.
  set (m := sepBy _ _). cbn [length trimLeft].
  assert (stripSpace spaceSeqs (123 :: m ++ [125]) = None) as -> by done.
  rewrite reverse_cons, reverse_app, reverse_singleton, <- app_assoc. cbn [length trimLeft app].
  assert (stripSpace (reverse <$> spaceSeqs) (125 :: reverse m ++ [123]) = None) as -> by done.
  f_equal. rewrite reverse_cons, reverse_app, reverse_singleton, reverse_involutive. done.
Qed.

(** ** Decoded text is valid UTF-8 *)

Inductive utf8 : list Z → Prop :=
| utf8_nil : utf8 []
| utf8_rune l r w :
    decodeRune l = (r, w) → ¬ (r = runeError ∧ (w ≤ 1)%nat) → utf8 (drop w l) → utf8 l.

Lemma utf8_valid l n : utf8 l → (length l ≤ n)%nat → validCodes n l = true.
Proof.
  intros Hu. revert n. induction Hu as [|l r w Hd Hr Hu IH]; intros n Hn; [by destruct n|].
  destruct (decodeRune_take _ _ _ [] Hd Hr) as [_ Hw].
  destruct n as [|n]; [lia|]. destruct l as [|c l]; [done|]. cbn [validCodes]. rewrite Hd.
  destruct ((r =? runeError) && (w <=? 1)%nat) eqn:He.
  { apply andb_true_iff in He as [Hr1%Z.eqb_eq Hw1%Nat.leb_le]. exfalso. auto. }
  apply IH. rewrite length_drop. lia.
Qed.

Lemma utf8_take l r w s :
  decodeRune l = (r, w) → ¬ (r = runeError ∧ (w ≤ 1)%nat) → utf8 s → utf8 (take w l ++ s).
Proof.
  intros Hd Hr Hs. destruct (decodeRune_take _ _ _ s Hd Hr) as [Hd' Hw].
  eapply utf8_rune; [done|done|]. rewrite drop_app_length' by (rewrite length_take; lia). done.
Qed.

Lemma utf8_encode u s : 0 ≤ u < 1114112 → utf8 s → utf8 (encodeRune u ++ s).
Proof.
  intros Hu Hs.
  assert (∃ r w, decodeRune (encodeRune u) = (r, w) ∧ ¬ (r = runeError ∧ (w ≤ 1)%nat) ∧
    take w (encodeRune u) = encodeRune u) as (r & w & Hd & Hr & Ht);
    [|rewrite <- Ht; by eapply utf8_take].
  pose proof (Z.mod_pos_bound u 64). pose proof (Z.mod_pos_bound (u / 64) 64).
  pose proof (Z.mod_pos_bound (u / 4096) 64).
  pose proof (Z.div_mod u 64). pose proof (Z.div_mod (u / 64) 64).
  pose proof (Z.div_mod (u / 4096) 64).
  pose proof (Z.div_div u 64 64). pose proof (Z.div_div u 4096 64).
  change (64 * 64) with 4096 in *. change (4096 * 64) with 262144 in *.
  unfold encodeRune, runeError. repeat case_match; breflect.
  - exists u, 1%nat. split; [|split; [lia|done]]. simpl. by destruct (Z.ltb_spec u 128); [|lia].
  - eexists _, 2%nat. split; [|split; [|done]]; [|intros [_ ?]; lia]. simpl.
    repeat case_match; breflect; try reflexivity; lia.
  - eexists _, 3%nat. split; [reflexivity|]. split; [intros [_ ?]; lia|done].
  - eexists _, 3%nat. split; [|split; [|done]]; [|intros [_ ?]; lia]. simpl.
    repeat case_match; breflect; try reflexivity; lia.
  - eexists _, 4%nat. split; [|split; [|done]]; [|intros [_ ?]; lia]. simpl.
    repeat case_match; breflect; try reflexivity; lia.
Qed.

Lemma encodeRune_bytes u : 0 ≤ u < 1114112 → Forall is_byte (encodeRune u).
Proof.
  intros Hu.
  pose proof (Z.mod_pos_bound u 64). pose proof (Z.mod_pos_bound (u / 64) 64).
  pose proof (Z.mod_pos_bound (u / 4096) 64). pose proof (Z.div_mod u 64).
  pose proof (Z.div_mod u 4096). pose proof (Z.mod_pos_bound u 4096).
  pose proof (Z.div_mod u 262144). pose proof (Z.mod_pos_bound u 262144).
  unfold encodeRune. repeat case_match; breflect; repeat constructor; unfold is_byte; lia.
Qed.

Lemma stringBody_low fuel c r : c < 32 → stringBody (S fuel) (c :: r) = None.
Proof.
  intros Hc. assert (Hlt : (c <? 32) = true) by lia.
  destruct c as [|p|p]; [done| |done].
  do 6 (try (destruct p as [p|p|]; [| |try done])); try done; lia.
Qed.

Lemma stringBody_esc fuel c r :
  c ≠ 117 →
  stringBody (S fuel) (92 :: c :: r) =
  match simpleEscape c with
  | Some b => match stringBody fuel r with
              | Some (s, r) => Some ([b] ++ s, r) | None => None end
  | None => None
  end.
Proof.
  intros Hc. destruct c as [|p|p]; [done| |done].
  do 7 (try (destruct p as [p|p|]; [| |try done])); try done.
Qed.

Lemma hex4_range l u r : hex4 l = Some (u, r) → 0 ≤ u < 65536.
Proof.
  assert (Hx : ∀ c z, hexVal c = Some z → 0 ≤ z < 16).
  { intros c z. unfold hexVal, fromHexChar. repeat case_match; breflect; intros; simplify_eq; lia. }
  unfold hex4. destruct l as [|a [|b [|c [|d l]]]]; try done.
  destruct (hexVal a) eqn:Ha; [|done]. destruct (hexVal b) eqn:Hb; [|done].
  destruct (hexVal c) eqn:Hc; [|done]. destruct (hexVal d) eqn:Hd; [|done].
  intros ?. simplify_eq. apply Hx in Ha, Hb, Hc, Hd. lia.
Qed.

Lemma decodeRune_bytes c l r w :
  0 ≤ c → decodeRune (c :: l) = (r, w) → ¬ (r = runeError ∧ (w ≤ 1)%nat) →
  Forall is_byte (take w (c :: l)).
Proof.
  intros Hc Hd Hr. destruct l as [|b [|c' [|d l]]]; simpl in Hd;
    repeat match type of Hd with
           | context [if ?x then _ else _] => destruct x eqn:?
           end; simplify_eq; try (exfalso; apply Hr; split; [done|lia]);
    breflect; simpl; repeat constructor; unfold is_byte; try lia.
  all: repeat match goal with
         | Hx : context [if ?a =? ?b then _ else _] |- _ => destruct (Z.eqb_spec a b)
         end; lia.
Qed.

(** Text that decodes well: valid UTF-8 and bytes. *)
Definition good (l : list Z) : Prop := utf8 l ∧ Forall is_byte l.

Lemma good_encode u s : 0 ≤ u < 1114112 → good s → good (encodeRune u ++ s).
Proof.
  intros Hu [Hs Hb]. split; [by apply utf8_encode|]. apply Forall_app.
  split; [by apply encodeRune_bytes|done].
Qed.

Lemma stringBody_good fuel l s r : stringBody fuel l = Some (s, r) → good s.
Proof.
  revert l s r. induction fuel as [|fuel IH]; intros l s r Hs; [done|].
  assert (Hput : ∀ bytes rest, (∀ t, good t → good (bytes ++ t)) →
    match stringBody fuel rest with
    | Some (s, r) => Some (bytes ++ s, r) | None => None end = Some (s, r) → good s).
  { intros bytes rest Hg Hp. destruct (stringBody fuel rest) as [[t q]|] eqn:E; [|done].
    simplify_eq. apply IH in E. auto. }
  assert (Hlone : ∀ q, match stringBody fuel q with
    | Some (s, r) => Some (encodeRune runeError ++ s, r) | None => None end = Some (s, r) → good s).
  { intros q. apply Hput. intros t. apply good_encode. unfold runeError. lia. }
  destruct l as [|c l]; [done|].
  destruct (decide (c = 34)) as [->|H34].
  { simpl in Hs. simplify_eq. split; constructor. }
  destruct (decide (c = 92)) as [->|H92].
  - destruct l as [|d l]; [done|]. destruct (decide (d = 117)) as [->|H117].
    + cbn [stringBody] in Hs. destruct (hex4 l) as [[u q]|] eqn:Hu; [|done].
      pose proof (hex4_range _ _ _ Hu).
      destruct ((55296 <=? u) && (u <=? 56319)) eqn:Hhi.
      * destruct q as [|x [|y q]]; [exact (Hlone _ Hs)| |].
        { apply (Hlone [x]). revert Hs. clear. destruct x as [|p|p]; [done| |done].
          do 7 (try (destruct p as [p|p|]; [| |try done])); try done. }
        destruct (decide (x = 92)) as [->|Hx].
        2: { apply (Hlone (x :: y :: q)). revert Hs. clear -Hx. destruct x as [|p|p]; [done| |done].
             do 7 (try (destruct p as [p|p|]; [| |try done])); try done. }
        destruct (decide (y = 117)) as [->|Hy].
        2: { apply (Hlone (92 :: y :: q)). revert Hs. clear -Hy. destruct y as [|p|p]; [done| |done].
             do 7 (try (destruct p as [p|p|]; [| |try done])); try done. }
        destruct (hex4 q) as [[w q']|] eqn:Hw; [|done]. pose proof (hex4_range _ _ _ Hw).
        destruct ((56320 <=? w) && (w <=? 57343)) eqn:Hlo; [|by eapply Hlone].
        breflect. eapply Hput; [|exact Hs]. intros t. apply good_encode. lia.
      * destruct ((56320 <=? u) && (u <=? 57343)); [by eapply Hlone|].
        eapply Hput; [|exact Hs]. intros t. apply good_encode. lia.
    + rewrite stringBody_esc in Hs by done. destruct (simpleEscape d) as [b|] eqn:Hb; [|done].
      eapply Hput; [|exact Hs]. intros t Ht.
      assert (encodeRune b = [b] ∧ 0 ≤ b < 1114112) as [<- Hr].
      { unfold simpleEscape in Hb. repeat case_match; simplify_eq; split; (done || lia). }
      by apply good_encode.
  - destruct (Z.ltb_spec c 32); [by rewrite stringBody_low in Hs|].
    rewrite stringBody_plain in Hs by done.
    destruct (decodeRune (c :: l)) as [rune w] eqn:Hd. cbv zeta in Hs.
    destruct ((rune =? runeError) && (w <=? 1)%nat) eqn:He; [by eapply Hlone|].
    assert (Hr : ¬ (rune = runeError ∧ (w ≤ 1)%nat)).
    { intros [-> Hw]. rewrite Z.eqb_refl in He. apply Nat.leb_le in Hw. by rewrite Hw in He. }
    eapply Hput; [|exact Hs]. intros t [Ht Hb]. split; [by eapply utf8_take|].
    apply Forall_app. split; [|done]. eapply decodeRune_bytes; [lia|done|done].
Qed.

Lemma good_string l : good l → validUTF8 (of_codes l) = true.
Proof.
  intros [Hu Hb]. unfold validUTF8. rewrite codes_of_codes by done.
  apply utf8_valid; [done|]. by rewrite <- length_codes, codes_of_codes.
Qed.

(** The strings of a parsed value, at the depth the structs of this development use. *)
Definition str_ok (v : json) : Prop := match v with JStr s => validUTF8 s = true | _ => True end.
Definition value_ok (v : json) : Prop :=
  str_ok v ∧ match v with JArr l => Forall str_ok l | _ => True end.
Definition json_ok (v : json) : Prop :=
  value_ok v ∧ match v with JObj ms => Forall (λ m, value_ok m.2) ms | _ => True end.

Lemma parse_ok fuel :
  (∀ depth l v r, parseValue fuel depth l = Some (v, r) → json_ok v) ∧
  (∀ depth l ms r, parseMembers fuel depth l = Some (ms, r) → Forall (λ m, value_ok m.2) ms) ∧
  (∀ depth l vs r, parseElements fuel depth l = Some (vs, r) → Forall str_ok vs).
Proof.
  induction fuel as [|fuel (IHv & IHm & IHe)]; [by split_and!|]. split_and!.
  - intros depth l v r Hp. cbn [parseValue] in Hp.
    assert (Hlit : ∀ l, match literal [110; 117; 108; 108] l, literal [116; 114; 117; 101] l,
                literal [102; 97; 108; 115; 101] l with
          | Some r, _, _ => Some (JNull, r)
          | _, Some r, _ => Some (JBool true, r)
          | _, _, Some r => Some (JBool false, r)
          | _, _, _ => match number l with
                       | Some r => Some (JNum (rawText l r), r) | None => None end
          end = Some (v, r) → json_ok v).
    { intros l' Hl. repeat case_match; by simplify_eq. }
    assert (Hobj : ∀ q, match parseMembers fuel (depth + 1) q with
      | Some (ms, r) => Some (JObj ms, r) | None => None end = Some (v, r) → json_ok v).
    { intros q Hq. destruct (parseMembers fuel (depth + 1) q) as [[ms r']|] eqn:E; [|done]. simplify_eq.
      split; [done|]. by eapply IHm. }
    assert (Harr : ∀ q, match parseElements fuel (depth + 1) q with
      | Some (vs, r) => Some (JArr vs, r) | None => None end = Some (v, r) → json_ok v).
    { intros q Hq. destruct (parseElements fuel (depth + 1) q) as [[vs r']|] eqn:E; [|done]. simplify_eq.
      split; [|done]. split; [done|]. by eapply IHe. }
    destruct (skipWS l) as [|c q]; [done|].
    destruct (decide (c = 123)) as [->|H1].
    { case_match; [done|]. destruct (skipWS q) as [|c q']; [by eapply Hobj|].
      destruct (decide (c = 125)) as [->|Hc]; [simplify_eq; by repeat constructor|].
      apply (Hobj (c :: q')). revert Hp. clear -Hc. destruct c as [|p|p]; [done| |done].
      do 7 (try (destruct p as [p|p|]; [| |try done])); try done. }
    destruct (decide (c = 91)) as [->|H2].
    { case_match; [done|]. destruct (skipWS q) as [|c q']; [by eapply Harr|].
      destruct (decide (c = 93)) as [->|Hc]; [simplify_eq; by repeat constructor|].
      apply (Harr (c :: q')). revert Hp. clear -Hc. destruct c as [|p|p]; [done| |done].
      do 7 (try (destruct p as [p|p|]; [| |try done])); try done. }
    destruct (decide (c = 34)) as [->|H3].
    { destruct (stringBody _ q) as [[s q']|] eqn:E; [|done]. simplify_eq.
      split; [|done]. split; [|done]. by eapply good_string, stringBody_good. }
    apply (Hlit (c :: q)). revert Hp. clear -H1 H2 H3. destruct c as [|p|p]; [done| |done].
    do 7 (try (destruct p as [p|p|]; [| |try done])); try done.
  - intros depth l ms r Hp. cbn [parseMembers] in Hp. repeat case_match; simplify_eq; try done.
    + repeat constructor; [|by eapply IHv..]. by eapply IHv.
    + constructor; [|by eapply IHm]. by eapply IHv.
  - intros depth l vs r Hp. cbn [parseElements] in Hp. repeat case_match; simplify_eq; try done.
    + repeat constructor. by eapply IHv.
    + constructor; [|by eapply IHe]. by eapply IHv.
Qed.

Lemma atoi_range t z : atoi t = Some z → is_int z.
Proof.
  unfold atoi. destruct (match t with String "-" d => _ | String "+" d => _ | _ => _ end) as [neg d].
  destruct d; [done|]. destruct (digitsVal 0 _) as [n|]; [|done].
  destruct ((minInt64 <=? (if neg then - n else n)) && ((if neg then - n else n) <=? maxInt64)) eqn:E;
    [|done].
  intros ?. simplify_eq. apply andb_true_iff in E as [E1%Z.leb_le E2%Z.leb_le]. by split.
Qed.

Lemma strings_ok l r : Forall str_ok l → strings l = Some r → Forall (λ s, validUTF8 s = true) r.
Proof.
  intros Hl. revert r. induction Hl as [|v l Hv Hl IH]; intros r Hr; simpl in Hr;
    [simplify_eq; constructor|].
  destruct v; try done; destruct (strings l) as [r'|]; simplify_eq/=; constructor; auto.
Qed.

Lemma digitsVal_nonneg acc t z : 0 ≤ acc → digitsVal acc t = Some z → 0 ≤ z.
Proof.
  revert acc. induction t as [|c t IH]; intros acc Ha Hd; simpl in Hd; [by simplify_eq|].
  repeat case_match; try done; breflect; (eapply IH; [|exact Hd]); lia.
Qed.
Lemma parseUint_range t z : parseUint t = Some z → is_u64 z.
Proof.
  unfold parseUint, is_u64. destruct t as [|c t]; [done|]. intros Hp.
  destruct (digitsVal 0 (String c t)) as [n|] eqn:E; [|done]. simpl in Hp.
  destruct (Z.ltb_spec n (2 ^ 64)); [|done]. simplify_eq.
  apply digitsVal_nonneg in E; lia.
Qed.

(** A field that is not a raw message. *)
Definition plain_ok (f : field) : Prop := field_ok f ∧ noRaw f.(fVal) = true.

Lemma decodeVal_ok raw j old v :
  value_ok j → val_ok old → noRaw old = true → decodeVal raw j old = Some v →
  val_ok v ∧ noRaw v = true.
Proof.
  intros [Hs Ha] Ho Hr. unfold decodeVal. destruct old, j; intros Hd; simplify_eq/=; try done.
  - destruct (atoi text) as [n|] eqn:E; simplify_eq/=. split; [|done]. by eapply atoi_range.
  - destruct (parseUint text) as [n|] eqn:E; simplify_eq/=. split; [|done]. by eapply parseUint_range.
  - destruct (strings l0) as [r|] eqn:E; simplify_eq/=. split; [|done]. by eapply strings_ok.
Qed.

Lemma assign_ok m raw j fs fs' :
  value_ok j → Forall plain_ok fs → assign m raw j fs = Some (Some fs') → Forall plain_ok fs'.
Proof.
  intros Hj Hfs. revert fs'.
  induction Hfs as [|f fs [(Hn & Hv & Ho) Hr] Hfs IH]; intros fs' Ha; simpl in Ha; [done|].
  destruct (m f).
  - destruct (decodeVal raw j f.(fVal)) as [v|] eqn:E; simplify_eq/=.
    apply decodeVal_ok in E as [E Er]; [|done..]. constructor; [|done].
    split; [|done]. split; [done|]. split; [done|]. simpl. intros ->. done.
  - destruct (assign m raw j fs) as [[gs|]|]; simplify_eq/=. constructor; [done|auto].
Qed.

Lemma setMembers_ok ms fs fs' :
  Forall (λ m, value_ok m.2) ms → Forall plain_ok fs → setMembers ms fs = Some fs' →
  Forall plain_ok fs'.
Proof.
  intros Hms. revert fs. induction Hms as [|[[k raw] j] ms Hj Hms IH]; intros fs Hfs Hs; simplify_eq/=;
    [done|].
  destruct (assign (λ f, (fName f =? k)%string) raw j fs) as [[gs|]|] eqn:E1; simplify_eq/=.
  { eapply IH; [|done]. by eapply assign_ok. }
  destruct (assign (λ f, setsField (fName f) k) raw j fs) as [[gs|]|] eqn:E2; simplify_eq/=.
  - eapply IH; [|done]. by eapply assign_ok.
  - by eapply IH.
Qed.

(** What decodes has valid text and integers in range. *)
Lemma unmarshalStruct_ok zero s fs :
  Forall plain_ok zero → unmarshalStruct zero s = Some fs → Forall plain_ok fs.
Proof.
  intros Hz Hu. unfold unmarshalStruct in Hu.
  destruct (parseJSON s) as [v|] eqn:Hp; simplify_eq/=.
  unfold parseJSON in Hp.
  destruct (parseValue _ 0 (codes s)) as [[v' r]|] eqn:E; [|done].
  apply (proj1 (parse_ok _)) in E. destruct (skipWS r); simplify_eq.
  destruct v as [| | | | |ms]; simplify_eq/=; [done|]. destruct E as [_ Hms].
  by eapply setMembers_ok.
Qed.
