(* ===== verification/Base64.v ===== *)
(** * Base64: the encodings of [encoding/base64] that the code uses

    [RawURLEncoding] (URL alphabet, no padding, trailing bits ignored) and
    [StdEncoding.Strict] (padded, trailing bits must be zero). Decoding skips line ends. Bytes
    are codes. The results are the round trip [b64_roundtrip] and [b64_strict_inj]: strict
    padded text is determined by what it decodes to. *)
From stdpp Require Import base list strings.
From Stdlib Require Import ZArith Lia.
From S2P Require Import Prelude GoStd JsonCodec.
Open Scope Z_scope.

Record encoding := mkEncoding { urlAlphabet : bool; padded : bool; strict : bool }.
Definition RawURLEncoding : encoding := mkEncoding true false false.
Definition StdStrict : encoding := mkEncoding false true true.

Definition char62 (e : encoding) : Z := if e.(urlAlphabet) then 45 else 43.
Definition char63 (e : encoding) : Z := if e.(urlAlphabet) then 95 else 47.
Definition padChar : Z := 61.

Definition digit64 (e : encoding) (s : Z) : Z :=
  if s <? 26 then 65 + s else if s <? 52 then 71 + s else if s <? 62 then s - 4
  else if s =? 62 then char62 e else char63 e.
Definition sextet (e : encoding) (c : Z) : option Z :=
  if (65 <=? c) && (c <=? 90) then Some (c - 65)
  else if (97 <=? c) && (c <=? 122) then Some (c - 71)
  else if (48 <=? c) && (c <=? 57) then Some (c + 4)
  else if c =? char62 e then Some 62 else if c =? char63 e then Some 63 else None.

Fixpoint encode64 (e : encoding) (l : list Z) : list Z :=
  match l with
  | a :: b :: c :: l =>
      digit64 e (a / 4) :: digit64 e (a mod 4 * 16 + b / 16) :: digit64 e (b mod 16 * 4 + c / 64) :: digit64 e (c mod 64) :: encode64 e l
  | [a; b] => digit64 e (a / 4) :: digit64 e (a mod 4 * 16 + b / 16) :: digit64 e (b mod 16 * 4) :: (if e.(padded) then [padChar] else [])
  | [a] => digit64 e (a / 4) :: digit64 e (a mod 4 * 16) :: (if e.(padded) then [padChar; padChar] else [])
  | [] => []
  end.

(** One, two or three bytes from a quantum; the bits left over. *)
Definition one (a b : Z) : Z * Z := (a * 4 + b / 16, b mod 16).
Definition two (a b c : Z) : list Z * Z := ([a * 4 + b / 16; b mod 16 * 16 + c / 4], c mod 4).
Definition three (a b c d : Z) : list Z := [a * 4 + b / 16; b mod 16 * 16 + c / 4; c mod 4 * 64 + d].
Definition tail1 (e : encoding) (a b : Z) : option (list Z) :=
  a ← sextet e a; b ← sextet e b;
  let '(x, over) := one a b in if e.(strict) && negb (over =? 0) then None else Some [x].
Definition tail2 (e : encoding) (a b c : Z) : option (list Z) :=
  a ← sextet e a; b ← sextet e b; c ← sextet e c;
  let '(x, over) := two a b c in if e.(strict) && negb (over =? 0) then None else Some x.
Fixpoint quanta (e : encoding) (l : list Z) : option (list Z) :=
  match l with
  | [] => Some []
  | a :: b :: c :: d :: l =>
      if e.(padded) && (d =? padChar) then
        match l with
        | [] => if c =? padChar then tail1 e a b else tail2 e a b c
        | _ => None
        end
      else
        a ← sextet e a; b ← sextet e b; c ← sextet e c; d ← sextet e d; r ← quanta e l;
        Some (three a b c d ++ r)
  | [a; b; c] => if e.(padded) then None else tail2 e a b c
  | [a; b] => if e.(padded) then None else tail1 e a b
  | [_] => None
  end.
Definition isEOL (c : Z) : bool := (c =? 10) || (c =? 13).
Definition decode64 (e : encoding) (l : list Z) : option (list Z) := quanta e (List.filter (λ c, negb (isEOL c)) l).

Definition EncodeToString (e : encoding) (bytes : list Z) : string := of_codes (encode64 e bytes).
Definition DecodeString (e : encoding) (s : string) : option (list Z) := decode64 e (codes s).

(** ** Round trip *)

Lemma sextet_digit e s : 0 ≤ s < 64 → sextet e (digit64 e s) = Some s.
Proof.
  intros Hs. unfold sextet, digit64, char62, char63. destruct (urlAlphabet e);
    repeat match goal with |- context [?a <? ?b] => destruct (Z.ltb_spec a b) | |- context [?a <=? ?b] => destruct (Z.leb_spec a b) | |- context [?a =? ?b] => destruct (Z.eqb_spec a b) end;
    cbn [andb]; try lia; f_equal; lia.
Qed.
Lemma digit_plain e s : 0 ≤ s < 64 → isEOL (digit64 e s) = false ∧ digit64 e s ≠ padChar ∧ 0 ≤ digit64 e s < 128.
Proof.
  intros Hs. unfold digit64, char62, char63, isEOL, padChar. destruct (urlAlphabet e);
    repeat match goal with |- context [?a <? ?b] => destruct (Z.ltb_spec a b) | |- context [?a =? ?b] => destruct (Z.eqb_spec a b) end; cbn [orb]; split_and!; lia || done.
Qed.

Definition isByte (z : Z) : Prop := 0 ≤ z < 256.
Lemma codes_of_codes64 l : Forall (λ z, 0 ≤ z < 256) l → codes (of_codes l) = l.
Proof. apply JsonCodec.codes_of_codes. Qed.

(** Induction in steps of three bytes. *)
Lemma list_ind3 (P : list Z → Prop) :
  P [] → (∀ a, P [a]) → (∀ a b, P [a; b]) → (∀ a b c l, P l → P (a :: b :: c :: l)) → ∀ l, P l.
Proof.
  intros H0 H1 H2 H3 l. assert (P l ∧ (∀ a, P (a :: l)) ∧ ∀ a b, P (a :: b :: l)) as (? & _); [|done].
  induction l as [|x l (I0 & I1 & I2)]; [by split_and!|]. split_and!; [apply I1|intros a; apply I2|intros a b; apply H3, I0].
Qed.
Lemma list_ind4 (P : list Z → Prop) :
  P [] → (∀ a, P [a]) → (∀ a b, P [a; b]) → (∀ a b c, P [a; b; c]) → (∀ a b c d l, P l → P (a :: b :: c :: d :: l)) → ∀ l, P l.
Proof.
  intros H0 H1 H2 H3 H4 l. assert (P l ∧ (∀ a, P (a :: l)) ∧ (∀ a b, P (a :: b :: l)) ∧ ∀ a b c, P (a :: b :: c :: l)) as (? & _); [|done].
  induction l as [|x l (I0 & I1 & I2 & I3)]; [by split_and!|].
  split_and!; [apply I1|intros a; apply I2|intros a b; apply I3|intros a b c; apply H4, I0].
Qed.

Ltac split3 := Z.to_euclidean_division_equations; lia.

Lemma encode_codes e l : Forall isByte l → Forall (λ z, isEOL z = false ∧ 0 ≤ z < 128) (encode64 e l).
Proof.
  assert (∀ s, 0 ≤ s < 64 → isEOL (digit64 e s) = false ∧ 0 ≤ digit64 e s < 128) as Hd by (intros s Hs; pose proof (digit_plain e s Hs); tauto).
  induction l as [|a|a b|a b c l IH] using list_ind3; intros Hl; repeat (apply Forall_cons in Hl as [? Hl]); unfold isByte in *; cbn [encode64]; [constructor| | |];
    repeat (apply Forall_cons_2; [apply Hd; split3|]); try (destruct (padded e); unfold padChar; repeat constructor; lia). by apply IH.
Qed.
Lemma encode_plain e l : Forall isByte l → List.filter (λ c, negb (isEOL c)) (encode64 e l) = encode64 e l.
Proof.
  intros Hl. apply encode_codes with (e := e) in Hl. induction Hl as [|c r [Hc _] Hr IH]; [done|]. cbn. by rewrite Hc, IH.
Qed.

Lemma quanta_encode e l : Forall isByte l → quanta e (encode64 e l) = Some l.
Proof.
  induction l as [|a|a b|a b c l IH] using list_ind3; intros Hl; repeat (apply Forall_cons in Hl as [? Hl]); unfold isByte in *; cbn [encode64 quanta].
  - done.
  - assert (tail1 e (digit64 e (a / 4)) (digit64 e (a mod 4 * 16)) = Some [a]) as Ht.
    { unfold tail1. rewrite !sextet_digit by split3. cbn. replace (a mod 4 * 16 mod 16) with 0 by split3. rewrite andb_false_r. do 2 f_equal. split3. }
    destruct (padded e) eqn:Ep; cbn [quanta]; rewrite ?Ep; [|exact Ht]. cbn [andb]. rewrite Z.eqb_refl. exact Ht.
  - assert (tail2 e (digit64 e (a / 4)) (digit64 e (a mod 4 * 16 + b / 16)) (digit64 e (b mod 16 * 4)) = Some [a; b]) as Ht.
    { unfold tail2. rewrite !sextet_digit by split3. cbn. replace (b mod 16 * 4 mod 4) with 0 by split3. rewrite andb_false_r. repeat f_equal; split3. }
    destruct (padded e) eqn:Ep; cbn [quanta]; rewrite ?Ep; [|exact Ht]. cbn [andb]. rewrite Z.eqb_refl.
    rewrite (proj2 (Z.eqb_neq _ padChar)); [exact Ht|]. apply digit_plain. split3.
  - rewrite (proj2 (Z.eqb_neq (digit64 e (c mod 64)) padChar)) by (apply digit_plain; split3). rewrite andb_false_r.
    rewrite !sextet_digit by split3. cbn. rewrite IH by done. cbn. unfold three. cbn. repeat f_equal; split3.
Qed.


(** What was encoded decodes to itself. *)
Theorem b64_roundtrip e l : Forall isByte l → DecodeString e (EncodeToString e l) = Some l.
Proof.
  intros Hl. unfold DecodeString, EncodeToString, decode64. rewrite codes_of_codes64.
  - by rewrite encode_plain, quanta_encode.
  - eapply Forall_impl; [by apply encode_codes|]. intros z [_ Hz]. lia.
Qed.

(** ** Strict padded text is determined by its bytes *)

Lemma sextet_inv e c s : sextet e c = Some s → digit64 e s = c ∧ 0 ≤ s < 64.
Proof.
  unfold sextet, digit64, char62, char63. destruct (urlAlphabet e);
    repeat match goal with |- context [?a <=? ?b] => destruct (Z.leb_spec a b) | |- context [?a =? ?b] => destruct (Z.eqb_spec a b) end; cbn [andb];
    intros E; try discriminate E; injection E as <-;
    repeat match goal with |- context [?a <? ?b] => destruct (Z.ltb_spec a b) | |- context [?a =? ?b] => destruct (Z.eqb_spec a b) end; lia || (split; [done|lia]) || done.
Qed.

Lemma tail1_inv e a b r : e.(strict) = true → e.(padded) = true → tail1 e a b = Some r → encode64 e r = [a; b; padChar; padChar].
Proof.
  intros Hs Hp. unfold tail1. destruct (sextet e a) as [x|] eqn:Ea; [|done]. destruct (sextet e b) as [y|] eqn:Eb; [|done]. cbn.
  rewrite Hs. cbn [andb]. destruct (Z.eqb_spec (y mod 16) 0) as [Hy|]; [|done]. intros [= <-]. cbn [encode64]. rewrite Hp.
  apply sextet_inv in Ea as [<- ?]. apply sextet_inv in Eb as [<- ?]. repeat f_equal; split3.
Qed.
Lemma tail2_inv e a b c r : e.(strict) = true → e.(padded) = true → tail2 e a b c = Some r → encode64 e r = [a; b; c; padChar].
Proof.
  intros Hs Hp. unfold tail2. destruct (sextet e a) as [x|] eqn:Ea; [|done]. destruct (sextet e b) as [y|] eqn:Eb; [|done]. destruct (sextet e c) as [z|] eqn:Ec; [|done]. cbn.
  rewrite Hs. cbn [andb]. destruct (Z.eqb_spec (z mod 4) 0) as [Hz|]; [|done]. intros [= <-]. cbn [encode64]. rewrite Hp.
  apply sextet_inv in Ea as [<- ?]. apply sextet_inv in Eb as [<- ?]. apply sextet_inv in Ec as [<- ?]. repeat f_equal; split3.
Qed.
Lemma quanta_inv e l r : e.(strict) = true → e.(padded) = true → quanta e l = Some r → encode64 e r = l.
Proof.
  intros Hs Hp. revert r. induction l as [|a|a b|a b c|a b c d l IH] using list_ind4; intros r; cbn [quanta]; rewrite ?Hp; try done.
  - by intros [= <-].
  - cbn [andb]. destruct (Z.eqb_spec d padChar) as [->|].
    + destruct l; [|done]. destruct (Z.eqb_spec c padChar) as [->|]; [by apply tail1_inv|by apply tail2_inv].
    + destruct (sextet e a) as [w|] eqn:Ea; [|done]. destruct (sextet e b) as [x|] eqn:Eb; [|done]. destruct (sextet e c) as [y|] eqn:Ec; [|done].
      destruct (sextet e d) as [z|] eqn:Ed; [|done]. cbn. destruct (quanta e l) as [q|]; [|done]. intros [= <-]. unfold three. cbn [encode64 app].
      rewrite (IH q) by done. apply sextet_inv in Ea as [<- ?]. apply sextet_inv in Eb as [<- ?]. apply sextet_inv in Ec as [<- ?]. apply sextet_inv in Ed as [<- ?].
      repeat f_equal; split3.
Qed.

Definition hasEOL (s : string) : bool := existsb isEOL (codes s).
Lemma decode_noEOL e s : hasEOL s = false → DecodeString e s = quanta e (codes s).
Proof.
  unfold hasEOL, DecodeString, decode64. intros Hn. f_equal. induction (codes s) as [|c l IH]; [done|]. cbn in *.
  apply orb_false_iff in Hn as [Hc Hn]. by rewrite Hc, IH.
Qed.

(** Two texts without line ends that decode strictly to the same bytes are the same text. *)
Theorem b64_strict_inj s t r : hasEOL s = false → hasEOL t = false →
  DecodeString StdStrict s = Some r → DecodeString StdStrict t = Some r → s = t.
Proof.
  intros Hs Ht. rewrite !decode_noEOL by done. intros E1%quanta_inv E2%quanta_inv; try done. apply codes_inj. congruence.
Qed.

(** Decoded bytes are bytes, and encoding is injective on them. *)
Lemma quanta_bytes e l r : quanta e l = Some r → Forall isByte r.
Proof.
  assert (∀ a b r, tail1 e a b = Some r → Forall isByte r) as H1.
  { intros a b r0. unfold tail1. destruct (sextet e a) as [x|] eqn:Ea; [|done]. destruct (sextet e b) as [y|] eqn:Eb; [|done]. cbn. case_match; [done|]. intros [= <-].
    apply sextet_inv in Ea as [_ ?]. apply sextet_inv in Eb as [_ ?]. repeat constructor; split3. }
  assert (∀ a b c r, tail2 e a b c = Some r → Forall isByte r) as H2.
  { intros a b c r0. unfold tail2. destruct (sextet e a) as [x|] eqn:Ea; [|done]. destruct (sextet e b) as [y|] eqn:Eb; [|done]. destruct (sextet e c) as [z|] eqn:Ec; [|done]. cbn.
    case_match; [done|]. intros [= <-]. apply sextet_inv in Ea as [_ ?]. apply sextet_inv in Eb as [_ ?]. apply sextet_inv in Ec as [_ ?]. repeat constructor; split3. }
  revert r. induction l as [|a|a b|a b c|a b c d l IH] using list_ind4; intros r; cbn [quanta]; try done.
  - by intros [= <-].
  - case_match; [done|apply H1].
  - case_match; [done|apply H2].
  - destruct (_ && _); [destruct l; [case_match; [apply H1|apply H2]|done]|].
    destruct (sextet e a) as [w|] eqn:Ea; [|done]. destruct (sextet e b) as [x|] eqn:Eb; [|done]. destruct (sextet e c) as [y|] eqn:Ec; [|done].
    destruct (sextet e d) as [z|] eqn:Ed; [|done]. cbn. destruct (quanta e l) as [q|]; [|done]. intros [= <-].
    apply sextet_inv in Ea as [_ ?]. apply sextet_inv in Eb as [_ ?]. apply sextet_inv in Ec as [_ ?]. apply sextet_inv in Ed as [_ ?].
    unfold three, isByte. repeat (apply Forall_cons_2; [split3|]). by apply IH.
Qed.
Lemma DecodeString_bytes e s r : DecodeString e s = Some r → Forall isByte r.
Proof. apply quanta_bytes. Qed.
Lemma EncodeToString_inj e l1 l2 : Forall isByte l1 → Forall isByte l2 → EncodeToString e l1 = EncodeToString e l2 → l1 = l2.
Proof. intros H1 H2 E. pose proof (b64_roundtrip e l1 H1) as E1. rewrite E, b64_roundtrip in E1 by done. congruence. Qed.
