(* ===== verification/Classify.v ===== *)
(** * Classify: how a JSON-RPC line is classified for policy
    (src/policy/classify.go, the JSON helpers of src/policy/filter.go, and the token strip
    of src/policy/capability.go)

    A line is parsed, checked for duplicate keys and sorted into the kinds the filter
    governs. [stripMetaToken] takes a security token out of [params._meta]. *)
From stdpp Require Import base list strings gmap.
From Stdlib Require Import ZArith Lia Ascii.
From S2P Require Import Prelude GoStd Json.
Open Scope Z_scope.
Open Scope mesh_scope.

(** ** Duplicate keys *)

Fixpoint distinct (ks : list string) : bool :=
  match ks with
  | [] => true
  | k :: ks => negb (existsb (String.eqb k) ks) && distinct ks
  end.

(** [scanNoDupKeys] at any depth. *)
Fixpoint noDupKeys (v : json) : bool :=
  match v with
  | JArr l => forallb noDupKeys l
  | JObj ms => distinct ((λ m, m.1.1) <$> ms) && forallb (λ m, noDupKeys m.2) ms
  | _ => true
  end.

(** [checkNoDuplicateKeys]; a line that does not parse is an error too. *)
Definition checkNoDuplicateKeys (data : string) : bool :=
  match parseJSON data with Some v => noDupKeys v | None => false end.

(** ** The struct a line is peeked into *)

Record rpcPeek := mkPeek {
  pMethod : string;
  pID : string;            (* raw text; empty when absent *)
  pName : string;
  pArguments : string      (* raw text *)
}.

(** A string field: [null] leaves it, another type is an error. *)
Definition setString (v : json) (old : string) : option string :=
  match v with JStr s => Some s | JNull => Some old | _ => None end.

Definition setParam (p : rpcPeek) (m : string * string * json) : option rpcPeek :=
  let '(k, raw, v) := m in
  if setsField "name" k then
    n ← setString v p.(pName); Some (mkPeek p.(pMethod) p.(pID) n p.(pArguments))
  else if setsField "arguments" k then Some (mkPeek p.(pMethod) p.(pID) p.(pName) raw)
  else Some p.

Fixpoint foldMembers {A} (f : A → string * string * json → option A)
    (ms : list (string * string * json)) (a : A) : option A :=
  match ms with
  | [] => Some a
  | m :: ms => a ← f a m; foldMembers f ms a
  end.

Definition setField (p : rpcPeek) (m : string * string * json) : option rpcPeek :=
  let '(k, raw, v) := m in
  if setsField "method" k then
    n ← setString v p.(pMethod); Some (mkPeek n p.(pID) p.(pName) p.(pArguments))
  else if setsField "id" k then Some (mkPeek p.(pMethod) raw p.(pName) p.(pArguments))
  else if setsField "params" k then
    match v with
    | JObj ms => foldMembers setParam ms p
    | JNull => Some p
    | _ => None
    end
  else Some p.

(** [json.Unmarshal] of a line into [rpcPeek]: members in order, later ones win. *)
Definition peek (line : string) : option rpcPeek :=
  v ← parseJSON line;
  match v with
  | JObj ms => foldMembers setField ms (mkPeek "" "" "" "")
  | JNull => Some (mkPeek "" "" "" "")
  | _ => None
  end.

Definition validRequestID (id : string) : bool :=
  let t := trimSpace id in negb (t =? "")%string && negb (t =? "null")%string.

(** ** ClassifyRPC *)

Inductive RPCKind := RPCEmpty | RPCBatch | RPCInvalid | RPCToolCall | RPCNotification | RPCMethod.
#[export] Instance RPCKind_eq_dec : EqDecision RPCKind.
Proof. solve_decision. Defined.

Inductive classReason := NoClassReason | BatchUnsupported | Unparseable | DuplicateKey | MissingID
| MissingName.

Definition classReasonText (r : classReason) : string :=
  match r with
  | NoClassReason => ""
  | BatchUnsupported => "JSON-RPC batches are not supported by the mesh policy filter"
  | Unparseable => "unparseable JSON-RPC line rejected by mesh policy"
  | DuplicateKey => "ambiguous JSON-RPC (duplicate key) rejected by mesh policy"
  | MissingID => "tools/call rejected: missing or null JSON-RPC id (invalid MCP request)"
  | MissingName => "tools/call rejected: missing or empty params.name"
  end.

Record RPCClass := mkClass {
  Kind : RPCKind;
  Method : string;
  Tool : string;
  RID : string;
  Args : string;
  CReason : classReason
}.

Definition ClassifyRPC (line : string) : RPCClass :=
  let trimmed := trimSpace line in
  match trimmed with
  | "" => mkClass RPCEmpty "" "" "" "" NoClassReason
  | String c _ =>
      if Ascii.eqb c "["%char then mkClass RPCBatch "" "" "" "" BatchUnsupported
      else
        match peek trimmed with
        | None => mkClass RPCInvalid "" "" "" "" Unparseable
        | Some msg =>
            if negb (checkNoDuplicateKeys trimmed) then mkClass RPCInvalid "" "" "" "" DuplicateKey
            else if (msg.(pMethod) =? "tools/call")%string then
              if negb (validRequestID msg.(pID)) then
                mkClass RPCInvalid msg.(pMethod) msg.(pName) "" "" MissingID
              else if (msg.(pName) =? "")%string then
                mkClass RPCInvalid msg.(pMethod) "" msg.(pID) "" MissingName
              else
                mkClass RPCToolCall msg.(pMethod) msg.(pName) msg.(pID) msg.(pArguments)
                  NoClassReason
            else if (msg.(pID) =? "")%string then
              mkClass RPCNotification msg.(pMethod) "" "" "" NoClassReason
            else mkClass RPCMethod msg.(pMethod) "" msg.(pID) "" NoClassReason
        end
  end.

(** ** Token strip *)

(** [json.Unmarshal] into [map[string]json.RawMessage]: later members win; [null] is an
    empty map. Kept as an association list sorted by key, as [json.Marshal] writes it. *)
Fixpoint strLtb (a b : string) : bool :=
  match a, b with
  | "", "" => false
  | "", _ => true
  | _, "" => false
  | String x a, String y b => (ord x <? ord y) || (Ascii.eqb x y && strLtb a b)
  end.

Definition rawMap := list (string * string).
Fixpoint mapSet (k v : string) (m : rawMap) : rawMap :=
  match m with
  | [] => [(k, v)]
  | (k', v') :: m' =>
      if (k =? k')%string then (k, v) :: m'
      else if strLtb k k' then (k, v) :: m
      else (k', v') :: mapSet k v m'
  end.
Fixpoint mapGet (k : string) (m : rawMap) : option string :=
  match m with
  | [] => None
  | (k', v) :: m => if (k =? k')%string then Some v else mapGet k m
  end.
Definition mapDelete (k : string) (m : rawMap) : rawMap :=
  List.filter (λ kv, negb (k =? kv.1)%string) m.

Definition unmarshalMap (s : string) : option rawMap :=
  v ← parseJSON s;
  match v with
  | JObj ms => Some (fold_left (λ acc m, mapSet m.1.1 m.1.2 acc) ms [])
  | JNull => Some []
  | _ => None
  end.

Fixpoint marshalMembers (m : rawMap) : string :=
  match m with
  | [] => ""
  | [(k, v)] => marshalString k +:+ ":" +:+ compact v
  | (k, v) :: m => marshalString k +:+ ":" +:+ compact v +:+ "," +:+ marshalMembers m
  end.
Definition marshalMap (m : rawMap) : string := "{" +:+ marshalMembers m +:+ "}".

Definition endsWithNewline (s : string) : bool :=
  match List.last (codes s) 0 with 10 => true | _ => false end.

(** [stripMetaToken]: the token (a string, else empty) and the line without it. *)
Definition stripMetaToken (line key : string) : string * string :=
  match unmarshalMap line with
  | None => ("", line)
  | Some msg =>
      match mapGet "params" msg ≫= (λ params, pm ← unmarshalMap params;
              metaRaw ← mapGet "_meta" pm; meta ← unmarshalMap metaRaw;
              capRaw ← mapGet key meta; Some (pm, meta, capRaw)) with
      | None => ("", line)
      | Some (pm, meta, capRaw) =>
          let token := match parseJSON capRaw with Some (JStr s) => s | _ => "" end in
          let meta := mapDelete key meta in
          let pm := match meta with
                    | [] => mapDelete "_meta" pm
                    | _ => mapSet "_meta" (marshalMap meta) pm
                    end in
          let msg := mapSet "params" (marshalMap pm) msg in
          (token, marshalMap msg +:+ (if endsWithNewline line then of_codes [10] else ""))
      end
  end.

Definition capMetaKey : string := "com.meshmcp/capability".
Definition DelegationMetaKey : string := "com.meshmcp/delegation".
Definition stripCapability (line : string) : string * string := stripMetaToken line capMetaKey.

(** ** What a reader with exact keys sees *)

(** The value of the last member named exactly [k]. *)
Definition exactGet (k : string) (ms : list (string * string * json)) : option json :=
  match last (List.filter (λ m : string * string * json, (m.1.1 =? k)%string) ms) with
  | Some m => Some m.2
  | None => None
  end.
Definition exactString (k : string) (ms : list (string * string * json)) : string :=
  match exactGet k ms with Some (JStr s) => s | _ => "" end.
Definition exactMembers (k : string) (ms : list (string * string * json))
  : list (string * string * json) :=
  match exactGet k ms with Some (JObj l) => l | _ => [] end.

(** No key is a case variant of [name]. *)
Definition exactOnly (name : string) (ms : list (string * string * json)) : Prop :=
  ∀ m, m ∈ ms → setsField name m.1.1 = true → m.1.1 = name.

Lemma exactOnly_check name ms :
  forallb (λ m : string * string * json, negb (setsField name m.1.1) || (m.1.1 =? name)%string) ms
    = true → exactOnly name ms.
Proof.
  rewrite forallb_forall. intros Hall m Hm Hs. apply list_elem_of_In, Hall in Hm.
  rewrite Hs in Hm. simpl in Hm. by breflect.
Qed.

Lemma distinct_fresh k ks : distinct (k :: ks) = true → k ∉ ks.
Proof.
  simpl. intros Hd. breflect. intros Hin.
  assert (existsb (String.eqb k) ks = true) as E.
  { apply existsb_exists. exists k. split; [by apply list_elem_of_In|apply String.eqb_refl]. }
  congruence.
Qed.

Lemma filter_fresh k (ms : list (string * string * json)) :
  k ∉ (λ m : string * string * json, m.1.1) <$> ms →
  List.filter (λ m : string * string * json, (m.1.1 =? k)%string) ms = [].
Proof.
  intros Hk. induction ms as [|m ms IH]; [done|]. simpl. rewrite fmap_cons in Hk.
  apply not_elem_of_cons in Hk as [Hne Hk]. destruct (String.eqb_spec m.1.1 k); [done|]. auto.
Qed.

(** With distinct keys, the members before and after the one named [k] do not matter. *)
Lemma exactGet_cons k m ms :
  distinct ((λ m : string * string * json, m.1.1) <$> m :: ms) = true →
  exactGet k (m :: ms) = if (m.1.1 =? k)%string then Some m.2 else exactGet k ms.
Proof.
  intros Hd. rewrite fmap_cons in Hd. apply distinct_fresh in Hd.
  unfold exactGet. cbn [List.filter].
  destruct (String.eqb_spec m.1.1 k) as [<-|]; [|done].
  by rewrite (filter_fresh _ _ Hd).
Qed.

Lemma setsField_refl name : setsField name name = true.
Proof. unfold setsField. by rewrite bool_decide_eq_true. Qed.

Lemma distinct_tail k ks : distinct (k :: ks) = true → distinct ks = true.
Proof. simpl. intros Hd. by breflect. Qed.

(** The string that a member list gives field [k], starting from [old]. *)
Definition exactFrom (k old : string) (ms : list (string * string * json)) : string :=
  match exactGet k ms with Some (JStr s) => s | _ => old end.

Lemma setParam_fields p m p' :
  setParam p m = Some p' → exactOnly "name" [m] →
  p'.(pMethod) = p.(pMethod) ∧
  p'.(pName) = if (m.1.1 =? "name")%string then match m.2 with JStr s => s | _ => p.(pName) end
               else p.(pName).
Proof.
  destruct m as [[k raw] v]. unfold setParam. intros Hs Hex. simpl.
  destruct (setsField "name" k) eqn:Hn.
  - assert (k = "name") as -> by (apply (Hex _ (list_elem_of_here _ _)); done).
    rewrite String.eqb_refl. destruct v; simplify_eq/=; done.
  - assert (Hk : (k =? "name")%string = false).
    { apply String.eqb_neq. intros ->. by rewrite setsField_refl in Hn. }
    rewrite Hk. destruct (setsField "arguments" k); simplify_eq/=; done.
Qed.

Lemma exactOnly_cons name m ms : exactOnly name (m :: ms) → exactOnly name [m] ∧ exactOnly name ms.
Proof.
  intros Hx. split; intros m' Hm; apply Hx; [|by right].
  apply list_elem_of_singleton in Hm as ->. by left.
Qed.

Lemma foldParams_fields ms p p' :
  foldMembers setParam ms p = Some p' → exactOnly "name" ms →
  distinct ((λ m : string * string * json, m.1.1) <$> ms) = true →
  p'.(pMethod) = p.(pMethod) ∧ p'.(pName) = exactFrom "name" p.(pName) ms.
Proof.
  revert p. induction ms as [|m ms IH]; intros p Hf Hx Hd; simpl in Hf; [by simplify_eq|].
  destruct (setParam p m) as [p1|] eqn:Hp; [|done]. simpl in Hf.
  apply exactOnly_cons in Hx as [Hx1 Hx2].
  apply setParam_fields in Hp as [Hm1 Hn1]; [|done].
  pose proof (exactGet_cons "name" m ms Hd) as Hget.
  rewrite fmap_cons in Hd. apply distinct_fresh in Hd as Hfresh. apply distinct_tail in Hd.
  destruct (IH _ Hf Hx2 Hd) as [-> ->]. rewrite Hm1, Hn1. split; [done|].
  unfold exactFrom. rewrite Hget. destruct (String.eqb_spec m.1.1 "name") as [E|]; [|done].
  rewrite E in Hfresh. assert (Hg : exactGet "name" ms = None).
  { unfold exactGet. by rewrite (filter_fresh _ _ Hfresh). }
  rewrite Hg. done.
Qed.

Lemma setField_fields p m p' :
  setField p m = Some p' → exactOnly "method" [m] → exactOnly "params" [m] →
  (m.1.1 = "params" → ∀ l, m.2 = JObj l →
    exactOnly "name" l ∧ distinct ((λ m : string * string * json, m.1.1) <$> l) = true) →
  p'.(pMethod) = (if (m.1.1 =? "method")%string
                  then match m.2 with JStr s => s | _ => p.(pMethod) end else p.(pMethod)) ∧
  p'.(pName) = (if (m.1.1 =? "params")%string
                then match m.2 with JObj l => exactFrom "name" p.(pName) l | _ => p.(pName) end
                else p.(pName)).
Proof.
  destruct m as [[k raw] v]. unfold setField. intros Hs Hm Hp Hl. cbn [fst snd] in *.
  destruct (setsField "method" k) eqn:Em.
  { assert (k = "method") as -> by (apply (Hm _ (list_elem_of_here _ _)); done).
    destruct v; simplify_eq/=; done. }
  assert (Hk : (k =? "method")%string = false).
  { apply String.eqb_neq. intros ->. by rewrite setsField_refl in Em. }
  rewrite Hk. destruct (setsField "id" k) eqn:Ei.
  { assert ((k =? "params")%string = false) as ->.
    { apply String.eqb_neq. intros ->. by vm_compute in Ei. }
    by simplify_eq/=. }
  destruct (setsField "params" k) eqn:Ep.
  - assert (k = "params") as -> by (apply (Hp _ (list_elem_of_here _ _)); done).
    rewrite String.eqb_refl. destruct v as [| | | | |l]; simplify_eq/=; try done.
    destruct (Hl eq_refl l eq_refl) as [Hx Hd]. by apply foldParams_fields.
  - assert ((k =? "params")%string = false) as ->.
    { apply String.eqb_neq. intros ->. by rewrite setsField_refl in Ep. }
    by simplify_eq/=.
Qed.

Lemma foldFields ms p p' :
  foldMembers setField ms p = Some p' → exactOnly "method" ms → exactOnly "params" ms →
  exactOnly "name" (exactMembers "params" ms) → noDupKeys (JObj ms) = true →
  p'.(pMethod) = exactFrom "method" p.(pMethod) ms ∧
  p'.(pName) = exactFrom "name" p.(pName) (exactMembers "params" ms).
Proof.
  revert p. induction ms as [|m ms IH]; intros p Hf Hm Hp Hn Hd; simpl in Hf; [by simplify_eq|].
  destruct (setField p m) as [p1|] eqn:Hs; [|done]. simpl in Hf.
  apply exactOnly_cons in Hm as [Hm1 Hm2]. apply exactOnly_cons in Hp as [Hp1 Hp2].
  cbn [noDupKeys] in Hd. apply andb_true_iff in Hd as [Hd Hnested]. cbn [forallb] in Hnested.
  apply andb_true_iff in Hnested as [Hn1 Hnested].
  pose proof (λ k, exactGet_cons k m ms Hd) as Hget.
  rewrite fmap_cons in Hd. apply distinct_fresh in Hd as Hfresh. apply distinct_tail in Hd.
  assert (Hnone : exactGet m.1.1 ms = None).
  { unfold exactGet. by rewrite (filter_fresh _ _ Hfresh). }
  apply setField_fields in Hs as [Hsm Hsn]; [|done|done|].
  2:{ intros Ek l El. unfold exactMembers in Hn. rewrite Hget, Ek, String.eqb_refl, El in Hn.
      split; [done|]. rewrite El in Hn1. cbn [noDupKeys] in Hn1. by apply andb_true_iff in Hn1 as [? _]. }
  assert (Hn2 : exactOnly "name" (exactMembers "params" ms)).
  { unfold exactMembers in *. rewrite Hget in Hn.
    destruct (String.eqb_spec m.1.1 "params") as [E|]; [|done].
    rewrite E in Hnone. rewrite Hnone. by intros ? ?%elem_of_nil. }
  destruct (IH _ Hf Hm2 Hp2 Hn2) as [-> ->].
  { cbn [noDupKeys]. by rewrite Hd, Hnested. }
  rewrite Hsm, Hsn. unfold exactFrom, exactMembers. rewrite !Hget. split.
  - destruct (String.eqb_spec m.1.1 "method") as [E|]; [|done]. rewrite E in Hnone. by rewrite Hnone.
  - destruct (String.eqb_spec m.1.1 "params") as [E|]; [|done]. rewrite E in Hnone. rewrite Hnone.
    simpl. destruct (snd m); done.
Qed.

(** The classifier agrees with any reader of the line: on a line that is not rejected
    and in which no key is a case variant of the ones that matter, the method and tool the
    filter decides on are the ones a reader with exact keys finds; so a call of a tool is
    always governed as that tool call, whatever other members, order or white space. *)
Theorem classifier_agrees_with_exact_reader line ms :
  parseJSON (trimSpace line) = Some (JObj ms) →
  exactOnly "method" ms → exactOnly "params" ms → exactOnly "name" (exactMembers "params" ms) →
  let c := ClassifyRPC line in
  c.(Kind) = RPCToolCall ∨ c.(Kind) = RPCMethod ∨ c.(Kind) = RPCNotification →
  c.(Method) = exactString "method" ms ∧
  (c.(Kind) = RPCToolCall ↔ exactString "method" ms = "tools/call") ∧
  (c.(Kind) = RPCToolCall →
    c.(Tool) = exactString "name" (exactMembers "params" ms) ∧ c.(Tool) ≠ "").
Proof.
  intros Hparse Hm Hp Hn. unfold ClassifyRPC.
  destruct (trimSpace line) as [|ch rest] eqn:Ht; [simpl; naive_solver|].
  destruct (Ascii.eqb ch "["%char); [simpl; naive_solver|].
  unfold peek, checkNoDuplicateKeys. rewrite Hparse. cbn [mbind option_bind].
  destruct (foldMembers _ _ _) as [p|] eqn:Hf; [|simpl; naive_solver].
  destruct (noDupKeys (JObj ms)) eqn:Hd; simpl negb; [|simpl; naive_solver].
  destruct (foldFields _ _ _ Hf Hm Hp Hn Hd) as [Hpm Hpn]. cbn [pMethod pName] in Hpm, Hpn.
  change (exactFrom "method" "" ms) with (exactString "method" ms) in Hpm.
  change (exactFrom "name" "" (exactMembers "params" ms))
    with (exactString "name" (exactMembers "params" ms)) in Hpn.
  destruct (String.eqb_spec (pMethod p) "tools/call") as [Et|Et].
  - destruct (validRequestID (pID p)); simpl negb; [|simpl; naive_solver].
    destruct (String.eqb_spec (pName p) ""); simpl; [naive_solver|].
    intros _. rewrite <- Hpm, <- Hpn. done.
  - destruct (pID p =? "")%string; simpl; intros _; rewrite <- Hpm; naive_solver.
Qed.

(** ** Concrete lines *)

(** JSON text written with single quotes. *)
Fixpoint dq (s : string) : string :=
  match s with
  | "" => ""
  | String c s => String (if Ascii.eqb c (chr 39) then chr 34 else c) (dq s)
  end.

Definition callLine : string := Eval vm_compute in
  dq "{'id':7,'method':'tools/call','params':{'name':'wipe','arguments':{'all':true}}}".
Definition variantLine : string := Eval vm_compute in
  dq "{'id':7,'method':'tools/call','Method':'ping','params':{'name':'wipe','arguments':{'all':true}}}".
Definition members (line : string) : list (string * string * json) :=
  match parseJSON line with Some (JObj ms) => ms | _ => [] end.

Lemma classifier_agrees_with_exact_reader_witness :
  Kind (ClassifyRPC callLine) = RPCToolCall ∧ Tool (ClassifyRPC callLine) = "wipe".
Proof.
  destruct (classifier_agrees_with_exact_reader callLine (members callLine)) as (_ & Hk & Ht).
  - vm_compute. reflexivity.
  - apply exactOnly_check. vm_compute. reflexivity.
  - apply exactOnly_check. vm_compute. reflexivity.
  - apply exactOnly_check. vm_compute. reflexivity.
  - left. vm_compute. reflexivity.
  - assert (Hkind : Kind (ClassifyRPC callLine) = RPCToolCall) by (vm_compute; reflexivity).
    split; [exact Hkind|]. destruct (Ht Hkind) as [Htool _]. rewrite Htool.
    vm_compute. reflexivity.
Defined.

(** A case variant of a key evades the duplicate-key check: the line below carries the
    members [method] (tools/call, of the tool wipe) and [Method] (ping). It has no duplicate
    key, and the filter classifies it as the harmless method ping, while a reader with exact
    keys, the backend, finds a call of the tool wipe. *)
Theorem case_variant_key_hides_tool_call :
  checkNoDuplicateKeys variantLine = true ∧
  Kind (ClassifyRPC variantLine) = RPCMethod ∧ Method (ClassifyRPC variantLine) = "ping" ∧
  exactString "method" (members variantLine) = "tools/call" ∧
  exactString "name" (exactMembers "params" (members variantLine)) = "wipe".
Proof. vm_compute. repeat split. Qed.
