(* ===== verification/Crypto.v ===== *)
(** * Crypto: the interfaces of the cryptographic primitives

    The code calls [crypto/ed25519] and [crypto/sha256]; they appear here as type classes
    with what their documentation promises. No theorem assumes that a hash is injective or
    that signatures cannot be forged: results that depend on it are stated as "or here is a
    collision". [toyEd25519] and [toySHA256] are concrete instances for evaluation. *)
From stdpp Require Import base list strings.
From Stdlib Require Import ZArith Lia.
From Stdlib Require Import Strings.Byte.
From S2P Require Import Prelude GoStd.

Definition PublicKeySize : nat := 32.

Class Ed25519 := {
  PrivateKey : Type;
  ed_public : PrivateKey → list byte;
  ed_sign : PrivateKey → string → list byte;
  ed_verify : list byte → string → list byte → bool
}.

Class Ed25519Laws `{Ed25519} : Prop := {
  ed_public_size k : length (ed_public k) = PublicKeySize;
  ed_sign_verifies k m : ed_verify (ed_public k) m (ed_sign k m) = true
}.

Class SHA256 := { sha256 : string → list byte }.

(** [hex.EncodeToString(sha256.Sum256(s))]. *)
Definition sha256Hex `{SHA256} (s : string) : string := hexEncode (sha256 s).

(** Two different inputs with one digest. *)
Definition collision `{SHA256} (a b : string) : Prop := a ≠ b ∧ sha256 a = sha256 b.

Lemma sha256Hex_inj `{SHA256} a b : sha256Hex a = sha256Hex b → a = b ∨ collision a b.
Proof.
  intros Hh%hexEncode_inj. destruct (decide (a = b)); [by left|by right].
Qed.

(** [Signer.PubKeyHex]. *)
Definition PubKeyHex `{Ed25519} (k : PrivateKey) : string := hexEncode (ed_public k).

(** The key decoded from its hexadecimal form, if it has the size of a public key. *)
Definition decodePub (h : string) : option (list byte) :=
  match hexDecode h with
  | Some raw => if (length raw =? PublicKeySize)%nat then Some raw else None
  | None => None
  end.

(** A hexadecimal signature [sig] of [m] under the raw public key [pub]. *)
Definition sigOk `{Ed25519} (pub : list byte) (m sig : string) : bool :=
  match hexDecode sig with Some s => ed_verify pub m s | None => false end.

Lemma decodePub_PubKeyHex `{Ed25519Laws} k : decodePub (PubKeyHex k) = Some (ed_public k).
Proof. unfold decodePub, PubKeyHex. by rewrite hexDecode_encode, ed_public_size. Qed.

Lemma sigOk_sign `{Ed25519Laws} k m :
  sigOk (ed_public k) m (hexEncode (ed_sign k m)) = true.
Proof. unfold sigOk. rewrite hexDecode_encode. apply ed_sign_verifies. Qed.

(** Concrete instances, for evaluation only: a signature is the key and a checksum. *)
Definition checksum (m : string) : byte :=
  byteZ (fold_left (λ acc b, (acc * 31 + Z.of_N (Byte.to_N b)) mod 256)%Z
    (String.list_byte_of_string m) 7%Z).

Definition toyEd25519 : Ed25519 := {|
  PrivateKey := byte;
  ed_public k := repeat k 32;
  ed_sign k m := [k; checksum m];
  ed_verify p m s := bool_decide (s = [default x00 (head p); checksum m])
|}.

Lemma toyEd25519_laws : Ed25519Laws (H := toyEd25519).
Proof. split; [done|]. intros k m. simpl. by rewrite bool_decide_eq_true. Qed.

Definition toySHA256 : SHA256 := {| sha256 := String.list_byte_of_string |}.
