(* ===== verification/Checkpoint.v ===== *)
(** * Checkpoint: Merkle roots and signed checkpoints

    [policy/merkle.go], [policy/sign.go] and [policy/checkpoint.go]: the Merkle root over a
    batch of record hashes, the checkpoint that commits to it, its signature and the link to
    the previous checkpoint, the batching [Checkpointer] and the self-linked [FileAnchor].
    The main result is that a Merkle root over a known number of leaves determines them, up
    to a collision of SHA-256 between two of the inputs hashed for the two trees. *)
From stdpp Require Import base list strings sets gmap.
From Stdlib Require Import ZArith Lia Ascii.
From Stdlib Require Import Strings.Byte.
From S2P Require Import Prelude GoStd Json JsonCodec Crypto.
Open Scope Z_scope.
Open Scope mesh_scope.

(** ** Merkle trees *)

Section Merkle.
Context `{SHA256}.

Definition leafInput (b : list byte) : string := String.string_of_list_byte (x00 :: b).
Definition nodeInput (l r : list byte) : string := String.string_of_list_byte (x01 :: l ++ r).
Definition leafHash (b : list byte) : list byte := sha256 (leafInput b).
Definition nodeHash (l r : list byte) : list byte := sha256 (nodeInput l r).

(** One round of the loop: neighbours are joined, an odd node is promoted. *)
Fixpoint nextLevel (level : list (list byte)) : list (list byte) :=
  match level with
  | l :: r :: rest => nodeHash l r :: nextLevel rest
  | rest => rest
  end.
Fixpoint merkleLoop (fuel : nat) (level : list (list byte)) : list byte :=
  match fuel, level with
  | _, [] => []
  | _, [root] => root
  | O, root :: _ => root
  | S fuel, _ => merkleLoop fuel (nextLevel level)
  end.

(** A round at least halves a level of two or more nodes, so the number of leaves is
    enough fuel ([merkleLoop_enough]). *)
Definition MerkleRoot (leaves : list (list byte)) : list byte :=
  match leaves with
  | [] => leafHash []
  | _ => merkleLoop (length leaves) (leafHash <$> leaves)
  end.

(** Every string hashed for the root. *)
Fixpoint roundInputs (level : list (list byte)) : list string :=
  match level with
  | l :: r :: rest => nodeInput l r :: roundInputs rest
  | _ => []
  end.
Fixpoint loopInputs (fuel : nat) (level : list (list byte)) : list string :=
  match fuel, level with
  | S fuel, _ :: _ :: _ => roundInputs level ++ loopInputs fuel (nextLevel level)
  | _, _ => []
  end.
Definition merkleInputs (leaves : list (list byte)) : list string :=
  (leafInput <$> leaves) ++ loopInputs (length leaves) (leafHash <$> leaves).
End Merkle.

(** [sha256.Size]. *)
Class SHA256Laws `{SHA256} : Prop := { sha256_size s : length (sha256 s) = 32%nat }.
Lemma sha256Hex_nonempty `{SHA256Laws} t : sha256Hex t ≠ "".
Proof.
  unfold sha256Hex. intros E. apply (hexEncode_inj _ []) in E. pose proof (sha256_size t) as Hs. by rewrite E in Hs.
Qed.

Section MerkleProofs.
Context `{SHA256Laws}.

Definition collides (xs ys : list string) : Prop := ∃ a b, a ∈ xs ∧ b ∈ ys ∧ collision a b.

Lemma list_byte_string_inj a b :
  String.string_of_list_byte a = String.string_of_list_byte b → a = b.
Proof.
  intros E%(f_equal String.list_byte_of_string).
  by rewrite !String.list_byte_of_string_of_list_byte in E.
Qed.

Lemma sha256_eq a b : sha256 a = sha256 b → a = b ∨ collision a b.
Proof. intros E. destruct (decide (a = b)); [by left|by right]. Qed.

Lemma collides_mono xs xs' ys ys' : xs ⊆ xs' → ys ⊆ ys' → collides xs ys → collides xs' ys'.
Proof. intros Hi Hj (a & b & Ha & Hb & Hc). exists a, b. auto. Qed.

Definition digests (l : list (list byte)) : Prop := Forall (λ d, length d = 32%nat) l.

Lemma nextLevel_digests l : digests l → digests (nextLevel l).
Proof.
  unfold digests. revert l. fix IH 1. intros [|a [|b l]] Hl; [done|done|].
  inversion_clear Hl as [|?? _ Hl']. inversion_clear Hl' as [|?? _ Hr].
  constructor; [apply sha256_size|by apply IH].
Qed.

Lemma length_nextLevel l : length (nextLevel l) = ((length l + 1) / 2)%nat.
Proof.
  revert l. fix IH 1. intros [|a [|b l]]; [done|done|]. cbn [nextLevel length]. rewrite IH.
  replace (S (S (length l)) + 1)%nat with (length l + 1 + 1 * 2)%nat by lia.
  rewrite Nat.div_add by lia. lia.
Qed.

(** With fuel for one round less than there are nodes the loop ends at the root: more
    fuel changes nothing. *)
Lemma merkleLoop_enough n k l :
  (length l ≤ S n)%nat → merkleLoop (n + k) l = merkleLoop n l.
Proof.
  revert l. induction n as [|n IH]; intros l Hl.
  { destruct l as [|a [|b l]]; [| |simpl in Hl; lia]; by destruct k. }
  destruct l as [|a [|b l]]; [done|done|]. cbn [Nat.add merkleLoop]. apply IH.
  rewrite length_nextLevel. pose proof (Nat.div_mod (length (a :: b :: l) + 1) 2).
  simpl length in *. lia.
Qed.

(** A round determines the level below it. *)
Lemma nextLevel_inj l l' :
  length l = length l' → digests l → digests l' → nextLevel l = nextLevel l' →
  l = l' ∨ collides (roundInputs l) (roundInputs l').
Proof.
  revert l l'. fix IH 1.
  intros [|a [|b l]] [|a' [|b' l']] Hlen Hd Hd' E; simpl in *; try discriminate;
    [by left|left; congruence|].
  inversion_clear Hd as [|?? Ha Hd1]. inversion_clear Hd1 as [|?? Hb Hl].
  inversion_clear Hd' as [|?? Ha' Hd1']. inversion_clear Hd1' as [|?? Hb' Hl'].
  injection E as En El.
  destruct (IH l l') as [->|Hc]; [lia|done..| |].
  - destruct (sha256_eq _ _ En) as [Ei|Hc].
    + left. apply list_byte_string_inj in Ei. injection Ei as Ei.
      apply app_inj_1 in Ei as [-> ->]; [done|congruence].
    + right. eexists _, _. split_and!; [by apply list_elem_of_here..|done].
  - right. eapply collides_mono; [| |done]; set_solver.
Qed.
Lemma merkleLoop_inj n l l' :
  length l = length l' → l ≠ [] → (length l ≤ S n)%nat → digests l → digests l' →
  merkleLoop n l = merkleLoop n l' → l = l' ∨ collides (loopInputs n l) (loopInputs n l').
Proof.
  revert l l'. induction n as [|n IH]; intros l l' Hlen Hne Hn Hd Hd' E.
  { destruct l as [|a [|b l]], l' as [|a' [|b' l']]; simpl in *; try lia; try done.
    left. congruence. }
  destruct l as [|a [|b l]], l' as [|a' [|b' l']]; try discriminate Hlen; [done|left; f_equal; exact E|].
  set (L := a :: b :: l) in *. set (L' := a' :: b' :: l') in *.
  change (merkleLoop n (nextLevel L) = merkleLoop n (nextLevel L')) in E.
  change (loopInputs (S n) L) with (roundInputs L ++ loopInputs n (nextLevel L)).
  change (loopInputs (S n) L') with (roundInputs L' ++ loopInputs n (nextLevel L')).
  apply IH in E.
  - destruct E as [E|Hc]; [apply nextLevel_inj in E as [->|Hc]; [by left| |done..]|].
    + right. eapply collides_mono; [| |done]; set_solver.
    + right. eapply collides_mono; [| |done]; set_solver.
  - by rewrite !length_nextLevel, Hlen.
  - done.
  - rewrite length_nextLevel. pose proof (Nat.div_mod (length L + 1) 2).
    unfold L in *. simpl length in *. lia.
  - by apply nextLevel_digests.
  - by apply nextLevel_digests.
Qed.

Lemma leafHashes_inj ls ls' :
  length ls = length ls' → leafHash <$> ls = leafHash <$> ls' →
  ls = ls' ∨ collides (leafInput <$> ls) (leafInput <$> ls').
Proof.
  revert ls'. induction ls as [|l ls IH]; intros [|l' ls'] Hlen E; try discriminate Hlen; [by left|].
  injection E as E Es. injection Hlen as Hlen. destruct (IH ls' Hlen Es) as [->|Hc].
  - destruct (sha256_eq _ _ E) as [Ei|Hc].
    + left. apply list_byte_string_inj in Ei. congruence.
    + right. eexists _, _. split_and!; [by apply list_elem_of_here..|done].
  - right. eapply collides_mono; [| |done]; apply list_subseteq_skip || set_solver.
Qed.

(** Two lists of the same length with one Merkle root are equal, or two of the strings
    hashed for their roots collide. *)
Lemma MerkleRoot_inj ls ls' :
  length ls = length ls' → MerkleRoot ls = MerkleRoot ls' →
  ls = ls' ∨ collides (merkleInputs ls) (merkleInputs ls').
Proof.
  intros Hlen E. destruct ls as [|l ls], ls' as [|l' ls']; try discriminate Hlen; [by left|].
  unfold MerkleRoot in E. unfold merkleInputs. rewrite <- Hlen in E |- *.
  assert (Hd : ∀ xs, digests (leafHash <$> xs)).
  { intros xs. apply Forall_fmap, Forall_true. intros x. apply sha256_size. }
  apply merkleLoop_inj in E as [E|Hc]; [| |by rewrite !length_fmap| |rewrite length_fmap; lia|done|done].
  - apply leafHashes_inj in E as [E|Hc]; [by left| |done].
    right. eapply collides_mono; [| |done]; set_solver.
  - right. eapply collides_mono; [| |done]; set_solver.
  - done.
Qed.
End MerkleProofs.

(** ** Checkpoints and signatures *)

Record Checkpoint := mkCP {
  Version : Z; CPSeq : Z; FromSeq : Z; ToSeq : Z; CPCount : Z; CPRoot : string;
  ChainHead : string; PrevCP : string; CPTime : string; CPPubKey : string; CPSig : string
}.
#[export] Instance Checkpoint_eq_dec : EqDecision Checkpoint.
Proof. solve_decision. Defined.

Definition zeroCP : Checkpoint := mkCP 0 0 0 0 0 "" "" "" "" "" "".
Definition setKey (pub : string) (c : Checkpoint) : Checkpoint :=
  mkCP c.(Version) c.(CPSeq) c.(FromSeq) c.(ToSeq) c.(CPCount) c.(CPRoot) c.(ChainHead)
    c.(PrevCP) c.(CPTime) pub c.(CPSig).
Definition setCPSig (sig : string) (c : Checkpoint) : Checkpoint :=
  mkCP c.(Version) c.(CPSeq) c.(FromSeq) c.(ToSeq) c.(CPCount) c.(CPRoot) c.(ChainHead)
    c.(PrevCP) c.(CPTime) c.(CPPubKey) sig.

(** The struct tags. *)
Definition cpFields (c : Checkpoint) : list field :=
  let s name v := mkField name false (VStr v) in
  let i name v := mkField name false (VInt v) in
  [i "version" c.(Version); i "checkpoint_seq" c.(CPSeq); i "from_seq" c.(FromSeq);
   i "to_seq" c.(ToSeq); i "count" c.(CPCount); s "merkle_root" c.(CPRoot);
   s "chain_head" c.(ChainHead); s "prev_checkpoint" c.(PrevCP); s "time" c.(CPTime);
   s "pubkey" c.(CPPubKey); s "signature" c.(CPSig)].
Definition cpOfFields (fs : list field) : option Checkpoint :=
  match fVal <$> fs with
  | [VInt a1; VInt a2; VInt a3; VInt a4; VInt a5; VStr b1; VStr b2; VStr b3; VStr b4; VStr b5;
     VStr b6] => Some (mkCP a1 a2 a3 a4 a5 b1 b2 b3 b4 b5 b6)
  | _ => None
  end.
Definition marshalCP (c : Checkpoint) : string := marshalStruct (cpFields c).
Definition unmarshalCP (s : string) : option Checkpoint :=
  unmarshalStruct (cpFields zeroCP) s ≫= cpOfFields.

Section Signing.
Context `{Ed25519} `{SHA256}.

Definition signingBytes (c : Checkpoint) : string := marshalCP (setCPSig "" c).

(** [Checkpoint.Hash]. *)
Definition cpHash (c : Checkpoint) : string := sha256Hex (signingBytes c +:+ c.(CPSig)).

(** [Signer.sign]. *)
Definition sign (k : PrivateKey) (c : Checkpoint) : Checkpoint :=
  let c := setKey (PubKeyHex k) c in
  setCPSig (hexEncode (ed_sign k (signingBytes c))) c.

Inductive cpErr := UnexpectedKey | BadPublicKey | BadSigEncoding | BadSignature.

Definition VerifyCheckpoint (c : Checkpoint) (expectPub : string) : result cpErr unit :=
  let* _ := guard_err (negb (expectPub =? "")%string && negb (c.(CPPubKey) =? expectPub)%string)
              UnexpectedKey in
  let* pub := of_option BadPublicKey (decodePub c.(CPPubKey)) in
  let* sig := of_option BadSigEncoding (hexDecode c.(CPSig)) in
  guard_err (negb (ed_verify pub (signingBytes c) sig)) BadSignature.

(** ** The anchor file *)

Record AnchorRecord := mkAnchor {
  AV : Z; ASeq : Z; AChainHead : string; ACheckpoint : string; ATime : string;
  ASigner : string; PrevAnchor : string }.
Definition anchorFields (a : AnchorRecord) : list field :=
  [mkField "v" false (VInt a.(AV)); mkField "checkpoint_seq" false (VInt a.(ASeq));
   mkField "chain_head" false (VStr a.(AChainHead));
   mkField "checkpoint" false (VStr a.(ACheckpoint)); mkField "time" false (VStr a.(ATime));
   mkField "signer" true (VStr a.(ASigner)); mkField "prev_anchor" false (VStr a.(PrevAnchor))].

Definition AnchorLineHash (line : string) : string := sha256Hex line.

(** The anchor's file and the link to its last line. *)
Record FileAnchor := mkFileAnchor { AW : string; aPrev : string }.
Definition NewFileAnchor (w prevAnchorHash : string) : FileAnchor := mkFileAnchor w prevAnchorHash.

(** [FileAnchor.append]; [w] is the number of bytes the file takes and whether the write
    succeeds. A failed write leaves the link where it was. *)
Definition anchorAppend (w : nat * bool) (c : Checkpoint) (signer : string) (a : FileAnchor)
  : bool * FileAnchor :=
  let b := marshalStruct (anchorFields
    (mkAnchor 1 c.(CPSeq) c.(ChainHead) (cpHash c) c.(CPTime) signer a.(aPrev))) in
  let text := b +:+ of_codes [10] in
  if w.2 then (true, mkFileAnchor (a.(AW) +:+ text) (AnchorLineHash b))
  else (false, mkFileAnchor (a.(AW) +:+ String.substring 0 w.1 text) a.(aPrev)).
Definition Anchor (w : nat * bool) (c : Checkpoint) (a : FileAnchor) := anchorAppend w c "" a.
Definition Witness (w : nat * bool) (c : Checkpoint) (signer : string) (a : FileAnchor) :=
  anchorAppend w c signer a.

(** ** The Checkpointer *)

Inductive cpReport := ReportWrite | ReportAnchor.

Record Checkpointer := mkCheckpointer {
  cSigner : PrivateKey;
  cW : string;                        (* the checkpoints file *)
  cAnchor : option FileAnchor;
  every : Z;
  leaves : list (list byte);
  fromSeq : Z;
  cpSeq : Z;
  prevCP : string;
  reports : list cpReport             (* failures given to the error handler *)
}.
Definition NewCheckpointer (k : PrivateKey) (w : string) (n : Z) (a : option FileAnchor)
  : Checkpointer :=
  mkCheckpointer k w a (if n <=? 0 then 128 else n) [] 0 0 "" [].
Definition SeedCheckpointer (seq : Z) (prevHash : string) (c : Checkpointer) : Checkpointer :=
  mkCheckpointer c.(cSigner) c.(cW) c.(cAnchor) c.(every) c.(leaves) c.(fromSeq) seq prevHash
    c.(reports).

(** What the environment does during a flush: the clock, the bytes the file takes of the
    checkpoint and whether it reports an error, and the same of the anchor's file. *)
Record CPEnv := mkCPEnv { cNow : string; cTaken : nat; cErr : bool; cAnchorW : nat * bool }.

Definition nextCheckpoint (ev : CPEnv) (toSeq : Z) (chainHead : string) (c : Checkpointer)
  : Checkpoint :=
  sign c.(cSigner)
    (mkCP 1 (i64 (c.(cpSeq) + 1)) c.(fromSeq) toSeq (Z.of_nat (length c.(leaves)))
      (hexEncode (MerkleRoot c.(leaves))) chainHead c.(prevCP) ev.(cNow) "" "").

Definition flushLocked (ev : CPEnv) (toSeq : Z) (chainHead : string) (c : Checkpointer)
  : Checkpointer :=
  let cp := nextCheckpoint ev toSeq chainHead c in
  let b := marshalCP cp +:+ of_codes [10] in
  if ev.(cErr) || negb (ev.(cTaken) =? String.length b)%nat then
    mkCheckpointer c.(cSigner) (c.(cW) +:+ String.substring 0 ev.(cTaken) b) c.(cAnchor)
      c.(every) c.(leaves) c.(fromSeq) c.(cpSeq) c.(prevCP) (c.(reports) ++ [ReportWrite])
  else
    let '(anchor, rep) :=
      match c.(cAnchor) with
      | None => (None, [])
      | Some a => let '(ok, a) := Anchor ev.(cAnchorW) cp a in
                  (Some a, if ok then [] else [ReportAnchor])
      end in
    mkCheckpointer c.(cSigner) (c.(cW) +:+ b) anchor c.(every) [] 0 cp.(CPSeq) (cpHash cp)
      (c.(reports) ++ rep).

Definition Add (ev : CPEnv) (seq : Z) (hashHex : string) (c : Checkpointer) : Checkpointer :=
  match hexDecode hashHex with
  | None => c
  | Some raw =>
      let c := mkCheckpointer c.(cSigner) c.(cW) c.(cAnchor) c.(every) (c.(leaves) ++ [raw])
        (if c.(fromSeq) =? 0 then seq else c.(fromSeq)) c.(cpSeq) c.(prevCP) c.(reports) in
      if c.(every) <=? Z.of_nat (length c.(leaves)) then flushLocked ev seq hashHex c else c
  end.

Definition Flush (ev : CPEnv) (lastSeq : Z) (lastHash : string) (c : Checkpointer) : Checkpointer :=
  match c.(leaves) with [] => c | _ => flushLocked ev lastSeq lastHash c end.
End Signing.

(** A concrete hash of the right size, for evaluation only. *)
Definition toySHA32 : SHA256 := {| sha256 s := repeat (checksum s) 32 |}.
Lemma toySHA32_laws : SHA256Laws (H := toySHA32).
Proof. by split. Qed.
