(* ===== verification/Ledger.v ===== *)
(** * Ledger: the hash-chained audit log

    [policy/audit.go] (records, [AuditLog.write] and its cursor), [policy/chain.go]
    ([VerifyChain], [VerifyForRepairFrom], [LastLink]) and the restart path of
    [cmd/meshmcp/serve.go] that seeds a log from the file it finds. The log file is its
    bytes, a record is the JSON text [json.Marshal] gives, and a write may be refused or
    cut short by the sink. *)
From stdpp Require Import base list strings.
From Stdlib Require Import ZArith Lia Ascii.
From Stdlib Require Import Strings.Byte.
From S2P Require Import Prelude GoStd Json JsonCodec Crypto Checkpoint.
Open Scope Z_scope.
Open Scope mesh_scope.

Lemma rev_ind_snoc {A} (l : list A) : l = [] ∨ ∃ x l', l = l' ++ [x].
Proof. induction l as [|x l _] using rev_ind; [by left|right; by exists x, l]. Qed.

Module Chain.

Record AuditRecord := mkRec {
  Time : string; Backend : string; Peer : string; PeerKey : string; PeerAddr : string;
  Method : string; Tool : string; RPCID : string; Decision : string; Reason : string;
  Rule : Z; Cost : Z; Provenance : list string; Seq : Z; PrevHash : string; Hash : string;
  PeerSpiffeID : string; SchemaVersion : Z; DelegatedCaller : string;
  DelegationRouter : string; DelegationNonce : string
}.

#[export] Instance AuditRecord_eq_dec : EqDecision AuditRecord.
Proof. solve_decision. Defined.

Definition zeroRec : AuditRecord :=
  mkRec "" "" "" "" "" "" "" "" "" "" 0 0 [] 0 "" "" "" 0 "" "" "".

Definition setHash (h : string) (r : AuditRecord) : AuditRecord :=
  mkRec r.(Time) r.(Backend) r.(Peer) r.(PeerKey) r.(PeerAddr) r.(Method) r.(Tool) r.(RPCID)
    r.(Decision) r.(Reason) r.(Rule) r.(Cost) r.(Provenance) r.(Seq) r.(PrevHash) h
    r.(PeerSpiffeID) r.(SchemaVersion) r.(DelegatedCaller) r.(DelegationRouter)
    r.(DelegationNonce).
Definition setLink (seq : Z) (prev : string) (r : AuditRecord) : AuditRecord :=
  mkRec r.(Time) r.(Backend) r.(Peer) r.(PeerKey) r.(PeerAddr) r.(Method) r.(Tool) r.(RPCID)
    r.(Decision) r.(Reason) r.(Rule) r.(Cost) r.(Provenance) seq prev r.(Hash)
    r.(PeerSpiffeID) r.(SchemaVersion) r.(DelegatedCaller) r.(DelegationRouter)
    r.(DelegationNonce).

(** The struct tags. *)
Definition fields (r : AuditRecord) : list field :=
  let s name v := mkField name false (VStr v) in
  let os name v := mkField name true (VStr v) in
  [s "time" r.(Time); s "backend" r.(Backend); s "peer" r.(Peer); os "peer_key" r.(PeerKey);
   os "peer_addr" r.(PeerAddr); s "method" r.(Method); os "tool" r.(Tool);
   os "rpc_id" r.(RPCID); s "decision" r.(Decision); os "reason" r.(Reason);
   mkField "rule" false (VInt r.(Rule)); mkField "cost" true (VInt r.(Cost));
   mkField "provenance" true (VStrs r.(Provenance)); mkField "seq" false (VInt r.(Seq));
   s "prev_hash" r.(PrevHash); os "hash" r.(Hash); os "peer_spiffe_id" r.(PeerSpiffeID);
   mkField "schema_version" true (VInt r.(SchemaVersion));
   os "delegated_caller" r.(DelegatedCaller); os "delegation_router" r.(DelegationRouter);
   os "delegation_nonce" r.(DelegationNonce)].

Definition ofFields (fs : list field) : option AuditRecord :=
  match fVal <$> fs with
  | [VStr a1; VStr a2; VStr a3; VStr a4; VStr a5; VStr a6; VStr a7; VStr a8; VStr a9; VStr b1;
     VInt b2; VInt b3; VStrs b4; VInt b5; VStr b6; VStr b7; VStr b8; VInt b9; VStr c1; VStr c2;
     VStr c3] => Some (mkRec a1 a2 a3 a4 a5 a6 a7 a8 a9 b1 b2 b3 b4 b5 b6 b7 b8 b9 c1 c2 c3)
  | _ => None
  end.

(** [json.Marshal] and [json.Unmarshal] of a record. *)
Definition marshalRecord (r : AuditRecord) : string := marshalStruct (fields r).
Definition unmarshalRecord (s : string) : option AuditRecord :=
  unmarshalStruct (fields zeroRec) s ≫= ofFields.

Definition auditSchemaVersion : Z := 1.
Definition maxReasonBytes : nat := 8192.
Definition maxFieldBytes : nat := 4096.

(** The mark of a clipped field: a horizontal ellipsis and [(truncated)]. *)
Definition truncated : string := of_codes ([226; 128; 166] ++ codes "(truncated)").
Definition clipTo (n : nat) (s : string) : string :=
  if (n <? String.length s)%nat then String.substring 0 n s +:+ truncated else s.
Definition clipField (s : string) : string := clipTo maxFieldBytes s.

(** What [write] sets before the record is linked. *)
Definition prepare (now : string) (r : AuditRecord) : AuditRecord :=
  mkRec now r.(Backend) r.(Peer) r.(PeerKey) r.(PeerAddr) (clipField r.(Method))
    (clipField r.(Tool)) (clipField r.(RPCID)) r.(Decision) (clipTo maxReasonBytes r.(Reason))
    r.(Rule) r.(Cost) r.(Provenance) r.(Seq) r.(PrevHash) r.(Hash) r.(PeerSpiffeID)
    auditSchemaVersion (clipField r.(DelegatedCaller)) (clipField r.(DelegationRouter))
    (clipField r.(DelegationNonce)).

Definition newline : string := of_codes [10].

(** The scanner's buffer: a line of this many bytes is [bufio.ErrTooLong]. *)
Definition maxLine : Z := 16 * 1024 * 1024.

(** [bufio.ScanLines]: the text between newlines; what follows the last newline is a line
    if it is not empty. *)
Fixpoint lines (s : string) : list string :=
  match s with
  | "" => []
  | String c t =>
      if Ascii.eqb c "010" then "" :: lines t
      else match lines t with
           | [] => [String c ""]
           | l :: ls => String c l :: ls
           end
  end.

Section Audit.
Context `{Ed25519} `{SHA256}.

(** The bytes a record's hash covers. *)
Definition hashedText (r : AuditRecord) : string := marshalRecord (setHash "" r).
Definition chainHash (r : AuditRecord) : string := sha256Hex (hashedText r).

(** ** The log *)

Record AuditLog := mkLog {
  disk : string;                         (* the sink's contents *)
  seq : Z;
  prev : string;
  cp : option Checkpointer;
  lastSeq : Z;
  lastHash : string;
  failClosed : bool;
  sync : bool;
  secondary : list (list AuditRecord)    (* what each observer sink was given *)
}.
Definition NewAuditLog (w : string) : AuditLog := mkLog w 0 "" None 0 "" false false [].
Definition SeedFrom (n : Z) (h : string) (a : AuditLog) : AuditLog :=
  mkLog a.(disk) n h a.(cp) a.(lastSeq) a.(lastHash) a.(failClosed) a.(sync) a.(secondary).
Definition WithFailClosed (b : bool) (a : AuditLog) : AuditLog :=
  mkLog a.(disk) a.(seq) a.(prev) a.(cp) a.(lastSeq) a.(lastHash) b a.(sync) a.(secondary).
Definition WithSync (b : bool) (a : AuditLog) : AuditLog :=
  mkLog a.(disk) a.(seq) a.(prev) a.(cp) a.(lastSeq) a.(lastHash) a.(failClosed) b a.(secondary).
Definition WithCheckpointer (c : option Checkpointer) (a : AuditLog) : AuditLog :=
  mkLog a.(disk) a.(seq) a.(prev) c a.(lastSeq) a.(lastHash) a.(failClosed) a.(sync) a.(secondary).
Definition AddSink (a : AuditLog) : AuditLog :=
  mkLog a.(disk) a.(seq) a.(prev) a.(cp) a.(lastSeq) a.(lastHash) a.(failClosed) a.(sync)
    (a.(secondary) ++ [[]]).
Definition FlushLog (ev : CPEnv) (a : AuditLog) : AuditLog :=
  mkLog a.(disk) a.(seq) a.(prev) (Flush ev a.(lastSeq) a.(lastHash) <$> a.(cp)) a.(lastSeq)
    a.(lastHash) a.(failClosed) a.(sync) a.(secondary).

(** What the environment does during a write: the clock, the bytes the sink takes and
    whether it reports an error, whether [Sync] succeeds (a sink without [Sync] always
    does), and the checkpointer's environment. *)
Record IO := mkIO { ioNow : string; ioTaken : nat; ioErr : bool; ioSync : bool; ioCP : CPEnv }.

Inductive auditErr := ErrWrite | ErrSync.

(** The record [write] appends to a log. *)
Definition linked (now : string) (rec : AuditRecord) (a : AuditLog) : AuditRecord :=
  let rec := setLink (i64 (a.(seq) + 1)) a.(prev) (prepare now rec) in
  setHash (chainHash rec) rec.
Definition lineOf (rec : AuditRecord) : string := marshalRecord rec +:+ newline.

(** [AuditLog.write]. *)
Definition write (io : IO) (rec : AuditRecord) (a : AuditLog) : option auditErr * AuditLog :=
  let rec := linked io.(ioNow) rec a in
  let b := lineOf rec in
  if io.(ioErr) || negb (io.(ioTaken) =? String.length b)%nat then
    (Some ErrWrite,
     mkLog (a.(disk) +:+ String.substring 0 io.(ioTaken) b) a.(seq) a.(prev) a.(cp) a.(lastSeq)
       a.(lastHash) a.(failClosed) a.(sync) a.(secondary))
  else
    let commit obs := mkLog (a.(disk) +:+ b) rec.(Seq) rec.(Hash)
      (Add io.(ioCP) rec.(Seq) rec.(Hash) <$> a.(cp)) rec.(Seq) rec.(Hash) a.(failClosed)
      a.(sync) obs in
    if a.(sync) && negb io.(ioSync) then (Some ErrSync, commit a.(secondary))
    else (None, commit ((λ l, l ++ [rec]) <$> a.(secondary))).

(** ** Verification *)

Inductive breakReason :=
| NoBreak | BadJSON | NewerSchema | BadSeq | BadLink | Edited | IncompleteTail.
Record VerifyResult := mkRes {
  Count : Z; OK : bool; BreakSeq : Z; Why : breakReason; LastHash : string }.

(** The checks on a decoded record. *)
Definition checkRecord (rec : AuditRecord) (expectSeq : Z) (prevHash : string) : breakReason :=
  if auditSchemaVersion <? rec.(SchemaVersion) then NewerSchema
  else if negb (rec.(Seq) =? expectSeq) then BadSeq
  else if negb (rec.(PrevHash) =? prevHash)%string then BadLink
  else if negb (rec.(Hash) =? chainHash rec)%string then Edited
  else NoBreak.

(** The loop of [VerifyChain]; the second component is the scanner's error. *)
Fixpoint verifyLines (ls : list string) (count expectSeq : Z) (prevHash : string)
  : VerifyResult * bool :=
  match ls with
  | [] => (mkRes count true 0 NoBreak prevHash, false)
  | raw :: ls =>
      if maxLine <=? strlen raw then (mkRes count false 0 NoBreak "", true)
      else
        let line := trimSpace raw in
        if (line =? "")%string then verifyLines ls count expectSeq prevHash
        else
          let count := i64 (count + 1) in
          let expectSeq := i64 (expectSeq + 1) in
          match unmarshalRecord line with
          | None => (mkRes count false expectSeq BadJSON "", false)
          | Some rec =>
              match checkRecord rec expectSeq prevHash with
              | NoBreak => verifyLines ls count expectSeq rec.(Hash)
              | why => (mkRes count false
                          (match why with NewerSchema => expectSeq | _ => rec.(Seq) end) why "",
                        false)
              end
          end
  end.
Definition VerifyChain (data : string) : VerifyResult * bool := verifyLines (lines data) 0 0 "".

Definition hasMoreContent (rest : string) : bool := negb (trimSpace rest =? "")%string.

(** The loop of [VerifyForRepairFrom] on what is left of the data: a good prefix of
    [offset] bytes was read, and [truncateTo] is the end of its last complete line. *)
Fixpoint repairLoop (fuel : nat) (rest : string) (offset truncateTo : Z) (count expectSeq : Z)
    (prevHash lastGood : string) : VerifyResult * Z * bool :=
  match fuel with
  | O => (mkRes count false 0 NoBreak lastGood, 0, false)
  | S fuel =>
      if (rest =? "")%string then (mkRes count true 0 NoBreak prevHash, truncateTo, false)
      else
        let '(raw, tl) := splitAt "010" rest in
        let recStart := offset in
        let offset := offset + strlen raw + (match tl with Some _ => 1 | None => 0 end) in
        let rest := default "" tl in
        let line := trimSpace raw in
        if (line =? "")%string
        then repairLoop fuel rest offset offset count expectSeq prevHash lastGood
        else
          let expectSeq := i64 (expectSeq + 1) in
          match unmarshalRecord line with
          | None =>
              if negb (hasMoreContent rest)
              then (mkRes count false expectSeq IncompleteTail lastGood, recStart, true)
              else (mkRes count false expectSeq BadJSON lastGood, 0, false)
          | Some rec =>
              match checkRecord rec expectSeq prevHash with
              | NoBreak => repairLoop fuel rest offset offset (i64 (count + 1)) expectSeq
                             rec.(Hash) rec.(Hash)
              | why => (mkRes count false rec.(Seq) why lastGood, 0, false)
              end
          end
  end.
Definition VerifyForRepairFrom (data : string) (seedSeq : Z) (seedHash : string)
  : VerifyResult * Z * bool :=
  repairLoop (S (String.length data)) data 0 0 0 seedSeq seedHash "".
Definition VerifyForRepair (data : string) : VerifyResult * Z * bool :=
  VerifyForRepairFrom data 0 "".

(** [LastLink]: the last record's link, and whether the log was read to its end. *)
Fixpoint lastLinkLoop (ls : list string) (n : Z) (h : string) : Z * string * bool :=
  match ls with
  | [] => (n, h, true)
  | raw :: ls =>
      if maxLine <=? strlen raw then (n, h, false)
      else
        let line := trimSpace raw in
        if (line =? "")%string then lastLinkLoop ls n h
        else match unmarshalRecord line with
             | None => (n, h, false)
             | Some rec => lastLinkLoop ls rec.(Seq) rec.(Hash)
             end
  end.
Definition LastLink (data : string) : Z * string * bool := lastLinkLoop (lines data) 0 "".

(** [seedAuditFromExisting]: the link to continue from, if the log is accepted, and the
    file after a repair. [head] is the head of the newest rotated segment ([None]: it could
    not be read), [data] the file, [truncOk] whether the truncation succeeds. *)
Inductive auditFile := NotExist | ReadError | FileData (text : string).
Definition seedAuditFromExisting (head : option (Z * string)) (data : auditFile)
    (truncOk : bool) : option (Z * string) * auditFile :=
  match head, data with
  | None, _ | _, ReadError => (None, data)
  | Some head, NotExist => (Some head, data)
  | Some head, FileData text =>
      if (trimSpace text =? "")%string then (Some head, data)
      else
        let '(res, truncateTo, torn) := VerifyForRepairFrom text head.1 head.2 in
        if res.(OK) then (Some (i64 (head.1 + res.(Count)), res.(LastHash)), data)
        else if torn then
          if truncOk then
            (Some (i64 (head.1 + res.(Count)), res.(LastHash)),
             FileData (String.substring 0 (Z.to_nat truncateTo) text))
          else (None, data)
        else (None, data)
  end.
End Audit.

(** ** The codec *)

Definition rec_ok (r : AuditRecord) : Prop := Forall field_ok (fields r).

Lemma record_roundtrip r : rec_ok r → unmarshalRecord (marshalRecord r) = Some r.
Proof.
  intros Hr. unfold unmarshalRecord, marshalRecord.
  change (fields zeroRec) with (zeroes (fields r)).
  rewrite struct_roundtrip; [by destruct r| |done|done].
  apply (bool_decide_unpack _). by vm_compute.
Qed.

Lemma names_valid : forallb (λ f, validUTF8 f.(fName)) (fields zeroRec) = true.
Proof. by vm_compute. Qed.

Lemma rec_ok_vals r : rec_ok r ↔ Forall val_ok (fVal <$> fields r).
Proof.
  unfold rec_ok. rewrite Forall_fmap. split; intros Hf.
  - eapply Forall_impl; [done|]. by intros f (_ & Hv & _).
  - assert (Hn : Forall (λ f, validUTF8 f.(fName) = true) (fields r)).
    { assert (Hn := names_valid). cbn [fields forallb fName] in Hn. repeat constructor; cbn [fName];
        by repeat (apply andb_true_iff in Hn as [? Hn]). }
    assert (Hr : Forall (λ f, noRaw f.(fVal) = true) (fields r)) by by repeat constructor.
    rewrite List.Forall_forall in Hf, Hn, Hr |- *. intros f Hin. split; [auto|].
    split; [by apply Hf|]. intros E. specialize (Hr f Hin). by rewrite E in Hr.
Qed.

Lemma unmarshalRecord_ok s r : unmarshalRecord s = Some r → rec_ok r.
Proof.
  unfold unmarshalRecord. intros Hu.
  destruct (unmarshalStruct (fields zeroRec) s) as [fs|] eqn:E; [|done]. simpl in Hu.
  apply unmarshalStruct_ok in E.
  - apply rec_ok_vals. assert (Hv : Forall val_ok (fVal <$> fs)).
    { rewrite Forall_fmap. eapply Forall_impl; [done|]. by intros f [(_ & Hv & _) _]. }
    unfold ofFields in Hu. repeat (case_match; try discriminate Hu).
    injection Hu as <-. exact Hv.
  - assert (Hz : rec_ok zeroRec) by (apply rec_ok_vals; repeat constructor; by vm_compute).
    apply Forall_and. split; [exact Hz|by repeat constructor].
Qed.

Lemma marshalRecord_inj r1 r2 :
  rec_ok r1 → rec_ok r2 → marshalRecord r1 = marshalRecord r2 → r1 = r2.
Proof.
  intros H1 H2 E%(f_equal unmarshalRecord). rewrite !record_roundtrip in E by done. congruence.
Qed.

Lemma setHash_restore r : setHash r.(Hash) (setHash "" r) = r.
Proof. by destruct r. Qed.

Lemma rec_ok_setHash h r : validUTF8 h = true → rec_ok r → rec_ok (setHash h r).
Proof.
  rewrite !rec_ok_vals. intros Hh Hr. destruct r. cbn in Hr |- *.
  repeat (apply Forall_cons in Hr as [? Hr]; constructor; [done|]). constructor.
Qed.

(** ** What a verified log is *)

Section Verified.
Context `{Ed25519} `{SHA256}.

(** Record [r] extends a chain whose last record has sequence number [n] and hash [h]. *)
Definition extends (n : Z) (h : string) (r : AuditRecord) : Prop :=
  r.(SchemaVersion) ≤ auditSchemaVersion ∧ r.(Seq) = i64 (n + 1) ∧ r.(PrevHash) = h ∧
  r.(Hash) = chainHash r.
Fixpoint chained (n : Z) (h : string) (rs : list AuditRecord) : Prop :=
  match rs with
  | [] => True
  | r :: rs => extends n h r ∧ chained r.(Seq) r.(Hash) rs
  end.
Fixpoint headOf (n : Z) (h : string) (rs : list AuditRecord) : Z * string :=
  match rs with
  | [] => (n, h)
  | r :: rs => headOf r.(Seq) r.(Hash) rs
  end.

(** The records of a log that can be read to its end. *)
Fixpoint decodeLines (ls : list string) : option (list AuditRecord) :=
  match ls with
  | [] => Some []
  | raw :: ls =>
      if maxLine <=? strlen raw then None
      else if (trimSpace raw =? "")%string then decodeLines ls
      else r ← unmarshalRecord (trimSpace raw); rs ← decodeLines ls; Some (r :: rs)
  end.
Definition records (data : string) : option (list AuditRecord) := decodeLines (lines data).

Definition verified (count : Z) (h : string) : VerifyResult := mkRes count true 0 NoBreak h.

Lemma checkRecord_spec r n h : checkRecord r (i64 (n + 1)) h = NoBreak ↔ extends n h r.
Proof.
  unfold checkRecord, extends. destruct (Z.ltb_spec auditSchemaVersion r.(SchemaVersion)); [split; [done|lia]|].
  destruct (Z.eqb_spec r.(Seq) (i64 (n + 1))); [|split; [done|tauto]]. simpl.
  destruct (String.eqb_spec r.(PrevHash) h); [|split; [done|tauto]]. simpl.
  destruct (String.eqb_spec r.(Hash) (chainHash r)); [|split; [done|tauto]]. simpl. by split.
Qed.

Lemma verifyLines_sound ls c n h res :
  verifyLines ls c n h = (res, false) → res.(OK) = true → i64 c = c →
  ∃ rs, decodeLines ls = Some rs ∧ chained n h rs ∧
    res = verified (i64 (c + Z.of_nat (length rs))) (headOf n h rs).2.
Proof.
  revert c n h. induction ls as [|raw ls IH]; intros c n h Hv Hok Hc.
  { simpl in Hv. simplify_eq. exists []. simpl. rewrite Z.add_0_r, Hc. done. }
  cbn [verifyLines] in Hv. cbn [decodeLines].
  destruct (maxLine <=? strlen raw); [done|].
  destruct (trimSpace raw =? "")%string; [by apply IH|].
  destruct (unmarshalRecord (trimSpace raw)) as [r|]; [|by simplify_eq].
  destruct (checkRecord r (i64 (n + 1)) h) eqn:Hr; try by simplify_eq.
  apply checkRecord_spec in Hr as Hx. destruct Hx as (_ & Hseq & _).
  rewrite <- Hseq in Hv.
  apply IH in Hv as (rs & Hd & Hch & ->); [|done|by apply i64_idem].
  exists (r :: rs). simpl. rewrite Hd. split; [done|]. split.
  - split; [by apply checkRecord_spec|done].
  - unfold verified. rewrite i64_idem_add. do 2 f_equal. lia.
Qed.

Lemma verifyLines_complete ls c n h rs :
  decodeLines ls = Some rs → chained n h rs → i64 c = c →
  verifyLines ls c n h = (verified (i64 (c + Z.of_nat (length rs))) (headOf n h rs).2, false).
Proof.
  revert c n h rs. induction ls as [|raw ls IH]; intros c n h rs Hd Hch Hc.
  { simpl in Hd. simplify_eq. simpl. by rewrite Z.add_0_r, Hc. }
  cbn [verifyLines]. cbn [decodeLines] in Hd.
  destruct (maxLine <=? strlen raw); [done|].
  destruct (trimSpace raw =? "")%string; [by apply IH|].
  destruct (unmarshalRecord (trimSpace raw)) as [r|]; [|done]. simpl in Hd.
  destruct (decodeLines ls) as [rs'|] eqn:E; [|done]. simplify_eq/=. destruct Hch as [Hx Hch].
  rewrite (proj2 (checkRecord_spec r n h) Hx). destruct Hx as (_ & Hseq & _). rewrite <- Hseq.
  rewrite (IH _ _ _ rs'); [|done|done|by apply i64_idem].
  rewrite i64_idem_add. do 3 f_equal. lia.
Qed.

Lemma VerifyChain_iff data res :
  (VerifyChain data = (res, false) ∧ res.(OK) = true) ↔
  ∃ rs, records data = Some rs ∧ chained 0 "" rs ∧
    res = verified (i64 (Z.of_nat (length rs))) (headOf 0 "" rs).2.
Proof.
  split.
  - intros [Hv Hok]. by apply verifyLines_sound in Hv.
  - intros (rs & Hd & Hch & ->). split; [|done]. by apply (verifyLines_complete _ 0 0 "").
Qed.

Lemma chained_app n h rs rs' :
  chained n h (rs ++ rs') ↔
  chained n h rs ∧ chained (headOf n h rs).1 (headOf n h rs).2 rs'.
Proof. revert n h. induction rs as [|r rs IH]; intros n h; simpl; [tauto|]. rewrite IH. tauto. Qed.

Lemma headOf_app n h rs rs' :
  headOf n h (rs ++ rs') = headOf (headOf n h rs).1 (headOf n h rs).2 rs'.
Proof. revert n h. induction rs as [|r rs IH]; intros n h; [done|]. apply IH. Qed.

Lemma headOf_seq n h rs :
  chained n h rs → i64 n = n → (headOf n h rs).1 = i64 (n + Z.of_nat (length rs)).
Proof.
  revert n h. induction rs as [|r rs IH]; intros n h Hc Hn; simpl.
  { by rewrite Z.add_0_r, Hn. }
  destruct Hc as [(_ & Hs & _) Hc]. rewrite IH; [|done|by rewrite Hs, i64_idem].
  rewrite Hs, i64_idem_add. f_equal. lia.
Qed.

Lemma decodeLines_ok ls rs : decodeLines ls = Some rs → Forall rec_ok rs.
Proof.
  revert rs. induction ls as [|raw ls IH]; intros rs Hd; simpl in Hd; [simplify_eq; constructor|].
  destruct (maxLine <=? strlen raw); [done|].
  destruct (trimSpace raw =? "")%string; [auto|].
  destruct (unmarshalRecord (trimSpace raw)) as [r|] eqn:Hr; [|done].
  destruct (decodeLines ls); simplify_eq/=. constructor; [by eapply unmarshalRecord_ok|auto].
Qed.

(** Records with one hash are equal, or their hashed texts collide. *)
Lemma same_hash r1 r2 :
  rec_ok r1 → rec_ok r2 → r1.(Hash) = chainHash r1 → r2.(Hash) = chainHash r2 →
  r1.(Hash) = r2.(Hash) → r1 = r2 ∨ collision (hashedText r1) (hashedText r2).
Proof.
  intros Hr1 Hr2 H1 H2 E. rewrite H1, H2 in E. unfold chainHash in E.
  destruct (sha256Hex_inj _ _ E) as [Et|Hc]; [left|by right].
  unfold hashedText in Et.
  apply (marshalRecord_inj (setHash "" r1) (setHash "" r2)) in Et;
    [|by apply rec_ok_setHash..].
  assert (Hh : r1.(Hash) = r2.(Hash)) by (rewrite H1, H2; exact E).
  by rewrite <- (setHash_restore r1), Et, Hh, setHash_restore.
Qed.

(** A record hash is not the empty link of the first record. *)
Lemma chainHash_nonempty `{!SHA256Laws} r : chainHash r ≠ "".
Proof.
  apply sha256Hex_nonempty.
Qed.

(** Two chains from the first record with one head agree, or some record of the one and
    some record of the other have colliding texts. *)
Lemma chains_agree `{!SHA256Laws} rs1 rs2 :
  Forall rec_ok rs1 → Forall rec_ok rs2 → chained 0 "" rs1 → chained 0 "" rs2 →
  (headOf 0 "" rs1).2 = (headOf 0 "" rs2).2 →
  rs1 = rs2 ∨ ∃ r1 r2, r1 ∈ rs1 ∧ r2 ∈ rs2 ∧ collision (hashedText r1) (hashedText r2).
Proof.
  revert rs2. induction rs1 as [|r1 rs1 IH] using rev_ind; intros rs2 Hok1 Hok2 Hc1 Hc2 Hh;
    destruct (rev_ind_snoc rs2) as [->|(r2 & rs2' & ->)].
  { by left. }
  { apply chained_app in Hc2 as [_ [(_ & _ & _ & Hh2) _]]. rewrite headOf_app in Hh. simpl in Hh.
    by destruct (chainHash_nonempty r2); rewrite <- Hh2. }
  { apply chained_app in Hc1 as [_ [(_ & _ & _ & Hh1) _]]. rewrite headOf_app in Hh. simpl in Hh.
    by destruct (chainHash_nonempty r1); rewrite <- Hh1. }
  apply Forall_app in Hok1 as [Hok1 [Hr1 _]%Forall_cons].
  apply Forall_app in Hok2 as [Hok2 [Hr2 _]%Forall_cons].
  apply chained_app in Hc1 as [Hc1 [(_ & _ & Hp1 & Hh1) _]].
  apply chained_app in Hc2 as [Hc2 [(_ & _ & Hp2 & Hh2) _]].
  rewrite !headOf_app in Hh. simpl in Hh.
  destruct (same_hash r1 r2 Hr1 Hr2 Hh1 Hh2 Hh) as [->|Hcol].
  - destruct (IH rs2') as [->|(a & b & Ha & Hb & Hcol)]; [done..|congruence|by left|].
    right. exists a, b. split_and!; [by apply elem_of_app; left..|done].
  - right. exists r1, r2. split_and!; [by apply elem_of_app; right; apply list_elem_of_here..|done].
Qed.
End Verified.

(** ** Lines *)

Definition NL : ascii := "010".
Definition noNL (s : string) : Prop := Forall (λ c, c ≠ NL) (String.list_ascii_of_string s).

(** The text is empty or ends with a newline: an append starts a new line. *)
Definition ends (s : string) : Prop := s = "" ∨ ∃ p, s = p +:+ newline.

Lemma append_nil_r s : s +:+ "" = s.
Proof. induction s as [|c s IH]; [done|]. rewrite append_cons. by f_equal. Qed.

Lemma on_line_noNL s : Forall on_line (codes s) → noNL s.
Proof.
  unfold noNL. induction s as [|c s IH]; [constructor|]. rewrite codes_cons, Forall_cons.
  intros [[Hc _] Hs]. constructor; [|auto]. by intros ->.
Qed.

Lemma lines_line l : noNL l → l ≠ "" → lines l = [l].
Proof.
  unfold noNL. induction l as [|c l IH]; intros Hl Hne; [done|].
  cbn [String.list_ascii_of_string] in Hl. apply Forall_cons in Hl as [Hc Hl]. cbn [lines].
  destruct (Ascii.eqb_spec c "010") as [->|]; [done|].
  destruct l as [|d l]; [done|]. by rewrite IH.
Qed.

Lemma lines_newline l rest : noNL l → lines (l +:+ newline +:+ rest) = l :: lines rest.
Proof.
  unfold noNL. induction l as [|c l IH]; intros Hl; [done|].
  cbn [String.list_ascii_of_string] in Hl. apply Forall_cons in Hl as [Hc Hl].
  rewrite append_cons. cbn [lines]. destruct (Ascii.eqb_spec c "010") as [->|]; [done|].
  by rewrite IH.
Qed.

Lemma lines_ends a b : ends a → lines (a +:+ b) = lines a ++ lines b.
Proof.
  intros [->|[p ->]]; [done|]. rewrite append_assoc_s. induction p as [|c p IH]; [done|].
  rewrite !append_cons. cbn [lines]. rewrite IH. destruct (Ascii.eqb c "010"); [done|].
  assert (lines (p +:+ newline) ≠ []) as Hne.
  { destruct p; [done|]. rewrite append_cons. cbn [lines]. by repeat case_match. }
  by destruct (lines (p +:+ newline)).
Qed.

Lemma ends_app a b : ends b → b ≠ "" → ends (a +:+ b).
Proof. intros [->|[p ->]] Hne; [done|]. right. exists (a +:+ p). by rewrite append_assoc_s. Qed.

Lemma splitAt_spec s :
  match splitAt NL s with
  | (l, Some t) => s = l +:+ newline +:+ t ∧ noNL l
  | (l, None) => s = l ∧ noNL l
  end.
Proof.
  unfold noNL. induction s as [|c s IH]; simpl; [split; [done|constructor]|].
  destruct (Ascii.eqb_spec c NL) as [->|Hc]; [split; [done|constructor]|].
  destruct (splitAt NL s) as [l [t|]]; destruct IH as [-> Hl]; cbn [String.list_ascii_of_string];
    (split; [done|by constructor]).
Qed.

Lemma decodeLines_app ls1 ls2 :
  decodeLines (ls1 ++ ls2) = rs1 ← decodeLines ls1; rs2 ← decodeLines ls2; Some (rs1 ++ rs2).
Proof.
  induction ls1 as [|raw ls1 IH]; [simpl; by destruct (decodeLines ls2)|].
  cbn [app decodeLines]. destruct (maxLine <=? strlen raw); [done|].
  destruct (trimSpace raw =? "")%string; [done|].
  destruct (unmarshalRecord (trimSpace raw)) as [r|]; [|done]. simpl. rewrite IH.
  by destruct (decodeLines ls1), (decodeLines ls2).
Qed.

Lemma marshalRecord_line r : rec_ok r → noNL (marshalRecord r).
Proof.
  intros Hr. apply on_line_noNL. unfold marshalRecord. rewrite codes_marshal.
  by apply structCodes_line.
Qed.

Lemma decode_record r :
  rec_ok r → strlen (marshalRecord r) < maxLine →
  decodeLines (lines (lineOf r)) = Some [r].
Proof.
  intros Hr Hlen. unfold lineOf. rewrite <- (append_nil_r newline), lines_newline
    by by apply marshalRecord_line. cbn [decodeLines lines].
  destruct (Z.leb_spec maxLine (strlen (marshalRecord r))); [lia|].
  unfold marshalRecord in *. rewrite trimSpace_struct.
  destruct (String.eqb_spec (marshalStruct (fields r)) "") as [E|_]; [done|].
  pose proof (record_roundtrip r Hr) as Hrt. unfold marshalRecord in Hrt. by rewrite Hrt.
Qed.

(** ** Repair *)

Lemma substring_prefix a b : String.substring 0 (String.length a) (a +:+ b) = a.
Proof.
  induction a as [|c a IH]; [by destruct b|]. rewrite append_cons. simpl. by rewrite IH.
Qed.

Lemma strlen_app a b : strlen (a +:+ b) = strlen a + strlen b.
Proof. unfold strlen. rewrite strlength_app. lia. Qed.

Section Repair.
Context `{Ed25519} `{SHA256}.
Variables (n0 : Z) (h0 : string).

(** [text] was read to its end: its records chain from the seed to [(e, h)]. *)
Definition readTo (text : string) (rs : list AuditRecord) (e : Z) (h : string) : Prop :=
  records text = Some rs ∧ chained n0 h0 rs ∧ headOf n0 h0 rs = (e, h).

(** What a repair reports about the prefix [good] it keeps and the [tail] it drops. *)
Definition repaired (good tail : string) (rs : list AuditRecord) (res : VerifyResult) (torn : bool)
  : Prop :=
  (∃ e h, readTo good rs e h ∧
    res.(LastHash) = (if torn then match rs with [] => "" | _ => h end else h)) ∧
  res.(Count) = i64 (Z.of_nat (length rs)) ∧
  if torn then ends good ∧ ∃ raw sep more, tail = raw +:+ sep +:+ more ∧ noNL raw ∧
    (sep = "" ∨ sep = newline) ∧ unmarshalRecord (trimSpace raw) = None ∧ trimSpace more = ""
  else tail = "".

Lemma readTo_blank good raw sep rs e h :
  readTo good rs e h → ends good → noNL raw → trimSpace raw = "" → strlen raw < maxLine →
  raw +:+ sep ≠ "" → sep = "" ∨ sep = newline → readTo (good +:+ raw +:+ sep) rs e h.
Proof.
  intros (Hr & Hc & Hh) He Hraw Ht Hlen Hne Hsep. split; [|done]. unfold records in *.
  assert (lines (raw +:+ sep) = [raw]) as Hl.
  { destruct Hsep as [-> | ->].
    - rewrite append_nil_r in *. by apply lines_line.
    - rewrite <- (append_nil_r newline). by apply lines_newline. }
  rewrite lines_ends, decodeLines_app, Hr, Hl by done. simpl.
  destruct (Z.leb_spec maxLine (strlen raw)); [lia|]. rewrite Ht. simpl. by rewrite app_nil_r.
Qed.

Lemma readTo_record good raw sep rs e h r :
  readTo good rs e h → ends good → noNL raw → trimSpace raw ≠ "" → strlen raw < maxLine →
  unmarshalRecord (trimSpace raw) = Some r → extends e h r → sep = "" ∨ sep = newline →
  readTo (good +:+ raw +:+ sep) (rs ++ [r]) r.(Seq) r.(Hash).
Proof.
  intros (Hr & Hc & Hh) He Hraw Ht Hlen Hu Hx Hsep. unfold records in *.
  assert (lines (raw +:+ sep) = [raw]) as Hl.
  { destruct Hsep as [-> | ->].
    - rewrite append_nil_r in *. apply lines_line; [done|]. by intros ->.
    - rewrite <- (append_nil_r newline). by apply lines_newline. }
  split_and!.
  - unfold records. rewrite lines_ends, decodeLines_app, Hr, Hl by done. cbn [decodeLines].
    destruct (Z.leb_spec maxLine (strlen raw)); [lia|].
    destruct (String.eqb_spec (trimSpace raw) "") as [|_]; [done|]. by rewrite Hu.
  - rewrite chained_app, Hh. by split_and!.
  - by rewrite headOf_app, Hh.
Qed.

(** The line a round of the loop reads, its separator and what is left. *)
Lemma cut_line rest raw tl :
  splitAt NL rest = (raw, tl) → rest ≠ "" → Forall (λ l, strlen l < maxLine) (lines rest) →
  ∃ sep, rest = raw +:+ sep +:+ default "" tl ∧ (sep = "" ∨ sep = newline) ∧
    noNL raw ∧ (sep = "" → default "" tl = "") ∧ raw +:+ sep ≠ "" ∧ strlen raw < maxLine ∧
    Forall (λ l, strlen l < maxLine) (lines (default "" tl)) ∧
    strlen sep = (match tl with Some _ => 1 | None => 0 end).
Proof.
  intros Hs Hne Hcap. pose proof (splitAt_spec rest) as Hsp. rewrite Hs in Hsp.
  destruct tl as [t|]; destruct Hsp as [-> Hraw].
  - exists newline. rewrite lines_newline in Hcap by done. apply Forall_cons in Hcap as [? ?].
    split_and!; auto; try done. by destruct raw.
  - exists "". rewrite lines_line in Hcap by done. apply Forall_cons in Hcap as [? ?].
    simpl. rewrite !append_nil_r. split_and!; auto.
Qed.

Lemma repairLoop_spec fuel rest good rs e h last res t torn :
  (String.length rest < fuel)%nat → readTo good rs e h → ends good ∨ rest = "" →
  last = match rs with [] => "" | _ => h end →
  Forall (λ l, strlen l < maxLine) (lines rest) →
  repairLoop fuel rest (strlen good) (strlen good) (i64 (Z.of_nat (length rs))) e h last =
    (res, t, torn) →
  res.(OK) = true ∨ torn = true →
  ∃ good' tail rs', good +:+ rest = good' +:+ tail ∧ strlen good' = t ∧
    repaired good' tail rs' res torn.
Proof.
  revert rest good rs e h last. induction fuel as [|fuel IH];
    intros rest good rs e h last Hf Hg Hends Hlast Hcap Hloop Hres; [lia|].
  cbn [repairLoop] in Hloop. destruct (String.eqb_spec rest "") as [->|Hne].
  { simplify_eq. exists good, "", rs. split; [done|]. split; [done|].
    split; [by exists e, h|]. done. }
  destruct Hends as [Hends|]; [|done].
  change "010"%char with NL in Hloop. destruct (splitAt NL rest) as [raw tl] eqn:Hsp.
  destruct (cut_line rest raw tl Hsp Hne Hcap)
    as (sep & Hrest & Hsep & Hraw & Hend & Hne' & Hrl & Hcap' & Hseplen).
  rewrite <- Hseplen, <- Z.add_assoc, <- !strlen_app in Hloop.
  set (rest' := default "" tl) in *.
  assert (Hends' : ends (good +:+ raw +:+ sep) ∨ rest' = "").
  { destruct Hsep as [Es|Es]; [right; auto|left].
    rewrite Es. apply ends_app; [by right; exists raw|]. by destruct raw. }
  assert (Hlen : (String.length rest' < fuel)%nat).
  { rewrite Hrest, <- append_assoc_s, strlength_app in Hf.
    destruct (raw +:+ sep); [done|simpl in Hf; lia]. }
  assert (Happ : good +:+ rest = (good +:+ raw +:+ sep) +:+ rest')
    by by rewrite Hrest, !append_assoc_s.
  destruct (String.eqb_spec (trimSpace raw) "") as [Eb|Eb].
  { rewrite Happ. eapply IH in Hloop; [done|done| |done|done|done|done].
    by apply readTo_blank. }
  destruct (unmarshalRecord (trimSpace raw)) as [r|] eqn:Hu.
  - destruct (checkRecord r (i64 (e + 1)) h) eqn:Hck; try (by simplify_eq/=; destruct Hres).
    apply checkRecord_spec in Hck as Hx. destruct Hx as (_ & Hseq & _).
    rewrite <- Hseq, i64_idem_add in Hloop.
    replace (Z.of_nat (length rs) + 1) with (Z.of_nat (length (rs ++ [r]))) in Hloop
      by (rewrite length_app; simpl; lia).
    rewrite Happ. eapply IH in Hloop; [done|done| |done| |done|done].
    + apply readTo_record with (e := e) (h := h); try done. by apply checkRecord_spec.
    + by destruct rs.
  - unfold hasMoreContent in Hloop.
    destruct (String.eqb_spec (trimSpace rest') "") as [Em|]; [|by simplify_eq/=; destruct Hres].
    simplify_eq/=. exists good, (raw +:+ sep +:+ rest'), rs. split; [done|]. split; [done|].
    split; [by exists e, h|]. split; [done|]. split; [done|]. by exists raw, sep, rest'.
Qed.

Lemma repairLoop_torn fuel rest off tr count e h last res t :
  repairLoop fuel rest off tr count e h last = (res, t, true) → res.(OK) = false.
Proof.
  revert rest off tr count e h last.
  induction fuel as [|fuel IH]; intros rest off tr count e h last Hl; [done|].
  cbn [repairLoop] in Hl. destruct (rest =? "")%string; [done|].
  destruct (splitAt "010" rest) as [raw tl]. destruct (trimSpace raw =? "")%string; [by eapply IH|].
  destruct (unmarshalRecord (trimSpace raw)) as [r|].
  - destruct (checkRecord r (i64 (e + 1)) h); try done. by eapply IH.
  - destruct (negb (hasMoreContent (default "" tl))); by simplify_eq.
Qed.

Lemma VerifyForRepairFrom_spec data res t torn :
  Forall (λ l, strlen l < maxLine) (lines data) →
  VerifyForRepairFrom data n0 h0 = (res, t, torn) → res.(OK) = true ∨ torn = true →
  ∃ tail rs, data = String.substring 0 (Z.to_nat t) data +:+ tail ∧
    repaired (String.substring 0 (Z.to_nat t) data) tail rs res torn.
Proof.
  intros Hcap Hv Hres.
  destruct (repairLoop_spec (S (String.length data)) data "" [] n0 h0 "" res t torn)
    as (good & tail & rs & Happ & <- & Hrep); [lia|done|by left; left|done|done|exact Hv|done|].
  change ("" +:+ data) with data in Happ. exists tail, rs.
  assert (String.substring 0 (Z.to_nat (strlen good)) data = good) as ->; [|done].
  unfold strlen. rewrite Nat2Z.id, Happ. apply substring_prefix.
Qed.
End Repair.

(** ** The log as a state machine *)

Section Running.
Context `{Ed25519} `{SHA256}.

(** The record can be written and read back: its text is valid UTF-8 after clipping and
    its line is shorter than the scanner's buffer. *)
Definition fits (io : IO) (rec : AuditRecord) (a : AuditLog) : Prop :=
  rec_ok (prepare io.(ioNow) rec) ∧ strlen (marshalRecord (linked io.(ioNow) rec a)) < maxLine.

(** The sink takes the whole line or nothing. *)
Definition clean (io : IO) (rec : AuditRecord) (a : AuditLog) : Prop :=
  (io.(ioErr) = true ∧ io.(ioTaken) = 0%nat) ∨
  (io.(ioErr) = false ∧ io.(ioTaken) = String.length (lineOf (linked io.(ioNow) rec a))).

(** What happens to a log: writes, checkpoints, configuration, and a restart that finds
    [tail] behind the last line and seeds a new log from the file, which is not blank and
    after the repair ends at a line. *)
Inductive logStep : AuditLog → AuditLog → Prop :=
| LogWrite io rec a : fits io rec a → clean io rec a → logStep a (write io rec a).2
| LogFlush ev a : logStep a (FlushLog ev a)
| LogSetup fc sy c a :
    logStep a (WithFailClosed fc (WithSync sy (WithCheckpointer c (AddSink a))))
| LogRestart a tail n h text truncOk :
    Forall (λ l, strlen l < maxLine) (lines (a.(disk) +:+ tail)) →
    hasMoreContent (a.(disk) +:+ tail) = true →
    seedAuditFromExisting (Some (0, "")) (FileData (a.(disk) +:+ tail)) truncOk =
      (Some (n, h), FileData text) →
    ends text →
    logStep a (SeedFrom n h (NewAuditLog text)).

(** The file ends at a line and its records chain from the first to the log's cursor. *)
Definition log_ok (a : AuditLog) : Prop :=
  ends a.(disk) ∧ ∃ rs, readTo 0 "" a.(disk) rs a.(seq) a.(prev).

Lemma rec_ok_setLink n h r :
  is_int n → validUTF8 h = true → rec_ok r → rec_ok (setLink n h r).
Proof.
  rewrite !rec_ok_vals. intros Hn Hh Hr. destruct r. cbn in Hr |- *.
  repeat (apply Forall_cons in Hr as [? Hr]; constructor; [done|]). constructor.
Qed.

Lemma is_int_i64 z : is_int (i64 z).
Proof. pose proof (i64_range z). unfold is_int, minInt64, maxInt64. lia. Qed.

Lemma chainHash_ascii r : validUTF8 (chainHash r) = true.
Proof. apply validUTF8_ascii, ascii_only_hex. Qed.

Lemma prev_valid rs e h : chained 0 "" rs → headOf 0 "" rs = (e, h) → validUTF8 h = true.
Proof.
  destruct (rev_ind_snoc rs) as [->|(r & rs' & ->)]; intros Hc Hh; [by simplify_eq/=|].
  apply chained_app in Hc as [_ [(_ & _ & _ & Hr) _]]. rewrite headOf_app in Hh.
  simplify_eq/=. rewrite Hr. apply chainHash_ascii.
Qed.

Lemma linked_extends now rec a : extends a.(seq) a.(prev) (linked now rec a).
Proof. by split_and!. Qed.

Lemma linked_ok io rec a rs e h :
  fits io rec a → chained 0 "" rs → headOf 0 "" rs = (e, h) → a.(prev) = h →
  rec_ok (linked io.(ioNow) rec a).
Proof.
  intros [Hr _] Hc Hh Hp. unfold linked. apply rec_ok_setHash; [apply chainHash_ascii|].
  apply rec_ok_setLink; [apply is_int_i64| |done]. rewrite Hp. by eapply prev_valid.
Qed.

Lemma write_ok io rec a : fits io rec a → clean io rec a → log_ok a → log_ok (write io rec a).2.
Proof.
  intros Hf Hcl (He & rs & Hr & Hc & Hh).
  assert (Hrec := linked_ok io rec a rs _ _ Hf Hc Hh eq_refl). destruct Hf as [_ Hlen].
  unfold write. destruct Hcl as [[Herr Htk]|[Herr Htk]]; rewrite Herr, Htk.
  { assert (String.substring 0 0 (lineOf (linked (ioNow io) rec a)) = "") as ->
      by by destruct (lineOf (linked (ioNow io) rec a)).
    simpl. rewrite append_nil_r. by split; [|exists rs]. }
  rewrite Nat.eqb_refl. cbn [orb negb].
  set (r := linked (ioNow io) rec a) in *.
  assert (Hgoal : ∀ c obs, log_ok (mkLog (a.(disk) +:+ lineOf r) r.(Seq) r.(Hash) c r.(Seq) r.(Hash)
    a.(failClosed) a.(sync) obs)).
  { intros c obs. split; cbn [disk seq prev].
    - apply ends_app; [by right; exists (marshalRecord r)|]. unfold lineOf, marshalRecord.
      by destruct (marshalStruct (fields r)).
    - exists (rs ++ [r]). split_and!.
      + unfold records in *. by rewrite lines_ends, decodeLines_app, Hr, decode_record.
      + rewrite chained_app, Hh. split; [done|]. split; [apply linked_extends|done].
      + by rewrite headOf_app, Hh. }
  destruct (a.(sync) && negb io.(ioSync)); apply Hgoal.
Qed.

Lemma restart_ok data n h text truncOk :
  Forall (λ l, strlen l < maxLine) (lines data) → hasMoreContent data = true →
  seedAuditFromExisting (Some (0, "")) (FileData data) truncOk = (Some (n, h), FileData text) →
  ends text → log_ok (SeedFrom n h (NewAuditLog text)).
Proof.
  intros Hcap Hmore Hs He. split; [done|]. cbn [SeedFrom NewAuditLog disk seq prev].
  unfold seedAuditFromExisting in Hs. unfold hasMoreContent in Hmore.
  destruct (trimSpace data =? "")%string; [done|]. cbn [fst snd] in Hs.
  destruct (VerifyForRepairFrom data 0 "") as [[res t] torn] eqn:Hv.
  assert (Hspec := VerifyForRepairFrom_spec 0 "" data res t torn Hcap Hv).
  assert (Hlast : ∀ good tail rs, repaired 0 "" good tail rs res torn →
    ∃ e, readTo 0 "" good rs e res.(LastHash) ∧ res.(Count) = i64 (Z.of_nat (length rs))).
  { intros good tail rs ((e & h' & Hr & ->) & Hc & _). exists e. split; [|done].
    destruct torn; [|done]. destruct rs; [|done]. destruct Hr as (? & ? & Hh). by simplify_eq/=. }
  assert (Hseq : ∀ good rs e, readTo 0 "" good rs e res.(LastHash) →
    res.(Count) = i64 (Z.of_nat (length rs)) → i64 (0 + res.(Count)) = e).
  { intros good rs e (_ & Hc & Hh) ->. rewrite Z.add_0_l, i64_idem.
    assert (Hn := headOf_seq 0 "" rs Hc eq_refl). by rewrite Hh in Hn. }
  destruct torn.
  - rewrite (repairLoop_torn _ _ _ _ _ _ _ _ _ _ Hv) in Hs. destruct truncOk; [|done]. simplify_eq.
    destruct (Hspec (or_intror eq_refl)) as (tail & rs & Hd & Hrep).
    destruct (Hlast _ _ _ Hrep) as (e & Hr & Hc). exists rs. by rewrite (Hseq _ _ _ Hr Hc).
  - destruct res.(OK) eqn:Hok; [|done]. simplify_eq.
    destruct (Hspec (or_introl eq_refl)) as (tail & rs & Hd & Hrep).
    destruct (Hlast _ _ _ Hrep) as (e & Hr & Hc).
    destruct Hrep as (_ & _ & ->). rewrite append_nil_r in Hd. rewrite <- Hd in Hr.
    exists rs. by rewrite (Hseq _ _ _ Hr Hc).
Qed.

Lemma reachable_log_ok a : star logStep (NewAuditLog "") a → log_ok a.
Proof.
  intros Hs. assert (Hinit : log_ok (NewAuditLog "")) by (split; [by left|by exists []]).
  revert Hinit. induction Hs as [|a b c Hstep Hs IH]; [done|]. intros Ha. apply IH.
  destruct Hstep as [io rec a Hf Hc|ev a|fc sy c' a|a tail n h text truncOk Hcap Hm Hseed He].
  - by apply write_ok.
  - exact Ha.
  - exact Ha.
  - by eapply restart_ok.
Qed.

Lemma log_ok_verifies a : log_ok a → VerifyChain a.(disk) = (verified a.(seq) a.(prev), false).
Proof.
  intros (_ & rs & Hr & Hc & Hh).
  assert (Hs := headOf_seq 0 "" rs Hc eq_refl). rewrite Hh in Hs. simpl in Hs.
  unfold VerifyChain. rewrite (verifyLines_complete _ 0 0 "" rs) by done.
  by rewrite Hh, Hs.
Qed.
End Running.

(** ** Theorems *)

Section Claims.
Context `{Ed25519} `{SHA256}.

(** C3. The head hash of a verified log commits to the whole log: two files that
    [VerifyChain] accepts with the same last hash hold the same records in the same order,
    or a record of the one and a record of the other are two texts with one SHA-256
    digest. *)
Theorem verified_logs_agree `{!SHA256Laws} d1 d2 res1 res2 :
  VerifyChain d1 = (res1, false) → res1.(OK) = true →
  VerifyChain d2 = (res2, false) → res2.(OK) = true →
  res1.(LastHash) = res2.(LastHash) →
  ∃ rs1 rs2, records d1 = Some rs1 ∧ records d2 = Some rs2 ∧
    (rs1 = rs2 ∨
     ∃ r1 r2, r1 ∈ rs1 ∧ r2 ∈ rs2 ∧ collision (hashedText r1) (hashedText r2)).
Proof.
  intros Hv1 Hok1 Hv2 Hok2 Hh.
  destruct (proj1 (VerifyChain_iff d1 res1) (conj Hv1 Hok1)) as (rs1 & Hr1 & Hc1 & ->).
  destruct (proj1 (VerifyChain_iff d2 res2) (conj Hv2 Hok2)) as (rs2 & Hr2 & Hc2 & ->).
  exists rs1, rs2. split; [done|]. split; [done|].
  apply chains_agree; [by eapply decodeLines_ok|by eapply decodeLines_ok|done..].
Qed.


(** A repair keeps a verified log and drops no record: when [VerifyForRepair] reports a
    torn tail, the file cut at the reported offset is accepted by [VerifyChain] with the
    reported count and head hash, and the rest is a single line that does not decode,
    followed by white space. *)
Theorem repaired_log_verifies data res t :
  Forall (λ l, strlen l < maxLine) (lines data) →
  VerifyForRepair data = (res, t, true) →
  VerifyChain (String.substring 0 (Z.to_nat t) data) =
    (mkRes res.(Count) true 0 NoBreak res.(LastHash), false) ∧
  ∃ raw sep more,
    data = String.substring 0 (Z.to_nat t) data +:+ raw +:+ sep +:+ more ∧
    noNL raw ∧ (sep = "" ∨ sep = newline) ∧ unmarshalRecord (trimSpace raw) = None ∧
    trimSpace more = "".
Proof.
  intros Hcap Hv.
  destruct (VerifyForRepairFrom_spec 0 "" data res t true Hcap Hv (or_intror eq_refl))
    as (tail & rs & Hd & ((e & h & (Hr & Hc & Hh) & Hlast) & Hcount & _ & raw & sep & more & -> & Htail)).
  split; [|by exists raw, sep, more]. unfold VerifyChain.
  rewrite (verifyLines_complete _ 0 0 "" rs) by done. unfold verified.
  rewrite Hcount, Hlast, Hh. do 2 f_equal. destruct rs; [by simplify_eq/=|done].
Qed.
End Claims.

(** ** Concrete runs *)

Module AuditRuns.
#[export] Existing Instance toyEd25519.
#[export] Existing Instance toySHA32.
#[export] Existing Instance toySHA32_laws.

Definition recOf (tool : string) : AuditRecord :=
  mkRec "" "gw" "a.mesh" "k1" "" "tools/call" tool "7" "allow" "" 0 0 [] 0 "" "" "" 0 "" "" "".
Definition cpEnv : CPEnv := mkCPEnv "t" 0 false (0%nat, true).

(** A write that the sink takes whole, and one of which it takes [k] bytes. *)
Definition goodIO (rec : AuditRecord) (a : AuditLog) : IO :=
  mkIO "t" (String.length (lineOf (linked "t" rec a))) false true cpEnv.
Definition append (rec : AuditRecord) (a : AuditLog) : option auditErr * AuditLog :=
  write (goodIO rec a) rec a.
Definition shortWrite (k : nat) (rec : AuditRecord) (a : AuditLog) : option auditErr * AuditLog :=
  write (mkIO "t" k false true cpEnv) rec a.
Definition restart (head : Z * string) (text : string) : option (Z * string) * auditFile :=
  seedAuditFromExisting (Some head) (FileData text) true.

Definition fresh : AuditLog := NewAuditLog "".
Definition log1 : AuditLog := (append (recOf "read") fresh).2.
Definition log2 : AuditLog := (append (recOf "write") log1).2.

(** A tool name of 4098 bytes with a two-byte rune across the limit of 4096. *)
Definition longTool : string :=
  of_codes (repeat 97 4095 ++ [195; 169] ++ [98]).

(** The file of [log1] without its last byte, the newline. *)
Definition cutDisk : string :=
  String.substring 0 (String.length log1.(disk) - 1) log1.(disk).
End AuditRuns.
Import AuditRuns.

(** A clipped field can make the log unverifiable: [clipField] cuts at a byte, so a tool
    name with a rune across the limit leaves half a rune, which [json.Marshal] writes as an
    escaped replacement rune and hashes; the verifier decodes it and encodes the replacement
    rune itself, and finds a different hash. The write succeeds, the record is reported as
    edited, and a restart refuses the log. *)
Theorem clipped_rune_breaks_chain :
  validUTF8 longTool = true ∧
  (append (recOf longTool) fresh).1 = None ∧
  VerifyChain (append (recOf longTool) fresh).2.(disk) = (mkRes 1 false 1 Edited "", false) ∧
  (restart (0, "") (append (recOf longTool) fresh).2.(disk)).1 = None.
Proof. vm_compute. done. Qed.

(** An interrupted write corrupts the records after it. When the sink takes one byte of
    a record and reports the short write, the next record starts on the same line: after one
    more write a restart drops that committed record as a torn tail, after two it refuses the
    log. When a crash loses only the newline of the last record, the file is accepted as it
    is, the next record joins that line, and a restart drops both. *)
Theorem interrupted_write_corrupts_log :
  (let a := (shortWrite 1 (recOf "read") fresh).2 in
   (append (recOf "read") a).1 = None ∧
   restart (0, "") (append (recOf "read") a).2.(disk) = (Some (0, ""), FileData "") ∧
   (restart (0, "") (append (recOf "write") (append (recOf "read") a).2).2.(disk)).1 = None) ∧
  (restart (0, "") cutDisk = (Some (1, log1.(prev)), FileData cutDisk) ∧
   let a := (append (recOf "write") (SeedFrom 1 log1.(prev) (NewAuditLog cutDisk))).2 in
   restart (0, "") a.(disk) = (Some (0, ""), FileData "")).
Proof. vm_compute. done. Qed.

(** The repair of a rotated log can lose the link to the previous segment: when the first
    record of a segment is torn, the reported head hash is empty instead of the seed's, the
    log continues from the right number with an empty link, and the next restart refuses
    it. *)
Theorem torn_first_record_loses_seed :
  let head := (7, log2.(prev)) in
  restart head (of_codes [123; 34]) = (Some (7, ""), FileData "") ∧
  (let a := (append (recOf "read") (SeedFrom 7 "" (NewAuditLog ""))).2 in
   (restart head a.(disk)).1 = None).
Proof. vm_compute. done. Qed.

Lemma verified_logs_agree_witness :
  ∃ rs1 rs2, records log2.(disk) = Some rs1 ∧ records (log2.(disk) +:+ newline) = Some rs2 ∧
    (rs1 = rs2 ∨
     ∃ r1 r2, r1 ∈ rs1 ∧ r2 ∈ rs2 ∧ collision (hashedText r1) (hashedText r2)).
Proof.
  apply (verified_logs_agree log2.(disk) (log2.(disk) +:+ newline) (VerifyChain log2.(disk)).1
    (VerifyChain (log2.(disk) +:+ newline)).1); vm_compute; reflexivity.
Defined.

(** [rec_ok] as a test. *)
Definition val_okb (v : fval) : bool :=
  match v with
  | VStr s => validUTF8 s
  | VInt z => (minInt64 <=? z) && (z <=? maxInt64)
  | VStrs l => forallb validUTF8 l
  | _ => false
  end.
Lemma rec_okb r : forallb val_okb (fVal <$> fields r) = true → rec_ok r.
Proof.
  intros Hr. apply rec_ok_vals. rewrite List.forallb_forall in Hr.
  apply List.Forall_forall. intros v Hv. apply Hr in Hv. destruct v; simpl in *; try done.
  - unfold is_int. breflect. lia.
  - apply List.Forall_forall. by apply List.forallb_forall.
Qed.
Lemma short_lines ls :
  forallb (λ l, strlen l <? maxLine) ls = true → Forall (λ l, strlen l < maxLine) ls.
Proof.
  rewrite List.forallb_forall, List.Forall_forall. intros Hl l Hin. apply Z.ltb_lt. by apply Hl.
Qed.
Ltac record_is_ok := apply rec_okb; vm_compute; reflexivity.

(** A write, a crash that leaves half a record behind it, the repair, another write. *)
Definition log3 : AuditLog := SeedFrom 1 log1.(prev) (NewAuditLog log1.(disk)).
Definition log4 : AuditLog := (append (recOf "write") log3).2.


Lemma repaired_log_verifies_witness :
  let data := log1.(disk) +:+ of_codes [123; 34] in
  ∃ res t, VerifyForRepair data = (res, t, true) ∧
  VerifyChain (String.substring 0 (Z.to_nat t) data) =
    (mkRes res.(Count) true 0 NoBreak res.(LastHash), false).
Proof.
  intros data.
  exists (VerifyForRepair data).1.1, (VerifyForRepair data).1.2.
  assert (Hv : VerifyForRepair data = ((VerifyForRepair data).1.1, (VerifyForRepair data).1.2, true))
    by (vm_compute; reflexivity).
  split; [exact Hv|].
  apply (repaired_log_verifies data (VerifyForRepair data).1.1 (VerifyForRepair data).1.2); [|exact Hv].
  apply short_lines. vm_compute. reflexivity.
Defined.
End Chain.
