(* ===== verification/Sealed.v ===== *)
(** * Sealed: verifying a log against its signed checkpoints

    [policy/verify_signed.go]: [VerifySigned] reads the whole audit log, recomputing every
    record's hash, then walks the checkpoint file and checks signatures, links, coverage and
    Merkle roots. The theorem of the file says what the outcome [sealed] means. *)
From stdpp Require Import base list strings gmap sets.
From Stdlib Require Import ZArith Lia Ascii.
From Stdlib Require Import Strings.Byte.
From S2P Require Import Prelude GoStd Json JsonCodec Crypto Checkpoint Ledger.
Import Chain.
Open Scope Z_scope.
Open Scope mesh_scope.

Inductive Status := NoStatus | StatusInvalid | StatusUntrustedKey | StatusUnsealed | StatusSealed.

Inductive signedWhy :=
| NoWhy | NotARecord | NonMonotonic | HashMismatch | BrokenChain
| BadCheckpointJSON | MixedSigners | CheckpointInvalid (e : cpErr) | BrokenCheckpointChain
| CoverageGap | InvertedRange | CountMismatch | MissingRecord | RootMismatch | HeadMismatch
| NoCheckpoints | Unpinned | UnsealedTail.

Record SignedVerifyResult := mkSigned {
  Records : Z; Checkpoints : Z; CoveredRecords : Z; SOK : bool; Sealed : bool; Trusted : bool;
  SStatus : Status; SWhy : signedWhy; SignerPub : string
}.

Section Signed.
Context `{Ed25519} `{SHA256}.

(** The first loop: records read, last sequence number, and the hash of each record. *)
Inductive logRead :=
| LogTooLong (n : Z)
| LogInvalid (why : signedWhy) (n : Z)
| LogRead (n maxSeq : Z) (hashBySeq : gmap Z (list byte)).

Fixpoint readLog (ls : list string) (lastSeq : Z) (prevHash : string) (n : Z)
    (hashBySeq : gmap Z (list byte)) : logRead :=
  match ls with
  | [] => LogRead n lastSeq hashBySeq
  | raw :: ls =>
      if maxLine <=? strlen raw then LogTooLong n
      else if (trimSpace raw =? "")%string then readLog ls lastSeq prevHash n hashBySeq
      else
        match unmarshalRecord (trimSpace raw) with
        | None => LogInvalid NotARecord n
        | Some rec =>
            if rec.(Seq) <=? lastSeq then LogInvalid NonMonotonic n
            else if negb (rec.(Hash) =? chainHash rec)%string then LogInvalid HashMismatch n
            else if negb (rec.(PrevHash) =? prevHash)%string then LogInvalid BrokenChain n
            else readLog ls rec.(Seq) (chainHash rec) (i64 (n + 1))
                   (<[rec.(Seq) := default [] (hexDecode (chainHash rec))]> hashBySeq)
        end
  end.

(** The second loop's variables. *)
Record cpState := mkCPState {
  nCP : Z; signerPub : string; covered : Z; lastCP : string; prevTo : Z }.

(** The hashes of the records a checkpoint covers, if all are present. *)
Definition collect (hashBySeq : gmap Z (list byte)) (from to : Z) : option (list (list byte)) :=
  mapM (λ s, hashBySeq !! s) (seqZ from (to - from + 1)).

Definition checkCP (hashBySeq : gmap Z (list byte)) (expectPub : string) (c : Checkpoint)
    (st : cpState) : result signedWhy cpState :=
  let* _ := guard_err (negb (st.(signerPub) =? "")%string && negb (c.(CPPubKey) =? st.(signerPub))%string)
              MixedSigners in
  let* _ := match VerifyCheckpoint c expectPub with
            | Ok _ => Ok tt | Err e => Err (CheckpointInvalid e) end in
  let* _ := guard_err (negb (c.(PrevCP) =? st.(lastCP))%string) BrokenCheckpointChain in
  let* _ := guard_err (negb (c.(FromSeq) =? i64 (st.(prevTo) + 1))) CoverageGap in
  let* _ := guard_err (c.(ToSeq) <? c.(FromSeq)) InvertedRange in
  let* _ := guard_err (negb (c.(CPCount) =? i64 (c.(ToSeq) - c.(FromSeq) + 1))) CountMismatch in
  let* leaves := of_option MissingRecord (collect hashBySeq c.(FromSeq) c.(ToSeq)) in
  let* _ := guard_err (negb (hexEncode (MerkleRoot leaves) =? c.(CPRoot))%string) RootMismatch in
  let* _ := guard_err (match hashBySeq !! c.(ToSeq) with
                       | Some head => negb (hexEncode head =? c.(ChainHead))%string
                       | None => false end) HeadMismatch in
  Ok (mkCPState st.(nCP) st.(signerPub) (i64 (st.(covered) + c.(CPCount))) (cpHash c) c.(ToSeq)).

(** The outcome of the second loop: its variables, why it stopped, whether the scanner
    failed. *)
Fixpoint walkCPs (hashBySeq : gmap Z (list byte)) (expectPub : string) (ls : list string)
    (st : cpState) : cpState * signedWhy * bool :=
  match ls with
  | [] => (st, NoWhy, false)
  | raw :: ls =>
      if maxLine <=? strlen raw then (st, NoWhy, true)
      else if (trimSpace raw =? "")%string then walkCPs hashBySeq expectPub ls st
      else
        match unmarshalCP (trimSpace raw) with
        | None => (st, BadCheckpointJSON, false)
        | Some c =>
            let st := mkCPState (i64 (st.(nCP) + 1)) st.(signerPub) st.(covered) st.(lastCP)
              st.(prevTo) in
            match checkCP hashBySeq expectPub c st with
            | Err why => (if (st.(signerPub) =? "")%string
                          then mkCPState st.(nCP) c.(CPPubKey) st.(covered) st.(lastCP) st.(prevTo)
                          else st, why, false)
            | Ok st => walkCPs hashBySeq expectPub ls
                         (if (st.(signerPub) =? "")%string
                          then mkCPState st.(nCP) c.(CPPubKey) st.(covered) st.(lastCP) st.(prevTo)
                          else st)
            end
        end
  end.

Definition VerifySigned (audit checkpoints expectPub : string) : SignedVerifyResult * bool :=
  match readLog (lines audit) 0 "" 0 ∅ with
  | LogTooLong n => (mkSigned n 0 0 false false false NoStatus NoWhy "", true)
  | LogInvalid why n => (mkSigned n 0 0 false false false StatusInvalid why "", false)
  | LogRead n maxSeq hashBySeq =>
      let '(st, why, err) := walkCPs hashBySeq expectPub (lines checkpoints) (mkCPState 0 "" 0 "" 0) in
      let res := mkSigned n st.(nCP) st.(covered) in
      match why with
      | NoWhy =>
          if err then (res false false false NoStatus NoWhy st.(signerPub), true)
          else if st.(nCP) =? 0
          then (res false false false StatusInvalid NoCheckpoints st.(signerPub), false)
          else
            let sealed := (0 <? n) && (st.(prevTo) =? maxSeq) && (st.(covered) =? n) in
            let trusted := negb (expectPub =? "")%string in
            (res true sealed trusted
               (if negb trusted then StatusUntrustedKey
                else if negb sealed then StatusUnsealed else StatusSealed)
               (if negb trusted then Unpinned else if negb sealed then UnsealedTail else NoWhy)
               st.(signerPub), false)
      | _ => (res false false false StatusInvalid why st.(signerPub), false)
      end
  end.

(** [seedCheckpointFromExisting]: the ordinal and hash of the last checkpoint of a file,
    [None] when its last line is not a checkpoint. [data] is [None] for an absent file. *)
Fixpoint trimRightNL (s : string) : string :=
  match s with
  | "" => ""
  | String c t => match trimRightNL t with
                  | "" => if Ascii.eqb c NL then "" else String c ""
                  | t => String c t
                  end
  end.
Definition seedCheckpointFromExisting (data : option string) : option (Z * string) :=
  match data with
  | None => Some (0, "")
  | Some text =>
      let trimmed := trimRightNL text in
      if (trimSpace trimmed =? "")%string then Some (0, "")
      else match unmarshalCP (List.last (lines trimmed) "") with
           | Some c => Some (c.(CPSeq), cpHash c)
           | None => None
           end
  end.
End Signed.

(** ** What a sealed log is *)

Section SealedProofs.
Context `{Ed25519} `{SHA256}.

Definition digest (r : AuditRecord) : list byte := sha256 (hashedText r).

(** Records with rising sequence numbers, each linked to the one before. *)
Fixpoint ascending (last : Z) (h : string) (rs : list AuditRecord) : Prop :=
  match rs with
  | [] => True
  | r :: rs => last < r.(Seq) ∧ r.(PrevHash) = h ∧ r.(Hash) = chainHash r ∧
               ascending r.(Seq) r.(Hash) rs
  end.
Definition mapOf (m : gmap Z (list byte)) (rs : list AuditRecord) : gmap Z (list byte) :=
  fold_left (λ m r, <[r.(Seq) := digest r]> m) rs m.

Lemma readLog_spec ls last h n m n' mx m' :
  readLog ls last h n m = LogRead n' mx m' → i64 n = n →
  ∃ rs, decodeLines ls = Some rs ∧ ascending last h rs ∧
    n' = i64 (n + Z.of_nat (length rs)) ∧ mx = (headOf last h rs).1 ∧ m' = mapOf m rs.
Proof.
  revert last h n m. induction ls as [|raw ls IH]; intros last h n m Hr Hn; cbn [readLog decodeLines] in *.
  { simplify_eq. exists []. simpl. by rewrite Z.add_0_r, Hn. }
  destruct (maxLine <=? strlen raw); [done|]. destruct (trimSpace raw =? "")%string; [by eapply IH|].
  destruct (unmarshalRecord (trimSpace raw)) as [r|]; [|done].
  destruct (Z.leb_spec r.(Seq) last); [done|].
  destruct (String.eqb_spec r.(Hash) (chainHash r)) as [Hh|]; [|done].
  destruct (String.eqb_spec r.(PrevHash) h) as [Hp|]; [|done]. cbn [negb] in Hr.
  assert (hexDecode (chainHash r) = Some (digest r)) as Hd
    by (unfold chainHash, sha256Hex; apply hexDecode_encode).
  rewrite Hd, <- Hh in Hr. cbn [default] in Hr.
  apply IH in Hr as (rs & Hdec & Ha & -> & -> & ->); [|apply i64_idem].
  exists (r :: rs). rewrite Hdec. split; [done|]. split; [done|]. split; [|done].
  rewrite i64_idem_add. f_equal. simpl. lia.
Qed.

Lemma ascending_head last h rs :
  ascending last h rs → last + Z.of_nat (length rs) ≤ (headOf last h rs).1.
Proof.
  revert last h. induction rs as [|r rs IH]; intros last h; simpl; [lia|].
  intros (Hl & _ & _ & Ha). apply IH in Ha. lia.
Qed.

(** Rising numbers that end at [last] plus their count are consecutive. *)
Lemma ascending_consecutive last h rs i r :
  ascending last h rs → (headOf last h rs).1 = last + Z.of_nat (length rs) →
  rs !! i = Some r → r.(Seq) = last + 1 + Z.of_nat i.
Proof.
  revert last h i. induction rs as [|r' rs IH]; intros last h i Ha Hh Hi; [done|].
  destruct Ha as (Hl & _ & _ & Ha). simpl in Hh. pose proof (ascending_head _ _ _ Ha).
  destruct i as [|i]; simpl in Hi; [simplify_eq; lia|].
  rewrite (IH r'.(Seq) r'.(Hash) i); [lia|done|lia|done].
Qed.

Lemma ascending_above last h rs r : ascending last h rs → r ∈ rs → last < r.(Seq).
Proof.
  revert last h. induction rs as [|r' rs IH]; intros last h Ha Hin; [by apply not_elem_of_nil in Hin|].
  destruct Ha as (Hl & _ & _ & Ha). apply elem_of_cons in Hin as [->|Hin]; [done|].
  apply IH in Ha; [lia|done].
Qed.

Lemma mapOf_stable last h rs m s : ascending last h rs → s ≤ last → mapOf m rs !! s = m !! s.
Proof.
  revert last h m. induction rs as [|r rs IH]; intros last h m Ha Hs; [done|].
  destruct Ha as (Hl & _ & _ & Ha). simpl. rewrite (IH _ _ _ Ha) by lia.
  apply lookup_insert_ne. lia.
Qed.

Lemma mapOf_lookup last h rs m r :
  ascending last h rs → r ∈ rs → mapOf m rs !! r.(Seq) = Some (digest r).
Proof.
  revert last h m. induction rs as [|r' rs IH]; intros last h m Ha Hin; [by apply not_elem_of_nil in Hin|].
  destruct Ha as (Hl & _ & _ & Ha). simpl. apply elem_of_cons in Hin as [->|Hin].
  - rewrite (mapOf_stable _ _ _ _ _ Ha) by lia. apply lookup_insert_eq.
  - by eapply IH.
Qed.

Lemma mapOf_inv rs m s b :
  mapOf m rs !! s = Some b → m !! s = Some b ∨ ∃ r, r ∈ rs ∧ r.(Seq) = s.
Proof.
  revert m. induction rs as [|r rs IH]; intros m Hs; [by left|]. simpl in Hs.
  destruct (IH _ Hs) as [Hm|(r' & Hin & Hr)].
  - destruct (decide (r.(Seq) = s)) as [E|Hne].
    + right. exists r. split; [by apply list_elem_of_here|done].
    + left. by rewrite lookup_insert_ne in Hm.
  - right. exists r'. split; [by apply list_elem_of_further|done].
Qed.

(** ** The checkpoint walk *)

Fixpoint decodeCPs (ls : list string) : option (list Checkpoint) :=
  match ls with
  | [] => Some []
  | raw :: ls =>
      if maxLine <=? strlen raw then None
      else if (trimSpace raw =? "")%string then decodeCPs ls
      else c ← unmarshalCP (trimSpace raw); cs ← decodeCPs ls; Some (c :: cs)
  end.

(** Checkpoint [c] is signed, starts after [to] and commits to the records it covers. *)
Definition commits (m : gmap Z (list byte)) (pub : string) (to : Z) (c : Checkpoint) : Prop :=
  VerifyCheckpoint c pub = Ok tt ∧ c.(FromSeq) = to + 1 ∧ c.(FromSeq) ≤ c.(ToSeq) ∧
  ∃ leaves, collect m c.(FromSeq) c.(ToSeq) = Some leaves ∧
    hexEncode (MerkleRoot leaves) = c.(CPRoot) ∧
    hexEncode <$> (m !! c.(ToSeq)) = Some c.(ChainHead).
Fixpoint covers (m : gmap Z (list byte)) (pub : string) (to : Z) (cs : list Checkpoint) : Prop :=
  match cs with
  | [] => True
  | c :: cs => commits m pub to c ∧ covers m pub c.(ToSeq) cs
  end.
Fixpoint lastTo (to : Z) (cs : list Checkpoint) : Z :=
  match cs with [] => to | c :: cs => lastTo c.(ToSeq) cs end.

Lemma collect_lookup m from to ls s :
  collect m from to = Some ls → from ≤ s ≤ to → ls !! Z.to_nat (s - from) = m !! s ∧ is_Some (m !! s).
Proof.
  unfold collect. intros Hc Hs. apply mapM_Some in Hc.
  assert (Hl : seqZ from (to - from + 1) !! Z.to_nat (s - from) = Some s)
    by (apply lookup_seqZ; lia).
  destruct (Forall2_lookup_l _ _ _ _ _ Hc Hl) as (b & Hb & Hm). rewrite Hb, Hm. by split.
Qed.

Lemma length_collect m from to ls :
  collect m from to = Some ls → from ≤ to → length ls = Z.to_nat (to - from + 1).
Proof.
  unfold collect. intros Hc Hft. apply mapM_Some, Forall2_length in Hc.
  by rewrite <- Hc, length_seqZ.
Qed.

Definition int_keys (m : gmap Z (list byte)) : Prop := ∀ s, is_Some (m !! s) → 1 ≤ s < 2 ^ 63.

Lemma checkCP_err m pub c st why : checkCP m pub c st = Err why → why ≠ NoWhy.
Proof.
  unfold checkCP, rbind, guard_err, of_option. intros Hc.
  repeat (case_match; simplify_eq; try done).
Qed.

Lemma checkCP_ok m pub c st st' :
  int_keys m → 0 ≤ st.(prevTo) < 2 ^ 63 → st.(covered) = st.(prevTo) →
  checkCP m pub c st = Ok st' →
  commits m pub st.(prevTo) c ∧ 0 ≤ c.(ToSeq) < 2 ^ 63 ∧
  st'.(prevTo) = c.(ToSeq) ∧ st'.(covered) = c.(ToSeq) ∧ st'.(nCP) = st.(nCP).
Proof.
  intros Hk Hp Hcov Hc. unfold checkCP in Hc.
  apply rbind_ok in Hc as (? & _ & Hc). apply rbind_ok in Hc as (? & Hv & Hc).
  apply rbind_ok in Hc as (? & _ & Hc). apply rbind_ok in Hc as (? & Hfrom & Hc).
  apply rbind_ok in Hc as (? & Hle & Hc). apply rbind_ok in Hc as (? & Hcount & Hc).
  apply rbind_ok in Hc as (leaves & Hl & Hc). apply rbind_ok in Hc as (? & Hroot & Hc).
  apply rbind_ok in Hc as (? & Hhead & Hc). injection Hc as <-.
  apply guard_err_ok in Hfrom, Hle, Hcount, Hroot, Hhead. apply of_option_ok in Hl. breflect.
  destruct (VerifyCheckpoint c pub) as [[]|] eqn:Hver; [|done].
  destruct (collect_lookup _ _ _ _ c.(FromSeq) Hl) as [_ Hf%Hk]; [lia|].
  destruct (collect_lookup _ _ _ _ c.(ToSeq) Hl) as [_ Ht]; [lia|]. pose proof (Hk _ Ht) as Hto.
  assert (Hfs : c.(FromSeq) = st.(prevTo) + 1).
  { destruct (decide (st.(prevTo) + 1 < 2 ^ 63)); [by rewrite i64_small in Hfrom by lia|].
    assert (st.(prevTo) = 2 ^ 63 - 1) as E by lia. rewrite E in Hfrom.
    change (i64 (2 ^ 63 - 1 + 1)) with (- 2 ^ 63) in Hfrom. lia. }
  rewrite (i64_small (c.(ToSeq) - c.(FromSeq) + 1)) in Hcount by lia.
  destruct Ht as [head Ht]. rewrite Ht in Hhead. breflect.
  split; [|split; [lia|]; split; [done|]; split; [|done]; cbn [covered];
           rewrite Hcov, Hcount, i64_small; lia].
  split; [done|]. split; [done|]. split; [done|]. exists leaves.
  rewrite Ht. simpl. split_and!; [done|done|congruence].
Qed.

Lemma walkCPs_spec m pub ls st st' :
  int_keys m → 0 ≤ st.(prevTo) < 2 ^ 63 → st.(covered) = st.(prevTo) →
  walkCPs m pub ls st = (st', NoWhy, false) →
  ∃ cs, decodeCPs ls = Some cs ∧ covers m pub st.(prevTo) cs ∧
    st'.(prevTo) = lastTo st.(prevTo) cs ∧ st'.(covered) = st'.(prevTo) ∧
    0 ≤ st'.(prevTo) < 2 ^ 63.
Proof.
  intros Hk. revert st. induction ls as [|raw ls IH]; intros st Hp Hc Hw; cbn [walkCPs decodeCPs] in *.
  { simplify_eq. by exists []. }
  destruct (maxLine <=? strlen raw); [done|]. destruct (trimSpace raw =? "")%string; [by apply IH|].
  destruct (unmarshalCP (trimSpace raw)) as [c|]; [|done].
  set (st1 := mkCPState (i64 (nCP st + 1)) _ _ _ _) in Hw.
  destruct (checkCP m pub c st1) as [st2|why] eqn:E.
  2: { apply checkCP_err in E. by simplify_eq. }
  apply checkCP_ok in E as (Hcm & Hto & Hp2 & Hc2 & _); [|done|done|done].
  set (st3 := if (signerPub st2 =? "")%string then _ else st2) in Hw.
  assert (H3 : st3.(prevTo) = c.(ToSeq) ∧ st3.(covered) = c.(ToSeq))
    by (unfold st3; by destruct (signerPub st2 =? "")%string).
  destruct H3 as [H3p H3c]. apply IH in Hw as (cs & Hd & Hcv & Hlast & Hcov & Hr);
    [|by rewrite H3p|congruence].
  exists (c :: cs). rewrite Hd. rewrite H3p in *. split; [done|].
  split; [split; [exact Hcm|exact Hcv]|]. done.
Qed.

Lemma covers_all m pub to cs s :
  covers m pub to cs → to < s ≤ lastTo to cs →
  ∃ c, c ∈ cs ∧ c.(FromSeq) ≤ s ≤ c.(ToSeq).
Proof.
  revert to. induction cs as [|c cs IH]; intros to Hcv Hs; simpl in *; [lia|].
  destruct Hcv as [(_ & Hf & _) Hcv]. destruct (decide (s ≤ c.(ToSeq))).
  - exists c. split; [by apply list_elem_of_here|lia].
  - destruct (IH c.(ToSeq)) as (c' & Hin & Hc'); [done|lia|].
    exists c'. split; [by apply list_elem_of_further|done].
Qed.

Lemma covers_elem m pub to cs c :
  covers m pub to cs → c ∈ cs → ∃ to', commits m pub to' c.
Proof.
  revert to. induction cs as [|c' cs IH]; intros to Hcv Hin; [by apply not_elem_of_nil in Hin|].
  destruct Hcv as [Hc Hcv]. apply elem_of_cons in Hin as [->|Hin]; [by exists to|by eapply IH].
Qed.

Lemma ascending_link last h rs i r :
  ascending last h rs → rs !! i = Some r →
  r.(Hash) = chainHash r ∧
  r.(PrevHash) = match i with O => h | S j => default "" (Hash <$> rs !! j) end.
Proof.
  revert last h i. induction rs as [|r' rs IH]; intros last h i Ha Hi; [done|].
  destruct Ha as (_ & Hp & Hh & Ha). destruct i as [|i]; simpl in Hi; [by simplify_eq|].
  destruct (IH _ _ _ Ha Hi) as [Hr Hpr]. split; [done|]. rewrite Hpr. by destruct i.
Qed.

(** The records a checkpoint covers, in a log numbered from 1. *)
Definition batch (c : Checkpoint) (rs : list AuditRecord) : list AuditRecord :=
  take (Z.to_nat (c.(ToSeq) - c.(FromSeq) + 1)) (drop (Z.to_nat (c.(FromSeq) - 1)) rs).

Definition numbered_from_1 (rs : list AuditRecord) : Prop :=
  ∀ i r, rs !! i = Some r → r.(Seq) = 1 + Z.of_nat i.

Lemma collect_batch rs c ls :
  ascending 0 "" rs → numbered_from_1 rs → c.(FromSeq) ≤ c.(ToSeq) →
  collect (mapOf ∅ rs) c.(FromSeq) c.(ToSeq) = Some ls → ls = digest <$> batch c rs.
Proof.
  intros Ha Hnum Hft Hc.
  assert (Hkey : ∀ s, is_Some (mapOf ∅ rs !! s) → ∃ r, rs !! Z.to_nat (s - 1) = Some r ∧ 1 ≤ s ∧
    mapOf ∅ rs !! s = Some (digest r)).
  { intros s [b Hb]. destruct (mapOf_inv _ _ _ _ Hb) as [He|(r & Hin & <-)];
      [by rewrite lookup_empty in He|].
    apply list_elem_of_lookup in Hin as Hi. destruct Hi as [i Hi]. rewrite (Hnum _ _ Hi).
    exists r. split_and!; [|lia|rewrite <- (Hnum _ _ Hi); by eapply mapOf_lookup].
    by replace (Z.to_nat (1 + Z.of_nat i - 1)) with i by lia. }
  pose proof (length_collect _ _ _ _ Hc Hft) as Hlen.
  destruct (collect_lookup _ _ _ _ c.(FromSeq) Hc) as [_ Hf]; [lia|].
  destruct (Hkey _ Hf) as (r0 & _ & Hf1 & _).
  apply list_eq. intros i. destruct (decide (i < Z.to_nat (c.(ToSeq) - c.(FromSeq) + 1))%nat) as [Hi|Hi].
  - destruct (collect_lookup _ _ _ _ (c.(FromSeq) + Z.of_nat i) Hc) as [Hl Hs]; [lia|].
    replace (Z.to_nat (c.(FromSeq) + Z.of_nat i - c.(FromSeq))) with i in Hl by lia.
    destruct (Hkey _ Hs) as (r & Hr & _ & Hm). rewrite Hl, Hm, list_lookup_fmap.
    unfold batch. rewrite lookup_take_lt, lookup_drop by done.
    replace (Z.to_nat (c.(FromSeq) - 1) + i)%nat
      with (Z.to_nat (c.(FromSeq) + Z.of_nat i - 1)) by lia. by rewrite Hr.
  - rewrite !lookup_ge_None_2; [done| |lia].
    rewrite length_fmap. unfold batch. rewrite length_take. lia.
Qed.

Lemma record_seq_int rs r : Forall rec_ok rs → r ∈ rs → is_int r.(Seq).
Proof.
  intros Hok Hin. rewrite Forall_forall in Hok. apply Hok, rec_ok_vals in Hin.
  destruct r. cbn in Hin. by repeat (apply Forall_cons in Hin as [? Hin]; try done).
Qed.

(** C11. What a sealed log is: when [VerifySigned] reports [sealed], a key was pinned, the
    records are numbered 1, 2, ... without a gap and each carries its own hash and that of
    the record before it, every checkpoint carries a signature that verifies under the
    pinned key and commits to the Merkle root of exactly the records it covers and to the
    hash of the last of them, and every record is covered by a checkpoint. *)
Theorem sealed_log_is_covered audit cps pub res :
  VerifySigned audit cps pub = (res, false) → res.(SStatus) = StatusSealed →
  pub ≠ "" ∧
  ∃ rs cs, records audit = Some rs ∧ decodeCPs (lines cps) = Some cs ∧ rs ≠ [] ∧
    numbered_from_1 rs ∧
    (∀ i r, rs !! i = Some r → r.(Hash) = chainHash r ∧
      r.(PrevHash) = match i with O => "" | S j => default "" (Hash <$> rs !! j) end) ∧
    (∀ c, c ∈ cs → VerifyCheckpoint c pub = Ok tt ∧
      c.(CPRoot) = hexEncode (MerkleRoot (digest <$> batch c rs)) ∧
      Some c.(ChainHead) = Hash <$> rs !! Z.to_nat (c.(ToSeq) - 1)) ∧
    (∀ r, r ∈ rs → ∃ c, c ∈ cs ∧ c.(FromSeq) ≤ r.(Seq) ≤ c.(ToSeq)).
Proof.
  unfold VerifySigned. intros Hv Hst.
  destruct (readLog (lines audit) 0 "" 0 ∅) as [|why k|n mx m] eqn:Hr; [by simplify_eq..|].
  apply readLog_spec in Hr as (rs & Hdec & Ha & Hn & Hmx & Hm); [|done].
  assert (Hok := decodeLines_ok _ _ Hdec).
  assert (Hkeys : int_keys m).
  { intros s [b Hb]. rewrite Hm in Hb. destruct (mapOf_inv _ _ _ _ Hb) as [He|(r & Hin & <-)];
      [by rewrite lookup_empty in He|].
    pose proof (ascending_above _ _ _ _ Ha Hin). pose proof (record_seq_int _ _ Hok Hin) as Hi.
    unfold is_int, maxInt64 in Hi. lia. }
  destruct (walkCPs m pub (lines cps) (mkCPState 0 "" 0 "" 0)) as [[st why] err] eqn:Hw.
  destruct why; try by simplify_eq. destruct err; [by simplify_eq|].
  destruct (nCP st =? 0); [by simplify_eq|].
  apply walkCPs_spec in Hw as (cs & Hcs & Hcv & Hlast & Hcov & Hr); [|done|done|done].
  injection Hv as <-. cbn [SStatus prevTo] in Hst, Hlast, Hcv.
  destruct (pub =? "")%string eqn:Hpub; [done|].
  destruct ((0 <? n) && (prevTo st =? mx) && (covered st =? n)) eqn:Hse; [|done]. breflect.
  pose proof (ascending_head _ _ _ Ha) as Hhead. rewrite <- Hmx in Hhead.
  rewrite Z.add_0_l, i64_small in Hn by lia.
  assert (Hnum : numbered_from_1 rs).
  { intros i r Hi. apply (ascending_consecutive 0 "" rs i r Ha); [lia|done]. }
  split; [done|]. exists rs, cs. split; [done|]. split; [done|].
  split; [intros ->; simpl in Hn; lia|]. split; [done|].
  split; [intros i r Hi; by eapply ascending_link|]. split.
  - intros c Hin. destruct (covers_elem _ _ _ _ _ Hcv Hin) as (to & Hvc & _ & Hft & ls & Hl & Hroot & Hh).
    rewrite Hm in Hl, Hh. rewrite (collect_batch rs c ls Ha Hnum Hft Hl) in Hroot.
    split; [done|]. split; [done|].
    destruct (mapOf ∅ rs !! c.(ToSeq)) as [b|] eqn:Hb; [|done]. simplify_eq/=.
    destruct (mapOf_inv _ _ _ _ Hb) as [He|(r & Hin' & Hs)]; [by rewrite lookup_empty in He|].
    assert (Hd := mapOf_lookup 0 "" rs ∅ r Ha Hin'). rewrite Hs, Hb in Hd. simplify_eq.
    apply list_elem_of_lookup in Hin' as [i Hi]. rewrite <- Hs, (Hnum _ _ Hi).
    replace (Z.to_nat (1 + Z.of_nat i - 1)) with i by lia. rewrite Hi. simpl. f_equal.
    destruct (ascending_link _ _ _ _ _ Ha Hi) as [-> _]. done.
  - intros r Hin. apply (covers_all _ _ _ _ _ Hcv). pose proof (ascending_above _ _ _ _ Ha Hin).
    apply list_elem_of_lookup in Hin as [i Hi]. pose proof (lookup_lt_Some _ _ _ Hi).
    rewrite (Hnum _ _ Hi) in *. lia.
Qed.
End SealedProofs.

(** ** Concrete run *)

Module SealedRuns.
Import AuditRuns.

(** A log with a checkpointer that seals two records at a time. *)
Definition signer0 : PrivateKey := x41.
Definition sealing : AuditLog := WithCheckpointer (Some (NewCheckpointer signer0 "" 2 None)) fresh.
Definition pinned : string := PubKeyHex signer0.
End SealedRuns.
Import AuditRuns SealedRuns.

(** A write and, when the batch is full, a checkpoint, both taken whole by their files. *)
Definition sealWrite (rec : AuditRecord) (a : AuditLog) : AuditLog :=
  let r := linked "t" rec a in
  let env k := mkCPEnv "t" k false (0%nat, true) in
  let cpLen := match a.(cp) with
    | Some c =>
        let c := mkCheckpointer c.(cSigner) c.(cW) c.(cAnchor) c.(every) (c.(leaves) ++ [digest r])
          (if c.(fromSeq) =? 0 then r.(Seq) else c.(fromSeq)) c.(cpSeq) c.(prevCP) c.(reports) in
        S (String.length (marshalCP (nextCheckpoint (env 0%nat) r.(Seq) r.(Hash) c)))
    | None => 0%nat
    end in
  (write (mkIO "t" (String.length (lineOf r)) false true (env cpLen)) rec a).2.
Definition sealed2 : AuditLog := sealWrite (recOf "write") (sealWrite (recOf "read") sealing).
Definition checkpointsOf (a : AuditLog) : string :=
  match a.(cp) with Some c => c.(cW) | None => "" end.

(** The restart of a gateway: the log and the checkpointer are seeded from their files. *)
Definition restarted (a : AuditLog) : AuditLog :=
  let c0 := NewCheckpointer signer0 (checkpointsOf a) 2 None in
  let c := match seedCheckpointFromExisting (Some (checkpointsOf a)) with
           | Some (n, h) => if 0 <? n then SeedCheckpointer n h c0 else c0
           | None => c0
           end in
  match seedAuditFromExisting (Some (0, "")) (FileData a.(disk)) true with
  | (Some (n, h), FileData text) => WithCheckpointer (Some c) (SeedFrom n h (NewAuditLog text))
  | _ => a
  end.

(** A restart leaves a gap in the checkpoints: the records of an unfinished batch are
    forgotten with the process, the next checkpoint starts at the first record after the
    restart, and from then on the log is reported as invalid, although its hash chain is
    intact. *)
Theorem restart_leaves_coverage_gap :
  let before := sealWrite (recOf "c") (sealWrite (recOf "b") (sealWrite (recOf "a") sealing)) in
  let after := sealWrite (recOf "e") (sealWrite (recOf "d") (restarted before)) in
  (VerifySigned before.(disk) (checkpointsOf before) pinned).1.(SStatus) = StatusUnsealed ∧
  (VerifyChain after.(disk)).1 = mkRes 5 true 0 NoBreak after.(prev) ∧
  (VerifySigned after.(disk) (checkpointsOf after) pinned).1.(SStatus) = StatusInvalid ∧
  (VerifySigned after.(disk) (checkpointsOf after) pinned).1.(SWhy) = CoverageGap.
Proof. vm_compute. done. Qed.

Lemma sealed_log_is_covered_witness :
  (VerifySigned sealed2.(disk) (checkpointsOf sealed2) pinned).1.(SStatus) = StatusSealed ∧ pinned ≠ "".
Proof.
  assert (Hs : (VerifySigned sealed2.(disk) (checkpointsOf sealed2) pinned).1.(SStatus) = StatusSealed)
    by (vm_compute; reflexivity).
  split; [exact Hs|].
  apply (sealed_log_is_covered sealed2.(disk) (checkpointsOf sealed2) pinned
    (VerifySigned sealed2.(disk) (checkpointsOf sealed2) pinned).1); [|exact Hs].
  assert (Hp : (VerifySigned sealed2.(disk) (checkpointsOf sealed2) pinned).2 = false) by (vm_compute; reflexivity).
  rewrite <- Hp. apply surjective_pairing.
Defined.
