(* ===== verification/Frame.v ===== *)
(** * Frame: the session wire protocol (src/session/frame.go)

    Frames, their big-endian encoding and their decoder. A frame is encoded to
    the bytes [writeFrame] flushes; a decoder reads from the bytes that are left
    on the connection and an exhausted connection is [ErrEOF]. *)
From S2P Require Import Prelude.
From stdpp Require Import base list.
From Stdlib Require Import ZArith Lia.
From Stdlib Require Import Strings.Byte.
Open Scope Z_scope.
Open Scope mesh_scope.

(** ** Bytes and big-endian integers *)

Definition byte_of_Z (z : Z) : byte :=
  match Byte.of_N (Z.to_N (z mod 256)) with
  | Some b => b
  | None => x00
  end.
Definition Z_of_byte (b : byte) : Z := Z.of_N (Byte.to_N b).

(** [n] bytes of [z], most significant first. *)
Fixpoint be_encode (n : nat) (z : Z) : list byte :=
  match n with
  | O => []
  | S n => be_encode n (Z.shiftr z 8) ++ [byte_of_Z z]
  end.

Definition be_decode (l : list byte) : Z :=
  fold_left (λ acc b, Z.shiftl acc 8 + Z_of_byte b) l 0.

(** [io.ReadFull] and [binary.Read]: exactly [n] bytes or an error. *)
Definition read_n (n : nat) (l : list byte) : option (list byte * list byte) :=
  if (n <=? length l)%nat then Some (take n l, drop n l) else None.

(** ** Frame types *)

Inductive frameType :=
| frameAttach | frameAttachOK | frameData | frameAck
| framePing | framePong | frameClose | frameError
| frameUnknown (t : byte).

Definition type_byte (t : frameType) : byte :=
  match t with
  | frameAttach => x01 | frameAttachOK => x02 | frameData => x03 | frameAck => x04
  | framePing => x05 | framePong => x06 | frameClose => x07 | frameError => x08
  | frameUnknown b => b
  end.

Definition type_of_byte (b : byte) : frameType :=
  match b with
  | x01 => frameAttach | x02 => frameAttachOK | x03 => frameData | x04 => frameAck
  | x05 => framePing | x06 => framePong | x07 => frameClose | x08 => frameError
  | b => frameUnknown b
  end.

Definition sessionIDLen : nat := 16.
Definition maxPayload : Z := 64 * 1024.

Definition sessionID := list byte.
Definition zeroID : sessionID := replicate sessionIDLen x00.

Definition isZero (s : sessionID) : bool := forallb (λ b, Byte.eqb b x00) s.

Record frame := mkFrame {
  typ : frameType;
  fid : sessionID;
  fseq : Z;
  payload : list byte
}.

Inductive frameErr :=
| ErrEOF
| ErrDataTooLarge (n : Z)
| ErrErrorTooLarge (n : Z)
| ErrUnknownType (t : byte).
#[export] Instance frameErr_eq_dec : EqDecision frameErr.
Proof. solve_decision. Defined.

Definition len (p : list byte) : Z := Z.of_nat (length p).

(** ** Encoder and decoder *)

Definition writeFrame (f : frame) : result frameErr (list byte) :=
  let t := type_byte f.(typ) in
  match f.(typ) with
  | frameAttach | frameAttachOK => Ok (t :: f.(fid) ++ be_encode 8 f.(fseq))
  | frameData =>
      if maxPayload <? len f.(payload) then Err (ErrDataTooLarge (len f.(payload)))
      else Ok (t :: be_encode 8 f.(fseq) ++ be_encode 4 (len f.(payload)) ++ f.(payload))
  | frameAck => Ok (t :: be_encode 8 f.(fseq))
  | framePing | framePong | frameClose => Ok [t]
  | frameError => Ok (t :: be_encode 4 (len f.(payload)) ++ f.(payload))
  | frameUnknown b => Err (ErrUnknownType b)
  end.

Definition rd (n : nat) (l : list byte) : result frameErr (list byte * list byte) :=
  of_option ErrEOF (read_n n l).

Definition readFrame (l : list byte) : result frameErr (frame * list byte) :=
  match l with
  | [] => Err ErrEOF
  | t :: l =>
      let ty := type_of_byte t in
      match ty with
      | frameAttach | frameAttachOK =>
          let* (id, l) := rd sessionIDLen l in
          let* (s, l) := rd 8 l in
          Ok (mkFrame ty id (be_decode s) [], l)
      | frameData =>
          let* (s, l) := rd 8 l in
          let* (nb, l) := rd 4 l in
          let n := be_decode nb in
          if maxPayload <? n then Err (ErrDataTooLarge n)
          else
            let* (p, l) := rd (Z.to_nat n) l in
            Ok (mkFrame ty zeroID (be_decode s) p, l)
      | frameAck =>
          let* (s, l) := rd 8 l in
          Ok (mkFrame ty zeroID (be_decode s) [], l)
      | framePing | framePong | frameClose => Ok (mkFrame ty zeroID 0 [], l)
      | frameError =>
          let* (nb, l) := rd 4 l in
          let n := be_decode nb in
          if maxPayload <? n then Err (ErrErrorTooLarge n)
          else
            let* (p, l) := rd (Z.to_nat n) l in
            Ok (mkFrame ty zeroID 0 p, l)
      | frameUnknown b => Err (ErrUnknownType b)
      end
  end.

(** Reads frames until the connection is exhausted or a frame does not decode:
    the loop of [pumpReader] and [Handle], with [fuel] bounding the number of
    frames (each consumes at least one byte, so the length of the input is enough). *)
Fixpoint readFrames (fuel : nat) (l : list byte) : list frame * frameErr :=
  match fuel with
  | O => ([], ErrEOF)
  | S fuel =>
      match readFrame l with
      | Err e => ([], e)
      | Ok (f, l) => let '(fs, e) := readFrames fuel l in (f :: fs, e)
      end
  end.

(** ** What a frame puts on the wire *)

(** Only the fields relevant to [typ] travel; the others read back as zero. *)
Definition wire (f : frame) : frame :=
  match f.(typ) with
  | frameAttach | frameAttachOK => mkFrame f.(typ) f.(fid) f.(fseq) []
  | frameData => mkFrame f.(typ) zeroID f.(fseq) f.(payload)
  | frameAck => mkFrame f.(typ) zeroID f.(fseq) []
  | frameError => mkFrame f.(typ) zeroID 0 f.(payload)
  | _ => mkFrame f.(typ) zeroID 0 []
  end.

Definition known_type (t : frameType) : bool :=
  match t with frameUnknown _ => false | _ => true end.

(** A frame a sender of this protocol builds. *)
Definition frame_ok (f : frame) : Prop :=
  known_type f.(typ) = true ∧ length f.(fid) = sessionIDLen ∧
  is_u64 f.(fseq) ∧ len f.(payload) ≤ maxPayload.

(** ** Byte lemmas *)

Lemma Z_of_byte_of_Z z : Z_of_byte (byte_of_Z z) = z mod 256.
Proof.
  unfold Z_of_byte, byte_of_Z.
  pose proof (Z.mod_pos_bound z 256 ltac:(lia)).
  destruct (Byte.of_N _) as [b|] eqn:E.
  - apply Byte.to_of_N in E. lia.
  - apply Byte.of_N_None_iff in E. lia.
Qed.

Lemma Z_of_byte_range b : 0 ≤ Z_of_byte b < 256.
Proof. unfold Z_of_byte. pose proof (Byte.to_N_bounded b). lia. Qed.

Lemma be_encode_length n z : length (be_encode n z) = n.
Proof.
  revert z. induction n; intros; simpl; [done|].
  rewrite length_app, IHn. simpl. lia.
Qed.

Lemma be_decode_snoc l b : be_decode (l ++ [b]) = be_decode l * 256 + Z_of_byte b.
Proof.
  unfold be_decode. rewrite fold_left_app. simpl.
  rewrite Z.shiftl_mul_pow2 by lia. reflexivity.
Qed.

Lemma be_decode_encode n z : be_decode (be_encode n z) = z mod 256 ^ Z.of_nat n.
Proof.
  revert z. induction n as [|n IH]; intros z.
  - simpl. by rewrite Z.mod_1_r.
  - cbn [be_encode]. rewrite be_decode_snoc, IH, Z_of_byte_of_Z.
    rewrite Z.shiftr_div_pow2 by lia. change (2 ^ 8) with 256.
    rewrite Nat2Z.inj_succ, Z.pow_succ_r by lia.
    rewrite Z.rem_mul_r by lia. lia.
Qed.

Lemma be_decode_u64 z : is_u64 z → be_decode (be_encode 8 z) = z.
Proof. intros. rewrite be_decode_encode. by apply Z.mod_small. Qed.

Lemma be_decode_bound l : 0 ≤ be_decode l < 256 ^ Z.of_nat (length l).
Proof.
  induction l as [|b l IH] using rev_ind; [done|].
  rewrite be_decode_snoc, length_app. simpl.
  rewrite Nat.add_1_r, Nat2Z.inj_succ, Z.pow_succ_r by lia.
  pose proof (Z_of_byte_range b). nia.
Qed.

Lemma byte_of_Z_of_byte b : byte_of_Z (Z_of_byte b) = b.
Proof. by destruct b. Qed.

Lemma byte_of_Z_mod z k : byte_of_Z (k * 256 + z) = byte_of_Z z.
Proof. unfold byte_of_Z. by rewrite Z.add_comm, Z.mod_add by lia. Qed.

Lemma be_encode_decode l : be_encode (length l) (be_decode l) = l.
Proof.
  induction l as [|b l IH] using rev_ind; [done|].
  rewrite length_app, Nat.add_1_r, be_decode_snoc.
  cbn [be_encode]. rewrite byte_of_Z_mod, byte_of_Z_of_byte. f_equal.
  transitivity (be_encode (length l) (be_decode l)); [f_equal|done].
  rewrite Z.shiftr_div_pow2 by lia. change (2 ^ 8) with 256.
  pose proof (Z_of_byte_range b). symmetry.
  apply Z.div_unique with (Z_of_byte b); lia.
Qed.

Lemma be_encode_decode' n l : length l = n → be_encode n (be_decode l) = l.
Proof. intros <-. apply be_encode_decode. Qed.

Lemma be_decode_is_u64 l : length l = 8%nat → is_u64 (be_decode l).
Proof. intros H. pose proof (be_decode_bound l) as B. by rewrite H in B. Qed.

(** ** Reading back *)

Lemma rd_app n a b : length a = n → rd n (a ++ b) = Ok (a, b).
Proof.
  intros <-. unfold rd, read_n. rewrite length_app.
  destruct (Nat.leb_spec (length a) (length a + length b)); [|lia].
  by rewrite take_app_length, drop_app_length.
Qed.

Lemma rd_ok n l a b : rd n l = Ok (a, b) → l = a ++ b ∧ length a = n.
Proof.
  unfold rd, read_n. destruct (Nat.leb_spec n (length l)); intros; inv_ok.
  rewrite take_drop, length_take. split; [done|lia].
Qed.

Lemma rd_short n l : (length l < n)%nat → rd n l = Err ErrEOF.
Proof. intros. unfold rd, read_n. by destruct (Nat.leb_spec n (length l)); [lia|]. Qed.

Lemma rd_total n l : rd n l = Err ErrEOF ∨ ∃ a b, rd n l = Ok (a, b).
Proof. unfold rd, read_n. destruct (_ <=? _)%nat; simpl; eauto. Qed.

Lemma type_of_type_byte t : known_type t = true → type_of_byte (type_byte t) = t.
Proof. by destruct t. Qed.

Lemma len_nonneg p : 0 ≤ len p.
Proof. unfold len. lia. Qed.

Lemma len_nil : len [] = 0.
Proof. reflexivity. Qed.

Lemma len_eq p n : length p = Z.to_nat n → 0 ≤ n → len p = n.
Proof. unfold len. lia. Qed.

Lemma len_to_nat p : Z.to_nat (len p) = length p.
Proof. unfold len. lia. Qed.

Lemma maxPayload_nonneg : 0 ≤ maxPayload.
Proof. done. Qed.

Lemma maxPayload_lt : maxPayload < 4294967296.
Proof. reflexivity. Qed.

#[global] Arguments be_encode : simpl never.
#[global] Arguments be_decode : simpl never.
#[global] Arguments rd : simpl never.
#[global] Arguments len : simpl never.
#[global] Arguments maxPayload : simpl never.
#[global] Opaque be_encode be_decode rd len maxPayload.

Lemma readFrame_write f bs rest :
  frame_ok f → writeFrame f = Ok bs → readFrame (bs ++ rest) = Ok (wire f, rest).
Proof.
  intros (Hk & Hid & Hseq & Hpl) Hw.
  assert (Hlen : (maxPayload <? len (payload f)) = false) by (apply Z.ltb_ge; done).
  assert (Hn : be_decode (be_encode 4 (len (payload f))) = len (payload f)).
  { rewrite be_decode_encode. apply Z.mod_small.
    pose proof len_nonneg (payload f). pose proof maxPayload_lt.
    change (256 ^ Z.of_nat 4) with 4294967296. lia. }
  unfold writeFrame in Hw. unfold wire.
  destruct f as [t id s p]; simpl in *.
  destruct t; simpl in *; try discriminate Hk; rewrite ?Hlen in Hw;
    injection Hw as <-; simpl; rewrite <- ?app_assoc;
    repeat (rewrite rd_app by (rewrite ?be_encode_length; auto); simpl);
    rewrite ?be_decode_u64 by auto; rewrite ?Hn, ?Hlen, ?len_to_nat;
    rewrite ?rd_app by auto; reflexivity.
Qed.

(** ** The decoder accepts only encodings, and never mis-reads a cut connection *)

Lemma rd_mono n a b x r : rd n a = Ok (x, r) → rd n (a ++ b) = Ok (x, r ++ b).
Proof. intros [-> <-]%rd_ok. by rewrite <- app_assoc, rd_app. Qed.

Lemma zeroID_length : length zeroID = sessionIDLen.
Proof. reflexivity. Qed.

Ltac rd_cases :=
  repeat match goal with
  | H : context [rbind (rd ?n ?l) _] |- _ =>
      let E := fresh "E" in
      destruct (rd_total n l) as [E|(? & ? & E)]; rewrite E in H; simpl in H;
      [try discriminate H; try (by inversion H) |]
  end.

Ltac rd_push :=
  repeat match goal with
  | E : rd ?n ?l = Ok (_, _) |- context [rd ?n (?l ++ ?b)] =>
      rewrite (rd_mono n l b _ _ E); simpl
  end.

Lemma readFrame_ok_mono a b f r :
  readFrame a = Ok (f, r) → readFrame (a ++ b) = Ok (f, r ++ b).
Proof.
  intros H. destruct a as [|t a]; [discriminate|]. simpl in *.
  destruct (type_of_byte t); try discriminate; rd_cases; rd_push;
    try (case_in H; [discriminate|]; rd_cases; rd_push); by inversion H.
Qed.

Lemma readFrame_err_mono a b e :
  readFrame a = Err e → e ≠ ErrEOF → readFrame (a ++ b) = Err e.
Proof.
  intros H Hne. destruct a as [|t a]; [simpl in H; congruence|]. simpl in *.
  destruct (type_of_byte t); try discriminate; rd_cases; try congruence; rd_push;
    try (case_in H; [done|]; rd_cases; congruence).
Qed.

Lemma type_byte_of_byte b : type_byte (type_of_byte b) = b.
Proof. by destruct b. Qed.

(** Every accepted input starts with the encoding of the frame that was read. *)
Lemma readFrame_canonical l f r :
  readFrame l = Ok (f, r) → frame_ok f ∧ ∃ bs, writeFrame f = Ok bs ∧ l = bs ++ r.
Proof.
  intros H. destruct l as [|t l]; [discriminate|]. simpl in H.
  pose proof (type_byte_of_byte t) as Ht.
  destruct (type_of_byte t) eqn:Ety; try discriminate; rd_cases;
    try (case_in H; [discriminate|]; rd_cases);
    try discriminate H; injection H as <- <-;
    repeat match goal with E : rd _ _ = Ok _ |- _ => apply rd_ok in E as [-> ?] end;
    try match goal with E : length ?p = Z.to_nat (be_decode ?nb) |- _ =>
      pose proof (be_decode_bound nb); apply len_eq in E; [|lia] end;
    breflect; unfold frame_ok, writeFrame; simpl in *; subst t;
    try match goal with E : len ?p = be_decode _ |- _ =>
      rewrite ?(proj2 (Z.ltb_ge maxPayload (len p))) by lia; rewrite E end;
    rewrite ?be_encode_decode' by done.
  all: pose proof maxPayload_nonneg; rewrite ?len_nil.
  all: split; [auto 10 using be_decode_is_u64, is_u64_0 with lia |].
  all: eexists; split; [reflexivity|]; simpl; by rewrite <- ?app_assoc.
Qed.

Lemma readFrame_wire l f r : readFrame l = Ok (f, r) → wire f = f.
Proof.
  intros H. destruct l as [|t l]; [discriminate|]. simpl in H.
  destruct (type_of_byte t); try discriminate; rd_cases;
    try (case_in H; [discriminate|]; rd_cases); try discriminate H;
    by injection H as <- <-.
Qed.

(** A frame cut short by a dropped connection reads as end of input. *)
Lemma readFrame_cut f a b :
  frame_ok f → writeFrame f = Ok (a ++ b) → b ≠ [] → readFrame a = Err ErrEOF.
Proof.
  intros Hok Hw Hb.
  pose proof (readFrame_write f _ [] Hok Hw) as Hr. rewrite app_nil_r in Hr.
  destruct (readFrame a) as [[f' r]|e] eqn:E.
  - apply (readFrame_ok_mono _ b) in E. rewrite Hr in E.
    injection E as _ E. by destruct r, b.
  - destruct (decide (e = ErrEOF)) as [->|Hne]; [done|].
    apply (readFrame_err_mono _ b) in E; [|done]. congruence.
Qed.

Lemma writeFrame_nonempty f bs : writeFrame f = Ok bs → (1 ≤ length bs)%nat.
Proof.
  unfold writeFrame. destruct (typ f); intros H; try (case_in H);
    try discriminate H; injection H as <-; simpl; lia.
Qed.

(** Everything the peer manages to read from a connection before it fails. *)
Definition readAll (l : list byte) : list frame * frameErr :=
  readFrames (S (length l)) l.

(** Encoded frames, one after the other, as a writer puts them on a connection. *)
Definition encoded (fs : list frame) (bss : list (list byte)) : Prop :=
  Forall2 (λ f bs, frame_ok f ∧ writeFrame f = Ok bs) fs bss.

Lemma encoded_length fs bss : encoded fs bss → (length fs ≤ length (concat bss))%nat.
Proof.
  induction 1 as [|f bs fs bss [_ Hw] _ IH]; simpl; [lia|].
  apply writeFrame_nonempty in Hw. rewrite length_app. lia.
Qed.

Lemma readFrames_cut fs bss fuel tail :
  encoded fs bss → (length fs < fuel)%nat → readFrame tail = Err ErrEOF →
  readFrames fuel (concat bss ++ tail) = (wire <$> fs, ErrEOF).
Proof.
  intros He. revert fuel.
  induction He as [|f bs fs bss [Hok Hw] _ IH]; intros [|fuel] Hf Ht;
    simpl in *; try lia.
  - by rewrite Ht.
  - rewrite <- app_assoc, (readFrame_write f bs) by done.
    by rewrite IH by (done || lia).
Qed.

(** C2. The decoder inverts the encoder and accepts nothing else: an input decodes to
    [f] leaving [r] exactly when it is the encoding of [f], a frame a sender may build,
    followed by [r]. A decoded payload is therefore never longer than [maxPayload]. *)
Theorem readFrame_exact (l : list byte) (f : frame) (r : list byte) :
  readFrame l = Ok (f, r) ↔
  frame_ok f ∧ wire f = f ∧ ∃ bs, writeFrame f = Ok bs ∧ l = bs ++ r.
Proof.
  split.
  - intros H. pose proof (readFrame_wire _ _ _ H).
    apply readFrame_canonical in H as (? & ?). done.
  - intros (Hok & Hf & bs & Hw & ->).
    pose proof (readFrame_write f bs r Hok Hw) as E. by rewrite Hf in E.
Qed.

(** A connection that is cut in the middle of any frame yields exactly the frames
    that were completely written before the cut, in order, and then end of input: a
    reader never sees a partial or an invented frame, whatever the position of the cut. *)
Theorem cut_stream_reads_prefix fs bss (g : frame) (a b : list byte) :
  encoded fs bss → frame_ok g → writeFrame g = Ok (a ++ b) → b ≠ [] →
  readAll (concat bss ++ a) = (wire <$> fs, ErrEOF).
Proof.
  intros He Hg Hw Hb. pose proof (encoded_length _ _ He).
  apply readFrames_cut; [done| |by eapply readFrame_cut].
  rewrite length_app. lia.
Qed.

Definition ex_data : frame := mkFrame frameData zeroID 7 [x68; x69].

Lemma cut_stream_reads_prefix_witness :
  readAll ([x04; x00; x00; x00; x00; x00; x00; x00; x05] ++ [x03; x00; x00])
  = ([mkFrame frameAck zeroID 5 []], ErrEOF).
Proof.
  apply (cut_stream_reads_prefix [mkFrame frameAck zeroID 5 []]
    [[x04; x00; x00; x00; x00; x00; x00; x00; x05]] ex_data [x03; x00; x00]
    [x00; x00; x00; x00; x00; x07; x00; x00; x00; x02; x68; x69]).
  - repeat constructor; vm_compute; congruence.
  - repeat split; vm_compute; congruence.
  - vm_compute; reflexivity.
  - discriminate.
Defined.
