(* ===== verification/Endpoint.v ===== *)
(** * Endpoint: the reliable-delivery core of a session (src/session/endpoint.go)

    An endpoint numbers the application chunks it sends, keeps them until the peer
    acknowledges them and, on a rebind, replays what the peer has not confirmed.

    The mutex [e.mu] makes each critical section atomic: every definition below is one
    critical section, or a composition of critical sections in the order of the source.
    What the transport and the scheduler decide is an argument: whether a frame write
    reaches the connection ([wok]), and which ready arm a [select] takes. *)
From S2P Require Import Prelude Frame.
From stdpp Require Import base list.
From Stdlib Require Import ZArith Lia.
From Stdlib Require Import Strings.Byte.
Open Scope Z_scope.

Inductive sessErr :=
| errSendOverflow
| errRebound
| errPeer (msg : list byte)
| errTransport.

(** The state guarded by [e.mu] and the two channels: [inbound] (capacity 256) and
    [slots] (the number of tokens in the semaphore, out of [ecap]). [conn] records
    whether a transport is bound ([e.conn], [e.w]); [e.closeC] is closed exactly when
    [closed] is set. *)
Record endpoint := mkEndpoint {
  eid : sessionID;
  conn : bool;
  connGen : Z;
  sendSeq : Z;
  acked : Z;
  sendBuf : list frame;
  recvSeq : Z;
  closed : bool;
  closeErr : option sessErr;
  inbound : list (list byte);
  slots : nat;
  ecap : nat
}.

Definition defaultMaxSendFrames : nat := 1024.
Definition inboundCap : nat := 256.

Definition newEndpointCap (id : sessionID) (cap : Z) : endpoint :=
  let cap := if cap <=? 0 then defaultMaxSendFrames else Z.to_nat cap in
  mkEndpoint id false 0 0 0 [] 0 false None [] cap cap.

Definition newEndpoint (id : sessionID) : endpoint :=
  newEndpointCap id (Z.of_nat defaultMaxSendFrames).

(** Field updates. *)
Definition set_conn (b : bool) (e : endpoint) : endpoint :=
  mkEndpoint e.(eid) b e.(connGen) e.(sendSeq) e.(acked) e.(sendBuf) e.(recvSeq)
    e.(closed) e.(closeErr) e.(inbound) e.(slots) e.(ecap).
Definition set_slots (n : nat) (e : endpoint) : endpoint :=
  mkEndpoint e.(eid) e.(conn) e.(connGen) e.(sendSeq) e.(acked) e.(sendBuf) e.(recvSeq)
    e.(closed) e.(closeErr) e.(inbound) n e.(ecap).
Definition set_recvSeq (s : Z) (e : endpoint) : endpoint :=
  mkEndpoint e.(eid) e.(conn) e.(connGen) e.(sendSeq) e.(acked) e.(sendBuf) s
    e.(closed) e.(closeErr) e.(inbound) e.(slots) e.(ecap).
Definition set_inbound (l : list (list byte)) (e : endpoint) : endpoint :=
  mkEndpoint e.(eid) e.(conn) e.(connGen) e.(sendSeq) e.(acked) e.(sendBuf) e.(recvSeq)
    e.(closed) e.(closeErr) l e.(slots) e.(ecap).
Definition set_closed (err : option sessErr) (e : endpoint) : endpoint :=
  mkEndpoint e.(eid) e.(conn) e.(connGen) e.(sendSeq) e.(acked) e.(sendBuf) e.(recvSeq)
    true err e.(inbound) e.(slots) e.(ecap).
Definition bump_gen (e : endpoint) : endpoint :=
  mkEndpoint e.(eid) true (u64 (e.(connGen) + 1)) e.(sendSeq) e.(acked) e.(sendBuf)
    e.(recvSeq) e.(closed) e.(closeErr) e.(inbound) e.(slots) e.(ecap).
Definition push_send (f : frame) (e : endpoint) : endpoint :=
  mkEndpoint e.(eid) e.(conn) e.(connGen) f.(fseq) e.(acked) (e.(sendBuf) ++ [f])
    e.(recvSeq) e.(closed) e.(closeErr) e.(inbound) e.(slots) e.(ecap).

(** ** Writing on the bound connection *)

(** [writeFrameLocked]: the write succeeds when the transport accepts it and the frame
    encodes. *)
Definition writeFrameLocked (wok : bool) (f : frame) : bool :=
  wok && match writeFrame f with Ok _ => true | Err _ => false end.

#[global] Arguments writeFrameLocked : simpl never.

Definition dropConnLocked (e : endpoint) : endpoint := set_conn false e.

(** What an operation did besides changing the state. *)
Inductive event :=
| EvWrite (f : frame)          (* a frame written on the bound connection *)
| EvAfterAck                   (* the [afterAck] callback was invoked *)
| EvDeliver (p : list byte).   (* a payload pushed on the inbound channel *)

Definition writeControl (wok : bool) (f : frame) (e : endpoint) : endpoint * list event :=
  if negb e.(conn) then (e, [])
  else if writeFrameLocked wok f then (e, [EvWrite f])
  else (dropConnLocked e, []).

Definition ackFrame (s : Z) : frame := mkFrame frameAck zeroID s [].
Definition dataFrame (s : Z) (p : list byte) : frame := mkFrame frameData zeroID s p.
Definition ctlFrame (t : frameType) : frame := mkFrame t zeroID 0 [].

Definition sendAck (wok : bool) (s : Z) (e : endpoint) : endpoint * list event :=
  writeControl wok (ackFrame s) e.

(** ** Acknowledgements *)

(** How many leading frames of the buffer the cursor [upto] confirms. *)
Fixpoint confirmed (upto : Z) (buf : list frame) : nat :=
  match buf with
  | f :: buf => if f.(fseq) <=? upto then S (confirmed upto buf) else O
  | [] => O
  end.

Definition ackLocked (upto : Z) (e : endpoint) : endpoint :=
  if upto <=? e.(acked) then e
  else
    let i := confirmed upto e.(sendBuf) in
    mkEndpoint e.(eid) e.(conn) e.(connGen) e.(sendSeq) upto (drop i e.(sendBuf))
      e.(recvSeq) e.(closed) e.(closeErr) e.(inbound)
      (Nat.min e.(ecap) (e.(slots) + i)) e.(ecap).

(** ** Closing *)

(** [closeWith], inside [closeOne.Do]: only the first close has an effect. *)
Definition closeWith (err : option sessErr) (e : endpoint) : endpoint :=
  if e.(closed) then e else dropConnLocked (set_closed err e).

Definition sendClose (wok : bool) (e : endpoint) : endpoint * list event :=
  if e.(closed) then (e, [])
  else
    let e := set_closed e.(closeErr) e in
    let evs := if e.(conn) && writeFrameLocked wok (ctlFrame frameClose)
               then [EvWrite (ctlFrame frameClose)] else [] in
    (dropConnLocked e, evs).

(** ** Send *)

(** The arm taken by the two [select]s at the head of [Send]. *)
Inductive slotArm := GotSlot | SawClosed | TimedOut.

Definition slotReady (a : slotArm) (e : endpoint) : bool :=
  match a with
  | GotSlot => (0 <? e.(slots))%nat
  | SawClosed => e.(closed)
  | TimedOut => (e.(slots) =? 0)%nat && negb e.(closed)
  end.

(** [None]: the chosen arm is not ready, [Send] is still blocked. *)
Definition Send (a : slotArm) (wok : bool) (p : list byte) (e : endpoint) :
  option (result (option sessErr) unit * endpoint * list event) :=
  match p with
  | [] => Some (Ok tt, e, [])
  | _ :: _ =>
      if negb (slotReady a e) then None
      else
        match a with
        | SawClosed => Some (Err e.(closeErr), e, [])
        | TimedOut =>
            Some (Err (Some errSendOverflow), closeWith (Some errSendOverflow) e, [])
        | GotSlot =>
            let e := set_slots (e.(slots) - 1) e in
            if e.(closed) then Some (Err e.(closeErr), e, [])
            else
              let f := dataFrame (u64 (e.(sendSeq) + 1)) p in
              let e := push_send f e in
              if negb e.(conn) then Some (Ok tt, e, [])
              else if writeFrameLocked wok f then Some (Ok tt, e, [EvWrite f])
              else Some (Ok tt, dropConnLocked e, [])
        end
  end.

(** ** Binding a connection *)

(** The replay loop of [bind]: frames are written until one fails; [woks] says which
    writes the transport accepts. *)
Fixpoint replay (woks : list bool) (buf : list frame) : list event * bool :=
  match buf with
  | [] => ([], true)
  | f :: buf =>
      let '(w, woks) := match woks with [] => (false, []) | w :: woks => (w, woks) end in
      if writeFrameLocked w f then
        let '(evs, ok) := replay woks buf in (EvWrite f :: evs, ok)
      else ([], false)
  end.

Definition bind (woks : list bool) (peerRecv : Z) (e : endpoint) : endpoint * list event :=
  let e := ackLocked peerRecv e in
  let e := bump_gen e in
  let '(evs, ok) := replay woks e.(sendBuf) in
  ((if ok then e else dropConnLocked e), evs).

Definition detach (e : endpoint) : endpoint := dropConnLocked e.

(** ** The read pump *)

(** First critical section for a DATA frame: advance the cursor, or keep it. The result
    is the cursor to acknowledge and the payload to hand to the application. *)
Definition recvCommit (f : frame) (e : endpoint) : endpoint * Z * option (list byte) :=
  if f.(fseq) =? u64 (e.(recvSeq) + 1)
  then (set_recvSeq f.(fseq) e, f.(fseq), Some f.(payload))
  else (e, e.(recvSeq), None).

Inductive deliverArm := DeliverInbound | DeliverClosed.

Inductive pumpStatus :=
| PumpContinue
| PumpReturn (r : option sessErr).

(** The [select] that hands a payload to the application; [None] while it blocks. *)
Definition deliver (a : deliverArm) (p : list byte) (e : endpoint) :
  option (endpoint * list event * pumpStatus) :=
  match a with
  | DeliverInbound =>
      if (length e.(inbound) <? inboundCap)%nat
      then Some (set_inbound (e.(inbound) ++ [p]) e, [EvDeliver p], PumpContinue)
      else None
  | DeliverClosed => if e.(closed) then Some (e, [], PumpReturn e.(closeErr)) else None
  end.

(** One iteration of [pumpReader] on a decoded frame. *)
Definition pumpFrame (a : deliverArm) (wok : bool) (f : frame) (e : endpoint) :
  option (endpoint * list event * pumpStatus) :=
  if e.(closed) then Some (e, [], PumpReturn e.(closeErr))
  else
    match f.(typ) with
    | frameData =>
        let '(e, cur, dlv) := recvCommit f e in
        let '(e, evs) := sendAck wok cur e in
        match dlv with
        | None => Some (e, evs, PumpContinue)
        | Some p =>
            match deliver a p e with
            | None => None
            | Some (e, evs', st) => Some (e, evs ++ evs', st)
            end
        end
    | frameAck => Some (ackLocked f.(fseq) e, [EvAfterAck], PumpContinue)
    | framePing =>
        let '(e, evs) := writeControl wok (ctlFrame framePong) e in
        Some (e, evs, PumpContinue)
    | frameClose => Some (closeWith None e, [], PumpReturn None)
    | frameError =>
        let err := Some (errPeer f.(payload)) in
        Some (closeWith err e, [], PumpReturn err)
    | _ => Some (e, [], PumpContinue)
    end.

(** A read error: the pump of a superseded connection exits quietly. *)
Definition pumpReadError (gen : Z) (e : endpoint) : pumpStatus :=
  if e.(closed) then PumpReturn e.(closeErr)
  else if negb (e.(connGen) =? gen) then PumpReturn (Some errRebound)
  else PumpReturn (Some errTransport).

Definition recvCursor (e : endpoint) : Z := e.(recvSeq).
Definition drained (e : endpoint) : bool := e.(sendSeq) <=? e.(acked).

(** ** Bounded send buffer *)

(** The semaphore accounts for the buffer: tokens and buffered frames never exceed the
    capacity, and none is lost while the endpoint is open. *)
Definition slots_ok (e : endpoint) : Prop :=
  (length e.(sendBuf) + e.(slots) ≤ e.(ecap))%nat ∧
  (e.(closed) = false → (length e.(sendBuf) + e.(slots) = e.(ecap))%nat).

Lemma confirmed_le upto buf : (confirmed upto buf ≤ length buf)%nat.
Proof. induction buf as [|f buf]; simpl; [lia|]. case_match; lia. Qed.

Lemma slots_ok_new id cap : slots_ok (newEndpointCap id cap).
Proof. unfold slots_ok, newEndpointCap. simpl. lia. Qed.

Lemma slots_ok_ack upto e : slots_ok e → slots_ok (ackLocked upto e).
Proof.
  unfold slots_ok, ackLocked. intros [H1 H2]. case_match; [done|]. simpl.
  rewrite length_drop. pose proof (confirmed_le upto (sendBuf e)).
  split; [lia|]. intros Hc. specialize (H2 Hc). lia.
Qed.

(** The operations that touch neither the buffer nor the semaphore. *)
Definition same_buf (e e' : endpoint) : Prop :=
  e'.(sendBuf) = e.(sendBuf) ∧ e'.(slots) = e.(slots) ∧ e'.(ecap) = e.(ecap) ∧
  (e'.(closed) = false → e.(closed) = false).

Ltac solve_same_buf :=
  unfold same_buf; repeat case_match; simplify_eq/=; intuition congruence.

Lemma slots_ok_same e e' : same_buf e e' → slots_ok e → slots_ok e'.
Proof. unfold slots_ok. intros (-> & -> & -> & Hc). naive_solver. Qed.

Lemma same_buf_writeControl wok f e : same_buf e (writeControl wok f e).1.
Proof. unfold writeControl. solve_same_buf. Qed.

Lemma same_buf_closeWith err e : same_buf e (closeWith err e).
Proof. unfold closeWith. solve_same_buf. Qed.

Lemma same_buf_sendClose wok e : same_buf e (sendClose wok e).1.
Proof. unfold sendClose. solve_same_buf. Qed.

Lemma same_buf_trans e1 e2 e3 : same_buf e1 e2 → same_buf e2 e3 → same_buf e1 e3.
Proof. unfold same_buf. intuition congruence. Qed.

Lemma same_buf_recvCommit f e : same_buf e (recvCommit f e).1.1.
Proof. unfold recvCommit. solve_same_buf. Qed.

Lemma same_buf_deliver a p e r : deliver a p e = Some r → same_buf e r.1.1.
Proof.
  unfold deliver. destruct a; case_match; intros; simplify_eq; solve_same_buf.
Qed.

Lemma slots_ok_pump a wok f e r : pumpFrame a wok f e = Some r → slots_ok e → slots_ok r.1.1.
Proof.
  unfold pumpFrame. intros H Hs. case_in H; [by simplify_eq|].
  destruct (typ f); simplify_eq/=; auto using slots_ok_ack.
  - destruct (recvCommit f e) as [[e1 cur] dlv] eqn:E1.
    pose proof (same_buf_recvCommit f e) as B1. rewrite E1 in B1.
    destruct (sendAck wok cur e1) as [e2 evs] eqn:E2.
    pose proof (same_buf_writeControl wok (ackFrame cur) e1) as B2.
    unfold sendAck in E2. rewrite E2 in B2.
    destruct dlv as [p|]; [|simplify_eq; eauto using slots_ok_same, same_buf_trans].
    destruct (deliver a p e2) as [[[e3 evs'] st]|] eqn:E3; simplify_eq/=.
    apply same_buf_deliver in E3. eauto using slots_ok_same, same_buf_trans.
  - destruct (writeControl _ _ _) as [e1 evs] eqn:E. simplify_eq/=.
    pose proof (same_buf_writeControl wok (ctlFrame framePong) e) as B. rewrite E in B.
    eauto using slots_ok_same.
  - eauto using slots_ok_same, same_buf_closeWith.
  - eauto using slots_ok_same, same_buf_closeWith.
Qed.

Lemma slots_ok_send a wok p e r : Send a wok p e = Some r → slots_ok e → slots_ok r.1.2.
Proof.
  unfold Send. intros H Hs. destruct p as [|b p]; [by simplify_eq|].
  case_in H; [discriminate|]. destruct a; simpl in *; breflect.
  - destruct Hs as [H1 H2]. destruct (closed e) eqn:Hc.
    { simplify_eq/=. split; simpl; [lia|congruence]. }
    specialize (H2 eq_refl).
    assert (slots_ok (push_send (dataFrame (u64 (sendSeq e + 1)) (b :: p))
      (set_slots (slots e - 1) e))).
    { unfold slots_ok; simpl. rewrite length_app; simpl. split; intros; lia. }
    destruct (negb (conn e)); [by simplify_eq|]. case_in H; by simplify_eq.
  - by simplify_eq.
  - simplify_eq/=. eauto using slots_ok_same, same_buf_closeWith.
Qed.

Lemma slots_ok_bind woks c e : slots_ok e → slots_ok (bind woks c e).1.
Proof.
  intros H. apply (slots_ok_ack c) in H. unfold bind.
  destruct (replay woks _) as [evs []]; simpl; done.
Qed.
