(* ===== verification/Delivery.v ===== *)
(** * Delivery: two endpoints and the network between them

    The step relation composes the endpoint operations of src/session/endpoint.go the way
    [Server.Handle] and [Client.reconnectLoop] compose them. The network is adversarial
    within what the peers wrote: a frame, once written by a side, may be read by the other
    side late, never, or many times and in any order. This covers every interleaving of
    dropped, half-open, overlapping and re-established connections. *)
From S2P Require Import Prelude Frame Endpoint.
From stdpp Require Import base list.
From Stdlib Require Import ZArith Lia.
From Stdlib Require Import Strings.Byte.
Open Scope Z_scope.

(** ** The two sides *)

Inductive side := ClientSide | ServerSide.
#[export] Instance side_eq_dec : EqDecision side.
Proof. solve_decision. Defined.

Definition other (s : side) : side :=
  match s with ClientSide => ServerSide | ServerSide => ClientSide end.

Lemma other_other s : other (other s) = s.
Proof. by destruct s. Qed.
Lemma other_ne s : other s ≠ s.
Proof. by destruct s. Qed.

Definition upd {X} (s : side) (x : X) (f : side → X) : side → X :=
  λ t, if decide (t = s) then x else f t.

Lemma upd_same {X} s (x : X) f : upd s x f s = x.
Proof. unfold upd. by rewrite decide_True. Qed.
Lemma upd_other {X} s (x : X) f : upd s x f (other s) = f (other s).
Proof. unfold upd. by rewrite decide_False by apply other_ne. Qed.
Lemma upd_other' {X} s (x : X) f : upd (other s) x f s = f s.
Proof. unfold upd. rewrite decide_False; [done|]. intros H. by destruct s. Qed.

(** [net s]: every frame side [s] has written so far; [sent s]: the chunks accepted by
    [Send] on side [s]; [dlv s]: the chunks pushed on the inbound channel of [s];
    [pend s]: the chunk the pump of [s] has committed and not yet handed over. *)
Record sys := mkSys {
  ep : side → endpoint;
  net : side → list frame;
  sent : side → list (list byte);
  dlv : side → list (list byte);
  pend : side → option (list byte)
}.

Definition writes (evs : list event) : list frame :=
  omap (λ ev, match ev with EvWrite f => Some f | _ => None end) evs.

Definition set_ep (s : side) (e : endpoint) (evs : list event) (σ : sys) : sys :=
  mkSys (upd s e σ.(ep)) (upd s (σ.(net) s ++ writes evs) σ.(net))
    σ.(sent) σ.(dlv) σ.(pend).

Definition set_sent (s : side) (l : list (list byte)) (σ : sys) : sys :=
  mkSys σ.(ep) σ.(net) (upd s l σ.(sent)) σ.(dlv) σ.(pend).
Definition set_pend (s : side) (p : option (list byte)) (σ : sys) : sys :=
  mkSys σ.(ep) σ.(net) σ.(sent) σ.(dlv) (upd s p σ.(pend)).
Definition set_dlv (s : side) (l : list (list byte)) (σ : sys) : sys :=
  mkSys σ.(ep) σ.(net) σ.(sent) (upd s l σ.(dlv)) σ.(pend).

(** [Send] accepted the chunk: it took a slot on an open endpoint. *)
Definition accepted (a : slotArm) (p : list byte) (e : endpoint) : bool :=
  match p, a with
  | _ :: _, GotSlot => negb e.(closed)
  | _, _ => false
  end.

Definition attachFrame (t : frameType) (id : sessionID) (cur : Z) : frame :=
  mkFrame t id cur [].

Inductive step : sys → sys → Prop :=
(** The application sends a chunk (or is turned away). *)
| step_send s a wok p res e evs σ :
    Send a wok p (σ.(ep) s) = Some (res, e, evs) →
    step σ (set_sent s (if accepted a p (σ.(ep) s) then σ.(sent) s ++ [p] else σ.(sent) s)
             (set_ep s e evs σ))
(** The pump reads a DATA frame: it commits the cursor and acknowledges. *)
| step_data s wok f e cur d e' evs σ :
    f ∈ σ.(net) (other s) → f.(typ) = frameData →
    (σ.(ep) s).(closed) = false → σ.(pend) s = None →
    recvCommit f (σ.(ep) s) = (e, cur, d) → sendAck wok cur e = (e', evs) →
    step σ (set_pend s d (set_ep s e' evs σ))
(** The pump hands the committed chunk over, or gives up because the endpoint closed. *)
| step_deliver s a p e evs st σ :
    σ.(pend) s = Some p → deliver a p (σ.(ep) s) = Some (e, evs, st) →
    step σ (set_dlv s (σ.(dlv) s ++ match a with DeliverInbound => [p] | _ => [] end)
             (set_pend s None (set_ep s e evs σ)))
(** The pump reads any other frame. *)
| step_frame s a wok f e evs st σ :
    f ∈ σ.(net) (other s) → f.(typ) ≠ frameData → σ.(pend) s = None →
    pumpFrame a wok f (σ.(ep) s) = Some (e, evs, st) →
    step σ (set_ep s e evs σ)
(** The application takes the next inbound chunk. *)
| step_consume s p l σ :
    (σ.(ep) s).(inbound) = p :: l →
    step σ (set_ep s (set_inbound l (σ.(ep) s)) [] σ)
(** The handshake: a side writes its receive cursor in an ATTACH or ATTACH_OK ... *)
| step_attach s t σ :
    t = frameAttach ∨ t = frameAttachOK →
    step σ (set_ep s (σ.(ep) s)
      [EvWrite (attachFrame t (σ.(ep) s).(eid) (recvCursor (σ.(ep) s)))] σ)
(** ... and the peer binds its new connection with the cursor it read. *)
| step_bind s woks f e evs σ :
    f ∈ σ.(net) (other s) → f.(typ) = frameAttach ∨ f.(typ) = frameAttachOK →
    bind woks f.(fseq) (σ.(ep) s) = (e, evs) →
    step σ (set_ep s e evs σ)
(** The connection is dropped, a keepalive is written, or the session is closed. *)
| step_detach s σ : step σ (set_ep s (detach (σ.(ep) s)) [] σ)
| step_ping s wok e evs σ :
    writeControl wok (ctlFrame framePing) (σ.(ep) s) = (e, evs) →
    step σ (set_ep s e evs σ)
| step_close s err σ : step σ (set_ep s (closeWith err (σ.(ep) s)) [] σ)
| step_sendClose s wok e evs σ :
    sendClose wok (σ.(ep) s) = (e, evs) →
    step σ (set_ep s e evs σ).

Definition initial (id : sessionID) : sys :=
  mkSys (λ _, newEndpoint id) (λ _, []) (λ _, []) (λ _, []) (λ _, None).

Definition reachable (id : sessionID) (σ : sys) : Prop := star step (initial id) σ.

(** ** The invariant of one direction *)

(** The DATA frames of the chunks [l] when [k] chunks were sent before them. *)
Fixpoint numbered (k : Z) (l : list (list byte)) : list frame :=
  match l with
  | [] => []
  | p :: l => dataFrame (k + 1) p :: numbered (k + 1) l
  end.

Definition zlen {A} (l : list A) : Z := Z.of_nat (length l).

Definition is_cursor (t : frameType) : bool :=
  match t with frameAck | frameAttach | frameAttachOK => true | _ => false end.

(** From sender [S] to receiver [O]: [nS] and [nO] are what each has written, [snt] what
    [S] has accepted, [d] what [O] has delivered, [pd] what its pump is holding. *)
Record dir_inv (S O : endpoint) (nS nO : list frame) (snt d : list (list byte))
    (pd : option (list byte)) : Prop := mkDirInv {
  di_seq : S.(sendSeq) = zlen snt;
  di_acked : 0 ≤ S.(acked) ≤ O.(recvSeq);
  di_recv : O.(recvSeq) ≤ zlen snt;
  di_buf : S.(sendBuf) = numbered S.(acked) (drop (Z.to_nat S.(acked)) snt);
  di_data : ∀ f, f ∈ nS → f.(typ) = frameData → f ∈ numbered 0 snt;
  di_cursor : ∀ f, f ∈ nO → is_cursor f.(typ) = true → 0 ≤ f.(fseq) ≤ O.(recvSeq);
  di_dlv : ∃ lost, d ++ option_list pd ++ lost = take (Z.to_nat O.(recvSeq)) snt ∧
    (O.(closed) = false → lost = []) ∧ (lost ≠ [] → pd = None)
}.

Definition dir (σ : sys) (s : side) : Prop :=
  dir_inv (σ.(ep) s) (σ.(ep) (other s)) (σ.(net) s) (σ.(net) (other s))
    (σ.(sent) s) (σ.(dlv) (other s)) (σ.(pend) (other s)).

(** ** Numbered buffers *)

Lemma numbered_app k l p :
  numbered k (l ++ [p]) = numbered k l ++ [dataFrame (k + zlen l + 1) p].
Proof.
  revert k. induction l as [|q l IH]; intros k; simpl.
  - do 2 f_equal. unfold zlen. simpl. lia.
  - f_equal. rewrite IH. do 3 f_equal. unfold zlen. simpl. lia.
Qed.

Lemma numbered_drop n k l : drop n (numbered k l) = numbered (k + Z.of_nat n) (drop n l).
Proof.
  revert k l. induction n as [|n IH]; intros k [|p l]; simpl; try done.
  - by rewrite Z.add_0_r.
  - rewrite IH. f_equal. lia.
Qed.

Lemma elem_of_numbered f k l :
  f ∈ numbered k l ↔ ∃ i p, l !! i = Some p ∧ f = dataFrame (k + Z.of_nat i + 1) p.
Proof.
  revert k. induction l as [|q l IH]; intros k; simpl.
  - rewrite elem_of_nil. split; [done|]. by intros (i & p & ? & _).
  - rewrite elem_of_cons, IH. split.
    + intros [->|(i & p & Hi & ->)].
      * exists 0%nat, q. split; [done|]. f_equal. lia.
      * exists (S i), p. split; [done|]. f_equal. lia.
    + intros ([|i] & p & Hi & ->); simplify_eq/=.
      * left. f_equal. lia.
      * right. exists i, p. split; [done|]. f_equal. lia.
Qed.

Lemma numbered_payload k l : payload <$> numbered k l = l.
Proof. revert k. induction l; intros; simpl; [done|]. by f_equal. Qed.

Lemma confirmed_numbered c k l :
  0 ≤ c - k ≤ zlen l → confirmed c (numbered k l) = Z.to_nat (c - k).
Proof.
  unfold zlen. revert k. induction l as [|p l IH]; intros k H; simpl in *; [lia|].
  destruct (Z.leb_spec (k + 1) c).
  - rewrite IH by lia. lia.
  - lia.
Qed.

Lemma sendBuf_numbered S O nS nO snt d pd f :
  dir_inv S O nS nO snt d pd → f ∈ S.(sendBuf) → f ∈ numbered 0 snt.
Proof.
  intros [_ Ha Hr Hb _ _ _]. rewrite Hb, !elem_of_numbered.
  intros (i & p & Hi & ->). rewrite lookup_drop in Hi.
  eexists _, p. split; [done|]. f_equal. lia.
Qed.

(** ** Preservation, from the sender's side *)

Section Sender.
Context {S O : endpoint} {nS nO : list frame} {snt d : list (list byte)}
  {pd : option (list byte)} (I : dir_inv S O nS nO snt d pd).

Lemma dir_S_same S' ws :
  S'.(sendSeq) = S.(sendSeq) → S'.(acked) = S.(acked) → S'.(sendBuf) = S.(sendBuf) →
  (∀ f, f ∈ ws → f.(typ) = frameData → f ∈ S.(sendBuf)) →
  dir_inv S' O (nS ++ ws) nO snt d pd.
Proof.
  intros E1 E2 E3 Hw. pose proof (λ f, sendBuf_numbered _ _ _ _ _ _ _ f I) as Hb.
  destruct I as [H1 H2 H3 H4 H5 H6 H7].
  constructor; rewrite ?E1, ?E2, ?E3; try done.
  intros f [Hf|Hf]%elem_of_app Ht; eauto.
Qed.

Lemma dir_S_ack c :
  0 ≤ c ≤ O.(recvSeq) → dir_inv (ackLocked c S) O nS nO snt d pd.
Proof.
  intros Hc. unfold ackLocked. destruct (Z.leb_spec c (acked S)) as [|Hlt]; [done|].
  destruct I as [H1 H2 H3 H4 H5 H6 H7].
  constructor; simpl; try done; try lia.
  rewrite H4, confirmed_numbered.
  - rewrite numbered_drop, drop_drop. f_equal; [lia|]. f_equal. lia.
  - unfold zlen in *. rewrite length_drop. lia.
Qed.

Lemma dir_S_send S' ws p :
  zlen (snt ++ [p]) < 2 ^ 64 →
  S'.(sendSeq) = u64 (S.(sendSeq) + 1) → S'.(acked) = S.(acked) →
  S'.(sendBuf) = S.(sendBuf) ++ [dataFrame (u64 (S.(sendSeq) + 1)) p] →
  (∀ f, f ∈ ws → f = dataFrame (u64 (S.(sendSeq) + 1)) p) →
  dir_inv S' O (nS ++ ws) nO (snt ++ [p]) d pd.
Proof.
  intros Hlen E1 E2 E3 Hw. destruct I as [H1 H2 H3 H4 H5 H6 H7].
  assert (Hz : zlen (snt ++ [p]) = zlen snt + 1)
    by (unfold zlen; rewrite length_app; simpl; lia).
  assert (Hu : u64 (sendSeq S + 1) = zlen snt + 1).
  { rewrite H1. apply u64_small. unfold is_u64, zlen in *. lia. }
  rewrite Hu in *. constructor; rewrite ?E1, ?E2, ?E3; try lia.
  - rewrite H4, drop_app_le by (unfold zlen in *; lia).
    rewrite numbered_app. do 3 f_equal. unfold zlen in *. rewrite length_drop. lia.
  - intros f [Hf|Hf]%elem_of_app Ht; rewrite numbered_app, elem_of_app.
    + left. auto.
    + right. apply Hw in Hf as ->. rewrite Z.add_0_l. by apply list_elem_of_singleton.
  - done.
  - rewrite take_app_le by (unfold zlen in *; lia). done.
Qed.

(** Everything the receiver lacks is still in the sender's buffer. *)
Lemma dir_S_missing :
  drop (Z.to_nat (O.(recvSeq) - S.(acked))) S.(sendBuf) =
    numbered O.(recvSeq) (drop (Z.to_nat O.(recvSeq)) snt).
Proof.
  destruct I as [H1 H2 H3 H4 H5 H6 H7].
  rewrite H4, numbered_drop, drop_drop. f_equal; [lia|]. f_equal. lia.
Qed.
End Sender.

(** ** Preservation, from the receiver's side *)

Section Receiver.
Context {S O : endpoint} {nS nO : list frame} {snt d : list (list byte)}
  {pd : option (list byte)} (I : dir_inv S O nS nO snt d pd).

Lemma dir_O_same O' ws :
  O'.(recvSeq) = O.(recvSeq) → (O'.(closed) = false → O.(closed) = false) →
  (∀ f, f ∈ ws → is_cursor f.(typ) = true → f.(fseq) = O.(recvSeq)) →
  dir_inv S O' nS (nO ++ ws) snt d pd.
Proof.
  intros E1 E2 Hw. destruct I as [H1 H2 H3 H4 H5 H6 (lost & H7 & H8 & H9)].
  constructor; rewrite ?E1; try done.
  - intros f [Hf|Hf]%elem_of_app Ht; [eauto|]. rewrite (Hw f) by done. lia.
  - exists lost. auto.
Qed.

Lemma dir_O_commit f O' c pd' :
  zlen snt < 2 ^ 64 → pd = None → O.(closed) = false →
  f ∈ nS → f.(typ) = frameData → recvCommit f O = (O', c, pd') →
  dir_inv S O' nS nO snt d pd' ∧ c = O'.(recvSeq).
Proof.
  intros Hlen -> Hcl Hf Ht. unfold recvCommit.
  pose proof (di_data _ _ _ _ _ _ _ I f Hf Ht) as (i & p & Hi & ->)%elem_of_numbered.
  destruct I as [H1 H2 H3 H4 H5 H6 (lost & H7 & H8 & H9)].
  pose proof (lookup_lt_Some _ _ _ Hi) as Hlt. simpl.
  case_match eqn:E; intros; simplify_eq; breflect; [|split; [|done]; constructor; eauto].
  assert (Hr : recvSeq O = Z.of_nat i).
  { destruct (decide (recvSeq O + 1 = 2 ^ 64)) as [Hw|Hw].
    - rewrite Hw in E. change (u64 (2 ^ 64)) with 0 in E. lia.
    - rewrite u64_small in E by (unfold is_u64, zlen in *; lia). lia. }
  split; [|done]. simpl. constructor; simpl; try done; try (unfold zlen in *; lia).
  - intros g Hg Hc. specialize (H6 g Hg Hc). lia.
  - exists []. rewrite H8 in H7 by done. simpl in H7. rewrite !app_nil_r in *.
    rewrite Hr in H7. rewrite Nat2Z.id in H7.
    replace (Z.to_nat (0 + Z.of_nat i + 1)) with (Datatypes.S i) by lia.
    rewrite (take_S_r _ _ p Hi), H7. naive_solver.
Qed.

Lemma dir_O_deliver a p O' evs st :
  pd = Some p → deliver a p O = Some (O', evs, st) →
  dir_inv S O' nS (nO ++ writes evs) snt
    (d ++ match a with DeliverInbound => [p] | _ => [] end) None.
Proof.
  intros -> Hd. destruct I as [H1 H2 H3 H4 H5 H6 (lost & H7 & H8 & H9)].
  assert (lost = []) as -> by (destruct lost; [done|]; discriminate H9; done).
  unfold deliver in Hd. destruct a; case_in Hd; simplify_eq;
    (constructor; simpl; rewrite ?app_nil_r; try done).
  - exists []. simpl in *. rewrite !app_nil_r. split; [|done].
    by rewrite <- H7.
  - exists [p]. simpl in *. split; [done|]. split; [congruence|done].
Qed.
End Receiver.

(** ** Preservation by every step *)

(** The operations that leave the cursors and the buffer alone. *)
Definition same_core (e e' : endpoint) : Prop :=
  e'.(sendSeq) = e.(sendSeq) ∧ e'.(acked) = e.(acked) ∧ e'.(sendBuf) = e.(sendBuf) ∧
  e'.(recvSeq) = e.(recvSeq) ∧ (e'.(closed) = false → e.(closed) = false).

Ltac solve_core := unfold same_core; repeat case_match; simplify_eq/=; intuition congruence.

Lemma writeControl_core wok f e e' evs :
  writeControl wok f e = (e', evs) → same_core e e' ∧ (∀ g, g ∈ writes evs → g = f).
Proof.
  unfold writeControl. intros H. repeat (case_in H); simplify_eq/=;
    (split; [solve_core|]); intros g; rewrite ?elem_of_nil, ?list_elem_of_singleton; done.
Qed.

Lemma closeWith_core err e : same_core e (closeWith err e).
Proof. unfold closeWith. solve_core. Qed.

Lemma sendClose_core wok e e' evs :
  sendClose wok e = (e', evs) →
  same_core e e' ∧ (∀ g, g ∈ writes evs → g = ctlFrame frameClose).
Proof.
  unfold sendClose. intros H. repeat (case_in H); simplify_eq/=;
    (split; [solve_core|]); intros g; rewrite ?elem_of_nil, ?list_elem_of_singleton; done.
Qed.

Lemma replay_writes woks buf evs ok f :
  replay woks buf = (evs, ok) → f ∈ writes evs → f ∈ buf.
Proof.
  revert woks evs ok. induction buf as [|g buf IH]; intros woks evs ok H Hf; simpl in *.
  - simplify_eq/=. by apply elem_of_nil in Hf.
  - destruct (match woks with [] => _ | _ => _ end) as [w woks'].
    case_in H; [|simplify_eq/=; by apply elem_of_nil in Hf].
    destruct (replay woks' buf) as [evs' ok'] eqn:E. simplify_eq/=.
    apply elem_of_cons in Hf as [->|Hf]; [by left|right]. eauto.
Qed.

Lemma bind_core woks c e e' evs :
  bind woks c e = (e', evs) →
  same_core (ackLocked c e) e' ∧ (∀ g, g ∈ writes evs → g ∈ (ackLocked c e).(sendBuf)).
Proof.
  unfold bind. intros H. destruct (replay _ _) as [evs' ok] eqn:E. simplify_eq.
  split; [|intros g Hg; by eapply (replay_writes _ _ _ _ g E)].
  destruct ok; unfold same_core; simpl; done.
Qed.

Lemma Send_rejected a wok p e r e' evs :
  Send a wok p e = Some (r, e', evs) → accepted a p e = false →
  same_core e e' ∧ writes evs = [].
Proof.
  unfold Send, accepted. intros H Ha. destruct p; [simplify_eq; by repeat split|].
  case_in H; [discriminate|]. destruct a; simplify_eq/=.
  - apply negb_false_iff in Ha. rewrite Ha in H. simplify_eq/=. split; [|done].
    solve_core.
  - by repeat split.
  - split; [apply closeWith_core|done].
Qed.

Lemma Send_accepted a wok p e r e' evs :
  Send a wok p e = Some (r, e', evs) → accepted a p e = true →
  let f := dataFrame (u64 (e.(sendSeq) + 1)) p in
  e'.(sendSeq) = u64 (e.(sendSeq) + 1) ∧ e'.(acked) = e.(acked) ∧
  e'.(sendBuf) = e.(sendBuf) ++ [f] ∧ e'.(recvSeq) = e.(recvSeq) ∧
  e'.(closed) = e.(closed) ∧ (∀ g, g ∈ writes evs → g = f).
Proof.
  unfold Send, accepted. intros H Ha. destruct p as [|b p]; [done|].
  destruct a; try done. case_in H; [discriminate|].
  apply negb_true_iff in Ha. simpl in H. rewrite Ha in H.
  repeat (case_in H); simplify_eq/=; repeat split; try done;
    intros g; rewrite ?elem_of_nil, ?list_elem_of_singleton; done.
Qed.

Lemma pumpFrame_core a wok f e e' evs st :
  pumpFrame a wok f e = Some (e', evs, st) → f.(typ) ≠ frameData →
  ((∃ e0, (f.(typ) = frameAck ∧ e0 = ackLocked f.(fseq) e ∨ e0 = e) ∧ same_core e0 e')) ∧
  (∀ g, g ∈ writes evs → g = ctlFrame framePong).
Proof.
  unfold pumpFrame. intros H Hne. case_in H; [simplify_eq/=|].
  { split; [eexists; split; [by right|by repeat split]|].
    intros g. by rewrite elem_of_nil. }
  destruct (typ f) eqn:Et; try done; simplify_eq/=.
  all: try (destruct (writeControl _ _ _) as [e1 evs1] eqn:E;
            apply writeControl_core in E as [? ?]; simplify_eq;
            split; [eexists; split; [by right|done]|done]).
  all: split; [|intros g; by rewrite elem_of_nil].
  all: try (eexists; split; [by right|]; first [apply closeWith_core|by repeat split]).
  eexists; split; [by left|by repeat split].
Qed.

(** Both directions hold, provided fewer than [2^64] chunks were ever sent. *)
Definition inv (σ : sys) : Prop :=
  (∀ s, zlen (σ.(sent) s) < 2 ^ 64) → ∀ s, dir σ s.

(** The endpoint of [s] moves to a state with the same core and writes frames that are
    data of its own buffer or a copy of its receive cursor. *)
Lemma dir_step s e evs σ :
  (∀ t, dir σ t) → same_core (σ.(ep) s) e →
  (∀ f, f ∈ writes evs → f.(typ) = frameData → f ∈ (σ.(ep) s).(sendBuf)) →
  (∀ f, f ∈ writes evs → is_cursor f.(typ) = true → f.(fseq) = (σ.(ep) s).(recvSeq)) →
  ∀ t, dir (set_ep s e evs σ) t.
Proof.
  intros I (E1 & E2 & E3 & E4 & E5) Hd Hc t. unfold dir, set_ep. simpl.
  destruct (decide (t = s)) as [->|Hts].
  - rewrite !upd_same, !upd_other. eapply dir_S_same; eauto. apply I.
  - assert (t = other s) as -> by (by destruct t, s).
    rewrite !other_other, !upd_same, !upd_other.
    pose proof (I (other s)) as J. unfold dir in J. rewrite other_other in J.
    eapply dir_O_same; eauto.
Qed.

Lemma ackLocked_recv c e : (ackLocked c e).(recvSeq) = e.(recvSeq).
Proof. unfold ackLocked. by case_match. Qed.
Lemma ackLocked_closed c e : (ackLocked c e).(closed) = e.(closed).
Proof. unfold ackLocked. by case_match. Qed.

(** An acknowledgement of the receive cursor of the peer is absorbed. *)
Lemma dir_ack s c σ :
  (∀ t, dir σ t) → 0 ≤ c ≤ (σ.(ep) (other s)).(recvSeq) →
  ∀ t, dir (set_ep s (ackLocked c (σ.(ep) s)) [] σ) t.
Proof.
  intros I Hc t. unfold dir, set_ep. simpl.
  destruct (decide (t = s)) as [->|Hts].
  - rewrite !upd_same, !upd_other, app_nil_r. apply dir_S_ack; [apply I|done].
  - assert (t = other s) as -> by (by destruct t, s).
    rewrite !other_other, !upd_same, !upd_other, app_nil_r.
    pose proof (I (other s)) as J. unfold dir in J. rewrite other_other in J.
    rewrite <- (app_nil_r (net σ s)).
    eapply dir_O_same; [done|apply ackLocked_recv| |].
    + by rewrite ackLocked_closed.
    + intros f. by rewrite elem_of_nil.
Qed.

Lemma set_ep_twice s e1 e2 evs σ : 
  (∀ t, dir (set_ep s e2 evs (set_ep s e1 [] σ)) t) → ∀ t, dir (set_ep s e2 evs σ) t.
Proof.
  intros I t. specialize (I t). unfold dir, set_ep, upd in *. simpl in *.
  repeat case_decide; simplify_eq; rewrite ?app_nil_r in I; done.
Qed.

Ltac no_frames := intros ?f; rewrite elem_of_nil; done.

Lemma dir_after_ack s c e evs σ :
  (∀ t, dir σ t) → 0 ≤ c ≤ (σ.(ep) (other s)).(recvSeq) →
  same_core (ackLocked c (σ.(ep) s)) e →
  (∀ f, f ∈ writes evs → f ∈ (ackLocked c (σ.(ep) s)).(sendBuf) ∨
     f.(typ) ≠ frameData ∧ is_cursor f.(typ) = false) →
  ∀ t, dir (set_ep s e evs σ) t.
Proof.
  intros I Hc Hcore Hw. apply (set_ep_twice s (ackLocked c (ep σ s))).
  pose proof (dir_ack s c σ I Hc) as J.
  apply dir_step; [done|simpl; by rewrite upd_same| |]; simpl; rewrite upd_same.
  - intros f Hf Ht. destruct (Hw f Hf) as [?|[? _]]; done.
  - intros f Hf Ht. destruct (Hw f Hf) as [Hb|[_ ?]]; [|congruence].
    exfalso. pose proof (J s) as Js. unfold dir, set_ep in Js. simpl in Js.
    rewrite !upd_same in Js.
    pose proof (sendBuf_numbered _ _ _ _ _ _ _ f Js Hb) as (? & ? & _ & ->)%elem_of_numbered.
    done.
Qed.

(** Case analysis on which direction [t] a step of side [s] is seen from. *)
Ltac by_direction t s I :=
  destruct (decide (t = s)) as [->|Hts];
  [ rewrite ?upd_same, ?upd_other; pose proof (I s) as J; unfold dir in J
  | assert (t = other s) as -> by (by destruct t, s);
    rewrite ?other_other, ?upd_same, ?upd_other;
    pose proof (I (other s)) as J; unfold dir in J; rewrite other_other in J ].

Lemma dir_send s a wok p r e evs σ :
  (∀ t, dir σ t) → Send a wok p (σ.(ep) s) = Some (r, e, evs) →
  accepted a p (σ.(ep) s) = true → zlen (σ.(sent) s ++ [p]) < 2 ^ 64 →
  ∀ t, dir (set_sent s (σ.(sent) s ++ [p]) (set_ep s e evs σ)) t.
Proof.
  intros I HS Ha Hlen t.
  apply Send_accepted in HS as (E1 & E2 & E3 & E4 & E5 & Hw); [|done].
  unfold dir; simpl. by_direction t s I.
  - by eapply dir_S_send.
  - eapply dir_O_same; [done|done|by rewrite E5|].
    intros f Hf. by apply Hw in Hf as ->.
Qed.

Lemma dir_commit s wok f e cur d e' evs σ :
  (∀ t, dir σ t) → zlen (σ.(sent) (other s)) < 2 ^ 64 →
  f ∈ σ.(net) (other s) → f.(typ) = frameData →
  (σ.(ep) s).(closed) = false → σ.(pend) s = None →
  recvCommit f (σ.(ep) s) = (e, cur, d) → sendAck wok cur e = (e', evs) →
  ∀ t, dir (set_pend s d (set_ep s e' evs σ)) t.
Proof.
  intros I Hlen Hf Ht Hcl Hp Hr Hk t.
  apply writeControl_core in Hk as [(E1 & E2 & E3 & E4 & E5) Hw].
  unfold dir; simpl. by_direction t s I.
  - unfold recvCommit in Hr. case_in Hr; simplify_eq/=;
      (eapply dir_S_same; [done|done|done|done|]);
      intros g Hg; by apply Hw in Hg as ->.
  - destruct (dir_O_commit J f e cur d) as [J' ->]; try done.
    eapply dir_O_same; [done|done|done|].
    intros g Hg. by apply Hw in Hg as ->.
Qed.

Lemma dir_deliver s a p e evs st σ :
  (∀ t, dir σ t) → σ.(pend) s = Some p → deliver a p (σ.(ep) s) = Some (e, evs, st) →
  ∀ t, dir (set_dlv s (σ.(dlv) s ++ match a with DeliverInbound => [p] | _ => [] end)
    (set_pend s None (set_ep s e evs σ))) t.
Proof.
  intros I Hp Hd t. unfold dir; simpl. by_direction t s I.
  - unfold deliver in Hd. destruct a; case_in Hd; simplify_eq/=;
      (eapply dir_S_same; [done|done|done|done|no_frames]).
  - by eapply dir_O_deliver.
Qed.

Lemma dir_frame s a wok f e evs st σ :
  (∀ t, dir σ t) → f ∈ σ.(net) (other s) → f.(typ) ≠ frameData →
  pumpFrame a wok f (σ.(ep) s) = Some (e, evs, st) →
  ∀ t, dir (set_ep s e evs σ) t.
Proof.
  intros I Hf Ht Hp.
  apply pumpFrame_core in Hp as [(e0 & [[Hk ->]| ->] & Hc) Hw]; [| |done].
  - eapply dir_after_ack; [done| |done|].
    + apply (di_cursor _ _ _ _ _ _ _ (I s) f Hf). by rewrite Hk.
    + intros g Hg. right. by apply Hw in Hg as ->.
  - apply dir_step; [done|done| |]; intros g Hg; by apply Hw in Hg as ->.
Qed.

Lemma dir_set_sent s σ : (∀ t, dir σ t) → ∀ t, dir (set_sent s (σ.(sent) s) σ) t.
Proof. intros I t. specialize (I t). unfold dir in *; simpl. unfold upd. by case_decide; subst. Qed.

Lemma step_preserves_inv σ σ' : step σ σ' → inv σ → inv σ'.
Proof.
  intros Hs I Hlen.
  assert (Hpre : ∀ t, zlen (sent σ t) < 2 ^ 64).
  { intros t. specialize (Hlen t). destruct Hs; simpl in *; try done.
    unfold upd in Hlen. case_decide; [subst|done]. case_match; [|done].
    unfold zlen in *. rewrite length_app in Hlen. simpl in *. lia. }
  specialize (I Hpre). destruct Hs.
  - specialize (Hlen s). simpl in Hlen. rewrite upd_same in Hlen.
    destruct (accepted _ _ _) eqn:Ha; [by eapply dir_send|].
    apply (dir_set_sent s (set_ep s e evs σ)).
    eapply Send_rejected in H as [Hc Hw]; [|done].
    apply dir_step; [done|done| |]; rewrite Hw; no_frames.
  - by eapply dir_commit.
  - by eapply dir_deliver.
  - by eapply dir_frame.
  - apply dir_step; [done|by repeat split| |]; no_frames.
  - apply dir_step; [done|by repeat split| |]; simpl; intros f;
      rewrite list_elem_of_singleton; intros ->; naive_solver.
  - apply bind_core in H1 as [Hc Hw]. eapply dir_after_ack; [done| |done|by auto].
    apply (di_cursor _ _ _ _ _ _ _ (I s) f H). by destruct H0 as [-> | ->].
  - apply dir_step; [done|by repeat split| |]; no_frames.
  - apply writeControl_core in H as [Hc Hw].
    apply dir_step; [done|done| |]; intros g Hg; by apply Hw in Hg as ->.
  - apply dir_step; [done|apply closeWith_core| |]; no_frames.
  - apply sendClose_core in H as [Hc Hw].
    apply dir_step; [done|done| |]; intros g Hg; by apply Hw in Hg as ->.
Qed.

Lemma inv_initial id : inv (initial id).
Proof.
  intros _ s. unfold dir. simpl. constructor; simpl; try done; try no_frames.
  by exists [].
Qed.

Lemma reachable_dir id σ :
  reachable id σ → (∀ s, zlen (σ.(sent) s) < 2 ^ 64) → ∀ s, dir σ s.
Proof.
  intros Hr. apply (star_invariant step inv step_preserves_inv _ _ Hr), inv_initial.
Qed.

(** ** Recovery: one clean reconnect delivers everything *)

Definition chunks_fit (l : list (list byte)) : Prop := Forall (λ p, len p ≤ maxPayload) l.

Lemma numbered_writable k l :
  chunks_fit l → Forall (λ f, writeFrameLocked true f = true) (numbered k l).
Proof.
  intros H. revert k. induction H as [|p l Hp _ IH]; intros k; constructor; [|done].
  unfold writeFrameLocked, writeFrame, dataFrame. simpl.
  by rewrite (proj2 (Z.ltb_ge _ _) Hp).
Qed.

Lemma replay_all buf :
  Forall (λ f, writeFrameLocked true f = true) buf →
  replay (replicate (length buf) true) buf = (EvWrite <$> buf, true).
Proof. induction 1 as [|f buf Hf _ IH]; simpl; [done|]. by rewrite Hf, IH. Qed.

Lemma writes_fmap buf : writes (EvWrite <$> buf) = buf.
Proof. unfold writes. induction buf; simpl; [done|]. by f_equal. Qed.

(** A bind that writes every frame it replays. *)
Lemma bind_clean c e l k :
  (ackLocked c e).(sendBuf) = numbered k l → chunks_fit l →
  bind (replicate (length l) true) c e =
    (bump_gen (ackLocked c e), EvWrite <$> numbered k l).
Proof.
  intros Hb Hl. unfold bind. simpl. rewrite Hb.
  assert (length l = length (numbered k l)) as -> by
    (clear; revert k; induction l; intros; simpl; auto).
  by rewrite replay_all by (by apply numbered_writable).
Qed.

(** The state of a session in which the receiver [other s] can be brought up to date
    with what [s] has sent: both endpoints are open and idle, the receiver is connected,
    the missing frames are on the wire and the last cursor is confirmed or on the wire. *)
Record ready (s : side) (snt : list (list byte)) (σ : sys) : Prop := mkReady {
  rd_dir : ∀ t, dir σ t;
  rd_len : ∀ t, zlen (σ.(sent) t) < 2 ^ 64;
  rd_sent : σ.(sent) s = snt;
  rd_open : ∀ t, (σ.(ep) t).(closed) = false;
  rd_pend : ∀ t, σ.(pend) t = None;
  rd_conn : (σ.(ep) (other s)).(conn) = true;
  rd_net : ∀ f, f ∈ numbered (σ.(ep) (other s)).(recvSeq)
             (drop (Z.to_nat (σ.(ep) (other s)).(recvSeq)) snt) → f ∈ σ.(net) s;
  rd_ack : (σ.(ep) s).(acked) = (σ.(ep) (other s)).(recvSeq) ∨
           ackFrame (σ.(ep) (other s)).(recvSeq) ∈ σ.(net) (other s)
}.

Definition missing (s : side) (σ : sys) : nat :=
  Z.to_nat (zlen (σ.(sent) s) - (σ.(ep) (other s)).(recvSeq)).

(** The application on the receiving side takes what is queued. *)
Lemma drain_inbound s snt n σ :
  ready s snt σ → length (σ.(ep) (other s)).(inbound) = n →
  ∃ σ', star step σ σ' ∧ ready s snt σ' ∧ missing s σ' = missing s σ ∧
    (σ'.(ep) (other s)).(inbound) = [].
Proof.
  revert σ. induction n as [|n IH]; intros σ R Hn.
  { exists σ. split; [constructor|]. by destruct (inbound _). }
  destruct (inbound (ep σ (other s))) as [|p l] eqn:Hi; [done|].
  set (σ1 := set_ep (other s) (set_inbound l (ep σ (other s))) [] σ).
  assert (Hst : step σ σ1) by by eapply step_consume.
  assert (R1 : ready s snt σ1).
  { pose proof (step_preserves_inv _ _ Hst (λ _, rd_dir _ _ _ R) (rd_len _ _ _ R)) as D.
    destruct R as [R1 R2 R3 R4 R5 R6 R7 R8].
    split; try done; unfold σ1; simpl.
    - intros t. specialize (R4 t). unfold upd. case_decide; [subst|]; done.
    - by rewrite upd_same.
    - rewrite upd_same, upd_other'. exact R7.
    - rewrite !upd_same, upd_other', app_nil_r. exact R8. }
  destruct (IH σ1 R1) as (σ2 & S2 & R2 & M2 & I2).
  { unfold σ1; simpl. rewrite upd_same. simpl in *. lia. }
  exists σ2. split; [by econstructor|]. split; [done|]. split; [|done].
  rewrite M2. unfold missing, σ1; simpl. by rewrite upd_same.
Qed.

(** One missing chunk is received, acknowledged and delivered. *)
Lemma deliver_one s snt σ :
  ready s snt σ → (σ.(ep) (other s)).(inbound) = [] → (0 < missing s σ)%nat →
  ∃ σ', star step σ σ' ∧ ready s snt σ' ∧ S (missing s σ') = missing s σ.
Proof.
  intros R Hi Hm. set (o := other s). set (O := ep σ o).
  pose proof (rd_dir _ _ _ R s) as D. unfold dir in D. fold o O in D.
  pose proof (rd_len _ _ _ R s) as Hlen.
  assert (Hrange : 0 ≤ recvSeq O < zlen snt).
  { pose proof (di_acked _ _ _ _ _ _ _ D). pose proof (di_recv _ _ _ _ _ _ _ D).
    rewrite (rd_sent _ _ _ R) in *. unfold missing in Hm. fold o O in Hm.
    rewrite (rd_sent _ _ _ R) in Hm. lia. }
  rewrite (rd_sent _ _ _ R) in Hlen.
  destruct (lookup_lt_is_Some_2 snt (Z.to_nat (recvSeq O))) as [p Hp].
  { unfold zlen in *. lia. }
  set (f := dataFrame (recvSeq O + 1) p).
  assert (Hf : f ∈ net σ s).
  { apply (rd_net _ _ _ R). fold o O. apply elem_of_numbered.
    exists 0%nat, p. rewrite lookup_drop, Nat.add_0_r. split; [done|].
    unfold f. f_equal. lia. }
  set (O1 := set_recvSeq (recvSeq O + 1) O).
  assert (Hc : recvCommit f O = (O1, recvSeq O + 1, Some p)).
  { unfold recvCommit. simpl. rewrite u64_small by (unfold is_u64; lia).
    by rewrite Z.eqb_refl. }
  assert (Hk : sendAck true (recvSeq O + 1) O1 = (O1, [EvWrite (ackFrame (recvSeq O + 1))])).
  { unfold sendAck, writeControl. change (conn O1) with (conn (ep σ (other s))).
    by rewrite (rd_conn _ _ _ R). }
  set (σ1 := set_pend o (Some p) (set_ep o O1 [EvWrite (ackFrame (recvSeq O + 1))] σ)).
  assert (S1 : step σ σ1).
  { eapply (step_data o true f); [|done|apply R|apply R|exact Hc|exact Hk].
    unfold o. by rewrite other_other. }
  set (O2 := set_inbound (inbound O1 ++ [p]) O1).
  set (σ2 := set_dlv o (dlv σ1 o ++ [p]) (set_pend o None (set_ep o O2 [EvDeliver p] σ1))).
  assert (Hroom : (length (inbound O1) <? inboundCap)%nat = true).
  { change (inbound O1) with (inbound (ep σ (other s))). by rewrite Hi. }
  assert (S2 : step σ1 σ2).
  { eapply (step_deliver o DeliverInbound p); unfold σ1; simpl; rewrite upd_same; [done|].
    unfold deliver. by rewrite Hroom. }
  exists σ2. split; [by eapply star_step, star_one|].
  assert (Eo : ep σ2 o = O2) by (simpl; by rewrite upd_same).
  assert (Es : ep σ2 s = ep σ s) by (simpl; unfold o; by rewrite !upd_other').
  assert (Enet : net σ2 s = net σ s) by (simpl; unfold o; by rewrite !upd_other').
  split; [|unfold missing; fold o; rewrite Eo; unfold missing in Hm; fold o O in Hm |- *;
           simpl in *; lia].
  split; fold o; rewrite ?Eo, ?Es, ?Enet; try done.
  - apply (step_preserves_inv _ _ S2); [|apply R].
    apply (step_preserves_inv _ _ S1). intros _. apply R.
  - apply R.
  - apply R.
  - intros t. simpl. unfold upd. destruct (decide (t = o)); apply R.
  - intros t. simpl. unfold upd. destruct (decide (t = o)); [done|apply R].
  - apply R.
  - intros g Hg. apply (rd_net _ _ _ R). fold o O. simpl in Hg.
    apply elem_of_numbered in Hg as (i & q & Hq & ->). apply elem_of_numbered.
    exists (Datatypes.S i), q. rewrite lookup_drop in *. split; [rewrite <- Hq; f_equal; lia|].
    f_equal. lia.
  - right. simpl. rewrite !upd_same. simpl. rewrite app_nil_r.
    apply elem_of_app. right. by apply list_elem_of_singleton.
Qed.

Lemma catch_up s snt n σ :
  ready s snt σ → missing s σ = n →
  ∃ σ', star step σ σ' ∧ ready s snt σ' ∧ missing s σ' = 0%nat.
Proof.
  revert σ. induction n as [|n IH]; intros σ R Hn.
  { exists σ. split; [constructor|done]. }
  destruct (drain_inbound s snt _ σ R eq_refl) as (σ1 & S1 & R1 & M1 & I1).
  destruct (deliver_one s snt σ1 R1 I1) as (σ2 & S2 & R2 & M2); [lia|].
  destruct (IH σ2 R2) as (σ3 & S3 & R3 & M3); [lia|].
  exists σ3. split; [|done]. eauto using star_trans.
Qed.

(** When nothing is missing the receiver has delivered every chunk, and the sender learns
    it from the last acknowledgement. *)
Lemma confirm_all s snt σ :
  ready s snt σ → missing s σ = 0%nat →
  ∃ σ', star step σ σ' ∧ σ'.(sent) = σ.(sent) ∧ σ'.(dlv) (other s) = snt ∧
    drained (σ'.(ep) s) = true.
Proof.
  intros R Hm. pose proof (rd_dir _ _ _ R s) as D. unfold dir in D.
  pose proof (rd_sent _ _ _ R) as Hs. rewrite Hs in D.
  assert (Hfull : recvSeq (ep σ (other s)) = zlen snt).
  { pose proof (di_recv _ _ _ _ _ _ _ D). unfold missing in Hm. rewrite Hs in Hm. lia. }
  assert (Hd : dlv σ (other s) = snt).
  { destruct (di_dlv _ _ _ _ _ _ _ D) as (lost & E & Ho & _).
    rewrite (Ho (rd_open _ _ _ R _)), (rd_pend _ _ _ R) in E. simpl in E.
    rewrite app_nil_r in E. rewrite E, Hfull. apply take_ge. unfold zlen. lia. }
  pose proof (di_seq _ _ _ _ _ _ _ D) as Hseq.
  destruct (rd_ack _ _ _ R) as [Ha|Ha]; rewrite Hfull in Ha.
  { exists σ. split; [constructor|]. split; [done|]. split; [done|].
    unfold drained. rewrite Ha, Hseq. apply Z.leb_refl. }
  eexists. split; [apply star_one|].
  - eapply (step_frame s DeliverClosed true (ackFrame (zlen snt))); [done|done|apply R|].
    unfold pumpFrame. by rewrite (rd_open _ _ _ R).
  - simpl. split; [done|]. split; [done|]. rewrite upd_same.
    unfold drained, ackLocked. simpl. case_match; simpl; rewrite Hseq; [done|].
    apply Z.leb_refl.
Qed.

(** The handshake: each side writes its cursor, then each side binds with the other's. *)
Lemma attach_bind s woks σ e evs :
  bind woks (recvCursor (σ.(ep) (other s))) (σ.(ep) s) = (e, evs) →
  star step σ (set_ep s e evs (set_ep (other s) (σ.(ep) (other s))
    [EvWrite (attachFrame frameAttach (σ.(ep) (other s)).(eid)
       (recvCursor (σ.(ep) (other s))))] σ)).
Proof.
  intros Hb. eapply star_step; [apply (step_attach (other s) frameAttach); by left|].
  apply star_one.
  eapply (step_bind s woks (attachFrame frameAttach (eid (ep σ (other s)))
    (recvCursor (ep σ (other s))))).
  - simpl. rewrite upd_same. apply elem_of_app. right. by apply list_elem_of_singleton.
  - by left.
  - simpl. by rewrite upd_other'.
Qed.

(** An endpoint that acknowledges the cursor of its peer and replays the rest. *)
Lemma reconnect_buffer s σ :
  dir σ s → (ackLocked (σ.(ep) (other s)).(recvSeq) (σ.(ep) s)).(sendBuf) =
    numbered (σ.(ep) (other s)).(recvSeq)
      (drop (Z.to_nat (σ.(ep) (other s)).(recvSeq)) (σ.(sent) s)) ∧
  (ackLocked (σ.(ep) (other s)).(recvSeq) (σ.(ep) s)).(acked) =
    (σ.(ep) (other s)).(recvSeq).
Proof.
  intros D. pose proof (di_acked _ _ _ _ _ _ _ D) as Ha.
  assert (D' := dir_S_ack D (recvSeq (ep σ (other s))) ltac:(lia)).
  assert (Hk : acked (ackLocked (recvSeq (ep σ (other s))) (ep σ s)) =
    recvSeq (ep σ (other s))).
  { unfold ackLocked. case_match; breflect; simpl; lia. }
  split; [|done]. by rewrite (di_buf _ _ _ _ _ _ _ D'), Hk.
Qed.

Lemma handshake t σ :
  dir σ t → chunks_fit (σ.(sent) t) →
  ∃ σ', star step σ σ' ∧ σ'.(sent) = σ.(sent) ∧ σ'.(pend) = σ.(pend) ∧
    σ'.(ep) (other t) = σ.(ep) (other t) ∧
    σ'.(ep) t = bump_gen (ackLocked (σ.(ep) (other t)).(recvSeq) (σ.(ep) t)) ∧
    σ'.(net) t = σ.(net) t ++ numbered (σ.(ep) (other t)).(recvSeq)
      (drop (Z.to_nat (σ.(ep) (other t)).(recvSeq)) (σ.(sent) t)).
Proof.
  intros D Hfit. destruct (reconnect_buffer t σ D) as [Hb _].
  eexists. split; [eapply attach_bind, bind_clean; [exact Hb|]|].
  - apply Forall_drop, Hfit.
  - simpl. rewrite !upd_same, !upd_other, !upd_other', upd_same, writes_fmap. done.
Qed.

Lemma reconnect_ready s σ :
  (∀ t, dir σ t) → (∀ t, zlen (σ.(sent) t) < 2 ^ 64) → (∀ t, chunks_fit (σ.(sent) t)) →
  (∀ t, (σ.(ep) t).(closed) = false) → (∀ t, σ.(pend) t = None) →
  ∃ σ', star step σ σ' ∧ σ'.(sent) = σ.(sent) ∧ ready s (σ.(sent) s) σ'.
Proof.
  intros D L F O P.
  destruct (handshake (other s) σ (D _) (F _)) as (σ1 & S1 & E1 & P1 & A1 & B1 & _).
  rewrite other_other in A1, B1.
  assert (I1 : ∀ t, dir σ1 t).
  { apply (star_invariant step inv step_preserves_inv _ _ S1); [by intros ?|]. by rewrite E1. }
  destruct (handshake s σ1 (I1 s)) as (σ2 & S2 & E2 & P2 & A2 & B2 & N2); [by rewrite E1|].
  assert (I2 : ∀ t, dir σ2 t).
  { apply (star_invariant step inv step_preserves_inv _ _ S2); [by intros ?|].
    by rewrite E2, E1. }
  exists σ2. split; [by eapply star_trans|]. split; [congruence|].
  assert (Hr : recvSeq (ep σ2 (other s)) = recvSeq (ep σ1 (other s))) by by rewrite A2.
  split; try done.
  - by rewrite E2, E1.
  - by rewrite E2, E1.
  - intros t. destruct (decide (t = s)) as [->|Ht].
    + rewrite B2. simpl. by rewrite ackLocked_closed, A1.
    + assert (t = other s) as -> by (by destruct t, s).
      rewrite A2, B1. simpl. by rewrite ackLocked_closed.
  - intros t. by rewrite P2, P1.
  - rewrite A2, B1. done.
  - rewrite Hr, N2, <- E1. intros f Hf. apply elem_of_app. by right.
  - left. rewrite Hr, B2. simpl. by apply reconnect_buffer.
Qed.


(** Nothing is lost while the receiver is open: every accepted chunk has been
    delivered, is held by the receiver's pump, or is still in the sender's buffer, where
    the next bind replays it. *)
Theorem unacknowledged_is_buffered id σ s :
  reachable id σ → (∀ t, zlen (σ.(sent) t) < 2 ^ 64) →
  (σ.(ep) (other s)).(closed) = false →
  σ.(sent) s = σ.(dlv) (other s) ++ option_list (σ.(pend) (other s)) ++
    (payload <$> drop (Z.to_nat ((σ.(ep) (other s)).(recvSeq) - (σ.(ep) s).(acked)))
       (σ.(ep) s).(sendBuf)).
Proof.
  intros R L Ho. pose proof (reachable_dir id σ R L s) as D.
  rewrite (dir_S_missing D), numbered_payload.
  destruct (di_dlv _ _ _ _ _ _ _ D) as (lost & E & Hl & _). rewrite (Hl Ho) in E.
  rewrite app_nil_r in E. by rewrite app_assoc, E, take_drop.
Qed.


(** ** A concrete run, used by the witnesses *)

Definition ex_chunk : list byte := [x68; x69].
Definition ex_sent : sys :=
  set_sent ClientSide [ex_chunk]
    (set_ep ClientSide
       (push_send (dataFrame 1 ex_chunk) (set_slots 1023 (newEndpoint zeroID))) []
       (initial zeroID)).

Lemma ex_sent_reachable : reachable zeroID ex_sent.
Proof.
  apply star_one.
  apply (step_send ClientSide GotSlot true ex_chunk (Ok tt)). vm_compute. reflexivity.
Qed.

Lemma ex_sent_bounded t : zlen (ex_sent.(sent) t) < 2 ^ 64.
Proof. by destruct t. Qed.


Lemma unacknowledged_is_buffered_witness :
  [ex_chunk] = [] ++ [] ++ (payload <$> [dataFrame 1 ex_chunk]).
Proof.
  apply (unacknowledged_is_buffered zeroID ex_sent ClientSide ex_sent_reachable
    ex_sent_bounded eq_refl).
Defined.


(** ** Overlapping read pumps

    [step] gives each side one pump: the client's reconnect loop runs its pumps one after
    the other. [Server.Handle] starts a pump per accepted connection and [bind] only closes
    the previous connection: it does not wait for the previous pump, which may still be
    between committing a cursor and handing its payload over. Here the pumps of one
    endpoint are separate processes, each with the payload it holds. *)
Module PumpRace.

Record pumps := mkPumps { rep : endpoint; held : list (option (list byte)) }.

Inductive pstep : pumps → pumps → Prop :=
| pstep_commit i wok f e cur d e' evs σ :
    σ.(held) !! i = Some None → σ.(rep).(closed) = false → f.(typ) = frameData →
    recvCommit f σ.(rep) = (e, cur, d) → sendAck wok cur e = (e', evs) →
    pstep σ (mkPumps e' (<[i := d]> σ.(held)))
| pstep_deliver i a p e evs st σ :
    σ.(held) !! i = Some (Some p) → deliver a p σ.(rep) = Some (e, evs, st) →
    pstep σ (mkPumps e (<[i := None]> σ.(held))).

(** Two overlapping pumps of one server-side endpoint can hand chunk 2 to the
    application before chunk 1: the pump of the old connection commits chunk 1 and is
    preempted before its delivery, the client reconnects, is told cursor 1 and replays
    chunk 2, which the new pump commits and delivers first. *)
Theorem overlapping_pumps_reorder :
  ∃ σ, star pstep (mkPumps (newEndpoint zeroID) [None; None]) σ ∧
    σ.(rep).(recvSeq) = 2 ∧ σ.(rep).(inbound) = [[x02]; [x01]].
Proof.
  eexists. split; [|split].
  - eapply star_step; [eapply (pstep_commit 0 true (dataFrame 1 [x01])); reflexivity|].
    eapply star_step; [eapply (pstep_commit 1 true (dataFrame 2 [x02])); reflexivity|].
    eapply star_step; [eapply (pstep_deliver 1 DeliverInbound [x02]); reflexivity|].
    eapply star_one. eapply (pstep_deliver 0 DeliverInbound [x01]); reflexivity.
  - reflexivity.
  - reflexivity.
Qed.

End PumpRace.
