(* ===== verification/Store.v ===== *)
(** * Store: persisted sessions and ownership leases (src/session/store.go)

    [MemStore] is the abstract store: a map from session id to record, each operation one
    critical section of its mutex. [FileStore] does the same over one file per session
    under a cross-process lock; what the file system and the scheduler decide (lock
    acquired, read error, write error, lock stolen before the commit) is an argument. *)
From stdpp Require Import base list strings gmap.
From Stdlib Require Import ZArith Lia.
From Stdlib Require Import Strings.Byte.
From S2P Require Import Prelude GoStd Frame Endpoint.
Open Scope Z_scope.

Record PersistedFrame := mkPFrame { pfSeq : Z; pfPayload : list byte }.

Record PersistedSession := mkPS {
  ID : string;
  Owner : string;
  CreatorKey : string;
  PeerFQDN : string;
  PeerAddr : string;
  SendSeq : Z;
  Acked : Z;
  RecvSeq : Z;
  SendBuf : list PersistedFrame;
  Replay : list byte;
  ReplayResponses : Z;
  Generation : Z;
  LeaseExpiry : Z;       (* Unix nanoseconds *)
  SchemaVersion : Z
}.

Definition sessionSchemaVersion : Z := 1.

(** The zero record, and the updates of the lease fields and of the version stamp. *)
Definition zeroPS : PersistedSession := mkPS "" "" "" "" "" 0 0 0 [] [] 0 0 0 0.
Definition withLease (id owner : string) (gen expiry : Z) (p : PersistedSession) : PersistedSession :=
  mkPS id owner p.(CreatorKey) p.(PeerFQDN) p.(PeerAddr) p.(SendSeq) p.(Acked) p.(RecvSeq)
    p.(SendBuf) p.(Replay) p.(ReplayResponses) gen expiry p.(SchemaVersion).
Definition stamp (p : PersistedSession) : PersistedSession :=
  mkPS p.(ID) p.(Owner) p.(CreatorKey) p.(PeerFQDN) p.(PeerAddr) p.(SendSeq) p.(Acked) p.(RecvSeq)
    p.(SendBuf) p.(Replay) p.(ReplayResponses) p.(Generation) p.(LeaseExpiry) sessionSchemaVersion.

Record Lease := mkLease { lSessionID : string; lOwner : string; lGeneration : Z; lExpiry : Z }.

(** ** Ownership decisions *)

Definition canAcquire (cur : option PersistedSession) (owner : string) (expectedGen now : Z)
  : option Z :=
  match cur with
  | None => if negb (expectedGen =? 0) then None else Some 1
  | Some cur =>
      let live := now <? cur.(LeaseExpiry) in
      if live && negb (cur.(Owner) =? owner)%string then None
      else if negb (cur.(Generation) =? expectedGen) then None
      else Some (u64 (cur.(Generation) + 1))
  end.

Definition canTakeover (cur : option PersistedSession) (expectedGen : Z) : option Z :=
  match cur with
  | None => if negb (expectedGen =? 0) then None else Some 1
  | Some cur =>
      if negb (cur.(Generation) =? expectedGen) then None
      else Some (u64 (cur.(Generation) + 1))
  end.

(** The record and the lease of a granted claim. *)
Definition granted (cur : option PersistedSession) (id owner : string) (gen ttl now : Z)
  : PersistedSession * Lease :=
  (withLease id owner gen (now + ttl) (default zeroPS cur), mkLease id owner gen (now + ttl)).

(** The presented owner and generation still hold the lease. *)
Definition holds (cur : PersistedSession) (owner : string) (gen : Z) : bool :=
  (cur.(Owner) =? owner)%string && (cur.(Generation) =? gen).

(** ** MemStore *)

Module MemStore.
Notation t := (gmap string PersistedSession).

Definition Save (ps : PersistedSession) (s : t) : t := <[ps.(ID) := ps]> s.
Definition Load (id : string) (s : t) : option PersistedSession := s !! id.
Definition DeleteIfOwner (id owner : string) (s : t) : t :=
  match s !! id with
  | Some ps => if (ps.(Owner) =? owner)%string then delete id s else s
  | None => s
  end.
Definition List (s : t) : list PersistedSession := (map_to_list s).*2.

Definition AcquireLease (id owner : string) (expectedGen ttl now : Z) (s : t)
  : option Lease * t :=
  match canAcquire (s !! id) owner expectedGen now with
  | None => (None, s)
  | Some gen => let '(ps, l) := granted (s !! id) id owner gen ttl now in (Some l, <[id := ps]> s)
  end.
Definition TakeoverLease (id owner : string) (expectedGen ttl now : Z) (s : t)
  : option Lease * t :=
  match canTakeover (s !! id) expectedGen with
  | None => (None, s)
  | Some gen => let '(ps, l) := granted (s !! id) id owner gen ttl now in (Some l, <[id := ps]> s)
  end.
Definition RenewLease (id owner : string) (gen ttl now : Z) (s : t) : option Lease * t :=
  match s !! id with
  | Some cur =>
      if holds cur owner gen then
        (Some (mkLease id owner gen (now + ttl)),
         <[id := withLease cur.(ID) cur.(Owner) cur.(Generation) (now + ttl) cur]> s)
      else (None, s)
  | None => (None, s)
  end.
Definition ReleaseLease (id owner : string) (gen : Z) (s : t) : bool * t :=
  match s !! id with
  | Some cur =>
      if holds cur owner gen
      then (true, <[id := withLease cur.(ID) "" cur.(Generation) 0 cur]> s) else (false, s)
  | None => (false, s)
  end.
Definition SaveIfOwned (ps : PersistedSession) (owner : string) (gen : Z) (s : t) : bool * t :=
  match s !! ps.(ID) with
  | Some cur =>
      if holds cur owner gen
      then (true, <[ps.(ID) := withLease ps.(ID) owner gen cur.(LeaseExpiry) ps]> s) else (false, s)
  | None => (false, s)
  end.
End MemStore.

(** ** FileStore *)

Module FileStore.
(** The session files by id; [None] is a file that does not parse. *)
Notation t := (gmap string (option PersistedSession)).

Inductive storeErr := ErrLock | ErrRead | ErrParse | ErrWrite | ErrStolen.

(** What the environment does to one operation. *)
Record Env := mkEnv {
  lockOk : bool;       (* the cross-process lock was acquired *)
  readOk : bool;       (* reading an existing file succeeds *)
  writeOk : bool;      (* temp file, sync, close and rename (or remove) succeed *)
  stillHeld : bool     (* the lock file still carries our token before the commit *)
}.

Definition writeLocked (ev : Env) (ps : PersistedSession) (s : t) : option storeErr * t :=
  if negb ev.(writeOk) then (Some ErrWrite, s)
  else if negb ev.(stillHeld) then (Some ErrStolen, s)
  else (None, <[ps.(ID) := Some (stamp ps)]> s).

(** [readUnlocked]. *)
Definition readUnlocked (ev : Env) (id : string) (s : t)
  : result storeErr (option PersistedSession) :=
  match s !! id with
  | None => Ok None
  | Some f =>
      if negb ev.(readOk) then Err ErrRead
      else match f with Some ps => Ok (Some ps) | None => Err ErrParse end
  end.

Definition Save (ev : Env) (ps : PersistedSession) (s : t) : option storeErr * t :=
  if negb ev.(lockOk) then (Some ErrLock, s) else writeLocked ev ps s.

Definition Load (ev : Env) (id : string) (s : t) : result storeErr (option PersistedSession) :=
  match readUnlocked ev id s with
  | Ok (Some ps) => if sessionSchemaVersion <? ps.(SchemaVersion) then Ok None else Ok (Some ps)
  | r => r
  end.

Definition DeleteIfOwner (ev : Env) (id owner : string) (s : t) : option storeErr * t :=
  if negb ev.(lockOk) then (Some ErrLock, s)
  else
    match readUnlocked ev id s with
    | Err e => (Some e, s)
    | Ok None => (None, s)
    | Ok (Some ps) =>
        if negb (ps.(Owner) =? owner)%string then (None, s)
        else if negb ev.(stillHeld) then (Some ErrStolen, s)
        else if negb ev.(writeOk) then (Some ErrWrite, s)
        else (None, delete id s)
    end.

(** A claim that [decide] permits, committed. *)
Definition claim (ev : Env) (decide : option PersistedSession → option Z)
    (id owner : string) (ttl now : Z) (s : t) : result storeErr (option Lease) * t :=
  if negb ev.(lockOk) then (Err ErrLock, s)
  else
    match readUnlocked ev id s with
    | Err e => (Err e, s)
    | Ok cur =>
        match decide cur with
        | None => (Ok None, s)
        | Some gen =>
            let '(ps, l) := granted cur id owner gen ttl now in
            match writeLocked ev ps s with
            | (Some e, s) => (Err e, s)
            | (None, s) => (Ok (Some l), s)
            end
        end
    end.
Definition AcquireLease ev id owner expectedGen ttl now s :=
  claim ev (λ cur, canAcquire cur owner expectedGen now) id owner ttl now s.
Definition TakeoverLease ev id owner expectedGen ttl now s :=
  claim ev (λ cur, canTakeover cur expectedGen) id owner ttl now s.

(** An update by the holder, committed: [upd] gives the record to write. *)
Definition ownedWrite {X} (ev : Env) (id owner : string) (gen : Z)
    (upd : PersistedSession → PersistedSession) (yes : X) (s : t)
  : result storeErr (option X) * t :=
  if negb ev.(lockOk) then (Err ErrLock, s)
  else
    match readUnlocked ev id s with
    | Err e => (Err e, s)
    | Ok None => (Ok None, s)
    | Ok (Some cur) =>
        if negb (holds cur owner gen) then (Ok None, s)
        else match writeLocked ev (upd cur) s with
             | (Some e, s) => (Err e, s)
             | (None, s) => (Ok (Some yes), s)
             end
    end.
Definition RenewLease ev id owner gen ttl now s :=
  ownedWrite ev id owner gen
    (λ cur, withLease cur.(ID) cur.(Owner) cur.(Generation) (now + ttl) cur)
    (mkLease id owner gen (now + ttl)) s.
Definition ReleaseLease ev id owner gen s :=
  ownedWrite ev id owner gen (λ cur, withLease cur.(ID) "" cur.(Generation) 0 cur) tt s.
Definition SaveIfOwned ev (ps : PersistedSession) owner gen s :=
  ownedWrite ev ps.(ID) owner gen
    (λ cur, withLease ps.(ID) owner gen cur.(LeaseExpiry) ps) tt s.

Definition List (s : t) : list PersistedSession :=
  omap (λ kf : string * option PersistedSession, match kf.2 with
    | Some ps => if negb (ps.(ID) =? "")%string && (ps.(SchemaVersion) <=? sessionSchemaVersion)
                 then Some ps else None
    | None => None end) (map_to_list s).
End FileStore.

(** ** Snapshot and restore of an endpoint *)

Definition snapshot (e : endpoint) (replay : list byte) (replayResponses : Z) : PersistedSession :=
  mkPS (hexEncode e.(eid)) "" "" "" "" e.(sendSeq) e.(acked) e.(recvSeq)
    ((λ f, mkPFrame f.(fseq) f.(payload)) <$> e.(sendBuf)) replay replayResponses 0 0 0.

Definition parseSessionID (s : string) : option sessionID :=
  match hexDecode s with
  | Some b => if (length b =? sessionIDLen)%nat then Some b else None
  | None => None
  end.

Definition restoreEndpoint (ps : PersistedSession) : option endpoint :=
  match parseSessionID ps.(ID) with
  | None => None
  | Some id =>
      if (defaultMaxSendFrames <? length ps.(SendBuf))%nat then None
      else
        Some (mkEndpoint id false 0 ps.(SendSeq) ps.(Acked)
          ((λ pf, dataFrame pf.(pfSeq) pf.(pfPayload)) <$> ps.(SendBuf)) ps.(RecvSeq) false None []
          (defaultMaxSendFrames - length ps.(SendBuf)) defaultMaxSendFrames)
  end.

(** ** Fencing *)

Inductive LeaseOp :=
| OAcquire (id owner : string) (expectedGen ttl now : Z)
| OTakeover (id owner : string) (expectedGen ttl now : Z)
| ORenew (id owner : string) (gen ttl now : Z)
| ORelease (id owner : string) (gen : Z)
| OSave (ps : PersistedSession) (owner : string) (gen : Z)
| ODelete (id owner : string).

(** One operation: the new store, the lease it grants, and whether it succeeded. *)
Definition runOp (o : LeaseOp) (s : gmap string PersistedSession)
  : gmap string PersistedSession * option Lease * bool :=
  match o with
  | OAcquire id owner g ttl now =>
      let '(l, s) := MemStore.AcquireLease id owner g ttl now s in (s, l, negb (isNone l))
  | OTakeover id owner g ttl now =>
      let '(l, s) := MemStore.TakeoverLease id owner g ttl now s in (s, l, negb (isNone l))
  | ORenew id owner g ttl now =>
      let '(l, s) := MemStore.RenewLease id owner g ttl now s in (s, None, negb (isNone l))
  | ORelease id owner g => let '(ok, s) := MemStore.ReleaseLease id owner g s in (s, None, ok)
  | OSave ps owner g => let '(ok, s) := MemStore.SaveIfOwned ps owner g s in (s, None, ok)
  | ODelete id owner => (MemStore.DeleteIfOwner id owner s, None, true)
  end.

(** The latest grant per session, along a run. *)
Definition noteGrant (l : option Lease) (g : gmap string (string * Z)) : gmap string (string * Z) :=
  match l with Some l => <[l.(lSessionID) := (l.(lOwner), l.(lGeneration))]> g | None => g end.
Fixpoint runOps (os : list LeaseOp) (s : gmap string PersistedSession) (g : gmap string (string * Z))
  : gmap string PersistedSession * gmap string (string * Z) :=
  match os with
  | [] => (s, g)
  | o :: os => let '(s, l, _) := runOp o s in runOps os s (noteGrant l g)
  end.

(** Every record carries the generation of the latest grant of its session, and its owner
    unless the lease was released. *)
Definition fenced (s : gmap string PersistedSession) (g : gmap string (string * Z)) : Prop :=
  ∀ id ps, s !! id = Some ps → ∃ o, g !! id = Some (o, ps.(Generation)) ∧
    (ps.(Owner) = o ∨ ps.(Owner) = "").

Lemma fenced_update s g id cur ps :
  fenced s g → s !! id = Some cur → ps.(Generation) = cur.(Generation) →
  (ps.(Owner) = cur.(Owner) ∨ ps.(Owner) = "") → fenced (<[id := ps]> s) g.
Proof.
  intros Hf Hc Hg Ho id' ps' [[<- <-]|[_ Hl]]%lookup_insert_Some; [|by apply Hf].
  destruct (Hf _ _ Hc) as (o & Hgo & Hoo). exists o. rewrite Hg. split; [done|].
  destruct Ho as [-> | ->]; auto.
Qed.

Lemma fenced_grant s g id owner gen ttl now :
  fenced s g →
  fenced (<[id := (granted (s !! id) id owner gen ttl now).1]> s) (<[id := (owner, gen)]> g).
Proof.
  intros Hf id' ps' [[<- <-]|[Hne Hl]]%lookup_insert_Some.
  - exists owner. rewrite lookup_insert_eq. simpl. auto.
  - rewrite lookup_insert_ne by done. by apply Hf.
Qed.

Lemma holds_true cur owner gen :
  holds cur owner gen = true → cur.(Owner) = owner ∧ cur.(Generation) = gen.
Proof. unfold holds. intros Hh. breflect. done. Qed.

Lemma runOp_fenced o s g s' l ok :
  runOp o s = (s', l, ok) → fenced s g → fenced s' (noteGrant l g).
Proof.
  destruct o as [id owner eg ttl now|id owner eg ttl now|id owner gen ttl now|id owner gen
    |ps owner gen|id owner]; simpl; intros Hr Hf.
  - unfold MemStore.AcquireLease in Hr. destruct (canAcquire _ _ _ _) as [gen|]; simplify_eq/=;
      [by apply fenced_grant|done].
  - unfold MemStore.TakeoverLease in Hr. destruct (canTakeover _ _) as [gen|]; simplify_eq/=;
      [by apply fenced_grant|done].
  - unfold MemStore.RenewLease in Hr. destruct (s !! id) as [cur|] eqn:Hc; [|by simplify_eq/=].
    destruct (holds cur owner gen); simplify_eq/=; [|done].
    eapply fenced_update; [done|exact Hc|done|by left].
  - unfold MemStore.ReleaseLease in Hr. destruct (s !! id) as [cur|] eqn:Hc; [|by simplify_eq/=].
    destruct (holds cur owner gen); simplify_eq/=; [|done].
    eapply fenced_update; [done|exact Hc|done|by right].
  - unfold MemStore.SaveIfOwned in Hr. destruct (s !! ID ps) as [cur|] eqn:Hc; [|by simplify_eq/=].
    destruct (holds cur owner gen) eqn:Hh; simplify_eq/=; [|done].
    apply holds_true in Hh as [<- <-]. eapply fenced_update; [done|exact Hc|done|by left].
  - simplify_eq/=. unfold MemStore.DeleteIfOwner. destruct (s !! id) as [cur|]; [|done].
    destruct (_ =? _)%string; [|done]. intros id' ps' [_ Hl]%lookup_delete_Some. by apply Hf.
Qed.

Lemma runOps_fenced os s g s' g' : runOps os s g = (s', g') → fenced s g → fenced s' g'.
Proof.
  revert s g. induction os as [|o os IH]; intros s g; simpl; [by intros [= <- <-]|].
  destruct (runOp o s) as [[s1 l] ok] eqn:Ho. intros Hr Hf. eapply IH; [done|].
  by eapply runOp_fenced.
Qed.

(** The session an operation writes on behalf of a holder. *)
Definition holderOp (o : LeaseOp) : option (string * string * Z) :=
  match o with
  | ORenew id owner gen _ _ | ORelease id owner gen => Some (id, owner, gen)
  | OSave ps owner gen => Some (ps.(ID), owner, gen)
  | _ => None
  end.

(** C12. Fencing: after any sequence of lease operations by any gateways, a renewal, a
    release or a checkpoint succeeds only for the owner and generation of the latest lease
    granted for that session. A gateway whose session was taken over can no longer write
    its state, renew or release it, however late its writes arrive. *)
Theorem only_latest_grantee_writes os s g o s' l id owner gen :
  runOps os ∅ ∅ = (s, g) → runOp o s = (s', l, true) →
  holderOp o = Some (id, owner, gen) → owner ≠ "" → g !! id = Some (owner, gen).
Proof.
  intros Hrun Ho Hop Hne.
  assert (Hf : fenced s g).
  { eapply runOps_fenced; [done|]. intros i p Hl. by rewrite lookup_empty in Hl. }
  assert (Hcur : ∃ cur, s !! id = Some cur ∧ holds cur owner gen = true).
  { destruct o; simplify_eq/=;
      unfold MemStore.RenewLease, MemStore.ReleaseLease, MemStore.SaveIfOwned in Ho;
      (destruct (s !! _) as [cur|] eqn:Hc; [|by simplify_eq/=]); exists cur; (split; [done|]);
      by destruct (holds _ _ _); simplify_eq/=. }
  destruct Hcur as (cur & Hc & [Ho' Hg]%holds_true).
  destruct (Hf _ _ Hc) as (own & Hg' & [Hown|Hown]); [|congruence].
  rewrite Hg', Hg. congruence.
Qed.

(** Grants of one session along a run. *)
Definition grantedFor (id : string) (l : option Lease) : nat :=
  match l with Some l => if (l.(lSessionID) =? id)%string then 1 else 0 | None => 0 end.
Fixpoint grantsOf (id : string) (os : list LeaseOp) (s : gmap string PersistedSession) : nat :=
  match os with
  | [] => 0
  | o :: os => let '(s, l, _) := runOp o s in (grantedFor id l + grantsOf id os s)%nat
  end.

(** The operation claims [id] only with the expected generation [g], and does not delete
    the record. *)
Definition racer (id : string) (g : Z) (o : LeaseOp) : Prop :=
  match o with
  | OAcquire id' _ eg _ _ | OTakeover id' _ eg _ _ => id' = id → eg = g
  | ODelete id' _ => id' ≠ id
  | _ => True
  end.

(** The race is over: the record exists and its generation has moved on from [g]. *)
Definition moved (id : string) (g : Z) (s : gmap string PersistedSession) : Prop :=
  ∃ ps, s !! id = Some ps ∧ ps.(Generation) ≠ g.

Lemma u64_next g : u64 (g + 1) ≠ g.
Proof.
  unfold u64. intros E. pose proof (Z.mod_pos_bound (g + 1) (2 ^ 64)) as Hb.
  destruct (Z.eq_dec g (2 ^ 64 - 1)) as [->|Hne]; [done|]. rewrite Z.mod_small in E; lia.
Qed.

Lemma canClaim_next cur owner g now gen :
  canAcquire cur owner g now = Some gen ∨ canTakeover cur g = Some gen →
  gen ≠ g ∧ ∀ ps, cur = Some ps → ps.(Generation) = g.
Proof.
  intros Hc. assert (Hc' : canTakeover cur g = Some gen).
  { destruct Hc as [Hc|Hc]; [|done]. destruct cur as [ps|]; [|done]. simpl in *.
    by destruct (_ && _). }
  destruct cur as [ps|]; simpl in Hc'.
  - destruct (Z.eqb_spec (Generation ps) g) as [<-|]; simplify_eq/=.
    split; [apply u64_next|]. by intros ? [= <-].
  - destruct (Z.eqb_spec g 0); simplify_eq/=. split; done.
Qed.

Lemma moved_insert id g id' ps s :
  moved id g s → (id' = id → ps.(Generation) ≠ g) → moved id g (<[id' := ps]> s).
Proof.
  intros (q & Hq & Hg) Hps. destruct (decide (id' = id)) as [->|Hne].
  - exists ps. rewrite lookup_insert_eq. auto.
  - exists q. by rewrite lookup_insert_ne.
Qed.

(** One step of a race: a grant ends it, and once it is over no racer is granted. *)
Lemma runOp_race id g o s s' l ok :
  runOp o s = (s', l, ok) → racer id g o →
  (moved id g s → grantedFor id l = 0%nat ∧ moved id g s') ∧
  (grantedFor id l = 0%nat ∨ grantedFor id l = 1%nat ∧ moved id g s').
Proof.
  assert (Hclaim : ∀ id' owner gen ttl now cl,
    (id' = id → gen ≠ g ∧ ∀ ps, s !! id' = Some ps → Generation ps = g) →
    (s', l) = (<[id' := (granted (s !! id') id' owner gen ttl now).1]> s, cl) →
    cl = Some (granted (s !! id') id' owner gen ttl now).2 →
    (moved id g s → grantedFor id l = 0%nat ∧ moved id g s') ∧
    (grantedFor id l = 0%nat ∨ grantedFor id l = 1%nat ∧ moved id g s')).
  { intros id' owner gen ttl now cl Hg [= -> ->] ->. simpl.
    destruct (String.eqb_spec id' id) as [->|Hne].
    - destruct (Hg eq_refl) as [Hgen Hcur]. split.
      + intros (q & Hq & Hqg). by rewrite (Hcur _ Hq) in Hqg.
      + right. split; [done|]. eexists. rewrite lookup_insert_eq. done.
    - split; [|by left]. intros Hm. split; [done|]. by apply moved_insert. }
  assert (Hkeep : ∀ id' ps cur, s !! id' = Some cur → Generation ps = Generation cur →
    (s', l) = (<[id' := ps]> s, None) →
    (moved id g s → grantedFor id l = 0%nat ∧ moved id g s') ∧
    (grantedFor id l = 0%nat ∨ grantedFor id l = 1%nat ∧ moved id g s')).
  { intros id' ps cur Hc Hgen [= -> ->]. split; [|by left]. intros Hm. split; [done|].
    apply moved_insert; [done|]. intros ->. destruct Hm as (q & Hq & Hqg). congruence. }
  assert (Hsame : (s', l) = (s, None) → (moved id g s → grantedFor id l = 0%nat ∧ moved id g s') ∧
    (grantedFor id l = 0%nat ∨ grantedFor id l = 1%nat ∧ moved id g s')).
  { intros [= -> ->]. split; [done|by left]. }
  destruct o as [id' owner eg ttl now|id' owner eg ttl now|id' owner gen ttl now|id' owner gen
    |ps owner gen|id' owner]; simpl; intros Hr Hrace.
  - unfold MemStore.AcquireLease in Hr. destruct (canAcquire _ _ _ _) as [gen|] eqn:Hcan;
      simplify_eq/=; [|by apply Hsame].
    eapply (Hclaim id' owner gen ttl now); [|done|done]. intros ->. rewrite Hrace in Hcan by done.
    eapply canClaim_next. by left.
  - unfold MemStore.TakeoverLease in Hr. destruct (canTakeover _ _) as [gen|] eqn:Hcan;
      simplify_eq/=; [|by apply Hsame].
    eapply (Hclaim id' owner gen ttl now); [|done|done]. intros ->. rewrite Hrace in Hcan by done.
    eapply (canClaim_next _ "" _ 0). by right.
  - unfold MemStore.RenewLease in Hr. destruct (s !! id') as [cur|] eqn:Hc; [|simplify_eq/=; by apply Hsame].
    destruct (holds cur owner gen); simplify_eq/=; [by refine (Hkeep _ _ _ Hc _ eq_refl)|by apply Hsame].
  - unfold MemStore.ReleaseLease in Hr. destruct (s !! id') as [cur|] eqn:Hc; [|simplify_eq/=; by apply Hsame].
    destruct (holds cur owner gen); simplify_eq/=; [by refine (Hkeep _ _ _ Hc _ eq_refl)|by apply Hsame].
  - unfold MemStore.SaveIfOwned in Hr. destruct (s !! ID ps) as [cur|] eqn:Hc; [|simplify_eq/=; by apply Hsame].
    destruct (holds cur owner gen) eqn:Hh; simplify_eq/=; [|by apply Hsame].
    apply holds_true in Hh as [_ <-]. by refine (Hkeep _ _ _ Hc _ eq_refl).
  - simplify_eq/=. unfold MemStore.DeleteIfOwner.
    destruct (s !! id') as [cur|]; [|split; [by intros Hm|by left]].
    destruct (_ =? _)%string; [|split; [by intros Hm|by left]]. split; [|by left].
    intros (q & Hq & Hqg). split; [done|]. exists q. by rewrite lookup_delete_ne.
Qed.

(** Of several gateways that race to claim a session with the same expected
    generation, by acquisition or by takeover, in any interleaving with renewals, releases,
    checkpoints and operations on other sessions, at most one is granted the lease. *)
Theorem claim_race_has_one_winner id g os s :
  Forall (racer id g) os → (grantsOf id os s ≤ 1)%nat.
Proof.
  assert (Hover : ∀ os s, Forall (racer id g) os → moved id g s → grantsOf id os s = 0%nat).
  { clear os s. induction os as [|o os IH]; intros s Hr Hm; [done|]. simpl.
    apply Forall_cons in Hr as [Ho Hr]. destruct (runOp o s) as [[s1 l] ok] eqn:E.
    destruct (runOp_race _ _ _ _ _ _ _ E Ho) as [Hz _]. destruct (Hz Hm) as [-> Hm1].
    by rewrite IH. }
  revert s. induction os as [|o os IH]; intros s Hr; simpl; [lia|].
  apply Forall_cons in Hr as [Ho Hr]. destruct (runOp o s) as [[s1 l] ok] eqn:E.
  destruct (runOp_race _ _ _ _ _ _ _ E Ho) as [_ [-> | [-> Hm]]].
  - by apply IH.
  - by rewrite Hover.
Qed.

(** ** FileStore refines MemStore *)

Definition runFile (ev : FileStore.Env) (o : LeaseOp) (f : gmap string (option PersistedSession))
  : result FileStore.storeErr (option Lease * bool) * gmap string (option PersistedSession) :=
  let flag {X} (lease : X → option Lease) (r : result FileStore.storeErr (option X)) :=
    match r with
    | Ok x => Ok (x ≫= lease, negb (isNone x))
    | Err e => Err e
    end in
  match o with
  | OAcquire id owner g ttl now =>
      let '(r, f) := FileStore.AcquireLease ev id owner g ttl now f in (flag Some r, f)
  | OTakeover id owner g ttl now =>
      let '(r, f) := FileStore.TakeoverLease ev id owner g ttl now f in (flag Some r, f)
  | ORenew id owner g ttl now =>
      let '(r, f) := FileStore.RenewLease ev id owner g ttl now f in (flag (λ _, None) r, f)
  | ORelease id owner g =>
      let '(r, f) := FileStore.ReleaseLease ev id owner g f in (flag (λ _, None) r, f)
  | OSave ps owner g =>
      let '(r, f) := FileStore.SaveIfOwned ev ps owner g f in (flag (λ _, None) r, f)
  | ODelete id owner =>
      match FileStore.DeleteIfOwner ev id owner f with
      | (None, f) => (Ok (None, true), f)
      | (Some e, f) => (Err e, f)
      end
  end.

(** The files hold the records of the map, stamped with the schema version, and every
    record is filed under its own id. *)
Definition represents (f : gmap string (option PersistedSession)) (m : gmap string PersistedSession)
  : Prop :=
  (∀ id, f !! id = (λ ps, Some (stamp ps)) <$> m !! id) ∧
  (∀ id ps, m !! id = Some ps → ps.(ID) = id).

Lemma represents_insert f m id ps :
  represents f m → ps.(ID) = id → represents (<[id := Some (stamp ps)]> f) (<[id := ps]> m).
Proof.
  intros [Hf Hid] He. split.
  - intros i. destruct (decide (i = id)) as [->|Hne].
    + by rewrite !lookup_insert_eq.
    + rewrite !lookup_insert_ne by done. apply Hf.
  - intros i p [[<- <-]|[_ Hl]]%lookup_insert_Some; auto.
Qed.

Lemma represents_delete f m id : represents f m → represents (delete id f) (delete id m).
Proof.
  intros [Hf Hid]. split.
  - intros i. destruct (decide (i = id)) as [->|Hne].
    + by rewrite !lookup_delete_eq.
    + rewrite !lookup_delete_ne by done. apply Hf.
  - intros i p [_ Hl]%lookup_delete_Some. auto.
Qed.

Lemma readUnlocked_represents ev id f m :
  represents f m →
  FileStore.readUnlocked ev id f = Ok (stamp <$> m !! id) ∨
  ∃ e, FileStore.readUnlocked ev id f = Err e.
Proof.
  intros [Hf _]. unfold FileStore.readUnlocked. rewrite Hf. destruct (m !! id); simpl; [|by left].
  destruct (FileStore.readOk ev); simpl; eauto.
Qed.

(** A claim through the files and through the map. *)
Lemma claim_refines ev (decide : option PersistedSession → option Z) id owner ttl now f m r f' :
  represents f m → (∀ ps, decide (Some (stamp ps)) = decide (Some ps)) →
  FileStore.claim ev decide id owner ttl now f = (r, f') →
  (∃ e, r = Err e ∧ f' = f) ∨
  match decide (m !! id) with
  | None => r = Ok None ∧ f' = f
  | Some gen => r = Ok (Some (granted (m !! id) id owner gen ttl now).2) ∧
      represents f' (<[id := (granted (m !! id) id owner gen ttl now).1]> m)
  end.
Proof.
  intros HR Hst. unfold FileStore.claim. destruct (FileStore.lockOk ev); simpl; [|intros [= <- <-]; eauto].
  destruct (readUnlocked_represents ev id f m HR) as [-> | [e ->]]; [|intros [= <- <-]; eauto].
  assert (Hd : decide (stamp <$> m !! id) = decide (m !! id)) by (destruct (m !! id); simpl; auto).
  rewrite Hd. destruct (decide (m !! id)) as [gen|]; [|intros [= <- <-]; auto].
  unfold FileStore.writeLocked. destruct (FileStore.writeOk ev); simpl; [|intros [= <- <-]; eauto].
  destruct (FileStore.stillHeld ev); simpl; intros [= <- <-]; [|eauto].
  right. split; [done|].
  replace (stamp (withLease id owner gen (now + ttl) (default zeroPS (stamp <$> m !! id))))
    with (stamp (withLease id owner gen (now + ttl) (default zeroPS (m !! id))))
    by (by destruct (m !! id)).
  by apply represents_insert.
Qed.

(** A holder's write through the files and through the map. *)
Lemma ownedWrite_refines {X} ev id owner gen upd (yes : X) f m r f' :
  represents f m → (∀ ps, stamp (upd (stamp ps)) = stamp (upd ps)) →
  (∀ ps, ID (upd (stamp ps)) = ID (upd ps)) → (∀ ps, m !! id = Some ps → ID (upd ps) = id) →
  FileStore.ownedWrite ev id owner gen upd yes f = (r, f') →
  (∃ e, r = Err e ∧ f' = f) ∨
  match m !! id with
  | Some cur => if holds cur owner gen
                then r = Ok (Some yes) ∧ represents f' (<[id := upd cur]> m)
                else r = Ok None ∧ f' = f
  | None => r = Ok None ∧ f' = f
  end.
Proof.
  intros HR Hst Hsi Hid. unfold FileStore.ownedWrite.
  destruct (FileStore.lockOk ev); simpl; [|intros [= <- <-]; eauto].
  destruct (readUnlocked_represents ev id f m HR) as [-> | [e ->]]; [|intros [= <- <-]; eauto].
  destruct (m !! id) as [cur|] eqn:Hc; simpl; [|intros [= <- <-]; auto].
  change (holds (stamp cur) owner gen) with (holds cur owner gen).
  destruct (holds cur owner gen); simpl; [|intros [= <- <-]; auto].
  unfold FileStore.writeLocked. destruct (FileStore.writeOk ev); simpl; [|intros [= <- <-]; eauto].
  destruct (FileStore.stillHeld ev); simpl; intros [= <- <-]; [|eauto].
  right. split; [done|]. rewrite Hst, Hsi, Hid by done. apply represents_insert; auto.
Qed.


(** ** Failover: what a snapshot carries *)

(** The frames an endpoint keeps are DATA frames, at most as many as its semaphore has. *)
Definition resumable (e : endpoint) : Prop :=
  length e.(eid) = sessionIDLen ∧ (length e.(sendBuf) ≤ defaultMaxSendFrames)%nat ∧
  Forall (λ f, f = dataFrame f.(fseq) f.(payload)) e.(sendBuf).

Lemma restore_buffer buf :
  Forall (λ f, f = dataFrame f.(fseq) f.(payload)) buf →
  (λ pf, dataFrame pf.(pfSeq) pf.(pfPayload)) <$> ((λ f, mkPFrame f.(fseq) f.(payload)) <$> buf) = buf.
Proof. induction 1 as [|f buf Hf Hb IH]; [done|]. cbn. rewrite <- Hf. f_equal. exact IH. Qed.

Lemma bind_events woks cursor e :
  (bind woks cursor e).2 = (Endpoint.replay woks (ackLocked cursor e).(sendBuf)).1.
Proof.
  unfold bind. cbn [bump_gen sendBuf]. by destruct (Endpoint.replay _ _) as [evs ok].
Qed.

(** A snapshot, stored under any lease and version stamp and restored, gives an
    endpoint with the same identity, cursors and unacknowledged frames, a free slot for
    every other frame, and open: to whatever cursor the peer reattaches with, it replays
    exactly the frames the original endpoint would have replayed. *)
Theorem snapshot_restore_resumes e replay n owner gen expiry woks cursor :
  resumable e →
  ∃ e', restoreEndpoint (stamp (withLease (hexEncode e.(eid)) owner gen expiry
          (snapshot e replay n))) = Some e' ∧
    e'.(eid) = e.(eid) ∧ e'.(sendSeq) = e.(sendSeq) ∧ e'.(acked) = e.(acked) ∧
    e'.(recvSeq) = e.(recvSeq) ∧ e'.(sendBuf) = e.(sendBuf) ∧ e'.(closed) = false ∧
    (e'.(slots) + length e'.(sendBuf) = defaultMaxSendFrames)%nat ∧
    (bind woks cursor e').2 = (bind woks cursor e).2.
Proof.
  intros (Hid & Hlen & Hdata). unfold restoreEndpoint, parseSessionID.
  cbn [stamp withLease snapshot ID SendBuf]. rewrite hexDecode_encode, Hid. simpl length.
  rewrite Nat.eqb_refl, length_fmap. rewrite (proj2 (Nat.ltb_ge _ _) Hlen).
  eexists. split; [done|]. cbn [eid sendSeq acked recvSeq sendBuf closed slots SendSeq Acked RecvSeq].
  rewrite restore_buffer by done. split_and!; try done; [lia|].
  rewrite !bind_events. unfold ackLocked. cbn [acked sendBuf Acked stamp withLease snapshot].
  by destruct (cursor <=? acked e).
Qed.

(** A request can be lost in a failover. The receive cursor of a snapshot counts the
    messages that were acknowledged but still queue for the backend; the queue is not part
    of the snapshot. When the restored endpoint presents its cursor to the reattaching
    client, the client drops every frame up to it: it has nothing left to replay, and the
    queued messages are on neither side. *)
Theorem failover_loses_queued_requests e replay n e' client woks :
  restoreEndpoint (snapshot e replay n) = Some e' →
  Forall (λ f, f.(fseq) ≤ e.(recvSeq)) client.(sendBuf) → client.(acked) < e.(recvSeq) →
  e'.(inbound) = [] ∧
  (bind woks (recvCursor e') client).1.(sendBuf) = [] ∧
  (bind woks (recvCursor e') client).2 = [].
Proof.
  unfold restoreEndpoint. destruct (parseSessionID _); [|done]. destruct (_ <? _)%nat; [done|].
  intros [= <-] Hall Hlt. split; [done|].
  unfold recvCursor, bind, ackLocked. cbn [recvSeq snapshot RecvSeq].
  rewrite (proj2 (Z.leb_gt _ _) Hlt). cbn [bump_gen sendBuf].
  assert (Hc : drop (confirmed (recvSeq e) (sendBuf client)) (sendBuf client) = []).
  { clear Hlt. induction Hall as [|f buf Hf Hb IH]; [done|]. simpl.
    by rewrite (proj2 (Z.leb_le _ _) Hf). }
  by rewrite Hc.
Qed.

(** A response can be lost in a failover. When a gateway fails after the client
    received a response and before the next checkpoint, the restored send counter is behind
    the client's receive cursor. The client reattaches with its cursor; the next response
    is numbered with a sequence number the client has already seen, and the client drops it
    as a duplicate and acknowledges it again. *)
Theorem failover_from_stale_snapshot_loses_response e client p woks :
  e.(closed) = false → e.(sendBuf) = [] → p ≠ [] → (0 < e.(slots))%nat → slots_ok e →
  is_u64 (e.(sendSeq) + 1) → e.(sendSeq) + 1 ≤ client.(recvSeq) < 2 ^ 64 - 1 →
  let e1 := (bind woks (recvCursor client) e).1 in
  ∃ e2 evs, Send GotSlot true p e1 = Some (Ok tt, e2, evs) ∧
    ∀ f, f ∈ e2.(sendBuf) → recvCommit f client = (client, client.(recvSeq), None).
Proof.
  intros Hcl Hbuf Hp Hs [Hcap _] Hu Hr. cbv zeta. unfold recvCursor.
  set (e1 := (bind woks (recvSeq client) e).1).
  assert (He1 : closed e1 = false ∧ sendBuf e1 = [] ∧ sendSeq e1 = sendSeq e ∧ (0 < slots e1)%nat).
  { unfold e1, bind, ackLocked. destruct (recvSeq client <=? acked e); cbn [bump_gen sendBuf];
      rewrite Hbuf; cbn [confirmed drop Endpoint.replay fst bump_gen closed sendBuf sendSeq slots];
      split_and!; try done. lia. }
  destruct He1 as (Hc1 & Hb1 & Hq1 & Hs1). unfold Send. destruct p as [|b p]; [done|].
  cbn [slotReady]. rewrite (proj2 (Nat.ltb_lt _ _) Hs1). cbn [negb closed set_slots]. rewrite Hc1.
  set (f := dataFrame _ _). assert (Hf : fseq f = sendSeq e + 1).
  { unfold f. cbn [dataFrame fseq sendSeq set_slots]. rewrite Hq1. by apply u64_small. }
  assert (Hdrop : recvCommit f client = (client, recvSeq client, None)).
  { unfold recvCommit. rewrite Hf, u64_small by (unfold is_u64 in *; lia).
    rewrite (proj2 (Z.eqb_neq _ _)) by lia. done. }
  assert (Hall : ∀ g, sendBuf g = sendBuf e1 ++ [f] → ∀ f', f' ∈ sendBuf g →
    recvCommit f' client = (client, recvSeq client, None)).
  { intros g -> f'. rewrite Hb1. intros ->%list_elem_of_singleton. exact Hdrop. }
  destruct (conn (push_send f _)); cbn [negb]; [destruct (writeFrameLocked true f)|];
    eexists _, _; (split; [done|]); by apply Hall.
Qed.

(** ** Concrete runs *)

Module StoreRuns.
Definition takenOver : list LeaseOp :=
  [OAcquire "s1" "gwA" 0 100 0; OTakeover "s1" "gwB" 1 100 10].
Definition racers : list LeaseOp :=
  [OTakeover "s1" "gwB" 1 100 10; OAcquire "s1" "gwC" 1 100 200].
Definition goodEnv : FileStore.Env := FileStore.mkEnv true true true true.

Definition sid : sessionID := replicate 16 x01.
(** A server that has received two requests, the second still queued for the backend. *)
Definition server : endpoint :=
  mkEndpoint sid true 1 0 0 [] 2 false None [[x62]] 1024 1024.
(** The client that sent them, waiting for the acknowledgement. *)
Definition client : endpoint :=
  mkEndpoint sid false 1 2 0 [dataFrame 1 [x61]; dataFrame 2 [x62]] 0 false None [] 1022 1024.
(** A server restored from a checkpoint taken before its first response, and a client that
    has received that response. *)
Definition restored : endpoint := mkEndpoint sid false 0 0 0 [] 1 false None [] 1024 1024.
Definition clientAhead : endpoint := mkEndpoint sid false 1 1 1 [] 1 false None [] 1024 1024.
End StoreRuns.
Import StoreRuns.

Lemma only_latest_grantee_writes_witness :
  (runOp (ORenew "s1" "gwA" 1 100 20) (runOps takenOver ∅ ∅).1).2 = false ∧
  (runOps takenOver ∅ ∅).2 !! "s1" = Some ("gwB", 2).
Proof.
  split; [vm_compute; reflexivity|].
  apply (only_latest_grantee_writes takenOver (runOps takenOver ∅ ∅).1 (runOps takenOver ∅ ∅).2
    (ORenew "s1" "gwB" 2 100 20) (runOp (ORenew "s1" "gwB" 2 100 20) (runOps takenOver ∅ ∅).1).1.1 None).
  - apply surjective_pairing.
  - vm_compute. reflexivity.
  - reflexivity.
  - discriminate.
Defined.

Lemma claim_race_has_one_winner_witness :
  grantsOf "s1" racers (runOps [OAcquire "s1" "gwA" 0 100 0] ∅ ∅).1 = 1%nat ∧
  (grantsOf "s1" racers (runOps [OAcquire "s1" "gwA" 0 100 0] ∅ ∅).1 ≤ 1)%nat.
Proof.
  split; [vm_compute; reflexivity|].
  apply (claim_race_has_one_winner "s1" 1). repeat constructor.
Defined.


Lemma snapshot_restore_resumes_witness :
  ∃ e', restoreEndpoint (stamp (withLease (hexEncode sid) "gwB" 2 100 (snapshot client [] 0))) = Some e' ∧
    sendBuf e' = sendBuf client ∧ (bind [true; true] 1 e').2 = (bind [true; true] 1 client).2.
Proof.
  destruct (snapshot_restore_resumes client [] 0 "gwB" 2 100 [true; true] 1)
    as (e' & He & _ & _ & _ & _ & Hb & _ & _ & Hev).
  - split; [reflexivity|]. split; [vm_compute; lia|]. repeat constructor.
  - exists e'. split; [exact He|]. split; [exact Hb|exact Hev].
Defined.

Lemma failover_loses_queued_requests_witness :
  inbound server = [[x62]] ∧
  ∃ e', restoreEndpoint (snapshot server [] 0) = Some e' ∧ inbound e' = [] ∧
    (bind [true; true] (recvCursor e') client).2 = [].
Proof.
  split; [reflexivity|].
  destruct (restoreEndpoint (snapshot server [] 0)) as [e'|] eqn:E; [|vm_compute in E; discriminate E].
  exists e'. split; [reflexivity|].
  destruct (failover_loses_queued_requests server [] 0 e' client [true; true] E) as (Hi & _ & Hev).
  - repeat constructor; vm_compute; discriminate.
  - vm_compute. reflexivity.
  - split; [exact Hi|exact Hev].
Defined.

Lemma failover_from_stale_snapshot_loses_response_witness :
  ∃ e2 evs, Send GotSlot true [x63] (bind [] (recvCursor clientAhead) restored).1 = Some (Ok tt, e2, evs) ∧
    ∀ f, f ∈ sendBuf e2 → recvCommit f clientAhead = (clientAhead, recvSeq clientAhead, None).
Proof.
  apply (failover_from_stale_snapshot_loses_response restored clientAhead [x63] []).
  - reflexivity.
  - reflexivity.
  - discriminate.
  - simpl. lia.
  - split; simpl; lia.
  - split; simpl; lia.
  - simpl. lia.
Defined.
