(* ===== verification/Policy.v ===== *)
(** * Policy: rules and the pure decision (src/policy/policy.go, groups.go, validate.go)

    Rules, their matchers, the stateless [Decide] and [DecideMethod], time windows, group
    membership and configuration validation. The IANA time zone database
    ([time.LoadLocation]) and [time.ParseDuration] are parameters. *)
From S2P Require Import Prelude GoStd.
From stdpp Require Import base list strings gmap.
From Stdlib Require Import ZArith Lia Ascii.
Open Scope Z_scope.

(** ** Verdicts *)

Inductive Outcome := OutcomeDeny | OutcomeAllow | OutcomeCosign.
#[export] Instance Outcome_eq_dec : EqDecision Outcome.
Proof. solve_decision. Defined.

Definition Outcome_String (o : Outcome) : string :=
  match o with
  | OutcomeAllow => "allow"
  | OutcomeCosign => "cosign"
  | OutcomeDeny => "deny"
  end.

(** Why a capability is refused (the errors of [capability.go] and
    [capability_delegation.go]). *)
Inductive capErr :=
| NotBase64OrJSON | BadVersion | UnpinnedAuthority | BadSignature
| SubjectMismatch | AudienceMismatch | ToolNotCovered
| LifetimeTooLong | NotYetValid | Expired | Revoked | SubjectRevoked
| NoReplayCache | AlreadyUsed (id : string)
| ChainTooDeep | ParentSingleUse | ParentNotDelegable | ParentAudience | OutlivesParent
| ToolsNotNarrower | CorporaNotNarrower | BadDelegatePub | NotDelegateKey
| RandFailed | MissingFields | HasParent | BadToolGlob | ExpiryInPast | SingleUseDelegation
| NoDelegateKey | DelegateKeyMismatch | CallerChosenID.

(** Why a decision was taken: the [Reason] strings of the code, with the values they print. *)
Inductive Reason :=
| NoReason
| DeniedByRule
| BlockedByLabel (label : string)
| BlockedByTaint
| RateLimited (max : Z) (per : Z)
| RequestCosigned
| AwaitingRequestCosign (tool : string)
| Cosigned
| AwaitingCosign (tool : string)
| CapabilityMissing
| CapabilityNoVerifier
| CapabilityInvalid (err : capErr)
| CapabilityGranted (id issuer : string)
| DelegationMissing
| DelegationInvalid
| DeniedByRouterPolicy (r : Reason)
| DeniedByCallerPolicy (r : Reason)
| DelegatedAllow
| Rejected (text : string)
| HookReason (text : string).

Record Decision := mkDecision {
  Allow : bool;
  RuleID : Z;
  outcome : Outcome;
  reason : Reason;
  AddLabels : list string;
  Cost : Z;
  RetryAfter : Z
}.

Definition outcomeOf (allow : bool) : Outcome :=
  if allow then OutcomeAllow else OutcomeDeny.

(** ** Rules *)

Record RateLimit := mkRateLimit { Max : Z; Per : string; RCost : Z }.
Record Window := mkWindow { Days : list string; Hours : string; TZ : string }.

Record Rule := mkRule {
  Peers : list string;
  Tools : list string;
  Methods : list string;
  RAllow : bool;
  Rate : option RateLimit;
  When : option Window;
  RequireCosign : bool;
  TaintSource : bool;
  TaintGuard : bool;
  EmitLabels : list string;
  BlockLabels : list string
}.

Definition emitSet (r : Rule) : list string :=
  r.(EmitLabels) ++ (if r.(TaintSource) then ["tainted"] else []).

Definition blockSet (r : Rule) : list string :=
  r.(BlockLabels) ++ (if r.(TaintGuard) then ["tainted"] else []).

Record Policy := mkPolicy { DefaultAllow : bool; Rules : list Rule }.

Definition nonempty {A} (l : list A) : bool := match l with [] => false | _ => true end.

Definition UsesLabels (p : option Policy) : bool :=
  match p with
  | None => false
  | Some p => existsb (λ r, nonempty (emitSet r) || nonempty (blockSet r)) p.(Rules)
  end.


(** ** Matchers *)

(** One peer pattern without a [pubkey:] prefix, or one tool or method pattern. *)
Definition matchPattern (p v : string) : bool :=
  (p =? "*")%string || (v =? p)%string || pathMatchOk p v.

Definition matchPeerPattern (fqdn key p : string) : bool :=
  match cutPrefix "pubkey:" p with
  | Some k => (k =? key)%string
  | None => matchPattern p fqdn
  end.

Definition matchesPeer (r : Rule) (fqdn key : string) : bool :=
  match r.(Peers) with
  | [] => true
  | ps => existsb (matchPeerPattern fqdn key) ps
  end.

Definition matchesTool (r : Rule) (tool : string) : bool :=
  match r.(Tools) with
  | [] => true
  | ts => existsb (λ t, matchPattern t tool) ts
  end.

Definition matchesMethod (r : Rule) (method : string) : bool :=
  existsb (λ m, matchPattern m method) r.(Methods).

(** [StaticGroups.InGroup]. *)
Definition InGroup (g : gmap string (list string)) (peerKey peerFQDN group : string) : bool :=
  existsb (matchPeerPattern peerFQDN peerKey) (default [] (g !! group)).

(** ** Pure decisions *)

(** The first rule for which [applies] holds, with its index counted from [i]. *)
Fixpoint firstRule (applies : Rule → bool) (i : Z) (rs : list Rule) : option (Z * Rule) :=
  match rs with
  | [] => None
  | r :: rs => if applies r then Some (i, r) else firstRule applies (i + 1) rs
  end.

Definition ruleDecision (i : Z) (allow : bool) : Decision :=
  mkDecision allow i (outcomeOf allow) NoReason [] 0 0.

Definition Decide (p : Policy) (peerFQDN peerKey tool : string) : Decision :=
  match firstRule (λ r, negb (nonempty r.(Methods)) && matchesPeer r peerFQDN peerKey
                        && matchesTool r tool) 0 p.(Rules) with
  | Some (i, r) => ruleDecision i r.(RAllow)
  | None => ruleDecision (-1) p.(DefaultAllow)
  end.

Definition DecideMethod (p : Policy) (peerFQDN peerKey method : string) : Decision :=
  match firstRule (λ r, nonempty r.(Methods) && matchesPeer r peerFQDN peerKey
                        && matchesMethod r method) 0 p.(Rules) with
  | Some (i, r) => ruleDecision i r.(RAllow)
  | None => ruleDecision (-1) true
  end.

(** ** Time windows *)

Definition weekdayNames (s : string) : option Z :=
  if (s =? "sun")%string then Some 0 else if (s =? "mon")%string then Some 1
  else if (s =? "tue")%string then Some 2 else if (s =? "wed")%string then Some 3
  else if (s =? "thu")%string then Some 4 else if (s =? "fri")%string then Some 5
  else if (s =? "sat")%string then Some 6 else None.

Definition parseHM (s : string) : option Z :=
  let '(h, m) := splitAt ":"%char (trimSpace s) in
  match atoi h with
  | None => None
  | Some h =>
      if (h <? 0) || (24 <? h) then None
      else
        match m with
        | None => Some (h * 60)
        | Some m =>
            match atoi m with
            | None => None
            | Some m => if (m <? 0) || (59 <? m) then None else Some (h * 60 + m)
            end
        end
  end.

Definition parseHourRange (s : string) : option (Z * Z) :=
  match splitAt "-"%char s with
  | (_, None) => None
  | (a, Some b) =>
      match parseHM a, parseHM b with
      | Some lo, Some hi => Some (lo, hi)
      | _, _ => None
      end
  end.

(** An instant is a number of nanoseconds since the Unix epoch; a location gives the offset
    of local time from UTC, in seconds, at an instant. *)
Definition Instant := Z.
Definition Location := Instant → Z.

Definition localSeconds (loc : Location) (t : Instant) : Z := t / 1000000000 + loc t.
Definition Weekday (loc : Location) (t : Instant) : Z := (localSeconds loc t / 86400 + 4) mod 7.
Definition minuteOfDay (loc : Location) (t : Instant) : Z :=
  (localSeconds loc t mod 86400) / 60.

Section Windows.
Context (LoadLocation : string → option Location) (ParseDuration : string → option Z).

Definition windowLoc (w : Window) : Location :=
  if (w.(TZ) =? "")%string then λ _, 0 else default (λ _, 0) (LoadLocation w.(TZ)).

Definition dayMatches (w : Window) (wd : Z) : bool :=
  match w.(Days) with
  | [] => true
  | ds => existsb (λ d, bool_decide (weekdayNames (toLower (trimSpace d)) = Some wd)) ds
  end.

(** [Window.active]. *)
Definition active (w : Window) (t : Instant) : bool :=
  let loc := windowLoc w in
  if negb (dayMatches w (Weekday loc t)) then false
  else if (w.(Hours) =? "")%string then true
  else
    match parseHourRange w.(Hours) with
    | None => false
    | Some (lo, hi) =>
        let mins := minuteOfDay loc t in
        if lo <=? hi then (lo <=? mins) && (mins <? hi)
        else (lo <=? mins) || (mins <? hi)
    end.

(** [RateLimit.window], in nanoseconds. *)
Definition window (rl : RateLimit) : Z :=
  if (rl.(Per) =? "")%string then 1000000000
  else
    match ParseDuration rl.(Per) with
    | Some d => if d <=? 0 then 1000000000 else d
    | None => 1000000000
    end.

(** ** Configuration validation *)

Inductive validateErr :=
| NoToolsNorMethods | ToolsAndMethods | BadGlob (g : string)
| BadRateMax | BadRatePer | BadTZ | BadDay (d : string) | BadHours.

Definition firstErr {A E} (f : A → option E) : list A → option E :=
  fold_right (λ a acc, match f a with Some e => Some e | None => acc end) None.

Definition validateGlob (g : string) : option validateErr :=
  match pathMatch g "" with None => Some (BadGlob g) | Some _ => None end.

Definition validatePeer (g : string) : option validateErr :=
  match pathMatch (trimPrefix "pubkey:" g) "" with
  | None => Some (BadGlob g) | Some _ => None end.

Definition validateWindow (w : Window) : option validateErr :=
  if negb (w.(TZ) =? "")%string && isNone (LoadLocation w.(TZ))
  then Some BadTZ
  else
    match firstErr (λ d, match weekdayNames (toLower d) with
                         | None => Some (BadDay d) | Some _ => None end) w.(Days) with
    | Some e => Some e
    | None =>
        if negb (w.(Hours) =? "")%string && isNone (parseHourRange w.(Hours))
        then Some BadHours else None
    end.
Definition validateRate (rl : RateLimit) : option validateErr :=
  if rl.(Max) <=? 0 then Some BadRateMax
  else if (rl.(Per) =? "")%string then None
  else
    match ParseDuration rl.(Per) with
    | Some d => if d <=? 0 then Some BadRatePer else None
    | None => Some BadRatePer
    end.

(** The checks of one rule, in the order of [Policy.Validate]. *)
Definition validateRule (r : Rule) : option validateErr :=
  if negb (nonempty r.(Tools)) && negb (nonempty r.(Methods)) then Some NoToolsNorMethods
  else if nonempty r.(Tools) && nonempty r.(Methods) then Some ToolsAndMethods
  else
    match firstErr validatePeer r.(Peers), firstErr validateGlob r.(Tools),
          firstErr validateGlob r.(Methods) with
    | Some e, _, _ | None, Some e, _ | None, None, Some e => Some e
    | None, None, None =>
        match r.(Rate) ≫= validateRate with
        | Some e => Some e
        | None => r.(When) ≫= validateWindow
        end
    end.

(** [Policy.Validate]; a nil policy is valid. *)
Definition Validate (p : option Policy) : option validateErr :=
  match p with None => None | Some p => firstErr validateRule p.(Rules) end.
End Windows.

(** ** First match wins *)

(** [i, r] is the first rule of [rs] (counted from [k]) for which [applies] holds. *)
Definition is_first (applies : Rule → bool) (rs : list Rule) (i : Z) (r : Rule) : Prop :=
  0 ≤ i ∧ rs !! Z.to_nat i = Some r ∧ applies r = true ∧
  ∀ j r', (j < Z.to_nat i)%nat → rs !! j = Some r' → applies r' = false.

Lemma firstRule_from applies k rs :
  match firstRule applies k rs with
  | Some (i, r) => ∃ n, i = k + Z.of_nat n ∧ rs !! n = Some r ∧ applies r = true ∧
      ∀ j r', (j < n)%nat → rs !! j = Some r' → applies r' = false
  | None => ∀ j r', rs !! j = Some r' → applies r' = false
  end.
Proof.
  revert k. induction rs as [|r rs IH]; intros k; simpl; [done|].
  destruct (applies r) eqn:Ha.
  { exists 0%nat. split; [lia|]. split; [done|]. split; [done|]. intros; lia. }
  specialize (IH (k + 1)). destruct (firstRule applies (k + 1) rs) as [[i r']|].
  - destruct IH as (n & -> & Hn & Hr & Hlt). exists (S n). split; [lia|]. split; [done|].
    split; [done|]. intros [|j] r'' Hj Hl; simplify_eq/=; [done|]. eapply Hlt; [|done]. lia.
  - intros [|j] r'' Hl; simplify_eq/=; [done|]. by eapply IH.
Qed.

Lemma firstRule_Some applies rs i r :
  firstRule applies 0 rs = Some (i, r) ↔ is_first applies rs i r.
Proof.
  pose proof (firstRule_from applies 0 rs) as H.
  destruct (firstRule applies 0 rs) as [[i' r']|].
  - destruct H as (n & -> & Hn & Ha & Hlt). split.
    + intros [= <- <-]. unfold is_first. rewrite Z.add_0_l, Nat2Z.id. eauto with lia.
    + intros (Hi & Hr & Har & Hlt').
      destruct (Nat.lt_trichotomy n (Z.to_nat i)) as [Hc|[Hc|Hc]].
      * rewrite (Hlt' n r' Hc Hn) in Ha. done.
      * subst n. rewrite Hn in Hr. simplify_eq. do 2 f_equal. lia.
      * rewrite (Hlt _ _ Hc Hr) in Har. done.
  - split; [done|]. intros (Hi & Hr & Har & _). rewrite (H _ _ Hr) in Har. done.
Qed.

Lemma firstRule_None applies rs :
  firstRule applies 0 rs = None ↔ ∀ r, r ∈ rs → applies r = false.
Proof.
  pose proof (firstRule_from applies 0 rs) as H.
  destruct (firstRule applies 0 rs) as [[i r]|]; (split; [try done|]).
  - intros Hn. destruct H as (n & _ & Hr & Ha & _).
    apply list_elem_of_lookup_2 in Hr. by rewrite Hn in Ha.
  - intros _ r [n Hr]%list_elem_of_lookup. by eapply H.
  - done.
Qed.

Lemma firstRule_ext f g k rs :
  (∀ r, r ∈ rs → f r = g r) → firstRule f k rs = firstRule g k rs.
Proof.
  revert k. induction rs as [|r rs IH]; intros k H; simpl; [done|].
  rewrite (H r) by left. case_match; [done|]. apply IH. intros r' Hr. apply H. by right.
Qed.

(** ** Validation at load time *)

Lemma firstErr_None {A E} (f : A → option E) l :
  firstErr f l = None → ∀ a, a ∈ l → f a = None.
Proof.
  induction l as [|x l IH]; simpl; intros H a Ha; [by apply elem_of_nil in Ha|].
  destruct (f x) eqn:Hx; [done|]. apply elem_of_cons in Ha as [->|Ha]; auto.
Qed.

Lemma validateGlob_None g n : validateGlob g = None → pathMatch g n ≠ None.
Proof.
  unfold validateGlob. destruct (pathMatch g "") eqn:Hg; [|done]. intros _.
  apply pathMatch_wellformed. by rewrite Hg.
Qed.

Lemma trimPrefix_none pre s : cutPrefix pre s = None → trimPrefix pre s = s.
Proof. unfold trimPrefix. by intros ->. Qed.

Section ValidateProofs.
Context (LoadLocation : string → option Location) (ParseDuration : string → option Z).

End ValidateProofs.

