(* ===== verification/Engine.v ===== *)
(** * Engine: the stateful policy engine (src/policy/engine.go)

    Rate-limit buckets, time windows, co-sign and data-flow labels on top of the rules of
    [Policy]. The engine is a record passed and returned by each operation. Its bucket
    arithmetic is the [float64] arithmetic of the code, behind the interface [Float64]:
    the laws stated there hold of the finite IEEE doubles (rounding is monotone) and of the
    rationals, so the theorems do not depend on a rounding mode. *)
From stdpp Require Import base list strings gmap.
From Stdlib Require Import ZArith Lia QArith Qminmax Lqa.
From S2P Require Import Prelude GoStd Policy.
Open Scope Z_scope.

(** ** float64 *)

Class Float64 := {
  F : Type;
  f_of_Z : Z → F;
  fadd : F → F → F;
  fsub : F → F → F;
  fmul : F → F → F;
  fdiv : F → F → F;
  fleb : F → F → bool;
  f_trunc : F → Z
}.

Definition fltb `{Float64} (a b : F) : bool := negb (fleb b a).

(** What the bucket relies on: a total order, and arithmetic whose rounding is monotone. *)
Class Float64Laws `{Float64} : Prop := {
  fle_refl a : fleb a a = true;
  fle_trans a b c : fleb a b = true → fleb b c = true → fleb a c = true;
  fle_total a b : fleb a b = true ∨ fleb b a = true;
  f_one_pos : fltb (f_of_Z 0) (f_of_Z 1) = true;
  fle_of_Z x y : x ≤ y → fleb (f_of_Z x) (f_of_Z y) = true;
  fadd_grows a b : fleb (f_of_Z 0) b = true → fleb a (fadd a b) = true;
  fmul_nonneg a b : fleb (f_of_Z 0) a = true → fleb (f_of_Z 0) b = true →
    fleb (f_of_Z 0) (fmul a b) = true;
  fdiv_nonneg a b : fleb (f_of_Z 0) a = true → fltb (f_of_Z 0) b = true →
    fleb (f_of_Z 0) (fdiv a b) = true;
  fsub_nonneg a b : fleb b a = true → fleb (f_of_Z 0) (fsub a b) = true;
  fsub_shrinks a b : fleb (f_of_Z 0) b = true → fleb (fsub a b) a = true
}.

(** ** Time *)

Definition Second : Z := 1000000000.
Definition Millisecond : Z := 1000000.

(** [Time.Sub] saturates at the ends of [time.Duration]. *)
Definition timeSub (t u : Instant) : Z := Z.max minInt64 (Z.min maxInt64 (t - u)).

(** [Duration.Seconds]: whole seconds plus the fraction. *)
Definition Seconds `{Float64} (d : Z) : F :=
  fadd (f_of_Z (Z.quot d Second)) (fdiv (f_of_Z (Z.rem d Second)) (f_of_Z Second)).

(** ** Interfaces of the components the engine calls *)

(** The exact operation a request-bound approval authorizes. *)
Record ApprovalRequest := mkApprovalRequest {
  arPeerKey : string; arBackend : string; arTool : string; arArgsHash : string;
  arSession : string; arPolicyHash : string
}.

(** [RequestApprovalStore]: consuming an approval changes the store. *)
Class RequestApprovalStore (A : Type) := {
  ConsumeApproval : A → ApprovalRequest → Instant → bool * A
}.

(** ** Engine state *)

Record bucket `{Float64} := mkBucket { tokens : F; last : Instant }.

Record Engine `{Float64} (A : Type) := mkEngine {
  pol : Policy;
  cosign : option (string → bool);                    (* [CosignStore.Approved] *)
  reqApprovals : option A;
  groups : option (string → string → string → bool);  (* [GroupResolver.InGroup] *)
  buckets : gmap string bucket;
  ph : string                                         (* hash of the active policy *)
}.
Arguments mkEngine {_ A}.
Arguments pol {_ A}. Arguments cosign {_ A}. Arguments reqApprovals {_ A}.
Arguments groups {_ A}. Arguments buckets {_ A}. Arguments ph {_ A}.

Definition set_buckets `{Float64} {A} (b : gmap string bucket) (e : Engine A) : Engine A :=
  mkEngine e.(pol) e.(cosign) e.(reqApprovals) e.(groups) b e.(ph).
Definition set_approvals `{Float64} {A} (a : A) (e : Engine A) : Engine A :=
  mkEngine e.(pol) e.(cosign) (Some a) e.(groups) e.(buckets) e.(ph).

Definition CosignKey (peer tool : string) : string := peer +:+ "|" +:+ tool.
Definition bucketKey (ruleID : Z) (peerKey : string) : string :=
  itoa ruleID +:+ "|" +:+ peerKey.

(** [MemCosign]. *)
Definition MemCosign_Approve (m : gset string) (key : string) : gset string := {[key]} ∪ m.
Definition MemCosign_Approved (m : gset string) (key : string) : bool := bool_decide (key ∈ m).

Section Engine.
Context `{Float64} {A : Type} `{RequestApprovalStore A}.
Context (LoadLocation : string → option Location) (ParseDuration : string → option Z).
Context (PolicyHashOf : Policy → string) (canonicalArgsHash : string → string).

(** [NewEngine], [setPolicy], [SetPolicy], [SetRequestApprovals], [SetGroupResolver]. *)
Definition setPolicy (p : Policy) (e : Engine A) : Engine A :=
  mkEngine p e.(cosign) e.(reqApprovals) e.(groups) e.(buckets) (PolicyHashOf p).
Definition SetPolicy (p : option Policy) (e : Engine A) : Engine A :=
  match p with None => e | Some p => setPolicy p e end.
Definition NewEngine (p : Policy) (c : option (string → bool)) : Engine A :=
  mkEngine p c None None ∅ (PolicyHashOf p).
Definition SetGroupResolver (g : option (string → string → string → bool)) (e : Engine A)
  : Engine A := mkEngine e.(pol) e.(cosign) e.(reqApprovals) g e.(buckets) e.(ph).
Definition SetRequestApprovals (a : option A) (e : Engine A) : Engine A :=
  mkEngine e.(pol) e.(cosign) a e.(groups) e.(buckets) e.(ph).

(** [Engine.peerMatches]. *)
Definition peerMatchesPattern (e : Engine A) (fqdn key p : string) : bool :=
  match cutPrefix "group:" p with
  | Some g => match e.(groups) with Some f => f key fqdn g | None => false end
  | None => matchPeerPattern fqdn key p
  end.

Definition peerMatches (e : Engine A) (r : Rule) (fqdn key : string) : bool :=
  match r.(Peers) with
  | [] => true
  | ps => existsb (peerMatchesPattern e fqdn key) ps
  end.

(** ** The token bucket *)

Definition perSeconds (rl : RateLimit) : F :=
  let s := Seconds (window ParseDuration rl) in
  if fleb s (f_of_Z 0) then f_of_Z 1 else s.

Definition perSec (rl : RateLimit) : F := fdiv (f_of_Z rl.(Max)) (perSeconds rl).

Definition rateCost (rl : RateLimit) : F :=
  let c := f_of_Z rl.(RCost) in if fleb c (f_of_Z 0) then f_of_Z 1 else c.

(** Refill by elapsed time, capped at [Max]. *)
Definition refill (rl : RateLimit) (now : Instant) (ob : option bucket) : bucket :=
  match ob with
  | None => mkBucket _ (f_of_Z rl.(Max)) now
  | Some b =>
      let elapsed := Seconds (timeSub now b.(last)) in
      if fltb (f_of_Z 0) elapsed then
        let t := fadd b.(tokens) (fmul elapsed (perSec rl)) in
        mkBucket _ (if fltb (f_of_Z rl.(Max)) t then f_of_Z rl.(Max) else t) now
      else b
  end.

(** Take the cost, or report how long until the bucket can pay it. *)
Definition takeTokens (rl : RateLimit) (b : bucket) : bool * Z * bucket :=
  let cost := rateCost rl in
  if fleb cost b.(tokens) then (true, 0, mkBucket _ (fsub b.(tokens) cost) b.(last))
  else if fltb (f_of_Z rl.(Max)) cost then (false, 0, b)
  else
    let retry := f_trunc (fmul (fdiv (fsub cost b.(tokens)) (perSec rl)) (f_of_Z Second)) in
    (false, (if retry <? Millisecond then Millisecond else retry), b).

Definition allowRate (ruleID : Z) (peerKey : string) (rl : RateLimit) (now : Instant)
    (e : Engine A) : bool * Z * Engine A :=
  if rl.(Max) <=? 0 then (true, 0, e)
  else
    let key := bucketKey ruleID peerKey in
    let '(ok, retry, b) := takeTokens rl (refill rl now (e.(buckets) !! key)) in
    (ok, retry, set_buckets (<[key := b]> e.(buckets)) e).

(** ** Decisions *)

(** The first label of [want] set in [have]; the empty string when there is none. *)
Definition firstPresent (want : list string) (have : gset string) : string :=
  match filter (λ l, l ∈ have) want with l :: _ => l | [] => "" end.

Definition ruleCost (r : Rule) : Z :=
  match r.(Rate) with
  | None => 0
  | Some rl => if 0 <? rl.(RCost) then rl.(RCost) else 1
  end.

Definition deny (i : Z) (why : Reason) (retry : Z) : Decision :=
  mkDecision false i OutcomeDeny why [] 0 retry.
Definition hold (i : Z) (why : Reason) : Decision :=
  mkDecision false i OutcomeCosign why [] 0 0.
Definition permit (i : Z) (why : Reason) (r : Rule) : Decision :=
  mkDecision true i OutcomeAllow why (emitSet r) (ruleCost r) 0.

(** A call of [peer] for [tool] on [backend] with arguments [args], in a session that
    carries [labels]; [bound] selects request-bound co-sign. *)
Record Call := mkCall {
  cFQDN : string; cKey : string; cBackend : string; cTool : string;
  cArgs : string; cLabels : gset string; cBound : bool
}.

Definition whenActive (r : Rule) (now : Instant) : bool :=
  match r.(When) with None => true | Some w => active LoadLocation w now end.

(** The guards of the rule loop: the rule governs tools, and peer, tool and window match. *)
Definition applies (e : Engine A) (c : Call) (now : Instant) (r : Rule) : bool :=
  negb (nonempty r.(Methods)) && peerMatches e r c.(cFQDN) c.(cKey)
  && matchesTool r c.(cTool) && whenActive r now.

(** The co-sign branch. *)
Definition decideCosign (i : Z) (r : Rule) (c : Call) (now : Instant) (e : Engine A)
  : Decision * Engine A :=
  match (if c.(cBound) then e.(reqApprovals) else None) with
  | Some a =>
      let req := mkApprovalRequest c.(cKey) c.(cBackend) c.(cTool)
        (canonicalArgsHash c.(cArgs)) "" e.(ph) in
      let '(ok, a') := ConsumeApproval a req now in
      let e := set_approvals a' e in
      if ok : bool then (permit i RequestCosigned r, e)
      else (hold i (AwaitingRequestCosign c.(cTool)), e)
  | None =>
      match e.(cosign) with
      | Some approved =>
          if approved (CosignKey c.(cFQDN) c.(cTool)) then (permit i Cosigned r, e)
          else (hold i (AwaitingCosign c.(cTool)), e)
      | None => (hold i (AwaitingCosign c.(cTool)), e)
      end
  end.

(** The body of the loop for the rule that applies. *)
Definition decideRule (i : Z) (r : Rule) (c : Call) (now : Instant) (e : Engine A)
  : Decision * Engine A :=
  if negb r.(RAllow) then (deny i DeniedByRule 0, e)
  else
    let blocked := firstPresent (blockSet r) c.(cLabels) in
    if negb (blocked =? "")%string then
      (deny i (if (blocked =? "tainted")%string then BlockedByTaint
               else BlockedByLabel blocked) 0, e)
    else
      let rated := match r.(Rate) with
        | None => (None, e)
        | Some rl =>
            let '(ok, retry, e') := allowRate i c.(cKey) rl now e in
            (if ok : bool then None
             else Some (deny i (RateLimited rl.(Max) (window ParseDuration rl)) retry), e')
        end in
      match rated with
      | (Some d, e) => (d, e)
      | (None, e) =>
          if r.(RequireCosign) then decideCosign i r c now e
          else (permit i NoReason r, e)
      end.

(** [Engine.decideTool] at the instant [now]. *)
Definition decideTool (c : Call) (now : Instant) (e : Engine A) : Decision * Engine A :=
  match firstRule (applies e c now) 0 e.(pol).(Rules) with
  | Some (i, r) => decideRule i r c now e
  | None => (ruleDecision (-1) e.(pol).(DefaultAllow), e)
  end.

(** [Engine.DecideToolCall] (ambient co-sign) and [Engine.DecideToolCallBound]. *)
Definition DecideToolCall (fqdn key tool : string) (labels : gset string) (now : Instant)
    (e : Engine A) : Decision * Engine A :=
  decideTool (mkCall fqdn key "" tool "" labels false) now e.
Definition DecideToolCallBound (fqdn key backend tool args : string) (labels : gset string)
    (now : Instant) (e : Engine A) : Decision * Engine A :=
  decideTool (mkCall fqdn key backend tool args labels true) now e.

(** [Engine.RuleEffects]. *)
Definition RuleEffects (ruleID : Z) (e : Engine A) : option (list string * Z) :=
  if (ruleID <? 0) || (Z.of_nat (length e.(pol).(Rules)) <=? ruleID) then None
  else
    match e.(pol).(Rules) !! Z.to_nat ruleID with
    | Some r => Some (emitSet r, ruleCost r)
    | None => None
    end.
End Engine.

(** ** Bucket keys identify the rule and the peer *)

Definition bar : Ascii.ascii := Ascii.Ascii false false true true true true true false.

Lemma bucketKey_inj i j p q :
  0 ≤ i < 10 ^ 20 → 0 ≤ j < 10 ^ 20 → bucketKey i p = bucketKey j q → i = j.
Proof.
  intros Hi Hj E. apply itoa_inj; [done|done|].
  assert (Hs : ∀ k r, 0 ≤ k → (splitAt bar (bucketKey k r)).1 = itoa k).
  { intros k r Hk. unfold bucketKey, itoa. destruct (Z.ltb_spec k 0); [lia|].
    apply (splitAt_itoaPos bar 20 k "" r); [by right|done]. }
  rewrite <- (Hs i p), <- (Hs j q) by lia. by rewrite E.
Qed.

Section EngineProofs.
Context `{Float64Laws} {A : Type} `{RequestApprovalStore A}.
Context (LoadLocation : string → option Location) (ParseDuration : string → option Z).
Context (canonicalArgsHash : string → string).

Notation decideTool := (decideTool (A := A) LoadLocation ParseDuration canonicalArgsHash).
Notation decideRule := (decideRule (A := A) ParseDuration canonicalArgsHash).
Notation applies := (applies (A := A) LoadLocation).

(** ** Buckets stay within their capacity *)

Definition bucket_ok (rl : RateLimit) (b : bucket) : Prop :=
  fleb (f_of_Z 0) b.(tokens) = true ∧ fleb b.(tokens) (f_of_Z rl.(Max)) = true.

Lemma perSec_nonneg rl : 0 < rl.(Max) → fleb (f_of_Z 0) (perSec ParseDuration rl) = true.
Proof.
  intros Hm. apply fdiv_nonneg; [apply fle_of_Z; lia|].
  unfold perSeconds. case_match eqn:E; [apply f_one_pos|]. unfold fltb. by rewrite E.
Qed.

Lemma rateCost_nonneg rl : fleb (f_of_Z 0) (rateCost rl) = true.
Proof.
  unfold rateCost. case_match eqn:E; [apply fle_of_Z; lia|].
  destruct (fle_total (f_of_Z 0) (f_of_Z (RCost rl))); congruence.
Qed.

Lemma refill_ok rl now ob :
  0 < rl.(Max) → (∀ b, ob = Some b → bucket_ok rl b) →
  bucket_ok rl (refill ParseDuration rl now ob).
Proof.
  intros Hm Hob. destruct ob as [b|]; simpl.
  - destruct (Hob b eq_refl) as [Hb0 Hb1]. case_match eqn:He; [|done].
    unfold fltb in He. apply negb_true_iff in He.
    set (t := fadd _ _). split; simpl; case_match eqn:Et.
    + apply fle_of_Z. lia.
    + eapply fle_trans; [exact Hb0|]. apply fadd_grows, fmul_nonneg.
      * by destruct (fle_total (f_of_Z 0) (Seconds (timeSub now (last b)))); [|congruence].
      * by apply perSec_nonneg.
    + apply fle_refl.
    + unfold fltb in Et. by apply negb_false_iff in Et.
  - split; simpl; [apply fle_of_Z; lia|apply fle_refl].
Qed.

Lemma takeTokens_ok rl b ok retry b' :
  bucket_ok rl b → takeTokens ParseDuration rl b = (ok, retry, b') → bucket_ok rl b'.
Proof.
  intros [Hb0 Hb1]. unfold takeTokens. case_match eqn:Hc.
  - intros [= <- <- <-]. split; simpl; [by apply fsub_nonneg|].
    eapply fle_trans; [|exact Hb1]. apply fsub_shrinks, rateCost_nonneg.
  - case_match; by intros [= <- <- <-].
Qed.

Lemma takeTokens_cases rl b ok retry b' :
  takeTokens ParseDuration rl b = (ok, retry, b') →
  (ok = true ∧ fleb (rateCost rl) b.(tokens) = true ∧
    b' = mkBucket _ (fsub b.(tokens) (rateCost rl)) b.(last)) ∨ (ok = false ∧ b' = b).
Proof.
  unfold takeTokens. destruct (fleb _ _) eqn:Ef; [|destruct (fltb _ _)];
    intros [= <- <- <-]; auto.
Qed.

(** Every bucket of a rate-limited rule holds between zero and [Max] tokens. *)
Definition engine_ok (e : Engine A) : Prop :=
  Z.of_nat (length e.(pol).(Rules)) ≤ maxInt64 ∧
  ∀ i r rl peer b, e.(pol).(Rules) !! i = Some r → r.(Rate) = Some rl → 0 < rl.(Max) →
    e.(buckets) !! bucketKey (Z.of_nat i) peer = Some b → bucket_ok rl b.

Lemma allowRate_ok i r rl peer now e ok retry e' :
  engine_ok e → 0 ≤ i → e.(pol).(Rules) !! Z.to_nat i = Some r → r.(Rate) = Some rl →
  allowRate ParseDuration i peer rl now e = (ok, retry, e') → engine_ok e'.
Proof.
  intros [Hlen Hok] Hi Hr Hrl. unfold allowRate. case_match eqn:Hm; [by intros [= <- <- <-]|].
  breflect. destruct (takeTokens _ _ _) as [[ok' retry'] b'] eqn:Ht.
  intros [= <- <- <-]. split; [done|]. simpl. intros j r' rl' peer' b Hr' Hrl' Hm' Hb.
  assert (Hlt : ∀ k x, Rules (pol e) !! k = Some x → Z.of_nat k < 10 ^ 20).
  { intros k x Hk%lookup_lt_Some. unfold maxInt64 in Hlen. lia. }
  apply lookup_insert_Some in Hb as [[Hk <-]|[_ Hb]]; [|by eapply Hok].
  apply bucketKey_inj in Hk; [|split; [done|]|split; [lia|by eapply Hlt]].
  2:{ specialize (Hlt _ _ Hr). lia. }
  subst i. rewrite Nat2Z.id in Hr. rewrite Hr in Hr'. simplify_eq.
  eapply takeTokens_ok; [|exact Ht]. apply refill_ok; [done|].
  intros b0 Hb0. by eapply Hok.
Qed.

Lemma decideCosign_buckets i r c now e d e' :
  decideCosign (A := A) canonicalArgsHash i r c now e = (d, e') →
  e'.(buckets) = e.(buckets) ∧ e'.(pol) = e.(pol).
Proof. unfold decideCosign. intros Hd. repeat (case_in Hd); by simplify_eq/=. Qed.

(** What the rate check of a rule leaves behind. *)
Lemma allowRate_spec i peer rl now (e : Engine A) ok retry e' :
  allowRate ParseDuration i peer rl now e = (ok, retry, e') →
  e'.(pol) = e.(pol) ∧ e'.(cosign) = e.(cosign) ∧ e'.(reqApprovals) = e.(reqApprovals) ∧
  e'.(groups) = e.(groups) ∧ e'.(ph) = e.(ph) ∧
  (0 < rl.(Max) →
    let b := refill ParseDuration rl now (e.(buckets) !! bucketKey i peer) in
    (ok = true ↔ fleb (rateCost rl) b.(tokens) = true) ∧
    (ok = true → e'.(buckets) = <[bucketKey i peer :=
       mkBucket _ (fsub b.(tokens) (rateCost rl)) b.(last)]> e.(buckets))).
Proof.
  unfold allowRate. case_match eqn:Hm.
  { intros [= <- <- <-]. breflect. repeat split; lia. }
  unfold takeTokens. cbv zeta.
  destruct (fleb (rateCost rl) _) eqn:Ef; [|destruct (fltb _ (rateCost rl))];
    simpl; intros [= <- <- <-]; simpl; split_and!; done.
Qed.

(** A non-empty blocking label that the session carries is found. *)
Lemma firstPresent_found want have l :
  "" ∉ want → l ∈ want → l ∈ have → firstPresent want have ≠ "".
Proof.
  unfold firstPresent. intros He Hw Hh.
  destruct (filter (λ l, l ∈ have) want) as [|x xs] eqn:Ef.
  - assert (Hin : l ∈ filter (λ l, l ∈ have) want) by by apply list_elem_of_filter.
    rewrite Ef in Hin. by apply elem_of_nil in Hin.
  - assert (Hx : x ∈ filter (λ l, l ∈ have) want) by (rewrite Ef; by left).
    apply list_elem_of_filter in Hx as [_ Hx]. intros ->. done.
Qed.

Lemma firstPresent_none want have :
  (∀ l, l ∈ want → l ∉ have) → firstPresent want have = "".
Proof.
  intros Hn. unfold firstPresent.
  destruct (filter (λ l, l ∈ have) want) as [|x xs] eqn:Ef; [done|].
  assert (Hx : x ∈ filter (λ l, l ∈ have) want) by (rewrite Ef; by left).
  apply list_elem_of_filter in Hx as [Hx1 Hx2]. by destruct (Hn x).
Qed.

Lemma decideCosign_allow i r c now (e : Engine A) d e' :
  decideCosign canonicalArgsHash i r c now e = (d, e') → d.(outcome) = OutcomeAllow →
  d.(RuleID) = i ∧ d.(AddLabels) = emitSet r ∧
  match (if c.(cBound) then e.(reqApprovals) else None) with
  | Some a => (ConsumeApproval a (mkApprovalRequest c.(cKey) c.(cBackend) c.(cTool)
      (canonicalArgsHash c.(cArgs)) "" e.(ph)) now).1 = true
  | None => ∃ approved, e.(cosign) = Some approved ∧
      approved (CosignKey c.(cFQDN) c.(cTool)) = true
  end.
Proof.
  unfold decideCosign. intros Hd Ho.
  destruct (if cBound c then reqApprovals e else None) as [a|].
  - destruct (ConsumeApproval _ _ _) as [[] a'] eqn:Ea; simplify_eq/=; done.
  - destruct (cosign e) as [ap|]; [|by simplify_eq].
    destruct (ap _) eqn:Hap; simplify_eq/=; eauto.
Qed.

(** An allow of a co-signed rule under a request store has consumed from the store. *)
Lemma decideRule_consumes i r c now e d e' a :
  decideRule i r c now e = (d, e') → d.(outcome) = OutcomeAllow →
  r.(RequireCosign) = true → c.(cBound) = true → e.(reqApprovals) = Some a →
  let req := mkApprovalRequest c.(cKey) c.(cBackend) c.(cTool)
    (canonicalArgsHash c.(cArgs)) "" e.(ph) in
  e'.(reqApprovals) = Some (ConsumeApproval a req now).2 ∧ e'.(ph) = e.(ph) ∧
  (ConsumeApproval a req now).1 = true.
Proof.
  unfold decideRule. intros Hd Ho Hc Hbd Ha. rewrite Hc in Hd.
  destruct (RAllow r); simpl in Hd; [|by simplify_eq].
  destruct (firstPresent _ _ =? "")%string; simpl in Hd; [|by simplify_eq].
  assert (Hcos : ∀ e1, reqApprovals e1 = Some a → ph e1 = ph e →
    decideCosign canonicalArgsHash i r c now e1 = (d, e') →
    let req := mkApprovalRequest (cKey c) (cBackend c) (cTool c)
      (canonicalArgsHash (cArgs c)) "" (ph e) in
    reqApprovals e' = Some (ConsumeApproval a req now).2 ∧ ph e' = ph e ∧
    (ConsumeApproval a req now).1 = true).
  { intros e1 Ha1 Hph1. unfold decideCosign. rewrite Hbd, Ha1, Hph1.
    destruct (ConsumeApproval _ _ _) as [[] a'] eqn:Ea; intros [= <- <-]; done. }
  destruct (Rate r) as [rl|]; [|by apply (Hcos e)].
  destruct (allowRate _ _ _ _ _ _) as [[ok retry] e1] eqn:Er.
  apply allowRate_spec in Er as (_ & _ & Hra & _ & Hph & _).
  destruct ok; [|by simplify_eq]. apply (Hcos e1); congruence.
Qed.

Lemma decideRule_allow i r c now e d e' :
  decideRule i r c now e = (d, e') → d.(outcome) = OutcomeAllow →
  d.(RuleID) = i ∧ r.(RAllow) = true ∧ d.(AddLabels) = emitSet r ∧
  ("" ∉ blockSet r → ∀ l, l ∈ blockSet r → l ∉ c.(cLabels)) ∧
  (∀ rl, r.(Rate) = Some rl → 0 < rl.(Max) →
    let b := refill ParseDuration rl now (e.(buckets) !! bucketKey i c.(cKey)) in
    fleb (rateCost rl) b.(tokens) = true ∧
    e'.(buckets) !! bucketKey i c.(cKey) =
      Some (mkBucket _ (fsub b.(tokens) (rateCost rl)) b.(last))) ∧
  (r.(RequireCosign) = true →
    match (if c.(cBound) then e.(reqApprovals) else None) with
    | Some a => (ConsumeApproval a (mkApprovalRequest c.(cKey) c.(cBackend) c.(cTool)
        (canonicalArgsHash c.(cArgs)) "" e.(ph)) now).1 = true
    | None => ∃ approved, e.(cosign) = Some approved ∧
        approved (CosignKey c.(cFQDN) c.(cTool)) = true
    end).
Proof.
  unfold decideRule. intros Hd Ho.
  destruct (RAllow r) eqn:Ha; simpl in Hd; [|by simplify_eq].
  destruct (String.eqb_spec (firstPresent (blockSet r) (cLabels c)) "") as [Hb|Hb];
    simpl in Hd; [|by simplify_eq].
  assert (Hlab : "" ∉ blockSet r → ∀ l, l ∈ blockSet r → l ∉ cLabels c).
  { intros He l Hl Hc. by destruct (firstPresent_found _ _ l He Hl Hc). }
  (* The engine after the rate check. *)
  assert (∃ e1, (if RequireCosign r
      then decideCosign canonicalArgsHash i r c now e1 = (d, e')
      else d = permit i NoReason r ∧ e' = e1) ∧
    reqApprovals e1 = reqApprovals e ∧ cosign e1 = cosign e ∧ ph e1 = ph e ∧
    (∀ rl, Rate r = Some rl → 0 < Max rl →
      let b := refill ParseDuration rl now (buckets e !! bucketKey i (cKey c)) in
      fleb (rateCost rl) (tokens b) = true ∧
      buckets e1 = <[bucketKey i (cKey c) :=
        mkBucket _ (fsub (tokens b) (rateCost rl)) (last b)]> (buckets e)))
    as (e1 & Hc & Hra & Hcs & Hph & Hrate).
  { destruct (Rate r) as [rl|].
    - destruct (allowRate _ _ _ _ _ _) as [[ok retry] e1] eqn:Er.
      apply allowRate_spec in Er as (_ & ? & ? & _ & ? & Hr).
      destruct ok; [|by simplify_eq]. exists e1.
      split; [destruct (RequireCosign r); by simplify_eq|].
      split; [done|]. split; [done|]. split; [done|].
      intros rl' [= <-] Hm. destruct (Hr Hm) as [Hok Hbk]. split; [by apply Hok|by apply Hbk].
    - exists e. split; [destruct (RequireCosign r); by simplify_eq|]. by repeat split. }
  rewrite <- Hra, <- Hcs, <- Hph.
  destruct (RequireCosign r).
  - pose proof (decideCosign_buckets _ _ _ _ _ _ _ Hc) as [Hbk _].
    apply decideCosign_allow in Hc as (? & ? & ?); [|done].
    split_and!; try done. intros rl Hrl Hm. destruct (Hrate rl Hrl Hm) as [? Hx].
    split; [done|]. by rewrite Hbk, Hx, lookup_insert_eq.
  - destruct Hc as [-> ->]. split_and!; try done.
    intros rl Hrl Hm. destruct (Hrate rl Hrl Hm) as [? Hx].
    split; [done|]. by rewrite Hx, lookup_insert_eq.
Qed.

(** C4. An allow is justified: either no rule applies and the policy allows by default,
    or the first applicable rule allows, the session carries none of the labels it
    blocks, its rate bucket could pay the cost and has been charged exactly the cost,
    and a required co-sign was satisfied (a consumed request-bound approval when the
    engine has an approval store, an ambient approval of this peer and tool otherwise). *)
Theorem allow_is_justified c now e d e' :
  decideTool c now e = (d, e') → d.(outcome) = OutcomeAllow →
  ((∀ r, r ∈ e.(pol).(Rules) → applies e c now r = false) ∧
     e.(pol).(DefaultAllow) = true ∧ e' = e) ∨
  ∃ i r, is_first (applies e c now) e.(pol).(Rules) i r ∧ d.(RuleID) = i ∧
    r.(RAllow) = true ∧ d.(AddLabels) = emitSet r ∧
    ("" ∉ blockSet r → ∀ l, l ∈ blockSet r → l ∉ c.(cLabels)) ∧
    (∀ rl, r.(Rate) = Some rl → 0 < rl.(Max) →
      let b := refill ParseDuration rl now (e.(buckets) !! bucketKey i c.(cKey)) in
      fleb (rateCost rl) b.(tokens) = true ∧
      e'.(buckets) !! bucketKey i c.(cKey) =
        Some (mkBucket _ (fsub b.(tokens) (rateCost rl)) b.(last))) ∧
    (r.(RequireCosign) = true →
      match (if c.(cBound) then e.(reqApprovals) else None) with
      | Some a => (ConsumeApproval a (mkApprovalRequest c.(cKey) c.(cBackend) c.(cTool)
          (canonicalArgsHash c.(cArgs)) "" e.(ph)) now).1 = true
      | None => ∃ approved, e.(cosign) = Some approved ∧
          approved (CosignKey c.(cFQDN) c.(cTool)) = true
      end).
Proof.
  unfold decideTool. intros Hd Ho.
  destruct (firstRule _ _ _) as [[i r]|] eqn:Ef.
  - right. apply firstRule_Some in Ef. exists i, r. split; [done|].
    by eapply decideRule_allow.
  - left. rewrite firstRule_None in Ef. simplify_eq. simpl in Ho.
    by destruct (DefaultAllow (pol e')).
Qed.

Lemma decideRule_ok i r c now e d e' :
  engine_ok e → 0 ≤ i → e.(pol).(Rules) !! Z.to_nat i = Some r →
  decideRule i r c now e = (d, e') → engine_ok e' ∧ e'.(pol) = e.(pol).
Proof.
  intros Hok Hi Hr. unfold decideRule.
  destruct (RAllow r); simpl; [|by intros [= <- <-]].
  destruct (firstPresent _ _ =? "")%string; simpl; [|by intros [= <- <-]].
  assert (Hcos : ∀ e1, engine_ok e1 ∧ pol e1 = pol e →
    decideCosign canonicalArgsHash i r c now e1 = (d, e') → engine_ok e' ∧ pol e' = pol e).
  { intros e1 [[Hl He1] Hp] Hd. apply decideCosign_buckets in Hd as [Hb Hpl].
    unfold engine_ok. rewrite Hb, Hpl, <- Hp. by split; [split|]. }
  destruct (Rate r) as [rl|] eqn:Hrl.
  - destruct (allowRate _ _ _ _ _ _) as [[ok retry] e1] eqn:Er.
    pose proof (allowRate_ok _ _ _ _ _ _ _ _ _ Hok Hi Hr Hrl Er) as Hok1.
    apply allowRate_spec in Er as (Hp & _).
    destruct ok; [|by intros [= <- <-]].
    destruct (RequireCosign r); [by apply Hcos|by intros [= <- <-]].
  - destruct (RequireCosign r); [by apply Hcos|by intros [= <- <-]].
Qed.

Lemma decideTool_ok c now e d e' :
  engine_ok e → decideTool c now e = (d, e') → engine_ok e' ∧ e'.(pol) = e.(pol).
Proof.
  intros Hok. unfold decideTool. destruct (firstRule _ _ _) as [[i r]|] eqn:Ef.
  - apply firstRule_Some in Ef as (Hi & Hr & _). by apply decideRule_ok.
  - by intros [= <- <-].
Qed.

(** A run of the engine over a sequence of calls and the instants they arrive at. *)
Fixpoint decideAll (calls : list (Call * Instant)) (e : Engine A) : list Decision * Engine A :=
  match calls with
  | [] => ([], e)
  | (c, now) :: calls =>
      let '(d, e) := decideTool c now e in
      let '(ds, e) := decideAll calls e in (d :: ds, e)
  end.

Lemma decideAll_ok calls e ds e' :
  engine_ok e → decideAll calls e = (ds, e') → engine_ok e'.
Proof.
  revert e ds. induction calls as [|[c now] calls IH]; intros e ds Hok; simpl.
  { by intros [= <- <-]. }
  destruct (decideTool c now e) as [d e1] eqn:Ed.
  destruct (decideAll calls e1) as [ds1 e2] eqn:Es. intros [= <- <-].
  eapply IH; [|exact Es]. by eapply decideTool_ok.
Qed.

Lemma decideAll_pol calls e ds e' :
  engine_ok e → decideAll calls e = (ds, e') → e'.(pol) = e.(pol).
Proof.
  revert e ds. induction calls as [|[c now] calls IH]; intros e ds Hok; simpl.
  { by intros [= <- <-]. }
  destruct (decideTool c now e) as [d e1] eqn:Ed.
  destruct (decideAll calls e1) as [ds1 e2] eqn:Es. intros [= <- <-].
  apply decideTool_ok in Ed as [Hok1 <-]; [|done]. by eapply IH.
Qed.

(** Whatever calls arrive and in whatever order of instants (the clock may go
    backwards), every bucket of every rate-limited rule of a fresh engine holds between
    zero tokens and the capacity [Max] of its rule: the float arithmetic neither
    overdraws nor overfills a bucket. *)
Theorem buckets_stay_in_range PolicyHashOf p approved calls ds e :
  Z.of_nat (length p.(Rules)) ≤ maxInt64 →
  decideAll calls (NewEngine (A := A) PolicyHashOf p approved) = (ds, e) →
  ∀ i r rl peer b, e.(pol).(Rules) !! i = Some r → r.(Rate) = Some rl → 0 < rl.(Max) →
    e.(buckets) !! bucketKey (Z.of_nat i) peer = Some b →
    fleb (f_of_Z 0) b.(tokens) = true ∧ fleb b.(tokens) (f_of_Z rl.(Max)) = true.
Proof.
  intros Hlen Hrun. eapply (decideAll_ok _ _ _ _) in Hrun as [_ Hok]; [exact Hok|].
  split; [done|]. intros. by simplify_map_eq.
Qed.

(** A rule that blocks a label of the session denies, whether it allows or not. *)
Lemma decideTool_blocked c now e i r l :
  is_first (applies e c now) e.(pol).(Rules) i r →
  "" ∉ blockSet r → l ∈ blockSet r → l ∈ c.(cLabels) →
  (decideTool c now e).1.(outcome) = OutcomeDeny ∧ (decideTool c now e).1.(RuleID) = i.
Proof.
  intros Hf He Hl Hc. unfold decideTool. apply firstRule_Some in Hf as ->.
  unfold decideRule. destruct (RAllow r); [|done]. simpl.
  destruct (String.eqb_spec (firstPresent (blockSet r) (cLabels c)) "") as [Hb|Hb]; simpl; [|done].
  by destruct (firstPresent_found _ _ l He Hl Hc).
Qed.

(** The information-flow guard: when the first applicable rule blocks a label the
    session carries, the call is denied by that rule, whatever the rule allows, however
    full its bucket and whatever approvals exist; and the attempt leaves the engine
    untouched (no token spent, no single-use approval consumed). *)
Theorem blocked_label_denies c now e i r l :
  is_first (applies e c now) e.(pol).(Rules) i r → r.(RAllow) = true →
  "" ∉ blockSet r → l ∈ blockSet r → l ∈ c.(cLabels) →
  ∃ why, decideTool c now e = (deny i why 0, e).
Proof.
  intros Hf Ha He Hl Hc. unfold decideTool. apply firstRule_Some in Hf as ->.
  unfold decideRule. rewrite Ha. simpl.
  destruct (String.eqb_spec (firstPresent (blockSet r) (cLabels c)) "") as [Hb|Hb]; simpl.
  - by destruct (firstPresent_found _ _ l He Hl Hc).
  - eauto.
Qed.

(** A rule without capability constraints and without group patterns. *)
Definition plain (r : Rule) : Prop :=
  r.(Rate) = None ∧ r.(When) = None ∧ r.(RequireCosign) = false ∧ r.(TaintGuard) = false ∧
  r.(BlockLabels) = [] ∧ ∀ p, p ∈ r.(Peers) → cutPrefix "group:" p = None.

Lemma existsb_ext_in {X} (f g : X → bool) l :
  (∀ x, x ∈ l → f x = g x) → existsb f l = existsb g l.
Proof.
  induction l as [|x l IH]; intros Hx; simpl; [done|].
  rewrite (Hx x) by left. f_equal. apply IH. intros y Hy. apply Hx. by right.
Qed.

Lemma applies_plain e c now r :
  plain r → applies e c now r =
    negb (nonempty r.(Methods)) && matchesPeer r c.(cFQDN) c.(cKey) && matchesTool r c.(cTool).
Proof.
  intros (_ & Hw & _ & _ & _ & Hg). unfold applies, whenActive. rewrite Hw, andb_true_r.
  do 2 f_equal. unfold peerMatches, matchesPeer. destruct (Peers r) as [|p ps]; [done|].
  apply existsb_ext_in. intros q Hq. unfold peerMatchesPattern. by rewrite (Hg q Hq).
Qed.

(** On a policy whose rules carry no capability constraint the stateful engine is
    the pure policy: it returns the verdict and the rule of [Policy.Decide] and does not
    change state, whatever labels, approvals, buckets and clock it is given. *)
Theorem engine_refines_Decide c now e :
  (∀ r, r ∈ e.(pol).(Rules) → plain r) →
  let d := (decideTool c now e).1 in
  let d' := Decide e.(pol) c.(cFQDN) c.(cKey) c.(cTool) in
  d.(Allow) = d'.(Allow) ∧ d.(RuleID) = d'.(RuleID) ∧ d.(outcome) = d'.(outcome) ∧
  (decideTool c now e).2 = e.
Proof.
  intros Hp. unfold decideTool, Decide.
  rewrite (firstRule_ext _ (λ r, negb (nonempty r.(Methods)) &&
    matchesPeer r c.(cFQDN) c.(cKey) && matchesTool r c.(cTool)))
    by (intros r Hr; by apply applies_plain, Hp).
  destruct (firstRule _ _ _) as [[i r]|] eqn:Ef; [|done].
  apply firstRule_Some in Ef as (_ & Hr & _ & _). apply list_elem_of_lookup_2 in Hr.
  destruct (Hp r Hr) as (Hrate & _ & Hc & Htg & Hbl & _).
  unfold decideRule. rewrite Hrate, Hc. unfold blockSet. rewrite Hbl, Htg. simpl.
  by destruct (RAllow r).
Qed.
End EngineProofs.

(** ** Exact arithmetic: the throughput of a rate limit *)

#[export] Instance Q_float : Float64 := {|
  F := Q;
  f_of_Z := inject_Z;
  fadd a b := Qred (a + b);
  fsub a b := Qred (a - b);
  fmul a b := Qred (a * b);
  fdiv a b := Qred (a / b);
  fleb := Qle_bool;
  f_trunc a := Z.quot (Qnum a) (Zpos (Qden a))
|}.

Lemma fltb_Q (a b : Q) : fltb a b = true ↔ (a < b)%Q.
Proof.
  unfold fltb. simpl. rewrite negb_true_iff, <- not_true_iff_false, Qle_bool_iff.
  split; [apply Qnot_le_lt|apply Qlt_not_le].
Qed.

#[export] Instance Q_float_laws : Float64Laws.
Proof.
  split; simpl; setoid_rewrite fltb_Q || idtac; setoid_rewrite Qle_bool_iff || idtac;
    change (inject_Z 0) with 0%Q.
  - intros a. lra.
  - intros a b c. lra.
  - intros a b. destruct (Qlt_le_dec a b); [left|right]; lra.
  - reflexivity.
  - intros x y. by rewrite <- Zle_Qle.
  - intros a b Hb. rewrite Qred_correct. lra.
  - intros a b Ha Hb. rewrite Qred_correct. by apply Qmult_le_0_compat.
  - intros a b Ha Hb. rewrite Qred_correct. unfold Qdiv. apply Qmult_le_0_compat; [done|].
    by apply Qinv_le_0_compat, Qlt_le_weak.
  - intros a b Hb. rewrite Qred_correct. lra.
  - intros a b Hb. rewrite Qred_correct. lra.
Qed.

Lemma Seconds_Q d : (Seconds d == inject_Z d / inject_Z Second)%Q.
Proof.
  unfold Seconds. simpl. rewrite !Qred_correct.
  rewrite (Z.quot_rem' d Second) at 3. rewrite inject_Z_plus, inject_Z_mult.
  field. done.
Qed.

Lemma fadd_fmul_Q (a s x ps : Q) : (s == x → fadd a (fmul s ps) == a + ps * x)%Q.
Proof. intros E. simpl. rewrite !Qred_correct, E. ring. Qed.

Lemma rate_mono (ps : Q) t0 t t1 :
  (0 <= ps)%Q → t ≤ t1 →
  (ps * (inject_Z (t - t0) / inject_Z Second) <= ps * (inject_Z (t1 - t0) / inject_Z Second))%Q.
Proof.
  intros Hps Hle. rewrite !(Qmult_comm ps). apply Qmult_le_compat_r; [|done].
  apply Qmult_le_compat_r; [|done]. rewrite <- Zle_Qle. lia.
Qed.

Lemma bucketKey_peer_inj i p q : bucketKey i p = bucketKey i q → p = q.
Proof. unfold bucketKey. intros E. by repeat apply (inj (String.append _)) in E. Qed.

Section Throughput.
Context {A : Type} `{RequestApprovalStore A}.
Context (LoadLocation : string → option Location) (ParseDuration : string → option Z).
Context (canonicalArgsHash : string → string) (PolicyHashOf : Policy → string).

Notation decideTool := (decideTool (A := A) LoadLocation ParseDuration canonicalArgsHash).
Notation decideRule := (decideRule (A := A) ParseDuration canonicalArgsHash).
Notation decideAll := (decideAll (A := A) LoadLocation ParseDuration canonicalArgsHash).

(** The calls of [peer] that rule [i] admitted. *)
Definition admittedBy (i : Z) (peer : string) (cd : (Call * Instant) * Decision) : bool :=
  cd.2.(Allow) && (cd.2.(RuleID) =? i) && (cd.1.1.(cKey) =? peer)%string.
Definition admitted (i : Z) (peer : string) (calls : list (Call * Instant))
    (ds : list Decision) : nat :=
  length (List.filter (admittedBy i peer) (zip calls ds)).

(** What one decision does to the bucket of rule [i] and peer [peer]. *)
Definition bucket_move (rl : RateLimit) (now : Instant) (adm : bool) (o o' : option bucket) : Prop :=
  (adm = false ∧ o' = o) ∨
  let b := refill ParseDuration rl now o in
  (adm = false ∧ o' = Some b) ∨
  ((rateCost rl <= tokens b)%Q ∧ o' = Some (mkBucket _ (fsub (tokens b) (rateCost rl)) (last b))).

Lemma allowRate_move j key i peer rl rl' now (e : Engine A) ok retry e' :
  allowRate ParseDuration j key rl' now e = (ok, retry, e') →
  0 ≤ i < 10 ^ 20 → 0 ≤ j < 10 ^ 20 → 0 < rl.(Max) → (j = i → rl' = rl) →
  let adm := ok && (j =? i) && (key =? peer)%string in
  bucket_move rl now adm (e.(buckets) !! bucketKey i peer) (e'.(buckets) !! bucketKey i peer).
Proof.
  intros Ha Hi Hj Hm Hrl. simpl.
  destruct (decide (j = i ∧ key = peer)) as [[-> ->]|Hne].
  - rewrite Hrl in * by done. unfold allowRate in Ha. rewrite (proj2 (Z.leb_gt _ _)) in Ha by lia.
    rewrite Z.eqb_refl, String.eqb_refl, !andb_true_r.
    destruct (takeTokens _ _ _) as [[ok' ?] b'] eqn:Et. injection Ha as <- <- <-.
    cbn [buckets set_buckets]. rewrite lookup_insert_eq.
    apply takeTokens_cases in Et as [(-> & Hle & ->)|[-> ->]]; right; [right|by left].
    split; [by apply Qle_bool_iff|done].
  - left. split.
    + destruct (Z.eqb_spec j i), (String.eqb_spec key peer); rewrite ?andb_false_r; tauto.
    + unfold allowRate in Ha. destruct (_ <=? 0); [by simplify_eq|].
      destruct (takeTokens _ _ _) as [[ok' ?] ?]. injection Ha as <- <- <-.
      cbn [buckets set_buckets]. rewrite lookup_insert_ne; [done|]. intros E. apply Hne.
      pose proof (bucketKey_inj _ _ _ _ Hj Hi E) as ->. split; [done|].
      by apply bucketKey_peer_inj in E.
Qed.

Lemma not_admitted rl now o o' (adm adm' : bool) :
  bucket_move rl now adm o o' → (adm' = true → adm = true) → bucket_move rl now adm' o o'.
Proof.
  unfold bucket_move. intros [[-> ->]|[[-> ->]|?]] Himp; destruct adm'; auto;
    by specialize (Himp eq_refl).
Qed.

Lemma decideCosign_Allow_id i r c now (e : Engine A) d e' :
  decideCosign canonicalArgsHash i r c now e = (d, e') → d.(RuleID) = i.
Proof. unfold decideCosign. intros Hd. repeat (case_in Hd); by simplify_eq/=. Qed.

Lemma decideRule_move j r' c now (e : Engine A) d e' i peer r rl :
  decideRule j r' c now e = (d, e') →
  0 ≤ i < 10 ^ 20 → 0 ≤ j < 10 ^ 20 → 0 < rl.(Max) → r.(Rate) = Some rl → (j = i → r' = r) →
  bucket_move rl now (admittedBy i peer ((c, now), d))
    (e.(buckets) !! bucketKey i peer) (e'.(buckets) !! bucketKey i peer).
Proof.
  intros Hd Hi Hj Hm Hrl Hr. unfold decideRule in Hd. unfold admittedBy. cbn [fst snd].
  destruct (RAllow r'); cbn [negb] in Hd; [|simplify_eq; by left].
  destruct (firstPresent _ _ =? "")%string; cbn [negb] in Hd; [|simplify_eq; by left].
  assert (Hend : ∀ e1, (if RequireCosign r' then decideCosign canonicalArgsHash j r' c now e1
      else (permit j NoReason r', e1)) = (d, e') → RuleID d = j ∧ buckets e' = buckets e1).
  { intros e1 He1. destruct (RequireCosign r'); [|by simplify_eq].
    split; [by eapply decideCosign_Allow_id|by eapply decideCosign_buckets]. }
  destruct (Rate r') as [rl'|] eqn:Hrl'.
  - destruct (allowRate _ _ _ _ _ _) as [[ok retry] e1] eqn:Er.
    apply (allowRate_move _ _ i peer rl) in Er; [|done..|intros E; specialize (Hr E); congruence].
    destruct ok; [|simplify_eq; by eapply not_admitted].
    apply Hend in Hd as [-> ->]. eapply not_admitted; [exact Er|].
    by destruct (Allow d).
  - apply Hend in Hd as [-> ->]. left. split; [|done].
    destruct (Z.eqb_spec j i) as [E|]; [specialize (Hr E); congruence|].
    by rewrite andb_false_r.
Qed.

Lemma decideTool_move c now (e : Engine A) d e' i peer r rl :
  decideTool c now e = (d, e') → Z.of_nat (length e.(pol).(Rules)) ≤ maxInt64 →
  0 ≤ i → e.(pol).(Rules) !! Z.to_nat i = Some r → r.(Rate) = Some rl → 0 < rl.(Max) →
  bucket_move rl now (admittedBy i peer ((c, now), d))
    (e.(buckets) !! bucketKey i peer) (e'.(buckets) !! bucketKey i peer).
Proof.
  unfold decideTool. intros Hd Hlen Hi Hr Hrl Hm.
  pose proof (lookup_lt_Some _ _ _ Hr) as Hlt. unfold maxInt64 in Hlen.
  destruct (firstRule _ _ _) as [[j r']|] eqn:Ef.
  - apply firstRule_Some in Ef as (Hj & Hr' & _). apply lookup_lt_Some in Hr' as Hlt'.
    eapply decideRule_move; [done|lia|lia|done|done|]. intros ->. congruence.
  - simplify_eq. left. split; [|done]. unfold admittedBy. cbn [fst snd].
    rewrite (proj2 (Z.eqb_neq _ i)); [by rewrite andb_false_r|].
    unfold ruleDecision. destruct (DefaultAllow _); cbn [RuleID]; lia.
Qed.

(** The account of a bucket: what was admitted, plus what is left, is covered by the
    burst and the refill since [t0]. *)
Definition account (rl : RateLimit) (t0 t1 : Instant) (n : nat) (o : option bucket) : Prop :=
  match o with
  | None => n = 0%nat
  | Some b => t0 ≤ b.(last) ≤ t1 ∧
      (inject_Z (Z.of_nat n) * rateCost rl + b.(tokens) <=
       inject_Z rl.(Max) + perSec ParseDuration rl * (inject_Z (b.(last) - t0) / inject_Z Second))%Q
  end.

Lemma refill_account rl t0 t1 n now o :
  0 < rl.(Max) → t0 ≤ now ≤ t1 → account rl t0 t1 n o →
  account rl t0 t1 n (Some (refill ParseDuration rl now o)).
Proof.
  intros Hm Hnow Hacc. pose proof (perSec_nonneg ParseDuration rl Hm) as Hps.
  apply Qle_bool_iff in Hps. change (f_of_Z 0) with 0%Q in Hps.
  set (ps := perSec ParseDuration rl) in *.
  destruct o as [b|]; cbn [account] in *; fold ps in Hacc |- *.
  - destruct Hacc as [Hl Hacc]. unfold refill. fold ps.
    destruct (fltb _ (Seconds _)) eqn:Hel; [|done]. apply fltb_Q in Hel.
    rewrite Seconds_Q in Hel. split; [done|]. cbn [tokens last].
    set (d := timeSub now (last b)) in *.
    assert (Hd : d ≤ now - last b).
    { assert (0 < d).
      { apply (Qmult_lt_compat_r _ _ (inject_Z Second)) in Hel; [|done].
        unfold Qdiv in Hel. rewrite <- Qmult_assoc in Hel.
        rewrite (Qmult_comm (/ _)), Qmult_inv_r, Qmult_1_r, Qmult_0_l in Hel by done.
        change 0%Q with (inject_Z 0) in Hel. by rewrite <- Zlt_Qlt in Hel. }
      unfold d, timeSub, minInt64, maxInt64 in *. lia. }
    match goal with |- context [if ?g then _ else _] => assert (Hle :
      ((if g then f_of_Z (Max rl) else fadd (tokens b) (fmul (Seconds d) ps)) <=
        tokens b + ps * (inject_Z d / inject_Z Second))%Q); [destruct g eqn:Hg|] end.
    + apply fltb_Q, Qlt_le_weak in Hg. eapply Qle_trans; [exact Hg|].
      apply Qle_lteq. right. apply fadd_fmul_Q, Seconds_Q.
    + apply Qle_lteq. right. apply fadd_fmul_Q, Seconds_Q.
    + eapply Qle_trans; [apply Qplus_le_r, Hle|].
      assert (Hs : (ps * (inject_Z d / inject_Z Second) <=
        ps * (inject_Z (now - last b) / inject_Z Second))%Q).
      { rewrite !(Qmult_comm ps). apply Qmult_le_compat_r; [|done].
        apply Qmult_le_compat_r; [by rewrite <- Zle_Qle|done]. }
      assert (Hsum : (inject_Z (now - t0) / inject_Z Second ==
        inject_Z (last b - t0) / inject_Z Second + inject_Z (now - last b) / inject_Z Second)%Q).
      { unfold Qdiv. rewrite <- Qmult_plus_distr_l, <- inject_Z_plus.
        by replace (last b - t0 + (now - last b)) with (now - t0) by lia. }
      rewrite Hsum, Qmult_plus_distr_r. lra.
  - subst n. split; [done|]. cbn [refill tokens last].
    assert (0 <= ps * (inject_Z (now - t0) / inject_Z Second))%Q.
    { apply Qmult_le_0_compat; [done|]. apply Qmult_le_0_compat; [|done].
      change 0%Q with (inject_Z 0). rewrite <- Zle_Qle. lia. }
    change (inject_Z (Z.of_nat 0)) with 0%Q. change (f_of_Z (Max rl)) with (inject_Z (Max rl)).
    lra.
Qed.

Lemma move_account rl t0 t1 n now adm o o' :
  0 < rl.(Max) → t0 ≤ now ≤ t1 → bucket_move rl now adm o o' → account rl t0 t1 n o →
  account rl t0 t1 (if adm : bool then S n else n) o'.
Proof.
  intros Hm Hnow Hmv Hacc. pose proof (refill_account rl t0 t1 n now o Hm Hnow Hacc) as Hr.
  destruct Hmv as [[-> ->]|[[-> ->]|[Hle ->]]]; [done|done|].
  pose proof (rateCost_nonneg rl) as Hc. apply Qle_bool_iff in Hc.
  change (f_of_Z 0) with 0%Q in Hc. cbn [account tokens last] in *.
  destruct Hr as [Hl Hr]. split; [done|]. generalize dependent (refill ParseDuration rl now o).
  intros b Hle Hl Hr.
  assert (Hsub : (fsub (tokens b) (rateCost rl) == tokens b - rateCost rl)%Q)
    by apply Qred_correct.
  eapply Qle_trans; [apply Qplus_le_r; apply Qle_lteq; right; exact Hsub|].
  destruct adm; [|lra].
  rewrite Nat2Z.inj_succ. unfold Z.succ. rewrite inject_Z_plus, Qmult_plus_distr_l.
  change (inject_Z 1) with 1%Q. lra.
Qed.

Lemma decideAll_account calls (e : Engine A) ds e' n i peer r rl t0 t1 :
  decideAll calls e = (ds, e') → engine_ok e →
  0 ≤ i → e.(pol).(Rules) !! Z.to_nat i = Some r → r.(Rate) = Some rl → 0 < rl.(Max) →
  (∀ c now, (c, now) ∈ calls → t0 ≤ now ≤ t1) →
  account rl t0 t1 n (e.(buckets) !! bucketKey i peer) →
  account rl t0 t1 (n + admitted i peer calls ds) (e'.(buckets) !! bucketKey i peer).
Proof.
  revert e ds n. induction calls as [|[c now] calls IH]; intros e ds n Hrun Hok Hi Hr Hrl Hm Ht Hacc.
  { simplify_eq/=. by rewrite Nat.add_0_r. }
  simpl in Hrun. destruct (decideTool c now e) as [d e1] eqn:Ed.
  destruct (decideAll calls e1) as [ds1 e2] eqn:Es. simplify_eq.
  pose proof (decideTool_ok _ _ _ _ _ _ _ _ Hok Ed) as [Hok1 Hpol].
  assert (Hlen : Z.of_nat (length (Rules (pol e))) ≤ maxInt64) by apply Hok.
  pose proof (decideTool_move _ _ _ _ _ i peer _ _ Ed Hlen Hi Hr Hrl Hm) as Hmv.
  eapply move_account in Hmv; [|done|by apply (Ht c); left|exact Hacc].
  eapply IH in Hmv; [|exact Es|done|done|by rewrite Hpol|done|done|by intros; eapply Ht; right].
  unfold admitted in *. simpl. destruct (admittedBy i peer (c, now, d)); simpl; [|done].
  by rewrite Nat.add_succ_r.
Qed.

End Throughput.

(** ** Concrete runs *)

Module EngineRuns.
(** An approval store that holds the granted requests. *)
#[export] Instance ledger : RequestApprovalStore (list ApprovalRequest) := {|
  ConsumeApproval l req now :=
    match l with
    | a :: l' => if (arTool a =? arTool req)%string then (true, l') else (false, l)
    | [] => (false, [])
    end
|}.

Definition UTC (name : string) : option Location := None.
Definition oneSecond (per : string) : option Z := Some Second.
Definition hashOf (p : Policy) : string := "policy".
Definition argsHash (a : string) : string := a.

Definition rule (tools : list string) (allow : bool) (rate : option RateLimit)
    (cos guard : bool) : Rule :=
  mkRule [] tools [] allow rate None cos false guard [] [].
Definition limited := rule ["pay"] true (Some (mkRateLimit 2 "1s" 1)) false false.
Definition held := rule ["wipe"] true (Some (mkRateLimit 1 "1s" 1)) true false.
Definition guarded := rule ["send"] true None false true.
Definition polRuns := mkPolicy false [limited; held; guarded].

Definition call (tool : string) : Call := mkCall "a.mesh" "k1" "db" tool "{}" ∅ true.
Definition e0 : Engine (list ApprovalRequest) := NewEngine hashOf polRuns None.
Definition decideC := decideTool (A := list ApprovalRequest) UTC oneSecond argsHash.
Definition decidesC := decideAll (A := list ApprovalRequest) UTC oneSecond argsHash.

Definition at3 : list (Call * Instant) := [(call "pay", 0); (call "pay", 0); (call "pay", 0)].
End EngineRuns.
Import EngineRuns.

Lemma allow_is_justified_witness :
  outcome (decideC (call "pay") 0 e0).1 = OutcomeAllow ∧
  (((∀ r, r ∈ Rules (pol e0) → applies UTC e0 (call "pay") 0 r = false) ∧
      DefaultAllow (pol e0) = true ∧ (decideC (call "pay") 0 e0).2 = e0) ∨
   ∃ i r, is_first (applies UTC e0 (call "pay") 0) (Rules (pol e0)) i r).
Proof.
  split; [reflexivity|].
  destruct (allow_is_justified UTC oneSecond argsHash (call "pay") 0 e0
    (decideC (call "pay") 0 e0).1 (decideC (call "pay") 0 e0).2) as [Hl|(i & r & Hf & _)].
  - reflexivity.
  - reflexivity.
  - left. exact Hl.
  - right. exists i, r. exact Hf.
Defined.

Lemma buckets_stay_in_range_witness :
  fleb (f_of_Z 0) (f_of_Z 0) = true ∧
  ∃ b, buckets (decidesC at3 e0).2 !! bucketKey (Z.of_nat 0) "k1" = Some b ∧
    fleb (f_of_Z 0) (tokens b) = true ∧ fleb (tokens b) (f_of_Z 2) = true.
Proof.
  split; [reflexivity|].
  exists (mkBucket Q_float 0%Q 0). split; [vm_compute; reflexivity|].
  apply (buckets_stay_in_range UTC oneSecond argsHash hashOf polRuns None at3
    (decidesC at3 e0).1 (decidesC at3 e0).2 ltac:(vm_compute; discriminate) eq_refl
    0%nat limited (mkRateLimit 2 "1s" 1) "k1" (mkBucket Q_float 0%Q 0)); vm_compute; reflexivity.
Defined.

Lemma blocked_label_denies_witness :
  ∃ why, decideC (mkCall "a.mesh" "k1" "db" "send" "{}" {["tainted"]} true) 0 e0 =
    (deny 2 why 0, e0).
Proof.
  apply (blocked_label_denies UTC oneSecond argsHash _ 0 e0 2 guarded "tainted").
  - apply firstRule_Some. vm_compute. reflexivity.
  - reflexivity.
  - apply (bool_decide_unpack _). vm_compute. exact I.
  - left.
  - simpl. apply elem_of_singleton. reflexivity.
Defined.

Lemma engine_refines_Decide_witness :
  let e := NewEngine (A := list ApprovalRequest) hashOf
    (mkPolicy false [rule ["read"] true None false false]) None in
  Allow (decideC (call "read") 0 e).1 = Allow (Decide (pol e) "a.mesh" "k1" "read").
Proof.
  intros e. destruct (engine_refines_Decide UTC oneSecond argsHash (call "read") 0 e) as (Ha & _).
  - intros r Hr. apply list_elem_of_singleton in Hr as ->.
    repeat split. intros p Hp. by apply elem_of_nil in Hp.
  - exact Ha.
Defined.


(** ** What a policy reload and a held call do to the buckets *)

(** Buckets are keyed by the position of the rule: reloading a policy that has one
    more rule in front gives the rate-limited rule a new, full bucket, so a peer whose
    budget was exhausted is admitted again at the same instant. *)
Theorem reload_resets_shifted_rule :
  let p' := mkPolicy false (rule ["other"] false None false false :: polRuns.(Rules)) in
  let '(ds, e) := decidesC at3 e0 in
  map Allow ds = [true; true; false] ∧
  Allow (decideC (call "pay") 0 (SetPolicy hashOf (Some polRuns) e)).1 = false ∧
  Allow (decideC (call "pay") 0 (SetPolicy hashOf (Some p') e)).1 = true.
Proof. vm_compute. repeat split. Qed.

(** A call that is held for a co-sign has paid its rule's rate cost: the held attempt
    empties the bucket, and the retry that carries the human approval is then denied as
    rate limited, with the approval left unconsumed. *)
Theorem held_call_is_charged :
  let '(d1, e1) := decideC (call "wipe") 0 e0 in
  let ok := [mkApprovalRequest "k1" "db" "wipe" "{}" "" "policy"] in
  let '(d2, e2) := decideC (call "wipe") 0 (SetRequestApprovals (Some ok) e1) in
  d1.(outcome) = OutcomeCosign ∧
  d2.(outcome) = OutcomeDeny ∧ d2.(reason) = RateLimited 1 Second ∧
  e2.(reqApprovals) = Some ok.
Proof. vm_compute. repeat split. Qed.
