(* ===== verification/Capability.v ===== *)
(** * Capability: signed capability tokens and their sub-grants
    (src/policy/capability.go, src/policy/capability_delegation.go)

    A capability is a record of claims, signed by a pinned authority or, for a sub-grant, by
    the holder key its parent names. Tokens are strings; the JSON and base64 encoding
    between claims and token is the interface [CapCodec]. *)
From stdpp Require Import base list strings gmap.
From Stdlib Require Import ZArith Lia Ascii.
From Stdlib Require Import Strings.Byte.
From S2P Require Import Prelude GoStd Crypto Policy Engine.
Open Scope Z_scope.
Open Scope mesh_scope.

(** [Time.Unix]: whole seconds since the epoch. *)
Definition Unix (t : Instant) : Z := t / Second.

(** ** Nonce stores (src/policy/delegation.go) *)

(** [NonceStore.Use nonce expiry now]: [false] if the nonce was already used. *)
Class NonceStore (N : Type) := { Use : N → string → Z → Instant → bool * N }.

Notation MemNonceStore := (gmap string Z).
Definition NewMemNonceStore : MemNonceStore := ∅.
Definition MemNonceStore_Use (m : MemNonceStore) (nonce : string) (expiry : Z) (now : Instant)
  : bool * MemNonceStore :=
  let seen := filter (λ kv, Unix now ≤ kv.2) m in
  match seen !! nonce with
  | Some _ => (false, seen)
  | None => (true, <[nonce := expiry]> seen)
  end.
#[export] Instance memNonceStore : NonceStore MemNonceStore := {| Use := MemNonceStore_Use |}.

(** A key that is in the cache stays until its expiry, and is refused until then. *)
Lemma MemNonceStore_Use_spec m nonce expiry now fresh m' :
  MemNonceStore_Use m nonce expiry now = (fresh, m') →
  (∀ k x, m !! k = Some x → Unix now ≤ x → m' !! k = Some x) ∧
  (∀ x, m !! nonce = Some x → Unix now ≤ x → fresh = false) ∧
  (fresh = true → m' !! nonce = Some expiry).
Proof.
  unfold MemNonceStore_Use. intros Hu.
  set (seen := filter (λ kv : string * Z, Unix now ≤ kv.2) m) in *.
  assert (Hs : ∀ k x, m !! k = Some x → Unix now ≤ x → seen !! k = Some x).
  { intros k x Hk Hx. by apply map_lookup_filter_Some. }
  destruct (seen !! nonce) as [y|] eqn:Hn; simplify_eq.
  - split_and!; try done.
  - split_and!.
    + intros k x Hk Hx. rewrite lookup_insert_ne; [by apply Hs|]. intros ->.
      by rewrite (Hs _ _ Hk Hx) in Hn.
    + intros x Hk Hx. by rewrite (Hs _ _ Hk Hx) in Hn.
    + intros _. by rewrite lookup_insert_eq.
Qed.

Module Cap.

Definition maxCapLifetime : Z := 24 * 60 * 60.       (* seconds *)
Definition maxDelegationChain : nat := 3.

Record CapabilityClaims := mkClaims {
  Version : Z;
  ID : string;
  Issuer : string;
  Subject : string;
  Audience : string;
  Tools : list string;
  Corpora : list string;
  SingleUse : bool;
  IssuedAt : Z;
  NotBefore : Z;
  ExpiresAt : Z;
  PubKey : string;
  Sig : string;
  DelegatePub : string;
  Parent : string
}.

Definition setSig (sig : string) (c : CapabilityClaims) : CapabilityClaims :=
  mkClaims c.(Version) c.(ID) c.(Issuer) c.(Subject) c.(Audience) c.(Tools) c.(Corpora)
    c.(SingleUse) c.(IssuedAt) c.(NotBefore) c.(ExpiresAt) c.(PubKey) sig
    c.(DelegatePub) c.(Parent).

(** The JSON of the claims, and the base64url of it that travels as a token. *)
Class CapCodec := {
  cap_json : CapabilityClaims → string;
  cap_wire : CapabilityClaims → string;
  cap_unwire : string → option CapabilityClaims
}.

(** What [encoding/json] and [encoding/base64] document: a round trip on claims whose
    strings are valid UTF-8 (JSON replaces other bytes); and what decodes is base64 text of
    a non-empty document. *)
Definition cap_text (c : CapabilityClaims) : bool :=
  forallb validUTF8 ([c.(ID); c.(Issuer); c.(Subject); c.(Audience); c.(PubKey); c.(Sig);
    c.(DelegatePub); c.(Parent)] ++ c.(Tools) ++ c.(Corpora)).
Class CapCodecLaws `{CapCodec} : Prop := {
  cap_roundtrip c : cap_text c = true → cap_unwire (cap_wire c) = Some c;
  cap_unwire_text t c : cap_unwire t = Some c → validUTF8 t = true ∧ t ≠ ""
}.

Definition matchAnyGlob (patterns : list string) (v : string) : bool :=
  existsb (λ p, matchPattern p v) patterns.

Definition AllowsCorpus (c : CapabilityClaims) (name : string) : bool :=
  match c.(Corpora) with [] => true | ps => matchAnyGlob ps name end.

(** ** Scope *)

Definition withinScope (entry : string) (parent : list string) : bool :=
  if existsb (λ p, (p =? entry)%string) parent then true
  else if containsAny entry globChars then false
  else matchAnyGlob parent entry.

Definition scopeSubset (child parent : list string) : bool :=
  match child with
  | [] => false
  | es => forallb (λ e, withinScope e parent) es
  end.

Definition checkNarrower (child parent : CapabilityClaims) : result capErr unit :=
  let* _ := guard_err parent.(SingleUse) ParentSingleUse in
  let* _ := guard_err (parent.(DelegatePub) =? "")%string ParentNotDelegable in
  let* _ := guard_err (negb (child.(Audience) =? parent.(Audience))%string) ParentAudience in
  let* _ := guard_err (parent.(ExpiresAt) <? child.(ExpiresAt)) OutlivesParent in
  let* _ := guard_err (negb (scopeSubset child.(Tools) parent.(Tools))) ToolsNotNarrower in
  guard_err (nonempty parent.(Corpora) && negb (scopeSubset child.(Corpora) parent.(Corpora)))
    CorporaNotNarrower.

Definition validateDelegatePub (c : CapabilityClaims) : result capErr unit :=
  if (c.(DelegatePub) =? "")%string then Ok tt
  else
    let* _ := guard_err (isNone (decodePub c.(DelegatePub))) BadDelegatePub in
    guard_err c.(SingleUse) SingleUseDelegation.

(** The 24-hour ceiling; the subtraction is on [int64]. *)
Definition tooLong (c : CapabilityClaims) : bool :=
  maxCapLifetime <? i64 (c.(ExpiresAt) - c.(IssuedAt)).

Section Capability.
Context `{Ed25519} `{SHA256} `{CapCodec}.

Definition signingBytes (c : CapabilityClaims) : string := cap_json (setSig "" c).

Definition signed (k : PrivateKey) (c : CapabilityClaims) : CapabilityClaims :=
  setSig (hexEncode (ed_sign k (signingBytes c))) c.

Definition decodeCapability (token : string) : result capErr CapabilityClaims :=
  let* c := of_option NotBase64OrJSON (cap_unwire token) in
  let* _ := guard_err (negb (c.(Version) =? 1)) BadVersion in
  Ok c.

(** [Signer.IssueCapability]; [rnd] is what [rand.Read] returns. *)
Definition IssueCapability (k : PrivateKey) (claims : CapabilityClaims) (rnd : option (list byte))
    (now : Instant) : result capErr string :=
  let* id := (if (claims.(ID) =? "")%string then
                let* b := of_option RandFailed rnd in Ok ("cap_" +:+ hexEncode b)
              else Ok claims.(ID)) in
  let c := mkClaims 1 id claims.(Issuer) claims.(Subject) claims.(Audience) claims.(Tools)
    claims.(Corpora) claims.(SingleUse) (Unix now) claims.(NotBefore) claims.(ExpiresAt)
    (PubKeyHex k) claims.(Sig) claims.(DelegatePub) claims.(Parent) in
  let* _ := guard_err ((c.(Subject) =? "")%string || (c.(Audience) =? "")%string
                       || negb (nonempty c.(Tools))) MissingFields in
  let* _ := guard_err (negb (c.(Parent) =? "")%string) HasParent in
  let* _ := validateDelegatePub c in
  let* _ := guard_err (existsb (λ p, isNone (pathMatch p "")) c.(Tools)) BadToolGlob in
  let* _ := guard_err (c.(ExpiresAt) <=? c.(IssuedAt)) ExpiryInPast in
  let* _ := guard_err (tooLong c) LifetimeTooLong in
  Ok (cap_wire (signed k c)).

(** The depth loop of [DelegateCapability]: [slots] more ancestors fit. *)
Fixpoint depthLoop (slots : nat) (cur : CapabilityClaims) : result capErr unit :=
  if (cur.(Parent) =? "")%string then Ok tt
  else
    let* p := decodeCapability cur.(Parent) in
    match slots with
    | O => Err ChainTooDeep
    | S n => depthLoop n p
    end.

Definition DelegateCapability (parentToken : string) (delegate : option PrivateKey)
    (child : CapabilityClaims) (rnd : option (list byte)) (now : Instant)
  : result capErr string :=
  let* k := of_option NoDelegateKey delegate in
  let* parent := decodeCapability parentToken in
  let* _ := guard_err (negb (PubKeyHex k =? parent.(DelegatePub))%string) DelegateKeyMismatch in
  let* _ := depthLoop (maxDelegationChain - 2) parent in
  let* _ := guard_err (negb (child.(ID) =? "")%string) CallerChosenID in
  let* b := of_option RandFailed rnd in
  let c := mkClaims 1 ("cap_" +:+ hexEncode b) child.(Issuer) child.(Subject) child.(Audience)
    child.(Tools) child.(Corpora) child.(SingleUse) (Unix now) child.(NotBefore)
    child.(ExpiresAt) (PubKeyHex k) child.(Sig) child.(DelegatePub) parentToken in
  let* _ := guard_err ((c.(Subject) =? "")%string || (c.(Audience) =? "")%string
                       || negb (nonempty c.(Tools))) MissingFields in
  let* _ := validateDelegatePub c in
  let* _ := guard_err (c.(ExpiresAt) <=? c.(IssuedAt)) ExpiryInPast in
  let* _ := guard_err (tooLong c) LifetimeTooLong in
  let* _ := checkNarrower c parent in
  Ok (cap_wire (signed k c)).

(** ** Verification *)

(** [now] is passed to each operation; [used] is the replay cache. *)
Record CapabilityVerifier (N : Type) := mkVerifier {
  trusted : gmap string (list byte);
  revoked : option (string → bool);
  subjectRevoked : option (string → bool);
  used : option N
}.
#[global] Arguments mkVerifier {N}.
#[global] Arguments trusted {N}. #[global] Arguments revoked {N}.
#[global] Arguments subjectRevoked {N}. #[global] Arguments used {N}.

Context {N : Type} `{NonceStore N}.

(** [NewCapabilityVerifier]: the pinned keys, or [None] on a malformed or empty list. *)
Fixpoint pinKeys (keys : list string) (m : gmap string (list byte))
  : option (gmap string (list byte)) :=
  match keys with
  | [] => Some m
  | h :: keys =>
      match decodePub h with
      | Some raw => pinKeys keys (<[h := raw]> m)
      | None => None
      end
  end.
Definition NewCapabilityVerifier (keys : list string) : option (CapabilityVerifier N) :=
  match pinKeys keys ∅ with
  | Some m => if bool_decide (m = ∅) then None else Some (mkVerifier m None None None)
  | None => None
  end.
Definition WithRevocation (f : string → bool) (v : CapabilityVerifier N) :=
  mkVerifier v.(trusted) (Some f) v.(subjectRevoked) v.(used).
Definition WithSubjectRevocation (f : string → bool) (v : CapabilityVerifier N) :=
  mkVerifier v.(trusted) v.(revoked) (Some f) v.(used).
Definition WithReplayCache (n : N) (v : CapabilityVerifier N) :=
  mkVerifier v.(trusted) v.(revoked) v.(subjectRevoked) (Some n).

(** The root of a chain is signed by a pinned authority. *)
Definition checkRoot (v : CapabilityVerifier N) (c : CapabilityClaims) : result capErr unit :=
  let* key := of_option UnpinnedAuthority (v.(trusted) !! c.(PubKey)) in
  guard_err (negb (sigOk key (signingBytes c) c.(Sig))) BadSignature.

Definition checkBindings (c : CapabilityClaims) (peerKey backend tool : string)
  : result capErr unit :=
  let* _ := guard_err ((peerKey =? "")%string || negb (c.(Subject) =? peerKey)%string)
              SubjectMismatch in
  let* _ := guard_err (negb (c.(Audience) =? backend)%string) AudienceMismatch in
  guard_err (negb (matchAnyGlob c.(Tools) tool)) ToolNotCovered.

Definition isRevoked (f : option (string → bool)) (x : string) : bool :=
  match f with Some f => f x | None => false end.

(** The time window and the revocation predicates. *)
Definition checkCurrent (v : CapabilityVerifier N) (now : Instant) (c : CapabilityClaims)
  : result capErr unit :=
  let* _ := guard_err (tooLong c) LifetimeTooLong in
  let* _ := guard_err (negb (c.(NotBefore) =? 0) && (Unix now <? c.(NotBefore))) NotYetValid in
  let* _ := guard_err (c.(ExpiresAt) <=? Unix now) Expired in
  let* _ := guard_err (isRevoked v.(revoked) c.(ID)) Revoked in
  guard_err (isRevoked v.(subjectRevoked) c.(Subject)) SubjectRevoked.

Definition checkReplayCache (v : CapabilityVerifier N) (c : CapabilityClaims)
  : result capErr unit := guard_err (c.(SingleUse) && isNone v.(used)) NoReplayCache.

(** The ancestors of [cur], nearest first; [slots] more fit in the chain. *)
Fixpoint ancestors (slots : nat) (cur : CapabilityClaims)
  : result capErr (list CapabilityClaims) :=
  if (cur.(Parent) =? "")%string then Ok []
  else
    match slots with
    | O => Err ChainTooDeep
    | S n =>
        let* p := decodeCapability cur.(Parent) in
        let* l := ancestors n p in Ok (p :: l)
    end.

(** One hop: the child is within the parent's scope and signed by its delegate key. *)
Definition checkHop (parent child : CapabilityClaims) : result capErr unit :=
  let* _ := checkNarrower child parent in
  let* pub := of_option BadDelegatePub (decodePub parent.(DelegatePub)) in
  let* _ := guard_err (negb (child.(PubKey) =? parent.(DelegatePub))%string) NotDelegateKey in
  guard_err (negb (sigOk pub (signingBytes child) child.(Sig))) BadSignature.

(** The hops of a leaf-first chain, checked from the root. *)
Fixpoint checkHops (chain : list CapabilityClaims) : result capErr unit :=
  match chain with
  | child :: ((parent :: _) as rest) =>
      let* _ := checkHops rest in checkHop parent child
  | _ => Ok tt
  end.

(** [for _, x := range l]: the first error ends the loop. *)
Fixpoint forEach {X} (f : X → result capErr unit) (l : list X) : result capErr unit :=
  match l with
  | [] => Ok tt
  | x :: l => let* _ := f x in forEach f l
  end.

Definition verifyDelegated (v : CapabilityVerifier N) (leaf : CapabilityClaims)
    (peerKey backend tool : string) (now : Instant) : result capErr CapabilityClaims :=
  let* anc := ancestors (maxDelegationChain - 1) leaf in
  let chain := leaf :: anc in
  let* _ := checkRoot v (List.last anc leaf) in
  let* _ := checkHops chain in
  let* _ := forEach (checkCurrent v now) chain in
  let* _ := checkBindings leaf peerKey backend tool in
  let* _ := checkReplayCache v leaf in
  Ok leaf.

Definition verifyClaims (v : CapabilityVerifier N) (token peerKey backend tool : string)
    (now : Instant) : result capErr CapabilityClaims :=
  let* c := decodeCapability token in
  if negb (c.(Parent) =? "")%string then verifyDelegated v c peerKey backend tool now
  else
    let* _ := checkRoot v c in
    let* _ := checkBindings c peerKey backend tool in
    let* _ := checkCurrent v now c in
    let* _ := checkReplayCache v c in
    Ok c.

(** The replay key of a single-use grant. *)
Definition replayKey (c : CapabilityClaims) : string :=
  if (c.(Parent) =? "")%string then "cap-jti:" +:+ c.(ID)
  else "cap-sig:" +:+ sha256Hex c.(Sig).

Definition Consume (v : CapabilityVerifier N) (c : CapabilityClaims) (now : Instant)
  : result capErr unit * CapabilityVerifier N :=
  if negb c.(SingleUse) then (Ok tt, v)
  else
    match v.(used) with
    | None => (Err NoReplayCache, v)
    | Some n =>
        let '(fresh, n') := Use n (replayKey c) c.(ExpiresAt) now in
        (if fresh : bool then Ok tt else Err (AlreadyUsed c.(ID)), WithReplayCache n' v)
    end.

Definition Verify (v : CapabilityVerifier N) (token peerKey backend tool : string)
    (now : Instant) : result capErr CapabilityClaims * CapabilityVerifier N :=
  match verifyClaims v token peerKey backend tool now with
  | Err e => (Err e, v)
  | Ok c =>
      match Consume v c now with
      | (Err e, v') => (Err e, v')
      | (Ok _, v') => (Ok c, v')
      end
  end.

(** [FoldCapability]: the claims are returned when the grant is load-bearing. *)
Definition capDeny (dec : Decision) (why : Reason) : Decision :=
  mkDecision false dec.(RuleID) OutcomeDeny why [] 0 0.

Definition FoldCapability (dec : Decision) (v : option (CapabilityVerifier N)) (required : bool)
    (token peerKey backend tool : string) (now : Instant)
  : Decision * option CapabilityClaims :=
  if (token =? "")%string then
    (if required then capDeny dec CapabilityMissing else dec, None)
  else
    match v with
    | None => (capDeny dec CapabilityNoVerifier, None)
    | Some v =>
        match verifyClaims v token peerKey backend tool now with
        | Err e => (capDeny dec (CapabilityInvalid e), None)
        | Ok claims =>
            match dec.(outcome) with
            | OutcomeCosign => (dec, None)
            | o =>
                if bool_decide (o = OutcomeDeny) && negb (dec.(RuleID) =? -1) then (dec, None)
                else
                  let loadBearing := claims.(SingleUse)
                                     && (required || negb (bool_decide (o = OutcomeAllow))) in
                  (mkDecision true dec.(RuleID) OutcomeAllow
                     (CapabilityGranted claims.(ID) claims.(Issuer)) dec.(AddLabels) 0 0,
                   if loadBearing then Some claims else None)
            end
        end
    end.
End Capability.

(** ** Scopes only shrink *)

Lemma matchAnyGlob_In ps p v : p ∈ ps → matchPattern p v = true → matchAnyGlob ps v = true.
Proof.
  intros Hp Hm. apply existsb_exists. exists p. split; [by apply list_elem_of_In|done].
Qed.

Lemma withinScope_sound e parent v :
  withinScope e parent = true → matchPattern e v = true → matchAnyGlob parent v = true.
Proof.
  unfold withinScope. intros Hw Hm.
  destruct (existsb _ parent) eqn:He.
  { apply existsb_exists in He as (p & Hp & E%String.eqb_eq). subst p.
    by eapply matchAnyGlob_In; [apply list_elem_of_In|]. }
  destruct (containsAny e globChars) eqn:Hg; [done|].
  unfold matchPattern in Hm. apply orb_true_iff in Hm as [Hm|Hm].
  - apply orb_true_iff in Hm as [E%String.eqb_eq|E%String.eqb_eq]; subst; [|done].
    by vm_compute in Hg.
  - unfold pathMatchOk in Hm. rewrite pathMatch_literal in Hm by done. simpl in Hm.
    breflect. by subst.
Qed.

Lemma scopeSubset_sound child parent v :
  scopeSubset child parent = true → matchAnyGlob child v = true → matchAnyGlob parent v = true.
Proof.
  intros Hs (e & He & Hm)%existsb_exists. eapply withinScope_sound; [|exact Hm].
  unfold scopeSubset in Hs. destruct child; [done|]. rewrite forallb_forall in Hs. by apply Hs.
Qed.

Lemma checkNarrower_ok child parent u :
  checkNarrower child parent = Ok u →
  parent.(SingleUse) = false ∧ child.(Audience) = parent.(Audience) ∧
  child.(ExpiresAt) ≤ parent.(ExpiresAt) ∧
  (∀ tool, matchAnyGlob child.(Tools) tool = true → matchAnyGlob parent.(Tools) tool = true) ∧
  (∀ n, AllowsCorpus child n = true → AllowsCorpus parent n = true).
Proof.
  unfold checkNarrower. intros Hn. inv_ok. breflect. split_and!; try done.
  - by intros tool; apply scopeSubset_sound.
  - intros n. unfold AllowsCorpus. destruct (Corpora parent) as [|p ps] eqn:Ep; [done|].
    cbn [nonempty andb] in *. breflect. destruct (Corpora child) as [|e es] eqn:Ec; [done|].
    by apply scopeSubset_sound.
Qed.

Section CapabilityProofs.
Context `{Ed25519} `{SHA256} `{CapCodec} {N : Type} `{NonceStore N}.
Implicit Types (v : CapabilityVerifier N) (c p : CapabilityClaims).

(** [lineage c anc]: [anc] are the ancestors of [c], nearest first, each the decoded
    parent token of the one before it and each hop narrower and properly signed. *)
Inductive lineage : CapabilityClaims → list CapabilityClaims → Prop :=
| lineage_root c : c.(Parent) = "" → lineage c []
| lineage_hop c p anc :
    c.(Parent) ≠ "" → decodeCapability c.(Parent) = Ok p → checkHop p c = Ok tt →
    lineage p anc → lineage c (p :: anc).

Lemma lineage_of_checks slots c anc :
  ancestors slots c = Ok anc → checkHops (c :: anc) = Ok tt →
  lineage c anc ∧ (length anc ≤ slots)%nat.
Proof.
  revert c anc. induction slots as [|n IH]; intros c anc; cbn [ancestors];
    destruct (String.eqb_spec (Parent c) "") as [Hp|Hp]; try done.
  - intros [= <-] _. split; [by constructor|simpl; lia].
  - intros [= <-] _. split; [by constructor|simpl; lia].
  - intros (p & Hd & (l & Hr & [= <-])%rbind_ok)%rbind_ok ([] & Hh1 & Hh2)%rbind_ok.
    destruct (IH _ _ Hr Hh1) as [Hl Hn]. split; [by econstructor|simpl; lia].
Qed.

(** What every ancestor grants, given what the leaf grants. *)
Lemma lineage_attenuates c anc a :
  lineage c anc → a ∈ c :: anc →
  c.(Audience) = a.(Audience) ∧ c.(ExpiresAt) ≤ a.(ExpiresAt) ∧
  (∀ tool, matchAnyGlob c.(Tools) tool = true → matchAnyGlob a.(Tools) tool = true) ∧
  (∀ n, AllowsCorpus c n = true → AllowsCorpus a n = true) ∧
  (a ∈ anc → a.(SingleUse) = false).
Proof.
  intros Hl. revert a. induction Hl as [c Hp|c p anc Hp Hd Hh Hl IH]; intros a Ha.
  { apply list_elem_of_singleton in Ha as ->. split_and!; try done. by intros ?%elem_of_nil. }
  unfold checkHop in Hh. inv_ok. destruct x.
  match goal with Hn : checkNarrower _ _ = Ok _ |- _ =>
    apply checkNarrower_ok in Hn as (Hs & Hau & Hex & Ht & Hc) end.
  apply elem_of_cons in Ha as [->|Ha].
  - split_and!; try done. intros Ha. apply elem_of_cons in Ha as [->|Ha]; [done|].
    by apply (IH c); [right|].
  - destruct (IH a Ha) as (Hau' & Hex' & Ht' & Hc' & Hsu). split_and!; [congruence|lia|auto|auto|].
    intros Hin. apply elem_of_cons in Hin as [->|Hin]; auto.
Qed.

(** A token that is currently valid: inside its time window and not revoked. *)
Definition current v now c : Prop :=
  tooLong c = false ∧ (c.(NotBefore) = 0 ∨ c.(NotBefore) ≤ Unix now) ∧
  Unix now < c.(ExpiresAt) ∧ isRevoked v.(revoked) c.(ID) = false ∧
  isRevoked v.(subjectRevoked) c.(Subject) = false.

Lemma checkCurrent_ok v now c : checkCurrent v now c = Ok tt ↔ current v now c.
Proof.
  unfold checkCurrent, current. split.
  - intros Hc. inv_ok. breflect. split_and!; try done.
    destruct (Z.eqb_spec (NotBefore c) 0); [by left|]. simpl in *. breflect. by right.
  - intros (Hl & Hn & He & Hr & Hs). rewrite Hl, Hr, Hs. simpl.
    rewrite (proj2 (Z.leb_gt _ _) He). simpl.
    destruct (Z.eqb_spec (NotBefore c) 0); [done|]. destruct Hn; [done|].
    by rewrite (proj2 (Z.ltb_ge _ _)).
Qed.

Lemma forEach_ok {X} (f : X → result capErr unit) l :
  forEach f l = Ok tt ↔ ∀ x, x ∈ l → f x = Ok tt.
Proof.
  induction l as [|x l IH]; simpl; [split; [by intros _ ? ?%elem_of_nil|done]|].
  rewrite rbind_ok. split.
  - intros ([] & Hx & Hl) y [->|Hy]%elem_of_cons; [done|]. by apply IH.
  - intros Hall. exists tt. split; [apply Hall; by left|]. apply IH. intros y Hy.
    apply Hall. by right.
Qed.

(** The conditions of a successful verification, for a root and for a sub-grant alike. *)
Definition authorized v c anc (peerKey backend tool : string) (now : Instant) : Prop :=
  lineage c anc ∧ (length anc < maxDelegationChain)%nat ∧
  checkRoot v (List.last anc c) = Ok tt ∧
  (∀ a, a ∈ c :: anc → current v now a) ∧
  peerKey ≠ "" ∧ c.(Subject) = peerKey ∧ c.(Audience) = backend ∧
  matchAnyGlob c.(Tools) tool = true ∧ (c.(SingleUse) = true → v.(used) ≠ None).

Lemma checkBindings_ok c peerKey backend tool :
  checkBindings c peerKey backend tool = Ok tt ↔
  peerKey ≠ "" ∧ c.(Subject) = peerKey ∧ c.(Audience) = backend ∧
  matchAnyGlob c.(Tools) tool = true.
Proof.
  unfold checkBindings. split.
  - intros Hc. inv_ok. breflect. done.
  - intros (Hp & -> & -> & ->). rewrite !String.eqb_refl.
    by rewrite (proj2 (String.eqb_neq _ _) Hp).
Qed.

Lemma checkReplayCache_ok v c :
  checkReplayCache v c = Ok tt ↔ (c.(SingleUse) = true → v.(used) ≠ None).
Proof.
  unfold checkReplayCache. rewrite guard_err_ok.
  destruct (SingleUse c), (used v); simpl; naive_solver.
Qed.

Lemma verifyClaims_sound v token peerKey backend tool now c :
  verifyClaims v token peerKey backend tool now = Ok c →
  decodeCapability token = Ok c ∧ ∃ anc, authorized v c anc peerKey backend tool now.
Proof.
  unfold verifyClaims. intros (c' & Hd & Hv)%rbind_ok.
  destruct (String.eqb_spec (Parent c') "") as [Hp|Hp]; cbn [negb] in Hv.
  - apply rbind_ok in Hv as ([] & Hr & ([] & Hb & ([] & Hc & ([] & Hu & [= <-])%rbind_ok)%rbind_ok)%rbind_ok).
    split; [done|]. exists []. apply checkCurrent_ok in Hc. apply checkBindings_ok in Hb.
    rewrite checkReplayCache_ok in Hu. unfold authorized. split_and!; try tauto.
    + by constructor.
    + simpl. unfold maxDelegationChain. lia.
    + by intros a ->%list_elem_of_singleton.
  - unfold verifyDelegated in Hv.
    apply rbind_ok in Hv as (anc & Ha & ([] & Hr & ([] & Hh & ([] & Hc & ([] & Hb &
      ([] & Hu & [= <-])%rbind_ok)%rbind_ok)%rbind_ok)%rbind_ok)%rbind_ok).
    split; [done|]. exists anc. apply checkBindings_ok in Hb.
    rewrite checkReplayCache_ok in Hu. rewrite forEach_ok in Hc.
    destruct (lineage_of_checks _ _ _ Ha Hh) as [Hl Hn]. unfold authorized.
    split_and!; try tauto.
    + unfold maxDelegationChain in *. lia.
    + intros a Hin. by apply checkCurrent_ok, Hc.
Qed.

(** C6. A verified capability attenuates along its whole chain. If verification accepts
    a token for a caller, a backend and a tool, then it is the leaf of a chain of at most
    three tokens, whose root is signed by a pinned authority and whose hops are each
    signed with the delegate key of the parent; and every token of the chain, not only
    the leaf, is for this backend, covers this tool, is currently valid (so an expired or
    revoked ancestor, by id or by subject, refuses every descendant) and allows every
    corpus that the leaf allows; only the leaf can be single-use. *)
Theorem verified_chain_attenuates v token peerKey backend tool now c :
  verifyClaims v token peerKey backend tool now = Ok c →
  c.(Subject) = peerKey ∧ ∃ anc, lineage c anc ∧ (S (length anc) ≤ maxDelegationChain)%nat ∧
    checkRoot v (List.last anc c) = Ok tt ∧
    ∀ a, a ∈ c :: anc →
      a.(Audience) = backend ∧ matchAnyGlob a.(Tools) tool = true ∧ current v now a ∧
      (∀ n, AllowsCorpus c n = true → AllowsCorpus a n = true) ∧
      (a ∈ anc → a.(SingleUse) = false).
Proof.
  intros (_ & anc & Hl & Hn & Hr & Hc & _ & Hs & Ha & Ht & _)%verifyClaims_sound.
  split; [done|]. exists anc. split; [done|]. split; [lia|]. split; [done|].
  intros a Hin. destruct (lineage_attenuates _ _ _ Hl Hin) as (Hau & _ & Hto & Hco & Hsu).
  split_and!; [congruence|auto|auto|auto|auto].
Qed.

Lemma checks_of_lineage slots c anc :
  lineage c anc → (length anc ≤ slots)%nat →
  ancestors slots c = Ok anc ∧ checkHops (c :: anc) = Ok tt.
Proof.
  intros Hl. revert slots. induction Hl as [c Hp|c p anc Hp Hd Hh Hl IH]; intros slots Hn.
  - split; [|done]. destruct slots; cbn [ancestors]; by rewrite Hp.
  - destruct slots as [|n]; [simpl in Hn; lia|].
    destruct (IH n) as [Ha Hc]; [simpl in Hn; lia|].
    cbn [ancestors]. rewrite (proj2 (String.eqb_neq _ _) Hp), Hd. cbn [rbind].
    rewrite Ha. split; [done|]. change (rbind (checkHops (p :: anc)) (λ _, checkHop p c) = Ok tt).
    by rewrite Hc.
Qed.

Lemma verifyClaims_complete v token peerKey backend tool now c anc :
  decodeCapability token = Ok c → authorized v c anc peerKey backend tool now →
  verifyClaims v token peerKey backend tool now = Ok c.
Proof.
  intros Hd (Hl & Hn & Hr & Hc & Hp & Hs & Ha & Ht & Hu). unfold verifyClaims. rewrite Hd.
  assert (Hb : checkBindings c peerKey backend tool = Ok tt) by by apply checkBindings_ok.
  apply checkReplayCache_ok in Hu. cbn [rbind].
  destruct (checks_of_lineage (maxDelegationChain - 1) _ _ Hl) as [Han Hhops].
  { unfold maxDelegationChain in *. lia. }
  destruct Hl as [c Hpar|c p anc Hpar Hdp Hh Hl].
  - rewrite Hpar. simpl in Hr |- *. rewrite Hr, Hb. simpl.
    rewrite (proj2 (checkCurrent_ok v now c)) by (apply Hc; by left). simpl. by rewrite Hu.
  - rewrite (proj2 (String.eqb_neq _ _) Hpar). cbn [negb]. unfold verifyDelegated.
    rewrite Han. cbn [rbind]. rewrite Hr. cbn [rbind]. rewrite Hhops. cbn [rbind].
    rewrite (proj2 (forEach_ok _ _)); [|intros a Hin; by apply checkCurrent_ok, Hc].
    cbn [rbind]. rewrite Hb. cbn [rbind]. by rewrite Hu.
Qed.

(** Why a folded call is allowed. *)
Lemma FoldCapability_allow dec (v : CapabilityVerifier N) required token peerKey backend tool
    now d pending :
  FoldCapability dec (Some v) required token peerKey backend tool now = (d, pending) →
  d.(outcome) = OutcomeAllow →
  d.(AddLabels) = dec.(AddLabels) ∧
  (dec.(outcome) = OutcomeAllow ∨ dec.(outcome) = OutcomeDeny ∧ dec.(RuleID) = -1 ∧
    ∃ c, verifyClaims v token peerKey backend tool now = Ok c) ∧
  (required = true ∨ token ≠ "" → ∃ c, verifyClaims v token peerKey backend tool now = Ok c).
Proof.
  unfold FoldCapability. destruct (String.eqb_spec token "") as [->|Ht].
  { destruct required; intros [= <- <-]; [done|]. naive_solver. }
  destruct (verifyClaims _ _ _ _ _ _) as [c|e]; [|by intros [= <- <-]].
  destruct (outcome dec) eqn:Ho; [destruct (Z.eqb_spec (RuleID dec) (-1))| |]; simpl;
    intros [= <- <-] Ha; try (rewrite Ho in Ha; done); naive_solver.
Qed.

(** A capability cannot override the policy: after the fold a call is allowed only
    if the policy already allowed it, or had denied it by default (no rule matched) and
    the token verified; an explicit deny or a co-sign requirement is never lifted, the
    labels of the rule are kept, a capability-only surface allows nothing without a
    verified token, and a grant is handed on for consumption only when it is single-use
    and the call is allowed. *)
Theorem fold_capability_only_lifts_default_deny dec (v : option (CapabilityVerifier N))
    required token peerKey backend tool now :
  let '(d, pending) := FoldCapability dec v required token peerKey backend tool now in
  let verified c := ∃ v', v = Some v' ∧ verifyClaims v' token peerKey backend tool now = Ok c in
  (d.(outcome) = OutcomeAllow →
    d.(AddLabels) = dec.(AddLabels) ∧ d.(RuleID) = dec.(RuleID) ∧
    (dec.(outcome) = OutcomeAllow ∨
     dec.(outcome) = OutcomeDeny ∧ dec.(RuleID) = -1 ∧ ∃ c, verified c) ∧
    (required = true ∨ token ≠ "" → ∃ c, verified c)) ∧
  (d.(outcome) = OutcomeCosign → d = dec) ∧
  (∀ c, pending = Some c → d.(outcome) = OutcomeAllow ∧ c.(SingleUse) = true ∧ verified c).
Proof.
  unfold FoldCapability. destruct (String.eqb_spec token "") as [->|Ht].
  { destruct required; simpl; [by split_and!|]. split_and!; try done.
    intros Ho. split_and!; auto. intros [?|?]; done. }
  destruct v as [v|]; [|by split_and!].
  destruct (verifyClaims _ _ _ _ _ _) as [c|e] eqn:Hv; [|by split_and!].
  assert (Hver : ∃ v', Some v = Some v' ∧ verifyClaims v' token peerKey backend tool now = Ok c)
    by eauto.
  assert (Hpend : ∀ lb c', (if SingleUse c && lb then Some c else None) = Some c' →
    SingleUse c' = true ∧
    ∃ v', Some v = Some v' ∧ verifyClaims v' token peerKey backend tool now = Ok c').
  { intros lb c'. destruct (SingleUse c) eqn:Hs, lb; intros [= <-]; auto. }
  destruct (outcome dec) eqn:Ho; simpl.
  - destruct (Z.eqb_spec (RuleID dec) (-1)) as [Hr|Hr]; simpl.
    + split; [intros _; split_and!; [done|done|right; eauto|eauto]|]. split; [done|].
      intros c' Hc. split; [done|]. by eapply Hpend.
    + rewrite Ho. by split_and!.
  - split; [intros _; split_and!; [done|done|by left|eauto]|]. split; [done|].
    intros c' Hc. split; [done|]. by eapply Hpend.
  - rewrite Ho. by split_and!.
Qed.
End CapabilityProofs.

(** ** Single use *)

Section SingleUse.
Context `{Ed25519} `{SHA256} `{CapCodec}.

(** A presentation of a token: token, caller, backend, tool, instant. *)
Definition Presentation : Type := string * string * string * string * Instant.

Fixpoint VerifyAll (ps : list Presentation) (v : CapabilityVerifier MemNonceStore)
  : list (result capErr CapabilityClaims) * CapabilityVerifier MemNonceStore :=
  match ps with
  | [] => ([], v)
  | (token, peerKey, backend, tool, now) :: ps =>
      let '(r, v) := Verify v token peerKey backend tool now in
      let '(rs, v) := VerifyAll ps v in (r :: rs, v)
  end.

(** An acceptance of a single-use grant with the given replay key and expiry. *)
Definition accepts (key : string) (exp : Z) (r : result capErr CapabilityClaims) : bool :=
  match r with
  | Ok c => c.(SingleUse) && (replayKey c =? key)%string && (c.(ExpiresAt) =? exp)
  | Err _ => false
  end.

(** The key stays in the cache for as long as its grant can still verify. *)
Definition burned (key : string) (exp : Z) (t : Instant)
    (v : CapabilityVerifier MemNonceStore) : Prop :=
  Unix t ≤ exp → ∃ m, v.(used) = Some m ∧ m !! key = Some exp.

Lemma Verify_used v token peerKey backend tool now r v' key exp t :
  Verify v token peerKey backend tool now = (r, v') → t ≤ now →
  burned key exp t v → burned key exp now v' ∧ accepts key exp r = false.
Proof.
  intros Hv Ht Hb. assert (Hu : Unix t ≤ Unix now) by by apply Z.div_le_mono.
  assert (Hmono : burned key exp now v) by (intros ?; apply Hb; lia).
  unfold Verify in Hv. destruct (verifyClaims _ _ _ _ _ _) as [c|e] eqn:Hc; [|by simplify_eq].
  apply verifyClaims_sound in Hc as (_ & anc & _ & _ & _ & Hcur & _).
  assert (He : Unix now < ExpiresAt c) by (apply Hcur; by left).
  unfold Consume in Hv. destruct (SingleUse c) eqn:Hs; simpl in Hv.
  2:{ simplify_eq. split; [done|]. simpl. by rewrite Hs. }
  destruct (used v) as [m|] eqn:Hm; [|by simplify_eq].
  cbn [Use memNonceStore] in Hv.
  destruct (MemNonceStore_Use m _ _ _) as [fresh m'] eqn:Hus.
  apply MemNonceStore_Use_spec in Hus as (Hkeep & Href & _).
  assert (Hm' : burned key exp now v').
  { intros Hle. destruct (Hmono Hle) as (m0 & Hm0 & Hk). rewrite Hm in Hm0. injection Hm0 as <-.
    exists m'. split; [by destruct fresh; simplify_eq|]. by apply Hkeep. }
  split; [done|]. destruct fresh; injection Hv as <- <-; [|done]. cbn [accepts].
  destruct (String.eqb_spec (replayKey c) key) as [Ek|]; [|by rewrite andb_false_r].
  destruct (Z.eqb_spec (ExpiresAt c) exp) as [Ee|]; [|by rewrite andb_false_r].
  destruct Hmono as (m0 & Hm0 & Hk); [lia|]. rewrite Hm in Hm0. injection Hm0 as <-.
  rewrite <- Ek in Hk. by specialize (Href _ Hk ltac:(lia)).
Qed.

Lemma Verify_burns v token peerKey backend tool now r v' key exp :
  Verify v token peerKey backend tool now = (r, v') → accepts key exp r = true →
  burned key exp now v'.
Proof.
  unfold Verify. destruct (verifyClaims _ _ _ _ _ _) as [c|e]; [|by intros [= <- <-]].
  unfold Consume. destruct (SingleUse c) eqn:Hs; simpl.
  2:{ intros [= <- <-]. simpl. by rewrite Hs. }
  destruct (used v) as [m|]; [|by intros [= <- <-]]. unfold MemNonceStore_Use. simpl.
  destruct (_ !! replayKey c); intros [= <- <-]; [done|]. simpl. intros Ha Hle. breflect.
  subst. eexists. split; [done|]. by rewrite lookup_insert_eq.
Qed.

(** The instants of the presentations do not decrease, from [t] on. *)
Fixpoint inOrder (t : Instant) (ps : list Presentation) : Prop :=
  match ps with
  | [] => True
  | p :: ps => t ≤ p.2 ∧ inOrder p.2 ps
  end.

Lemma VerifyAll_burned ps v rs v' key exp t :
  VerifyAll ps v = (rs, v') → inOrder t ps → burned key exp t v →
  List.filter (accepts key exp) rs = [].
Proof.
  revert v rs t. induction ps as [|[[[[token peerKey] backend] tool] now] ps IH];
    intros v rs t Hv Ht Hb; simpl in Hv; [by simplify_eq|].
  destruct (Verify _ _ _ _ _ _) as [r v1] eqn:Hr.
  destruct (VerifyAll ps v1) as [rs1 v2] eqn:Hrs. simplify_eq. destruct Ht as [Ht1 Ht2].
  destruct (Verify_used _ _ _ _ _ _ _ _ _ _ _ Hr Ht1 Hb) as [Hb' Ha]. simpl. rewrite Ha.
  by eapply IH.
Qed.


Lemma last_default {X} (x : X) l d d' : List.last (x :: l) d = List.last (x :: l) d'.
Proof. revert x. induction l as [|y l IH]; intros x; [done|]. apply IH. Qed.

Lemma checkHop_setSig p c s' :
  hexDecode s' = hexDecode c.(Sig) → checkHop p c = Ok tt → checkHop p (setSig s' c) = Ok tt.
Proof.
  unfold checkHop. intros Hs Hh. change (checkNarrower (setSig s' c) p) with (checkNarrower c p).
  change (signingBytes (setSig s' c)) with (signingBytes c).
  change (PubKey (setSig s' c)) with (PubKey c). change (Sig (setSig s' c)) with s'.
  unfold sigOk in *. by rewrite Hs.
Qed.

(** The replay key of a single-use sub-grant does not identify the grant: it hashes
    the signature's text, and the text of a signature is not unique (a hexadecimal digit
    may be written in upper or lower case) nor covered by the signature. The holder of an
    accepted single-use sub-grant can respell its signature; the respelled token verifies
    wherever the original did, and its replay key is a different one (unless SHA-256
    collides on the two spellings), so it is not caught by the replay cache. *)
Theorem respelled_subgrant_evades_replay_cache {N} `{NonceStore N} (v : CapabilityVerifier N)
    token token' s' peerKey backend tool now c :
  verifyClaims v token peerKey backend tool now = Ok c → c.(Parent) ≠ "" →
  s' ≠ c.(Sig) → hexDecode s' = hexDecode c.(Sig) →
  cap_unwire token' = Some (setSig s' c) →
  verifyClaims v token' peerKey backend tool now = Ok (setSig s' c) ∧
  (replayKey (setSig s' c) ≠ replayKey c ∨ collision s' c.(Sig)).
Proof.
  intros Hv Hp Hne Hs Hw.
  apply verifyClaims_sound in Hv as (Hd & anc & Hl & Hn & Hr & Hc & Hrest).
  destruct Hl as [c Hp'|c p anc Hp' Hdp Hh Hl]; [done|]. split.
  - eapply (verifyClaims_complete _ _ _ _ _ _ _ (p :: anc)).
    + apply rbind_ok in Hd as (c0 & _ & ([] & Hg & [= ->])%rbind_ok).
      unfold decodeCapability. rewrite Hw. cbn [of_option rbind].
      change (Version (setSig s' c)) with (Version c). by rewrite Hg.
    + split; [econstructor; [done|done|by apply checkHop_setSig|done]|].
      split; [done|]. split; [by rewrite (last_default _ _ _ c)|]. split; [|exact Hrest].
      intros a [->|Ha]%elem_of_cons; [|apply Hc; by right].
      assert (Hcc : current v now c) by (apply Hc; by left). exact Hcc.
  - destruct (decide (replayKey (setSig s' c) = replayKey c)) as [He|]; [right|by left].
    unfold replayKey in He. cbn [setSig Parent Sig] in He.
    rewrite (proj2 (String.eqb_neq _ _) Hp') in He.
    apply (inj (String.append _)) in He. apply sha256Hex_inj in He as [->|He]; done.
Qed.
End SingleUse.

(** ** Minted tokens verify *)

Section RoundTrip.
Context `{Ed25519Laws} `{SHA256} `{CapCodecLaws} {N : Type} `{NonceStore N}.
Implicit Types (v : CapabilityVerifier N) (c : CapabilityClaims).

Lemma cap_text_fields c :
  cap_text c = true ↔
  validUTF8 c.(ID) = true ∧ validUTF8 c.(Issuer) = true ∧ validUTF8 c.(Subject) = true ∧
  validUTF8 c.(Audience) = true ∧ validUTF8 c.(PubKey) = true ∧ validUTF8 c.(Sig) = true ∧
  validUTF8 c.(DelegatePub) = true ∧ validUTF8 c.(Parent) = true ∧
  forallb validUTF8 (c.(Tools) ++ c.(Corpora)) = true.
Proof. unfold cap_text. rewrite forallb_app. simpl. rewrite !andb_true_iff. tauto. Qed.

Lemma genID_text b : validUTF8 ("cap_" +:+ hexEncode b) = true.
Proof.
  apply validUTF8_ascii, ascii_only_app; [|apply ascii_only_hex].
  unfold ascii_only. vm_compute. repeat constructor.
Qed.

Lemma decode_signed k c :
  c.(Version) = 1 → validUTF8 c.(PubKey) = true → cap_text c = true →
  decodeCapability (cap_wire (signed k c)) = Ok (signed k c).
Proof.
  intros Hv Hp Ht. unfold decodeCapability. rewrite cap_roundtrip.
  - simpl. by rewrite Hv.
  - apply cap_text_fields in Ht. apply cap_text_fields. simpl.
    split_and!; try tauto. apply validUTF8_ascii, ascii_only_hex.
Qed.

Lemma checkRoot_signed v k c :
  c.(PubKey) = PubKeyHex k → v.(trusted) !! PubKeyHex k = Some (ed_public k) →
  checkRoot v (signed k c) = Ok tt.
Proof.
  intros Hp Ht. unfold checkRoot. change (PubKey (signed k c)) with (PubKey c).
  rewrite Hp, Ht. simpl of_option. cbn [rbind].
  change (signingBytes (signed k c)) with (signingBytes c).
  change (Sig (signed k c)) with (hexEncode (ed_sign k (signingBytes c))).
  by rewrite sigOk_sign.
Qed.

(** An issued capability verifies. A token that an authority issues decodes to the
    requested claims; a verifier that pins this authority accepts it, for the subject,
    the audience and any tool it covers, at any instant inside its window, unless its id
    or its subject is revoked (a single-use token needs a replay cache). *)
Theorem issued_capability_verifies k claims rnd t0 token :
  IssueCapability k claims rnd t0 = Ok token → cap_text claims = true →
  ∃ c, decodeCapability token = Ok c ∧
    c.(Subject) = claims.(Subject) ∧ c.(Audience) = claims.(Audience) ∧
    c.(Tools) = claims.(Tools) ∧ c.(Corpora) = claims.(Corpora) ∧
    c.(ExpiresAt) = claims.(ExpiresAt) ∧
    ∀ v tool now, v.(trusted) !! PubKeyHex k = Some (ed_public k) →
      matchAnyGlob claims.(Tools) tool = true →
      (claims.(NotBefore) = 0 ∨ claims.(NotBefore) ≤ Unix now) → Unix now < claims.(ExpiresAt) →
      isRevoked v.(revoked) c.(ID) = false → isRevoked v.(subjectRevoked) c.(Subject) = false →
      (claims.(SingleUse) = true → v.(used) ≠ None) →
      verifyClaims v token claims.(Subject) claims.(Audience) tool now = Ok c.
Proof.
  unfold IssueCapability. intros Hi Htext%cap_text_fields.
  apply rbind_ok in Hi as (id & Hid & Hi). cbv zeta in Hi.
  match type of Hi with context [signed k ?x] => set (c := x) in * end.
  assert (Hidt : validUTF8 id = true).
  { destruct (ID claims =? "")%string; inv_ok; [apply genID_text|tauto]. }
  apply rbind_ok in Hi as ([] & Hf%guard_err_ok & ([] & Hpar%guard_err_ok & ([] & _ &
    ([] & _ & ([] & _ & ([] & Hl%guard_err_ok & [= <-])%rbind_ok)%rbind_ok)%rbind_ok)%rbind_ok)%rbind_ok).
  breflect. assert (Hdec : decodeCapability (cap_wire (signed k c)) = Ok (signed k c)).
  { apply decode_signed; [done|apply validUTF8_ascii, ascii_only_hex|].
    apply cap_text_fields. simpl. split_and!; try tauto.
    apply validUTF8_ascii, ascii_only_hex. }
  exists (signed k c). split; [done|]. do 5 (split; [done|]).
  intros v tool now Htr Hg Hnb Hex Hr Hs Hu. eapply (verifyClaims_complete _ _ _ _ _ _ _ []); [done|].
  split_and!; try done.
  - by constructor.
  - simpl. unfold maxDelegationChain. lia.
  - by apply checkRoot_signed.
  - intros a ->%list_elem_of_singleton. split_and!; done.
Qed.

Lemma decodeCapability_text t c :
  decodeCapability t = Ok c → validUTF8 t = true ∧ t ≠ "".
Proof. intros (c' & Hu%of_option_ok & _)%rbind_ok. by eapply cap_unwire_text. Qed.

Lemma checkHop_signed k parent c :
  checkNarrower c parent = Ok tt → c.(PubKey) = PubKeyHex k →
  parent.(DelegatePub) = PubKeyHex k → checkHop parent (signed k c) = Ok tt.
Proof.
  intros Hn Hp Hd. unfold checkHop.
  change (checkNarrower (signed k c) parent) with (checkNarrower c parent).
  change (PubKey (signed k c)) with (PubKey c).
  rewrite Hn, Hp, Hd, decodePub_PubKeyHex, String.eqb_refl. cbn [rbind of_option negb guard_err].
  change (signingBytes (signed k c)) with (signingBytes c).
  change (Sig (signed k c)) with (hexEncode (ed_sign k (signingBytes c))).
  by rewrite sigOk_sign.
Qed.

Lemma depthLoop_lineage slots c anc :
  lineage c anc → depthLoop slots c = Ok tt → (length anc ≤ slots)%nat.
Proof.
  intros Hl. revert slots. induction Hl as [c Hp|c p anc Hp Hd Hh Hl IH]; intros slots Hs;
    [simpl; lia|].
  destruct slots as [|n]; cbn [depthLoop] in Hs;
    rewrite (proj2 (String.eqb_neq _ _) Hp), Hd in Hs; cbn [rbind] in Hs; [done|].
  apply IH in Hs. simpl. lia.
Qed.

(** A sub-grant that the holder mints verifies. The minted token decodes to the
    requested claims with the parent embedded; a verifier accepts it, for its subject,
    its audience and any tool it covers, whenever it accepts the parent token (for any
    caller and tool of the parent), inside the window of the sub-grant and unless the
    sub-grant or its subject is revoked. *)
Theorem delegated_capability_verifies parentToken k child rnd t0 token :
  DelegateCapability parentToken (Some k) child rnd t0 = Ok token → cap_text child = true →
  ∃ c, decodeCapability token = Ok c ∧
    c.(Subject) = child.(Subject) ∧ c.(Tools) = child.(Tools) ∧ c.(Parent) = parentToken ∧
    ∀ v peer0 backend0 tool0 p tool now,
      verifyClaims v parentToken peer0 backend0 tool0 now = Ok p →
      matchAnyGlob child.(Tools) tool = true →
      (child.(NotBefore) = 0 ∨ child.(NotBefore) ≤ Unix now) → Unix now < child.(ExpiresAt) →
      isRevoked v.(revoked) c.(ID) = false → isRevoked v.(subjectRevoked) c.(Subject) = false →
      (child.(SingleUse) = true → v.(used) ≠ None) →
      verifyClaims v token child.(Subject) child.(Audience) tool now = Ok c.
Proof.
  unfold DelegateCapability. cbn [of_option rbind]. intros Hi Htext%cap_text_fields.
  apply rbind_ok in Hi as (parent & Hdp & ([] & Hk%guard_err_ok & ([] & Hdepth & ([] & _ &
    (b & _ & Hi)%rbind_ok)%rbind_ok)%rbind_ok)%rbind_ok).
  cbv zeta in Hi. match type of Hi with context [signed k ?x] => set (c := x) in * end.
  apply rbind_ok in Hi as ([] & Hf%guard_err_ok & ([] & _ & ([] & _ &
    ([] & Hl%guard_err_ok & ([] & Hn & [= <-])%rbind_ok)%rbind_ok)%rbind_ok)%rbind_ok).
  breflect. destruct (decodeCapability_text _ _ Hdp) as [Hpt Hpne].
  assert (Hdec : decodeCapability (cap_wire (signed k c)) = Ok (signed k c)).
  { apply decode_signed; [done|apply validUTF8_ascii, ascii_only_hex|].
    apply cap_text_fields. simpl. split_and!; try tauto; [apply genID_text|].
    apply validUTF8_ascii, ascii_only_hex. }
  exists (signed k c). split; [done|]. do 3 (split; [done|]).
  intros v peer0 backend0 tool0 p tool now Hvp Hg Hnb Hex Hr Hs Hu.
  apply verifyClaims_sound in Hvp as (Hdp' & anc & Hlin & Hlen & Hroot & Hcur & _).
  rewrite Hdp in Hdp'. injection Hdp' as <-.
  apply (depthLoop_lineage _ _ _ Hlin) in Hdepth.
  eapply (verifyClaims_complete _ _ _ _ _ _ _ (parent :: anc)); [done|].
  split_and!; try done.
  - econstructor; [done|done|by apply checkHop_signed|done].
  - simpl. unfold maxDelegationChain in *. lia.
  - destruct anc as [|q anc]; [done|].
    change (checkRoot v (List.last (q :: anc) (signed k c)) = Ok tt).
    by rewrite (last_default q anc _ parent).
  - intros a [->|Ha]%elem_of_cons; [|by apply Hcur]. by split_and!.
Qed.
End RoundTrip.
End Cap.

(** ** Concrete runs *)

Module CapRuns.
Import Cap.
#[export] Existing Instance toyEd25519.
#[export] Existing Instance toyEd25519_laws.
#[export] Existing Instance toySHA256.

(** A codec: fields with escaped characters one after the other, in hexadecimal. *)
Fixpoint encS (s : string) : string :=
  match s with
  | "" => "."
  | String c s => String "+"%char (String c (encS s))
  end.
Fixpoint decS (t : string) : option (string * string) :=
  match t with
  | "" => None
  | String a r =>
      if Ascii.eqb a "."%char then Some ("", r)
      else match r with
           | String c r => '(s, r) ← decS r; Some (String c s, r)
           | "" => None
           end
  end.
Fixpoint posBits (p : positive) : string :=
  match p with
  | xH => "" | xO q => String "0"%char (posBits q) | xI q => String "1"%char (posBits q)
  end.
Fixpoint bitsPos (s : string) : positive :=
  match s with
  | "" => xH
  | String c s => if Ascii.eqb c "0"%char then xO (bitsPos s) else xI (bitsPos s)
  end.
Definition encZ (z : Z) : string :=
  match z with Z0 => "" | Zpos p => String "p"%char (posBits p) | Zneg p => String "n"%char (posBits p) end.
Definition decZ (s : string) : Z :=
  match s with
  | "" => 0
  | String c s => if Ascii.eqb c "p"%char then Zpos (bitsPos s) else Zneg (bitsPos s)
  end.

(** A list of strings: its length in unary, then its elements. *)
Definition encL (l : list string) : string :=
  encS (String.string_of_list_ascii (repeat "#"%char (length l))) +:+
  fold_right (λ s t, encS s +:+ t) "" l.
Fixpoint decN (n : nat) (t : string) : option (list string * string) :=
  match n with
  | O => Some ([], t)
  | S n => '(s, t) ← decS t; '(l, t) ← decN n t; Some (s :: l, t)
  end.
Definition decL (t : string) : option (list string * string) :=
  '(k, t) ← decS t; decN (String.length k) t.

Definition boolText (b : bool) : string := if b then "y" else "n".
Definition encC (c : CapabilityClaims) : string :=
  encS (encZ c.(Version)) +:+ encS c.(ID) +:+ encS c.(Issuer) +:+ encS c.(Subject) +:+
  encS c.(Audience) +:+ encL c.(Tools) +:+ encL c.(Corpora) +:+
  encS (boolText c.(SingleUse)) +:+ encS (encZ c.(IssuedAt)) +:+ encS (encZ c.(NotBefore)) +:+
  encS (encZ c.(ExpiresAt)) +:+ encS c.(PubKey) +:+ encS c.(Sig) +:+ encS c.(DelegatePub) +:+
  encS c.(Parent).
Definition decC (t : string) : option CapabilityClaims :=
  '(a1, t) ← decS t; '(a2, t) ← decS t; '(a3, t) ← decS t; '(a4, t) ← decS t;
  '(a5, t) ← decS t; '(b1, t) ← decL t; '(b2, t) ← decL t; '(b3, t) ← decS t;
  '(b4, t) ← decS t; '(b5, t) ← decS t; '(d1, t) ← decS t; '(d2, t) ← decS t;
  '(d3, t) ← decS t; '(d4, t) ← decS t; '(d5, t) ← decS t;
  Some (mkClaims (decZ a1) a2 a3 a4 a5 b1 b2 (b3 =? "y")%string (decZ b4) (decZ b5)
    (decZ d1) d2 d3 d4 d5).

#[export] Instance toyCodec : CapCodec := {|
  cap_json := encC;
  cap_wire c := hexEncode (String.list_byte_of_string (encC c));
  cap_unwire t := if (t =? "")%string then None
                  else l ← hexDecode t; decC (String.string_of_list_byte l)
|}.

Lemma decS_encS s t : decS (encS s +:+ t) = Some (s, t).
Proof. induction s as [|c s IH]; [done|]. cbn [encS]. rewrite !append_cons. simpl. by rewrite IH. Qed.

Lemma decS_encS' s : decS (encS s) = Some (s, "").
Proof. induction s as [|c s IH]; [done|]. simpl. by rewrite IH. Qed.

Lemma decL_encL l t : decL (encL l +:+ t) = Some (l, t).
Proof.
  unfold decL, encL. rewrite append_assoc_s, decS_encS. cbn [mbind option_bind].
  assert (Hk : String.length (String.string_of_list_ascii (repeat "#"%char (length l))) = length l).
  { generalize (length l). induction n; simpl; congruence. }
  rewrite Hk. clear Hk. induction l as [|s l IH]; [done|]. cbn [length decN fold_right].
  rewrite append_assoc_s, decS_encS. cbn [mbind option_bind]. by rewrite IH.
Qed.

Lemma decZ_encZ z : decZ (encZ z) = z.
Proof.
  assert (Hp : ∀ p, bitsPos (posBits p) = p) by (induction p; simpl; congruence).
  destruct z; simpl; by rewrite ?Hp.
Qed.

Lemma decC_encC c : decC (encC c) = Some c.
Proof.
  unfold decC, encC.
  repeat (first [rewrite decS_encS | rewrite decL_encL | rewrite decS_encS'];
    cbn [mbind option_bind]).
  rewrite !decZ_encZ. destruct c as [???????[] ???????]; done.
Qed.

Lemma encC_nonempty c : encC c ≠ "".
Proof. unfold encC. by destruct (encZ (Version c)). Qed.

#[export] Instance toyCodec_laws : CapCodecLaws.
Proof.
  split.
  - intros c _. cbn [cap_unwire cap_wire toyCodec].
    rewrite hexDecode_encode. cbn [mbind option_bind].
    rewrite String.string_of_list_byte_of_string, decC_encC.
    destruct (String.eqb_spec (hexEncode (String.list_byte_of_string (encC c))) "") as [E|]; [|done].
    exfalso. apply (encC_nonempty c). apply (hexEncode_inj _ []) in E.
    rewrite <- (String.string_of_list_byte_of_string (encC c)), E. done.
  - intros t c Ht. cbn [cap_unwire toyCodec] in Ht.
    destruct (String.eqb_spec t "") as [->|Hne]; [done|].
    destruct (hexDecode t) as [l|] eqn:Hd; [|done]. split; [|done].
    by eapply validUTF8_ascii, hexDecode_ascii.
Qed.

Definition authority : PrivateKey := x41.
Definition holder : PrivateKey := xab.
Definition verifier : CapabilityVerifier (gmap string Z) :=
  mkVerifier {[PubKeyHex authority := ed_public authority]} None None (Some ∅).

Definition rootClaims : CapabilityClaims :=
  mkClaims 0 "" "hq" "k1" "db" ["read_*"; "list"] [] false 0 0 3600 "" "" (PubKeyHex holder) "".
Definition childClaims : CapabilityClaims :=
  mkClaims 0 "" "k1" "k2" "db" ["read_users"] [] true 0 0 1800 "" "" "" "".
Definition get (r : result capErr string) : string := match r with Ok t => t | Err _ => "" end.
Definition rootToken : string := Eval vm_compute in
  get (IssueCapability authority rootClaims (Some [xab]) 0).
Definition childToken : string := Eval vm_compute in
  get (DelegateCapability rootToken (Some holder) childClaims (Some [xcd]) 0).
Definition verifiedChild : result capErr CapabilityClaims :=
  verifyClaims verifier childToken "k2" "db" "read_users" Second.
End CapRuns.
Import Cap CapRuns.

Definition theChild : CapabilityClaims := Eval vm_compute in
  match verifiedChild with Ok c => c | Err _ => childClaims end.

Lemma verified_chain_attenuates_witness :
  ∃ anc, lineage theChild anc ∧ ∀ a, a ∈ theChild :: anc → matchAnyGlob (Tools a) "read_users" = true.
Proof.
  destruct (verified_chain_attenuates verifier childToken "k2" "db" "read_users" Second theChild)
    as (_ & anc & Hl & _ & _ & Hall).
  - vm_compute. reflexivity.
  - exists anc. split; [exact Hl|]. intros a Ha. apply (Hall a Ha).
Defined.


(** The respelled signature of the sub-grant: its first byte in upper case. *)
Definition respelled : string := Eval vm_compute in
  String "A" (String "B" (String.substring 2 2 (Sig theChild))).

Lemma respelled_subgrant_evades_replay_cache_witness :
  (Verify verifier childToken "k2" "db" "read_users" Second).1 = Ok theChild ∧
  verifyClaims verifier (cap_wire (setSig respelled theChild)) "k2" "db" "read_users" Second =
    Ok (setSig respelled theChild) ∧
  let v1 := (Verify verifier childToken "k2" "db" "read_users" Second).2 in
  (Verify v1 childToken "k2" "db" "read_users" Second).1 = Err (AlreadyUsed "cap_cd") ∧
  (Verify v1 (cap_wire (setSig respelled theChild)) "k2" "db" "read_users" Second).1 =
    Ok (setSig respelled theChild).
Proof.
  split; [vm_compute; reflexivity|].
  destruct (respelled_subgrant_evades_replay_cache verifier childToken
    (cap_wire (setSig respelled theChild)) respelled "k2" "db" "read_users" Second theChild)
    as [Hv _].
  - vm_compute. reflexivity.
  - vm_compute. discriminate.
  - vm_compute. discriminate.
  - vm_compute. reflexivity.
  - vm_compute. reflexivity.
  - split; [exact Hv|]. split; vm_compute; reflexivity.
Defined.

Lemma issued_capability_verifies_witness :
  ∃ c, decodeCapability rootToken = Ok c ∧
    verifyClaims verifier rootToken "k1" "db" "read_users" Second = Ok c.
Proof.
  destruct (issued_capability_verifies (N := gmap string Z) authority rootClaims (Some [xab]) 0 rootToken)
    as (c & Hd & Hs & _ & _ & _ & _ & Hv).
  - vm_compute. reflexivity.
  - vm_compute. reflexivity.
  - exists c. split; [exact Hd|]. apply (Hv verifier "read_users" Second).
    + vm_compute. reflexivity.
    + vm_compute. reflexivity.
    + left. reflexivity.
    + vm_compute. reflexivity.
    + reflexivity.
    + reflexivity.
    + discriminate.
Defined.

Lemma delegated_capability_verifies_witness :
  ∃ c, decodeCapability childToken = Ok c ∧
    verifyClaims verifier childToken "k2" "db" "read_users" Second = Ok c.
Proof.
  destruct (delegated_capability_verifies (N := gmap string Z) rootToken holder childClaims (Some [xcd]) 0 childToken)
    as (c & Hd & _ & _ & _ & Hv).
  - vm_compute. reflexivity.
  - vm_compute. reflexivity.
  - exists c. split; [exact Hd|].
    destruct (verifyClaims verifier rootToken "k1" "db" "list" Second) as [p|e] eqn:Hp;
      [|vm_compute in Hp; discriminate Hp].
    apply (Hv verifier "k1" "db" "list" p "read_users" Second Hp).
    + vm_compute. reflexivity.
    + left. reflexivity.
    + vm_compute. reflexivity.
    + reflexivity.
    + reflexivity.
    + discriminate.
Defined.
