(* ===== verification/Approval.v ===== *)
(** * Approval: request-bound, single-use approvals (src/policy/approval_token.go)

    [FileApprovalStore] keeps one signed file per binding key in a directory; consuming an
    approval renames the file away, so the directory is the state. The store implements
    the interface [RequestApprovalStore] of the engine. *)
From stdpp Require Import base list strings gmap.
From Stdlib Require Import ZArith Lia Ascii.
From Stdlib Require Import Strings.Byte.
From S2P Require Import Prelude GoStd Crypto Policy Engine Capability.
Open Scope Z_scope.
Open Scope mesh_scope.

Module Approvals.

Definition defaultApprovalTTL : Z := 5 * 60 * Second.
Definition maxApprovalTTL : Z := 60 * 60 * Second.

Record ApprovalToken := mkToken {
  Version : Z;
  Nonce : string;
  PeerKey : string;
  Backend : string;
  Tool : string;
  ArgsHash : string;
  Session : string;
  TDecision : string;
  Approver : string;
  PolicyHash : string;
  CreatedAt : Z;
  ExpiresAt : Z;
  PubKey : string;
  Sig : string
}.

Definition setSig (sig : string) (t : ApprovalToken) : ApprovalToken :=
  mkToken t.(Version) t.(Nonce) t.(PeerKey) t.(Backend) t.(Tool) t.(ArgsHash) t.(Session)
    t.(TDecision) t.(Approver) t.(PolicyHash) t.(CreatedAt) t.(ExpiresAt) t.(PubKey) sig.

(** [json.Marshal] of a token, and the file the store writes and reads back. *)
Class TokenCodec := {
  tok_json : ApprovalToken → string;
  tok_file : ApprovalToken → string;
  tok_parse : string → option ApprovalToken
}.
Definition tok_text (t : ApprovalToken) : bool :=
  forallb validUTF8 [t.(Nonce); t.(PeerKey); t.(Backend); t.(Tool); t.(ArgsHash); t.(Session);
    t.(TDecision); t.(Approver); t.(PolicyHash); t.(PubKey); t.(Sig)].
Class TokenCodecLaws `{TokenCodec} : Prop := {
  tok_roundtrip t : tok_text t = true → tok_parse (tok_file t) = Some t
}.

Inductive approvalErr :=
| NoSigner | IOError | NoMatchingApproval | Unreadable | Malformed | SignatureInvalid
| ExplicitlyDenied | DoesNotMatch | PolicyChanged | ApprovalExpired.

Definition nul : string := String (chr 0) "".

(** [FileApprovalStore]: its configuration and the files of its directory, by name. *)
Record FileApprovalStore `{Ed25519} := mkStore {
  TTL : Z;
  signer : option PrivateKey;
  expectPub : string;
  files : gmap string string
}.

Section Approval.
Context `{Ed25519} `{SHA256} `{TokenCodec}.

Definition bindingText (r : ApprovalRequest) : string :=
  r.(arPeerKey) +:+ nul +:+ r.(arBackend) +:+ nul +:+ r.(arTool) +:+ nul +:+
  r.(arArgsHash) +:+ nul +:+ r.(arSession).
Definition bindingKey (r : ApprovalRequest) : string := sha256Hex (bindingText r).

Definition request (t : ApprovalToken) : ApprovalRequest :=
  mkApprovalRequest t.(PeerKey) t.(Backend) t.(Tool) t.(ArgsHash) t.(Session) t.(PolicyHash).

Definition signingBytes (t : ApprovalToken) : string := tok_json (setSig "" t).

Definition NewFileApprovalStore (ttl : Z) (s : option PrivateKey) : FileApprovalStore :=
  let ttl := if ttl <=? 0 then defaultApprovalTTL else ttl in
  let ttl := if maxApprovalTTL <? ttl then maxApprovalTTL else ttl in
  mkStore _ ttl s (match s with Some k => PubKeyHex k | None => "" end) ∅.

Definition PinSigner (pub : string) (s : FileApprovalStore) : FileApprovalStore :=
  mkStore _ s.(TTL) s.(signer) pub s.(files).
Definition setFiles (m : gmap string string) (s : FileApprovalStore) : FileApprovalStore :=
  mkStore _ s.(TTL) s.(signer) s.(expectPub) m.

Definition file (key : string) : string := "approval-" +:+ key +:+ ".json".

(** [Grant]: [nonce] is the random nonce, [io] tells whether the file operations
    (mkdir, write to a sibling file, sync, rename) succeed; on an error the destination
    is left as it was. *)
Definition grantToken (s : FileApprovalStore) (k : PrivateKey) (req : ApprovalRequest)
    (approver policyHash nonce : string) (now : Instant) : ApprovalToken :=
  let t := mkToken 1 nonce req.(arPeerKey) req.(arBackend) req.(arTool) req.(arArgsHash)
    req.(arSession) "approve" approver policyHash (Unix now) (Unix (now + s.(TTL)))
    (PubKeyHex k) "" in
  setSig (hexEncode (ed_sign k (signingBytes t))) t.

Definition Grant (s : FileApprovalStore) (req : ApprovalRequest)
    (approver policyHash nonce : string) (now : Instant) (io : bool)
  : result approvalErr ApprovalToken * FileApprovalStore :=
  match s.(signer) with
  | None => (Err NoSigner, s)
  | Some k =>
      if negb io then (Err IOError, s)
      else
        let t := grantToken s k req approver policyHash nonce now in
        (Ok t, setFiles (<[file (bindingKey req) := tok_file t]> s.(files)) s)
  end.

Definition verify (s : FileApprovalStore) (t : ApprovalToken) : bool :=
  if (s.(expectPub) =? "")%string || negb (t.(PubKey) =? s.(expectPub))%string then false
  else
    match decodePub t.(PubKey) with
    | None => false
    | Some pub => sigOk pub (signingBytes t) t.(Sig)
    end.

(** The checks on the claimed file. *)
Definition checkToken (s : FileApprovalStore) (req : ApprovalRequest) (now : Instant)
    (contents : string) : result approvalErr unit :=
  let* tok := of_option Malformed (tok_parse contents) in
  let* _ := guard_err (negb (verify s tok)) SignatureInvalid in
  let* _ := guard_err (negb (tok.(TDecision) =? "approve")%string) ExplicitlyDenied in
  let* _ := guard_err (negb (bindingKey (request tok) =? bindingKey req)%string) DoesNotMatch in
  let* _ := guard_err (negb (req.(arPolicyHash) =? "")%string
                       && negb (tok.(PolicyHash) =? "")%string
                       && negb (tok.(PolicyHash) =? req.(arPolicyHash))%string) PolicyChanged in
  guard_err (tok.(ExpiresAt) <? Unix now) ApprovalExpired.

(** [ConsumeApproval]: the rename is the claim, and the claimed file is removed whatever
    the checks say. [claimed] is whether the rename of an existing file succeeds (the code
    retries it), [readable] whether the claimed file can be read back. *)
Definition Consume (s : FileApprovalStore) (req : ApprovalRequest) (now : Instant)
    (claimed readable : bool) : result approvalErr unit * FileApprovalStore :=
  let src := file (bindingKey req) in
  match s.(files) !! src with
  | None => (Err NoMatchingApproval, s)
  | Some contents =>
      if negb claimed then (Err NoMatchingApproval, s) else
      let s' := setFiles (delete src s.(files)) s in
      if negb readable then (Err Unreadable, s')
      else (checkToken s req now contents, s')
  end.

#[export] Instance fileApprovalStore : RequestApprovalStore FileApprovalStore := {|
  ConsumeApproval s req now :=
    let '(r, s') := Consume s req now true true in
    (match r with Ok _ => true | Err _ => false end, s')
|}.
End Approval.

(** ** The binding key identifies the operation *)

Fixpoint nulFree (s : string) : bool :=
  match s with
  | "" => true
  | String c s => negb (Ascii.eqb c (chr 0)) && nulFree s
  end.

Lemma nul_split a b c d :
  nulFree a = true → nulFree c = true →
  a +:+ nul +:+ b = c +:+ nul +:+ d → a = c ∧ b = d.
Proof.
  unfold nul. revert c. induction a as [|x a IH]; intros c Ha Hc E.
  - destruct c as [|y c]; [by injection E as E|]. rewrite !append_cons in E.
    injection E as <- _. done.
  - destruct c as [|y c]; rewrite !append_cons in E; injection E as E1 E2.
    + subst x. done.
    + simpl in Ha, Hc. breflect. subst y. apply IH in E2 as [-> ->]; done.
Qed.

Definition reqNulFree (r : ApprovalRequest) : bool :=
  nulFree r.(arPeerKey) && nulFree r.(arBackend) && nulFree r.(arTool) && nulFree r.(arArgsHash).

Lemma bindingText_inj r1 r2 :
  reqNulFree r1 = true → reqNulFree r2 = true → bindingText r1 = bindingText r2 →
  r1.(arPeerKey) = r2.(arPeerKey) ∧ r1.(arBackend) = r2.(arBackend) ∧
  r1.(arTool) = r2.(arTool) ∧ r1.(arArgsHash) = r2.(arArgsHash) ∧
  r1.(arSession) = r2.(arSession).
Proof.
  unfold reqNulFree, bindingText. intros H1 H2 E. breflect.
  apply nul_split in E as [-> E]; [|done..]. apply nul_split in E as [-> E]; [|done..].
  apply nul_split in E as [-> E]; [|done..]. apply nul_split in E as [-> E]; [|done..]. done.
Qed.

Section ApprovalProofs.
Context `{Ed25519} `{SHA256} `{TokenCodec}.
Implicit Types (s : FileApprovalStore) (req : ApprovalRequest).

Lemma bindingKey_inj r1 r2 :
  reqNulFree r1 = true → reqNulFree r2 = true → bindingKey r1 = bindingKey r2 →
  (r1.(arPeerKey) = r2.(arPeerKey) ∧ r1.(arBackend) = r2.(arBackend) ∧
   r1.(arTool) = r2.(arTool) ∧ r1.(arArgsHash) = r2.(arArgsHash) ∧
   r1.(arSession) = r2.(arSession)) ∨ collision (bindingText r1) (bindingText r2).
Proof.
  intros Hn1 Hn2 [E|E]%sha256Hex_inj; [left|by right]. by apply bindingText_inj.
Qed.

Lemma Consume_gone s req now claimed readable u s' :
  Consume s req now claimed readable = (Ok u, s') → s'.(files) !! file (bindingKey req) = None.
Proof.
  unfold Consume. destruct (files s !! _); [|done]. destruct claimed; [|done].
  destruct readable; [|done]. simpl. intros [= _ <-]. apply lookup_delete_eq.
Qed.

(** An approval is honoured only for the operation it was granted for: a successful
    consumption means that the directory held, under this request's key, a token that the
    pinned signer signed as an approval, not expired, of a compatible policy version, and
    (names without NUL bytes, and short of a SHA-256 collision) for this peer, backend,
    tool, argument hash and session; and the file is gone afterwards. *)
Theorem approval_binds_exact_request s req now claimed readable u s' :
  Consume s req now claimed readable = (Ok u, s') →
  s'.(files) !! file (bindingKey req) = None ∧
  ∃ contents tok, s.(files) !! file (bindingKey req) = Some contents ∧
    tok_parse contents = Some tok ∧ verify s tok = true ∧ tok.(TDecision) = "approve" ∧
    Unix now ≤ tok.(ExpiresAt) ∧
    (req.(arPolicyHash) = "" ∨ tok.(PolicyHash) = "" ∨ tok.(PolicyHash) = req.(arPolicyHash)) ∧
    (reqNulFree req = true → reqNulFree (request tok) = true →
      (tok.(PeerKey) = req.(arPeerKey) ∧ tok.(Backend) = req.(arBackend) ∧
       tok.(Tool) = req.(arTool) ∧ tok.(ArgsHash) = req.(arArgsHash) ∧
       tok.(Session) = req.(arSession)) ∨
      collision (bindingText (request tok)) (bindingText req)).
Proof.
  intros Hcon. split; [by eapply Consume_gone|]. revert Hcon.
  unfold Consume. destruct (files s !! _) as [contents|] eqn:Hf; [|done].
  destruct claimed; [|done]. destruct readable; [|done]. simpl. intros [= Hc <-].
  exists contents. unfold checkToken in Hc.
  apply rbind_ok in Hc as (tok & Hp%of_option_ok & ([] & Hv%guard_err_ok & ([] & Hd%guard_err_ok &
    ([] & Hb%guard_err_ok & ([] & Hpol%guard_err_ok & He%guard_err_ok)%rbind_ok)%rbind_ok)%rbind_ok)%rbind_ok).
  exists tok. breflect. split_and!; try done.
  - destruct (String.eqb_spec (arPolicyHash req) ""); [by left|].
    destruct (String.eqb_spec (PolicyHash tok) ""); [by right; left|].
    simpl in Hpol. breflect. by right; right.
  - intros Hn1 Hn2. by apply (bindingKey_inj (request tok) req).
Qed.

(** ** Each grant is spent at most once *)

Inductive Op :=
| OGrant (req : ApprovalRequest) (approver policyHash nonce : string) (now : Instant) (io : bool)
| OConsume (req : ApprovalRequest) (now : Instant) (claimed readable : bool).

Definition ok {E A} (r : result E A) : bool := match r with Ok _ => true | Err _ => false end.

(** One operation: whether it succeeded, and the new store. *)
Definition runOp (o : Op) s : bool * FileApprovalStore :=
  match o with
  | OGrant req approver ph nonce now io =>
      let '(r, s) := Grant s req approver ph nonce now io in (ok r, s)
  | OConsume req now claimed readable =>
      let '(r, s) := Consume s req now claimed readable in (ok r, s)
  end.

Definition opKey (o : Op) : string :=
  match o with OGrant req _ _ _ _ _ | OConsume req _ _ _ => bindingKey req end.
Definition isGrant (o : Op) : bool := match o with OGrant _ _ _ _ _ _ => true | _ => false end.

(** Successful grants and consumptions for one binding key, along a run. *)
Fixpoint tally (key : string) (ops : list Op) s : nat * nat :=
  match ops with
  | [] => (0, 0)%nat
  | o :: ops =>
      let '(success, s') := runOp o s in
      let '(g, c) := tally key ops s' in
      let one := (if success && (opKey o =? key)%string then 1 else 0)%nat in
      if isGrant o then ((one + g)%nat, c) else (g, (one + c)%nat)
  end.

Definition present (key : string) s : nat :=
  match s.(files) !! file key with Some _ => 1 | None => 0 end.

Lemma file_inj k1 k2 : file k1 = file k2 → k1 = k2.
Proof.
  unfold file. intros E%(inj (String.append _)).
  revert k2 E. induction k1 as [|c k1 IH]; intros [|d k2] E; try done.
  - exfalso. apply (f_equal String.length) in E. rewrite append_cons in E. simpl in E.
    rewrite strlength_app in E. simpl in E. lia.
  - exfalso. apply (f_equal String.length) in E. rewrite append_cons in E. simpl in E.
    rewrite strlength_app in E. simpl in E. lia.
  - rewrite !append_cons in E. injection E as -> E. f_equal. by apply IH.
Qed.

(** One step keeps the balance: what is spent was present. *)
Lemma runOp_balance key o s success s' :
  runOp o s = (success, s') →
  let one := (if success && (opKey o =? key)%string then 1 else 0)%nat in
  if isGrant o then (present key s' ≤ one + present key s)%nat
  else (one + present key s' ≤ present key s)%nat.
Proof.
  unfold present. destruct o as [req approver ph nonce now io|req now claimed readable]; simpl.
  - unfold Grant. destruct (signer s); [|by intros [= <- <-]].
    destruct io; simpl; intros [= <- <-]; [|done]. simpl.
    destruct (String.eqb_spec (bindingKey req) key) as [<-|Hne].
    + rewrite lookup_insert_eq. lia.
    + rewrite lookup_insert_ne; [done|]. by intros ?%file_inj.
  - unfold Consume. destruct (files s !! file (bindingKey req)) as [contents|] eqn:Hf;
      [|intros [= <- <-]; done].
    destruct claimed; [|intros [= <- <-]; done]. destruct readable; simpl; intros [= <- <-]; simpl.
    + destruct (String.eqb_spec (bindingKey req) key) as [<-|Hne].
      * rewrite lookup_delete_eq, Hf. destruct (checkToken _ _ _ _); simpl; lia.
      * rewrite andb_false_r, lookup_delete_ne; [done|]. by intros ?%file_inj.
    + destruct (String.eqb_spec (bindingKey req) key) as [<-|Hne].
      * rewrite lookup_delete_eq. lia.
      * rewrite lookup_delete_ne; [done|]. by intros ?%file_inj.
Qed.

(** Whatever grants and consumptions are interleaved, by any callers and with any
    file errors, an operation is allowed at most as many times as it was approved: the
    successful consumptions under a binding key are at most the successful grants under
    it (plus one for a file already there at the start). *)
Theorem approvals_are_not_reused key ops s :
  let '(grants, consumed) := tally key ops s in
  (consumed ≤ grants + present key s)%nat.
Proof.
  revert s. induction ops as [|o ops IH]; intros s; simpl; [lia|].
  destruct (runOp o s) as [success s'] eqn:Ho. pose proof (runOp_balance key _ _ _ _ Ho) as Hb.
  specialize (IH s'). destruct (tally key ops s') as [g c].
  destruct (isGrant o); simpl in Hb |- *; lia.
Qed.
End ApprovalProofs.

Section GrantConsume.
Context `{Ed25519Laws} `{SHA256} `{TokenCodecLaws}.

Lemma PubKeyHex_nonempty k : PubKeyHex k ≠ "".
Proof. intros E. pose proof (decodePub_PubKeyHex k) as Hd. by rewrite E in Hd. Qed.

Lemma verify_granted s s' k req approver ph nonce now :
  s'.(expectPub) = PubKeyHex k → verify s' (grantToken s k req approver ph nonce now) = true.
Proof.
  intros Hp. unfold verify, grantToken. rewrite Hp.
  match goal with |- context [ed_sign k (signingBytes ?x)] => set (t := x) end.
  change (PubKey (setSig _ t)) with (PubKeyHex k).
  rewrite (proj2 (String.eqb_neq _ _) (PubKeyHex_nonempty k)), String.eqb_refl. simpl.
  rewrite decodePub_PubKeyHex. apply sigOk_sign.
Qed.

(** An approval can be used: after a grant, the approved request is honoured at any
    instant up to the expiry of the token (under the policy version it was granted for)
    and a second attempt is refused; and a store never grants for more than one hour or
    for a non-positive time, whatever TTL it was configured with. *)
Theorem granted_approval_is_honoured_once ttl k req approver ph nonce t0 now now' :
  forallb validUTF8 [req.(arPeerKey); req.(arBackend); req.(arTool); req.(arArgsHash);
    req.(arSession); approver; ph; nonce] = true →
  (req.(arPolicyHash) = "" ∨ ph = "" ∨ ph = req.(arPolicyHash)) →
  let s := NewFileApprovalStore ttl (Some k) in
  let '(r, s1) := Grant s req approver ph nonce t0 true in
  ∃ tok, r = Ok tok ∧
    tok.(CreatedAt) ≤ tok.(ExpiresAt) ≤ tok.(CreatedAt) + 3600 ∧
    (Unix now ≤ tok.(ExpiresAt) →
      ∃ s2, Consume s1 req now true true = (Ok tt, s2) ∧
        Consume s2 req now' true true = (Err NoMatchingApproval, s2)).
Proof.
  intros Htext Hpol. simpl. set (s := NewFileApprovalStore ttl (Some k)).
  assert (Httl : 0 < TTL s ≤ maxApprovalTTL).
  { unfold s, NewFileApprovalStore. simpl. unfold maxApprovalTTL, defaultApprovalTTL, Second.
    destruct (Z.leb_spec ttl 0); simpl; [lia|].
    destruct (Z.ltb_spec (60 * 60 * 1000000000) ttl); lia. }
  unfold Grant. cbn [signer]. change (signer s) with (Some k). simpl.
  set (tok := grantToken s k req approver ph nonce t0). exists tok. split; [done|]. split.
  { unfold tok, grantToken. cbn [setSig CreatedAt ExpiresAt]. unfold Unix, maxApprovalTTL in *.
    replace (t0 / Second + 3600) with ((t0 + 60 * 60 * Second) / Second)
      by (rewrite Z.div_add by done; lia).
    unfold Second in *. split; apply Z.div_le_mono; lia. }
  intros Hnow. exists (setFiles ∅ s). unfold Consume. cbn [setFiles files].
  rewrite lookup_insert_eq. cbn [negb]. split.
  - f_equal.
    + unfold checkToken. rewrite tok_roundtrip; cbn [of_option rbind].
      * rewrite (verify_granted s _ k req approver ph nonce t0) by done. cbn [negb guard_err rbind].
        change (TDecision tok =? "approve")%string with true. cbn [negb guard_err rbind].
        assert (Hb : bindingKey (request tok) = bindingKey req) by done.
        rewrite Hb, String.eqb_refl. cbn [negb guard_err rbind].
        change (PolicyHash tok) with ph.
        rewrite (proj2 (Z.ltb_ge _ _) Hnow).
        destruct Hpol as [-> | [-> | ->]]; [done| |].
        -- destruct (_ =? "")%string; done.
        -- rewrite String.eqb_refl, andb_false_r. done.
      * unfold tok_text. simpl in Htext |- *. breflect.
        repeat (apply andb_true_iff; split;
          [first [assumption | apply validUTF8_ascii, ascii_only_hex | reflexivity]|]). done.
    + unfold setFiles. cbn [files TTL signer expectPub]. by rewrite delete_insert_id.
  - by rewrite lookup_empty.
Qed.
End GrantConsume.

Section EngineApprovals.
Context `{Float64Laws} `{Ed25519} `{SHA256} `{TokenCodec}.
Context (LoadLocation : string → option Location) (ParseDuration : string → option Z).
Context (canonicalArgsHash : string → string).
Notation decideTool :=
  (decideTool (A := FileApprovalStore) LoadLocation ParseDuration canonicalArgsHash).
Notation applies := (applies (A := FileApprovalStore) LoadLocation).

(** One human approval admits one call: when the engine admits a call under a
    co-signed rule from its approval store, the same call repeated at any later instant
    under that rule is not admitted (it is held again, or denied), without a new grant. *)
Theorem cosigned_call_admitted_once c now now' (e e' : Engine FileApprovalStore) d i r s :
  decideTool c now e = (d, e') → d.(outcome) = OutcomeAllow →
  is_first (applies e c now) e.(pol).(Rules) i r → r.(RequireCosign) = true →
  c.(cBound) = true → e.(reqApprovals) = Some s →
  is_first (applies e' c now') e'.(pol).(Rules) i r →
  (decideTool c now' e').1.(outcome) ≠ OutcomeAllow.
Proof.
  intros Hd Ho Hf Hc Hb Ha Hf' Ho'. unfold decideTool in Hd, Ho'.
  rewrite (proj2 (firstRule_Some _ _ _ _) Hf) in Hd.
  rewrite (proj2 (firstRule_Some _ _ _ _) Hf') in Ho'.
  apply (decideRule_consumes _ _ _ _ _ _ _ _ _ s) in Hd as (Ha' & Hph & Hok); [|done..].
  destruct (decideRule _ _ _ _ _ _ e') as [d2 e2] eqn:Hd2. simpl in Ho'.
  eapply decideRule_consumes in Hd2 as (_ & _ & Hok2); [|done..].
  rewrite Hph in Hok2. simpl in Hok, Hok2.
  set (req := mkApprovalRequest _ _ _ _ _ _) in *.
  destruct (Consume s req now true true) as [[u|?] s1] eqn:E1; [|done].
  apply Consume_gone in E1 as Hgone. simpl in Hok2.
  unfold Consume in Hok2. by rewrite Hgone in Hok2.
Qed.
End EngineApprovals.
End Approvals.

(** ** Concrete runs *)

Module ApprovalRuns.
Import Approvals.
Export CapRuns.

Definition encT (t : ApprovalToken) : string :=
  encS (encZ t.(Version)) +:+ encS t.(Nonce) +:+ encS t.(PeerKey) +:+ encS t.(Backend) +:+
  encS t.(Tool) +:+ encS t.(ArgsHash) +:+ encS t.(Session) +:+ encS t.(TDecision) +:+
  encS t.(Approver) +:+ encS t.(PolicyHash) +:+ encS (encZ t.(CreatedAt)) +:+
  encS (encZ t.(ExpiresAt)) +:+ encS t.(PubKey) +:+ encS t.(Sig).
Definition decT (s : string) : option ApprovalToken :=
  '(a1, s) ← decS s; '(a2, s) ← decS s; '(a3, s) ← decS s; '(a4, s) ← decS s;
  '(a5, s) ← decS s; '(a6, s) ← decS s; '(a7, s) ← decS s; '(a8, s) ← decS s;
  '(a9, s) ← decS s; '(b1, s) ← decS s; '(b2, s) ← decS s; '(b3, s) ← decS s;
  '(b4, s) ← decS s; '(b5, s) ← decS s;
  Some (mkToken (decZ a1) a2 a3 a4 a5 a6 a7 a8 a9 b1 (decZ b2) (decZ b3) b4 b5).
#[export] Instance toyTokenCodec : TokenCodec :=
  {| tok_json := encT; tok_file := encT; tok_parse := decT |}.
#[export] Instance toyTokenCodec_laws : TokenCodecLaws.
Proof.
  split. intros t _. cbn [tok_parse tok_file toyTokenCodec]. unfold decT, encT.
  repeat (first [rewrite decS_encS | rewrite decS_encS']; cbn [mbind option_bind]).
  rewrite !decZ_encZ. by destruct t.
Qed.

Definition wipeReq : ApprovalRequest := mkApprovalRequest "k1" "db" "wipe" "{}" "" "policy".
Definition store0 : FileApprovalStore := NewFileApprovalStore 0 (Some authority).
Definition store1 : FileApprovalStore :=
  (Grant store0 wipeReq "boss" "policy" "n1" 0 true).2.

Definition wipeRule := EngineRuns.rule ["wipe"] true None true false.
Definition engine1 : Engine FileApprovalStore :=
  SetRequestApprovals (Some store1)
    (NewEngine EngineRuns.hashOf (mkPolicy false [wipeRule]) None).
Definition decideF :=
  decideTool (A := FileApprovalStore) EngineRuns.UTC EngineRuns.oneSecond EngineRuns.argsHash.
End ApprovalRuns.
Import Approvals ApprovalRuns.

Lemma approval_binds_exact_request_witness :
  (Consume store1 wipeReq Second true true).1 = Ok tt ∧
  (Consume store1 wipeReq Second true true).2.(files) !! file (bindingKey wipeReq) = None.
Proof.
  split; [vm_compute; reflexivity|].
  destruct (approval_binds_exact_request store1 wipeReq Second true true tt
    (Consume store1 wipeReq Second true true).2) as [Hg _].
  - vm_compute. reflexivity.
  - exact Hg.
Defined.

Lemma granted_approval_is_honoured_once_witness :
  (Consume (Grant store0 wipeReq "boss" "policy" "n1" 0 true).2 wipeReq Second true true).1 = Ok tt.
Proof.
  destruct (granted_approval_is_honoured_once 0 authority wipeReq "boss" "policy" "n1" 0 Second
    Second) as (tok & Hr & _ & Hc).
  - vm_compute. reflexivity.
  - right. right. reflexivity.
  - destruct Hc as (s2 & Hc & _).
    + injection Hr as <-. vm_compute. discriminate.
    + exact (f_equal fst Hc).
Defined.

Lemma cosigned_call_admitted_once_witness :
  outcome (decideF (EngineRuns.call "wipe") 0 engine1).1 = OutcomeAllow ∧
  outcome (decideF (EngineRuns.call "wipe") 1 (decideF (EngineRuns.call "wipe") 0 engine1).2).1
    ≠ OutcomeAllow.
Proof.
  split; [vm_compute; reflexivity|].
  apply (cosigned_call_admitted_once EngineRuns.UTC EngineRuns.oneSecond EngineRuns.argsHash
    (EngineRuns.call "wipe") 0 1 engine1 _ (decideF (EngineRuns.call "wipe") 0 engine1).1 0 wipeRule
    store1).
  - apply surjective_pairing.
  - vm_compute. reflexivity.
  - apply firstRule_Some. vm_compute. reflexivity.
  - reflexivity.
  - reflexivity.
  - reflexivity.
  - apply firstRule_Some. vm_compute. reflexivity.
Defined.
