(* ===== verification/Delegation.v ===== *)
(** * Delegation: router delegation tokens
    (src/policy/delegation.go, src/policy/delegation_wire.go)

    A router presents, for one hop, a signed token that names the original caller. The
    upstream verifies it for exactly this hop and authorizes the intersection of the
    caller's and the router's permissions. *)
From stdpp Require Import base list strings gmap.
From Stdlib Require Import ZArith Lia.
From Stdlib Require Import Strings.Byte.
From S2P Require Import Prelude GoStd Crypto Policy Engine Capability.
Open Scope Z_scope.
Open Scope mesh_scope.

Module Deleg.

Definition maxDelegationLifetime : Z := 5 * 60 * Second.

Record DelegationToken := mkDeleg {
  Version : Z;
  Nonce : string;
  Caller : string;
  Router : string;
  Audience : string;
  Backend : string;
  Tool : string;
  ReqHash : string;
  IssuedAt : Z;
  ExpiresAt : Z;
  PubKey : string;
  Sig : string
}.

Definition setSig (sig : string) (t : DelegationToken) : DelegationToken :=
  mkDeleg t.(Version) t.(Nonce) t.(Caller) t.(Router) t.(Audience) t.(Backend) t.(Tool)
    t.(ReqHash) t.(IssuedAt) t.(ExpiresAt) t.(PubKey) sig.

(** [EncodeDelegation] and [DecodeDelegation]: base64url of the JSON. *)
Class DelegCodec := {
  del_json : DelegationToken → string;
  EncodeDelegation : DelegationToken → string;
  DecodeDelegation : string → option DelegationToken
}.

Inductive delegErr :=
| Undecodable | UnsupportedVersion | NotPinnedAuthority | BadAuthorityKey | BadSignature
| RouterMismatch | AudienceMismatch | HopMismatch | ArgumentsMismatch
| LifetimeTooLong | TokenExpired | Replayed | MissingClaims.

Section Delegation.
Context `{Ed25519} `{DelegCodec} (canonicalArgsHash : string → string).
Context {N : Type} `{NonceStore N}.

Definition signingBytes (t : DelegationToken) : string := del_json (setSig "" t).

(** The caller-set fields; an [ExpiresAt] of [None] is the zero time. *)
Record DelegationClaims := mkDelegClaims {
  dcCaller : string; dcRouter : string; dcAudience : string; dcBackend : string;
  dcTool : string; dcArgs : string; dcExpiresAt : option Instant
}.

Definition IssueDelegation (k : PrivateKey) (c : DelegationClaims) (nonce : string)
    (now : Instant) : result delegErr DelegationToken :=
  let* _ := guard_err ((c.(dcCaller) =? "")%string || (c.(dcRouter) =? "")%string
    || (c.(dcAudience) =? "")%string || (c.(dcBackend) =? "")%string
    || (c.(dcTool) =? "")%string) MissingClaims in
  let limit := now + maxDelegationLifetime in
  let exp := match c.(dcExpiresAt) with
             | None => limit
             | Some e => if limit <? e then limit else e
             end in
  let t := mkDeleg 1 nonce c.(dcCaller) c.(dcRouter) c.(dcAudience) c.(dcBackend) c.(dcTool)
    (canonicalArgsHash c.(dcArgs)) (Unix now) (Unix exp) (PubKeyHex k) "" in
  Ok (setSig (hexEncode (ed_sign k (signingBytes t))) t).

(** The hop the upstream is about to serve. *)
Record DelegationRequest := mkDelegRequest {
  drRouter : string; drAudience : string; drBackend : string; drTool : string; drArgs : string
}.

(** Everything but the nonce. *)
Definition checkDelegation (t : DelegationToken) (expectAuthority : string)
    (req : DelegationRequest) (now : Instant) : result delegErr unit :=
  let* _ := guard_err (negb (t.(Version) =? 1)) UnsupportedVersion in
  let* _ := guard_err ((expectAuthority =? "")%string
                       || negb (t.(PubKey) =? expectAuthority)%string) NotPinnedAuthority in
  let* pub := of_option BadAuthorityKey (decodePub t.(PubKey)) in
  let* _ := guard_err (negb (sigOk pub (signingBytes t) t.(Sig))) BadSignature in
  let* _ := guard_err (negb (t.(Router) =? req.(drRouter))%string) RouterMismatch in
  let* _ := guard_err (negb (t.(Audience) =? req.(drAudience))%string) AudienceMismatch in
  let* _ := guard_err (negb (t.(Backend) =? req.(drBackend))%string
                       || negb (t.(Tool) =? req.(drTool))%string) HopMismatch in
  let* _ := guard_err (negb (t.(ReqHash) =? canonicalArgsHash req.(drArgs))%string)
              ArgumentsMismatch in
  let* _ := guard_err (Z.quot maxDelegationLifetime Second <? i64 (t.(ExpiresAt) - t.(IssuedAt)))
              LifetimeTooLong in
  guard_err (t.(ExpiresAt) <? Unix now) TokenExpired.

(** [VerifyDelegation]; without a nonce store the replay check is skipped. *)
Definition VerifyDelegation (t : DelegationToken) (expectAuthority : string)
    (req : DelegationRequest) (now : Instant) (nonces : option N)
  : result delegErr unit * option N :=
  match checkDelegation t expectAuthority req now with
  | Err e => (Err e, nonces)
  | Ok _ =>
      match nonces with
      | None => (Ok tt, None)
      | Some n =>
          let '(fresh, n') := Use n t.(Nonce) t.(ExpiresAt) now in
          (if fresh : bool then Ok tt else Err Replayed, Some n')
      end
  end.

Record DelegationVerifier := mkDelegVerifier {
  pins : gset string;
  audience : string;
  nonces : N
}.

Definition NewDelegationVerifier (keys : list string) (aud : string) (n : option N)
  : option DelegationVerifier :=
  match n with
  | None => None
  | Some n =>
      if (aud =? "")%string || existsb (λ h, isNone (decodePub h)) keys || negb (nonempty keys)
      then None else Some (mkDelegVerifier (list_to_set keys) aud n)
  end.

(** [Check]: the token is returned when it decodes, also on an error. *)
Definition Check (v : DelegationVerifier) (encoded router backend tool args : string)
    (now : Instant) : result delegErr unit * option DelegationToken * DelegationVerifier :=
  match DecodeDelegation encoded with
  | None => (Err Undecodable, None, v)
  | Some t =>
      let pin := if bool_decide (t.(PubKey) ∈ v.(pins)) then t.(PubKey) else "" in
      let req := mkDelegRequest router v.(audience) backend tool args in
      let '(r, n') := VerifyDelegation t pin req now (Some v.(nonces)) in
      (r, Some t, mkDelegVerifier v.(pins) v.(audience) (default v.(nonces) n'))
  end.

(** [AuthorizeDelegated]. *)
Definition AuthorizeDelegated (callerDec routerDec : Decision) (ok : bool) : Decision :=
  if negb ok then mkDecision false (-1) OutcomeDeny DelegationInvalid [] 0 0
  else if negb (bool_decide (routerDec.(outcome) = OutcomeAllow)) then
    mkDecision false routerDec.(RuleID) OutcomeDeny (DeniedByRouterPolicy routerDec.(reason)) [] 0 0
  else if negb (bool_decide (callerDec.(outcome) = OutcomeAllow)) then
    mkDecision false callerDec.(RuleID) OutcomeDeny (DeniedByCallerPolicy callerDec.(reason)) [] 0 0
  else
    let cost := if callerDec.(Cost) <? routerDec.(Cost) then routerDec.(Cost)
                else callerDec.(Cost) in
    mkDecision true callerDec.(RuleID) OutcomeAllow DelegatedAllow [] cost 0.
End Delegation.

Section DelegationProofs.
Context `{Ed25519} `{DelegCodec} (canonicalArgsHash : string → string).
Notation Check := (Check canonicalArgsHash).

Lemma checkDelegation_ok t pin req now :
  checkDelegation canonicalArgsHash t pin req now = Ok tt →
  t.(Version) = 1 ∧ pin ≠ "" ∧ t.(PubKey) = pin ∧
  (∃ pub, decodePub t.(PubKey) = Some pub ∧ sigOk pub (signingBytes t) t.(Sig) = true) ∧
  t.(Router) = req.(drRouter) ∧ t.(Audience) = req.(drAudience) ∧
  t.(Backend) = req.(drBackend) ∧ t.(Tool) = req.(drTool) ∧
  t.(ReqHash) = canonicalArgsHash req.(drArgs) ∧
  i64 (t.(ExpiresAt) - t.(IssuedAt)) ≤ 300 ∧ Unix now ≤ t.(ExpiresAt).
Proof.
  unfold checkDelegation. change (Z.quot maxDelegationLifetime Second) with 300.
  intros ([] & ?%guard_err_ok & ([] & ?%guard_err_ok & (pub & ?%of_option_ok &
    ([] & ?%guard_err_ok & ([] & ?%guard_err_ok & ([] & ?%guard_err_ok & ([] & ?%guard_err_ok &
    ([] & ?%guard_err_ok & ([] & ?%guard_err_ok & ?%guard_err_ok)%rbind_ok)%rbind_ok)%rbind_ok
    )%rbind_ok)%rbind_ok)%rbind_ok)%rbind_ok)%rbind_ok)%rbind_ok.
  breflect. split_and!; eauto.
Qed.

(** A delegation is honoured for one hop only: a token that passes the check is
    signed by a pinned router authority and names the presenting peer as its router, this
    upstream as its audience, and exactly this backend, tool and argument hash; it is
    not expired and its lifetime is at most five minutes. *)
Theorem delegation_bound_to_hop {N} `{NonceStore N} (v : DelegationVerifier (N := N))
    encoded router backend tool args now u t v' :
  Check v encoded router backend tool args now = (Ok u, t, v') →
  ∃ tok, t = Some tok ∧ DecodeDelegation encoded = Some tok ∧ tok.(PubKey) ∈ v.(pins) ∧
    (∃ pub, decodePub tok.(PubKey) = Some pub ∧
      sigOk pub (signingBytes tok) tok.(Sig) = true) ∧
    tok.(Router) = router ∧ tok.(Audience) = v.(audience) ∧ tok.(Backend) = backend ∧
    tok.(Tool) = tool ∧ tok.(ReqHash) = canonicalArgsHash args ∧
    i64 (tok.(ExpiresAt) - tok.(IssuedAt)) ≤ 300 ∧ Unix now ≤ tok.(ExpiresAt).
Proof.
  unfold Deleg.Check. destruct (DecodeDelegation encoded) as [tok|] eqn:Hd; [|done].
  unfold VerifyDelegation. destruct (checkDelegation _ _ _ _ _) as [[]|e] eqn:Hc; [|done].
  intros Hu. exists tok. assert (t = Some tok) as -> by (by destruct (Use _ _ _ _) as [[] ?]; simplify_eq/=).
  apply checkDelegation_ok in Hc as (_ & Hne & Hp & Hs & Hr & Ha & Hb & Ht & Hh & Hl & He).
  assert (Hin : PubKey tok ∈ pins v).
  { destruct (bool_decide (PubKey tok ∈ pins v)) eqn:Hin; [by breflect|done]. }
  done.
Qed.

(** A presented token: wire form, router, backend, tool, arguments, instant. *)
Definition Hop : Type := string * string * string * string * string * Instant.

Fixpoint CheckAll (hs : list Hop) (v : DelegationVerifier (N := MemNonceStore))
  : list (result delegErr unit * option DelegationToken) :=
  match hs with
  | [] => []
  | (encoded, router, backend, tool, args, now) :: hs =>
      let '(r, t, v) := Check v encoded router backend tool args now in
      (r, t) :: CheckAll hs v
  end.

Definition accepts (nonce : string) (exp : Z)
    (rt : result delegErr unit * option DelegationToken) : bool :=
  match rt with
  | (Ok _, Some t) => (t.(Nonce) =? nonce)%string && (t.(ExpiresAt) =? exp)
  | _ => false
  end.

Fixpoint inOrder (t : Instant) (hs : list Hop) : Prop :=
  match hs with [] => True | h :: hs => t ≤ h.2 ∧ inOrder h.2 hs end.

(** The nonce is remembered for as long as its token can still verify. *)
Definition burned (nonce : string) (exp : Z) (t : Instant)
    (v : DelegationVerifier (N := MemNonceStore)) : Prop :=
  Unix t ≤ exp → v.(nonces) !! nonce = Some exp.

Lemma Check_nonce v encoded router backend tool args now r t v' nonce exp :
  Check v encoded router backend tool args now = (r, t, v') →
  (burned nonce exp now v → burned nonce exp now v' ∧ accepts nonce exp (r, t) = false) ∧
  (accepts nonce exp (r, t) = true → burned nonce exp now v').
Proof.
  unfold Deleg.Check. destruct (DecodeDelegation encoded) as [tok|]; [|by intros [= <- <- <-]].
  unfold VerifyDelegation. destruct (checkDelegation _ _ _ _ _) as [[]|e] eqn:Hc;
    [|by intros [= <- <- <-]].
  apply checkDelegation_ok in Hc as (_ & _ & _ & _ & _ & _ & _ & _ & _ & _ & Hexp).
  cbn [Use memNonceStore].
  destruct (MemNonceStore_Use _ _ _ _) as [fresh m'] eqn:Hu.
  apply MemNonceStore_Use_spec in Hu as (Hkeep & Href & Hnew). intros [= <- <- <-].
  unfold burned. cbn [nonces default accepts]. split.
  - intros Hb. split; [intros Hle; apply Hkeep; [by apply Hb|done]|].
    destruct fresh; [|done].
    destruct (String.eqb_spec (Nonce tok) nonce) as [En|]; [|done].
    destruct (Z.eqb_spec (ExpiresAt tok) exp) as [Ee|]; [|done]. subst.
    by specialize (Href _ (Hb Hexp) Hexp).
  - destruct fresh; [|done]. intros Ha _. breflect. subst. by apply Hnew.
Qed.

Lemma CheckAll_burned hs v nonce exp t :
  inOrder t hs → burned nonce exp t v → List.filter (accepts nonce exp) (CheckAll hs v) = [].
Proof.
  revert v t. induction hs as [|[[[[[encoded router] backend] tool] args] now] hs IH];
    intros v t Ht Hb; [done|]. cbn [CheckAll].
  destruct (Check v _ _ _ _ _ _) as [[r tk] v1] eqn:Hc. destruct Ht as [Ht1 Ht2]. simpl in Ht1.
  assert (Hb' : burned nonce exp now v).
  { intros Hle. apply Hb. assert (Unix t ≤ Unix now) by by apply Z.div_le_mono. lia. }
  apply (Check_nonce _ _ _ _ _ _ _ _ _ _ nonce exp) in Hc as [Hc _].
  destruct (Hc Hb') as [Hb1 Ha]. cbn [List.filter]. rewrite Ha. by eapply IH.
Qed.

(** A delegation token is used once: among tokens checked in time order, at most one
    with a given nonce and expiry is accepted, so a captured token cannot be replayed even
    in the second in which it expires. *)
Theorem delegation_not_replayed hs v nonce exp t :
  inOrder t hs → (length (List.filter (accepts nonce exp) (CheckAll hs v)) ≤ 1)%nat.
Proof.
  revert v t. induction hs as [|[[[[[encoded router] backend] tool] args] now] hs IH];
    intros v t Ht; [simpl; lia|]. cbn [CheckAll].
  destruct (Check v _ _ _ _ _ _) as [[r tk] v1] eqn:Hc. destruct Ht as [Ht1 Ht2].
  apply (Check_nonce _ _ _ _ _ _ _ _ _ _ nonce exp) in Hc as [_ Hc]. cbn [List.filter].
  destruct (accepts nonce exp (r, tk)); [|by eapply IH].
  simpl. by rewrite (CheckAll_burned _ _ _ _ _ Ht2 (Hc eq_refl)).
Qed.
End DelegationProofs.
End Deleg.

(** ** Concrete runs *)

Module DelegRuns.
Import Deleg.
Export CapRuns.

Definition encD (t : DelegationToken) : string :=
  encS (encZ t.(Version)) +:+ encS t.(Nonce) +:+ encS t.(Caller) +:+ encS t.(Router) +:+
  encS t.(Audience) +:+ encS t.(Backend) +:+ encS t.(Tool) +:+ encS t.(ReqHash) +:+
  encS (encZ t.(IssuedAt)) +:+ encS (encZ t.(ExpiresAt)) +:+ encS t.(PubKey) +:+ encS t.(Sig).
Definition decD (s : string) : option DelegationToken :=
  '(a1, s) ← decS s; '(a2, s) ← decS s; '(a3, s) ← decS s; '(a4, s) ← decS s;
  '(a5, s) ← decS s; '(a6, s) ← decS s; '(a7, s) ← decS s; '(a8, s) ← decS s;
  '(b1, s) ← decS s; '(b2, s) ← decS s; '(b3, s) ← decS s; '(b4, s) ← decS s;
  Some (mkDeleg (decZ a1) a2 a3 a4 a5 a6 a7 a8 (decZ b1) (decZ b2) b3 b4).
#[export] Instance toyDelegCodec : DelegCodec :=
  {| del_json := encD; EncodeDelegation := encD; DecodeDelegation := decD |}.

Definition routerToken : DelegationToken :=
  match IssueDelegation (λ a, a) authority
          (mkDelegClaims "alice" "router" "up" "db" "read" "{}" None) "n1" 0 with
  | Ok t => t
  | Err _ => mkDeleg 0 "" "" "" "" "" "" "" 0 0 "" ""
  end.
Definition dverifier : DelegationVerifier (N := gmap string Z) :=
  mkDelegVerifier {[PubKeyHex authority]} "up" ∅.
Definition presented : string := EncodeDelegation routerToken.
Definition twice : list (string * string * string * string * string * Z) :=
  [(presented, "router", "db", "read", "{}", Second);
   (presented, "router", "db", "read", "{}", 300 * Second)].
End DelegRuns.
Import Deleg DelegRuns.

Lemma delegation_bound_to_hop_witness :
  Router routerToken = "router" ∧ Tool routerToken = "read".
Proof.
  destruct (delegation_bound_to_hop (λ a, a) dverifier presented "router" "db" "read" "{}" Second
    tt (Some routerToken) (Check (λ a, a) dverifier presented "router" "db" "read" "{}" Second).2)
    as (tok & Ht & _ & _ & _ & Hr & _ & _ & Hto & _).
  - vm_compute. reflexivity.
  - injection Ht as ->. split; [exact Hr|exact Hto].
Defined.

Lemma delegation_not_replayed_witness :
  (length (List.filter (accepts "n1" 300) (CheckAll (λ a, a) twice dverifier)) ≤ 1)%nat.
Proof.
  apply (delegation_not_replayed (λ a, a) twice dverifier "n1" 300 0).
  simpl. unfold Second. lia.
Defined.
