(* ===== verification/Filter.v ===== *)
(** * Filter: enforcement on the JSON-RPC stream
    (src/policy/filter.go, src/policy/hook.go)

    The filter reassembles lines, classifies each one and, for a tools/call, composes the
    engine, the capability fold, router delegation, the decision hooks, single-use
    consumption, the audit log, labels and secret injection. The filter is a record passed
    and returned by each operation; what reached the backend and the peer is part of it.
    Tracing and the event hook observe decisions without changing them and are left out. *)
From stdpp Require Import base list strings gmap.
From Stdlib Require Import ZArith Lia Ascii.
From S2P Require Import Prelude GoStd Json Classify Crypto Policy Engine Capability Delegation.
Open Scope Z_scope.

(** [Caller]: the transport-proven peer. *)
Record Caller := mkCaller { cBackendName : string; cPeer : string; cPeerKey : string;
  cPeerAddr : string }.

(** ** Decision hooks *)

Record ToolCallInfo := mkInfo {
  iCaller : Caller; iTool : string; iArguments : string; iLabels : gset string }.
Definition DecisionHook := ToolCallInfo → Decision → Decision.

Definition outcomeSeverity (o : Outcome) : Z :=
  match o with OutcomeDeny => 2 | OutcomeCosign => 1 | OutcomeAllow => 0 end.

(** The labels of [l] not in [seen], first occurrences only. *)
Fixpoint unseen (seen l : list string) : list string :=
  match l with
  | [] => []
  | x :: l => if bool_decide (x ∈ seen) then unseen seen l else x :: unseen (x :: seen) l
  end.
Definition mergeLabels (a b : list string) : list string :=
  match b with [] => a | _ => unseen [] (a ++ b) end.

Definition isNoReason (r : Reason) : bool := match r with NoReason => true | _ => false end.

Definition applyHook (info : ToolCallInfo) (dec : Decision) (h : DecisionHook) : Decision :=
  let out := h info dec in
  let labels := mergeLabels dec.(AddLabels) out.(AddLabels) in
  if outcomeSeverity dec.(outcome) <? outcomeSeverity out.(outcome) then
    mkDecision (bool_decide (out.(outcome) = OutcomeAllow)) dec.(RuleID) out.(outcome)
      (if isNoReason out.(reason) then dec.(reason) else out.(reason)) labels dec.(Cost)
      dec.(RetryAfter)
  else mkDecision dec.(Allow) dec.(RuleID) dec.(outcome) dec.(reason) labels dec.(Cost)
         dec.(RetryAfter).

(** [applyDecisionHooks]; a nil hook is skipped. *)
Definition applyDecisionHooks (hooks : list (option DecisionHook)) (info : ToolCallInfo)
    (base : Decision) : Decision :=
  fold_left (λ dec h, match h with Some h => applyHook info dec h | None => dec end) hooks base.

(** ** Filter state *)

Record AuditRecord := mkAudit {
  aBackend : string; aPeer : string; aPeerKey : string; aMethod : string; aTool : string;
  aRPCID : string; aDecision : Outcome; aReason : Reason; aRule : Z; aCost : Z;
  aDelegatedCaller : string; aDelegationRouter : string; aDelegationNonce : string
}.

(** The audit log: [write] reports whether the record was written. *)
Class AuditSink (L : Type) := {
  auditWrite : L → AuditRecord → bool * L;
  FailClosed : L → bool
}.

(** What the peer is told when a request is refused. *)
Inductive Denial :=
| DeniedBatch | DeniedInvalid (why : classReason)
| DeniedAudit (what : string)
| DeniedSecret (tool : string)
| DeniedCosign (tool : string) (why : Reason)
| DeniedTool (tool : string) (why : Reason) (retryAfter : Z)
| DeniedMethod (method : string).

Record PendingReq := mkPending {
  pdPeer : string; pdPeerKey : string; pdBackend : string; pdTool : string; pdRPCID : string;
  pdArgsHash : string; pdPolicyHash : string }.

Section FilterModel.
Context `{Float64} {A : Type} `{RequestApprovalStore A}.
Context `{Ed25519} `{SHA256} `{Cap.CapCodec} `{Deleg.DelegCodec}.
Context {N : Type} `{NonceStore N} {L : Type} `{AuditSink L}.
Context (LoadLocation : string → option Location) (ParseDuration : string → option Z).
Context (canonicalArgsHash : string → string).

(** [SecretResolver.Resolve]: the line with secrets in place and the injected values, or
    [None] when the injection is refused. *)
Definition SecretResolver :=
  Caller → string → string → gset string → option (string * list string).

Record Filter := mkFilter {
  eng : Engine A;
  audit : L;
  secrets : option SecretResolver;
  capVerifier : option (Cap.CapabilityVerifier N);
  capRequired : bool;
  delegVerifier : option (Deleg.DelegationVerifier (N := N));
  delegRequired : bool;
  hooks : list (option DecisionHook);
  caller : Caller;
  labels : gset string;
  wbuf : string;
  innerUp : bool;                       (* the backend accepts writes *)
  toBackend : list string;              (* lines written to the backend, oldest first *)
  toPeer : list (string * Denial);      (* denials with the request id *)
  held : option (list PendingReq);      (* requests held for a human; [None]: no store *)
  redacted : list string                (* values the redactor scrubs *)
}.

Definition set_eng e f := mkFilter e f.(audit) f.(secrets) f.(capVerifier) f.(capRequired)
  f.(delegVerifier) f.(delegRequired) f.(hooks) f.(caller) f.(labels) f.(wbuf) f.(innerUp)
  f.(toBackend) f.(toPeer) f.(held) f.(redacted).
Definition set_audit l f := mkFilter f.(eng) l f.(secrets) f.(capVerifier) f.(capRequired)
  f.(delegVerifier) f.(delegRequired) f.(hooks) f.(caller) f.(labels) f.(wbuf) f.(innerUp)
  f.(toBackend) f.(toPeer) f.(held) f.(redacted).
Definition set_cap v f := mkFilter f.(eng) f.(audit) f.(secrets) v f.(capRequired)
  f.(delegVerifier) f.(delegRequired) f.(hooks) f.(caller) f.(labels) f.(wbuf) f.(innerUp)
  f.(toBackend) f.(toPeer) f.(held) f.(redacted).
Definition set_deleg v f := mkFilter f.(eng) f.(audit) f.(secrets) f.(capVerifier)
  f.(capRequired) v f.(delegRequired) f.(hooks) f.(caller) f.(labels) f.(wbuf) f.(innerUp)
  f.(toBackend) f.(toPeer) f.(held) f.(redacted).
Definition set_wbuf w f := mkFilter f.(eng) f.(audit) f.(secrets) f.(capVerifier)
  f.(capRequired) f.(delegVerifier) f.(delegRequired) f.(hooks) f.(caller) f.(labels) w
  f.(innerUp) f.(toBackend) f.(toPeer) f.(held) f.(redacted).

(** [addLabels]. *)
Definition addLabels (ls : list string) f := mkFilter f.(eng) f.(audit) f.(secrets)
  f.(capVerifier) f.(capRequired) f.(delegVerifier) f.(delegRequired) f.(hooks) f.(caller)
  (list_to_set ls ∪ f.(labels)) f.(wbuf) f.(innerUp) f.(toBackend) f.(toPeer) f.(held)
  f.(redacted).
Definition addRedacted (vs : list string) f := mkFilter f.(eng) f.(audit) f.(secrets)
  f.(capVerifier) f.(capRequired) f.(delegVerifier) f.(delegRequired) f.(hooks) f.(caller)
  f.(labels) f.(wbuf) f.(innerUp) f.(toBackend) f.(toPeer) f.(held) (f.(redacted) ++ vs).
Definition hold (p : PendingReq) f := mkFilter f.(eng) f.(audit) f.(secrets)
  f.(capVerifier) f.(capRequired) f.(delegVerifier) f.(delegRequired) f.(hooks) f.(caller)
  f.(labels) f.(wbuf) f.(innerUp) f.(toBackend) f.(toPeer) ((λ l, l ++ [p]) <$> f.(held)) f.(redacted).

(** [writeDenial], [writeDenialRetry]. *)
Definition writeDenial (id : string) (d : Denial) f := mkFilter f.(eng) f.(audit)
  f.(secrets) f.(capVerifier) f.(capRequired) f.(delegVerifier) f.(delegRequired) f.(hooks)
  f.(caller) f.(labels) f.(wbuf) f.(innerUp) f.(toBackend) (f.(toPeer) ++ [(id, d)]) f.(held)
  f.(redacted).

(** [inner.Write]: the result is whether the write succeeded. *)
Definition innerWrite (line : string) f : bool * Filter :=
  if f.(innerUp) then
    (true, mkFilter f.(eng) f.(audit) f.(secrets) f.(capVerifier) f.(capRequired)
      f.(delegVerifier) f.(delegRequired) f.(hooks) f.(caller) f.(labels) f.(wbuf) f.(innerUp)
      (f.(toBackend) ++ [line]) f.(toPeer) f.(held) f.(redacted))
  else (false, f).

(** [record] and [audited]. *)
Definition record (f : Filter) (method tool rpcID : string) (dec : Decision) : AuditRecord :=
  mkAudit f.(caller).(cBackendName) f.(caller).(cPeer) f.(caller).(cPeerKey) method tool rpcID
    dec.(outcome) dec.(reason) dec.(RuleID) dec.(Cost) "" "" "".
Definition audited (rec : AuditRecord) f : bool * Filter :=
  let '(ok, l) := auditWrite f.(audit) rec in (ok, set_audit l f).

(** ** tools/call *)

Definition boundCall (f : Filter) (fqdn key tool args : string) : Call :=
  mkCall fqdn key f.(caller).(cBackendName) tool args f.(labels) true.
Definition decideBound (fqdn key tool args : string) (now : Instant) f : Decision * Filter :=
  let '(d, e) := decideTool LoadLocation ParseDuration canonicalArgsHash
                   (boundCall f fqdn key tool args) now f.(eng) in (d, set_eng e f).

Record delegationAudit := mkDA { relevant : bool; daCaller : string; daNonce : string }.

(** [applyDelegation]: [dec] is the router leg. *)
Definition applyDelegation (v : Deleg.DelegationVerifier (N := N)) (dec : Decision)
    (token tool args : string) (now : Instant) f : Decision * delegationAudit * Filter :=
  if (token =? "")%string then
    if f.(delegRequired) then
      (mkDecision false (-1) OutcomeDeny DelegationMissing [] 0 0, mkDA true "" "", f)
    else (dec, mkDA false "" "", f)
  else
    let '(r, tok, v') := Deleg.Check canonicalArgsHash v token f.(caller).(cPeerKey)
                           f.(caller).(cBackendName) tool args now in
    let f := set_deleg (Some v') f in
    let who := match tok with Some t => t.(Deleg.Caller) | None => "" end in
    let nonce := match tok with Some t => t.(Deleg.Nonce) | None => "" end in
    match r with
    | Ok _ =>
        if bool_decide (dec.(outcome) = OutcomeAllow) then
          let '(callerDec, f) := decideBound who who tool args now f in
          (Deleg.AuthorizeDelegated callerDec dec true, mkDA true who nonce, f)
        else
          (Deleg.AuthorizeDelegated (mkDecision false 0 OutcomeDeny NoReason [] 0 0) dec true,
           mkDA true who nonce, f)
    | Err _ =>
        (Deleg.AuthorizeDelegated (mkDecision false 0 OutcomeDeny NoReason [] 0 0) dec false,
         mkDA true who nonce, f)
    end.

(** The end of the decision: hooks, then the consumption of a load-bearing grant. *)
Definition finishCall (pendingCap : option Cap.CapabilityClaims) (tool args : string)
    (now : Instant) (dec : Decision) (da : delegationAudit) f
  : Decision * delegationAudit * Filter :=
  let dec := applyDecisionHooks f.(hooks) (mkInfo f.(caller) tool args f.(labels)) dec in
  match pendingCap, f.(capVerifier) with
  | Some c, Some v =>
      if bool_decide (dec.(outcome) = OutcomeAllow) then
        match Cap.Consume v c now with
        | (Ok _, v') => (dec, da, set_cap (Some v') f)
        | (Err e, v') =>
            (mkDecision false dec.(RuleID) OutcomeDeny (CapabilityInvalid e) [] 0 0, da,
             set_cap (Some v') f)
        end
      else (dec, da, f)
  | _, _ => (dec, da, f)
  end.

(** The decision of a tools/call: engine, capability, delegation, hooks, consumption. *)
Definition decideCall (tool args capToken delegToken : string) (now : Instant) f
  : Decision * delegationAudit * Filter :=
  let '(dec, f) := decideBound f.(caller).(cPeer) f.(caller).(cPeerKey) tool args now f in
  let '(dec, pendingCap) :=
    match f.(capVerifier) with
    | Some v => Cap.FoldCapability dec (Some v) f.(capRequired) capToken f.(caller).(cPeerKey)
                  f.(caller).(cBackendName) tool now
    | None => (dec, None)
    end in
  let '(dec, da, f) :=
    match f.(delegVerifier) with
    | Some v => applyDelegation v dec delegToken tool args now f
    | None => (dec, mkDA false "" "", f)
    end in
  finishCall pendingCap tool args now dec da f.

Definition delegationRecord (f : Filter) (da : delegationAudit) (r : AuditRecord) : AuditRecord :=
  if da.(relevant) then
    mkAudit r.(aBackend) r.(aPeer) r.(aPeerKey) r.(aMethod) r.(aTool) r.(aRPCID) r.(aDecision)
      r.(aReason) r.(aRule) r.(aCost) da.(daCaller) f.(caller).(cPeerKey) da.(daNonce)
  else r.

(** [handleToolCall]: the boolean is [false] when a write to the backend failed. *)
Definition handleToolCall (line tool id args capToken delegToken : string) (now : Instant) f
  : bool * Filter :=
  let '(dec, da, f) := decideCall tool args capToken delegToken now f in
  let '(written, f) := audited (delegationRecord f da (record f "tools/call" tool id dec)) f in
  if negb written && FailClosed f.(audit) then (true, writeDenial id (DeniedAudit tool) f)
  else
    match dec.(outcome) with
    | OutcomeAllow =>
        let f := addLabels dec.(AddLabels) f in
        match f.(secrets) with
        | None => innerWrite line f
        | Some resolve =>
            match resolve f.(caller) tool line f.(labels) with
            | None => (true, writeDenial id (DeniedSecret tool) f)
            | Some (out, injected) => innerWrite out (addRedacted injected f)
            end
        end
    | OutcomeCosign =>
        let p := mkPending f.(caller).(cPeer) f.(caller).(cPeerKey) f.(caller).(cBackendName)
          tool id (canonicalArgsHash args) f.(eng).(ph) in
        (true, writeDenial id (DeniedCosign tool dec.(reason)) (hold p f))
    | OutcomeDeny =>
        (true, writeDenial id (DeniedTool tool dec.(reason) dec.(RetryAfter)) f)
    end.

(** ** Other lines *)

Definition handleMethod (line method id : string) f : bool * Filter :=
  let dec := DecideMethod f.(eng).(pol) f.(caller).(cPeer) f.(caller).(cPeerKey) method in
  if dec.(RuleID) =? -1 then innerWrite line f
  else
    let '(written, f) := audited (record f method "" id dec) f in
    if dec.(Allow) then
      if negb written && FailClosed f.(audit) then
        (true, writeDenial id (DeniedAudit method) f)
      else innerWrite line f
    else (true, writeDenial id (DeniedMethod method) f).

Definition handleNotification (line method : string) f : bool * Filter :=
  let dec := DecideMethod f.(eng).(pol) f.(caller).(cPeer) f.(caller).(cPeerKey) method in
  if dec.(RuleID) =? -1 then innerWrite line f
  else
    let '(written, f) := audited (record f method "" "" dec) f in
    if negb dec.(Allow) then (true, f)
    else if negb written && FailClosed f.(audit) then (true, f)
    else innerWrite line f.

(** Only governed kinds have their tokens stripped. *)
Definition governed (k : RPCKind) : bool :=
  match k with RPCToolCall | RPCNotification | RPCMethod => true | _ => false end.

Definition handleLine (line : string) (now : Instant) f : bool * Filter :=
  let class := ClassifyRPC line in
  let '(capToken, line) :=
    if negb (isNone f.(capVerifier)) && governed class.(Kind)
    then stripCapability line else ("", line) in
  let '(delegToken, line) :=
    if negb (isNone f.(delegVerifier)) && governed class.(Kind)
    then stripMetaToken line DelegationMetaKey else ("", line) in
  match class.(Kind) with
  | RPCEmpty => (true, f)
  | RPCBatch =>
      let '(_, f) := audited (record f "<batch>" "" ""
        (mkDecision false (-1) OutcomeDeny (Rejected "batches unsupported") [] 0 0)) f in
      (true, writeDenial "null" DeniedBatch f)
  | RPCInvalid =>
      let method := if (class.(Method) =? "")%string then "<invalid>" else class.(Method) in
      let '(_, f) := audited (record f method class.(Tool) class.(RID)
        (mkDecision false (-1) OutcomeDeny (Rejected (classReasonText class.(CReason))) [] 0 0)) f in
      (true, writeDenial class.(RID) (DeniedInvalid class.(CReason)) f)
  | RPCToolCall =>
      handleToolCall line class.(Tool) class.(RID) class.(Args) capToken delegToken now f
  | RPCNotification => handleNotification line class.(Method) f
  | RPCMethod => handleMethod line class.(Method) class.(RID) f
  end.

(** ** The byte stream *)

Definition maxLineBytes : Z := 16 * 1024 * 1024.
Definition newline : ascii := "010"%char.

(** The first line of the buffer, with its newline, and what follows it. *)
Fixpoint cutLine (s : string) : option (string * string) :=
  match s with
  | "" => None
  | String c s =>
      if Ascii.eqb c newline then Some (String c "", s)
      else match cutLine s with
           | Some (l, r) => Some (String c l, r)
           | None => None
           end
  end.

(** The line loop of [Write]; every round consumes a line, so the length of the buffer is
    enough fuel. [false]: a handler failed and the line stays in the buffer. *)
Fixpoint drain (fuel : nat) (now : Instant) f : bool * Filter :=
  match fuel with
  | O => (true, f)
  | S fuel =>
      match cutLine f.(wbuf) with
      | None => (true, f)
      | Some (line, rest) =>
          let '(ok, f) := handleLine line now f in
          if ok then drain fuel now (set_wbuf rest f) else (false, f)
      end
  end.

Definition Write (p : string) (now : Instant) f : bool * Filter :=
  let buf := f.(wbuf) +:+ p in
  if maxLineBytes <? strlen buf then (false, set_wbuf "" f)
  else drain (String.length buf) now (set_wbuf buf f).

(** ** Hooks only tighten *)

Lemma applyHook_tightens info dec h :
  let d := applyHook info dec h in
  outcomeSeverity dec.(outcome) ≤ outcomeSeverity d.(outcome) ∧
  (d.(outcome) = OutcomeAllow → (h info dec).(outcome) = OutcomeAllow ∧ dec.(outcome) = OutcomeAllow) ∧
  (∀ l, l ∈ dec.(AddLabels) → l ∈ d.(AddLabels)) ∧ d.(RuleID) = dec.(RuleID) ∧ d.(Cost) = dec.(Cost).
Proof.
  assert (Hu : ∀ l x seen, x ∈ l → x ∉ seen → x ∈ unseen seen l).
  { induction l as [|y l IH]; intros x seen Hx Hs; [by apply elem_of_nil in Hx|]. simpl.
    apply elem_of_cons in Hx as [->|Hx].
    - rewrite bool_decide_eq_false_2 by done. by left.
    - case_bool_decide; [by apply IH|]. destruct (decide (x = y)) as [->|]; [by left|]. right.
      apply IH; [done|]. by apply not_elem_of_cons. }
  unfold applyHook. cbv zeta.
  assert (Hm : ∀ a b l, l ∈ a → l ∈ mergeLabels a b).
  { intros a [|y b] l Hl; [done|]. apply Hu; [by apply elem_of_app; left|]. by intros ?%elem_of_nil. }
  destruct (Z.ltb_spec (outcomeSeverity (outcome dec)) (outcomeSeverity (outcome (h info dec))));
    simpl; split_and!; auto; try lia.
  - intros Ho. rewrite Ho in *. destruct (outcome dec); simpl in *; lia.
  - intros Ho. split; [|done]. rewrite Ho in *. destruct (outcome (h info dec)); simpl in *; lia || done.
Qed.

Lemma applyDecisionHooks_allow hs info base :
  (applyDecisionHooks hs info base).(outcome) = OutcomeAllow →
  base.(outcome) = OutcomeAllow ∧
  ∀ l, l ∈ base.(AddLabels) → l ∈ (applyDecisionHooks hs info base).(AddLabels).
Proof.
  revert base. induction hs as [|[h|] hs IH]; intros base Ho; [done| |by apply IH].
  destruct (IH _ Ho) as [Ho1 Hl]. destruct (applyHook_tightens info base h) as (_ & Ha & Hl1 & _).
  split; [by apply Ha|]. intros l Hin. by apply Hl, Hl1.
Qed.

(** Plugins cannot widen a decision: whatever the hooks return, the outcome after
    them is at least as restrictive as before; a call is allowed only if it was allowed
    before and no hook objected to the decision it was shown; no label is lost, and the
    rule and cost of the decision are unchanged. *)
Theorem hooks_only_tighten hs info base :
  let d := applyDecisionHooks hs info base in
  outcomeSeverity base.(outcome) ≤ outcomeSeverity d.(outcome) ∧
  (d.(outcome) = OutcomeAllow → base.(outcome) = OutcomeAllow ∧
    ∀ pre h post, hs = pre ++ Some h :: post →
      (h info (applyDecisionHooks pre info base)).(outcome) = OutcomeAllow) ∧
  (∀ l, l ∈ base.(AddLabels) → l ∈ d.(AddLabels)) ∧
  d.(RuleID) = base.(RuleID) ∧ d.(Cost) = base.(Cost).
Proof.
  cbv zeta. revert base. induction hs as [|[h|] hs IH]; intros base.
  - simpl. split_and!; try done; try lia. intros Ho. split; [done|]. by intros [|? pre].
  - pose proof (applyHook_tightens info base h) as Hh. cbv zeta in Hh.
    destruct Hh as (Hs & Ha & Hl & Hr & Hc).
    change (applyDecisionHooks (Some h :: hs) info base)
      with (applyDecisionHooks hs info (applyHook info base h)).
    destruct (IH (applyHook info base h)) as (Hs' & Ha' & Hl' & Hr' & Hc').
    split_and!; [lia| |auto|congruence|congruence].
    intros Ho. destruct (Ha' Ho) as [Ho1 Hp]. destruct (Ha Ho1) as [Hh1 Hb]. split; [done|].
    intros [|x pre] h' post E; simplify_eq/=; [done|]. by eapply Hp.
  - change (applyDecisionHooks (None :: hs) info base) with (applyDecisionHooks hs info base).
    destruct (IH base) as (Hs' & Ha' & Hl' & Hr' & Hc'). split_and!; try done.
    intros Ho. destruct (Ha' Ho) as [Ho1 Hp]. split; [done|].
    intros [|x pre] h' post E; simplify_eq/=. by eapply Hp.
Qed.

(** ** What a decision leaves alone *)

(** Everything but the engine and the token caches. *)
Definition sameIO (f f' : Filter) : Prop :=
  f'.(audit) = f.(audit) ∧ f'.(secrets) = f.(secrets) ∧ f'.(hooks) = f.(hooks) ∧
  f'.(caller) = f.(caller) ∧ f'.(labels) = f.(labels) ∧ f'.(wbuf) = f.(wbuf) ∧
  f'.(innerUp) = f.(innerUp) ∧ f'.(toBackend) = f.(toBackend) ∧ f'.(toPeer) = f.(toPeer) ∧
  f'.(capRequired) = f.(capRequired) ∧ f'.(delegRequired) = f.(delegRequired).

Lemma sameIO_refl f : sameIO f f.
Proof. unfold sameIO. by split_and!. Qed.

Lemma sameIO_trans f g h : sameIO f g → sameIO g h → sameIO f h.
Proof. unfold sameIO. intuition congruence. Qed.

Lemma decideBound_frame fqdn key tool args now f d f' :
  decideBound fqdn key tool args now f = (d, f') →
  sameIO f f' ∧ f'.(capVerifier) = f.(capVerifier) ∧ f'.(delegVerifier) = f.(delegVerifier).
Proof.
  unfold decideBound. destruct (decideTool _ _ _ _ _ _). intros [= <- <-].
  unfold sameIO. by split_and!.
Qed.

(** The delegation step allows only the intersection. *)
Lemma applyDelegation_spec v dec token tool args now f d da f' :
  applyDelegation v dec token tool args now f = (d, da, f') →
  sameIO f f' ∧ f'.(capVerifier) = f.(capVerifier) ∧
  (d.(outcome) = OutcomeAllow → dec.(outcome) = OutcomeAllow ∧
    (token = "" ∧ f.(delegRequired) = false ∧ d = dec ∨
     token ≠ "" ∧ ∃ tok v' callerDec f1,
       Deleg.Check canonicalArgsHash v token f.(caller).(cPeerKey) f.(caller).(cBackendName)
         tool args now = (Ok tt, Some tok, v') ∧
       decideBound tok.(Deleg.Caller) tok.(Deleg.Caller) tool args now
         (set_deleg (Some v') f) = (callerDec, f1) ∧
       callerDec.(outcome) = OutcomeAllow)).
Proof.
  unfold applyDelegation. destruct (String.eqb_spec token "") as [->|Ht].
  { destruct (delegRequired f) eqn:Hreq; intros [= <- <- <-];
      (split; [apply sameIO_refl|]; split; [done|]); [done|]. intros Ho. eauto 10. }
  destruct (Deleg.Check _ _ _ _ _ _ _ _) as [[r tok] v'] eqn:Hc.
  assert (Hs : sameIO f (set_deleg (Some v') f)) by (unfold sameIO; by split_and!).
  destruct r as [[]|e].
  2:{ intros [= <- <- <-]. by split_and!. }
  assert (∃ t, tok = Some t) as [t ->].
  { unfold Deleg.Check in Hc. destruct (Deleg.DecodeDelegation token); [|done].
    destruct (Deleg.VerifyDelegation _ _ _ _ _ _). simplify_eq. eauto. }
  case_bool_decide as Ho.
  - destruct (decideBound _ _ _ _ _ _) as [callerDec f1] eqn:Hd. intros [= <- <- <-].
    pose proof (decideBound_frame _ _ _ _ _ _ _ _ Hd) as (Hs1 & Hcap & _).
    split; [by eapply sameIO_trans|]. split; [done|]. intros Ha. split; [done|]. right.
    split; [done|]. exists t, v', callerDec, f1. split; [done|]. split; [done|].
    unfold Deleg.AuthorizeDelegated in Ha. simpl in Ha. rewrite Ho in Ha.
    destruct (outcome callerDec) eqn:Hcd; simpl in Ha; done.
  - intros [= <- <- <-]. split; [done|]. split; [done|].
    unfold Deleg.AuthorizeDelegated. simpl. intros Ha.
    destruct (outcome dec) eqn:Hcd; simpl in Ha; done.
Qed.

(** How the engine's decision [d0] was allowed through to the end. *)
Definition authorizedCall (f : Filter) (tool args capToken delegToken : string) (now : Instant)
  : Prop :=
  let d0 := (decideBound f.(caller).(cPeer) f.(caller).(cPeerKey) tool args now f).1 in
  (d0.(outcome) = OutcomeAllow ∨
   d0.(outcome) = OutcomeDeny ∧ d0.(RuleID) = -1 ∧
     ∃ v c, f.(capVerifier) = Some v ∧
       Cap.verifyClaims v capToken f.(caller).(cPeerKey) f.(caller).(cBackendName) tool now = Ok c) ∧
  (∀ v, f.(capVerifier) = Some v → f.(capRequired) = true ∨ capToken ≠ "" →
     ∃ c, Cap.verifyClaims v capToken f.(caller).(cPeerKey) f.(caller).(cBackendName) tool now = Ok c) ∧
  (∀ v, f.(delegVerifier) = Some v → f.(delegRequired) = true ∨ delegToken ≠ "" →
     ∃ tok v' e1 e2 callerDec,
       Deleg.Check canonicalArgsHash v delegToken f.(caller).(cPeerKey) f.(caller).(cBackendName)
         tool args now = (Ok tt, Some tok, v') ∧
       decideTool LoadLocation ParseDuration canonicalArgsHash
         (boundCall f tok.(Deleg.Caller) tok.(Deleg.Caller) tool args) now e1 = (callerDec, e2) ∧
       callerDec.(outcome) = OutcomeAllow).

Lemma decideCall_spec tool args capToken delegToken now f dec da f' :
  decideCall tool args capToken delegToken now f = (dec, da, f') →
  sameIO f f' ∧ (dec.(outcome) = OutcomeAllow → authorizedCall f tool args capToken delegToken now).
Proof.
  unfold decideCall. destruct (decideBound (cPeer _) _ _ _ _ f) as [d0 f0] eqn:Hd0.
  pose proof Hd0 as (Hs0 & Hcap0 & Hdel0)%decideBound_frame.
  pose proof Hs0 as (_ & _ & Hhk & Hcl & Hlb & _ & _ & _ & _ & Hcr & Hdr).
  rewrite Hcap0, Hcl, Hcr, Hdel0.
  destruct (match capVerifier f with Some v => _ | None => _ end) as [d1 pend] eqn:Hfold.
  destruct (match delegVerifier f with Some v => _ | None => _ end) as [[d2 da2] f2] eqn:Hdel.
  unfold finishCall. set (d3 := applyDecisionHooks _ _ d2). intros Hend.
  (* The delegation step. *)
  assert (Hstep : sameIO f0 f2 ∧ f2.(capVerifier) = f.(capVerifier) ∧
    (d2.(outcome) = OutcomeAllow → d1.(outcome) = OutcomeAllow ∧
      ∀ v, delegVerifier f = Some v → delegRequired f = true ∨ delegToken ≠ "" →
        ∃ tok v' e1 e2 callerDec,
        Deleg.Check canonicalArgsHash v delegToken (cPeerKey (caller f)) (cBackendName (caller f))
          tool args now = (Ok tt, Some tok, v') ∧
        decideTool LoadLocation ParseDuration canonicalArgsHash
          (boundCall f (Deleg.Caller tok) (Deleg.Caller tok) tool args) now e1 = (callerDec, e2) ∧
        callerDec.(outcome) = OutcomeAllow)).
  { destruct (delegVerifier f) as [v|] eqn:Hv.
    - apply applyDelegation_spec in Hdel as (Hs & Hc & Ha). split; [done|]. split; [congruence|].
      intros Ho. destruct (Ha Ho) as [Ho1 Hcase]. split; [done|]. intros v0 [= <-] Hreq.
      destruct Hcase as [(Ht & Hr & _)|(Ht & tok & v' & cd & f1 & Hck & Hdb & Hoc)].
      { rewrite Hdr in Hr. destruct Hreq as [E|E]; congruence. }
      rewrite Hcl in Hck. unfold decideBound in Hdb.
      destruct (decideTool _ _ _ _ _ (eng (set_deleg (Some v') f0))) as [cd' e2] eqn:Hdt.
      simplify_eq. exists tok, v', (eng (set_deleg (Some v') f0)), e2, cd. split; [done|].
      split; [|done]. rewrite <- Hdt. unfold boundCall. cbn [caller labels set_deleg].
      by rewrite Hcl, Hlb.
    - simplify_eq. split; [apply sameIO_refl|]. split; [done|]. by intros ->. }
  destruct Hstep as (Hs2 & Hc2 & Ha2).
  assert (Hs : sameIO f f2) by by eapply sameIO_trans.
  assert (Hmain : d3.(outcome) = OutcomeAllow → authorizedCall f tool args capToken delegToken now).
  { intros [Ho2 _]%applyDecisionHooks_allow. destruct (Ha2 Ho2) as [Ho1 Hdg].
    unfold authorizedCall. rewrite Hd0. cbn [fst].
    destruct (capVerifier f) as [v|]; [|simplify_eq; split_and!; auto; done].
    destruct (Cap.FoldCapability_allow _ _ _ _ _ _ _ _ _ _ Hfold Ho1) as (_ & Hc & Hreq).
    split_and!; [destruct Hc as [?|(? & ? & c & ?)]; eauto 10|by intros v' [= <-]|done]. }
  destruct pend as [c|]; [|simplify_eq; by split].
  destruct (capVerifier f2) as [v|]; [|simplify_eq; by split].
  case_bool_decide; [|simplify_eq; by split].
  destruct (Cap.Consume v c now) as [[u|e] v']; simplify_eq; split; done.
Qed.

Lemma audited_frame r f ok f' :
  audited r f = (ok, f') →
  f'.(toBackend) = f.(toBackend) ∧ f'.(labels) = f.(labels) ∧ f'.(secrets) = f.(secrets) ∧
  f'.(caller) = f.(caller) ∧ f'.(wbuf) = f.(wbuf) ∧ f'.(innerUp) = f.(innerUp) ∧
  f'.(eng) = f.(eng).
Proof. unfold audited. destruct (auditWrite _ _). by intros [= <- <-]. Qed.

Lemma innerWrite_frame line f ok f' :
  innerWrite line f = (ok, f') →
  f'.(labels) = f.(labels) ∧ f'.(wbuf) = f.(wbuf) ∧ f'.(eng) = f.(eng) ∧
  (f'.(toBackend) = f.(toBackend) ∨ f'.(toBackend) = f.(toBackend) ++ [line]).
Proof. unfold innerWrite. destruct (innerUp f); intros [= <- <-]; simpl; auto. Qed.


(** ** Labels accumulate *)

Lemma handleToolCall_labels line tool id args capToken delegToken now f ok f' :
  handleToolCall line tool id args capToken delegToken now f = (ok, f') →
  f.(labels) ⊆ f'.(labels) ∧ f'.(wbuf) = f.(wbuf).
Proof.
  unfold handleToolCall. destruct (decideCall _ _ _ _ _ f) as [[dec da] f1] eqn:Hd.
  apply decideCall_spec in Hd as [(_ & Hse & _ & _ & Hlb & Hwb & _) _].
  destruct (audited _ f1) as [written f2] eqn:Haud.
  apply audited_frame in Haud as (_ & Hlb2 & Hse2 & _ & Hwb2 & _).
  assert (Hl : labels f2 = labels f) by congruence.
  assert (Hw : wbuf f2 = wbuf f) by congruence.
  destruct (negb written && _); [intros [= <- <-]; simpl; by rewrite Hl|].
  destruct (outcome dec); [intros [= <- <-]; simpl; by rewrite Hl| |intros [= <- <-]; simpl; by rewrite Hl].
  destruct (secrets (addLabels _ f2)) as [resolve|].
  - destruct (resolve _ _ _ _) as [[out inj]|].
    + intros (Hl' & Hw' & _)%innerWrite_frame. rewrite Hl', Hw'. simpl. rewrite Hl.
      split; [set_solver|done].
    + intros [= <- <-]. simpl. rewrite Hl. split; [set_solver|done].
  - intros (Hl' & Hw' & _)%innerWrite_frame. rewrite Hl', Hw'. simpl. rewrite Hl.
    split; [set_solver|done].
Qed.

Lemma handleLine_labels line now f ok f' :
  handleLine line now f = (ok, f') → f.(labels) ⊆ f'.(labels) ∧ f'.(wbuf) = f.(wbuf).
Proof.
  unfold handleLine. destruct (if _ : bool then stripCapability line else _) as [capToken line1].
  destruct (if _ : bool then stripMetaToken line1 _ else _) as [delegToken line2].
  assert (Haud : ∀ r g b g', audited r g = (b, g') → labels g' = labels g ∧ wbuf g' = wbuf g).
  { intros r g b g' (_ & ? & _ & _ & ? & _)%audited_frame. done. }
  assert (Hw : ∀ l g b g', innerWrite l g = (b, g') → labels g' = labels g ∧ wbuf g' = wbuf g).
  { intros l g b g' (? & ? & _)%innerWrite_frame. done. }
  destruct (Kind _).
  - by intros [= <- <-].
  - destruct (audited _ f) as [b f1] eqn:E. apply Haud in E as [E1 E2]. intros [= <- <-]. simpl.
    by rewrite E1, E2.
  - destruct (audited _ f) as [b f1] eqn:E. apply Haud in E as [E1 E2]. intros [= <- <-]. simpl.
    by rewrite E1, E2.
  - apply handleToolCall_labels.
  - unfold handleNotification. destruct (_ =? -1); [intros [-> ->]%Hw; done|].
    destruct (audited _ f) as [b f1] eqn:E. apply Haud in E as [E1 E2].
    destruct (negb (Allow _)); [intros [= <- <-]; by rewrite E1, E2|].
    destruct (negb b && _); [intros [= <- <-]; by rewrite E1, E2|].
    intros [-> ->]%Hw. by rewrite E1, E2.
  - unfold handleMethod. destruct (_ =? -1); [intros [-> ->]%Hw; done|].
    destruct (audited _ f) as [b f1] eqn:E. apply Haud in E as [E1 E2].
    destruct (Allow _); [|intros [= <- <-]; simpl; by rewrite E1, E2].
    destruct (negb b && _); [intros [= <- <-]; simpl; by rewrite E1, E2|].
    intros [-> ->]%Hw. by rewrite E1, E2.
Qed.

Lemma drain_labels fuel now f ok f' :
  drain fuel now f = (ok, f') → f.(labels) ⊆ f'.(labels).
Proof.
  revert f. induction fuel as [|fuel IH]; intros f; simpl; [by intros [= <- <-]|].
  destruct (cutLine (wbuf f)) as [[line rest]|]; [|by intros [= <- <-]].
  destruct (handleLine line now f) as [b f1] eqn:Hh. apply handleLine_labels in Hh as [Hl _].
  destruct b; [|by intros [= <- <-]]. intros Hd%IH. simpl in Hd. set_solver.
Qed.

(** The session goes on: the peer writes bytes. *)
Definition written (f f' : Filter) : Prop := ∃ p now ok, Write p now f = (ok, f').

Lemma written_labels f f' : star written f f' → f.(labels) ⊆ f'.(labels).
Proof.
  intros Hs. refine (star_invariant written (λ g, labels f ⊆ labels g) _ _ _ Hs _); [|done].
  intros g g' (p & now & ok & Hw) Hl. unfold Write in Hw.
  destruct (maxLineBytes <? _); [by simplify_eq|]. apply drain_labels in Hw. simpl in Hw. set_solver.
Qed.

(** A label sticks to the session: once the session carries a label, then after any
    further traffic, no call whose governing rule blocks that label reaches the backend,
    whatever capability or delegation tokens the call carries and whatever the hooks say. *)
Theorem labelled_session_stays_blocked f f1 l line tool id args capToken delegToken now i r ok f2 :
  l ∈ f.(labels) → star written f f1 →
  is_first (applies LoadLocation f1.(eng)
    (boundCall f1 f1.(caller).(cPeer) f1.(caller).(cPeerKey) tool args) now)
    f1.(eng).(pol).(Rules) i r →
  "" ∉ blockSet r → l ∈ blockSet r →
  handleToolCall line tool id args capToken delegToken now f1 = (ok, f2) →
  f2.(toBackend) = f1.(toBackend).
Proof.
  intros Hl Hstar Hf He Hb. assert (Hl1 : l ∈ labels f1) by (apply written_labels in Hstar; set_solver).
  unfold handleToolCall. destruct (decideCall _ _ _ _ _ f1) as [[dec da] g] eqn:Hd.
  apply decideCall_spec in Hd as [Hs Hauth].
  destruct (audited _ g) as [w g1] eqn:Haud. apply audited_frame in Haud as (Htb & _).
  assert (Htb1 : toBackend g1 = toBackend f1) by (destruct Hs as (_ & _ & _ & _ & _ & _ & _ & ? & _); congruence).
  destruct (negb w && _); [by intros [= <- <-]|].
  destruct (outcome dec) eqn:Ho; [by intros [= <- <-]| |by intros [= <- <-]].
  destruct (Hauth eq_refl) as [Hor _]. exfalso. unfold decideBound in Hor.
  pose proof (decideTool_blocked LoadLocation ParseDuration canonicalArgsHash _ _ _ _ _ l Hf He Hb Hl1)
    as [Hden Hrid].
  destruct (decideTool _ _ _ _ _ _) as [d0 e0]. simpl in *.
  destruct Hf as (Hi & _). destruct Hor as [?|(_ & ? & _)]; [congruence|lia].
Qed.

(** ** Framing does not depend on how the bytes arrive *)

(** Handlers neither read nor write the reassembly buffer. *)
Definition rebuf {X} (w : string) (r : X * Filter) : X * Filter := (r.1, set_wbuf w r.2).

Lemma decideBound_rebuf w fqdn key tool args now f :
  decideBound fqdn key tool args now (set_wbuf w f) = rebuf w (decideBound fqdn key tool args now f).
Proof.
  unfold decideBound. change (boundCall (set_wbuf w f)) with (boundCall f).
  change (eng (set_wbuf w f)) with (eng f). by destruct (decideTool _ _ _ _ _ _).
Qed.

Lemma applyDelegation_rebuf w v dec token tool args now f :
  applyDelegation v dec token tool args now (set_wbuf w f) =
  rebuf w (applyDelegation v dec token tool args now f).
Proof.
  unfold applyDelegation. change (delegRequired (set_wbuf w f)) with (delegRequired f).
  change (caller (set_wbuf w f)) with (caller f).
  destruct (token =? "")%string; [by destruct (delegRequired f)|].
  destruct (Deleg.Check _ _ _ _ _ _ _ _) as [[r tok] v'].
  change (set_deleg (Some v') (set_wbuf w f)) with (set_wbuf w (set_deleg (Some v') f)).
  destruct r; [|done]. case_bool_decide; [|done].
  rewrite decideBound_rebuf. by destruct (decideBound _ _ _ _ _ _).
Qed.

Lemma finishCall_rebuf w pend tool args now dec da f :
  finishCall pend tool args now dec da (set_wbuf w f) =
  rebuf w (finishCall pend tool args now dec da f).
Proof.
  unfold finishCall. change (hooks (set_wbuf w f)) with (hooks f).
  change (caller (set_wbuf w f)) with (caller f). change (labels (set_wbuf w f)) with (labels f).
  change (capVerifier (set_wbuf w f)) with (capVerifier f).
  destruct pend as [c|]; [|done]. destruct (capVerifier f) as [v|]; [|done].
  cbv zeta. case_bool_decide; [|done]. by destruct (Cap.Consume v c now) as [[] ?].
Qed.

Lemma decideCall_rebuf w tool args capToken delegToken now f :
  decideCall tool args capToken delegToken now (set_wbuf w f) =
  rebuf w (decideCall tool args capToken delegToken now f).
Proof.
  unfold decideCall. change (caller (set_wbuf w f)) with (caller f).
  rewrite decideBound_rebuf. destruct (decideBound _ _ _ _ _ f) as [d0 f0]. unfold rebuf at 1.
  cbn [fst snd]. change (capVerifier (set_wbuf w f0)) with (capVerifier f0).
  change (capRequired (set_wbuf w f0)) with (capRequired f0).
  change (delegVerifier (set_wbuf w f0)) with (delegVerifier f0).
  change (caller (set_wbuf w f0)) with (caller f0).
  destruct (match capVerifier f0 with Some v => _ | None => _ end) as [d1 pend].
  destruct (delegVerifier f0) as [v|]; [|by apply finishCall_rebuf].
  rewrite applyDelegation_rebuf. destruct (applyDelegation v d1 delegToken tool args now f0) as [[d2 da] g].
  apply finishCall_rebuf.
Qed.

Lemma audited_rebuf w r f : audited r (set_wbuf w f) = rebuf w (audited r f).
Proof.
  unfold audited. change (audit (set_wbuf w f)) with (audit f). by destruct (auditWrite _ _).
Qed.

Lemma innerWrite_rebuf w line f : innerWrite line (set_wbuf w f) = rebuf w (innerWrite line f).
Proof.
  unfold innerWrite. change (innerUp (set_wbuf w f)) with (innerUp f). by destruct (innerUp f).
Qed.

Lemma handleToolCall_rebuf w line tool id args capToken delegToken now f :
  handleToolCall line tool id args capToken delegToken now (set_wbuf w f) =
  rebuf w (handleToolCall line tool id args capToken delegToken now f).
Proof.
  unfold handleToolCall. rewrite decideCall_rebuf.
  destruct (decideCall _ _ _ _ _ f) as [[dec da] f1]. unfold rebuf at 1. cbn [fst snd].
  change (delegationRecord (set_wbuf w f1)) with (delegationRecord f1).
  change (record (set_wbuf w f1)) with (record f1).
  rewrite audited_rebuf. destruct (audited _ f1) as [b f2]. unfold rebuf at 1. cbn [fst snd].
  change (audit (set_wbuf w f2)) with (audit f2).
  destruct (negb b && _); [done|]. destruct (outcome dec); [done| |done].
  change (addLabels (AddLabels dec) (set_wbuf w f2)) with (set_wbuf w (addLabels (AddLabels dec) f2)).
  generalize (addLabels (AddLabels dec) f2) as g. intros g.
  change (secrets (set_wbuf w g)) with (secrets g). change (caller (set_wbuf w g)) with (caller g).
  change (labels (set_wbuf w g)) with (labels g).
  destruct (secrets g) as [resolve|]; [|apply innerWrite_rebuf].
  destruct (resolve _ _ _ _) as [[out inj]|]; [|done].
  apply (innerWrite_rebuf w out (addRedacted inj g)).
Qed.

Lemma handleLine_rebuf w line now f :
  handleLine line now (set_wbuf w f) = rebuf w (handleLine line now f).
Proof.
  unfold handleLine. change (capVerifier (set_wbuf w f)) with (capVerifier f).
  change (delegVerifier (set_wbuf w f)) with (delegVerifier f).
  change (record (set_wbuf w f)) with (record f).
  destruct (if _ : bool then stripCapability line else _) as [capToken line1].
  destruct (if _ : bool then stripMetaToken line1 _ else _) as [delegToken line2].
  destruct (Kind _); [done| | | | |]; rewrite ?audited_rebuf.
  - by destruct (audited _ f).
  - by destruct (audited _ f).
  - apply handleToolCall_rebuf.
  - unfold handleNotification. change (eng (set_wbuf w f)) with (eng f).
    change (caller (set_wbuf w f)) with (caller f). change (record (set_wbuf w f)) with (record f).
    destruct (_ =? -1); [apply innerWrite_rebuf|]. rewrite audited_rebuf.
    destruct (audited _ f) as [b f1]. unfold rebuf at 1. cbn [fst snd].
    change (audit (set_wbuf w f1)) with (audit f1).
    destruct (negb (Allow _)); [done|]. destruct (negb b && _); [done|]. apply innerWrite_rebuf.
  - unfold handleMethod. change (eng (set_wbuf w f)) with (eng f).
    change (caller (set_wbuf w f)) with (caller f). change (record (set_wbuf w f)) with (record f).
    destruct (_ =? -1); [apply innerWrite_rebuf|]. rewrite audited_rebuf.
    destruct (audited _ f) as [b f1]. unfold rebuf at 1. cbn [fst snd].
    change (audit (set_wbuf w f1)) with (audit f1).
    destruct (Allow _); [|done]. destruct (negb b && _); [done|]. apply innerWrite_rebuf.
Qed.

Lemma cutLine_app s p line rest :
  cutLine s = Some (line, rest) → cutLine (s +:+ p) = Some (line, rest +:+ p).
Proof.
  revert line rest. induction s as [|c s IH]; intros line rest; [done|].
  rewrite append_cons. cbn [cutLine].
  destruct (Ascii.eqb c newline); [by intros [= <- <-]|].
  destruct (cutLine s) as [[l r]|]; [|done]. intros [= <- <-]. by rewrite (IH l r).
Qed.

Lemma cutLine_length s line rest :
  cutLine s = Some (line, rest) → (String.length rest < String.length s)%nat.
Proof.
  revert line rest. induction s as [|c s IH]; intros line rest; [done|]. cbn [cutLine].
  destruct (Ascii.eqb c newline); [intros [= <- <-]; simpl; lia|].
  destruct (cutLine s) as [[l r]|]; [|done]. intros [= <- <-]. simpl.
  specialize (IH l r eq_refl). lia.
Qed.

(** Fuel beyond the length of the buffer does not matter: the line loop terminates. *)
Lemma drain_fuel n m now f :
  (String.length f.(wbuf) ≤ n)%nat → (String.length f.(wbuf) ≤ m)%nat →
  drain n now f = drain m now f.
Proof.
  revert m f. induction n as [|n IH]; intros m f Hn Hm.
  { destruct (wbuf f) as [|c s] eqn:Hw; [|simpl in Hn; lia].
    destruct m; [done|]. cbn [drain]. by rewrite Hw. }
  destruct m as [|m].
  { destruct (wbuf f) as [|c s] eqn:Hw; [|simpl in Hm; lia]. cbn [drain]. by rewrite Hw. }
  cbn [drain]. destruct (cutLine (wbuf f)) as [[line rest]|] eqn:Hc; [|done].
  apply cutLine_length in Hc. destruct (handleLine line now f) as [[] f1]; [|done].
  apply IH; simpl; lia.
Qed.

Lemma drain_app n m m' now f f1 p :
  drain n now f = (true, f1) → (String.length f.(wbuf) ≤ n)%nat →
  (String.length (f.(wbuf) +:+ p) ≤ m)%nat → (String.length (f1.(wbuf) +:+ p) ≤ m')%nat →
  drain m now (set_wbuf (f.(wbuf) +:+ p) f) = drain m' now (set_wbuf (f1.(wbuf) +:+ p) f1) ∧
  (String.length f1.(wbuf) ≤ String.length f.(wbuf))%nat.
Proof.
  revert m f. induction n as [|n IH]; intros m f Hd Hn Hm Hm'.
  { simpl in Hd. simplify_eq. split; [by apply drain_fuel|done]. }
  cbn [drain] in Hd. destruct (cutLine (wbuf f)) as [[line rest]|] eqn:Hc.
  2:{ simplify_eq. split; [by apply drain_fuel|done]. }
  pose proof (cutLine_length _ _ _ Hc) as Hlen. rewrite strlength_app in Hm.
  destruct m as [|m]; [lia|]. cbn [drain wbuf set_wbuf].
  rewrite (cutLine_app _ p _ _ Hc), handleLine_rebuf.
  destruct (handleLine line now f) as [[] g]; [|done]. unfold rebuf. cbn [fst snd].
  destruct (IH m _ Hd) as [Heq Hle]; [simpl; lia|simpl; rewrite strlength_app; lia|done|].
  split; [exact Heq|]. cbn [wbuf set_wbuf] in Hle. lia.
Qed.

End FilterModel.

(** ** Concrete runs *)

Module FilterRuns.
Export EngineRuns DelegRuns.

#[export] Instance listAudit : AuditSink (list AuditRecord) :=
  {| auditWrite l r := (true, l ++ [r]); FailClosed _ := true |}.

(** [fetch] brings untrusted data into the session, [send] refuses a tainted session. *)
Definition fetchRule := mkRule [] ["fetch"] [] true None None false true false [] [].
Definition sendRule := mkRule [] ["send"] [] true None None false false true [] [].
Definition flowPolicy := mkPolicy false [fetchRule; sendRule].

Definition filterOf (dv : option (Deleg.DelegationVerifier (N := gmap string Z)))
    (required : bool) : Filter (A := list ApprovalRequest) (N := gmap string Z) (L := list AuditRecord) :=
  mkFilter (NewEngine hashOf flowPolicy None) [] None None false dv required []
    (mkCaller "db" "router.mesh" "router" "100.64.0.9") ∅ "" true [] [] None [].
Definition direct := filterOf None false.
Definition routed := filterOf (Some dverifier) true.

Definition tokenFor (tool nonce : string) : string :=
  match Deleg.IssueDelegation (λ a, a) authority
          (Deleg.mkDelegClaims "alice" "router" "up" "db" tool "{}" None) nonce 0 with
  | Ok t => Deleg.EncodeDelegation t
  | Err _ => ""
  end.

(** A call of [tool] by its line, with an optional delegation token. *)
Definition callTool (tool deleg : string) (f : Filter) : Filter :=
  (handleToolCall UTC oneSecond argsHash tool tool "1" "{}" "" deleg Second f).2.
Definition writeC := Write (A := list ApprovalRequest) (N := gmap string Z)
  (L := list AuditRecord) UTC oneSecond argsHash.

Definition tainted := callTool "fetch" "" direct.
Definition nl : string := of_codes [10].
End FilterRuns.
Import FilterRuns.


Lemma labelled_session_stays_blocked_witness :
  toBackend (callTool "send" "" tainted) = toBackend tainted.
Proof.
  apply (labelled_session_stays_blocked UTC oneSecond argsHash tainted tainted "tainted"
    "send" "send" "1" "{}" "" "" Second 1 sendRule true (callTool "send" "" tainted)).
  - vm_compute. reflexivity.
  - apply star_refl.
  - apply firstRule_Some. vm_compute. reflexivity.
  - apply (bool_decide_unpack _). vm_compute. exact I.
  - left.
  - vm_compute. reflexivity.
Defined.


(** A delegated call loses the labels of its rule: with the same policy and the same
    calls, the direct session is tainted by [fetch] and its [send] is refused, while the
    session through the router, with valid delegation tokens for both calls, stays without
    labels and both calls reach the backend. *)
Theorem delegated_call_drops_labels :
  let d := callTool "send" "" (callTool "fetch" "" direct) in
  let r := callTool "send" (tokenFor "send" "n2") (callTool "fetch" (tokenFor "fetch" "n1") routed) in
  elements d.(labels) = ["tainted"] ∧ d.(toBackend) = ["fetch"] ∧
  elements r.(labels) = [] ∧ r.(toBackend) = ["fetch"; "send"].
Proof. vm_compute. repeat split. Qed.
