(* ===== verification/PubSub.v ===== *)
(** * PubSub: events, topic rules, retention ring and rate limits of the event bus

    [pubsub/pubsub.go] (events, their hash chain, [VerifyChain]), [pubsub/authorizer.go]
    (topic rules), [pubsub/ring.go] (the replay buffer), [pubsub/ratelimit.go] (a token
    bucket per identity) and the matching of [pubsub/subscription.go]. The broker that uses
    them is in [Broker], the persisted stream in [EventLog]. *)
From stdpp Require Import base list strings gmap.
From Stdlib Require Import ZArith Lia Sorted.
From S2P Require Import Prelude GoStd Json JsonText JsonCodec Crypto Policy Engine Checkpoint.
Open Scope Z_scope.
Open Scope mesh_scope.

#[local] Abbreviation last := list.last.

Module Bus.

(** ** Events *)

Record Identity := mkIdent { Key : string; FQDN : string; Addr : string }.
#[export] Instance Identity_eq_dec : EqDecision Identity.
Proof. solve_decision. Defined.

Record Event := mkEvent {
  Topic : string; Seq : Z; Time : string; Publisher : string; PubFQDN : string;
  Labels : list string; Enc : string; Origin : string; ReplyTo : string; Corr : string;
  Retain : bool; RetainDel : bool; ExpiresAt : string; Payload : string;
  PrevHash : string; Hash : string
}.
#[export] Instance Event_eq_dec : EqDecision Event.
Proof. solve_decision. Defined.

Definition zeroEvent : Event :=
  mkEvent "" 0 "" "" "" [] "" "" "" "" false false "" "" "" "".
Definition setHash (h : string) (e : Event) : Event :=
  mkEvent e.(Topic) e.(Seq) e.(Time) e.(Publisher) e.(PubFQDN) e.(Labels) e.(Enc) e.(Origin)
    e.(ReplyTo) e.(Corr) e.(Retain) e.(RetainDel) e.(ExpiresAt) e.(Payload) e.(PrevHash) h.

(** The struct tags. *)
Definition eventFields (e : Event) : list field :=
  let os name v := mkField name true (VStr v) in
  [mkField "topic" false (VStr e.(Topic)); mkField "seq" false (VUint e.(Seq));
   os "time" e.(Time); os "publisher" e.(Publisher); os "publisher_fqdn" e.(PubFQDN);
   mkField "labels" true (VStrs e.(Labels)); os "enc" e.(Enc); os "origin" e.(Origin);
   os "reply_to" e.(ReplyTo); os "corr" e.(Corr); mkField "retain" true (VBool e.(Retain));
   mkField "retain_del" true (VBool e.(RetainDel)); os "expires_at" e.(ExpiresAt);
   mkField "payload" true (VRaw e.(Payload)); mkField "prev_hash" false (VStr e.(PrevHash));
   os "hash" e.(Hash)].
Definition eventOfFields (fs : list field) : option Event :=
  match fVal <$> fs with
  | [VStr a1; VUint a2; VStr a3; VStr a4; VStr a5; VStrs a6; VStr a7; VStr a8; VStr a9; VStr b1;
     VBool b2; VBool b3; VStr b4; VRaw b5; VStr b6; VStr b7] =>
      Some (mkEvent a1 a2 a3 a4 a5 a6 a7 a8 a9 b1 b2 b3 b4 b5 b6 b7)
  | _ => None
  end.

(** [json.Marshal] of an event fails when its payload is not JSON. *)
Definition marshalEvent (e : Event) : option string :=
  if negb (e.(Payload) =? "")%string && isNone (parseJSON e.(Payload)) then None
  else Some (marshalStruct (eventFields e)).
Definition unmarshalEvent (s : string) : option Event :=
  unmarshalStruct (eventFields zeroEvent) s ≫= eventOfFields.

Section Chain.
Context `{SHA256}.

Definition chainHash (e : Event) : option string :=
  sha256Hex <$> marshalEvent (setHash "" e).

Inductive chainErr := NotIncreasing (i : nat) | NotChained (i : nat) | Rehash (i : nat) | BadHash (i : nat).

(** The loop of [VerifyChain] from event [i] on. *)
Fixpoint verifyFrom (i : nat) (prev : string) (lastSeq : Z) (events : list Event)
  : result chainErr unit :=
  match events with
  | [] => Ok tt
  | ev :: events =>
      let* _ := guard_err ((0 <? i)%nat && (ev.(Seq) <=? lastSeq)) (NotIncreasing i) in
      let* _ := guard_err (negb (ev.(PrevHash) =? prev)%string) (NotChained i) in
      let* want := of_option (Rehash i) (chainHash ev) in
      let* _ := guard_err (negb (want =? ev.(Hash))%string) (BadHash i) in
      verifyFrom (S i) ev.(Hash) ev.(Seq) events
  end.
Definition VerifyChain (events : list Event) : result chainErr unit := verifyFrom 0 "" 0 events.
End Chain.

(** ** Backpressure and errors *)

Inductive Backpressure := DropOldest | Disconnect.
#[export] Instance Backpressure_eq_dec : EqDecision Backpressure.
Proof. solve_decision. Defined.
Definition Backpressure_String (b : Backpressure) : string :=
  match b with Disconnect => "disconnect" | DropOldest => "drop_oldest" end.
Definition ParseBackpressure (s : string) : option Backpressure :=
  let t := toLower (trimSpace s) in
  if existsb (λ w, (t =? w)%string) [""; "drop_oldest"; "drop-oldest"; "dropoldest"]
  then Some DropOldest
  else if existsb (λ w, (t =? w)%string) ["disconnect"; "close"] then Some Disconnect
  else None.

Inductive busErr :=
| ErrDenied | ErrRateLimited | ErrTooMany | ErrBadTopic | ErrPayloadTooLarge | ErrClosed | ErrHash.

(** ** Topic rules *)

Record PubDecision := mkPub { pAllow : bool; pReason : string; pLabels : list string; pExplicit : bool }.
Record SubDecision := mkSub {
  sAllow : bool; sReason : string; sClear : list string; sClearAll : bool; sExplicit : bool }.

(** The interface [Authorizer]. *)
Record Authorizer := mkAuth {
  authPublish : Identity → string → PubDecision;
  authSubscribe : Identity → string → SubDecision }.

Record TopicRule := mkTopicRule {
  rPeers : list string; rTopics : list string; rAllow : bool; rEmit : list string;
  rTaint : bool; rClear : list string; rClearTaint : bool; rClearAll : bool }.
Definition emitSet (r : TopicRule) : list string :=
  r.(rEmit) ++ (if r.(rTaint) then ["tainted"] else []).
Definition clearSet (r : TopicRule) : list string :=
  r.(rClear) ++ (if r.(rClearTaint) then ["tainted"] else []).

Definition matchPeer (patterns : list string) (key fqdn : string) : bool :=
  match patterns with
  | [] => true
  | ps => existsb (λ p, match cutPrefix "pubkey:" p with
                        | Some k => (k =? key)%string
                        | None => (p =? "*")%string || (p =? fqdn)%string || pathMatchOk p fqdn
                        end) ps
  end.
Definition matchGlob (patterns : list string) (s : string) : bool :=
  match patterns with
  | [] => true
  | ps => existsb (λ p, (p =? "*")%string || (p =? s)%string || pathMatchOk p s) ps
  end.

Record RuleAuthorizer := mkRules { DefaultAllow : bool; Rules : list TopicRule }.
Definition matchRule (a : RuleAuthorizer) (id : Identity) (topic : string) : option TopicRule :=
  List.find (λ r, matchPeer r.(rPeers) id.(Key) id.(FQDN) && matchGlob r.(rTopics) topic) a.(Rules).
Definition reason (allow : bool) (src : string) : string :=
  (if allow then "allowed by " else "denied by ") +:+ src.
Definition RuleAuthorizer_Publish (a : RuleAuthorizer) (id : Identity) (topic : string) : PubDecision :=
  match matchRule a id topic with
  | Some r => mkPub r.(rAllow) (reason r.(rAllow) "rule") (emitSet r) true
  | None => mkPub a.(DefaultAllow) (reason a.(DefaultAllow) "default") [] false
  end.
Definition RuleAuthorizer_Subscribe (a : RuleAuthorizer) (id : Identity) (topic : string) : SubDecision :=
  match matchRule a id topic with
  | Some r => mkSub r.(rAllow) (reason r.(rAllow) "rule") (clearSet r) r.(rClearAll) true
  | None => mkSub a.(DefaultAllow) (reason a.(DefaultAllow) "default") [] false false
  end.
Definition ruleAuthorizer (a : RuleAuthorizer) : Authorizer :=
  mkAuth (RuleAuthorizer_Publish a) (RuleAuthorizer_Subscribe a).
Definition AllowAll : Authorizer :=
  mkAuth (λ _ _, mkPub true "" [] false) (λ _ _, mkSub true "" [] true false).
Definition denyAll : Authorizer :=
  mkAuth (λ _ _, mkPub false "no authorizer configured" [] false)
    (λ _ _, mkSub false "no authorizer configured" [] false false).

(** ** Topics and labels *)

(** [for _, r := range topic]: whether a rune is a control character. *)
Fixpoint controlRunes (fuel : nat) (l : list Z) : bool :=
  match fuel, l with
  | _, [] | O, _ => false
  | S fuel, _ => let '(r, w) := decodeRune l in
                 (r <? 32) || (r =? 127) || controlRunes fuel (drop (Nat.max 1 w) l)
  end.
Definition validateTopic (topic : string) (maxLen : Z) : result busErr unit :=
  let* _ := guard_err (topic =? "")%string ErrBadTopic in
  let* _ := guard_err (maxLen <? strlen topic) ErrBadTopic in
  guard_err (controlRunes (String.length topic) (codes topic)) ErrBadTopic.

(** [unionLabels]: in order, without duplicates and empty labels. *)
Definition unionLabels (a b : list string) : list string :=
  fold_left (λ out s, if (s =? "")%string || bool_decide (s ∈ out) then out else out ++ [s])
    (a ++ b) [].

Definition toSet (l : list string) : gset string := list_to_set l.
Definition intersect (a b : gset string) : gset string := a ∩ b.

(** ** The retention ring *)

Record ring := mkRing { rbuf : list Event; rhead : nat; rn : nat; rcap : nat }.
Definition newRing (capacity : Z) : ring :=
  let c := Z.to_nat (if capacity <? 0 then 0 else capacity) in mkRing (replicate c zeroEvent) 0 0 c.
Definition ringAdd (ev : Event) (r : ring) : ring :=
  if (r.(rcap) =? 0)%nat then r
  else if (r.(rn) <? r.(rcap))%nat then
    mkRing (<[((r.(rhead) + r.(rn)) mod r.(rcap))%nat := ev]> r.(rbuf)) r.(rhead) (S r.(rn)) r.(rcap)
  else mkRing (<[r.(rhead) := ev]> r.(rbuf)) ((r.(rhead) + 1) mod r.(rcap)) r.(rn) r.(rcap).
Definition ringAt (r : ring) (i : nat) : Event :=
  default zeroEvent (r.(rbuf) !! ((r.(rhead) + i) mod r.(rcap))%nat).
Definition snapshot (r : ring) : list Event := ringAt r <$> seq 0 r.(rn).
Definition since (afterSeq : Z) (r : ring) : list Event * bool :=
  if (r.(rn) =? 0)%nat then ([], false)
  else
    let oldest := (default zeroEvent (r.(rbuf) !! r.(rhead))).(Seq) in
    (List.filter (λ ev, afterSeq <? ev.(Seq)) (snapshot r), u64 (afterSeq + 1) <? oldest).

(** ** Rate limits *)

Section Limiter.
Context `{Float64}.

Record bucket := mkTB { tTokens : F; tLast : Instant }.
Record limiter := mkLimiter { lBuckets : gmap string bucket; lRate : F; lBurst : Z }.
Definition newLimiter (rate : F) (burst : Z) : limiter := mkLimiter ∅ rate burst.
Definition newBucket (burst : Z) (now : Instant) : bucket := mkTB (f_of_Z burst) now.

(** [bucket.allow], with [rate] and [burst] of the limiter that made it. *)
Definition bucketAllow (rate : F) (burst : Z) (now : Instant) (b : bucket) : bool * bucket :=
  if fleb rate (f_of_Z 0) then (true, b)
  else
    let elapsed := Seconds (timeSub now b.(tLast)) in
    let b := if fltb (f_of_Z 0) elapsed then
               let t := fadd b.(tTokens) (fmul elapsed rate) in
               mkTB (if fltb (f_of_Z burst) t then f_of_Z burst else t) now
             else b in
    if fltb b.(tTokens) (f_of_Z 1) then (false, b)
    else (true, mkTB (fsub b.(tTokens) (f_of_Z 1)) b.(tLast)).

(** [limiter.allow]; a new bucket reads the clock ([t0]) before [allow] does ([t1]). *)
Definition limiterAllow (k : string) (t0 t1 : Instant) (l : limiter) : bool * limiter :=
  if fleb l.(lRate) (f_of_Z 0) then (true, l)
  else
    let b := default (newBucket l.(lBurst) t0) (l.(lBuckets) !! k) in
    let '(ok, b) := bucketAllow l.(lRate) l.(lBurst) t1 b in
    (ok, mkLimiter (<[k := b]> l.(lBuckets)) l.(lRate) l.(lBurst)).
End Limiter.

(** ** The ring holds the last events *)

(** The last [n] elements. *)
Definition lastn {A} (n : nat) (l : list A) : list A := drop (length l - n) l.

Lemma lastn_all {A} n (l : list A) : (length l ≤ n)%nat → lastn n l = l.
Proof. intros Hl. unfold lastn. by replace (length l - n)%nat with 0%nat by lia. Qed.

Lemma lastn_app {A} n (l : list A) x : lastn n (lastn n l ++ [x]) = lastn n (l ++ [x]).
Proof.
  unfold lastn. rewrite !length_app, length_drop. simpl.
  destruct (decide (length l ≤ n)%nat) as [Hl|Hl].
  - replace (length l - n)%nat with 0%nat by lia. rewrite drop_0. do 2 f_equal. lia.
  - destruct n as [|n].
    + rewrite !drop_ge; [done| |]; rewrite length_app, ?length_drop; simpl; lia.
    + rewrite !drop_app_le by (rewrite ?length_drop; lia). rewrite drop_drop. do 2 f_equal. lia.
Qed.

Record ring_wf (r : ring) : Prop := {
  wf_len : length r.(rbuf) = r.(rcap);
  wf_n : (r.(rn) ≤ r.(rcap))%nat;
  wf_head : r.(rcap) = 0%nat ∨ (r.(rhead) < r.(rcap))%nat
}.

Lemma newRing_wf c : ring_wf (newRing c) ∧ snapshot (newRing c) = [].
Proof.
  split; [|done]. split; simpl; [apply length_replicate|lia|].
  destruct (Z.to_nat _) eqn:E; [by left|right; lia].
Qed.

Lemma snapshot_lookup r i : (i < r.(rn))%nat → snapshot r !! i = Some (ringAt r i).
Proof. intros Hi. unfold snapshot. by rewrite list_lookup_fmap, lookup_seq_lt. Qed.
Lemma length_snapshot r : length (snapshot r) = r.(rn).
Proof. unfold snapshot. by rewrite length_fmap, length_seq. Qed.

Lemma ringAdd_wf ev r : ring_wf r → ring_wf (ringAdd ev r).
Proof.
  intros [Hl Hn Hh]. unfold ringAdd. destruct (Nat.eqb_spec r.(rcap) 0); [done|].
  destruct (Nat.ltb_spec r.(rn) r.(rcap)); split; simpl; rewrite ?length_insert; try lia.
  right. apply Nat.mod_upper_bound. lia.
Qed.

Lemma mod_small_or n c : (0 < c)%nat → (n < 2 * c)%nat →
  (n mod c)%nat = if (n <? c)%nat then n else (n - c)%nat.
Proof.
  intros Hc Hn. destruct (Nat.ltb_spec n c); [by apply Nat.mod_small|].
  replace n with (n - c + 1 * c)%nat at 1 by lia. rewrite Nat.Div0.mod_add.
  apply Nat.mod_small. lia.
Qed.

(** The slot of [i] changes only if it is the slot written. *)
Lemma ringAt_insert r j ev h i :
  ring_wf r → (j < r.(rcap))%nat →
  ringAt (mkRing (<[j := ev]> r.(rbuf)) h r.(rn) r.(rcap)) i =
  if ((h + i) mod r.(rcap) =? j)%nat then ev
  else default zeroEvent (r.(rbuf) !! ((h + i) mod r.(rcap))%nat).
Proof.
  intros [Hl _ _] Hj. unfold ringAt. simpl. destruct (Nat.eqb_spec ((h + i) mod r.(rcap)) j) as [->|Hne].
  - rewrite list_lookup_insert_eq by lia. done.
  - by rewrite list_lookup_insert_ne by done.
Qed.

Lemma snapshot_add ev r :
  ring_wf r → snapshot (ringAdd ev r) = lastn r.(rcap) (snapshot r ++ [ev]).
Proof.
  intros Hwf. pose proof Hwf as [Hl Hn Hh]. unfold ringAdd.
  destruct (Nat.eqb_spec r.(rcap) 0) as [Hc|Hc].
  { assert (Hr : r.(rn) = 0%nat) by lia. unfold snapshot, lastn. rewrite Hr, Hc. done. }
  destruct (Nat.ltb_spec r.(rn) r.(rcap)) as [Hlt|Hge].
  - rewrite lastn_all by (rewrite length_app, length_snapshot; simpl; lia).
    apply list_eq. intros i. unfold snapshot at 1. simpl rn. rewrite list_lookup_fmap.
    set (j := ((r.(rhead) + r.(rn)) mod r.(rcap))%nat).
    assert (Hj : (j < r.(rcap))%nat) by (apply Nat.mod_upper_bound; lia).
    destruct (decide (i < S r.(rn))%nat) as [Hi|Hi].
    + rewrite lookup_seq_lt by done. simpl fmap.
      assert (Hi2 : ringAt (mkRing (<[j := ev]> r.(rbuf)) r.(rhead) (S r.(rn)) r.(rcap)) i =
        ringAt (mkRing (<[j := ev]> r.(rbuf)) r.(rhead) r.(rn) r.(rcap)) i) by done.
      rewrite Hi2, ringAt_insert by done. unfold j.
      rewrite !mod_small_or by lia.
      destruct (decide (i = r.(rn))) as [->|Hne].
      * rewrite Nat.eqb_refl. symmetry. apply list_lookup_middle. by rewrite length_snapshot.
      * rewrite lookup_app_l, snapshot_lookup by (rewrite ?length_snapshot; lia). f_equal.
        unfold ringAt. rewrite mod_small_or by lia.
        match goal with |- (if ?b then _ else _) = _ => destruct b eqn:E end; [|done].
        breflect. exfalso. destruct (Nat.ltb_spec (r.(rhead) + i) r.(rcap)),
          (Nat.ltb_spec (r.(rhead) + r.(rn)) r.(rcap)); lia.
    + rewrite lookup_seq_ge by lia. simpl. symmetry. apply lookup_ge_None_2.
      rewrite length_app, length_snapshot. simpl. lia.
  - assert (Hr : r.(rn) = r.(rcap)) by lia. destruct Hh as [?|Hh]; [lia|].
    unfold lastn. rewrite length_app, length_snapshot. simpl length.
    replace (r.(rn) + 1 - r.(rcap))%nat with 1%nat by lia.
    apply list_eq. intros i. rewrite lookup_drop. unfold snapshot at 1. simpl rn.
    rewrite list_lookup_fmap. destruct (decide (i < r.(rn))%nat) as [Hi|Hi].
    + rewrite lookup_seq_lt by done. simpl fmap. rewrite ringAt_insert by done.
      assert (Hh1 : ((r.(rhead) + 1) mod r.(rcap))%nat =
        if (r.(rhead) + 1 <? r.(rcap))%nat then (r.(rhead) + 1)%nat else 0%nat).
      { rewrite mod_small_or by lia. case_match; [done|]. breflect. lia. }
      rewrite Hh1. destruct (Nat.ltb_spec (r.(rhead) + 1) r.(rcap)) as [Hc1|Hc1];
        rewrite mod_small_or by lia; clear Hh1.
      all: destruct (decide (S i = r.(rn))) as [Hn1|Hne];
        [rewrite lookup_app_r, length_snapshot by (rewrite length_snapshot; lia);
         replace (1 + i - r.(rn))%nat with 0%nat by lia; simpl; f_equal
        |rewrite lookup_app_l, snapshot_lookup by (rewrite ?length_snapshot; lia); f_equal;
         unfold ringAt; rewrite mod_small_or by lia].
      all: match goal with |- (if ?b then _ else _) = _ => destruct b eqn:E end; try done;
        breflect; try (exfalso; revert E; repeat case_match; breflect; lia).
      all: do 2 f_equal; repeat case_match; breflect; lia.
    + rewrite lookup_seq_ge by lia. simpl. symmetry. apply lookup_ge_None_2.
      rewrite length_app, length_snapshot. simpl. lia.
Qed.

Lemma ringAdd_cap ev r : (ringAdd ev r).(rcap) = r.(rcap).
Proof. unfold ringAdd. by repeat case_match. Qed.

(** A ring that was given a sequence of events holds the last of them. *)
Definition addAll (evs : list Event) (r : ring) : ring := fold_left (λ r ev, ringAdd ev r) evs r.

Lemma addAll_spec evs r :
  ring_wf r → ring_wf (addAll evs r) ∧ (addAll evs r).(rcap) = r.(rcap) ∧
  snapshot (addAll evs r) = lastn r.(rcap) (snapshot r ++ evs).
Proof.
  revert r. induction evs as [|ev evs IH]; intros r Hr.
  { rewrite app_nil_r, lastn_all by (rewrite length_snapshot; apply Hr). done. }
  destruct (IH (ringAdd ev r) (ringAdd_wf _ _ Hr)) as (Hw & Hc & Hs).
  change (addAll (ev :: evs) r) with (addAll evs (ringAdd ev r)).
  split; [done|]. rewrite ringAdd_cap in *. split; [done|]. rewrite Hs, snapshot_add by done.
  change (ev :: evs) with ([ev] ++ evs). rewrite app_assoc. generalize (snapshot r ++ [ev]). clear.
  intros l. unfold lastn. rewrite !length_app, length_drop.
  destruct (decide (length l ≤ rcap r)%nat) as [Hl|Hl].
  { replace (length l - rcap r)%nat with 0%nat by lia. rewrite drop_0. do 2 f_equal. lia. }
  rewrite !drop_app, drop_drop, length_drop. f_equal; f_equal; lia.
Qed.

(** ** Replay *)

Definition increasing (l : list Event) : Prop :=
  StronglySorted (λ a b, a.(Seq) < b.(Seq)) l.

Lemma increasing_app l1 l2 a b : increasing (l1 ++ l2) → a ∈ l1 → b ∈ l2 → a.(Seq) < b.(Seq).
Proof.
  unfold increasing. induction l1 as [|x l1 IH]; simpl; intros Hs Ha Hb; [by apply not_elem_of_nil in Ha|].
  inversion Hs as [|? ? Hs' Hf]; subst. apply elem_of_cons in Ha as [->|Ha]; [|by apply IH].
  rewrite Forall_forall in Hf. apply Hf, elem_of_app. by right.
Qed.

(** The events of a replay, and what the flag [truncated] rules out. *)
Lemma since_spec cap h after evs trunc :
  0 < cap → increasing h → Forall (λ e, is_u64 e.(Seq)) h → is_u64 after →
  since after (addAll h (newRing cap)) = (evs, trunc) →
  evs = List.filter (λ e, after <? e.(Seq)) (lastn (Z.to_nat cap) h) ∧
  (trunc = false → evs = List.filter (λ e, after <? e.(Seq)) h).
Proof.
  intros Hcap Hinc Hu Ha Hs. destruct (newRing_wf cap) as [Hwf Hemp].
  destruct (addAll_spec h _ Hwf) as (Hwf' & Hc & Hsnap). rewrite Hemp in Hsnap. simpl app in Hsnap.
  assert (Hcap' : (newRing cap).(rcap) = Z.to_nat cap).
  { unfold newRing. simpl. by destruct (Z.ltb_spec cap 0); [lia|]. }
  rewrite Hcap' in *. set (r := addAll h (newRing cap)) in *.
  pose proof (length_snapshot r) as Hlen. rewrite Hsnap in Hlen.
  unfold since in Hs. destruct (Nat.eqb_spec r.(rn) 0) as [Hz|Hz].
  - simplify_eq. assert (h = []) as ->; [|done]. destruct h as [|e h]; [done|].
    exfalso. unfold lastn in Hlen. rewrite length_drop in Hlen. simpl in Hlen. lia.
  - injection Hs as <- Ht. rewrite Hsnap. split; [done|]. intros ->.
    destruct Hwf' as [Hl Hn Hh]. destruct Hh as [?|Hh]; [lia|].
    assert (Hold : snapshot r !! 0%nat = Some (default zeroEvent (r.(rbuf) !! r.(rhead)))).
    { rewrite snapshot_lookup by lia. unfold ringAt. do 2 f_equal.
      by rewrite Nat.add_0_r, Nat.mod_small. }
    rewrite Hsnap in Hold. set (old := default zeroEvent (rbuf r !! rhead r)) in *.
    breflect. unfold lastn in *. set (k := (length h - Z.to_nat cap)%nat) in *.
    rewrite <- (take_drop k h) at 2. rewrite List.filter_app.
    enough (List.filter (λ e, after <? e.(Seq)) (take k h) = []) as -> by done.
    rewrite <- (take_drop k h) in Hinc.
    assert (Hall : ∀ e, In e (take k h) → (after <? e.(Seq)) = false).
    { intros e He%list_elem_of_In.
      assert (Hlt : e.(Seq) < old.(Seq)).
      { eapply increasing_app; [exact Hinc|done|]. by eapply list_elem_of_lookup_2. }
      assert (Hold64 : is_u64 old.(Seq)).
      { eapply (Forall_forall (λ e, is_u64 e.(Seq)) h); [done|].
        apply (subseteq_drop k), (list_elem_of_lookup_2 _ _ _ Hold). }
      unfold is_u64 in *. apply Z.ltb_ge.
      assert (Hw : u64 (after + 1) ≤ after + 1).
      { unfold u64. pose proof (Z.mod_le (after + 1) (2 ^ 64)). lia. }
      lia. }
    revert Hall. generalize (take k h). intros l Hall. induction l as [|e l IHl]; [done|].
    simpl. rewrite Hall by by left. apply IHl. intros x Hx. apply Hall. by right.
Qed.

(** ** The hash chain *)

Section ChainProofs.
Context `{SHA256Laws}.

(** The link of a stream: the hash and the sequence number of its last event. *)
Definition headHash (l : list Event) : string := from_option Hash "" (last l).
Definition headSeq (l : list Event) : Z := from_option Seq 0 (last l).

Lemma verifyFrom_app i p n l1 l2 :
  verifyFrom i p n (l1 ++ l2) = Ok tt ↔
  verifyFrom i p n l1 = Ok tt ∧
  verifyFrom (i + length l1) (from_option Hash p (last l1)) (from_option Seq n (last l1)) l2 = Ok tt.
Proof.
  revert i p n. induction l1 as [|e l1 IH]; intros i p n.
  { simpl. rewrite Nat.add_0_r. naive_solver. }
  assert (Hl : ∀ {B} (f : Event → B) d, from_option f d (last (e :: l1)) =
    from_option f (f e) (last l1)) by (intros; rewrite last_cons; by destruct (last l1)).
  rewrite !Hl. cbn [app verifyFrom length]. replace (i + S (length l1))%nat with (S i + length l1)%nat by lia.
  split.
  - intros Hv. inv_ok. apply IH in H5 as [H5 H6]. split; [|done].
    rewrite H1, H2, H3. simpl. by rewrite H4.
  - intros [Hv H6]. inv_ok. rewrite H1, H2, H3. simpl. rewrite H4. simpl. by apply IH.
Qed.

(** One event more. *)
Definition sealedAfter (p : string) (l : list Event) (e : Event) : Prop :=
  e.(PrevHash) = p ∧ chainHash e = Some e.(Hash) ∧ (l ≠ [] → headSeq l < e.(Seq)).

Lemma VerifyChain_snoc l e :
  VerifyChain l = Ok tt → sealedAfter (headHash l) l e → VerifyChain (l ++ [e]) = Ok tt.
Proof.
  intros Hl (Hp & Hh & Hs). unfold VerifyChain. apply verifyFrom_app. split; [done|].
  unfold headHash, headSeq in *. cbn [verifyFrom].
  rewrite Hp, String.eqb_refl, Hh. simpl. rewrite String.eqb_refl. simpl.
  destruct l as [|x l]; [done|].
  destruct (Z.leb_spec e.(Seq) (from_option Seq 0 (last (x :: l)))) as [Hle|_].
  - exfalso. specialize (Hs ltac:(done)). lia.
  - by rewrite andb_false_r.
Qed.

Lemma VerifyChain_snoc_inv l e :
  VerifyChain (l ++ [e]) = Ok tt → VerifyChain l = Ok tt ∧ sealedAfter (headHash l) l e.
Proof.
  unfold VerifyChain. intros [Hl He]%verifyFrom_app. split; [done|].
  cbn [verifyFrom] in He. inv_ok. breflect. unfold sealedAfter, headHash, headSeq. subst.
  split; [done|]. split; [done|]. intros Hne. apply andb_false_iff in H1 as [H1|H1]; breflect; [|lia].
  destruct l; [done|simpl in H1; lia].
Qed.

(** Every prefix of an accepted stream is accepted: a cut tail does not show. *)
Lemma VerifyChain_prefix l1 l2 : VerifyChain (l1 ++ l2) = Ok tt → VerifyChain l1 = Ok tt.
Proof. unfold VerifyChain. by intros [? _]%verifyFrom_app. Qed.

(** ** The codec of events *)

Definition event_ok (e : Event) : Prop := Forall field_ok (eventFields e).
Definition canonEvent (e : Event) : Event :=
  mkEvent e.(Topic) e.(Seq) e.(Time) e.(Publisher) e.(PubFQDN) e.(Labels) e.(Enc) e.(Origin)
    e.(ReplyTo) e.(Corr) e.(Retain) e.(RetainDel) e.(ExpiresAt) (compact e.(Payload))
    e.(PrevHash) e.(Hash).

Lemma canonEvent_hash e : canonEvent e = setHash e.(Hash) (canonEvent (setHash "" e)).
Proof. by destruct e. Qed.

Lemma marshalEvent_Some e t : marshalEvent e = Some t → t = marshalStruct (eventFields e).
Proof. unfold marshalEvent. by case_match; intros; simplify_eq. Qed.

(** What was encoded decodes to the event, its payload compacted. *)
Lemma event_roundtrip e t :
  event_ok e → marshalEvent e = Some t → unmarshalEvent t = Some (canonEvent e).
Proof.
  intros He ->%marshalEvent_Some. unfold unmarshalEvent.
  change (eventFields zeroEvent) with (zeroes (eventFields e)).
  rewrite struct_canon; [by destruct e| |done].
  apply (bool_decide_unpack _). by vm_compute.
Qed.

Lemma marshalEvent_inj e1 e2 t :
  event_ok e1 → event_ok e2 → marshalEvent e1 = Some t → marshalEvent e2 = Some t →
  canonEvent e1 = canonEvent e2.
Proof.
  intros H1 H2 M1 M2. apply event_roundtrip in M1, M2; [|done..]. congruence.
Qed.

Lemma validUTF8_hex l : validUTF8 (hexEncode l) = true.
Proof. apply validUTF8_ascii, ascii_only_hex. Qed.

Lemma event_ok_hash h e : event_ok e → validUTF8 h = true → event_ok (setHash h e).
Proof.
  unfold event_ok, eventFields. intros He Hh. simpl.
  repeat (apply Forall_cons in He as [? He]; constructor; [done|]).
  constructor.
Qed.

(** Events with one hash are the same event, or two texts collide. *)
Lemma chainHash_inj e1 e2 h :
  event_ok e1 → event_ok e2 → chainHash e1 = Some h → chainHash e2 = Some h →
  canonEvent (setHash "" e1) = canonEvent (setHash "" e2) ∨
  ∃ t1 t2, marshalEvent (setHash "" e1) = Some t1 ∧ marshalEvent (setHash "" e2) = Some t2 ∧
    collision t1 t2.
Proof.
  unfold chainHash. intros H1 H2 C1 C2.
  destruct (marshalEvent (setHash "" e1)) as [t1|] eqn:M1; [|done].
  destruct (marshalEvent (setHash "" e2)) as [t2|] eqn:M2; [|done]. simplify_eq/=.
  destruct (sha256Hex_inj t1 t2) as [->|Hc]; [congruence| |right; eauto].
  left. eapply marshalEvent_inj; [| |done|done]; by apply event_ok_hash.
Qed.

(** The texts hashed for a stream. *)
Definition hashedTexts (l : list Event) : list string :=
  omap (λ e, marshalEvent (setHash "" e)) l.

Lemma stream_determined l1 l2 :
  Forall event_ok l1 → Forall event_ok l2 →
  VerifyChain l1 = Ok tt → VerifyChain l2 = Ok tt → headHash l1 = headHash l2 →
  canonEvent <$> l1 = canonEvent <$> l2 ∨ collides (hashedTexts l1) (hashedTexts l2).
Proof.
  revert l2. induction l1 as [|e1 l1 IH] using rev_ind; intros l2 H1 H2 V1 V2 Hh.
  - destruct l2 as [|e2 l2 _] using rev_ind; [by left|exfalso].
    apply VerifyChain_snoc_inv in V2 as [_ (_ & Hc & _)].
    unfold headHash in Hh. rewrite last_snoc in Hh. simpl in Hh.
    unfold chainHash in Hc. destruct (marshalEvent _) as [t|]; [|done]. simplify_eq/=.
    eapply (sha256Hex_nonempty t). congruence.
  - destruct l2 as [|e2 l2 _] using rev_ind.
    { exfalso. apply VerifyChain_snoc_inv in V1 as [_ (_ & Hc & _)].
      unfold headHash in Hh. rewrite last_snoc in Hh. simpl in Hh.
      unfold chainHash in Hc. destruct (marshalEvent _) as [t|]; [|done]. simplify_eq/=.
      eapply (sha256Hex_nonempty t). congruence. }
    apply Forall_app in H1 as [H1 He1], H2 as [H2 He2].
    apply Forall_inv in He1, He2.
    apply VerifyChain_snoc_inv in V1 as [V1 (P1 & C1 & _)], V2 as [V2 (P2 & C2 & _)].
    unfold headHash in Hh. rewrite !last_snoc in Hh. simpl in Hh.
    rewrite Hh in C1. destruct (chainHash_inj _ _ _ He1 He2 C1 C2) as [E|(t1 & t2 & M1 & M2 & Hc)].
    + assert (PrevHash e1 = PrevHash e2) as Hp by by injection E.
      assert (canonEvent e1 = canonEvent e2) as Ec.
      { rewrite (canonEvent_hash e1), (canonEvent_hash e2). congruence. }
      destruct (IH l2 H1 H2 V1 V2) as [Eq|(a & b & Ha & Hb & Hc)]; [congruence| |].
      * left. rewrite !fmap_app. simpl. congruence.
      * right. exists a, b. unfold hashedTexts. rewrite !omap_app, !elem_of_app. auto.
    + right. exists t1, t2. unfold hashedTexts. rewrite !omap_app, !elem_of_app. simpl.
      rewrite M1, M2. split; [right; by apply list_elem_of_here|]. split; [right; by apply list_elem_of_here|done].
Qed.
End ChainProofs.
End Bus.
