(* ===== verification/EventLog.v ===== *)
(** * EventLog: the persisted event stream of the bus

    [pubsub/eventlog.go]: the append-only sink of sealed events, [LoadEvents] with its
    tolerance of one torn tail, [VerifyCheckpoints]; and the part of [cmd/meshmcp/pubsub.go]
    that resumes a broker from the file it finds. The file is its bytes; a write can fail
    after any number of bytes. *)
From stdpp Require Import base list strings gmap.
From Stdlib Require Import ZArith Lia Ascii.
From Stdlib Require Import Strings.Byte.
From S2P Require Import Prelude GoStd Json JsonText JsonCodec Crypto Checkpoint Ledger Sealed PubSub.
Open Scope Z_scope.
Open Scope mesh_scope.

Module EvLog.
Import Bus.

Section Log.
Context `{Ed25519} `{SHA256}.

Record EventLog := mkEventLog {
  elDisk : string;                     (* the sink's contents *)
  elCP : option Checkpointer;
  elLastSeq : Z;
  elLastHash : string
}.
Definition NewEventLog (w : string) : EventLog := mkEventLog w None 0 "".
Definition WithCheckpointer (cp : option Checkpointer) (e : EventLog) : EventLog :=
  mkEventLog e.(elDisk) cp e.(elLastSeq) e.(elLastHash).

(** What the environment does during an append: the error of the write with the number of
    bytes that went out before it, and the environment of the checkpointer. *)
Record EvIO := mkEvIO { evErr : option nat; evCP : CPEnv }.

(** [EventLog.append]; the flag tells whether it returned without an error. *)
Definition append (io : EvIO) (ev : Event) (e : EventLog) : bool * EventLog :=
  match marshalEvent ev with
  | None => (false, e)
  | Some t =>
      let b := t +:+ Chain.newline in
      match io.(evErr) with
      | Some n => (false, mkEventLog (e.(elDisk) +:+ String.substring 0 n b) e.(elCP)
                            e.(elLastSeq) e.(elLastHash))
      | None => (true, mkEventLog (e.(elDisk) +:+ b)
                         (Add io.(evCP) (i64 ev.(Seq)) ev.(Hash) <$> e.(elCP)) ev.(Seq) ev.(Hash))
      end
  end.

(** [EventLog.Flush]. *)
Definition FlushEvents (env : CPEnv) (e : EventLog) : EventLog :=
  mkEventLog e.(elDisk) (Flush env (i64 e.(elLastSeq)) e.(elLastHash) <$> e.(elCP))
    e.(elLastSeq) e.(elLastHash).

(** ** Loading *)

(** [bufio.ScanLines] drops a trailing carriage return. *)
Definition dropCR (line : string) : string :=
  match reverse (codes line) with
  | 13 :: r => of_codes (reverse r)
  | _ => line
  end.

Inductive loadErr := LoadRead | LoadInterior | LoadChain (e : chainErr).

Fixpoint loadLoop (ls : list string) (sawBad : bool) (events : list Event)
  : result loadErr (list Event) :=
  match ls with
  | [] => Ok events
  | raw :: ls =>
      if Chain.maxLine <=? strlen raw then Err LoadRead
      else
        let line := dropCR raw in
        if (line =? "")%string then loadLoop ls sawBad events
        else
          match unmarshalEvent line with
          | None => loadLoop ls true events
          | Some ev => if sawBad then Err LoadInterior else loadLoop ls sawBad (events ++ [ev])
          end
  end.
Definition LoadEvents (data : string) : result loadErr (list Event) :=
  let* events := loadLoop (Chain.lines data) false [] in
  match VerifyChain events with Ok _ => Ok events | Err e => Err (LoadChain e) end.

(** ** Checkpoints over the stream *)

Inductive evcpErr :=
| BadEventHash | BadCPJSON | CPInvalid (e : cpErr) | CPUnlinked | CPGap | CPSpan | CPMissing | CPRootMismatch
| CPRead.

Fixpoint eventHashes (events : list Event) (m : gmap Z (list byte)) : option (gmap Z (list byte)) :=
  match events with
  | [] => Some m
  | ev :: events => raw ← hexDecode ev.(Hash); eventHashes events (<[i64 ev.(Seq) := raw]> m)
  end.

(** The checks on one decoded checkpoint: the next [prevCP] and [prevTo]. *)
Definition checkEventCP (m : gmap Z (list byte)) (count : Z) (expectPub : string) (cp : Checkpoint)
    (prevCP : string) (prevTo : Z) : result evcpErr (string * Z) :=
  let* _ := match VerifyCheckpoint cp expectPub with Ok _ => Ok tt | Err e => Err (CPInvalid e) end in
  let* _ := guard_err (negb (cp.(PrevCP) =? prevCP)%string) CPUnlinked in
  let* _ := guard_err (negb (cp.(FromSeq) =? i64 (prevTo + 1))) CPGap in
  let* _ := guard_err ((cp.(ToSeq) <? cp.(FromSeq))
                       || (count <? i64 (i64 (cp.(ToSeq) - cp.(FromSeq)) + 1))) CPSpan in
  let* leaves := of_option CPMissing (collect m cp.(FromSeq) cp.(ToSeq)) in
  let* _ := guard_err (negb (hexEncode (MerkleRoot leaves) =? cp.(CPRoot))%string) CPRootMismatch in
  Ok (cpHash cp, cp.(ToSeq)).

(** The number of checkpoints read, and the error that ended the loop. *)
Fixpoint checkpointLoop (m : gmap Z (list byte)) (count : Z) (expectPub : string) (ls : list string)
    (prevCP : string) (prevTo n : Z) : Z * option evcpErr :=
  match ls with
  | [] => (n, None)
  | raw :: ls =>
      if Chain.maxLine <=? strlen raw then (n, Some CPRead)
      else
        let line := trimSpace raw in
        if (line =? "")%string then checkpointLoop m count expectPub ls prevCP prevTo n
        else
          match unmarshalCP line with
          | None => (n, Some BadCPJSON)
          | Some cp =>
              let n := i64 (n + 1) in
              match checkEventCP m count expectPub cp prevCP prevTo with
              | Err e => (n, Some e)
              | Ok (prevCP, prevTo) => checkpointLoop m count expectPub ls prevCP prevTo n
              end
          end
  end.
Definition VerifyCheckpoints (events : list Event) (checkpoints expectPub : string)
  : Z * option evcpErr :=
  match eventHashes events ∅ with
  | None => (0, Some BadEventHash)
  | Some m => checkpointLoop m (Z.of_nat (length events)) expectPub (Chain.lines checkpoints) "" 0 0
  end.

(** ** Resuming *)

(** [lastCheckpoint]: the last line that is not blank, if it decodes. *)
Definition lastCheckpoint (data : string) : option Checkpoint :=
  match List.find (λ l, negb (trimSpace l =? "")%string) (reverse (Chain.lines data)) with
  | Some l => unmarshalCP l
  | None => None
  end.

(** The restart in [cmdPubsub]: the seed of the broker and the log it appends to, the file
    opened for append as it is. [None]: the broker does not start. *)
Definition refeed (env : CPEnv) (to : Z) (seed : list Event) (cp : Checkpointer) : Checkpointer :=
  fold_left (λ cp ev, if to <? i64 ev.(Seq) then Add env (i64 ev.(Seq)) ev.(Hash) cp else cp) seed cp.
Definition resume (file : string) (signing : option (PrivateKey * string * Z)) (env : CPEnv)
  : option (list Event * EventLog) :=
  let opened seed :=
    match signing with
    | None => (seed, NewEventLog file)
    | Some (k, cpFile, every) =>
        let cp := NewCheckpointer k cpFile every None in
        let '(cp, to) := match lastCheckpoint cpFile with
                         | Some c => (SeedCheckpointer c.(CPSeq) (cpHash c) cp, c.(ToSeq))
                         | None => (cp, 0)
                         end in
        (seed, WithCheckpointer (Some (refeed env to seed cp)) (NewEventLog file))
    end in
  if (file =? "")%string then Some (opened [])
  else match LoadEvents file with Ok seed => Some (opened seed) | Err _ => None end.
End Log.

(** ** Compacting a payload does not change an event's text *)

Lemma compact_parseJSON r v : parseJSON r = Some v → ∃ v', parseJSON (compact r) = Some v'.
Proof.
  unfold parseJSON. rewrite <- !length_codes. intros Hp.
  destruct (parseValue (S (2 * length (codes r))) 0 (codes r)) as [[x q]|] eqn:E; [|done].
  destruct (skipWS q) eqn:Hq; [|done].
  destruct (compact_valid _ _ _ _ E Hq) as (c & w & Hc & _ & _ & Hgo).
  unfold compact. rewrite Hc, codes_of_codes by (rewrite <- Hc; apply compact_bytes, codes_bytes).
  destruct (Hgo (S (2 * length (c :: w))) [] ltac:(lia) I) as [v' Hv].
  rewrite app_nil_r in Hv. rewrite Hv. by eexists.
Qed.

Lemma compact_nonempty r v : parseJSON r = Some v → (compact r =? "")%string = false.
Proof.
  intros Hp. apply compact_parseJSON in Hp as [v' Hp]. by destruct (compact r) eqn:E.
Qed.

Lemma eventFields_canon e : eventFields (canonEvent e) = canon <$> eventFields e.
Proof. reflexivity. Qed.

Lemma marshalEvent_canon e t : marshalEvent e = Some t → marshalEvent (canonEvent e) = Some t.
Proof.
  intros Hm. apply marshalEvent_Some in Hm as Ht. subst t. unfold marshalEvent in *.
  rewrite eventFields_canon, marshal_canon.
  - cbn [canonEvent Payload]. destruct (String.eqb_spec e.(Payload) "") as [->|Hp]; [done|].
    destruct (parseJSON e.(Payload)) as [v|] eqn:Hv; [|done].
    destruct (compact_parseJSON _ _ Hv) as [v' ->]. by rewrite andb_false_r.
  - unfold eventFields. repeat (constructor; [first [exact I|idtac]|]); [|constructor].
    cbn [fVal keeps]. destruct (String.eqb_spec e.(Payload) "") as [->|Hp]; [by left|].
    destruct (parseJSON e.(Payload)) as [v|] eqn:Hv; [|done]. right.
    apply compact_nonempty in Hv. by intros E; rewrite E in Hv.
Qed.

Section LogProofs.
Context `{Ed25519} `{SHA256Laws}.

Lemma chainHash_canon e h : chainHash e = Some h → chainHash (canonEvent e) = Some h.
Proof.
  unfold chainHash. destruct (marshalEvent (setHash "" e)) as [t|] eqn:E; [|done].
  apply marshalEvent_canon in E. intros <-.
  change (setHash "" (canonEvent e)) with (canonEvent (setHash "" e)). by rewrite E.
Qed.

Lemma VerifyChain_canon l : VerifyChain l = Ok tt → VerifyChain (canonEvent <$> l) = Ok tt.
Proof.
  induction l as [|e l IH] using rev_ind; [done|].
  intros [Hl (Hp & Hh & Hs)]%VerifyChain_snoc_inv. rewrite fmap_app. apply VerifyChain_snoc; [auto|].
  assert (Hhead : headHash (canonEvent <$> l) = headHash l ∧ headSeq (canonEvent <$> l) = headSeq l).
  { unfold headHash, headSeq. rewrite fmap_last. by destruct (list.last l). }
  destruct Hhead as [Hh' Hs']. split; [by rewrite Hh'|]. split; [by apply chainHash_canon|].
  rewrite Hs'. intros Hne. apply Hs. by destruct l.
Qed.

(** ** What was appended loads again *)

(** The bytes of a stream: one line an event. *)
Definition lineOf (e : Event) : string := marshalStruct (eventFields e) +:+ Chain.newline.
Definition streamText (l : list Event) : string := foldr (λ e t, lineOf e +:+ t) "" l.
Definition short (e : Event) : Prop := strlen (marshalStruct (eventFields e)) < Chain.maxLine.

Lemma streamText_app l1 l2 : streamText (l1 ++ l2) = streamText l1 +:+ streamText l2.
Proof.
  induction l1 as [|e l1 IH]; [done|]. change (streamText ((e :: l1) ++ l2)) with
    (lineOf e +:+ streamText (l1 ++ l2)).
  change (streamText (e :: l1)) with (lineOf e +:+ streamText l1). by rewrite IH, append_assoc_s.
Qed.

Lemma append_ok io ev e t :
  marshalEvent ev = Some t → io.(evErr) = None →
  (append io ev e).1 = true ∧ (append io ev e).2.(elDisk) = e.(elDisk) +:+ lineOf ev.
Proof.
  intros Hm Hio. unfold append. rewrite Hm, Hio. apply marshalEvent_Some in Hm as ->. done.
Qed.

Lemma marshalStruct_cons fs : ∃ c r, marshalStruct fs = String c r.
Proof. unfold marshalStruct, structCodes. by eexists _, _. Qed.

Lemma dropCR_struct fs : dropCR (marshalStruct fs) = marshalStruct fs.
Proof.
  unfold dropCR. rewrite codes_marshal. unfold structCodes.
  rewrite reverse_cons, reverse_app, reverse_singleton. done.
Qed.

Lemma struct_noNL e : event_ok e → Chain.noNL (marshalStruct (eventFields e)).
Proof. intros He. apply Chain.on_line_noNL. rewrite codes_marshal. by apply structCodes_line. Qed.

Lemma lines_stream l rest :
  Forall event_ok l →
  Chain.lines (streamText l +:+ rest) = ((λ e, marshalStruct (eventFields e)) <$> l) ++ Chain.lines rest.
Proof.
  induction 1 as [|e l He Hl IH]; [done|].
  change (streamText (e :: l)) with (lineOf e +:+ streamText l). unfold lineOf.
  rewrite !append_assoc_s, Chain.lines_newline by by apply struct_noNL. cbn [fmap list_fmap app].
  by rewrite <- IH.
Qed.

Lemma loadLoop_stream l ls acc :
  Forall event_ok l → Forall (λ e, marshalEvent e ≠ None) l → Forall short l →
  loadLoop (((λ e, marshalStruct (eventFields e)) <$> l) ++ ls) false acc =
  loadLoop ls false (acc ++ (canonEvent <$> l)).
Proof.
  intros Hok Hm Hs. revert acc. induction l as [|e l IH]; intros acc; [simpl; by rewrite app_nil_r|].
  apply Forall_cons in Hok as [He Hok], Hm as [Hme Hm], Hs as [Hse Hs].
  cbn [fmap list_fmap app loadLoop]. unfold short in Hse.
  destruct (Z.leb_spec Chain.maxLine (strlen (marshalStruct (eventFields e)))); [lia|].
  rewrite dropCR_struct. destruct (marshalStruct_cons (eventFields e)) as (c & r & Hc).
  rewrite Hc at 1. cbn [String.eqb].
  destruct (marshalEvent e) as [t|] eqn:E; [|done]. pose proof (event_roundtrip e t He E) as Hr.
  apply marshalEvent_Some in E as ->. rewrite Hr.
  rewrite IH by done. by rewrite <- app_assoc.
Qed.

Lemma verified_marshal l : VerifyChain l = Ok tt → Forall (λ e, marshalEvent e ≠ None) l.
Proof.
  induction l as [|e l IH] using rev_ind; [constructor|].
  intros [Hl (_ & Hh & _)]%VerifyChain_snoc_inv. apply Forall_app. split; [auto|].
  constructor; [|constructor]. intros Hm. unfold chainHash, marshalEvent in *. simpl in Hh.
  by case_match; simplify_eq/=.
Qed.

(** The events of a stream are loaded, whatever unreadable line is torn off at the end. *)
Lemma LoadEvents_stream l torn :
  Forall event_ok l → Forall short l → VerifyChain l = Ok tt →
  Chain.noNL torn → strlen torn < Chain.maxLine → dropCR torn = "" ∨ unmarshalEvent (dropCR torn) = None →
  LoadEvents (streamText l +:+ torn) = Ok (canonEvent <$> l).
Proof.
  intros Hok Hs Hv Hn Hlen Ht. unfold LoadEvents. rewrite lines_stream by done.
  rewrite loadLoop_stream; [|done|by apply verified_marshal|done]. cbn [app].
  assert (loadLoop (Chain.lines torn) false (canonEvent <$> l) = Ok (canonEvent <$> l)) as ->.
  { destruct (decide (torn = "")) as [->|Hne]; [done|]. rewrite Chain.lines_line by done.
    cbn [loadLoop]. destruct (Z.leb_spec Chain.maxLine (strlen torn)); [lia|].
    destruct (String.eqb_spec (dropCR torn) ""); [done|]. by destruct Ht as [Ht|Ht]; [|rewrite Ht]. }
  cbn [rbind]. by rewrite VerifyChain_canon.
Qed.

(** Appending events one after the other. *)
Fixpoint appendAll (ios : list EvIO) (l : list Event) (e : EventLog) : EventLog :=
  match ios, l with
  | io :: ios, ev :: l => appendAll ios l (append io ev e).2
  | _, _ => e
  end.

Lemma appendAll_disk ios l e :
  length ios = length l → Forall (λ io, io.(evErr) = None) ios →
  Forall (λ ev, marshalEvent ev ≠ None) l →
  (appendAll ios l e).(elDisk) = e.(elDisk) +:+ streamText l.
Proof.
  revert l e. induction ios as [|io ios IH]; intros [|ev l] e Hlen Hio Hm; try done.
  { simpl. by rewrite Chain.append_nil_r. }
  apply Forall_cons in Hio as [Hi Hio], Hm as [Hme Hm]. injection Hlen as Hlen.
  destruct (marshalEvent ev) as [t|] eqn:E; [|done]. cbn [appendAll].
  rewrite IH by done. rewrite (proj2 (append_ok io ev e t E Hi)).
  change (streamText (ev :: l)) with (lineOf ev +:+ streamText l). by rewrite append_assoc_s.
Qed.

(** A sealed stream appended without write errors to an empty log loads again: the loader
    accepts the file and returns the events in order, each with its payload compacted. *)
Theorem appended_stream_reloads ios l :
  length ios = length l → Forall (λ io, io.(evErr) = None) ios →
  Forall event_ok l → Forall short l → VerifyChain l = Ok tt →
  LoadEvents (appendAll ios l (NewEventLog "")).(elDisk) = Ok (canonEvent <$> l).
Proof.
  intros Hlen Hio Hok Hs Hv. rewrite appendAll_disk; [|done|done|by apply verified_marshal].
  cbn [NewEventLog elDisk]. rewrite <- (Chain.append_nil_r (streamText l)).
  apply LoadEvents_stream; try done; [constructor|by left].
Qed.

(** A log cut after any line is accepted, although later events are gone: the chain shows
    no end, so a removed tail is not detected. *)
Theorem cut_log_is_accepted l1 l2 :
  Forall event_ok (l1 ++ l2) → Forall short (l1 ++ l2) → VerifyChain (l1 ++ l2) = Ok tt →
  LoadEvents (streamText l1) = Ok (canonEvent <$> l1).
Proof.
  intros [Hok _]%Forall_app [Hs _]%Forall_app Hv%VerifyChain_prefix.
  rewrite <- (Chain.append_nil_r (streamText l1)).
  apply LoadEvents_stream; try done; [constructor|by left].
Qed.

Lemma noNL_app a b : Chain.noNL a → Chain.noNL b → Chain.noNL (a +:+ b).
Proof.
  unfold Chain.noNL. induction a as [|c a IH]; [done|]. rewrite append_cons.
  cbn [String.list_ascii_of_string]. intros [Hc Ha]%Forall_cons Hb. constructor; auto.
Qed.

Lemma dropCR_glued torn fs : dropCR (torn +:+ marshalStruct fs) = torn +:+ marshalStruct fs.
Proof.
  unfold dropCR. rewrite codes_app, codes_marshal, reverse_app. unfold structCodes.
  rewrite reverse_cons, reverse_app, reverse_singleton. done.
Qed.

(** A crash in the middle of an append leaves a torn line, which the next start tolerates;
    but the log is opened for append behind it. The next event is glued to the torn line,
    and with one event more the broker does not start again. *)
Theorem torn_tail_blocks_restart l torn e1 e2 env io :
  Forall event_ok (l ++ [e1; e2]) → Forall short (l ++ [e1; e2]) → VerifyChain l = Ok tt →
  marshalEvent e1 ≠ None → marshalEvent e2 ≠ None → io.(evErr) = None →
  Chain.noNL torn → streamText l +:+ torn ≠ "" → strlen torn < Chain.maxLine →
  dropCR torn = "" ∨ unmarshalEvent (dropCR torn) = None →
  strlen (torn +:+ marshalStruct (eventFields e1)) < Chain.maxLine →
  unmarshalEvent (torn +:+ marshalStruct (eventFields e1)) = None →
  ∃ seed log, resume (streamText l +:+ torn) None env = Some (seed, log) ∧
    seed = canonEvent <$> l ∧
    resume (appendAll [io; io] [e1; e2] log).(elDisk) None env = None.
Proof.
  intros Hok Hs Hv Hm1 Hm2 Hio Hn Hne Hlen Ht Hlen1 Hglue.
  apply Forall_app in Hok as [Hok Hok']. apply Forall_app in Hs as [Hs Hs'].
  apply Forall_cons in Hok' as [Hok1 [Hok2 _]%Forall_cons], Hs' as [Hs1 [Hs2 _]%Forall_cons].
  exists (canonEvent <$> l), (NewEventLog (streamText l +:+ torn)).
  unfold resume at 1. destruct (String.eqb_spec (streamText l +:+ torn) ""); [done|].
  rewrite LoadEvents_stream by done. split; [done|]. split; [done|].
  rewrite appendAll_disk; [|done|by repeat constructor|by repeat constructor].
  cbn [NewEventLog elDisk]. unfold resume.
  set (file := (streamText l +:+ torn) +:+ streamText [e1; e2]).
  assert (Hfile : file = streamText l +:+ (torn +:+ marshalStruct (eventFields e1)) +:+
    Chain.newline +:+ marshalStruct (eventFields e2) +:+ Chain.newline +:+ "").
  { unfold file, streamText at 2. simpl foldr. unfold lineOf. by rewrite !append_assoc_s. }
  destruct (String.eqb_spec file "") as [E|_].
  { exfalso. apply Hne. unfold file in E. by destruct (streamText l +:+ torn). }
  rewrite Hfile. unfold LoadEvents. rewrite lines_stream by done.
  rewrite loadLoop_stream; [|done|by apply verified_marshal|done].
  rewrite Chain.lines_newline by (apply noNL_app; [done|by apply struct_noNL]).
  rewrite Chain.lines_newline by by apply struct_noNL. cbn [app loadLoop Chain.lines].
  destruct (Z.leb_spec Chain.maxLine (strlen (torn +:+ marshalStruct (eventFields e1)))); [lia|].
  rewrite dropCR_glued, Hglue. destruct (String.eqb_spec (torn +:+ marshalStruct (eventFields e1)) "")
    as [E|_].
  { exfalso. destruct (marshalStruct_cons (eventFields e1)) as (c & r & Hc). rewrite Hc in E.
    by destruct torn. }
  unfold short in Hs2.
  destruct (Z.leb_spec Chain.maxLine (strlen (marshalStruct (eventFields e2)))); [lia|].
  rewrite dropCR_struct. destruct (marshalStruct_cons (eventFields e2)) as (c & r & Hc).
  rewrite Hc at 1. cbn [String.eqb]. destruct (marshalEvent e2) as [t|] eqn:E; [|done].
  pose proof (event_roundtrip e2 t Hok2 E) as Hr. apply marshalEvent_Some in E as ->. by rewrite Hr.
Qed.
End LogProofs.
End EvLog.
