(* ===== verification/Broker.v ===== *)
(** * Broker: the publish/subscribe core

    [pubsub/broker.go] and the state of [pubsub/subscription.go]: authorization, sealing,
    retention, fan-out with consumer groups and at-least-once redelivery, backpressure,
    resource caps, replay and shutdown. A [*Subscription] is an identifier into a heap of
    subscriptions, because callers keep it after the broker has forgotten it; its channel is
    a bounded queue that is open or closed. Sending on a closed channel and writing to a nil
    map panic in Go: the operations return [None] there. *)
From stdpp Require Import base list strings gmap sorting.
From Stdlib Require Import ZArith Lia Ascii.
From S2P Require Import Prelude GoStd Json JsonText JsonCodec Crypto Policy Engine Capability Checkpoint Ledger Sealed PubSub EventLog.
Open Scope Z_scope.
Open Scope mesh_scope.

Module Brk.
Import Bus EvLog.

(** [time.RFC3339Nano]: the formatter and the parser of package time. *)
Class TimeText := {
  formatNano : Instant → string;
  parseNano : string → option Instant
}.

Definition maxEncodingLen : Z := 32.

Section Limits.
Context `{Float64}.

Record Limits := mkLimits {
  SubQueue : Z; MaxSubs : Z; MaxTopicsPerSub : Z; MaxTopicLen : Z; MaxPayloadBytes : Z;
  MaxLabels : Z; MaxSubsPerPeer : Z; MaxRetainedTopics : Z; MaxGroupPending : Z; LRetain : Z;
  PublishRate : F; PublishBurst : Z
}.
Definition DefaultLimits : Limits :=
  mkLimits 256 1024 64 256 (2 ^ 20) 32 128 4096 1024 1024 (f_of_Z 200) 400.

Definition positiveOr (n d : Z) : Z := if n <=? 0 then d else n.
Definition feqb (a b : F) : bool := fleb a b && fleb b a.
Definition withDefaults (l : Limits) : Limits :=
  let d := DefaultLimits in
  let retain := if l.(LRetain) <? 0 then 0
                else if l.(LRetain) =? 0 then d.(LRetain) else l.(LRetain) in
  let rate := if feqb l.(PublishRate) (f_of_Z 0) then d.(PublishRate)
              else if fltb l.(PublishRate) (f_of_Z 0) then f_of_Z 0 else l.(PublishRate) in
  let burst := if (l.(PublishBurst) <=? 0) && fltb (f_of_Z 0) rate
               then i64 (2 * f_trunc rate) else l.(PublishBurst) in
  mkLimits (positiveOr l.(SubQueue) d.(SubQueue)) (positiveOr l.(MaxSubs) d.(MaxSubs))
    (positiveOr l.(MaxTopicsPerSub) d.(MaxTopicsPerSub))
    (positiveOr l.(MaxTopicLen) d.(MaxTopicLen))
    (positiveOr l.(MaxPayloadBytes) d.(MaxPayloadBytes))
    (positiveOr l.(MaxLabels) d.(MaxLabels))
    (positiveOr l.(MaxSubsPerPeer) d.(MaxSubsPerPeer))
    (positiveOr l.(MaxRetainedTopics) d.(MaxRetainedTopics))
    (positiveOr l.(MaxGroupPending) d.(MaxGroupPending)) retain rate burst.
End Limits.

(** ** Subscriptions *)

Record Subscription := mkSubscription {
  ident : Identity;
  topics : list string;
  clearAll : bool;
  clear : gset string;
  group : string;
  ackMode : bool;
  inflight : option (gmap Z Event);     (* [None]: the nil map *)
  bp : Backpressure;
  ch : list Event;                      (* the buffered events, oldest first *)
  chOpen : bool;
  sDropped : Z;
  truncated : bool
}.
Definition set_ch (l : list Event) (s : Subscription) : Subscription :=
  mkSubscription s.(ident) s.(topics) s.(clearAll) s.(clear) s.(group) s.(ackMode) s.(inflight)
    s.(bp) l s.(chOpen) s.(sDropped) s.(truncated).
Definition set_inflight (m : option (gmap Z Event)) (s : Subscription) : Subscription :=
  mkSubscription s.(ident) s.(topics) s.(clearAll) s.(clear) s.(group) s.(ackMode) m
    s.(bp) s.(ch) s.(chOpen) s.(sDropped) s.(truncated).
Definition countDrop (s : Subscription) : Subscription :=
  mkSubscription s.(ident) s.(topics) s.(clearAll) s.(clear) s.(group) s.(ackMode) s.(inflight)
    s.(bp) s.(ch) s.(chOpen) (u64 (s.(sDropped) + 1)) s.(truncated).
Definition set_truncated (t : bool) (s : Subscription) : Subscription :=
  mkSubscription s.(ident) s.(topics) s.(clearAll) s.(clear) s.(group) s.(ackMode) s.(inflight)
    s.(bp) s.(ch) s.(chOpen) s.(sDropped) t.
(** [closeOnce]: both channels of a subscription are closed together. *)
Definition closeCh (s : Subscription) : Subscription :=
  mkSubscription s.(ident) s.(topics) s.(clearAll) s.(clear) s.(group) s.(ackMode) s.(inflight)
    s.(bp) s.(ch) false s.(sDropped) s.(truncated).

(** [Subscription.accepts]. *)
Definition accepts (s : Subscription) (ev : Event) : bool :=
  matchGlob s.(topics) ev.(Topic)
  && (s.(clearAll) || forallb (λ l, bool_decide (l ∈ s.(clear))) ev.(Labels)).

(** The non-blocking send on a channel of capacity [cap]: [None] is the panic on a closed
    channel, [false] a full buffer. *)
Definition trySend (cap : Z) (ev : Event) (s : Subscription) : option (bool * Subscription) :=
  if negb s.(chOpen) then None
  else if Z.of_nat (length s.(ch)) <? cap then Some (true, set_ch (s.(ch) ++ [ev]) s)
  else Some (false, s).

Definition seqLe (a b : Event) : Prop := a.(Seq) ≤ b.(Seq).
#[export] Instance seqLe_dec : RelDecision seqLe.
Proof. intros a b. unfold seqLe. apply Z_le_dec. Defined.

Section Broker.
Context `{Float64} `{Ed25519} `{SHA256} `{Cap.CapCodec} {N : Type} `{NonceStore N} `{TimeText}.

Record Broker := mkBroker {
  auth : Authorizer;
  bName : string;
  lm : Limits;
  audited : option (list Chain.AuditRecord);   (* given to [AuditLog.Append]; [None]: no log *)
  events : option EventLog;
  caps : option (Cap.CapabilityVerifier N);
  lim : limiter;
  bseq : Z;
  prev : string;
  heap : gmap Z Subscription;                  (* every subscription ever returned *)
  subs : gset Z;
  perPeer : gmap string Z;
  retained : gmap string Event;
  retainExp : gmap string Instant;
  groupRR : gmap string Z;
  groupN : gmap string Z;
  groupPend : gmap string (list Event);
  nextSubID : Z;
  bring : ring;
  dropped : Z;
  closed : bool
}.

Definition set_audited x (b : Broker) : Broker :=
  mkBroker b.(auth) b.(bName) b.(lm) x b.(events) b.(caps) b.(lim) b.(bseq) b.(prev) b.(heap)
    b.(subs) b.(perPeer) b.(retained) b.(retainExp) b.(groupRR) b.(groupN) b.(groupPend)
    b.(nextSubID) b.(bring) b.(dropped) b.(closed).
Definition set_caps x (b : Broker) : Broker :=
  mkBroker b.(auth) b.(bName) b.(lm) b.(audited) b.(events) x b.(lim) b.(bseq) b.(prev) b.(heap)
    b.(subs) b.(perPeer) b.(retained) b.(retainExp) b.(groupRR) b.(groupN) b.(groupPend)
    b.(nextSubID) b.(bring) b.(dropped) b.(closed).
Definition set_lim x (b : Broker) : Broker :=
  mkBroker b.(auth) b.(bName) b.(lm) b.(audited) b.(events) b.(caps) x b.(bseq) b.(prev) b.(heap)
    b.(subs) b.(perPeer) b.(retained) b.(retainExp) b.(groupRR) b.(groupN) b.(groupPend)
    b.(nextSubID) b.(bring) b.(dropped) b.(closed).
Definition set_bseq x (b : Broker) : Broker :=
  mkBroker b.(auth) b.(bName) b.(lm) b.(audited) b.(events) b.(caps) b.(lim) x b.(prev) b.(heap)
    b.(subs) b.(perPeer) b.(retained) b.(retainExp) b.(groupRR) b.(groupN) b.(groupPend)
    b.(nextSubID) b.(bring) b.(dropped) b.(closed).
(** A sealed event enters the chain and the ring. *)
Definition set_sealed (h : string) (r : ring) (b : Broker) : Broker :=
  mkBroker b.(auth) b.(bName) b.(lm) b.(audited) b.(events) b.(caps) b.(lim) b.(bseq) h b.(heap)
    b.(subs) b.(perPeer) b.(retained) b.(retainExp) b.(groupRR) b.(groupN) b.(groupPend)
    b.(nextSubID) r b.(dropped) b.(closed).
Definition set_events x (b : Broker) : Broker :=
  mkBroker b.(auth) b.(bName) b.(lm) b.(audited) x b.(caps) b.(lim) b.(bseq) b.(prev) b.(heap)
    b.(subs) b.(perPeer) b.(retained) b.(retainExp) b.(groupRR) b.(groupN) b.(groupPend)
    b.(nextSubID) b.(bring) b.(dropped) b.(closed).
Definition set_heap x (b : Broker) : Broker :=
  mkBroker b.(auth) b.(bName) b.(lm) b.(audited) b.(events) b.(caps) b.(lim) b.(bseq) b.(prev) x
    b.(subs) b.(perPeer) b.(retained) b.(retainExp) b.(groupRR) b.(groupN) b.(groupPend)
    b.(nextSubID) b.(bring) b.(dropped) b.(closed).
Definition set_members (s : gset Z) (pp gn : gmap string Z) (b : Broker) : Broker :=
  mkBroker b.(auth) b.(bName) b.(lm) b.(audited) b.(events) b.(caps) b.(lim) b.(bseq) b.(prev)
    b.(heap) s pp b.(retained) b.(retainExp) b.(groupRR) gn b.(groupPend) b.(nextSubID)
    b.(bring) b.(dropped) b.(closed).
Definition set_retained (r : gmap string Event) (x : gmap string Instant) (b : Broker) : Broker :=
  mkBroker b.(auth) b.(bName) b.(lm) b.(audited) b.(events) b.(caps) b.(lim) b.(bseq) b.(prev)
    b.(heap) b.(subs) b.(perPeer) r x b.(groupRR) b.(groupN) b.(groupPend) b.(nextSubID)
    b.(bring) b.(dropped) b.(closed).
Definition set_groupRR x (b : Broker) : Broker :=
  mkBroker b.(auth) b.(bName) b.(lm) b.(audited) b.(events) b.(caps) b.(lim) b.(bseq) b.(prev)
    b.(heap) b.(subs) b.(perPeer) b.(retained) b.(retainExp) x b.(groupN) b.(groupPend)
    b.(nextSubID) b.(bring) b.(dropped) b.(closed).
Definition set_groupPend x (b : Broker) : Broker :=
  mkBroker b.(auth) b.(bName) b.(lm) b.(audited) b.(events) b.(caps) b.(lim) b.(bseq) b.(prev)
    b.(heap) b.(subs) b.(perPeer) b.(retained) b.(retainExp) b.(groupRR) b.(groupN) x
    b.(nextSubID) b.(bring) b.(dropped) b.(closed).
Definition set_nextSubID x (b : Broker) : Broker :=
  mkBroker b.(auth) b.(bName) b.(lm) b.(audited) b.(events) b.(caps) b.(lim) b.(bseq) b.(prev)
    b.(heap) b.(subs) b.(perPeer) b.(retained) b.(retainExp) b.(groupRR) b.(groupN)
    b.(groupPend) x b.(bring) b.(dropped) b.(closed).
Definition add_dropped (n : Z) (b : Broker) : Broker :=
  mkBroker b.(auth) b.(bName) b.(lm) b.(audited) b.(events) b.(caps) b.(lim) b.(bseq) b.(prev)
    b.(heap) b.(subs) b.(perPeer) b.(retained) b.(retainExp) b.(groupRR) b.(groupN)
    b.(groupPend) b.(nextSubID) b.(bring) (u64 (b.(dropped) + n)) b.(closed).

Definition set_sub (id : Z) (s : Subscription) (b : Broker) : Broker :=
  set_heap (<[id := s]> b.(heap)) b.

(** What the environment contributes to one call: the readings of the clock, numbered in the
    order of the code, the order in which the runtime ranges over the maps, and what the
    event log's sink does. *)
Record Env := mkEnv {
  clock : nat → Instant;
  iterSubs : list Z → list Z;
  iterGroups : list string → list string;
  evIO : EvIO
}.

(** ** Delivery *)

(** [tryDeliverLocked]. *)
Definition tryDeliverLocked (id : Z) (ev : Event) (b : Broker) : option (bool * Broker) :=
  s ← b.(heap) !! id;
  '(ok, s) ← trySend b.(lm).(SubQueue) ev s;
  Some (ok, set_sub id s b).

Definition sortIDs (l : list Z) : list Z := merge_sort Z.le l.
Definition sortEvents (l : list Event) : list Event := merge_sort seqLe l.

(** The loop of [tryPlaceOnGroupLocked] over the members from the cursor on. *)
Fixpoint placeLoop (ids : list Z) (ev : Event) (b : Broker) : option (bool * Broker) :=
  match ids with
  | [] => Some (false, b)
  | id :: ids =>
      s ← b.(heap) !! id;
      if s.(ackMode)
         && (b.(lm).(SubQueue) <=? Z.of_nat (size (default ∅ s.(inflight))))
      then placeLoop ids ev b
      else
        '(ok, b) ← tryDeliverLocked id ev b;
        if ok : bool then
          if s.(ackMode) then
            s ← b.(heap) !! id;
            m ← s.(inflight);
            Some (true, set_sub id (set_inflight (Some (<[ev.(Seq) := ev]> m)) s) b)
          else Some (true, b)
        else placeLoop ids ev b
  end.

Definition rotate (n : nat) (l : list Z) : list Z := drop n l ++ take n l.

Definition tryPlaceOnGroupLocked (name : string) (members : list Z) (ev : Event) (b : Broker)
  : option (bool * Broker) :=
  match members with
  | [] => Some (false, b)
  | _ =>
      let members := sortIDs members in
      let cursor := default 0 (b.(groupRR) !! name) in
      let start := cursor mod Z.of_nat (length members) in
      placeLoop (rotate (Z.to_nat start) members) ev
        (set_groupRR (<[name := u64 (cursor + 1)]> b.(groupRR)) b)
  end.

(** The members of group [name] that accept [ev]. *)
Definition inGroup (b : Broker) (name : string) (ev : Event) (id : Z) : bool :=
  match b.(heap) !! id with
  | Some s => (s.(group) =? name)%string && accepts s ev
  | None => false
  end.

(** The loop of [drainGroupPendingLocked]: what is left of the backlog. *)
Fixpoint drainLoop (name : string) (q : list Event) (b : Broker) : option (list Event * Broker) :=
  match q with
  | [] => Some ([], b)
  | ev :: q' =>
      let members := List.filter (inGroup b name ev) (elements b.(subs)) in
      '(ok, b) ← tryPlaceOnGroupLocked name members ev b;
      if ok : bool then drainLoop name q' b else Some (q, b)
  end.
Definition drainGroupPendingLocked (name : string) (b : Broker) : option Broker :=
  if (name =? "")%string then Some b
  else
    '(q, b) ← drainLoop name (default [] (b.(groupPend) !! name)) b;
    Some (set_groupPend (match q with
                         | [] => delete name b.(groupPend)
                         | _ => <[name := q]> b.(groupPend)
                         end) b).

Definition inflightOf (s : Subscription) : list Event :=
  snd <$> map_to_list (default ∅ s.(inflight)).

(** The group part of [closeSubLocked]: un-acked work goes back to the front of the group's
    backlog while other members remain; with the last member the group's state goes. *)
Definition leaveGroup (id : Z) (s : Subscription) (b : Broker) : option Broker :=
  if (s.(group) =? "")%string then Some b
  else
    let remaining := default 0 (b.(groupN) !! s.(group)) - 1 in
    let flying := inflightOf s in
    let b := if s.(ackMode) && (0 <? Z.of_nat (length flying)) then
               if 0 <? remaining then
                 set_groupPend (<[s.(group) := sortEvents flying ++
                   default [] (b.(groupPend) !! s.(group))]> b.(groupPend)) b
               else add_dropped (Z.of_nat (length flying)) b
             else b in
    let b := set_sub id (set_inflight None s) b in
    if remaining <=? 0 then
      let b := add_dropped (Z.of_nat (length (default [] (b.(groupPend) !! s.(group))))) b in
      let b := set_members b.(subs) b.(perPeer) (delete s.(group) b.(groupN)) b in
      Some (set_groupPend (delete s.(group) b.(groupPend))
              (set_groupRR (delete s.(group) b.(groupRR)) b))
    else
      drainGroupPendingLocked s.(group)
        (set_members b.(subs) b.(perPeer) (<[s.(group) := remaining]> b.(groupN)) b).

(** [closeSubLocked]. *)
Definition closeSubLocked (id : Z) (b : Broker) : option Broker :=
  s ← b.(heap) !! id;
  if negb (bool_decide (id ∈ b.(subs))) then Some (set_sub id (closeCh s) b)
  else
    let n := default 0 (b.(perPeer) !! s.(ident).(Key)) - 1 in
    let pp := if n <=? 0 then delete s.(ident).(Key) b.(perPeer)
              else <[s.(ident).(Key) := n]> b.(perPeer) in
    b ← leaveGroup id s (set_members (b.(subs) ∖ {[id]}) pp b.(groupN) b);
    s ← b.(heap) !! id;
    Some (set_sub id (closeCh s) b).

(** [deliverLocked]: the selects in order, no reader in between. *)
Definition deliverLocked (id : Z) (ev : Event) (b : Broker) : option Broker :=
  '(ok, b) ← tryDeliverLocked id ev b;
  if ok : bool then Some b
  else
    s ← b.(heap) !! id;
    if bool_decide (s.(bp) = Disconnect) then closeSubLocked id b
    else
      '(ok, b) ← tryDeliverLocked id ev b;
      if ok : bool then Some b
      else
        s ← b.(heap) !! id;
        '(_, b) ← tryDeliverLocked id ev (set_sub id (set_ch (drop 1 s.(ch)) s) b);
        s ← b.(heap) !! id;
        Some (add_dropped 1 (set_sub id (countDrop s) b)).

Definition groupIsAck (b : Broker) (members : list Z) : bool :=
  existsb (λ id, match b.(heap) !! id with Some s => s.(ackMode) | None => false end) members.

Definition enqueueGroupPendingLocked (name : string) (ev : Event) (b : Broker) : Broker :=
  let q := default [] (b.(groupPend) !! name) in
  if b.(lm).(MaxGroupPending) <=? Z.of_nat (length q)
  then set_groupPend (<[name := drop 1 q ++ [ev]]> b.(groupPend)) (add_dropped 1 b)
  else set_groupPend (<[name := q ++ [ev]]> b.(groupPend)) b.

Definition deliverToGroupLocked (name : string) (members : list Z) (ev : Event) (b : Broker)
  : option Broker :=
  '(ok, b) ← tryPlaceOnGroupLocked name members ev b;
  if ok : bool then Some b
  else if groupIsAck b members then Some (enqueueGroupPendingLocked name ev b)
  else
    id ← head (sortIDs members);
    deliverLocked id ev b.

(** The first loop of [fanoutLocked]: ungrouped subscriptions get their copy, grouped ones
    are collected. *)
Fixpoint fanoutLoop (ids : list Z) (ev : Event) (groups : gmap string (list Z)) (b : Broker)
  : option (gmap string (list Z) * Broker) :=
  match ids with
  | [] => Some (groups, b)
  | id :: ids =>
      s ← b.(heap) !! id;
      if negb (accepts s ev) then fanoutLoop ids ev groups b
      else if (s.(group) =? "")%string then
        b ← deliverLocked id ev b; fanoutLoop ids ev groups b
      else fanoutLoop ids ev
             (<[s.(group) := default [] (groups !! s.(group)) ++ [id]]> groups) b
  end.
Fixpoint groupsLoop (names : list string) (groups : gmap string (list Z)) (ev : Event) (b : Broker)
  : option Broker :=
  match names with
  | [] => Some b
  | name :: names =>
      b ← deliverToGroupLocked name (default [] (groups !! name)) ev b;
      groupsLoop names groups ev b
  end.
Definition fanoutLocked (env : Env) (ev : Event) (b : Broker) : option Broker :=
  '(groups, b) ← fanoutLoop (env.(iterSubs) (elements b.(subs))) ev ∅ b;
  groupsLoop (env.(iterGroups) (elements (dom groups))) groups ev b.

(** ** Retained values *)

(** [sweepExpiredRetainedLocked]. *)
Definition expiredTopics (now : Instant) (b : Broker) : gset string :=
  dom (filter (λ kv, kv.2 < now) b.(retainExp)).
Definition dropTopics (ts : gset string) (b : Broker) : Broker :=
  set_retained (filter (λ kv, kv.1 ∉ ts) b.(retained)) (filter (λ kv, kv.1 ∉ ts) b.(retainExp)) b.
Definition sweepExpiredRetainedLocked (now : Instant) (b : Broker) : Broker :=
  dropTopics (expiredTopics now b) b.

(** [applyRetainedLocked]. *)
Definition applyRetainedLocked (now : Instant) (ev : Event) (b : Broker) : Broker :=
  if ev.(RetainDel) then
    set_retained (delete ev.(Topic) b.(retained)) (delete ev.(Topic) b.(retainExp)) b
  else if ev.(Retain) then
    let full b := b.(lm).(MaxRetainedTopics) <=? Z.of_nat (size b.(retained)) in
    let b := if isNone (b.(retained) !! ev.(Topic)) && full b
             then sweepExpiredRetainedLocked now b else b in
    if negb (isNone (b.(retained) !! ev.(Topic))) || negb (full b) then
      set_retained (<[ev.(Topic) := ev]> b.(retained))
        (if (ev.(ExpiresAt) =? "")%string then delete ev.(Topic) b.(retainExp)
         else match parseNano ev.(ExpiresAt) with
              | Some t => <[ev.(Topic) := t]> b.(retainExp)
              | None => delete ev.(Topic) b.(retainExp)
              end) b
    else b
  else b.

(** ** Publishing *)

(** [record]. *)
Definition record (id : Identity) (method topic decision why : string) (prov : list string)
    (b : Broker) : Broker :=
  set_audited ((λ l, l ++ [Chain.mkRec "" "pubsub" id.(FQDN) id.(Key) id.(Addr) method topic ""
    decision why (-1) 0 prov 0 "" "" "" 0 "" "" ""]) <$> b.(audited)) b.

(** [capAllows]: the verifier may consume a single-use grant. *)
Definition capAllows (now : Instant) (id : Identity) (topic token : string) (b : Broker)
  : bool * Broker :=
  match b.(caps) with
  | None => (false, b)
  | Some v =>
      if (token =? "")%string then (false, b)
      else let '(r, v) := Cap.Verify v token id.(Key) b.(bName) topic now in
           (match r with Ok _ => true | Err _ => false end, set_caps (Some v) b)
  end.

Record PublishOptions := mkPubOpts {
  oLabels : list string; oCapability : string; oRetain : bool; oRetainTTL : Z;
  oRetainDelete : bool; oEncoding : string; oReplyTo : string; oCorr : string
}.

(** What follows the lock in [PublishOpts] and [emitTrusted], for the event [mk] builds from
    the sequence number and the previous hash: seal, keep, persist, fan out. *)
Definition emitLocked (env : Env) (mk : Z → string → Event) (b : Broker)
  : option (result busErr Event * Broker) :=
  if b.(closed) then Some (Err ErrClosed, b)
  else
    let b := set_bseq (u64 (b.(bseq) + 1)) b in
    let ev := mk b.(bseq) b.(prev) in
    match chainHash ev with
    | None => Some (Err ErrHash, b)
    | Some h =>
        let ev := setHash h ev in
        let b := set_sealed h (ringAdd ev b.(bring)) b in
        let b := applyRetainedLocked (env.(clock) 4) ev b in
        let b := set_events ((λ l, (append env.(evIO) ev l).2) <$> b.(events)) b in
        b ← fanoutLocked env ev b;
        Some (Ok ev, b)
    end.

(** The checks of [PublishOpts] before the lock, with the decision they end in. *)
Definition denyPublish (id : Identity) (topic why : string) (e : busErr) (b : Broker)
  : result busErr (list string * string) * Broker :=
  (Err e, record id "pubsub/publish" topic "deny" why [] b).
Definition admitPublish (env : Env) (id : Identity) (topic payload : string) (o : PublishOptions)
    (b : Broker) : result busErr (list string * string) * Broker :=
  if (id.(Key) =? "")%string then (Err ErrDenied, b)
  else
    let '(ok, l) := limiterAllow id.(Key) (env.(clock) 0) (env.(clock) 1) b.(lim) in
    let b := set_lim l b in
    if negb ok then (Err ErrRateLimited, b)
    else
      match validateTopic topic b.(lm).(MaxTopicLen) with
      | Err e => (Err e, b)
      | Ok _ =>
          if b.(lm).(MaxPayloadBytes) <? strlen payload
          then denyPublish id topic "payload too large" ErrPayloadTooLarge b
          else if maxEncodingLen <? strlen o.(oEncoding)
          then denyPublish id topic "encoding hint too long" ErrBadTopic b
          else if negb (o.(oReplyTo) =? "")%string
                  && match validateTopic o.(oReplyTo) b.(lm).(MaxTopicLen) with
                     | Err _ => true | Ok _ => false end
          then denyPublish id topic "invalid reply_to" ErrBadTopic b
          else if b.(lm).(MaxTopicLen) <? strlen o.(oCorr)
          then denyPublish id topic "correlation id too long" ErrBadTopic b
          else
            let dec := b.(auth).(authPublish) id topic in
            let '(verdict, b) :=
              if dec.(pAllow) then (Some (dec.(pLabels), dec.(pReason)), b)
              else if dec.(pExplicit) then (None, b)
              else let '(granted, b) := capAllows (env.(clock) 5) id topic o.(oCapability) b in
                   (if granted then Some ([], "capability grant") else None, b) in
            match verdict with
            | None => denyPublish id topic dec.(pReason) ErrDenied b
            | Some (emit, why) =>
                let labels := unionLabels emit o.(oLabels) in
                if b.(lm).(MaxLabels) <? Z.of_nat (length labels)
                then denyPublish id topic "too many labels" ErrBadTopic b
                else if existsb (λ l, b.(lm).(MaxTopicLen) <? strlen l) labels
                then denyPublish id topic "label too long" ErrBadTopic b
                else (Ok (labels, why), b)
            end
      end.

Definition PublishOpts (env : Env) (id : Identity) (topic payload : string) (o : PublishOptions)
    (b : Broker) : option (result busErr Event * Broker) :=
  match admitPublish env id topic payload o b with
  | (Err e, b) => Some (Err e, b)
  | (Ok (labels, why), b) =>
      let expiresAt := if o.(oRetain) && (0 <? o.(oRetainTTL))
                       then formatNano (env.(clock) 2 + o.(oRetainTTL)) else "" in
      '(r, b) ← emitLocked env (λ n p, mkEvent topic n (formatNano (env.(clock) 3)) id.(Key)
          id.(FQDN) labels o.(oEncoding) "" o.(oReplyTo) o.(oCorr)
          (o.(oRetain) && negb o.(oRetainDelete)) o.(oRetainDelete) expiresAt payload p "") b;
      match r with
      | Err e => Some (Err e, b)
      | Ok ev => Some (Ok ev, record id "pubsub/publish" topic "allow" why ev.(Labels) b)
      end
  end.
Definition Publish (env : Env) (id : Identity) (topic payload : string) (extraLabels : list string)
    (b : Broker) : option (result busErr Event * Broker) :=
  PublishOpts env id topic payload (mkPubOpts extraLabels "" false 0 false "" "" "") b.
Definition PublishCap (env : Env) (id : Identity) (topic payload : string)
    (extraLabels : list string) (capToken : string) (b : Broker)
  : option (result busErr Event * Broker) :=
  PublishOpts env id topic payload (mkPubOpts extraLabels capToken false 0 false "" "" "") b.

Record retainSpec := mkRetain { rsSet : bool; rsDel : bool; rsExp : string }.

(** [emitTrusted]. *)
Definition emitTrusted (env : Env) (topic payload : string) (labels : list string)
    (publisher origin : string) (r : retainSpec) (b : Broker)
  : option (result busErr Event * Broker) :=
  match validateTopic topic b.(lm).(MaxTopicLen) with
  | Err e => Some (Err e, b)
  | Ok _ =>
      let labels := unionLabels labels [] in
      if b.(lm).(MaxPayloadBytes) <? strlen payload then Some (Err ErrPayloadTooLarge, b)
      else if b.(lm).(MaxLabels) <? Z.of_nat (length labels) then Some (Err ErrBadTopic, b)
      else
        emitLocked env (λ n p, mkEvent topic n (formatNano (env.(clock) 3)) publisher "" labels
          "" origin "" "" (r.(rsSet) && negb r.(rsDel)) r.(rsDel) r.(rsExp) payload p "") b
  end.
Definition EmitInternal (env : Env) (source topic payload : string) (labels : list string)
    (b : Broker) : option (result busErr Event * Broker) :=
  emitTrusted env topic payload labels source "" (mkRetain false false "") b.
Definition EmitFederated (env : Env) (topic payload : string) (labels : list string)
    (publisher origin : string) (retain retainDel : bool) (expiresAt : string) (b : Broker)
  : option (result busErr Event * Broker) :=
  let '(ok, l) := limiterAllow ("federation:" +:+ origin) (env.(clock) 0) (env.(clock) 1) b.(lim) in
  let b := set_lim l b in
  if negb ok then Some (Err ErrRateLimited, b)
  else
    let dec := b.(auth).(authPublish) (mkIdent "federation" origin "") topic in
    if dec.(pExplicit) && negb dec.(pAllow) then Some (Err ErrDenied, b)
    else emitTrusted env topic payload (unionLabels labels dec.(pLabels)) publisher origin
           (mkRetain retain retainDel expiresAt) b.

(** ** Subscribing *)

Record SubOptions := mkSubOpts {
  oTopics : list string; oBackpressure : Backpressure; oSince : Z; oSubCap : string;
  oGroup : string; oAck : bool
}.

(** The loop over the topics: the clearance is the intersection over the topics that do not
    clear every label ([None]: there is none so far). *)
Fixpoint authorizeTopics (now : Instant) (id : Identity) (token : string) (ts : list string)
    (clr : option (gset string)) (b : Broker) : result busErr (option (gset string)) * Broker :=
  match ts with
  | [] => (Ok clr, b)
  | t :: ts =>
      match validateTopic t b.(lm).(MaxTopicLen) with
      | Err e => (Err e, b)
      | Ok _ =>
          let dec := b.(auth).(authSubscribe) id t in
          let '(verdict, b) :=
            if dec.(sAllow) then (Some (if dec.(sClearAll) then None else Some (toSet dec.(sClear))), b)
            else if dec.(sExplicit) then (None, b)
            else let '(granted, b) := capAllows now id t token b in
                 (if granted : bool then Some (Some ∅) else None, b) in
          match verdict with
          | None => (Err ErrDenied, record id "pubsub/subscribe" t "deny" dec.(sReason) [] b)
          | Some None => authorizeTopics now id token ts clr b
          | Some (Some set) =>
              authorizeTopics now id token ts
                (Some (match clr with None => set | Some c => intersect c set end)) b
          end
      end
  end.

(** The checks of [Subscribe] before the lock: the clearance, [None] for every label. *)
Definition admitSubscribe (env : Env) (id : Identity) (o : SubOptions) (b : Broker)
  : result busErr (option (gset string)) * Broker :=
  if (id.(Key) =? "")%string then (Err ErrDenied, b)
  else
    let '(ok, l) := limiterAllow id.(Key) (env.(clock) 0) (env.(clock) 1) b.(lim) in
    let b := set_lim l b in
    if negb ok then (Err ErrRateLimited, b)
    else if isNone (head o.(oTopics)) then (Err ErrBadTopic, b)
    else if b.(lm).(MaxTopicsPerSub) <? Z.of_nat (length o.(oTopics)) then (Err ErrTooMany, b)
    else if negb (o.(oGroup) =? "")%string
            && match validateTopic o.(oGroup) b.(lm).(MaxTopicLen) with
               | Err _ => true | Ok _ => false end then (Err ErrBadTopic, b)
    else if negb (o.(oGroup) =? "")%string && (0 <? o.(oSince)) then (Err ErrBadTopic, b)
    else if o.(oAck) && (o.(oGroup) =? "")%string then (Err ErrBadTopic, b)
    else authorizeTopics (env.(clock) 5) id o.(oSubCap) o.(oTopics) None b.

(** Deliver in order until the subscription is disconnected. *)
Fixpoint deliverEach (id : Z) (evs : list Event) (b : Broker) : option Broker :=
  match evs with
  | [] => Some b
  | ev :: evs =>
      b ← deliverLocked id ev b;
      if bool_decide (id ∈ b.(subs)) then deliverEach id evs b else Some b
  end.

(** The replay from the ring: events the subscription does not accept are skipped. *)
Definition replayTo (id : Z) (s : Subscription) (after : Z) (b : Broker) : option Broker :=
  let '(evs, trunc) := since after b.(bring) in
  deliverEach id (List.filter (accepts s) evs) (set_sub id (set_truncated trunc s) b).

(** The retained values that are current, after the lapsed ones were dropped. *)
Definition retainedTo (now : Instant) (id : Z) (s : Subscription) (b : Broker) : option Broker :=
  let b := dropTopics (expiredTopics now b ∩ dom b.(retained)) b in
  deliverEach id (sortEvents (List.filter (accepts s) (snd <$> map_to_list b.(retained)))) b.

Definition joinString (l : list string) : string :=
  match l with [] => "" | x :: l => fold_left (λ acc s, acc +:+ "," +:+ s) l x end.

(** [Subscribe]: the identifier of the new subscription. *)
Definition Subscribe (env : Env) (id : Identity) (o : SubOptions) (b : Broker)
  : option (result busErr Z * Broker) :=
  match admitSubscribe env id o b with
  | (Err e, b) => Some (Err e, b)
  | (Ok clr, b) =>
      if b.(closed) then Some (Err ErrClosed, b)
      else if b.(lm).(MaxSubs) <=? Z.of_nat (size b.(subs)) then Some (Err ErrTooMany, b)
      else if b.(lm).(MaxSubsPerPeer) <=? default 0 (b.(perPeer) !! id.(Key))
      then Some (Err ErrTooMany, b)
      else
        let sid := u64 (b.(nextSubID) + 1) in
        let s := mkSubscription id o.(oTopics) (isNone clr) (default ∅ clr) o.(oGroup) o.(oAck)
          (if o.(oAck) then Some ∅ else None) o.(oBackpressure) [] true 0 false in
        let b := set_nextSubID sid b in
        let b := set_members ({[sid]} ∪ b.(subs))
          (<[id.(Key) := default 0 (b.(perPeer) !! id.(Key)) + 1]> b.(perPeer))
          (if (o.(oGroup) =? "")%string then b.(groupN)
           else <[o.(oGroup) := default 0 (b.(groupN) !! o.(oGroup)) + 1]> b.(groupN)) b in
        let b := set_sub sid s b in
        b ← (if 0 <? o.(oSince) then replayTo sid s o.(oSince) b else Some b);
        b ← (if (o.(oSince) =? 0) && (o.(oGroup) =? "")%string
             then retainedTo (env.(clock) 2) sid s b else Some b);
        b ← (if o.(oAck) then drainGroupPendingLocked o.(oGroup) b else Some b);
        Some (Ok sid, record id "pubsub/subscribe" (joinString o.(oTopics)) "allow" "subscribed" [] b)
  end.

(** ** The rest of the interface *)

Definition Unsubscribe (id : Z) (b : Broker) : option Broker := closeSubLocked id b.

Definition Ack (id : Z) (seq : Z) (b : Broker) : option Broker :=
  s ← b.(heap) !! id;
  let b := set_sub id (set_inflight (delete seq <$> s.(inflight)) s) b in
  drainGroupPendingLocked s.(group) b.

Definition Close (b : Broker) : Broker :=
  if b.(closed) then b
  else
    mkBroker b.(auth) b.(bName) b.(lm) b.(audited) b.(events) b.(caps) b.(lim) b.(bseq) b.(prev)
      (map_imap (λ id s, Some (if bool_decide (id ∈ b.(subs)) then closeCh s else s)) b.(heap))
      ∅ ∅ ∅ ∅ ∅ ∅ ∅ b.(nextSubID) b.(bring) b.(dropped) true.

Record Stats := mkStats {
  stSubscriptions : nat; stGroups : nat; stSequence : Z; stRetained : nat; stDropped : Z }.
Definition BrokerStats (b : Broker) : Stats :=
  mkStats (size b.(subs)) (size b.(groupN)) b.(bseq) b.(bring).(rn) b.(dropped).
Definition SubCount (b : Broker) : nat := size b.(subs).
Definition Retained (b : Broker) : list Event := snapshot b.(bring).

(** A reader takes the oldest buffered event; a closed channel is still drained. *)
Definition Recv (id : Z) (b : Broker) : option (option Event * Broker) :=
  s ← b.(heap) !! id;
  match s.(ch) with
  | [] => Some (None, b)
  | ev :: l => Some (Some ev, set_sub id (set_ch l s) b)
  end.

(** [New]; [now] is read by the sweep after the seed was replayed. *)
Record Options := mkOptions {
  Authorizer_ : option Authorizer; Audit_ : option (list Chain.AuditRecord);
  Events_ : option EventLog; Seed : list Event; Name_ : string;
  Capabilities_ : option (Cap.CapabilityVerifier N); Limits_ : Limits
}.
Definition New (now : Instant) (o : Options) : Broker :=
  let l := withDefaults o.(Limits_) in
  let b := mkBroker (default denyAll o.(Authorizer_)) o.(Name_) l o.(Audit_) o.(Events_)
    o.(Capabilities_) (newLimiter l.(PublishRate) l.(PublishBurst)) 0 "" ∅ ∅ ∅ ∅ ∅ ∅ ∅ ∅ 0
    (newRing l.(LRetain)) 0 false in
  match list.last o.(Seed) with
  | None => b
  | Some lastEv =>
      let n := Z.of_nat (length o.(Seed)) in
      let start := if l.(LRetain) <? n then Z.to_nat (n - l.(LRetain)) else O in
      let b := set_sealed lastEv.(Hash) (addAll (drop start o.(Seed)) b.(bring))
        (set_bseq lastEv.(Seq) b) in
      let b := fold_left (λ b ev, if ev.(Retain) || ev.(RetainDel)
                                  then applyRetainedLocked now ev b else b) o.(Seed) b in
      sweepExpiredRetainedLocked now b
  end.
End Broker.
End Brk.
