(* ===== verification/BrokerInv.v ===== *)
(** * BrokerInv: the broker's invariant

    Every operation of [pubsub/broker.go] runs without a panic (no send on a closed channel,
    no write to a nil map, no lookup of a forgotten subscription) and keeps the invariant:
    what is buffered or in flight for a subscription is cleared for it, buffers and in-flight
    sets are bounded, registered channels are open. *)
From stdpp Require Import base list strings gmap sorting.
From Stdlib Require Import ZArith Lia Ascii.
From S2P Require Import Prelude GoStd Json JsonText JsonCodec Crypto Policy Engine Capability Checkpoint Ledger Sealed PubSub EventLog Broker.
Open Scope Z_scope.
Open Scope mesh_scope.

Module BrkInv.
Import Bus EvLog Brk.

(** ** The invariant *)

(** A subscription: what is buffered or in flight for it, it accepts; buffers and in-flight
    sets are bounded; while it is registered its channel is open and an at-least-once member
    has its in-flight map. *)
Record sub_ok (cap : Z) (registered : bool) (s : Subscription) : Prop := {
  so_ch : Forall (λ e, accepts s e = true) s.(ch);
  so_len : Z.of_nat (length s.(ch)) ≤ cap;
  so_flight : ∀ m, s.(inflight) = Some m →
    map_Forall (λ n e, accepts s e = true ∧ e.(Seq) = n) m ∧ Z.of_nat (size m) ≤ cap;
  so_open : registered = true → s.(chOpen) = true;
  so_ack : registered = true → s.(ackMode) = true → is_Some s.(inflight);
  so_group : s.(ackMode) = true → s.(group) ≠ "";
  so_plain : s.(ackMode) = false → s.(inflight) = None
}.

(** How the authorizer's decision on the pattern [t] bounds the clearance of [s]: a topic
    allowed by a rule clears at most what the rule clears, one allowed by a capability
    clears nothing. *)
Definition topicCleared (a : Authorizer) (s : Subscription) (t : string) : Prop :=
  let dec := a.(authSubscribe) s.(ident) t in
  if dec.(sAllow) then dec.(sClearAll) = true ∨ (s.(clearAll) = false ∧ s.(clear) ⊆ toSet dec.(sClear))
  else dec.(sExplicit) = false ∧ s.(clearAll) = false ∧ s.(clear) = ∅.
Definition authorized (a : Authorizer) (s : Subscription) : Prop := Forall (topicCleared a s) s.(topics).

(** ** Counting registrations *)

Definition countBy (f : Subscription → string) (h : gmap Z Subscription) (S : gset Z) (k : string) : Z :=
  Z.of_nat (size (filter (λ id, f <$> h !! id = Some k) S)).
Definition keyOf (s : Subscription) : string := s.(ident).(Key).

Lemma countBy_ext f h h' S k :
  (∀ id, id ∈ S → f <$> h' !! id = f <$> h !! id) → countBy f h' S k = countBy f h S k.
Proof.
  intros Hf. unfold countBy. do 2 f_equal. apply set_eq. intros id. rewrite !elem_of_filter.
  split; intros [Hx Hin]; (split; [|done]); rewrite <- Hx, Hf; done.
Qed.

Lemma countBy_add f h S id s k :
  id ∉ S → countBy f (<[id := s]> h) ({[id]} ∪ S) k =
           (if decide (f s = k) then 1 else 0) + countBy f h S k.
Proof.
  intros Hin. rewrite <- (countBy_ext f h (<[id := s]> h) S).
  2: { intros id' Hid'. rewrite lookup_insert_ne by (by intros ->). done. }
  unfold countBy. set (P := λ id', f <$> <[id := s]> h !! id' = Some k).
  assert (HP : P id ↔ f s = k). { unfold P. rewrite lookup_insert_eq. simpl. naive_solver. }
  assert (Hset : filter P ({[id]} ∪ S) = (if decide (f s = k) then {[id]} else ∅) ∪ filter P S).
  { apply set_eq. intros x. rewrite elem_of_union, !elem_of_filter, elem_of_union, elem_of_singleton.
    case_decide as Hk; set_solver. }
  rewrite Hset. case_decide as Hk.
  - rewrite size_union, size_singleton; [lia|]. apply disjoint_singleton_l.
    rewrite elem_of_filter. tauto.
  - by rewrite (left_id_L ∅ (∪)).
Qed.

Lemma countBy_remove f h S id s k :
  id ∈ S → h !! id = Some s →
  countBy f h (S ∖ {[id]}) k = countBy f h S k - (if decide (f s = k) then 1 else 0).
Proof.
  intros Hin Hs. pose proof (countBy_add f h (S ∖ {[id]}) id s k ltac:(set_solver)) as Ha.
  rewrite insert_id in Ha by done.
  replace ({[id]} ∪ S ∖ {[id]}) with S in Ha; [lia|].
  apply set_eq. intros x. destruct (decide (x = id)); set_solver.
Qed.

Lemma countBy_empty f h k : countBy f h ∅ k = 0.
Proof.
  unfold countBy. match goal with |- context [size ?X] => replace X with (∅ : gset Z) end; [done|].
  apply set_eq. intros x. rewrite elem_of_filter. set_solver.
Qed.
Lemma countBy_nonneg f h S k : 0 ≤ countBy f h S k.
Proof. unfold countBy. lia. Qed.

(** One less in a table of counters that drops its zeros. *)
Definition less (m : gmap string Z) (k : string) : gmap string Z :=
  if default 0 (m !! k) - 1 <=? 0 then delete k m else <[k := default 0 (m !! k) - 1]> m.

Lemma less_lookup m k k' :
  1 ≤ default 0 (m !! k) →
  default 0 (less m k !! k') = default 0 (m !! k') - (if decide (k = k') then 1 else 0).
Proof.
  intros Hm. unfold less. destruct (Z.leb_spec (default 0 (m !! k) - 1) 0); case_decide as Hk.
  - subst k'. rewrite lookup_delete_eq. simpl. lia.
  - rewrite lookup_delete_ne by done. lia.
  - subst k'. by rewrite lookup_insert_eq.
  - rewrite lookup_insert_ne by done. lia.
Qed.

Section BrokerProofs.
Context `{Float64} `{Ed25519} `{SHA256} `{Cap.CapCodec} {N : Type} `{NonceStore N} `{TimeText}.
Implicit Types b : Broker (N := N).

Record binv b : Prop := {
  bi_cap : 0 < b.(lm).(SubQueue);
  bi_heap : ∀ id s, b.(heap) !! id = Some s →
    sub_ok b.(lm).(SubQueue) (bool_decide (id ∈ b.(subs))) s;
  bi_subs : ∀ id, id ∈ b.(subs) → is_Some (b.(heap) !! id);
  bi_ids : ∀ id, is_Some (b.(heap) !! id) → 0 < id ≤ b.(nextSubID);
  bi_next : 0 ≤ b.(nextSubID);
  bi_auth : ∀ id s, b.(heap) !! id = Some s → authorized b.(auth) s;
  bi_peer : ∀ k, default 0 (b.(perPeer) !! k) = countBy keyOf b.(heap) b.(subs) k;
  bi_group : ∀ g, g ≠ "" → default 0 (b.(groupN) !! g) = countBy group b.(heap) b.(subs) g;
  bi_max : Z.of_nat (size b.(subs)) ≤ b.(lm).(MaxSubs);
  bi_peermax : ∀ k, countBy keyOf b.(heap) b.(subs) k ≤ b.(lm).(MaxSubsPerPeer);
  bi_ret : Z.of_nat (size b.(retained)) ≤ b.(lm).(MaxRetainedTopics)
}.

(** What delivery changes: nothing but buffers, in-flight sets, group state and counters;
    registrations only end. *)
Record delivers b b' : Prop := {
  de_lm : b'.(lm) = b.(lm);
  de_auth : b'.(auth) = b.(auth);
  de_subs : b'.(subs) ⊆ b.(subs);
  de_next : b'.(nextSubID) = b.(nextSubID);
  de_dom : dom b'.(heap) = dom b.(heap);
  de_static : ∀ id s s', b.(heap) !! id = Some s → b'.(heap) !! id = Some s' →
    s'.(topics) = s.(topics) ∧ s'.(clearAll) = s.(clearAll) ∧ s'.(clear) = s.(clear) ∧
    s'.(group) = s.(group) ∧ s'.(ackMode) = s.(ackMode) ∧ s'.(bp) = s.(bp) ∧ s'.(ident) = s.(ident);
  de_seq : b'.(bseq) = b.(bseq) ∧ b'.(prev) = b.(prev) ∧ b'.(bring) = b.(bring) ∧
    b'.(events) = b.(events) ∧ b'.(closed) = b.(closed) ∧ b'.(retained) = b.(retained) ∧
    b'.(retainExp) = b.(retainExp) ∧ b'.(lim) = b.(lim) ∧ b'.(audited) = b.(audited)
}.

(** Changes of the group state, the counters and the tables of names only. *)
Definition samePlace b b' : Prop :=
  b'.(lm) = b.(lm) ∧ b'.(auth) = b.(auth) ∧ b'.(subs) = b.(subs) ∧ b'.(heap) = b.(heap) ∧
  b'.(nextSubID) = b.(nextSubID) ∧ b'.(perPeer) = b.(perPeer) ∧ b'.(groupN) = b.(groupN) ∧
  b'.(retained) = b.(retained) ∧ b'.(bseq) = b.(bseq) ∧ b'.(prev) = b.(prev) ∧
  b'.(bring) = b.(bring) ∧ b'.(events) = b.(events) ∧ b'.(closed) = b.(closed) ∧
  b'.(retained) = b.(retained) ∧ b'.(retainExp) = b.(retainExp) ∧ b'.(lim) = b.(lim) ∧
  b'.(audited) = b.(audited).

Lemma samePlace_inv b b' : samePlace b b' → binv b → binv b' ∧ delivers b b'.
Proof.
  intros (H1' & H2' & H3' & H4' & H5' & H6' & H7' & H8' & Hr) Hb. split.
  - destruct Hb. split; rewrite ?H1', ?H2', ?H3', ?H4', ?H5', ?H6', ?H7', ?H8'; done.
  - split; try done; [by rewrite H3'|by rewrite H4'|].
    intros id s s' Hx Hx'. rewrite H4' in Hx'. by simplify_eq.
Qed.

Lemma delivers_refl b : delivers b b.
Proof. split; try done. intros id s s' Hs Hs'. by simplify_eq. Qed.

Lemma delivers_trans b1 b2 b3 : delivers b1 b2 → delivers b2 b3 → delivers b1 b3.
Proof.
  intros [l1 a1 s1 n1 d1 t1 q1] [l2 a2 s2 n2 d2 t2 q2]. split; try congruence; [set_solver| |].
  - intros id s s' Hs Hs'. assert (is_Some (b2.(heap) !! id)) as [s2' Hs2].
    { apply elem_of_dom. rewrite d1. apply elem_of_dom. eauto. }
    pose proof (t1 _ _ _ Hs Hs2). pose proof (t2 _ _ _ Hs2 Hs'). naive_solver congruence.
  - naive_solver congruence.
Qed.

Lemma accepts_static s s' e :
  s'.(topics) = s.(topics) → s'.(clearAll) = s.(clearAll) → s'.(clear) = s.(clear) →
  accepts s' e = accepts s e.
Proof. unfold accepts. by intros -> -> ->. Qed.

(** Replacing a subscription of the heap. *)
Definition sameStatic s s' : Prop :=
  s'.(topics) = s.(topics) ∧ s'.(clearAll) = s.(clearAll) ∧ s'.(clear) = s.(clear) ∧
  s'.(group) = s.(group) ∧ s'.(ackMode) = s.(ackMode) ∧ s'.(bp) = s.(bp) ∧ s'.(ident) = s.(ident).

Lemma set_sub_inv b id s s' :
  binv b → b.(heap) !! id = Some s → sameStatic s s' →
  sub_ok b.(lm).(SubQueue) (bool_decide (id ∈ b.(subs))) s' →
  binv (set_sub id s' b) ∧ delivers b (set_sub id s' b).
Proof.
  intros [Hc Hh Hs Hi Hn Ha Hp Hg Hm Hpm Hr] Hid Hst Hok.
  assert (Hcount : ∀ f k, f s' = f s → countBy f (<[id := s']> b.(heap)) b.(subs) k = countBy f b.(heap) b.(subs) k).
  { intros f k Hf. apply countBy_ext. intros id' _. destruct (decide (id' = id)) as [->|Hne].
    - rewrite lookup_insert_eq, Hid. simpl. by rewrite Hf.
    - by rewrite lookup_insert_ne. }
  destruct Hst as (T1 & T2 & T3 & T4 & T5 & T6 & T7).
  assert (Hkey : keyOf s' = keyOf s) by (unfold keyOf; by rewrite T7).
  split.
  - split; simpl; try done.
    + intros id' x. rewrite lookup_insert_Some. intros [[<- <-]|[_ Hx]]; auto.
    + intros id' Hin. destruct (decide (id' = id)) as [->|Hne].
      * rewrite lookup_insert_eq. eauto.
      * rewrite lookup_insert_ne by done. auto.
    + intros id'. destruct (decide (id' = id)) as [->|Hne].
      * intros _. apply Hi. eauto.
      * rewrite lookup_insert_ne by done. auto.
    + intros id' x. rewrite lookup_insert_Some. intros [[<- <-]|[_ Hx]]; [|eauto].
      unfold authorized, topicCleared. rewrite T1, T2, T3, T7. by apply (Ha id).
    + intros k. by rewrite Hcount.
    + intros g Hg'. rewrite Hcount; auto.
    + intros k. by rewrite Hcount.
  - split; simpl; try done.
    + rewrite dom_insert_L. apply elem_of_dom_2 in Hid. set_solver.
    + intros id' x x' Hx. rewrite lookup_insert_Some. intros [[<- <-]|[_ Hx']]; by simplify_eq.
Qed.

(** A registered subscription that accepts [ev]. *)
Definition takes b (ev : Event) (id : Z) : Prop :=
  id ∈ b.(subs) ∧ ∃ s, b.(heap) !! id = Some s ∧ accepts s ev = true.

Lemma takes_delivers b b' ev id : delivers b b' → id ∈ b'.(subs) → takes b ev id → takes b' ev id.
Proof.
  intros Hd Hin (_ & s & Hs & Ha). split; [done|].
  assert (is_Some (b'.(heap) !! id)) as [s' Hs'].
  { apply elem_of_dom. rewrite (de_dom _ _ Hd). by apply elem_of_dom_2 in Hs. }
  exists s'. split; [done|]. destruct (de_static _ _ Hd _ _ _ Hs Hs') as (H1' & H2' & H3' & _).
  by rewrite (accepts_static s s').
Qed.

(** An operation runs: it does not panic, it keeps the invariant, it only delivers. *)
Definition runs b (r : option Broker) : Prop := ∃ b', r = Some b' ∧ binv b' ∧ delivers b b'.

Lemma runs_bind b (r : option Broker) (k : Broker → option Broker) :
  runs b r → (∀ b', r = Some b' → binv b' → delivers b b' → runs b' (k b')) → runs b (r ≫= k).
Proof.
  intros (b' & -> & Hi & Hd) Hk. destruct (Hk b' eq_refl Hi Hd) as (b'' & Hr & Hi' & Hd').
  exists b''. split; [done|]. split; [done|]. by eapply delivers_trans.
Qed.

(** Changes outside the invariant. *)
Lemma groups_inv b rr pend n :
  binv b → binv (set_groupPend pend (set_groupRR rr (add_dropped n b))) ∧
    delivers b (set_groupPend pend (set_groupRR rr (add_dropped n b))).
Proof.
  by apply samePlace_inv.
Qed.

Lemma trySend_ok cap ev s reg :
  sub_ok cap reg s → s.(chOpen) = true → accepts s ev = true →
  ∃ ok s', trySend cap ev s = Some (ok, s') ∧ sub_ok cap reg s' ∧ sameStatic s s' ∧
    s'.(inflight) = s.(inflight) ∧
    (ok = true → s'.(ch) = s.(ch) ++ [ev] ∧ Z.of_nat (length s.(ch)) < cap) ∧
    (ok = false → s' = s ∧ cap ≤ Z.of_nat (length s.(ch))).
Proof.
  intros [Hch Hlen Hfl Hop Hack Hg Hp] Ho Ha. unfold trySend. rewrite Ho. simpl.
  destruct (Z.ltb_spec (Z.of_nat (length s.(ch))) cap).
  - eexists true, _. split; [done|]. split; [|by split_and!].
    split; simpl; try done.
    + apply Forall_app. split; [done|by constructor].
    + rewrite length_app. simpl. lia.
  - eexists false, s. split; [done|]. by split_and!.
Qed.

Lemma tryDeliver_ok b ev id :
  binv b → takes b ev id →
  ∃ ok b', tryDeliverLocked id ev b = Some (ok, b') ∧ binv b' ∧ delivers b b' ∧
    b'.(subs) = b.(subs) ∧
    ∃ s s', b.(heap) !! id = Some s ∧ b' = set_sub id s' b ∧ sameStatic s s' ∧
      s'.(inflight) = s.(inflight) ∧ (ok = false → s' = s ∧ b.(lm).(SubQueue) ≤ Z.of_nat (length s.(ch))).
Proof.
  intros Hb (Hin & s & Hs & Ha). pose proof (bi_heap b Hb _ _ Hs) as Hok.
  assert (Hreg : bool_decide (id ∈ b.(subs)) = true) by by apply bool_decide_eq_true_2.
  destruct (trySend_ok (b.(lm).(SubQueue)) ev s _ Hok) as (ok & s' & Ht & Hok' & Hst & Hfl & _ & Hf);
    [by apply (so_open _ _ _ Hok)|done|].
  exists ok, (set_sub id s' b). unfold tryDeliverLocked. rewrite Hs. simpl. rewrite Ht. simpl.
  destruct (set_sub_inv b id s s' Hb Hs Hst Hok') as [Hi Hd].
  split; [done|]. split; [done|]. split; [done|]. split; [done|]. exists s, s'. by split_and!.
Qed.

Lemma inflight_insert cap s ev m :
  sub_ok cap true s → s.(ackMode) = true → s.(inflight) = Some m → Z.of_nat (size m) < cap →
  accepts s ev = true →
  sub_ok cap true (set_inflight (Some (<[ev.(Seq) := ev]> m)) s).
Proof.
  intros [Hch Hlen Hfl Hop Hack Hg Hp] Hm Hs Hsz Ha. split; simpl; try done.
  - intros m' [= <-]. destruct (Hfl m Hs) as [Hall Hsize]. split.
    + by apply map_Forall_insert_2.
    + rewrite map_size_insert. destruct (m !! ev.(Seq)); simpl; lia.
  - by rewrite Hm.
Qed.

Lemma placeLoop_ok ids ev b :
  binv b → Forall (takes b ev) ids →
  ∃ ok b', placeLoop ids ev b = Some (ok, b') ∧ binv b' ∧ delivers b b' ∧ b'.(subs) = b.(subs).
Proof.
  revert b. induction ids as [|id ids IH]; intros b Hb Hids.
  { exists false, b. split; [done|]. split; [done|]. split; [apply delivers_refl|done]. }
  apply Forall_cons in Hids as [Hid Hids]. pose proof Hid as (Hin & s & Hs & Ha). cbn [placeLoop].
  rewrite Hs. cbn [mbind option_bind].
  destruct (s.(ackMode) && (b.(lm).(SubQueue) <=? Z.of_nat (size (default ∅ s.(inflight))))) eqn:Hfull.
  { by apply IH. }
  destruct (tryDeliver_ok b ev id Hb Hid) as (ok & b1 & -> & Hb1 & Hd1 & Hs1 & x & s1 & Hx & -> & Hst & Hfl & _).
  rewrite Hs in Hx. injection Hx as <-. cbn [mbind option_bind].
  assert (Hreg : bool_decide (id ∈ b.(subs)) = true) by by apply bool_decide_eq_true_2.
  destruct ok.
  - destruct (s.(ackMode)) eqn:Hack.
    + assert (Hl1 : (set_sub id s1 b).(heap) !! id = Some s1) by (simpl; by rewrite lookup_insert_eq).
      rewrite Hl1. cbn [mbind option_bind]. pose proof (bi_heap b Hb _ _ Hs) as Hok. rewrite Hreg in Hok.
      destruct (so_ack _ _ _ Hok eq_refl Hack) as [m Hm]. rewrite Hfl, Hm. cbn [mbind option_bind].
      eexists true, _. split; [done|].
      pose proof (bi_heap _ Hb1 _ _ Hl1) as Hok1. simpl in Hok1. rewrite Hreg in Hok1.
      destruct (set_sub_inv (set_sub id s1 b) id s1 (set_inflight (Some (<[ev.(Seq) := ev]> m)) s1))
        as [Hi2 Hd2]; [done|done|done| |].
      * simpl. rewrite Hreg. destruct Hst as (T1 & T2 & T3 & T4 & T5 & _).
        apply inflight_insert; [done|congruence|congruence| |by rewrite (accepts_static s s1)].
        rewrite Hm in Hfull. simpl in Hfull. breflect. lia.
      * split; [done|]. split; [by eapply delivers_trans|done].
    + eexists true, _. by split_and!.
  - destruct (IH (set_sub id s1 b)) as (ok & b2 & Hp & Hb2 & Hd2 & Hs2); [done| |].
    + eapply Forall_impl; [exact Hids|]. intros id' Ht'. eapply takes_delivers; [exact Hd1| |done].
      rewrite Hs1. apply Ht'.
    + exists ok, b2. split; [done|]. split; [done|]. split; [by eapply delivers_trans|congruence].
Qed.

Lemma rotate_perm n l : rotate n l ≡ₚ l.
Proof. unfold rotate. rewrite Permutation_app_comm. by rewrite take_drop. Qed.
Lemma sortIDs_perm l : sortIDs l ≡ₚ l.
Proof. apply merge_sort_Permutation. Qed.

Lemma tryPlace_ok name members ev b :
  binv b → Forall (takes b ev) members →
  ∃ ok b', tryPlaceOnGroupLocked name members ev b = Some (ok, b') ∧ binv b' ∧ delivers b b' ∧
    b'.(subs) = b.(subs).
Proof.
  intros Hb Hm. unfold tryPlaceOnGroupLocked. destruct members as [|i ms].
  { exists false, b. split; [done|]. split; [done|]. split; [apply delivers_refl|done]. }
  set (members := i :: ms) in *. set (rr := <[name := _]> _).
  assert (Hb' : binv (set_groupRR rr b) ∧ delivers b (set_groupRR rr b)).
  { by apply samePlace_inv. }
  destruct Hb' as [Hb1 Hd1].
  match goal with |- context [rotate ?n ?l] => set (ids := rotate n l) end.
  destruct (placeLoop_ok ids ev (set_groupRR rr b)) as (ok & b' & Hp & Hi & Hd & Hsub); [done| |].
  - assert (Hperm : ids ≡ₚ members) by (unfold ids; by rewrite rotate_perm, sortIDs_perm).
    rewrite Hperm. exact Hm.
  - exists ok, b'. split; [done|]. split; [done|]. split; [by eapply delivers_trans|done].
Qed.

Lemma inGroup_takes b name ev id : id ∈ b.(subs) → inGroup b name ev id = true → takes b ev id.
Proof.
  unfold inGroup, takes. intros Hin Hg. destruct (b.(heap) !! id) as [s|]; [|done].
  breflect. split; [done|]. eauto.
Qed.

Lemma members_take b name ev :
  Forall (takes b ev) (List.filter (inGroup b name ev) (elements b.(subs))).
Proof.
  apply List.Forall_forall. intros id [Hin Hg]%List.filter_In.
  eapply inGroup_takes; [|done]. apply elem_of_elements. by apply list_elem_of_In.
Qed.

Lemma drainLoop_ok name q b :
  binv b → ∃ q' b', drainLoop name q b = Some (q', b') ∧ binv b' ∧ delivers b b' ∧
    b'.(subs) = b.(subs) ∧ ∃ done, q = done ++ q'.
Proof.
  revert b. induction q as [|ev q IH]; intros b Hb; cbn [drainLoop].
  { exists [], b. split; [done|]. split; [done|]. split; [apply delivers_refl|]. split; [done|by exists []]. }
  destruct (tryPlace_ok name _ ev b Hb (members_take b name ev)) as (ok & b1 & -> & Hb1 & Hd1 & Hs1).
  cbn [mbind option_bind]. destruct ok.
  - destruct (IH b1 Hb1) as (q' & b2 & Hp & Hb2 & Hd2 & Hs2 & dn & ->).
    exists q', b2. split; [done|]. split; [done|]. split; [by eapply delivers_trans|].
    split; [congruence|by exists (ev :: dn)].
  - exists (ev :: q), b1. split; [done|]. split; [done|]. split; [done|]. split; [done|by exists []].
Qed.

Lemma drain_ok name b : binv b →
  ∃ b', drainGroupPendingLocked name b = Some b' ∧ binv b' ∧ delivers b b' ∧ b'.(subs) = b.(subs).
Proof.
  intros Hb. unfold drainGroupPendingLocked. destruct (String.eqb_spec name "").
  { exists b. split; [done|]. split; [done|]. split; [apply delivers_refl|done]. }
  destruct (drainLoop_ok name (default [] (b.(groupPend) !! name)) b Hb)
    as (q & b1 & -> & Hb1 & Hd1 & Hs1 & _). cbn [mbind option_bind].
  eexists. split; [done|]. set (pend := match q with [] => _ | _ => _ end).
  assert (Hb2 : binv (set_groupPend pend b1) ∧ delivers b1 (set_groupPend pend b1)).
  { by apply samePlace_inv. }
  destruct Hb2. split; [done|]. split; [by eapply delivers_trans|done].
Qed.

(** An operation that runs and ends at most the registrations in [X]. *)
Definition runsEnding b (X : gset Z) (r : option Broker) : Prop :=
  ∃ b', r = Some b' ∧ binv b' ∧ delivers b b' ∧ b.(subs) ∖ X ⊆ b'.(subs).

Lemma sub_ok_unregister cap r s : sub_ok cap r s → sub_ok cap false s.
Proof. intros []. by split. Qed.
Lemma sub_ok_closed cap r s : sub_ok cap r s → sub_ok cap false (closeCh s).
Proof. intros []. by split. Qed.
Lemma sub_ok_noflight cap r s : sub_ok cap r s → sub_ok cap false (set_inflight None s).
Proof. intros []. by split. Qed.

(** The group table once a member of the group of [s] is gone. *)
Definition leftN s (gn : gmap string Z) : gmap string Z :=
  if (s.(group) =? "")%string then gn else less gn s.(group).

Lemma unregister_inv b id s :
  binv b → id ∈ b.(subs) → b.(heap) !! id = Some s →
  binv (set_members (b.(subs) ∖ {[id]}) (less b.(perPeer) (keyOf s)) (leftN s b.(groupN)) b).
Proof.
  intros [Hc Hh Hs Hi Hn Ha Hp Hg Hm Hpm Hr] Hin Hid.
  assert (Hone : ∀ f, 1 ≤ countBy f b.(heap) b.(subs) (f s)).
  { intros f. pose proof (countBy_remove f _ _ _ _ (f s) Hin Hid) as Hrm. rewrite decide_True in Hrm by done.
    pose proof (countBy_nonneg f b.(heap) (b.(subs) ∖ {[id]}) (f s)). lia. }
  split; simpl; try done.
  - intros id' x Hx. pose proof (Hh _ _ Hx) as Hok.
    destruct (bool_decide_reflect (id' ∈ b.(subs) ∖ {[id]})) as [Hin'|Hin'].
    + rewrite bool_decide_eq_true_2 in Hok by set_solver. done.
    + by eapply sub_ok_unregister.
  - intros id' Hin'. apply Hs. set_solver.
  - intros k. rewrite less_lookup, (countBy_remove _ _ _ _ s), Hp; [done|done|done|].
    rewrite Hp. apply Hone.
  - intros g Hg'. unfold leftN. destruct (String.eqb_spec s.(group) "") as [E|E].
    + rewrite (countBy_remove _ _ _ _ s), decide_False by (try done; congruence).
      rewrite Hg by done. lia.
    + rewrite less_lookup, (countBy_remove _ _ _ _ s), Hg; [done|done|done|done|].
      rewrite Hg by done. apply (Hone group).
  - rewrite size_difference, size_singleton by set_solver. lia.
  - intros k. rewrite (countBy_remove _ _ _ _ s) by done. specialize (Hpm k). case_decide; lia.
Qed.

Lemma members_delivers b X pp gn : X ⊆ b.(subs) → delivers b (set_members X pp gn b).
Proof. intros HX. split; simpl; try done. intros id s s' Hx Hx'. by simplify_eq. Qed.

Lemma closeCh_inv b id s :
  binv b → id ∉ b.(subs) → b.(heap) !! id = Some s →
  binv (set_sub id (closeCh s) b) ∧ delivers b (set_sub id (closeCh s) b).
Proof.
  intros Hb Hin Hs. apply (set_sub_inv b id s); [done..|].
  rewrite bool_decide_eq_false_2 by done. eapply sub_ok_closed. by apply (bi_heap b Hb _ _ Hs).
Qed.

Lemma leaveGroup_ok id s b :
  binv (set_members b.(subs) b.(perPeer) (leftN s b.(groupN)) b) → id ∉ b.(subs) → b.(heap) !! id = Some s →
  ∃ b', leaveGroup id s b = Some b' ∧ binv b' ∧ delivers b b' ∧ b'.(subs) = b.(subs).
Proof.
  intros Hb Hin Hs. pose proof (members_delivers b b.(subs) b.(perPeer) (leftN s b.(groupN)) ltac:(done)) as Hd.
  revert Hb Hd. set (b0 := set_members _ _ _ b). intros Hb Hd.
  unfold leaveGroup. destruct (String.eqb_spec s.(group) "") as [Hg|Hg].
  { assert (b0 = b) as E. { unfold b0, leftN. rewrite Hg. by destruct b. }
    rewrite E in *. exists b. by split_and!. }
  destruct (set_sub_inv b0 id s (set_inflight None s) Hb Hs) as [Hb3 Hd3]; [done| |].
  { rewrite bool_decide_eq_false_2 by done. eapply sub_ok_noflight. by apply (bi_heap _ Hb _ _ Hs). }
  pose proof (delivers_trans _ _ _ Hd Hd3) as Hd13. set (b3 := set_sub id _ b0) in *.
  assert (Hn3 : b3.(groupN) = less b.(groupN) s.(group)).
  { simpl. unfold leftN. destruct (String.eqb_spec s.(group) ""); done. }
  cbv zeta. unfold less in Hn3. set (remaining := default 0 (b.(groupN) !! s.(group)) - 1) in *.
  destruct (remaining <=? 0).
  - match goal with |- context [Some ?x = Some _] =>
      assert (Hx : samePlace b3 x) by (unfold samePlace; rewrite Hn3; by repeat case_match) end.
    eexists. split; [reflexivity|]. destruct (samePlace_inv _ _ Hx Hb3) as [Hbx Hdx]. split; [done|].
    split; [by eapply delivers_trans|]. destruct Hx as (_ & _ & -> & _). done.
  - match goal with |- context [drainGroupPendingLocked _ ?x] =>
      assert (Hx : samePlace b3 x) by (unfold samePlace; rewrite Hn3; by repeat case_match) end.
    destruct (samePlace_inv _ _ Hx Hb3) as [Hbx Hdx].
    destruct (drain_ok s.(group) _ Hbx) as (b4 & -> & Hb4 & Hd4 & Hs4).
    eexists. split; [reflexivity|]. split; [done|]. destruct Hx as (_ & _ & Hs3 & _). split; [|by rewrite Hs4, Hs3].
    eapply delivers_trans; [exact Hd13|]. by eapply delivers_trans.
Qed.

Lemma closeSub_ok id b :
  binv b → is_Some (b.(heap) !! id) → runsEnding b {[id]} (closeSubLocked id b).
Proof.
  intros Hb [s Hs]. unfold closeSubLocked, runsEnding. rewrite Hs. cbn [mbind option_bind].
  destruct (bool_decide_reflect (id ∈ b.(subs))) as [Hin|Hin]; cbn [negb].
  2: { destruct (closeCh_inv b id s Hb Hin Hs). eexists. split; [done|]. split; [done|]. split; [done|].
       simpl. set_solver. }
  cbv zeta. match goal with |- context [leaveGroup id s ?x] => set (b1 := x) end.
  pose proof (unregister_inv b id s Hb Hin Hs) as Hb1.
  assert (Hd1 : delivers b b1) by (apply members_delivers; set_solver).
  destruct (leaveGroup_ok id s b1) as (b2 & -> & Hb2 & Hd2 & Hs2); [exact Hb1|simpl; set_solver|done|].
  cbn [mbind option_bind].
  assert (is_Some (b2.(heap) !! id)) as [s2 Hs2'].
  { apply elem_of_dom. rewrite (de_dom _ _ Hd2). simpl. by apply elem_of_dom_2 in Hs. }
  rewrite Hs2'. cbn [mbind option_bind].
  assert (Hin2 : id ∉ b2.(subs)) by (rewrite Hs2; simpl; set_solver).
  destruct (closeCh_inv b2 id s2 Hb2 Hin2 Hs2') as [Hb3 Hd3].
  eexists. split; [done|]. split; [done|]. split; [eapply delivers_trans; [|exact Hd3];
    eapply delivers_trans; [|exact Hd2]; done|].
  simpl. rewrite Hs2. done.
Qed.

Lemma evict_ok cap r s : sub_ok cap r s → sub_ok cap r (set_ch (drop 1 s.(ch)) s).
Proof.
  intros [Hch Hlen Hfl Hop Hack Hg Hp]. split; try done; simpl.
  - by apply Forall_drop.
  - rewrite length_drop. lia.
Qed.
Lemma countDrop_ok cap r s : sub_ok cap r s → sub_ok cap r (countDrop s).
Proof. intros []. by split. Qed.

Lemma deliver_ok ev id b : binv b → takes b ev id → runsEnding b {[id]} (deliverLocked id ev b).
Proof.
  intros Hb Ht. unfold deliverLocked, runsEnding.
  destruct (tryDeliver_ok b ev id Hb Ht) as (ok & b1 & -> & Hb1 & Hd1 & Hs1 & _). cbn [mbind option_bind].
  destruct ok. { exists b1. split; [done|]. split; [done|]. split; [done|]. rewrite Hs1. set_solver. }
  assert (Ht1 : takes b1 ev id). { eapply takes_delivers; [done| |done]. rewrite Hs1. apply Ht. }
  pose proof Ht1 as (Hin1 & s1 & Hl1 & Ha1). rewrite Hl1. cbn [mbind option_bind].
  destruct (bool_decide (s1.(bp) = Disconnect)).
  { destruct (closeSub_ok id b1 Hb1) as (b2 & Hc & Hb2 & Hd2 & Hs2); [eauto|].
    exists b2. split; [done|]. split; [done|]. split; [by eapply delivers_trans|]. by rewrite <- Hs1. }
  destruct (tryDeliver_ok b1 ev id Hb1 Ht1) as (ok & b2 & -> & Hb2 & Hd2 & Hs2 & _). cbn [mbind option_bind].
  destruct ok.
  { exists b2. split; [done|]. split; [done|]. split; [by eapply delivers_trans|]. rewrite Hs2, Hs1. set_solver. }
  assert (Ht2 : takes b2 ev id). { eapply takes_delivers; [done| |done]. rewrite Hs2. apply Ht1. }
  pose proof Ht2 as (Hin2 & s2 & Hl2 & Ha2). rewrite Hl2. cbn [mbind option_bind].
  destruct (set_sub_inv b2 id s2 (set_ch (drop 1 s2.(ch)) s2) Hb2 Hl2) as [Hb3 Hd3]; [done| |].
  { apply evict_ok. by apply (bi_heap b2 Hb2). }
  set (b3 := set_sub id _ b2) in *.
  assert (Ht3 : takes b3 ev id). { eapply takes_delivers; [exact Hd3|done|done]. }
  destruct (tryDeliver_ok b3 ev id Hb3 Ht3) as (ok & b4 & -> & Hb4 & Hd4 & Hs4 & _). cbn [mbind option_bind].
  assert (Ht4 : takes b4 ev id). { eapply takes_delivers; [exact Hd4| |done]. rewrite Hs4. apply Ht3. }
  destruct Ht4 as (Hin4 & s4 & Hl4 & _). rewrite Hl4. cbn [mbind option_bind].
  destruct (set_sub_inv b4 id s4 (countDrop s4) Hb4 Hl4) as [Hb5 Hd5]; [done| |].
  { apply countDrop_ok. by apply (bi_heap b4 Hb4). }
  eexists. split; [done|]. split; [by eapply samePlace_inv; [|exact Hb5]|]. split.
  - eapply delivers_trans; [exact Hd1|]. eapply delivers_trans; [exact Hd2|].
    eapply delivers_trans; [exact Hd3|]. eapply delivers_trans; [exact Hd4|].
    eapply delivers_trans; [exact Hd5|]. by apply samePlace_inv.
  - simpl. rewrite Hs4. simpl. rewrite Hs2, Hs1. set_solver.
Qed.

Lemma deliverToGroup_ok name members ev b :
  binv b → members ≠ [] → Forall (takes b ev) members →
  runsEnding b (list_to_set members) (deliverToGroupLocked name members ev b).
Proof.
  intros Hb Hne Hm. unfold deliverToGroupLocked, runsEnding.
  destruct (tryPlace_ok name members ev b Hb Hm) as (ok & b1 & -> & Hb1 & Hd1 & Hs1). cbn [mbind option_bind].
  destruct ok. { exists b1. split; [done|]. split; [done|]. split; [done|]. rewrite Hs1. set_solver. }
  destruct (groupIsAck b1 members).
  { eexists. split; [done|].
    assert (Hsp : samePlace b1 (enqueueGroupPendingLocked name ev b1))
      by (unfold enqueueGroupPendingLocked; by case_match).
    destruct (samePlace_inv _ _ Hsp Hb1). split; [done|]. split; [by eapply delivers_trans|].
    destruct Hsp as (_ & _ & -> & _). rewrite Hs1. set_solver. }
  destruct (head (sortIDs members)) as [id|] eqn:Hh.
  2: { exfalso. apply head_None in Hh. pose proof (sortIDs_perm members) as Hp. rewrite Hh in Hp.
       by apply Permutation_nil_l in Hp. }
  cbn [mbind option_bind]. apply head_Some in Hh as [l' Hh].
  assert (Hid : id ∈ members). { rewrite <- (sortIDs_perm members), Hh. by apply list_elem_of_here. }
  destruct (deliver_ok ev id b1 Hb1) as (b2 & Hr & Hb2 & Hd2 & Hs2).
  { rewrite Forall_forall in Hm. eapply takes_delivers; [exact Hd1| |by apply Hm]. rewrite Hs1. by apply Hm. }
  exists b2. split; [done|]. split; [done|]. split; [by eapply delivers_trans|].
  rewrite Hs1 in Hs2. set_solver.
Qed.

(** ** Fan-out *)

(** The runtime ranges over all entries of a map, in some order. *)
Definition env_ok (env : Env) : Prop :=
  (∀ l, env.(iterSubs) l ≡ₚ l) ∧ (∀ l, env.(iterGroups) l ≡ₚ l).

(** The members collected for group [name]. *)
Definition collected b (ev : Event) (name : string) (ids : list Z) : Prop :=
  ids ≠ [] ∧ Forall (λ id, takes b ev id ∧ ∃ s, b.(heap) !! id = Some s ∧ s.(group) = name) ids.

Lemma collected_delivers b b' ev name ids :
  delivers b b' → Forall (λ id, id ∈ b'.(subs)) ids → collected b ev name ids →
  collected b' ev name ids.
Proof.
  intros Hd Hin [Hne Hf]. split; [done|]. rewrite List.Forall_forall in *.
  intros id Hid. destruct (Hf id Hid) as (Ht & s & Hs & Hg). specialize (Hin id Hid).
  split; [by eapply takes_delivers|].
  assert (is_Some (b'.(heap) !! id)) as [s' Hs'].
  { apply elem_of_dom. rewrite (de_dom _ _ Hd). by apply elem_of_dom_2 in Hs. }
  exists s'. split; [done|].
  destruct (de_static _ _ Hd _ _ _ Hs Hs') as (_ & _ & _ & Hg' & _). congruence.
Qed.

Lemma fanoutLoop_ok ids ev groups b :
  binv b → NoDup ids → Forall (λ id, id ∈ b.(subs)) ids →
  (∀ name l, groups !! name = Some l → name ≠ "" ∧ collected b ev name l) →
  ∃ groups' b', fanoutLoop ids ev groups b = Some (groups', b') ∧ binv b' ∧ delivers b b' ∧
    (∀ name l, groups' !! name = Some l → name ≠ "" ∧ collected b' ev name l).
Proof.
  revert groups b. induction ids as [|id ids IH]; intros groups b Hb Hnd Hin Hg; cbn [fanoutLoop].
  { exists groups, b. split; [done|]. split; [done|]. split; [apply delivers_refl|done]. }
  apply NoDup_cons in Hnd as [Hid Hnd]. apply Forall_cons in Hin as [Hid' Hin].
  destruct (bi_subs b Hb id Hid') as [s Hs]. rewrite Hs. cbn [mbind option_bind].
  destruct (accepts s ev) eqn:Ha; cbn [negb]; [|by apply IH].
  assert (Ht : takes b ev id) by (split; eauto).
  destruct (String.eqb_spec s.(group) "") as [Hgr|Hgr].
  - destruct (deliver_ok ev id b Hb Ht) as (b1 & -> & Hb1 & Hd1 & Hs1). cbn [mbind option_bind].
    destruct (IH groups b1) as (g' & b2 & Hr & Hb2 & Hd2 & Hg2); [done|done| | |].
    + rewrite Forall_forall in Hin |- *. intros x Hx. apply Hs1. apply elem_of_difference.
      split; [auto|]. apply not_elem_of_singleton. by intros ->.
    + intros name l Hl. destruct (Hg name l Hl) as [Hn Hc]. split; [done|].
      eapply collected_delivers; [done| |done]. destruct Hc as [_ Hf].
      rewrite Forall_forall in Hf |- *. intros x Hx. destruct (Hf x Hx) as ([Hxs _] & sx & Hsx & Hgx).
      apply Hs1, elem_of_difference. split; [done|]. apply not_elem_of_singleton. intros ->. congruence.
    + exists g', b2. split; [done|]. split; [done|]. split; [by eapply delivers_trans|done].
  - apply IH; [done|done|done|]. intros name l. rewrite lookup_insert_Some.
    intros [[<- <-]|[Hne Hl]]; [|by apply Hg]. split; [done|]. split; [by destruct (default [] _)|].
    apply Forall_app. split; [|constructor; [|constructor]; split; [done|eauto]].
    destruct (groups !! s.(group)) as [l|] eqn:E; [|constructor]. simpl. by apply Hg in E as [_ [_ ?]].
Qed.

Lemma groupsLoop_ok names groups ev b :
  binv b → NoDup names →
  (∀ name, name ∈ names → ∃ l, groups !! name = Some l ∧ collected b ev name l) →
  ∃ b', groupsLoop names groups ev b = Some b' ∧ binv b' ∧ delivers b b'.
Proof.
  revert b. induction names as [|name names IH]; intros b Hb Hnd Hg; cbn [groupsLoop].
  { exists b. split; [done|]. split; [done|apply delivers_refl]. }
  apply NoDup_cons in Hnd as [Hn Hnd].
  destruct (Hg name) as (l & Hl & [Hne Hf]); [by apply list_elem_of_here|]. rewrite Hl. cbn [default from_option id].
  destruct (deliverToGroup_ok name l ev b Hb Hne) as (b1 & -> & Hb1 & Hd1 & Hs1).
  { eapply Forall_impl; [exact Hf|]. by intros x [? _]. }
  cbn [mbind option_bind]. destruct (IH b1) as (b2 & Hr & Hb2 & Hd2); [done|done| |].
  - intros name' Hn'. destruct (Hg name') as (l' & Hl' & Hc'); [by apply list_elem_of_further|].
    exists l'. split; [done|]. eapply collected_delivers; [done| |done]. destruct Hc' as [_ Hf'].
    rewrite Forall_forall in Hf, Hf' |- *. intros x Hx.
    destruct (Hf' x Hx) as ([Hxs _] & sx & Hsx & Hgx). apply Hs1, elem_of_difference. split; [done|].
    intros Hxl%elem_of_list_to_set. destruct (Hf x Hxl) as (_ & sy & Hsy & Hgy).
    apply Hn. by simplify_eq.
  - exists b2. split; [done|]. split; [done|]. by eapply delivers_trans.
Qed.

Lemma fanout_ok env ev b : env_ok env → binv b → runs b (fanoutLocked env ev b).
Proof.
  intros [Hi1 Hi2] Hb. unfold fanoutLocked, runs.
  destruct (fanoutLoop_ok (env.(iterSubs) (elements b.(subs))) ev ∅ b Hb)
    as (groups & b1 & -> & Hb1 & Hd1 & Hg).
  - rewrite Hi1. apply NoDup_elements.
  - rewrite Hi1. apply Forall_forall. intros id. apply elem_of_elements.
  - done.
  - cbn [mbind option_bind].
    destruct (groupsLoop_ok (env.(iterGroups) (elements (dom groups))) groups ev b1 Hb1)
      as (b2 & Hr & Hb2 & Hd2).
    + rewrite Hi2. apply NoDup_elements.
    + intros name. rewrite Hi2, elem_of_elements, elem_of_dom. intros [l Hl].
      exists l. split; [done|]. by apply Hg.
    + exists b2. split; [done|]. split; [done|]. by eapply delivers_trans.
Qed.

(** ** Every operation keeps the invariant and does not panic *)

(** The invariant does not depend on the stream, the audit trail, the verifier of
    capabilities or the rate limiter. *)
Lemma binv_same b b' :
  b'.(lm) = b.(lm) → b'.(auth) = b.(auth) → b'.(subs) = b.(subs) → b'.(heap) = b.(heap) →
  b'.(nextSubID) = b.(nextSubID) → b'.(perPeer) = b.(perPeer) → b'.(groupN) = b.(groupN) →
  (size b'.(retained) ≤ size b.(retained))%nat → binv b → binv b'.
Proof.
  intros E1 E2 E3 E4 E5 E6 E7 E8 []. split; rewrite ?E1, ?E2, ?E3, ?E4, ?E5, ?E6, ?E7; try done. lia.
Qed.

(** Before the lock is taken only these three change. *)
Definition sameCore b b' : Prop :=
  ∃ a c l, b' = set_lim l (set_caps c (set_audited a b)).
Lemma sameCore_refl b : sameCore b b.
Proof. exists b.(audited), b.(caps), b.(lim). by destruct b. Qed.
Lemma sameCore_trans b1 b2 b3 : sameCore b1 b2 → sameCore b2 b3 → sameCore b1 b3.
Proof. intros (a & c & l & ->) (a' & c' & l' & ->). by exists a', c', l'. Qed.
Lemma sameCore_lim l b : sameCore b (set_lim l b).
Proof. exists b.(audited), b.(caps), l. by destruct b. Qed.
Lemma sameCore_record id m t d w p b : sameCore b (record id m t d w p b).
Proof. exists (record id m t d w p b).(audited), b.(caps), b.(lim). by destruct b. Qed.
Lemma sameCore_cap now id t tok b : sameCore b (capAllows now id t tok b).2.
Proof.
  unfold capAllows. destruct b.(caps); [|apply sameCore_refl]. case_match; [apply sameCore_refl|].
  destruct (Cap.Verify _ _ _ _ _ _) as [r v]. simpl. exists b.(audited), (Some v), b.(lim). by destruct b.
Qed.
Lemma sameCore_inv b b' : sameCore b b' → binv b → binv b'.
Proof. intros (a & c & l & ->). by apply binv_same. Qed.

Lemma retained_inv r x b :
  Z.of_nat (size r) ≤ b.(lm).(MaxRetainedTopics) → binv b → binv (set_retained r x b).
Proof. intros Hr []. by split. Qed.
Lemma dropTopics_inv ts b : binv b → binv (dropTopics ts b).
Proof. apply binv_same; try done. apply map_size_filter. Qed.

Lemma applyRetained_inv now ev b : binv b → binv (applyRetainedLocked now ev b).
Proof.
  intros Hb. unfold applyRetainedLocked. destruct ev.(RetainDel).
  { apply retained_inv; [|done]. pose proof (bi_ret b Hb). rewrite map_size_delete.
    destruct (b.(retained) !! _); simpl; lia. }
  destruct ev.(Retain); [|done]. cbv zeta.
  match goal with |- context [if ?c then sweepExpiredRetainedLocked now b else b] =>
    set (b1 := if c then sweepExpiredRetainedLocked now b else b) end.
  assert (Hb1 : binv b1) by (unfold b1; case_match; [by apply dropTopics_inv|done]).
  pose proof (bi_ret b1 Hb1). destruct (negb _ || negb _) eqn:Hc; [|done].
  apply retained_inv; [|done]. rewrite map_size_insert. destruct (b1.(retained) !! ev.(Topic)); simpl in *; [lia|].
  breflect. lia.
Qed.

(** The stream is not touched. *)
Definition sameStream b b' : Prop :=
  b'.(lm) = b.(lm) ∧ b'.(bseq) = b.(bseq) ∧ b'.(prev) = b.(prev) ∧ b'.(bring) = b.(bring) ∧
  b'.(events) = b.(events).
Lemma sameStream_trans b1 b2 b3 : sameStream b1 b2 → sameStream b2 b3 → sameStream b1 b3.
Proof. unfold sameStream. naive_solver congruence. Qed.
Lemma delivers_stream b b' : delivers b b' → sameStream b b'.
Proof. intros []. unfold sameStream. naive_solver. Qed.
Lemma sameCore_stream b b' : sameCore b b' → sameStream b b'.
Proof. by intros (a & c & l & ->). Qed.

Lemma applyRetained_stream now ev b : sameStream b (applyRetainedLocked now ev b).
Proof. unfold applyRetainedLocked, sameStream. by repeat case_match. Qed.

(** What sealing an event does to the stream; a refused event leaves it, but for a sequence
    number that was taken when the event could not be encoded. *)
Definition emitsAs (io : EvIO) b (r : result busErr Event) b' : Prop :=
  b'.(lm) = b.(lm) ∧
  match r with
  | Ok ev => ev.(Seq) = u64 (b.(bseq) + 1) ∧ ev.(PrevHash) = b.(prev) ∧ chainHash ev = Some ev.(Hash) ∧
      b'.(bseq) = ev.(Seq) ∧ b'.(prev) = ev.(Hash) ∧ b'.(bring) = ringAdd ev b.(bring) ∧
      b'.(events) = (λ l, (append io ev l).2) <$> b.(events)
  | Err _ => (b'.(bseq) = b.(bseq) ∨ b'.(bseq) = u64 (b.(bseq) + 1)) ∧ b'.(prev) = b.(prev) ∧
      b'.(bring) = b.(bring) ∧ b'.(events) = b.(events)
  end.
(** The event a call builds carries the sequence number and the link it is given. *)
Definition linked (mk : Z → string → Event) : Prop :=
  ∀ n p, (mk n p).(Seq) = n ∧ (mk n p).(PrevHash) = p.

Lemma sameStream_emits io b b1 r b' : sameStream b b1 → emitsAs io b1 r b' → emitsAs io b r b'.
Proof. intros (E1 & E2 & E3 & E4 & E5). unfold emitsAs. by rewrite E1, E2, E3, E4, E5. Qed.
Lemma emits_sameStream io b b1 r b' : emitsAs io b r b1 → sameStream b1 b' → emitsAs io b r b'.
Proof. intros He (E1 & E2 & E3 & E4 & E5). unfold emitsAs. by rewrite E1, E2, E3, E4, E5. Qed.
Lemma refused_emits io b b' e : sameStream b b' → emitsAs io b (Err e) b'.
Proof. intros (E1 & E2 & E3 & E4 & E5). unfold emitsAs. rewrite E1, E2, E3, E4, E5. auto. Qed.

Lemma emitLocked_ok env mk b :
  env_ok env → linked mk → binv b →
  ∃ r b', emitLocked env mk b = Some (r, b') ∧ binv b' ∧ emitsAs env.(evIO) b r b'.
Proof.
  intros He Hmk Hb. unfold emitLocked. destruct b.(closed).
  { eexists _, _. split; [done|]. split; [done|]. by apply refused_emits. }
  cbv zeta. set (b1 := set_bseq _ b). assert (Hb1 : binv b1) by by apply (binv_same b).
  destruct (Hmk b1.(bseq) b1.(prev)) as [Hseq Hprev]. set (ev := mk b1.(bseq) b1.(prev)) in *.
  destruct (chainHash ev) as [h|] eqn:Hh.
  2: { eexists _, _. split; [done|]. split; [done|]. split; [done|]. auto. }
  match goal with |- context [applyRetainedLocked ?n ?e ?x] =>
    set (b2 := applyRetainedLocked n e x);
    assert (Hb2 : binv b2) by (by apply applyRetained_inv, (binv_same b1));
    pose proof (applyRetained_stream n e x) as (S1 & S2 & S3 & S4 & S5); fold b2 in S1, S2, S3, S4, S5 end.
  match goal with |- context [fanoutLocked env ?e ?x] =>
    destruct (fanout_ok env e x He) as (b3 & -> & Hb3 & Hd3); [by apply (binv_same b2)|] end.
  cbn [mbind option_bind]. eexists _, _. split; [done|]. split; [done|].
  eapply emits_sameStream; [|by apply delivers_stream].
  split; [exact S1|]. split; [exact Hseq|]. split; [exact Hprev|]. split; [exact Hh|].
  split; [exact (eq_trans S2 (eq_sym Hseq))|]. split; [exact S3|]. split; [exact S4|]. simpl. by rewrite S5.
Qed.

Lemma admitPublish_core env id topic payload o b r b' :
  admitPublish env id topic payload o b = (r, b') → sameCore b b'.
Proof.
  unfold admitPublish. intros Ha. destruct (_ =? _)%string in Ha; [simplify_eq; apply sameCore_refl|].
  destruct (limiterAllow _ _ _ _) as [ok l].
  eapply sameCore_trans; [apply (sameCore_lim l)|]. set (b1 := set_lim l b) in *. clearbody b1.
  match type of Ha with context [match validateTopic topic ?n with _ => _ end] =>
    destruct (validateTopic topic n) end.
  2: { destruct (negb ok); simplify_eq; apply sameCore_refl. }
  destruct (if pAllow _ then _ else _) as [verdict b2] eqn:Hv in Ha.
  assert (Hb2 : sameCore b1 b2).
  { destruct (pAllow _); [simplify_eq; apply sameCore_refl|].
    destruct (pExplicit _); [simplify_eq; apply sameCore_refl|].
    pose proof (sameCore_cap (env.(clock) 5) id topic o.(oCapability) b1) as Hc.
    destruct (capAllows _ _ _ _ _) as [g b3]. by simplify_eq. }
  unfold denyPublish in Ha.
  repeat (case_match; simplify_eq/=; try apply sameCore_refl; try apply sameCore_record; try done).
  all: eapply sameCore_trans; [exact Hb2|apply sameCore_record].
Qed.

Lemma PublishOpts_ok env id topic payload o b :
  env_ok env → binv b →
  ∃ r b', PublishOpts env id topic payload o b = Some (r, b') ∧ binv b' ∧ emitsAs env.(evIO) b r b'.
Proof.
  intros He Hb. unfold PublishOpts.
  destruct (admitPublish env id topic payload o b) as [[[labels why]|e] b1] eqn:Ha;
    apply admitPublish_core in Ha; pose proof (sameCore_inv _ _ Ha Hb) as Hb1; apply sameCore_stream in Ha.
  2: { eexists _, _. split; [done|]. split; [done|]. by apply refused_emits. }
  match goal with |- context [emitLocked env ?mk b1] =>
    destruct (emitLocked_ok env mk b1 He (λ n p, conj eq_refl eq_refl) Hb1) as (r & b2 & -> & Hb2 & Hem) end.
  cbn [mbind option_bind]. eapply sameStream_emits in Hem; [|exact Ha].
  destruct r; eexists _, _; (split; [done|]).
  - split; [by apply (binv_same b2)|]. by eapply emits_sameStream.
  - by split.
Qed.

Lemma emitTrusted_ok env topic payload labels publisher origin r b :
  env_ok env → binv b →
  ∃ res b', emitTrusted env topic payload labels publisher origin r b = Some (res, b') ∧ binv b' ∧
    emitsAs env.(evIO) b res b'.
Proof.
  intros He Hb. unfold emitTrusted.
  assert (Hfail : ∀ e, ∃ res b', Some (Err e, b) = Some (res, b') ∧ binv b' ∧ emitsAs env.(evIO) b res b').
  { intros e. eexists _, _. split; [done|]. split; [done|]. by apply refused_emits. }
  repeat case_match; try apply Hfail. by apply emitLocked_ok.
Qed.

Lemma EmitFederated_ok env topic payload labels publisher origin rt rd ex b :
  env_ok env → binv b →
  ∃ res b', EmitFederated env topic payload labels publisher origin rt rd ex b = Some (res, b') ∧ binv b' ∧
    emitsAs env.(evIO) b res b'.
Proof.
  intros He Hb. unfold EmitFederated. destruct (limiterAllow _ _ _ _) as [ok l].
  assert (Hb1 : binv (set_lim l b)) by by apply (binv_same b).
  assert (Hfail : ∀ e, ∃ res b', Some (Err e, set_lim l b) = Some (res, b') ∧ binv b' ∧ emitsAs env.(evIO) b res b').
  { intros e. eexists _, _. split; [done|]. split; [done|]. by apply refused_emits. }
  destruct (negb ok); [apply Hfail|]. case_match; [apply Hfail|]. exact (emitTrusted_ok _ _ _ _ _ _ _ (set_lim l b) He Hb1).
Qed.

(** The clearance [clr] respects the decision on [t]. *)
Definition clearedBy (a : Authorizer) (id : Identity) (clr : option (gset string)) (t : string) : Prop :=
  let dec := a.(authSubscribe) id t in
  if dec.(sAllow) then dec.(sClearAll) = true ∨ ∃ c, clr = Some c ∧ c ⊆ toSet dec.(sClear)
  else dec.(sExplicit) = false ∧ clr = Some ∅.
Definition narrower (clr clr' : option (gset string)) : Prop :=
  ∀ c, clr = Some c → ∃ c', clr' = Some c' ∧ c' ⊆ c.

Lemma narrower_meet clr set :
  narrower clr (Some (match clr with None => set | Some c => intersect c set end)).
Proof. intros c ->. eexists. split; [done|]. unfold intersect. set_solver. Qed.

Lemma authorizeTopics_core now id token ts clr b r b' :
  authorizeTopics now id token ts clr b = (r, b') → sameCore b b' ∧
  ∀ clr', r = Ok clr' → Forall (clearedBy b.(auth) id clr') ts ∧ narrower clr clr'.
Proof.
  revert clr b. induction ts as [|t ts IH]; intros clr b Ha; simpl in Ha.
  { simplify_eq. split; [apply sameCore_refl|]. intros clr' [= <-]. split; [constructor|]. intros c ->. eauto. }
  destruct (validateTopic t _); [|simplify_eq; split; [apply sameCore_refl|by intros]].
  set (dec := b.(auth).(authSubscribe) id t) in *.
  destruct (if dec.(sAllow) then _ else _) as [verdict b1] eqn:Hv.
  assert (Hb1 : sameCore b b1 ∧ match verdict with
    | None => True
    | Some None => dec.(sAllow) = true ∧ dec.(sClearAll) = true
    | Some (Some set) => dec.(sAllow) = true ∧ set = toSet dec.(sClear) ∨
        dec.(sAllow) = false ∧ dec.(sExplicit) = false ∧ set = ∅ end).
  { destruct dec.(sAllow) eqn:E1.
    { injection Hv as <- <-. split; [apply sameCore_refl|]. destruct dec.(sClearAll) eqn:E2; auto. }
    destruct dec.(sExplicit) eqn:E3; [simplify_eq; by split; [apply sameCore_refl|]|].
    pose proof (sameCore_cap now id t token b) as Hc. destruct (capAllows _ _ _ _ _) as [g b3].
    simplify_eq. split; [done|]. destruct g; auto. }
  destruct Hb1 as [Hb1 Hvd].
  assert (Hauth : b1.(auth) = b.(auth)) by by destruct Hb1 as (? & ? & ? & ->).
  destruct verdict as [[set|]|].
  - apply IH in Ha as [Hc Hr]. split; [by eapply sameCore_trans|]. intros clr' Hok.
    destruct (Hr clr' Hok) as [Hf Hn]. rewrite Hauth in Hf.
    assert (Hset : ∃ c', clr' = Some c' ∧ c' ⊆ set).
    { destruct (Hn _ eq_refl) as (c' & -> & Hsub). exists c'. split; [done|].
      destruct clr; unfold intersect in Hsub; set_solver. }
    split; [|intros c Hcc; destruct (narrower_meet clr set c Hcc) as (c1 & E1 & S1);
      destruct (Hn c1 E1) as (c2 & E2 & S2); exists c2; split; [done|set_solver]].
    constructor; [|done]. unfold clearedBy. fold dec. destruct Hset as (c' & -> & Hsub).
    destruct Hvd as [[-> ->]|(-> & -> & ->)]; [eauto|]. split; [done|]. f_equal. set_solver.
  - apply IH in Ha as [Hc Hr]. split; [by eapply sameCore_trans|]. intros clr' Hok.
    destruct (Hr clr' Hok) as [Hf Hn]. rewrite Hauth in Hf. split; [|done]. constructor; [|done].
    unfold clearedBy. fold dec. destruct Hvd as [-> ->]. by left.
  - simplify_eq. split; [|done]. eapply sameCore_trans; [done|]. apply sameCore_record.
Qed.

Lemma admitSubscribe_core env id o b r b' :
  admitSubscribe env id o b = (r, b') → sameCore b b'.
Proof.
  unfold admitSubscribe. intros Ha. case_match; [simplify_eq; apply sameCore_refl|].
  destruct (limiterAllow _ _ _ _) as [ok l]. eapply sameCore_trans; [apply (sameCore_lim l)|].
  repeat (case_match; [simplify_eq; apply sameCore_refl|]). by apply authorizeTopics_core in Ha as [? _].
Qed.

Lemma deliverEach_ok id s evs b :
  binv b → id ∈ b.(subs) → b.(heap) !! id = Some s → Forall (λ e, accepts s e = true) evs →
  runs b (deliverEach id evs b).
Proof.
  revert s b. induction evs as [|ev evs IH]; intros s b Hb Hin Hs Hf; cbn [deliverEach].
  { exists b. split; [done|]. split; [done|apply delivers_refl]. }
  apply Forall_cons in Hf as [Ha Hf].
  destruct (deliver_ok ev id b Hb) as (b1 & Hr & Hb1 & Hd1 & _); [split; eauto|].
  rewrite Hr. cbn [mbind option_bind].
  destruct (bool_decide_reflect (id ∈ b1.(subs))) as [Hin1|Hin1].
  2: { exists b1. by split_and!. }
  destruct (bi_subs b1 Hb1 id Hin1) as [s1 Hs1].
  destruct (IH s1 b1 Hb1 Hin1 Hs1) as (b2 & Hr2 & Hb2 & Hd2).
  - eapply Forall_impl; [exact Hf|]. intros e He.
    destruct (de_static _ _ Hd1 _ _ _ Hs Hs1) as (T1 & T2 & T3 & _). by rewrite (accepts_static s s1).
  - exists b2. split; [done|]. split; [done|]. by eapply delivers_trans.
Qed.
(** ** Subscribing *)

(** What an admitted subscription satisfies. *)
Lemma admitSubscribe_ok env id o b clr b' :
  admitSubscribe env id o b = (Ok clr, b') →
  id.(Key) ≠ "" ∧ o.(oTopics) ≠ [] ∧ (o.(oAck) = true → o.(oGroup) ≠ "") ∧
  (o.(oGroup) ≠ "" → o.(oSince) ≤ 0) ∧ Forall (clearedBy b.(auth) id clr) o.(oTopics).
Proof.
  unfold admitSubscribe. destruct (String.eqb_spec id.(Key) "") as [|Hk]; [done|].
  destruct (limiterAllow _ _ _ _) as [ok l]. destruct (negb ok); [done|].
  destruct o.(oTopics) as [|t ts] eqn:Ht; [done|]. cbn [head isNone]. intros Ha.
  destruct (_ <? _) in Ha; [done|].
  destruct (negb (o.(oGroup) =? "")%string && match validateTopic _ _ with Ok _ => _ | Err _ => _ end) in Ha;
    [done|].
  destruct (negb (o.(oGroup) =? "")%string && (0 <? o.(oSince))) eqn:Hs; [done|].
  destruct (o.(oAck) && (o.(oGroup) =? "")%string) eqn:Hga; [done|].
  apply authorizeTopics_core in Ha as [_ Ha]. destruct (Ha clr eq_refl) as [Hf _].
  split; [done|]. split; [done|]. split; [|split; [|exact Hf]].
  - intros Hack Hg. rewrite Hack, Hg in Hga. done.
  - intros Hg. apply String.eqb_neq in Hg. rewrite Hg in Hs. simpl in Hs. breflect. lia.
Qed.

Lemma replayTo_ok id s after b :
  binv b → id ∈ b.(subs) → b.(heap) !! id = Some s → runs b (replayTo id s after b).
Proof.
  intros Hb Hin Hs. unfold replayTo. destruct (since after b.(bring)) as [evs trunc].
  destruct (set_sub_inv b id s (set_truncated trunc s) Hb Hs) as [Hb1 Hd1]; [done| |].
  { destruct (bi_heap b Hb _ _ Hs). by split. }
  destruct (deliverEach_ok id (set_truncated trunc s) (List.filter (accepts s) evs)
    (set_sub id (set_truncated trunc s) b)) as (b2 & Hr & Hb2 & Hd2); [done|done| | |].
  - simpl. by rewrite lookup_insert_eq.
  - apply List.Forall_forall. by intros e [_ He]%List.filter_In.
  - exists b2. split; [done|]. split; [done|]. by eapply delivers_trans.
Qed.

(** Delivery, up to the table of retained values. *)
Definition runsOn b (r : option Broker) : Prop :=
  ∃ b', r = Some b' ∧ binv b' ∧ b'.(subs) ⊆ b.(subs) ∧ dom b'.(heap) = dom b.(heap) ∧
    b'.(lm) = b.(lm) ∧ b'.(nextSubID) = b.(nextSubID) ∧ sameStream b b'.

Lemma retainedTo_ok now id s b :
  binv b → id ∈ b.(subs) → b.(heap) !! id = Some s → runsOn b (retainedTo now id s b).
Proof.
  intros Hb Hin Hs. unfold retainedTo. cbv zeta. set (b1 := dropTopics _ b).
  assert (Hb1 : binv b1) by by apply dropTopics_inv.
  destruct (deliverEach_ok id s (sortEvents (List.filter (accepts s) (snd <$> map_to_list b1.(retained)))) b1)
    as (b2 & Hr & Hb2 & Hd2); [done..| |].
  - unfold sortEvents. rewrite (merge_sort_Permutation seqLe). apply List.Forall_forall.
    by intros e [_ He]%List.filter_In.
  - exists b2. pose proof (delivers_stream _ _ Hd2). destruct Hd2. by split_and!.
Qed.

Lemma fresh_id b : binv b → b.(nextSubID) + 1 < 2 ^ 64 →
  u64 (b.(nextSubID) + 1) = b.(nextSubID) + 1 ∧ b.(heap) !! (b.(nextSubID) + 1) = None.
Proof.
  intros Hb Hlt. pose proof (bi_next b Hb). split; [unfold u64; by rewrite Z.mod_small by lia|].
  apply eq_None_not_Some. intros Hx%(bi_ids b Hb). lia.
Qed.

(** A fresh subscription joins. *)
Definition moreN s (gn : gmap string Z) : gmap string Z :=
  if (s.(group) =? "")%string then gn else <[s.(group) := default 0 (gn !! s.(group)) + 1]> gn.
Definition moreP s (pp : gmap string Z) : gmap string Z :=
  <[keyOf s := default 0 (pp !! keyOf s) + 1]> pp.

Lemma register_inv b s :
  binv b → b.(nextSubID) + 1 < 2 ^ 64 → sub_ok b.(lm).(SubQueue) true s → authorized b.(auth) s →
  Z.of_nat (size b.(subs)) < b.(lm).(MaxSubs) →
  default 0 (b.(perPeer) !! keyOf s) < b.(lm).(MaxSubsPerPeer) →
  binv (set_sub (b.(nextSubID) + 1) s (set_members ({[b.(nextSubID) + 1]} ∪ b.(subs))
    (moreP s b.(perPeer)) (moreN s b.(groupN)) (set_nextSubID (b.(nextSubID) + 1) b))).
Proof.
  intros Hb Hlt Hok Hau Hmax Hpeer. destruct (fresh_id b Hb Hlt) as [_ Hfresh].
  destruct Hb as [Hc Hh Hs Hi Hn Ha Hp Hg Hm Hpm Hr].
  set (sid := b.(nextSubID) + 1) in *.
  assert (Hnin : sid ∉ b.(subs)). { intros Hx%Hs. rewrite Hfresh in Hx. by destruct Hx. }
  split; simpl; try done; try lia.
  - intros id x. rewrite lookup_insert_Some. intros [[<- <-]|[Hne Hx]].
    + rewrite bool_decide_eq_true_2 by set_solver. done.
    + rewrite (bool_decide_ext _ (id ∈ b.(subs))) by set_solver. auto.
  - intros id Hin. destruct (decide (id = sid)) as [->|Hne]; [rewrite lookup_insert_eq; eauto|].
    rewrite lookup_insert_ne by done. apply Hs. set_solver.
  - intros id. destruct (decide (id = sid)) as [->|Hne]; [lia|].
    rewrite lookup_insert_ne by done. intros Hx%Hi. lia.
  - intros id x. rewrite lookup_insert_Some. intros [[<- <-]|[Hne Hx]]; eauto.
  - intros k. rewrite countBy_add by done. unfold moreP. case_decide as Hk.
    + rewrite <- Hk, lookup_insert_eq. simpl. rewrite Hp. lia.
    + rewrite lookup_insert_ne by done. rewrite Hp. lia.
  - intros g Hg'. rewrite countBy_add by done. unfold moreN. destruct (String.eqb_spec s.(group) "") as [E|E].
    + rewrite decide_False by congruence. rewrite Hg by done. lia.
    + case_decide as Hk; [rewrite Hk, lookup_insert_eq; simpl|rewrite lookup_insert_ne by done];
        rewrite Hg by done; lia.
  - rewrite size_union, size_singleton by set_solver. lia.
  - intros k. rewrite countBy_add by done. specialize (Hpm k). case_decide as Hk; [|lia].
    rewrite <- Hk. rewrite Hp in Hpeer. lia.
Qed.

Lemma optional_runsOn b (c : bool) (f : Broker → option Broker) :
  binv b → (c = true → runsOn b (f b)) → runsOn b (if c then f b else Some b).
Proof. intros Hb Hf. destruct c; [auto|]. exists b. by split_and!. Qed.
Lemma runs_runsOn b r : runs b r → runsOn b r.
Proof. intros (b' & -> & Hb & Hd). exists b'. pose proof (delivers_stream _ _ Hd). destruct Hd. by split_and!. Qed.
Lemma drain_runsOn name b : binv b → runsOn b (drainGroupPendingLocked name b).
Proof. intros Hb. destruct (drain_ok name b Hb) as (b' & Hr & Hb' & Hd & _). apply runs_runsOn. by exists b'. Qed.

(** The deliveries a new subscription starts with. *)
Definition subscribeDeliveries env (o : SubOptions) sid s b : option Broker :=
  b ← (if 0 <? o.(oSince) then replayTo sid s o.(oSince) b else Some b);
  b ← (if (o.(oSince) =? 0) && (o.(oGroup) =? "")%string
       then retainedTo (env.(clock) 2) sid s b else Some b);
  if o.(oAck) then drainGroupPendingLocked o.(oGroup) b else Some b.

Lemma subscribe_deliveries env o sid s b :
  binv b → sid ∈ b.(subs) → b.(heap) !! sid = Some s →
  ∃ b', subscribeDeliveries env o sid s b = Some b' ∧ binv b' ∧ dom b'.(heap) = dom b.(heap) ∧
    sameStream b b'.
Proof.
  intros Hb Hin Hs. unfold subscribeDeliveries.
  assert (H1' : ∃ b1, (if 0 <? o.(oSince) then replayTo sid s o.(oSince) b else Some b) = Some b1 ∧
    binv b1 ∧ dom b1.(heap) = dom b.(heap) ∧ sameStream b b1 ∧ (o.(oSince) = 0 → b1 = b)).
  { destruct (Z.ltb_spec 0 o.(oSince)); [|by exists b].
    destruct (replayTo_ok sid s o.(oSince) b) as (b1 & Hr & Hb1 & Hd); [done..|].
    exists b1. pose proof (delivers_stream _ _ Hd). destruct Hd. split_and!; try done. lia. }
  destruct H1' as (b1 & -> & Hb1 & Hd1 & Hs1 & Heq). cbn [mbind option_bind].
  assert (H2' : runsOn b1 (if (o.(oSince) =? 0) && (o.(oGroup) =? "")%string
       then retainedTo (env.(clock) 2) sid s b1 else Some b1)).
  { apply optional_runsOn; [done|]. intros Hc. breflect. rewrite Heq by done. by apply retainedTo_ok. }
  destruct H2' as (b2 & -> & Hb2 & _ & Hd2 & _ & _ & Hs2). cbn [mbind option_bind].
  destruct (optional_runsOn b2 o.(oAck) (drainGroupPendingLocked o.(oGroup)) Hb2)
    as (b3 & -> & Hb3 & _ & Hd3 & _ & _ & Hs3); [by intros _; apply drain_runsOn|].
  exists b3. split; [done|]. split; [done|]. split; [congruence|].
  eapply sameStream_trans; [exact Hs1|]. by eapply sameStream_trans.
Qed.

Lemma clearance_authorized a clr s :
  s.(clearAll) = isNone clr → s.(clear) = default ∅ clr →
  Forall (clearedBy a s.(ident) clr) s.(topics) → authorized a s.
Proof.
  intros E1 E2 Hf. eapply Forall_impl; [exact Hf|]. intros t. unfold clearedBy, topicCleared.
  rewrite E1, E2. case_match; [|by intros [? ->]]. intros [?|(c & -> & Hc)]; [by left|by right].
Qed.

(** A run that fails without registering anything. *)
Ltac refused := eexists _, _; split; [reflexivity|]; split; [done|]; split; [by apply sameCore_stream|]; intros ? [=].

Lemma Subscribe_ok env id o b :
  binv b → b.(nextSubID) + 1 < 2 ^ 64 →
  ∃ r b', Subscribe env id o b = Some (r, b') ∧ binv b' ∧ sameStream b b' ∧
    (∀ sid, r = Ok sid → b.(heap) !! sid = None ∧ is_Some (b'.(heap) !! sid)).
Proof.
  intros Hb Hlt. unfold Subscribe.
  destruct (admitSubscribe env id o b) as [[clr|e] b1] eqn:Ha.
  all: pose proof (admitSubscribe_core _ _ _ _ _ _ Ha) as Hcore;
    pose proof (sameCore_inv _ _ Hcore Hb) as Hb1.
  2: refused.
  apply admitSubscribe_ok in Ha as (Hk & Ht & Hack & Hsince & Hcl).
  destruct b1.(closed); [refused|]. destruct (Z.leb_spec b1.(lm).(MaxSubs) (Z.of_nat (size b1.(subs)))) as [|Hmax]; [refused|].
  destruct (Z.leb_spec b1.(lm).(MaxSubsPerPeer) (default 0 (b1.(perPeer) !! id.(Key)))) as [|Hpeer]; [refused|].
  assert (Heq : b1.(nextSubID) = b.(nextSubID) ∧ b1.(heap) = b.(heap) ∧ b1.(auth) = b.(auth))
    by by destruct Hcore as (? & ? & ? & ->).
  destruct Heq as (Hnext & Hheap & Hauth). rewrite <- Hnext in Hlt.
  destruct (fresh_id b1 Hb1 Hlt) as [-> Hfresh]. cbv zeta.
  match goal with |- context [set_sub _ ?x (set_members _ ?p ?g _)] => set (s := x) end.
  pose proof (register_inv b1 s Hb1 Hlt) as Hb2. set (sid := b1.(nextSubID) + 1) in *.
  match goal with |- context [set_sub sid s ?x] => set (b2 := set_sub sid s x) in * end.
  assert (Hbi : binv b2).
  { apply Hb2; [| |done|done].
    - pose proof (bi_cap b1 Hb1). split; simpl; try done; try lia.
      + intros m Hm. destruct o.(oAck); simplify_eq. split; [apply map_Forall_empty|]. rewrite map_size_empty. lia.
      + intros _ ->. eauto.
      + by intros ->.
    - rewrite Hauth. by apply (clearance_authorized _ clr). }
  clear Hb2.
  destruct (subscribe_deliveries env o sid s b2 Hbi) as (b3 & Hr & Hb3 & Hd3 & Hs3).
  { simpl; set_solver. } { simpl. by rewrite lookup_insert_eq. }
  revert Hr. unfold subscribeDeliveries.
  destruct (if 0 <? o.(oSince) then _ else _) as [x1|]; cbn [mbind option_bind]; [|done].
  destruct (if _ && _ then _ else _) as [x2|]; cbn [mbind option_bind]; [|done].
  intros ->. cbn [mbind option_bind]. eexists _, _. split; [reflexivity|]. split; [by apply (binv_same b3)|]. split.
  { eapply sameStream_trans; [by apply sameCore_stream|]. exact Hs3. }
  intros ? [= <-]. split; [by rewrite <- Hheap|]. apply elem_of_dom. simpl. rewrite Hd3. simpl. set_solver.
Qed.

(** ** The rest of the interface *)

Lemma Ack_ok id seq b : binv b → is_Some (b.(heap) !! id) → runs b (Ack id seq b).
Proof.
  intros Hb [s Hs]. unfold Ack. rewrite Hs. cbn [mbind option_bind]. cbv zeta.
  destruct (set_sub_inv b id s (set_inflight (delete seq <$> s.(inflight)) s) Hb Hs) as [Hb1 Hd1]; [done| |].
  - destruct (bi_heap b Hb _ _ Hs) as [Hch Hlen Hfl Hop Hack Hg Hp]. split; simpl; try done.
    + intros m. rewrite fmap_Some. intros (m0 & Hm & ->). destruct (Hfl _ Hm) as [Hall Hsz].
      split; [by apply map_Forall_delete|]. rewrite map_size_delete. destruct (m0 !! seq); simpl; lia.
    + intros Hr Ha. by rewrite fmap_is_Some; auto.
    + intros Ha. by rewrite Hp.
  - destruct (drain_ok s.(group) _ Hb1) as (b2 & Hr & Hb2 & Hd2 & _).
    exists b2. split; [done|]. split; [done|]. by eapply delivers_trans.
Qed.

Lemma Unsubscribe_ok id b : binv b → is_Some (b.(heap) !! id) → runs b (Unsubscribe id b).
Proof. intros Hb Hs. destruct (closeSub_ok id b Hb Hs) as (b' & Hr & Hb' & Hd & _). by exists b'. Qed.

Lemma Recv_ok id b : binv b → is_Some (b.(heap) !! id) →
  ∃ e b', Recv id b = Some (e, b') ∧ binv b' ∧ delivers b b' ∧
    ∀ ev s, e = Some ev → b.(heap) !! id = Some s → accepts s ev = true.
Proof.
  intros Hb [s Hs]. unfold Recv. rewrite Hs. cbn [mbind option_bind].
  pose proof (bi_heap b Hb _ _ Hs) as [Hch Hlen Hfl Hop Hack Hg Hp].
  destruct s.(ch) as [|ev l] eqn:Hc.
  { exists None, b. split; [done|]. split; [done|]. split; [apply delivers_refl|done]. }
  apply Forall_cons in Hch as [Hev Hl].
  destruct (set_sub_inv b id s (set_ch l s) Hb Hs) as [Hb1 Hd1]; [done| |].
  - split; simpl; try done. simpl in Hlen. lia.
  - eexists _, _. split; [done|]. split; [done|]. split; [done|]. intros ? ? [= <-] [= <-]. done.
Qed.

Lemma Close_inv b : binv b → binv (Close b).
Proof.
  intros Hb. unfold Close. destruct b.(closed); [done|]. destruct Hb as [Hc Hh Hs Hi Hn Ha Hp Hg Hm Hpm Hr].
  split; try done.
  - intros id s. simpl. rewrite map_lookup_imap, bind_Some. intros (s0 & Hs0 & [= <-]).
    pose proof (Hh _ _ Hs0) as Hok. case_bool_decide; [by eapply sub_ok_closed|by eapply sub_ok_unregister].
  - intros id [s Hx]. simpl in Hx. rewrite map_lookup_imap, bind_Some in Hx. destruct Hx as (s0 & Hs0 & _). eauto.
  - intros id s. simpl. rewrite map_lookup_imap, bind_Some. intros (s0 & Hs0 & [= <-]).
    specialize (Ha id s0 Hs0). by case_bool_decide.
  - simpl subs. rewrite size_empty. simpl. lia.
  - intros k. simpl. rewrite countBy_empty. specialize (Hpm k).
    pose proof (countBy_nonneg keyOf b.(heap) b.(subs) k). lia.
  - simpl retained. rewrite map_size_empty. simpl. lia.
Qed.

Lemma positiveOr_pos n d : 0 < d → 0 < positiveOr n d.
Proof. unfold positiveOr. destruct (Z.leb_spec n 0); lia. Qed.

Lemma New_inv now (o : Options (N := N)) : binv (New now o).
Proof.
  assert (Hfold : ∀ evs b, binv b → binv (fold_left (λ b ev, if ev.(Retain) || ev.(RetainDel)
    then applyRetainedLocked now ev b else b) evs b)).
  { induction evs as [|ev evs IH]; intros b Hb; [done|]. apply IH. case_match; [by apply applyRetained_inv|done]. }
  unfold New. cbv zeta. match goal with |- binv (match _ with Some _ => _ | None => ?x end) => assert (Hx : binv x) end.
  { pose proof (positiveOr_pos o.(Limits_).(MaxSubs) 1024 ltac:(lia)).
    pose proof (positiveOr_pos o.(Limits_).(MaxSubsPerPeer) 128 ltac:(lia)).
    pose proof (positiveOr_pos o.(Limits_).(MaxRetainedTopics) 4096 ltac:(lia)).
    split; try done; cbn [lm subs heap retained nextSubID].
    - by apply positiveOr_pos.
    - by intros id [? ?].
    - rewrite size_empty. simpl. lia.
    - intros k. rewrite countBy_empty. simpl. lia.
    - rewrite map_size_empty. simpl. lia. }
  destruct (list.last _) as [e|]; [|done].
  match goal with |- binv (sweepExpiredRetainedLocked _ ?y) => assert (Hy : binv y) end.
  { apply Hfold. by eapply binv_same; [..|exact Hx]. }
  by apply dropTopics_inv.
Qed.
End BrokerProofs.
End BrkInv.
