(* ===== verification/BrokerThm.v ===== *)
(** * BrokerThm: what the broker promises

    Runs of the broker as sequences of calls, and the theorems about every reachable state:
    no call panics, taint is contained, the resource caps hold, the stream is a verified
    chain whose tail the ring holds, a restart from the event log continues it, and an
    at-least-once group keeps its un-acked work when a member leaves. *)
From stdpp Require Import base list strings gmap sorting.
From Stdlib Require Import ZArith Lia Ascii.
From S2P Require Import Prelude GoStd Json JsonText JsonCodec Crypto Policy Engine Capability Checkpoint Ledger Sealed PubSub EventLog Broker BrokerInv.
Open Scope Z_scope.
Open Scope mesh_scope.

Module BrkThm.
Import Bus EvLog Brk BrkInv.

Section Runs.
Context `{Float64} `{Ed25519} `{SHA256Laws} `{Cap.CapCodec} {N : Type} `{NonceStore N} `{TimeText}.
Implicit Types b : Broker (N := N).

(** ** Runs *)

(** A call of the broker's interface, or a reader that takes an event from its channel. *)
Inductive op :=
| OpPublish (env : Env) (id : Identity) (topic payload : string) (o : PublishOptions)
| OpEmit (env : Env) (source topic payload : string) (labels : list string)
| OpFederated (env : Env) (topic payload : string) (labels : list string)
    (publisher origin : string) (retain retainDel : bool) (expiresAt : string)
| OpSubscribe (env : Env) (id : Identity) (o : SubOptions)
| OpUnsubscribe (id : Z)
| OpAck (id seq : Z)
| OpRecv (id : Z)
| OpClose.

Definition okEvent (r : result busErr Event) : option Event :=
  match r with Ok ev => Some ev | Err _ => None end.

(** The event the call adds to the stream, if any; [None]: a panic. *)
Definition exec (c : op) b : option (option Event * Broker) :=
  match c with
  | OpPublish env id topic payload o =>
      '(r, b) ← PublishOpts env id topic payload o b; Some (okEvent r, b)
  | OpEmit env source topic payload labels =>
      '(r, b) ← EmitInternal env source topic payload labels b; Some (okEvent r, b)
  | OpFederated env topic payload labels publisher origin rt rd ex =>
      '(r, b) ← EmitFederated env topic payload labels publisher origin rt rd ex b; Some (okEvent r, b)
  | OpSubscribe env id o => '(_, b) ← Subscribe env id o b; Some (None, b)
  | OpUnsubscribe id => b ← Unsubscribe id b; Some (None, b)
  | OpAck id seq => b ← Ack id seq b; Some (None, b)
  | OpRecv id => '(_, b) ← Recv id b; Some (None, b)
  | OpClose => Some (None, Close b)
  end.

Definition opEnv (c : op) : option Env :=
  match c with
  | OpPublish env _ _ _ _ | OpEmit env _ _ _ _ | OpFederated env _ _ _ _ _ _ _ _
  | OpSubscribe env _ _ => Some env
  | _ => None
  end.

(** A call is made with subscriptions the broker returned, the runtime ranges over whole
    maps, and the 64-bit counters are not exhausted. *)
Definition op_ok b (c : op) : Prop :=
  b.(bseq) + 1 < 2 ^ 64 ∧ b.(nextSubID) + 1 < 2 ^ 64 ∧
  (∀ env, opEnv c = Some env → env_ok env) ∧
  match c with
  | OpUnsubscribe id | OpAck id _ | OpRecv id => is_Some (b.(heap) !! id)
  | _ => True
  end.

(** [reach b0 cs hist b]: the calls [cs] lead from [b0] to [b] and published [hist]. *)
Inductive reach b0 : list op → list Event → Broker → Prop :=
| reach_new : reach b0 [] [] b0
| reach_call cs hist b c e b' :
    reach b0 cs hist b → op_ok b c → exec c b = Some (e, b') →
    reach b0 (cs ++ [c]) (hist ++ option_list e) b'.

(** The stream after a call. *)
Definition streamStep (c : op) b (e : option Event) b' : Prop :=
  match e with
  | Some ev => ∃ env, opEnv c = Some env ∧ emitsAs env.(evIO) b (Ok ev) b'
  | None => b'.(lm) = b.(lm) ∧ (b'.(bseq) = b.(bseq) ∨ b'.(bseq) = u64 (b.(bseq) + 1)) ∧
      b'.(prev) = b.(prev) ∧ b'.(bring) = b.(bring) ∧ b'.(events) = b.(events)
  end.
Lemma emits_streamStep c env b r b' :
  opEnv c = Some env → emitsAs env.(evIO) b r b' → streamStep c b (okEvent r) b'.
Proof. intros He Hr. destruct r; simpl; [eauto|]. destruct Hr. naive_solver. Qed.
Lemma sameStream_step c b b' : sameStream b b' → streamStep c b None b'.
Proof. intros (?&?&?&?&?). simpl. auto. Qed.

Lemma exec_ok c b :
  binv b → op_ok b c → ∃ e b', exec c b = Some (e, b') ∧ binv b' ∧ streamStep c b e b'.
Proof.
  intros Hb (Hseq & Hid & Henv & Hc).
  destruct c; cbn [exec opEnv] in *; try specialize (Henv _ eq_refl).
  - destruct (PublishOpts_ok env id topic payload o b Henv Hb) as (r & b' & -> & Hb' & Hs).
    eexists _, _. split; [done|]. split; [done|]. by eapply emits_streamStep.
  - destruct (emitTrusted_ok env topic payload labels source "" (mkRetain false false "") b Henv Hb)
      as (r & b' & Hr & Hb' & Hs). unfold EmitInternal. rewrite Hr.
    eexists _, _. split; [done|]. split; [done|]. by eapply emits_streamStep.
  - destruct (EmitFederated_ok env topic payload labels publisher origin retain retainDel expiresAt b Henv Hb)
      as (r & b' & -> & Hb' & Hs).
    eexists _, _. split; [done|]. split; [done|]. by eapply emits_streamStep.
  - destruct (Subscribe_ok env id o b Hb Hid) as (r & b' & -> & Hb' & Hs & _).
    eexists _, _. split; [done|]. split; [done|]. by apply sameStream_step.
  - destruct (Unsubscribe_ok id b Hb Hc) as (b' & -> & Hb' & Hd).
    eexists _, _. split; [done|]. split; [done|]. by apply sameStream_step, delivers_stream.
  - destruct (Ack_ok id seq b Hb Hc) as (b' & -> & Hb' & Hd).
    eexists _, _. split; [done|]. split; [done|]. by apply sameStream_step, delivers_stream.
  - destruct (Recv_ok id b Hb Hc) as (e & b' & -> & Hb' & Hd & _).
    eexists _, _. split; [done|]. split; [done|]. by apply sameStream_step, delivers_stream.
  - eexists _, _. split; [done|]. split; [by apply Close_inv|]. apply sameStream_step.
    unfold Close, sameStream. by destruct b.(closed).
Qed.

Lemma reach_inv b0 cs hist b : binv b0 → reach b0 cs hist b → binv b.
Proof.
  intros Hb0. induction 1 as [|cs hist b c e b' _ IH Hok Hx]; [done|].
  destruct (exec_ok c b IH Hok) as (? & ? & Hx' & Hb' & _). by rewrite Hx in Hx'; simplify_eq.
Qed.

(** C27. No call panics: from every state a broker reaches, every call returns. In particular
    the broker never sends on a closed channel, never writes to a nil in-flight map and
    never loses a subscription it has registered. *)
Theorem broker_never_panics now (o : Options (N := N)) cs hist b c :
  reach (New now o) cs hist b → op_ok b c → ∃ e b', exec c b = Some (e, b').
Proof.
  intros Hr Hok. destruct (exec_ok c b (reach_inv _ _ _ _ (New_inv now o) Hr) Hok) as (e & b' & Hx & _).
  eauto.
Qed.

(** Buffered or in flight for a subscription. *)
Definition holds s (ev : Event) : Prop :=
  ev ∈ s.(ch) ∨ ∃ m, s.(inflight) = Some m ∧ ∃ n, m !! n = Some ev.

Lemma holds_accepts cap r s ev : sub_ok cap r s → holds s ev → accepts s ev = true.
Proof.
  intros [Hch Hlen Hfl Hop Hack Hg Hp] [Hin|(m & Hm & n & Hn)].
  - rewrite Forall_forall in Hch. auto.
  - destruct (Hfl m Hm) as [Hall _]. by apply Hall in Hn as [? _].
Qed.

Lemma accepts_spec s ev : accepts s ev = true ↔
  matchGlob s.(topics) ev.(Topic) = true ∧ (s.(clearAll) = true ∨ ∀ l, l ∈ ev.(Labels) → l ∈ s.(clear)).
Proof.
  unfold accepts. rewrite andb_true_iff, orb_true_iff, forallb_forall.
  setoid_rewrite bool_decide_eq_true. setoid_rewrite <- list_elem_of_In. done.
Qed.


(** C31. The caps hold in every reachable state: buffers and in-flight sets per subscription,
    subscriptions in total and per peer, retained topics; and the two tables of counters are
    exact, so that a slot is freed when its subscription ends and only then. *)
Theorem broker_is_bounded now (o : Options (N := N)) cs hist b :
  reach (New now o) cs hist b →
  (∀ id s, b.(heap) !! id = Some s →
    Z.of_nat (length s.(ch)) ≤ b.(lm).(SubQueue) ∧
    ∀ m, s.(inflight) = Some m → Z.of_nat (size m) ≤ b.(lm).(SubQueue)) ∧
  Z.of_nat (SubCount b) ≤ b.(lm).(MaxSubs) ∧
  (∀ k, default 0 (b.(perPeer) !! k) = countBy keyOf b.(heap) b.(subs) k ∧
        countBy keyOf b.(heap) b.(subs) k ≤ b.(lm).(MaxSubsPerPeer)) ∧
  (∀ g, g ≠ "" → default 0 (b.(groupN) !! g) = countBy group b.(heap) b.(subs) g) ∧
  Z.of_nat (size b.(retained)) ≤ b.(lm).(MaxRetainedTopics).
Proof.
  intros Hr. pose proof (reach_inv _ _ _ _ (New_inv now o) Hr) as [Hc Hh Hs Hi Hn Ha Hp Hg Hm Hpm Hrt].
  split_and!; auto. intros id s Hx. destruct (Hh _ _ Hx). split; [done|]. intros m Hm'.
  by destruct (so_flight0 m Hm').
Qed.

(** ** The stream *)

Lemma lastn_idem {A} n (l : list A) : lastn n (lastn n l) = lastn n l.
Proof. rewrite (lastn_all n (lastn n l)); [done|]. unfold lastn. rewrite length_drop. lia. Qed.

Lemma withDefaults_retain l : 0 ≤ (withDefaults l).(LRetain).
Proof.
  simpl. destruct (Z.ltb_spec l.(LRetain) 0); [lia|]. destruct (l.(LRetain) =? 0) eqn:E; [lia|done].
Qed.

Lemma seedRetained_stream now evs b :
  sameStream b (fold_left (λ b ev, if ev.(Retain) || ev.(RetainDel)
    then applyRetainedLocked now ev b else b) evs b).
Proof.
  revert b. induction evs as [|ev evs IH]; intros b; [done|]. simpl. eapply sameStream_trans; [|apply IH].
  case_match; [apply applyRetained_stream|done].
Qed.

(** A broker starts with the seed as its stream. *)
Lemma New_stream now (o : Options (N := N)) :
  let b := New now o in
  b.(lm) = withDefaults o.(Limits_) ∧ b.(events) = o.(Events_) ∧
  b.(bseq) = headSeq o.(Seed) ∧ b.(prev) = headHash o.(Seed) ∧ ring_wf b.(bring) ∧
  b.(bring).(rcap) = Z.to_nat b.(lm).(LRetain) ∧
  snapshot b.(bring) = lastn (Z.to_nat b.(lm).(LRetain)) o.(Seed).
Proof.
  cbv zeta. unfold New, headSeq, headHash. cbv zeta. pose proof (withDefaults_retain o.(Limits_)) as Hret.
  set (cap := (withDefaults o.(Limits_)).(LRetain)) in *. destruct (newRing_wf cap) as [Hwf Hemp].
  assert (Hcap : (newRing cap).(rcap) = Z.to_nat cap).
  { unfold newRing. simpl. destruct (Z.ltb_spec cap 0); [lia|done]. }
  destruct (list.last o.(Seed)) as [e|] eqn:Hl.
  2: { apply last_None in Hl. rewrite Hl. unfold lastn. by rewrite drop_nil. }
  match goal with |- context [fold_left ?f ?l ?x] =>
    destruct (seedRetained_stream now l x) as (E1 & E2 & E3 & E4 & E5); set (b1 := fold_left f l x) in * end.
  change (sweepExpiredRetainedLocked now b1).(lm) with b1.(lm).
  change (sweepExpiredRetainedLocked now b1).(events) with b1.(events).
  change (sweepExpiredRetainedLocked now b1).(bseq) with b1.(bseq).
  change (sweepExpiredRetainedLocked now b1).(prev) with b1.(prev).
  change (sweepExpiredRetainedLocked now b1).(bring) with b1.(bring).
  rewrite E1, E2, E3, E4, E5. cbn [lm events bseq prev bring set_sealed set_bseq from_option]. fold cap.
  destruct (addAll_spec (drop (if cap <? Z.of_nat (length o.(Seed))
    then Z.to_nat (Z.of_nat (length o.(Seed)) - cap) else 0%nat) o.(Seed)) _ Hwf) as (Hw & Hc & Hs).
  split_and!; try done; [by rewrite Hc|]. rewrite Hs, Hemp, Hcap. simpl app.
  rewrite <- (lastn_idem (Z.to_nat cap) o.(Seed)). f_equal. unfold lastn at 1. f_equal.
  destruct (Z.ltb_spec cap (Z.of_nat (length o.(Seed)))); lia.
Qed.

(** The stream of a broker: the seed and what it has published since. *)
Record streamInv (seed hist : list Event) b : Prop := {
  si_chain : VerifyChain (seed ++ hist) = Ok tt;
  si_prev : b.(prev) = headHash (seed ++ hist);
  si_seq : headSeq (seed ++ hist) ≤ b.(bseq);
  si_u64 : is_u64 b.(bseq);
  si_wf : ring_wf b.(bring);
  si_cap : b.(bring).(rcap) = Z.to_nat b.(lm).(LRetain);
  si_ring : snapshot b.(bring) = lastn (Z.to_nat b.(lm).(LRetain)) (seed ++ hist)
}.

Lemma streamInv_step seed hist c b e b' :
  streamInv seed hist b → b.(bseq) + 1 < 2 ^ 64 → streamStep c b e b' →
  streamInv seed (hist ++ option_list e) b'.
Proof.
  intros [Hch Hp Hs Hu Hw Hc Hr] Hlt Hst. unfold is_u64 in Hu.
  assert (Hnext : u64 (b.(bseq) + 1) = b.(bseq) + 1) by (unfold u64; by rewrite Z.mod_small by lia).
  destruct e as [ev|]; simpl in Hst.
  - destruct Hst as (env & _ & Hlm & E1 & E2 & E3 & E4 & E5 & E6 & _). rewrite Hnext in E1.
    change (option_list (Some ev)) with [ev]. split; rewrite ?app_assoc; unfold headHash, headSeq in *.
    + apply VerifyChain_snoc; [done|]. unfold sealedAfter, headHash, headSeq. split; [congruence|].
      split; [done|]. lia.
    + by rewrite last_snoc.
    + rewrite last_snoc. simpl. lia.
    + rewrite E4, E1. unfold is_u64. lia.
    + rewrite E6. by apply ringAdd_wf.
    + by rewrite E6, ringAdd_cap, Hlm.
    + rewrite E6, Hlm, snapshot_add by done. by rewrite Hr, Hc, lastn_app.
  - destruct Hst as (Hlm & Hsq & E1 & E2 & E3). change (option_list None) with (@nil Event). rewrite app_nil_r.
    split; rewrite ?E1, ?E2, ?Hlm; try done.
    + destruct Hsq as [->| ->]; lia.
    + unfold is_u64. destruct Hsq as [->| ->]; lia.
Qed.

Lemma reach_stream now (o : Options (N := N)) cs hist b :
  VerifyChain o.(Seed) = Ok tt → is_u64 (headSeq o.(Seed)) →
  reach (New now o) cs hist b → streamInv o.(Seed) hist b ∧ b.(lm) = withDefaults o.(Limits_).
Proof.
  intros Hv Hu. induction 1 as [|cs hist b c e b' Hr IH Hok Hx].
  { destruct (New_stream now o) as (E1 & E2 & E3 & E4 & E5 & E6 & E7). split; [|done].
    split; rewrite ?app_nil_r; try done; rewrite E3; done. }
  destruct (exec_ok c b (reach_inv _ _ _ _ (New_inv now o) Hr) Hok) as (e1 & b1 & Hx' & Hb' & Hst).
  rewrite Hx in Hx'. injection Hx' as <- <-. destruct IH as [IH Hlm]. split.
  - eapply streamInv_step; [done|apply Hok|done].
  - destruct e; simpl in Hst; [destruct Hst as (? & _ & ? & _)|destruct Hst as [? _]]; congruence.
Qed.

(** C26. The stream of a broker, what it was seeded with and what it has published since, is
    one chain that [VerifyChain] accepts; the broker's link is its last hash and its
    retention ring is exactly its last [Retain] events. *)
Theorem stream_is_sealed now (o : Options (N := N)) cs hist b :
  VerifyChain o.(Seed) = Ok tt → is_u64 (headSeq o.(Seed)) →
  reach (New now o) cs hist b →
  VerifyChain (o.(Seed) ++ hist) = Ok tt ∧ b.(prev) = headHash (o.(Seed) ++ hist) ∧
  Retained b = lastn (Z.to_nat (withDefaults o.(Limits_)).(LRetain)) (o.(Seed) ++ hist).
Proof.
  intros Hv Hu Hr. destruct (reach_stream now o cs hist b Hv Hu Hr) as [[] Hlm]. rewrite <- Hlm. done.
Qed.

(** Calls whose event-log write does not fail. *)
Definition cleanIO (c : op) : Prop := ∀ env, opEnv c = Some env → env.(evIO).(evErr) = None.

Lemma marshal_of_hash ev h : chainHash ev = Some h → ∃ t, marshalEvent ev = Some t.
Proof. unfold chainHash, marshalEvent. simpl. case_match; [done|eauto]. Qed.

Lemma reach_disk now (o : Options (N := N)) cs hist b log :
  o.(Events_) = Some log → Forall cleanIO cs → reach (New now o) cs hist b →
  ∃ log', b.(events) = Some log' ∧ log'.(elDisk) = log.(elDisk) +:+ streamText hist.
Proof.
  intros Hlog Hclean. induction 1 as [|cs hist b c e b' Hr IH Hok Hx].
  { exists log. destruct (New_stream now o) as (_ & -> & _). split; [done|].
    unfold streamText. simpl. by rewrite Chain.append_nil_r. }
  apply Forall_app in Hclean as [Hcl Hc]. apply Forall_inv in Hc. destruct (IH Hcl) as (l1 & Hl1 & Hd1).
  destruct (exec_ok c b (reach_inv _ _ _ _ (New_inv now o) Hr) Hok) as (e1 & b1 & Hx' & Hb' & Hst).
  rewrite Hx in Hx'. injection Hx' as <- <-. destruct e as [ev|]; simpl in Hst;
    [change (option_list (Some ev)) with [ev]|change (option_list None) with (@nil Event)].
  - destruct Hst as (env & Henv & _ & _ & _ & Hh & _ & _ & _ & He).
    apply marshal_of_hash in Hh as [t Ht]. rewrite He, Hl1. eexists. split; [done|].
    rewrite (proj2 (append_ok env.(evIO) ev l1 t Ht (Hc env Henv))), Hd1, streamText_app.
    unfold streamText at 3. simpl. by rewrite Chain.append_nil_r, append_assoc_s.
  - destruct Hst as (_ & _ & _ & _ & ->). rewrite app_nil_r. eauto.
Qed.

(** A restart continues the stream. When a broker that started with an empty event log
    and had no failed write stops, the log it leaves loads, and a broker seeded with it has
    the same link, continues the sequence and holds the last events again, each with its
    payload compacted. *)
Theorem restart_continues now (o : Options (N := N)) cs hist b cpenv now2 :
  o.(Seed) = [] → o.(Events_) = Some (NewEventLog "") → Forall cleanIO cs →
  reach (New now o) cs hist b → Forall event_ok hist → Forall short hist →
  ∃ log seed log2, b.(events) = Some log ∧ resume log.(elDisk) None cpenv = Some (seed, log2) ∧
    let b2 := New now2 (mkOptions o.(Authorizer_) o.(Audit_) (Some log2) seed o.(Name_)
                          o.(Capabilities_) o.(Limits_)) in
    b2.(prev) = b.(prev) ∧ b2.(bseq) = headSeq hist ∧ b2.(bseq) ≤ b.(bseq) ∧
    Retained b2 = canonEvent <$> Retained b.
Proof.
  intros Hseed Hlog Hclean Hr Hok Hsh.
  destruct (reach_disk now o cs hist b _ Hlog Hclean Hr) as (log & He & Hd). simpl in Hd.
  assert (Hst : streamInv o.(Seed) hist b ∧ b.(lm) = withDefaults o.(Limits_)).
  { apply (reach_stream now o cs); [by rewrite Hseed|by rewrite Hseed|done]. }
  destruct Hst as [[Hch Hp Hs Hu Hw Hc Hrg] Hlm]. rewrite Hseed in Hch, Hp, Hs, Hrg. simpl app in *.
  assert (Hload : ∃ log2, resume log.(elDisk) None cpenv = Some (canonEvent <$> hist, log2)).
  { rewrite Hd. change ("" +:+ streamText hist) with (streamText hist). unfold resume.
    destruct (String.eqb_spec (streamText hist) "") as [E|E].
    - assert (hist = []) as ->; [|by eexists]. destruct hist as [|x l]; [done|exfalso].
      change (streamText (x :: l)) with (lineOf x +:+ streamText l) in E. unfold lineOf in E.
      by destruct (marshalStruct_cons (eventFields x)) as (? & ? & Hx); rewrite Hx in E.
    - rewrite <- (Chain.append_nil_r (streamText hist)).
      rewrite LoadEvents_stream; [by eexists|done|done|done|constructor|done|by left]. }
  destruct Hload as (log2 & Hload). exists log, (canonEvent <$> hist), log2.
  split; [done|]. split; [done|]. cbv zeta.
  match goal with |- context [New now2 ?o2] => destruct (New_stream now2 o2) as (E1 & _ & E3 & E4 & _ & _ & E7) end.
  simpl in E3, E4. unfold Retained. rewrite E4, E3, E7, E1, Hrg, Hlm.
  assert (Hhead : headHash (canonEvent <$> hist) = headHash hist ∧ headSeq (canonEvent <$> hist) = headSeq hist).
  { unfold headHash, headSeq. rewrite fmap_last. by destruct (list.last hist). }
  destruct Hhead as [-> ->]. split; [by symmetry|]. split; [done|]. split; [done|].
  simpl. unfold lastn. by rewrite length_fmap, fmap_drop.
Qed.

(** The retained window is not a chain of its own: once an event has been evicted,
    [VerifyChain] refuses what [Retained] returns, because it expects the first event to
    have no predecessor. *)
Theorem retained_window_fails_verification now (o : Options (N := N)) cs hist b :
  VerifyChain o.(Seed) = Ok tt → is_u64 (headSeq o.(Seed)) →
  reach (New now o) cs hist b →
  0 < (withDefaults o.(Limits_)).(LRetain) < Z.of_nat (length (o.(Seed) ++ hist)) →
  VerifyChain (Retained b) = Err (NotChained 0).
Proof.
  intros Hv Hu Hr Hlen. destruct (reach_stream now o cs hist b Hv Hu Hr) as [[Hch _ _ _ _ _ Hrg] Hlm].
  unfold Retained. rewrite Hrg, Hlm. set (l := o.(Seed) ++ hist) in *. set (n := LRetain _) in *.
  unfold lastn. set (k := (length l - Z.to_nat n)%nat).
  destruct (lookup_lt_is_Some_2 l k) as [e He]; [lia|].
  destruct (lookup_lt_is_Some_2 l (k - 1)) as [d Hd]; [lia|].
  assert (Hl : l = take (k - 1) l ++ [d] ++ e :: drop (S k) l).
  { rewrite <- (take_drop (k - 1) l) at 1. f_equal. rewrite (drop_S l d (k - 1) Hd).
    replace (S (k - 1)) with k by lia. by rewrite (drop_S l e k He). }
  rewrite (drop_S l e k He). rewrite Hl, app_assoc in Hch. unfold VerifyChain in Hch.
  apply verifyFrom_app in Hch as [Hch1 Hch2]. rewrite last_snoc in Hch2. cbn [from_option verifyFrom] in Hch2.
  apply VerifyChain_snoc_inv in Hch1 as [_ (_ & Hh & _)].
  inv_ok. breflect. unfold VerifyChain. cbn [verifyFrom]. simpl (0 <? 0)%nat. cbn [andb guard_err rbind].
  destruct (String.eqb_spec e.(PrevHash) "") as [E|E]; [|done]. exfalso.
  unfold chainHash in Hh. destruct (marshalEvent _) as [t|]; [|done]. simplify_eq/=.
  eapply (sha256Hex_nonempty t). congruence.
Qed.

(** ** Publishing is authorized *)

Lemma unionLabels_spec l a c : l ∈ unionLabels a c ↔ l ≠ "" ∧ (l ∈ a ∨ l ∈ c).
Proof.
  unfold unionLabels. rewrite <- elem_of_app. generalize (a ++ c). intros m.
  assert (Hg : ∀ acc, l ∈ fold_left (λ out s, if (s =? "")%string || bool_decide (s ∈ out) then out else out ++ [s]) m acc
    ↔ l ∈ acc ∨ (l ≠ "" ∧ l ∈ m)).
  { induction m as [|x m IH]; intros acc; cbn [fold_left]; [set_solver|]. rewrite IH, elem_of_cons.
    destruct (String.eqb_spec x "") as [->|Hx]; cbn [orb]; [naive_solver|].
    case_bool_decide; [naive_solver|]. rewrite elem_of_app, list_elem_of_singleton. naive_solver. }
  rewrite Hg, elem_of_nil. naive_solver.
Qed.

Lemma capAllows_spec now id topic token b b' :
  capAllows now id topic token b = (true, b') →
  token ≠ "" ∧ ∃ v g v', b.(caps) = Some v ∧ Cap.Verify v token id.(Key) b.(bName) topic now = (Ok g, v').
Proof.
  unfold capAllows. destruct b.(caps) as [v|] eqn:Hc; [|done].
  destruct (String.eqb_spec token "") as [|Ht]; [done|].
  destruct (Cap.Verify _ _ _ _ _ _) as [[g|] v'] eqn:Hv; intros [= <-]; eauto 10.
Qed.

(** What an admitted publication satisfies. *)
Record admitted (env : Env) (id : Identity) (topic payload : string) (o : PublishOptions) b
    (labels : list string) : Prop := {
  ad_key : id.(Key) ≠ "";
  ad_rate : (limiterAllow id.(Key) (env.(clock) 0) (env.(clock) 1) b.(lim)).1 = true;
  ad_topic : validateTopic topic b.(lm).(MaxTopicLen) = Ok tt;
  ad_size : strlen payload ≤ b.(lm).(MaxPayloadBytes);
  ad_labels : Z.of_nat (length labels) ≤ b.(lm).(MaxLabels);
  ad_extra : ∀ l, l ∈ o.(oLabels) → l ≠ "" → l ∈ labels;
  ad_auth : let dec := b.(auth).(authPublish) id topic in
    if dec.(pAllow) then ∀ l, l ∈ dec.(pLabels) → l ≠ "" → l ∈ labels
    else dec.(pExplicit) = false ∧ o.(oCapability) ≠ "" ∧ ∃ v g v', b.(caps) = Some v ∧
      Cap.Verify v o.(oCapability) id.(Key) b.(bName) topic (env.(clock) 5) = (Ok g, v')
}.

Lemma admitPublish_spec env id topic payload o b labels why b' :
  admitPublish env id topic payload o b = (Ok (labels, why), b') →
  admitted env id topic payload o b labels.
Proof.
  unfold admitPublish, denyPublish. destruct (String.eqb_spec id.(Key) "") as [|Hk]; [done|].
  destruct (limiterAllow _ _ _ _) as [ok l] eqn:Hl. destruct ok; [|done]. cbn [negb]. set (b1 := set_lim l b).
  destruct (validateTopic topic b1.(lm).(MaxTopicLen)) as [[]|] eqn:Ht; [|done].
  destruct (Z.ltb_spec b1.(lm).(MaxPayloadBytes) (strlen payload)) as [|Hsz]; [done|].
  destruct (_ <? _); [done|]. destruct (negb _ && _); [done|]. destruct (_ <? _); [done|]. cbv zeta.
  set (dec := b1.(auth).(authPublish) id topic).
  destruct (if dec.(pAllow) then _ else _) as [[[emit w]|] b2] eqn:Hv; [|done].
  destruct (Z.ltb_spec b2.(lm).(MaxLabels) (Z.of_nat (length (unionLabels emit o.(oLabels))))) as [|Hn]; [done|].
  destruct (existsb _ _); [done|]. intros [= <- <- <-].
  assert (Hlm : b2.(lm) = b.(lm) ∧ if dec.(pAllow) then emit = dec.(pLabels) else
    dec.(pExplicit) = false ∧ o.(oCapability) ≠ "" ∧ ∃ v g v', b.(caps) = Some v ∧
      Cap.Verify v o.(oCapability) id.(Key) b.(bName) topic (env.(clock) 5) = (Ok g, v')).
  { destruct dec.(pAllow); [by simplify_eq|]. destruct dec.(pExplicit); [done|].
    destruct (capAllows _ _ _ _ _) as [[] b3] eqn:Hc; [|done]. injection Hv as <- <- <-.
    split; [|split; [done|by apply capAllows_spec in Hc]].
    pose proof (sameCore_cap (env.(clock) 5) id topic o.(oCapability) b1) as (? & ? & ? & Hcc).
    rewrite Hc in Hcc. simpl in Hcc. by subst b3. }
  destruct Hlm as [Hlm Hdec]. split; try done.
  - by rewrite Hl.
  - by rewrite <- Hlm.
  - intros x Hx Hne. apply unionLabels_spec. auto.
  - change (b.(auth)) with b1.(auth). fold dec. cbv zeta. destruct dec.(pAllow); [|done]. subst emit.
    intros x Hx Hne. apply unionLabels_spec. auto.
Qed.

Lemma emitLocked_event env mk b ev b' :
  emitLocked env mk b = Some (Ok ev, b') → ∃ h, ev = setHash h (mk (u64 (b.(bseq) + 1)) b.(prev)).
Proof.
  unfold emitLocked. destruct b.(closed); [done|]. cbv zeta. destruct (chainHash _) as [h|]; [|done].
  destruct (fanoutLocked _ _ _); [|done]. cbn [mbind option_bind]. intros [= <- <-]. by eexists.
Qed.

(** A published event is authorized and attributed: its publisher is the proven identity,
    the rate limiter let it through, its topic and size are within the limits, and either
    the authorizer allowed it and the event carries every label the authorizer puts on it,
    or no rule denied it and a capability for this identity, broker and topic verified. No
    publisher can shed a label. *)
Theorem published_event_is_authorized env id topic payload o b ev b' :
  PublishOpts env id topic payload o b = Some (Ok ev, b') →
  admitted env id topic payload o b ev.(Labels) ∧
  ev.(Publisher) = id.(Key) ∧ ev.(Topic) = topic ∧ ev.(Payload) = payload ∧
  ev.(Seq) = u64 (b.(bseq) + 1) ∧ ev.(PrevHash) = b.(prev).
Proof.
  unfold PublishOpts. destruct (admitPublish env id topic payload o b) as [[[labels why]|e] b1] eqn:Ha; [|done].
  pose proof (admitPublish_core _ _ _ _ _ _ _ _ Ha) as Hc. apply admitPublish_spec in Ha.
  destruct (emitLocked _ _ _) as [[[e|] b2]|] eqn:E; [|done|done]. cbn [mbind option_bind].
  intros [= -> <-]. apply emitLocked_event in E as [h ->]. simpl. split; [done|].
  destruct Hc as (? & ? & ? & ->). done.
Qed.
End Runs.
End BrkThm.
