(* ===== verification/BrokerGroup.v ===== *)
(** * BrokerGroup: consumer groups and at-least-once delivery

    What an event owed to a group goes through in [pubsub/broker.go]: it is placed on one
    member, or waits in the group's backlog, or goes back to the backlog when its member
    leaves before it acknowledged it. *)
From stdpp Require Import base list strings gmap sorting.
From Stdlib Require Import ZArith Lia Ascii.
From S2P Require Import Prelude GoStd Json JsonText JsonCodec Crypto Policy Engine Capability Checkpoint Ledger Sealed PubSub EventLog Broker BrokerInv BrokerThm.
Open Scope Z_scope.
Open Scope mesh_scope.

Module BrkGroup.
Import Bus EvLog Brk BrkInv BrkThm.

Section Groups.
Context `{Float64} `{Ed25519} `{SHA256Laws} `{Cap.CapCodec} {N : Type} `{NonceStore N} `{TimeText}.
Implicit Types b : Broker (N := N).

(** ** Placement *)

Lemma trySend_spec cap ev s ok s' :
  trySend cap ev s = Some (ok, s') →
  (ok = false ∧ s' = s ∧ cap ≤ Z.of_nat (length s.(ch))) ∨
  (ok = true ∧ s' = set_ch (s.(ch) ++ [ev]) s ∧ Z.of_nat (length s.(ch)) < cap).
Proof.
  unfold trySend. destruct (negb _); [done|].
  destruct (Z.ltb_spec (Z.of_nat (length s.(ch))) cap); intros [= <- <-]; auto.
Qed.

Lemma set_sub_id id s b : b.(heap) !! id = Some s → set_sub id s b = b.
Proof. intros Hs. unfold set_sub, set_heap. rewrite insert_id by done. by destruct b. Qed.
Lemma set_sub_sub id s s' b : set_sub id s' (set_sub id s b) = set_sub id s' b.
Proof. unfold set_sub, set_heap. simpl. by rewrite insert_insert_eq. Qed.

(** A subscription after [ev] was placed on it: an at-least-once member also records it. *)
Definition placed (ev : Event) s : Subscription :=
  let s1 := set_ch (s.(ch) ++ [ev]) s in
  if s.(ackMode) then set_inflight (Some (<[ev.(Seq) := ev]> (default ∅ s.(inflight)))) s1 else s1.

Lemma placeLoop_spec ids ev b ok b' :
  placeLoop ids ev b = Some (ok, b') →
  (ok = false ∧ b' = b) ∨
  (ok = true ∧ ∃ id s, id ∈ ids ∧ b.(heap) !! id = Some s ∧ b' = set_sub id (placed ev s) b).
Proof.
  revert b. induction ids as [|id ids IH]; intros b Hp; cbn [placeLoop] in Hp; [left; by simplify_eq|].
  assert (Hrest : placeLoop ids ev b = Some (ok, b') → (ok = false ∧ b' = b) ∨
    (ok = true ∧ ∃ id' s, id' ∈ id :: ids ∧ b.(heap) !! id' = Some s ∧ b' = set_sub id' (placed ev s) b)).
  { intros [?|(? & id' & s & Hin & Hs & ->)]%IH; [by left|right]. split; [done|]. exists id', s.
    split; [by apply list_elem_of_further|done]. }
  destruct (b.(heap) !! id) as [s|] eqn:Hs; [|done]. cbn [mbind option_bind] in Hp.
  destruct (s.(ackMode) && _); [by apply Hrest|].
  unfold tryDeliverLocked in Hp. rewrite Hs in Hp. cbn [mbind option_bind] in Hp.
  destruct (trySend b.(lm).(SubQueue) ev s) as [[ok1 s1]|] eqn:Ht; [|done]. cbn [mbind option_bind] in Hp.
  apply trySend_spec in Ht as [(-> & -> & _)|(-> & -> & _)].
  { rewrite set_sub_id in Hp by done. by apply Hrest. }
  right. destruct s.(ackMode) eqn:Ha.
  - cbn [set_sub set_heap heap] in Hp. rewrite lookup_insert_eq in Hp. cbn [mbind option_bind] in Hp.
    cbn [set_ch inflight] in Hp. destruct s.(inflight) as [m|] eqn:Hm; [|done]. cbn [mbind option_bind] in Hp.
    injection Hp as <- <-. split; [done|]. exists id, s. split; [by apply list_elem_of_here|]. split; [done|].
    unfold placed. rewrite Ha, Hm. symmetry. rewrite <- (set_sub_sub id (set_ch (s.(ch) ++ [ev]) s)). done.
  - injection Hp as <- <-. split; [done|]. exists id, s. split; [by apply list_elem_of_here|]. split; [done|].
    unfold placed. by rewrite Ha.
Qed.

Lemma tryPlace_spec name members ev b ok b' :
  tryPlaceOnGroupLocked name members ev b = Some (ok, b') →
  ∃ rr, (ok = false ∧ b' = set_groupRR rr b) ∨
  (ok = true ∧ ∃ id s, id ∈ members ∧ b.(heap) !! id = Some s ∧
    b' = set_sub id (placed ev s) (set_groupRR rr b)).
Proof.
  unfold tryPlaceOnGroupLocked. destruct members as [|i ms].
  { intros [= <- <-]. exists b.(groupRR). left. split; [done|]. by destruct b. }
  set (members := i :: ms). cbv zeta. intros Hp. eexists. apply placeLoop_spec in Hp.
  destruct Hp as [[-> ->]|(-> & id & s & Hin & Hs & ->)]; [by left|right]. split; [done|].
  exists id, s. split; [|done]. by rewrite rotate_perm, sortIDs_perm in Hin.
Qed.

(** Competing consumers: a placed event is added to the buffer of exactly one of the
    group's matching members, at its end, and recorded as in flight if that member
    acknowledges; an event that is not placed changes no subscription. *)
Theorem group_delivers_once name members ev b ok b' :
  tryPlaceOnGroupLocked name members ev b = Some (ok, b') →
  if ok then ∃ id s s', id ∈ members ∧ b.(heap) !! id = Some s ∧ b'.(heap) !! id = Some s' ∧
    s'.(ch) = s.(ch) ++ [ev] ∧
    (s.(ackMode) = true → ∃ m, s'.(inflight) = Some m ∧ m !! ev.(Seq) = Some ev) ∧
    ∀ id', id' ≠ id → b'.(heap) !! id' = b.(heap) !! id'
  else b'.(heap) = b.(heap).
Proof.
  intros (rr & [[-> ->]|(-> & id & s & Hin & Hs & ->)])%tryPlace_spec; [done|].
  exists id, s, (placed ev s). split; [done|]. split; [done|]. simpl. rewrite lookup_insert_eq.
  split; [done|]. unfold placed. split; [by destruct s.(ackMode)|]. split.
  - intros ->. simpl. eexists. split; [done|]. by rewrite lookup_insert_eq.
  - intros id' Hne. by rewrite lookup_insert_ne.
Qed.

(** ** What is owed *)

(** In flight at some subscription, or waiting in a backlog. *)
Definition flying b (e : Event) : Prop :=
  ∃ id s m n, b.(heap) !! id = Some s ∧ s.(inflight) = Some m ∧ m !! n = Some e.
Definition waiting b (e : Event) : Prop := ∃ g q, b.(groupPend) !! g = Some q ∧ e ∈ q.
Definition owes b (e : Event) : Prop := flying b e ∨ waiting b e.

(** From [b] to [b'] nothing is owed anew but events in [P]. *)
Definition owesUpTo (P : Event → Prop) b b' : Prop := ∀ e, owes b' e → owes b e ∨ P e.
Lemma owes_refl P b : owesUpTo P b b.
Proof. by left. Qed.
Lemma owes_trans P b1 b2 b3 : owesUpTo P b1 b2 → owesUpTo P b2 b3 → owesUpTo P b1 b3.
Proof. intros Ha Hb e [?%Ha|?]%Hb; auto. Qed.
Lemma owes_weaken (P Q : Event → Prop) b b' : (∀ e, P e → owes b e ∨ Q e) → owesUpTo P b b' → owesUpTo Q b b'.
Proof. intros HPQ Ha e [?|?%HPQ]%Ha; auto. Qed.
Lemma owes_same P b b' : b'.(heap) = b.(heap) → b'.(groupPend) = b.(groupPend) → owesUpTo P b b'.
Proof. intros E1 E2 e. unfold owes, flying, waiting. rewrite E1, E2. auto. Qed.
(** A subscription changes: its in-flight events are old ones or in [P]. *)
Lemma owes_set_sub P id s' b :
  (∀ m n e, s'.(inflight) = Some m → m !! n = Some e → owes b e ∨ P e) →
  owesUpTo P b (set_sub id s' b).
Proof.
  intros Hs e [(id' & x & m & n & Hx & Hm & Hn)|Hw]; [|left; by right].
  simpl in Hx. apply lookup_insert_Some in Hx as [[<- <-]|[_ Hx]]; [eauto|].
  left. left. by exists id', x, m, n.
Qed.
Lemma owes_keep P id s s' b :
  b.(heap) !! id = Some s → s'.(inflight) = s.(inflight) → owesUpTo P b (set_sub id s' b).
Proof.
  intros Hs E. apply owes_set_sub. rewrite E. intros m n e Hm Hn. left. left. by exists id, s, m, n.
Qed.

Lemma owes_placed ev id s b : b.(heap) !! id = Some s → owesUpTo (eq ev) b (set_sub id (placed ev s) b).
Proof.
  intros Hs. unfold placed. destruct s.(ackMode); [|by eapply owes_keep].
  apply owes_set_sub. simpl. intros m n e [= <-]. rewrite lookup_insert_Some. intros [[_ <-]|[_ Hn]]; [by right|].
  left. left. destruct s.(inflight) as [m|] eqn:E; [|done]. by exists id, s, m, n.
Qed.

Lemma owes_tryPlace name members ev b ok b' :
  tryPlaceOnGroupLocked name members ev b = Some (ok, b') → owesUpTo (eq ev) b b'.
Proof.
  intros (rr & [[-> ->]|(-> & id & s & Hin & Hs & ->)])%tryPlace_spec; [by apply owes_same|].
  eapply owes_trans; [by apply (owes_same _ b (set_groupRR rr b))|by apply owes_placed].
Qed.

Lemma drainLoop_frame name q b q' b' :
  drainLoop name q b = Some (q', b') →
  b'.(groupPend) = b.(groupPend) ∧ b'.(subs) = b.(subs) ∧ owesUpTo (λ e, e ∈ q) b b' ∧ ∃ l, q = l ++ q'.
Proof.
  revert b. induction q as [|ev q IH]; intros b; cbn [drainLoop].
  { intros [= <- <-]. split; [done|]. split; [done|]. split; [apply owes_refl|by exists []]. }
  destruct (tryPlaceOnGroupLocked _ _ _ _) as [[ok b1]|] eqn:Ht; [|done]. cbn [mbind option_bind].
  pose proof (owes_tryPlace _ _ _ _ _ _ Ht) as Ho.
  assert (Hf : b1.(groupPend) = b.(groupPend) ∧ b1.(subs) = b.(subs)).
  { apply tryPlace_spec in Ht as (rr & [[-> ->]|(-> & id & s & Hin & Hs & ->)]); done. }
  destruct Hf as [Hp1 Hs1].
  assert (Ho' : owesUpTo (λ e, e ∈ ev :: q) b b1).
  { eapply owes_weaken; [|exact Ho]. intros e <-. right. by apply list_elem_of_here. }
  destruct ok.
  - intros (Hp & Hs & Hw & l & ->)%IH. split; [congruence|]. split; [congruence|]. split; [|by exists (ev :: l)].
    eapply owes_trans; [exact Ho'|]. eapply owes_weaken; [|exact Hw]. intros e He. right. by apply list_elem_of_further.
  - intros [= <- <-]. split; [done|]. split; [done|]. split; [exact Ho'|by exists []].
Qed.

Lemma owes_drain P name b b' : drainGroupPendingLocked name b = Some b' → owesUpTo P b b'.
Proof.
  unfold drainGroupPendingLocked. destruct (_ =? _)%string; [intros [= <-]; apply owes_refl|].
  destruct (drainLoop _ _ _) as [[q b1]|] eqn:Hd; [|done]. cbn [mbind option_bind]. intros [= <-].
  apply drainLoop_frame in Hd as (Hp & _ & Ho & l & Hq).
  assert (Hold : ∀ e, e ∈ default [] (b.(groupPend) !! name) → owes b e).
  { intros e He. destruct (b.(groupPend) !! name) as [q0|] eqn:E; [|by apply not_elem_of_nil in He].
    right. by exists name, q0. }
  intros e [Hfl|(g & q1 & Hg & Hin)].
  - left. destruct (Ho e) as [?|?]; [by left|done|by apply Hold].
  - left. simpl in Hg. assert (Hc : (g = name ∧ q1 = q) ∨ b1.(groupPend) !! g = Some q1).
    { destruct q as [|x q]; [apply lookup_delete_Some in Hg as [_ ?]; by right|].
      apply lookup_insert_Some in Hg as [[<- <-]|[_ ?]]; [by left|by right]. }
    destruct Hc as [[-> ->]|Hc].
    + apply Hold. rewrite Hq. apply elem_of_app. by right.
    + rewrite Hp in Hc. right. by exists g, q1.
Qed.

Lemma flying_of id s b e : b.(heap) !! id = Some s → e ∈ inflightOf s → flying b e.
Proof.
  unfold inflightOf. intros Hs. rewrite list_elem_of_fmap. intros ([n x] & -> & Hin).
  destruct s.(inflight) as [m|] eqn:Hm.
  - apply elem_of_map_to_list in Hin. by exists id, s, m, n.
  - simpl in Hin. rewrite map_to_list_empty in Hin. by apply not_elem_of_nil in Hin.
Qed.

Lemma owes_pend P g q b :
  (∀ e, e ∈ q → owes b e ∨ P e) → owesUpTo P b (set_groupPend (<[g := q]> b.(groupPend)) b).
Proof.
  intros Hq e [?|(g' & q' & Hg & Hin)]; [left; by left|]. simpl in Hg.
  apply lookup_insert_Some in Hg as [[_ <-]|[_ Hg]]; [auto|]. left. right. by exists g', q'.
Qed.
Lemma owes_unpend P g b b' :
  b'.(heap) = b.(heap) → b'.(groupPend) = delete g b.(groupPend) → owesUpTo P b b'.
Proof.
  intros E1 E2 e. unfold owes, flying, waiting. rewrite E1, E2.
  intros [?|(g' & q & [_ Hg]%lookup_delete_Some & Hin)]; [auto|]. left. right. eauto.
Qed.

Lemma owes_leave P id s b b' :
  b.(heap) !! id = Some s → leaveGroup id s b = Some b' → owesUpTo P b b'.
Proof.
  intros Hs. unfold leaveGroup. destruct (_ =? _)%string; [intros [= <-]; apply owes_refl|]. cbv zeta.
  match goal with |- context [set_sub id (set_inflight None s) ?x] => set (b1 := x) end.
  assert (H1' : owesUpTo P b b1).
  { unfold b1. destruct (_ && _); [|apply owes_refl]. destruct (_ <? _); [|by apply owes_same].
    apply owes_pend. intros e. unfold sortEvents. rewrite elem_of_app, (merge_sort_Permutation seqLe).
    intros [Hin|Hin]; left; [left; by eapply flying_of|].
    destruct (b.(groupPend) !! s.(group)) as [q|] eqn:E; [right; by exists s.(group), q|].
    by apply not_elem_of_nil in Hin. }
  assert (H2' : owesUpTo P b (set_sub id (set_inflight None s) b1)).
  { eapply owes_trans; [exact H1'|]. by apply owes_set_sub. }
  set (b2 := set_sub id _ b1) in *. destruct (_ <=? _).
  - intros [= <-]. eapply owes_trans; [exact H2'|]. by apply (owes_unpend _ s.(group)).
  - intros Hd%(owes_drain P). eapply owes_trans; [exact H2'|]. eapply owes_trans; [|exact Hd]. by apply owes_same.
Qed.

Lemma owes_closeSub P id b b' : closeSubLocked id b = Some b' → owesUpTo P b b'.
Proof.
  unfold closeSubLocked. destruct (b.(heap) !! id) as [s|] eqn:Hs; [|done]. cbn [mbind option_bind].
  destruct (negb _); [intros [= <-]; by eapply owes_keep|]. cbv zeta.
  destruct (leaveGroup _ _ _) as [b1|] eqn:Hl; [|done]. cbn [mbind option_bind].
  apply (owes_leave P) in Hl; [|done]. destruct (b1.(heap) !! id) as [s1|] eqn:Hs1; [|done].
  intros [= <-]. eapply owes_trans; [by apply owes_same|]. eapply owes_trans; [exact Hl|]. by eapply owes_keep.
Qed.

Lemma tryDeliver_spec id ev b ok b' :
  tryDeliverLocked id ev b = Some (ok, b') →
  ∃ s s', b.(heap) !! id = Some s ∧ b' = set_sub id s' b ∧ s'.(inflight) = s.(inflight).
Proof.
  unfold tryDeliverLocked. destruct (b.(heap) !! id) as [s|]; [|done]. cbn [mbind option_bind].
  destruct (trySend _ ev s) as [[ok1 s1]|] eqn:Ht; [|done]. intros [= <- <-]. exists s, s1.
  apply trySend_spec in Ht as [(-> & -> & _)|(-> & -> & _)]; done.
Qed.
Lemma owes_tryDeliver P id ev b ok b' : tryDeliverLocked id ev b = Some (ok, b') → owesUpTo P b b'.
Proof. intros (s & s' & Hs & -> & E)%tryDeliver_spec. by eapply owes_keep. Qed.

Lemma owes_deliver P id ev b b' : deliverLocked id ev b = Some b' → owesUpTo P b b'.
Proof.
  unfold deliverLocked. destruct (tryDeliverLocked id ev b) as [[ok b1]|] eqn:E1; [|done]. cbn [mbind option_bind].
  apply (owes_tryDeliver P) in E1. destruct ok; [by intros [= <-]|].
  destruct (b1.(heap) !! id) as [s1|]; [|done]. cbn [mbind option_bind].
  case_bool_decide; [intros Hc%(owes_closeSub P); by eapply owes_trans|].
  destruct (tryDeliverLocked id ev b1) as [[ok b2]|] eqn:E2; [|done]. cbn [mbind option_bind].
  apply (owes_tryDeliver P) in E2. pose proof (owes_trans _ _ _ _ E1 E2) as E12. destruct ok; [by intros [= <-]|].
  destruct (b2.(heap) !! id) as [s2|] eqn:Hs2; [|done]. cbn [mbind option_bind].
  destruct (tryDeliverLocked id ev _) as [[ok b3]|] eqn:E3; [|done]. cbn [mbind option_bind].
  apply (owes_tryDeliver P) in E3. destruct (b3.(heap) !! id) as [s3|] eqn:Hs3; [|done]. cbn [mbind option_bind].
  intros [= <-]. eapply owes_trans; [exact E12|].
  eapply owes_trans; [by apply (owes_keep P id s2 (set_ch (drop 1 s2.(ch)) s2))|].
  eapply owes_trans; [exact E3|]. eapply owes_trans; [by apply (owes_keep P id s3 (countDrop s3))|].
  by apply owes_same.
Qed.

Lemma owes_enqueue name ev b : owesUpTo (eq ev) b (enqueueGroupPendingLocked name ev b).
Proof.
  assert (Hold : ∀ e, e ∈ default [] (b.(groupPend) !! name) → owes b e).
  { intros e He. destruct (b.(groupPend) !! name) as [q0|] eqn:E; [|by apply not_elem_of_nil in He].
    right. by exists name, q0. }
  unfold enqueueGroupPendingLocked. case_match.
  - eapply owes_trans; [by apply (owes_same _ b (add_dropped 1 b))|].
    apply (owes_pend _ name _ (add_dropped 1 b)). intros e.
    rewrite elem_of_app. intros [Hin|Hin]; [left; by apply Hold, (subseteq_drop 1)|].
    apply list_elem_of_singleton in Hin. by right.
  - apply owes_pend. intros e. rewrite elem_of_app. intros [Hin|Hin]; [left; by apply Hold|].
    apply list_elem_of_singleton in Hin. by right.
Qed.

Lemma owes_toGroup name members ev b b' :
  deliverToGroupLocked name members ev b = Some b' → owesUpTo (eq ev) b b'.
Proof.
  unfold deliverToGroupLocked. destruct (tryPlaceOnGroupLocked _ _ _ _) as [[ok b1]|] eqn:E; [|done].
  cbn [mbind option_bind]. apply owes_tryPlace in E. destruct ok; [by intros [= <-]|].
  destruct (groupIsAck _ _); [intros [= <-]; eapply owes_trans; [exact E|apply owes_enqueue]|].
  destruct (head _); [|done]. cbn [mbind option_bind]. intros Hd%(owes_deliver (eq ev)). by eapply owes_trans.
Qed.

Lemma owes_fanoutLoop ids ev groups b groups' b' :
  fanoutLoop ids ev groups b = Some (groups', b') → owesUpTo (eq ev) b b'.
Proof.
  revert groups b. induction ids as [|id ids IH]; intros groups b; cbn [fanoutLoop].
  { intros [= <- <-]. apply owes_refl. }
  destruct (b.(heap) !! id) as [s|]; [|done]. cbn [mbind option_bind].
  destruct (negb _); [by apply IH|]. destruct (_ =? _)%string; [|by apply IH].
  destruct (deliverLocked _ _ _) as [b1|] eqn:E; [|done]. cbn [mbind option_bind].
  intros Hr%IH. eapply owes_trans; [by eapply owes_deliver|done].
Qed.
Lemma owes_groupsLoop names groups ev b b' :
  groupsLoop names groups ev b = Some b' → owesUpTo (eq ev) b b'.
Proof.
  revert b. induction names as [|g names IH]; intros b; cbn [groupsLoop].
  { intros [= <-]. apply owes_refl. }
  destruct (deliverToGroupLocked _ _ _ _) as [b1|] eqn:E; [|done]. cbn [mbind option_bind].
  intros Hr%IH. eapply owes_trans; [by eapply owes_toGroup|done].
Qed.
Lemma owes_fanout env ev b b' : fanoutLocked env ev b = Some b' → owesUpTo (eq ev) b b'.
Proof.
  unfold fanoutLocked. destruct (fanoutLoop _ _ _ _) as [[groups b1]|] eqn:E; [|done]. cbn [mbind option_bind].
  intros Hr%owes_groupsLoop. eapply owes_trans; [by eapply owes_fanoutLoop|done].
Qed.

(** ** Over whole calls *)

(** The events a call may come to owe. *)
Definition emitted (r : result busErr Event) (e : Event) : Prop := r = Ok e.

Lemma applyRetained_owes P now ev b : owesUpTo P b (applyRetainedLocked now ev b).
Proof. apply owes_same; unfold applyRetainedLocked; by repeat case_match. Qed.
Lemma sameCore_owes P b b' : sameCore b b' → owesUpTo P b b'.
Proof. intros (a & c & l & ->). by apply owes_same. Qed.

Lemma owes_emitLocked env mk b r b' : emitLocked env mk b = Some (r, b') → owesUpTo (emitted r) b b'.
Proof.
  unfold emitLocked. destruct b.(closed); [intros [= <- <-]; apply owes_refl|]. cbv zeta.
  destruct (chainHash _) as [h|]; [|intros [= <- <-]; by apply owes_same].
  destruct (fanoutLocked _ _ _) as [b1|] eqn:E; [|done]. cbn [mbind option_bind]. intros [= <- <-].
  apply owes_fanout in E. eapply owes_weaken; [|eapply owes_trans; [|exact E]].
  - intros e <-. by right.
  - match goal with |- owesUpTo _ _ (set_events _ (applyRetainedLocked ?n ?e ?x)) =>
      eapply (owes_trans _ _ x); [by apply owes_same|];
      eapply owes_trans; [apply (applyRetained_owes _ n e)|] end.
    by apply owes_same.
Qed.

Lemma owes_PublishOpts env id topic payload o b r b' :
  PublishOpts env id topic payload o b = Some (r, b') → owesUpTo (emitted r) b b'.
Proof.
  unfold PublishOpts. destruct (admitPublish env id topic payload o b) as [[[labels why]|e] b1] eqn:Ha;
    apply admitPublish_core in Ha.
  2: { intros [= <- <-]. by apply sameCore_owes. }
  destruct (emitLocked _ _ _) as [[r1 b2]|] eqn:E; [|done]. cbn [mbind option_bind]. apply owes_emitLocked in E.
  destruct r1; intros [= <- <-]; (eapply owes_trans; [by apply sameCore_owes|]); [|done].
  eapply owes_trans; [exact E|]. by apply owes_same.
Qed.

Lemma owes_emitTrusted env topic payload labels publisher origin rs b r b' :
  emitTrusted env topic payload labels publisher origin rs b = Some (r, b') → owesUpTo (emitted r) b b'.
Proof.
  unfold emitTrusted. repeat case_match; try (intros [= <- <-]; apply owes_refl). apply owes_emitLocked.
Qed.
Lemma owes_EmitFederated env topic payload labels publisher origin rt rd ex b r b' :
  EmitFederated env topic payload labels publisher origin rt rd ex b = Some (r, b') → owesUpTo (emitted r) b b'.
Proof.
  unfold EmitFederated. destruct (limiterAllow _ _ _ _) as [ok l].
  destruct (negb ok); [intros [= <- <-]; by apply owes_same|]. case_match; [intros [= <- <-]; by apply owes_same|].
  intros Hr%owes_emitTrusted. eapply owes_trans; [|exact Hr]. by apply owes_same.
Qed.

Lemma owes_deliverEach P id evs b b' : deliverEach id evs b = Some b' → owesUpTo P b b'.
Proof.
  revert b. induction evs as [|ev evs IH]; intros b; cbn [deliverEach]; [intros [= <-]; apply owes_refl|].
  destruct (deliverLocked _ _ _) as [b1|] eqn:E; [|done]. cbn [mbind option_bind]. apply (owes_deliver P) in E.
  case_bool_decide; [|by intros [= <-]]. intros Hr%IH. by eapply owes_trans.
Qed.

Lemma owes_Subscribe P env id o b r b' : binv b → b.(nextSubID) + 1 < 2 ^ 64 →
  Subscribe env id o b = Some (r, b') → owesUpTo P b b'.
Proof.
  intros Hb Hlt. unfold Subscribe. destruct (admitSubscribe env id o b) as [[clr|e] b1] eqn:Ha;
    apply admitSubscribe_core in Ha; apply (sameCore_owes P) in Ha as Hc.
  2: by intros [= <- <-].
  destruct b1.(closed); [by intros [= <- <-]|]. destruct (_ <=? _); [by intros [= <- <-]|].
  destruct (_ <=? _); [by intros [= <- <-]|]. cbv zeta.
  match goal with |- context [set_sub ?i ?x (set_members ?m ?p ?g ?y)] =>
    set (sid := i); set (s := x); set (b2 := set_sub sid s (set_members m p g y)) end.
  assert (H2' : owesUpTo P b b2).
  { eapply owes_trans; [exact Hc|]. unfold b2. eapply owes_trans; [|apply owes_set_sub].
    - by apply owes_same.
    - intros m n e. simpl. destruct o.(oAck); [intros [= <-]; by rewrite lookup_empty|done]. }
  destruct (if 0 <? o.(oSince) then _ else _) as [b3|] eqn:E3; cbn [mbind option_bind]; [|done].
  assert (H3' : owesUpTo P b2 b3).
  { destruct (0 <? o.(oSince)); [|injection E3 as <-; apply owes_refl]. unfold replayTo in E3.
    destruct (since _ _) as [evs tr]. apply (owes_deliverEach P) in E3. eapply owes_trans; [|exact E3].
    apply (owes_keep P sid s); [simpl; by rewrite lookup_insert_eq|done]. }
  destruct (if _ && _ then _ else _) as [b4|] eqn:E4; cbn [mbind option_bind]; [|done].
  assert (H4' : owesUpTo P b3 b4).
  { destruct (_ && _); [|injection E4 as <-; apply owes_refl].
    apply (owes_deliverEach P) in E4. eapply owes_trans; [|exact E4]. by apply owes_same. }
  destruct (if o.(oAck) then drainGroupPendingLocked _ _ else _) as [b5|] eqn:E5; cbn [mbind option_bind]; [|done].
  assert (H5' : owesUpTo P b4 b5).
  { destruct o.(oAck); [by apply (owes_drain P) in E5|injection E5 as <-; apply owes_refl]. }
  intros [= <- <-]. eapply owes_trans; [exact H2'|]. eapply owes_trans; [exact H3'|].
  eapply owes_trans; [exact H4'|]. eapply owes_trans; [exact H5'|]. by apply owes_same.
Qed.

Lemma owes_exec c b e b' :
  binv b → op_ok b c → exec c b = Some (e, b') → owesUpTo (λ ev, e = Some ev) b b'.
Proof.
  intros Hb (_ & Hid & _) Hx.
  assert (Hr : ∀ r, owesUpTo (emitted r) b b' → okEvent r = e → owesUpTo (λ ev, e = Some ev) b b').
  { intros r Hr <-. eapply owes_weaken; [|exact Hr]. intros ev ->. by right. }
  destruct c; cbn [exec] in Hx.
  - destruct (PublishOpts _ _ _ _ _ _) as [[r b1]|] eqn:E; [|done]. injection Hx as Hx <-.
    apply owes_PublishOpts in E. by eapply Hr.
  - destruct (EmitInternal _ _ _ _ _ _) as [[r b1]|] eqn:E; [|done]. injection Hx as Hx <-.
    apply owes_emitTrusted in E. by eapply Hr.
  - destruct (EmitFederated _ _ _ _ _ _ _ _ _ _) as [[r b1]|] eqn:E; [|done]. injection Hx as Hx <-.
    apply owes_EmitFederated in E. by eapply Hr.
  - destruct (Subscribe _ _ _ _) as [[r b1]|] eqn:E; [|done]. injection Hx as <- <-. by eapply owes_Subscribe.
  - destruct (Unsubscribe _ _) as [b1|] eqn:E; [|done]. injection Hx as <- <-. by eapply owes_closeSub.
  - unfold Ack in Hx. destruct (b.(heap) !! id) as [s|] eqn:Hs; [|done]. cbn [mbind option_bind] in Hx.
    destruct (drainGroupPendingLocked _ _) as [b1|] eqn:E; [|done]. injection Hx as <- <-.
    eapply owes_trans; [|by eapply owes_drain]. apply owes_set_sub. simpl.
    intros m n ev Hm Hn. destruct s.(inflight) as [m0|] eqn:Hm0; [|done]. simplify_eq/=.
    apply lookup_delete_Some in Hn as [_ Hn]. left. left. by exists id, s, m0, n.
  - unfold Recv in Hx. destruct (b.(heap) !! id) as [s|] eqn:Hs; [|done]. cbn [mbind option_bind] in Hx.
    destruct s.(ch) as [|ev l]; injection Hx as <- <-; [apply owes_refl|]. by eapply owes_keep.
  - injection Hx as <- <-. unfold Close. destruct b.(closed); [apply owes_refl|].
    intros ev [(id & s & m & n & Hs & Hm & Hn)|(g & q & Hg & _)]; [|done]. simpl in Hs.
    rewrite map_lookup_imap, bind_Some in Hs. destruct Hs as (s0 & Hs0 & [= <-]).
    left. left. exists id, s0, m, n. split; [done|]. split; [by case_bool_decide|done].
Qed.

(** Every event owed was published in this run. *)
Lemma reach_owes now (o : Options (N := N)) cs hist b e :
  reach (New now o) cs hist b → owes b e → e ∈ hist.
Proof.
  intros Hr. revert e. induction Hr as [|cs hist b c x b' Hr IH Hok Hx]; intros e He.
  - exfalso. assert (Hnone : (New now o).(heap) = ∅ ∧ (New now o).(groupPend) = ∅).
    { unfold New. cbv zeta. destruct (list.last _); [|done].
      match goal with |- context [fold_left ?f ?evs ?b1] =>
        enough (Hf : ∀ l y, y.(heap) = ∅ ∧ y.(groupPend) = ∅ →
          (fold_left f l y).(heap) = ∅ ∧ (fold_left f l y).(groupPend) = ∅) by by apply (Hf evs b1) end.
      induction l as [|ev l IHl]; intros y Hy; [done|]. simpl. apply IHl.
      unfold applyRetainedLocked. by repeat case_match. }
    destruct Hnone as [E1 E2]. unfold owes, flying, waiting in He. rewrite E1, E2 in He.
    destruct He as [(? & ? & ? & ? & He & _)|(? & ? & He & _)]; by rewrite lookup_empty in He.
  - apply elem_of_app. apply (owes_exec _ _ _ _ (reach_inv _ _ _ _ (New_inv now o) Hr) Hok Hx) in He as [He| ->].
    + left. by apply IH.
    + right. by apply list_elem_of_here.
Qed.

(** ** At least once *)

(** In flight at a registered member of [g], and all that [g] has outstanding. *)
Definition inflightIn b (g : string) (e : Event) : Prop :=
  ∃ id s m n, id ∈ b.(subs) ∧ b.(heap) !! id = Some s ∧ s.(group) = g ∧ s.(inflight) = Some m ∧ m !! n = Some e.
Definition outstanding b (g : string) (e : Event) : Prop :=
  e ∈ default [] (b.(groupPend) !! g) ∨ inflightIn b g e.
(** Every registered member of [g] acknowledges. *)
Definition allAck b (g : string) : Prop :=
  ∀ id s, id ∈ b.(subs) → b.(heap) !! id = Some s → s.(group) = g → s.(ackMode) = true.
Definition seqKeyed b : Prop :=
  ∀ id s m n e, b.(heap) !! id = Some s → s.(inflight) = Some m → m !! n = Some e → e.(Seq) = n.
Definition uniqueSeq (P : Event → Prop) : Prop := ∀ e1 e2, P e1 → P e2 → e1.(Seq) = e2.(Seq) → e1 = e2.

Lemma binv_seqKeyed b : binv b → seqKeyed b.
Proof. intros Hb id s m n e Hs Hm Hn. destruct (so_flight _ _ _ (bi_heap b Hb _ _ Hs) m Hm) as [Hall _]. by apply Hall in Hn as [_ ?]. Qed.

Lemma placed_static ev s : (placed ev s).(group) = s.(group) ∧ (placed ev s).(ackMode) = s.(ackMode).
Proof. unfold placed. by destruct s.(ackMode) eqn:E. Qed.

(** Placing [ev] on a member of an at-least-once group. *)
Lemma place_keeps g ev id s b rr :
  id ∈ b.(subs) → b.(heap) !! id = Some s → s.(group) = g → s.(ackMode) = true →
  seqKeyed b → uniqueSeq (λ e, e = ev ∨ inflightIn b g e) →
  let b1 := set_sub id (placed ev s) (set_groupRR rr b) in
  (∀ e, e = ev ∨ inflightIn b g e ↔ inflightIn b1 g e) ∧ seqKeyed b1.
Proof.
  intros Hin Hs Hg Ha Hk Hu b1.
  assert (Hpl : (placed ev s).(inflight) = Some (<[ev.(Seq) := ev]> (default ∅ s.(inflight)))).
  { unfold placed. by rewrite Ha. }
  assert (Hnew : inflightIn b1 g ev).
  { exists id, (placed ev s), (<[ev.(Seq) := ev]> (default ∅ s.(inflight))), ev.(Seq). simpl.
    rewrite !lookup_insert_eq. destruct (placed_static ev s) as [-> _]. done. }
  split; [intros e; split|].
  - intros [->|(id' & s' & m & n & Hin' & Hs' & Hg' & Hm & Hn)]; [done|].
    destruct (decide (id' = id)) as [->|Hne].
    2: { exists id', s', m, n. simpl. by rewrite lookup_insert_ne. }
    rewrite Hs in Hs'. injection Hs' as <-. destruct (decide (n = ev.(Seq))) as [->|Hnn].
    + assert (e = ev) as ->; [|done]. apply Hu; [right; by exists id, s, m, ev.(Seq)|by left|].
      by eapply Hk.
    + exists id, (placed ev s), (<[ev.(Seq) := ev]> m), n. simpl. rewrite lookup_insert_eq.
      destruct (placed_static ev s) as [-> _]. rewrite Hpl, Hm. by rewrite lookup_insert_ne.
  - intros (id' & s' & m & n & Hin' & Hs' & Hg' & Hm & Hn). simpl in Hs'.
    apply lookup_insert_Some in Hs' as [[<- <-]|[Hne Hs']].
    + rewrite Hpl in Hm. injection Hm as <-. apply lookup_insert_Some in Hn as [[_ <-]|[_ Hn]]; [by left|].
      right. destruct s.(inflight) as [m|] eqn:E; [|done]. by exists id, s, m, n.
    + right. by exists id', s', m, n.
  - intros id' s' m n e. simpl. rewrite lookup_insert_Some. intros [[<- <-]|[_ Hs']] Hm Hn; [|by eapply Hk].
    rewrite Hpl in Hm. injection Hm as <-. apply lookup_insert_Some in Hn as [[<- <-]|[_ Hn]]; [done|].
    destruct s.(inflight) as [m|] eqn:E; [|done]. by eapply (Hk id s m).
Qed.

Lemma drainLoop_keeps g q b q' b' :
  seqKeyed b → allAck b g → uniqueSeq (λ e, e ∈ q ∨ inflightIn b g e) →
  drainLoop g q b = Some (q', b') → ∀ e, e ∈ q ∨ inflightIn b g e → e ∈ q' ∨ inflightIn b' g e.
Proof.
  revert b. induction q as [|ev q IH]; intros b Hk Hack Hu; cbn [drainLoop]; [by intros [= <- <-]|].
  destruct (tryPlaceOnGroupLocked _ _ _ _) as [[ok b1]|] eqn:Ht; [|done]. cbn [mbind option_bind].
  apply tryPlace_spec in Ht as (rr & [[-> ->]|(-> & id & s & Hin & Hs & ->)]); [by intros [= <- <-]|].
  apply list_elem_of_In, List.filter_In in Hin as [Hin Hgr]. apply list_elem_of_In, elem_of_elements in Hin.
  unfold inGroup in Hgr. rewrite Hs in Hgr. apply andb_true_iff in Hgr as [Hgr%String.eqb_eq _].
  pose proof (Hack _ _ Hin Hs Hgr) as Ha.
  destruct (place_keeps g ev id s b rr Hin Hs Hgr Ha Hk) as [Hiff Hk1].
  { intros e1 e2 H1' H2'. apply Hu; [destruct H1' as [->|?]|destruct H2' as [->|?]];
      try (left; apply list_elem_of_here); by right. }
  set (b1 := set_sub id _ _) in *. intros Hd e He. apply (IH b1); [done| | |done|].
  - intros id' s' Hin' Hs' Hg'. simpl in Hs'. apply lookup_insert_Some in Hs' as [[<- <-]|[_ Hs']].
    + by destruct (placed_static ev s) as [_ ->].
    + by eapply Hack.
  - intros e1 e2 H1' H2'. apply Hu.
    + destruct H1' as [?|[->|?]%Hiff]; [left; by apply list_elem_of_further|left; apply list_elem_of_here|by right].
    + destruct H2' as [?|[->|?]%Hiff]; [left; by apply list_elem_of_further|left; apply list_elem_of_here|by right].
  - destruct He as [[->|He]%elem_of_cons|He]; [right; apply Hiff; by left|by left|right; apply Hiff; by right].
Qed.

Lemma drain_keeps g b b' e :
  seqKeyed b → allAck b g → uniqueSeq (outstanding b g) →
  drainGroupPendingLocked g b = Some b' → outstanding b g e → outstanding b' g e.
Proof.
  intros Hk Ha Hu. unfold drainGroupPendingLocked. destruct (_ =? _)%string; [by intros [= <-]|].
  destruct (drainLoop _ _ _) as [[q b1]|] eqn:Hd; [|done]. cbn [mbind option_bind]. intros [= <-] He.
  apply (drainLoop_keeps g _ _ _ _ Hk Ha Hu Hd) in He as [He|He]; [left|by right].
  simpl. destruct q as [|x q]; [by apply not_elem_of_nil in He|]. by rewrite lookup_insert_eq.
Qed.

(** Sequence numbers identify the events of an accepted stream. *)
Lemma VerifyChain_increasing l :
  VerifyChain l = Ok tt → increasing l ∧ ∀ e, e ∈ l → e.(Seq) ≤ headSeq l.
Proof.
  induction l as [|x l IH] using rev_ind; intros Hv.
  { split; [constructor|]. by intros e He%not_elem_of_nil. }
  apply VerifyChain_snoc_inv in Hv as [Hv (_ & _ & Hs)]. destruct (IH Hv) as [Hi Hmax].
  assert (Hlt : ∀ e, e ∈ l → e.(Seq) < x.(Seq)).
  { intros e He. specialize (Hmax e He). destruct l; [by apply not_elem_of_nil in He|].
    specialize (Hs ltac:(done)). lia. }
  split.
  - clear -Hi Hlt. induction l as [|y l IHl]; [by repeat constructor|].
    inversion Hi as [|? ? Hi' Hf]; subst. constructor.
    + apply IHl; [done|]. intros e He. apply Hlt. by apply list_elem_of_further.
    + apply Forall_app. split; [done|]. constructor; [|constructor]. apply Hlt, list_elem_of_here.
  - unfold headSeq. rewrite last_snoc. simpl. intros e [He|He%list_elem_of_singleton]%elem_of_app; [|subst; lia].
    specialize (Hlt e He). lia.
Qed.

Lemma increasing_unique l : increasing l → uniqueSeq (λ e, e ∈ l).
Proof.
  induction 1 as [|x l Hs IH Hf]; intros e1 e2 H1' H2' E; [by apply not_elem_of_nil in H1'|].
  rewrite Forall_forall in Hf. apply elem_of_cons in H1', H2'.
  destruct H1' as [->|H1'], H2' as [->|H2']; [done| | |by apply IH].
  - specialize (Hf _ H2'). lia.
  - specialize (Hf _ H1'). lia.
Qed.

Lemma outstanding_owes b g e : outstanding b g e → owes b e.
Proof.
  intros [Hq|(id & s & m & n & _ & Hs & _ & Hm & Hn)]; [right|left; by exists id, s, m, n].
  destruct (b.(groupPend) !! g) as [q|] eqn:E; [by exists g, q|by apply not_elem_of_nil in Hq].
Qed.

Lemma reach_unique now (o : Options (N := N)) cs hist b g :
  VerifyChain o.(Seed) = Ok tt → is_u64 (headSeq o.(Seed)) → reach (New now o) cs hist b →
  uniqueSeq (outstanding b g).
Proof.
  intros Hv Hu Hr. destruct (reach_stream now o cs hist b Hv Hu Hr) as [[Hch _ _ _ _ _ _] _].
  apply VerifyChain_increasing in Hch as [Hi _]. pose proof (increasing_unique _ Hi) as Huq.
  intros e1 e2 H1' H2'. apply Huq; apply elem_of_app; right;
    by apply (reach_owes now o cs hist b); [|apply outstanding_owes with g].
Qed.

Lemma remaining_pos b id s id2 s2 :
  binv b → id ∈ b.(subs) → id2 ∈ b.(subs) → id2 ≠ id → b.(heap) !! id = Some s → b.(heap) !! id2 = Some s2 →
  s.(group) ≠ "" → s2.(group) = s.(group) → 0 < default 0 (b.(groupN) !! s.(group)) - 1.
Proof.
  intros Hb Hin Hin2 Hne Hs Hs2 Hg Hg2. rewrite (bi_group b Hb) by done.
  pose proof (countBy_remove group b.(heap) b.(subs) id s s.(group) Hin Hs) as H1'.
  pose proof (countBy_remove group b.(heap) (b.(subs) ∖ {[id]}) id2 s2 s.(group) ltac:(set_solver) Hs2) as H2'.
  rewrite decide_True in H1' by done. rewrite decide_True in H2' by done.
  pose proof (countBy_nonneg group b.(heap) ((b.(subs) ∖ {[id]}) ∖ {[id2]}) s.(group)). lia.
Qed.

(** The state [leaveGroup] drains from when members remain: the un-acked work of the leaver
    is at the front of the backlog. *)
Lemma leaver_returns b id s g gn pp e :
  id ∈ b.(subs) → b.(heap) !! id = Some s → s.(group) = g →
  let b1 := set_members (b.(subs) ∖ {[id]}) pp b.(groupN) b in
  let b2 := if 0 <? Z.of_nat (length (inflightOf s))
            then set_groupPend (<[g := sortEvents (inflightOf s) ++ default [] (b.(groupPend) !! g)]> b.(groupPend)) b1
            else b1 in
  let b3 := set_members (b.(subs) ∖ {[id]}) pp gn (set_sub id (set_inflight None s) b2) in
  outstanding b3 g e ↔ outstanding b g e.
Proof.
  intros Hin Hs Hg b1 b2 b3.
  assert (Hq : default [] (b3.(groupPend) !! g) ≡ₚ inflightOf s ++ default [] (b.(groupPend) !! g)).
  { unfold b3, b2. destruct (Z.ltb_spec 0 (Z.of_nat (length (inflightOf s)))); simpl.
    - rewrite lookup_insert_eq. simpl. unfold sortEvents. by rewrite (merge_sort_Permutation seqLe).
    - destruct (inflightOf s); [done|simpl in *; lia]. }
  assert (Hh : b3.(heap) = <[id := set_inflight None s]> b.(heap)) by (unfold b3, b2; by case_match).
  unfold outstanding, inflightIn. rewrite Hq, Hh, elem_of_app. change (b3.(subs)) with (b.(subs) ∖ {[id]}).
  split.
  - intros [[He|He]|(id' & s' & m & n & Hin' & Hs' & Hg' & Hm & Hn)]; [|by left|].
    + right. unfold inflightOf in He. apply list_elem_of_fmap in He as ([n x] & -> & Hx).
      destruct s.(inflight) as [m|] eqn:Hm; simpl in Hx;
        [|rewrite map_to_list_empty in Hx; by apply not_elem_of_nil in Hx].
      apply elem_of_map_to_list in Hx. by exists id, s, m, n.
    + right. rewrite lookup_insert_ne in Hs' by set_solver. exists id', s', m, n. set_solver.
  - intros [He|(id' & s' & m & n & Hin' & Hs' & Hg' & Hm & Hn)]; [auto|].
    destruct (decide (id' = id)) as [->|Hne].
    + left. left. rewrite Hs in Hs'. injection Hs' as <-. unfold inflightOf. rewrite Hm. simpl.
      apply list_elem_of_fmap. exists (n, e). split; [done|]. by apply elem_of_map_to_list.
    + right. exists id', s', m, n. rewrite lookup_insert_ne by done. set_solver.
Qed.

(** At least once: when a member of an at-least-once group leaves (or is disconnected)
    while another member remains, everything the group has outstanding, its backlog and
    what any of its members has not acknowledged, the leaver included, is still outstanding
    afterwards. *)
Theorem leaving_member_loses_nothing now (o : Options (N := N)) cs hist b id s id2 s2 b' e :
  VerifyChain o.(Seed) = Ok tt → is_u64 (headSeq o.(Seed)) → reach (New now o) cs hist b →
  id ∈ b.(subs) → b.(heap) !! id = Some s → s.(group) ≠ "" → allAck b s.(group) →
  id2 ∈ b.(subs) → id2 ≠ id → b.(heap) !! id2 = Some s2 → s2.(group) = s.(group) →
  Unsubscribe id b = Some b' → outstanding b s.(group) e → outstanding b' s.(group) e.
Proof.
  intros Hv Hu Hr Hin Hs Hg Hack Hin2 Hne Hs2 Hg2 Hun He.
  pose proof (reach_unique now o cs hist b s.(group) Hv Hu Hr) as Huq.
  pose proof (reach_inv _ _ _ _ (New_inv now o) Hr) as Hb.
  pose proof (remaining_pos b id s id2 s2 Hb Hin Hin2 Hne Hs Hs2 Hg Hg2) as Hrem.
  pose proof (Hack id s Hin Hs eq_refl) as Ha.
  unfold Unsubscribe, closeSubLocked in Hun. rewrite Hs in Hun. cbn [mbind option_bind] in Hun.
  rewrite bool_decide_eq_true_2 in Hun by done. cbn [negb] in Hun. cbv zeta in Hun.
  destruct (leaveGroup _ _ _) as [b4|] eqn:Hl; [|done]. cbn [mbind option_bind] in Hun.
  unfold leaveGroup in Hl. rewrite (proj2 (String.eqb_neq _ _) Hg), Ha in Hl. cbv zeta in Hl.
  cbn [set_members groupN subs perPeer groupPend] in Hl. set (n := default 0 _ - 1) in *.
  rewrite (proj2 (Z.ltb_lt 0 n) Hrem), (proj2 (Z.leb_gt n 0) Hrem) in Hl. cbn [andb] in Hl.
  match type of Hl with drainGroupPendingLocked _ ?x = _ => set (b3 := x) in * end.
  assert (H3' : ∀ x, outstanding b3 s.(group) x ↔ outstanding b s.(group) x).
  { intros x. pose proof (leaver_returns b id s s.(group) (<[s.(group) := n]> b.(groupN))
      (less b.(perPeer) (keyOf s)) x Hin Hs eq_refl) as Hlr.
    revert Hlr. unfold b3. cbv zeta. destruct (0 <? Z.of_nat (length (inflightOf s))); intros Hlr; exact Hlr. }
  assert (Hh3 : b3.(heap) = <[id := set_inflight None s]> b.(heap) ∧ b3.(subs) = b.(subs) ∖ {[id]})
    by (unfold b3; by case_match).
  destruct Hh3 as [Hh3 Hsub3].
  assert (Ho : outstanding b4 s.(group) e).
  { eapply drain_keeps; [| | |exact Hl|by apply H3'].
    - intros id' s' m k x. rewrite Hh3, lookup_insert_Some. intros [[<- <-]|[_ Hx]]; [done|].
      by eapply binv_seqKeyed.
    - intros id' s'. rewrite Hsub3, Hh3. intros Hi' Hx. rewrite lookup_insert_ne in Hx by set_solver.
      eapply Hack; [|exact Hx]. set_solver.
    - intros e1 e2 ?%H3' ?%H3'. by apply Huq. }
  destruct (b4.(heap) !! id) as [s4|]; [|done]. injection Hun as <-.
  assert (Hsub4 : b4.(subs) = b3.(subs)).
  { unfold drainGroupPendingLocked in Hl. destruct (_ =? _)%string; [by injection Hl as <-|].
    destruct (drainLoop _ _ _) as [[q b5]|] eqn:Hd; [|done]. injection Hl as <-.
    apply drainLoop_frame in Hd as (_ & Hx & _). exact Hx. }
  destruct Ho as [Ho|(id' & s' & m & k & Hi' & Hx & Hr')]; [by left|right].
  exists id', s', m, k. simpl. split; [done|]. rewrite lookup_insert_ne; [done|].
  rewrite Hsub4, Hsub3 in Hi'. set_solver.
Qed.

(** Acknowledging one event releases that event only: whatever else the member's group has
    outstanding stays outstanding, while the backlog moves into the room that was made. *)
Theorem ack_releases_one now (o : Options (N := N)) cs hist b id s seq b' e :
  VerifyChain o.(Seed) = Ok tt → is_u64 (headSeq o.(Seed)) → reach (New now o) cs hist b →
  b.(heap) !! id = Some s → allAck b s.(group) → e.(Seq) ≠ seq →
  Ack id seq b = Some b' → outstanding b s.(group) e → outstanding b' s.(group) e.
Proof.
  intros Hv Hu Hr Hs Hack Hne Hun He.
  pose proof (reach_unique now o cs hist b s.(group) Hv Hu Hr) as Huq.
  pose proof (binv_seqKeyed b (reach_inv _ _ _ _ (New_inv now o) Hr)) as Hk.
  unfold Ack in Hun. rewrite Hs in Hun. cbn [mbind option_bind] in Hun. cbv zeta in Hun.
  set (s1 := set_inflight _ s) in *. assert (Hold : ∀ x, outstanding (set_sub id s1 b) s.(group) x → outstanding b s.(group) x).
  { intros x [?|(id' & s' & m & n & Hin' & Hx & Hg' & Hm & Hn)]; [by left|right]. simpl in Hx.
    apply lookup_insert_Some in Hx as [[<- <-]|[_ Hx]]; [|by exists id', s', m, n].
    simpl in Hm. apply fmap_Some in Hm as (m0 & Hm0 & ->). apply lookup_delete_Some in Hn as [_ Hn].
    by exists id, s, m0, n. }
  eapply drain_keeps; [| | |exact Hun|].
  - intros id' s' m n x. simpl. rewrite lookup_insert_Some. intros [[<- <-]|[_ Hx]] Hm Hn; [|by eapply Hk].
    simpl in Hm. apply fmap_Some in Hm as (m0 & Hm0 & ->). apply lookup_delete_Some in Hn as [_ Hn].
    by eapply (Hk id s).
  - intros id' s' Hin'. simpl. rewrite lookup_insert_Some. intros [[<- <-]|[_ Hx]]; [|by eapply Hack].
    intros _. by apply (Hack id s).
  - intros e1 e2 ?%Hold ?%Hold. by apply Huq.
  - destruct He as [?|(id' & s' & m & n & Hin' & Hx & Hg' & Hm & Hn)]; [by left|right].
    destruct (decide (id' = id)) as [->|Hid]; [|exists id', s', m, n; simpl; by rewrite lookup_insert_ne].
    rewrite Hs in Hx. injection Hx as <-. exists id, s1, (delete seq m), n. simpl. rewrite lookup_insert_eq, Hm.
    assert (n ≠ seq). { intros ->. apply Hne. by eapply Hk. }
    rewrite lookup_delete_ne by congruence. done.
Qed.
End Groups.
End BrkGroup.
