(* ===== verification/BrokerRuns.v ===== *)
(** * BrokerRuns: concrete runs of the broker

    Runs computed by the model: the states at which the theorems on the broker are applied,
    and the behaviours in which the code departs from what its comments and documents say. *)
From stdpp Require Import base list strings gmap sorting.
From Stdlib Require Import ZArith Lia Ascii QArith.
From S2P Require Import Prelude GoStd Json JsonText JsonCodec Crypto Policy Engine Capability Checkpoint Ledger Sealed PubSub EventLog Broker BrokerInv BrokerThm BrokerGroup.
Open Scope Z_scope.
Open Scope mesh_scope.

Module BrkRuns.
Import Bus EvLog Brk BrkInv BrkThm BrkGroup.
Import Chain.AuditRuns CapRuns.
#[local] Existing Instance toySHA32 | 0.

(** ** Computing runs *)

Section Run.
Context `{Float64} `{Ed25519} `{SHA256Laws} `{Cap.CapCodec} {N : Type} `{NonceStore N} `{TimeText}.
Implicit Types b : Broker (N := N).

Definition op_okb b (c : op) : bool :=
  (b.(bseq) + 1 <? 2 ^ 64) && (b.(nextSubID) + 1 <? 2 ^ 64) &&
  match c with
  | OpUnsubscribe id | OpAck id _ | OpRecv id => negb (isNone (b.(heap) !! id))
  | _ => true
  end.
Fixpoint run (cs : list op) b : option (list Event * Broker) :=
  match cs with
  | [] => Some ([], b)
  | c :: cs =>
      if op_okb b c then
        '(e, b) ← exec c b; '(hist, b) ← run cs b; Some (option_list e ++ hist, b)
      else None
  end.

Definition envs_ok (cs : list op) : Prop := Forall (λ c, ∀ env, opEnv c = Some env → env_ok env) cs.

Lemma run_reach b0 cs0 hist0 b cs hist b' :
  reach b0 cs0 hist0 b → envs_ok cs → run cs b = Some (hist, b') →
  reach b0 (cs0 ++ cs) (hist0 ++ hist) b'.
Proof.
  revert cs0 hist0 b hist. induction cs as [|c cs IH]; intros cs0 hist0 b hist Hr Hev; cbn [run].
  { intros [= <- <-]. by rewrite !app_nil_r. }
  apply Forall_cons in Hev as [Hc Hev]. destruct (op_okb b c) eqn:Hok; [|done].
  destruct (exec c b) as [[e b1]|] eqn:Hx; [|done]. cbn [mbind option_bind].
  destruct (run cs b1) as [[h1 b2]|] eqn:Hrun; [|done]. cbn [mbind option_bind]. intros [= <- <-].
  replace (cs0 ++ c :: cs) with ((cs0 ++ [c]) ++ cs) by by rewrite <- app_assoc.
  rewrite app_assoc. apply (IH _ _ b1); [|done|done]. apply (reach_call b0 cs0 hist0 b c e b1); [done| |done].
  unfold op_okb in Hok. breflect. split; [lia|]. split; [lia|]. split; [done|].
  destruct c; try done; by destruct (b.(heap) !! _).
Qed.
End Run.

(** Whether an event can be encoded and decoded. *)
Definition rawb (r : string) : bool :=
  (r =? "")%string ||
  match parseValue (S (2 * length (codes r))) 1 (codes r) with
  | Some (_, q) => match skipWS q with [] => true | _ => false end
  | None => false
  end.
Definition valb (v : fval) : bool :=
  match v with
  | VStr s => validUTF8 s
  | VInt z => (minInt64 <=? z) && (z <=? maxInt64)
  | VUint z => (0 <=? z) && (z <? 2 ^ 64)
  | VBool _ => true
  | VRaw r => rawb r
  | VStrs l => forallb validUTF8 l
  end.
Definition event_okb (e : Event) : bool := forallb (λ f, valb f.(fVal)) (eventFields e).

Lemma event_okb_ok e : event_okb e = true → event_ok e.
Proof.
  assert (Hv : ∀ v, valb v = true → val_ok v).
  { intros [s|z|z|b|r|l]; cbn [valb val_ok]; intros Hb; try done.
    - unfold is_int. breflect. lia.
    - unfold is_u64. breflect. lia.
    - intros Hne. unfold rawb in Hb. apply String.eqb_neq in Hne. rewrite Hne in Hb. cbn [orb] in Hb.
      destruct (parseValue _ _ _) as [[v q]|] eqn:E; [|done]. exists v, q. split; [done|]. by destruct (skipWS q).
    - apply List.Forall_forall. by apply forallb_forall. }
  intros He. unfold event_okb in He. rewrite forallb_forall in He.
  assert (Hf : Forall (λ f, val_ok f.(fVal)) (eventFields e)) by (apply List.Forall_forall; auto).
  clear He. unfold event_ok, eventFields in *. cbv zeta in *.
  repeat (apply Forall_cons in Hf as [? Hf]; constructor; [split; [done|]; split; [done|]; done|]). constructor.
Qed.

(** ** A bus with two workers *)

#[export] Instance toyTime : TimeText := {| formatNano _ := "t"; parseNano _ := None |}.

Definition env0 : Env := mkEnv (λ _, 0) (λ l, l) (λ l, l) (mkEvIO None cpEnv).
Lemma env0_ok : env_ok env0.
Proof. by split. Qed.

Definition publisher : Identity := mkIdent "pub" "pub.mesh" "".
Definition worker : Identity := mkIdent "w" "w.mesh" "".
(** The publisher's events are tainted, the workers are cleared for taint. *)
Definition rules : RuleAuthorizer := mkRules false
  [mkTopicRule ["pubkey:pub"] ["web.*"] true [] true [] false false;
   mkTopicRule ["pubkey:w"] ["web.*"] true [] false [] true false].
(** Buffers of one event, a backlog of one, a window of two; no rate limit. *)
Definition smallLimits : Limits := mkLimits 1 0 0 0 0 0 0 0 1 2 (inject_Z (-1)) 0.
Definition opts0 : Options (N := MemNonceStore) :=
  mkOptions (Some (ruleAuthorizer rules)) (Some []) (Some (NewEventLog "")) [] "bus" None smallLimits.

Definition plain : PublishOptions := mkPubOpts [] "" false 0 false "" "" "".
Definition joinWorkers : SubOptions := mkSubOpts ["web.*"] DropOldest 0 "" "g" true.
Definition calls : list op :=
  [OpSubscribe env0 worker joinWorkers; OpSubscribe env0 worker joinWorkers;
   OpPublish env0 publisher "web.a" "1" plain; OpPublish env0 publisher "web.a" "[1, 2]" plain;
   OpPublish env0 publisher "web.b" "3" plain].
Definition outcome : list Event * Broker := default ([], New 0 opts0) (run calls (New 0 opts0)).
Definition hist0 : list Event := outcome.1.
Definition bus0 : Broker := outcome.2.

Lemma calls_envs : envs_ok calls.
Proof. repeat (constructor; [intros env [= <-]; apply env0_ok|]). constructor. Qed.
Lemma calls_run : run calls (New 0 opts0) = Some (hist0, bus0).
Proof.
  assert (Hr : isNone (run calls (New 0 opts0)) = false) by by vm_compute.
  unfold hist0, bus0, outcome. by destruct (run calls (New 0 opts0)) as [[]|].
Qed.
Lemma calls_reach : reach (New 0 opts0) calls hist0 bus0.
Proof.
  exact (run_reach (New 0 opts0) [] [] (New 0 opts0) calls hist0 bus0 (reach_new _) calls_envs calls_run).
Qed.

(** What is buffered and what is in flight at a subscription, what waits in a group. *)
Definition seqsAt (b : Broker (N := MemNonceStore)) (id : Z) : list Z * list Z :=
  match b.(heap) !! id with
  | Some s => (List.map Seq s.(ch), List.map Seq (inflightOf s))
  | None => ([], [])
  end.
Definition pendSeqs (b : Broker (N := MemNonceStore)) (g : string) : list Z :=
  List.map Seq (default [] (b.(groupPend) !! g)).

Example bus0_state :
  List.map (λ e, (e.(Seq), e.(Labels))) hist0 = [(1, ["tainted"]); (2, ["tainted"]); (3, ["tainted"])] ∧
  seqsAt bus0 1 = ([1], [1]) ∧ seqsAt bus0 2 = ([2], [2]) ∧ pendSeqs bus0 "g" = [3].
Proof. vm_compute. done. Qed.

(** ** Departures from the documents *)

Definition denySecrets : RuleAuthorizer := mkRules true
  [mkTopicRule ["pubkey:w"] ["secrets"] false [] false [] false false].
Definition opts1 : Options (N := MemNonceStore) :=
  mkOptions (Some (ruleAuthorizer denySecrets)) None None [] "bus" None smallLimits.
Definition listen (topic : string) : SubOptions := mkSubOpts [topic] DropOldest 0 "" "" false.
Definition subResult (o : SubOptions) : option (result busErr Z) :=
  fst <$> Subscribe env0 worker o (New 0 opts1).
Definition topicsHeard (o : SubOptions) : option (list string) :=
  match run [OpSubscribe env0 worker o; OpPublish env0 publisher "secrets" "1" plain] (New 0 opts1) with
  | Some (_, b) => match b.(heap) !! 1 with Some s => Some (List.map Topic s.(ch)) | None => None end
  | None => None
  end.

(** A deny rule on a topic does not keep its events from a subscriber: [Subscribe] asks the
    authorizer about the text of the pattern, not about the topics the pattern covers. The
    topic itself is refused, a pattern that matches it is accepted by the default and its
    events are delivered. *)
Theorem pattern_evades_deny_rule :
  subResult (listen "secrets") = Some (Err ErrDenied) ∧
  subResult (listen "secret?") = Some (Ok 1) ∧
  topicsHeard (listen "secret?") = Some ["secrets"].
Proof. vm_compute. done. Qed.

(** A group's backlog can exceed its cap: the cap is enforced when a new event is queued,
    but the un-acked work of a leaving member is put back without it. *)
Theorem group_backlog_exceeds_cap :
  bus0.(lm).(MaxGroupPending) = 1 ∧ pendSeqs bus0 "g" = [3] ∧
  match Unsubscribe 1 bus0 with Some b => pendSeqs b "g" | None => [] end = [1; 3].
Proof. vm_compute. done. Qed.

(** ** The theorems at these runs *)

Lemma from_isNone {A} (x : option A) d : isNone x = false → x = Some (default d x).
Proof. by destruct x. Qed.
(** Compute that something is found, without computing what. *)
Ltac found := match goal with |- ?x = Some _ => apply from_isNone; by vm_compute end.

Definition noSub : Subscription :=
  mkSubscription worker [] false ∅ "" false None DropOldest [] false 0 false.
Definition sub1 : Subscription := default noSub (bus0.(heap) !! 1).
Definition sub2 : Subscription := default noSub (bus0.(heap) !! 2).
Definition ev1 : Event := default zeroEvent (hist0 !! 0%nat).
Definition without1 : Broker := default bus0 (Unsubscribe 1 bus0).
Definition acked : Broker := default bus0 (Ack 2 2 bus0).

Lemma sub1_found : bus0.(heap) !! 1 = Some sub1.
Proof. found. Qed.
Lemma sub2_found : bus0.(heap) !! 2 = Some sub2.
Proof. found. Qed.
Lemma seed_ok : VerifyChain opts0.(Seed) = Ok tt ∧ is_u64 (headSeq opts0.(Seed)).
Proof. split; [done|]. by vm_compute. Qed.

Definition allAckb (b : Broker (N := MemNonceStore)) (g : string) : bool :=
  forallb (λ id, match b.(heap) !! id with
                 | Some s => negb (s.(group) =? g)%string || s.(ackMode)
                 | None => true
                 end) (elements b.(subs)).
Lemma allAckb_ok b g : allAckb b g = true → allAck b g.
Proof.
  unfold allAckb. rewrite forallb_forall. intros Hf id s Hin Hs Hg.
  specialize (Hf id). rewrite Hs in Hf. rewrite (proj2 (String.eqb_eq _ _) Hg) in Hf. simpl in Hf. apply Hf.
  by apply list_elem_of_In, elem_of_elements.
Qed.
Lemma registered (b : Broker (N := MemNonceStore)) id : bool_decide (id ∈ b.(subs)) = true → id ∈ b.(subs).
Proof. apply bool_decide_eq_true. Qed.
Lemma ev1_flying : outstanding bus0 sub1.(group) ev1.
Proof.
  right. exists 1, sub1, (default ∅ sub1.(inflight)), 1. split; [by apply registered; vm_compute|].
  split; [apply sub1_found|]. split; [done|]. split; [found|]. by vm_compute.
Qed.

Lemma broker_never_panics_witness : ∃ e b', exec (OpAck 1 1) bus0 = Some (e, b').
Proof.
  apply (broker_never_panics 0 opts0 calls hist0 bus0 (OpAck 1 1)); [exact calls_reach|].
  split; [by vm_compute|]. split; [by vm_compute|]. split; [done|]. exists sub1. exact sub1_found.
Defined.


Lemma broker_is_bounded_witness : Z.of_nat (SubCount bus0) ≤ bus0.(lm).(MaxSubs).
Proof. exact (proj1 (proj2 (broker_is_bounded 0 opts0 calls hist0 bus0 calls_reach))). Defined.

Lemma stream_is_sealed_witness :
  VerifyChain (opts0.(Seed) ++ hist0) = Ok tt ∧ bus0.(prev) = headHash (opts0.(Seed) ++ hist0) ∧
  Retained bus0 = lastn (Z.to_nat (withDefaults opts0.(Limits_)).(LRetain)) (opts0.(Seed) ++ hist0).
Proof. apply (stream_is_sealed 0 opts0 calls); [apply seed_ok|apply seed_ok|exact calls_reach]. Defined.

Lemma retained_window_fails_verification_witness : VerifyChain (Retained bus0) = Err (NotChained 0).
Proof.
  apply (retained_window_fails_verification 0 opts0 calls hist0);
    [apply seed_ok|apply seed_ok|exact calls_reach|by vm_compute].
Defined.

Lemma restart_continues_witness :
  ∃ log seed log2, bus0.(events) = Some log ∧ resume log.(elDisk) None cpEnv = Some (seed, log2) ∧
    let b2 := New 0 (mkOptions opts0.(Authorizer_) opts0.(Audit_) (Some log2) seed opts0.(Name_)
                       opts0.(Capabilities_) opts0.(Limits_)) in
    b2.(prev) = bus0.(prev) ∧ b2.(bseq) = headSeq hist0 ∧ b2.(bseq) ≤ bus0.(bseq) ∧
    Retained b2 = canonEvent <$> Retained bus0.
Proof.
  apply (restart_continues 0 opts0 calls hist0 bus0 cpEnv 0); [done|done| |exact calls_reach| |].
  - repeat (constructor; [by intros env [= <-]|]). constructor.
  - apply (Forall_impl (λ e, event_okb e = true)); [|apply event_okb_ok].
    apply List.Forall_forall, forallb_forall. by vm_compute.
  - apply (Forall_impl (λ e, (strlen (marshalStruct (eventFields e)) <? Chain.maxLine) = true)).
    + apply List.Forall_forall, forallb_forall. by vm_compute.
    + intros e He. by apply Z.ltb_lt.
Defined.

Definition pubResult : Event * Broker :=
  match PublishOpts env0 publisher "web.a" "1" plain (New 0 opts0) with
  | Some (Ok ev, b) => (ev, b)
  | _ => (zeroEvent, New 0 opts0)
  end.
Lemma pubResult_ok :
  PublishOpts env0 publisher "web.a" "1" plain (New 0 opts0) = Some (Ok pubResult.1, pubResult.2).
Proof.
  assert (Hr : match PublishOpts env0 publisher "web.a" "1" plain (New 0 opts0) with
    | Some (Ok _, _) => true | _ => false end = true) by by vm_compute.
  unfold pubResult. by destruct (PublishOpts _ _ _ _ _ _) as [[[]]|].
Qed.
Lemma published_event_is_authorized_witness :
  admitted env0 publisher "web.a" "1" plain (New 0 opts0) pubResult.1.(Labels) ∧
  pubResult.1.(Publisher) = publisher.(Key) ∧ pubResult.1.(Topic) = "web.a" ∧ pubResult.1.(Payload) = "1" ∧
  pubResult.1.(Seq) = u64 ((New 0 opts0).(bseq) + 1) ∧ pubResult.1.(PrevHash) = (New 0 opts0).(prev).
Proof.
  apply (published_event_is_authorized env0 publisher "web.a" "1" plain (New 0 opts0) pubResult.1 pubResult.2).
  exact pubResult_ok.
Defined.

Lemma leaving_member_loses_nothing_witness : outstanding without1 sub1.(group) ev1.
Proof.
  apply (leaving_member_loses_nothing 0 opts0 calls hist0 bus0 1 sub1 2 sub2 without1 ev1);
    [apply seed_ok|apply seed_ok|exact calls_reach|by apply registered; vm_compute|exact sub1_found|by vm_compute
    |by apply allAckb_ok; vm_compute|by apply registered; vm_compute|done|exact sub2_found|by vm_compute
    |found|exact ev1_flying].
Defined.

Lemma ack_releases_one_witness : outstanding acked sub2.(group) ev1.
Proof.
  apply (ack_releases_one 0 opts0 calls hist0 bus0 2 sub2 2 acked ev1);
    [apply seed_ok|apply seed_ok|exact calls_reach|exact sub2_found|by apply allAckb_ok; vm_compute
    |by vm_compute|found|exact ev1_flying].
Defined.

Definition ev2 : Event := default zeroEvent (hist0 !! 1%nat).
Definition ev3 : Event := default zeroEvent (hist0 !! 2%nat).
Lemma torn_tail_blocks_restart_witness :
  ∃ seed log, resume (streamText [ev1] +:+ "{") None cpEnv = Some (seed, log) ∧
    seed = canonEvent <$> [ev1] ∧
    resume (appendAll [env0.(evIO); env0.(evIO)] [ev2; ev3] log).(elDisk) None cpEnv = None.
Proof.
  apply (torn_tail_blocks_restart [ev1] "{" ev2 ev3 cpEnv env0.(evIO));
    [| |by vm_compute|by vm_compute|by vm_compute|done|repeat constructor; by vm_compute
    |by vm_compute|by vm_compute|right; by vm_compute|by vm_compute|by vm_compute].
  - apply (Forall_impl (λ e, event_okb e = true)); [|apply event_okb_ok].
    apply List.Forall_forall, forallb_forall. by vm_compute.
  - apply (Forall_impl (λ e, (strlen (marshalStruct (eventFields e)) <? Chain.maxLine) = true)).
    + apply List.Forall_forall, forallb_forall. by vm_compute.
    + intros e He. by apply Z.ltb_lt.
Defined.
End BrkRuns.
