(* ===== verification/SqlGuard.v ===== *)
(** * SqlGuard: the read-only SQL firewall

    [air/sqlguard/]: the tokenizer ([token.go]), the statement guard ([guard.go]) and the
    request and result handling ([wire.go]); with the grants and the handler of
    [cmd/meshmcp/airdatabase.go] and [airdatabase_serve.go] that decide what reaches the
    database. The text of a statement is its list of bytes. *)
From stdpp Require Import base list strings gmap.
From Stdlib Require Import ZArith Lia Ascii.
From S2P Require Import Prelude GoStd Crypto.
Open Scope Z_scope.
Open Scope mesh_scope.

Module Sql.

(** ** Tokens *)

Inductive TokenKind := TokenWord | TokenString | TokenQuotedIdent | TokenNumber | TokenPunct | TokenSemicolon.
#[export] Instance TokenKind_eq_dec : EqDecision TokenKind.
Proof. solve_decision. Defined.
Record Token := mkTok { Kind : TokenKind; Text : string }.
#[export] Instance Token_eq_dec : EqDecision Token.
Proof. solve_decision. Defined.

Inductive sqlErr :=
| UnterminatedString | UnterminatedIdent | ErrEmpty | ErrMultipleStatements | ErrNotSelect
| ErrForbiddenKeyword | ErrRedactedInPredicate | ErrControlChars | DBRequired | SQLRequired | SQLTooLong.

Definition isWordStart (c : Z) : bool :=
  ((97 <=? c) && (c <=? 122)) || ((65 <=? c) && (c <=? 90)) || (c =? 95) || (128 <=? c).
Definition isDigit (c : Z) : bool := (48 <=? c) && (c <=? 57).
Definition isWordPart (c : Z) : bool := isWordStart c || isDigit c || (c =? 36).
Definition isBlank (c : Z) : bool := existsb (Z.eqb c) [32; 9; 10; 13; 12; 11].

Fixpoint span (p : Z → bool) (l : list Z) : list Z * list Z :=
  match l with
  | c :: l' => if p c then let '(a, b) := span p l' in (c :: a, b) else ([], l)
  | [] => ([], [])
  end.
(** The rest after a block comment whose opening was read; all is discarded if it is not
    closed. *)
Fixpoint skipBlock (l : list Z) : list Z :=
  match l with
  | c :: ((d :: r) as t) => if (c =? 42) && (d =? 47) then r else skipBlock t
  | _ => []
  end.
(** [scanQuoted] behind the opening quote [q]: a doubled quote does not close. *)
Fixpoint scanQuoted (q : Z) (l : list Z) : option (list Z * list Z) :=
  match l with
  | [] => None
  | c :: l' =>
      if c =? q then
        match l' with
        | d :: l'' => if d =? q then '(a, r) ← scanQuoted q l''; Some (c :: d :: a, r) else Some ([], l')
        | [] => Some ([], [])
        end
      else '(a, r) ← scanQuoted q l'; Some (c :: a, r)
  end.
(** The bytes of a number after [prev]. *)
Fixpoint numberRest (prev : Z) (l : list Z) : list Z * list Z :=
  match l with
  | c :: l' =>
      if isDigit c || (c =? 46) || (c =? 101) || (c =? 69) || (c =? 43)
         || ((c =? 45) && ((prev =? 101) || (prev =? 69)))
      then let '(a, b) := numberRest c l' in (c :: a, b) else ([], l)
  | [] => ([], [])
  end.

(** One round of the loop of [Tokenize] at byte [c]: the token it appends, if any, and what
    is left. *)
Definition nextToken (c : Z) (l : list Z) : result sqlErr (option Token * list Z) :=
  let quoted kind e q :=
    match scanQuoted q l with
    | Some (a, r) => Ok (Some (mkTok kind (of_codes a)), r)
    | None => Err e
    end in
  if isBlank c then Ok (None, l)
  else if (c =? 45) && (match l with d :: _ => d =? 45 | [] => false end)
  then Ok (None, (span (λ d, negb (d =? 10)) (drop 1 l)).2)
  else if (c =? 47) && (match l with d :: _ => d =? 42 | [] => false end)
  then Ok (None, skipBlock (drop 1 l))
  else if c =? 39 then quoted TokenString UnterminatedString 39
  else if c =? 34 then quoted TokenQuotedIdent UnterminatedIdent 34
  else if c =? 96 then quoted TokenQuotedIdent UnterminatedIdent 96
  else if c =? 91 then
    match span (λ d, negb (d =? 93)) l with
    | (a, _ :: r) => Ok (Some (mkTok TokenQuotedIdent (of_codes a)), r)
    | (_, []) => Err UnterminatedIdent
    end
  else if c =? 59 then Ok (Some (mkTok TokenSemicolon ";"), l)
  else if isWordStart c then
    let '(a, r) := span isWordPart l in Ok (Some (mkTok TokenWord (of_codes (c :: a))), r)
  else if isDigit c then
    let '(a, r) := numberRest c l in Ok (Some (mkTok TokenNumber (of_codes (c :: a))), r)
  else Ok (Some (mkTok TokenPunct (of_codes [c])), l).

(** The loop; [None]: out of fuel. *)
Fixpoint tokenize (fuel : nat) (l : list Z) : option (result sqlErr (list Token)) :=
  match l, fuel with
  | [], _ => Some (Ok [])
  | _, O => None
  | c :: l, S fuel =>
      match nextToken c l with
      | Err e => Some (Err e)
      | Ok (t, r) =>
          rest ← tokenize fuel r;
          Some (let* ts := rest in Ok (match t with Some t => t :: ts | None => ts end))
      end
  end.
Definition Tokenize (sql : string) : option (result sqlErr (list Token)) :=
  tokenize (String.length sql) (codes sql).

(** ** The guard *)

Definition forbiddenKeywords : list string :=
  ["insert"; "update"; "delete"; "drop"; "alter"; "create"; "truncate"; "replace"; "merge"; "upsert";
   "attach"; "detach"; "pragma"; "vacuum"; "reindex"; "analyze"; "grant"; "revoke"; "commit";
   "rollback"; "begin"; "savepoint"; "set"; "call"; "exec"; "execute"; "do"; "copy"; "load"; "with";
   "into"; "returning"].
Definition clauseBoundary : list string :=
  ["where"; "group"; "order"; "having"; "limit"; "offset"; "union"; "intersect"; "except"; "window";
   "for"; "fetch"; "join"; "inner"; "left"; "right"; "full"; "cross"; "outer"; "natural"; "on"; "using"].
Definition memS (s : string) (l : list string) : bool := existsb (String.eqb s) l.
Lemma memS_true s l : memS s l = true ↔ s ∈ l.
Proof.
  unfold memS. rewrite existsb_exists, list_elem_of_In. split; [|intros; exists s; by rewrite String.eqb_refl].
  by intros (y & Hy & ->%String.eqb_eq).
Qed.

(** [strings.EqualFold] against lower-case ASCII text: besides the ASCII letters only
    U+017F folds to [s] and U+212A to [k]. *)
Fixpoint foldCodes (l : list Z) : list Z :=
  match l with
  | 197 :: 191 :: l => 115 :: foldCodes l
  | 226 :: 132 :: 170 :: l => 107 :: foldCodes l
  | c :: l => (if (65 <=? c) && (c <=? 90) then c + 32 else c) :: foldCodes l
  | [] => []
  end.
Definition equalFold (s lower : string) : bool := (of_codes (foldCodes (codes s)) =? lower)%string.

Definition isKind (k : TokenKind) (t : Token) : bool := bool_decide (t.(Kind) = k).
Definition isPunct (s : string) (t : Token) : bool := isKind TokenPunct t && (t.(Text) =? s)%string.
Definition isName (t : Token) : bool := isKind TokenWord t || isKind TokenQuotedIdent t.

Fixpoint splitLoop (cur : list Token) (toks : list Token) : list (list Token) :=
  match toks with
  | [] => match cur with [] => [] | _ => [cur] end
  | t :: toks =>
      if isKind TokenSemicolon t
      then match cur with [] => splitLoop [] toks | _ => cur :: splitLoop [] toks end
      else splitLoop (cur ++ [t]) toks
  end.
Definition splitStatements (toks : list Token) : list (list Token) := splitLoop [] toks.

Fixpoint firstWord (stmt : list Token) : option string :=
  match stmt with
  | [] => None
  | t :: stmt => if isPunct "(" t then firstWord stmt
                 else if isKind TokenWord t then Some t.(Text) else None
  end.

(** [tableRef] at the first token of [l]: the last component of the name and the rest. *)
Fixpoint dotted (name : string) (l : list Token) : string * list Token :=
  match l with
  | d :: ((t :: r) as l') =>
      if isPunct "." d && isName t then dotted t.(Text) r else (name, l)
  | _ => (name, l)
  end.
Definition tableRef (l : list Token) : option (string * list Token) :=
  match l with
  | t :: r => if isName t then Some (dotted t.(Text) r) else None
  | [] => None
  end.

(** What follows the parenthesis that closes the first one of [l], nothing if none does. *)
Fixpoint skipParens (depth : nat) (l : list Token) : list Token :=
  match l with
  | [] => []
  | t :: l =>
      if isPunct "(" t then skipParens (S depth) l
      else if isPunct ")" t then
        match depth with
        | 1%nat => l
        | _ => skipParens (pred depth) l
        end
      else skipParens depth l
  end.

Definition addName (acc : list string) (name : string) : list string :=
  if (name =? "")%string || memS name acc then acc else acc ++ [name].

Definition isBoundary (t : Token) : bool := isKind TokenWord t && memS (toLower t.(Text)) clauseBoundary.

(** [collectFromList]: the names it adds, in order; [None]: out of fuel. *)
Fixpoint collectFromList (fuel : nat) (expectTable : bool) (l : list Token) : option (list string) :=
  match l, fuel with
  | [], _ => Some []
  | _, O => None
  | t :: r, S fuel =>
      if isBoundary t || isPunct ")" t then Some []
      else if expectTable then
        if isPunct "(" t then collectFromList fuel false (skipParens 0 l)
        else match tableRef l with
             | Some (name, r) => ns ← collectFromList fuel false r; Some (name :: ns)
             | None => collectFromList fuel true r
             end
      else collectFromList fuel (isPunct "," t) r
  end.

(** The scan of [referencedTables]: what token [t], followed by [r], adds. *)
Definition visit (t : Token) (r : list Token) (acc : list string) : list string :=
  if isKind TokenWord t then
    if equalFold t.(Text) "from"
    then fold_left addName (default [] (collectFromList (length r) true r)) acc
    else if (toLower t.(Text) =? "join")%string then
      match tableRef r with Some (name, _) => addName acc name | None => acc end
    else acc
  else acc.
Fixpoint scanTables (stmt : list Token) (acc : list string) : list string :=
  match stmt with
  | [] => acc
  | t :: r => scanTables r (visit t r acc)
  end.
Definition referencedTables (stmt : list Token) : list string := scanTables stmt [].

Definition isForbidden (t : Token) : bool :=
  isKind TokenWord t && memS (toLower t.(Text)) forbiddenKeywords.

Definition checkTokens (toks : list Token) : result sqlErr (list string) :=
  match splitStatements toks with
  | [] => Err ErrEmpty
  | [stmt] =>
      match firstWord stmt with
      | Some w =>
          if equalFold w "select" then
            if existsb isForbidden stmt then Err ErrForbiddenKeyword
            else Ok (referencedTables stmt)
          else Err ErrNotSelect
      | None => Err ErrNotSelect
      end
  | _ => Err ErrMultipleStatements
  end.
(** The tokens of a statement: [Tokenize] returns ([Tokenize_returns]). *)
Definition tokens (sql : string) : result sqlErr (list Token) := default (Ok []) (Tokenize sql).
Definition Check (sql : string) : result sqlErr (list string) :=
  let* toks := tokens sql in checkTokens toks.

Definition redactSet (redact : list string) : list string :=
  List.filter (λ c, negb (c =? "")%string) ((λ c, toLower (trimSpace c)) <$> redact).
(** The tokens behind the first [FROM]. *)
Fixpoint afterFrom (toks : list Token) : option (list Token) :=
  match toks with
  | [] => None
  | t :: r => if isKind TokenWord t && equalFold t.(Text) "from" then Some r else afterFrom r
  end.
Definition CheckRedaction (sql : string) (redact : list string) : result sqlErr unit :=
  match redact with
  | [] => Ok tt
  | _ =>
      let* toks := tokens sql in
      match afterFrom toks with
      | None => Ok tt
      | Some l => guard_err (existsb (λ t, isName t && memS (toLower t.(Text)) (redactSet redact)) l)
                    ErrRedactedInPredicate
      end
  end.

(** ** Requests and results *)

(** A result cell, an [any]: [None] is nil; the values are the driver's, of which the code
    uses what [fmt.Sprint] prints and that a string is a value. *)
Class GoAny := { Val : Type; sprint : Val → string; strVal : string → Val }.

Section Wire.
Context `{GoAny}.

Record Query := mkQuery { DB : string; SQL : string; Params : list (option Val); Limit : Z; ID : string }.
Record Column := mkCol { Name : string; Type_ : string }.
Record QueryResult := mkQueryResult {
  rDB : string; rColumns : list Column; rRows : list (list (option Val)); RowCount : Z;
  Truncated : bool; Redacted : list string; QueryHash : string }.

Definition maxSQLBytes : Z := Z.shiftl 64 10.
Definition isControl (c : Z) : bool :=
  negb ((c =? 9) || (c =? 10) || (c =? 13)) && ((c <? 32) || (c =? 127)).
(** The runes below 128 are the bytes below 128. *)
Definition Validate (q : Query) : result sqlErr unit :=
  if (trimSpace q.(DB) =? "")%string then Err DBRequired
  else if (trimSpace q.(SQL) =? "")%string then Err SQLRequired
  else if maxSQLBytes <? strlen q.(SQL) then Err SQLTooLong
  else if existsb isControl (codes q.(SQL)) then Err ErrControlChars
  else Ok tt.

(** [strings.Fields], with [cur] the bytes of the field being read. No encoding of a space
    begins inside that of another rune, so the text can be walked by bytes. *)
Fixpoint fields (fuel : nat) (cur l : list Z) : list (list Z) :=
  let emit rest := match cur with [] => rest | _ => cur :: rest end in
  match l, fuel with
  | [], _ | _, O => emit []
  | c :: r, S fuel =>
      match stripSpace spaceSeqs l with
      | Some l' => emit (fields fuel [] l')
      | None => fields fuel (cur ++ [c]) r
      end
  end.
Definition joinSpace (fs : list (list Z)) : list Z :=
  match fs with [] => [] | f :: fs => f ++ concat ((λ g, 32 :: g) <$> fs) end.
Fixpoint dropTrailing (rl : list Z) : list Z :=
  match rl with
  | c :: r => if existsb (Z.eqb c) [59; 32; 9; 10; 13] then dropTrailing r else rl
  | [] => []
  end.
Definition NormalizeSQL (sql : string) : string :=
  of_codes (reverse (dropTrailing (reverse (joinSpace (fields (String.length sql) [] (codes sql)))))).
Definition Hash `{SHA256} (q : Query) : string :=
  sha256Hex (q.(DB) +:+ of_codes [10] +:+ NormalizeSQL q.(SQL)).

Definition rowBytes (row : list (option Val)) : Z :=
  fold_left (λ total v, match v with None => total + 4 | Some v => total + (strlen (sprint v) + 1) end) row 0.

Fixpoint capLoop (maxRows maxBytes : Z) (rows : list (list (option Val))) (kept used : Z)
    : list (list (option Val)) * bool :=
  match rows with
  | [] => ([], false)
  | row :: rows =>
      if (0 <? maxRows) && (maxRows <=? kept) then ([], true)
      else let sz := rowBytes row in
        if (0 <? maxBytes) && (0 <? kept) && (maxBytes <? used + sz) then ([], true)
        else let '(out, t) := capLoop maxRows maxBytes rows (kept + 1) (used + sz) in (row :: out, t)
  end.
Definition ApplyCaps (rows : list (list (option Val))) (maxRows maxBytes : Z) :=
  capLoop maxRows maxBytes rows 0 0.

Definition redactedValue : string := "[redacted]".
Definition maskCols (cols : list Column) (redact : list string) : list bool :=
  (λ c, memS (toLower c.(Name)) (redactSet redact)) <$> cols.
Fixpoint maskedNames (seen : list string) (cols : list Column) (mask : list bool) : list string :=
  match cols, mask with
  | c :: cols, m :: mask =>
      if m && negb (memS c.(Name) seen) then c.(Name) :: maskedNames (c.(Name) :: seen) cols mask
      else maskedNames seen cols mask
  | _, _ => []
  end.
Fixpoint maskRow (mask : list bool) (row : list (option Val)) : list (option Val) :=
  match mask, row with
  | m :: mask, v :: row => (if m then Some (strVal redactedValue) else v) :: maskRow mask row
  | _, _ => row
  end.
(** One round of [sortStrings]: the new element moves left over the greater ones. *)
Fixpoint insertS (x : string) (sorted : list string) : list string :=
  match sorted with
  | [] => [x]
  | y :: l => if String.ltb x y then x :: y :: l else y :: insertS x l
  end.
Definition sortStrings (l : list string) : list string := fold_left (λ acc x, insertS x acc) l [].

Definition ApplyRedaction (cols : list Column) (rows : list (list (option Val))) (redact : list string)
    : list (list (option Val)) * list string :=
  match redact, cols with
  | [], _ | _, [] => (rows, [])
  | _, _ =>
      let mask := maskCols cols redact in
      match maskedNames [] cols mask with
      | [] => (rows, [])
      | names => (maskRow mask <$> rows, sortStrings names)
      end
  end.
End Wire.


(** ** The tokenizer returns *)

Lemma span_eq p l : (span p l).1 ++ (span p l).2 = l.
Proof. induction l as [|c l IH]; [done|]. simpl. destruct (p c); [|done]. destruct (span p l). simpl in *. by rewrite IH. Qed.
Lemma span_length p l : (length (span p l).2 ≤ length l)%nat.
Proof. rewrite <-(span_eq p l) at 2. rewrite length_app. lia. Qed.
Lemma skipBlock_length l : (length (skipBlock l) ≤ length l)%nat.
Proof.
  induction l as [|c [|d r] IH]; [simpl; lia..|].
  change (skipBlock (c :: d :: r)) with (if (c =? 42) && (d =? 47) then r else skipBlock (d :: r)).
  destruct ((c =? 42) && (d =? 47)); cbn [length] in *; lia.
Qed.
Lemma scanQuoted_length q l a r : scanQuoted q l = Some (a, r) → (length r ≤ length l)%nat.
Proof.
  revert a r. induction l as [l IH] using (induction_ltof1 _ length). unfold ltof in IH. intros a r.
  destruct l as [|c l]; simpl; [done|].
  assert (Hl : ∀ a r, scanQuoted q l = Some (a, r) → (length r ≤ length l)%nat) by (intros ??; apply IH; simpl; lia).
  destruct (c =? q).
  - destruct l as [|d l']; [intros [= <- <-]; simpl; lia|].
    destruct (d =? q); [|intros [= <- <-]; simpl; lia].
    intros ([a' r'] & Hs & [= <- <-])%bind_Some. apply IH in Hs; simpl in *; lia.
  - intros ([a' r'] & Hs & [= <- <-])%bind_Some. apply Hl in Hs. lia.
Qed.
Lemma numberRest_length p l : (length (numberRest p l).2 ≤ length l)%nat.
Proof.
  induction l as [|c l IH] in p |- *; simpl; [lia|]. case_match; simpl; [|lia].
  specialize (IH c). destruct (numberRest c l). simpl in *. lia.
Qed.
Lemma nextToken_length c l t r : nextToken c l = Ok (t, r) → (length r ≤ length l)%nat.
Proof.
  unfold nextToken. pose proof (span_length (λ d, negb (d =? 10)) (drop 1 l)) as H1.
  pose proof (skipBlock_length (drop 1 l)) as H2. pose proof (span_length (λ d, negb (d =? 93)) l) as H3.
  pose proof (span_length isWordPart l) as H4. pose proof (numberRest_length c l) as H5.
  rewrite length_drop in H1, H2.
  intros Hn. repeat (case_in Hn; try discriminate Hn); simplify_eq; simpl in *; try lia.
  all: eapply scanQuoted_length; eassumption.
Qed.
Lemma tokenize_fuel fuel l : (length l ≤ fuel)%nat → is_Some (tokenize fuel l).
Proof.
  induction fuel as [|fuel IH] in l |- *; destruct l as [|c l]; simpl; intros Hl; [by eexists|lia|by eexists|].
  destruct (nextToken c l) as [[t r]|e] eqn:Hn; [|by eexists].
  destruct (IH r) as [x Hx]; [apply nextToken_length in Hn; lia|]. rewrite Hx. simpl. by eexists.
Qed.

Lemma skipParens_length d l : (length (skipParens d l) ≤ length l)%nat.
Proof. induction l as [|t l IH] in d |- *; simpl; [lia|]. repeat case_match; simpl; auto; etrans; eauto; lia. Qed.


Lemma dotted_length n l : (length (dotted n l).2 ≤ length l)%nat.
Proof.
  revert n. induction l as [l IH] using (induction_ltof1 _ length). unfold ltof in IH. intros n.
  destruct l as [|d [|t r]]; [simpl; lia..|]. cbn [dotted].
  destruct (isPunct "." d && isName t); [|simpl; lia].
  specialize (IH r ltac:(simpl; lia) (Text t)). simpl in *. lia.
Qed.
Lemma tableRef_length l n r : tableRef l = Some (n, r) → (length r < length l)%nat.
Proof.
  destruct l as [|t l]; [done|]. simpl. destruct (isName t); [|done]. intros [= Hd].
  pose proof (dotted_length (Text t) l) as Hl. rewrite Hd in Hl. simpl in Hl. lia.
Qed.

(** Fuel: as much as there are tokens suffices, and more changes nothing. *)
Lemma collect_returns fuel b l : (length l ≤ fuel)%nat → is_Some (collectFromList fuel b l).
Proof.
  induction fuel as [|fuel IH] in b, l |- *; destruct l as [|t l]; cbn [collectFromList]; intros Hl;
    [by eexists|simpl in Hl; lia|by eexists|].
  simpl in Hl. destruct (isBoundary t || isPunct ")" t); [by eexists|].
  destruct b; [|apply IH; lia]. destruct (isPunct "(" t) eqn:Hp.
  - apply IH. simpl. rewrite Hp. pose proof (skipParens_length 1 l). lia.
  - destruct (tableRef (t :: l)) as [[n r]|] eqn:Ht; [|apply IH; lia].
    apply tableRef_length in Ht. destruct (IH false r) as [x Hx]; [simpl in Ht; lia|].
    rewrite Hx. by eexists.
Qed.
Lemma collect_mono f1 f2 b l x :
  (f1 ≤ f2)%nat → collectFromList f1 b l = Some x → collectFromList f2 b l = Some x.
Proof.
  induction f1 as [|f1 IH] in f2, b, l, x |- *; destruct l as [|t l]; cbn [collectFromList]; intros Hf;
    [destruct f2; done|done|destruct f2; done|].
  destruct f2 as [|f2]; [lia|]. cbn [collectFromList].
  repeat (case_match; try done); try (apply IH; lia).
  intros (ns & Hns & [= <-])%bind_Some. erewrite IH; [done| |exact Hns]. lia.
Qed.
Definition collect (b : bool) (l : list Token) : list string := default [] (collectFromList (length l) b l).
Lemma collect_fuel f b l : (length l ≤ f)%nat → default [] (collectFromList f b l) = collect b l.
Proof.
  intros Hf. unfold collect. destruct (collect_returns (length l) b l) as [x Hx]; [done|].
  by rewrite Hx, (collect_mono _ _ _ _ _ Hf Hx).
Qed.
Lemma collect_cons b t r :
  collect b (t :: r) =
    if isBoundary t || isPunct ")" t then []
    else if b then
      if isPunct "(" t then collect false (skipParens 1 r)
      else match tableRef (t :: r) with
           | Some (name, r) => name :: collect false r
           | None => collect true r
           end
    else collect (isPunct "," t) r.
Proof.
  unfold collect at 1. cbn [length collectFromList].
  destruct (isBoundary t || isPunct ")" t); [done|]. destruct b; [|done].
  destruct (isPunct "(" t) eqn:Hp.
  - cbn [skipParens]. rewrite Hp. apply collect_fuel, skipParens_length.
  - destruct (tableRef (t :: r)) as [[n r']|] eqn:Ht; [|done]. apply tableRef_length in Ht.
    rewrite <-(collect_fuel (length r)) by (simpl in Ht; lia).
    destruct (collect_returns (length r) false r') as [x Hx]; [simpl in Ht; lia|]. by rewrite Hx.
Qed.

(** ** Tables introduced by [FROM] lists and [JOIN]s *)

Definition punct (s : string) : Token := mkTok TokenPunct s.
Inductive balanced : list Token → Prop :=
| bal_nil : balanced []
| bal_tok t b : isPunct "(" t = false → isPunct ")" t = false → balanced b → balanced (t :: b)
| bal_paren b1 b2 : balanced b1 → balanced b2 → balanced (punct "(" :: b1 ++ punct ")" :: b2).
Lemma skipParens_balanced b : balanced b → ∀ d l, skipParens (S d) (b ++ l) = skipParens (S d) l.
Proof.
  induction 1 as [|t b Ho Hc _ IH|b1 b2 _ IH1 _ IH2]; intros d l; [done| |].
  - simpl. by rewrite Ho, Hc, IH.
  - simpl. rewrite <-app_assoc, IH1. simpl. by rewrite IH2.
Qed.

(** An item of a [FROM] list, with the tokens of its alias: a dotted name, or a
    parenthesised query. *)
Inductive fromItem :=
| TableItem (first : Token) (more : list Token) (alias : list Token)
| SubItem (body alias : list Token).
Definition lastTok (f : Token) (ts : list Token) : Token := fold_left (λ _ t, t) ts f.
Definition printItem (it : fromItem) : list Token :=
  match it with
  | TableItem f ts al => f :: concat ((λ t, [punct "."; t]) <$> ts) ++ al
  | SubItem b al => punct "(" :: b ++ punct ")" :: al
  end.
Definition itemTables (it : fromItem) : list string :=
  match it with
  | TableItem f ts _ => [Text (lastTok f ts)]
  | SubItem _ _ => []
  end.
Definition aliasTok (t : Token) : bool :=
  negb (isBoundary t || isPunct ")" t || isPunct "," t || isPunct "." t).
Definition itemOk (it : fromItem) : Prop :=
  match it with
  | TableItem f ts al => isName f = true ∧ isBoundary f = false ∧ Forall (λ t, isName t = true) ts
                         ∧ Forall (λ t, aliasTok t = true) al
  | SubItem b al => balanced b ∧ Forall (λ t, aliasTok t = true) al
  end.
Fixpoint printItems (items : list fromItem) : list Token :=
  match items with
  | [] => []
  | [it] => printItem it
  | it :: items => printItem it ++ punct "," :: printItems items
  end.
(** What may follow a [FROM] list. *)
Definition endsList (rest : list Token) : Prop :=
  match rest with [] => True | t :: _ => isBoundary t = true ∨ isPunct ")" t = true end.

(** [name] is introduced by a [FROM] list or a [JOIN] somewhere in the statement. *)
Inductive introduces (stmt : list Token) (name : string) : Prop :=
| intro_from pre kw items rest it :
    stmt = pre ++ mkTok TokenWord kw :: printItems items ++ rest → equalFold kw "from" = true →
    Forall itemOk items → endsList rest → it ∈ items → name ∈ itemTables it → introduces stmt name
| intro_join pre kw f ts rest :
    stmt = pre ++ mkTok TokenWord kw :: f :: concat ((λ t, [punct "."; t]) <$> ts) ++ rest →
    toLower kw = "join" → equalFold kw "from" = false → isName f = true → Forall (λ t, isName t = true) ts →
    match rest with t :: _ => isPunct "." t = false | [] => True end →
    name = Text (lastTok f ts) → introduces stmt name.

Lemma name_not_paren t : isName t = true → isPunct "(" t = false ∧ isPunct ")" t = false.
Proof. destruct t as [[] x]; done. Qed.
Lemma dotted_spec f ts l :
  Forall (λ t, isName t = true) ts → match l with t :: _ => isPunct "." t = false | [] => True end →
  dotted (Text f) (concat ((λ t, [punct "."; t]) <$> ts) ++ l) = (Text (lastTok f ts), l).
Proof.
  intros Hts Hl. induction Hts as [|t ts Ht _ IH] in f |- *.
  - destruct l as [|d [|t r]]; simpl; [done..|]. by rewrite Hl.
  - cbn. rewrite Ht. simpl. apply IH.
Qed.


Lemma tableRef_spec f ts l :
  isName f = true → Forall (λ t, isName t = true) ts →
  match l with t :: _ => isPunct "." t = false | [] => True end →
  tableRef (f :: concat ((λ t, [punct "."; t]) <$> ts) ++ l) = Some (Text (lastTok f ts), l).
Proof. intros Hf Hts Hl. cbn [tableRef]. by rewrite Hf, dotted_spec. Qed.

(** What follows an item: the end of the list, or a comma and another one. *)
Definition afterItem (l : list Token) : Prop := endsList l ∨ ∃ r, l = punct "," :: r.
Lemma not_dot t : isPunct "." t = true → t = punct ".".
Proof. destruct t as [[] x]; try done. unfold isPunct. simpl. intros ->%String.eqb_eq. done. Qed.
Lemma afterItem_no_dot al l :
  Forall (λ t, aliasTok t = true) al → afterItem l →
  match al ++ l with t :: _ => isPunct "." t = false | [] => True end.
Proof.
  intros Hal Hl. destruct Hal as [|t al Ht _]; simpl.
  - destruct Hl as [Hl|[r ->]]; [|done]. destruct l as [|t l]; [done|].
    destruct (isPunct "." t) eqn:Hd; [|done]. apply not_dot in Hd as ->. by destruct Hl.
  - unfold aliasTok in Ht. breflect. done.
Qed.
Lemma collect_alias al l :
  Forall (λ t, aliasTok t = true) al → collect false (al ++ l) = collect false l.
Proof.
  induction 1 as [|t al Ht _ IH]; [done|]. simpl. rewrite collect_cons. unfold aliasTok in Ht. breflect.
  by rewrite H, H2, H1.
Qed.
Lemma collect_item it l :
  itemOk it → afterItem l → collect true (printItem it ++ l) = itemTables it ++ collect false l.
Proof.
  destruct it as [f ts al|b al]; simpl.
  - intros (Hf & Hb & Hts & Hal) Hl. destruct (name_not_paren f Hf) as [Ho Hc].
    rewrite collect_cons, Hb, Hc, Ho, <-app_assoc. cbn [orb].
    rewrite tableRef_spec by (done || by apply afterItem_no_dot). by rewrite collect_alias.
  - intros (Hb & Hal) Hl. rewrite collect_cons. cbn -[collect skipParens].
    rewrite <-app_assoc, skipParens_balanced by done. simpl. by rewrite collect_alias.
Qed.
Lemma collect_items items rest :
  Forall itemOk items → items ≠ [] → endsList rest →
  collect true (printItems items ++ rest) = concat (itemTables <$> items).
Proof.
  intros Hok Hne Hr. induction Hok as [|it items Hit _ IH]; [done|]. destruct items as [|it' items].
  - cbn [printItems fmap list_fmap concat]. rewrite collect_item by (auto; by left).
    f_equal. destruct rest as [|t r]; [done|]. rewrite collect_cons. destruct Hr as [-> | ->]; simpl; [done|by rewrite orb_true_r].
  - change (printItems (it :: it' :: items)) with (printItem it ++ punct "," :: printItems (it' :: items)).
    rewrite <-app_assoc, collect_item by (auto; right; by eexists).
    cbn [fmap list_fmap concat]. f_equal. rewrite <-app_comm_cons, collect_cons. apply IH. done.
Qed.

Lemma addName_spec acc n x : x ∈ acc ∨ (x = n ∧ x ≠ "") → x ∈ addName acc n.
Proof.
  unfold addName. intros Hx. destruct ((n =? "")%string || memS n acc) eqn:Hb.
  - destruct Hx as [|[-> Hn]]; [done|]. apply String.eqb_neq in Hn. rewrite Hn in Hb. simpl in Hb.
    by apply memS_true.
  - rewrite elem_of_app, list_elem_of_singleton. naive_solver.
Qed.
Lemma addNames_spec ns acc x : x ∈ acc ∨ (x ∈ ns ∧ x ≠ "") → x ∈ fold_left addName ns acc.
Proof.
  induction ns as [|n ns IH] in acc |- *; simpl; [set_solver|].
  intros Hx. apply IH. rewrite elem_of_cons in Hx.
  destruct Hx as [Hx|[[Hx|Hx] Hne]]; [left|left|right; done]; apply addName_spec; auto.
Qed.
Lemma scanTables_cons t r acc : scanTables (t :: r) acc = scanTables r (visit t r acc).
Proof. done. Qed.
Lemma scanTables_acc l acc x : x ∈ acc → x ∈ scanTables l acc.
Proof.
  induction l as [|t l IH] in acc |- *; [done|]. cbn [scanTables]. intros Hx. apply IH. unfold visit.
  repeat case_match; try done; try (apply addNames_spec; by left); apply addName_spec; by left.
Qed.
Lemma scanTables_suffix pre l acc : ∃ acc', scanTables (pre ++ l) acc = scanTables l acc'.
Proof. induction pre as [|t pre IH] in acc |- *; [by eexists|]. cbn [scanTables app]. apply IH. Qed.

(** A table introduced by a [FROM] list (bare, schema-qualified, aliased, next to
    subqueries) or directly after a [JOIN], at any depth of the statement, is among the
    tables the guard reports, so it is checked against the caller's grant. *)
Theorem introduced_tables_reported stmt name :
  introduces stmt name → name ≠ "" → name ∈ referencedTables stmt.
Proof.
  unfold referencedTables. intros [pre kw items rest it -> Hkw Hok Hr Hit Hn|pre kw f ts rest -> Hj Hnf Hf Hts Hr ->] Hne.
  all: edestruct (scanTables_suffix pre) as [acc ->]; rewrite scanTables_cons; apply scanTables_acc;
    unfold visit; change (isKind TokenWord (mkTok TokenWord kw)) with true; cbn [Text].
  - rewrite Hkw. apply addNames_spec. right. split; [|done].
    rewrite collect_fuel by done. rewrite collect_items; [|done| |done].
    + apply list_elem_of_In, in_concat. exists (itemTables it). rewrite <-!list_elem_of_In.
      split; [by apply list_elem_of_fmap_2|done].
    + intros ->. by apply elem_of_nil in Hit.
  - rewrite Hnf, Hj, tableRef_spec by done. apply addName_spec. by right.
Qed.


Lemma Tokenize_returns sql : is_Some (Tokenize sql).
Proof. apply tokenize_fuel. by rewrite length_codes. Qed.

(** C35. The guard returns for every text: the tokenizer consumes at least one byte a round,
    and every scan of a [FROM] list at least one token, however the parentheses nest. *)
Theorem sql_guard_terminates sql :
  is_Some (Tokenize sql) ∧ ∀ toks, is_Some (collectFromList (length toks) true toks).
Proof.
  split; [apply Tokenize_returns|intros toks; by apply collect_returns].
Qed.

(** ** What the guard accepts *)

Lemma splitLoop_open c cur toks : splitLoop (c :: cur) toks ≠ [].
Proof. induction toks as [|v toks IH] in c, cur |- *; simpl; [done|]. case_match; [done|apply IH]. Qed.
Lemma splitLoop_nil toks : splitLoop [] toks = [] → Forall (λ t, isKind TokenSemicolon t = true) toks.
Proof.
  induction toks as [|u toks IH]; [constructor|]. simpl.
  destruct (isKind TokenSemicolon u) eqn:Hu; [by constructor; auto|]. by intros ?%splitLoop_open.
Qed.
Lemma splitLoop_single cur toks stmt :
  splitLoop cur toks = [stmt] →
  ∃ pre mid post, toks = pre ++ mid ++ post ∧ stmt = cur ++ mid ∧ stmt ≠ [] ∧
    Forall (λ t, isKind TokenSemicolon t = true) (pre ++ post) ∧
    Forall (λ t, isKind TokenSemicolon t = false) mid ∧ (cur ≠ [] → pre = []).
Proof.
  induction toks as [|t toks IH] in cur |- *; simpl.
  { destruct cur as [|c cur]; [done|]. intros [= <-]. exists [], [], []. rewrite !app_nil_r.
    split_and!; try done; by apply Forall_nil. }
  destruct (isKind TokenSemicolon t) eqn:Ht.
  - destruct cur as [|c cur].
    + intros (pre & mid & post & -> & -> & Hne & Hs & Hm & _)%IH.
      exists (t :: pre), mid, post. split_and!; try done. by constructor.
    + intros [= <- Hnil]. exists [], [], (t :: toks). split_and!; try done; [by rewrite app_nil_r|].
      constructor; [done|]. by apply splitLoop_nil.
  - intros (pre & mid & post & -> & -> & Hne & Hs & Hm & Hp)%IH.
    rewrite Hp in * by (by destruct cur). exists [], (t :: mid), post.
    split_and!; try done; [by rewrite <-app_assoc|by constructor].
Qed.
Lemma firstWord_spec stmt w :
  firstWord stmt = Some w → ∃ ps rest, stmt = ps ++ mkTok TokenWord w :: rest ∧ Forall (λ t, isPunct "(" t = true) ps.
Proof.
  induction stmt as [|t stmt IH]; [done|]. simpl. destruct (isPunct "(" t) eqn:Hp.
  - intros (ps & rest & -> & Hps)%IH. exists (t :: ps), rest. split; [done|by constructor].
  - destruct t as [k x]. unfold isKind. simpl. case_bool_decide; [|done]. intros [= <-]. subst. by exists [], stmt.
Qed.

(** An accepted text is one statement: but for semicolons around it the tokens are those
    of a single statement without one; its first word, behind opening parentheses only, is
    [SELECT]; no word of it, in any letter case and wherever it stands, is one of the
    writing, DDL or transaction keywords. *)
Theorem accepted_text_is_one_select sql tables :
  Check sql = Ok tables →
  ∃ pre ps w rest post, let stmt := ps ++ mkTok TokenWord w :: rest in
    Tokenize sql = Some (Ok (pre ++ stmt ++ post)) ∧
    Forall (λ t, isKind TokenSemicolon t = true) (pre ++ post) ∧
    Forall (λ t, isKind TokenSemicolon t = false) stmt ∧
    Forall (λ t, isPunct "(" t = true) ps ∧ equalFold w "select" = true ∧
    (∀ t, t ∈ pre ++ stmt ++ post → Kind t = TokenWord → toLower (Text t) ∉ forbiddenKeywords) ∧
    tables = referencedTables stmt.
Proof.
  unfold Check, tokens. destruct (Tokenize_returns sql) as [r Hr]. rewrite Hr. simpl.
  intros (toks & -> & Hc)%rbind_ok. unfold checkTokens in Hc.
  destruct (splitStatements toks) as [|stmt [|]] eqn:Hs; [done| |done].
  apply splitLoop_single in Hs as (pre & mid & post & -> & -> & _ & Hsemi & Hmid & _). simpl in Hc.
  destruct (firstWord mid) as [w|] eqn:Hw; [|done]. apply firstWord_spec in Hw as (ps & rest & -> & Hps).
  destruct (equalFold w "select") eqn:He; [|done]. destruct (existsb _ _) eqn:Hf; [done|].
  injection Hc as <-. exists pre, ps, w, rest, post. simpl. split_and!; try done.
  intros t Ht Hk Hin. assert (t ∈ ps ++ mkTok TokenWord w :: rest) as Ht'.
  { rewrite Forall_forall in Hsemi. rewrite !elem_of_app in Ht.
    destruct Ht as [Ht|[Ht|Ht]]; [| by apply elem_of_app|];
      specialize (Hsemi t); rewrite elem_of_app in Hsemi; unfold isKind in Hsemi; rewrite Hk in Hsemi;
      by specialize (Hsemi ltac:(auto)). }
  rewrite <-not_true_iff_false in Hf. apply Hf, existsb_exists. exists t.
  split; [by apply list_elem_of_In|]. unfold isForbidden, isKind. rewrite Hk. by apply memS_true.
Qed.


(** ** Redaction and caps *)

Lemma redactSet_spec redact x : x ∈ redactSet redact ↔ x ≠ "" ∧ ∃ c, c ∈ redact ∧ x = toLower (trimSpace c).
Proof.
  unfold redactSet. rewrite list_elem_of_In, filter_In, <-list_elem_of_In, list_elem_of_fmap, negb_true_iff, String.eqb_neq.
  naive_solver.
Qed.

Lemma afterFrom_mem toks t :
  (∃ l, afterFrom toks = Some l ∧ t ∈ l) ↔
  ∃ pre kw post, toks = pre ++ mkTok TokenWord kw :: post ∧ equalFold kw "from" = true ∧ t ∈ post.
Proof.
  induction toks as [|u toks IH]; simpl.
  - split; [by intros (? & ? & ?)|]. by intros ([] & ? & ? & ? & ?).
  - destruct (isKind TokenWord u && equalFold (Text u) "from") eqn:Hu.
    + breflect. destruct u as [k x]. unfold isKind in H. simpl in *. breflect. subst. split.
      * intros (l & [= ->] & Ht). by exists [], x, l.
      * intros (pre & kw & post & Heq & _ & Ht). exists toks. split; [done|].
        destruct pre as [|v pre]; simplify_eq/=; [done|]. set_solver.
    + rewrite IH. split.
      * intros (pre & kw & post & -> & Hk & Ht). by exists (u :: pre), kw, post.
      * intros (pre & kw & post & Heq & Hk & Ht). destruct pre as [|v pre]; simplify_eq/=.
        { by rewrite Hk in Hu. }
        by exists pre, kw, post.
Qed.

(** [CheckRedaction] lets a text pass exactly if no redacted column is named, quoted or
    not, behind the first [FROM]: not in a condition, a join, a grouping, an order or a
    subquery of the [FROM] clause. *)
Theorem redacted_columns_stay_out_of_predicates sql redact toks :
  Tokenize sql = Some (Ok toks) →
  (CheckRedaction sql redact = Ok tt ↔
   ∀ pre kw post, toks = pre ++ mkTok TokenWord kw :: post → equalFold kw "from" = true →
     ∀ t c, t ∈ post → isName t = true → c ∈ redact → toLower (trimSpace c) ≠ "" →
       toLower (Text t) ≠ toLower (trimSpace c)).
Proof.
  intros Htok. assert (CheckRedaction sql redact = Ok tt ↔
    ∀ t l, afterFrom toks = Some l → t ∈ l → isName t = true → toLower (Text t) ∉ redactSet redact) as ->.
  { unfold CheckRedaction, tokens. rewrite Htok. destruct redact as [|c rs]; [split; [|done]; intros _ t l _ _ _; apply not_elem_of_nil|].
    simpl. destruct (afterFrom toks) as [l|]; [|naive_solver]. rewrite guard_err_ok.
    rewrite <-not_true_iff_false, existsb_exists. split.
    - intros Hno t l' [= <-] Ht Hn Hin. apply Hno. exists t. split; [by apply list_elem_of_In|].
      rewrite Hn. by apply memS_true.
    - intros Hall (t & Ht & Hb). breflect. eapply Hall; [done|by apply list_elem_of_In|done|by apply memS_true]. }
  split.
  - intros Hall pre kw post -> Hk t c Ht Hn Hc Hne Heq.
    destruct (proj2 (afterFrom_mem (pre ++ mkTok TokenWord kw :: post) t)) as (l & Hl & Htl); [by eauto 10|].
    eapply Hall; [exact Hl|exact Htl|done|]. apply redactSet_spec. rewrite Heq. eauto.
  - intros Hall t l Hl Ht Hn (Hne & c & Hc & Heq)%redactSet_spec.
    destruct (proj1 (afterFrom_mem toks t)) as (pre & kw & post & -> & Hk & Htp); [by eauto|].
    rewrite Heq in Hne. by eapply Hall.
Qed.

Section WireThm.
Context `{GoAny}.

Lemma fold_rowBytes row a :
  fold_left (λ total v, match v with None => total + 4 | Some v => total + (strlen (sprint v) + 1) end) row a = a + rowBytes row.
Proof.
  unfold rowBytes. induction row as [|v row IH] in a |- *; simpl; [lia|].
  destruct v; rewrite IH, (IH (0 + _)); lia.
Qed.
Definition sizeOf (rows : list (list (option Val))) : Z := fold_right Z.add 0 (rowBytes <$> rows).

Lemma capLoop_spec maxRows maxBytes rows kept used out t :
  0 ≤ kept → capLoop maxRows maxBytes rows kept used = (out, t) →
  (0 < maxRows → kept ≤ maxRows → kept + Z.of_nat (length out) ≤ maxRows) ∧
  (0 < maxBytes → 0 < kept → used ≤ maxBytes → used + sizeOf out ≤ maxBytes) ∧
  ∃ more, rows = out ++ more ∧ (t = true ↔ more ≠ []) ∧
    ∀ row more', more = row :: more' →
      (0 < maxRows ∧ maxRows ≤ kept + Z.of_nat (length out)) ∨
      (0 < maxBytes ∧ 0 < kept + Z.of_nat (length out) ∧ maxBytes < used + sizeOf out + rowBytes row).
Proof.
  induction rows as [|row rows IH] in kept, used, out, t |- *; intros Hk; cbn [capLoop].
  { intros [= <- <-]. split_and!; [simpl; lia|change (sizeOf []) with 0; lia|]. exists []. naive_solver. }
  destruct ((0 <? maxRows) && (maxRows <=? kept)) eqn:H1.
  { breflect. intros [= <- <-]. split_and!; [simpl; lia|change (sizeOf []) with 0; lia|]. exists (row :: rows). simpl.
    split_and!; [done|done|]. intros ?? [= <- <-]. left. lia. }
  destruct ((0 <? maxBytes) && (0 <? kept) && (maxBytes <? used + rowBytes row)) eqn:H2.
  { breflect. intros [= <- <-]. split_and!; [simpl; lia|change (sizeOf []) with 0; lia|]. exists (row :: rows). simpl.
    split_and!; [done|done|]. intros ?? [= <- <-]. right. change (sizeOf []) with 0. lia. }
  destruct (capLoop maxRows maxBytes rows (kept + 1) (used + rowBytes row)) as [out' t'] eqn:Hc. intros [= <- <-].
  apply IH in Hc as (Hr & Hb & more & -> & Ht & Hm); [|lia].
  apply andb_false_iff in H1. rewrite !andb_false_iff in H2. rewrite Z.ltb_ge, Z.leb_gt in H1. rewrite !Z.ltb_ge in H2.
  cbn [length]. change (sizeOf (row :: out')) with (rowBytes row + sizeOf out').
  rewrite Nat2Z.inj_succ. split_and!; [lia| |].
  - intros. enough (used + rowBytes row + sizeOf out' ≤ maxBytes) by lia. apply Hb; lia.
  - exists more. split_and!; [done|done|]. intros r' more' ->. destruct (Hm _ _ eq_refl); [left|right]; lia.
Qed.
Lemma rowBytes_pos row : 0 ≤ rowBytes row.
Proof.
  induction row as [|v row IH]; [done|]. unfold rowBytes. simpl. rewrite fold_rowBytes.
  destruct v; [unfold strlen|]; lia.
Qed.

(** The rows served are the longest prefix of the rows read that respects both caps (a
    first row wider than the byte cap is served alone), and the truncation flag says
    exactly whether rows were left out. *)
Theorem caps_keep_longest_prefix rows maxRows maxBytes out t :
  ApplyCaps rows maxRows maxBytes = (out, t) →
  (0 < maxRows → Z.of_nat (length out) ≤ maxRows) ∧
  (0 < maxBytes → (length out ≤ 1)%nat ∨ sizeOf out ≤ maxBytes) ∧
  ∃ more, rows = out ++ more ∧ (t = true ↔ more ≠ []) ∧
    ∀ row more', more = row :: more' →
      (0 < maxRows ∧ maxRows < Z.of_nat (length (out ++ [row]))) ∨
      (0 < maxBytes ∧ (1 < length (out ++ [row]))%nat ∧ maxBytes < sizeOf (out ++ [row])).
Proof.
  unfold ApplyCaps. intros Hc. pose proof Hc as (Hr & _ & more & Hm & Ht & Hmax)%capLoop_spec; [|done].
  split_and!; [intros; lia| |exists more; split_and!; [done|done|]].
  - intros Hb. subst rows. destruct out as [|row out]; [left; simpl; lia|].
    cbn [capLoop app] in Hc. rewrite andb_false_r in Hc. case_match; [done|].
    destruct (capLoop maxRows maxBytes (out ++ more) (0 + 1) (0 + rowBytes row)) as [out' t'] eqn:Hc'.
    injection Hc as -> ->. change (sizeOf (row :: out)) with (rowBytes row + sizeOf out).
    destruct (decide (rowBytes row ≤ maxBytes)) as [Hle|Hgt].
    + apply capLoop_spec in Hc' as (_ & Hb' & _); [|done]. right. specialize (Hb' ltac:(lia) ltac:(lia) ltac:(lia)). lia.
    + left. destruct out as [|row2 out]; [simpl; lia|]. exfalso. cbn [capLoop app] in Hc'.
      pose proof (rowBytes_pos row2). rewrite (proj2 (Z.ltb_lt 0 maxBytes)) in Hc' by done.
      rewrite (proj2 (Z.ltb_lt maxBytes _)) in Hc' by lia. simpl in Hc'. by case_match.
  - intros row more' ->. rewrite length_app. simpl.
    assert (sizeOf (out ++ [row]) = sizeOf out + rowBytes row) as ->.
    { clear. unfold sizeOf. induction out as [|r out IH]; [simpl; lia|].
      rewrite <-app_comm_cons, !fmap_cons. cbn [fold_right]. lia. }
    destruct (Hmax _ _ eq_refl) as [|]; [left|right]; lia.
Qed.

(** A result column is masked. *)
Definition masked (cols : list Column) (redact : list string) (i : nat) : bool :=
  default false (maskCols cols redact !! i).
Lemma maskRow_lookup mask row i :
  maskRow mask row !! i = (λ v, if default false (mask !! i) then Some (strVal redactedValue) else v) <$> row !! i.
Proof.
  induction mask as [|m mask IH] in row, i |- *; destruct row as [|v row], i as [|i]; simpl; try done.
  by destruct (row !! i).
Qed.
Lemma maskedNames_nil seen cols mask : Forall (λ c, memS (Name c) seen = false) cols → length mask = length cols →
  maskedNames seen cols mask = [] → Forall (λ m, m = false) mask.
Proof.
  revert seen mask. induction cols as [|c cols IH]; intros seen [|m mask]; simpl; try done.
  intros Hc [= Hl]. apply Forall_cons in Hc as [Hc Hcs]. rewrite Hc. destruct m; simpl; [done|].
  intros ?. constructor; [done|]. eauto.
Qed.
Lemma ApplyRedaction_rows cols rows redact :
  (ApplyRedaction cols rows redact).1 = maskRow (maskCols cols redact) <$> rows.
Proof.
  assert (Hid : ∀ mask, Forall (λ m, m = false) mask → maskRow mask <$> rows = rows).
  { intros mask Hm. rewrite <-(list_fmap_id rows) at 2. apply list_fmap_ext. intros _ row _. simpl.
    apply list_eq. intros i. rewrite maskRow_lookup. destruct (mask !! i) as [m|] eqn:Hi; simpl; [|by destruct (row !! i)].
    rewrite (Forall_lookup_1 _ _ _ _ Hm Hi). by destruct (row !! i). }
  unfold ApplyRedaction. destruct redact as [|c0 rs].
  { simpl. rewrite Hid; [done|]. apply Forall_fmap, Forall_true. done. }
  destruct cols as [|c cols]; [symmetry; by apply Hid|].
  destruct (maskedNames [] (c :: cols) _) eqn:Hn; [|done]. symmetry. apply Hid.
  eapply maskedNames_nil, Hn; [by apply Forall_true|apply length_fmap].
Qed.

(** Every cell of a redacted column is replaced by the placeholder and every other cell
    is passed on: the rows served do not depend on what the redacted columns hold. *)
Theorem redaction_masks_columns cols rows redact :
  length (ApplyRedaction cols rows redact).1 = length rows ∧
  (∀ r i row, rows !! r = Some row → ∃ row', (ApplyRedaction cols rows redact).1 !! r = Some row' ∧
     row' !! i = (λ v, if masked cols redact i then Some (strVal redactedValue) else v) <$> row !! i) ∧
  (∀ i, masked cols redact i = true ↔ ∃ c, cols !! i = Some c ∧ toLower (Name c) ∈ redactSet redact).
Proof.
  rewrite ApplyRedaction_rows. split_and!.
  - apply length_fmap.
  - intros r i row Hr. exists (maskRow (maskCols cols redact) row). rewrite list_lookup_fmap, Hr. split; [done|].
    apply maskRow_lookup.
  - intros i. unfold masked, maskCols. rewrite list_lookup_fmap. destruct (cols !! i) as [c|]; simpl; [|naive_solver].
    rewrite memS_true. naive_solver.
Qed.
End WireThm.

End Sql.

(** ** Concrete statements *)

Module SqlRuns.
Import Sql.

#[export] Instance textAny : GoAny := {| Val := string; sprint v := v; strVal s := s |}.

Definition nl : string := of_codes [10].

(** Statements whose [FROM] clause names the table [secret] where the guard does not
    look: after a comma behind a join condition, behind an alias with a column list, inside
    a parenthesised join; and where PostgreSQL's escape strings, dollar quotes and nested
    comments are read otherwise than the server reads them, so that the rest of the
    statement is one string literal to the guard. All are accepted and [secret] is not
    reported. *)
Theorem guard_misses_tables :
  Check "SELECT * FROM a JOIN b ON a.x = b.x, secret" = Ok ["a"; "b"] ∧
  Check "SELECT * FROM a AS t(x), secret" = Ok ["a"] ∧
  Check "SELECT * FROM (secret CROSS JOIN a)" = Ok ["a"] ∧
  Check "SELECT E'\'', s FROM secret --'" = Ok [] ∧
  Check "SELECT $$'$$, s FROM secret --'" = Ok [] ∧
  Check "SELECT s /* /* */ ' */ FROM secret --'" = Ok [].
Proof. by vm_compute. Qed.

(** The statement hash does not identify the statement: a line comment and the line
    after it are one line to [NormalizeSQL], so a filtered and an unfiltered read have the
    same hash for every hash function. *)
Theorem hash_conflates_statements `{SHA256} db params limit id :
  let q1 := mkQuery db ("SELECT * FROM t --" +:+ nl +:+ "WHERE x = 1") params limit id in
  let q2 := mkQuery db "SELECT * FROM t -- WHERE x = 1" params limit id in
  Hash q1 = Hash q2 ∧ Tokenize (SQL q1) ≠ Tokenize (SQL q2).
Proof.
  simpl. split; [|by vm_compute]. unfold Hash. cbn [SQL DB].
  assert (NormalizeSQL ("SELECT * FROM t --" +:+ nl +:+ "WHERE x = 1") = NormalizeSQL "SELECT * FROM t -- WHERE x = 1")
    as -> by (by vm_compute). done.
Qed.

(** Masking follows result column names: a redacted column renamed in the projection
    passes [CheckRedaction] and its values are served unmasked. *)
Theorem renamed_column_not_masked v :
  let sql := "SELECT ssn AS x FROM t" in
  Check sql = Ok ["t"] ∧ CheckRedaction sql ["ssn"] = Ok tt ∧
  ApplyRedaction [mkCol "x" ""] [[v]] ["ssn"] = ([[v]], []).
Proof. simpl. split_and!; by vm_compute. Qed.

(** The byte cap is measured before masking: two tables that differ only in a redacted
    column are served with different numbers of rows. *)
Theorem byte_cap_reveals_masked_lengths :
  let cols := [mkCol "id" ""; mkCol "ssn" ""] in
  let serve ssn := (ApplyRedaction cols (ApplyCaps [[Some "1"; Some ssn]; [Some "2"; Some ssn]] 10 20).1 ["ssn"]).1 in
  length (serve "short") = 2%nat ∧ length (serve "quite-a-long-value") = 1%nat.
Proof. by vm_compute. Qed.

(** The guard on ordinary statements. *)
Example guard_runs :
  Check "SELECT c.name FROM crm.customers AS c, (SELECT id FROM orders) o LEFT JOIN regions r ON r.id = c.region WHERE c.id = ?;"
    = Ok ["customers"; "orders"; "regions"] ∧
  Check ("SELECT 1 --" +:+ nl +:+ "; DROP TABLE t") = Err ErrMultipleStatements ∧
  Check "SELECT 'a; drop table t' FROM t" = Ok ["t"] ∧
  Check "WITH x AS (DELETE FROM t RETURNING *) SELECT * FROM x" = Err ErrNotSelect ∧
  Check "SELECT * INTO y FROM t" = Err ErrForbiddenKeyword ∧
  Check "/* nothing */ ;" = Err ErrEmpty ∧ Check "SELECT 'open" = Err UnterminatedString.
Proof. by vm_compute. Qed.

Definition word (s : string) : Token := mkTok TokenWord s.
Definition crmItem := TableItem (word "crm") [word "customers"] [word "AS"; word "c"].
Definition tailTokens : list Token := [word "r"; word "ON"; mkTok TokenNumber "1"].
(** [SELECT x FROM crm.customers AS c JOIN public.regions r ON 1]. *)
Definition joined : list Token :=
  [word "SELECT"; word "x"; word "FROM"] ++ printItem crmItem
  ++ [word "JOIN"; word "public"; punct "."; word "regions"] ++ tailTokens.
Lemma introduced_tables_reported_witness :
  "customers" ∈ referencedTables joined ∧ "regions" ∈ referencedTables joined.
Proof.
  split; apply introduced_tables_reported; try done.
  - refine (intro_from _ _ [word "SELECT"; word "x"] "FROM" [crmItem]
      ([word "JOIN"; word "public"; punct "."; word "regions"] ++ tailTokens) crmItem _ _ _ _ _ _).
    + reflexivity.
    + by vm_compute.
    + apply Forall_singleton. split_and!; [by vm_compute|by vm_compute|by repeat constructor|by repeat constructor].
    + left. by vm_compute.
    + by apply list_elem_of_singleton.
    + by apply list_elem_of_singleton.
  - refine (intro_join _ _ ([word "SELECT"; word "x"; word "FROM"] ++ printItem crmItem) "JOIN" (word "public")
      [word "regions"] tailTokens _ _ _ _ _ _ _); [reflexivity|by vm_compute..| |by vm_compute|by vm_compute].
    by repeat constructor.
Defined.
Lemma accepted_text_is_one_select_witness :
  ∃ pre ps w rest post, let stmt := ps ++ mkTok TokenWord w :: rest in
    Tokenize "(SELECT x FROM t);" = Some (Ok (pre ++ stmt ++ post)) ∧
    Forall (λ t, isKind TokenSemicolon t = true) (pre ++ post) ∧
    Forall (λ t, isKind TokenSemicolon t = false) stmt ∧
    Forall (λ t, isPunct "(" t = true) ps ∧ equalFold w "select" = true ∧
    (∀ t, t ∈ pre ++ stmt ++ post → Kind t = TokenWord → toLower (Text t) ∉ forbiddenKeywords) ∧
    ["t"] = referencedTables stmt.
Proof. apply (accepted_text_is_one_select "(SELECT x FROM t);"). by vm_compute. Defined.
Lemma redacted_columns_stay_out_of_predicates_witness :
  CheckRedaction "SELECT ssn FROM t WHERE id = 1" [" SSN"] = Ok tt ∧
  ∀ t, t ∈ [word "t"; word "WHERE"; word "id"] → toLower (Text t) ≠ toLower (trimSpace " SSN").
Proof.
  assert (CheckRedaction "SELECT ssn FROM t WHERE id = 1" [" SSN"] = Ok tt) as Hok by (by vm_compute).
  split; [exact Hok|]. intros t Ht.
  refine (proj1 (redacted_columns_stay_out_of_predicates _ _ ((word <$> ["SELECT"; "ssn"; "FROM"; "t"; "WHERE"; "id"])
    ++ [mkTok TokenPunct "="; mkTok TokenNumber "1"]) _) Hok [word "SELECT"; word "ssn"] "FROM"
    ((word <$> ["t"; "WHERE"; "id"]) ++ [mkTok TokenPunct "="; mkTok TokenNumber "1"]) _ _ t " SSN" _ _ _ _).
  - by vm_compute.
  - done.
  - by vm_compute.
  - apply elem_of_app. by left.
  - rewrite !elem_of_cons in Ht. destruct Ht as [-> |[-> |[-> |Ht]]]; [done..|by apply elem_of_nil in Ht].
  - by apply list_elem_of_singleton.
  - by vm_compute.
Defined.
Lemma caps_keep_longest_prefix_witness :
  ∃ out, ApplyCaps [[Some "aaaa"]; [Some "bb"]; [None]] 2 100 = (out, true) ∧
         (0 < 2 → Z.of_nat (length out) ≤ 2).
Proof.
  eexists. split; [by vm_compute|].
  eapply (caps_keep_longest_prefix (H := textAny) [[Some "aaaa"]; [Some "bb"]; [None]] 2 100 _ true). by vm_compute.
Defined.
End SqlRuns.
