(* ===== verification/DbGate.v ===== *)
(** * DbGate: the governed database endpoint

    [cmd/meshmcp/airdatabase.go] (grants and their glob matching, with [globMatch] of
    [airbind.go] and [acl] of [acl.go]) and the query handler of [airdatabase_serve.go]:
    the order of its checks, what is forwarded to the executor, and what is recorded in the
    hash-chained ledger ([Ledger]) before rows are served. *)
From stdpp Require Import base list strings.
From Stdlib Require Import ZArith Lia Ascii.
From S2P Require Import Prelude GoStd Json JsonCodec Crypto Checkpoint Ledger SqlGuard.
Open Scope Z_scope.
Open Scope mesh_scope.

(** ** Wildcard matching *)

Module Glob.

Definition star : Z := 42.
Definition quest : Z := 63.

Fixpoint dropStars (p : list Z) : list Z :=
  match p with x :: p' => if x =? star then dropStars p' else p | [] => [] end.
(** The loop of [globMatch] on what is left of the pattern and of the text; [back] is the
    pattern behind the last [*] and the text where that was last tried. [None]: out of
    fuel. *)
Fixpoint loop (fuel : nat) (p s : list Z) (back : option (list Z * list Z)) : option bool :=
  match s, fuel with
  | [], _ => Some (bool_decide (dropStars p = []))
  | _, O => None
  | c :: s', S fuel =>
      let backtrack :=
        match back with
        | Some (bp, bs) => loop fuel bp (tail bs) (Some (bp, tail bs))
        | None => Some false
        end in
      match p with
      | x :: p' =>
          if (x =? quest) || (x =? c) then loop fuel p' s' back
          else if x =? star then loop fuel p' s (Some (p', s))
          else backtrack
      | [] => backtrack
      end
  end.

(** Every round moves on in the text or the pattern, or moves the last star's start. *)
Definition rounds (p s : list Z) : nat := (S (length s) * S (length p + length s) + length p + length s)%nat.
Definition globMatch (pattern s : string) : bool :=
  default false (loop (rounds (codes pattern) (codes s)) (codes pattern) (codes s) None).

(** What a pattern means: [*] any run of bytes, [?] any byte, any other byte itself. *)
Inductive glob : list Z → list Z → Prop :=
| glob_nil : glob [] []
| glob_quest p c s : glob p s → glob (quest :: p) (c :: s)
| glob_byte p c s : c ≠ star → glob p s → glob (c :: p) (c :: s)
| glob_star_end p s : glob p s → glob (star :: p) s
| glob_star_more p c s : glob (star :: p) s → glob (star :: p) (c :: s).

Definition weight (p0 s0 : list Z) (back : option (list Z * list Z)) : nat :=
  (match back with Some (_, bs) => length bs | None => S (length s0) end * S (length p0 + length s0))%nat.
Definition inside (p0 s0 p s : list Z) (back : option (list Z * list Z)) : Prop :=
  (length p ≤ length p0)%nat ∧ (length s ≤ length s0)%nat ∧
  match back with
  | Some (bp, bs) => (length bp ≤ length p0)%nat ∧ (length s ≤ length bs ≤ length s0)%nat
  | None => True
  end.
Lemma loop_returns p0 s0 fuel p s back :
  inside p0 s0 p s back → (weight p0 s0 back + length p + length s ≤ fuel)%nat → is_Some (loop fuel p s back).
Proof.
  induction fuel as [|fuel IH] in p, s, back |- *; intros Hin Hf; destruct s as [|c s]; simpl; try by eexists.
  { simpl in Hf. lia. }
  assert (Hback : is_Some (match back with
    | Some (bp, bs) => loop fuel bp (tail bs) (Some (bp, tail bs)) | None => Some false end)).
  { destruct back as [[bp bs]|]; [|by eexists]. destruct Hin as (Hp & Hs & Hbp & Hbs).
    destruct bs as [|b bs]; [simpl in *; lia|]. apply IH; [unfold inside; simpl in *; lia|].
    unfold weight in *. cbn [length tail] in *. nia. }
  destruct p as [|x p]; [done|]. destruct ((x =? quest) || (x =? c)).
  - apply IH; [|simpl in Hf; lia]. destruct Hin as (Hp & Hs & Hb). split_and!; simpl in *; [lia|lia|].
    destruct back as [[bp bs]|]; [lia|done].
  - destruct (x =? star); [|done]. apply IH; destruct Hin as (Hp & Hs & Hb).
    + unfold inside. simpl in *. lia.
    + unfold weight in *. destruct back as [[bp bs]|]; cbn [length] in *; nia.
Qed.

Lemma rounds_enough p s : is_Some (loop (rounds p s) p s None).
Proof. apply (loop_returns p s); [by split_and!|]. unfold rounds, weight. lia. Qed.

(** A pattern without a star matches byte by byte. *)
Lemma glob_prefix q p s : star ∉ q → glob (q ++ p) s → (length q ≤ length s)%nat ∧ glob p (drop (length q) s).
Proof.
  induction q as [|x q IH] in s |- *; intros Hq Hg; [simpl; by rewrite drop_0; split; [lia|]|].
  apply not_elem_of_cons in Hq as [Hx Hq]. inversion Hg; subst; simplify_eq; try done;
    match goal with Hr : glob (q ++ p) _ |- _ => destruct (IH _ Hq Hr) as [? ?] end; simpl; split; (lia || done).
Qed.
Lemma glob_star_iff p s : glob (star :: p) s ↔ ∃ k, (k ≤ length s)%nat ∧ glob p (drop k s).
Proof.
  split.
  - induction s as [|c s IH]; intros Hg; inversion Hg; subst; simplify_eq;
      try (exists 0%nat; by rewrite drop_0; split; [lia|]).
    match goal with Hr : glob (star :: p) s |- _ => destruct (IH Hr) as (k & Hk & Hd) end. exists (S k). simpl. split; [lia|done].
  - intros (k & Hk & Hd). induction k as [|k IH] in s, Hk, Hd |- *; [rewrite drop_0 in Hd; by constructor|].
    destruct s as [|c s]; [simpl in Hk; lia|]. apply glob_star_more, IH; simpl in *; [lia|done].
Qed.
Lemma dropStars_glob p : dropStars p = [] ↔ glob p [].
Proof.
  induction p as [|x p IH]; simpl; [split; [constructor|done]|]. destruct (x =? star) eqn:Hx; breflect.
  - subst. rewrite IH. split; [by constructor|]. by inversion 1.
  - split; [done|]. inversion 1; subst. done.
Qed.

(** What is left to try: the text as it stands, or a later start of the last star. *)
Definition matches (p s : list Z) (back : option (list Z * list Z)) : Prop :=
  glob p s ∨ match back with
             | Some (bp, bs) => ∃ k, (1 ≤ k ≤ length bs)%nat ∧ glob bp (drop k bs)
             | None => False
             end.
(** Since the last star the pattern read is as long as the text read. *)
Definition aligned (p s : list Z) (back : option (list Z * list Z)) : Prop :=
  match back with
  | Some (bp, bs) => ∃ q pre, bp = q ++ p ∧ bs = pre ++ s ∧ length q = length pre ∧ star ∉ q
  | None => True
  end.
Lemma aligned_step x c p s back : x ≠ star → aligned (x :: p) (c :: s) back → aligned p s back.
Proof.
  destruct back as [[bp bs]|]; [|done]. intros Hx (q & pre & -> & -> & Hl & Hq).
  exists (q ++ [x]), (pre ++ [c]). rewrite <-!app_assoc, !length_app, Hl. split_and!; try done.
  rewrite elem_of_app, list_elem_of_singleton. naive_solver.
Qed.
(** Another star makes the older starts superfluous. *)
Lemma matches_star p s back : aligned (star :: p) s back →
  (matches (star :: p) s back ↔ matches p s (Some (p, s))).
Proof.
  intros Ha. assert (matches (star :: p) s back ↔ glob (star :: p) s) as ->.
  { split; [|by left]. intros [?|Hb]; [done|]. destruct back as [[bp bs]|]; [|done].
    destruct Ha as (q & pre & -> & -> & Hl & Hq), Hb as (k & Hk & Hg).
    apply glob_prefix in Hg as [Hle Hg]; [|done]. rewrite length_drop, length_app in Hle. rewrite length_app in Hk.
    rewrite drop_drop, Hl, drop_app_ge in Hg by lia. apply glob_star_iff in Hg as (j & Hj & Hg).
    rewrite length_drop in Hj. rewrite drop_drop in Hg. apply glob_star_iff. eexists. split; [|exact Hg]. lia. }
  rewrite glob_star_iff. unfold matches. split.
  - intros ([|k] & Hk & Hg); [left; by rewrite drop_0 in Hg|right; exists (S k); split; [lia|done]].
  - intros [Hg|(k & Hk & Hg)]; [exists 0%nat; by rewrite drop_0; split; [lia|]|exists k; split; [lia|done]].
Qed.
Lemma matches_backtrack p s bp bs : bs ≠ [] → ¬ glob p s →
  (matches p s (Some (bp, bs)) ↔ matches bp (tail bs) (Some (bp, tail bs))).
Proof.
  intros Hb Hn. destruct bs as [|b bs]; [done|]. unfold matches. simpl. split.
  - intros [|(k & Hk & Hg)]; [done|]. destruct k as [|[|k]]; [lia|by left|].
    right. exists (S k). split; [lia|done].
  - intros [Hg|(k & Hk & Hg)]; right; [exists 1%nat; split; [lia|done]|exists (S k); split; [lia|done]].
Qed.

Lemma aligned_end p back : aligned p [] back → (matches p [] back ↔ glob p []).
Proof.
  intros Ha. split; [|by left]. intros [?|Hb]; [done|]. destruct back as [[bp bs]|]; [|done].
  destruct Ha as (q & pre & -> & -> & Hl & Hq), Hb as (k & Hk & Hg). rewrite app_nil_r in *.
  apply glob_prefix in Hg as [Hle _]; [|done]. rewrite length_drop in Hle. lia.
Qed.

Lemma loop_spec fuel p s back b :
  star ∉ s → (∀ bp bs, back = Some (bp, bs) → star ∉ bs) → aligned p s back →
  loop fuel p s back = Some b → (b = true ↔ matches p s back).
Proof.
  induction fuel as [|fuel IH] in p, s, back, b |- *; intros Hs Hbs Ha Hl; destruct s as [|c s]; simpl in Hl; try done.
  1,2: injection Hl as <-; rewrite bool_decide_eq_true, aligned_end by done; apply dropStars_glob.
  apply not_elem_of_cons in Hs as [Hc Hs].
  assert (Hback : ¬ glob p (c :: s) →
    match back with Some (bp, bs) => loop fuel bp (tail bs) (Some (bp, tail bs)) | None => Some false end = Some b →
    (b = true ↔ matches p (c :: s) back)).
  { intros Hn Hb. destruct back as [[bp bs]|]; [|injection Hb as <-; unfold matches; naive_solver].
    destruct Ha as (q & pre & -> & -> & Hlq & Hq). specialize (Hbs _ _ eq_refl).
    assert (Htl : star ∉ tail (pre ++ c :: s)).
    { intros Hin. apply Hbs. destruct (pre ++ c :: s); [done|]. by apply elem_of_cons; right. }
    rewrite matches_backtrack; [|by destruct pre|done]. eapply IH, Hb; [done|by intros ?? [= <- <-]|].
    exists [], []. repeat split. apply not_elem_of_nil. }
  destruct p as [|x p]; [apply Hback; [by inversion 1|done]|].
  destruct ((x =? quest) || (x =? c)) eqn:Hx.
  - assert (x = quest ∨ x = c) as Hxc by (apply orb_true_iff in Hx as [?|?]; breflect; auto).
    assert (x ≠ star) as Hns by (destruct Hxc as [-> | ->]; done).
    rewrite (IH p s back b); [|done|done|by eapply aligned_step|done].
    unfold matches. apply or_iff_compat_r. split.
    + intros Hg. destruct Hxc as [-> | ->]; by constructor.
    + inversion 1; subst; done.
  - apply orb_false_iff in Hx as [Hxq Hxc]. breflect. destruct (x =? star) eqn:Hxs; breflect.
    + subst x. rewrite matches_star by done. eapply IH, Hl; [by apply not_elem_of_cons| |].
      * intros ?? [= <- <-]. by apply not_elem_of_cons.
      * exists [], []. repeat split. apply not_elem_of_nil.
    + apply Hback; [|done]. by inversion 1.
Qed.

(** [globMatch], two pointers with backtracking to the last star only, decides the
    meaning of the pattern on every text without a star, and always returns. *)
Theorem globMatch_decides pattern s :
  star ∉ codes s → is_Some (loop (rounds (codes pattern) (codes s)) (codes pattern) (codes s) None) ∧
  (globMatch pattern s = true ↔ glob (codes pattern) (codes s)).
Proof.
  intros Hs. destruct (rounds_enough (codes pattern) (codes s)) as [b Hb]. split; [by eexists|].
  unfold globMatch. rewrite Hb. simpl. apply loop_spec in Hb as ->; [|done|by intros|done].
  unfold matches. naive_solver.
Qed.

(** Where the text has a star of its own the pattern's [*] may be taken for it: the
    pattern of everything does not match [*a]. *)
Theorem globMatch_star_in_text : globMatch "*" "*a" = false ∧ glob (codes "*") (codes "*a").
Proof. split; [by vm_compute|]. apply glob_star_iff. exists 2%nat. split; [by vm_compute|constructor]. Qed.

Lemma globMatch_decides_witness :
  globMatch "analytics.*_v?" "analytics.orders_v2" = true ∧ glob (codes "analytics.*_v?") (codes "analytics.orders_v2").
Proof.
  assert (globMatch "analytics.*_v?" "analytics.orders_v2" = true) as Hm by (by vm_compute).
  split; [exact Hm|]. refine (proj1 (proj2 (globMatch_decides _ _ _)) Hm).
  intros Hin%list_elem_of_In. vm_compute in Hin. repeat (destruct Hin as [Hin|Hin]; [discriminate|]). exact Hin.
Defined.
End Glob.

(** ** Grants and the handler *)

Module Db.
Import Sql.

(** An [acl]: its patterns as they are when the request is served. *)
Definition allows (acl : list string) (pubKey fqdn : string) : bool :=
  if (pubKey =? "")%string && (fqdn =? "")%string then false
  else match acl with
       | [] => true
       | _ => existsb (λ p, match cutPrefix "pubkey:" p with
                            | Some key => (key =? pubKey)%string
                            | None => pathMatchOk p fqdn
                            end) acl
       end.

Record dbGrant := mkGrant { pattern : list string; gTables : list string }.
Definition entriesFor (g : list dbGrant) (pubKey fqdn : string) : list string :=
  if (pubKey =? "")%string && (fqdn =? "")%string then []
  else concat (gTables <$> List.filter (λ e, allows e.(pattern) pubKey fqdn) g).
Definition matchAnyGlob (patterns : list string) (q : string) : bool :=
  existsb (λ p, Glob.globMatch p q) patterns.

Inductive authReason := NoGrant | NotGranted (table : string).
Definition authorize (g : list dbGrant) (pubKey fqdn db : string) (tables : list string) : result authReason unit :=
  match entriesFor g pubKey fqdn with
  | [] => Err NoGrant
  | granted =>
      match List.filter (λ t, negb (matchAnyGlob granted (toLower db +:+ "." +:+ toLower t))) tables with
      | [] => Ok tt
      | t :: _ => Err (NotGranted t)
      end
  end.

Definition defaultDBMaxRows : Z := 1000.
Definition defaultDBMaxBytes : Z := Z.shiftl 1 20.
Definition dbRowCap (callerLimit max : Z) : Z :=
  if (0 <? callerLimit) && (callerLimit <? max) then callerLimit else max.
Record dbServeConfig := mkCfg { MaxRows : Z; MaxBytes : Z; Redact : list string }.

Definition fqdnOr (fqdn : string) : string := if (fqdn =? "")%string then "unknown-mesh-peer" else fqdn.

Definition sqlErrText (e : sqlErr) : string :=
  match e with
  | UnterminatedString => "sqlguard: unterminated string literal"
  | UnterminatedIdent => "sqlguard: unterminated quoted identifier"
  | ErrEmpty => "sqlguard: empty statement"
  | ErrMultipleStatements => "sqlguard: only a single statement is allowed"
  | ErrNotSelect => "sqlguard: only read-only SELECT statements are allowed"
  | ErrForbiddenKeyword => "sqlguard: statement contains a forbidden (write/DDL) keyword"
  | ErrRedactedInPredicate => "sqlguard: a redacted column may appear only in the top-level projection"
  | ErrControlChars => "sqlguard: sql contains control characters"
  | DBRequired => "sqlguard: db is required"
  | SQLRequired => "sqlguard: sql is required"
  | SQLTooLong => "sqlguard: sql exceeds 65536 bytes"
  end.
Definition authText (r : authReason) : string :=
  match r with
  | NoGrant => "no table grant for your identity"
  | NotGranted t => "table not granted: " +:+ t
  end.
Definition rowsText (n : Z) (truncated : bool) : string :=
  itoa n +:+ " row(s)" +:+ (if truncated then " (truncated)" else "").

Section Handler.
Context `{Ed25519} `{SHA256} `{GoAny}.

(** The record of a query. *)
Definition dbRecord (fqdn pubKey db decision reason hash : string) : Chain.AuditRecord :=
  Chain.mkRec "" "database" (fqdnOr fqdn) pubKey "" "air/database/query" db "" decision reason (-1) 0
    (if (hash =? "")%string then [] else [("sql:" +:+ hash)%string]) 0 "" "" "" 0 "" "" "".
(** [dbAudit] on a ledger that may be absent: whether it reports an error, and the ledger. *)
Definition dbAudit (io : Chain.IO) (audit : option Chain.AuditLog) (fqdn pubKey db decision reason hash : string)
    : bool * option Chain.AuditLog :=
  match audit with
  | None => (false, None)
  | Some a => let '(e, a) := Chain.write io (dbRecord fqdn pubKey db decision reason hash) a in
              (negb (isNone e), Some a)
  end.

(** What the caller is answered. *)
Inductive Answer :=
| MethodNotAllowed | Forbidden | BadBody | BadRequest (e : sqlErr) | Guarded (e : sqlErr)
| Denied (r : authReason) | BackendError | LedgerUnavailable | Served (res : QueryResult).

(** A request: its method, the identity the transport resolved and the decoded body, if it
    decodes. *)
Record Request := mkReq { isPost : bool; rPub : string; rFqdn : string; body : option Query }.
Definition effective (cfg : dbServeConfig) : dbServeConfig :=
  mkCfg (if cfg.(MaxRows) <=? 0 then defaultDBMaxRows else cfg.(MaxRows))
        (if cfg.(MaxBytes) <=? 0 then defaultDBMaxBytes else cfg.(MaxBytes)) cfg.(Redact).

(** An executor: its error text, or the columns and the rows it read. *)
Definition executor :=
  string → string → list (option Val) → result string (list Column * list (list (option Val))).

(** The handler of [/v1/database/query]: the answer, the ledger, and the statements given
    to the executor. *)
Definition databaseHandler (exec : executor) (admitted : list string) (grants : list dbGrant) (cfg : dbServeConfig)
    (io : Chain.IO) (audit : option Chain.AuditLog) (r : Request)
    : Answer * option Chain.AuditLog * list (string * string) :=
  let cfg := effective cfg in
  let log db decision reason hash := dbAudit io audit r.(rFqdn) r.(rPub) db decision reason hash in
  if negb r.(isPost) then (MethodNotAllowed, audit, [])
  else if negb (allows admitted r.(rPub) r.(rFqdn)) then
    (Forbidden, (log "" "deny" "endpoint ACL: caller not permitted" "").2, [])
  else match r.(body) with
  | None => (BadBody, audit, [])
  | Some q =>
    let hash := Hash q in
    match Validate q with
    | Err e => (BadRequest e, (log q.(DB) "deny" ("invalid request: " +:+ sqlErrText e)%string hash).2, [])
    | Ok _ =>
      match Check q.(SQL) with
      | Err e => (Guarded e, (log q.(DB) "deny" (sqlErrText e) hash).2, [])
      | Ok tables =>
        match CheckRedaction q.(SQL) cfg.(Redact) with
        | Err e => (Guarded e, (log q.(DB) "deny" (sqlErrText e) hash).2, [])
        | Ok _ =>
          match authorize grants r.(rPub) r.(rFqdn) q.(DB) tables with
          | Err e => (Denied e, (log q.(DB) "deny" (authText e) hash).2, [])
          | Ok _ =>
            let calls := [(q.(DB), q.(SQL))] in
            match exec q.(DB) q.(SQL) q.(Params) with
            | Err e => (BackendError, (log q.(DB) "deny" ("executor error: " +:+ e)%string hash).2, calls)
            | Ok (cols, raw) =>
              let '(rows, truncated) := ApplyCaps raw (dbRowCap q.(Limit) cfg.(MaxRows)) cfg.(MaxBytes) in
              let '(rows, redacted) := ApplyRedaction cols rows cfg.(Redact) in
              let res := mkQueryResult q.(DB) cols rows (Z.of_nat (length rows)) truncated redacted hash in
              let '(failed, audit) := log q.(DB) "allow" (rowsText res.(RowCount) truncated) hash in
              if failed && default false (Chain.failClosed <$> audit) then (LedgerUnavailable, audit, calls)
              else (Served res, audit, calls)
            end
          end
        end
      end
    end
  end.

(** ** What the handler guarantees *)

(** The statement that reaches the executor passed every check. *)
Definition cleared (admitted : list string) (grants : list dbGrant) (cfg : dbServeConfig) (r : Request) (q : Query) : Prop :=
  r.(isPost) = true ∧ allows admitted r.(rPub) r.(rFqdn) = true ∧ r.(body) = Some q ∧
  Validate q = Ok tt ∧ CheckRedaction q.(SQL) cfg.(Redact) = Ok tt ∧
  ∃ tables, Check q.(SQL) = Ok tables ∧ entriesFor grants r.(rPub) r.(rFqdn) ≠ [] ∧
    ∀ t, t ∈ tables → ∃ g e, g ∈ grants ∧ allows g.(pattern) r.(rPub) r.(rFqdn) = true ∧ e ∈ g.(gTables) ∧
      Glob.globMatch e (toLower q.(DB) +:+ "." +:+ toLower t) = true.

Lemma authorize_ok g pub fqdn db tables : authorize g pub fqdn db tables = Ok tt →
  entriesFor g pub fqdn ≠ [] ∧
  ∀ t, t ∈ tables → ∃ e x, e ∈ g ∧ allows e.(pattern) pub fqdn = true ∧ x ∈ e.(gTables) ∧
    Glob.globMatch x (toLower db +:+ "." +:+ toLower t) = true.
Proof.
  unfold authorize. destruct (entriesFor g pub fqdn) as [|x0 xs] eqn:He; [done|]. rewrite <-He.
  destruct (List.filter _ tables) eqn:Hf; [|done]. intros _. split; [by rewrite He|]. intros t Ht.
  assert (matchAnyGlob (entriesFor g pub fqdn) (toLower db +:+ "." +:+ toLower t) = true) as Hm.
  { destruct (matchAnyGlob _ _) eqn:Hm; [done|]. exfalso.
    eapply (elem_of_nil t), list_elem_of_In. rewrite <-Hf. apply filter_In. split; [by apply list_elem_of_In|by rewrite Hm]. }
  apply existsb_exists in Hm as (x & Hx & Hg). unfold entriesFor in Hx. case_match; [done|].
  apply in_concat in Hx as (l & Hl & Hx). apply list_elem_of_In, list_elem_of_fmap in Hl as (e & -> & Hin).
  apply list_elem_of_In, filter_In in Hin as [Hin Ha]. exists e, x. rewrite !list_elem_of_In. done.
Qed.

(** A branch that answers without forwarding. *)
Ltac skipped := left; split; [reflexivity|split; [intros ?; discriminate|]].
(** The run of the handler on a request that is forwarded, and the cases in which it is
    not. *)
Lemma handler_cases exec admitted grants cfg io audit r :
  let out := databaseHandler exec admitted grants cfg io audit r in
  let log q d t := (dbAudit io audit r.(rFqdn) r.(rPub) (DB q) d t (Hash q)) in
  (out.2 = [] ∧ (∀ res, out.1.1 ≠ Served res) ∧
     (out.1.2 = audit ∧ (r.(isPost) = false ∨ r.(body) = None)
      ∨ ∃ db t h, out.1.2 = (dbAudit io audit r.(rFqdn) r.(rPub) db "deny" t h).2)) ∨
  ∃ q, cleared admitted grants cfg r q ∧ out.2 = [(DB q, SQL q)] ∧
    ((∃ e, exec (DB q) (SQL q) (Params q) = Err e ∧ out.1.1 = BackendError ∧
           out.1.2 = (log q "deny" ("executor error: " +:+ e)%string).2) ∨
     ∃ cols raw, exec (DB q) (SQL q) (Params q) = Ok (cols, raw) ∧
       let cap := ApplyCaps raw (dbRowCap (Limit q) (effective cfg).(MaxRows)) (effective cfg).(MaxBytes) in
       let red := ApplyRedaction cols cap.1 cfg.(Redact) in
       let res := mkQueryResult (DB q) cols red.1 (Z.of_nat (length red.1)) cap.2 red.2 (Hash q) in
       let l := log q "allow" (rowsText (RowCount res) cap.2) in
       out.1 = (if l.1 && default false (Chain.failClosed <$> l.2) then LedgerUnavailable else Served res, l.2)).
Proof.
  cbv zeta. unfold databaseHandler. cbv zeta. generalize (dbAudit io audit (rFqdn r) (rPub r)). intros log.
  destruct (isPost r) eqn:Hp; cbn [negb]; [|skipped; left; split; [reflexivity|by left]].
  destruct (allows admitted (rPub r) (rFqdn r)) eqn:Ha; cbn [negb]; [|skipped; right; eexists _, _, _; reflexivity].
  destruct (body r) as [q|] eqn:Hb; [|skipped; left; split; [reflexivity|by right]].
  destruct (Validate q) as [[]|e] eqn:Hv; [|skipped; right; eexists _, _, _; reflexivity].
  destruct (Check (SQL q)) as [tables|e] eqn:Hc; [|skipped; right; eexists _, _, _; reflexivity].
  destruct (CheckRedaction (SQL q) (Redact (effective cfg))) as [[]|e] eqn:Hr;
    [|skipped; right; eexists _, _, _; reflexivity].
  destruct (authorize grants (rPub r) (rFqdn r) (DB q) tables) as [[]|e] eqn:Hauth;
    [|skipped; right; eexists _, _, _; reflexivity].
  right. exists q. split.
  { refine (conj Hp (conj Ha (conj Hb (conj Hv (conj Hr _))))). exists tables. split; [exact Hc|]. exact (authorize_ok _ _ _ _ _ Hauth). }
  destruct (exec (DB q) (SQL q) (Params q)) as [[cols raw]|e] eqn:He.
  - split; [|right; exists cols, raw; split; [reflexivity|]];
      destruct (ApplyCaps raw _ _) as [rows tr]; cbn [fst snd];
      change (Redact (effective cfg)) with (Redact cfg);
      destruct (ApplyRedaction cols rows (Redact cfg)) as [rows' red]; cbn [fst snd RowCount];
      destruct (log (DB q) "allow" (rowsText _ tr) (Hash q)) as [failed l]; cbn [fst snd];
      destruct (failed && default false (Chain.failClosed <$> l)); reflexivity.
  - split; [reflexivity|]. left. exists e. split_and!; reflexivity.
Qed.


Lemma db_write_ok io rec a a' : Chain.write io rec a = (None, a') →
  Chain.disk a' = (Chain.disk a +:+ Chain.lineOf (Chain.linked (Chain.ioNow io) rec a))%string.
Proof. unfold Chain.write. repeat (case_match; try done); intros [= <-]; done. Qed.

(** A fail-closed endpoint serves no row unrecorded: when a result is answered, the
    ledger file was extended by the whole line of an allow record that carries the caller
    and the hash of the statement. *)
Theorem served_rows_are_recorded exec admitted grants cfg io a r res :
  (databaseHandler exec admitted grants cfg io (Some a) r).1.1 = Served res → Chain.failClosed a = true →
  ∃ db reason a', (databaseHandler exec admitted grants cfg io (Some a) r).1.2 = Some a' ∧
    Chain.disk a' = (Chain.disk a +:+ Chain.lineOf (Chain.linked (Chain.ioNow io)
      (dbRecord (rFqdn r) (rPub r) db "allow" reason (QueryHash res)) a))%string.
Proof.
  intros Hs Hfc. destruct (handler_cases exec admitted grants cfg io (Some a) r) as [(_ & Hn & _)|(q & _ & _ & Hc)].
  { by destruct (Hn res). }
  destruct Hc as [(e & _ & He & _)|(cols & raw & _ & Hout)]; [congruence|].
  rewrite Hout in Hs |- *. cbn [fst snd] in Hs |- *. clear Hout.
  unfold dbAudit in *. set (rec := dbRecord _ _ _ _ _ _) in *.
  destruct (Chain.write io rec a) as [[e|] a'] eqn:Hw; cbn [fst snd isNone negb andb fmap option_fmap option_map default] in *.
  - assert (Chain.failClosed a' = true) as Hfc' by (rewrite <-Hfc; revert Hw; unfold Chain.write; repeat case_match; intros [= _ <-]; done).
    rewrite Hfc' in Hs. done.
  - injection Hs as <-. eexists _, _, a'. split; [reflexivity|]. apply db_write_ok in Hw. exact Hw.
Qed.

Lemma dbRowCap_bounds limit max : dbRowCap limit max ≤ max ∧ (0 < limit → dbRowCap limit max ≤ limit) ∧ (0 < max → 0 < dbRowCap limit max).
Proof. unfold dbRowCap. destruct (0 <? limit) eqn:?, (limit <? max) eqn:?; breflect; simpl; lia. Qed.
Lemma effective_pos cfg : 0 < (effective cfg).(MaxRows) ∧ 0 < (effective cfg).(MaxBytes).
Proof.
  unfold effective. cbn [MaxRows MaxBytes]. change defaultDBMaxBytes with 1048576. change defaultDBMaxRows with 1000.
  destruct (MaxRows cfg <=? 0) eqn:?, (MaxBytes cfg <=? 0) eqn:?; breflect; lia.
Qed.

(** A served result respects the endpoint's caps: it has at most the configured number
    of rows (a default where none is set), no more than the caller asked for, and in every
    row each cell of a redacted column is the placeholder. *)
Theorem served_result_is_capped_and_masked exec admitted grants cfg io audit r res q :
  (databaseHandler exec admitted grants cfg io audit r).1.1 = Served res → r.(body) = Some q →
  RowCount res = Z.of_nat (length (rRows res)) ∧ RowCount res ≤ (effective cfg).(MaxRows) ∧
  (0 < Limit q → RowCount res ≤ Limit q) ∧
  ∀ row i v, row ∈ rRows res → masked (rColumns res) cfg.(Redact) i = true → row !! i = Some v →
    v = Some (strVal redactedValue).
Proof.
  intros Hs Hb. destruct (handler_cases exec admitted grants cfg io audit r) as [(_ & Hn & _)|(q' & Hcl & _ & Hc)].
  { by destruct (Hn res). }
  destruct Hcl as (_ & _ & Hb' & _). rewrite Hb in Hb'. injection Hb' as <-.
  destruct Hc as [(e & _ & He & _)|(cols & raw & _ & Hout)]; [congruence|]. rewrite Hout in Hs. cbn [fst] in Hs.
  case_match; [done|]. injection Hs as <-. cbn [RowCount rRows rColumns].
  rewrite ApplyRedaction_rows, length_fmap.
  destruct (ApplyCaps raw _ _) as [out t] eqn:Hcap. apply capLoop_spec in Hcap as (Hr & _); [|done].
  pose proof (dbRowCap_bounds (Limit q) (MaxRows (effective cfg))) as (Hd & Hl & Hp). pose proof (effective_pos cfg) as [He _].
  cbn [fst]. split_and!; [done|lia|intros; lia|].
  intros row i v Hrow Hm Hv. apply list_elem_of_fmap in Hrow as (row' & -> & _). rewrite maskRow_lookup in Hv.
  unfold masked in Hm. rewrite Hm in Hv. destruct (row' !! i); simplify_eq/=. done.
Qed.
End Handler.
End Db.

(** ** A concrete endpoint *)

Module DbRuns.
Import Sql SqlRuns Db.
#[local] Existing Instances toyEd25519 toySHA256.

Definition rowsOf : executor := λ _ _ _,
  Ok ([mkCol "id" "int4"; mkCol "SSN" "text"], [[Some "1"; Some "123"]; [Some "2"; None]]).
Definition grantsEx : list dbGrant := [mkGrant ["analyst-*"] ["crm.customers"; "crm.pub_*"]].
Definition cfgEx : dbServeConfig := mkCfg 0 0 ["ssn"].
Definition logEx : Chain.AuditLog := Chain.WithFailClosed true (Chain.NewAuditLog "").
Definition reqEx (sql : string) : Request := mkReq true "key1" "analyst-7" (Some (mkQuery "CRM" sql [] 1 "")).
Definition lineLen (sql reason : string) : nat :=
  String.length (Chain.lineOf (Chain.linked "t" (dbRecord "analyst-7" "key1" "CRM" "allow" reason
    (Hash (mkQuery "CRM" sql [] 1 ""))) logEx)).
Definition ioEx (n : nat) : Chain.IO := Chain.mkIO "t" n false true (mkCPEnv "t" 0 false (0%nat, false)).
Definition sqlEx : string := "SELECT id, ssn FROM public.customers;".
Definition runEx := databaseHandler rowsOf ["*"] grantsEx cfgEx (ioEx (lineLen sqlEx "1 row(s) (truncated)")) (Some logEx) (reqEx sqlEx).
Definition answerEx : QueryResult := mkQueryResult "CRM" [mkCol "id" "int4"; mkCol "SSN" "text"] [[Some "1"; Some "[redacted]"]]
  1 true ["SSN"] (Hash (mkQuery "CRM" sqlEx [] 1 "")).

Lemma runEx_served : runEx.1.1 = Served answerEx.
Proof. by vm_compute. Qed.
Lemma runEx_calls : runEx.2 = [("CRM", sqlEx)].
Proof. by vm_compute. Qed.
(** Refusals: an ungranted table, an unknown caller, a write, an unwritable ledger. *)
Example refusals :
  (databaseHandler rowsOf ["*"] grantsEx cfgEx (ioEx 0) (Some logEx) (reqEx "SELECT * FROM payroll")).1.1 = Denied (NotGranted "payroll") ∧
  (databaseHandler rowsOf ["ops"] grantsEx cfgEx (ioEx 0) (Some logEx) (reqEx sqlEx)).1.1 = Forbidden ∧
  (databaseHandler rowsOf ["*"] grantsEx cfgEx (ioEx 0) (Some logEx) (reqEx "DELETE FROM customers")).1.1 = Guarded ErrNotSelect ∧
  (databaseHandler rowsOf ["*"] grantsEx cfgEx (ioEx 0) (Some logEx) (reqEx sqlEx)).1.1 = LedgerUnavailable.
Proof. by vm_compute. Qed.

Lemma served_rows_are_recorded_witness :
  ∃ db reason a', runEx.1.2 = Some a' ∧
    Chain.disk a' = (Chain.disk logEx +:+ Chain.lineOf (Chain.linked "t"
      (dbRecord "analyst-7" "key1" db "allow" reason (QueryHash answerEx)) logEx))%string.
Proof. exact (served_rows_are_recorded _ _ _ _ _ _ _ _ runEx_served eq_refl). Defined.
Lemma served_result_is_capped_and_masked_witness : RowCount answerEx ≤ 1.
Proof.
  destruct (served_result_is_capped_and_masked _ _ _ _ _ _ _ _ _ runEx_served eq_refl) as (_ & _ & Hl & _).
  apply Hl. done.
Defined.
End DbRuns.
