(* ===== verification/Idem.v ===== *)
(** * Idem: at-most-once execution of retried tool calls

    [mcp/idempotency.go]: the claim key, the middleware that claims it before running a
    tool and replays the recorded outcome, and the in-memory claim store; the PostgreSQL
    claim store of [pgstore/claims.go]. What the middleware needs of a store is the class
    [ClaimLaws], proved of both stores; callers run concurrently, interleaved at their
    store operations. Times are integers, in the store's
    unit (nanoseconds in memory, microseconds in the database). *)
From stdpp Require Import base list strings gmap.
From Stdlib Require Import ZArith Lia Ascii.
From S2P Require Import Prelude GoStd Json Classify.
Open Scope Z_scope.
Open Scope mesh_scope.

Module Idem.

Definition IdempotencyKeyMeta : string := "meshmcp.io/idempotency-key".
Definition DefaultIdempotencyTTL : Z := 10 * 60 * 10 ^ 9.
Definition MaxCachedResultBytes : Z := Z.shiftl 64 10.
Definition maxIdempotencyKeyLen : Z := 200.

Definition claimKey (tool key : string) : string :=
  itoa (strlen tool) +:+ ":" +:+ tool +:+ ":" +:+ key.

(** [idempotencyKeyFromMeta]: no key, a key, or a key that cannot be used. *)
Definition idempotencyKeyFromMeta (meta : string) : result unit (option string) :=
  match meta with
  | "" => Ok None
  | _ =>
      match unmarshalMap meta with
      | None => Ok None
      | Some m =>
          match mapGet IdempotencyKeyMeta m with
          | None => Ok None
          | Some raw =>
              match (match parseJSON raw with Some (JStr s) => Some s | Some JNull => Some "" | _ => None end) with
              | Some key => if (key =? "")%string || (maxIdempotencyKeyLen <? strlen key) then Err tt else Ok (Some key)
              | None => Err tt
              end
          end
      end
  end.

(** ** Claim stores *)

Record claim := mkClaim { expiry : Z; done : bool; result : string }.
Inductive claimResult := ClaimErr | Won | Pending | Done (result : string).

(** A store: [view] shows the claim of a key; an operation may depend on what its
    environment does (a database may fail). *)
Class ClaimStore (S : Type) := {
  Env : Type;
  Claim : Env → S → string → Z → Z → claimResult * S;
  Complete : Env → S → string → string → Z → Z → S;
  view : S → string → option claim
}.

(** Between two states nothing happened to a key, but that an expired claim was dropped. *)
Definition evolves {S} `{ClaimStore S} (now : Z) (s s' : S) (k : string) : Prop :=
  view s' k = view s k ∨ view s' k = None ∧ ∃ c, view s k = Some c ∧ c.(expiry) < now.
(** No claim of the key that is live at [now]. *)
Definition free {S} `{ClaimStore S} (now : Z) (s : S) (k : string) : Prop :=
  ∀ c, view s k = Some c → c.(expiry) < now.

(** The contract of a store: a claim is won only where none is live, and is then held;
    an outcome is reported only of a claim that is not expired and has it; an outcome is
    recorded only for the pending claim with that expiry; otherwise claims only expire. *)
Class ClaimLaws S `{ClaimStore S} : Prop := {
  claim_won ev s k x now s' : Claim ev s k x now = (Won, s') →
    free now s k ∧ view s' k = Some (mkClaim x false "") ∧ ∀ k', k' ≠ k → evolves now s s' k';
  claim_lost ev s k x now r s' : Claim ev s k x now = (r, s') → r ≠ Won → ∀ k', evolves now s s' k';
  claim_done ev s k x now res s' : Claim ev s k x now = (Done res, s') →
    ∃ y, view s k = Some (mkClaim y true res) ∧ now ≤ y;
  complete_other ev s k res x now k' : k' ≠ k → view (Complete ev s k res x now) k' = view s k';
  complete_same ev s k res x now :
    view (Complete ev s k res x now) k = view s k ∨
    (∃ r, view s k = Some (mkClaim x false r)) ∧ view (Complete ev s k res x now) k = Some (mkClaim x true res)
}.

(** ** The in-memory store *)

Definition memClaimCap : Z := 4096.
Record MemClaimStore := mkMem { cap : Z; claims : gmap string claim }.
Definition NewMemClaimStore : MemClaimStore := mkMem memClaimCap ∅.
Definition dropExpired (now : Z) (m : gmap string claim) : gmap string claim :=
  filter (λ kc, (now <=? kc.2.(expiry)) = true) m.
Definition MemClaim (m : MemClaimStore) (key : string) (x now : Z) : claimResult * MemClaimStore :=
  let cs := dropExpired now m.(claims) in
  let m' := mkMem m.(cap) cs in
  match cs !! key with
  | Some c => (if c.(done) then Done c.(result) else Pending, m')
  | None =>
      if m.(cap) <=? Z.of_nat (size cs) then (ClaimErr, m')
      else (Won, mkMem m.(cap) (<[key := mkClaim x false ""]> cs))
  end.
Definition MemComplete (m : MemClaimStore) (key res : string) (x now : Z) : MemClaimStore :=
  match m.(claims) !! key with
  | Some c =>
      if c.(done) || negb (c.(expiry) =? x) || (c.(expiry) <? now) then m
      else mkMem m.(cap) (<[key := mkClaim c.(expiry) true res]> m.(claims))
  | None => m
  end.
#[export] Instance MemStore : ClaimStore MemClaimStore := {|
  Env := unit; Claim _ := MemClaim; Complete _ := MemComplete; view m k := m.(claims) !! k |}.

(** ** The PostgreSQL store *)

(** The claims table by its primary key; the times are those the database keeps, in
    microseconds. Each of the statements may fail; the eviction's failure is ignored. *)
Record PGEnv := mkPGEnv { evictOk : bool; insertOk : bool; selectOk : bool; updateOk : bool }.
Record PGClaimStore := mkPG { rows : gmap string claim }.
Definition evictExpired (now : Z) (m : gmap string claim) : gmap string claim :=
  filter (λ kc, (kc.2.(expiry) <? now) = false) m.
Definition PGClaim (ev : PGEnv) (s : PGClaimStore) (key : string) (x now : Z) : claimResult * PGClaimStore :=
  let t := if ev.(evictOk) then evictExpired now s.(rows) else s.(rows) in
  if negb ev.(insertOk) then (ClaimErr, mkPG t)
  else match t !! key with
  | None => (Won, mkPG (<[key := mkClaim x false ""]> t))
  | Some c =>
      if negb ev.(selectOk) then (ClaimErr, mkPG t)
      else if now <=? c.(expiry) then (if c.(done) then Done c.(result) else Pending, mkPG t)
      else (Pending, mkPG t)
  end.
Definition PGComplete (ev : PGEnv) (s : PGClaimStore) (key res : string) (x now : Z) : PGClaimStore :=
  if negb ev.(updateOk) then s
  else match s.(rows) !! key with
  | Some c => if negb c.(done) && (c.(expiry) =? x) && (now <=? c.(expiry))
              then mkPG (<[key := mkClaim c.(expiry) true res]> s.(rows)) else s
  | None => s
  end.
#[export] Instance PGStore : ClaimStore PGClaimStore := {|
  Env := PGEnv; Claim := PGClaim; Complete := PGComplete; view s k := s.(rows) !! k |}.

(** ** Both stores keep the contract *)

(** What a sweep that keeps the unexpired claims does to a key. *)
Definition swept (now : Z) (m m' : gmap string claim) (k : string) : Prop :=
  m' !! k = m !! k ∨ m' !! k = None ∧ ∃ c, m !! k = Some c ∧ c.(expiry) < now.
Lemma swept_filter (P : string * claim → Prop) `{∀ kc, Decision (P kc)} m now k :
  (∀ c, now ≤ c.(expiry) → P (k, c)) → swept now m (filter P m) k.
Proof.
  intros HP. unfold swept. rewrite map_lookup_filter. destruct (m !! k) as [c|]; simpl; [|by left].
  case_guard as Hg; simpl; [by left|right]. split; [done|]. exists c. split; [done|].
  destruct (Z.lt_ge_cases (expiry c) now); [done|]. exfalso. auto.
Qed.
Lemma swept_dropExpired m now k : swept now m (dropExpired now m) k.
Proof. apply swept_filter. intros c Hc. simpl. by apply Z.leb_le. Qed.
Lemma swept_evict (b : bool) m now k : swept now m (if b then evictExpired now m else m) k.
Proof. destruct b; [|by left]. apply swept_filter. intros c Hc. simpl. by apply Z.ltb_ge. Qed.
Lemma swept_free m m' now k : swept now m m' k → m' !! k = None → ∀ c, m !! k = Some c → c.(expiry) < now.
Proof. intros [Hs|(_ & c' & Hc & Hlt)] Hn c Hk; [congruence|naive_solver]. Qed.
Lemma swept_some m m' now k c : swept now m m' k → m' !! k = Some c → m !! k = Some c.
Proof. intros [Hs|(Hs & _)] Hk; congruence. Qed.

Lemma MemLaws : ClaimLaws MemClaimStore.
Proof.
  constructor.
  - intros ev s k x now s' Hc. unfold Claim, free, evolves in *; simpl in *. unfold MemClaim in Hc.
    repeat (case_in Hc; try done). injection Hc as <-. simpl.
    split_and!; [eapply swept_free; [apply swept_dropExpired|done]|apply lookup_insert_eq|].
    intros k' Hk. rewrite lookup_insert_ne by done. apply swept_dropExpired.
  - intros ev s k x now r s' Hc Hr k'. unfold evolves. simpl in *. assert (claims s' = dropExpired now (claims s)) as ->;
      [|apply swept_dropExpired]. unfold MemClaim in Hc. repeat (case_in Hc; try done); by simplify_eq/=.
  - intros ev s k x now res s' Hc. simpl in *. unfold MemClaim in Hc.
    destruct (dropExpired now (claims s) !! k) as [[y d r]|] eqn:Hk; [|by case_in Hc]. simpl in Hc.
    destruct d; simplify_eq. exists y. split; [by eapply swept_some, Hk; apply swept_dropExpired|].
    unfold dropExpired in Hk. apply map_lookup_filter_Some in Hk as [_ Hk]. simpl in *. by apply Z.leb_le.
  - intros ev s k res x now k' Hk. simpl. unfold MemComplete. repeat case_match; try done. simpl. by rewrite lookup_insert_ne.
  - intros ev s k res x now. simpl. unfold MemComplete. destruct (claims s !! k) as [[y d r]|] eqn:Hk; [|left; by rewrite Hk].
    simpl. destruct (d || negb (y =? x) || (y <? now)) eqn:Hb; [left; by rewrite Hk|]. breflect. right. subst.
    simpl. rewrite lookup_insert_eq. eauto.
Qed.

Lemma PGLaws : ClaimLaws PGClaimStore.
Proof.
  constructor.
  - intros ev s k x now s' Hc. unfold Claim, free, evolves in *; simpl in *. unfold PGClaim in Hc.
    pose proof (swept_evict (evictOk ev) (rows s) now) as Hsw. set (t := if evictOk ev then _ else _) in *.
    destruct (insertOk ev); simpl in Hc; [|done]. destruct (t !! k) as [c|] eqn:Ht; [by repeat (case_in Hc; try done)|].
    injection Hc as <-. simpl. split_and!; [by eapply swept_free|apply lookup_insert_eq|].
    intros k' Hk. rewrite lookup_insert_ne by done. apply Hsw.
  - intros ev s k x now r s' Hc Hr k'. unfold evolves. simpl in *.
    assert (rows s' = if evictOk ev then evictExpired now (rows s) else rows s) as ->; [|apply swept_evict].
    unfold PGClaim in Hc. set (t := if evictOk ev then _ else _) in *. repeat (case_in Hc; try done); by simplify_eq/=.
  - intros ev s k x now res s' Hc. simpl in *. unfold PGClaim in Hc.
    pose proof (swept_evict (evictOk ev) (rows s) now k) as Hsw. set (t := if evictOk ev then _ else _) in *.
    destruct (insertOk ev); simpl in Hc; [|done]. destruct (t !! k) as [[y d r]|] eqn:Hk; [|done].
    destruct (selectOk ev); simpl in Hc; [|done]. destruct (Z.leb_spec now y); [|done]. destruct d; simplify_eq.
    exists y. split; [by eapply swept_some|done].
  - intros ev s k res x now k' Hk. simpl. unfold PGComplete. repeat case_match; try done. simpl. by rewrite lookup_insert_ne.
  - intros ev s k res x now. simpl. unfold PGComplete. destruct (updateOk ev); simpl; [|by left].
    destruct (rows s !! k) as [[y d r]|] eqn:Hk; [|left; by rewrite Hk]. simpl.
    destruct (negb d && (y =? x) && (now <=? y)) eqn:Hb; [|left; by rewrite Hk]. breflect. right. subst.
    simpl. rewrite lookup_insert_eq. eauto.
Qed.

(** The claim key tells tools and conveyed keys apart: no key on one tool can answer or
    suppress a call of another. *)
Theorem claimKey_injective t1 k1 t2 k2 :
  strlen t1 < 10 ^ 20 → strlen t2 < 10 ^ 20 → claimKey t1 k1 = claimKey t2 k2 → t1 = t2 ∧ k1 = k2.
Proof.
  intros H1 H2 He. set (colon := Ascii.Ascii false true false true true true false false).
  assert (Hs : ∀ t k, (splitAt colon (claimKey t k)).1 = itoa (strlen t)).
  { intros t k. unfold claimKey, itoa. destruct (Z.ltb_spec (strlen t) 0); [unfold strlen in *; lia|].
    apply (splitAt_itoaPos colon 20 _ "" _); [by right|done]. }
  assert (Hl : strlen t1 = strlen t2).
  { apply itoa_inj; [unfold strlen in *; lia..|]. by rewrite <-(Hs t1 k1), <-(Hs t2 k2), He. }
  unfold claimKey in He. rewrite Hl in He. apply append_inj_length in He as [_ He]; [|done].
  apply append_inj_length in He as [_ He]; [|done].
  apply append_inj_length in He as [-> He]; [|unfold strlen in Hl; lia].
  by apply append_inj_length in He as [_ ->].
Qed.

(** ** The middleware *)

(** The tool results and their JSON, of which the code uses only that they can be encoded
    and decoded. *)
Class ResultCodec := {
  ToolResult : Type;
  zeroResult : ToolResult;
  marshalRec : option ToolResult → string → option string;   (* [Result] and [Err] *)
  unmarshalRec : string → option (option ToolResult * string)
}.

Section Middleware.
Context `{ResultCodec} {S : Type} `{ClaimStore S}.

(** A handler's outcome: its result, and the text of its error if it has one. *)
Definition outcome : Type := ToolResult * option string.
Inductive Answer :=
| Answered (o : outcome) | InvalidKey | StoreUnavailable | ContextDone | NotStored | Undecodable.

(** What [executeAndComplete] records of an outcome; a recovered panic is an error. *)
Definition payload (o : outcome) : string :=
  match (match o.2 with Some e => marshalRec None e | None => marshalRec (Some o.1) "" end) with
  | Some p => if MaxCachedResultBytes <? strlen p then "" else p
  | None => ""
  end.
Definition decodeClaimOutcome (cached : string) : Answer :=
  if (cached =? "")%string then NotStored
  else match unmarshalRec cached with
  | None => Undecodable
  | Some (r, e) =>
      if negb (e =? "")%string then Answered (zeroResult, Some e)
      else match r with Some r => Answered (r, None) | None => Undecodable end
  end.

(** How the middleware starts on a call: [None] is a context without call information. *)
Inductive start := PassThrough | Refuse | Keyed (ck : string).
Definition begin (info : option (string * string)) : start :=
  match info with
  | None => PassThrough
  | Some (tool, meta) =>
      match idempotencyKeyFromMeta meta with
      | Err _ => Refuse
      | Ok None => PassThrough
      | Ok (Some key) => Keyed (claimKey tool key)
      end
  end.
Definition effectiveTTL (ttl : Z) : Z := if ttl <=? 0 then DefaultIdempotencyTTL else ttl.

(** ** Concurrent callers *)

(** A keyed call in the loop, running the tool with the claim that expires at [x],
    answered by its own execution, by a replay, otherwise, or lost with its process. *)
Inductive phase :=
| Polling | Executing (x : Z) | Ran (o : outcome) | Replayed (a : Answer) | Stopped (a : Answer) | Crashed.
Record caller := mkCaller { ck : string; ph : phase }.
(** An execution of the tool: its key, when it began and the expiry of its claim. *)
Record exec := mkExec { eKey : string; eStart : Z; eExpiry : Z }.
Record state := mkState {
  store : S; clock : Z; callers : gmap nat caller;
  execs : list exec;                          (* newest first *)
  outcomes : list (string * Z * outcome)      (* key, expiry and outcome of finished executions *)
}.
Definition setCaller (i : nat) (c : caller) (st : S) (s : state) : state :=
  mkState st s.(clock) (<[i := c]> s.(callers)) s.(execs) s.(outcomes).

(** One round of the loop, at the clock reading [now]. *)
Definition claimRound (ev : Env) (ttl now : Z) (i : nat) (k : string) (s : state) : state :=
  let x := now + ttl in
  let '(r, st) := Claim ev s.(store) k x now in
  match r with
  | ClaimErr => setCaller i (mkCaller k (Stopped StoreUnavailable)) st s
  | Won => mkState st s.(clock) (<[i := mkCaller k (Executing x)]> s.(callers))
             (mkExec k s.(clock) x :: s.(execs)) s.(outcomes)
  | Done res => setCaller i (mkCaller k (Replayed (decodeClaimOutcome res))) st s
  | Pending => setCaller i (mkCaller k Polling) st s
  end.
Definition finish (ev : Env) (now : Z) (i : nat) (k : string) (x : Z) (o : outcome) (s : state) : state :=
  mkState (Complete ev s.(store) k (payload o) x now) s.(clock) (<[i := mkCaller k (Ran o)]> s.(callers))
    s.(execs) ((k, x, o) :: s.(outcomes)).

(** The clock is read before the store is reached: an operation may use an older reading. *)
Inductive step (ttl : Z) : state → state → Prop :=
| step_tick s d : 0 ≤ d → step ttl s (mkState s.(store) (s.(clock) + d) s.(callers) s.(execs) s.(outcomes))
| step_arrive s i k : s.(callers) !! i = None → step ttl s (setCaller i (mkCaller k Polling) s.(store) s)
| step_claim s i k ev now : s.(callers) !! i = Some (mkCaller k Polling) → now ≤ s.(clock) →
    step ttl s (claimRound ev ttl now i k s)
| step_finish s i k x o ev now : s.(callers) !! i = Some (mkCaller k (Executing x)) → now ≤ s.(clock) →
    step ttl s (finish ev now i k x o s)
| step_cancel s i k : s.(callers) !! i = Some (mkCaller k Polling) →
    step ttl s (setCaller i (mkCaller k (Stopped ContextDone)) s.(store) s)
| step_crash s i k p : s.(callers) !! i = Some (mkCaller k p) → (p = Polling ∨ ∃ x, p = Executing x) →
    step ttl s (setCaller i (mkCaller k Crashed) s.(store) s).
Definition initial (st : S) (t : Z) : state := mkState st t ∅ [] [].

(** ** Executions do not overlap in a claim's lifetime *)

Context `{!ClaimLaws S}.

(** Newest first: an execution begins after the claims of the older ones of its key have
    expired. *)
Inductive spaced : list exec → Prop :=
| spaced_nil : spaced []
| spaced_cons e l : spaced l → (∀ e', e' ∈ l → eKey e' = eKey e → eExpiry e' < eStart e) → spaced (e :: l).

Record inv (s : state) : Prop := {
  inv_spaced : spaced s.(execs);
  inv_held e : e ∈ s.(execs) → s.(clock) ≤ eExpiry e →
    ∃ d r, view s.(store) (eKey e) = Some (mkClaim (eExpiry e) d r);
  inv_recorded k x r : view s.(store) k = Some (mkClaim x true r) →
    ∃ o, (k, x, o) ∈ s.(outcomes) ∧ r = payload o;
  inv_running i k x : s.(callers) !! i = Some (mkCaller k (Executing x)) →
    ∃ e, e ∈ s.(execs) ∧ eKey e = k ∧ eExpiry e = x;
  inv_ran k x o : (k, x, o) ∈ s.(outcomes) → ∃ e, e ∈ s.(execs) ∧ eKey e = k ∧ eExpiry e = x;
  inv_replayed i k a : s.(callers) !! i = Some (mkCaller k (Replayed a)) →
    ∃ x o, (k, x, o) ∈ s.(outcomes) ∧ a = decodeClaimOutcome (payload o)
}.

Lemma evolves_mono now t (st st' : S) k : now ≤ t → evolves now st st' k → evolves t st st' k.
Proof. intros Hle [Hv|(Hn & c & Hc & Hlt)]; [by left|right]. split; [done|]. exists c. split; [done|lia]. Qed.
Lemma evolves_refl t (st : S) k : evolves t st st k.
Proof. by left. Qed.
Lemma evolves_held t (st st' : S) k x d r :
  evolves t st st' k → view st k = Some (mkClaim x d r) → t ≤ x → view st' k = Some (mkClaim x d r).
Proof. intros [Hv|(_ & c & Hc & Hlt)] Hk Hx; [congruence|]. rewrite Hk in Hc. injection Hc as <-. simpl in Hlt. lia. Qed.
Lemma evolves_back t (st st' : S) k c : evolves t st st' k → view st' k = Some c → view st k = Some c.
Proof. intros [Hv|(Hv & _)] Hk; congruence. Qed.

(** A step that starts and ends no execution. *)
Lemma inv_setCaller s i c st :
  inv s → (∀ k, evolves s.(clock) s.(store) st k) → (∀ x, ph c ≠ Executing x) →
  (∀ a, ph c = Replayed a → ∃ x o, (ck c, x, o) ∈ s.(outcomes) ∧ a = decodeClaimOutcome (payload o)) →
  inv (setCaller i c st s).
Proof.
  intros [Hsp Hh Hrec Hrun Hran Hrep] Hev Hne Hr. constructor; simpl; try done.
  - intros e He Hx. destruct (Hh e He Hx) as (d & r & Hv). exists d, r. by eapply evolves_held.
  - intros k x r Hv. apply Hrec. by eapply evolves_back.
  - intros j k x. destruct (decide (j = i)) as [-> |Hji]; [rewrite lookup_insert_eq|rewrite lookup_insert_ne by done; by apply Hrun].
    intros [= ->]. by destruct (Hne x).
  - intros j k a. destruct (decide (j = i)) as [-> |Hji]; [rewrite lookup_insert_eq|rewrite lookup_insert_ne by done; by apply Hrep].
    intros [= ->]. by apply Hr.
Qed.

(** A winner: no execution of the key holds an unexpired claim. *)
Lemma inv_won s i k ev x now st :
  inv s → now ≤ s.(clock) → Claim ev s.(store) k x now = (Won, st) →
  inv (mkState st s.(clock) (<[i := mkCaller k (Executing x)]> s.(callers)) (mkExec k s.(clock) x :: s.(execs)) s.(outcomes)).
Proof.
  intros [Hsp Hh Hrec Hrun Hran Hrep] Hnow Hc. apply claim_won in Hc as (Hfree & Hk & Hev).
  assert (Hold : ∀ e, e ∈ execs s → eKey e = k → eExpiry e < clock s).
  { intros e He <-. destruct (Z.lt_ge_cases (eExpiry e) (clock s)) as [|Hle]; [done|].
    destruct (Hh e He Hle) as (d & r & Hv). apply Hfree in Hv. simpl in Hv. lia. }
  constructor; simpl.
  - constructor; [done|]. simpl. auto.
  - intros e [-> |He]%elem_of_cons Hx; simpl in *; [eauto|].
    destruct (decide (eKey e = k)) as [Hek|Hek]; [specialize (Hold e He Hek); lia|].
    destruct (Hh e He Hx) as (d & r & Hv). exists d, r. eapply evolves_held; [|done|done].
    eapply evolves_mono; [done|by apply Hev].
  - intros k' x' r Hv. destruct (decide (k' = k)) as [-> |Hne]; [congruence|]. apply Hrec. by eapply evolves_back, Hv; apply Hev.
  - intros j k' x'. destruct (decide (j = i)) as [-> |Hji].
    + rewrite lookup_insert_eq. intros [= <- <-]. eexists. split; [by apply elem_of_cons; left|done].
    + rewrite lookup_insert_ne by done. intros (e & He & ?)%Hrun. exists e. split; [by apply elem_of_cons; right|done].
  - intros k' x' o (e & He & ?)%Hran. exists e. split; [by apply elem_of_cons; right|done].
  - intros j k' a. destruct (decide (j = i)) as [-> |Hji]; [by rewrite lookup_insert_eq|rewrite lookup_insert_ne by done; by apply Hrep].
Qed.

(** A completion records the outcome under its own claim or not at all. *)
Lemma inv_finish s i k x o ev now :
  inv s → s.(callers) !! i = Some (mkCaller k (Executing x)) → inv (finish ev now i k x o s).
Proof.
  intros [Hsp Hh Hrec Hrun Hran Hrep] Hi. constructor; simpl; try done.
  - intros e He Hx. destruct (Hh e He Hx) as (d & r & Hv). destruct (decide (eKey e = k)) as [Hek|Hek].
    + subst k. destruct (complete_same ev (store s) (eKey e) (payload o) x now) as [->|((r' & Hr') & ->)]; [eauto|].
      rewrite Hv in Hr'. injection Hr' as <- _ _. eauto.
    + rewrite complete_other by done. eauto.
  - intros k' x' r Hv. destruct (decide (k' = k)) as [-> |Hne].
    + destruct (complete_same ev (store s) k (payload o) x now) as [Heq|(_ & Heq)]; rewrite Heq in Hv.
      * apply Hrec in Hv as (o' & Ho & ->). exists o'. split; [by apply elem_of_cons; right|done].
      * injection Hv as <- <-. exists o. split; [by apply elem_of_cons; left|done].
    + rewrite complete_other in Hv by done. apply Hrec in Hv as (o' & Ho & ->). exists o'. split; [by apply elem_of_cons; right|done].
  - intros j k' x'. destruct (decide (j = i)) as [-> |Hji]; [by rewrite lookup_insert_eq|rewrite lookup_insert_ne by done; by apply Hrun].
  - intros k' x' o' [[= -> -> ->]|Ho]%elem_of_cons; [by eapply Hrun|by eapply Hran].
  - intros j k' a. destruct (decide (j = i)) as [-> |Hji]; [by rewrite lookup_insert_eq|rewrite lookup_insert_ne by done].
    intros (x' & o' & Ho & Ha)%Hrep. exists x', o'. split; [by apply elem_of_cons; right|done].
Qed.

Lemma inv_step ttl s s' : step ttl s s' → inv s → inv s'.
Proof.
  intros [s0 d Hd|s0 i k Hi|s0 i k ev now Hi Hnow|s0 i k x o ev now Hi Hnow|s0 i k Hi|s0 i k p Hi Hp] Hinv.
  - destruct Hinv as [Hsp Hh Hrec Hrun Hran Hrep]. constructor; simpl; try done. intros e He Hx. apply Hh; [done|lia].
  - by apply inv_setCaller; auto using evolves_refl.
  - unfold claimRound. destruct (Claim ev (store s0) k (now + ttl) now) as [r st] eqn:Hc.
    assert (Hlost : r ≠ Won → ∀ k', evolves (clock s0) (store s0) st k').
    { intros Hr k'. eapply evolves_mono; [done|]. by eapply claim_lost. }
    destruct r as [| | |res]; [by apply inv_setCaller; auto|by eapply inv_won|by apply inv_setCaller; auto|].
    apply inv_setCaller; [done|by auto|done|]. intros a [= <-]. simpl. apply claim_done in Hc as (y & Hy & _).
    destruct (inv_recorded _ Hinv _ _ _ Hy) as (o & Ho & ->). eauto.
  - by apply inv_finish.
  - by apply inv_setCaller; auto using evolves_refl.
  - by apply inv_setCaller; auto using evolves_refl.
Qed.

Lemma inv_reachable ttl st t s :
  (∀ k, view st k = None) → star (step ttl) (initial st t) s → inv s.
Proof.
  intros Hst Hs. refine (star_invariant (step ttl) inv (λ a b, inv_step ttl a b) _ _ Hs _).
  constructor; simpl; try set_solver; [constructor|].
  intros k x r Hv. by rewrite Hst in Hv.
Qed.

(** C16. At most one execution per key and claim lifetime: however the callers of a key
    interleave, crash, are cancelled or meet store failures, and however stale the clock
    readings they claim with, a later execution begins only after the claim of every
    earlier one has expired. *)
Theorem executions_at_most_once ttl st t s newer e2 between e1 older :
  (∀ k, view st k = None) → star (step ttl) (initial st t) s →
  s.(execs) = newer ++ e2 :: between ++ e1 :: older → eKey e1 = eKey e2 → eExpiry e1 < eStart e2.
Proof.
  intros Hst Hs%inv_reachable He Hk; [|done]. destruct Hs as [Hsp _ _ _ _ _]. rewrite He in Hsp. clear He.
  induction newer as [|e newer IH]; simpl in Hsp; inversion Hsp as [|? ? Hl Ha]; subst; [|auto].
  apply Ha; [|done]. rewrite elem_of_app, elem_of_cons. auto.
Qed.

(** A replay is honest: a call answered from the store gets the recorded outcome of an
    execution of its own key that took place, never that of another key and never an
    invented one. *)
Theorem replay_is_a_recorded_outcome ttl st t s i k a :
  (∀ k, view st k = None) → star (step ttl) (initial st t) s →
  s.(callers) !! i = Some (mkCaller k (Replayed a)) →
  ∃ x o e, (k, x, o) ∈ s.(outcomes) ∧ a = decodeClaimOutcome (payload o) ∧
    e ∈ s.(execs) ∧ eKey e = k ∧ eExpiry e = x.
Proof.
  intros Hst Hs%inv_reachable Hi; [|done]. destruct (inv_replayed _ Hs _ _ _ Hi) as (x & o & Ho & ->).
  destruct (inv_ran _ Hs _ _ _ Ho) as (e & He & Hk & Hx). by exists x, o, e.
Qed.

(** What a replay answers, for a codec that decodes what it encoded: the same result, or
    the same error; an outcome that was too large or could not be encoded, and an error
    without text, are answered by a refusal and not by running the tool again. *)
Theorem replay_repeats_outcome r e :
  (∀ r p, marshalRec (Some r) "" = Some p → unmarshalRec p = Some (Some r, "") ∧ p ≠ "") →
  (∀ e p, marshalRec None e = Some p → unmarshalRec p = Some (None, e) ∧ p ≠ "") →
  decodeClaimOutcome (payload (r, e)) =
    match marshalRec (match e with Some _ => None | None => Some r end) (default "" e) with
    | None => NotStored
    | Some p => if MaxCachedResultBytes <? strlen p then NotStored
                else match e with
                     | None => Answered (r, None)
                     | Some "" => Undecodable
                     | Some text => Answered (zeroResult, Some text)
                     end
    end.
Proof.
  intros Hres Herr. unfold payload. destruct e as [text|]; simpl;
    (destruct (marshalRec _ _) as [p|] eqn:Hp; [|done]); destruct (MaxCachedResultBytes <? strlen p); try done;
    first [apply Herr in Hp as [Hu Hne]|apply Hres in Hp as [Hu Hne]]; unfold decodeClaimOutcome; rewrite (proj2 (String.eqb_neq p "")), Hu by done; simpl; [|done].
  destruct text; done.
Qed.
End Middleware.

(** The in-memory store is bounded: at its capacity it refuses new keys. *)
Lemma mem_claims_bounded m k x now r m' :
  0 ≤ m.(cap) → Z.of_nat (size m.(claims)) ≤ m.(cap) → MemClaim m k x now = (r, m') →
  m'.(cap) = m.(cap) ∧ Z.of_nat (size m'.(claims)) ≤ m'.(cap).
Proof.
  intros Hc Hs Hm. unfold MemClaim in Hm.
  assert (Hd : (size (dropExpired now (claims m)) ≤ size (claims m))%nat)
    by apply map_subseteq_size, map_filter_subseteq.
  repeat case_in Hm; simplify_eq/=; breflect; split; try done; try lia.
  rewrite map_size_insert_None by done. lia.
Qed.
End Idem.

(** ** Concrete runs *)

Module IdemRuns.
Import Idem.
#[export] Instance memLaws : ClaimLaws MemClaimStore := MemLaws.
#[export] Instance pgLaws : ClaimLaws PGClaimStore := PGLaws.

(** Results are texts, encoded with a mark in front. *)
#[export] Instance textCodec : ResultCodec := {|
  ToolResult := string; zeroResult := "";
  marshalRec r e := Some (match r with Some r => ("r" +:+ r)%string | None => ("e" +:+ e)%string end);
  unmarshalRec p := match p with
    | String "r" r => Some (Some r, "") | String "e" e => Some (None, e) | _ => None end |}.

Example keys :
  idempotencyKeyFromMeta "{}" = Ok None ∧
  idempotencyKeyFromMeta (of_codes [123; 34] +:+ IdempotencyKeyMeta +:+ of_codes [34; 58; 34; 107; 34; 125]) = Ok (Some "k") ∧
  idempotencyKeyFromMeta (of_codes [123; 34] +:+ IdempotencyKeyMeta +:+ of_codes [34; 58; 55; 125]) = Err tt.
Proof. by vm_compute. Qed.

(** Two callers of key [k], the second of which is answered from the store, and a third one
    after the claim of the first has expired. *)
Definition mem : @Env MemClaimStore MemStore := tt.
Definition s0 : state (S := MemClaimStore) := initial NewMemClaimStore 0.
Definition s1 := setCaller 0 (mkCaller "k" Polling) (store s0) s0.
Definition s2 := setCaller 1 (mkCaller "k" Polling) (store s1) s1.
Definition s3 := claimRound (S := MemClaimStore) mem 10 0 0 "k" s2.
Definition s4 := claimRound (S := MemClaimStore) mem 10 0 1 "k" s3.
Definition s5 := finish (S := MemClaimStore) mem 0 0 "k" 10 ("sent", None) s4.
Definition s6 := claimRound (S := MemClaimStore) mem 10 0 1 "k" s5.
Definition s7 := mkState (store s6) (clock s6 + 20) (callers s6) (execs s6) (outcomes s6).
Definition s8 := setCaller 2 (mkCaller "k" Polling) (store s7) s7.
Definition s9 := claimRound (S := MemClaimStore) mem 10 20 2 "k" s8.
Lemma run_s6 : star (step 10) s0 s6.
Proof.
  apply star_step with s1; [by apply step_arrive; vm_compute|]. apply star_step with s2; [by apply step_arrive; vm_compute|].
  apply star_step with s3; [by apply (step_claim (S := MemClaimStore) 10 s2 0 "k" mem 0); vm_compute|].
  apply star_step with s4; [by apply (step_claim (S := MemClaimStore) 10 s3 1 "k" mem 0); vm_compute|].
  apply star_step with s5; [by apply (step_finish (S := MemClaimStore) 10 s4 0 "k" 10 ("sent", None) mem 0); vm_compute|].
  apply star_one. by apply (step_claim (S := MemClaimStore) 10 s5 1 "k" mem 0); vm_compute.
Qed.
Lemma run_s9 : star (step 10) s0 s9.
Proof.
  apply star_trans with s6; [apply run_s6|]. apply star_step with s7; [by apply step_tick|].
  apply star_step with s8; [by apply step_arrive; vm_compute|].
  apply star_one. by apply (step_claim (S := MemClaimStore) 10 s8 2 "k" mem 20); vm_compute.
Qed.
Lemma executions_at_most_once_witness :
  execs s9 = [mkExec "k" 20 30; mkExec "k" 0 10] ∧ eExpiry (mkExec "k" 0 10) < eStart (mkExec "k" 20 30).
Proof.
  assert (execs s9 = [mkExec "k" 20 30; mkExec "k" 0 10]) as He by (by vm_compute).
  split; [exact He|].
  refine (executions_at_most_once 10 NewMemClaimStore 0 s9 [] _ [] _ [] _ run_s9 He _); [by intros k|done].
Defined.
Lemma replay_is_a_recorded_outcome_witness :
  ∃ x o e, ("k", x, o) ∈ outcomes s6 ∧ Answered ("sent", None) = decodeClaimOutcome (payload o) ∧
    e ∈ execs s6 ∧ eKey e = "k" ∧ eExpiry e = x.
Proof.
  refine (replay_is_a_recorded_outcome 10 NewMemClaimStore 0 s6 1 "k" (Answered ("sent", None)) _ run_s6 _); [by intros k|by vm_compute].
Defined.
Lemma replay_repeats_outcome_witness : decodeClaimOutcome (payload ("sent", None)) = Answered ("sent", None).
Proof.
  refine (replay_repeats_outcome (H := textCodec) "sent" None _ _);
    [intros r p [= <-]; by split|intros e p [= <-]; by split].
Defined.
Lemma claimKey_injective_witness : claimKey "a" "b:c" ≠ claimKey "a:b" "c".
Proof.
  intros He. destruct (claimKey_injective "a" "b:c" "a:b" "c" ltac:(by vm_compute) ltac:(by vm_compute) He). discriminate.
Defined.
End IdemRuns.
