(* ===== verification/AirText.v ===== *)
(** * AirText: checks on the texts of the Air records

    [hasControl] of [air/notice.go] and the bounded texts, tokens and references of
    [air/handoff.go]. Instants are nanoseconds; the zero [time.Time] is [zeroTime]. *)
From stdpp Require Import base list strings.
From Stdlib Require Import ZArith Lia Ascii.
From S2P Require Import Prelude GoStd Json.
Open Scope Z_scope.
Open Scope mesh_scope.

Module Air.

(** The runes of a text, as [range] yields them. *)
Fixpoint runes (fuel : nat) (l : list Z) : list Z :=
  match l, fuel with
  | [], _ | _, O => []
  | _, S fuel => let '(r, n) := decodeRune l in r :: runes fuel (drop n l)
  end.
Definition runesOf (s : string) : list Z := runes (String.length s) (codes s).
Definition hasControl (s : string) : bool :=
  existsb (λ r, (r <? 32) || ((127 <=? r) && (r <=? 159))) (runesOf s).

(** The zero [time.Time], the first of January of the year 1. *)
Definition zeroTime : Z := - 62135596800 * 10 ^ 9.
Definition IsZero (t : Z) : bool := t =? zeroTime.

(** A token: not empty, no surrounding space, bounded, no control character. *)
Definition boundedToken (s : string) (max : Z) : bool :=
  negb (trimSpace s =? "")%string && (s =? trimSpace s)%string && (strlen s <=? max) && negb (hasControl s).
Definition boundedText (s : string) (max : Z) (required : bool) : bool :=
  negb (required && (trimSpace s =? "")%string) && (strlen s <=? max) && negb (hasControl s).

Definition isHexLower (c : Z) : bool := ((48 <=? c) && (c <=? 57)) || ((97 <=? c) && (c <=? 102)).
Definition validHandoffID (id : string) : bool := (strlen id =? 32) && forallb isHexLower (codes id).
Definition validSHA256Ref (s : string) : bool :=
  (strlen s =? 71) && match cutPrefix "sha256:" s with Some h => forallb isHexLower (codes h) | None => false end.

(** No entry twice. *)
Fixpoint noDup (l : list string) : bool :=
  match l with [] => true | x :: l => negb (existsb (String.eqb x) l) && noDup l end.
Lemma noDup_spec l : noDup l = true ↔ NoDup l.
Proof.
  induction l as [|x l IH]; simpl; [split; [constructor|done]|].
  rewrite andb_true_iff, negb_true_iff, IH, NoDup_cons, <-not_true_iff_false, existsb_exists.
  split; intros [Hn Hl]; split; try done.
  - intros Hx. apply Hn. exists x. split; [by apply list_elem_of_In|apply String.eqb_refl].
  - intros (y & Hy & ->%String.eqb_eq). apply Hn. by apply list_elem_of_In.
Qed.
Definition maxHandoffRefs : nat := 64.
Definition validateRefs (refs : list string) : bool :=
  (length refs <=? maxHandoffRefs)%nat && forallb (λ r, boundedToken r 256) refs && noDup refs.
End Air.
