(* ===== verification/Handoff.v ===== *)
(** * Handoff: continuity offers and their delivery

    [air/handoff.go]: the capsule and its validation, the content hash of an offer, the
    acknowledgement, and the consent and delivery state machine of a received record. *)
From stdpp Require Import base list strings gmap.
From Stdlib Require Import ZArith Lia Ascii.
From S2P Require Import Prelude GoStd Json Crypto AirText.
Open Scope Z_scope.
Open Scope mesh_scope.
#[local] Arguments Nat.leb : simpl never.

Module Handoff.
Import Air.

(** ** Capsules and offers *)

Definition HandoffVersion : Z := 1.
Definition HandoffMaxInlineBytes : Z := Z.shiftl 256 10.
Definition HandoffMaxDeliveryAttempts : nat := 16.
Definition maxHandoffTTL : Z := 24 * 3600 * 10 ^ 9.
Definition maxHandoffFutureSkew : Z := 5 * 60 * 10 ^ 9.
Definition maxHandoffGoal : Z := 4096.
Definition maxHandoffSummary : Z := 8192.
Definition maxHandoffCursor : Z := Z.shiftl 128 10.
Definition maxHandoffArtifacts : nat := 32.
Definition maxHandoffNote : Z := 500.

Record WorkRef := mkWork { wKind : string; wID : string }.
#[export] Instance WorkRef_eq_dec : EqDecision WorkRef.
Proof. solve_decision. Defined.
Record BlobRef := mkBlob { bName : string; bSHA256 : string; bBytes : Z; bMediaType : string }.
#[export] Instance BlobRef_eq_dec : EqDecision BlobRef.
Proof. solve_decision. Defined.
Record ContextCapsule := mkCapsule {
  Version : Z; ID : string; CreatedAt : Z; ExpiresAt : Z; TargetKey : string; Work : WorkRef;
  Goal : string; Summary : string; Cursor : string; Artifacts : list BlobRef;
  MemoryRefs : list string; SecretRefs : list string; Labels : list string; Sensitivity : string }.
#[export] Instance ContextCapsule_eq_dec : EqDecision ContextCapsule.
Proof. solve_decision. Defined.
Record HandoffOffer := mkOffer { Capsule : ContextCapsule; ContentHash : string }.
#[export] Instance HandoffOffer_eq_dec : EqDecision HandoffOffer.
Proof. solve_decision. Defined.

(** [json.Marshal] of a capsule, and the media types [mime.ParseMediaType] accepts. *)
Class CapsuleCodec := {
  marshalCapsule : ContextCapsule → option string;
  parseMediaType : string → bool
}.

Inductive hoErr :=
| BadCapsule | CapsuleTooLarge | NoClock | NoTarget | WrongTarget | FromFuture | ErrExpired | HashMismatch
| BadNote | UnknownState | InvalidTransition | NeedsReceipt | BadAttempt | ClockMismatch | TooManyAttempts
| NotAccepted | NothingClaimed | AlreadyAcked | NotDispatching | UnknownOutcome
| BadID | NotFound | Backdated | NotVerified | SourceMismatch | IDCollision | InboxFull | WriteFailed | Corrupt
| BadAck | AckMismatch | ArchiveClash | LockFailed.

Section Capsules.
Context `{CapsuleCodec} `{SHA256}.

Definition workKinds : list string := ["agent"; "session"; "task"; "workflow"].
Definition sensitivities : list string := ["low"; "standard"; "sensitive"; "restricted"].

Definition validateBlobRef (b : BlobRef) : bool :=
  boundedToken b.(bName) 255 &&
  negb ((b.(bName) =? ".")%string || (b.(bName) =? "..")%string || containsAny b.(bName) "/\") &&
  validSHA256Ref b.(bSHA256) && (0 <=? b.(bBytes)) && (b.(bBytes) <=? Z.shiftl 1 50) &&
  ((b.(bMediaType) =? "")%string ||
   ((strlen b.(bMediaType) <=? 128) && negb (hasControl b.(bMediaType)) && parseMediaType b.(bMediaType))).

(** The checks of [validateCapsuleShape] before the size of the encoding. [Sub] saturates
    at 292 years, which no comparison here sees. *)
Definition shapeOk (c : ContextCapsule) : bool :=
  (c.(Version) =? HandoffVersion) && validHandoffID c.(ID) && boundedToken c.(TargetKey) 256 &&
  negb (IsZero c.(CreatedAt) || IsZero c.(ExpiresAt)) &&
  (0 <? c.(ExpiresAt) - c.(CreatedAt)) && (c.(ExpiresAt) - c.(CreatedAt) <=? maxHandoffTTL) &&
  existsb (String.eqb c.(Work).(wKind)) workKinds && boundedToken c.(Work).(wID) 256 &&
  boundedText c.(Goal) maxHandoffGoal true && boundedText c.(Summary) maxHandoffSummary false &&
  (strlen c.(Cursor) <=? maxHandoffCursor) &&
  ((c.(Cursor) =? "")%string || negb (isNone (parseJSON c.(Cursor)))) &&
  (length c.(Artifacts) <=? maxHandoffArtifacts)%nat && forallb validateBlobRef c.(Artifacts) &&
  validateRefs c.(MemoryRefs) && validateRefs c.(SecretRefs) && validateRefs c.(Labels) &&
  existsb (String.eqb c.(Sensitivity)) sensitivities.
(** The encoding, within the inline limit. *)
Definition capsuleBytes (c : ContextCapsule) : result hoErr string :=
  let* b := of_option BadCapsule (marshalCapsule c) in
  let* _ := guard_err (HandoffMaxInlineBytes <? strlen b) CapsuleTooLarge in Ok b.
Definition validateCapsuleShape (c : ContextCapsule) : result hoErr unit :=
  let* _ := guard_err (negb (shapeOk c)) BadCapsule in
  let* _ := capsuleBytes c in Ok tt.

Definition defaults (c : ContextCapsule) : ContextCapsule :=
  mkCapsule (if c.(Version) =? 0 then HandoffVersion else c.(Version)) c.(ID) c.(CreatedAt) c.(ExpiresAt)
    c.(TargetKey) c.(Work) c.(Goal) c.(Summary) c.(Cursor) c.(Artifacts) c.(MemoryRefs) c.(SecretRefs) c.(Labels)
    (if (c.(Sensitivity) =? "")%string then "standard" else c.(Sensitivity)).
Definition SealHandoff (c : ContextCapsule) : result hoErr HandoffOffer :=
  let c := defaults c in
  let* _ := validateCapsuleShape c in
  let* b := capsuleBytes c in
  Ok (mkOffer c ("sha256:" +:+ sha256Hex b)).

Definition ValidateOffer (o : HandoffOffer) (now : Z) (expectedTargetKey : string) : result hoErr unit :=
  let c := o.(Capsule) in
  let* _ := guard_err (IsZero now) NoClock in
  let* _ := validateCapsuleShape c in
  let* _ := guard_err (expectedTargetKey =? "")%string NoTarget in
  let* _ := guard_err (negb (c.(TargetKey) =? expectedTargetKey)%string) WrongTarget in
  let* _ := guard_err (now + maxHandoffFutureSkew <? c.(CreatedAt)) FromFuture in
  let* _ := guard_err (c.(ExpiresAt) <=? now) ErrExpired in
  let* sealed := SealHandoff c in
  guard_err (negb (sealed.(ContentHash) =? o.(ContentHash))%string) HashMismatch.

(** ** Acknowledgements *)

Record HandoffAck := mkAck { aVersion : Z; aID : string; aHash : string; aStatus : string; aReason : string }.
Definition validateHandoffAck (a : HandoffAck) : bool :=
  (a.(aVersion) =? HandoffVersion) &&
  (if (a.(aStatus) =? "stored")%string || (a.(aStatus) =? "replayed")%string then (a.(aReason) =? "")%string
   else (a.(aStatus) =? "rejected")%string && boundedToken a.(aReason) 128) &&
  ((a.(aID) =? "")%string || validHandoffID a.(aID)) && ((a.(aHash) =? "")%string || validSHA256Ref a.(aHash)).
Definition Accepted_ (a : HandoffAck) : bool := (a.(aStatus) =? "stored")%string || (a.(aStatus) =? "replayed")%string.
Definition ValidateFor (a : HandoffAck) (o : HandoffOffer) : result hoErr unit :=
  let* _ := guard_err (negb (validateHandoffAck a)) BadAck in
  let* _ := guard_err (negb (a.(aID) =? "")%string && negb (a.(aID) =? o.(Capsule).(ID))%string) AckMismatch in
  let* _ := guard_err (negb (a.(aHash) =? "")%string && negb (a.(aHash) =? o.(ContentHash))%string) AckMismatch in
  guard_err (negb (a.(aStatus) =? "rejected")%string && ((a.(aID) =? "")%string || (a.(aHash) =? "")%string)) AckMismatch.
End Capsules.

(** ** The record's state machine *)

Inductive HandoffState :=
| Offered | Accepted | Dispatching | Declined | Continued | Expired | UnknownName (s : string).
#[export] Instance HandoffState_eq_dec : EqDecision HandoffState.
Proof. solve_decision. Defined.
Definition known (s : HandoffState) : bool := match s with UnknownName _ => false | _ => true end.

Record Attempt := mkAttempt {
  AgentAddr : string; AgentKey : string; Tool : string; ClaimedAt : Z; AcknowledgedAt : option Z }.
#[export] Instance Attempt_eq_dec : EqDecision Attempt.
Proof. solve_decision. Defined.
Definition validAttempt (a : Attempt) : bool :=
  boundedToken a.(AgentAddr) 512 && boundedToken a.(AgentKey) 256 &&
  negb (trimSpace a.(Tool) =? "")%string && (a.(Tool) =? trimSpace a.(Tool))%string && boundedText a.(Tool) 256 true &&
  negb (IsZero a.(ClaimedAt)) &&
  match a.(AcknowledgedAt) with Some t => negb (IsZero t) && (a.(ClaimedAt) <=? t) | None => true end.

Lemma ackAttempt_valid now a :
  validAttempt a = true → IsZero now = false → ClaimedAt a ≤ now →
  validAttempt (mkAttempt a.(AgentAddr) a.(AgentKey) a.(Tool) a.(ClaimedAt) (Some now)) = true.
Proof.
  unfold validAttempt. rewrite !andb_true_iff. cbn [AgentAddr AgentKey Tool ClaimedAt AcknowledgedAt].
  intros [Hrest _] -> Hle. split; [exact Hrest|by apply Z.leb_le].
Qed.

Record HandoffRecord := mkRecord {
  Offer : HandoffOffer; SourcePeer : string; SourceKey : string; SourceAddr : string; ReceivedAt : Z;
  State : HandoffState; UpdatedAt : Z; Note : string; DeliveryAttempts : list Attempt }.
#[export] Instance HandoffRecord_eq_dec : EqDecision HandoffRecord.
Proof. solve_decision. Defined.
Definition expires (r : HandoffRecord) : Z := r.(Offer).(Capsule).(ExpiresAt).
Definition setState (st : HandoffState) (now : Z) (note : string) (r : HandoffRecord) : HandoffRecord :=
  mkRecord r.(Offer) r.(SourcePeer) r.(SourceKey) r.(SourceAddr) r.(ReceivedAt) st now note r.(DeliveryAttempts).
Definition setAttempts (l : list Attempt) (r : HandoffRecord) : HandoffRecord :=
  mkRecord r.(Offer) r.(SourcePeer) r.(SourceKey) r.(SourceAddr) r.(ReceivedAt) r.(State) r.(UpdatedAt) r.(Note) l.

Definition EffectiveState (r : HandoffRecord) (now : Z) : HandoffState :=
  if (bool_decide (r.(State) = Offered) || bool_decide (r.(State) = Accepted)) && negb (IsZero now) && (expires r <=? now)
  then Expired else r.(State).

Definition allowed (from to : HandoffState) : bool :=
  match from, to with
  | Offered, (Accepted | Declined | Expired) => true
  | Accepted, (Dispatching | Expired) => true
  | Dispatching, Continued => true
  | _, _ => false
  end.
Definition transition (next : HandoffState) (now : Z) (note : string) (r : HandoffRecord) : result hoErr HandoffRecord :=
  let* _ := guard_err (IsZero now) NoClock in
  let* _ := guard_err (negb (boundedText note maxHandoffNote false)) BadNote in
  let* _ := guard_err (negb (known next)) UnknownState in
  let effective := EffectiveState r now in
  if bool_decide (effective = next) then
    Ok (if bool_decide (r.(State) = next) then r else setState next now note r)
  else
    let* _ := guard_err (bool_decide (r.(State) = Dispatching) && (expires r <=? now)) UnknownOutcome in
    let* _ := guard_err (negb (bool_decide (effective = r.(State)))) ErrExpired in
    let* _ := guard_err (negb (allowed r.(State) next)) InvalidTransition in
    Ok (setState next now note r).
Definition Transition (next : HandoffState) (now : Z) (note : string) (r : HandoffRecord) : result hoErr HandoffRecord :=
  let* _ := guard_err (bool_decide (next = Dispatching) || bool_decide (next = Continued)) NeedsReceipt in
  transition next now note r.

Definition ClaimDelivery (a : Attempt) (now : Z) (r : HandoffRecord) : result hoErr HandoffRecord :=
  let* _ := guard_err (negb (validAttempt a)) BadAttempt in
  let* _ := guard_err (negb (a.(ClaimedAt) =? now)) ClockMismatch in
  let* _ := guard_err (HandoffMaxDeliveryAttempts <=? length r.(DeliveryAttempts))%nat TooManyAttempts in
  let* _ := guard_err (negb (bool_decide (r.(State) = Accepted))) NotAccepted in
  let* r := transition Dispatching now "continuation delivery claimed" r in
  Ok (setAttempts (r.(DeliveryAttempts) ++ [a]) r).

Definition ackAttempt (now : Z) (a : Attempt) : Attempt :=
  mkAttempt a.(AgentAddr) a.(AgentKey) a.(Tool) a.(ClaimedAt) (Some now).
Definition AcknowledgeDelivery (now : Z) (r : HandoffRecord) : result hoErr HandoffRecord :=
  let* _ := guard_err (negb (bool_decide (r.(State) = Dispatching))) NothingClaimed in
  let* a := of_option NothingClaimed (list.last r.(DeliveryAttempts)) in
  let* _ := guard_err (negb (isNone a.(AcknowledgedAt))) AlreadyAcked in
  let* r := transition Continued now "destination inbox acknowledged continuation" r in
  Ok (setAttempts (removelast r.(DeliveryAttempts) ++ [ackAttempt now a]) r).

Definition Rearm (now : Z) (note : string) (r : HandoffRecord) : result hoErr HandoffRecord :=
  let* _ := guard_err (IsZero now) NoClock in
  let* _ := guard_err (negb (boundedText note maxHandoffNote true)) BadNote in
  let* _ := guard_err (negb (bool_decide (r.(State) = Dispatching))) NotDispatching in
  let* a := of_option NothingClaimed (list.last r.(DeliveryAttempts)) in
  let* _ := guard_err (negb (isNone a.(AcknowledgedAt))) NothingClaimed in
  let* _ := guard_err (expires r <=? now) UnknownOutcome in
  Ok (setState Accepted now note r).

(** ** What a record goes through *)

Lemma bounded_note note req : boundedText note maxHandoffNote req = true → strlen note ≤ maxHandoffNote ∧ hasControl note = false.
Proof. unfold boundedText. intros. breflect. done. Qed.

(** A successful transition: nothing, the writing down of an expiry, or an edge of the
    machine taken while the offer is not expired. *)
Lemma transition_cases next now note r r' : transition next now note r = Ok r' →
  IsZero now = false ∧ strlen note ≤ maxHandoffNote ∧ hasControl note = false ∧ known next = true ∧
  (r' = r ∧ State r = next ∨
   r' = setState next now note r ∧ next = Expired ∧ (State r = Offered ∨ State r = Accepted) ∧ expires r ≤ now ∨
   r' = setState next now note r ∧ allowed (State r) next = true ∧
     ((State r = Offered ∨ State r = Accepted ∨ State r = Dispatching) → now < expires r)).
Proof.
  unfold transition. intros Ht. inv_ok. breflect. pose proof (bounded_note _ _ H0) as [Hl Hc].
  split_and!; try done. unfold EffectiveState in *.
  destruct (bool_decide (State r = Offered) || bool_decide (State r = Accepted)) eqn:Hs; simpl in *.
  - rewrite H in *. simpl in *. apply orb_true_iff in Hs. rewrite !bool_decide_eq_true in Hs.
    destruct (expires r <=? now) eqn:Hx; breflect.
    + destruct (bool_decide (Expired = next)) eqn:Hn; breflect; inv_ok.
      * rewrite bool_decide_eq_false_2 by (by destruct Hs as [-> | ->]). right. left. done.
      * breflect. destruct Hs as [Hs|Hs]; rewrite Hs in *; done.
    + destruct (bool_decide (State r = next)) eqn:Hn; breflect; inv_ok; [left|right; right; breflect]; done.
  - destruct (bool_decide (State r = next)) eqn:Hn; breflect; inv_ok; [left; done|]. breflect. right. right.
    split_and!; try done. intros [He|[He|He]]; [done|done|].
    rewrite bool_decide_eq_true_2 in H2 by done. simpl in H2. by breflect.
Qed.

Definition claimNote : string := "continuation delivery claimed".
Definition ackNote : string := "destination inbox acknowledged continuation".
Lemma ClaimDelivery_ok a now r r' : ClaimDelivery a now r = Ok r' →
  validAttempt a = true ∧ ClaimedAt a = now ∧ (length (DeliveryAttempts r) < HandoffMaxDeliveryAttempts)%nat ∧
  State r = Accepted ∧ now < expires r ∧ IsZero now = false ∧
  r' = setAttempts (DeliveryAttempts r ++ [a]) (setState Dispatching now claimNote r).
Proof.
  unfold ClaimDelivery. intros Hc. inv_ok. breflect. apply transition_cases in H3 as (Hz & _ & _ & _ & Hcase).
  destruct Hcase as [[-> Hs]|[(_ & ? & _)|(-> & _ & Hx)]]; [congruence|done|]. split_and!; auto.
Qed.
Lemma AcknowledgeDelivery_ok now r r' : AcknowledgeDelivery now r = Ok r' →
  State r = Dispatching ∧ now < expires r ∧ IsZero now = false ∧
  ∃ l a, DeliveryAttempts r = l ++ [a] ∧ AcknowledgedAt a = None ∧
    r' = setAttempts (l ++ [ackAttempt now a]) (setState Continued now ackNote r).
Proof.
  unfold AcknowledgeDelivery. intros Hc. inv_ok. breflect. apply transition_cases in H2 as (Hz & _ & _ & _ & Hcase).
  destruct Hcase as [[-> Hs]|[(_ & ? & _)|(-> & _ & Hx)]]; [congruence|done|]. split_and!; auto.
  apply last_Some in H0 as [l Hl]. exists l, x0. cbn [setState DeliveryAttempts]. rewrite Hl, removelast_last.
  split_and!; [done| |done]. by destruct (AcknowledgedAt x0).
Qed.
Lemma Rearm_ok now note r r' : Rearm now note r = Ok r' →
  State r = Dispatching ∧ now < expires r ∧ IsZero now = false ∧ strlen note ≤ maxHandoffNote ∧ hasControl note = false ∧
  (∃ l a, DeliveryAttempts r = l ++ [a] ∧ AcknowledgedAt a = None) ∧ r' = setState Accepted now note r.
Proof.
  unfold Rearm. intros Hc. inv_ok. breflect. pose proof (bounded_note _ _ H0) as [Hl Hn]. split_and!; auto.
  apply last_Some in H2 as [l Hl']. exists l, x2. split; [done|]. by destruct (AcknowledgedAt x2).
Qed.

(** The operations on a record as events, the newest first. *)
Inductive event := EvTransition (next : HandoffState) | EvClaim (a : Attempt) | EvAck | EvRearm.
#[export] Instance event_eq_dec : EqDecision event.
Proof. solve_decision. Defined.
Definition applyEvent (e : event) (now : Z) (note : string) (r : HandoffRecord) : result hoErr HandoffRecord :=
  match e with
  | EvTransition next => Transition next now note r
  | EvClaim a => ClaimDelivery a now r
  | EvAck => AcknowledgeDelivery now r
  | EvRearm => Rearm now note r
  end.
Inductive history (r0 : HandoffRecord) : list event → HandoffRecord → Prop :=
| history_nil : history r0 [] r0
| history_cons es r e now note r' : history r0 es r → applyEvent e now note r = Ok r' → history r0 (e :: es) r'.

Definition claims (es : list event) : nat := length (List.filter (λ e, match e with EvClaim _ => true | _ => false end) es).
Definition rearms (es : list event) : nat := length (List.filter (λ e, match e with EvRearm => true | _ => false end) es).
Definition inFlight (st : HandoffState) : nat := match st with Dispatching | Continued => 1 | _ => 0 end.

(** How one event changes the accounts. *)
Lemma applyEvent_account e now note r r' : applyEvent e now note r = Ok r' →
  (length (DeliveryAttempts r') = length (DeliveryAttempts r) + claims [e])%nat ∧
  (claims [e] + inFlight (State r) = rearms [e] + inFlight (State r'))%nat ∧
  (claims [e] = 1%nat → State r = Accepted) ∧
  (State r' = Accepted → State r = Accepted ∨ e = EvTransition Accepted ∨ State r = Dispatching) ∧
  (State r' = Dispatching → State r = Dispatching ∨ State r = Accepted).
Proof.
  destruct e as [next|a| |]; simpl.
  - unfold Transition. intros Ht. inv_ok. apply orb_false_iff in H as [Hd Hc]. breflect.
    apply transition_cases in H0 as (_ & _ & _ & _ & [[-> Hs]|[(-> & -> & Hs & _)|(-> & Ha & _)]]); simpl.
    + split_and!; auto; done.
    + split_and!; try done. by destruct Hs as [-> | ->].
    + destruct (State r), next; simpl in *; split_and!; try done; auto.
  - intros (_ & _ & _ & Hs & _ & _ & ->)%ClaimDelivery_ok. simpl. rewrite length_app. simpl. rewrite Hs. split_and!; auto; try done; lia.
  - intros (Hs & _ & _ & l & a & Hl & _ & ->)%AcknowledgeDelivery_ok. simpl. rewrite Hl, !length_app, Hs. simpl. split_and!; auto; try done; lia.
  - intros (Hs & _ & _ & _ & _ & _ & ->)%Rearm_ok. simpl. rewrite Hs. split_and!; auto; try done; lia.
Qed.

(** C37. Work is handed to an agent only with consent and once per consent: in whatever order
    the operations come, the delivery receipts of a record are the claims made; there is
    one claim more than explicit re-arms while a delivery is outstanding or acknowledged,
    and as many otherwise; and no claim is made before an acceptance. *)
Theorem deliveries_match_consent r0 es r :
  State r0 = Offered → DeliveryAttempts r0 = [] → history r0 es r →
  length (DeliveryAttempts r) = claims es ∧ (claims es = rearms es + inFlight (State r))%nat ∧
  (State r = Accepted ∨ State r = Dispatching ∨ (0 < claims es)%nat → EvTransition Accepted ∈ es).
Proof.
  intros H0 Ha. induction 1 as [|es r e now note r' _ IH Hap]; [rewrite Ha, H0; split_and!; [done|done|]; intros [?|[?|Hlt]]; [done|done|by apply Nat.nlt_0_r in Hlt]|].
  destruct IH as (IHl & IHc & IHa). apply applyEvent_account in Hap as (Hl & Hc & Hcl & Hacc & Hdis).
  assert (claims (e :: es) = claims [e] + claims es)%nat as -> by (unfold claims; simpl; by destruct e).
  assert (rearms (e :: es) = rearms [e] + rearms es)%nat as -> by (unfold rearms; simpl; by destruct e).
  split_and!; [lia|lia|]. intros Hr. rewrite elem_of_cons.
  destruct (decide (EvTransition Accepted ∈ es)) as [|Hn]; [by right|left].
  assert (State r ≠ Accepted ∧ State r ≠ Dispatching ∧ ¬ (0 < claims es)%nat) as (N1 & N2 & N3) by tauto.
  destruct Hr as [Hr|[Hr|Hr]]; [by destruct (Hacc Hr) as [|[|]]|by destruct (Hdis Hr)|].
  exfalso. apply N1, Hcl. destruct e; simpl in *; unfold claims in *; simpl in *; lia.
Qed.

(** Declined, continued and expired are final: no operation changes such a record. *)
Theorem terminal_records_stay e now note r r' :
  State r = Declined ∨ State r = Continued ∨ State r = Expired → applyEvent e now note r = Ok r' → r' = r.
Proof.
  intros Ht. destruct e as [next|a| |]; simpl.
  - unfold Transition. intros Htr. inv_ok.
    apply transition_cases in H0 as (_ & _ & _ & _ & [[-> _]|[(_ & _ & Hs & _)|(_ & Ha & _)]]); [done|by destruct Ht as [Ht|[Ht|Ht]], Hs as [Hs|Hs]; rewrite Ht in Hs|].
    destruct Ht as [Ht|[Ht|Ht]]; by rewrite Ht in Ha.
  - intros (_ & _ & _ & Hs & _)%ClaimDelivery_ok. rewrite Hs in Ht. by destruct Ht as [?|[?|?]].
  - intros (Hs & _)%AcknowledgeDelivery_ok. rewrite Hs in Ht. by destruct Ht as [?|[?|?]].
  - intros (Hs & _)%Rearm_ok. rewrite Hs in Ht. by destruct Ht as [?|[?|?]].
Qed.
(** Nothing is delivered, acknowledged or re-armed once the offer has expired. *)
Lemma expired_offer_is_inert now note r a :
  expires r ≤ now → (∃ e, ClaimDelivery a now r = Err e) ∧ (∃ e, AcknowledgeDelivery now r = Err e) ∧ (∃ e, Rearm now note r = Err e).
Proof.
  intros Hx. split_and!.
  - destruct (ClaimDelivery a now r) as [r'|e] eqn:Hc; [|eauto]. apply ClaimDelivery_ok in Hc as (_ & _ & _ & _ & ? & _). lia.
  - destruct (AcknowledgeDelivery now r) as [r'|e] eqn:Hc; [|eauto]. apply AcknowledgeDelivery_ok in Hc as (_ & ? & _). lia.
  - destruct (Rearm now note r) as [r'|e] eqn:Hc; [|eauto]. apply Rearm_ok in Hc as (_ & ? & _). lia.
Qed.
End Handoff.
