(* ===== verification/HandoffInbox.v ===== *)
(** * HandoffInbox: the durable inbox of continuity offers

    [cmd/meshmcp/airhandoff_store.go]: the records of received offers, with their quota, the
    archive and writes that may fail. A record file holds its record; the operations of the
    inbox hold its lock for their whole length, so they happen one after another. *)
From stdpp Require Import base list strings gmap.
From Stdlib Require Import ZArith Lia Ascii.
From S2P Require Import Prelude GoStd Json Crypto AirText Handoff.
Open Scope Z_scope.
Open Scope mesh_scope.
#[local] Arguments Nat.leb : simpl never.

Module Inbox.
Import Air Handoff.

Definition defaultHandoffInboxLimit : nat := 256.
Definition maxHandoffRecordBytes : Z := Z.shiftl 2 20.

Definition validateHandoffNote (note : string) : bool :=
  (strlen note <=? maxHandoffNote) && negb (existsb (λ r, (r <? 32) || (r =? 127)) (runesOf note)).

(** [json.MarshalIndent] of a record. *)
Class RecordCodec := { marshalRecord : HandoffRecord → option string }.

(** The files: the records in the directory and in its archive, by id. *)
Record handoffInbox := mkInbox {
  active : gmap string HandoffRecord; archive : gmap string HandoffRecord; maxRecords : nat }.
Definition setActive (a : gmap string HandoffRecord) (b : handoffInbox) : handoffInbox := mkInbox a b.(archive) b.(maxRecords).

(** What the system does during an operation: whether the lock is obtained, and whether the
    replacement of a record file fails before it, or after it when the directory is synced. *)
Inductive wOutcome := Wrote | WriteErr | SyncErr.
Record env := mkEnv { lockOk : bool; onWrite : wOutcome }.

Section Store.
Context `{CapsuleCodec} `{RecordCodec} `{SHA256}.

Definition lastAcked (l : list Attempt) : option (option Z) := AcknowledgedAt <$> list.last l.
(** One attempt; [prev] is the claim time of the attempt before, [isLast] whether none
    follows. *)
Definition attemptOk (r : HandoffRecord) (prev : option Z) (isLast : bool) (a : Attempt) : bool :=
  validAttempt a &&
  negb ((a.(ClaimedAt) <? r.(ReceivedAt)) || (r.(UpdatedAt) <? a.(ClaimedAt)) || (expires r <=? a.(ClaimedAt))) &&
  negb (match prev with Some p => a.(ClaimedAt) <? p | None => false end) &&
  match a.(AcknowledgedAt) with
  | Some t => isLast && bool_decide (r.(State) = Continued) && (t =? r.(UpdatedAt)) && (t <? expires r)
  | None => true
  end.
Fixpoint attemptsOk (r : HandoffRecord) (prev : option Z) (l : list Attempt) : bool :=
  match l with
  | [] => true
  | a :: l' => attemptOk r prev (length l' =? 0)%nat a && attemptsOk r (Some a.(ClaimedAt)) l'
  end.
Definition stateReceipts (r : HandoffRecord) : bool :=
  let l := r.(DeliveryAttempts) in
  negb ((bool_decide (r.(State) = Offered) || bool_decide (r.(State) = Declined)) && negb (length l =? 0)%nat) &&
  negb ((bool_decide (r.(State) = Accepted) || bool_decide (r.(State) = Expired)) &&
        match lastAcked l with Some (Some _) => true | _ => false end) &&
  negb (bool_decide (r.(State) = Dispatching) && negb (match lastAcked l with Some None => true | _ => false end)) &&
  negb (bool_decide (r.(State) = Continued) && negb (match lastAcked l with Some (Some _) => true | _ => false end)).
(** The capsule is sealed under the record's hash, and is as [SealHandoff] leaves it. *)
Definition sealedOk (r : HandoffRecord) : bool :=
  match SealHandoff r.(Offer).(Capsule) with
  | Ok sealed =>
      bool_decide (marshalCapsule r.(Offer).(Capsule) = marshalCapsule sealed.(Capsule)) &&
      negb (isNone (marshalCapsule r.(Offer).(Capsule))) && (sealed.(ContentHash) =? r.(Offer).(ContentHash))%string
  | Err _ => false
  end.
Definition validateStored (id : string) (r : HandoffRecord) : bool :=
  validHandoffID r.(Offer).(Capsule).(ID) && (r.(Offer).(Capsule).(ID) =? id)%string && sealedOk r &&
  negb (r.(SourceKey) =? "")%string && known r.(State) && negb (IsZero r.(ReceivedAt)) && negb (IsZero r.(UpdatedAt)) &&
  (r.(ReceivedAt) <=? r.(UpdatedAt)) && (r.(ReceivedAt) <? expires r) && validateHandoffNote r.(Note) &&
  (length r.(DeliveryAttempts) <=? HandoffMaxDeliveryAttempts)%nat && attemptsOk r None r.(DeliveryAttempts) &&
  stateReceipts r.

Definition read (m : gmap string HandoffRecord) (id : string) : result hoErr (option HandoffRecord) :=
  match m !! id with
  | None => Ok None
  | Some r => if validateStored id r then Ok (Some r) else Err Corrupt
  end.
(** [writeUnlocked]: the error, if any, and the records. *)
Definition writeRecord (ev : env) (id : string) (r : HandoffRecord) (b : handoffInbox) : option hoErr * handoffInbox :=
  if negb (validateStored id r) then (Some Corrupt, b)
  else match marshalRecord r with
  | None => (Some WriteFailed, b)
  | Some data =>
      if maxHandoffRecordBytes <? strlen data then (Some WriteFailed, b)
      else match ev.(onWrite) with
      | WriteErr => (Some WriteFailed, b)
      | Wrote => (None, setActive (<[id := r]> b.(active)) b)
      | SyncErr => (Some WriteFailed, setActive (<[id := r]> b.(active)) b)
      end
  end.
(** An operation that ends by writing [r]. *)
Definition store (ev : env) (id : string) (r : HandoffRecord) (b : handoffInbox) : result hoErr HandoffRecord * handoffInbox :=
  let '(e, b) := writeRecord ev id r b in (match e with None => Ok r | Some e => Err e end, b).

Record Meta := mkMeta { PeerKey : string; PeerFQDN : string; PeerAddr : string }.
(** The answer to an offer under an id that is already taken. *)
Definition taken (r : HandoffRecord) (key hash : string) : result hoErr (HandoffRecord * bool) :=
  if negb (r.(SourceKey) =? key)%string then Err SourceMismatch
  else if negb (r.(Offer).(ContentHash) =? hash)%string then Err IDCollision
  else Ok (r, false).
Definition Put (ev : env) (offer : HandoffOffer) (meta : Meta) (localKey : string) (now : Z) (b : handoffInbox)
    : result hoErr (HandoffRecord * bool) * handoffInbox :=
  if (meta.(PeerKey) =? "")%string then (Err NotVerified, b)
  else match ValidateOffer offer now localKey with
  | Err e => (Err e, b)
  | Ok _ =>
      let id := offer.(Capsule).(ID) in
      let r := mkRecord offer meta.(PeerFQDN) meta.(PeerKey) meta.(PeerAddr) now Offered now "" [] in
      if negb (validHandoffID id) then (Err BadID, b) else
      if negb ev.(lockOk) then (Err LockFailed, b) else
      match read b.(active) id with
      | Err e => (Err e, b)
      | Ok (Some old) => (taken old meta.(PeerKey) offer.(ContentHash), b)
      | Ok None =>
          match read b.(archive) id with
          | Err e => (Err e, b)
          | Ok (Some old) => (taken old meta.(PeerKey) offer.(ContentHash), b)
          | Ok None =>
              if (b.(maxRecords) <=? size b.(active))%nat then (Err InboxFull, b)
              else let '(e, b) := writeRecord ev id r b in
                   (match e with None => Ok (r, true) | Some e => Err e end, b)
          end
      end
  end.

(** The common beginning of the operations on a stored record. *)
Definition withRecord (ev : env) (id : string) (now : Z) (b : handoffInbox)
    (k : HandoffRecord → result hoErr HandoffRecord * handoffInbox) : result hoErr HandoffRecord * handoffInbox :=
  if negb (validHandoffID id) then (Err BadID, b)
  else if negb ev.(lockOk) then (Err LockFailed, b)
  else match read b.(active) id with
  | Err e => (Err e, b)
  | Ok None => (Err NotFound, b)
  | Ok (Some r) => if now <? r.(UpdatedAt) then (Err Backdated, b) else k r
  end.
(** Expiry is written down before anything else. *)
Definition withExpiry (ev : env) (id : string) (now : Z) (b : handoffInbox) (r : HandoffRecord)
    (k : result hoErr HandoffRecord * handoffInbox) (onExpiry : HandoffRecord → result hoErr HandoffRecord)
    : result hoErr HandoffRecord * handoffInbox :=
  if bool_decide (EffectiveState r now = Expired) && negb (bool_decide (r.(State) = Expired)) then
    match Transition Expired now "offer expired" r with
    | Err e => (Err e, b)
    | Ok r => let '(e, b) := writeRecord ev id r b in
              (match e with Some e => Err e | None => onExpiry r end, b)
    end
  else k.

Definition inboxTransition (ev : env) (id : string) (next : HandoffState) (now : Z) (note : string) (b : handoffInbox)
    : result hoErr HandoffRecord * handoffInbox :=
  if bool_decide (next = Dispatching) || bool_decide (next = Continued) then (Err NeedsReceipt, b)
  else if negb (validHandoffID id) then (Err BadID, b)
  else if IsZero now then (Err NoClock, b)
  else if negb (validateHandoffNote note) then (Err BadNote, b)
  else withRecord ev id now b (λ r,
    withExpiry ev id now b r
      (if bool_decide (r.(State) = Expired) && negb (bool_decide (next = Expired)) then (Err ErrExpired, b)
       else match Transition next now note r with
            | Err e => (Err e, b)
            | Ok r' => if bool_decide (r = r') then (Ok r', b) else store ev id r' b
            end)
      (λ r', if bool_decide (next = Expired) then Ok r' else Err ErrExpired)).

Definition inboxClaim (ev : env) (id agentAddr agentKey tool : string) (now : Z) (b : handoffInbox)
    : result hoErr HandoffRecord * handoffInbox :=
  let a := mkAttempt agentAddr agentKey tool now None in
  if negb (validHandoffID id) then (Err BadID, b)
  else if negb (validAttempt a) then (Err BadAttempt, b)
  else withRecord ev id now b (λ r,
    withExpiry ev id now b r
      (if negb (bool_decide (r.(State) = Accepted)) then (Err NotAccepted, b)
       else match ClaimDelivery a now r with
            | Err e => (Err e, b)
            | Ok r' => store ev id r' b
            end)
      (λ _, Err ErrExpired)).

Definition inboxAcknowledge (ev : env) (id : string) (now : Z) (b : handoffInbox) : result hoErr HandoffRecord * handoffInbox :=
  if negb (validHandoffID id) then (Err BadID, b)
  else if IsZero now then (Err NoClock, b)
  else withRecord ev id now b (λ r,
    if negb (bool_decide (r.(State) = Dispatching)) || (length r.(DeliveryAttempts) =? 0)%nat then (Err NothingClaimed, b)
    else match AcknowledgeDelivery now r with
         | Err e => (Err e, b)
         | Ok r' => store ev id r' b
         end).

Definition inboxRearm (ev : env) (id : string) (now : Z) (note : string) (b : handoffInbox) : result hoErr HandoffRecord * handoffInbox :=
  if negb (validHandoffID id) then (Err BadID, b)
  else if IsZero now then (Err NoClock, b)
  else if (trimSpace note =? "")%string then (Err BadNote, b)
  else if negb (validateHandoffNote note) then (Err BadNote, b)
  else withRecord ev id now b (λ r,
    match Rearm now note r with
    | Err e => (Err e, b)
    | Ok r' => store ev id r' b
    end).

(** The end of a round of [Archive]: the record is moved if it is terminal, or a dispatch
    whose outcome will stay unknown. [renameOk]: the move itself succeeds. *)
Definition moveRecord (renameOk unknownDispatch : bool) (id : string) (r : HandoffRecord) (b : handoffInbox)
    : option hoErr * bool * handoffInbox :=
  if match r.(State) with
     | Declined | Continued | Expired => true
     | Dispatching => unknownDispatch
     | _ => false
     end
  then match b.(archive) !! id with
       | Some _ => (Some ArchiveClash, false, b)
       | None => if renameOk then (None, true, mkInbox (delete id b.(active)) (<[id := r]> b.(archive)) b.(maxRecords))
                 else (Some WriteFailed, false, b)
       end
  else (None, false, b).
(** One round of [Archive]: the error if any, whether the record was moved, and the inbox. *)
Definition archiveOne (ev : env) (renameOk : bool) (now cutoff : Z) (id : string) (b : handoffInbox)
    : option hoErr * bool * handoffInbox :=
  match read b.(active) id with
  | Err e => (Some e, false, b)
  | Ok None => (None, false, b)
  | Ok (Some r) =>
      let unknownDispatch := bool_decide (r.(State) = Dispatching) && (expires r <=? now) in
      if unknownDispatch then
        if cutoff <? expires r then (None, false, b) else moveRecord renameOk unknownDispatch id r b
      else if bool_decide (EffectiveState r now = Expired) && negb (bool_decide (r.(State) = Expired)) then
        if cutoff <? expires r then (None, false, b)
        else match Transition Expired now "offer expired before archive" r with
             | Err e => (Some e, false, b)
             | Ok r => let '(e, b) := writeRecord ev id r b in
                       match e with Some e => (Some e, false, b) | None => moveRecord renameOk unknownDispatch id r b end
             end
      else if cutoff <? r.(UpdatedAt) then (None, false, b)
      else moveRecord renameOk unknownDispatch id r b
  end.
(** The loop over the ids, stopped by an error; each round has its own environment. *)
Fixpoint archiveLoop (evs : string → env * bool) (now cutoff : Z) (ids done : list string) (b : handoffInbox)
    : result hoErr (list string) * handoffInbox :=
  match ids with
  | id :: ids =>
      let '(e, moved, b) := archiveOne (evs id).1 (evs id).2 now cutoff id b in
      match e with
      | Some e => (Err e, b)
      | None => archiveLoop evs now cutoff ids (if moved then done ++ [id] else done) b
      end
  | [] => (Ok done, b)
  end.
(** [recordIDsUnlocked]: the ids in the directory, sorted. *)
Fixpoint insertID (x : string) (l : list string) : list string :=
  match l with
  | [] => [x]
  | y :: l => if String.ltb x y then x :: y :: l else y :: insertID x l
  end.
Definition recordIDs (b : handoffInbox) : list string := foldr insertID [] (map_to_list b.(active)).*1.
Definition Archive (ev : env) (evs : string → env * bool) (now olderThan : Z) (b : handoffInbox)
    : result hoErr (list string) * handoffInbox :=
  if IsZero now || (olderThan <? 0) then (Err NoClock, b)
  else if negb ev.(lockOk) then (Err LockFailed, b)
  else archiveLoop evs now (now - olderThan) (recordIDs b) [] b.

(** ** Records stay valid *)

(** What of [validateStored] an operation cannot change, and the rest. *)
Definition fixedPart (id : string) (r : HandoffRecord) : Prop :=
  validHandoffID r.(Offer).(Capsule).(ID) = true ∧ r.(Offer).(Capsule).(ID) = id ∧ sealedOk r = true ∧
  r.(SourceKey) ≠ "" ∧ IsZero r.(ReceivedAt) = false ∧ r.(ReceivedAt) < expires r.
Definition changingPart (r : HandoffRecord) : Prop :=
  known r.(State) = true ∧ IsZero r.(UpdatedAt) = false ∧ r.(ReceivedAt) ≤ r.(UpdatedAt) ∧
  validateHandoffNote r.(Note) = true ∧ (length r.(DeliveryAttempts) ≤ HandoffMaxDeliveryAttempts)%nat ∧
  attemptsOk r None r.(DeliveryAttempts) = true ∧ stateReceipts r = true.
Lemma validateStored_iff id r : validateStored id r = true ↔ fixedPart id r ∧ changingPart r.
Proof.
  unfold validateStored, fixedPart, changingPart.
  rewrite !andb_true_iff, !negb_true_iff, String.eqb_neq, String.eqb_eq, Z.leb_le, Z.ltb_lt, Nat.leb_le. tauto.
Qed.

Lemma note_valid note : strlen note ≤ maxHandoffNote → hasControl note = false → validateHandoffNote note = true.
Proof.
  intros Hl Hc. unfold validateHandoffNote. rewrite (proj2 (Z.leb_le _ _)) by done. simpl. apply negb_true_iff.
  unfold hasControl in Hc. rewrite <-not_true_iff_false, existsb_exists in *. intros (r & Hr & Hb). apply Hc.
  exists r. split; [done|]. apply orb_true_iff in Hb as [Hb|Hb]; [by rewrite Hb|].
  apply Z.eqb_eq in Hb as ->. done.
Qed.

(** An attempt without acknowledgement. *)
Definition pending (a : Attempt) : Prop := AcknowledgedAt a = None.
Definition lastClaim (prev : option Z) (l : list Attempt) : option Z :=
  match list.last l with Some a => Some (ClaimedAt a) | None => prev end.
Lemma lastClaim_cons prev a l : lastClaim prev (a :: l) = lastClaim (Some (ClaimedAt a)) l.
Proof. unfold lastClaim. destruct l as [|b l]; [done|]. simpl. by destruct (list.last (b :: l)) eqn:Hl; [|apply last_None in Hl]. Qed.
Lemma attemptOk_pending r prev b b' a : pending a → attemptOk r prev b a = attemptOk r prev b' a.
Proof. unfold pending, attemptOk. intros ->. reflexivity. Qed.
Lemma attemptsOk_app r prev l1 l2 : Forall pending l1 →
  attemptsOk r prev (l1 ++ l2) = attemptsOk r prev l1 && attemptsOk r (lastClaim prev l1) l2.
Proof.
  intros Hp. induction Hp as [|a l1 Ha _ IH] in prev |- *; [reflexivity|]. cbn [attemptsOk app].
  rewrite IH, lastClaim_cons, andb_assoc. f_equal. f_equal. by apply attemptOk_pending.
Qed.
Lemma attemptOk_iff r prev b a : attemptOk r prev b a = true ↔
  validAttempt a = true ∧ ReceivedAt r ≤ ClaimedAt a ≤ UpdatedAt r ∧ ClaimedAt a < expires r ∧
  (∀ p, prev = Some p → p ≤ ClaimedAt a) ∧
  (∀ t, AcknowledgedAt a = Some t → b = true ∧ State r = Continued ∧ t = UpdatedAt r ∧ t < expires r).
Proof.
  unfold attemptOk. rewrite !andb_true_iff, !negb_true_iff, !orb_false_iff, !Z.ltb_ge, Z.leb_gt.
  assert (match prev with Some p => ClaimedAt a <? p | None => false end = false ↔ ∀ p, prev = Some p → p ≤ ClaimedAt a) as ->.
  { destruct prev as [p|]; [rewrite Z.ltb_ge|]; naive_solver. }
  assert (match AcknowledgedAt a with
    | Some t => b && bool_decide (State r = Continued) && (t =? UpdatedAt r) && (t <? expires r) | None => true end = true ↔
    ∀ t, AcknowledgedAt a = Some t → b = true ∧ State r = Continued ∧ t = UpdatedAt r ∧ t < expires r) as ->.
  { destruct (AcknowledgedAt a) as [t|]; [|naive_solver].
    rewrite !andb_true_iff, bool_decide_eq_true, Z.eqb_eq, Z.ltb_lt. naive_solver. }
  tauto.
Qed.
Lemma attemptsOk_pending r prev l : State r ≠ Continued → attemptsOk r prev l = true → Forall pending l.
Proof.
  intros Hs. induction l as [|a l IH] in prev |- *; cbn [attemptsOk]; [constructor|]. rewrite andb_true_iff, attemptOk_iff.
  intros [(_ & _ & _ & _ & Hack) Hl]. constructor; [|by eapply IH]. unfold pending.
  destruct (AcknowledgedAt a) as [t|]; [|done]. by destruct (Hack t eq_refl) as (_ & ? & _).
Qed.
(** A later update keeps a history of pending attempts in order. *)
Lemma attemptsOk_later r r' prev l : Forall pending l → ReceivedAt r' = ReceivedAt r → expires r' = expires r →
  UpdatedAt r ≤ UpdatedAt r' → attemptsOk r prev l = true → attemptsOk r' prev l = true.
Proof.
  intros Hp Hr Hx Hu. induction Hp as [|a l Ha _ IH] in prev |- *; [done|]. cbn [attemptsOk].
  rewrite !andb_true_iff, !attemptOk_iff, Hr, Hx. intros [(Hv & Hc & He & Hpr & _) Hl]. split; [|by apply IH].
  split_and!; try done; [lia..|]. intros t Ht. by rewrite Ha in Ht.
Qed.
Lemma attemptsOk_claims r prev l a : attemptsOk r prev l = true → a ∈ l → ClaimedAt a ≤ UpdatedAt r.
Proof.
  induction l as [|b l IH] in prev |- *; cbn [attemptsOk]; [by intros _ ?%elem_of_nil|].
  rewrite andb_true_iff, attemptOk_iff. intros [(_ & Hc & _) Hl] [-> |Ha]%elem_of_cons; [lia|by eapply IH].
Qed.
Lemma lastClaim_spec l p : lastClaim None l = Some p → ∃ a, a ∈ l ∧ ClaimedAt a = p.
Proof.
  unfold lastClaim. destruct (list.last l) as [a|] eqn:Hl; [|done]. intros [= <-]. exists a. split; [|done].
  apply last_Some in Hl as [l' ->]. rewrite elem_of_app, list_elem_of_singleton. auto.
Qed.
Definition receipts (st : HandoffState) (l : list Attempt) : Prop :=
  match st with
  | Offered | Declined => l = []
  | Accepted | Expired => ∀ t, lastAcked l ≠ Some (Some t)
  | Dispatching => lastAcked l = Some None
  | Continued => ∃ t, lastAcked l = Some (Some t)
  | UnknownName _ => True
  end.
Lemma stateReceipts_iff r : stateReceipts r = true ↔ receipts (State r) (DeliveryAttempts r).
Proof.
  unfold stateReceipts. destruct (State r); simpl; rewrite ?andb_true_r;
    match goal with
    | |- context [lastAcked ?l] => destruct (lastAcked l) as [[t|]|]; simpl
    | _ => destruct (DeliveryAttempts r); simpl
    end;
    split; intros Hx; try done; first [by destruct (Hx _ eq_refl)|by destruct Hx|by eauto].
Qed.
Lemma lastAcked_snoc l a : lastAcked (l ++ [a]) = Some (AcknowledgedAt a).
Proof. unfold lastAcked. by rewrite last_snoc. Qed.
Lemma receipts_pending st l : st = Accepted ∨ st = Expired → Forall pending l → receipts st l.
Proof.
  intros Hst Hp. assert (∀ t, lastAcked l ≠ Some (Some t)).
  { intros t Hl. unfold lastAcked in Hl. destruct (list.last l) as [a|] eqn:Ha; [|done]. apply last_Some in Ha as [l' ->].
    apply Forall_app in Hp as [_ Hp]. apply Forall_inv in Hp. unfold pending in Hp. injection Hl as Hl. congruence. }
  by destruct Hst as [-> | ->].
Qed.

(** Moving to a state, with the history kept and no acknowledgement in it. *)
Lemma setState_valid st now note r :
  changingPart r → State r ≠ Continued → UpdatedAt r ≤ now → IsZero now = false → known st = true →
  strlen note ≤ maxHandoffNote → hasControl note = false → receipts st (DeliveryAttempts r) → changingPart (setState st now note r).
Proof.
  intros (_ & _ & Hru & _ & Hlen & Hat & _) Hs Hn Hz Hk Hl Hc Hrec. unfold changingPart. simpl. split_and!; try done; [lia|by apply note_valid| |].
  - eapply attemptsOk_later, Hat; [by eapply attemptsOk_pending|done|done|done].
  - by apply stateReceipts_iff.
Qed.
Lemma pending_of r : changingPart r → State r ≠ Continued → Forall pending (DeliveryAttempts r).
Proof. intros (_ & _ & _ & _ & _ & Hat & _) Hs. by eapply attemptsOk_pending. Qed.

Lemma Transition_valid next now note r r' :
  changingPart r → UpdatedAt r ≤ now → Transition next now note r = Ok r' → changingPart r'.
Proof.
  intros Hv Hn Ht. unfold Transition in Ht. inv_ok. apply orb_false_iff in H2 as [Hd Hco]. breflect.
  apply transition_cases in H3 as (Hz & Hl & Hc & Hk & [[-> _]|[(-> & -> & Hs & _)|(-> & Ha & _)]]); [done| |].
  - assert (State r ≠ Continued) as Hns by (by destruct Hs as [-> | ->]).
    apply setState_valid; try done. apply receipts_pending; [by right|by apply pending_of].
  - assert (State r ≠ Continued) as Hns by (intros He; by rewrite He in Ha).
    apply setState_valid; try done. pose proof (pending_of _ Hv Hns) as Hp.
    destruct Hv as (_ & _ & _ & _ & _ & _ & Hrec%stateReceipts_iff).
    destruct (State r), next; simpl in *; try done; try (by rewrite Hrec); by apply (receipts_pending Expired); [right|].
Qed.
Lemma Claim_valid a now r r' :
  changingPart r → UpdatedAt r ≤ now → ReceivedAt r ≤ now → AcknowledgedAt a = None → ClaimDelivery a now r = Ok r' → changingPart r'.
Proof.
  intros Hv Hn Hrn Hack (Hva & Hca & Hlen & Hs & Hx & Hz & ->)%ClaimDelivery_ok.
  assert (State r ≠ Continued) as Hns by congruence. pose proof (pending_of _ Hv Hns) as Hp.
  destruct Hv as (_ & _ & _ & _ & _ & Hat & _). unfold changingPart. simpl. split_and!; try done.
  - rewrite length_app. simpl. lia.
  - rewrite attemptsOk_app by done. apply andb_true_iff. split; [by eapply attemptsOk_later, Hat|].
    cbn [attemptsOk]. rewrite andb_true_r, attemptOk_iff. simpl. unfold expires in *. simpl.
    split_and!; [done|lia|lia|lia| |].
    + intros p (b & Hb & <-)%lastClaim_spec. pose proof (attemptsOk_claims _ _ _ _ Hat Hb). lia.
    + intros t Ht. by rewrite Hack in Ht.
  - apply stateReceipts_iff. simpl. by rewrite lastAcked_snoc, Hack.
Qed.
Lemma Ack_valid now r r' :
  changingPart r → UpdatedAt r ≤ now → AcknowledgeDelivery now r = Ok r' → changingPart r'.
Proof.
  intros Hv Hn (Hs & Hx & Hz & l & a & Hl & Hack & ->)%AcknowledgeDelivery_ok.
  assert (State r ≠ Continued) as Hns by congruence. pose proof (pending_of _ Hv Hns) as Hp.
  destruct Hv as (_ & _ & Hru & _ & Hlen & Hat & _). rewrite Hl in Hp, Hat, Hlen. apply Forall_app in Hp as [Hp _].
  rewrite attemptsOk_app in Hat by done. apply andb_true_iff in Hat as [Hat Ha]. cbn [attemptsOk] in Ha.
  rewrite andb_true_r, attemptOk_iff in Ha. destruct Ha as (Hva & Hca & Hcx & Hpr & _).
  unfold changingPart. simpl. split_and!; try done.
  - lia.
  - rewrite length_app in *. simpl in *. lia.
  - rewrite attemptsOk_app by done. apply andb_true_iff. split; [by eapply attemptsOk_later, Hat|].
    cbn [attemptsOk]. rewrite andb_true_r, attemptOk_iff. simpl. unfold expires in *. simpl.
    split_and!; [|lia|lia|lia|done|].
    + apply ackAttempt_valid; [done|done|lia].
    + intros t [= <-]. done.
  - apply stateReceipts_iff. simpl. rewrite lastAcked_snoc. simpl. eauto.
Qed.
Lemma Rearm_valid now note r r' :
  changingPart r → UpdatedAt r ≤ now → Rearm now note r = Ok r' → changingPart r'.
Proof.
  intros Hv Hn (Hs & Hx & Hz & Hl & Hc & _ & ->)%Rearm_ok. assert (State r ≠ Continued) as Hns by congruence.
  apply setState_valid; try done. apply receipts_pending; [by left|by apply pending_of].
Qed.

(** ** The inbox keeps its records in order *)

Record wf (b : handoffInbox) : Prop := {
  wf_active id r : b.(active) !! id = Some r → validateStored id r = true;
  wf_archive id r : b.(archive) !! id = Some r → validateStored id r = true;
  wf_disjoint id : is_Some (b.(active) !! id) → b.(archive) !! id = None;
  wf_quota : (size b.(active) ≤ b.(maxRecords))%nat
}.
(** What an operation on the record [id] can do: nothing, or replace it by a valid one. *)
Definition touches (id : string) (b b' : handoffInbox) : Prop :=
  b' = b ∨ ∃ r, validateStored id r = true ∧ b' = setActive (<[id := r]> b.(active)) b.

Lemma writeRecord_touches ev id r b : touches id b (writeRecord ev id r b).2.
Proof.
  unfold writeRecord. destruct (validateStored id r) eqn:Hv; [|by left]. simpl.
  destruct (marshalRecord r) as [data|]; [|by left]. destruct (_ <? strlen data); [by left|].
  destruct (onWrite ev); [right|by left|right]; by exists r.
Qed.
Lemma store_touches ev id r b : touches id b (store ev id r b).2.
Proof. unfold store. pose proof (writeRecord_touches ev id r b) as Ht. by destruct (writeRecord ev id r b). Qed.
Lemma touches_refl id b : touches id b b.
Proof. by left. Qed.
Lemma read_active id b r : read b.(active) id = Ok (Some r) → b.(active) !! id = Some r ∧ validateStored id r = true.
Proof. unfold read. destruct (active b !! id) as [r0|] eqn:Hr; [|done]. destruct (validateStored id r0) eqn:Hv; intros [= <-]. done. Qed.
Lemma withRecord_touches ev id now b k :
  (∀ r, b.(active) !! id = Some r → touches id b (k r).2) → touches id b (withRecord ev id now b k).2 ∧
  (is_Some (b.(active) !! id) ∨ (withRecord ev id now b k).2 = b).
Proof.
  intros Hk. unfold withRecord. repeat (case_match; simpl; try (split; [apply touches_refl|by right])).
  apply read_active in H4 as [Hr _]. split; [by apply Hk|left; by eexists].
Qed.
Lemma withExpiry_touches ev id now b r k onx : touches id b k.2 → touches id b (withExpiry ev id now b r k onx).2.
Proof.
  intros Hk. unfold withExpiry. destruct (_ && _); [|done]. destruct (Transition _ _ _ _) as [r'|e]; [|apply touches_refl].
  pose proof (writeRecord_touches ev id r' b) as Ht. by destruct (writeRecord ev id r' b).
Qed.

(** The operations on a stored record. *)
Inductive recordOp :=
| OpTransition (next : HandoffState) (note : string) | OpClaim (agentAddr agentKey tool : string) | OpAck | OpRearm (note : string).
Definition runOp (o : recordOp) (ev : env) (id : string) (now : Z) (b : handoffInbox) : result hoErr HandoffRecord * handoffInbox :=
  match o with
  | OpTransition next note => inboxTransition ev id next now note b
  | OpClaim addr key tool => inboxClaim ev id addr key tool now b
  | OpAck => inboxAcknowledge ev id now b
  | OpRearm note => inboxRearm ev id now note b
  end.
Lemma runOp_touches o ev id now b :
  touches id b (runOp o ev id now b).2 ∧ (is_Some (b.(active) !! id) ∨ (runOp o ev id now b).2 = b).
Proof.
  destruct o as [next note|addr key tool| |note]; simpl;
    [unfold inboxTransition|unfold inboxClaim|unfold inboxAcknowledge|unfold inboxRearm];
    repeat (match goal with |- context [if ?c then (Err ?e, b) else withRecord _ _ _ _ _] => destruct c end;
            [split; [apply touches_refl|by right]|]);
    repeat (match goal with |- context [if ?c then (Err ?e, b) else _] => destruct c; [split; [apply touches_refl|by right]|] end);
    apply withRecord_touches; intros r Hr.
  - apply withExpiry_touches. repeat (case_goal; cbn [snd]; try apply touches_refl). apply store_touches.
  - apply withExpiry_touches. destruct (negb _); cbn [snd]; [apply touches_refl|].
    destruct (ClaimDelivery _ _ _); cbn [snd]; [apply store_touches|apply touches_refl].
  - destruct (_ || _); cbn [snd]; [apply touches_refl|].
    destruct (AcknowledgeDelivery _ _); cbn [snd]; [apply store_touches|apply touches_refl].
  - destruct (Rearm _ _ _); cbn [snd]; [apply store_touches|apply touches_refl].
Qed.
Lemma touches_wf id b b' : wf b → touches id b b' → is_Some (b.(active) !! id) ∨ b' = b → wf b'.
Proof.
  intros Hwf [-> |(r & Hv & ->)] Hid; [done|]. destruct Hid as [[r0 Hr0]|Heq]; [|by rewrite Heq].
  destruct Hwf as [Ha Hr Hd Hq]. constructor; simpl; [|done| |].
  - intros id' r'. destruct (decide (id' = id)) as [-> |Hne]; [rewrite lookup_insert_eq; by intros [= <-]|rewrite lookup_insert_ne by done; apply Ha].
  - intros id'. destruct (decide (id' = id)) as [-> |Hne]; [intros _; apply Hd; by eexists|rewrite lookup_insert_ne by done; apply Hd].
  - by rewrite map_size_insert_Some by (by eexists).
Qed.

(** An offer is admitted where its id is free in the inbox and in the archive. *)
Lemma Put_cases ev o meta key now b res b' : Put ev o meta key now b = (res, b') →
  (b' = b ∧ (∀ r, res ≠ Ok (r, true)) ∧
     ∀ r, res = Ok (r, false) → SourceKey r = PeerKey meta ∧ ContentHash (Offer r) = ContentHash o) ∨
  let id := ID (Capsule o) in let r := mkRecord o (PeerFQDN meta) (PeerKey meta) (PeerAddr meta) now Offered now "" [] in
  b.(active) !! id = None ∧ b.(archive) !! id = None ∧ (size b.(active) < b.(maxRecords))%nat ∧
  validHandoffID id = true ∧ PeerKey meta ≠ "" ∧ ValidateOffer o now key = Ok tt ∧
  b' = (writeRecord ev id r b).2 ∧ res = match (writeRecord ev id r b).1 with None => Ok (r, true) | Some e => Err e end.
Proof.
  assert (Htaken : ∀ old, ∀ r, taken old (PeerKey meta) (ContentHash o) ≠ Ok (r, true)) by (intros; unfold taken; by repeat case_match).
  assert (Htaken' : ∀ old r, taken old (PeerKey meta) (ContentHash o) = Ok (r, false) →
    SourceKey r = PeerKey meta ∧ ContentHash (Offer r) = ContentHash o).
  { intros old r. unfold taken. repeat (case_match; try done); intros [= <-]. breflect. done. }
  assert (Hnone : ∀ m i, read m i = Ok None → m !! i = None) by (intros m i; unfold read; repeat case_match; done).
  unfold Put. destruct (PeerKey meta =? "")%string eqn:Hpk; [intros [= <- <-]; left; split_and!; done|].
  destruct (ValidateOffer o now key) as [[]|e]; [|intros [= <- <-]; left; split_and!; done].
  destruct (validHandoffID (ID (Capsule o))) eqn:Hid; cbn [negb]; [|intros [= <- <-]; left; split_and!; done].
  destruct (lockOk ev); cbn [negb]; [|intros [= <- <-]; left; split_and!; done].
  destruct (read (active b) (ID (Capsule o))) as [[old|]|e] eqn:Ha; [intros [= <- <-]; left; split; [done|split; [apply Htaken|apply Htaken']]| |intros [= <- <-]; left; split_and!; done].
  destruct (read (archive b) (ID (Capsule o))) as [[old|]|e] eqn:Hr; [intros [= <- <-]; left; split; [done|split; [apply Htaken|apply Htaken']]| |intros [= <- <-]; left; split_and!; done].
  destruct (maxRecords b <=? size (active b))%nat eqn:Hq; [intros [= <- <-]; left; split_and!; done|].
  destruct (writeRecord ev _ _ b) as [e b2] eqn:Hw. intros [= <- <-]. right. breflect. split_and!; auto.
Qed.

Lemma Put_wf ev o meta key now b : wf b → wf (Put ev o meta key now b).2.
Proof.
  intros Hwf. destruct (Put ev o meta key now b) as [res b'] eqn:Hp. apply Put_cases in Hp as [(-> & _)|(Ha & Hr & Hq & _ & _ & _ & -> & _)]; [done|].
  simpl. set (id := ID (Capsule o)) in *. set (r := mkRecord _ _ _ _ _ _ _ _ _).
  destruct (writeRecord_touches ev id r b) as [-> |(r' & Hv & ->)]; [done|]. destruct Hwf as [Wa Wr Wd Wq]. constructor; simpl; [|done| |].
  - intros id' r0. destruct (decide (id' = id)) as [-> |Hne]; [rewrite lookup_insert_eq; by intros [= <-]|rewrite lookup_insert_ne by done; apply Wa].
  - intros id'. destruct (decide (id' = id)) as [-> |Hne]; [done|rewrite lookup_insert_ne by done; apply Wd].
  - rewrite map_size_insert_None by done. lia.
Qed.

(** Archiving moves a record, or replaces it by its expiry, or does nothing. *)
Definition archives (id : string) (b b' : handoffInbox) : Prop :=
  touches id b b' ∧ (is_Some (b.(active) !! id) ∨ b' = b) ∨
  ∃ b1 r, touches id b b1 ∧ is_Some (b.(active) !! id) ∧ b1.(active) !! id = Some r ∧ b1.(archive) !! id = None ∧
    b' = mkInbox (delete id b1.(active)) (<[id := r]> b1.(archive)) b1.(maxRecords).
Lemma archives_refl id b : archives id b b.
Proof. left. split; [apply touches_refl|by right]. Qed.
Lemma moveRecord_archives rn u id r b b1 :
  touches id b b1 → is_Some (b.(active) !! id) → b1.(active) !! id = Some r → archives id b (moveRecord rn u id r b1).2.
Proof.
  intros Ht Hs Hr. unfold moveRecord. set (c := match State r with Dispatching => u | _ => _ end). destruct c; [|left; auto].
  destruct (archive b1 !! id) eqn:Har; [left; auto|]. destruct rn; [right; by exists b1, r|left; auto].
Qed.
Lemma archiveOne_archives ev rn now cutoff id b : archives id b (archiveOne ev rn now cutoff id b).2.
Proof.
  unfold archiveOne. destruct (read (active b) id) as [[r|]|e] eqn:Hr; [|apply archives_refl..].
  apply read_active in Hr as [Hr Hv]. assert (Hs : is_Some (active b !! id)) by (by eexists). cbv zeta.
  set (u := bool_decide (State r = Dispatching) && (expires r <=? now)).
  set (x := bool_decide (EffectiveState r now = Expired) && _).
  assert (Hmv : archives id b (moveRecord rn u id r b).2) by (apply moveRecord_archives; [apply touches_refl|done..]).
  destruct u; [by destruct (cutoff <? expires r); [apply archives_refl|]|].
  destruct x; [|by destruct (cutoff <? UpdatedAt r); [apply archives_refl|]].
  destruct (cutoff <? expires r); [apply archives_refl|].
  destruct (Transition Expired now _ r) as [r'|e]; [|apply archives_refl].
  pose proof (writeRecord_touches ev id r' b) as Ht.
  destruct (writeRecord ev id r' b) as [[e|] b1] eqn:Hw; [left; auto|]. apply moveRecord_archives; [done|done|].
  unfold writeRecord in Hw. repeat (case_in Hw; try done). injection Hw as <-. simpl. apply lookup_insert_eq.
Qed.
Lemma archiveOne_wf ev rn now cutoff id b : wf b → wf (archiveOne ev rn now cutoff id b).2.
Proof.
  intros Hwf. destruct (archiveOne_archives ev rn now cutoff id b) as [[Ht Hs]|(b1 & r & Ht & Hs & Hr & Har & ->)]; [by eapply touches_wf|].
  assert (wf b1) as [Wa Wr Wd Wq] by (eapply touches_wf; [exact Hwf|exact Ht|by left]). constructor; simpl.
  - intros id' r'. rewrite lookup_delete_Some. intros [_ ?]. by apply Wa.
  - intros id' r'. destruct (decide (id' = id)) as [-> |Hne]; [rewrite lookup_insert_eq; intros [= <-]; by apply Wa|rewrite lookup_insert_ne by done; apply Wr].
  - intros id' [r' Hr']. apply lookup_delete_Some in Hr' as [Hne Hr']. rewrite lookup_insert_ne by done. apply Wd. by eexists.
  - rewrite map_size_delete_Some by (by eexists). lia.
Qed.
Lemma archiveLoop_inv (P : handoffInbox → Prop) evs now cutoff ids done b :
  (∀ ev rn id b, P b → P (archiveOne ev rn now cutoff id b).2) → P b → P (archiveLoop evs now cutoff ids done b).2.
Proof.
  intros Hstep. induction ids as [|id ids IH] in done, b |- *; [done|]. intros Hb. cbn [archiveLoop].
  specialize (Hstep (evs id).1 (evs id).2 id b Hb). destruct (archiveOne _ _ _ _ id b) as [[[e|] moved] b']; [done|by apply IH].
Qed.

(** ** Runs of the inbox *)

Inductive step : handoffInbox → handoffInbox → Prop :=
| step_put b ev o meta key now : step b (Put ev o meta key now b).2
| step_op b o ev id now : step b (runOp o ev id now b).2
| step_archive b ev evs now olderThan : step b (Archive ev evs now olderThan b).2.

Lemma Archive_inv (P : handoffInbox → Prop) ev evs now older b :
  (∀ ev rn c id b, P b → P (archiveOne ev rn now c id b).2) → P b → P (Archive ev evs now older b).2.
Proof. intros Hs Hb. unfold Archive. repeat (case_goal; [done|]). apply archiveLoop_inv; auto. Qed.
Lemma step_wf b b' : step b b' → wf b → wf b'.
Proof.
  intros [? ev o meta key now|? o ev id now|? ev evs now older] Hwf.
  - by apply Put_wf.
  - destruct (runOp_touches o ev id now b0). by eapply touches_wf.
  - apply Archive_inv; [|done]. intros. by apply archiveOne_wf.
Qed.
Lemma wf_empty n : wf (mkInbox ∅ ∅ n).
Proof. constructor; simpl; [done|done|done|]. rewrite map_size_empty. lia. Qed.

(** Through any sequence of offers, consents, deliveries, re-arms and archivings, with
    any failing writes, every record in the inbox and in the archive passes the checks the
    store makes on reading it, no id is in both, and the quota is kept. *)
Theorem inbox_stays_well_formed n b : star step (mkInbox ∅ ∅ n) b → wf b.
Proof. intros Hs. eapply (star_invariant step wf step_wf), wf_empty. exact Hs. Qed.

Definition used (id : string) (b : handoffInbox) : Prop := is_Some (b.(active) !! id) ∨ is_Some (b.(archive) !! id).
Lemma touches_used i id b b' : touches i b b' → used id b → used id b'.
Proof.
  intros [-> |(r & _ & ->)] Hu; [done|]. destruct (decide (id = i)) as [-> |Hne].
  - left. simpl. rewrite lookup_insert_eq. by eexists.
  - unfold used. simpl. by rewrite lookup_insert_ne.
Qed.
Lemma archives_used i id b b' : archives i b b' → used id b → used id b'.
Proof.
  intros [[Ht _]|(b1 & r & Ht & _ & Hr & _ & ->)] Hu; [by eapply touches_used|]. apply (touches_used _ _ _ _ Ht) in Hu. unfold used in *. simpl.
  destruct (decide (id = i)) as [-> |Hne]; [right; rewrite lookup_insert_eq; by eexists|].
  rewrite lookup_delete_ne, lookup_insert_ne by done. done.
Qed.
Lemma step_used id b b' : step b b' → used id b → used id b'.
Proof.
  intros [? ev o meta key now|? o ev i now|? ev evs now older] Hu.
  - destruct (Put ev o meta key now b0) as [res bp] eqn:Hp. apply Put_cases in Hp as [(-> & _)|(_ & _ & _ & _ & _ & _ & -> & _)]; [done|].
    eapply touches_used; [apply writeRecord_touches|done].
  - destruct (runOp_touches o ev i now b0) as [Ht _]. by eapply touches_used.
  - apply Archive_inv; [|done]. intros. eapply archives_used; [apply archiveOne_archives|done].
Qed.

(** The same work never appears new twice: once an offer has been stored under an id,
    no later offer under that id is stored again, also after the record was archived; a
    repeated offer is answered with the stored record, and only to the same verified source
    for the same content hash. *)
Theorem offer_ids_are_used_once ev o meta key now b r b1 b2 ev' o' meta' key' now' res b3 :
  Put ev o meta key now b = (Ok (r, true), b1) → star step b1 b2 →
  Put ev' o' meta' key' now' b2 = (res, b3) → ID (Capsule o') = ID (Capsule o) →
  b3 = b2 ∧ (∀ r', res ≠ Ok (r', true)) ∧
  ∀ r', res = Ok (r', false) → SourceKey r' = PeerKey meta' ∧ ContentHash (Offer r') = ContentHash o'.
Proof.
  intros Hp1 Hs Hp2 Hid. assert (used (ID (Capsule o)) b1) as Hu.
  { apply Put_cases in Hp1 as [(_ & Hn & _)|(_ & _ & _ & _ & _ & _ & -> & Hres)]; [by destruct (Hn r)|].
    unfold writeRecord in *. repeat (case_match; try done); left; simpl; rewrite lookup_insert_eq; by eexists. }
  assert (used (ID (Capsule o)) b2) as Hu2.
  { revert Hu. apply (star_invariant step (used _) (λ a b, step_used _ a b) _ _ Hs). }
  apply Put_cases in Hp2 as [(-> & Hn & Hsame)|(Ha & Hr & _)]; [done|]. rewrite Hid in Ha, Hr.
  destruct Hu2 as [[? Hx]|[? Hx]]; congruence.
Qed.

(** ** The store never makes a record it would not read *)

Lemma writeRecord_no_corrupt ev id r b : validateStored id r = true → (writeRecord ev id r b).1 ≠ Some Corrupt.
Proof. intros Hv. unfold writeRecord. rewrite Hv. cbn [negb]. by repeat case_goal. Qed.
Lemma store_no_corrupt ev id r b : validateStored id r = true → (store ev id r b).1 ≠ Err Corrupt.
Proof.
  intros Hv. pose proof (writeRecord_no_corrupt ev id r b Hv) as Hn. unfold store.
  destruct (writeRecord ev id r b) as [[e|] b']; simpl in *; [congruence|done].
Qed.
(** The record machine has errors of its own only. *)
Lemma guard_bind_err {A} c e (k : unit → result hoErr A) x :
  rbind (guard_err c e) k = Err x → x = e ∨ k tt = Err x.
Proof. destruct c; simpl; [intros [= <-]; by left|by right]. Qed.
Lemma option_bind_err {A B} (o : option A) e (k : A → result hoErr B) x :
  rbind (of_option e o) k = Err x → x = e ∨ ∃ a, k a = Err x.
Proof. destruct o; simpl; [eauto|intros [= <-]; by left]. Qed.
Ltac own_errors Hx :=
  repeat match type of Hx with
  | rbind (guard_err _ _) _ = _ => apply guard_bind_err in Hx as [Hx|Hx]; [discriminate Hx|]
  | rbind (of_option _ _) _ = _ => apply option_bind_err in Hx as [Hx|[? Hx]]; [discriminate Hx|]
  end.
Lemma transition_no_corrupt next now note r : transition next now note r ≠ Err Corrupt.
Proof.
  intros Hx. unfold transition in Hx. own_errors Hx. cbv zeta in Hx. case_in Hx; [done|]. by own_errors Hx.
Qed.
Lemma Transition_no_corrupt next now note r : Transition next now note r ≠ Err Corrupt.
Proof. intros Hx. unfold Transition in Hx. own_errors Hx. by apply transition_no_corrupt in Hx. Qed.
Lemma Claim_no_corrupt a now r : ClaimDelivery a now r ≠ Err Corrupt.
Proof.
  intros Hx. unfold ClaimDelivery in Hx. own_errors Hx.
  destruct (transition Dispatching now _ r) as [r'|e] eqn:Ht; simpl in Hx; [done|]. injection Hx as ->. by apply transition_no_corrupt in Ht.
Qed.
Lemma Ack_no_corrupt now r : AcknowledgeDelivery now r ≠ Err Corrupt.
Proof.
  intros Hx. unfold AcknowledgeDelivery in Hx. own_errors Hx.
  destruct (transition Continued now _ r) as [r'|e] eqn:Ht; simpl in Hx; [done|]. injection Hx as ->. by apply transition_no_corrupt in Ht.
Qed.
Lemma Rearm_no_corrupt now note r : Rearm now note r ≠ Err Corrupt.
Proof. intros Hx. unfold Rearm in Hx. own_errors Hx. done. Qed.

Lemma withRecord_no_corrupt ev id now b k :
  wf b → (∀ r, validateStored id r = true → UpdatedAt r ≤ now → (k r).1 ≠ Err Corrupt) → (withRecord ev id now b k).1 ≠ Err Corrupt.
Proof.
  intros Hwf Hk. unfold withRecord. do 2 (case_goal; [done|]). unfold read. destruct (active b !! id) as [r|] eqn:Hr; [|done].
  rewrite (wf_active _ Hwf _ _ Hr). destruct (now <? UpdatedAt r) eqn:Hu; [done|]. breflect. apply Hk; [|done]. by eapply wf_active.
Qed.
(** A successful step of the record machine can be written. *)
Lemma stored_after id r r' ev b :
  validateStored id r = true → fixedPart id r' → changingPart r' → (store ev id r' b).1 ≠ Err Corrupt.
Proof. intros _ Hf Hc. apply store_no_corrupt, validateStored_iff. done. Qed.
Lemma Transition_fixed next now note r r' id : fixedPart id r → Transition next now note r = Ok r' → fixedPart id r'.
Proof.
  intros Hf Ht. unfold Transition in Ht. inv_ok. apply transition_cases in H3 as (_ & _ & _ & _ & [[-> _]|[(-> & _)|(-> & _)]]); exact Hf.
Qed.
Lemma withExpiry_no_corrupt ev id now b r k onx :
  validateStored id r = true → UpdatedAt r ≤ now → k.1 ≠ Err Corrupt → (∀ r', onx r' ≠ Err Corrupt) →
  (withExpiry ev id now b r k onx).1 ≠ Err Corrupt.
Proof.
  intros Hv Hu Hk Hx. apply validateStored_iff in Hv as [Hf Hc]. unfold withExpiry. destruct (_ && _); [|done].
  destruct (Transition Expired now "offer expired" r) as [r'|e] eqn:Ht; [|intros [= ->]; by apply Transition_no_corrupt in Ht].
  pose proof (writeRecord_no_corrupt ev id r' b (proj2 (validateStored_iff _ _) (conj (Transition_fixed _ _ _ _ _ _ Hf Ht) (Transition_valid _ _ _ _ _ Hc Hu Ht)))) as Hn.
  destruct (writeRecord ev id r' b) as [[e|] b']; simpl in *; [congruence|apply Hx].
Qed.

(** The store never wedges on its own records: on a well-formed inbox no operation finds
    or makes a record that fails the checks on stored records. *)
Theorem operations_keep_records_readable b o ev id now :
  wf b → (runOp o ev id now b).1 ≠ Err Corrupt.
Proof.
  intros Hwf. destruct o as [next note|addr key tool| |note]; cbn [runOp];
    [unfold inboxTransition|unfold inboxClaim|unfold inboxAcknowledge|unfold inboxRearm];
    repeat (match goal with |- context [if ?c then (Err ?e, b) else _] => destruct c; [done|] end);
    apply withRecord_no_corrupt; try done; intros r Hv Hu.
  - apply withExpiry_no_corrupt; [done|done| |intros r'; by case_goal]. destruct (_ && _); [done|].
    destruct (Transition next now note r) as [r'|e] eqn:Ht; [|intros [= ->]; by apply Transition_no_corrupt in Ht].
    destruct (bool_decide (r = r')); [done|]. apply validateStored_iff in Hv as [Hf Hc].
    apply store_no_corrupt, validateStored_iff. split; [by eapply Transition_fixed|by eapply Transition_valid].
  - apply withExpiry_no_corrupt; [done|done| |done]. destruct (negb _); [done|].
    destruct (ClaimDelivery _ now r) as [r'|e] eqn:Ht; [|intros [= ->]; by apply Claim_no_corrupt in Ht].
    apply validateStored_iff in Hv as [Hf Hc]. apply store_no_corrupt, validateStored_iff. split.
    + apply ClaimDelivery_ok in Ht as (_ & _ & _ & _ & _ & _ & ->). exact Hf.
    + assert (ReceivedAt r ≤ now) as Hrn by (destruct Hc as (_ & _ & Hru & _); lia).
      exact (Claim_valid (mkAttempt addr key tool now None) now r r' Hc Hu Hrn eq_refl Ht).
  - destruct (_ || _); [done|].
    destruct (AcknowledgeDelivery now r) as [r'|e] eqn:Ht; [|intros [= ->]; by apply Ack_no_corrupt in Ht].
    apply validateStored_iff in Hv as [Hf Hc]. apply store_no_corrupt, validateStored_iff. split.
    + apply AcknowledgeDelivery_ok in Ht as (_ & _ & _ & l & a & _ & _ & ->). exact Hf.
    + by eapply Ack_valid.
  - destruct (Rearm now note r) as [r'|e] eqn:Ht; [|intros [= ->]; by apply Rearm_no_corrupt in Ht].
    apply validateStored_iff in Hv as [Hf Hc]. apply store_no_corrupt, validateStored_iff. split.
    + apply Rearm_ok in Ht as (_ & _ & _ & _ & _ & _ & ->). exact Hf.
    + by eapply Rearm_valid.
Qed.

(** ** Offers that are stored *)

Lemma defaults_id c : shapeOk c = true → defaults c = c.
Proof.
  unfold shapeOk. rewrite !andb_true_iff. intros Hs.
  assert (Version c =? HandoffVersion = true) as Hv by tauto. assert (existsb (String.eqb (Sensitivity c)) sensitivities = true) as He by tauto.
  clear Hs. apply Z.eqb_eq in Hv. destruct c. unfold defaults. simpl in *. subst. simpl.
  rewrite (proj2 (String.eqb_neq _ _)); [done|]. by intros ->.
Qed.
Lemma capsuleBytes_ok c text : capsuleBytes c = Ok text → marshalCapsule c = Some text.
Proof. unfold capsuleBytes. intros (b & Hb & (_ & _ & [= <-])%rbind_ok)%rbind_ok. by apply of_option_ok in Hb. Qed.
Lemma SealHandoff_ok c o : shapeOk c = true → SealHandoff c = Ok o →
  ∃ text, marshalCapsule c = Some text ∧ o = mkOffer c ("sha256:" +:+ sha256Hex text)%string.
Proof.
  intros Hs. unfold SealHandoff. rewrite (defaults_id _ Hs). intros (_ & _ & (text & Ht & [= <-])%rbind_ok)%rbind_ok.
  exists text. split; [by apply capsuleBytes_ok|reflexivity].
Qed.
Lemma ValidateOffer_ok o now key : ValidateOffer o now key = Ok tt →
  IsZero now = false ∧ shapeOk (Capsule o) = true ∧ TargetKey (Capsule o) = key ∧ now < ExpiresAt (Capsule o) ∧
  ∃ text, marshalCapsule (Capsule o) = Some text ∧ ContentHash o = ("sha256:" +:+ sha256Hex text)%string ∧
    SealHandoff (Capsule o) = Ok (mkOffer (Capsule o) (ContentHash o)).
Proof.
  unfold ValidateOffer. cbv zeta. intros (_ & Hz%guard_err_ok & Hv)%rbind_ok.
  apply rbind_ok in Hv as (? & Hshape & Hv). unfold validateCapsuleShape in Hshape.
  apply rbind_ok in Hshape as (_ & Hs%guard_err_ok & _). apply negb_false_iff in Hs.
  apply rbind_ok in Hv as (_ & _ & Hv). apply rbind_ok in Hv as (_ & Hk%guard_err_ok & Hv).
  apply rbind_ok in Hv as (_ & _ & Hv). apply rbind_ok in Hv as (_ & Hx%guard_err_ok & Hv).
  apply rbind_ok in Hv as (sealed & Hseal & Hh%guard_err_ok). pose proof (SealHandoff_ok _ _ Hs Hseal) as (text & Ht & ->).
  apply negb_false_iff, String.eqb_eq in Hk, Hh. apply Z.leb_gt in Hx. cbn [ContentHash] in Hh. rewrite <-Hh.
  split_and!; try done. by exists text.
Qed.
Lemma new_record_valid o now key meta : ValidateOffer o now key = Ok tt → PeerKey meta ≠ "" →
  validateStored (ID (Capsule o)) (mkRecord o (PeerFQDN meta) (PeerKey meta) (PeerAddr meta) now Offered now "" []) = true.
Proof.
  intros (Hz & Hs & _ & Hx & text & Ht & Hh & Hseal)%ValidateOffer_ok Hk. apply validateStored_iff. split.
  - unfold fixedPart, sealedOk, expires. cbn [Offer SourceKey ReceivedAt]. rewrite Hseal. cbn [Capsule ContentHash].
    rewrite Ht, String.eqb_refl, bool_decide_eq_true_2 by done. split_and!; try done.
    unfold shapeOk in Hs. rewrite !andb_true_iff in Hs. tauto.
  - unfold changingPart. simpl. split_and!; try done. unfold HandoffMaxDeliveryAttempts. lia.
Qed.

(** What is stored as a new offer is bound to this device, to its lifetime and to its
    content: it was addressed to the receiver's own key, had not expired, came from a
    verified source, and its hash is that of the capsule's encoding; two stored capsules
    with one hash have one encoding, but for a collision of the hash function. *)
Theorem stored_offer_is_bound ev o meta key now b r b' o2 meta2 now2 ev2 b2 r2 b2' :
  Put ev o meta key now b = (Ok (r, true), b') → Put ev2 o2 meta2 key now2 b2 = (Ok (r2, true), b2') →
  (TargetKey (Capsule o) = key ∧ now < ExpiresAt (Capsule o) ∧ SourceKey r = PeerKey meta ∧ PeerKey meta ≠ "" ∧ State r = Offered) ∧
  ∃ t1 t2, marshalCapsule (Capsule o) = Some t1 ∧ marshalCapsule (Capsule o2) = Some t2 ∧
    (ContentHash o = ContentHash o2 → t1 = t2 ∨ collision t1 t2).
Proof.
  intros Hp1 Hp2.
  apply Put_cases in Hp1 as [(_ & Hn & _)|(_ & _ & _ & _ & Hpk & Hv & _ & Hres)]; [by destruct (Hn r)|].
  apply Put_cases in Hp2 as [(_ & Hn & _)|(_ & _ & _ & _ & _ & Hv2 & _ & _)]; [by destruct (Hn r2)|].
  apply ValidateOffer_ok in Hv as (_ & _ & Htk & Hx & t1 & Ht1 & Hh1 & _). apply ValidateOffer_ok in Hv2 as (_ & _ & _ & _ & t2 & Ht2 & Hh2 & _).
  split.
  - destruct (writeRecord ev _ _ b) as [[e|] b0]; [done|]. injection Hres as ->. done.
  - exists t1, t2. split_and!; try done. intros He. rewrite Hh1, Hh2 in He.
    apply append_inj_length in He as [_ He]; [|done]. by apply sha256Hex_inj.
Qed.
End Store.
End Inbox.

(** ** Concrete runs *)

Module HandoffRuns.
Import Air Handoff Inbox.
#[local] Existing Instance toySHA256.
#[export] Instance textCapsule : CapsuleCodec := {|
  marshalCapsule c := Some (ID c +:+ Goal c)%string; parseMediaType _ := true |}.
#[export] Instance textRecord : RecordCodec := {| marshalRecord r := Some (ID (Capsule (Offer r))) |}.

Definition hid : string := "0123456789abcdef0123456789abcdef".
Definition capsuleEx (goal : string) : ContextCapsule :=
  mkCapsule 1 hid 10 1000 "me" (mkWork "agent" "w1") goal "" "" [] [] [] [] "low".
Definition offerEx (goal : string) : HandoffOffer :=
  mkOffer (capsuleEx goal) ("sha256:" +:+ sha256Hex (hid +:+ goal))%string.
Definition metaEx : Meta := mkMeta "alice" "alice.mesh" "100.64.0.7".
Definition okEnv : env := mkEnv true Wrote.
Definition b0 : handoffInbox := mkInbox ∅ ∅ 4.
Definition recEx : HandoffRecord := mkRecord (offerEx "finish") "alice.mesh" "alice" "100.64.0.7" 20 Offered 20 "" [].
Definition b1 := (Put okEnv (offerEx "finish") metaEx "me" 20 b0).2.
Definition b2 := (runOp (OpTransition Accepted "yes") okEnv hid 30 b1).2.
Definition b3 := (runOp (OpClaim "10.0.0.1:9" "agentkey" "steer") okEnv hid 40 b2).2.
Definition b4 := (runOp OpAck okEnv hid 50 b3).2.

Lemma put_ex : Put okEnv (offerEx "finish") metaEx "me" 20 b0 = (Ok (recEx, true), b1).
Proof. by vm_compute. Qed.
(** A second claim of the same consent, an offer of other content, one from elsewhere, and
    one written to a full disk. *)
Example inbox_refuses :
  (runOp (OpClaim "10.0.0.2:9" "other" "steer") okEnv hid 45 b3).1 = Err NotAccepted ∧
  (Put okEnv (offerEx "other") metaEx "me" 60 b4).1 = Err IDCollision ∧
  (Put okEnv (offerEx "finish") (mkMeta "bob" "" "") "me" 60 b4).1 = Err SourceMismatch ∧
  (Put (mkEnv true WriteErr) (offerEx "finish") metaEx "me" 20 b0).1 = Err WriteFailed ∧
  (runOp OpAck okEnv hid 1000 b3).1 = Err UnknownOutcome.
Proof. by vm_compute. Qed.

Lemma run_b4 : star step b0 b4.
Proof.
  apply star_step with b1; [exact (step_put b0 okEnv (offerEx "finish") metaEx "me" 20)|].
  apply star_step with b2; [exact (step_op b1 (OpTransition Accepted "yes") okEnv hid 30)|].
  apply star_step with b3; [exact (step_op b2 (OpClaim "10.0.0.1:9" "agentkey" "steer") okEnv hid 40)|].
  apply star_one. exact (step_op b3 OpAck okEnv hid 50).
Qed.
Lemma inbox_stays_well_formed_witness : wf b4.
Proof. exact (inbox_stays_well_formed 4 b4 run_b4). Defined.
Lemma b3_wf : wf b3.
Proof. apply (step_wf _ _ (step_op b2 _ okEnv hid 40)), (step_wf _ _ (step_op b1 _ okEnv hid 30)), (step_wf _ _ (step_put b0 _ _ _ _ _)), wf_empty. Qed.
Lemma operations_keep_records_readable_witness : (runOp OpAck okEnv hid 50 b3).1 ≠ Err Corrupt.
Proof. exact (operations_keep_records_readable b3 OpAck okEnv hid 50 b3_wf). Defined.
(** An archived id stays taken. *)
Definition archived := (Archive okEnv (λ _, (okEnv, true)) 5000 100 b4).2.
Example archived_id_stays_taken :
  size (active archived) = 0%nat ∧ (Put okEnv (offerEx "other") metaEx "me" 60 archived).1 = Err IDCollision.
Proof. by vm_compute. Qed.
Lemma offer_ids_are_used_once_witness :
  ∀ r', (Put okEnv (offerEx "finish") metaEx "me" 60 b4).1 ≠ Ok (r', true).
Proof.
  intros r'. destruct (Put okEnv (offerEx "finish") metaEx "me" 60 b4) as [res b5] eqn:Hp.
  assert (star step b1 b4) as Hs.
  { apply star_step with b2; [exact (step_op b1 (OpTransition Accepted "yes") okEnv hid 30)|].
    apply star_step with b3; [exact (step_op b2 (OpClaim "10.0.0.1:9" "agentkey" "steer") okEnv hid 40)|].
    apply star_one. exact (step_op b3 OpAck okEnv hid 50). }
  exact (proj1 (proj2 (offer_ids_are_used_once _ _ _ _ _ _ _ _ _ _ _ _ _ _ _ _ put_ex Hs Hp eq_refl)) r').
Defined.
Lemma stored_offer_is_bound_witness : TargetKey (capsuleEx "finish") = "me" ∧ PeerKey metaEx ≠ "".
Proof.
  destruct (stored_offer_is_bound _ _ _ _ _ _ _ _ _ _ _ _ _ _ _ put_ex put_ex) as [(Ht & _ & _ & Hk & _) _].
  exact (conj Ht Hk).
Defined.

Definition attemptEx : Attempt := mkAttempt "10.0.0.1:9" "agentkey" "steer" 40 None.
Definition rec1 := setState Accepted 30 "yes" recEx.
Definition rec2 := setAttempts [attemptEx] (setState Dispatching 40 claimNote rec1).
Lemma history_ex : history recEx [EvClaim attemptEx; EvTransition Accepted] rec2.
Proof.
  apply history_cons with rec1 40 ""; [|by vm_compute]. apply history_cons with recEx 30 "yes"; [constructor|by vm_compute].
Qed.
Lemma deliveries_match_consent_witness :
  length (DeliveryAttempts rec2) = claims [EvClaim attemptEx; EvTransition Accepted].
Proof. exact (proj1 (deliveries_match_consent recEx _ rec2 eq_refl eq_refl history_ex)). Defined.
Lemma terminal_records_stay_witness :
  setState Declined 30 "" recEx = setState Declined 30 "" recEx ∧ (∃ e, applyEvent (EvTransition Accepted) 40 "" (setState Declined 30 "" recEx) = Err e).
Proof.
  split; [|by eexists].
  exact (terminal_records_stay (EvTransition Declined) 40 "" (setState Declined 30 "" recEx) (setState Declined 30 "" recEx) (or_introl eq_refl) eq_refl).
Defined.
End HandoffRuns.
