(* ===== verification/Rows.v ===== *)
(** * Rows: stores kept as files of rows

    The air stores ([air/pairing.go], [air/grant.go]) keep maps in memory and write the
    whole state to a file after every change, the rows sorted by some of their texts. This
    file holds what they share: reading rows back into a map, disjoint maps, sorting. *)
From stdpp Require Import base list strings gmap sorting.
From Stdlib Require Import ZArith Lia Ascii.
From S2P Require Import Prelude GoStd.
Open Scope Z_scope.
Open Scope mesh_scope.

Section Rows.
Context {A : Type} (key : A → string) (valid : A → bool).

(** Rows read one after the other into a map; rows that are not valid are skipped. *)
Definition loadRows (rows : list A) : gmap string A :=
  fold_left (λ m r, if valid r then <[key r := r]> m else m) rows ∅.
(** A map whose entries are valid and filed under their own keys. *)
Definition keyed (m : gmap string A) : Prop := ∀ k r, m !! k = Some r → key r = k ∧ valid r = true.

Lemma keyed_empty : keyed ∅.
Proof. by intros k r Hk. Qed.
Lemma keyed_insert k r m : keyed m → key r = k → valid r = true → keyed (<[k := r]> m).
Proof. intros Hm Hk Hv k' r' [[<- <-]|[_ ?]]%lookup_insert_Some; [done|by apply Hm]. Qed.
Lemma keyed_sub m m' : keyed m → m' ⊆ m → keyed m'.
Proof. intros Hm Hs k r Hk. apply Hm. by eapply lookup_weaken. Qed.
Lemma keyed_delete k m : keyed m → keyed (delete k m).
Proof. intros Hm. eapply keyed_sub; [done|apply delete_subseteq]. Qed.

Lemma loadRows_snoc rows r :
  loadRows (rows ++ [r]) = if valid r then <[key r := r]> (loadRows rows) else loadRows rows.
Proof. unfold loadRows. by rewrite fold_left_app. Qed.
Lemma loadRows_keyed rows : keyed (loadRows rows).
Proof.
  induction rows as [|r rows IH] using rev_ind; [apply keyed_empty|]. rewrite loadRows_snoc.
  destruct (valid r) eqn:Hr; [by apply keyed_insert|done].
Qed.
Lemma loadRows_lookup rows k r :
  NoDup (key <$> rows) → loadRows rows !! k = Some r ↔ r ∈ rows ∧ key r = k ∧ valid r = true.
Proof.
  induction rows as [|x rows IH] using rev_ind in k, r |- *; intros Hnd.
  { split; [done|]. intros (Hr & _). by apply elem_of_nil in Hr. }
  rewrite fmap_app in Hnd. apply NoDup_app in Hnd as (Hnd & Hdis & _).
  assert (key x ∉ key <$> rows) as Hx by (intros Hin; apply (Hdis _ Hin); by apply list_elem_of_singleton).
  rewrite loadRows_snoc, elem_of_app, list_elem_of_singleton. destruct (valid x) eqn:He.
  2: { rewrite (IH k r Hnd). split; [tauto|]. intros ([?| ->] & ? & ?); [tauto|congruence]. }
  destruct (decide (k = key x)) as [-> |Hne].
  - rewrite lookup_insert_eq. split; [intros [= <-]; tauto|]. intros ([Hr| ->] & Hk & _); [|done].
    exfalso. apply Hx. rewrite <-Hk. by apply list_elem_of_fmap_2.
  - rewrite lookup_insert_ne by done. rewrite (IH k r Hnd). split; [tauto|]. intros ([?| ->] & ? & ?); [tauto|congruence].
Qed.
(** What is written is read back. *)
Lemma loadRows_stored m rows : keyed m → rows ≡ₚ (map_to_list m).*2 → loadRows rows = m.
Proof.
  intros Hm Hp. assert (Hkeys : key <$> (map_to_list m).*2 = (map_to_list m).*1).
  { rewrite <-list_fmap_compose. apply list_fmap_ext. intros i [k r] Hi. simpl.
    apply Hm. apply elem_of_map_to_list. by eapply list_elem_of_lookup_2. }
  assert (NoDup (key <$> rows)) as Hnd by (rewrite Hp, Hkeys; apply NoDup_fst_map_to_list).
  apply map_eq. intros k. apply option_eq. intros r. rewrite loadRows_lookup by done. rewrite Hp, list_elem_of_fmap. split.
  - intros ([[k' r'] [-> Hin]] & Hk & Hne). simpl in *. apply elem_of_map_to_list in Hin. destruct (Hm _ _ Hin) as [<- _]. by rewrite <-Hk.
  - intros Hk. destruct (Hm _ _ Hk) as [Hkr Hne]. split_and!; [|done|done]. exists (k, r). split; [done|]. by apply elem_of_map_to_list.
Qed.
End Rows.

(** Maps with no key in common. *)
Definition apart {A B} (m : gmap string A) (n : gmap string B) : Prop := ∀ k, m !! k = None ∨ n !! k = None.
Lemma apart_sub {A B} (m m' : gmap string A) (n n' : gmap string B) : m' ⊆ m → n' ⊆ n → apart m n → apart m' n'.
Proof. intros Hm Hn Ha k. destruct (Ha k) as [H|H]; [left|right]; by eapply lookup_weaken_None. Qed.
Lemma apart_insert_l {A B} k r (m : gmap string A) (n : gmap string B) : n !! k = None → apart m n → apart (<[k := r]> m) n.
Proof.
  intros Hk Ha k'. destruct (decide (k' = k)) as [-> |Hne]; [by right|]. rewrite lookup_insert_ne by done. apply Ha.
Qed.
Lemma apart_insert_r {A B} k r (m : gmap string A) (n : gmap string B) : m !! k = None → apart m n → apart m (<[k := r]> n).
Proof.
  intros Hk Ha k'. destruct (decide (k' = k)) as [-> |Hne]; [by left|]. rewrite lookup_insert_ne by done. apply Ha.
Qed.
Lemma apart_l {A B} k r (m : gmap string A) (n : gmap string B) : apart m n → m !! k = Some r → n !! k = None.
Proof. intros Ha Hk. destruct (Ha k); congruence. Qed.
Lemma apart_r {A B} k r (m : gmap string A) (n : gmap string B) : apart m n → n !! k = Some r → m !! k = None.
Proof. intros Ha Hk. destruct (Ha k); congruence. Qed.
Lemma apart_delete_l {A B} k (m : gmap string A) (n : gmap string B) : apart m n → apart (delete k m) n.
Proof. by apply apart_sub; [apply delete_subseteq|]. Qed.
Lemma apart_delete_r {A B} k (m : gmap string A) (n : gmap string B) : apart m n → apart m (delete k n).
Proof. by apply apart_sub; [|apply delete_subseteq]. Qed.
Lemma none_deleted {A} k (m : gmap string A) : delete k m !! k = None.
Proof. apply lookup_delete_eq. Qed.
Lemma restore_map {A} (m : gmap string A) k : match m !! k with Some d => <[k := d]> (delete k m) | None => delete k m end = m.
Proof. destruct (m !! k) eqn:Hk; [by apply insert_delete_id|by apply delete_id]. Qed.
Lemma sub_delete_insert {A} (m m' : gmap string A) k r : m' ⊆ <[k := r]> m → delete k m' ⊆ m.
Proof.
  intros Hs. apply map_subseteq_spec. intros k' r' [Hne Hk]%lookup_delete_Some.
  apply (lookup_weaken _ _ _ _ Hk) in Hs. by rewrite lookup_insert_ne in Hs.
Qed.
(** The rows of [m] without an entry in [n]. *)
Definition without {A B} (n : gmap string B) (m : gmap string A) : gmap string A :=
  filter (λ kr, isNone (n !! kr.1) = true) m.
Lemma without_sub {A B} (n : gmap string B) (m : gmap string A) : without n m ⊆ m.
Proof. apply map_filter_subseteq. Qed.
Lemma without_apart {A B} (n : gmap string B) (m : gmap string A) : apart (without n m) n.
Proof.
  intros k. destruct (n !! k) eqn:Hn; [left|by right]. apply map_lookup_filter_None. right. intros r _. cbn. by rewrite Hn.
Qed.
Lemma without_id {A B} (n : gmap string B) (m : gmap string A) : apart m n → without n m = m.
Proof. intros Ha. apply map_filter_id. intros k r Hk. cbn. by rewrite (apart_l _ _ _ _ Ha Hk). Qed.

Create HintDb rowdb.
#[export] Hint Resolve keyed_delete keyed_insert apart_delete_l apart_delete_r apart_insert_l apart_insert_r none_deleted : rowdb.

(** Order of rows by texts, the first that differs deciding. *)
Fixpoint textsLe (a b : list string) : bool :=
  match a, b with
  | x :: a, y :: b => String.ltb x y || ((x =? y)%string && textsLe a b)
  | _, _ => true
  end.
Definition rowLe {A} (by_ : A → list string) (a b : A) : Prop := textsLe (by_ a) (by_ b) = true.
#[export] Instance rowLe_dec {A} (by_ : A → list string) a b : Decision (rowLe by_ a b).
Proof. unfold rowLe. apply _. Defined.
Definition sortRows {A} (by_ : A → list string) (m : gmap string A) : list A :=
  merge_sort (rowLe by_) (map_to_list m).*2.
Lemma sortRows_perm {A} (by_ : A → list string) m : sortRows by_ m ≡ₚ (map_to_list m).*2.
Proof. apply merge_sort_Permutation. Qed.
Lemma loadRows_sorted {A} key valid (by_ : A → list string) m : keyed key valid m → loadRows key valid (sortRows by_ m) = m.
Proof. intros Hm. apply loadRows_stored; [done|apply sortRows_perm]. Qed.
