(* ===== verification/Pairing.v ===== *)
(** * Pairing: recognised peers

    [air/pairing.go]: the store of pending pair requests, recognised peers and remembered
    denials. It writes its whole state to a file after every change; the write may fail, and
    the change is then undone. The texts of times are given to the operations; the texts of
    the rows are taken to be valid UTF-8, which the JSON file keeps as they are. *)
From stdpp Require Import base list strings gmap sorting.
From Stdlib Require Import ZArith Lia Ascii.
From S2P Require Import Prelude GoStd AirText Rows.
Open Scope Z_scope.
Open Scope mesh_scope.

Module Pair.
Import Air.

Definition maxPresenceIdentityText : Z := 512.
Definition maxPairLabelBytes : Z := 128.
Definition DefaultPendingMax : nat := 256.
Definition maxDeniedRemembered : nat := 256.
Definition pairedSchemaVersion : Z := 1.

Record VerifiedIdentity := mkIdentity { iKey : string; iFQDN : string }.
Record PendingRequest := mkPending { pKey : string; pFQDN : string; pLabel : string; RequestedAt : string }.
Record PairedPeer := mkPeer { ppKey : string; ppFQDN : string; ppLabel : string; ApprovedAt : string; Approver : string }.
Record DeniedRequest := mkDenied { dKey : string; dReason : string; DeniedAt : string }.
Inductive PairStatus := StatusApproved | StatusPending | StatusDenied | StatusNone.
Record pairedState := mkPairedState {
  SchemaVersion : Z; sPending : list PendingRequest; sPaired : list PairedPeer; sDenied : list DeniedRequest }.
Record PairedStore := mkStore {
  pending : gmap string PendingRequest; paired : gmap string PairedPeer; denied : gmap string DeniedRequest;
  file : option pairedState }.
Inductive pairErr := BadKey | BadIdentity | BadLabel | TooManyPending | ErrNoPendingRequest | PersistFailed | NewerSchema.

(** A row with a key. *)
Definition hasKey {A} (key : A → string) (r : A) : bool := negb (key r =? "")%string.

Definition snapshot (s : PairedStore) : pairedState :=
  mkPairedState pairedSchemaVersion (sortRows (λ r, [RequestedAt r; pKey r]) s.(pending))
    (sortRows (λ r, [ApprovedAt r; ppKey r]) s.(paired)) (sortRows (λ r, [DeniedAt r; dKey r]) s.(denied)).
Definition setMaps pe pa de (s : PairedStore) : PairedStore := mkStore pe pa de s.(file).
(** [persistLocked], [ok]: the file is replaced. *)
Definition persist (ok : bool) (s : PairedStore) : option PairedStore :=
  if ok then Some (mkStore s.(pending) s.(paired) s.(denied) (Some (snapshot s))) else None.

Definition OpenPairedStore (f : option pairedState) : result pairErr PairedStore :=
  match f with
  | None => Ok (mkStore ∅ ∅ ∅ None)
  | Some st =>
      if pairedSchemaVersion <? st.(SchemaVersion) then Err NewerSchema
      else
        let pa := loadRows ppKey (hasKey ppKey) st.(sPaired) in
        let pe := without pa (loadRows pKey (hasKey pKey) st.(sPending)) in
        let de := without pe (without pa (loadRows dKey (hasKey dKey) st.(sDenied))) in
        Ok (mkStore pe pa de f)
  end.

Definition validatePairIdentity (id : VerifiedIdentity) : bool :=
  negb ((id.(iKey) =? "")%string || (maxPresenceIdentityText <? strlen id.(iKey)) || hasControl id.(iKey)) &&
  negb ((maxPresenceIdentityText <? strlen id.(iFQDN)) || hasControl id.(iFQDN)).
Definition cleanPairLabel (label : string) : option string :=
  let label := trimSpace label in
  if (maxPairLabelBytes <? strlen label) || hasControl label then None else Some label.

Definition Request (ok : bool) (id : VerifiedIdentity) (label ts : string) (s : PairedStore)
    : result pairErr (option PendingRequest * bool) * PairedStore :=
  if negb (validatePairIdentity id) then (Err BadIdentity, s)
  else match cleanPairLabel label with
  | None => (Err BadLabel, s)
  | Some label =>
      let k := id.(iKey) in
      match s.(paired) !! k, s.(pending) !! k with
      | Some _, _ => (Ok (None, false), s)
      | None, Some existing => (Ok (Some existing, false), s)
      | None, None =>
          if (DefaultPendingMax <=? size s.(pending))%nat then (Err TooManyPending, s)
          else
            let req := mkPending k id.(iFQDN) label ts in
            let s1 := setMaps (<[k := req]> s.(pending)) s.(paired) (delete k s.(denied)) s in
            match persist ok s1 with
            | Some s2 => (Ok (Some req, true), s2)
            | None =>
                let de := delete k s.(denied) in
                (Err PersistFailed,
                 setMaps (delete k (<[k := req]> s.(pending))) s.(paired)
                   (match s.(denied) !! k with Some d => <[k := d]> de | None => de end) s)
            end
      end
  end.

Definition Approve (ok : bool) (k approver ts : string) (s : PairedStore) : result pairErr PairedPeer * PairedStore :=
  if (k =? "")%string then (Err BadKey, s)
  else match s.(paired) !! k with
  | Some existing => (Ok existing, s)
  | None =>
      match s.(pending) !! k with
      | None => (Err ErrNoPendingRequest, s)
      | Some req =>
          let peer := mkPeer req.(pKey) req.(pFQDN) req.(pLabel) ts approver in
          let s1 := setMaps (delete k s.(pending)) (<[k := peer]> s.(paired)) s.(denied) s in
          match persist ok s1 with
          | Some s2 => (Ok peer, s2)
          | None => (Err PersistFailed, setMaps (<[k := req]> (delete k s.(pending))) (delete k (<[k := peer]> s.(paired))) s.(denied) s)
          end
      end
  end.

(** The denial [evictDeniedLocked] drops: the oldest, the least key first. *)
Definition oldest (m : gmap string DeniedRequest) : option string :=
  (λ kr, kr.1) <$> head (merge_sort (rowLe (λ kr, [DeniedAt kr.2; kr.1])) (map_to_list m)).
Fixpoint evictDenied (fuel : nat) (m : gmap string DeniedRequest) : gmap string DeniedRequest :=
  match fuel with
  | O => m
  | S fuel => if (maxDeniedRemembered <? size m)%nat
              then match oldest m with Some k => evictDenied fuel (delete k m) | None => m end else m
  end.
Definition Deny (ok : bool) (k reason ts : string) (s : PairedStore) : result pairErr bool * PairedStore :=
  match cleanPairLabel reason with
  | None => (Err BadLabel, s)
  | Some reason =>
      match s.(pending) !! k with
      | None => (Ok false, s)
      | Some req =>
          let de := <[k := mkDenied k reason ts]> s.(denied) in
          let de := evictDenied (size de) de in
          let s1 := setMaps (delete k s.(pending)) s.(paired) de s in
          match persist ok s1 with
          | Some s2 => (Ok true, s2)
          | None => (Err PersistFailed, setMaps (<[k := req]> (delete k s.(pending))) s.(paired) (delete k de) s)
          end
      end
  end.
Definition Revoke (ok : bool) (k : string) (s : PairedStore) : result pairErr bool * PairedStore :=
  match s.(paired) !! k with
  | None => (Ok false, s)
  | Some peer =>
      match persist ok (setMaps s.(pending) (delete k s.(paired)) s.(denied) s) with
      | Some s2 => (Ok true, s2)
      | None => (Err PersistFailed, setMaps s.(pending) (<[k := peer]> (delete k s.(paired))) s.(denied) s)
      end
  end.

Definition Recognized (k fqdn : string) (s : PairedStore) : bool :=
  negb (k =? "")%string && negb (isNone (s.(paired) !! k)).
Definition StatusDetail (k : string) (s : PairedStore) : PairStatus * string :=
  if (k =? "")%string then (StatusNone, "")
  else if negb (isNone (s.(paired) !! k)) then (StatusApproved, "")
  else if negb (isNone (s.(pending) !! k)) then (StatusPending, "")
  else match s.(denied) !! k with Some d => (StatusDenied, d.(dReason)) | None => (StatusNone, "") end.

(** *** Sequences of operations *)

(** One call of the store; [ok] says whether its write of the file succeeds. [ORestart]
    opens the file again. *)
Inductive op :=
| ORequest (ok : bool) (id : VerifiedIdentity) (label ts : string)
| OApprove (ok : bool) (k approver ts : string)
| ODeny (ok : bool) (k reason ts : string)
| ORevoke (ok : bool) (k : string)
| ORestart.
Definition step (o : op) (s : PairedStore) : PairedStore :=
  match o with
  | ORequest ok id label ts => (Request ok id label ts s).2
  | OApprove ok k approver ts => (Approve ok k approver ts s).2
  | ODeny ok k reason ts => (Deny ok k reason ts s).2
  | ORevoke ok k => (Revoke ok k s).2
  | ORestart => match OpenPairedStore s.(file) with Ok s' => s' | Err _ => s end
  end.
Definition run (ops : list op) (s : PairedStore) : PairedStore := fold_left (λ s o, step o s) ops s.

(** Entries under their own keys, the three sets disjoint. *)
Record WF (s : PairedStore) : Prop := mkWF {
  wf_pending : keyed pKey (hasKey pKey) s.(pending);
  wf_paired : keyed ppKey (hasKey ppKey) s.(paired);
  wf_denied : keyed dKey (hasKey dKey) s.(denied);
  wf_pp : apart s.(pending) s.(paired);
  wf_pd : apart s.(denied) s.(pending);
  wf_ad : apart s.(denied) s.(paired) }.
(** The file holds the recognised peers and the queue, and at least the denials in memory. *)
Definition Synced (s : PairedStore) : Prop :=
  ∃ s', OpenPairedStore s.(file) = Ok s' ∧ s'.(pending) = s.(pending) ∧ s'.(paired) = s.(paired) ∧ s.(denied) ⊆ s'.(denied).
(** [Deny] has to evict a denial to remember this one. *)
Definition evicts (o : op) (s : PairedStore) : bool :=
  match o with ODeny false _ _ _ => (maxDeniedRemembered <=? size s.(denied))%nat | _ => false end.


Lemma open_wf f s : OpenPairedStore f = Ok s → WF s ∧ s.(file) = f.
Proof.
  destruct f as [st|]; cbn; [|intros [= <-]; split; [|done]; split; cbn; first [apply keyed_empty|by left]].
  destruct (_ <? _); [done|]. intros [= <-]. split; [|done].
  split; cbn; try (eapply keyed_sub; [apply loadRows_keyed|]); try apply without_apart; try apply without_sub; try done.
  { etrans; apply without_sub. }
  eapply apart_sub; [apply without_sub|done|apply without_apart].
Qed.
Lemma open_snapshot s : WF s → OpenPairedStore (Some (snapshot s)) = Ok (mkStore s.(pending) s.(paired) s.(denied) (Some (snapshot s))).
Proof.
  intros [Hpe Hpa Hde Hpp Hpd Had]. unfold OpenPairedStore. cbn [SchemaVersion snapshot sPending sPaired sDenied].
  change (pairedSchemaVersion <? pairedSchemaVersion) with false. cbv iota zeta.
  rewrite !loadRows_sorted by done.
  by rewrite (without_id s.(paired) s.(pending)), (without_id s.(paired) s.(denied)), (without_id s.(pending) s.(denied)).
Qed.
(** A successful write keeps exactly what is in memory. *)
Lemma persist_exact ok s s' : WF s → persist ok s = Some s' →
  ok = true ∧ s'.(pending) = s.(pending) ∧ s'.(paired) = s.(paired) ∧ s'.(denied) = s.(denied) ∧
  WF s' ∧ OpenPairedStore s'.(file) = Ok s'.
Proof.
  intros Hwf. unfold persist. destruct ok; [|done]. intros [= <-]. split_and!; try done; [by destruct Hwf|by apply open_snapshot].
Qed.
Lemma oldest_in m k : oldest m = Some k → is_Some (m !! k).
Proof.
  unfold oldest. intros Hk. destruct (merge_sort _ _) as [|[k' r] l] eqn:Hs; [done|]. injection Hk as <-.
  exists r. apply elem_of_map_to_list. rewrite <-(merge_sort_Permutation (rowLe (λ kr, [DeniedAt kr.2; kr.1]))), Hs. apply elem_of_cons. by left.
Qed.
Lemma evictDenied_sub fuel m : evictDenied fuel m ⊆ m.
Proof.
  induction fuel as [|fuel IH] in m |- *; cbn [evictDenied]; [done|].
  destruct (_ <? _)%nat; [|done]. destruct (oldest m) as [k|]; [|done]. etrans; [apply IH|apply delete_subseteq].
Qed.
Lemma oldest_some m : (0 < size m)%nat → is_Some (oldest m).
Proof.
  intros Hm. unfold oldest. destruct (merge_sort _ _) as [|[k r] l] eqn:Hs; [|done]. exfalso.
  assert (length (map_to_list m) = 0)%nat as Hl by (rewrite <-(merge_sort_Permutation (rowLe (λ kr, [DeniedAt kr.2; kr.1]))), Hs; done).
  rewrite length_map_to_list in Hl. lia.
Qed.
(** Enough rounds bring the memory of denials under its cap. *)
Lemma evictDenied_size fuel m : (size m <= fuel)%nat → (size (evictDenied fuel m) <= maxDeniedRemembered)%nat.
Proof.
  induction fuel as [|fuel IH] in m |- *; cbn [evictDenied]; intros Hf; [unfold maxDeniedRemembered; lia|].
  destruct (_ <? _)%nat eqn:Hs; breflect; [|lia].
  destruct (oldest_some m) as [k Hk]; [unfold maxDeniedRemembered in Hs; lia|]. rewrite Hk. apply IH.
  destruct (oldest_in _ _ Hk) as [r Hr]. rewrite map_size_delete, Hr. cbn. lia.
Qed.

(** *** The invariant *)

Definition Good (s : PairedStore) : Prop := WF s ∧ Synced s.
Lemma good_persist ok s s' : WF s → persist ok s = Some s' → Good s'.
Proof. intros Hwf Hp. destruct (persist_exact _ _ _ Hwf Hp) as (_ & _ & _ & _ & Hwf' & Ho). split; [done|]. by exists s'. Qed.
Lemma good_rollback s pe pa de : Good s → pe = s.(pending) → pa = s.(paired) → de ⊆ s.(denied) → Good (setMaps pe pa de s).
Proof.
  intros [[Hpe Hpa Hde Hpp Hpd Had] (s' & Ho & H1 & H2 & H3)] -> -> Hsub. split.
  - split; cbn; eauto using keyed_sub; by eapply apart_sub.
  - exists s'. cbn. split_and!; try done. by etrans.
Qed.
(** The changes the operations write. *)
Lemma wf_request s k r : WF s → pKey r = k → k ≠ "" → s.(paired) !! k = None →
  WF (setMaps (<[k := r]> s.(pending)) s.(paired) (delete k s.(denied)) s).
Proof.
  intros [Hpe Hpa Hde Hpp Hpd Had] Hk Hne Hn. split; cbn; eauto with rowdb.
  apply keyed_insert; [done|done|]. unfold hasKey. rewrite Hk. by apply negb_true_iff, String.eqb_neq.
Qed.
Lemma wf_approve s k req peer : WF s → s.(pending) !! k = Some req → ppKey peer = pKey req →
  WF (setMaps (delete k s.(pending)) (<[k := peer]> s.(paired)) s.(denied) s).
Proof.
  intros [Hpe Hpa Hde Hpp Hpd Had] Hk Hpk. destruct (Hpe _ _ Hk) as [Hrk Hv].
  assert (s.(denied) !! k = None) by exact (apart_r _ _ _ _ Hpd Hk). split; cbn; eauto with rowdb.
  apply keyed_insert; [done|congruence|]. unfold hasKey in *. by rewrite Hpk.
Qed.
Lemma wf_deny s k req d de : WF s → s.(pending) !! k = Some req → dKey d = k → de ⊆ <[k := d]> s.(denied) →
  WF (setMaps (delete k s.(pending)) s.(paired) de s).
Proof.
  intros [Hpe Hpa Hde Hpp Hpd Had] Hk Hdk Hsub. destruct (Hpe _ _ Hk) as [Hrk Hv].
  assert (s.(paired) !! k = None) by exact (apart_l _ _ _ _ Hpp Hk).
  split; cbn; eauto with rowdb; [|eapply apart_sub; [exact Hsub|done|]; eauto with rowdb..].
  eapply keyed_sub; [|done]. apply keyed_insert; [done|done|]. unfold hasKey in *. by rewrite Hdk, <-Hrk.
Qed.
Lemma wf_revoke s k : WF s → WF (setMaps s.(pending) (delete k s.(paired)) s.(denied) s).
Proof. intros [Hpe Hpa Hde Hpp Hpd Had]. split; cbn; eauto with rowdb. Qed.
Lemma validatePairIdentity_key id : validatePairIdentity id = true → iKey id ≠ "".
Proof.
  unfold validatePairIdentity. intros [H _]%andb_prop He. rewrite He in H. discriminate.
Qed.
Lemma step_good o s : Good s → Good (step o s).
Proof.
  intros Hg. pose proof Hg as [Hwf Hsy]. destruct o as [ok id label ts|ok k approver ts|ok k reason ts|ok k|]; cbn [step].
  - unfold Request. destruct (validatePairIdentity id) eqn:Hv; cbn [negb]; [|done].
    destruct (cleanPairLabel label) as [l|]; [|done].
    destruct (paired s !! _) eqn:Hpa; [done|]. destruct (pending s !! _) eqn:Hpe; [done|].
    destruct (_ <=? _)%nat; [done|]. destruct (persist _ _) eqn:Hp; cbn [snd].
    + eapply good_persist; [|done]. by apply wf_request; [| |apply validatePairIdentity_key|].
    + apply good_rollback; [done|by rewrite delete_insert_id|done|]. by rewrite restore_map.
  - unfold Approve. destruct (_ =? _)%string; [done|]. destruct (paired s !! k) eqn:Hpa; [done|].
    destruct (pending s !! k) as [req|] eqn:Hpe; [|done]. destruct (persist _ _) eqn:Hp; cbn [snd].
    + eapply good_persist; [|done]. by eapply wf_approve.
    + apply good_rollback; [done|by rewrite insert_delete_id|by rewrite delete_insert_id|done].
  - unfold Deny. destruct (cleanPairLabel reason) as [l|]; [|done]. destruct (pending s !! k) as [req|] eqn:Hpe; [|done].
    pose proof (evictDenied_sub (size (<[k := mkDenied k l ts]> s.(denied))) (<[k := mkDenied k l ts]> s.(denied))) as Hsub.
    destruct (persist _ _) eqn:Hp; cbn [snd].
    + eapply good_persist; [exact (wf_deny _ _ _ (mkDenied k l ts) _ Hwf Hpe eq_refl Hsub)|done].
    + apply good_rollback; [done|by rewrite insert_delete_id|done|by eapply sub_delete_insert].
  - unfold Revoke. destruct (paired s !! k) as [peer|] eqn:Hpa; [|done]. destruct (persist _ _) eqn:Hp; cbn [snd].
    + eapply good_persist; [|done]. by apply wf_revoke.
    + apply good_rollback; [done|done|by rewrite insert_delete_id|done].
  - destruct Hsy as (s' & Ho & H1 & H2 & H3). rewrite Ho. destruct (open_wf _ _ Ho) as [Hwf' Hf]. split; [done|].
    exists s'. rewrite Hf. done.
Qed.
Lemma run_good ops s : Good s → Good (run ops s).
Proof. revert s. induction ops as [|o ops IH]; intros s Hs; [done|]. apply IH. by apply step_good. Qed.
Lemma open_good f s : OpenPairedStore f = Ok s → Good s.
Proof. intros Ho. destruct (open_wf _ _ Ho) as [Hwf <-]. split; [done|]. by exists s. Qed.

Lemma evictDenied_room fuel m : (size m <= maxDeniedRemembered)%nat → evictDenied fuel m = m.
Proof. intros Hm. destruct fuel; [done|]. cbn [evictDenied]. by rewrite (proj2 (Nat.ltb_ge _ _) Hm). Qed.
Lemma setMaps_id s pe pa de : pe = s.(pending) → pa = s.(paired) → de = s.(denied) → setMaps pe pa de s = s.
Proof. intros -> -> ->. by destruct s. Qed.
(** Without room to lose a denial, an operation either writes what it leaves in memory or
    changes nothing. *)
Lemma step_written o s : WF s → OpenPairedStore s.(file) = Ok s → evicts o s = false →
  step o s = s ∨ OpenPairedStore (step o s).(file) = Ok (step o s).
Proof.
  intros Hwf Hex Hev. destruct o as [ok id label ts|ok k approver ts|ok k reason ts|ok k|]; cbn [step].
  - unfold Request. destruct (validatePairIdentity id) eqn:Hv; cbn [negb]; [|by left].
    destruct (cleanPairLabel label) as [l|]; [|by left].
    destruct (paired s !! _) eqn:Hpa; [by left|]. destruct (pending s !! _) eqn:Hpe; [by left|].
    destruct (_ <=? _)%nat; [by left|]. destruct (persist _ _) eqn:Hp; cbn [snd].
    + right. eapply persist_exact; [|done]. by apply wf_request; [| |apply validatePairIdentity_key|].
    + left. apply setMaps_id; [by rewrite delete_insert_id|done|apply restore_map].
  - unfold Approve. destruct (_ =? _)%string; [by left|]. destruct (paired s !! k) eqn:Hpa; [by left|].
    destruct (pending s !! k) as [req|] eqn:Hpe; [|by left]. destruct (persist _ _) eqn:Hp; cbn [snd].
    + right. eapply persist_exact; [|done]. by eapply wf_approve.
    + left. apply setMaps_id; [by rewrite insert_delete_id|by rewrite delete_insert_id|done].
  - unfold Deny. destruct (cleanPairLabel reason) as [l|]; [|by left]. destruct (pending s !! k) as [req|] eqn:Hpe; [|by left].
    destruct (persist _ _) eqn:Hp; cbn [snd].
    + right. eapply persist_exact; [|done].
      exact (wf_deny _ _ _ (mkDenied k l ts) _ Hwf Hpe eq_refl (evictDenied_sub _ _)).
    + left. destruct ok; [done|]. cbn [evicts] in Hev. breflect.
      assert (s.(denied) !! k = None) as Hd by exact (apart_r _ _ _ _ (wf_pd _ Hwf) Hpe).
      apply setMaps_id; [by rewrite insert_delete_id|done|]. rewrite evictDenied_room; [by apply delete_insert_id|].
      rewrite map_size_insert_None by done. lia.
  - unfold Revoke. destruct (paired s !! k) as [peer|] eqn:Hpa; [|by left]. destruct (persist _ _) eqn:Hp; cbn [snd].
    + right. eapply persist_exact; [|done]. by apply wf_revoke.
    + left. apply setMaps_id; [done|by rewrite insert_delete_id|done].
  - left. by rewrite Hex.
Qed.
(** No denial of the sequence had to evict one and then failed to be written. *)
Fixpoint noLostDenial (ops : list op) (s : PairedStore) : bool :=
  match ops with [] => true | o :: ops => negb (evicts o s) && noLostDenial ops (step o s) end.
Lemma run_written ops s : WF s → OpenPairedStore s.(file) = Ok s → noLostDenial ops s = true →
  OpenPairedStore (run ops s).(file) = Ok (run ops s).
Proof.
  revert s. induction ops as [|o ops IH]; intros s Hwf Hex Hn; [done|]. cbn [noLostDenial] in Hn.
  apply andb_prop in Hn as [He Hn]. apply negb_true_iff in He.
  assert (OpenPairedStore (step o s).(file) = Ok (step o s)) as Hs by (destruct (step_written o s Hwf Hex He) as [H|H]; [by rewrite H|done]).
  apply (IH (step o s)); [by apply (open_wf _ _ Hs)|done|done].
Qed.
(** Whatever sequence of pair requests, approvals, denials, revocations and restarts
    runs on a store, whether or not its writes succeed: opening the file gives the
    recognised peers and the queue that are in memory, and at least the denials; it gives
    exactly the store in memory unless a denial that had to evict another failed to be
    written. *)
Theorem pairing_survives_restart (f : option pairedState) (s0 : PairedStore) (ops : list op)
    (Hopen : OpenPairedStore f = Ok s0) :
  (∃ s', OpenPairedStore (run ops s0).(file) = Ok s' ∧ s'.(paired) = (run ops s0).(paired) ∧
     s'.(pending) = (run ops s0).(pending) ∧ (run ops s0).(denied) ⊆ s'.(denied)) ∧
  (noLostDenial ops s0 = true → OpenPairedStore (run ops s0).(file) = Ok (run ops s0)).
Proof.
  split.
  - destruct (run_good ops s0 (open_good _ _ Hopen)) as [_ (s' & Ho & H1 & H2 & H3)]. by exists s'.
  - destruct (open_wf _ _ Hopen) as [Hwf Hf]. apply run_written; [done|]. by rewrite Hf.
Qed.

(** *** Recognition *)

Lemma recognized_iff k fqdn s : Recognized k fqdn s = true ↔ k ≠ "" ∧ is_Some (s.(paired) !! k).
Proof.
  unfold Recognized. rewrite andb_true_iff, !negb_true_iff, String.eqb_neq. destruct (s.(paired) !! k); cbn; split; intros [? H]; split; eauto; done || by destruct H.
Qed.
Lemma request_paired ok id label ts s : (Request ok id label ts s).2.(paired) = s.(paired).
Proof. unfold Request, persist. repeat case_match; simplify_eq; done. Qed.
Lemma deny_paired ok k reason ts s : (Deny ok k reason ts s).2.(paired) = s.(paired).
Proof. unfold Deny, persist. repeat case_match; simplify_eq; done. Qed.
Lemma step_paired o s k : Good s → is_Some ((step o s).(paired) !! k) → o ≠ ORevoke true k ∧
  (is_Some (s.(paired) !! k) ∨ ∃ approver ts, o = OApprove true k approver ts ∧ is_Some (s.(pending) !! k)).
Proof.
  intros [Hwf (s' & Ho & H1 & H2 & H3)]. destruct o as [ok id label ts|ok k' approver ts|ok k' reason ts|ok k'|]; cbn [step]; intros Hs.
  - rewrite request_paired in Hs. split; [done|by left].
  - split; [done|]. revert Hs. unfold Approve. destruct (_ =? _)%string; [by left|]. destruct (paired s !! k') eqn:Hpa; [by left|].
    destruct (pending s !! k') as [req|] eqn:Hpe; [|by left]. unfold persist. destruct ok; cbn; intros Hs.
    + destruct (decide (k = k')) as [-> |Hne]; [right; by eauto|left]. by rewrite lookup_insert_ne in Hs.
    + left. by rewrite delete_insert_id in Hs.
  - rewrite deny_paired in Hs. split; [done|by left].
  - revert Hs. unfold Revoke. destruct (paired s !! k') as [peer|] eqn:Hpa.
    2: { cbn [snd]. intros Hs. split; [|by left]. intros [= -> ->]. rewrite Hpa in Hs. by destruct Hs. }
    unfold persist. destruct ok; cbn; [|rewrite insert_delete_id by done; intros Hs; split; [done|by left]].
    intros [p Hp]. apply lookup_delete_Some in Hp as [Hne Hp]. split; [congruence|left; by eauto].
  - rewrite Ho, H2 in Hs. split; [done|by left].
Qed.
Lemma run_snoc ops o s : run (ops ++ [o]) s = step o (run ops s).
Proof. unfold run. by rewrite fold_left_app. Qed.
Lemma run_paired ops s k : Good s → is_Some ((run ops s).(paired) !! k) →
  (is_Some (s.(paired) !! k) ∧ ORevoke true k ∉ ops) ∨
  ∃ pre approver ts post, ops = pre ++ OApprove true k approver ts :: post ∧
    is_Some ((run pre s).(pending) !! k) ∧ ORevoke true k ∉ post.
Proof.
  intros Hg. induction ops as [|o ops IH] using rev_ind; intros Hs; [left; split; [done|by apply not_elem_of_nil]|].
  rewrite run_snoc in Hs. apply step_paired in Hs as (Hne & Hs); [|by apply run_good].
  assert (∀ l, ORevoke true k ∉ l → ORevoke true k ∉ l ++ [o]) as Happ.
  { intros l Hl [?|Hin%list_elem_of_singleton]%elem_of_app; [done|congruence]. }
  destruct Hs as [Hs|(approver & ts & -> & Hp)].
  - destruct (IH Hs) as [[? ?]|(pre & approver & ts & post & -> & Hp & Hn)]; [left; by auto|right].
    exists pre, approver, ts, (post ++ [o]). split_and!; [by rewrite <-app_assoc|done|by apply Happ].
  - right. exists ops, approver, ts, []. split_and!; [done|done|by apply not_elem_of_nil].
Qed.
(** A peer recognised after any sequence of operations, failed writes and restarts
    included, was recognised at the start and never revoked since, or an approval that was
    written moved its queued request into the recognised set, and no revocation after that
    approval was written. A request, a denial or a restart never recognises a peer. *)
Theorem recognition_needs_approval (f : option pairedState) (s0 : PairedStore) (ops : list op) (k fqdn : string)
    (Hopen : OpenPairedStore f = Ok s0) (Hrec : Recognized k fqdn (run ops s0) = true) :
  (Recognized k fqdn s0 = true ∧ ORevoke true k ∉ ops) ∨
  ∃ pre approver ts post, ops = pre ++ OApprove true k approver ts :: post ∧
    StatusDetail k (run pre s0) = (StatusPending, "") ∧ ORevoke true k ∉ post.
Proof.
  apply recognized_iff in Hrec as [Hk Hs]. pose proof (open_good _ _ Hopen) as Hg.
  destruct (run_paired _ _ _ Hg Hs) as [[? ?]|(pre & approver & ts & post & -> & [r Hp] & Hn)]; [left; by rewrite recognized_iff|right].
  exists pre, approver, ts, post. split_and!; [done| |done]. unfold StatusDetail.
  destruct (run_good pre s0 Hg) as [Hwf _]. rewrite (apart_l _ _ _ _ (wf_pp _ Hwf) Hp), Hp.
  by rewrite (proj2 (String.eqb_neq _ _) Hk).
Qed.

(** *** Bounds *)

Lemma step_bounded o s : o ≠ ORestart → (size s.(pending) <= DefaultPendingMax)%nat → (size s.(denied) <= maxDeniedRemembered)%nat →
  (size (step o s).(pending) <= DefaultPendingMax)%nat ∧ (size (step o s).(denied) <= maxDeniedRemembered)%nat.
Proof.
  intros Ho Hp Hd. destruct o as [ok id label ts|ok k approver ts|ok k reason ts|ok k|]; cbn [step]; [| | | |done].
  - unfold Request. destruct (negb _); [done|]. destruct (cleanPairLabel label) as [l|]; [|done].
    destruct (paired s !! _); [done|]. destruct (pending s !! _) eqn:Hpe; [done|].
    destruct (_ <=? _)%nat eqn:Hle; [done|]. breflect. unfold persist. destruct ok; cbn.
    + rewrite map_size_insert_None by done. split; [lia|]. etrans; [|exact Hd]. apply map_subseteq_size, delete_subseteq.
    + rewrite delete_insert_id by done. by rewrite restore_map.
  - unfold Approve. destruct (_ =? _)%string; [done|]. destruct (paired s !! k); [done|].
    destruct (pending s !! k) as [req|] eqn:Hpe; [|done]. unfold persist. destruct ok; cbn.
    + split; [|done]. etrans; [|exact Hp]. apply map_subseteq_size, delete_subseteq.
    + by rewrite insert_delete_id.
  - unfold Deny. destruct (cleanPairLabel reason) as [l|]; [|done]. destruct (pending s !! k) as [req|] eqn:Hpe; [|done].
    pose proof (evictDenied_size (size (<[k := mkDenied k l ts]> s.(denied))) _ (le_n _)) as Hev. unfold persist. destruct ok; cbn.
    + split; [|done]. etrans; [|exact Hp]. apply map_subseteq_size, delete_subseteq.
    + rewrite insert_delete_id by done. split; [done|]. etrans; [|exact Hev]. apply map_subseteq_size, delete_subseteq.
  - unfold Revoke. destruct (paired s !! k); [|done]. unfold persist. by destruct ok.
Qed.
End Pair.

(** ** Runs of the pairing store *)
Module PairRuns.
Import Pair.

Definition empty : PairedStore := mkStore ∅ ∅ ∅ None.
Definition laptop : VerifiedIdentity := mkIdentity "wgkey-laptop" "laptop.mesh".
Definition asked : op := ORequest true laptop "  my laptop " "2025-01-01T00:00:00Z".
Definition approved : op := OApprove true "wgkey-laptop" "ops" "2025-01-01T00:01:00Z".

Lemma pairing_survives_restart_witness :
  (run [asked; approved] empty).(pending) = ∅ ∧
  OpenPairedStore (run [asked; approved] empty).(file) = Ok (run [asked; approved] empty).
Proof.
  split; [reflexivity|]. apply (pairing_survives_restart None empty [asked; approved]); reflexivity.
Defined.
Lemma recognition_needs_approval_witness :
  Recognized "wgkey-laptop" "" (run [asked; approved] empty) = true ∧
  ((Recognized "wgkey-laptop" "" empty = true ∧ ORevoke true "wgkey-laptop" ∉ [asked; approved]) ∨
   ∃ pre approver ts post, [asked; approved] = pre ++ OApprove true "wgkey-laptop" approver ts :: post ∧
     StatusDetail "wgkey-laptop" (run pre empty) = (StatusPending, "") ∧ ORevoke true "wgkey-laptop" ∉ post).
Proof.
  split; [reflexivity|]. apply (recognition_needs_approval None empty [asked; approved] "wgkey-laptop" "laptop.mesh"); reflexivity.
Defined.

(** A store that remembers as many denials as it may, and one queued request. *)
Definition fullDenials : list DeniedRequest :=
  map (λ i, mkDenied (itoa (1000 + Z.of_nat i)) "busy" "2025-01-01T00:00:00Z") (seq 0 256).
Definition fullStore : pairedState :=
  mkPairedState 1 [mkPending "wgkey-laptop" "" "" "2025-01-02T00:00:00Z"] [] fullDenials.
(** The rollback of a denial whose write failed does not put back the denial that was
    evicted to make room for it: the requester that was told "denied: busy" is told "none"
    from then on, while the file still holds the denial. *)
Theorem failed_deny_forgets_another :
  match OpenPairedStore (Some fullStore) with
  | Ok s => let '(r, s') := Deny false "wgkey-laptop" "no" "2025-01-03T00:00:00Z" s in
            r = Err PersistFailed ∧ StatusDetail "1000" s = (StatusDenied, "busy") ∧
            StatusDetail "1000" s' = (StatusNone, "") ∧
            match OpenPairedStore s'.(file) with Ok s'' => StatusDetail "1000" s'' = (StatusDenied, "busy") | Err _ => False end
  | Err _ => False
  end.
Proof. vm_compute. done. Qed.
End PairRuns.
