(* ===== verification/Grants.v ===== *)
(** * Grants: grants on request

    [air/grant.go]: the store of written grants and pending opportunities, keyed by the
    triple (identity, verb, scope); [air/move_grant.go]: its use for moving a session. The
    store writes its whole state to a file after every change and undoes the change when
    the write fails. The texts of times are given to the operations; the texts of the rows
    are taken to be valid UTF-8, which the JSON file keeps as they are. *)
From stdpp Require Import base list strings gmap sorting.
From Stdlib Require Import ZArith Lia Ascii.
From S2P Require Import Prelude GoStd Json JsonText AirText Rows.
Open Scope Z_scope.
Open Scope mesh_scope.

Module Grants.
Import Air.

Definition maxGrantText : Z := 512.
Definition DefaultGrantPendingMax : nat := 256.
Definition grantSchemaVersion : Z := 1.

Record Grant := mkGrant {
  Identity : string; Verb : string; Scope_ : string; Once : bool; GrantedBy : string; GrantedAt : string }.
Record GrantOpportunity := mkOpp {
  oIdentity : string; oVerb : string; oScope : string; FirstSeen : string; LastSeen : string; Count : Z }.
Record grantState := mkGrantState { SchemaVersion : Z; sGrants : list Grant; sPending : list GrantOpportunity }.
Record GrantStore := mkGStore {
  grants : gmap string Grant; pending : gmap string GrantOpportunity; file : option grantState }.
Inductive grantErr := BadTriple | BadGrantedBy | TooManyPending | PersistFailed | NewerSchema.

Definition grantKey (identity verb scope : string) : string :=
  identity +:+ String "000" (verb +:+ String "000" scope).
Definition gKey (g : Grant) : string := grantKey g.(Identity) g.(Verb) g.(Scope_).
Definition oKey (p : GrantOpportunity) : string := grantKey p.(oIdentity) p.(oVerb) p.(oScope).
Definition full3 (a b c : string) : bool := negb (a =? "")%string && negb (b =? "")%string && negb (c =? "")%string.
Definition gFull (g : Grant) : bool := full3 g.(Identity) g.(Verb) g.(Scope_).
Definition oFull (p : GrantOpportunity) : bool := full3 p.(oIdentity) p.(oVerb) p.(oScope).

Definition validateGrantTriple (identity verb scope : string) : bool :=
  let field s := negb ((s =? "")%string || (maxGrantText <? strlen s) || hasControl s) in
  field identity && field verb && field scope.

(** [Grants] and [Pending], sorted; [persistLocked] writes the same rows. *)
Definition Grants (s : GrantStore) : list Grant := sortRows (λ g, [g.(Identity); g.(Verb); g.(Scope_)]) s.(grants).
Definition Pending (s : GrantStore) : list GrantOpportunity := sortRows (λ p, [p.(FirstSeen); oKey p]) s.(pending).
Definition snapshot (s : GrantStore) : grantState := mkGrantState grantSchemaVersion (Grants s) (Pending s).
Definition persist (ok : bool) (s : GrantStore) : option GrantStore :=
  if ok then Some (mkGStore s.(grants) s.(pending) (Some (snapshot s))) else None.
Definition setMaps gr pe (s : GrantStore) : GrantStore := mkGStore gr pe s.(file).

Definition OpenGrantStore (f : option grantState) : result grantErr GrantStore :=
  match f with
  | None => Ok (mkGStore ∅ ∅ None)
  | Some st =>
      if grantSchemaVersion <? st.(SchemaVersion) then Err NewerSchema
      else
        let gr := loadRows gKey gFull st.(sGrants) in
        Ok (mkGStore gr (without gr (loadRows oKey oFull st.(sPending))) f)
  end.

Definition Add (ok : bool) (identity verb scope : string) (once : bool) (grantedBy ts : string) (s : GrantStore)
    : result grantErr Grant * GrantStore :=
  if negb (validateGrantTriple identity verb scope) then (Err BadTriple, s)
  else
    let grantedBy := trimSpace grantedBy in
    if (maxGrantText <? strlen grantedBy) || hasControl grantedBy then (Err BadGrantedBy, s)
    else
      let k := grantKey identity verb scope in
      let g := mkGrant identity verb scope once grantedBy ts in
      let gr := <[k := g]> s.(grants) in
      let pe := delete k s.(pending) in
      match persist ok (setMaps gr pe s) with
      | Some s' => (Ok g, s')
      | None =>
          (Err PersistFailed,
           setMaps (match s.(grants) !! k with Some prev => <[k := prev]> gr | None => delete k gr end)
             (match s.(pending) !! k with Some prev => <[k := prev]> pe | None => pe end) s)
      end.

Definition Remove (ok : bool) (identity verb scope : string) (s : GrantStore) : result grantErr bool * GrantStore :=
  let k := grantKey identity verb scope in
  match s.(grants) !! k with
  | None => (Ok false, s)
  | Some g =>
      match persist ok (setMaps (delete k s.(grants)) s.(pending) s) with
      | Some s' => (Ok true, s')
      | None => (Err PersistFailed, setMaps (<[k := g]> (delete k s.(grants))) s.(pending) s)
      end
  end.

Definition DropOpportunity (ok : bool) (identity verb scope : string) (s : GrantStore) : result grantErr bool * GrantStore :=
  let k := grantKey identity verb scope in
  match s.(pending) !! k with
  | None => (Ok false, s)
  | Some p =>
      match persist ok (setMaps s.(grants) (delete k s.(pending)) s) with
      | Some s' => (Ok true, s')
      | None => (Err PersistFailed, setMaps s.(grants) (<[k := p]> (delete k s.(pending))) s)
      end
  end.

Definition Record_ (ok : bool) (identity verb scope ts : string) (s : GrantStore)
    : result grantErr (option GrantOpportunity * bool) * GrantStore :=
  if negb (validateGrantTriple identity verb scope) then (Err BadTriple, s)
  else
    let k := grantKey identity verb scope in
    match s.(grants) !! k, s.(pending) !! k with
    | Some _, _ => (Ok (None, false), s)
    | None, Some existing =>
        let updated := mkOpp existing.(oIdentity) existing.(oVerb) existing.(oScope) existing.(FirstSeen) ts (i64 (existing.(Count) + 1)) in
        match persist ok (setMaps s.(grants) (<[k := updated]> s.(pending)) s) with
        | Some s' => (Ok (Some updated, false), s')
        | None => (Err PersistFailed, setMaps s.(grants) (<[k := existing]> (<[k := updated]> s.(pending))) s)
        end
    | None, None =>
        if (DefaultGrantPendingMax <=? size s.(pending))%nat then (Err TooManyPending, s)
        else
          let op := mkOpp identity verb scope ts ts 1 in
          match persist ok (setMaps s.(grants) (<[k := op]> s.(pending)) s) with
          | Some s' => (Ok (Some op, true), s')
          | None => (Err PersistFailed, setMaps s.(grants) (delete k (<[k := op]> s.(pending))) s)
          end
    end.

Definition Check_ (identity verb scope : string) (s : GrantStore) : bool :=
  negb (isNone (s.(grants) !! grantKey identity verb scope)).

(** The grants of an identity under a verb. *)
Definition owned (identity verb : string) (g : Grant) : bool :=
  (g.(Identity) =? identity)%string && (g.(Verb) =? verb)%string.
Definition sortStrings (l : list string) : list string := merge_sort (rowLe (λ x, [x])) l.
Definition ScopesFor (identity verb : string) (s : GrantStore) : list string * list string :=
  let gs := List.filter (owned identity verb) (map_to_list s.(grants)).*2 in
  (sortStrings (Scope_ <$> List.filter (λ g, negb g.(Once)) gs), sortStrings (Scope_ <$> List.filter Once gs)).

(** The keys of the single-use grants, in the order they are tried. *)
Definition onceKeys (identity verb : string) (s : GrantStore) : list string :=
  sortStrings (List.filter (λ kg, owned identity verb kg.2 && kg.2.(Once)) (map_to_list s.(grants))).*1.
Definition authorizing (authorizes : string → bool) (s : GrantStore) (k : string) : bool :=
  match s.(grants) !! k with Some g => authorizes g.(Scope_) | None => false end.
Definition ConsumeOnceMatching (ok : bool) (identity verb : string) (authorizes : string → bool) (s : GrantStore)
    : result grantErr (option Grant) * GrantStore :=
  match List.find (authorizing authorizes s) (onceKeys identity verb s) with
  | None => (Ok None, s)
  | Some k =>
      match s.(grants) !! k with
      | None => (Ok None, s)
      | Some g =>
          match persist ok (setMaps (delete k s.(grants)) s.(pending) s) with
          | Some s' => (Ok (Some g), s')
          | None => (Err PersistFailed, setMaps (<[k := g]> (delete k s.(grants))) s.(pending) s)
          end
      end
  end.

(** [air/move_grant.go]. *)
Definition MoveVerb : string := "move".
Definition GrantMoveTarget (ok : bool) (destKey sessionID grantedBy ts : string) (s : GrantStore) :=
  Add ok destKey MoveVerb sessionID true grantedBy ts s.
Definition CheckMoveGrant (destKey sessionID : string) (s : GrantStore) : bool := Check_ destKey MoveVerb sessionID s.
Definition ConsumeMoveGrant (ok : bool) (destKey sessionID : string) (s : GrantStore) : result grantErr bool * GrantStore :=
  let '(r, s') := ConsumeOnceMatching ok destKey MoveVerb (λ scope, (scope =? sessionID)%string) s in
  (match r with Ok g => Ok (negb (isNone g)) | Err e => Err e end, s').
Definition RevokeMoveGrant (ok : bool) (destKey sessionID : string) (s : GrantStore) :=
  Remove ok destKey MoveVerb sessionID s.

(** *** Keys *)

Definition noNul (s : string) : Prop := ∀ c, c ∈ codes s → c ≠ 0.
Lemma noNul_cons c s : noNul (String c s) → c ≠ "000"%char ∧ noNul s.
Proof.
  intros Hn. split.
  - intros ->. apply (Hn 0); [|done]. cbn. apply elem_of_cons. by left.
  - intros z Hz. apply Hn. cbn. apply elem_of_cons. by right.
Qed.
Lemma cut_nul_inj a b x y : noNul a → noNul b → a +:+ String "000" x = b +:+ String "000" y → a = b ∧ x = y.
Proof.
  revert b. induction a as [|c a IH]; intros [|d b] Ha Hb; cbn; intros He; injection He as He; subst; try done.
  - by apply noNul_cons in Hb as [? _].
  - by apply noNul_cons in Ha as [? _].
  - apply noNul_cons in Ha as [_ Ha]. apply noNul_cons in Hb as [_ Hb].
    destruct (IH b Ha Hb) as [-> ->]; done.
Qed.
Lemma grantKey_inj i v c i' v' c' : noNul i → noNul v → noNul i' → noNul v' →
  grantKey i v c = grantKey i' v' c' → i = i' ∧ v = v' ∧ c = c'.
Proof.
  intros Hi Hv Hi' Hv' He. apply cut_nul_inj in He as [-> He]; [|done..].
  by apply cut_nul_inj in He as [-> ->].
Qed.
Lemma decodeRune_pos x l r n : decodeRune (x :: l) = (r, n) → (0 < n)%nat.
Proof. destruct l as [|b [|c [|d l]]]; cbn -[Z.ltb Z.leb]; repeat case_match; intros [= <- <-]; lia. Qed.
Lemma control_noNul s : hasControl s = false → noNul s.
Proof.
  unfold hasControl, runesOf. intros Hc z Hz ->. assert (length (codes s) ≤ String.length s)%nat as Hl by (by rewrite length_codes).
  revert Hl Hc Hz. generalize (codes s) (String.length s). intros l n. induction n as [|n IH] in l |- *; intros Hl Hc Hz.
  { destruct l; [by apply elem_of_nil in Hz|cbn in Hl; lia]. }
  destruct l as [|x l]; [by apply elem_of_nil in Hz|]. cbn [runes] in Hc.
  destruct (decodeRune (x :: l)) as [r n'] eqn:Hd. cbn [existsb] in Hc. apply orb_false_iff in Hc as [Hr Hc].
  assert (0 < n')%nat as Hn by (by eapply decodeRune_pos). apply (IH (drop n' (x :: l))); [rewrite length_drop; cbn in *; lia|done|].
  destruct (decide (1 < n')%nat) as [Hw|Hw].
  - destruct (decodeRune_wide _ _ _ Hd Hw) as [_ Hall]. rewrite <-(take_drop n' (x :: l)) in Hz.
    apply elem_of_app in Hz as [Hz|Hz]; [|done]. rewrite Forall_forall in Hall. specialize (Hall _ Hz). lia.
  - replace n' with 1%nat by lia. cbn [drop]. apply elem_of_cons in Hz as [<-|Hz]; [|done].
    cbn in Hd. injection Hd as <- <-. done.
Qed.
Lemma validateGrantTriple_ok i v c : validateGrantTriple i v c = true →
  noNul i ∧ noNul v ∧ noNul c ∧ full3 i v c = true.
Proof.
  unfold validateGrantTriple, full3. intros [[Hi Hv]%andb_prop Hc]%andb_prop.
  apply negb_true_iff in Hi, Hv, Hc. rewrite !orb_false_iff in Hi, Hv, Hc.
  destruct Hi as [[-> _] Hi], Hv as [[-> _] Hv], Hc as [[-> _] Hc].
  split_and!; [by apply control_noNul..|done].
Qed.

(** *** Sequences of operations *)

Inductive op :=
| GAdd (ok : bool) (identity verb scope : string) (once : bool) (grantedBy ts : string)
| GRemove (ok : bool) (identity verb scope : string)
| GDrop (ok : bool) (identity verb scope : string)
| GRecord (ok : bool) (identity verb scope ts : string)
| GConsume (ok : bool) (identity verb : string) (authorizes : string → bool)
| GRestart.
Definition step (o : op) (s : GrantStore) : GrantStore :=
  match o with
  | GAdd ok i v c once by_ ts => (Add ok i v c once by_ ts s).2
  | GRemove ok i v c => (Remove ok i v c s).2
  | GDrop ok i v c => (DropOpportunity ok i v c s).2
  | GRecord ok i v c ts => (Record_ ok i v c ts s).2
  | GConsume ok i v authorizes => (ConsumeOnceMatching ok i v authorizes s).2
  | GRestart => match OpenGrantStore s.(file) with Ok s' => s' | Err _ => s end
  end.
Definition run (ops : list op) (s : GrantStore) : GrantStore := fold_left (λ s o, step o s) ops s.

Record WF (s : GrantStore) : Prop := mkWF {
  wf_grants : keyed gKey gFull s.(grants);
  wf_pending : keyed oKey oFull s.(pending);
  wf_apart : apart s.(pending) s.(grants) }.
(** The file holds what is in memory. *)
Definition Written (s : GrantStore) : Prop := OpenGrantStore s.(file) = Ok s.

Lemma openGrants_wf f s : OpenGrantStore f = Ok s → WF s ∧ s.(file) = f.
Proof.
  destruct f as [st|]; cbn; [|intros [= <-]; split; [|done]; split; cbn; first [apply keyed_empty|by left]].
  destruct (_ <? _); [done|]. intros [= <-]. split; [|done]. split; cbn; [apply loadRows_keyed| |apply without_apart].
  eapply keyed_sub; [apply loadRows_keyed|apply without_sub].
Qed.
Lemma persist_written ok s s' : WF s → persist ok s = Some s' →
  ok = true ∧ s'.(grants) = s.(grants) ∧ s'.(pending) = s.(pending) ∧ Written s'.
Proof.
  intros [Hg Hp Ha]. unfold persist. destruct ok; [|done]. intros [= <-]. split_and!; try done.
  unfold Written, OpenGrantStore. cbn [file SchemaVersion snapshot sGrants sPending].
  change (grantSchemaVersion <? grantSchemaVersion) with false. cbv iota zeta. unfold Grants, Pending.
  rewrite !loadRows_sorted by done. by rewrite without_id.
Qed.
Lemma grants_setMaps_id s gr pe : gr = s.(grants) → pe = s.(pending) → setMaps gr pe s = s.
Proof. intros -> ->. by destruct s. Qed.

Lemma wf_change s gr pe : keyed gKey gFull gr → keyed oKey oFull pe → apart pe gr → WF (setMaps gr pe s).
Proof. by split. Qed.
Lemma restore_insert {A} (m : gmap string A) k r :
  match m !! k with Some d => <[k := d]> (<[k := r]> m) | None => delete k (<[k := r]> m) end = m.
Proof. destruct (m !! k) eqn:Hk; [|by apply delete_insert_id]. rewrite insert_insert_eq. by apply insert_id. Qed.

(** An operation leaves the store as it was, or writes what it leaves in memory. *)
Lemma grants_step_written o s : WF s → Written s → step o s = s ∨ Written (step o s).
Proof.
  intros Hwf Hw. pose proof Hwf as [Hg Hp Ha].
  destruct o as [ok i v c once by_ ts|ok i v c|ok i v c|ok i v c ts|ok i v auth|]; cbn [step].
  - unfold Add. destruct (validateGrantTriple i v c) eqn:Hv; cbn [negb]; [|by left]. cbv zeta.
    destruct (_ || _); [by left|]. destruct (persist _ _) eqn:Hs; cbn [snd].
    + right. eapply persist_written; [|done]. apply validateGrantTriple_ok in Hv as (_ & _ & _ & Hv).
      apply wf_change; eauto with rowdb.
    + left. apply grants_setMaps_id; [apply restore_insert|apply restore_map].
  - unfold Remove. cbv zeta. destruct (grants s !! _) eqn:Hk; [|by left]. destruct (persist _ _) eqn:Hs; cbn [snd].
    + right. eapply persist_written; [|done]. apply wf_change; eauto with rowdb.
    + left. apply grants_setMaps_id; [by apply insert_delete_id|done].
  - unfold DropOpportunity. cbv zeta. destruct (pending s !! _) eqn:Hk; [|by left]. destruct (persist _ _) eqn:Hs; cbn [snd].
    + right. eapply persist_written; [|done]. apply wf_change; eauto with rowdb.
    + left. apply grants_setMaps_id; [done|by apply insert_delete_id].
  - unfold Record_. destruct (validateGrantTriple i v c) eqn:Hv; cbn [negb]; [|by left]. cbv zeta.
    apply validateGrantTriple_ok in Hv as (_ & _ & _ & Hv).
    destruct (grants s !! _) eqn:Hgk; [by left|]. destruct (pending s !! _) as [ex|] eqn:Hpk.
    + destruct (Hp _ _ Hpk) as [Hek Hef]. destruct (persist _ _) eqn:Hs; cbn [snd].
      * right. eapply persist_written; [|done]. apply wf_change; eauto with rowdb.
      * left. apply grants_setMaps_id; [done|]. rewrite insert_insert_eq. by apply insert_id.
    + destruct (_ <=? _)%nat; [by left|]. destruct (persist _ _) eqn:Hs; cbn [snd].
      * right. eapply persist_written; [|done]. apply wf_change; eauto with rowdb.
      * left. apply grants_setMaps_id; [done|]. by apply delete_insert_id.
  - unfold ConsumeOnceMatching. destruct (List.find _ _) as [k|]; [|by left]. destruct (grants s !! k) eqn:Hk; [|by left].
    destruct (persist _ _) eqn:Hs; cbn [snd].
    + right. eapply persist_written; [|done]. apply wf_change; eauto with rowdb.
    + left. apply grants_setMaps_id; [by apply insert_delete_id|done].
  - left. by rewrite Hw.
Qed.
Lemma grants_run_written ops s : Written s → Written (run ops s).
Proof.
  revert s. induction ops as [|o ops IH]; intros s Hw; [done|]. apply IH.
  destruct (grants_step_written o s) as [->|?]; [by apply (openGrants_wf _ _ Hw)|done..].
Qed.
Lemma open_written f s : OpenGrantStore f = Ok s → Written s.
Proof. intros Ho. unfold Written. by destruct (openGrants_wf _ _ Ho) as [_ ->]. Qed.
(** Through any sequence of grants, revocations, denials, recorded opportunities, spent
    grants and restarts, whether or not their writes succeed, the file holds exactly what is
    in memory: opening it gives the store back; and no triple is both granted and pending. *)
Theorem grants_survive_restart (f : option grantState) (s0 : GrantStore) (ops : list op)
    (Hopen : OpenGrantStore f = Ok s0) :
  OpenGrantStore (run ops s0).(file) = Ok (run ops s0) ∧
  (∀ k, (run ops s0).(pending) !! k = None ∨ (run ops s0).(grants) !! k = None).
Proof.
  pose proof (grants_run_written ops s0 (open_written _ _ Hopen)) as Hw. split; [exact Hw|].
  apply (openGrants_wf _ _ Hw).
Qed.

(** *** Single use *)

(** The grant an operation spends. *)
Definition spends (o : op) (s : GrantStore) : option Grant :=
  match o with
  | GConsume ok i v auth => match (ConsumeOnceMatching ok i v auth s).1 with Ok g => g | Err _ => None end
  | _ => None
  end.
Fixpoint spent (k : string) (ops : list op) (s : GrantStore) : nat :=
  match ops with
  | [] => 0
  | o :: ops => (match spends o s with Some g => if (gKey g =? k)%string then 1 else 0 | None => 0 end + spent k ops (step o s))%nat
  end.
(** The single-use grants issued under a key. *)
Definition issues (k : string) (o : op) : bool :=
  match o with GAdd true i v c true _ _ => (grantKey i v c =? k)%string | _ => false end.
Definition issued (k : string) (ops : list op) : nat := length (List.filter (issues k) ops).
Definition onceAt (k : string) (s : GrantStore) : nat :=
  match s.(grants) !! k with Some g => if g.(Once) then 1 else 0 | None => 0 end%nat.

Lemma find_some {A} (f : A → bool) l x : List.find f l = Some x → x ∈ l ∧ f x = true.
Proof. intros [H1 H2]%List.find_some. split; [by apply list_elem_of_In|done]. Qed.
Lemma sortStrings_elem x l : x ∈ sortStrings l ↔ x ∈ l.
Proof. unfold sortStrings. by rewrite merge_sort_Permutation. Qed.
Lemma filter_elem {A} (f : A → bool) l x : x ∈ List.filter f l ↔ x ∈ l ∧ f x = true.
Proof. by rewrite !list_elem_of_In, List.filter_In. Qed.
Lemma onceKeys_elem i v s k : k ∈ onceKeys i v s ↔ ∃ g, s.(grants) !! k = Some g ∧ owned i v g = true ∧ g.(Once) = true.
Proof.
  unfold onceKeys. rewrite sortStrings_elem, list_elem_of_fmap. split.
  - intros ([k' g] & -> & Hin). apply filter_elem in Hin as [Hin [Ho Hn]%andb_prop].
    exists g. by rewrite <-elem_of_map_to_list.
  - intros (g & Hk & Ho & Hn). exists (k, g). split; [done|]. apply filter_elem. rewrite elem_of_map_to_list. cbn. by rewrite Ho, Hn.
Qed.
(** What [ConsumeOnceMatching] does. *)
Lemma consume_spec ok i v auth s r s' : ConsumeOnceMatching ok i v auth s = (r, s') →
  (r = Ok None ∧ s' = s ∧ ∀ k g, s.(grants) !! k = Some g → owned i v g = true → g.(Once) = true → auth g.(Scope_) = false) ∨
  ∃ k g, s.(grants) !! k = Some g ∧ owned i v g = true ∧ g.(Once) = true ∧ auth g.(Scope_) = true ∧
    ((ok = true ∧ r = Ok (Some g) ∧ s'.(grants) = delete k s.(grants) ∧ s'.(pending) = s.(pending)) ∨
     (ok = false ∧ r = Err PersistFailed ∧ s' = s)).
Proof.
  unfold ConsumeOnceMatching. destruct (List.find _ _) as [k|] eqn:Hf.
  - apply find_some in Hf as [(g & Hk & Ho & Hn)%onceKeys_elem Ha]. unfold authorizing in Ha. rewrite Hk in Ha |- *.
    intros He. right. exists k, g. split_and!; try done. unfold persist in He. destruct ok; injection He as <- <-; [by left|right].
    split_and!; try done. apply grants_setMaps_id; [by apply insert_delete_id|done].
  - intros [= <- <-]. left. split_and!; try done. intros k g Hk Ho Hn. apply not_true_iff_false. intros Ha.
    assert (k ∈ onceKeys i v s) as Hin%list_elem_of_In by (apply onceKeys_elem; by eauto).
    apply (List.find_none _ _ Hf) in Hin. unfold authorizing in Hin. rewrite Hk in Hin. congruence.
Qed.
Lemma add_grants ok i v c once by_ ts s : (Add ok i v c once by_ ts s).2.(grants) = s.(grants) ∨
  (ok = true ∧ validateGrantTriple i v c = true ∧
   ∃ by_', (Add ok i v c once by_ ts s).2.(grants) = <[grantKey i v c := mkGrant i v c once by_' ts]> s.(grants)).
Proof.
  unfold Add. destruct (validateGrantTriple i v c) eqn:Hv; cbn [negb]; [|by left]. cbv zeta. destruct (_ || _); [by left|].
  unfold persist. destruct ok; cbn; [right; split_and!; by eauto|left]. apply restore_insert.
Qed.
Lemma record_grants ok i v c ts s : (Record_ ok i v c ts s).2.(grants) = s.(grants).
Proof. unfold Record_, persist. repeat case_match; simplify_eq; done. Qed.
Lemma drop_grants ok i v c s : (DropOpportunity ok i v c s).2.(grants) = s.(grants).
Proof. unfold DropOpportunity, persist. repeat case_match; simplify_eq; done. Qed.
Lemma remove_grants ok i v c s : (Remove ok i v c s).2.(grants) = if ok then delete (grantKey i v c) s.(grants) else s.(grants).
Proof.
  unfold Remove, persist. cbv zeta. destruct (s.(grants) !! _) eqn:Hk.
  - destruct ok; cbn; [done|by apply insert_delete_id].
  - destruct ok; cbn; [|done]. symmetry. by apply delete_id.
Qed.
Lemma onceAt_sub k s s' : s'.(grants) ⊆ s.(grants) → (onceAt k s' <= onceAt k s)%nat.
Proof.
  intros Hs. unfold onceAt. destruct (s'.(grants) !! k) as [g|] eqn:Hk; [|lia]. by rewrite (lookup_weaken _ _ _ _ Hk Hs).
Qed.
Lemma step_once k o s : WF s → Written s →
  (match spends o s with Some g => if (gKey g =? k)%string then 1 else 0 | None => 0 end + onceAt k (step o s)
   <= onceAt k s + if issues k o then 1 else 0)%nat.
Proof.
  intros Hwf Hw. destruct o as [ok i v c once by_ ts|ok i v c|ok i v c|ok i v c ts|ok i v auth|]; cbn [step spends issues].
  - destruct (add_grants ok i v c once by_ ts s) as [He|(-> & _ & by_' & He)]; unfold onceAt; rewrite He; [lia|].
    destruct (grantKey i v c =? k)%string eqn:Hk; breflect.
    + rewrite Hk, lookup_insert_eq. cbn. destruct once; [lia|cbn; lia].
    + rewrite lookup_insert_ne by done. destruct once; lia.
  - pose proof (onceAt_sub k s (Remove ok i v c s).2) as H. rewrite remove_grants in H.
    destruct ok; specialize (H (ltac:(first [apply delete_subseteq|done]))); lia.
  - unfold onceAt. rewrite drop_grants. lia.
  - unfold onceAt. rewrite record_grants. lia.
  - destruct (ConsumeOnceMatching ok i v auth s) as [r s'] eqn:Hc. cbn [fst snd].
    destruct (consume_spec _ _ _ _ _ _ _ Hc) as [(-> & -> & _)|(k' & g & Hk' & _ & Hn & _ & [(_ & -> & Hg & _)|(_ & -> & ->)])]; [lia| |lia].
    destruct (wf_grants _ Hwf _ _ Hk') as [Hkey _]. rewrite Hkey. unfold onceAt. rewrite Hg. destruct (k' =? k)%string eqn:He; breflect.
    + rewrite <-He, lookup_delete_eq, Hk', Hn. lia.
    + rewrite lookup_delete_ne by done. lia.
  - rewrite Hw. lia.
Qed.
Lemma run_once k ops s : Written s → (spent k ops s + onceAt k (run ops s) <= onceAt k s + issued k ops)%nat.
Proof.
  revert s. induction ops as [|o ops IH]; intros s Hw; [cbn; lia|]. cbn [spent issued run fold_left].
  assert (Written (step o s)) as Hw' by exact (grants_run_written [o] s Hw).
  specialize (IH _ Hw'). pose proof (step_once k o s (proj1 (openGrants_wf _ _ Hw)) Hw) as Hs.
  unfold issued in *. cbn [List.filter]. unfold run in *. destruct (issues k o); cbn [length]; lia.
Qed.
(** Single-use grants are single use: over any sequence of operations, failed writes and
    restarts included, the calls that a triple's single-use grants pay for are at most the
    single-use grants an operator has written for it, plus one if the store already held one.
    The grant a session move consumes is such a grant. *)
Theorem once_grants_are_spent_once (f : option grantState) (s0 : GrantStore) (ops : list op) (k : string)
    (Hopen : OpenGrantStore f = Ok s0) :
  (spent k ops s0 <= onceAt k s0 + issued k ops)%nat.
Proof. pose proof (run_once k ops s0 (open_written _ _ Hopen)). lia. Qed.

(** *** Where grants come from *)

Lemma check_iff i v c s : Check_ i v c s = true ↔ is_Some (s.(grants) !! grantKey i v c).
Proof. unfold Check_. destruct (s.(grants) !! _); cbn; by split. Qed.
Lemma step_check o s k : Written s → is_Some ((step o s).(grants) !! k) → is_Some (s.(grants) !! k) ∨
  ∃ i v c once by_ ts, o = GAdd true i v c once by_ ts ∧ validateGrantTriple i v c = true ∧ grantKey i v c = k.
Proof.
  intros Hw. destruct o as [ok i v c once by_ ts|ok i v c|ok i v c|ok i v c ts|ok i v auth|]; cbn [step]; intros Hs.
  - destruct (add_grants ok i v c once by_ ts s) as [He|(-> & Hv & by_' & He)]; rewrite He in Hs; [by left|].
    destruct (decide (k = grantKey i v c)) as [-> |Hne]; [right; by eauto 10|]. rewrite lookup_insert_ne in Hs by done. by left.
  - rewrite remove_grants in Hs. left. destruct ok; [|done]. destruct Hs as [g [_ ?]%lookup_delete_Some]. by eauto.
  - rewrite drop_grants in Hs. by left.
  - rewrite record_grants in Hs. by left.
  - destruct (ConsumeOnceMatching ok i v auth s) as [r s'] eqn:Hc. cbn [snd] in Hs. left.
    destruct (consume_spec _ _ _ _ _ _ _ Hc) as [(_ & -> & _)|(k' & g & _ & _ & _ & _ & [(_ & _ & Hg & _)|(_ & _ & ->)])]; [done| |done].
    rewrite Hg in Hs. destruct Hs as [g' [_ ?]%lookup_delete_Some]. by eauto.
  - rewrite Hw in Hs. by left.
Qed.
(** A capability exists only where an operator wrote it: when [Check] accepts a triple
    after any sequence of operations, it accepted it at the start, or the sequence holds a
    written [Add] for exactly that identity, verb and scope. A grant for one scope, verb or
    identity never confers another, and recording an opportunity confers nothing. *)
Theorem grants_come_from_add (f : option grantState) (s0 : GrantStore) (ops : list op) (identity verb scope : string)
    (Hopen : OpenGrantStore f = Ok s0) (Hvalid : validateGrantTriple identity verb scope = true)
    (Hcheck : Check_ identity verb scope (run ops s0) = true) :
  Check_ identity verb scope s0 = true ∨
  ∃ once by_ ts, GAdd true identity verb scope once by_ ts ∈ ops.
Proof.
  rewrite check_iff in Hcheck |- *. apply validateGrantTriple_ok in Hvalid as (Hi & Hv & _).
  pose proof (open_written _ _ Hopen) as Hw. clear Hopen. induction ops as [|o ops IH] using rev_ind; [by left|].
  unfold run in Hcheck. rewrite fold_left_app in Hcheck. cbn [fold_left] in Hcheck.
  apply step_check in Hcheck as [Hs|(i & v & c & once & by_ & ts & -> & Ht & Hk)]; [| |by apply grants_run_written].
  - destruct (IH Hs) as [?|(once & by_ & ts & Hin)]; [by left|right]. exists once, by_, ts. apply elem_of_app. by left.
  - right. apply validateGrantTriple_ok in Ht as (Hi' & Hv' & _). apply grantKey_inj in Hk as (-> & -> & ->); [|done..].
    exists once, by_, ts. apply elem_of_app. right. by apply list_elem_of_singleton.
Qed.
End Grants.

(** ** Runs of the grant store *)
Module GrantRuns.
Import Grants.

Definition empty : GrantStore := mkGStore ∅ ∅ None.
Definition moveOps : list op :=
  [GAdd true "wgkey-b" MoveVerb "s1" true "ops" "2025-01-01T00:00:00Z";
   GConsume false "wgkey-b" MoveVerb (λ scope, (scope =? "s1")%string);
   GRestart;
   GConsume true "wgkey-b" MoveVerb (λ scope, (scope =? "s1")%string);
   GConsume true "wgkey-b" MoveVerb (λ scope, (scope =? "s1")%string)].

Lemma grants_survive_restart_witness :
  OpenGrantStore (run moveOps empty).(file) = Ok (run moveOps empty) ∧
  (∀ k, (run moveOps empty).(pending) !! k = None ∨ (run moveOps empty).(grants) !! k = None).
Proof. apply (grants_survive_restart None empty moveOps). reflexivity. Defined.
Lemma once_grants_are_spent_once_witness :
  spent (grantKey "wgkey-b" MoveVerb "s1") moveOps empty = 1%nat ∧
  (spent (grantKey "wgkey-b" MoveVerb "s1") moveOps empty <= 0 + 1)%nat.
Proof.
  split; [vm_compute; reflexivity|].
  apply (once_grants_are_spent_once None empty moveOps (grantKey "wgkey-b" MoveVerb "s1")). reflexivity.
Defined.
Definition readNotes : list op := [GRecord true "wgkey-a" "kg" "notes" "t0"; GAdd true "wgkey-a" "kg" "notes" false "ops" "t1"].
Lemma grants_come_from_add_witness :
  Check_ "wgkey-a" "kg" "notes" (run readNotes empty) = true ∧
  (Check_ "wgkey-a" "kg" "notes" empty = true ∨ ∃ once by_ ts, GAdd true "wgkey-a" "kg" "notes" once by_ ts ∈ readNotes).
Proof.
  split; [vm_compute; reflexivity|]. apply (grants_come_from_add None empty readNotes); vm_compute; reflexivity.
Defined.
End GrantRuns.
