(* ===== verification/KgBridge.v ===== *)
(** * KgBridge: grants on request for the knowledge graph

    [kgGrantBridge] of [cmd/meshmcp/airkggrant.go] over the grant store ([Grants]) and the
    pairing store ([Pairing]): the corpora a request is authorised against, the single-use
    grant it spends and the opportunity a denied request leaves; with [know.Allowed] of
    [air/know/scope.go] and the operator's static grants of [cmd/meshmcp/airkgserve.go].
    A request reads the grants in one critical section and spends one in another ([look]
    and [settle]), so that two requests can interleave. *)
From stdpp Require Import base list strings gmap.
From Stdlib Require Import ZArith Lia Ascii.
From S2P Require Import Prelude GoStd Policy Capability Rows Pairing Grants.
Open Scope Z_scope.
Open Scope mesh_scope.

Module Kg.
Import Grants.

Record KnowOp := mkOp { Corpus : string; Write : bool }.
Definition claims (corpora : list string) : Cap.CapabilityClaims :=
  Cap.mkClaims 0 "" "" "" "" [] corpora false 0 0 0 "" "" "" "".
Definition grantsExactWrite (grants : list string) (corpus : string) : bool :=
  existsb (λ g, (g =? corpus)%string) grants.
Definition Allowed (c : Cap.CapabilityClaims) (op : KnowOp) : bool :=
  if (op.(Corpus) =? "")%string then false
  else match c.(Cap.Corpora) with
  | [] => false
  | corpora => if op.(Write) then grantsExactWrite corpora op.(Corpus) else Cap.AllowsCorpus c op.(Corpus)
  end.

Record kgGrant := mkKg { pattern : string; corpora : list string }.
Definition kgPatternMatches (pattern pubKey fqdn : string) : bool :=
  match cutPrefix "pubkey:" pattern with
  | Some key => negb (key =? "")%string && (key =? pubKey)%string
  | None => pathMatchOk pattern fqdn
  end.
(** Texts in order of first appearance. *)
Fixpoint dedupFrom (seen l : list string) : list string :=
  match l with
  | [] => []
  | v :: l => if existsb (String.eqb v) seen then dedupFrom seen l else v :: dedupFrom (v :: seen) l
  end.
Definition dedupeStrings (l : list string) : list string := dedupFrom [] l.
Definition corporaFor (g : list kgGrant) (pubKey fqdn : string) : list string :=
  if (pubKey =? "")%string && (fqdn =? "")%string then []
  else dedupeStrings (List.filter (λ c, negb (c =? "")%string)
         (concat (corpora <$> List.filter (λ e, kgPatternMatches e.(pattern) pubKey fqdn) g))).

Definition grantVerbKG : string := "kg".
Record kgGrantBridge := mkBridge {
  static : list kgGrant; dyn : option GrantStore; paired : option Pair.PairedStore }.
(** A record of the shared ledger: method, scope, decision. *)
Record grantAudit := mkAudit { aMethod : string; aScope : string; aDecision : string }.

(** What the request saw when it read the grants. *)
Inductive view :=
| Static (cs : list string)                 (* no dynamic grants are consulted *)
| Base (cs : list string)                   (* static or persistent grants authorise *)
| Tipped (base all : list string)           (* only with the single-use grants *)
| Denied (cs : list string).
Definition look (b : kgGrantBridge) (pubKey fqdn corpus : string) (write : bool) : view :=
  let st := corporaFor b.(static) pubKey fqdn in
  match b.(dyn) with
  | None => Static st
  | Some d =>
      if (pubKey =? "")%string || (corpus =? "")%string then Static st
      else
        let op := mkOp corpus write in
        let '(persistent, once) := ScopesFor pubKey grantVerbKG d in
        let base := dedupeStrings (st ++ persistent) in
        if Allowed (claims base) op then Base base
        else
          let all := dedupeStrings (base ++ once) in
          if Allowed (claims all) op then Tipped base all else Denied st
  end.
(** The rest of the request, on the stores as they are by then. [ok]: the store's write
    succeeds; [lim]: the rate limiter lets the record through. *)
Definition settle (ok lim : bool) (ts pubKey fqdn corpus : string) (write : bool) (v : view) (b : kgGrantBridge)
    : list string * list grantAudit * kgGrantBridge :=
  match v, b.(dyn) with
  | Static cs, _ | Base cs, _ => (cs, [], b)
  | Tipped base all, Some d =>
      let authorizes scope := Allowed (claims (base ++ [scope])) (mkOp corpus write) in
      let '(r, d') := ConsumeOnceMatching ok pubKey grantVerbKG authorizes d in
      (all, match r with Ok (Some g) => [mkAudit "grant.consume" g.(Scope_) "allow"] | _ => [] end,
       mkBridge b.(static) (Some d') b.(paired))
  | Denied cs, Some d =>
      if match b.(paired) with Some p => Pair.Recognized pubKey fqdn p | None => false end then
        let '(r, d') := Record_ ok pubKey grantVerbKG corpus ts d in
        (cs, match r with
             | Ok (Some opp, true) => if lim then [mkAudit "grant.request" opp.(oScope) "deny"] else []
             | _ => []
             end, mkBridge b.(static) (Some d') b.(paired))
      else (cs, [], b)
  | Tipped _ cs, None | Denied cs, None => (cs, [], b)
  end.
Definition corporaForRequest (ok lim : bool) (ts pubKey fqdn corpus : string) (write : bool) (b : kgGrantBridge) :=
  settle ok lim ts pubKey fqdn corpus write (look b pubKey fqdn corpus write) b.

(** *** What authorises a request *)

(** One granted scope covers an operation: a write exactly, a read as a pattern. *)
Definition covers (op : KnowOp) (scope : string) : bool :=
  if op.(Write) then (scope =? op.(Corpus))%string else matchPattern scope op.(Corpus).

Lemma allowed_iff cs op : Allowed (claims cs) op = true ↔ op.(Corpus) ≠ "" ∧ ∃ c, c ∈ cs ∧ covers op c = true.
Proof.
  unfold Allowed. cbn [claims Cap.Corpora]. destruct (op.(Corpus) =? "")%string eqn:He; breflect.
  { split; [done|]. by intros [? _]. }
  assert (∀ f : string → bool, existsb f cs = true ↔ ∃ c, c ∈ cs ∧ f c = true) as Hex.
  { intros f. rewrite existsb_exists. by setoid_rewrite list_elem_of_In. }
  destruct cs as [|c0 cs]; [split; [done|]; intros (_ & c & Hc & _); by apply elem_of_nil in Hc|].
  unfold covers, grantsExactWrite, Cap.AllowsCorpus, Cap.matchAnyGlob. cbn [Cap.Corpora claims].
  destruct op.(Write); rewrite Hex; naive_solver.
Qed.
Lemma dedup_elem seen l x : x ∈ dedupFrom seen l ↔ x ∈ l ∧ x ∉ seen.
Proof.
  assert (∀ v s, existsb (String.eqb v) s = true ↔ v ∈ s) as Hex.
  { intros v s. rewrite existsb_exists, list_elem_of_In. split; [by intros (y & Hy & ->%String.eqb_eq)|].
    intros Hv. exists v. split; [done|apply String.eqb_refl]. }
  induction l as [|v l IH] in seen |- *; cbn [dedupFrom]; [split; [intros H; by apply elem_of_nil in H|]; intros [H _]; by apply elem_of_nil in H|].
  destruct (existsb (String.eqb v) seen) eqn:He.
  - rewrite IH, elem_of_cons. apply Hex in He. naive_solver.
  - rewrite !elem_of_cons, IH, elem_of_cons. apply not_true_iff_false in He. rewrite Hex in He.
    destruct (decide (x = v)); naive_solver.
Qed.
Lemma dedupe_elem l x : x ∈ dedupeStrings l ↔ x ∈ l.
Proof. unfold dedupeStrings. rewrite dedup_elem. split; [by intros [? _]|]. intros Hx. split; [done|apply not_elem_of_nil]. Qed.
Lemma scopesFor_elem i v d x once : x ∈ (if once : bool then (ScopesFor i v d).2 else (ScopesFor i v d).1) ↔
  ∃ k g, d.(grants) !! k = Some g ∧ owned i v g = true ∧ g.(Once) = once ∧ x = g.(Scope_).
Proof.
  unfold ScopesFor. cbn [fst snd]. destruct once; rewrite sortStrings_elem, list_elem_of_fmap; split.
  all: try (intros (g & -> & [[Hin Ho]%filter_elem Hn]%filter_elem); apply list_elem_of_fmap in Hin as ([k g'] & -> & Hin);
            apply elem_of_map_to_list in Hin; exists k, g'; by rewrite ?negb_true_iff in Hn).
  all: intros (k & g & Hk & Ho & Hn & ->); exists g; split; [done|]; rewrite !filter_elem; split_and!; [|done|by rewrite Hn];
    apply list_elem_of_fmap; exists (k, g); split; [done|by apply elem_of_map_to_list].
Qed.
Lemma corporaFor_elem g pub fqdn x : x ∈ corporaFor g pub fqdn →
  ∃ e, e ∈ g ∧ kgPatternMatches e.(pattern) pub fqdn = true ∧ x ∈ e.(corpora).
Proof.
  unfold corporaFor. destruct (_ && _); [intros H; by apply elem_of_nil in H|].
  rewrite dedupe_elem, filter_elem. intros [Hin _]. apply list_elem_of_In, in_concat in Hin as (l & Hl & Hx).
  apply list_elem_of_In, list_elem_of_fmap in Hl as (e & -> & He). apply filter_elem in He as [He Hm].
  exists e. split_and!; [done|done|by apply list_elem_of_In].
Qed.

(** The operator's static grants cover the operation. *)
Definition staticCovers (b : kgGrantBridge) (pubKey fqdn : string) (op : KnowOp) : Prop :=
  ∃ e c, e ∈ b.(static) ∧ kgPatternMatches e.(pattern) pubKey fqdn = true ∧ c ∈ e.(corpora) ∧ covers op c = true.
(** A written grant of the caller's covers the operation. *)
Definition grantCovers (d : GrantStore) (pubKey : string) (op : KnowOp) (k : string) (g : Grant) : Prop :=
  d.(grants) !! k = Some g ∧ owned pubKey grantVerbKG g = true ∧ covers op g.(Scope_) = true.

Lemma static_allowed b pub fqdn op : Allowed (claims (corporaFor b.(static) pub fqdn)) op = true → staticCovers b pub fqdn op.
Proof. intros (_ & c & Hc & Hcov)%allowed_iff. apply corporaFor_elem in Hc as (e & He & Hm & Hin). by exists e, c. Qed.
Lemma base_allowed b d pub fqdn op :
  Allowed (claims (dedupeStrings (corporaFor b.(static) pub fqdn ++ (ScopesFor pub grantVerbKG d).1))) op = true →
  staticCovers b pub fqdn op ∨ ∃ k g, grantCovers d pub op k g ∧ g.(Once) = false.
Proof.
  intros (_ & c & Hc & Hcov)%allowed_iff. rewrite dedupe_elem in Hc. apply elem_of_app in Hc as [Hc|Hc].
  - left. apply corporaFor_elem in Hc as (e & He & Hm & Hin). by exists e, c.
  - right. apply (scopesFor_elem _ _ _ _ false) in Hc as (k & g & Hk & Ho & Hn & ->). by exists k, g.
Qed.
Lemma look_cases b pub fqdn corpus write : let op := mkOp corpus write in
  match look b pub fqdn corpus write with
  | Static cs => Allowed (claims cs) op = true → staticCovers b pub fqdn op
  | Base cs => ∃ d, b.(dyn) = Some d ∧ (staticCovers b pub fqdn op ∨ ∃ k g, grantCovers d pub op k g ∧ g.(Once) = false)
  | Tipped base all => ∃ d, b.(dyn) = Some d ∧ Allowed (claims base) op = false ∧ Allowed (claims all) op = true ∧
      ∃ k g, grantCovers d pub op k g ∧ g.(Once) = true
  | Denied cs => ∃ d, b.(dyn) = Some d ∧ Allowed (claims cs) op = false
  end.
Proof.
  intros op. unfold look. destruct (b.(dyn)) as [d|] eqn:Hd; [|apply static_allowed].
  destruct (_ || _); [apply static_allowed|]. rewrite (surjective_pairing (ScopesFor pub grantVerbKG d)).
  fold op. set (st := corporaFor b.(static) pub fqdn). set (base := dedupeStrings (st ++ _)).
  destruct (Allowed (claims base) op) eqn:Hb.
  { exists d. split; [done|]. by apply base_allowed. }
  assert (∀ c, c ∈ base → op.(Corpus) ≠ "" → covers op c = false) as Hno.
  { intros c Hc Hne. apply not_true_iff_false. intros Hcov. apply not_true_iff_false in Hb. apply Hb, allowed_iff. by eauto. }
  destruct (Allowed (claims (dedupeStrings (base ++ _))) op) eqn:Ha.
  - exists d. split_and!; [done..|]. apply allowed_iff in Ha as (Hne & c & Hc & Hcov). rewrite dedupe_elem in Hc.
    apply elem_of_app in Hc as [Hc|Hc]; [by rewrite Hno in Hcov|].
    apply (scopesFor_elem _ _ _ _ true) in Hc as (k & g & Hk & Ho & Hn & ->). by exists k, g.
  - exists d. split; [done|]. apply not_true_iff_false. intros (Hne & c & Hc & Hcov)%allowed_iff.
    rewrite Hno in Hcov; [done| |done]. apply dedupe_elem, elem_of_app. by left.
Qed.
Lemma tip_covers base op c : Allowed (claims base) op = false → Allowed (claims (base ++ [c])) op = true → covers op c = true.
Proof.
  intros Hb (Hne & x & Hx & Hcov)%allowed_iff. apply elem_of_app in Hx as [Hx|Hx%list_elem_of_singleton]; [|by subst].
  exfalso. apply not_true_iff_false in Hb. apply Hb, allowed_iff. by eauto.
Qed.
Lemma tips base op c : op.(Corpus) ≠ "" → covers op c = true → Allowed (claims (base ++ [c])) op = true.
Proof. intros Hne Hcov. apply allowed_iff. split; [done|]. exists c. split; [|done]. apply elem_of_app. right. by apply list_elem_of_singleton. Qed.

(** What a request to the knowledge graph is authorised by, when no other request runs
    in between. Its claims cover the operation only if an operator's static grant does, a
    persistent grant of the caller does, or a single-use grant of the caller does; in the
    last case, when the store's write succeeds, exactly one single-use grant that covers
    the operation is removed and its consumption recorded. A request that is denied leaves
    the grants as they are, and nothing at all is kept of it unless the peer is recognised. *)
Theorem kg_requests_follow_grants (lim : bool) (ts pubKey fqdn corpus : string) (write : bool) (b : kgGrantBridge) :
  let op := mkOp corpus write in
  let '(cs, audit, b') := corporaForRequest true lim ts pubKey fqdn corpus write b in
  if Allowed (claims cs) op then
    (staticCovers b pubKey fqdn op ∧ b' = b) ∨
    ∃ d k g, b.(dyn) = Some d ∧ grantCovers d pubKey op k g ∧
      if g.(Once) then
        ∃ d', b'.(dyn) = Some d' ∧ d'.(grants) = delete k d.(grants) ∧ audit = [mkAudit "grant.consume" g.(Scope_) "allow"]
      else b' = b
  else
    (grants <$> b'.(dyn)) = (grants <$> b.(dyn)) ∧
    ((match b.(paired) with Some p => Pair.Recognized pubKey fqdn p | None => false end) = false → b' = b ∧ audit = []).
Proof.
  intros op. unfold corporaForRequest. pose proof (look_cases b pubKey fqdn corpus write) as Hl. fold op in Hl. cbv zeta in Hl.
  destruct (look b pubKey fqdn corpus write) as [cs|cs|base all|cs]; cbn [settle].
  - destruct (Allowed _ _) eqn:Ha; [left; by auto|done].
  - destruct (Allowed _ _); [|done]. destruct Hl as (d & Hd & [Hs|(k & g & Hg & Hn)]); [by left|right].
    exists d, k, g. by rewrite Hn.
  - destruct Hl as (d & Hd & Hb & Ha & k & g & (Hk & Ho & Hcov) & Hn). unfold settle. rewrite Hd.
    assert (op.(Corpus) ≠ "") as Hne by (by apply allowed_iff in Ha as [? _]).
    destruct (ConsumeOnceMatching _ _ _ _ _) as [r d'] eqn:Hc. rewrite Ha.
    destruct (consume_spec _ _ _ _ _ _ _ Hc) as [(_ & _ & Hno)|(k' & g' & Hk' & Ho' & Hn' & Ha' & [(_ & -> & Hg' & _)|(? & _)])]; [|right|done].
    { exfalso. specialize (Hno _ _ Hk Ho Hn). fold op in Hno. by rewrite tips in Hno. }
    exists d, k', g'. rewrite Hn'. split_and!; [done|split_and!; [done|done|by apply (tip_covers base)]|]. by exists d'.
  - destruct Hl as (d & Hd & Ha). unfold settle. rewrite Hd. destruct (match b.(paired) with Some _ => _ | None => _ end) eqn:Hr.
    + destruct (Record_ _ _ _ _ _ _) as [r d'] eqn:Hc. rewrite Ha. cbn [dyn]. split; [|done].
      pose proof (record_grants true pubKey grantVerbKG corpus ts d) as Hg. rewrite Hc in Hg. cbn in Hg |- *. by rewrite Hg.
    + rewrite Ha, Hd. by split.
Qed.
End Kg.

(** ** Runs of the bridge *)
Module KgRuns.
Import Grants Kg.

Definition agent : string := "wgkey-agent".
(** A store with one single-use grant for the corpus [notes]. *)
Definition oneGrant : GrantStore := (Add true agent "kg" "notes" true "ops" "2025-01-01T00:00:00Z" (mkGStore ∅ ∅ None)).2.
Definition bridge : kgGrantBridge := mkBridge [] (Some oneGrant) None.

(** A single-use grant can authorise more than one request. The corpora a request is
    authorised with are read before the grant is consumed, and kept whatever the consumption
    returns: two requests that read the store before either consumes are both authorised by
    the one grant, and a request whose write of the store fails is authorised and leaves the
    grant for the next. *)
Theorem once_grant_authorises_twice :
  let op := mkOp "notes" false in
  let v1 := look bridge agent "" "notes" false in
  let v2 := look bridge agent "" "notes" false in
  let '(cs1, a1, b1) := settle true true "" agent "" "notes" false v1 bridge in
  let '(cs2, a2, b2) := settle true true "" agent "" "notes" false v2 b1 in
  Allowed (claims cs1) op = true ∧ Allowed (claims cs2) op = true ∧
  (∃ d, b1.(dyn) = Some d ∧ d.(grants) = ∅) ∧ length a1 = 1%nat ∧ a2 = [] ∧
  let '(cs3, a3, b3) := corporaForRequest false true "" agent "" "notes" false bridge in
  Allowed (claims cs3) op = true ∧ a3 = [] ∧ b3 = bridge.
Proof. vm_compute. split_and!; try done. eexists. split; [done|]. done. Qed.
End KgRuns.
