(* ===== verification/Server.v ===== *)
(** * Server: sessions on one gateway, fail-over and live move

    [session/server.go] (attach, resume, checkpoint, remove, the capture of the replayed
    input), [session/failover.go] (lease renewal, the standby sweep, shutdown) and
    [session/move.go] (the three-phase move of a live session), over the lease store
    ([Store]). A gateway is its configuration, its live sessions and its pre-warmed ones.
    The store is called outside the gateway's mutex: a record that a call works on was read
    earlier and may be stale, so it is an argument. A store call succeeds, fails without
    effect, or fails after it took effect ([fault]). *)
From stdpp Require Import base list strings gmap.
From Stdlib Require Import ZArith Lia.
From Stdlib Require Import Strings.Byte.
From S2P Require Import Prelude GoStd Json Classify Frame Endpoint Store.
Open Scope Z_scope.
Open Scope mesh_scope.

Module Srv.

Inductive MigrationMode := MigrateHandshake | MigrateFull | MigrateBackend.
#[export] Instance MigrationMode_eq_dec : EqDecision MigrationMode.
Proof. solve_decision. Defined.
Record Meta := mkMeta { PeerFQDN : string; PeerAddr : string; PeerKey : string; SessionID : string }.

(** [backend] is a handle of a spawned backend, [reaper] whether the timer is armed. *)
Record serverSession := mkSess {
  ep : endpoint; backend : nat; creatorKey : string; reaper : bool; active : Z; meta : Meta;
  leaseGen : Z; replay : list byte; captureDone : bool }.
Record warmSession := mkWarm { wps : PersistedSession; wbackend : nat; wmeta : Meta; wgen : Z }.
(** [store]: a session store is configured; [lease]: it supports leases. *)
Record Server := mkServer {
  instance : string; ttl : Z; migMode : MigrationMode; store : bool; lease : bool; sweepEnabled : bool;
  sessions : gmap string serverSession; warming : gmap string warmSession;
  nextBackend : nat; openBackends : list nat }.
Notation records := (gmap string PersistedSession).

Definition setSessions m (g : Server) : Server :=
  mkServer g.(instance) g.(ttl) g.(migMode) g.(store) g.(lease) g.(sweepEnabled) m g.(warming) g.(nextBackend) g.(openBackends).
Definition setWarming m (g : Server) : Server :=
  mkServer g.(instance) g.(ttl) g.(migMode) g.(store) g.(lease) g.(sweepEnabled) g.(sessions) m g.(nextBackend) g.(openBackends).
Definition setBackends n l (g : Server) : Server :=
  mkServer g.(instance) g.(ttl) g.(migMode) g.(store) g.(lease) g.(sweepEnabled) g.(sessions) g.(warming) n l.
Definition closeBackend (h : nat) (g : Server) : Server :=
  setBackends g.(nextBackend) (List.filter (λ x, negb (x =? h)%nat) g.(openBackends)) g.
Definition setReaper (b : bool) (ss : serverSession) : serverSession :=
  mkSess ss.(ep) ss.(backend) ss.(creatorKey) b ss.(active) ss.(meta) ss.(leaseGen) ss.(replay) ss.(captureDone).
Definition setActive (n : Z) (ss : serverSession) : serverSession :=
  mkSess ss.(ep) ss.(backend) ss.(creatorKey) ss.(reaper) n ss.(meta) ss.(leaseGen) ss.(replay) ss.(captureDone).
Definition setEp (e : endpoint) (ss : serverSession) : serverSession :=
  mkSess e ss.(backend) ss.(creatorKey) ss.(reaper) ss.(active) ss.(meta) ss.(leaseGen) ss.(replay) ss.(captureDone).
Definition setReplay (r : list byte) (b : bool) (ss : serverSession) : serverSession :=
  mkSess ss.(ep) ss.(backend) ss.(creatorKey) ss.(reaper) ss.(active) ss.(meta) ss.(leaseGen) r b.

Inductive srvErr :=
| errSessionIdentity | errSessionNotFound | errTakeoverRaced | ErrStore | ErrSpawn | ErrRestore | ErrBadID | ErrNoSession
| errMoveNoStore | errMoveModeUnsupported | errMoveNoIdentity | errMoveDegraded | errMoveAlreadyLive
| errMoveNotWarming | errMoveUnauthorized | errMoveNoState | errMoveNotQuiescent | errMoveProtocol.
#[export] Instance srvErr_eq_dec : EqDecision srvErr.
Proof. solve_decision. Defined.

(** ** Calls of the store *)

Inductive fault := Fine | Lost | Late.
Definition call {R} (f : fault) (op : records → R * records) (st : records) : option R * records :=
  match f with
  | Fine => let '(r, st') := op st in (Some r, st')
  | Lost => (None, st)
  | Late => (None, (op st).2)
  end.

(** ** The replayed input *)

Definition bytesString (l : list byte) : string := of_codes (Z_of_byte <$> l).
(** The lines that end in a newline. *)
Fixpoint completeLines (cur : list byte) (l : list byte) : list (list byte) :=
  match l with
  | [] => []
  | b :: l => if Byte.eqb b x0a then rev cur :: completeLines [] l else completeLines (b :: cur) l
  end.
(** The [id] a line decodes to: [None] absent or null. *)
Definition setID (a : option string) (m : string * string * json) : option (option string) :=
  let '(k, raw, v) := m in
  Some (if setsField "id" k then match v with JNull => None | _ => Some raw end else a).
Definition carriesID (line : string) : bool :=
  match parseJSON line with
  | Some (JObj ms) => match foldMembers setID ms None with Some (Some raw) => negb (raw =? "null")%string | _ => false end
  | _ => false
  end.
Definition countRequests (buf : list byte) : Z :=
  Z.of_nat (length (List.filter (λ l, let l := trimSpace (bytesString l) in negb (l =? "")%string && carriesID l) (completeLines [] buf))).

Definition maxReplayBytes : Z := 8 * 2 ^ 20.
Fixpoint isPrefix (p l : list byte) : bool :=
  match p, l with
  | [], _ => true
  | a :: p, b :: l => Byte.eqb a b && isPrefix p l
  | _, [] => false
  end.
Fixpoint bytesContains (l p : list byte) : bool :=
  isPrefix p l || match l with [] => false | _ :: l => bytesContains l p end.
Definition initializedText : list byte := (λ a, byte_of_Z (ord a)) <$> String.list_ascii_of_string "notifications/initialized".

(** One payload of the peer, before it is written to the backend; [None]: the session is
    refused because its input would outgrow the bound. *)
Definition capture (g : Server) (p : list byte) (ss : serverSession) : option serverSession :=
  if g.(store) && negb (bool_decide (g.(migMode) = MigrateBackend)) then
    if bool_decide (g.(migMode) = MigrateFull) || negb ss.(captureDone) then
      if maxReplayBytes <? len ss.(replay) + len p then None
      else
        let r := ss.(replay) ++ p in
        Some (setReplay r (ss.(captureDone) || (bool_decide (g.(migMode) = MigrateHandshake) && bytesContains r initializedText)) ss)
    else Some ss
  else Some ss.

(** ** Checkpoint and remove *)

Definition sid (ss : serverSession) : string := hexEncode ss.(ep).(eid).
Definition persisted (g : Server) (ss : serverSession) : PersistedSession :=
  let ps := snapshot ss.(ep) ss.(replay) (countRequests ss.(replay)) in
  mkPS ps.(ID) g.(instance) ss.(creatorKey) ss.(meta).(PeerFQDN) ss.(meta).(PeerAddr) ps.(SendSeq) ps.(Acked) ps.(RecvSeq)
    ps.(SendBuf) ps.(Replay) ps.(ReplayResponses) ps.(Generation) ps.(LeaseExpiry) ps.(SchemaVersion).
(** The store afterwards, and whether the session was found fenced: [remove] follows. *)
Definition checkpoint (f : fault) (g : Server) (ss : serverSession) (st : records) : records * bool :=
  if negb g.(store) then (st, false)
  else if g.(lease) then
    if ss.(leaseGen) =? 0 then (st, false)
    else let '(r, st') := call f (MemStore.SaveIfOwned (persisted g ss) g.(instance) ss.(leaseGen)) st in
         (st', match r with Some ok => negb ok | None => false end)
  else ((call f (λ st, (tt, MemStore.Save (persisted g ss) st)) st).2, false).

Definition remove (f : fault) (id : string) (g : Server) (st : records) : Server * records :=
  match g.(sessions) !! id with
  | None => (g, st)
  | Some ss =>
      (closeBackend ss.(backend) (setSessions (delete id g.(sessions)) g),
       if g.(store) then (call f (λ st, (tt, MemStore.DeleteIfOwner id g.(instance) st)) st).2 else st)
  end.

(** ** Spawning and resuming *)

(** [spawnBackendForResume], or the factory: [ok] says whether the backend starts (and
    takes the replayed input); a backend that fails is closed again. *)
Definition spawn (ok : bool) (g : Server) : option nat * Server :=
  if ok then (Some g.(nextBackend), setBackends (S g.(nextBackend)) (g.(nextBackend) :: g.(openBackends)) g)
  else (None, setBackends (S g.(nextBackend)) g.(openBackends) g).
Definition registerResumed (f : fault) (ps : PersistedSession) (e : endpoint) (b : nat) (m : Meta) (gen act : Z) (reap : bool)
    (g : Server) (st : records) : serverSession * Server * records :=
  let ss := mkSess e b ps.(CreatorKey) reap act m gen ps.(Replay) true in
  (ss, setSessions (<[hexEncode e.(eid) := ss]> g.(sessions)) g, (checkpoint f g ss st).1).
Definition withSID (id : string) (m : Meta) : Meta := mkMeta m.(PeerFQDN) m.(PeerAddr) m.(PeerKey) id.
Definition resumeFromPersisted (ok : bool) (f : fault) (ps : PersistedSession) (e : endpoint) (m : Meta) (gen act : Z) (reap : bool)
    (g : Server) (st : records) : result srvErr serverSession * Server * records :=
  let m := withSID ps.(ID) m in
  match spawn ok g with
  | (None, g) => (Err ErrSpawn, g, st)
  | (Some b, g) => let '(ss, g, st) := registerResumed f ps e b m gen act reap g st in (Ok ss, g, st)
  end.

(** The faults of the calls of one operation, in order. *)
Definition rehydrate (ok : bool) (f1 f2 : fault) (now : Z) (ps : PersistedSession) (m : Meta) (g : Server) (st : records)
    : result srvErr serverSession * Server * records :=
  match restoreEndpoint ps with
  | None => (Err ErrRestore, g, st)
  | Some e =>
      if g.(lease) then
        match call f1 (MemStore.TakeoverLease ps.(ID) g.(instance) ps.(Generation) g.(ttl) now) st with
        | (None, st) => (Err ErrStore, g, st)
        | (Some None, st) => (Err errTakeoverRaced, g, st)
        | (Some (Some l), st) => resumeFromPersisted ok f2 ps e m l.(lGeneration) 1 false g st
        end
      else resumeFromPersisted ok f2 ps e m 0 1 false g st
  end.

Definition takeoverAttempts : nat := 3.
(** The attempts of [attach] to resume; [loads] are the records [Load] returned, one per
    attempt. *)
Fixpoint tryResume (n : nat) (ok : bool) (f1 f2 : fault) (now : Z) (loads : list (option PersistedSession)) (m : Meta)
    (g : Server) (st : records) : result srvErr serverSession * Server * records :=
  match n with
  | O => (Err errTakeoverRaced, g, st)
  | S n =>
      match loads with
      | Some ps :: loads =>
          if negb (ps.(CreatorKey) =? m.(PeerKey))%string then (Err errSessionIdentity, g, st)
          else match rehydrate ok f1 f2 now ps m g st with
               | (Err errTakeoverRaced, g, st) => tryResume n ok f1 f2 now loads m g st
               | r => r
               end
      | _ => (Err errSessionNotFound, g, st)
      end
  end.

(** [attach]. [newID]: the id drawn for a fresh session. The session and whether it was
    resumed. *)
Definition attach (ok : bool) (f1 f2 : fault) (now : Z) (newID : sessionID) (loads : list (option PersistedSession))
    (id : sessionID) (m : Meta) (g : Server) (st : records) : result srvErr (serverSession * bool) * Server * records :=
  if negb (isZero id) then
    match g.(sessions) !! hexEncode id with
    | Some ss =>
        if negb (ss.(creatorKey) =? m.(PeerKey))%string then (Err errSessionIdentity, g, st)
        else
          let ss := setActive (ss.(active) + 1) (setReaper false ss) in
          (Ok (ss, true), setSessions (<[hexEncode id := ss]> g.(sessions)) g, st)
    | None =>
        if g.(store) then
          let '(r, g, st) := tryResume takeoverAttempts ok f1 f2 now loads m g st in
          (match r with Ok ss => Ok (ss, true) | Err e => Err e end, g, st)
        else (Err errSessionNotFound, g, st)
    end
  else
    let m := withSID (hexEncode newID) m in
    match spawn ok g with
    | (None, g) => (Err ErrSpawn, g, st)
    | (Some b, g) =>
        let '(gen, st) :=
          if g.(lease) then
            match call f1 (MemStore.AcquireLease (hexEncode newID) g.(instance) 0 g.(ttl) now) st with
            | (Some (Some l), st) => (l.(lGeneration), st)
            | (_, st) => (0, st)
            end
          else (0, st) in
        let ss := mkSess (newEndpoint newID) b m.(PeerKey) false 1 m gen [] false in
        (Ok (ss, false), setSessions (<[hexEncode newID := ss]> g.(sessions)) g, st)
    end.

(** [handleExit] of the session registered under [id]. *)
Definition handleExit (f : fault) (id : string) (g : Server) (st : records) : Server * records :=
  match g.(sessions) !! id with
  | None => (g, st)
  | Some ss =>
      if ss.(ep).(closed) then remove f id g st
      else
        let ss := setActive (ss.(active) - 1) ss in
        let ss := if (ss.(active) <=? 0) && negb ss.(reaper) then setReaper true ss else ss in
        (setSessions (<[id := ss]> g.(sessions)) g, st)
  end.

(** ** Lease maintenance *)

Definition sweepMargin (g : Server) : Z := 2 * g.(ttl).
(** One session of [renewOnce]. *)
Definition renewOne (f1 f2 : fault) (now : Z) (id : string) (g : Server) (st : records) : Server * records :=
  match g.(sessions) !! id with
  | None => (g, st)
  | Some ss =>
      if ss.(leaseGen) <=? 0 then (g, st)
      else match call f1 (MemStore.RenewLease id g.(instance) ss.(leaseGen) g.(ttl) now) st with
           | (Some None, st) => remove f2 id g st
           | (_, st) => (g, st)
           end
  end.
Definition adoptable (now : Z) (g : Server) (ps : PersistedSession) : bool :=
  if (ps.(ID) =? "")%string || (ps.(CreatorKey) =? "")%string || (ps.(Store.PeerFQDN) =? "")%string then false
  else if sessionSchemaVersion <? ps.(SchemaVersion) then false
  else if ps.(Generation) =? 0 then false
  else if (ps.(Owner) =? g.(instance))%string then false
  else if (ps.(Owner) =? "")%string then true
  else if ps.(LeaseExpiry) <=? 0 then false
  else ps.(LeaseExpiry) + sweepMargin g <? now.
(** [adopt] up to its claim: the lease it was granted. *)
Definition adoptClaim (f : fault) (now : Z) (ps : PersistedSession) (g : Server) (st : records) : option Lease * records :=
  match parseSessionID ps.(ID) with
  | None => (None, st)
  | Some _ =>
      let '(r, st) := call f (MemStore.AcquireLease ps.(ID) g.(instance) ps.(Generation) g.(ttl) now) st in
      (match r with Some l => l | None => None end, st)
  end.
Definition release (f : fault) (id : string) (gen : Z) (g : Server) (st : records) : records :=
  (call f (MemStore.ReleaseLease id g.(instance) gen) st).2.
(** The rest of [adopt]; [cur] is what the second [Load] returned. *)
Definition adoptFinish (ok : bool) (f1 f2 : fault) (id : string) (l : Lease) (cur : option PersistedSession) (g : Server) (st : records)
    : Server * records :=
  match cur with
  | Some cur =>
      if (cur.(CreatorKey) =? "")%string || (cur.(Store.PeerFQDN) =? "")%string then (g, release f1 id l.(lGeneration) g st)
      else
        let m := mkMeta cur.(Store.PeerFQDN) cur.(Store.PeerAddr) cur.(CreatorKey) "" in
        match g.(sessions) !! id with
        | Some _ => (g, release f1 id l.(lGeneration) g st)
        | None =>
            match restoreEndpoint cur with
            | None => (g, release f1 id l.(lGeneration) g st)
            | Some e =>
                match resumeFromPersisted ok f2 cur e m l.(lGeneration) 0 true g st with
                | (Ok _, g, st) => (g, st)
                | (Err _, g, st) => (g, release f1 id l.(lGeneration) g st)
                end
            end
        end
  | None => (g, release f1 id l.(lGeneration) g st)
  end.
(** One session of [Shutdown]. *)
Definition shutdownOne (f1 f2 : fault) (id : string) (g : Server) (st : records) : Server * records :=
  match g.(sessions) !! id with
  | None => (g, st)
  | Some ss =>
      let g' := closeBackend ss.(backend) (setSessions (delete id g.(sessions)) g) in
      let st := (checkpoint f1 g ss st).1 in
      (g', if g.(lease) && (0 <? ss.(leaseGen)) then release f2 id ss.(leaseGen) g st else st)
  end.

(** ** Moving a live session *)

Definition moveSupportedMode (m : MigrationMode) : bool :=
  bool_decide (m = MigrateHandshake) || bool_decide (m = MigrateBackend).
Definition orElse (a b : string) : string := if (a =? "")%string then b else a.
Definition PrepareMove (ok : bool) (ps : PersistedSession) (m : Meta) (g : Server) : option srvErr * Server :=
  if negb (g.(store) && g.(lease)) then (Some errMoveNoStore, g)
  else if negb (moveSupportedMode g.(migMode)) then (Some errMoveModeUnsupported, g)
  else if (ps.(ID) =? "")%string || (ps.(CreatorKey) =? "")%string then (Some errMoveNoIdentity, g)
  else if ps.(Generation) =? 0 then (Some errMoveDegraded, g)
  else match parseSessionID ps.(ID) with
  | None => (Some ErrBadID, g)
  | Some id =>
      let m := mkMeta (orElse m.(PeerFQDN) ps.(Store.PeerFQDN)) (orElse m.(PeerAddr) ps.(Store.PeerAddr))
                 (orElse m.(PeerKey) ps.(CreatorKey)) ps.(ID) in
      match spawn ok g with
      | (None, g) => (Some ErrSpawn, g)
      | (Some b, g) =>
          let k := hexEncode id in
          match g.(sessions) !! k with
          | Some _ => (Some errMoveAlreadyLive, closeBackend b g)
          | None =>
              let g' := setWarming (<[k := mkWarm ps b m ps.(Generation)]> g.(warming)) g in
              (None, match g.(warming) !! k with Some old => closeBackend old.(wbackend) g' | None => g' end)
          end
      end
  end.

(** What the identity gate answers; [None]: no gate is configured. *)
Definition gate := option (result srvErr bool).
(** [cur]: what [Load] returned after the compare-and-swap, won or lost. *)
Definition CommitMove (f1 f2 f3 : fault) (now : Z) (id : string) (authorize : gate) (cur : result srvErr (option PersistedSession))
    (g : Server) (st : records) : result srvErr bool * Server * records :=
  match parseSessionID id with
  | None => (Err ErrBadID, g, st)
  | Some sid =>
      let k := hexEncode sid in
      let warm := g.(warming) !! k in
      let g := setWarming (delete k g.(warming)) g in
      match g.(sessions) !! k, warm with
      | Some _, Some w => (Ok true, closeBackend w.(wbackend) g, st)
      | Some _, None => (Ok true, g, st)
      | None, None => (Err errMoveNotWarming, g, st)
      | None, Some w =>
          let discarded := closeBackend w.(wbackend) g in
          match authorize with
          | None => (Err errMoveUnauthorized, discarded, st)
          | Some (Err e) => (Err e, discarded, st)
          | Some (Ok false) => (Err errMoveUnauthorized, discarded, st)
          | Some (Ok true) =>
              match call f1 (MemStore.TakeoverLease id g.(instance) w.(wgen) g.(ttl) now) st with
              | (None, st) => (Err ErrStore, discarded, st)
              | (Some None, st) =>
                  match cur with
                  | Ok (Some c) => (Ok (c.(Owner) =? g.(instance))%string, discarded, st)
                  | _ => (Ok false, discarded, st)
                  end
              | (Some (Some l), st) =>
                  match cur with
                  | Ok (Some c) =>
                      match restoreEndpoint c with
                      | None => (Err ErrRestore, discarded, release f2 id l.(lGeneration) g st)
                      | Some e =>
                          let '(_, g, st) := registerResumed f3 c e w.(wbackend) w.(wmeta) l.(lGeneration) 0 true g st in
                          (Ok true, g, st)
                      end
                  | _ => (Err errMoveNoState, discarded, release f2 id l.(lGeneration) g st)
                  end
              end
          end
      end
  end.
Definition AbortMove (id : string) (g : Server) : Server :=
  match parseSessionID id with
  | None => g
  | Some sid =>
      match g.(warming) !! hexEncode sid with
      | Some w => closeBackend w.(wbackend) (setWarming (delete (hexEncode sid) g.(warming)) g)
      | None => g
      end
  end.

(** The source: [FreezeForMove], with [drainForMove], and [YieldAfterMove]. *)
Definition drainForMove (g : Server) (ss : serverSession) : bool :=
  match ss.(ep).(inbound) with [] => true | _ => bool_decide (g.(migMode) = MigrateBackend) end.
Definition FreezeForMove (f : fault) (id : string) (g : Server) (st : records) : option srvErr * Server * records :=
  match parseSessionID id with
  | None => (Some ErrBadID, g, st)
  | Some sid =>
      match g.(sessions) !! hexEncode sid with
      | None => (Some ErrNoSession, g, st)
      | Some ss =>
          if ss.(leaseGen) =? 0 then (Some errMoveDegraded, g, st)
          else
            let ss := setEp (detach ss.(ep)) ss in
            let g := setSessions (<[hexEncode sid := ss]> g.(sessions)) g in
            if drainForMove g ss then (None, g, (checkpoint f g ss st).1) else (Some errMoveNotQuiescent, g, st)
      end
  end.
Definition YieldAfterMove (f : fault) (id : string) (g : Server) (st : records) : Server * records :=
  match parseSessionID id with None => (g, st) | Some sid => remove f (hexEncode sid) g st end.

(** ** The control connection of a move *)

Inductive moveFrameType := moveKindPrepare | moveKindCommit | moveKindAbort | moveKindOther.
Record moveFrame := mkMove { fType : moveFrameType; fSessionID : string; fCreatorKey : string }.
Inductive moveReply := Ready | Refuse | Committed | CASLost.
(** What the environment does while a frame is handled: the record [Load] returns (or its
    error), whether the backend starts, the gate, the faults, whether the reply is sent. *)
Record moveEnv := mkMoveEnv {
  loaded : result srvErr (option PersistedSession); spawnOk : bool; gateSays : gate;
  cf1 : fault; cf2 : fault; cf3 : fault; cnow : Z; sent : bool }.
(** [ServeMoveControl]: the frames that arrive, then the connection drops. A prepared session
    that was not committed is aborted when the handler returns. *)
Fixpoint serveMove (frames : list (moveFrame * moveEnv)) (prepared : string) (g : Server) (st : records)
    : list moveReply * Server * records :=
  let drop g := if (prepared =? "")%string then g else AbortMove prepared g in
  match frames with
  | [] => ([], drop g, st)
  | (fr, en) :: frames =>
      match fr.(fType) with
      | moveKindPrepare =>
          match en.(loaded) with
          | Ok (Some ps) =>
              if negb (fr.(fCreatorKey) =? "")%string && negb (ps.(CreatorKey) =? fr.(fCreatorKey))%string then
                let '(rs, g, st) := serveMove frames prepared g st in (Refuse :: rs, g, st)
              else
                match PrepareMove en.(spawnOk) ps (mkMeta ps.(Store.PeerFQDN) ps.(Store.PeerAddr) ps.(CreatorKey) "") g with
                | (Some _, g) => let '(rs, g, st) := serveMove frames prepared g st in (Refuse :: rs, g, st)
                | (None, g) =>
                    if en.(sent) then let '(rs, g, st) := serveMove frames fr.(fSessionID) g st in (Ready :: rs, g, st)
                    else ([], AbortMove fr.(fSessionID) g, st)
                end
          | _ => let '(rs, g, st) := serveMove frames prepared g st in (Refuse :: rs, g, st)
          end
      | moveKindCommit =>
          match CommitMove en.(cf1) en.(cf2) en.(cf3) en.(cnow) fr.(fSessionID) en.(gateSays) en.(loaded) g st with
          | (Ok true, g, st) => ([Committed], g, st)
          | (_, g, st) => let '(rs, g, st) := serveMove frames "" g st in (CASLost :: rs, g, st)
          end
      | moveKindAbort => ([], drop g, st)
      | moveKindOther => ([], drop g, st)
      end
  end.
Definition ServeMoveControl (frames : list (moveFrame * moveEnv)) (g : Server) (st : records) : result srvErr (list moveReply) * Server * records :=
  if negb (g.(store) && g.(lease)) then (Err errMoveNoStore, g, st)
  else let '(rs, g, st) := serveMove frames "" g st in (Ok rs, g, st).
End Srv.
