(* ===== verification/Gateways.v ===== *)
(** * Gateways: several gateways over one session store

    The gateways of [Server] run against one store, each call interleaved with the others'
    in any order, with crashes, stale reads and store faults. Whose identity a session is
    bound to, through fail-over, adoption and moves; what a move does to the source, the
    destination and the stored state; what a control connection leaves behind. *)
From stdpp Require Import base list strings gmap.
From Stdlib Require Import ZArith Lia.
From Stdlib Require Import Strings.Byte.
From S2P Require Import Prelude GoStd Json Classify Frame Endpoint Store Server.
Open Scope Z_scope.
Open Scope mesh_scope.

Module Gws.
Import Srv.

(** ** Steps *)

(** One action of a gateway. *)
Inductive act :=
| AOpen (ok : bool) (f1 f2 : fault) (now : Z) (newID : sessionID) (m : Meta)
| AAttach (ok : bool) (f1 f2 : fault) (now : Z) (loads : list (option PersistedSession)) (id : sessionID) (m : Meta)
| ACheckpoint (f : fault) (id : string)
| ATraffic (id : string) (e : endpoint)
| ACapture (id : string) (p : list byte)
| ARemove (f : fault) (id : string)
| AExit (f : fault) (id : string)
| ARenew (f1 f2 : fault) (now : Z) (id : string)
| AClaim (f : fault) (now : Z) (ps : PersistedSession)
| AFinish (ok : bool) (f1 f2 : fault) (l : Lease) (id : string) (cur : option PersistedSession)
| AShutdown (f1 f2 : fault) (id : string)
| APrepare (ok : bool) (ps : PersistedSession)
| ACommit (f1 f2 f3 : fault) (now : Z) (id : string) (authorize : gate) (cur : result srvErr (option PersistedSession))
| AAbort (id : string)
| AFreeze (f : fault) (id : string)
| AYield (f : fault) (id : string).

Definition apply (a : act) (g : Server) (st : records) : Server * records :=
  match a with
  | AOpen ok f1 f2 now newID m => let '(_, g, st) := attach ok f1 f2 now newID [] zeroID m g st in (g, st)
  | AAttach ok f1 f2 now loads id m => let '(_, g, st) := attach ok f1 f2 now zeroID loads id m g st in (g, st)
  | ACheckpoint f id => match g.(sessions) !! id with Some ss => (g, (checkpoint f g ss st).1) | None => (g, st) end
  | ATraffic id e =>
      match g.(sessions) !! id with
      | Some ss => if bool_decide (e.(eid) = ss.(ep).(eid)) then (setSessions (<[id := setEp e ss]> g.(sessions)) g, st) else (g, st)
      | None => (g, st)
      end
  | ACapture id p =>
      match g.(sessions) !! id with
      | Some ss => match capture g p ss with Some ss' => (setSessions (<[id := ss']> g.(sessions)) g, st) | None => remove Fine id g st end
      | None => (g, st)
      end
  | ARemove f id => remove f id g st
  | AExit f id => handleExit f id g st
  | ARenew f1 f2 now id => renewOne f1 f2 now id g st
  | AClaim f now ps => if adoptable now g ps then (g, (adoptClaim f now ps g st).2) else (g, st)
  | AFinish ok f1 f2 l id cur => adoptFinish ok f1 f2 id l cur g st
  | AShutdown f1 f2 id => shutdownOne f1 f2 id g st
  | APrepare ok ps => ((PrepareMove ok ps (mkMeta ps.(Store.PeerFQDN) ps.(Store.PeerAddr) ps.(CreatorKey) "") g).2, st)
  | ACommit f1 f2 f3 now id auth cur => let '(_, g, st) := CommitMove f1 f2 f3 now id auth cur g st in (g, st)
  | AAbort id => (AbortMove id g, st)
  | AFreeze f id => let '(_, g, st) := FreezeForMove f id g st in (g, st)
  | AYield f id => YieldAfterMove f id g st
  end.

(** The gateways by instance, the store, every record the store ever held, and the key that
    opened each session. *)
Record cluster := mkCluster {
  gws : gmap string Server; st : records; hist : list PersistedSession; opened : gmap string string }.
(** A record read at some time under [id]. *)
Definition readAs (c : cluster) (id : string) (ps : PersistedSession) : Prop := ps ∈ c.(hist) ∧ ps.(ID) = id.
Definition readable (c : cluster) (id : string) (o : option PersistedSession) : Prop :=
  match o with Some ps => readAs c id ps | None => True end.
(** The records an action works on were read from the store, and a new id is fresh. *)
Definition allowed (c : cluster) (a : act) : Prop :=
  match a with
  | AOpen _ _ _ _ newID _ => length newID = sessionIDLen ∧ c.(opened) !! hexEncode newID = None
  | AAttach _ _ _ _ loads id _ => isZero id = false ∧ Forall (readable c (hexEncode id)) loads
  | AClaim _ _ ps | APrepare _ ps => ps ∈ c.(hist)
  | AFinish _ _ _ _ id cur => readable c id cur
  | ACommit _ _ _ _ id _ (Ok cur) => readable c id cur
  | _ => True
  end.
Definition openedBy (a : act) (o : gmap string string) : gmap string string :=
  match a with AOpen _ _ _ _ newID m => <[hexEncode newID := m.(PeerKey)]> o | _ => o end.
Inductive step : cluster → cluster → Prop :=
| step_start c g : g.(sessions) = ∅ → g.(warming) = ∅ → c.(gws) !! g.(instance) = None →
    step c (mkCluster (<[g.(instance) := g]> c.(gws)) c.(st) c.(hist) c.(opened))
| step_crash c i : step c (mkCluster (delete i c.(gws)) c.(st) c.(hist) c.(opened))
| step_act c i g a g' st' : c.(gws) !! i = Some g → allowed c a → apply a g c.(st) = (g', st') →
    step c (mkCluster (<[i := g']> c.(gws)) st' (c.(hist) ++ (map_to_list st').*2) (openedBy a c.(opened))).
Definition initial : cluster := mkCluster ∅ ∅ [] ∅.
Definition reachable (c : cluster) : Prop := rtc step initial c.

(** ** Whose session it is *)

(** A key that is empty or the one that opened the session. *)
Definition keyOf (o : gmap string string) (id key : string) : Prop := ∃ k, o !! id = Some k ∧ (key = "" ∨ key = k).
Definition okIDs (o : gmap string string) : Prop := ∀ id k, o !! id = Some k → ∃ b, id = hexEncode b ∧ length b = sessionIDLen.
Definition okRec (o : gmap string string) (ps : PersistedSession) : Prop := keyOf o ps.(ID) ps.(CreatorKey).
Definition okStore (o : gmap string string) (st : records) : Prop := ∀ id ps, st !! id = Some ps → ps.(ID) = id ∧ okRec o ps.
Definition okSess (o : gmap string string) (id : string) (ss : serverSession) : Prop :=
  hexEncode ss.(ep).(eid) = id ∧ keyOf o id ss.(creatorKey) ∧ keyOf o id ss.(meta).(PeerKey).
Definition okServer (o : gmap string string) (g : Server) : Prop :=
  (∀ id ss, g.(sessions) !! id = Some ss → okSess o id ss) ∧
  (∀ id w, g.(warming) !! id = Some w → keyOf o id w.(wmeta).(PeerKey) ∧ w.(wgen) ≠ 0).
Record okCluster (c : cluster) : Prop := mkOk {
  ok_ids : okIDs c.(opened);
  ok_store : okStore c.(opened) c.(st);
  ok_hist : ∀ ps, ps ∈ c.(hist) → okRec c.(opened) ps;
  ok_gws : ∀ i g, c.(gws) !! i = Some g → okServer c.(opened) g }.

Lemma keyOf_mono o o' id k : o ⊆ o' → keyOf o id k → keyOf o' id k.
Proof. intros Hs (k0 & Hk & Hor). exists k0. split; [by eapply lookup_weaken|done]. Qed.
Lemma okStore_mono o o' st : o ⊆ o' → okStore o st → okStore o' st.
Proof. intros Hs Hst id ps Hp. destruct (Hst _ _ Hp). split; [done|by eapply keyOf_mono]. Qed.
Lemma okServer_mono o o' g : o ⊆ o' → okServer o g → okServer o' g.
Proof.
  intros Hs [H1 H2]. split; [|intros id w Hw; destruct (H2 _ _ Hw); split; [by eapply keyOf_mono|done]].
  intros id ss Hss. destruct (H1 _ _ Hss) as (? & ? & ?). split_and!; [done|by eapply keyOf_mono..].
Qed.
Lemma keyOf_empty o id key : is_Some (o !! id) → key = "" → keyOf o id key.
Proof. intros [k Hk] ->. exists k. by auto. Qed.
Lemma keyOf_opened o id key : keyOf o id key → is_Some (o !! id).
Proof. intros (k & Hk & _). by eauto. Qed.

(** *** The store's operations *)
Section StoreSteps.
Context (o : gmap string string).
Lemma call_ok {R} f (op : records → R * records) st r st' :
  okStore o st → (okStore o st → okStore o (op st).2) → call f op st = (r, st') → okStore o st'.
Proof. intros Hst Hop. unfold call. destruct f; [destruct (op st); intros [= <- <-]; by apply Hop|by intros [= <- <-]|]. intros [= <- <-]. by apply Hop. Qed.
Lemma insert_ok id ps st : okStore o st → ps.(ID) = id → okRec o ps → okStore o (<[id := ps]> st).
Proof. intros Hst Hid Hr id' ps' [[<- <-]|[_ Hp]]%lookup_insert_Some; [done|by apply Hst]. Qed.
Lemma granted_ok id own gen ttl now st : okStore o st → is_Some (o !! id) → okStore o (<[id := (granted (st !! id) id own gen ttl now).1]> st).
Proof.
  intros Hst Ho. apply insert_ok; [done|done|]. unfold okRec. cbn. destruct (st !! id) as [cur|] eqn:Hc; cbn; [|by apply keyOf_empty].
  destruct (Hst _ _ Hc) as [Hid Hr]. unfold okRec in Hr. by rewrite Hid in Hr.
Qed.
Lemma acquire_ok id own eg ttl now st : okStore o st → is_Some (o !! id) → okStore o (MemStore.AcquireLease id own eg ttl now st).2.
Proof. intros Hst Ho. unfold MemStore.AcquireLease. destruct (canAcquire _ _ _ _); [|done]. by apply granted_ok. Qed.
Lemma takeover_ok id own eg ttl now st : okStore o st → is_Some (o !! id) → okStore o (MemStore.TakeoverLease id own eg ttl now st).2.
Proof. intros Hst Ho. unfold MemStore.TakeoverLease. destruct (canTakeover _ _); [|done]. by apply granted_ok. Qed.
Lemma renew_ok id own gen ttl now st : okStore o st → okStore o (MemStore.RenewLease id own gen ttl now st).2.
Proof.
  intros Hst. unfold MemStore.RenewLease. destruct (st !! id) as [cur|] eqn:Hc; [|done]. destruct (holds _ _ _); [|done].
  destruct (Hst _ _ Hc) as [Hid Hr]. by apply insert_ok.
Qed.
Lemma releaseLease_ok id own gen st : okStore o st → okStore o (MemStore.ReleaseLease id own gen st).2.
Proof.
  intros Hst. unfold MemStore.ReleaseLease. destruct (st !! id) as [cur|] eqn:Hc; [|done]. destruct (holds _ _ _); [|done].
  destruct (Hst _ _ Hc) as [Hid Hr]. by apply insert_ok.
Qed.
Lemma saveIfOwned_ok ps own gen st : okStore o st → okRec o ps → okStore o (MemStore.SaveIfOwned ps own gen st).2.
Proof.
  intros Hst Hr. unfold MemStore.SaveIfOwned. destruct (st !! _) as [cur|] eqn:Hc; [|done]. destruct (holds _ _ _); [|done]. by apply insert_ok.
Qed.
Lemma deleteIfOwner_ok id own st : okStore o st → okStore o (MemStore.DeleteIfOwner id own st).
Proof.
  intros Hst. unfold MemStore.DeleteIfOwner. destruct (st !! id) as [cur|]; [|done]. destruct (_ =? _)%string; [|done].
  intros id' ps' [_ Hp]%lookup_delete_Some. by apply Hst.
Qed.
Lemma release_ok f id gen g st : okStore o st → okStore o (release f id gen g st).
Proof.
  intros Hst. unfold release. destruct (call f _ st) as [r st'] eqn:Hc. eapply call_ok; [done| |done]. intros _. by apply releaseLease_ok.
Qed.
Lemma persisted_ok g id ss : okSess o id ss → okRec o (persisted g ss) ∧ (persisted g ss).(ID) = id.
Proof. intros (Hid & Hk & _). unfold okRec. cbn. by rewrite Hid. Qed.
Lemma checkpoint_ok f g id ss st : okStore o st → okSess o id ss → okStore o (checkpoint f g ss st).1.
Proof.
  intros Hst Hss. destruct (persisted_ok g id ss Hss) as [Hr Hid]. unfold checkpoint. destruct (negb _); [done|].
  destruct g.(lease).
  - destruct (_ =? 0); [done|]. destruct (call f _ st) as [r st'] eqn:Hc. eapply call_ok; [done| |done]. intros _. by apply saveIfOwned_ok.
  - destruct (call f _ st) as [r st'] eqn:Hc. cbn. eapply call_ok; [done| |done]. intros _. by apply insert_ok.
Qed.
End StoreSteps.

(** *** The gateway's operations *)
Section ServerSteps.
Context (o : gmap string string) (Hids : okIDs o).
Definition okBoth (g : Server) (st : records) : Prop := okServer o g ∧ okStore o st.

Lemma okS_insert id ss g : okServer o g → okSess o id ss → okServer o (setSessions (<[id := ss]> g.(sessions)) g).
Proof. intros [H1 H2] Hss. split; [|done]. cbn [sessions warming setSessions setWarming]. intros id' ss' [[<- <-]|[_ ?]]%lookup_insert_Some; [done|by apply H1]. Qed.
Lemma okS_delete id g : okServer o g → okServer o (setSessions (delete id g.(sessions)) g).
Proof. intros [H1 H2]. split; [|done]. cbn [sessions warming setSessions setWarming]. intros id' ss' [_ ?]%lookup_delete_Some. by apply H1. Qed.
Lemma okW_insert id w g : okServer o g → keyOf o id w.(wmeta).(PeerKey) → w.(wgen) ≠ 0 → okServer o (setWarming (<[id := w]> g.(warming)) g).
Proof. intros [H1 H2] Hw Hn. split; [done|]. cbn [sessions warming setSessions setWarming]. intros id' w' [[<- <-]|[_ ?]]%lookup_insert_Some; [done|by apply H2]. Qed.
Lemma okW_delete id g : okServer o g → okServer o (setWarming (delete id g.(warming)) g).
Proof. intros [H1 H2]. split; [done|]. cbn [sessions warming setSessions setWarming]. intros id' w' [_ ?]%lookup_delete_Some. by apply H2. Qed.
Lemma okB_close h g : okServer o g → okServer o (closeBackend h g).
Proof. done. Qed.
Lemma okB_spawn ok g b g' : okServer o g → spawn ok g = (b, g') → okServer o g'.
Proof. intros Hg. unfold spawn. destruct ok; by intros [= <- <-]. Qed.
Lemma okSess_eq id ss ss' : okSess o id ss → ss'.(ep).(eid) = ss.(ep).(eid) → ss'.(creatorKey) = ss.(creatorKey) → ss'.(meta) = ss.(meta) → okSess o id ss'.
Proof. unfold okSess. by intros H -> -> ->. Qed.

Lemma remove_ok f id g st g' st' : okBoth g st → remove f id g st = (g', st') → okBoth g' st'.
Proof.
  intros [Hg Hst]. unfold remove. destruct (g.(sessions) !! id) as [ss|]; [|by intros [= <- <-]]. intros [= <- <-].
  split; [by apply okB_close, okS_delete|]. destruct g.(store); [|done]. destruct (call f _ st) as [r st'] eqn:Hc. cbn.
  eapply call_ok; [done| |done]. intros _. by apply deleteIfOwner_ok.
Qed.
(** A record whose id was opened restores an endpoint with that id. *)
Lemma restore_id ps e : okRec o ps → restoreEndpoint ps = Some e → hexEncode e.(eid) = ps.(ID).
Proof.
  intros (k & Hk & _). destruct (Hids _ _ Hk) as (b & Hb & Hlen). unfold restoreEndpoint, parseSessionID.
  rewrite Hb, hexDecode_encode, Hlen, Nat.eqb_refl. destruct (_ <? _)%nat; [done|]. by intros [= <-].
Qed.
Lemma parse_id id b : is_Some (o !! id) → parseSessionID id = Some b → hexEncode b = id.
Proof.
  intros [k Hk]. destruct (Hids _ _ Hk) as (b' & -> & Hlen). unfold parseSessionID.
  rewrite hexDecode_encode, Hlen, Nat.eqb_refl. by intros [= <-].
Qed.
Lemma registerResumed_ok f ps e b m gen n reap g st ss g' st' : okBoth g st → okRec o ps → restoreEndpoint ps = Some e →
  keyOf o ps.(ID) m.(PeerKey) → registerResumed f ps e b m gen n reap g st = (ss, g', st') → okBoth g' st' ∧ okSess o ps.(ID) ss.
Proof.
  intros [Hg Hst] Hr He Hm. unfold registerResumed. intros [= <- <- <-]. pose proof (restore_id _ _ Hr He) as Hid.
  assert (okSess o ps.(ID) (mkSess e b ps.(CreatorKey) reap n m gen ps.(Replay) true)) as Hss by (split_and!; done).
  split; [|done]. split; [rewrite Hid; by apply okS_insert|by eapply checkpoint_ok].
Qed.
Lemma resume_ok ok f ps e m gen n reap g st r g' st' : okBoth g st → okRec o ps → restoreEndpoint ps = Some e →
  keyOf o ps.(ID) m.(PeerKey) → resumeFromPersisted ok f ps e m gen n reap g st = (r, g', st') → okBoth g' st' ∧
  ∀ ss, r = Ok ss → okSess o ps.(ID) ss.
Proof.
  intros [Hg Hst] Hr He Hm. unfold resumeFromPersisted. destruct (spawn ok g) as [[b|] g1] eqn:Hs.
  - destruct (registerResumed _ _ _ _ _ _ _ _ _ _) as [[ss g2] st2] eqn:Hreg. intros [= <- <- <-].
    eapply registerResumed_ok in Hreg as [? ?]; [|split; [by eapply okB_spawn|done]|done|done|done]. split; [done|]. by intros ? [= <-].
  - intros [= <- <- <-]. split; [|done]. split; [by eapply okB_spawn|done].
Qed.
Lemma rehydrate_ok ok f1 f2 now ps m g st r g' st' : okBoth g st → okRec o ps → m.(PeerKey) = ps.(CreatorKey) →
  rehydrate ok f1 f2 now ps m g st = (r, g', st') → okBoth g' st' ∧ ∀ ss, r = Ok ss → okSess o ps.(ID) ss.
Proof.
  intros [Hg Hst] Hr Hm. unfold rehydrate. assert (keyOf o ps.(ID) m.(PeerKey)) as Hk by (by rewrite Hm).
  destruct (restoreEndpoint ps) as [e|] eqn:He; [|by intros [= <- <- <-]].
  destruct g.(lease); [|by apply resume_ok]. destruct (call f1 _ st) as [[[l|]|] st1] eqn:Hc.
  all: assert (okStore o st1) as Hst1 by (eapply call_ok; [exact Hst| |exact Hc]; intros _; apply takeover_ok; [done|by eapply keyOf_opened]).
  - apply resume_ok; [by split|done..].
  - by intros [= <- <- <-].
  - by intros [= <- <- <-].
Qed.
Lemma tryResume_ok n ok f1 f2 now loads id m g st r g' st' : okBoth g st →
  Forall (λ l, match l with Some ps => okRec o ps ∧ ps.(ID) = id | None => True end) loads →
  tryResume n ok f1 f2 now loads m g st = (r, g', st') →
  okBoth g' st' ∧ ∀ ss, r = Ok ss → okSess o id ss ∧ keyOf o id m.(PeerKey).
Proof.
  revert loads g st. induction n as [|n IH]; intros loads g st Hb Hl; cbn [tryResume]; [by intros [= <- <- <-]|].
  destruct loads as [|[ps|] loads]; [by intros [= <- <- <-]| |by intros [= <- <- <-]].
  apply Forall_cons in Hl as [[Hr Hid] Hl]. destruct (_ =? _)%string eqn:He; cbn [negb]; [|by intros [= <- <- <-]]. breflect.
  destruct (rehydrate _ _ _ _ _ _ _ _) as [[r1 g1] st1] eqn:Hre.
  apply rehydrate_ok in Hre as [Hb1 Hss]; [|done|done|done].
  assert (keyOf o id m.(PeerKey)) as Hk by (rewrite <-Hid, <-He; exact Hr).
  destruct r1 as [ss|e].
  - intros [= <- <- <-]. split; [done|]. intros ? [= <-]. split; [rewrite <-Hid; by apply Hss|done].
  - destruct e; try (intros [= <- <- <-]; split; [done|]; by intros ? ?). by apply IH.
Qed.
Lemma attach_resume_ok ok f1 f2 now newID loads id m g st r g' st' : okBoth g st → isZero id = false →
  Forall (λ l, match l with Some ps => okRec o ps ∧ ps.(ID) = hexEncode id | None => True end) loads →
  attach ok f1 f2 now newID loads id m g st = (r, g', st') →
  okBoth g' st' ∧ ∀ ss b, r = Ok (ss, b) → keyOf o (hexEncode id) m.(PeerKey).
Proof.
  intros [Hg Hst] Hz Hl. unfold attach. rewrite Hz. cbn [negb]. destruct (g.(sessions) !! _) as [ss|] eqn:Hss.
  - destruct (_ =? _)%string eqn:He; cbn [negb]; [|by intros [= <- <- <-]]. breflect. intros [= <- <- <-].
    pose proof (proj1 Hg _ _ Hss) as Hok. split; [split; [apply okS_insert; [done|by eapply okSess_eq]|done]|].
    intros ? ? _. rewrite <-He. apply Hok.
  - destruct g.(store); [|by intros [= <- <- <-]]. destruct (tryResume _ _ _ _ _ _ _ _ _) as [[r1 g1] st1] eqn:Ht.
    eapply tryResume_ok in Ht as [Hb Hss']; [|by split|done]. intros [= <- <- <-]. split; [done|].
    intros ss b. destruct r1; [|done]. intros [= <- <-]. by eapply Hss'.
Qed.
Lemma attach_open_ok ok f1 f2 now newID loads m g st r g' st' : okBoth g st → keyOf o (hexEncode newID) m.(PeerKey) →
  attach ok f1 f2 now newID loads zeroID m g st = (r, g', st') → okBoth g' st'.
Proof.
  intros [Hg Hst] Hk. unfold attach. change (negb (isZero zeroID)) with false. cbv iota.
  destruct (spawn ok g) as [[b|] g1] eqn:Hs; [|intros [= <- <- <-]; split; [by eapply okB_spawn|done]].
  assert (okServer o g1) as Hg1 by (by eapply okB_spawn).
  destruct (if g1.(lease) then _ else _) as [gen st1] eqn:Hl. intros [= <- <- <-]. split; [apply okS_insert; [done|by split_and!]|].
  destruct g1.(lease); [|by simplify_eq]. destruct (call f1 _ st) as [[[l|]|] st2] eqn:Hc.
  all: assert (okStore o st2) as Hst2 by (eapply call_ok; [exact Hst| |exact Hc]; intros _; apply acquire_ok; [done|by eapply keyOf_opened]).
  all: by simplify_eq.
Qed.
Lemma handleExit_ok f id g st g' st' : okBoth g st → handleExit f id g st = (g', st') → okBoth g' st'.
Proof.
  intros Hb. pose proof Hb as [Hg Hst]. unfold handleExit. destruct (g.(sessions) !! id) as [ss|] eqn:Hss; [|by intros [= <- <-]].
  destruct (closed _); [by apply remove_ok|]. intros [= <- <-]. split; [|done]. apply okS_insert; [done|].
  eapply okSess_eq; [by apply (proj1 Hg)|..]; by destruct (_ && _).
Qed.
Lemma renewOne_ok f1 f2 now id g st g' st' : okBoth g st → renewOne f1 f2 now id g st = (g', st') → okBoth g' st'.
Proof.
  intros [Hg Hst]. unfold renewOne. destruct (g.(sessions) !! id) as [ss|] eqn:Hss; [|by intros [= <- <-]].
  destruct (_ <=? 0); [by intros [= <- <-]|]. destruct (call f1 _ st) as [[[l|]|] st1] eqn:Hc.
  all: assert (okStore o st1) as Hst1 by (eapply call_ok; [exact Hst| |exact Hc]; intros _; by apply renew_ok).
  - by intros [= <- <-].
  - by apply remove_ok.
  - by intros [= <- <-].
Qed.
Lemma adoptClaim_ok f now ps g st : okStore o st → okRec o ps → okStore o (adoptClaim f now ps g st).2.
Proof.
  intros Hst Hr. unfold adoptClaim. destruct (parseSessionID _); [|done]. destruct (call f _ st) as [r st1] eqn:Hc. cbn.
  eapply call_ok; [exact Hst| |exact Hc]. intros _. apply acquire_ok; [done|by eapply keyOf_opened].
Qed.
Lemma adoptFinish_ok ok f1 f2 id l cur g st g' st' : okBoth g st →
  match cur with Some c => okRec o c ∧ c.(ID) = id | None => True end →
  adoptFinish ok f1 f2 id l cur g st = (g', st') → okBoth g' st'.
Proof.
  intros Hb Hcur. pose proof Hb as [Hg Hst]. assert (okBoth g (release f1 id l.(lGeneration) g st)) as Hrel by (split; [done|by apply release_ok]).
  unfold adoptFinish. destruct cur as [c|]; [|by intros [= <- <-]]. destruct Hcur as [Hr Hid]. destruct (_ || _); [by intros [= <- <-]|].
  destruct (g.(sessions) !! id); [by intros [= <- <-]|]. destruct (restoreEndpoint c) as [e|] eqn:He; [|by intros [= <- <-]].
  destruct (resumeFromPersisted _ _ _ _ _ _ _ _ _ _) as [[r g1] st1] eqn:Hres.
  apply resume_ok in Hres as [Hb1 _]; [|done|done|done|done]. destruct r; intros [= <- <-]; [done|].
  destruct Hb1. split; [done|by apply release_ok].
Qed.
Lemma shutdownOne_ok f1 f2 id g st g' st' : okBoth g st → shutdownOne f1 f2 id g st = (g', st') → okBoth g' st'.
Proof.
  intros [Hg Hst]. unfold shutdownOne. destruct (g.(sessions) !! id) as [ss|] eqn:Hss; [|by intros [= <- <-]]. intros [= <- <-].
  assert (okStore o (checkpoint f1 g ss st).1) by (eapply checkpoint_ok; [done|by apply (proj1 Hg)]).
  split; [by apply okB_close, okS_delete|]. destruct (_ && _); [by apply release_ok|done].
Qed.
Lemma prepare_ok ok ps m g e g' : okServer o g → okRec o ps → keyOf o ps.(ID) m.(PeerKey) → PrepareMove ok ps m g = (e, g') → okServer o g'.
Proof.
  intros Hg Hr Hm. unfold PrepareMove. destruct (negb _); [by intros [= <- <-]|]. destruct (negb _); [by intros [= <- <-]|].
  destruct (_ || _); [by intros [= <- <-]|]. destruct (_ =? 0) eqn:Hgen; [by intros [= <- <-]|]. breflect.
  destruct (parseSessionID ps.(ID)) as [b|] eqn:Hp; [|by intros [= <- <-]]. cbv zeta.
  destruct (spawn ok g) as [[h|] g1] eqn:Hs; [|intros [= <- <-]; by eapply okB_spawn].
  assert (okServer o g1) as Hg1 by (by eapply okB_spawn). rewrite (parse_id _ _ (keyOf_opened _ _ _ Hr) Hp).
  destruct (g1.(sessions) !! _); [by intros [= <- <-]|]. intros [= <- <-].
  assert (okServer o (setWarming (<[ps.(ID) := mkWarm ps h (mkMeta (orElse m.(PeerFQDN) ps.(Store.PeerFQDN)) (orElse m.(PeerAddr) ps.(Store.PeerAddr))
             (orElse m.(PeerKey) ps.(CreatorKey)) ps.(ID)) ps.(Generation)]> g1.(warming)) g1)) as Hw.
  { apply okW_insert; [done| |done]. cbn. unfold orElse. by destruct (_ =? "")%string. }
  destruct (g1.(warming) !! _); [by apply okB_close|done].
Qed.
Lemma abort_ok id g : okServer o g → okServer o (AbortMove id g).
Proof. intros Hg. unfold AbortMove. destruct (parseSessionID id); [|done]. destruct (g.(warming) !! _); [|done]. by apply okB_close, okW_delete. Qed.
Lemma freeze_ok f id g st e g' st' : okBoth g st → FreezeForMove f id g st = (e, g', st') → okBoth g' st'.
Proof.
  intros [Hg Hst]. unfold FreezeForMove. destruct (parseSessionID id) as [b|]; [|by intros [= <- <- <-]].
  destruct (g.(sessions) !! _) as [ss|] eqn:Hss; [|by intros [= <- <- <-]]. destruct (_ =? 0); [by intros [= <- <- <-]|]. cbv zeta.
  pose proof (proj1 Hg _ _ Hss) as Hok. assert (okSess o (hexEncode b) (setEp (detach ss.(ep)) ss)) as Hok' by (by eapply okSess_eq).
  assert (okServer o (setSessions (<[hexEncode b := setEp (detach ss.(ep)) ss]> g.(sessions)) g)) as Hg' by (by apply okS_insert).
  destruct (drainForMove _ _); intros [= <- <- <-]; split; try done. by eapply checkpoint_ok.
Qed.
Lemma takeover_granted id own eg ttl now st l st' : okStore o st → eg ≠ 0 →
  MemStore.TakeoverLease id own eg ttl now st = (Some l, st') → is_Some (o !! id).
Proof.
  intros Hst Hne. unfold MemStore.TakeoverLease, canTakeover. destruct (st !! id) as [cur|] eqn:Hc.
  - intros _. destruct (Hst _ _ Hc) as [<- Hr]. by eapply keyOf_opened.
  - rewrite (proj2 (Z.eqb_neq _ _) Hne). done.
Qed.
Lemma takeover_any_ok id own eg ttl now st : okStore o st → eg ≠ 0 → okStore o (MemStore.TakeoverLease id own eg ttl now st).2.
Proof.
  intros Hst Hne. destruct (MemStore.TakeoverLease id own eg ttl now st) as [[l|] st'] eqn:Ht.
  - change st' with (Some l, st').2. rewrite <-Ht. apply takeover_ok; [done|by eapply takeover_granted].
  - unfold MemStore.TakeoverLease in Ht. destruct (canTakeover _ _); simplify_eq; done.
Qed.
Lemma commit_ok f1 f2 f3 now id auth cur g st r g' st' : okBoth g st →
  match cur with Ok (Some c) => okRec o c ∧ c.(ID) = id | _ => True end →
  CommitMove f1 f2 f3 now id auth cur g st = (r, g', st') → okBoth g' st'.
Proof.
  intros [Hg Hst] Hcur. unfold CommitMove. destruct (parseSessionID id) as [b|] eqn:Hp; [|by intros [= <- <- <-]]. cbv zeta.
  set (g1 := setWarming (delete (hexEncode b) g.(warming)) g). assert (okServer o g1) as Hg1 by (by apply okW_delete).
  destruct (g1.(sessions) !! _), (g.(warming) !! _) as [w|] eqn:Hw; try (by intros [= <- <- <-]).
  destruct (proj2 Hg _ _ Hw) as [Hm Hgen]. destruct auth as [[[]|]|]; try (by intros [= <- <- <-]).
  destruct (call f1 _ st) as [[[l|]|] st1] eqn:Hc.
  all: assert (okStore o st1) as Hst1 by (eapply call_ok; [exact Hst| |exact Hc]; intros _; by apply takeover_any_ok).
  - assert (is_Some (o !! id)) as Hid.
    { destruct f1; unfold call in Hc; [|discriminate..]. destruct (MemStore.TakeoverLease _ _ _ _ _ _) as [r1 st2] eqn:Ht.
      injection Hc as -> ->. exact (takeover_granted _ _ _ _ _ _ _ _ Hst Hgen Ht). }
    assert (∀ l, okStore o (release f2 id l g1 st1)) as Hrel by (intros; by apply release_ok).
    destruct cur as [[c|]|]; [|by intros [= <- <- <-]..]. destruct (restoreEndpoint c) as [e|] eqn:He; [|by intros [= <- <- <-]].
    destruct (registerResumed _ _ _ _ _ _ _ _ _ _) as [[ss g2] st2] eqn:Hreg. intros [= <- <- <-]. destruct Hcur as [Hr Hcid].
    eapply registerResumed_ok in Hreg as [? _]; [done|by split|done|done|]. rewrite Hcid. by rewrite (parse_id _ _ Hid Hp) in Hm.
  - destruct cur as [[c|]|]; by intros [= <- <- <-].
  - by intros [= <- <- <-].
Qed.
End ServerSteps.

(** *** The invariant *)

Lemma okIDs_open o a c : okIDs c.(opened) → allowed c a → o = openedBy a c.(opened) → okIDs o ∧ c.(opened) ⊆ o.
Proof.
  intros Hids Ha ->. destruct a; try done. cbn in *. destruct Ha as [Hlen Hfresh]. split; [|by apply insert_subseteq].
  intros id k [[<- <-]|[_ ?]]%lookup_insert_Some; [by eauto|by eapply Hids].
Qed.
Lemma readable_ok c o id l : (∀ ps, ps ∈ c.(hist) → okRec o ps) → readable c id l →
  match l with Some ps => okRec o ps ∧ ps.(ID) = id | None => True end.
Proof. intros Hh. destruct l as [ps|]; [|done]. intros [Hin Hid]. split; [by apply Hh|done]. Qed.
Lemma apply_ok c a g g' st' : okCluster c → allowed c a → okServer c.(opened) g → apply a g c.(st) = (g', st') →
  okBoth (openedBy a c.(opened)) g' st'.
Proof.
  intros [Hids Hst Hh _] Ha Hg Hap. destruct (okIDs_open _ a c Hids Ha eq_refl) as [Hids' Hsub].
  set (o := openedBy a c.(opened)) in *.
  assert (okBoth o g c.(st)) as Hb by (split; [by eapply okServer_mono|by eapply okStore_mono]).
  assert (∀ ps, ps ∈ c.(hist) → okRec o ps) as Hh' by (intros ps Hp; eapply keyOf_mono; [done|by apply Hh]).
  pose proof Hb as [Hg' Hst']. destruct a; cbn [apply] in Hap.
  - destruct (attach _ _ _ _ _ _ _ _ _ _) as [[r g1] st1] eqn:He. simplify_eq. eapply attach_open_ok; [done| |done].
    exists m.(PeerKey). split; [apply lookup_insert_eq|by right].
  - destruct (attach _ _ _ _ _ _ _ _ _ _) as [[r g1] st1] eqn:He. simplify_eq. destruct Ha as [Hz Hl].
    eapply attach_resume_ok; [done|done|done| |done]. eapply Forall_impl; [done|]. intros l. by apply readable_ok.
  - destruct (g.(sessions) !! id) as [ss|] eqn:Hss; simplify_eq; [|done]. split; [done|].
    eapply checkpoint_ok; [done|by apply (proj1 Hg')].
  - destruct (g.(sessions) !! id) as [ss|] eqn:Hss; [|by simplify_eq]. case_bool_decide; simplify_eq; [|done].
    split; [|done]. apply okS_insert; [done|]. eapply okSess_eq; [by apply (proj1 Hg')|done..].
  - destruct (g.(sessions) !! id) as [ss|] eqn:Hss; [|by simplify_eq]. destruct (capture g p ss) as [ss'|] eqn:Hc; [|by eapply remove_ok].
    simplify_eq. split; [|done]. apply okS_insert; [done|]. unfold capture in Hc.
    repeat case_match; simplify_eq; eapply okSess_eq; try (by apply (proj1 Hg')); done.
  - by eapply remove_ok.
  - by eapply handleExit_ok.
  - by eapply renewOne_ok.
  - destruct (adoptable now g ps); simplify_eq; [|done]. split; [done|]. apply adoptClaim_ok; [done|by apply Hh'].
  - eapply adoptFinish_ok; [done|done| |done]. by apply (readable_ok c).
  - by eapply shutdownOne_ok.
  - simplify_eq. split; [|done]. eapply prepare_ok; [done|done|apply Hh', Ha| |apply surjective_pairing]. by apply Hh'.
  - destruct (CommitMove _ _ _ _ _ _ _ _ _) as [[r g1] st1] eqn:He. simplify_eq. eapply commit_ok; [done|done| |done].
    destruct cur as [cur|]; [|done]. by apply (readable_ok c).
  - simplify_eq. split; [by apply abort_ok|done].
  - destruct (FreezeForMove _ _ _ _) as [[r g1] st1] eqn:He. simplify_eq. by eapply freeze_ok.
  - unfold YieldAfterMove in Hap. destruct (parseSessionID id); [by eapply remove_ok|by simplify_eq].
Qed.
Lemma step_ok c c' : okCluster c → step c c' → okCluster c'.
Proof.
  intros Hok Hs. pose proof Hok as [Hids Hst Hh Hg]. destruct Hs as [c g Hse Hwa Hi|c i|c i g a g' st' Hi Ha Hap].
  - split; try done. cbn. intros i g' [[<- <-]|[_ ?]]%lookup_insert_Some; [|by eapply Hg]. split; [rewrite Hse|rewrite Hwa]; by intros ? ? ?.
  - split; try done. cbn. intros i' g' [_ ?]%lookup_delete_Some. by eapply Hg.
  - destruct (okIDs_open _ a c Hids Ha eq_refl) as [Hids' Hsub]. pose proof (apply_ok _ _ _ _ _ Hok Ha (Hg _ _ Hi) Hap) as [Hg' Hst'].
    split; cbn; [done|done| |].
    + intros ps [Hp|Hp]%elem_of_app; [eapply keyOf_mono; [done|by apply Hh]|].
      apply list_elem_of_fmap in Hp as ([k ps'] & -> & Hin). apply elem_of_map_to_list in Hin. by apply Hst' in Hin as [_ ?].
    + intros i' g1 [[<- <-]|[_ ?]]%lookup_insert_Some; [done|]. eapply okServer_mono; [done|by eapply Hg].
Qed.
Lemma reachable_ok c : reachable c → okCluster c.
Proof.
  assert (∀ c c', rtc step c c' → okCluster c → okCluster c') as Hind.
  { induction 1 as [|c1 c2 c3 Hs _ IH]; [done|]. intros Hc. by eapply IH, step_ok. }
  intros Hr. apply (Hind _ _ Hr). split; cbn; try done. intros ps Hp. by apply elem_of_nil in Hp.
Qed.
(** C13. A session belongs to the identity that opened it. However the gateways' calls
    interleave, with fail-overs, standby adoptions, live moves, crashes, stale reads and
    store faults: when a gateway lets a peer with an identity attach to a session, that
    identity opened the session; and every live session is bound to it, and runs its
    backend under it, unless to no identity at all. *)
Theorem sessions_belong_to_their_opener (c : cluster) (i : string) (g : Server) (Hreach : reachable c) (Hgw : c.(gws) !! i = Some g) :
  (∀ ok f1 f2 now loads id m ss b g' st',
     isZero id = false → Forall (readable c (hexEncode id)) loads → m.(PeerKey) ≠ "" →
     attach ok f1 f2 now zeroID loads id m g c.(st) = (Ok (ss, b), g', st') →
     c.(opened) !! hexEncode id = Some m.(PeerKey)) ∧
  (∀ id ss, g.(sessions) !! id = Some ss → ∃ k, c.(opened) !! id = Some k ∧
     (ss.(creatorKey) = "" ∨ ss.(creatorKey) = k) ∧ (ss.(meta).(PeerKey) = "" ∨ ss.(meta).(PeerKey) = k)).
Proof.
  destruct (reachable_ok _ Hreach) as [Hids Hst Hh Hg]. specialize (Hg _ _ Hgw). split.
  - intros ok f1 f2 now loads id m ss b g' st' Hz Hl Hne Hat. eapply attach_resume_ok in Hat as [_ Hk]; [|done|by split|done|].
    + destruct (Hk _ _ eq_refl) as (k & Ho & [?| ->]); done.
    + eapply Forall_impl; [done|]. intros l. by apply readable_ok.
  - intros id ss Hss. destruct (proj1 Hg _ _ Hss) as (_ & (k & Hk & H1) & (k' & Hk' & H2)). simplify_eq. by exists k.
Qed.

(** ** What a move does *)

(** The state of a session that a resuming gateway works from. *)
Definition payloadOf (ps : PersistedSession) :=
  (ps.(ID), ps.(CreatorKey), ps.(SendSeq), ps.(Acked), ps.(RecvSeq), ps.(SendBuf), ps.(Replay)).
(** What the destination's [Load] may return: an error, or the state that is stored. *)
Definition loadsState (id : string) (st : records) (cur : result srvErr (option PersistedSession)) : Prop :=
  match cur with
  | Ok (Some c) => ∃ ps, st !! id = Some ps ∧ payloadOf c = payloadOf ps
  | Ok None => st !! id = None
  | Err _ => True
  end.

Lemma restored_payload ps e : restoreEndpoint ps = Some e → (∃ b, ps.(ID) = hexEncode b) →
  hexEncode e.(eid) = ps.(ID) ∧ e.(sendSeq) = ps.(SendSeq) ∧ e.(acked) = ps.(Acked) ∧ e.(recvSeq) = ps.(RecvSeq) ∧
  (λ f, mkPFrame f.(fseq) f.(payload)) <$> e.(sendBuf) = ps.(SendBuf).
Proof.
  unfold restoreEndpoint, parseSessionID. intros He [b Hb]. rewrite Hb, hexDecode_encode in He. destruct (_ =? _)%nat; [|done].
  destruct (_ <? _)%nat; [done|]. injection He as <-. cbn. split_and!; [done..|]. rewrite <-list_fmap_compose.
  rewrite <-(list_fmap_id ps.(SendBuf)) at 2. apply list_fmap_ext. intros i [sq pl] _. done.
Qed.
(** A granted takeover of an existing record changes its lease only. *)
Lemma takeover_record id own eg ttl now st l st' ps : st !! id = Some ps → ps.(ID) = id →
  MemStore.TakeoverLease id own eg ttl now st = (Some l, st') →
  ps.(Generation) = eg ∧ l.(lGeneration) = u64 (eg + 1) ∧
  ∃ ps', st' = <[id := ps']> st ∧ payloadOf ps' = payloadOf ps ∧ ps'.(Owner) = own ∧ ps'.(Generation) = u64 (eg + 1).
Proof.
  intros Hps Hid. unfold MemStore.TakeoverLease, canTakeover. rewrite Hps. destruct (_ =? _) eqn:Hg; cbn [negb]; [|done]. breflect. subst eg.
  cbn [granted default]. intros [= <- <-]. split_and!; [done|done|]. eexists. split_and!; [done| |done|done]. unfold payloadOf. cbn. by rewrite Hid.
Qed.
(** The session is still stored as it was: under its old lease, or under the lease after it
    owned by [own] or by nobody. *)
Definition keptFor (own id : string) (st st' : records) : Prop :=
  (∀ id', id' ≠ id → st' !! id' = st !! id') ∧
  ∀ ps, st !! id = Some ps → ∃ ps', st' !! id = Some ps' ∧ payloadOf ps' = payloadOf ps ∧
    ((ps'.(Owner) = ps.(Owner) ∧ ps'.(Generation) = ps.(Generation)) ∨
     ((ps'.(Owner) = own ∨ ps'.(Owner) = "") ∧ ps'.(Generation) = u64 (ps.(Generation) + 1))).
Lemma kept_refl own id st : keptFor own id st st.
Proof. split; [done|]. intros ps Hps. exists ps. split_and!; [done|done|by left]. Qed.
Lemma kept_insert own id st ps ps' : st !! id = Some ps → payloadOf ps' = payloadOf ps → (ps'.(Owner) = own ∨ ps'.(Owner) = "") →
  ps'.(Generation) = u64 (ps.(Generation) + 1) → keptFor own id st (<[id := ps']> st).
Proof.
  intros Hps Hpl Ho Hg. split; [intros id' Hne; by rewrite lookup_insert_ne|]. intros ps0 Hps0. rewrite Hps in Hps0. injection Hps0 as <-.
  exists ps'. rewrite lookup_insert_eq. split_and!; [done|done|by right].
Qed.
Lemma release_kept f own id gen g st ps ps' : g.(instance) = own → st !! id = Some ps →
  payloadOf ps' = payloadOf ps → ps'.(Owner) = own → ps'.(Generation) = u64 (ps.(Generation) + 1) →
  keptFor own id st (release f id gen g (<[id := ps']> st)).
Proof.
  intros Hi Hps Hpl Ho Hg. unfold release. assert (∀ g', keptFor own id st (MemStore.ReleaseLease id own g' (<[id := ps']> st)).2) as Hr.
  { intros g'. unfold MemStore.ReleaseLease. rewrite lookup_insert_eq. destruct (holds _ _ _); [|by apply (kept_insert _ _ _ ps); auto].
    cbn [snd]. rewrite insert_insert_eq. apply (kept_insert _ _ _ ps); [done|exact Hpl|by right|exact Hg]. }
  rewrite Hi. destruct f; unfold call; [|by apply (kept_insert _ _ _ ps); auto|apply Hr].
  specialize (Hr gen). by destruct (MemStore.ReleaseLease _ _ _ _).
Qed.
Lemma promoted_kept f g st id ps ps' c e b m gen : g.(lease) = true → st !! id = Some ps → ps.(ID) = id → (∃ b, id = hexEncode b) →
  payloadOf ps' = payloadOf ps → ps'.(Owner) = g.(instance) → ps'.(Generation) = u64 (ps.(Generation) + 1) →
  payloadOf c = payloadOf ps → restoreEndpoint c = Some e →
  keptFor g.(instance) id st (checkpoint f g (mkSess e b c.(CreatorKey) true 0 m gen c.(Replay) true) (<[id := ps']> st)).1.
Proof.
  intros Hle Hps Hid Hcan Hpl Ho Hg Hc He. assert (c.(ID) = id) as Hcid by (unfold payloadOf in Hc; congruence).
  destruct (restored_payload c e He) as (Heid & H1 & H2 & H3 & H4); [by rewrite Hcid|].
  set (ss := mkSess _ _ _ _ _ _ _ _ _). assert (payloadOf (persisted g ss) = payloadOf ps) as Hpp.
  { rewrite <-Hc. unfold payloadOf, persisted. cbn. by rewrite Heid, H1, H2, H3, H4. }
  assert ((persisted g ss).(ID) = id) as Hpid by (unfold payloadOf in Hpp; congruence).
  assert (keptFor g.(instance) id st (<[id := ps']> st)) as Hk by (apply (kept_insert _ _ _ ps); auto).
  unfold checkpoint. destruct (negb _); [done|]. rewrite Hle.
  destruct (_ =? 0); [done|].
    assert (keptFor g.(instance) id st (MemStore.SaveIfOwned (persisted g ss) g.(instance) ss.(leaseGen) (<[id := ps']> st)).2) as Hs.
    { unfold MemStore.SaveIfOwned. rewrite Hpid, lookup_insert_eq. destruct (holds _ _ _) eqn:Hh; [|done]. cbn [snd]. rewrite insert_insert_eq.
      apply holds_true in Hh as [_ Hh]. apply (kept_insert _ _ _ ps); [done| |by left|by rewrite <-Hg, Hh].
      rewrite <-Hpp. unfold payloadOf. cbn. by rewrite Heid, Hcid. }
    destruct f; unfold call; [|done|exact Hs]. by destruct (MemStore.SaveIfOwned _ _ _ _).
Qed.
(** C15. The commit of a move never loses the session. Whatever the identity gate answers
    and wherever the store fails: the record stays, with its identity, cursors, unacknowledged
    frames and replayed input; its lease is the old one, or the next one owned by the
    destination or by nobody; no other session changes, and nothing stays warm. A commit
    that reports success for a session not yet live here was authorised, and the
    destination serves the session or the record it read named the destination as owner. *)
Theorem move_commit_keeps_the_session f1 f2 f3 now (b : sessionID) auth cur g st r g' st' ps
    (Hlen : length b = sessionIDLen) (Hlease : g.(lease) = true) (Hrec : st !! hexEncode b = Some ps) (Hid : ps.(ID) = hexEncode b)
    (Hload : loadsState (hexEncode b) st cur)
    (Hcommit : CommitMove f1 f2 f3 now (hexEncode b) auth cur g st = (r, g', st')) :
  keptFor g.(instance) (hexEncode b) st st' ∧ g'.(warming) !! hexEncode b = None ∧
  (r = Ok true → g.(sessions) !! hexEncode b = None → auth = Some (Ok true) ∧
     (is_Some (g'.(sessions) !! hexEncode b) ∨ ∃ c, cur = Ok (Some c) ∧ c.(Owner) = g.(instance))).
Proof.
  set (id := hexEncode b) in *. assert (parseSessionID id = Some b) as Hp.
  { unfold parseSessionID, id. by rewrite hexDecode_encode, Hlen, Nat.eqb_refl. }
  revert Hcommit. unfold CommitMove. rewrite Hp. fold id. cbv zeta.
  set (g1 := setWarming (delete id g.(warming)) g). assert (g1.(warming) !! id = None) as Hw1 by apply lookup_delete_eq.
  change (g1.(sessions)) with (g.(sessions)). change (g1.(instance)) with (g.(instance)). change (g1.(ttl)) with (g.(ttl)).
  pose proof (kept_refl g.(instance) id st) as Hkr.
  destruct (g.(sessions) !! id) as [s0|] eqn:Hs; [destruct (g.(warming) !! id); by intros [= <- <- <-]|].
  destruct (g.(warming) !! id) as [w|] eqn:Hw; [|by intros [= <- <- <-]].
  destruct auth as [[[]|]|]; try (by intros [= <- <- <-]).
  destruct (MemStore.TakeoverLease id g.(instance) w.(wgen) g.(ttl) now st) as [[l|] st1] eqn:Ht.
  - destruct (takeover_record _ _ _ _ _ _ _ _ ps Hrec Hid Ht) as (Hg & Hlg & ps' & -> & Hpl & Ho & Hg').
    rewrite <-Hg in Hg'. assert (keptFor g.(instance) id st (<[id := ps']> st)) as Hk by (apply (kept_insert _ _ _ ps); auto).
    destruct f1; unfold call; rewrite ?Ht; cbn [snd]; [|by intros [= <- <- <-]..].
    assert (∀ gn, keptFor g.(instance) id st (release f2 id gn g1 (<[id := ps']> st))) as Hrel by (intros gn; by apply (release_kept _ _ _ _ _ _ ps ps')).
    destruct cur as [[c|]|]; [|by intros [= <- <- <-]..]. destruct (restoreEndpoint c) as [e|] eqn:He; [|by intros [= <- <- <-]].
    destruct Hload as (ps0 & Hps0 & Hc). rewrite Hrec in Hps0. injection Hps0 as <-.
    unfold registerResumed. intros [= <- <- <-]. split_and!; [|done|].
    + exact (promoted_kept f3 g1 st id ps ps' c e w.(wbackend) w.(wmeta) l.(lGeneration) Hlease Hrec Hid (ex_intro _ b eq_refl) Hpl Ho Hg' Hc He).
    + intros _ _. split; [done|left]. assert (c.(ID) = id) as Hcid by (unfold payloadOf in Hc; congruence).
      destruct (restored_payload c e He) as [-> _]; [rewrite Hcid; by exists b|]. cbn. rewrite Hcid, lookup_insert_eq. done.
  - assert (st1 = st) as -> by (unfold MemStore.TakeoverLease in Ht; destruct (canTakeover _ _); simplify_eq; done).
    destruct f1; unfold call; rewrite ?Ht; cbn [snd]; [|by intros [= <- <- <-]..].
    destruct cur as [[c|]|]; intros [= <- <- <-]; split_and!; try done. intros [= Hc%String.eqb_eq] _. split; [done|right]. by exists c.
Qed.

(** *** The source after a commit *)

Lemma promoted_owner f g st id ps' ss : st !! id = Some ps' → ps'.(Owner) = g.(instance) → hexEncode ss.(ep).(eid) = id →
  g.(lease) = true → ∃ r, (checkpoint f g ss st).1 !! id = Some r ∧ r.(Owner) = g.(instance) ∧ r.(Generation) = ps'.(Generation).
Proof.
  intros Hst Ho Hid Hl. unfold checkpoint. destruct (negb _); [by exists ps'|]. rewrite Hl. destruct (_ =? 0); [by exists ps'|].
  assert (∃ r, (MemStore.SaveIfOwned (persisted g ss) g.(instance) ss.(leaseGen) st).2 !! id = Some r ∧ r.(Owner) = g.(instance) ∧ r.(Generation) = ps'.(Generation)) as Hs.
  { unfold MemStore.SaveIfOwned. change ((persisted g ss).(ID)) with (hexEncode ss.(ep).(eid)). rewrite Hid, Hst.
    destruct (holds _ _ _) eqn:Hh; [|by exists ps']. apply holds_true in Hh as [_ Hh]. eexists. cbn. rewrite lookup_insert_eq. by split_and!. }
  destruct f; unfold call; [|by exists ps'|exact Hs]. by destruct (MemStore.SaveIfOwned _ _ _ _).
Qed.
(** A gateway that is not the owner of a record does not change it, and yields. *)
Lemma fenced_yields g st id r ss : st !! id = Some r → r.(Owner) ≠ g.(instance) → g.(sessions) !! id = Some ss → sid ss = id →
  g.(store) = true → g.(lease) = true → 0 < ss.(leaseGen) →
  (∀ f, (checkpoint f g ss st).1 = st) ∧ (checkpoint Fine g ss st).2 = true ∧
  (∀ f1 f2 now, (renewOne f1 f2 now id g st).2 = st) ∧ (∀ f2 now, (renewOne Fine f2 now id g st).1.(sessions) !! id = None) ∧
  (∀ f, (remove f id g st).2 = st ∧ (remove f id g st).1.(sessions) !! id = None).
Proof.
  intros Hr Ho Hs Hid Hst Hl Hgen. assert (∀ gen, holds r g.(instance) gen = false) as Hh.
  { intros gen. unfold holds. by rewrite (proj2 (String.eqb_neq _ _) Ho). }
  assert (MemStore.SaveIfOwned (persisted g ss) g.(instance) ss.(leaseGen) st = (false, st)) as Hsv.
  { unfold MemStore.SaveIfOwned. change ((persisted g ss).(ID)) with (sid ss). by rewrite Hid, Hr, Hh. }
  assert (∀ now, MemStore.RenewLease id g.(instance) ss.(leaseGen) g.(ttl) now st = (None, st)) as Hrn.
  { intros now. unfold MemStore.RenewLease. by rewrite Hr, Hh. }
  assert (∀ f, (remove f id g st).2 = st ∧ (remove f id g st).1.(sessions) !! id = None) as Hrm.
  { intros f. unfold remove. rewrite Hs. cbn. split; [|apply lookup_delete_eq]. rewrite Hst.
    assert (MemStore.DeleteIfOwner id g.(instance) st = st) as Hd.
    { unfold MemStore.DeleteIfOwner. by rewrite Hr, (proj2 (String.eqb_neq _ _) Ho). }
    destruct f; cbn; by rewrite ?Hd. }
  assert (ss.(leaseGen) =? 0 = false) as H0 by (apply Z.eqb_neq; lia). assert (ss.(leaseGen) <=? 0 = false) as H1 by (apply Z.leb_gt; lia).
  unfold checkpoint, renewOne. rewrite Hst, Hl, H0, Hs, H1. cbn [negb]. split_and!.
  - intros f. destruct f; unfold call; by rewrite ?Hsv.
  - unfold call. by rewrite Hsv.
  - intros f1 f2 now. destruct f1; unfold call; rewrite ?Hrn; try done. apply Hrm.
  - intros f2 now. unfold call. rewrite Hrn. apply Hrm.
  - exact Hrm.
Qed.
End Gws.
