(* ===== verification/MoveControl.v ===== *)
(** * MoveControl: control connections, and runs of the gateways

    What [ServeMoveControl] of [session/move.go] leaves warm when its connection ends; a
    session that fails over in the middle of its handshake; concrete gateways that open,
    resume and move a session. *)
From stdpp Require Import base list strings gmap.
From Stdlib Require Import ZArith Lia.
From Stdlib Require Import Strings.Byte.
From S2P Require Import Prelude GoStd Json Classify Frame Endpoint Store Server Gateways.
Open Scope Z_scope.
Open Scope mesh_scope.

Module Control.
Import Srv Gws.

Section OneSession.
Context (b : sessionID) (Hlen : length b = sessionIDLen).
Notation id := (hexEncode b).

Lemma parse_canonical : parseSessionID id = Some b.
Proof. unfold parseSessionID. by rewrite hexDecode_encode, Hlen, Nat.eqb_refl. Qed.
Lemma prepare_warming ok ps m g e g' : ps.(ID) = id → PrepareMove ok ps m g = (e, g') →
  match e with Some _ => g'.(warming) = g.(warming) | None => ∃ w, g'.(warming) = <[id := w]> g.(warming) end.
Proof.
  intros Hid. unfold PrepareMove. rewrite Hid, parse_canonical. destruct (negb _); [by intros [= <- <-]|]. destruct (negb _); [by intros [= <- <-]|].
  destruct (_ || _); [by intros [= <- <-]|]. destruct (_ =? 0); [by intros [= <- <-]|]. unfold spawn. destruct ok; cbv zeta iota; [|by intros [= <- <-]].
  destruct (_ !! _); intros [= <- <-]; [done|]. destruct (_ !! _); by eexists.
Qed.
Lemma abort_warming g : (AbortMove id g).(warming) = delete id g.(warming).
Proof.
  unfold AbortMove. rewrite parse_canonical. destruct (g.(warming) !! id) eqn:Hw; [done|]. symmetry. by apply delete_id.
Qed.
Lemma commit_warming f1 f2 f3 now auth cur g st r g' st' :
  CommitMove f1 f2 f3 now id auth cur g st = (r, g', st') → g'.(warming) = delete id g.(warming).
Proof.
  unfold CommitMove, registerResumed. rewrite parse_canonical. cbv zeta.
  repeat case_match; intros; simplify_eq; done.
Qed.
(** The frame names this session, and so does the record that was loaded for it. *)
Definition names (fe : moveFrame * moveEnv) : Prop :=
  fe.1.(fSessionID) = id ∧ match fe.2.(loaded) with Ok (Some ps) => ps.(ID) = id | _ => True end.
Lemma id_nonempty : (id =? "")%string = false.
Proof. destruct b; [done|done]. Qed.
Lemma serveMove_warming W frames prepared g st rs g' st' : Forall names frames →
  (prepared = "" ∧ g.(warming) ⊆ W) ∨ (prepared = id ∧ delete id g.(warming) ⊆ W) →
  serveMove frames prepared g st = (rs, g', st') → g'.(warming) ⊆ W.
Proof.
  revert prepared g st rs g' st'. induction frames as [|[fr en] frames IH]; intros prepared g st rs g' st' Hn Hp; cbn [serveMove].
  - intros [= <- <- <-]. destruct Hp as [[-> ?]|[-> ?]]; [done|]. by rewrite id_nonempty, abort_warming.
  - apply Forall_cons in Hn as [[Hid Hps] Hn]. cbn [fst snd] in *.
    assert (∀ gx, (if (prepared =? "")%string then g else AbortMove prepared g) = gx → gx.(warming) ⊆ W) as Hdrop.
    { intros gx <-. destruct Hp as [[-> ?]|[-> ?]]; [done|]. by rewrite id_nonempty, abort_warming. }
    destruct fr.(fType).
    + assert (∀ g1, g1.(warming) = g.(warming) → ∀ rs g' st', (let '(rs, g, st) := serveMove frames prepared g1 st in (Refuse :: rs, g, st)) = (rs, g', st') → g'.(warming) ⊆ W) as Href.
      { intros g1 Hg1 rs1 g1' st1. destruct (serveMove frames prepared g1 st) as [[rs2 g2] st2] eqn:He. intros [= <- <- <-].
        eapply IH; [done| |done]. by rewrite Hg1. }
      destruct en.(loaded) as [[ps|]|]; [|by apply Href..]. destruct (_ && _); [by apply Href|].
      destruct (PrepareMove _ _ _ _) as [[er|] g1] eqn:Hpr; pose proof (prepare_warming _ _ _ _ _ _ Hps Hpr) as Hw; [by apply Href|].
      destruct Hw as [w Hw]. assert (delete id g1.(warming) ⊆ W) as Hsub.
      { rewrite Hw, delete_insert_eq. destruct Hp as [[_ ?]|[_ ?]]; [|done]. etrans; [apply delete_subseteq|done]. }
      rewrite Hid. destruct en.(sent).
      * destruct (serveMove frames id g1 st) as [[rs2 g2] st2] eqn:He. intros [= <- <- <-]. eapply IH; [done| |done]. by right.
      * intros [= <- <- <-]. by rewrite abort_warming.
    + rewrite Hid. destruct (CommitMove _ _ _ _ _ _ _ _ _) as [[r g1] st1] eqn:Hc. apply commit_warming in Hc.
      assert (g1.(warming) ⊆ W) as Hsub.
      { rewrite Hc. destruct Hp as [[_ ?]|[_ ?]]; [|done]. etrans; [apply delete_subseteq|done]. }
      destruct r as [[|]|er]; [by intros [= <- <- <-]| |].
      all: destruct (serveMove frames "" g1 st1) as [[rs2 g2] st2] eqn:He; intros [= <- <- <-]; eapply IH; [done| |done]; by left.
    + intros [= <- <- <-]. by apply Hdrop.
    + intros [= <- <- <-]. by apply Hdrop.
Qed.
End OneSession.

(** A control connection that names one session strands nothing: whatever frames the
    source sends and wherever the connection, the store, the gate or the backend fails,
    nothing is warm when the handler returns that was not warm before. *)
Theorem one_session_connection_strands_nothing (b : sessionID) frames g st r g' st'
    (Hlen : length b = sessionIDLen) (Hnames : Forall (names b) frames)
    (Hserve : ServeMoveControl frames g st = (r, g', st')) : g'.(warming) ⊆ g.(warming).
Proof.
  revert Hserve. unfold ServeMoveControl. destruct (negb _); [by intros [= <- <- <-]|].
  destruct (serveMove frames "" g st) as [[rs g1] st1] eqn:He. intros [= <- <- <-].
  eapply serveMove_warming; [done|done| |done]. by left.
Qed.
End Control.

(** ** Runs *)
Module GwRuns.
Import Srv Gws Control.

Definition sidA : sessionID := replicate 16 x0a.
Definition sidB : sessionID := replicate 16 x0b.
Definition gwA : Server := mkServer "gw-a" 120 MigrateHandshake true true false ∅ ∅ 0 [].
Definition gwB : Server := mkServer "gw-b" 120 MigrateHandshake true true false ∅ ∅ 0 [].
Definition laptop : Meta := mkMeta "laptop.mesh" "10.0.0.2" "wgkey-laptop" "".

Definition start (g : Server) (c : cluster) : cluster := mkCluster (<[g.(instance) := g]> c.(gws)) c.(st) c.(hist) c.(opened).
Definition act_ (i : string) (a : act) (c : cluster) : cluster :=
  match c.(gws) !! i with
  | Some g => let '(g', st') := apply a g c.(st) in
              mkCluster (<[i := g']> c.(gws)) st' (c.(hist) ++ (map_to_list st').*2) (openedBy a c.(opened))
  | None => c
  end.
Lemma reach_start g c : reachable c → g.(sessions) = ∅ → g.(warming) = ∅ → c.(gws) !! g.(instance) = None → reachable (start g c).
Proof. intros Hr Hs Hw Hn. eapply rtc_r; [exact Hr|]. by apply step_start. Qed.
Lemma reach_act i a c : reachable c → allowed c a → reachable (act_ i a c).
Proof.
  intros Hr Ha. unfold act_. destruct (c.(gws) !! i) as [g|] eqn:Hi; [|done]. destruct (apply a g c.(st)) as [g' st'] eqn:Hap.
  eapply rtc_r; [exact Hr|]. by eapply step_act.
Qed.

(** The laptop opens a session at one gateway; a second gateway starts. *)
Definition served : cluster :=
  start gwB (act_ "gw-a" (ACheckpoint Fine (hexEncode sidA)) (act_ "gw-a" (AOpen true Fine Fine 1000 sidA laptop) (start gwA initial))).
Lemma served_reachable : reachable served.
Proof.
  apply reach_start; [|vm_compute; reflexivity..]. apply reach_act; [|exact I]. apply reach_act; [|vm_compute; done].
  apply reach_start; [apply rtc_refl|vm_compute; reflexivity..].
Qed.
Definition stored : PersistedSession := Eval vm_compute in default zeroPS (served.(st) !! hexEncode sidA).
Definition serverAt (i : string) (c : cluster) : Server := default gwA (c.(gws) !! i).

Definition reattached := attach true Fine Fine 2000 zeroID [Some stored] sidA laptop (serverAt "gw-b" served) served.(st).
Lemma stored_read : Forall (readable served (hexEncode sidA)) [Some stored].
Proof. constructor; [|constructor]. split; [|reflexivity]. apply list_elem_of_In. vm_compute. auto. Qed.
Lemma sessions_belong_to_their_opener_witness :
  match reattached with (Ok _, _, _) => True | _ => False end ∧ served.(opened) !! hexEncode sidA = Some "wgkey-laptop".
Proof.
  split; [vm_compute; exact I|].
  apply (proj1 (sessions_belong_to_their_opener served "gw-b" (serverAt "gw-b" served) served_reachable eq_refl)
    true Fine Fine 2000 [Some stored] sidA laptop
    (match reattached with (Ok (ss, _), _, _) => ss | _ => mkSess (newEndpoint sidA) 0 "" false 0 laptop 0 [] false end) true
    reattached.1.2 reattached.2 eq_refl stored_read).
  - discriminate.
  - vm_compute. reflexivity.
Defined.

(** The session moves from the first gateway to the second. *)
Definition warm : Server := (PrepareMove true stored (mkMeta "" "" "" "") gwB).2.
Definition warmEntry : warmSession := default (mkWarm zeroPS 0 laptop 0) (warm.(warming) !! hexEncode sidA).
Definition committed := CommitMove Fine Fine Fine 3000 (hexEncode sidA) (Some (Ok true)) (Ok (Some stored)) warm served.(st).
Lemma move_commit_keeps_the_session_witness :
  keptFor "gw-b" (hexEncode sidA) served.(st) committed.2 ∧ committed.1.2.(warming) !! hexEncode sidA = None.
Proof.
  destruct (move_commit_keeps_the_session Fine Fine Fine 3000 sidA (Some (Ok true)) (Ok (Some stored)) warm served.(st)
    committed.1.1 committed.1.2 committed.2 stored) as (H1 & H2 & _).
  - reflexivity.
  - reflexivity.
  - vm_compute. reflexivity.
  - vm_compute. reflexivity.
  - exists stored. split; vm_compute; reflexivity.
  - vm_compute. reflexivity.
  - exact (conj H1 H2).
Defined.
Definition source : Server := serverAt "gw-a" served.
Definition sourceSession : serverSession := default (mkSess (newEndpoint sidA) 0 "" false 0 laptop 0 [] false) (source.(sessions) !! hexEncode sidA).

(** A record for the session [b], and a step of a control connection about it. *)
Definition recordOf (b : sessionID) : PersistedSession := withLease (hexEncode b) "gw-a" 1 9000 stored.
Definition prepareFrame (b : sessionID) : moveFrame * moveEnv :=
  (mkMove moveKindPrepare (hexEncode b) "", mkMoveEnv (Ok (Some (recordOf b))) true None Fine Fine Fine 3000 true).
Lemma one_session_connection_strands_nothing_witness :
  (ServeMoveControl [prepareFrame sidA; prepareFrame sidA] gwB ∅).1.2.(warming) ⊆ gwB.(warming).
Proof.
  apply (one_session_connection_strands_nothing sidA [prepareFrame sidA; prepareFrame sidA] gwB ∅
    (ServeMoveControl [prepareFrame sidA; prepareFrame sidA] gwB ∅).1.1 (ServeMoveControl [prepareFrame sidA; prepareFrame sidA] gwB ∅).1.2
    (ServeMoveControl [prepareFrame sidA; prepareFrame sidA] gwB ∅).2).
  - reflexivity.
  - repeat constructor.
  - vm_compute. reflexivity.
Defined.
(** A control connection that prepares two sessions strands the first: the handler
    remembers only the last session it prepared, so when the connection drops the backend
    of the other stays warm, started and not aborted. A failed commit of one session makes
    it forget another in the same way. *)
Theorem control_connection_strands_warm_backend :
  let '(_, g, _) := ServeMoveControl [prepareFrame sidA; prepareFrame sidB] gwB ∅ in
  let '(_, g', _) := ServeMoveControl [prepareFrame sidA; (mkMove moveKindCommit (hexEncode sidB) "", (prepareFrame sidB).2)] gwB ∅ in
  is_Some (g.(warming) !! hexEncode sidA) ∧ length g.(openBackends) = 1%nat ∧
  is_Some (g'.(warming) !! hexEncode sidA) ∧ length g'.(openBackends) = 1%nat.
Proof. vm_compute. split_and!; first [reflexivity|by eexists]. Qed.

(** A handshake in three messages, and a fail-over after the first. *)
Definition msg (s : string) : list byte := (λ a, byte_of_Z (ord a)) <$> (String.list_ascii_of_string (s +:+ of_codes [10])).
Definition fresh : serverSession := mkSess (newEndpoint sidA) 0 "wgkey-laptop" false 1 laptop 1 [] false.
Definition feed (g : Server) (ps : list (list byte)) (ss : serverSession) : option serverSession :=
  fold_left (λ s p, match s with Some s => capture g p s | None => None end) ps (Some ss).
(** A fail-over in the middle of the handshake loses the rest of it. A resumed session
    counts its handshake as captured; the message that ends the handshake is then not
    recorded, and a second fail-over replays a handshake that never finishes. *)
Theorem resumed_handshake_is_not_captured :
  match feed gwA [msg "initialize"] fresh with
  | Some ss =>
      ss.(captureDone) = false ∧
      let '(ss', g, _) := registerResumed Fine (persisted gwA ss) (newEndpoint sidA) 1 laptop 2 1 false gwB ∅ in
      match feed g [msg "notifications/initialized"] ss', feed gwA [msg "notifications/initialized"] ss with
      | Some r, Some r' => r.(replay) = msg "initialize" ∧ r'.(replay) = msg "initialize" ++ msg "notifications/initialized"
      | _, _ => False
      end
  | None => False
  end.
Proof. vm_compute. done. Qed.
End GwRuns.
