(* ===== verification/Edge.v ===== *)
(** * Edge: the OAuth server at the edge

    [edge/clients.go] (registered clients and their states), [edge/authorize.go] (pending
    authorizations, the operator's decision, the one code), [edge/tokens.go] and
    [edge/token.go] (authorization codes with PKCE, access and refresh tokens, rotation,
    reuse detection, revocation), [edge/lifecycle.go] (the revocation cascade),
    [edge/session.go] (sessions bound to client and family), the bearer check of
    [edge/mcp.go]. Records are files named by the hash of
    their secret; a write may fail, and what [crypto/rand] draws is an argument. *)
From stdpp Require Import base list strings gmap.
From Stdlib Require Import ZArith Lia Ascii.
From Stdlib Require Import Strings.Byte.
From S2P Require Import Prelude GoStd Frame Crypto.
Open Scope Z_scope.
Open Scope mesh_scope.

Module Edge.
Section Edge.
Context `{SHA256}.

(** ** Secrets *)

(** [base64.RawURLEncoding]. *)
Definition b64digit (z : Z) : ascii :=
  match String.get (Z.to_nat z) "ABCDEFGHIJKLMNOPQRSTUVWXYZabcdefghijklmnopqrstuvwxyz0123456789-_" with
  | Some c => c | None => "A"%char end.
Fixpoint b64url (l : list byte) : string :=
  match l with
  | a :: b :: c :: l =>
      let n := Z_of_byte a * 65536 + Z_of_byte b * 256 + Z_of_byte c in
      String (b64digit (n / 262144)) (String (b64digit (n / 4096 mod 64)) (String (b64digit (n / 64 mod 64)) (String (b64digit (n mod 64)) (b64url l))))
  | [a; b] =>
      let n := Z_of_byte a * 65536 + Z_of_byte b * 256 in
      String (b64digit (n / 262144)) (String (b64digit (n / 4096 mod 64)) (String (b64digit (n / 64 mod 64)) ""))
  | [a] => let n := Z_of_byte a * 65536 in String (b64digit (n / 262144)) (String (b64digit (n / 4096 mod 64)) "")
  | [] => ""
  end.
Definition pkceVerify (verifier challenge : string) : bool :=
  if (verifier =? "")%string || (challenge =? "")%string then false
  else (b64url (sha256 verifier) =? challenge)%string.

(** ** Data *)

Inductive clientStatus := ClientPending | ClientApproved | ClientDenied | ClientRevoked.
Inductive authzStatus := authzPending | authzApproved | authzDenied | authzCompleted.
Inductive registrationMode := OpenApproval | RegistrationToken.
#[export] Instance clientStatus_eq_dec : EqDecision clientStatus.
Proof. solve_decision. Defined.
#[export] Instance authzStatus_eq_dec : EqDecision authzStatus.
Proof. solve_decision. Defined.

Record ClientRecord := mkClient {
  ClientID : string; ClientName : string; RedirectURIs : list string; RegTokenHash : string;
  Mode : registrationMode; Status : clientStatus; CreatedAt : Z; ApprovedBy : string; ApprovedAt : Z }.
Record authzRecord := mkAuthz {
  RequestID : string; zClient : string; zName : string; zRedirect : string; zChallenge : string; zScope : string;
  zResource : string; zState : string; zStatus : authzStatus; zCreated : Z; zExpires : Z }.
Record codeRecord := mkCode {
  cClient : string; cRedirect : string; cChallenge : string; cScope : string; cResource : string; cExpires : Z }.
Record accessRecord := mkAccess { aClient : string; aFamily : string; Capability : string; CapID : string; aExpires : Z }.
Record refreshRecord := mkRefresh {
  rClient : string; rFamily : string; Generation : Z; RotatedTo : string; RotatedAt : Z; rExpires : Z }.
Record mcpSession := mkSession { sClient : string; sFamily : string }.

Record Config := mkConfig {
  AccessTokenTTL : Z; RefreshTokenTTL : Z; AuthzPendingTTL : Z; MaxPending : nat; RegMode : registrationMode;
  IATs : list (string * nat); perLimit : nat }.
(** Durations in nanoseconds. *)
Definition codeTTL : Z := 120 * 10 ^ 9.
Definition refreshReplayGrace : Z := 30 * 10 ^ 9.

(** The state directory and the sessions in memory. Codes and tokens are keyed by the hash
    of the secret. *)
Record edge := mkEdge {
  clients : gmap string ClientRecord; authz : gmap string authzRecord; codes : gmap string codeRecord;
  access : gmap string accessRecord; refresh : gmap string refreshRecord; revoked : gset string; sessions : gmap string mcpSession }.
Definition setClients m (e : edge) := mkEdge m e.(authz) e.(codes) e.(access) e.(refresh) e.(revoked) e.(sessions).
Definition setAuthz m (e : edge) := mkEdge e.(clients) m e.(codes) e.(access) e.(refresh) e.(revoked) e.(sessions).
Definition setCodes m (e : edge) := mkEdge e.(clients) e.(authz) m e.(access) e.(refresh) e.(revoked) e.(sessions).
Definition setAccess m (e : edge) := mkEdge e.(clients) e.(authz) e.(codes) m e.(refresh) e.(revoked) e.(sessions).
Definition setRefresh m (e : edge) := mkEdge e.(clients) e.(authz) e.(codes) e.(access) m e.(revoked) e.(sessions).
Definition setRevoked m (e : edge) := mkEdge e.(clients) e.(authz) e.(codes) e.(access) e.(refresh) m e.(sessions).
Definition setSessions m (e : edge) := mkEdge e.(clients) e.(authz) e.(codes) e.(access) e.(refresh) e.(revoked) m.

Inductive oauthErr := NotFound | RevokedClient | WriteFailed | InvalidClient | BadRedirect | UnsupportedResponse | NoPKCE | AwaitingApproval
| MissingToken | UnknownGrant | Expired | ClientMismatch | RedirectMismatch | PKCEFailed | ResourceMismatch | NotApproved | AlreadyRotated | ReuseDetected
| QuotaExceeded | TooManySessions | NoSession.

(** ** Clients *)

Definition Create (ok : bool) (id name : string) (uris : list string) (mode : registrationMode) (hash : string) (now : Z) (e : edge)
    : result oauthErr ClientRecord * edge :=
  let st := match mode with RegistrationToken => ClientApproved | OpenApproval => ClientPending end in
  let rec := mkClient id name uris hash mode st now
               (match st with ClientApproved => "initial-access-token" | _ => "" end) (match st with ClientApproved => now | _ => 0 end) in
  if ok then (Ok rec, setClients (<[id := rec]> e.(clients)) e) else (Err WriteFailed, e).
Definition withStatus (to : clientStatus) (by_ : string) (at_ : Z) (c : ClientRecord) : ClientRecord :=
  mkClient c.(ClientID) c.(ClientName) c.(RedirectURIs) c.(RegTokenHash) c.(Mode) to c.(CreatedAt) by_ at_.
Definition transition (ok : bool) (id : string) (to : clientStatus) (by_ : string) (now : Z) (e : edge) : result oauthErr ClientRecord * edge :=
  match e.(clients) !! id with
  | None => (Err NotFound, e)
  | Some c =>
      if bool_decide (c.(Status) = ClientRevoked) then (Err RevokedClient, e)
      else
        let c' := if bool_decide (to = ClientApproved) then withStatus to by_ now c else withStatus to c.(ApprovedBy) c.(ApprovedAt) c in
        if ok then (Ok c', setClients (<[id := c']> e.(clients)) e) else (Err WriteFailed, e)
  end.
Definition Approve ok id by_ now e := transition ok id ClientApproved by_ now e.
Definition Deny ok id by_ now e := transition ok id ClientDenied by_ now e.
Definition Revoke (ok : bool) (id by_ : string) (e : edge) : result oauthErr ClientRecord * edge :=
  match e.(clients) !! id with
  | None => (Err NotFound, e)
  | Some c =>
      let c' := withStatus ClientRevoked by_ c.(ApprovedAt) c in
      if ok then (Ok c', setClients (<[id := c']> e.(clients)) e) else (Err WriteFailed, e)
  end.
Definition CountPending (e : edge) : nat :=
  length (List.filter (λ c, bool_decide (c.(Status) = ClientPending)) (map_to_list e.(clients)).*2).
(** [authorizeIAT]: the presented bearer is an initial access token within its cap; [listed]:
    the directory could be read. *)
Definition authorizeIAT (cfg : Config) (listed : bool) (presented : string) (e : edge) : bool :=
  if (presented =? "")%string then false
  else match List.find (λ i, (i.1 =? presented)%string) cfg.(IATs) with
  | Some (_, cap) => negb ((0 <? cap)%nat && listed && (cap <=? size e.(clients))%nat)
  | None => false
  end.
(** [handleRegister] behind its request checks: quota or initial access token, creation, and
    the roll-back of a registration that could not be audited. *)
Definition register (cfg : Config) (listed ok okRevoke audited : bool) (presented id name : string) (uris : list string) (hash : string) (now : Z) (e : edge)
    : result oauthErr ClientRecord * edge :=
  let accepted :=
    match cfg.(RegMode) with
    | RegistrationToken => authorizeIAT cfg listed presented e
    | OpenApproval => negb (listed && (cfg.(MaxPending) <=? CountPending e)%nat)
    end in
  if negb accepted then (Err QuotaExceeded, e)
  else match Create ok id name uris cfg.(RegMode) hash now e with
  | (Ok rec, e') => if audited then (Ok rec, e') else (Err WriteFailed, (Revoke okRevoke id "audit-failure" e').2)
  | r => r
  end.

(** [handleManage], DELETE: [compareRegToken] is the bcrypt comparison with the stored hash. *)
Definition deregister (compareRegToken : string → string → bool) (ok : bool) (id bearer : string) (e : edge)
    : result oauthErr unit * edge :=
  match e.(clients) !! id with
  | None => (Err NotFound, e)
  | Some c =>
      if negb (compareRegToken c.(RegTokenHash) bearer) then (Err InvalidClient, e)
      else match Revoke ok id "self-deregister" e with
           | (Ok _, e) => (Ok tt, e)
           | (Err er, e) => (Err er, e)
           end
  end.

(** ** Authorizations *)

Definition withZStatus (to : authzStatus) (r : authzRecord) : authzRecord :=
  mkAuthz r.(RequestID) r.(zClient) r.(zName) r.(zRedirect) r.(zChallenge) r.(zScope) r.(zResource) r.(zState) to r.(zCreated) r.(zExpires).
Definition setStatus (ok : bool) (id : string) (to : authzStatus) (e : edge) : result oauthErr authzRecord * edge :=
  match e.(authz) !! id with
  | None => (Err NotFound, e)
  | Some r => if ok then (Ok (withZStatus to r), setAuthz (<[id := withZStatus to r]> e.(authz)) e) else (Err WriteFailed, e)
  end.
Definition exactURIMatch (registered : list string) (uri : string) : bool :=
  negb (uri =? "")%string && existsb (λ r, (r =? uri)%string) registered.
Record authReq := mkAuthReq {
  qClient : string; qRedirect : string; qType : string; qMethod : string; qChallenge : string; qScope : string; qResource : string; qState : string }.
Definition handleAuthorize (cfg : Config) (ok : bool) (reqID : string) (now : Z) (q : authReq) (e : edge) : result oauthErr authzRecord * edge :=
  match e.(clients) !! q.(qClient) with
  | None => (Err InvalidClient, e)
  | Some c =>
      if bool_decide (c.(Status) = ClientRevoked) || bool_decide (c.(Status) = ClientDenied) then (Err InvalidClient, e)
      else if negb (exactURIMatch c.(RedirectURIs) q.(qRedirect)) then (Err BadRedirect, e)
      else if negb (q.(qType) =? "code")%string then (Err UnsupportedResponse, e)
      else if negb (q.(qMethod) =? "S256")%string || (q.(qChallenge) =? "")%string then (Err NoPKCE, e)
      else if negb (bool_decide (c.(Status) = ClientApproved)) then (Err AwaitingApproval, e)
      else
        let r := mkAuthz reqID q.(qClient) c.(ClientName) q.(qRedirect) q.(qChallenge) q.(qScope) q.(qResource) q.(qState)
                   authzPending now (now + cfg.(AuthzPendingTTL)) in
        if ok then (Ok r, setAuthz (<[reqID := r]> e.(authz)) e) else (Err WriteFailed, e)
  end.
Inductive pollReply := PollNotFound | PollExpired | PollPending | PollDenied | PollError | PollCompleted
| PollCode (redirect code state : string).
(** The poll of the consent page. [code]: the code drawn; [okIssue], [okPut]: the writes. *)
Definition handleAuthorizeStatus (okIssue okPut : bool) (id code : string) (now : Z) (e : edge) : pollReply * edge :=
  match e.(authz) !! id with
  | None => (PollNotFound, e)
  | Some r =>
      if (r.(zExpires) <? now) && bool_decide (r.(zStatus) = authzPending) then (PollExpired, e)
      else match r.(zStatus) with
      | authzPending => (PollPending, e)
      | authzDenied => (PollDenied, e)
      | authzApproved =>
          if negb okIssue then (PollError, e)
          else
            let c := mkCode r.(zClient) r.(zRedirect) r.(zChallenge) r.(zScope) r.(zResource) (now + codeTTL) in
            let e := setCodes (<[sha256Hex code := c]> e.(codes)) e in
            let e := if okPut then setAuthz (<[id := withZStatus authzCompleted r]> e.(authz)) e else e in
            (PollCode r.(zRedirect) code r.(zState), e)
      | authzCompleted => (PollCompleted, e)
      end
  end.

(** ** Tokens *)

(** What is drawn and signed for a token set, and which of its writes succeed. *)
Record mint := mkMint { mAccess : string; mRefresh : string; mCapID : string; mCap : option string; okAccess : bool; okRefresh : bool }.
Definition mintTokenSet (cfg : Config) (m : mint) (clientID familyID : string) (generation now : Z) (e : edge) : option (string * string) * edge :=
  match m.(mCap) with
  | None => (None, e)
  | Some cap =>
      if negb m.(okAccess) then (None, e)
      else
        let e := setAccess (<[sha256Hex m.(mAccess) := mkAccess clientID familyID cap m.(mCapID) (now + cfg.(AccessTokenTTL))]> e.(access)) e in
        if negb m.(okRefresh) then (None, e)
        else (Some (m.(mAccess), m.(mRefresh)),
              setRefresh (<[sha256Hex m.(mRefresh) := mkRefresh clientID familyID generation "" 0 (now + cfg.(RefreshTokenTTL))]> e.(refresh)) e)
  end.
Record codeForm := mkCodeForm { fCode : string; fClient : string; fRedirect : string; fVerifier : string; fResource : string }.
(** [tokenFromCode]: the code is claimed by a rename ([okClaim]), then checked. *)
Definition tokenFromCode (cfg : Config) (m : mint) (okClaim : bool) (family : string) (now : Z) (f : codeForm) (e : edge)
    : result oauthErr (string * string) * edge :=
  if (f.(fCode) =? "")%string then (Err MissingToken, e)
  else match e.(codes) !! sha256Hex f.(fCode) with
  | None => (Err UnknownGrant, e)
  | Some c =>
      if negb okClaim then (Err WriteFailed, e) else
      let e := setCodes (delete (sha256Hex f.(fCode)) e.(codes)) e in
      if c.(cExpires) <? now then (Err Expired, e)
      else if negb (f.(fClient) =? c.(cClient))%string then (Err ClientMismatch, e)
      else if negb (f.(fRedirect) =? c.(cRedirect))%string then (Err RedirectMismatch, e)
      else if negb (pkceVerify f.(fVerifier) c.(cChallenge)) then (Err PKCEFailed, e)
      else if negb (f.(fResource) =? "")%string && negb (c.(cResource) =? "")%string && negb (f.(fResource) =? c.(cResource))%string
      then (Err ResourceMismatch, e)
      else match e.(clients) !! c.(cClient) with
      | None => (Err NotApproved, e)
      | Some cl =>
          if negb (bool_decide (cl.(Status) = ClientApproved)) then (Err NotApproved, e)
          else match mintTokenSet cfg m c.(cClient) family 0 now e with
               | (Some t, e) => (Ok t, e)
               | (None, e) => (Err WriteFailed, e)
               end
      end
  end.

(** [revokeFamily]: [removed] tells which files could be removed. *)
Definition revokeFamily (removed : string → bool) (family : string) (e : edge) : edge :=
  setRefresh (filter (λ kr, negb ((kr.2.(rFamily) =? family)%string && removed kr.1) = true) e.(refresh))
    (setAccess (filter (λ kr, negb ((kr.2.(aFamily) =? family)%string && removed kr.1) = true) e.(access)) e).
(** The capability ids of the access records that satisfy [f]. *)
Definition capIDs (f : accessRecord → bool) (e : edge) : list string :=
  List.filter (λ i, negb (i =? "")%string) (CapID <$> List.filter f (map_to_list e.(access)).*2).
Definition revokeTokens (removed : string → bool) (clientID : string) (e : edge) : list string * edge :=
  (capIDs (λ a, (a.(aClient) =? clientID)%string) e,
   setRefresh (filter (λ kr, negb ((kr.2.(rClient) =? clientID)%string && removed kr.1) = true) e.(refresh))
     (setAccess (filter (λ kr, negb ((kr.2.(aClient) =? clientID)%string && removed kr.1) = true) e.(access)) e)).

(** The refresh grant in its two halves: the checks under the token's lock, and the minting
    and rotation. [Refused] says what is answered, and whether a family is revoked first. *)
Inductive refreshView := Refused (er : oauthErr) (revoke : option string) | Rotate (rec : refreshRecord).
Definition refreshCheck (now : Z) (token client : string) (e : edge) : refreshView :=
  if (token =? "")%string then Refused MissingToken None
  else match e.(refresh) !! sha256Hex token with
  | None => Refused UnknownGrant None
  | Some r =>
      if negb (client =? "")%string && negb (client =? r.(rClient))%string then Refused ClientMismatch None
      else if r.(rExpires) <? now then Refused Expired None
      else if negb (r.(RotatedTo) =? "")%string then
        if negb (r.(RotatedAt) =? 0) && (now - r.(RotatedAt) <=? refreshReplayGrace) then Refused AlreadyRotated None
        else Refused ReuseDetected (Some r.(rFamily))
      else match e.(clients) !! r.(rClient) with
      | Some c => if bool_decide (c.(Status) = ClientApproved) then Rotate r else Refused NotApproved None
      | None => Refused NotApproved None
      end
  end.
Definition markRotated (token successor : string) (r : refreshRecord) (now : Z) (e : edge) : edge :=
  setRefresh (<[sha256Hex token := mkRefresh r.(rClient) r.(rFamily) r.(Generation) successor now r.(rExpires)]> e.(refresh)) e.
Definition refreshRotate (cfg : Config) (m : mint) (okMark : bool) (now : Z) (token : string) (r : refreshRecord) (e : edge)
    : result oauthErr (string * string) * edge :=
  match mintTokenSet cfg m r.(rClient) r.(rFamily) (i64 (r.(Generation) + 1)) now e with
  | (None, e) => (Err WriteFailed, e)
  | (Some (a, t), e) => if okMark then (Ok (a, t), markRotated token (sha256Hex t) r now e) else (Err WriteFailed, e)
  end.
Definition tokenFromRefresh (cfg : Config) (m : mint) (okMark : bool) (removed : string → bool) (now : Z) (token client : string) (e : edge)
    : result oauthErr (string * string) * edge :=
  match refreshCheck now token client e with
  | Refused er None => (Err er, e)
  | Refused er (Some fam) => (Err er, revokeFamily removed fam e)
  | Rotate r => refreshRotate cfg m okMark now token r e
  end.

(** ** Revocation and use *)

Definition sessionsWithout (f : mcpSession → bool) (e : edge) : edge :=
  setSessions (filter (λ ks, negb (f ks.2) = true) e.(sessions)) e.
(** The revocation list: [listed i] says that the entry could be written. *)
Definition revokeCaps (listed : string → bool) (caps : list string) (e : edge) : edge :=
  setRevoked (list_to_set (List.filter listed caps) ∪ e.(revoked)) e.
(** [RevokeClientState]: the client, its tokens, their capabilities. *)
Definition RevokeClientState (ok : bool) (removed listed : string → bool) (id by_ : string) (e : edge) : result oauthErr nat * edge :=
  match Revoke ok id by_ e with
  | (Err er, e) => (Err er, e)
  | (Ok _, e) =>
      let before := size e.(access) in
      let '(caps, e) := revokeTokens removed id e in
      (Ok before, revokeCaps listed caps e)
  end.
(** [Server.RevokeClient]: and its sessions. *)
Definition RevokeClient (ok : bool) (removed listed : string → bool) (id by_ : string) (e : edge) : result oauthErr unit * edge :=
  match RevokeClientState ok removed listed id by_ e with
  | (Err er, e) => (Err er, e)
  | (Ok _, e) => (Ok tt, sessionsWithout (λ s, (s.(sClient) =? id)%string) e)
  end.
Definition RevokeFamilyState (removed listed : string → bool) (family : string) (e : edge) : nat * edge :=
  let inFamily a := (a.(aFamily) =? family)%string in
  (length (List.filter inFamily (map_to_list e.(access)).*2),
   revokeCaps listed (capIDs inFamily e) (revokeFamily removed family e)).
Definition authenticate (now : Z) (token : string) (e : edge) : option accessRecord :=
  if (token =? "")%string then None
  else match e.(access) !! sha256Hex token with
  | None => None
  | Some a =>
      if a.(aExpires) <? now then None
      else match e.(clients) !! a.(aClient) with
      | Some c => if bool_decide (c.(Status) = ClientApproved) then Some a else None
      | None => None
      end
  end.
Definition createSession (cfg : Config) (id client family : string) (e : edge) : option edge :=
  let n := length (List.filter (λ s, (s.(sClient) =? client)%string) (map_to_list e.(sessions)).*2) in
  if (0 <? cfg.(perLimit))%nat && (cfg.(perLimit) <=? n)%nat then None
  else Some (setSessions (<[id := mkSession client family]> e.(sessions)) e).
(** [mcpDelete]: any session of the client. *)
Definition deleteSession (id : string) (a : accessRecord) (e : edge) : bool * edge :=
  match e.(sessions) !! id with
  | Some s => if (s.(sClient) =? a.(aClient))%string then (true, setSessions (delete id e.(sessions)) e) else (false, e)
  | None => (false, e)
  end.
(** The session a request may use: its client's, of the family of its token. *)
Definition getSession (id : string) (a : accessRecord) (e : edge) : option mcpSession :=
  match e.(sessions) !! id with
  | Some s => if (s.(sClient) =? a.(aClient))%string && (s.(sFamily) =? a.(aFamily))%string then Some s else None
  | None => None
  end.
End Edge.
End Edge.
