(* ===== verification/EdgeInv.v ===== *)
(** * EdgeInv: what the OAuth server guarantees over a run

    The handlers of [Edge] as the steps of a server. A refresh is two steps, because the
    lock it holds is the token's own: other requests run between its checks and its
    rotation. The theorems: an accepted bearer goes back to an operator's decision, a code is
    redeemed once and a refresh token exchanged once per issue, a revoked client stays locked
    out, and a family revoked for reuse stays dead unless a rotation was in flight. *)
From stdpp Require Import base list strings gmap.
From Stdlib Require Import ZArith Lia.
From Stdlib Require Import Strings.Byte.
From S2P Require Import Prelude GoStd Frame Crypto Checkpoint Edge.
Open Scope Z_scope.
Open Scope mesh_scope.

Module EdgeInv.
Import Edge.
Section Run.
Context `{SHA256} (cfg : Config) (compareRegToken : string → string → bool).

(** The server and the refresh tokens whose rotation holds its lock. *)
Record server := mkServer { srv : edge; rotating : gmap string refreshRecord }.
Definition onSrv (f : edge → edge) (s : server) : server := mkServer (f s.(srv)) s.(rotating).

Inductive op :=
| Register (listed ok okRevoke audited : bool) (presented id name : string) (uris : list string) (hash : string) (now : Z)
| Deregister (ok : bool) (id bearer : string)
| ApproveClient (ok : bool) (id by_ : string) (now : Z)
| DenyClient (ok : bool) (id by_ : string) (now : Z)
| RevokeC (ok : bool) (removed listed : string → bool) (id by_ : string)
| RevokeF (removed listed : string → bool) (family : string)
| Authorize (ok : bool) (reqID : string) (now : Z) (q : authReq)
| DecideAuthz (ok : bool) (id : string) (approve : bool)
| Poll (okIssue okPut : bool) (id code : string) (now : Z)
| Redeem (m : mint) (okClaim : bool) (family : string) (now : Z) (f : codeForm)
| RefreshBegin (removed : string → bool) (now : Z) (token client : string)
| RefreshEnd (m : mint) (okMark : bool) (now : Z) (token : string).

(** The two halves of [tokenFromRefresh]; a token being rotated is waited for. *)
Definition refreshBegin (removed : string → bool) (now : Z) (token client : string) (s : server) : server :=
  match s.(rotating) !! sha256Hex token with
  | Some _ => s
  | None =>
      match refreshCheck now token client s.(srv) with
      | Refused _ None => s
      | Refused _ (Some fam) => onSrv (revokeFamily removed fam) s
      | Rotate r => mkServer s.(srv) (<[sha256Hex token := r]> s.(rotating))
      end
  end.
Definition refreshEnd (m : mint) (okMark : bool) (now : Z) (token : string) (s : server) : option (result oauthErr (string * string)) * server :=
  match s.(rotating) !! sha256Hex token with
  | None => (None, s)
  | Some r =>
      let '(res, e) := refreshRotate cfg m okMark now token r s.(srv) in
      (Some res, mkServer e (delete (sha256Hex token) s.(rotating)))
  end.

Definition step (s : server) (o : op) : server :=
  match o with
  | Register l ok okR au p id name uris h now => onSrv (λ e, (register cfg l ok okR au p id name uris h now e).2) s
  | Deregister ok id b => onSrv (λ e, (deregister compareRegToken ok id b e).2) s
  | ApproveClient ok id by_ now => onSrv (λ e, (Approve ok id by_ now e).2) s
  | DenyClient ok id by_ now => onSrv (λ e, (Deny ok id by_ now e).2) s
  | RevokeC ok rm l id by_ => onSrv (λ e, (RevokeClient ok rm l id by_ e).2) s
  | RevokeF rm l fam => onSrv (λ e, (RevokeFamilyState rm l fam e).2) s
  | Authorize ok id now q => onSrv (λ e, (handleAuthorize cfg ok id now q e).2) s
  | DecideAuthz ok id ap => onSrv (λ e, (setStatus ok id (if ap then authzApproved else authzDenied) e).2) s
  | Poll okI okP id code now => onSrv (λ e, (handleAuthorizeStatus okI okP id code now e).2) s
  | Redeem m okC fam now f => onSrv (λ e, (tokenFromCode cfg m okC fam now f e).2) s
  | RefreshBegin rm now t c => refreshBegin rm now t c s
  | RefreshEnd m okM now t => (refreshEnd m okM now t s).2
  end.
Definition run (ops : list op) (s : server) : server := foldl step s ops.
Definition start : server := mkServer (mkEdge ∅ ∅ ∅ ∅ ∅ ∅ ∅) ∅.

Lemma run_last ops o s : run (ops ++ [o]) s = step (run ops s) o.
Proof. unfold run. by rewrite foldl_app. Qed.

(** A refresh with nothing in between is [tokenFromRefresh]. *)
Lemma refresh_uninterrupted m okM rm now token client s :
  s.(rotating) = ∅ →
  srv (step (step s (RefreshBegin rm now token client)) (RefreshEnd m okM now token)) =
  (tokenFromRefresh cfg m okM rm now token client s.(srv)).2.
Proof.
  intros Hr. unfold step, refreshBegin, tokenFromRefresh. rewrite Hr, lookup_empty.
  destruct (refreshCheck now token client (srv s)) as [er [fam|]|r]; unfold refreshEnd; cbn [rotating onSrv srv];
    rewrite ?Hr, ?lookup_empty, ?lookup_insert_eq; try done.
  by destruct (refreshRotate _ _ _ _ _ _ _).
Qed.

(** ** What each step may change *)

#[local] Ltac ops_unfold :=
  unfold step, onSrv, register, deregister, Approve, Deny, transition, Create, RevokeClient, RevokeClientState, Revoke, RevokeFamilyState,
    revokeTokens, revokeCaps, sessionsWithout, handleAuthorize, setStatus, handleAuthorizeStatus, tokenFromCode, refreshBegin, refreshEnd,
    refreshRotate, markRotated, mintTokenSet, onSrv in *.
#[local] Ltac fields :=
  unfold revokeFamily in *; cbn [srv rotating fst snd setClients setAuthz setCodes setAccess setRefresh setRevoked setSessions clients authz codes access refresh] in *.
#[local] Ltac step_cases := ops_unfold; fields; repeat (case_match; fields; simplify_eq; fields).

#[local] Ltac maps H :=
  repeat first [rewrite lookup_insert_Some in H|rewrite lookup_delete_Some in H|rewrite map_lookup_filter_Some in H];
  repeat (destruct_and?; destruct_or?); simplify_eq; fields.
#[local] Ltac exists_solve := solve [repeat lazymatch goal with |- ∃ _, _ => eexists end; split_and?; first [eassumption|reflexivity|by auto]].
#[local] Ltac prov := first [assumption|exists_solve|left; prov|right; prov].

Lemma step_access s o h a :
  access (srv (step s o)) !! h = Some a →
  access (srv s) !! h = Some a ∨
  (∃ m okC fam now f c, o = Redeem m okC fam now f ∧ codes (srv s) !! sha256Hex f.(fCode) = Some c ∧ a.(aClient) = c.(cClient) ∧ a.(aFamily) = fam) ∨
  (∃ m okM now t r, o = RefreshEnd m okM now t ∧ rotating s !! sha256Hex t = Some r ∧ a.(aClient) = r.(rClient) ∧ a.(aFamily) = r.(rFamily)).
Proof.
  intros Ha. destruct o.
  all: step_cases; auto.
  all: maps Ha; try prov.
Qed.

Lemma step_refresh s o h r :
  refresh (srv (step s o)) !! h = Some r →
  refresh (srv s) !! h = Some r ∨
  (∃ m okC fam now f c, o = Redeem m okC fam now f ∧ codes (srv s) !! sha256Hex f.(fCode) = Some c ∧
     h = sha256Hex m.(mRefresh) ∧ r.(rClient) = c.(cClient) ∧ r.(rFamily) = fam) ∨
  (∃ m okM now t r', o = RefreshEnd m okM now t ∧ rotating s !! sha256Hex t = Some r' ∧ r.(rClient) = r'.(rClient) ∧ r.(rFamily) = r'.(rFamily) ∧
     (h = sha256Hex m.(mRefresh) ∨ r.(RotatedTo) = sha256Hex m.(mRefresh))).
Proof.
  intros Ha. destruct o.
  all: step_cases; auto.
  all: maps Ha; try prov.
Qed.

Lemma step_codes s o h c :
  codes (srv (step s o)) !! h = Some c →
  codes (srv s) !! h = Some c ∨
  (∃ okI okP id code now r, o = Poll okI okP id code now ∧ authz (srv s) !! id = Some r ∧ r.(zStatus) = authzApproved ∧
     h = sha256Hex code ∧ c.(cClient) = r.(zClient) ∧ c.(cRedirect) = r.(zRedirect) ∧ c.(cChallenge) = r.(zChallenge)).
Proof.
  intros Ha. destruct o.
  all: step_cases; auto.
  all: maps Ha; try prov.
Qed.

Lemma exactURIMatch_elem l u : exactURIMatch l u = true → u ∈ l.
Proof.
  unfold exactURIMatch. intros [_ (r & Hr & <-%String.eqb_eq)%existsb_exists]%andb_true_iff.
  by apply list_elem_of_In.
Qed.

Lemma step_authz s o id r :
  authz (srv (step s o)) !! id = Some r →
  (∃ ok now q c, o = Authorize ok id now q ∧ clients (srv s) !! r.(zClient) = Some c ∧ c.(Status) = ClientApproved ∧
     r.(zStatus) = authzPending ∧ r.(zRedirect) ∈ c.(RedirectURIs) ∧ r.(zChallenge) ≠ "") ∨
  (∃ r', authz (srv s) !! id = Some r' ∧ r.(zClient) = r'.(zClient) ∧ r.(zRedirect) = r'.(zRedirect) ∧ r.(zChallenge) = r'.(zChallenge) ∧
     (r.(zStatus) = r'.(zStatus) ∨ r'.(zStatus) = authzApproved ∨ r.(zStatus) = authzDenied ∨ o = DecideAuthz true id true)).
Proof.
  intros Ha. destruct o.
  all: step_cases; eauto 10.
  all: maps Ha; try prov.
  left. do 4 eexists. split_and!; [done|eassumption|by apply (bool_decide_unpack _), Is_true_true, negb_false_iff|done| |].
  - by apply exactURIMatch_elem, negb_false_iff.
  - by apply String.eqb_neq; apply orb_false_iff in H4 as [_ ?].
Qed.

Lemma step_rotating s o h r :
  rotating (step s o) !! h = Some r →
  rotating s !! h = Some r ∨
  (∃ rm now t c, o = RefreshBegin rm now t c ∧ h = sha256Hex t ∧ refreshCheck now t c (srv s) = Rotate r).
Proof.
  intros Ha. destruct o.
  all: step_cases; auto.
  all: maps Ha; try prov.
Qed.

Lemma authorizeIAT_configured l p e : authorizeIAT cfg l p e = true → p ∈ cfg.(IATs).*1.
Proof.
  unfold authorizeIAT. case_match; [done|]. destruct (List.find _ _) as [[i cap]|] eqn:Hf; [intros _|done].
  apply find_some in Hf as [Hin <-%String.eqb_eq]. apply list_elem_of_In in Hin. by apply (list_elem_of_fmap_2 fst).
Qed.

(** Who became approved: by an operator, or by registering with an initial access token. *)
Lemma step_approved s o id c :
  clients (srv (step s o)) !! id = Some c → c.(Status) = ClientApproved →
  (∃ c', clients (srv s) !! id = Some c' ∧ c'.(Status) = ClientApproved) ∨
  (∃ by_ now, o = ApproveClient true id by_ now) ∨
  (∃ l ok okR au p name uris h now, o = Register l ok okR au p id name uris h now ∧ cfg.(RegMode) = RegistrationToken ∧ p ∈ cfg.(IATs).*1).
Proof.
  intros Ha Hc. destruct o.
  all: step_cases; eauto.
  all: maps Ha; cbn [Status withStatus] in *; try done; try prov.
  all: right; right; do 9 eexists; split_and!; [reflexivity|done|].
  all: by eapply authorizeIAT_configured, negb_false_iff.
Qed.

(** Revoked is final, for an id that is not drawn again. *)
Definition isRevoked (id : string) (m : gmap string ClientRecord) : Prop := ∃ c, m !! id = Some c ∧ c.(Status) = ClientRevoked.
Lemma put_revoked id k c m : isRevoked id m → (k = id → c.(Status) = ClientRevoked) → isRevoked id (<[k := c]> m).
Proof.
  intros (c' & Hc & Hs) Hk. destruct (decide (k = id)) as [->|Hne].
  - exists c. by rewrite lookup_insert_eq; auto.
  - exists c'. by rewrite lookup_insert_ne.
Qed.
Lemma step_revoked s o id :
  isRevoked id (clients (srv s)) →
  (∀ l ok okR au p name uris h now, o ≠ Register l ok okR au p id name uris h now) →
  isRevoked id (clients (srv (step s o))).
Proof.
  intros Hc Hr. destruct o.
  all: step_cases; try assumption.
  all: repeat (apply put_revoked; [|intros ->; try first [reflexivity|exfalso; by eapply Hr]]).
  all: try assumption.
  all: exfalso; destruct Hc as (c' & Hc' & Hs); apply bool_decide_eq_false in H1; congruence.
Qed.

(** ** Every bearer goes back to a decision *)

(** The operator approved, in the course of [ops], an authorization request of [client] with
    this redirect URI and PKCE challenge. *)
Definition operatorApproved (ops : list op) (client redirect challenge : string) : Prop :=
  ∃ pre post id r, ops = pre ++ DecideAuthz true id true :: post ∧ authz (srv (run pre start)) !! id = Some r ∧
    r.(zClient) = client ∧ r.(zRedirect) = redirect ∧ r.(zChallenge) = challenge.
(** The client itself was approved by the operator, or registered with an initial access token. *)
Definition vouched (ops : list op) (client : string) : Prop :=
  (∃ by_ now, ApproveClient true client by_ now ∈ ops) ∨
  (∃ l ok okR au p name uris h now, Register l ok okR au p client name uris h now ∈ ops ∧ cfg.(RegMode) = RegistrationToken ∧ p ∈ cfg.(IATs).*1).

(** Everything that leads to a token goes back to a request in [P]. *)
Record traced (P : string → string → string → Prop) (s : server) : Prop := {
  tr_authz id r : authz (srv s) !! id = Some r → r.(zStatus) = authzApproved ∨ r.(zStatus) = authzCompleted → P r.(zClient) r.(zRedirect) r.(zChallenge);
  tr_codes h c : codes (srv s) !! h = Some c → P c.(cClient) c.(cRedirect) c.(cChallenge);
  tr_access h a : access (srv s) !! h = Some a → ∃ u ch, P a.(aClient) u ch;
  tr_refresh h r : refresh (srv s) !! h = Some r → ∃ u ch, P r.(rClient) u ch;
  tr_rotating h r : rotating s !! h = Some r → ∃ u ch, P r.(rClient) u ch }.

Lemma refreshCheck_rotate now t c e r :
  refreshCheck now t c e = Rotate r →
  e.(refresh) !! sha256Hex t = Some r ∧ r.(RotatedTo) = "" ∧ now ≤ r.(rExpires) ∧
  ∃ cl, e.(clients) !! r.(rClient) = Some cl ∧ cl.(Status) = ClientApproved.
Proof.
  unfold refreshCheck. intros Hr. repeat (case_match; simplify_eq).
  split_and!; [done|by apply String.eqb_eq, negb_false_iff|lia|]. eexists. split; [eassumption|]. by apply (bool_decide_eq_true_1 _).
Qed.

Lemma traced_weaken (P Q : string → string → string → Prop) s :
  (∀ c u ch, P c u ch → Q c u ch) → traced P s → traced Q s.
Proof. intros HPQ []. split; naive_solver. Qed.

Lemma step_traced P s o :
  traced P s → (∀ id r, o = DecideAuthz true id true → authz (srv s) !! id = Some r → P r.(zClient) r.(zRedirect) r.(zChallenge)) → traced P (step s o).
Proof.
  intros [Hz Hco Ha Hr Hro] Ho. split.
  - intros id r [(? & ? & ? & ? & _ & _ & _ & -> & _)|(r' & Hr' & -> & -> & -> & Hst)]%step_authz Hs; [by destruct Hs|].
    destruct Hst as [He|[He|[He| ->]]]; [|by eauto|by destruct Hs; congruence|by eauto].
    eapply Hz; [done|]. by rewrite <-He.
  - intros h c [?|(? & ? & ? & ? & ? & r & _ & Hr' & Hs & _ & -> & -> & ->)]%step_codes; eauto.
  - intros h a [?|[(? & ? & ? & ? & ? & ? & _ & Hc & -> & _)|(? & ? & ? & ? & ? & _ & Hr' & -> & _)]]%step_access; eauto.
  - intros h a [?|[(? & ? & ? & ? & ? & ? & _ & Hc & _ & -> & _)|(? & ? & ? & ? & ? & _ & Hr' & -> & _)]]%step_refresh; eauto.
  - intros h r [?|(? & ? & ? & ? & _ & _ & (Hr' & _)%refreshCheck_rotate)]%step_rotating; eauto.
Qed.

Lemma operatorApproved_snoc ops o c u ch : operatorApproved ops c u ch → operatorApproved (ops ++ [o]) c u ch.
Proof. intros (pre & post & id & r & -> & Hr). exists pre, (post ++ [o]), id, r. by rewrite <-app_assoc. Qed.

Lemma run_traced ops : traced (operatorApproved ops) (run ops start).
Proof.
  induction ops as [|o ops IH] using rev_ind.
  - by split; intros ? ? Hl; cbn in Hl; rewrite lookup_empty in Hl.
  - rewrite run_last. apply step_traced; [eapply traced_weaken, IH; intros c u ch; apply operatorApproved_snoc|].
    intros id r -> Hr. by exists ops, [], id, r.
Qed.

Lemma run_vouched ops id c :
  clients (srv (run ops start)) !! id = Some c → c.(Status) = ClientApproved → vouched ops id.
Proof.
  revert c. induction ops as [|o ops IH] using rev_ind; intros c.
  - cbn. by rewrite lookup_empty.
  - rewrite run_last. intros Hc Hs. destruct (step_approved _ _ _ _ Hc Hs) as [(c' & Hc' & Hs')|[(b & n & ->)|(l & ok & okR & au & p & nm & u & h & n & -> & Hp)]].
    + destruct (IH c' Hc' Hs') as [(b & n & ?)|(l & ok & okR & au & p & nm & u & h & n & ? & ?)]; [left|right].
      * exists b, n. set_solver.
      * exists l, ok, okR, au, p, nm, u, h, n. set_solver.
    + left. exists b, n. set_solver.
    + right. exists l, ok, okR, au, p, nm, u, h, n. set_solver.
Qed.

Lemma authenticate_spec now tok e a :
  authenticate now tok e = Some a →
  e.(access) !! sha256Hex tok = Some a ∧ now ≤ a.(aExpires) ∧ ∃ c, e.(clients) !! a.(aClient) = Some c ∧ c.(Status) = ClientApproved.
Proof.
  unfold authenticate. intros Ha. repeat (case_match; simplify_eq).
  split_and!; [done|lia|]. eexists. split; [eassumption|]. by apply (bool_decide_eq_true_1 _).
Qed.

Lemma redeem_spec m okC fam now f e t e' :
  tokenFromCode cfg m okC fam now f e = (Ok t, e') →
  ∃ c cl, e.(codes) !! sha256Hex f.(fCode) = Some c ∧ f.(fClient) = c.(cClient) ∧ f.(fRedirect) = c.(cRedirect) ∧
    f.(fVerifier) ≠ "" ∧ b64url (sha256 f.(fVerifier)) = c.(cChallenge) ∧
    e.(clients) !! c.(cClient) = Some cl ∧ cl.(Status) = ClientApproved ∧ t = (m.(mAccess), m.(mRefresh)) ∧ e'.(codes) !! sha256Hex f.(fCode) = None.
Proof.
  unfold tokenFromCode, mintTokenSet. intros Ht. repeat (case_match; fields; simplify_eq; fields).
  exists c, c0. rewrite lookup_delete_eq. rewrite !negb_false_iff in *. unfold pkceVerify in *. case_match; [done|].
  rewrite ?String.eqb_eq, ?bool_decide_eq_true, ?orb_false_iff, ?String.eqb_neq in *. naive_solver.
Qed.

(** C17. No bearer without an operator. Whatever requests reach the server, in whatever order
    and with whatever writes failing, a token it accepts belongs to a client whose
    authorization request an operator approved in that run, and to a client that the operator
    approved or that registered with a configured initial access token and is approved still;
    and the token has not expired. *)
Theorem bearer_goes_back_to_operator ops now tok a :
  authenticate now tok (srv (run ops start)) = Some a →
  (∃ u ch, operatorApproved ops a.(aClient) u ch) ∧ vouched ops a.(aClient) ∧ now ≤ a.(aExpires).
Proof.
  intros (Ha & He & c & Hc & Hs)%authenticate_spec.
  split_and!; [by eapply tr_access; [apply run_traced|]|by eapply run_vouched|done].
Qed.


(** ** Codes and refresh tokens are used once *)

Fixpoint count (f : server → op → bool) (ops : list op) (s : server) : nat :=
  match ops with [] => 0 | o :: ops => (if f s o then 1 else 0) + count f ops (step s o) end.
Lemma count_potential (f g : server → op → bool) (φ : server → nat) :
  (∀ s o, (if f s o then 1 else 0) + φ (step s o) ≤ (if g s o then 1 else 0) + φ s)%nat →
  ∀ ops s, (count f ops s + φ (run ops s) ≤ count g ops s + φ s)%nat.
Proof.
  intros Hs ops. induction ops as [|o ops IH]; intros s; [done|].
  cbn. specialize (IH (step s o)). specialize (Hs s o). unfold run in *. lia.
Qed.

(** The code of hash [h] is issued; is exchanged for tokens. *)
Definition issues (h : string) (s : server) (o : op) : bool :=
  match o with
  | Poll okI okP id code now =>
      (sha256Hex code =? h)%string && match (handleAuthorizeStatus okI okP id code now (srv s)).1 with PollCode _ _ _ => true | _ => false end
  | _ => false
  end.
Definition redeems (h : string) (s : server) (o : op) : bool :=
  match o with
  | Redeem m okC fam now f =>
      (sha256Hex f.(fCode) =? h)%string && match (tokenFromCode cfg m okC fam now f (srv s)).1 with Ok _ => true | Err _ => false end
  | _ => false
  end.
Definition holdsCode (h : string) (s : server) : nat := match codes (srv s) !! h with Some _ => 1 | None => 0 end.
Lemma holdsCode_le h s : (holdsCode h s ≤ 1)%nat.
Proof. unfold holdsCode. by case_match; lia. Qed.

Lemma poll_approved okP id code now e r :
  e.(authz) !! id = Some r → r.(zStatus) = authzApproved →
  (handleAuthorizeStatus true okP id code now e).1 = PollCode r.(zRedirect) code r.(zState).
Proof.
  intros Hz Hst. unfold handleAuthorizeStatus. rewrite Hz. case_match; [|by rewrite Hst].
  by rewrite Hst, andb_false_r in *.
Qed.
Lemma poll_error okP id code now e r :
  e.(authz) !! id = Some r → r.(zStatus) = authzApproved → handleAuthorizeStatus false okP id code now e = (PollError, e).
Proof.
  intros Hz Hst. unfold handleAuthorizeStatus. rewrite Hz. case_match; [|by rewrite Hst].
  by rewrite Hst, andb_false_r in *.
Qed.

Lemma code_potential h s o :
  ((if redeems h s o then 1 else 0) + holdsCode h (step s o) ≤ (if issues h s o then 1 else 0) + holdsCode h s)%nat.
Proof.
  destruct (redeems h s o) eqn:Hr.
  - destruct o; try done. apply andb_true_iff in Hr as [<-%String.eqb_eq Hr].
    destruct (tokenFromCode _ _ _ _ _ _ _) as [[t|] e'] eqn:Ht; [|done]. apply redeem_spec in Ht as Hsp.
    destruct Hsp as (c & cl & Hc & _ & _ & _ & _ & _ & _ & _ & Hd).
    unfold holdsCode. rewrite Hc. unfold step, onSrv. fields. rewrite Ht. fields. rewrite Hd. lia.
  - enough ((holdsCode h (step s o) ≤ (if issues h s o then 1 else 0) + holdsCode h s)%nat) by lia.
    unfold holdsCode at 1. destruct (codes _ !! h) as [c|] eqn:Hc; [|lia].
    destruct (codes (srv s) !! h) as [c'|] eqn:Hc'; [unfold holdsCode; rewrite Hc'; lia|].
    destruct (step_codes _ _ _ _ Hc) as [?|(okI & okP & id & code & now & r & -> & Hz & Hst & -> & _)]; [congruence|].
    cbn [issues]. rewrite String.eqb_refl. revert Hc. unfold step, onSrv. fields.
    destruct okI; [rewrite (poll_approved okP id code now _ r Hz Hst); cbn [andb]; lia|rewrite (poll_error okP id code now _ r Hz Hst); fields; congruence].
Qed.

(** A code is exchanged at most as often as it was issued: once, when no two codes that
    were drawn have one hash, whatever else reaches the server. *)
Theorem code_redeemed_once h ops :
  (count (redeems h) ops start ≤ count (issues h) ops start)%nat.
Proof.
  pose proof (count_potential _ _ _ (code_potential h) ops start) as Hp.
  change (holdsCode h start) with 0%nat in Hp. lia.
Qed.

(** A refresh token of hash [h] is handed out or stored; is exchanged. *)
Definition mintsOk (m : mint) : bool := match m.(mCap) with Some _ => m.(okAccess) && m.(okRefresh) | None => false end.
Definition mints (h : string) (s : server) (o : op) : bool :=
  match o with
  | Redeem m okC fam now f =>
      (sha256Hex m.(mRefresh) =? h)%string && match (tokenFromCode cfg m okC fam now f (srv s)).1 with Ok _ => true | Err _ => false end
  | RefreshEnd m okM now t =>
      (sha256Hex m.(mRefresh) =? h)%string && mintsOk m && match rotating s !! sha256Hex t with Some _ => true | None => false end
  | _ => false
  end.
Definition exchanges (h : string) (s : server) (o : op) : bool :=
  match o with
  | RefreshEnd m okM now t =>
      (sha256Hex t =? h)%string && match (refreshEnd m okM now t s).1 with Some (Ok _) => true | _ => false end
  | _ => false
  end.
(** The token can still be exchanged: unrotated, or its rotation is under way. *)
Definition live (h : string) (s : server) : bool :=
  match rotating s !! h with
  | Some _ => true
  | None => match refresh (srv s) !! h with Some r => (r.(RotatedTo) =? "")%string | None => false end
  end.

Lemma exchange_spec m okM now t s res s' :
  refreshEnd m okM now t s = (Some (Ok res), s') →
  rotating s' = delete (sha256Hex t) (rotating s) ∧
  ∃ r, refresh (srv s') !! sha256Hex t = Some r ∧ r.(RotatedTo) = sha256Hex m.(mRefresh) ∧ rotating s !! sha256Hex t ≠ None.
Proof.
  unfold refreshEnd, refreshRotate, mintTokenSet, markRotated. intros He. repeat (case_match; fields; simplify_eq; fields).
  split; [done|]. eexists. by rewrite lookup_insert_eq.
Qed.

#[local] Ltac rewrite_hyps := repeat match goal with E : _ = _ |- _ => rewrite E; clear E end.
Lemma live_step h s o : live h (step s o) = true → live h s = true ∨ mints h s o = true.
Proof.
  unfold live at 1. destruct (rotating (step s o) !! h) as [r|] eqn:Hro.
  - intros _. left. apply step_rotating in Hro as [Hro|(? & ? & t & ? & _ & -> & (Hr & Hro & _)%refreshCheck_rotate)];
      unfold live; [by rewrite Hro|]. case_match; [done|]. rewrite Hr, Hro. done.
  - destruct (refresh (srv (step s o)) !! h) as [r|] eqn:Hr; [|done]. intros Hu.
    assert (refresh (srv s) !! h = Some r → live h s = true) as Hlive by (intros Hl; unfold live; case_match; [done|]; by rewrite Hl).
    revert Hr. destruct o.
    all: step_cases; auto.
    all: intros Hr; maps Hr; auto.
    all: first [left; unfold live; rewrite_hyps; done|right; unfold mints, mintsOk, tokenFromCode, mintTokenSet].
    all: rewrite String.eqb_refl; rewrite_hyps; fields; rewrite_hyps; fields; rewrite_hyps; try done.
    all: rewrite !negb_false_iff in *; rewrite_hyps; done.
Qed.

Lemma refresh_potential `{!SHA256Laws} h s o :
  ((if exchanges h s o then 1 else 0) + (if live h (step s o) then 1 else 0) ≤ (if mints h s o then 1 else 0) + (if live h s then 1 else 0))%nat.
Proof.
  destruct (exchanges h s o) eqn:He.
  - destruct o; try done. apply andb_true_iff in He as [<-%String.eqb_eq He].
    destruct (refreshEnd _ _ _ _ _) as [[[res|]|] s'] eqn:Hx; try done.
    pose proof (exchange_spec _ _ _ _ _ _ _ Hx) as (Hro & r & Hr & Hto & Hne).
    cbn [step]. rewrite Hx. fields. unfold live. rewrite Hro, lookup_delete_eq, Hr, Hto.
    rewrite (proj2 (String.eqb_neq _ _) (sha256Hex_nonempty _)).
    destruct (rotating s !! _); [lia|done].
  - destruct (live h (step s o)) eqn:Hl; [|lia]. destruct (live_step _ _ _ Hl) as [->| ->]; lia.
Qed.

(** C19. Refresh tokens rotate: a refresh token is exchanged at most as often as it was minted,
    once when no two that were drawn have one hash, even when other requests run between the
    checks of an exchange and its rotation. *)
Theorem refresh_exchanged_once `{!SHA256Laws} h ops :
  (count (exchanges h) ops start ≤ count (mints h) ops start)%nat.
Proof.
  pose proof (count_potential _ _ (λ s, if live h s then 1 else 0)%nat (refresh_potential h) ops start) as Hp.
  cbv beta in Hp. assert (live h start = false) as Hs by reflexivity. rewrite Hs in Hp. lia.
Qed.

(** ** Revocation *)

(** The ids drawn by [ops] for new clients differ from [id]. *)
Definition drawnIDs (ops : list op) : list string :=
  omap (λ o, match o with Register _ _ _ _ _ id _ _ _ _ => Some id | _ => None end) ops.
(** What the server answers to a token request. *)
Definition granted (s : server) (o : op) : option string :=
  match o with
  | Redeem m okC fam now f => match (tokenFromCode cfg m okC fam now f (srv s)).1 with Ok _ => Some f.(fClient) | Err _ => None end
  | RefreshBegin rm now t c => match refreshCheck now t c (srv s) with Rotate r => Some r.(rClient) | Refused _ _ => None end
  | _ => None
  end.

Lemma run_revoked id ops s :
  isRevoked id (clients (srv s)) → id ∉ drawnIDs ops → isRevoked id (clients (srv (run ops s))).
Proof.
  revert s. induction ops as [|o ops IH]; intros s Hs Hd; [done|]. apply IH.
  - apply step_revoked; [done|]. intros l ok okR au p name uris h now ->. by apply Hd, list_elem_of_here.
  - intros Hin. apply Hd. unfold drawnIDs in *. cbn. case_match; [by apply list_elem_of_further|done].
Qed.

(** Revocation is final. After an operator has revoked a client, through everything that
    follows, approvals and rotations already begun included, no token of the client is
    accepted, no code of it is exchanged and no refresh of it passes the checks, unless its id
    is drawn again. *)
Theorem revoked_client_is_locked_out id ok rm l by_ ops s o :
  id ∈ dom (clients (srv s)) → ok = true → id ∉ drawnIDs ops →
  let s' := run ops (step s (RevokeC ok rm l id by_)) in
  (∀ now tok a, authenticate now tok (srv s') = Some a → a.(aClient) ≠ id) ∧ granted s' o ≠ Some id.
Proof.
  intros [c Hc]%elem_of_dom -> Hd s'. subst s'.
  assert (isRevoked id (clients (srv (step s (RevokeC true rm l id by_))))) as Hr.
  { unfold step, onSrv, RevokeClient, RevokeClientState, Revoke, revokeTokens, revokeCaps, sessionsWithout. rewrite Hc. fields.
    eexists. by rewrite lookup_insert_eq. }
  apply (run_revoked _ ops) in Hr as (c' & Hc' & Hs'); [|done]. split.
  - intros now tok a (_ & _ & cl & Hcl & Hap)%authenticate_spec <-. congruence.
  - destruct o as [| | | | | | | | |m okC fam now f|rm' now t c''|]; try done; cbn [granted].
    + destruct (tokenFromCode _ _ _ _ _ _ _) as [[t|] e'] eqn:Ht; [|done]. cbn. intros [= <-].
      apply redeem_spec in Ht as (? & cl & _ & Hcl & _ & _ & _ & Hap & ? & _). congruence.
    + destruct (refreshCheck _ _ _ _) as [|r] eqn:Ht; [done|]. intros [= <-].
      apply refreshCheck_rotate in Ht as (_ & _ & _ & cl & Hcl & Hap). congruence.
Qed.

(** No token of the family, and none on its way. *)
Definition familyGone (fam : string) (s : server) : Prop :=
  (∀ h a, access (srv s) !! h = Some a → a.(aFamily) ≠ fam) ∧ (∀ h r, refresh (srv s) !! h = Some r → r.(rFamily) ≠ fam) ∧
  (∀ h r, rotating s !! h = Some r → r.(rFamily) ≠ fam).
Definition drawnFamilies (ops : list op) : list string :=
  omap (λ o, match o with Redeem _ _ fam _ _ => Some fam | _ => None end) ops.

Lemma step_familyGone fam s o :
  familyGone fam s → (∀ m okC now f, o ≠ Redeem m okC fam now f) → familyGone fam (step s o).
Proof.
  intros (Ha & Hr & Hro) Ho. split_and!.
  - intros h a [?|[(? & ? & ? & ? & ? & ? & -> & _ & _ & ->)|(? & ? & ? & ? & ? & _ & Hr' & _ & ->)]]%step_access; [by eauto|intros ->; by eapply Ho|by eauto].
  - intros h a [?|[(? & ? & ? & ? & ? & ? & -> & _ & _ & _ & ->)|(? & ? & ? & ? & ? & _ & Hr' & _ & -> & _)]]%step_refresh; [by eauto|intros ->; by eapply Ho|by eauto].
  - intros h r [?|(? & ? & ? & ? & _ & _ & (Hr' & _)%refreshCheck_rotate)]%step_rotating; eauto.
Qed.
Lemma run_familyGone fam ops s : familyGone fam s → fam ∉ drawnFamilies ops → familyGone fam (run ops s).
Proof.
  revert s. induction ops as [|o ops IH]; intros s Hs Hd; [done|]. apply IH.
  - apply step_familyGone; [done|]. intros m okC now f ->. by apply Hd, list_elem_of_here.
  - intros Hin. apply Hd. unfold drawnFamilies in *. cbn. case_match; [by apply list_elem_of_further|done].
Qed.

(** Theft detection. When a refresh token that was rotated more than the grace period ago
    is presented again, its family is revoked: with every removal succeeding and no rotation of
    the family in flight, no token of the family is ever accepted afterwards, and none can be
    refreshed. *)
Theorem reuse_kills_the_family rm now token client s r ops :
  refresh (srv s) !! sha256Hex token = Some r → token ≠ "" → client = r.(rClient) → now ≤ r.(rExpires) →
  r.(RotatedTo) ≠ "" → refreshReplayGrace < now - r.(RotatedAt) → (∀ h, rm h = true) →
  (∀ h r', rotating s !! h = Some r' → r'.(rFamily) ≠ r.(rFamily)) →
  rotating s !! sha256Hex token = None → r.(rFamily) ∉ drawnFamilies ops →
  familyGone r.(rFamily) (run ops (step s (RefreshBegin rm now token client))).
Proof.
  intros Hr Ht -> He Hto Hg Hrm Hro Hl Hd. apply run_familyGone; [|done].
  cbn [step]. unfold refreshBegin. rewrite Hl. unfold refreshCheck. rewrite Hr.
  rewrite (proj2 (String.eqb_neq _ _) Ht), String.eqb_refl, andb_false_r, (proj2 (Z.ltb_ge _ _)) by done.
  rewrite (proj2 (String.eqb_neq _ _) Hto), (proj2 (Z.leb_gt _ _)), andb_false_r by lia. cbn [negb].
  split_and!; unfold onSrv; fields.
  - intros h a [_ Hf]%map_lookup_filter_Some. cbn in Hf. rewrite Hrm, andb_true_r in Hf. by apply String.eqb_neq, negb_true_iff.
  - intros h a [_ Hf]%map_lookup_filter_Some. cbn in Hf. rewrite Hrm, andb_true_r in Hf. by apply String.eqb_neq, negb_true_iff.
  - exact Hro.
Qed.
End Run.
End EdgeInv.
