(* ===== verification/EdgeRuns.v ===== *)
(** * EdgeRuns: concrete runs of the OAuth server

    Witnesses for the theorems of [EdgeInv], and runs that show where the server does less
    than its comments say. *)
From stdpp Require Import base list strings gmap.
From Stdlib Require Import ZArith Lia.
From S2P Require Import Prelude GoStd Frame Crypto Checkpoint Edge EdgeInv.
Open Scope Z_scope.
Open Scope mesh_scope.

Module EdgeRuns.
Import Edge EdgeInv.
#[local] Existing Instance toySHA256.

Definition sec : Z := 10 ^ 9.
Definition cfg : Config := mkConfig (3600 * sec) (86400 * sec) (600 * sec) 10 OpenApproval [] 4.
Definition compare (hash raw : string) : bool := (hash =? raw)%string.
Definition verifier : string := "verifier".
Definition challenge : string := b64url (sha256 verifier).
Definition uri : string := "https://app.example/cb".
Definition tokens (a r : string) : mint := mkMint a r ("cap-" ++ a) (Some "signed") true true.
Definition request : authReq := mkAuthReq "edge-1" uri "code" "S256" challenge "mcp" "" "st".
Definition form (code : string) : codeForm := mkCodeForm code "edge-1" uri verifier "".

(** Registration, approval, authorization, code. *)
Definition approval : list op :=
  [Register true true true true "" "edge-1" "app" [uri] "hash" 0; ApproveClient true "edge-1" "op" (1 * sec);
   Authorize true "req-1" (2 * sec) request; DecideAuthz true "req-1" true].
Definition login : list op :=
  approval ++ [Poll true true "req-1" "code-1" (3 * sec); Redeem (tokens "a1" "r1") true "fam" (4 * sec) (form "code-1")].
Definition rotated : list op :=
  login ++ [RefreshBegin (λ _, true) (5 * sec) "r1" "edge-1"; RefreshEnd (tokens "a2" "r2") true (5 * sec) "r1"].
Definition after (ops : list op) : server := run cfg compare ops start.

Lemma bearer_goes_back_to_operator_witness :
  ∃ a, authenticate (10 * sec) "a1" (srv (after login)) = Some a ∧ (∃ u ch, operatorApproved cfg compare login a.(aClient) u ch).
Proof.
  destruct (authenticate (10 * sec) "a1" (srv (after login))) as [a|] eqn:Ha; [|vm_compute in Ha; discriminate].
  exists a. split; [reflexivity|].
  exact (proj1 (bearer_goes_back_to_operator cfg compare login (10 * sec) "a1" a Ha)).
Defined.


Lemma revoked_client_is_locked_out_witness :
  authenticate (10 * sec) "a2" (srv (run cfg compare [ApproveClient true "edge-1" "op" 9]
    (step cfg compare (after rotated) (RevokeC true (λ _, false) (λ _, true) "edge-1" "op")))) = None.
Proof.
  destruct (authenticate _ _ _) as [a|] eqn:Ha; [|reflexivity]. exfalso.
  refine (proj1 (revoked_client_is_locked_out cfg compare "edge-1" true (λ _, false) (λ _, true) "op"
    [ApproveClient true "edge-1" "op" 9] (after rotated) (Deregister true "" "") _ eq_refl _) (10 * sec) "a2" a Ha _).
  - apply elem_of_dom. vm_compute. eexists. reflexivity.
  - vm_compute. intros Hin. inversion Hin.
  - vm_compute in Ha. discriminate.
Defined.

Lemma refresh_exchanged_once_witness :
  let h := sha256Hex (H := toySHA32) "r1" in
  (count (H := toySHA32) cfg compare (exchanges (H := toySHA32) cfg h) rotated start ≤
   count (H := toySHA32) cfg compare (mints (H := toySHA32) cfg h) rotated start)%nat.
Proof.
  exact (refresh_exchanged_once (H := toySHA32) (H0 := toySHA32_laws) cfg compare (sha256Hex (H := toySHA32) "r1") rotated).
Defined.

Lemma reuse_kills_the_family_witness :
  familyGone "fam" (step cfg compare (after rotated) (RefreshBegin (λ _, true) (60 * sec) "r1" "edge-1")).
Proof.
  destruct (refresh (srv (after rotated)) !! sha256Hex "r1") as [r|] eqn:Hr; [|vm_compute in Hr; discriminate].
  assert (r = mkRefresh "edge-1" "fam" 0 (sha256Hex "r2") (5 * sec) (4 * sec + 86400 * sec)) as -> by (vm_compute in Hr; injection Hr as <-; reflexivity).
  refine (reuse_kills_the_family cfg compare (λ _, true) (60 * sec) "r1" "edge-1" (after rotated) _ [] Hr _ _ _ _ _ _ _ _ _).
  all: try (vm_compute; congruence); try reflexivity.
  intros Hin. inversion Hin.
Defined.

(** The refresh token is exchanged once: presented again at once it is refused, and after the
    grace period its family is gone. *)
Lemma rotation_run :
  count cfg compare (exchanges cfg (sha256Hex "r1"))
    (rotated ++ [RefreshBegin (λ _, true) (6 * sec) "r1" "edge-1"; RefreshEnd (tokens "a3" "r3") true (6 * sec) "r1"]) start = 1%nat ∧
  authenticate (7 * sec) "a2" (srv (after rotated)) ≠ None ∧
  authenticate (61 * sec) "a2" (srv (after (rotated ++ [RefreshBegin (λ _, true) (60 * sec) "r1" "edge-1"]))) = None.
Proof. vm_compute. split_and!; congruence. Qed.

(** One authorization may yield two codes. A request that was completed can be approved
    again, and a poll whose completion could not be written issues another code: the status is
    set whatever it was, and the error of the completing write is dropped. *)
Theorem one_request_yields_two_codes :
  (handleAuthorizeStatus true true "req-1" "code-2" (4 * sec)
     (srv (after (approval ++ [Poll true true "req-1" "code-1" (3 * sec); DecideAuthz true "req-1" true])))).1 = PollCode uri "code-2" "st" ∧
  (handleAuthorizeStatus true true "req-1" "code-2" (4 * sec)
     (srv (after (approval ++ [Poll true false "req-1" "code-1" (3 * sec)])))).1 = PollCode uri "code-2" "st".
Proof. vm_compute. split; reflexivity. Qed.

(** A rotation in flight outlives the revocation of its family. The lock is the presented
    token's: while the current token is being exchanged, the reuse of an old one revokes the
    family and says so, and the exchange then stores new tokens, which are accepted. *)
Theorem rotation_survives_family_revocation :
  let s := after (rotated ++ [RefreshBegin (λ _, true) (60 * sec) "r2" "edge-1"; RefreshBegin (λ _, true) (60 * sec) "r1" "edge-1"]) in
  refreshCheck (60 * sec) "r1" "edge-1" (srv (after rotated)) = Refused ReuseDetected (Some "fam") ∧
  size (access (srv s)) = 0%nat ∧
  (∃ res, (refreshEnd cfg (tokens "a3" "r3") true (60 * sec) "r2" s).1 = Some (Ok res)) ∧
  ∃ a, authenticate (61 * sec) "a3" (srv (step cfg compare s (RefreshEnd (tokens "a3" "r3") true (60 * sec) "r2"))) = Some a ∧ a.(aFamily) = "fam".
Proof. vm_compute. split_and!; [reflexivity..|eexists; reflexivity|eexists; split; reflexivity]. Qed.

(** The cap of an initial access token counts every client. A token with a cap of one
    registers nobody once any client exists, though it was never used itself. *)
Theorem token_cap_counts_every_client :
  let cfg' := mkConfig (3600 * sec) (86400 * sec) (600 * sec) 10 RegistrationToken [("iat-1", 5%nat); ("iat-2", 1%nat)] 4 in
  authorizeIAT cfg' true "iat-2" (srv start) = true ∧
  authorizeIAT cfg' true "iat-2" (srv (run cfg' compare [Register true true true true "iat-1" "edge-1" "app" [uri] "hash" 0] start)) = false.
Proof. vm_compute. split; reflexivity. Qed.

(** The number reported by a client revocation is not the number of its tokens: every
    access token in the directory is counted, and no refresh token. *)
Theorem revocation_counts_other_clients :
  (RevokeClientState true (λ _, true) (λ _, true) "edge-2" "op"
     (srv (after (login ++ [Register true true true true "" "edge-2" "other" [uri] "hash" 0])))).1 = Ok 1%nat.
Proof. vm_compute. reflexivity. Qed.
End EdgeRuns.
