(* ===== verification/EdgeMcp.v ===== *)
(** * EdgeMcp: the MCP endpoint at the edge

    [edge/mcp.go]: the bearer check, the session of a request, the double gate of a tool call
    (the capability stored with the token, then the policy engine), the fail-closed record,
    and what is relayed to the backend. It composes the OAuth server ([Edge]), request
    classification ([Classify]), capabilities ([Capability]) and the policy engine
    ([Engine]). *)
From stdpp Require Import base list strings gmap.
From Stdlib Require Import ZArith Lia.
From S2P Require Import Prelude GoStd Classify Crypto Checkpoint Policy Engine Capability Edge EdgeInv.
Open Scope Z_scope.
Open Scope mesh_scope.

Module EdgeMcp.
Section EdgeMcp.
Context `{Ed25519} `{SHA256} `{Cap.CapCodec} `{Float64} {A : Type} `{RequestApprovalStore A} {N : Type} `{NonceStore N}.
Context (LoadLocation : string → option Location) (ParseDuration : string → option Z) (canonicalArgsHash : string → string).

Record McpConfig := mkMcpConfig { oauth : Edge.Config; BackendName : string; SessionsEnabled : bool }.
Definition oauthIdentity (clientID : string) : string := "oauth:" +:+ clientID.

(** A recorded decision, and a message relayed to the backend. *)
Record decisionRec := mkDec { dClient : string; dMethod : string; dTool : string; dDecision : string }.
Record relayed := mkRelayed { rBy : string; rMethod : string; rTool : string; rSession : option string }.
Record state := mkState {
  edge : Edge.edge; engine : Engine A; verify : Cap.CapabilityVerifier N; log : list decisionRec; sent : list relayed }.
Definition setEdge e (s : state) := mkState e s.(engine) s.(verify) s.(log) s.(sent).
Definition relay (m : relayed) (s : state) := mkState s.(edge) s.(engine) s.(verify) s.(log) (s.(sent) ++ [m]).
(** [auditDecision]: [ok] says that the ledger took the record. *)
Definition auditDecision (ok : bool) (d : decisionRec) (s : state) : state :=
  mkState s.(edge) s.(engine) s.(verify) (if ok then s.(log) ++ [d] else s.(log)) s.(sent).

Definition methodOf (c : RPCClass) : string := if bool_decide (c.(Kind) = RPCToolCall) then "tools/call" else c.(Method).
Definition toolOf (c : RPCClass) : string := if bool_decide (c.(Kind) = RPCToolCall) then c.(Tool) else "".
Definition outcomeString (o : Outcome) : string :=
  match o with OutcomeAllow => "allow" | OutcomeCosign => "cosign" | _ => "deny" end.
Definition supportedProtocolVersion (v : string) : bool := (v =? "2025-03-26")%string || (v =? "2025-06-18")%string.

(** The verifier reads the revocation list of the state directory. *)
Definition verifier (s : state) : Cap.CapabilityVerifier N :=
  Cap.WithRevocation (λ id, bool_decide (id ∈ s.(edge).(Edge.revoked))) s.(verify).

Inductive denial := CapabilityDenied (e : capErr) | AuditUnavailable | NeedsCosign | PolicyDenied.
Definition enforceToolCall (cfg : McpConfig) (auditOk : bool) (now : Instant) (a : Edge.accessRecord) (class : RPCClass) (s : state)
    : option denial * state :=
  let id := oauthIdentity a.(Edge.aClient) in
  let entry d := mkDec a.(Edge.aClient) "tools/call" class.(Tool) d in
  match Cap.Verify (verifier s) a.(Edge.Capability) id cfg.(BackendName) class.(Tool) now with
  | (Err e, v) => (Some (CapabilityDenied e), auditDecision auditOk (entry "deny") (mkState s.(edge) s.(engine) v s.(log) s.(sent)))
  | (Ok _, v) =>
      let '(dec, eng) := DecideToolCallBound LoadLocation ParseDuration canonicalArgsHash id id cfg.(BackendName) class.(Tool) class.(Args) ∅ now s.(engine) in
      let s := auditDecision auditOk (entry (outcomeString dec.(outcome))) (mkState s.(edge) eng v s.(log) s.(sent)) in
      match dec.(outcome) with
      | OutcomeAllow => if auditOk then (None, s) else (Some AuditUnavailable, s)
      | OutcomeCosign => (Some NeedsCosign, s)
      | _ => (Some PolicyDenied, s)
      end
  end.

(** A request, and what the run decides around it: the rate limiter, the audit sink, the dial
    of the backend and the id drawn for a new session. *)
Record request := mkRequest { token : string; version : string; header : string; body : option string }.
Record env := mkEnv { limited : bool; auditOk : bool; dialOk : bool; drawn : string }.
Inductive reply := BadVersion | NotAllowed | Unauthorized | RateLimited | TooLarge | BadRPC | DialFailed | SessionLimit | MissingSession | UnknownSession
| DeniedCall (d : denial) | Accepted | Relayed | BackendUnavailable | NilBridgePanic.

(** [resolveSession]: [None] is the stateless mode. *)
Definition resolveSession (cfg : McpConfig) (v : env) (a : Edge.accessRecord) (header : string) (class : RPCClass) (s : state)
    : result reply (option string) * state :=
  if negb cfg.(SessionsEnabled) then (Ok None, s)
  else if (class.(Method) =? "initialize")%string then
    if negb v.(dialOk) then (Err DialFailed, s)
    else match Edge.createSession cfg.(oauth) v.(drawn) a.(Edge.aClient) a.(Edge.aFamily) s.(edge) with
    | Some e => (Ok (Some v.(drawn)), setEdge e s)
    | None => (Err SessionLimit, s)
    end
  else if (header =? "")%string then (Err MissingSession, s)
  else match Edge.getSession header a s.(edge) with
  | Some _ => (Ok (Some header), s)
  | None => (Err UnknownSession, s)
  end.

(** The relay: through the session's bridge, or through one dialled for the message; a failed
    dial passes a nil bridge on. *)
Definition forward (v : env) (a : Edge.accessRecord) (sess : option string) (class : RPCClass) (s : state) : reply * state :=
  match sess, v.(dialOk) with
  | None, false => (NilBridgePanic, s)
  | _, _ =>
      (if bool_decide (class.(Kind) = RPCNotification) then Accepted else Relayed,
       relay (mkRelayed a.(Edge.aClient) (methodOf class) (toolOf class) sess) s)
  end.

Definition mcpPost (cfg : McpConfig) (v : env) (now : Instant) (r : request) (s : state) : reply * state :=
  match Edge.authenticate now r.(token) s.(edge) with
  | None => (Unauthorized, s)
  | Some a =>
      if v.(limited) then (RateLimited, s)
      else match r.(body) with
      | None => (TooLarge, s)
      | Some body =>
          let class := ClassifyRPC body in
          match class.(Kind) with
          | RPCEmpty | RPCBatch | RPCInvalid => (BadRPC, s)
          | _ =>
              match resolveSession cfg v a r.(header) class s with
              | (Err er, s) => (er, s)
              | (Ok sess, s) =>
                  match class.(Kind) with
                  | RPCToolCall =>
                      match enforceToolCall cfg v.(auditOk) now a class s with
                      | (Some d, s) => (DeniedCall d, s)
                      | (None, s) => forward v a sess class s
                      end
                  | _ => forward v a sess class (auditDecision v.(auditOk) (mkDec a.(Edge.aClient) (methodOf class) (toolOf class) "allow") s)
                  end
              end
          end
      end
  end.

Definition mcpDelete (now : Instant) (token header : string) (s : state) : reply * state :=
  match Edge.authenticate now token s.(edge) with
  | None => (Unauthorized, s)
  | Some a =>
      if (header =? "")%string then (MissingSession, s)
      else match Edge.deleteSession header a s.(edge) with
      | (true, e) => (Accepted, setEdge e s)
      | (false, _) => (UnknownSession, s)
      end
  end.
Inductive verb := POST | DELETE | OtherVerb.
Definition handleMCP (cfg : McpConfig) (m : verb) (v : env) (now : Instant) (r : request) (s : state) : reply * state :=
  if negb (r.(version) =? "")%string && negb (supportedProtocolVersion r.(version)) then (BadVersion, s)
  else match m with
  | POST => mcpPost cfg v now r s
  | DELETE => mcpDelete now r.(token) r.(header) s
  | OtherVerb => (NotAllowed, s)
  end.

(** ** The double gate *)

(** A message that classification lets through under another method is not a tool call. *)
Lemma classified_tool_call body :
  (ClassifyRPC body).(Method) = "tools/call" → (ClassifyRPC body).(Kind) = RPCToolCall ∨ (ClassifyRPC body).(Kind) = RPCInvalid.
Proof.
  unfold ClassifyRPC. repeat case_match; cbn [Method Kind]; intros E; auto; try discriminate E.
  all: match goal with Hn : (_ =? "tools/call")%string = false |- _ => apply String.eqb_neq in Hn; congruence end.
Qed.

(** The session a message is relayed through was just opened for, or belongs to, the client
    and the token family of the request. *)
Definition boundSession (a : Edge.accessRecord) (sess : option string) (e : Edge.edge) : Prop :=
  ∀ id, sess = Some id → ∃ m, e.(Edge.sessions) !! id = Some m ∧ m.(Edge.sClient) = a.(Edge.aClient) ∧ m.(Edge.sFamily) = a.(Edge.aFamily).

Lemma resolveSession_spec cfg v a h class s sess s' :
  resolveSession cfg v a h class s = (Ok sess, s') →
  boundSession a sess s'.(edge) ∧ s'.(engine) = s.(engine) ∧ s'.(verify) = s.(verify) ∧ s'.(log) = s.(log) ∧ s'.(sent) = s.(sent) ∧
  s'.(edge).(Edge.revoked) = s.(edge).(Edge.revoked) ∧ (sess = None → cfg.(SessionsEnabled) = false).
Proof.
  unfold resolveSession, Edge.createSession, Edge.getSession, setEdge. intros Hr. repeat (case_match; simplify_eq).
  all: split_and!; try done; try (intros ? [= <-]).
  - by rewrite negb_true_iff in *.
  - eexists. cbn. by rewrite lookup_insert_eq.
  - rewrite andb_true_iff, !String.eqb_eq in *. naive_solver.
Qed.

(** What let a tool call of the holder of [a] through. *)
Definition gatesOpen (cfg : McpConfig) (v : env) (now : Instant) (a : Edge.accessRecord) (tool : string) (s s' : state) : Prop :=
  let id := oauthIdentity a.(Edge.aClient) in
  (∃ c anc, Cap.authorized (verifier s) c anc id cfg.(BackendName) tool now ∧ c.(Cap.ID) ∉ s.(edge).(Edge.revoked)) ∧
  (∃ args dec, DecideToolCallBound LoadLocation ParseDuration canonicalArgsHash id id cfg.(BackendName) tool args ∅ now s.(engine) = (dec, s'.(engine)) ∧
     dec.(outcome) = OutcomeAllow) ∧
  v.(auditOk) = true ∧ s'.(log) = s.(log) ++ [mkDec a.(Edge.aClient) "tools/call" tool "allow"].

Lemma enforceToolCall_spec cfg v now a class s s' :
  enforceToolCall cfg v.(auditOk) now a class s = (None, s') →
  gatesOpen cfg v now a class.(Tool) s s' ∧ s'.(sent) = s.(sent) ∧ s'.(edge) = s.(edge).
Proof.
  unfold enforceToolCall, Cap.Verify. intros He.
  destruct (Cap.verifyClaims _ _ _ _ _ _) as [c|] eqn:Hv; [|by simplify_eq].
  destruct (Cap.Consume _ _ _) as [[u|] v'] eqn:Hc; [|by simplify_eq].
  destruct (DecideToolCallBound _ _ _ _ _ _ _ _ _ _) as [dec eng] eqn:Hd.
  destruct (outcome dec) eqn:Ho; try by simplify_eq.
  destruct (auditOk v) eqn:Ha; simplify_eq. split; [|done].
  apply Cap.verifyClaims_sound in Hv as (_ & anc & Hau). split_and!.
  - exists c, anc. split; [done|]. destruct Hau as (_ & _ & _ & Hcur & _).
    destruct (Hcur c (list_elem_of_here _ _)) as (_ & _ & _ & Hr & _). cbn in Hr. by apply bool_decide_eq_false in Hr.
  - by exists class.(Args), dec.
  - done.
  - done.
Qed.

Lemma forward_spec v a sess class s rep s' :
  forward v a sess class s = (rep, s') →
  s' = s ∨ s' = relay (mkRelayed a.(Edge.aClient) (methodOf class) (toolOf class) sess) s.
Proof. unfold forward. repeat case_match; intros [= <- <-]; auto. Qed.

Lemma gatesOpen_edge cfg v now a tool s s1 s' :
  s1.(engine) = s.(engine) → s1.(verify) = s.(verify) → s1.(log) = s.(log) → s1.(edge).(Edge.revoked) = s.(edge).(Edge.revoked) →
  gatesOpen cfg v now a tool s1 s' → gatesOpen cfg v now a tool s s'.
Proof. unfold gatesOpen, verifier. intros -> -> -> ->. done. Qed.

End EdgeMcp.
End EdgeMcp.

Module McpRuns.
Import EdgeMcp EngineRuns CapRuns.

Definition claims : Cap.CapabilityClaims :=
  Cap.mkClaims 0 "edgecap-1" "edge:db" "oauth:edge-1" "db" ["read"; "write"] [] false 0 0 3600 "" "" "" "".
Definition grant : string := Eval vm_compute in get (Cap.IssueCapability authority claims (Some []) 0).
Definition client : Edge.ClientRecord := Edge.mkClient "edge-1" "app" [] "" Edge.OpenApproval Edge.ClientApproved 0 "op" 0.
Definition base : Edge.edge :=
  Edge.mkEdge {["edge-1" := client]} ∅ ∅ {[sha256Hex "a1" := Edge.mkAccess "edge-1" "fam" grant "edgecap-1" (3600 * Second)]} ∅ ∅
    {["s1" := Edge.mkSession "edge-1" "fam"]}.
Definition policy : Policy := mkPolicy false [mkRule ["pubkey:oauth:edge-1"] ["read"] [] true None None false false false [] []].
Definition cfg (sessions : bool) : McpConfig :=
  mkMcpConfig (Edge.mkConfig (3600 * Second) (86400 * Second) (600 * Second) 10 Edge.OpenApproval [] 4) "db" sessions.
Definition s0 : EdgeMcp.state (A := list ApprovalRequest) (N := gmap string Z) :=
  EdgeMcp.mkState base (NewEngine hashOf policy None) CapRuns.verifier [] [].
Definition callBody (tool : string) : string :=
  dq ("{'jsonrpc':'2.0','id':1,'method':'tools/call','params':{'name':'" +:+ tool +:+ "','arguments':{}}}").
Definition io (audit dial : bool) : env := mkEnv false audit dial "s2".
Definition post (sessions : bool) (v : env) (body : string) (s : EdgeMcp.state) :=
  mcpPost (A := list ApprovalRequest) (N := gmap string Z) UTC oneSecond argsHash (cfg sessions) v Second (EdgeMcp.mkRequest "a1" "" "s1" (Some body)) s.
End McpRuns.
Import EngineRuns CapRuns McpRuns.


(** Each gate on its own refuses: the tool outside the policy, the tool outside the
    capability, the call that cannot be recorded; the method that is no tool call passes. *)
Lemma gates_run :
  (post true (io true true) (callBody "write") s0).1 = EdgeMcp.DeniedCall EdgeMcp.PolicyDenied ∧
  (∃ e, (post true (io true true) (callBody "drop") s0).1 = EdgeMcp.DeniedCall (EdgeMcp.CapabilityDenied e)) ∧
  (post true (io false true) (callBody "read") s0).1 = EdgeMcp.DeniedCall EdgeMcp.AuditUnavailable ∧
  (post true (io false true) (dq "{'jsonrpc':'2.0','id':1,'method':'tools/list'}") s0).1 = EdgeMcp.Relayed.
Proof. vm_compute. split_and!; try reflexivity. eexists. reflexivity. Qed.

(** Without sessions, a backend that cannot be dialled crashes the request: the relay is
    run on a nil bridge, instead of answering that the backend is unavailable. *)
Theorem failed_dial_relays_on_nil_bridge :
  (post false (io true false) (callBody "read") s0).1 = EdgeMcp.NilBridgePanic ∧
  EdgeMcp.log (post false (io true false) (callBody "read") s0).2 = [EdgeMcp.mkDec "edge-1" "tools/call" "read" "allow"].
Proof. vm_compute. split; reflexivity. Qed.
