(* ===== verification/Secrets.v ===== *)
(** * Secrets: credentials by reference, and what a response may not echo

    [secrets/broker.go]: an outbound call names secrets as [{{secret:NAME}}] in string values
    of its arguments; the broker checks every reference against the grants of the caller, its
    tool, its place and the labels of the session, and puts the values in.
    [policy/redact.go] scrubs injected values from what a backend answers, on the response
    path of [policy/filter.go] ([pumpInner]). Arguments are decoded to [any]: an object is a map sorted
    by key, a number a [float64] ([number] is its text after the round trip, [None] out of
    range). Go visits maps in any order: [shuffle] is the order of the visit. *)
From stdpp Require Import base list strings gmap.
From Stdlib Require Import ZArith Lia Ascii.
From S2P Require Import Prelude GoStd Json Classify Policy Engine Filter.
Open Scope Z_scope.
Open Scope mesh_scope.

Module Secrets.

(** ** Decoded values *)


Inductive anyv :=
| ANull | ABool (b : bool) | ANum (text : string) | AStr (s : string)
| AArr (l : list anyv) | AObj (m : list (string * anyv)).

(** A map kept sorted by its keys; later members win. *)
Fixpoint putKey {A} (k : string) (v : A) (m : list (string * A)) : list (string * A) :=
  match m with
  | [] => [(k, v)]
  | (k', v') :: m' =>
      if (k =? k')%string then (k, v) :: m'
      else if strLtb k k' then (k, v) :: m
      else (k', v') :: putKey k v m'
  end.
Section Any.
Context (number : string → option string).
Fixpoint toAny (j : json) : option anyv :=
  match j with
  | JNull => Some ANull
  | JBool b => Some (ABool b)
  | JNum t => ANum <$> number t
  | JStr s => Some (AStr s)
  | JArr l =>
      AArr <$> (fix go (l : list json) : option (list anyv) :=
        match l with [] => Some [] | x :: l => x' ← toAny x; l' ← go l; Some (x' :: l') end) l
  | JObj l =>
      AObj <$> (fix go (acc : list (string * anyv)) (l : list (string * string * json)) : option (list (string * anyv)) :=
        match l with [] => Some acc | (k, _, x) :: l => x' ← toAny x; go (putKey k x' acc) l end) [] l
  end.
Definition unmarshalAny (s : string) : option anyv := parseJSON s ≫= toAny.
End Any.
Fixpoint marshalAny (v : anyv) : string :=
  match v with
  | ANull => "null"
  | ABool b => if b then "true" else "false"
  | ANum t => t
  | AStr s => marshalString s
  | AArr l =>
      "[" +:+ (fix go (l : list anyv) : string :=
        match l with [] => "" | [x] => marshalAny x | x :: l => marshalAny x +:+ "," +:+ go l end) l +:+ "]"
  | AObj m =>
      "{" +:+ (fix go (m : list (string * anyv)) : string :=
        match m with
        | [] => ""
        | [(k, x)] => marshalString k +:+ ":" +:+ marshalAny x
        | (k, x) :: m => marshalString k +:+ ":" +:+ marshalAny x +:+ "," +:+ go m
        end) m +:+ "}"
  end.

(** ** References *)

Definition spaceRe (c : Z) : bool := (c =? 9) || (c =? 10) || (c =? 12) || (c =? 13) || (c =? 32).
Definition nameRe (c : Z) : bool :=
  ((65 <=? c) && (c <=? 90)) || ((97 <=? c) && (c <=? 122)) || ((48 <=? c) && (c <=? 57)) || (c =? 95) || (c =? 46) || (c =? 45).
Fixpoint span (p : Z → bool) (l : list Z) : list Z * list Z :=
  match l with
  | c :: l' => if p c then (c :: (span p l').1, (span p l').2) else ([], l)
  | [] => ([], [])
  end.
(** [refRe] at the head of the text: the name and what follows. *)
Definition markAt (l : list Z) : option (string * list Z) :=
  match l with
  | 123 :: 123 :: r =>
      r ← literal (codes "secret:") (span spaceRe r).2;
      let '(n, r) := span nameRe r in
      if bool_decide (n = []) then None
      else match (span spaceRe r).2 with 125 :: 125 :: r => Some (of_codes n, r) | _ => None end
  | _ => None
  end.
Inductive piece := Lit (c : Z) | Mark (name : string).
Fixpoint pieces (fuel : nat) (l : list Z) : list piece :=
  match l, fuel with
  | [], _ => []
  | _, O => []
  | c :: l', S fuel =>
      match markAt l with
      | Some (name, rest) => Mark name :: pieces fuel rest
      | None => Lit c :: pieces fuel l'
      end
  end.
Definition piecesOf (s : string) : list piece := pieces (String.length s) (codes s).
Definition marks (s : string) : list string := omap (λ p, match p with Mark n => Some n | Lit _ => None end) (piecesOf s).
Definition expand (values : string → string) (s : string) : string :=
  of_codes (flat_map (λ p, match p with Lit c => [c] | Mark n => codes (values n) end) (piecesOf s)).

Record markerSite := mkSite { sName : string; sPath : string }.
Definition joinPath (base seg : string) : string := if (base =? "")%string then seg else base +:+ "." +:+ seg.
Fixpoint collectMarkers (v : anyv) (path : string) : list markerSite :=
  match v with
  | AObj m =>
      (fix go (m : list (string * anyv)) : list markerSite :=
        match m with [] => [] | (k, x) :: m => collectMarkers x (joinPath path k) ++ go m end) m
  | AArr l =>
      (fix go (i : Z) (l : list anyv) : list markerSite :=
        match l with [] => [] | x :: l => collectMarkers x (joinPath path (itoa i)) ++ go (i + 1) l end) 0 l
  | AStr s => (λ n, mkSite n path) <$> marks s
  | _ => []
  end.
Fixpoint replaceMarkers (values : string → string) (v : anyv) : anyv :=
  match v with
  | AObj m =>
      AObj ((fix go (m : list (string * anyv)) : list (string * anyv) :=
        match m with [] => [] | (k, x) :: m => (k, replaceMarkers values x) :: go m end) m)
  | AArr l =>
      AArr ((fix go (l : list anyv) : list anyv := match l with [] => [] | x :: l => replaceMarkers values x :: go l end) l)
  | AStr s => AStr (expand values s)
  | v => v
  end.

(** ** Grants *)

Record Grant := mkGrant {
  gPeers : list string; gSecrets : list string; gTools : list string; gLocations : list string; gBlockLabels : list string }.
Definition matchPeer (patterns : list string) (fqdn key : string) : bool :=
  match patterns with
  | [] => true
  | _ => existsb (λ p, match cutPrefix "pubkey:" p with
                       | Some k => (k =? key)%string && negb (key =? "")%string
                       | None => matchPattern p fqdn
                       end) patterns
  end.
Definition matchGlob (patterns : list string) (v : string) : bool := existsb (λ p, matchPattern p v) patterns.
Inductive why := Blocked (label : string) | WrongLocation | NotGranted | Unavailable | Injected.
(** The grant covers the reference, before its place and the labels are looked at. *)
Definition covers (c : Caller) (secret tool : string) (g : Grant) : bool :=
  matchPeer g.(gPeers) c.(cPeer) c.(cPeerKey) && matchGlob g.(gSecrets) secret && (negb (nonempty g.(gTools)) || matchGlob g.(gTools) tool).
Fixpoint authorize (gs : list Grant) (c : Caller) (secret tool path : string) (labels : gset string) (blocked : option string) (loc : bool) : option why :=
  match gs with
  | [] => Some (match blocked with Some l => Blocked l | None => if loc then WrongLocation else NotGranted end)
  | g :: gs =>
      if negb (covers c secret tool g) then authorize gs c secret tool path labels blocked loc
      else if nonempty g.(gLocations) && negb (matchGlob g.(gLocations) path) then authorize gs c secret tool path labels blocked true
      else if negb (firstPresent g.(gBlockLabels) labels =? "")%string
      then authorize gs c secret tool path labels (Some (firstPresent g.(gBlockLabels) labels)) loc
      else None
  end.

(** ** Resolution *)

Record use := mkUse { uSecret : string; uAllowed : bool; uWhy : why }.
Definition Store := string → option string.
(** The loop that authorises and resolves every reference: the values, or the denial. *)
Fixpoint gather (gs : list Grant) (store : Store) (c : Caller) (tool : string) (labels : gset string) (sites : list markerSite) (values : list (string * string))
    : use + list (string * string) :=
  match sites with
  | [] => inr values
  | s :: sites =>
      match authorize gs c s.(sName) tool s.(sPath) labels None false with
      | Some w => inl (mkUse s.(sName) false w)
      | None =>
          match mapGet s.(sName) values with
          | Some _ => gather gs store c tool labels sites values
          | None =>
              match store s.(sName) with
              | None => inl (mkUse s.(sName) false Unavailable)
              | Some v => gather gs store c tool labels sites (values ++ [(s.(sName), v)])
              end
          end
      end
  end.
Definition valueOf (values : list (string * string)) (n : string) : string := default "" (mapGet n values).
(** [jsonInner]: the encoded string without its quotes. *)
Definition jsonInner (v : string) : string := of_codes (removelast (tail (codes (marshalString v)))).
Definition injectedOf (values : list (string * string)) : list string :=
  flat_map (λ nv, nv.2 :: (if (jsonInner nv.2 =? nv.2)%string then [] else [jsonInner nv.2])) values.
Fixpoint infixb (p l : list Z) : bool :=
  bool_decide (take (length p) l = p) || match l with [] => false | _ :: l => infixb p l end.
Definition refMarker : list Z := codes "{{secret:".

Definition Resolve (number : string → option string) (shuffle : list markerSite → list markerSite) (gs : list Grant) (store : Store)
    (c : Caller) (tool line : string) (labels : gset string) : option (string * list string) * list use :=
  let untouched := (Some (line, []), []) in
  if negb (infixb refMarker (codes line)) then untouched
  else match unmarshalMap line with
  | None => untouched
  | Some msg =>
      match mapGet "params" msg ≫= unmarshalMap with
      | None => untouched
      | Some params =>
          match mapGet "arguments" params ≫= unmarshalAny number with
          | None => untouched
          | Some args =>
              match shuffle (collectMarkers args "") with
              | [] => untouched
              | sites =>
                  match gather gs store c tool labels sites [] with
                  | inl u => (None, [u])
                  | inr values =>
                      let params := mapSet "arguments" (marshalAny (replaceMarkers (valueOf values) args)) params in
                      let msg := mapSet "params" (marshalMap params) msg in
                      (Some (marshalMap msg +:+ (if endsWithNewline line then of_codes [10] else ""), injectedOf values),
                       (λ nv, mkUse nv.1 true Injected) <$> values)
                  end
              end
          end
      end
  end.
(** The broker as the resolver of a [Filter]. *)
Definition broker number shuffle gs store : SecretResolver := λ c tool line labels, (Resolve number shuffle gs store c tool line labels).1.

(** ** The response path *)

Definition redactMinLen : nat := 4.
Definition redactPlaceholder : list Z := codes "[redacted-secret]".
(** [Redactor.Add]. *)
Definition Add (vals : list (list Z)) (known : list (list Z)) : list (list Z) :=
  fold_left (λ r v, if (length v <? redactMinLen)%nat || bool_decide (v ∈ r) then r else r ++ [v]) vals known.
(** [bytes.ReplaceAll]. *)
Fixpoint replaceAll (fuel : nat) (v p l : list Z) : list Z :=
  match l, fuel with
  | [], _ => []
  | _, O => []
  | c :: l', S fuel =>
      if bool_decide (take (length v) l = v) then p ++ replaceAll fuel v p (drop (length v) l) else c :: replaceAll fuel v p l'
  end.
Definition Redact (vals : list (list Z)) (b : list Z) : list Z :=
  fold_left (λ out v, if infixb v out then replaceAll (length out) v redactPlaceholder out else out) vals b.
(** [pumpInner]: the rounds of the inner loop on what has been read; what is written to the
    peer and what stays in the buffer. *)
Fixpoint cutAt (l : list Z) : option (list Z * list Z) :=
  match l with
  | [] => None
  | c :: l => if c =? 10 then Some ([10], l) else match cutAt l with Some (a, b) => Some (c :: a, b) | None => None end
  end.
Fixpoint drainLines (fuel : nat) (vals : list (list Z)) (buf : list Z) : list Z * list Z :=
  match fuel, cutAt buf with
  | S fuel, Some (line, rest) => let '(out, rest) := drainLines fuel vals rest in (Redact vals line ++ out, rest)
  | _, _ => ([], buf)
  end.
Definition pumpRead (vals : list (list Z)) (chunk buf : list Z) : list Z * list Z :=
  drainLines (length (buf ++ chunk)) vals (buf ++ chunk).
Definition pumpEOF (vals : list (list Z)) (buf : list Z) : list Z := match buf with [] => [] | _ => Redact vals buf end.
Fixpoint pumpInner (vals : list (list Z)) (chunks : list (list Z)) (buf : list Z) : list Z :=
  match chunks with
  | [] => pumpEOF vals buf
  | c :: cs => let '(out, buf) := pumpRead vals c buf in out ++ pumpInner vals cs buf
  end.
(** ** Only granted secrets *)

Section AnyInd.
Context (P : anyv → Prop).
Context (Hatom : ∀ v, match v with AArr _ | AObj _ => False | _ => True end → P v).
Context (Harr : ∀ l, Forall P l → P (AArr l)) (Hobj : ∀ m, Forall (λ kv, P kv.2) m → P (AObj m)).
Fixpoint anyv_rect' (v : anyv) : P v :=
  match v with
  | AArr l => Harr l ((fix go l : Forall P l := match l with [] => Forall_nil_2 _ | x :: l => Forall_cons_2 _ _ _ (anyv_rect' x) (go l) end) l)
  | AObj m => Hobj m ((fix go m : Forall (λ kv, P kv.2) m := match m with [] => Forall_nil_2 _ | x :: m => Forall_cons_2 _ _ _ (anyv_rect' x.2) (go m) end) m)
  | v => Hatom v I
  end.
End AnyInd.

Lemma expand_ext (f g : string → string) s : (∀ n, n ∈ marks s → f n = g n) → expand f s = expand g s.
Proof.
  unfold marks, expand. intros Hn. f_equal. induction (piecesOf s) as [|[c|n] ps IH]; [done|cbn; by rewrite IH|].
  cbn. rewrite (Hn n), IH; [done| |by left]. intros m Hm. apply Hn. by right.
Qed.

(** Replacement reads the values of the collected references only. *)
Lemma replaceMarkers_ext (f g : string → string) v path :
  (∀ s, s ∈ collectMarkers v path → f s.(sName) = g s.(sName)) → replaceMarkers f v = replaceMarkers g v.
Proof.
  revert path. induction v as [v Hv|l IH|m IH] using anyv_rect'; intros path Hs.
  - destruct v; try done. cbn. f_equal. apply expand_ext. intros n Hn. apply (Hs (mkSite n path)). cbn.
    by apply (list_elem_of_fmap_2 (λ n, mkSite n path)).
  - cbn [replaceMarkers]. f_equal. cbn [collectMarkers] in Hs. revert Hs. generalize 0 as i.
    induction IH as [|x l Hx IHl IHi]; intros i Hs; [done|]. f_equal.
    + apply (Hx (joinPath path (itoa i))). intros s Hin. apply Hs, elem_of_app. by left.
    + apply (IHi (i + 1)). intros s Hin. apply Hs, elem_of_app. by right.
  - cbn [replaceMarkers]. f_equal. cbn [collectMarkers] in Hs. revert Hs.
    induction IH as [|[k x] m Hx IHm IHi]; intros Hs; [done|]. f_equal; [f_equal|].
    + apply (Hx (joinPath path k)). intros s Hin. apply Hs, elem_of_app. by left.
    + apply IHi. intros s Hin. apply Hs, elem_of_app. by right.
Qed.

(** What an authorised reference has: a grant that covers it, its place and the session. *)
Definition granted (gs : list Grant) (c : Caller) (secret tool path : string) (labels : gset string) : Prop :=
  ∃ g, g ∈ gs ∧ covers c secret tool g = true ∧ (g.(gLocations) = [] ∨ matchGlob g.(gLocations) path = true) ∧
    firstPresent g.(gBlockLabels) labels = "".
Lemma authorize_granted gs c secret tool path labels blocked loc :
  authorize gs c secret tool path labels blocked loc = None ↔ granted gs c secret tool path labels.
Proof.
  revert blocked loc. induction gs as [|g gs IH]; intros blocked loc; cbn.
  - split; [done|]. intros (g & Hg & _). inversion Hg.
  - assert (granted (g :: gs) c secret tool path labels ↔
      (covers c secret tool g = true ∧ (g.(gLocations) = [] ∨ matchGlob g.(gLocations) path = true) ∧ firstPresent g.(gBlockLabels) labels = "") ∨
      granted gs c secret tool path labels) as ->.
    { unfold granted. setoid_rewrite elem_of_cons. naive_solver. }
    destruct (covers c secret tool g); cbn [negb]; [|rewrite IH; naive_solver].
    destruct (nonempty (gLocations g) && negb (matchGlob (gLocations g) path)) eqn:Hl.
    { rewrite IH. apply andb_true_iff in Hl as [Hn Hm]. apply negb_true_iff in Hm. destruct (gLocations g); [done|]. naive_solver congruence. }
    destruct (String.eqb_spec (firstPresent (gBlockLabels g) labels) "") as [He|He]; cbn [negb]; [|rewrite IH; naive_solver].
    split; [intros _; left|done]. split_and!; [done| |done].
    destruct (gLocations g) as [|l ls] eqn:Hg; [by left|right]. cbn [nonempty andb] in Hl. by apply negb_false_iff in Hl.
Qed.

Lemma mapGet_app n values m v :
  mapGet n (values ++ [(m, v)]) = match mapGet n values with Some x => Some x | None => if (n =? m)%string then Some v else None end.
Proof.
  induction values as [|[k x] values IH]; cbn; [done|]. by destruct (n =? k)%string.
Qed.

Lemma mapGet_elem n v m : mapGet n m = Some v → (n, v) ∈ m.
Proof.
  induction m as [|[k x] m IH]; cbn; [done|]. destruct (String.eqb_spec n k) as [->|]; [intros [= ->]; by left|].
  intros Hm. right. by apply IH.
Qed.
Lemma injectedOf_elem v values : v ∈ injectedOf values → ∃ nv, nv ∈ values ∧ (v = nv.2 ∨ v = jsonInner nv.2).
Proof.
  induction values as [|nv values IH]; cbn; [intros Hv; inversion Hv|].
  intros [->|[Hin|(x & Hx & Hv)%IH]%elem_of_app]%elem_of_cons.
  - exists nv. split; [by left|by left].
  - case_match; [by inversion Hin|]. apply list_elem_of_singleton in Hin. exists nv. split; [by left|by right].
  - exists x. split; [by right|done].
Qed.

(** Every reference of a gathered call was granted, and its value is the store's. *)
Lemma gather_spec gs store c tool labels sites values out :
  gather gs store c tool labels sites values = inr out →
  (∀ n v, mapGet n values = Some v → store n = Some v) →
  (∀ s, s ∈ sites → granted gs c s.(sName) tool s.(sPath) labels ∧ mapGet s.(sName) out = store s.(sName) ∧ is_Some (store s.(sName))) ∧
  (∀ n v, mapGet n values = Some v → mapGet n out = Some v) ∧
  (∀ nv, nv ∈ out → nv ∈ values ∨ ∃ s, s ∈ sites ∧ s.(sName) = nv.1 ∧ store nv.1 = Some nv.2).
Proof.
  revert values. induction sites as [|s sites IH]; intros values Hg Hv; cbn in Hg.
  { simplify_eq. split_and!; [intros s Hs; inversion Hs|done|auto]. }
  destruct (authorize _ _ _ _ _ _ _ _) eqn:Ha; [done|]. apply authorize_granted in Ha.
  destruct (mapGet (sName s) values) as [x|] eqn:Hm.
  - destruct (IH values Hg Hv) as (H1 & H2 & H3). split_and!; [|done|].
    + intros s' [->|Hs']%elem_of_cons; [|by apply H1]. split; [done|]. rewrite (H2 _ _ Hm), (Hv _ _ Hm). by split; [|eexists].
    + intros nv [?|(s' & Hs' & ?)]%H3; [by left|right]. exists s'. split; [by right|done].
  - destruct (store (sName s)) as [v|] eqn:Hst; [|done].
    destruct (IH _ Hg) as (H1 & H2 & H3).
    { intros n w. rewrite mapGet_app. destruct (mapGet n values) as [y|] eqn:Hn; [intros [= <-]; by apply Hv|].
      destruct (String.eqb_spec n (sName s)) as [->|]; [|done]. by intros [= <-]. }
    split_and!.
    + intros s' [->|Hs']%elem_of_cons; [|by apply H1]. split; [done|].
      rewrite (H2 (sName s) v), Hst; [by split; [|eexists]|]. rewrite mapGet_app, Hm. by rewrite String.eqb_refl.
    + intros n w Hn. apply H2. by rewrite mapGet_app, Hn.
    + intros nv [Hin|(s' & Hs' & ?)]%H3.
      * apply elem_of_app in Hin as [?|Hn]; [by left|right]. apply list_elem_of_singleton in Hn as ->. exists s. split; [by left|done].
      * right. exists s'. split; [by right|done].
Qed.

(** Two stores that agree on what may be used gather alike. *)
Lemma gather_ext gs st1 st2 c tool labels sites values :
  (∀ n path, granted gs c n tool path labels → st1 n = st2 n) →
  gather gs st1 c tool labels sites values = gather gs st2 c tool labels sites values.
Proof.
  intros Hst. revert values. induction sites as [|s sites IH]; intros values; [done|]. cbn.
  destruct (authorize _ _ _ _ _ _ _ _) eqn:Ha; [done|]. apply authorize_granted in Ha.
  rewrite (Hst _ _ Ha), !IH. destruct (mapGet _ _); [done|]. by destruct (st2 _).
Qed.

Section Broker.
Context (number : string → option string) (shuffle : list markerSite → list markerSite) (Hshuffle : ∀ l, shuffle l ≡ₚ l) (gs : list Grant).

(** C38. A secret the caller may not use does not show. For any caller, tool, line and labels,
    two stores that agree on the secrets granted to this caller for this tool and session at
    some place give the same answer, the same line to the backend and the same records: no
    value of any other secret has an influence on what the broker does. *)
Theorem ungranted_secrets_do_not_leak st1 st2 c tool line labels :
  (∀ n path, granted gs c n tool path labels → st1 n = st2 n) →
  Resolve number shuffle gs st1 c tool line labels = Resolve number shuffle gs st2 c tool line labels.
Proof.
  intros Hst. unfold Resolve. repeat case_match; try done; rewrite (gather_ext _ st1 st2) in * by done; congruence.
Qed.

(** Every injected secret was granted at its place. When the broker changes a line, the
    references in its arguments, in whatever order they are visited, are each granted to the
    caller for the tool, the place and the labels of the session; the new line differs from the
    old in its arguments alone, where each reference holds the store's value; every value it
    reports is the store's for a reference of the line, and every use is recorded by name. *)
Theorem injected_secrets_were_granted st c tool line labels out injected uses :
  Resolve number shuffle gs st c tool line labels = (Some (out, injected), uses) → uses ≠ [] →
  ∃ msg params args, unmarshalMap line = Some msg ∧ mapGet "params" msg ≫= unmarshalMap = Some params ∧
    mapGet "arguments" params ≫= unmarshalAny number = Some args ∧
    (∀ s, s ∈ collectMarkers args "" → granted gs c s.(sName) tool s.(sPath) labels ∧ is_Some (st s.(sName)) ∧ mkUse s.(sName) true Injected ∈ uses) ∧
    out = marshalMap (mapSet "params" (marshalMap (mapSet "arguments"
            (marshalAny (replaceMarkers (λ n, default "" (st n)) args)) params)) msg) +:+ (if endsWithNewline line then of_codes [10] else "") ∧
    (∀ v, v ∈ injected → ∃ s raw, s ∈ collectMarkers args "" ∧ st s.(sName) = Some raw ∧ (v = raw ∨ v = jsonInner raw)).
Proof.
  unfold Resolve. intros Hr Hu. destruct (infixb _ _); cbn [negb] in Hr; [|by simplify_eq].
  destruct (unmarshalMap line) as [msg|]; [|by simplify_eq].
  destruct (mapGet "params" msg ≫= _) as [params|] eqn:Hp; [|by simplify_eq].
  destruct (mapGet "arguments" params ≫= _) as [args|] eqn:Ha; [|by simplify_eq].
  destruct (shuffle (collectMarkers args "")) as [|s0 sites] eqn:Hvis; [by simplify_eq|].
  destruct (gather _ _ _ _ _ _ _) as [u|values] eqn:Hga; [by simplify_eq|]. rewrite <-Hvis in Hga. injection Hr as <- <- <-. clear Hvis.
  destruct (gather_spec _ _ _ _ _ _ _ _ Hga) as (H1 & _ & H3); [done|].
  assert (∀ s, s ∈ collectMarkers args "" → s ∈ shuffle (collectMarkers args "")) as Hsh by (intros s; by rewrite Hshuffle).
  assert (∀ s, s ∈ collectMarkers args "" → mapGet s.(sName) values = st s.(sName)) as Hval by (intros s Hs%Hsh; by apply H1).
  assert (∀ s, s ∈ collectMarkers args "" → is_Some (st s.(sName))) as Hsome.
  { intros s Hs%Hsh. by apply H1. }
  exists msg, params, args. split_and!; [done..| | |].
  - intros s Hs. split_and!; [by apply H1, Hsh|by apply Hsome|].
    destruct (Hsome s Hs) as [raw Hraw]. rewrite <-Hval in Hraw by done. apply mapGet_elem in Hraw.
    by apply (list_elem_of_fmap_2 (λ nv, mkUse nv.1 true Injected)) in Hraw.
  - rewrite (replaceMarkers_ext (valueOf values) (λ n, default "" (st n)) args ""); [done|].
    intros s Hs. unfold valueOf. by rewrite Hval.
  - intros v (nv & Hnv & Hin)%injectedOf_elem.
    apply H3 in Hnv as [Hn|(s & Hs & Hn & Hst)]; [by inversion Hn|].
    exists s, nv.2. rewrite Hshuffle in Hs. by rewrite Hn.
Qed.
End Broker.

(** ** What is scrubbed *)

Definition occurs (v l : list Z) : Prop := ∃ a b, l = a ++ v ++ b.

Lemma infixb_occurs v l : infixb v l = true ↔ occurs v l.
Proof.
  induction l as [|c l IH]; cbn [infixb].
  - rewrite orb_false_r, bool_decide_eq_true. split.
    + intros Ht. exists [], []. by rewrite take_nil in Ht; rewrite <-Ht.
    + intros (a & b & Hab). destruct a, v; try done. 
  - rewrite orb_true_iff, bool_decide_eq_true, IH. split.
    + intros [Ht|(a & b & ->)]; [exists [], (drop (length v) (c :: l)); cbn [app]; by rewrite <-Ht at 1; rewrite take_drop|by exists (c :: a), b].
    + intros ([|c' a] & b & Hab); [left; rewrite Hab; cbn [app]; by rewrite take_app_length|right; injection Hab as -> ->; by exists a, b].
Qed.

(** An occurrence does not cross the end of a text whose last byte it does not contain. *)
Lemma occurs_app v A x B : x ∉ v → occurs v ((A ++ [x]) ++ B) → occurs v (A ++ [x]) ∨ occurs v B.
Proof.
  intros Hx (a & b & Hab). destruct (decide (length (A ++ [x]) ≤ length a)%nat) as [Hl|Hl].
  - right. apply (f_equal (drop (length (A ++ [x])))) in Hab. rewrite drop_app_length, drop_app_le in Hab by done. by exists (drop (length (A ++ [x])) a), b.
  - left. assert (∃ p, A ++ [x] = a ++ p ∧ v ++ b = p ++ B) as (p & Hp & Hv).
    { exists (drop (length a) (A ++ [x])). assert (take (length a) (A ++ [x]) = a) as Ht.
      { apply (f_equal (take (length a))) in Hab. rewrite take_app_le in Hab by lia. by rewrite take_app_length in Hab. }
      split; [rewrite <-(take_drop (length a) (A ++ [x])) at 1; by rewrite Ht|].
      apply (f_equal (drop (length a))) in Hab. rewrite drop_app_length, drop_app_le in Hab by lia. done. }
    destruct (decide (length p ≤ length v)%nat) as [Hle|Hle].
    + exfalso. apply Hx. apply (f_equal (take (length p))) in Hv. rewrite take_app_length, take_app_le in Hv by done.
      destruct p as [|y p _] using rev_ind; [rewrite app_nil_r in Hp; rewrite Hp in Hl; lia|].
      rewrite app_assoc in Hp. apply app_inj_tail in Hp as [_ ->]. rewrite <-(take_drop (length (p ++ [y])) v), Hv. set_solver.
    + exists a, (take (length p - length v) b). rewrite Hp. f_equal. apply (f_equal (take (length p))) in Hv.
      rewrite take_app_length in Hv. rewrite <-Hv at 1. by rewrite take_app_ge by lia.
Qed.

(** A placeholder in brackets: an occurrence of a text without brackets cannot cross it. *)
Definition bracketed (p : list Z) : Prop := ∃ A, p = 91 :: A ++ [93].
Definition scrubs (p v : list Z) : Prop := v ≠ [] ∧ (91 ∉ v) ∧ (93 ∉ v) ∧ infixb v p = false.

Lemma replaceAll_prefix fuel w p u l :
  bracketed p → (91 ∉ u) → (length l ≤ fuel)%nat → u `prefix_of` replaceAll fuel w p l → u `prefix_of` l.
Proof.
  intros [A Hb]. revert u l. induction fuel as [|fuel IH]; intros u [|c l] Hu Hf; cbn [replaceAll length] in *; try done; try lia.
  case_match.
  - intros [k Hk]. destruct u as [|x u]; [apply prefix_nil|]. exfalso. apply Hu. rewrite Hb in Hk. cbn in Hk. injection Hk as -> _. by left.
  - intros Hp. destruct u as [|x u]; [apply prefix_nil|]. apply prefix_cons_inv_1 in Hp as Hx. apply prefix_cons_inv_2 in Hp. subst x.
    apply prefix_cons, IH; [intros Hin; apply Hu; by right|lia|done].
Qed.

Lemma prefix_occurs v l : v `prefix_of` l → occurs v l.
Proof. intros [k ->]. by exists [], k. Qed.
Lemma occurs_cons v c l : occurs v (c :: l) → v `prefix_of` (c :: l) ∨ occurs v l.
Proof. intros ([|c' a] & b & Hab); [left; by exists b|right]. injection Hab as _ ->. by exists a, b. Qed.
Lemma occurs_suffix v a l : occurs v l → occurs v (a ++ l).
Proof. intros (x & b & ->). exists (a ++ x), b. by rewrite <-app_assoc. Qed.
Lemma occurs_nil v : v ≠ [] → ¬ occurs v [].
Proof. intros Hv ([|] & b & Ho); [|done]. by destruct v. Qed.

Lemma scrubbed_app p v B : bracketed p → scrubs p v → occurs v (p ++ B) → occurs v B.
Proof.
  intros [A Hb] (_ & _ & H93 & Hp) Ho. rewrite Hb, app_comm_cons in Ho.
  apply occurs_app in Ho as [Ho|Ho]; [|done|done]. rewrite <- app_comm_cons, <- Hb in Ho. apply infixb_occurs in Ho. congruence.
Qed.

Lemma replaceAll_keeps fuel w p v l :
  bracketed p → scrubs p v → w ≠ [] → (length l ≤ fuel)%nat → occurs v (replaceAll fuel w p l) → occurs v l.
Proof.
  intros Hb Hv Hw. revert l. induction fuel as [|fuel IH]; intros [|c l] Hf Ho; cbn [replaceAll length] in *; try done; try lia.
  case_bool_decide as Hm.
  - apply scrubbed_app in Ho; [|done..]. apply IH in Ho; [|rewrite length_drop; cbn [length]; destruct w; [done|cbn [length]; lia]].
    rewrite <-(take_drop (length w) (c :: l)). by apply occurs_suffix.
  - apply occurs_cons in Ho as [Hp|Ho].
    + apply prefix_occurs. destruct v as [|x v]; [apply prefix_nil|]. apply prefix_cons_inv_1 in Hp as Hx. apply prefix_cons_inv_2 in Hp. subst x.
      apply prefix_cons. eapply (replaceAll_prefix fuel w p); [done| |lia|exact Hp]. destruct Hv as (_ & H91 & _). intros Hin. apply H91. by right.
    + apply IH in Ho; [|lia]. by apply (occurs_suffix v [c]).
Qed.

Lemma replaceAll_scrubs fuel p v l :
  bracketed p → scrubs p v → (length l ≤ fuel)%nat → ¬ occurs v (replaceAll fuel v p l).
Proof.
  intros Hb Hv. pose proof Hv as (Hne & H91 & _). revert l. induction fuel as [|fuel IH]; intros [|c l] Hf Ho; cbn [replaceAll length] in *; try lia;
    try (by apply occurs_nil in Ho).
  case_bool_decide as Hm.
  - apply scrubbed_app in Ho; [|done..]. eapply IH; [|exact Ho]. rewrite length_drop. cbn [length]. destruct v; [done|cbn [length]; lia].
  - apply occurs_cons in Ho as [Hp|Ho]; [|by eapply IH; [|exact Ho]; lia]. apply Hm.
    destruct v as [|x v]; [done|]. apply prefix_cons_inv_1 in Hp as Hx. apply prefix_cons_inv_2 in Hp. subst x.
    apply replaceAll_prefix in Hp as [k ->]; [|done|intros Hin; apply H91; by right|lia].
    cbn [length take]. by rewrite take_app_length.
Qed.

Lemma placeholder_ends : ∃ A, redactPlaceholder = A ++ [93].
Proof. exists (removelast redactPlaceholder). reflexivity. Qed.
Lemma placeholder_bracketed : bracketed redactPlaceholder.
Proof. exists (removelast (tail redactPlaceholder)). reflexivity. Qed.

(** A value that redaction can scrub: long enough, on one line, without the brackets of the
    placeholder and not a part of it. *)
Definition scrubbable (v : list Z) : Prop :=
  (redactMinLen ≤ length v)%nat ∧ (91 ∉ v) ∧ (93 ∉ v) ∧ (10 ∉ v) ∧ infixb v redactPlaceholder = false.
Lemma scrubbable_scrubs v : scrubbable v → scrubs redactPlaceholder v.
Proof. intros (Hl & H91 & H93 & _ & Hp). split_and!; [|done..]. by intros ->. Qed.

Definition redactOne (out v : list Z) : list Z := if infixb v out then replaceAll (length out) v redactPlaceholder out else out.
Lemma redactOne_keeps v w out : scrubbable v → w ≠ [] → occurs v (redactOne out w) → occurs v out.
Proof. intros Hv Hw. unfold redactOne. case_match; [apply replaceAll_keeps; [apply placeholder_bracketed|by apply scrubbable_scrubs|done..]|done]. Qed.
Lemma redactOne_scrubs v out : scrubbable v → ¬ occurs v (redactOne out v).
Proof.
  intros Hv. unfold redactOne. destruct (infixb v out) eqn:Hi; [apply replaceAll_scrubs; [apply placeholder_bracketed|by apply scrubbable_scrubs|done]|].
  intros Ho%infixb_occurs. congruence.
Qed.
Lemma fold_keeps v vals out : scrubbable v → Forall (.≠ []) vals → occurs v (fold_left redactOne vals out) → occurs v out.
Proof.
  intros Hv Hne. revert out. induction Hne as [|w vals Hw Hne IH]; intros out; cbn; [done|].
  intros Ho%IH. by eapply redactOne_keeps.
Qed.
Lemma Redact_scrubs v vals l : scrubbable v → Forall (.≠ []) vals → v ∈ vals → ¬ occurs v (Redact vals l).
Proof.
  intros Hv Hne. change (Redact vals l) with (fold_left redactOne vals l). revert l. induction Hne as [|w vals Hw Hne IH]; intros l; [set_solver|].
  intros [->|Hin]%elem_of_cons; cbn; [|by apply IH].
  intros Ho%fold_keeps; [|done..]. by eapply redactOne_scrubs.
Qed.

(** Redaction keeps the end of a line an end, or puts a placeholder there. *)
Definition closed (l : list Z) : Prop := ∃ A x, l = A ++ [x] ∧ (x = 10 ∨ x = 93).
Lemma closed_app A l : closed l → closed (A ++ l).
Proof. intros (B & x & -> & Hx). exists (A ++ B), x. by rewrite app_assoc. Qed.
Lemma replaceAll_closed fuel w l : w ≠ [] → (length l ≤ fuel)%nat → closed l → closed (replaceAll fuel w redactPlaceholder l).
Proof.
  intros Hw. revert l. induction fuel as [|fuel IH]; intros [|c l] Hf Hc; cbn [replaceAll length] in *; try done; try lia.
  case_bool_decide as Hm.
  - destruct (drop (length w) (c :: l)) as [|y k] eqn:Hd.
    + destruct fuel; cbn [replaceAll]; rewrite app_nil_r; destruct placeholder_ends as [A ->]; exists A, 93; auto.
    + apply closed_app, IH.
      * rewrite <-Hd, length_drop. cbn [length]. destruct w; [done|cbn [length]; lia].
      * destruct Hc as (A & x & HA & Hx). rewrite HA in Hd. destruct (decide (length w ≤ length A)%nat) as [Hle|Hle].
        { rewrite drop_app_le in Hd by done. rewrite <-Hd. eexists _, x. done. }
        { rewrite drop_ge in Hd; [done|]. rewrite length_app. cbn. lia. }
  - destruct l as [|y l].
    + destruct fuel; cbn [replaceAll]; done.
    + apply (closed_app [c]), IH; [cbn [length] in *; lia|]. destruct Hc as ([|z A] & x & HA & Hx); [done|]. injection HA as _ ->. by exists A, x.
Qed.
Lemma Redact_closed vals l : Forall (.≠ []) vals → closed l → closed (Redact vals l).
Proof.
  intros Hne. change (Redact vals l) with (fold_left redactOne vals l). revert l. induction Hne as [|w vals Hw Hne IH]; intros l Hc; [done|].
  cbn. apply IH. unfold redactOne. case_match; [by apply replaceAll_closed|done].
Qed.
Lemma cutAt_closed l a b : cutAt l = Some (a, b) → closed a ∧ l = a ++ b.
Proof.
  revert a b. induction l as [|c l IH]; intros a b; cbn; [done|]. destruct (Z.eqb_spec c 10) as [->|].
  - intros [= <- <-]. split; [by exists [], 10; auto|done].
  - destruct (cutAt l) as [[a' b']|]; [|done]. intros [= <- <-]. destruct (IH _ _ eq_refl) as [Hc ->].
    split; [by apply (closed_app [c])|done].
Qed.

Lemma closed_clean v A B : scrubbable v → A = [] ∨ closed A → ¬ occurs v A → ¬ occurs v B → ¬ occurs v (A ++ B).
Proof.
  intros (_ & _ & H93 & H10 & _) [->|(A' & x & -> & Hx)] HA HB; [done|].
  intros [Ho|Ho]%occurs_app; [done..|]. by destruct Hx as [->| ->].
Qed.
Lemma drainLines_clean v fuel vals buf out rest :
  scrubbable v → Forall (.≠ []) vals → v ∈ vals → drainLines fuel vals buf = (out, rest) → (out = [] ∨ closed out) ∧ ¬ occurs v out.
Proof.
  intros Hv Hne Hin. assert (¬ occurs v []) as Hnil.
  { intros ([|] & b & Ho); [|done]. destruct Hv as (Hl & _). destruct v; [cbn in Hl; unfold redactMinLen in Hl; lia|done]. }
  revert buf out rest. induction fuel as [|fuel IH]; intros buf out rest; cbn.
  { intros [= <- <-]. split; [by left|done]. }
  destruct (cutAt buf) as [[line r]|] eqn:Hc; [|intros [= <- <-]; by split; [left|]].
  destruct (drainLines fuel vals r) as [o r'] eqn:Hd. intros [= <- <-]. apply cutAt_closed in Hc as [Hc _].
  destruct (IH _ _ _ Hd) as [Ho Hn]. apply (Redact_closed vals) in Hc; [|done]. split.
  - right. destruct Ho as [->|Ho]; [by rewrite app_nil_r|by apply closed_app].
  - apply closed_clean; [done|by right|by apply Redact_scrubs|done].
Qed.

(** An injected value does not come back. In whatever chunks a backend's output is read,
    what the response path writes to the peer holds no occurrence of a value the redactor was
    given (of at least four bytes, on one line, free of the placeholder's brackets and not a
    part of the placeholder). *)
Theorem injected_values_are_scrubbed vals v chunks buf :
  v ∈ vals → scrubbable v → Forall (.≠ []) vals → ¬ occurs v (pumpInner vals chunks buf).
Proof.
  intros Hin Hv Hne. revert buf. induction chunks as [|c cs IH]; intros buf; cbn.
  - destruct buf; [|by apply Redact_scrubs]. intros ([|] & b & Ho); [|done].
    destruct Hv as (Hl & _). destruct v; [cbn in Hl; unfold redactMinLen in Hl; lia|done].
  - destruct (pumpRead vals c buf) as [out rest] eqn:Hp. apply (drainLines_clean v) in Hp as [Ho Hn]; [|done..].
    by apply closed_clean.
Qed.

(** What [Add] keeps satisfies the premises. *)
Lemma Add_nonempty vals known : Forall (.≠ []) known → Forall (.≠ []) (Add vals known).
Proof.
  unfold Add. revert known. induction vals as [|v vals IH]; intros known Hk; [done|]. cbn. apply IH.
  case_match eqn:Hc; [done|]. apply Forall_app_2; [done|]. constructor; [|done]. intros ->. done.
Qed.
Lemma Add_keeps v vals known : v ∈ vals → (redactMinLen ≤ length v)%nat → v ∈ Add vals known.
Proof.
  intros Hv Hl. unfold Add. assert (∀ l r, v ∈ r → v ∈ fold_left (λ r v, if (length v <? redactMinLen)%nat || bool_decide (v ∈ r) then r else r ++ [v]) l r) as Hmono.
  { intros l. induction l as [|w l IH]; intros r Hr; [done|]. cbn. apply IH. case_match; [done|]. apply elem_of_app. by left. }
  revert known. induction vals as [|w vals IH]; intros known; [by apply not_elem_of_nil in Hv|].
  apply elem_of_cons in Hv as [->|Hv]; cbn [fold_left]; [|by apply IH]. apply Hmono.
  rewrite (proj2 (Nat.ltb_ge _ _)) by done. cbn [orb]. case_bool_decide; [done|]. apply elem_of_app. right. by left.
Qed.
End Secrets.

Module SecretRuns.
Import Secrets.

Definition sameText (t : string) : option string := Some t.
Definition inOrder (l : list markerSite) : list markerSite := l.
Definition agent : Caller := mkCaller "api" "agent.mesh" "k1" "100.64.0.2".
Definition vault (n : string) : option string :=
  if (n =? "api_key")%string then Some "abcdefgh" else if (n =? "db_key")%string then Some "abcd" else None.
(** The key may be used by the agent, in the authorization header of [fetch], unless tainted. *)
Definition headerGrant : Grant := mkGrant ["agent.mesh"] ["api_key"] ["fetch"] ["headers.Authorization"] ["tainted"].
Definition callWith (args : string) : string :=
  dq ("{'jsonrpc':'2.0','id':1,'method':'tools/call','params':{'name':'fetch','arguments':" +:+ args +:+ "}}").
Definition resolve (args : string) (labels : gset string) := Resolve sameText inOrder [headerGrant] vault agent "fetch" (callWith args) labels.
Definition header : string := "{'headers':{'Authorization':'{{secret:api_key}}'}}".
End SecretRuns.
Import SecretRuns.

Lemma injected_secrets_were_granted_witness :
  Secrets.granted [headerGrant] agent "api_key" "fetch" "headers.Authorization" ∅.
Proof.
  assert (∃ out inj uses, resolve header ∅ = (Some (out, inj), uses) ∧ uses ≠ [] ∧
    out = dq "{'id':1,'jsonrpc':'2.0','method':'tools/call','params':{'arguments':{'headers':{'Authorization':'abcdefgh'}},'name':'fetch'}}")
    as (out & inj & uses & Hr & Hu & _).
  { vm_compute. eexists _, _, _. split; [reflexivity|]. split; [discriminate|reflexivity]. }
  destruct (Secrets.injected_secrets_were_granted sameText inOrder (λ l, Permutation_refl l) [headerGrant] vault agent "fetch" (callWith header) ∅ out inj uses Hr Hu)
    as (msg & params & args & Hm & Hp & Ha & Hs & _).
  vm_compute in Hm. injection Hm as <-. vm_compute in Hp. injection Hp as <-. vm_compute in Ha. injection Ha as <-.
  apply (Hs (Secrets.mkSite "api_key" "headers.Authorization")). vm_compute. left.
Defined.

Lemma ungranted_secrets_do_not_leak_witness :
  resolve "{'headers':{'Authorization':'{{secret:db_key}}'}}" ∅ =
  Secrets.Resolve sameText inOrder [headerGrant] (λ n, if (n =? "db_key")%string then Some "other" else vault n) agent "fetch"
    (callWith "{'headers':{'Authorization':'{{secret:db_key}}'}}") ∅.
Proof.
  apply (Secrets.ungranted_secrets_do_not_leak sameText inOrder [headerGrant]).
  intros n path (g & Hg & Hc & _). apply list_elem_of_singleton in Hg as ->.
  destruct (String.eqb_spec n "db_key") as [->|Hn]; [|reflexivity]. vm_compute in Hc. discriminate.
Defined.

Lemma injected_values_are_scrubbed_witness :
  ¬ Secrets.occurs (codes "abcdefgh") (Secrets.pumpInner (Secrets.Add [codes "abcdefgh"] []) [codes "echo: abc"; codes "defgh" ++ [10]] []).
Proof.
  apply Secrets.injected_values_are_scrubbed.
  - vm_compute. left.
  - unfold Secrets.scrubbable. split_and!; try (vm_compute; lia); try reflexivity; apply (bool_decide_unpack _); vm_compute; exact I.
  - apply Secrets.Add_nonempty. constructor.
Defined.

(** A refused reference is recorded and blocks the call; a tainted session is refused. *)
Lemma resolve_run :
  resolve "{'query':'{{secret:api_key}}'}" ∅ = (None, [Secrets.mkUse "api_key" false Secrets.WrongLocation]) ∧
  resolve header {["tainted"]} = (None, [Secrets.mkUse "api_key" false (Secrets.Blocked "tainted")]) ∧
  resolve "{'query':'plain'}" ∅ = (Some (callWith "{'query':'plain'}", []), []).
Proof. vm_compute. split_and!; reflexivity. Qed.

(** A place can be spelled. Paths are joined with dots and keys are not escaped, so a
    top-level argument named like the path of a nested one is at the granted place; and a star
    in a location covers any depth. *)
Theorem dotted_key_evades_location :
  (resolve "{'headers.Authorization':'{{secret:api_key}}'}" ∅).2 = [Secrets.mkUse "api_key" true Secrets.Injected] ∧
  Secrets.matchGlob ["items.*.token"] "items.0.nested.token" = true.
Proof. vm_compute. split; reflexivity. Qed.

(** A reference with inner spaces is not resolved: the quick look for the marker knows the
    form without spaces only, though the pattern of a reference allows them. *)
Theorem spaced_reference_is_left_literal :
  let args := "{'headers':{'Authorization':'{{ secret:api_key }}'}}" in
  Secrets.marks "{{ secret:api_key }}" = ["api_key"] ∧ resolve args ∅ = (Some (callWith args, []), []).
Proof. vm_compute. split; reflexivity. Qed.

(** Values are scrubbed in the order they were injected: a longer value that begins with an
    earlier one is left with its remainder in the clear. *)
Theorem longer_value_keeps_its_tail :
  Secrets.Redact (Secrets.Add [codes "abcd"; codes "abcdefgh"] []) (codes "key=abcdefgh") = codes "key=[redacted-secret]efgh".
Proof. vm_compute. reflexivity. Qed.
