(* ===== verification/Presence.v ===== *)
(** * Presence: the directory of what is near

    [air/target.go] and [air/presence.go]: announcements with their validation and
    normalisation, the registry that stamps them with the identity of the transport, expires
    and bounds them, and the resolver of selectors. Kinds and states are strings, as in the
    code. [EqualFold] is [strings.EqualFold], [parseRFC3339] says whether [time.Parse] accepts
    a text, [parseIP] whether [net.ParseIP] does. An instant is a number of nanoseconds: the
    text form of [expires_at] keeps it exactly. *)
From stdpp Require Import base list strings gmap.
From Stdlib Require Import ZArith Lia Ascii.
From S2P Require Import Prelude GoStd Json Classify AirText.
Open Scope Z_scope.
Open Scope mesh_scope.

Module Presence.
Import Air.

(** ** Targets *)

Record Target := mkTarget { tKind : string; tValue : string }.
Definition noTarget : Target := mkTarget "" "".
Definition oneOf (l : list string) (s : string) : bool := existsb (String.eqb s) l.
Definition targetKinds : list string := ["agent"; "session"; "task"; "group"].
Definition targetHasControl (s : string) : bool := existsb (λ r, (r <? 32) || (r =? 127)) (runesOf s).
(** [strings.Cut] at the first colon. *)
Fixpoint cutColon (s : string) : option (string * string) :=
  match s with
  | "" => None
  | String c s =>
      if Ascii.eqb c ":"%char then Some ("", s)
      else match cutColon s with Some (a, b) => Some (String c a, b) | None => None end
  end.
Definition ParseTarget (s : string) : option Target :=
  if (s =? "")%string then Some noTarget
  else if negb (s =? trimSpace s)%string || (512 <? strlen s) || targetHasControl s then None
  else match cutColon s with
  | Some (kind, value) =>
      if (value =? "")%string then None else if oneOf targetKinds kind then Some (mkTarget kind value) else None
  | None => None
  end.
Definition Empty (t : Target) : bool := (t.(tKind) =? "")%string.
Definition targetString (t : Target) : string := if Empty t then "" else t.(tKind) +:+ ":" +:+ t.(tValue).

(** ** Targets round-trip *)

Lemma cutColon_spec s a b : cutColon s = Some (a, b) → s = a +:+ ":" +:+ b.
Proof.
  revert a b. induction s as [|c s IH]; intros a b; cbn [cutColon]; [done|].
  destruct (Ascii.eqb_spec c ":") as [->|_]; [by intros [= <- <-]|].
  destruct (cutColon s) as [[a' b']|]; [|done]. intros [= <- <-]. by rewrite (IH _ _ eq_refl).
Qed.
(** A target is what its text says: what parses prints back as it was, and what a valid
    target prints parses to it again. *)
Theorem target_round_trip s t : ParseTarget s = Some t → targetString t = s ∧ ParseTarget (targetString t) = Some t.
Proof.
  intros Hp. enough (targetString t = s) as Hs by by rewrite Hs.
  unfold ParseTarget in Hp. destruct (String.eqb_spec s "") as [->|_]; [by injection Hp as <-|].
  destruct (_ || _); [done|]. destruct (cutColon s) as [[a b]|] eqn:Hc; [|done]. apply cutColon_spec in Hc as ->.
  destruct (b =? "")%string; [done|]. destruct (oneOf targetKinds a) eqn:Hk; [|done]. injection Hp as <-.
  unfold targetString, Empty. cbn [tKind tValue]. destruct (String.eqb_spec a "") as [->|_]; [done|done].
Qed.

(** ** Announcements *)

Definition PresenceSchema : string := "air.presence/v1".
Definition ActivitySchema : string := "air.activity/v1".
Definition nodeKinds : list string := ["agent"; "device"; "gateway"; "service"].
Definition statuses : list string := ["available"; "busy"; "focus"; "away"].
Definition serviceKinds : list string := ["mcp"; "control"; "steer"; "inbox"; "ring"; "cast"; "screen"; "approvals"; "home"].
Definition activityKinds : list string := ["session"; "task"; "workflow"; "approval"; "knowledge"].
Definition activityStates : list string := ["queued"; "running"; "blocked"; "completed"; "failed"; "cancelled"].

Definition alnum (c : Z) : bool := ((65 <=? c) && (c <=? 90)) || ((97 <=? c) && (c <=? 122)) || ((48 <=? c) && (c <=? 57)).
(** [safeActivityID] and [safeToken]. *)
Definition safeActivityID (s : string) : bool :=
  (1 <=? strlen s) && (strlen s <=? 64) && forallb (λ c, alnum c || (c =? 95) || (c =? 45)) (codes s).
Definition safeToken (s : string) : bool :=
  match codes s with
  | c :: l => alnum c && forallb (λ c, alnum c || (c =? 46) || (c =? 95) || (c =? 58) || (c =? 47) || (c =? 45)) l
  | [] => false
  end.
Definition boundedText (s : string) (min max : Z) : bool := (min <=? strlen s) && (strlen s <=? max) && negb (hasControl s).
Definition validContextRef (s : string) : bool :=
  let raw p := match cutPrefix p s with Some r => Some r | None => None end in
  match match raw "sha256:" with Some r => Some r | None => match raw "blake3:" with Some r => Some r | None => raw "kh_" end end with
  | Some r => (strlen r =? 64) && match hexDecode r with Some _ => true | None => false end
  | None => false
  end.

Record Service := mkService { sKind : string; sPort : Z; sProtocol : string; sCaps : list string; sAddress : string }.
Record Activity := mkActivity {
  aSchema : string; aID : string; aKind : string; aTitle : string; aSummary : string; aState : string; aProgress : option Z;
  aTarget : string; aContextRef : string; aHandoff : bool; aRevision : Z; aUpdatedAt : string }.
#[export] Instance Service_eq_dec : EqDecision Service.
Proof. solve_decision. Defined.
#[export] Instance Activity_eq_dec : EqDecision Activity.
Proof. solve_decision. Defined.
Record Announcement := mkAnn {
  nVersion : string; nName : string; nKind : string; nStatus : string; nLabels : list string; nTTL : Z;
  nServices : list Service; nActivity : option Activity }.

Section Presence.
Context (EqualFold : string → string → bool) (parseRFC3339 parseIP : string → bool).

Definition validActivity (a : Activity) : bool :=
  (a.(aSchema) =? ActivitySchema)%string && safeActivityID a.(aID) && oneOf activityKinds a.(aKind) &&
  boundedText a.(aTitle) 1 160 && boundedText a.(aSummary) 0 512 && oneOf activityStates a.(aState) &&
  match a.(aProgress) with Some p => (0 <=? p) && (p <=? 100) | None => true end &&
  ((a.(aTarget) =? "")%string ||
     (boundedText a.(aTarget) 1 256 &&
      match ParseTarget a.(aTarget) with
      | Some t => negb (Empty t) && (targetString t =? a.(aTarget))%string && safeToken t.(tValue)
      | None => false
      end)) &&
  ((a.(aContextRef) =? "")%string || validContextRef a.(aContextRef)) && (strlen a.(aContextRef) <=? 128) &&
  ((a.(aUpdatedAt) =? "")%string || parseRFC3339 a.(aUpdatedAt)).

(** [sortedUnique]: the set of the strings in order. *)
Fixpoint insertUnique (x : string) (l : list string) : list string :=
  match l with
  | [] => [x]
  | y :: l' => if (x =? y)%string then l else if strLtb x y then x :: l else y :: insertUnique x l'
  end.
Definition sortedUnique (l : list string) : list string := foldr insertUnique [] l.
Fixpoint insertService (x : Service) (l : list Service) : list Service :=
  match l with [] => [x] | y :: l' => if strLtb x.(sKind) y.(sKind) then x :: l else y :: insertService x l' end.
Definition sortServices (l : list Service) : list Service := fold_left (λ acc s, insertService s acc) l [].
Definition orDefault (d s : string) : string := if (s =? "")%string then d else s.
Definition clampTTL (t : Z) : Z := let t := if t =? 0 then 90 else t in Z.min 300 (Z.max 15 t).
Definition normalService (s : Service) : Service :=
  mkService s.(sKind) s.(sPort) (orDefault "tcp" s.(sProtocol)) (sortedUnique s.(sCaps)) s.(sAddress).
Definition Normalized (a : Announcement) : Announcement :=
  mkAnn (orDefault PresenceSchema a.(nVersion)) a.(nName) a.(nKind) (orDefault "available" a.(nStatus)) (sortedUnique a.(nLabels))
    (clampTTL a.(nTTL)) (sortServices (normalService <$> a.(nServices))) a.(nActivity).

Definition validLabel (l : string) : bool := (strlen l <=? 64) && safeToken l && negb (hasControl l).
Definition validService (s : Service) : bool :=
  oneOf serviceKinds s.(sKind) && (1 <=? s.(sPort)) && (s.(sPort) <=? 65535) &&
  oneOf ["tcp"; "http"; "https"] s.(sProtocol) && (s.(sAddress) =? "")%string &&
  (length s.(sCaps) <=? 16)%nat && forallb validLabel s.(sCaps).
Definition validAnnouncement (raw : Announcement) : bool :=
  let a := Normalized raw in
  (0 <=? raw.(nTTL)) && (a.(nVersion) =? PresenceSchema)%string && boundedText a.(nName) 1 128 && (trimSpace a.(nName) =? a.(nName))%string &&
  oneOf nodeKinds a.(nKind) && oneOf statuses a.(nStatus) && (length a.(nLabels) <=? 16)%nat && forallb validLabel a.(nLabels) &&
  (length a.(nServices) <=? 16)%nat && noDup (sKind <$> a.(nServices)) && forallb validService a.(nServices) &&
  match a.(nActivity) with Some act => validActivity act | None => true end.

(** ** The registry *)

Record Identity := mkIdentity { PublicKey : string; FQDN : string }.
Record Card := mkCard {
  cAnn : Announcement; cKey : string; cFQDN : string; cIP : string; cSeen : Z; cExpires : Z }.
Record Registry := mkRegistry { entries : gmap string Card; max : nat }.
Definition NewRegistry (m : Z) : Registry := mkRegistry ∅ (if m <=? 0 then 2048%nat else Z.to_nat m).

Definition validIdentity (id : Identity) (ip : string) : bool :=
  negb (id.(PublicKey) =? "")%string && (strlen id.(PublicKey) <=? 512) && negb (hasControl id.(PublicKey)) &&
  (strlen id.(FQDN) <=? 512) && negb (hasControl id.(FQDN)) && parseIP ip.
(** [net.JoinHostPort]. *)
Definition JoinHostPort (ip : string) (port : Z) : string :=
  if existsb (λ c, (c =? 58) || (c =? 37)) (codes ip) then "[" +:+ ip +:+ "]:" +:+ itoa port else ip +:+ ":" +:+ itoa port.
Definition stamped (ip : string) (s : Service) : Service :=
  mkService s.(sKind) s.(sPort) s.(sProtocol) s.(sCaps) (JoinHostPort ip s.(sPort)).
Definition withServices (l : list Service) (a : Announcement) : Announcement :=
  mkAnn a.(nVersion) a.(nName) a.(nKind) a.(nStatus) a.(nLabels) a.(nTTL) l a.(nActivity).
Definition card (id : Identity) (ip : string) (raw : Announcement) (now : Z) : Card :=
  let a := Normalized raw in
  mkCard (withServices (stamped ip <$> a.(nServices)) a) id.(PublicKey) id.(FQDN) ip now (now + a.(nTTL) * 1000000000).
(** [samePresenceMaterial]: what is compared leaves out the times and the lifetime; label
    lists are compared by their join. *)
Fixpoint joinNul (l : list string) : string :=
  match l with [] => "" | [x] => x | x :: l => x +:+ of_codes [0] +:+ joinNul l end.
Definition sameService (a b : Service) : bool :=
  (a.(sKind) =? b.(sKind))%string && (a.(sPort) =? b.(sPort)) && (a.(sProtocol) =? b.(sProtocol))%string &&
  (a.(sAddress) =? b.(sAddress))%string && (joinNul a.(sCaps) =? joinNul b.(sCaps))%string.
Fixpoint sameServices (a b : list Service) : bool :=
  match a, b with [], [] => true | x :: a, y :: b => sameService x y && sameServices a b | _, _ => false end.
Definition samePresenceMaterial (a b : Card) : bool :=
  let x := a.(cAnn) in let y := b.(cAnn) in
  (x.(nVersion) =? y.(nVersion))%string && (x.(nName) =? y.(nName))%string && (x.(nKind) =? y.(nKind))%string && (x.(nStatus) =? y.(nStatus))%string &&
  (a.(cKey) =? b.(cKey))%string && (a.(cFQDN) =? b.(cFQDN))%string && (a.(cIP) =? b.(cIP))%string &&
  (joinNul x.(nLabels) =? joinNul y.(nLabels))%string && sameServices x.(nServices) y.(nServices) && bool_decide (x.(nActivity) = y.(nActivity)).

Definition prune (now : Z) (m : gmap string Card) : gmap string Card := filter (λ kc, now < kc.2.(cExpires)) m.
Inductive upsertErr := BadIdentity | BadAnnouncement | RegistryFull.
Definition Upsert (id : Identity) (ip : string) (raw : Announcement) (now : Z) (r : Registry) : result upsertErr (Card * bool) * Registry :=
  if negb (validIdentity id ip) then (Err BadIdentity, r)
  else if negb (validAnnouncement raw) then (Err BadAnnouncement, r)
  else
    let p := card id ip raw now in
    let m := prune now r.(entries) in
    match m !! id.(PublicKey) with
    | None =>
        if (r.(max) <=? size m)%nat then (Err RegistryFull, mkRegistry m r.(max))
        else (Ok (p, true), mkRegistry (<[id.(PublicKey) := p]> m) r.(max))
    | Some old => (Ok (p, negb (samePresenceMaterial old p)), mkRegistry (<[id.(PublicKey) := p]> m) r.(max))
    end.
Definition Remove (key : string) (r : Registry) : bool * Registry :=
  match r.(entries) !! key with Some _ => (true, mkRegistry (delete key r.(entries)) r.(max)) | None => (false, r) end.
(** [List]: the unexpired cards; their order is [sort.Slice]'s. *)
Definition List (order : list Card → list Card) (now : Z) (r : Registry) : list Card * Registry :=
  let m := prune now r.(entries) in (order (map_to_list m).*2, mkRegistry m r.(max)).

(** ** Selectors *)

Inductive selErr := BadSelector | EmptySelector | ReservedGroup | NoMatch | Ambiguous (n : nat) | BadKind | NoService.
Definition selectorHasControl (s : string) : bool := existsb (λ r, (r <? 32) || (r =? 127) || ((128 <=? r) && (r <=? 159))) (runesOf s).
Definition validatedPresenceSelector (selector : string) : result selErr string :=
  if (512 <? strlen selector) || negb (validUTF8 selector) || selectorHasControl selector then Err BadSelector
  else
    let s := trimSpace selector in
    if (s =? "")%string then Err EmptySelector
    else match cutPrefix "group:" s with Some _ => Err ReservedGroup | None => Ok s end.
Definition byKey (k : string) (c : Card) : bool := (c.(cKey) =? k)%string.
Definition byFQDN (s : string) (c : Card) : bool := negb (c.(cFQDN) =? "")%string && EqualFold c.(cFQDN) s.
Definition byName (s : string) (c : Card) : bool := EqualFold c.(cAnn).(nName) s.
Definition orElse {X} (a b : list X) : list X := match a with [] => b | _ => a end.
Definition candidates (l : list Card) (s : string) : list Card :=
  match cutPrefix "pubkey:" s with
  | Some k => if (k =? "")%string then [] else List.filter (byKey k) l
  | None => orElse (List.filter (byKey s) l) (orElse (List.filter (byFQDN s) l) (List.filter (byName s) l))
  end.
Definition resolvePresenceNode (l : list Card) (s : string) : result selErr Card :=
  match candidates l s with
  | [] => Err NoMatch
  | [c] => Ok c
  | cs => Err (Ambiguous (length cs))
  end.
Definition ResolvePresenceIdentity (l : list Card) (selector : string) : result selErr Card :=
  match validatedPresenceSelector selector with Ok s => resolvePresenceNode l s | Err e => Err e end.
Definition ResolvePresence (l : list Card) (selector kind : string) : result selErr (Card * Service) :=
  match validatedPresenceSelector selector with
  | Err e => Err e
  | Ok s =>
      if negb (oneOf serviceKinds kind) then Err BadKind
      else match resolvePresenceNode l s with
      | Err e => Err e
      | Ok c => match List.find (λ v, (v.(sKind) =? kind)%string) c.(cAnn).(nServices) with Some v => Ok (c, v) | None => Err NoService end
      end
  end.
Definition Resolve (order : list Card → list Card) (selector kind : string) (now : Z) (r : Registry) : result selErr (Card * Service) * Registry :=
  let '(l, r) := List order now r in (ResolvePresence l selector kind, r).

(** ** Resolution *)

Lemma elem_keep {X} (f : X → bool) x l : x ∈ List.filter f l ↔ x ∈ l ∧ f x = true.
Proof. by rewrite !list_elem_of_In, filter_In. Qed.
Lemma keep_nil {X} (f : X → bool) l : List.filter f l = [] ↔ ∀ x, x ∈ l → f x = false.
Proof.
  split.
  - intros Hf x Hx. destruct (f x) eqn:He; [|done]. assert (x ∈ List.filter f l) as Hin by by apply elem_keep. rewrite Hf in Hin. by apply not_elem_of_nil in Hin.
  - intros Hf. induction l as [|x l IH]; [done|]. cbn. rewrite (Hf x) by by left. apply IH. intros y Hy. apply Hf. by right.
Qed.
Lemma keep_perm {X} (f : X → bool) l l' : l ≡ₚ l' → List.filter f l ≡ₚ List.filter f l'.
Proof.
  induction 1 as [|x l l' _ IH|x y l|l1 l2 l3 _ IH1 _ IH2]; [done| | |by etrans]; cbn.
  - case_match; [by apply perm_skip|done].
  - repeat case_match; try done. by apply perm_swap.
Qed.
Lemma orElse_perm {X} (a a' b b' : list X) : a ≡ₚ a' → b ≡ₚ b' → orElse a b ≡ₚ orElse a' b'.
Proof.
  intros Ha Hb. destruct a as [|x a], a' as [|x' a']; cbn; try done.
  - by apply Permutation_nil_cons in Ha.
  - symmetry in Ha. by apply Permutation_nil_cons in Ha.
Qed.
Lemma candidates_perm l l' s : l ≡ₚ l' → candidates l s ≡ₚ candidates l' s.
Proof.
  intros Hl. unfold candidates. case_match; [case_match; [done|by apply keep_perm]|].
  repeat apply orElse_perm; by apply keep_perm.
Qed.
Lemma resolve_perm l l' s : l ≡ₚ l' → resolvePresenceNode l s = resolvePresenceNode l' s.
Proof.
  intros Hl. unfold resolvePresenceNode. pose proof (candidates_perm l l' s Hl) as Hp.
  destruct (candidates l s) as [|x [|y k]]; destruct (candidates l' s) as [|x' [|y' k']];
    try (apply Permutation_length in Hp; cbn in Hp; congruence).
  - apply Permutation_length_1 in Hp. by subst.
  - by rewrite (Permutation_length Hp).
Qed.

(** The card a selector names: by its key when it says so; otherwise by the first of key, name
    in the network and friendly name that any card has, and the only one that has it. *)
Definition onlyOne (f : Card → bool) (l : list Card) (c : Card) : Prop := f c = true ∧ ∀ c', c' ∈ l → f c' = true → c' = c.
Definition names (l : list Card) (s : string) (c : Card) : Prop :=
  match cutPrefix "pubkey:" s with
  | Some k => k ≠ "" ∧ onlyOne (byKey k) l c
  | None =>
      onlyOne (byKey s) l c ∨
      (∀ c', c' ∈ l → byKey s c' = false) ∧
      (onlyOne (byFQDN s) l c ∨ (∀ c', c' ∈ l → byFQDN s c' = false) ∧ onlyOne (byName s) l c)
  end.

Lemma keep_one {X} (f : X → bool) x l : List.filter f l = [x] → x ∈ l ∧ f x = true ∧ ∀ y, y ∈ l → f y = true → y = x.
Proof.
  intros Hf. assert (x ∈ List.filter f l) as [Hx Hfx]%elem_keep by (rewrite Hf; by left). split_and!; [done..|].
  intros y Hy Hfy. assert (y ∈ List.filter f l) as Hin by by apply elem_keep. rewrite Hf in Hin. by apply list_elem_of_singleton in Hin.
Qed.
Lemma resolve_one l s c : resolvePresenceNode l s = Ok c → candidates l s = [c].
Proof. unfold resolvePresenceNode. destruct (candidates l s) as [|x [|y k]]; congruence. Qed.
Lemma resolve_spec l s c : resolvePresenceNode l s = Ok c → c ∈ l ∧ names l s c.
Proof.
  intros Hr%resolve_one. unfold candidates in Hr. unfold names. destruct (cutPrefix "pubkey:" s) as [k|].
  - destruct (k =? "")%string eqn:Hk; [done|]. apply String.eqb_neq in Hk. apply keep_one in Hr as (Hc & Hf & Hu). split; [done|]. by split_and!.
  - unfold orElse in Hr. destruct (List.filter (byKey s) l) as [|x L] eqn:H1; [|].
    + pose proof (proj1 (keep_nil _ _) H1) as Hk. destruct (List.filter (byFQDN s) l) as [|x L] eqn:H2.
      * pose proof (proj1 (keep_nil _ _) H2) as Hf. apply keep_one in Hr as (Hc & Hn & Hu). split; [done|]. right. split; [done|]. right. by split_and!.
      * rewrite <-H2 in Hr. apply keep_one in Hr as (Hc & Hn & Hu). split; [done|]. right. split; [done|]. left. by split_and!.
    + rewrite <-H1 in Hr. apply keep_one in Hr as (Hc & Hn & Hu). split; [done|]. left. by split_and!.
Qed.

(** A friendly name shadows nothing. A selector that resolves, resolves to a card of the
    list; if any card has it as public key, that card; else if any card has it as name in the
    network, the only one that has; a friendly name counts only when no verified name does; a
    [pubkey:] selector looks at keys alone; and the order of the list does not matter. *)
Theorem friendly_name_shadows_nothing l l' selector c :
  ResolvePresenceIdentity l selector = Ok c → l ≡ₚ l' →
  ResolvePresenceIdentity l' selector = Ok c ∧ c ∈ l ∧ names l (trimSpace selector) c ∧
  cutPrefix "group:" (trimSpace selector) = None.
Proof.
  unfold ResolvePresenceIdentity, validatedPresenceSelector. intros Hr Hl.
  destruct (_ || _); [done|]. destruct (trimSpace selector =? "")%string; [done|].
  destruct (cutPrefix "group:" _) eqn:Hg; [done|]. rewrite <-(resolve_perm l l') by done.
  split; [done|]. apply resolve_spec in Hr as [? ?]. done.
Qed.

(** ** Runs of the registry *)

Inductive op := DoUpsert (id : Identity) (ip : string) (raw : Announcement) (now : Z) | DoRemove (key : string) | DoList (now : Z).
Definition step (r : Registry) (o : op) : Registry :=
  match o with
  | DoUpsert id ip raw now => (Upsert id ip raw now r).2
  | DoRemove k => (Remove k r).2
  | DoList now => mkRegistry (prune now r.(entries)) r.(max)
  end.
Definition run (ops : list op) (r : Registry) : Registry := foldl step r ops.

(** The card is what the holder of its key announced, from where the transport saw it. *)
Definition announced (ops : list op) (k : string) (c : Card) : Prop :=
  ∃ pre post id ip raw t, ops = pre ++ DoUpsert id ip raw t :: post ∧ id.(PublicKey) = k ∧ c = card id ip raw t ∧
    validIdentity id ip = true ∧ validAnnouncement raw = true.

Lemma prune_lookup now m k c : prune now m !! k = Some c → m !! k = Some c ∧ now < c.(cExpires).
Proof. unfold prune. by intros [? ?]%map_lookup_filter_Some. Qed.
Lemma Upsert_entries id ip raw now r k c :
  entries (Upsert id ip raw now r).2 !! k = Some c →
  entries r !! k = Some c ∨ (k = id.(PublicKey) ∧ c = card id ip raw now ∧ validIdentity id ip = true ∧ validAnnouncement raw = true).
Proof.
  unfold Upsert. destruct (validIdentity id ip); cbn [negb]; [|by left]. destruct (validAnnouncement raw); cbn [negb]; [|by left].
  repeat case_match; cbn [snd entries].
  all: try (intros [-> <-]%lookup_insert_Some || intros [[<- <-]|[_ Hl]]%lookup_insert_Some; [by right|]; left; by apply prune_lookup in Hl as [? _]).
  intros [Hl _]%prune_lookup. by left.
Qed.
Lemma run_announced ops r0 k c : entries r0 = ∅ → entries (run ops r0) !! k = Some c → announced ops k c.
Proof.
  intros H0. revert k c. induction ops as [|o ops IH] using rev_ind; intros k c.
  - cbn. by rewrite H0, lookup_empty.
  - unfold run. rewrite foldl_app. cbn [foldl]. intros Hl.
    assert (entries (run ops r0) !! k = Some c ∨ ∃ id ip raw t, o = DoUpsert id ip raw t ∧ k = id.(PublicKey) ∧ c = card id ip raw t ∧
      validIdentity id ip = true ∧ validAnnouncement raw = true) as [Hold|(id & ip & raw & t & -> & -> & -> & Hv & Ha)].
    { destruct o as [id ip raw t|k'|t]; cbn [step] in Hl.
      - apply Upsert_entries in Hl as [?|(-> & -> & ? & ?)]; [by left|right; by exists id, ip, raw, t].
      - left. unfold Remove in Hl. case_match; cbn [snd entries] in Hl; [by apply lookup_delete_Some in Hl as [_ ?]|done].
      - left. cbn [entries] in Hl. by apply prune_lookup in Hl as [? _]. }
    + destruct (IH _ _ Hold) as (pre & post & id & ip & raw & t & -> & Hr). exists pre, (post ++ [o]), id, ip, raw, t. by rewrite <-app_assoc.
    + by exists ops, [], id, ip, raw, t.
Qed.

Lemma clampTTL_range t : 15 ≤ clampTTL t ≤ 300.
Proof. unfold clampTTL. lia. Qed.

(** An address is where its owner was seen. Whatever is announced, removed and listed, and
    in whatever order the directory is walked, a service that a selector resolves to belongs to
    a card that the holder of its key announced, unexpired and at most five minutes old, and
    its address is the address of that announcement with the announced port: no card speaks for
    another key, and no address is taken from a request. *)
Theorem resolved_service_was_announced order ops r0 selector kind now c v r' :
  entries r0 = ∅ → (∀ l, order l ≡ₚ l) →
  Resolve order selector kind now (run ops r0) = (Ok (c, v), r') →
  v.(sKind) = kind ∧ now < c.(cExpires) ∧ c.(cExpires) ≤ c.(cSeen) + 300 * 1000000000 ∧
  ∃ id ip raw t, announced ops id.(PublicKey) c ∧ c = card id ip raw t ∧
    ∃ s, s ∈ (Normalized raw).(nServices) ∧ v = stamped ip s ∧ s.(sAddress) = "" ∧ 1 ≤ s.(sPort) ≤ 65535.
Proof.
  intros H0 Hord. unfold Resolve, List. intros Hr. injection Hr as Hr _. unfold ResolvePresence in Hr.
  destruct (validatedPresenceSelector selector) as [s|]; [|done]. destruct (oneOf serviceKinds kind); cbn [negb] in Hr; [|done].
  destruct (resolvePresenceNode _ s) as [c'|] eqn:Hn; [|done]. destruct (List.find _ _) as [v'|] eqn:Hf; [|done].
  injection Hr as -> ->. apply resolve_spec in Hn as [Hc _]. rewrite Hord in Hc.
  apply list_elem_of_fmap in Hc as ([k c'] & -> & Hc%elem_of_map_to_list). cbn [snd] in *.
  apply prune_lookup in Hc as [Hc Hexp]. apply run_announced in Hc; [|done].
  apply find_some in Hf as [Hv Hk%String.eqb_eq]. pose proof Hc as (pre & post & id & ip & raw & t & -> & <- & -> & Hid & Hann).
  split_and!; [done|done|unfold card; cbn [cExpires cSeen nTTL Normalized]; pose proof (clampTTL_range (nTTL raw)); lia|].
  exists id, ip, raw, t. split_and!; [done..|]. cbn [card cAnn withServices nServices] in Hv.
  apply list_elem_of_In, list_elem_of_fmap in Hv as (s0 & -> & Hs0). exists s0. split; [done|]. split; [done|].
  unfold validAnnouncement in Hann. rewrite !andb_true_iff in Hann. destruct Hann as (((_ & _) & Hall) & _).
  rewrite forallb_forall in Hall. specialize (Hall s0 (proj1 (list_elem_of_In _ _) Hs0)).
  unfold validService in Hall. rewrite !andb_true_iff, ?String.eqb_eq in Hall. naive_solver lia.
Qed.

(** The registry is bounded, and its cards are those of their keys: never more than its
    capacity, each under the key of the transport. *)
Theorem registry_is_bounded ops m :
  let r := run ops (NewRegistry m) in
  (size r.(entries) ≤ r.(max))%nat ∧ (0 < r.(max))%nat ∧ ∀ k c, r.(entries) !! k = Some c → c.(cKey) = k ∧ k ≠ "".
Proof.
  intros r. subst r. split; [|split].
  - induction ops as [|o ops IH] using rev_ind; [cbn; unfold NewRegistry; cbn; rewrite map_size_empty; lia|].
    unfold run. rewrite foldl_app. cbn [foldl]. fold (run ops (NewRegistry m)).
    assert (∀ now, (size (prune now (entries (run ops (NewRegistry m)))) ≤ size (entries (run ops (NewRegistry m))))%nat) as Hp.
    { intros now. unfold prune. apply map_subseteq_size, map_filter_subseteq. }
    destruct o as [id ip raw t|k|t]; cbn [step].
    + unfold Upsert. repeat case_match; cbn [snd entries max]; try done.
      * rewrite map_size_insert_Some by eauto. specialize (Hp t). lia.
      * specialize (Hp t). lia.
      * rewrite map_size_insert_None by done. apply Nat.leb_gt in H2. lia.
    + unfold Remove. case_match; cbn [snd entries max]; [|done]. etrans; [|exact IH]. apply map_subseteq_size, delete_subseteq.
    + cbn [entries max]. specialize (Hp t). lia.
  - assert (max (run ops (NewRegistry m)) = max (NewRegistry m)) as ->.
    { induction ops as [|o ops IH] using rev_ind; [done|]. unfold run. rewrite foldl_app. cbn [foldl]. fold (run ops (NewRegistry m)). rewrite <-IH.
      destruct o; cbn [step]; unfold Upsert, Remove; repeat case_match; done. }
    unfold NewRegistry. cbn. case_match; lia.
  - intros k c (pre & post & id & ip & raw & t & -> & <- & -> & Hid & _)%run_announced; [|done]. split; [done|].
    unfold validIdentity in Hid. rewrite !andb_true_iff, negb_true_iff, String.eqb_neq in Hid. tauto.
Qed.
End Presence.
End Presence.

Module PresenceRuns.
Import Presence.

Definition anyText (s : string) : bool := true.
Definition alice : Identity := mkIdentity "KEY-A" "alice.mesh".
Definition mallory : Identity := mkIdentity "KEY-M" "mallory.mesh".
Definition says (name : string) (port : Z) : Announcement :=
  mkAnn "" name "agent" "" [] 0 [mkService "inbox" port "" [] ""] None.
Definition sec : Z := 1000000000.
(** Alice announces herself; Mallory takes her key and her network name as friendly names. *)
Definition day : list op :=
  [DoUpsert alice "100.64.0.1" (says "alice" 7001) 0; DoUpsert mallory "100.64.0.9" (says "KEY-A" 7009) sec; DoList (2 * sec)].
Definition reg : Registry := run anyText anyText day (NewRegistry 8).
Definition resolveIn (sel : string) (now : Z) := (Resolve String.eqb id sel "inbox" now reg).1.
End PresenceRuns.
Import PresenceRuns.

Lemma friendly_name_shadows_nothing_witness :
  ∃ c, Presence.ResolvePresenceIdentity String.eqb (map_to_list (Presence.entries reg)).*2 "KEY-A" = Ok c ∧ Presence.cIP c = "100.64.0.1" ∧
    Presence.names String.eqb (map_to_list (Presence.entries reg)).*2 "KEY-A" c.
Proof.
  destruct (Presence.ResolvePresenceIdentity String.eqb (map_to_list (Presence.entries reg)).*2 "KEY-A") as [c|] eqn:Hc; [|vm_compute in Hc; discriminate].
  exists c. split; [reflexivity|]. split; [vm_compute in Hc; injection Hc as <-; reflexivity|].
  destruct (Presence.friendly_name_shadows_nothing String.eqb _ _ "KEY-A" c Hc (Permutation_refl _)) as (_ & _ & Hn & _). exact Hn.
Defined.

Lemma resolved_service_was_announced_witness :
  ∃ c v, resolveIn "alice" (3 * sec) = Ok (c, v) ∧ Presence.sAddress v = "100.64.0.1:7001" ∧
    ∃ id ip raw t, Presence.announced anyText anyText day (Presence.PublicKey id) c ∧ c = Presence.card id ip raw t.
Proof.
  destruct (Presence.Resolve String.eqb id "alice" "inbox" (3 * sec) reg) as [[[c v]|] r'] eqn:Hr; [|vm_compute in Hr; discriminate].
  destruct (Presence.resolved_service_was_announced String.eqb anyText anyText id day (Presence.NewRegistry 8) "alice" "inbox" (3 * sec) c v r' eq_refl (λ l, Permutation_refl l) Hr)
    as (_ & _ & _ & i & ip & raw & t & Ha & Hc & _).
  exists c, v. split; [unfold resolveIn; rewrite Hr; reflexivity|]. split; [vm_compute in Hr; injection Hr as <- <- _; reflexivity|].
  exists i, ip, raw, t. split; [exact Ha|exact Hc].
Defined.

Lemma target_round_trip_witness : Presence.targetString (Presence.mkTarget "task" "9f2a") = "task:9f2a".
Proof. apply (Presence.target_round_trip "task:9f2a" (Presence.mkTarget "task" "9f2a")). vm_compute. reflexivity. Defined.

(** An expired card is gone, an unknown key is not found, a group is never one node. *)
Lemma presence_run :
  resolveIn "alice" (91 * sec) = Err Presence.NoMatch ∧ resolveIn "pubkey:alice" (3 * sec) = Err Presence.NoMatch ∧
  resolveIn "group:alice" (3 * sec) = Err Presence.ReservedGroup ∧
  (Presence.Upsert anyText anyText alice "100.64.0.1" (says "alice" 7001) (5 * sec) reg).1 = Ok (Presence.card alice "100.64.0.1" (says "alice" 7001) (5 * sec), false).
Proof. vm_compute. split_and!; reflexivity. Qed.
