(* ===== verification/Workflow.v ===== *)
(** * Workflow: declarative runs of steps

    [air/workflow.go] (the format, its validation, variable references and their expansion),
    the envelope checks of [air/steer.go], and the runner of [cmd/meshmcp/airworkflow.go]:
    steps in order, [on_error], the concurrent children of a parallel block, captured
    variables and the cap on launched agents. An argument is a string or another value, whose
    JSON text is kept; captured fields are kept as [fmt.Sprint] prints them. What a step does
    on the mesh is the argument [world]. *)
From stdpp Require Import base list strings gmap.
From Stdlib Require Import ZArith Lia Ascii.
From S2P Require Import Prelude GoStd Json JsonCodec Classify AirText Presence.
Open Scope Z_scope.
Open Scope mesh_scope.

Module Workflow.
Import Air Presence.

(** ** Steer envelopes *)

Record SteerEnvelope := mkEnvelope { eType : string; eTool : string; eArgs : string; eText : string; eTarget : string; eID : string }.
Definition steerHasControl : string → bool := targetHasControl.
Definition jsonValid (s : string) : bool := match parseJSON s with Some _ => true | None => false end.
Definition validSteer (e : SteerEnvelope) : bool :=
  (if (e.(eType) =? "task")%string then
     negb (trimSpace e.(eTool) =? "")%string && (e.(eTool) =? trimSpace e.(eTool))%string && (strlen e.(eTool) <=? 256) && negb (steerHasControl e.(eTool)) &&
     (e.(eText) =? "")%string
   else if (e.(eType) =? "nudge")%string then
     (strlen e.(eText) <=? 65536) && negb (steerHasControl e.(eText)) && (e.(eTool) =? "")%string && (e.(eArgs) =? "")%string
   else if (e.(eType) =? "cancel")%string then (e.(eTool) =? "")%string && (e.(eArgs) =? "")%string && (e.(eText) =? "")%string
   else false) &&
  match ParseTarget e.(eTarget) with Some _ => true | None => false end &&
  ((e.(eArgs) =? "")%string || jsonValid e.(eArgs)) && (strlen e.(eID) <=? 256) && negb (steerHasControl e.(eID)).
(** The answer of an inbox. *)
Record SteerAck := mkAck { kVersion : Z; kID : string; kStatus : string; kReason : string }.
Definition HandoffVersion : Z := 1.
Definition validateSteerAck (a : SteerAck) : bool :=
  (a.(kVersion) =? HandoffVersion) && (strlen a.(kID) <=? 256) && negb (steerHasControl a.(kID)) &&
  (if (a.(kStatus) =? "delivered")%string then (a.(kReason) =? "")%string
   else if (a.(kStatus) =? "rejected")%string then
     negb (trimSpace a.(kReason) =? "")%string && (a.(kReason) =? trimSpace a.(kReason))%string && (strlen a.(kReason) <=? 128) && negb (steerHasControl a.(kReason))
   else false).
Definition ackValidFor (a : SteerAck) (e : SteerEnvelope) : bool := validateSteerAck a && (a.(kID) =? e.(eID))%string.

(** ** The format *)

Inductive param := PStr (s : string) | POther (text : string).
Definition params := list (string * param).
Record LaunchStep := mkLaunch {
  Role : string; Gateway : string; NBConfig : string; SteerPort : Z; SteerAllow : list string; Interval : string }.
Record SteerStep := mkSteer { sControl : string; sBackend : string; sSession : string; sMethod : string; sParams : params }.
Record AgentSteerStep := mkAgentSteer { aTarget : string; aType : string; aTool : string; aArgs : params; aText : string; aID : string }.
Record CallStep := mkCall { cTarget : string; cTool : string; cArgs : params }.
Inductive WorkflowStep := mkStep (Launch : option LaunchStep) (Steer : option SteerStep) (AgentSteer : option AgentSteerStep)
  (Call : option CallStep) (Parallel : option (list WorkflowStep)) (As Timeout : string).
Definition Launch '(mkStep l _ _ _ _ _ _) := l.
Definition Steer '(mkStep _ s _ _ _ _ _) := s.
Definition AgentSteer '(mkStep _ _ a _ _ _ _) := a.
Definition Call '(mkStep _ _ _ c _ _ _) := c.
Definition Parallel '(mkStep _ _ _ _ p _ _) := p.
Definition As '(mkStep _ _ _ _ _ a _) := a.
Definition Timeout '(mkStep _ _ _ _ _ _ t) := t.
Record Workflow := mkWorkflow { Name : string; OnError : string; Cleanup : string; Steps : list WorkflowStep }.
Definition MaxParallelWidth : nat := 64.
Definition children (s : WorkflowStep) : list WorkflowStep := default [] (Parallel s).

(** ** References *)

Definition wordChar (c : Z) : bool := alnum c || (c =? 95).
Fixpoint word (l : list Z) : list Z * list Z :=
  match l with c :: l' => if wordChar c then (c :: (word l').1, (word l').2) else ([], l) | [] => ([], []) end.
(** [varRe] at the head of the text: the variable, its field and what follows. *)
Definition refAt (l : list Z) : option (string * string * list Z) :=
  match l with
  | 36 :: 123 :: r =>
      match word r with
      | ((_ :: _) as n, 46 :: r) => match word r with ((_ :: _) as f, 125 :: r) => Some (of_codes n, of_codes f, r) | _ => None end
      | _ => None
      end
  | _ => None
  end.
Inductive piece := Lit (c : Z) | Ref (name field : string).
Fixpoint pieces (fuel : nat) (l : list Z) : list piece :=
  match l, fuel with
  | [], _ | _, O => []
  | c :: l', S fuel =>
      match refAt l with
      | Some (n, f, rest) => Ref n f :: pieces fuel rest
      | None => Lit c :: pieces fuel l'
      end
  end.
Definition piecesOf (s : string) : list piece := pieces (String.length s) (codes s).
Definition refsIn (s : string) : list string := omap (λ p, match p with Ref n _ => Some n | Lit _ => None end) (piecesOf s).
Definition paramRefs (m : params) : list string := flat_map (λ kv, match kv.2 with PStr s => refsIn s | POther _ => [] end) m.
(** [varRefs], with repetitions: the code keeps the first of each. *)
Fixpoint varRefs (s : WorkflowStep) : list string :=
  match s with
  | mkStep _ st ag ca par _ _ =>
      match st with Some s => flat_map refsIn [s.(sControl); s.(sBackend); s.(sSession); s.(sMethod)] ++ paramRefs s.(sParams) | None => [] end ++
      match ca with Some c => flat_map refsIn [c.(cTarget); c.(cTool)] ++ paramRefs c.(cArgs) | None => [] end ++
      match ag with Some a => flat_map refsIn [a.(aTarget); a.(aTool); a.(aText)] ++ paramRefs a.(aArgs) | None => [] end ++
      match par with Some l => (fix go (l : list WorkflowStep) : list string := match l with [] => [] | c :: l => varRefs c ++ go l end) l | None => [] end
  end.

Definition vars := gmap string (gmap string string).
Definition Expand (s : string) (v : vars) : string :=
  of_codes (flat_map (λ p, match p with
    | Lit c => [c]
    | Ref n f => match v !! n ≫= (λ m, m !! f) with Some t => codes t | None => 36 :: 123 :: codes n ++ 46 :: codes f ++ [125] end
    end) (piecesOf s)).
Definition ExpandMap (m : params) (v : vars) : params := (λ kv, (kv.1, match kv.2 with PStr s => PStr (Expand s v) | p => p end)) <$> m.
Definition ExpandSteer (s : SteerStep) (v : vars) : SteerStep :=
  mkSteer (Expand s.(sControl) v) (Expand s.(sBackend) v) (Expand s.(sSession) v) (Expand s.(sMethod) v) (ExpandMap s.(sParams) v).
Definition ExpandCall (c : CallStep) (v : vars) : CallStep := mkCall (Expand c.(cTarget) v) (Expand c.(cTool) v) (ExpandMap c.(cArgs) v).
Definition ExpandAgentSteer (a : AgentSteerStep) (v : vars) : AgentSteerStep :=
  mkAgentSteer (Expand a.(aTarget) v) a.(aType) (Expand a.(aTool) v) (ExpandMap a.(aArgs) v) (Expand a.(aText) v) a.(aID).
Definition expandStep (s : WorkflowStep) (v : vars) : WorkflowStep :=
  match s with
  | mkStep l st ag ca p a t => mkStep l ((λ s, ExpandSteer s v) <$> st) ((λ x, ExpandAgentSteer x v) <$> ag) ((λ c, ExpandCall c v) <$> ca) p a t
  end.

(** ** Validation *)

Section Validate.
Context (validDuration : string → bool) (marshalParams : params → string).
Definition steerIdentity (i : string) : bool :=
  negb (trimSpace i =? "")%string && (i =? trimSpace i)%string && (strlen i <=? 512) && negb (steerHasControl i).
Definition durationOK (d : string) : bool := (d =? "")%string || validDuration d.
Definition validLaunch (l : LaunchStep) : bool :=
  negb (l.(Role) =? "")%string && negb (l.(Gateway) =? "")%string && (0 <=? l.(SteerPort)) && (l.(SteerPort) <=? 65535) &&
  negb ((0 <? l.(SteerPort)) && bool_decide (l.(SteerAllow) = [])) && negb ((l.(SteerPort) =? 0) && negb (bool_decide (l.(SteerAllow) = []))) &&
  forallb steerIdentity l.(SteerAllow) && durationOK l.(Interval).
Definition validSteerStep (s : SteerStep) : bool :=
  negb (s.(sControl) =? "")%string && negb (s.(sBackend) =? "")%string && negb (s.(sSession) =? "")%string.
Definition validAgentSteer (a : AgentSteerStep) : bool :=
  negb (a.(aTarget) =? "")%string &&
  validSteer (mkEnvelope a.(aType) a.(aTool) (match a.(aArgs) with [] => "" | m => marshalParams m end) a.(aText) "" a.(aID)).
Definition validCall (c : CallStep) : bool := negb (c.(cTarget) =? "")%string && negb (c.(cTool) =? "")%string.
Definition isSome {X} (o : option X) : bool := match o with Some _ => true | None => false end.
Definition set_ {X} (o : option X) : nat := match o with Some _ => 1 | None => 0 end.
Definition onSome {X} (f : X → bool) (o : option X) : bool := match o with Some x => f x | None => true end.
Definition actions (s : WorkflowStep) : nat :=
  (set_ (Launch s) + set_ (Steer s) + set_ (AgentSteer s) + set_ (Call s) + set_ (Parallel s))%nat.
Fixpoint validStep (s : WorkflowStep) : bool :=
  match s with
  | mkStep l st ag ca par a t =>
      onSome validLaunch l && onSome validSteerStep st && onSome validAgentSteer ag && onSome validCall ca &&
      match par with
      | Some cs =>
          negb (bool_decide (cs = [])) && (length cs <=? MaxParallelWidth)%nat &&
          (fix go (cs : list WorkflowStep) : bool := match cs with [] => true | c :: cs => negb (isSome (Parallel c)) && validStep c && go cs end) cs
      | None => true
      end && (actions s =? 1)%nat && durationOK t
  end.

Inductive wfErr := NoSteps | BadOnError | BadCleanup | BadStep (i : nat) | UnboundRef (i : nat) (name : string).
Definition capture (s : WorkflowStep) (defined : gset string) : gset string :=
  let add (n : string) (d : gset string) := if (n =? "")%string then d else {[n]} ∪ d in
  foldr (λ c d, add (As c) d) (add (As s) defined) (children s).
Fixpoint validSteps (i : nat) (l : list WorkflowStep) (defined : gset string) : option wfErr :=
  match l with
  | [] => None
  | s :: l =>
      if negb (validStep s) then Some (BadStep i)
      else match List.filter (λ r, negb (bool_decide (r ∈ defined))) (varRefs s) with
      | r :: _ => Some (UnboundRef i r)
      | [] => validSteps (S i) l (capture s defined)
      end
  end.
Definition Validate (w : Workflow) : option wfErr :=
  if bool_decide (w.(Steps) = []) then Some NoSteps
  else if negb (oneOf [""; "stop"; "continue"] w.(OnError)) then Some BadOnError
  else if negb (oneOf [""; "leave"; "stop"] w.(Cleanup)) then Some BadCleanup
  else validSteps 0 w.(Steps) ∅.
End Validate.

(** ** The runner *)

(** A step as it was executed: the variables it saw, and the step. *)
Record executed := mkExecuted { xVars : vars; xStep : WorkflowStep }.
Record wfRun := mkRun { rVars : vars; rDone : list executed }.
Definition setVar (name : string) (f : gmap string string) (r : wfRun) : wfRun :=
  if (name =? "")%string then r else mkRun (<[name := f]> r.(rVars)) r.(rDone).
(** [execStep] takes its snapshot at the start; the result is set at the end. *)
Definition begin_ (s : WorkflowStep) (r : wfRun) : wfRun := mkRun r.(rVars) (r.(rDone) ++ [mkExecuted r.(rVars) s]).
Definition end_ (s : WorkflowStep) (out : option (gmap string string)) (r : wfRun) : wfRun :=
  match out with Some f => setVar (As s) f r | None => r end.
(** The goroutines of a parallel block, in the order in which they begin and end. *)
Inductive event := Begin (i : nat) | End (i : nat).
Definition parEvent (cs : list WorkflowStep) (outs : nat → option (gmap string string)) (e : event) (r : wfRun) : wfRun :=
  match e with
  | Begin i => match cs !! i with Some c => begin_ c r | None => r end
  | End i => match cs !! i with Some c => end_ c (outs i) r | None => r end
  end.
Definition runParallel (cs : list WorkflowStep) (sched : list event) (outs : nat → option (gmap string string)) (r : wfRun) : wfRun :=
  foldl (λ r e, parEvent cs outs e r) r sched.
(** What the mesh answers to a step or a child, and how a block is scheduled. *)
Record World := mkWorld { outcome : nat → nat → option (gmap string string); schedule : nat → list event }.
Definition runOne (w : World) (i : nat) (s : WorkflowStep) (r : wfRun) : bool * wfRun :=
  match Parallel s with
  | Some cs => (forallb (λ j, isSome (w.(outcome) i j)) (seq 0 (length cs)), runParallel cs (w.(schedule) i) (w.(outcome) i) r)
  | None => (isSome (w.(outcome) i 0), end_ s (w.(outcome) i 0) (begin_ s r))
  end.
(** The index of the first failed step, and whether the run went on behind it. *)
Fixpoint runSteps (w : World) (onError : string) (i : nat) (l : list WorkflowStep) (firstErr : option nat) (r : wfRun) : option nat * wfRun :=
  match l with
  | [] => (firstErr, r)
  | s :: l =>
      let '(ok, r) := runOne w i s r in
      if ok then runSteps w onError (S i) l firstErr r
      else
        let firstErr := match firstErr with Some e => Some e | None => Some i end in
        if negb (onError =? "continue")%string then (firstErr, r) else runSteps w onError (S i) l firstErr r
  end.
Definition startRun : wfRun := mkRun ∅ [].

(** ** The launch cap *)

Definition maxWorkflowLaunches : nat := 32.
Record launches := mkLaunches { reserved : nat; pids : list Z; spawning : nat }.
Inductive launchOp := Reserve | Spawned (pid : Z) | SpawnFailed.
(** A goroutine that holds a reservation ends it by the pid or by giving it back. *)
Definition launchStep (o : launchOp) (s : launches) : launches :=
  match o with
  | Reserve => if (maxWorkflowLaunches <=? s.(reserved))%nat then s else mkLaunches (S s.(reserved)) s.(pids) (S s.(spawning))
  | Spawned pid => match s.(spawning) with O => s | S n => mkLaunches s.(reserved) (s.(pids) ++ [pid]) n end
  | SpawnFailed => match s.(spawning) with O => s | S n => mkLaunches (pred s.(reserved)) s.(pids) n end
  end.
Definition runLaunches (l : list launchOp) : launches := foldl (λ s o, launchStep o s) (mkLaunches 0 [] 0) l.

(** ** Expansion *)

Lemma word_split l n r : word l = (n, r) → l = n ++ r ∧ Forall (λ c, wordChar c = true) n.
Proof.
  revert n r. induction l as [|c l IH]; intros n r H; cbn in H; [injection H as <- <-; done|].
  destruct (wordChar c) eqn:Hc; [|injection H as <- <-; done].
  destruct (word l) as [n' r']. cbn in H. injection H as <- <-.
  destruct (IH _ _ eq_refl) as [-> Hn]. split; [done|]. by constructor.
Qed.

Lemma wordChar_byte c : wordChar c = true → is_byte c.
Proof. unfold wordChar, alnum, is_byte. intros H. destruct (Z.ltb_spec c 0), (Z.ltb_spec c 256); lia. Qed.

Lemma word_codes l n r : word l = (n, r) → l = codes (of_codes n) ++ r.
Proof.
  intros H. destruct (word_split _ _ _ H) as [-> Hn]. rewrite codes_of_codes; [done|].
  eapply Forall_impl; [exact Hn|]. apply wordChar_byte.
Qed.

(** A reference is read back from exactly the text that spells it. *)
Lemma refAt_spells l n f r : refAt l = Some (n, f, r) → l = 36 :: 123 :: codes n ++ 46 :: codes f ++ 125 :: r.
Proof.
  unfold refAt. intros H.
  repeat match type of H with
  | context [match word ?x with _ => _ end] =>
      let E := fresh "E" in destruct (word x) as [? ?] eqn:E; apply word_codes in E; rewrite E; clear E
  | context [match ?x with _ => _ end] => destruct x; try discriminate H
  end.
  by injection H as <- <- <-.
Qed.

Lemma pieces_spell (v : vars) fuel l :
  (length l ≤ fuel)%nat → (∀ n f, Ref n f ∈ pieces fuel l → v !! n ≫= (λ m, m !! f) = None) →
  flat_map (λ p, match p with
    | Lit c => [c]
    | Ref n f => match v !! n ≫= (λ m, m !! f) with Some t => codes t | None => 36 :: 123 :: codes n ++ 46 :: codes f ++ [125] end
    end) (pieces fuel l) = l.
Proof.
  revert l. induction fuel as [|fuel IH]; intros [|c l] Hl Hv; cbn [length] in *; try done; [lia|].
  cbn [pieces] in *. destruct (refAt (c :: l)) as [[[n f] r]|] eqn:Hr.
  - pose proof (refAt_spells _ _ _ _ Hr) as E. cbn [flat_map].
    rewrite (Hv n f) by (apply elem_of_cons; by left). rewrite IH.
    + rewrite E. cbn. by rewrite <- !app_assoc; cbn; rewrite <- !app_assoc.
    + apply (f_equal length) in E. cbn in E. rewrite !length_app in E. cbn in E. rewrite length_app in E. cbn in E. lia.
    + intros n' f' Hin. apply Hv. apply elem_of_cons. by right.
  - cbn [flat_map]. rewrite IH; [done|lia|]. intros n' f' Hin. apply Hv. apply elem_of_cons. by right.
Qed.

Lemma refs_of_pieces s n f : Ref n f ∈ piecesOf s → n ∈ refsIn s.
Proof. intros H. apply list_elem_of_omap. by exists (Ref n f). Qed.

(** Expansion leaves a text as it is, byte for byte, when no reference of it is bound: a
    reference is only ever replaced by a captured field, and nothing else of the text changes. *)
Theorem unbound_references_stay (s : string) (v : vars) :
  (∀ n, n ∈ refsIn s → v !! n = None) → Expand s v = s.
Proof.
  intros Hv. unfold Expand, piecesOf. rewrite pieces_spell; [apply of_codes_codes| |].
  - by rewrite length_codes.
  - intros n f Hin. by rewrite (Hv n (refs_of_pieces _ _ _ Hin)).
Qed.

(** ** Captured variables *)

Definition boundIn (v : vars) (s : WorkflowStep) : Prop := ∀ n, n ∈ varRefs s → is_Some (v !! n).
(** What holds between steps: [defined] is captured and every executed step was bound. *)
Definition runInv (defined : gset string) (r : wfRun) : Prop :=
  defined ⊆ dom r.(rVars) ∧ ∀ e, e ∈ r.(rDone) → boundIn e.(xVars) e.(xStep).

Lemma varRefs_child s cs c n : Parallel s = Some cs → c ∈ cs → n ∈ varRefs c → n ∈ varRefs s.
Proof.
  destruct s as [l st ag ca p a t]. cbn. intros -> Hc Hn. rewrite !elem_of_app. do 3 right.
  induction cs as [|c' cs IH]; [by apply elem_of_nil in Hc|].
  apply elem_of_app. apply elem_of_cons in Hc as [<-|Hc]; [by left|right; by apply IH].
Qed.

Lemma runInv_begin D s r : runInv D r → (∀ n, n ∈ varRefs s → n ∈ D) → runInv D (begin_ s r).
Proof.
  intros [Hd He] Hs. split; [done|]. intros e. cbn. rewrite elem_of_app, list_elem_of_singleton.
  intros [Hin| ->]; [by apply He|]. intros n Hn. apply elem_of_dom, Hd, Hs, Hn.
Qed.

Lemma end_vars s out r : dom (rVars r) ⊆ dom (rVars (end_ s out r)).
Proof. unfold end_, setVar. destruct out; [|done]. destruct (As s =? "")%string; [done|]. cbn. set_solver. Qed.

Lemma runInv_end D s out r : runInv D r → runInv D (end_ s out r).
Proof.
  intros [Hd He]. split; [etrans; [exact Hd|apply end_vars]|].
  unfold end_, setVar. destruct out; [|done]. by destruct (As s =? "")%string.
Qed.

Lemma end_captures s f r : As s ≠ "" → As s ∈ dom (rVars (end_ s (Some f) r)).
Proof. intros Ha. unfold end_, setVar. destruct (String.eqb_spec (As s) ""); [done|]. cbn. set_solver. Qed.

Lemma parEvent_vars cs outs e r : dom (rVars r) ⊆ dom (rVars (parEvent cs outs e r)).
Proof. unfold parEvent. destruct e; destruct (cs !! i); try done. apply end_vars. Qed.

Lemma runParallel_vars cs sched outs r : dom (rVars r) ⊆ dom (rVars (runParallel cs sched outs r)).
Proof.
  revert r. induction sched as [|e sched IH]; intros r; [done|]. cbn.
  etrans; [apply (parEvent_vars cs outs e)|apply IH].
Qed.

Lemma runInv_parallel D cs sched outs r :
  (∀ c n, c ∈ cs → n ∈ varRefs c → n ∈ D) → runInv D r → runInv D (runParallel cs sched outs r).
Proof.
  intros Hcs. revert r. induction sched as [|e sched IH]; intros r Hr; [done|]. cbn. apply IH.
  unfold parEvent. destruct e; destruct (cs !! i) as [c|] eqn:Hc; try done; [|by apply runInv_end].
  apply runInv_begin; [done|]. intros n. eapply Hcs, list_elem_of_lookup_2, Hc.
Qed.

Lemma runParallel_captures cs sched outs r j c f :
  cs !! j = Some c → outs j = Some f → As c ≠ "" → End j ∈ sched → As c ∈ dom (rVars (runParallel cs sched outs r)).
Proof.
  intros Hc Ho Ha. revert r. induction sched as [|e sched IH]; intros r Hj; [by apply elem_of_nil in Hj|].
  apply elem_of_cons in Hj as [<-|Hj]; [|by apply IH]. cbn. rewrite Hc, Ho.
  apply runParallel_vars. by apply end_captures.
Qed.

Lemma elem_capture s D x :
  x ∈ capture s D → x ∈ D ∨ (x = As s ∧ x ≠ "") ∨ ∃ c, c ∈ children s ∧ x = As c ∧ x ≠ "".
Proof.
  unfold capture. induction (children s) as [|c cs IH]; cbn.
  - destruct (String.eqb_spec (As s) ""); set_solver.
  - destruct (String.eqb_spec (As c) "") as [|Hc]; [set_solver|].
    rewrite elem_of_union, elem_of_singleton. intros [->|Hx]; [|set_solver].
    right. right. exists c. set_solver.
Qed.

Lemma runOne_inv w i s D r :
  (∀ n, n ∈ varRefs s → n ∈ D) → runInv D r → runInv D (runOne w i s r).2.
Proof.
  intros Hs Hr. unfold runOne. destruct (Parallel s) as [cs|] eqn:Hp; cbn [snd].
  - apply runInv_parallel; [|done]. intros c n Hc Hn. apply Hs. by eapply varRefs_child.
  - by apply runInv_end, runInv_begin.
Qed.

(** A step that succeeded captured what its validation promised. *)
Lemma runOne_captures w i s D r :
  (Parallel s ≠ None → As s = "") → (∀ cs j, Parallel s = Some cs → (j < length cs)%nat → End j ∈ w.(schedule) i) →
  (∀ n, n ∈ varRefs s → n ∈ D) → runInv D r → (runOne w i s r).1 = true → runInv (capture s D) (runOne w i s r).2.
Proof.
  intros Ha Hsch Hs Hr Hok. pose proof (runOne_inv w i s D r Hs Hr) as [Hd He]. split; [|exact He].
  intros x [Hx|[[-> Hx]|(c & Hc & -> & Hx)]]%elem_capture; [by apply Hd|..]; clear He Hd.
  - unfold runOne in *. destruct (Parallel s) as [cs|]; [by destruct Hx; apply Ha|].
    cbn [fst snd] in *. destruct (outcome w i 0) as [f|]; [|done]. by apply end_captures.
  - unfold runOne, children in *. destruct (Parallel s) as [cs|]; cbn in Hc; [|by apply elem_of_nil in Hc].
    apply list_elem_of_lookup in Hc as [j Hj]. pose proof (lookup_lt_Some _ _ _ Hj) as Hlt. cbn [fst snd] in *.
    rewrite forallb_forall in Hok. specialize (Hok j). rewrite in_seq in Hok.
    destruct (outcome w i j) as [f|] eqn:Ho; [|by discriminate Hok; lia].
    eapply runParallel_captures; try done. by eapply Hsch.
Qed.

Lemma filter_nil {X} (f : X → bool) l : List.filter f l = [] → ∀ x, x ∈ l → f x = false.
Proof.
  induction l as [|y l IH]; cbn; intros H x Hx; [by apply elem_of_nil in Hx|].
  destruct (f y) eqn:Hy; [done|]. apply elem_of_cons in Hx as [->|Hx]; [done|by apply IH].
Qed.

Section Bound.
Context (validDuration : string → bool) (marshalParams : params → string) (w : World) (onError : string).
Hypothesis (stops : onError ≠ "continue").

Lemma runSteps_inv l i D firstErr r :
  validSteps validDuration marshalParams i l D = None →
  (∀ s, s ∈ l → Parallel s ≠ None → As s = "") →
  (∀ k s cs j, l !! k = Some s → Parallel s = Some cs → (j < length cs)%nat → End j ∈ w.(schedule) (i + k)%nat) →
  runInv D r → ∃ D', runInv D' (runSteps w onError i l firstErr r).2.
Proof.
  revert i D firstErr r. induction l as [|s l IH]; intros i D firstErr r Hv Ha Hsch Hr; [by exists D|].
  cbn [validSteps] in Hv. destruct (validStep validDuration marshalParams s); [cbn [negb] in Hv|done].
  destruct (List.filter _ _) as [|n ns] eqn:Hf; [|done].
  assert (Hs : ∀ n, n ∈ varRefs s → n ∈ D).
  { intros n Hn. pose proof (filter_nil _ _ Hf n Hn) as Hb. apply negb_false_iff in Hb. by apply bool_decide_eq_true in Hb. }
  assert (Hsch0 : ∀ cs j, Parallel s = Some cs → (j < length cs)%nat → End j ∈ w.(schedule) i).
  { intros cs j Hp Hj. specialize (Hsch 0%nat s cs j eq_refl Hp Hj). by rewrite Nat.add_0_r in Hsch. }
  pose proof (runOne_inv w i s D r Hs Hr) as Hi.
  pose proof (runOne_captures w i s D r (Ha s (list_elem_of_here _ _)) Hsch0 Hs Hr) as Hc.
  cbn [runSteps]. destruct (runOne w i s r) as [[] r'].
  - eapply IH; [exact Hv| | |by apply Hc].
    + intros s' Hs'. apply Ha. by apply elem_of_cons; right.
    + intros k s' cs j Hk. specialize (Hsch (S k) s' cs j Hk). by replace (S i + k)%nat with (i + S k)%nat by lia.
  - destruct (String.eqb_spec onError "continue"); [done|]. cbn. by exists D.
Qed.
End Bound.

(** A workflow that passes validation and stops at errors never sends a step with a
    reference to a variable nobody captured: whatever the mesh answers and however the children
    of the parallel blocks interleave, every variable that an executed step refers to is bound
    in the variables the step is expanded against. (A block names nothing by its own [as].) *)
Theorem references_are_bound (validDuration : string → bool) (marshalParams : params → string) (wf : Workflow) (w : World) (e : executed) (n : string) :
  Validate validDuration marshalParams wf = None → wf.(OnError) ≠ "continue" →
  (∀ s, s ∈ wf.(Steps) → Parallel s ≠ None → As s = "") →
  (∀ i s cs j, wf.(Steps) !! i = Some s → Parallel s = Some cs → (j < length cs)%nat → End j ∈ w.(schedule) i) →
  e ∈ (runSteps w wf.(OnError) 0 wf.(Steps) None startRun).2.(rDone) →
  n ∈ varRefs e.(xStep) → is_Some (e.(xVars) !! n).
Proof.
  intros Hv Ho Ha Hsch He. unfold Validate in Hv.
  destruct (bool_decide (Steps wf = [])); [done|]. destruct (negb _); [done|]. destruct (negb _); [done|].
  destruct (runSteps_inv validDuration marshalParams w (OnError wf) Ho (Steps wf) 0 ∅ None startRun Hv Ha Hsch) as [D [_ H]].
  - split; [set_solver|]. intros e' He'. by apply elem_of_nil in He'.
  - by apply H.
Qed.

(** A run never holds more than the cap of launched agents, and every reservation is an
    agent that runs or one that is being spawned, whatever the order in which the parallel
    steps reserve, spawn and fail. *)
Theorem launches_are_capped (l : list launchOp) :
  let s := runLaunches l in
  (s.(reserved) ≤ maxWorkflowLaunches)%nat ∧ (length s.(pids) + s.(spawning) = s.(reserved))%nat.
Proof.
  unfold runLaunches. cbv zeta.
  assert (H0 : (reserved (mkLaunches 0 [] 0) ≤ maxWorkflowLaunches)%nat ∧
    (length (pids (mkLaunches 0 [] 0)) + spawning (mkLaunches 0 [] 0) = reserved (mkLaunches 0 [] 0))%nat) by (cbn; lia).
  revert H0. generalize (mkLaunches 0 [] 0). induction l as [|o l IH]; intros s Hs; [done|].
  cbn [foldl]. apply IH. destruct s as [n p k]. cbn [reserved pids spawning] in Hs.
  destruct o; cbn [launchStep reserved spawning].
  - destruct (Nat.leb_spec maxWorkflowLaunches n); cbn [reserved pids spawning]; lia.
  - destruct k; cbn [reserved pids spawning]; [done|]. rewrite length_app. cbn [length]. lia.
  - destruct k; cbn [reserved pids spawning]; lia.
Qed.

End Workflow.

Module WorkflowRuns.
Import Presence Workflow.

Definition call (target : string) (a : string) : WorkflowStep :=
  mkStep None None None (Some (mkCall target "search" [("q", PStr "1")])) None a "".
Definition par (cs : list WorkflowStep) (a : string) : WorkflowStep := mkStep None None None None (Some cs) a "".
Definition noDuration (_ : string) : bool := false.
Definition noParams (_ : params) : string := "{}".
Definition result (s : string) : gmap string string := {["result" := s]}.
(** The first call finds two hosts, which are searched at once; the last call uses what one of
    them returned. The second child ends before the first begins. *)
Definition flow : Workflow := mkWorkflow "survey" "stop" "leave"
  [call "100.64.0.2:9000" "a"; par [call "${a.result}:9000" "b"; call "100.64.0.3:9000" "c"] ""; call "${c.result}:9000" ""].
Definition mesh : World := mkWorld (λ i j, Some (result ("10.0." +:+ itoa (Z.of_nat i) +:+ "." +:+ itoa (Z.of_nat j)))) (λ _, [Begin 1; End 1; Begin 0; End 0]).
Definition done_ (w : World) (f : Workflow) : option nat * list executed :=
  let '(err, r) := runSteps w f.(OnError) 0 f.(Steps) None startRun in (err, r.(rDone)).
Definition sent (e : executed) : string := match Call (expandStep e.(xStep) e.(xVars)) with Some c => c.(cTarget) | None => "" end.
Definition blockAs : Workflow := mkWorkflow "named block" "" "" [par [call "100.64.0.2:9000" ""] "all"; call "${all.result}" ""].

Example flow_runs : (done_ mesh flow).1 = None ∧ sent <$> (done_ mesh flow).2 =
  ["100.64.0.2:9000"; "100.64.0.3:9000"; "10.0.0.0:9000"; "10.0.1.1:9000"].
Proof. by vm_compute. Qed.
Example unbound_is_refused : Validate noDuration noParams (mkWorkflow "" "" "" [call "${a.b}" "a"]) = Some (UnboundRef 0 "a").
Proof. by vm_compute. Qed.
Example expansion : Expand "${a.result}/${a.b}/${x.y}/${.}" {["a" := result "R"]} = "R/${a.b}/${x.y}/${.}".
Proof. by vm_compute. Qed.
Example envelopes : validSteer (mkEnvelope "task" "search" "{}" "" "" "1") = true ∧ validSteer (mkEnvelope "task" "search" "" "now" "" "") = false ∧
  validSteer (mkEnvelope "nudge" "" "" "" "task:9f2a" "") = true ∧ ackValidFor (mkAck 1 "1" "delivered" "") (mkEnvelope "cancel" "" "" "" "" "2") = false.
Proof. by vm_compute. Qed.
End WorkflowRuns.

Lemma unbound_references_stay_witness :
  Workflow.Expand "call ${a.b} at ${c.d}" ∅ = "call ${a.b} at ${c.d}".
Proof. apply (Workflow.unbound_references_stay "call ${a.b} at ${c.d}" ∅). intros n _. reflexivity. Defined.

Lemma references_are_bound_witness :
  is_Some (Workflow.xVars (default (Workflow.mkExecuted ∅ (WorkflowRuns.call "" "")) ((WorkflowRuns.done_ WorkflowRuns.mesh WorkflowRuns.flow).2 !! 3%nat)) !! "c").
Proof.
  eapply (Workflow.references_are_bound WorkflowRuns.noDuration WorkflowRuns.noParams WorkflowRuns.flow WorkflowRuns.mesh).
  - vm_compute. reflexivity.
  - discriminate.
  - intros s Hs Hp. apply list_elem_of_In in Hs. cbn in Hs. destruct Hs as [<-|[<-|[<-|[]]]]; first [reflexivity | destruct Hp; reflexivity].
  - intros [|[|[|i]]] s cs j Hs Hp Hj; cbn in Hs; try discriminate; injection Hs as <-; try discriminate.
    injection Hp as <-. cbn in Hj. apply list_elem_of_In. cbn. destruct j as [|[|j]]; [auto|auto|lia].
  - apply (list_elem_of_lookup_2 _ 3). vm_compute. reflexivity.
  - apply list_elem_of_In. vm_compute. left. reflexivity.
Defined.

(** A parallel block's own [as] satisfies the validation of a later reference, but the runner
    never stores anything under it: every step succeeds and the reference is sent unexpanded. *)
Theorem block_name_is_never_captured :
  Workflow.Validate WorkflowRuns.noDuration WorkflowRuns.noParams WorkflowRuns.blockAs = None ∧
  (WorkflowRuns.done_ WorkflowRuns.mesh WorkflowRuns.blockAs).1 = None ∧
  WorkflowRuns.sent <$> (WorkflowRuns.done_ WorkflowRuns.mesh WorkflowRuns.blockAs).2 = ["100.64.0.2:9000"; "${all.result}"].
Proof. by vm_compute. Qed.

(** With [on_error: continue] a failed step does not stop the run, but its error is returned. *)
Theorem continue_returns_the_error :
  (WorkflowRuns.done_ (Workflow.mkWorld (λ i j, if (i =? 0)%nat then None else Some ∅) (λ _, [])) (Workflow.mkWorkflow "" "continue" "" [WorkflowRuns.call "x" ""; WorkflowRuns.call "y" ""])).1 = Some 0%nat.
Proof. by vm_compute. Qed.
