(* ===== verification/KnowStore.v ===== *)
(** * KnowStore: the hash-chained triple store of the knowledge graph

    [kg/store.go]: records linked into a chain, their file, assertion and tombstones, the
    view as of a sequence number, queries, verification, the merge of replicas and the
    exchange of deltas. The file is its bytes; an append can fail after any number of them.
    Fresh identifiers and times are arguments. *)
From stdpp Require Import base list strings gmap.
From Stdlib Require Import ZArith Lia.
From Stdlib Require Import Strings.Byte.
From S2P Require Import Prelude GoStd Json JsonText JsonCodec Crypto Checkpoint Ledger EventLog Rows.
Open Scope Z_scope.
Open Scope mesh_scope.

Module KgStore.

(** ** Records *)

Record Record_ := mkRec {
  Seq : Z; Op : string; ID : string; Sub : string; Pred : string; Obj : string; Peer : string; Time : string;
  Corpus : string; Source : string; ValidFrom : string; PrevHash : string; Hash : string }.
#[export] Instance Record_eq_dec : EqDecision Record_.
Proof. solve_decision. Defined.
Definition zeroRec : Record_ := mkRec 0 "" "" "" "" "" "" "" "" "" "" "" "".
Definition setHash (h : string) (r : Record_) : Record_ :=
  mkRec r.(Seq) r.(Op) r.(ID) r.(Sub) r.(Pred) r.(Obj) r.(Peer) r.(Time) r.(Corpus) r.(Source) r.(ValidFrom) r.(PrevHash) h.
(** The struct tags. *)
Definition recFields (r : Record_) : list field :=
  let os name v := mkField name true (VStr v) in
  [mkField "seq" false (VInt r.(Seq)); mkField "op" false (VStr r.(Op)); mkField "id" false (VStr r.(ID));
   os "s" r.(Sub); os "p" r.(Pred); os "o" r.(Obj); os "peer" r.(Peer); os "time" r.(Time);
   os "corpus" r.(Corpus); os "source" r.(Source); os "valid_from" r.(ValidFrom);
   mkField "prev_hash" false (VStr r.(PrevHash)); os "hash" r.(Hash)].
Definition recOfFields (fs : list field) : option Record_ :=
  match fVal <$> fs with
  | [VInt a1; VStr a2; VStr a3; VStr a4; VStr a5; VStr a6; VStr a7; VStr a8; VStr a9; VStr b1; VStr b2; VStr b3; VStr b4] =>
      Some (mkRec a1 a2 a3 a4 a5 a6 a7 a8 a9 b1 b2 b3 b4)
  | _ => None
  end.
Definition marshalRec (r : Record_) : string := marshalStruct (recFields r).
Definition unmarshalRec (s : string) : option Record_ := unmarshalStruct (recFields zeroRec) s ≫= recOfFields.

(** What a record says, apart from its place in a chain. *)
Record Content := mkContent {
  cID : string; cSub : string; cPred : string; cObj : string; cPeer : string; cCorpus : string; cSource : string; cFrom : string }.
#[export] Instance Content_eq_dec : EqDecision Content.
Proof. solve_decision. Defined.
Definition content (r : Record_) : Content :=
  mkContent r.(ID) r.(Sub) r.(Pred) r.(Obj) r.(Peer) r.(Corpus) r.(Source) r.(ValidFrom).
Definition entry (op : string) (c : Content) : Record_ :=
  mkRec 0 op c.(cID) c.(cSub) c.(cPred) c.(cObj) c.(cPeer) "" c.(cCorpus) c.(cSource) c.(cFrom) "" "".

(** ** The store *)

Record Store := mkStore { onDisk : bool; disk : string; recs : list Record_; seq : Z; prev : string }.

(** What is active: the tombstoned ids, the last assertion of an id, and the ids in the order
    of their first assertion. *)
Record fold := mkFold { deleted : gset string; asserts : gmap string Record_; order : list string }.
Definition foldRec (f : fold) (r : Record_) : fold :=
  if (r.(Op) =? "delete")%string then mkFold ({[r.(ID)]} ∪ f.(deleted)) f.(asserts) f.(order)
  else if (r.(Op) =? "assert")%string then
    mkFold f.(deleted) (<[r.(ID) := r]> f.(asserts))
      (match f.(asserts) !! r.(ID) with Some _ => f.(order) | None => f.(order) ++ [r.(ID)] end)
  else f.
Definition foldAll (l : list Record_) : fold := foldl foldRec (mkFold ∅ ∅ []) l.
Definition live (f : fold) : list Record_ :=
  omap (λ i, if bool_decide (i ∈ f.(deleted)) then None else f.(asserts) !! i) f.(order).
(** The records up to the first behind [asOf]. *)
Fixpoint upTo (asOf : Z) (l : list Record_) : list Record_ :=
  match l with r :: l => if asOf <? r.(Seq) then [] else r :: upTo asOf l | [] => [] end.
Definition Active (asOf : Z) (s : Store) : list Record_ :=
  live (foldAll (upTo (if asOf <=? 0 then s.(seq) else asOf) s.(recs))).
Definition Query (sub pred obj : string) (asOf : Z) (s : Store) : list Record_ :=
  List.filter (λ r, ((sub =? "")%string || (r.(Sub) =? sub)%string) && ((pred =? "")%string || (r.(Pred) =? pred)%string) &&
                    ((obj =? "")%string || (r.(Obj) =? obj)%string)) (Active asOf s).
Definition Neighbors (node : string) (asOf : Z) (s : Store) : list Record_ :=
  List.filter (λ r, (r.(Sub) =? node)%string || (r.(Obj) =? node)%string) (Active asOf s).
Definition Head (s : Store) : Z := s.(seq).
Definition DeltaSince (since : Z) (s : Store) : list Record_ := List.filter (λ r, since <? r.(Seq)) s.(recs).
(** [Merge] of the logs of replicas: what is asserted somewhere and deleted nowhere, by id. *)
Definition Merge (logs : list (list Record_)) : list Record_ :=
  let f := foldAll (concat logs) in
  sortRows (λ r, [r.(ID)]) (filter (λ ir, ir.1 ∉ f.(deleted)) f.(asserts)).

Section Store.
Context `{SHA256}.

Definition ChainHash (r : Record_) : string := sha256Hex (marshalRec (setHash "" r)).
(** An append: the time, and if the write fails, how many bytes went out before. *)
Record Env := mkEnv { now : string; writeErr : option nat }.
Definition link (env : Env) (op : string) (c : Content) (s : Store) : Record_ :=
  let r := mkRec (i64 (s.(seq) + 1)) op c.(cID) c.(cSub) c.(cPred) c.(cObj) c.(cPeer) env.(now)
             c.(cCorpus) c.(cSource) c.(cFrom) s.(prev) "" in
  setHash (ChainHash r) r.
Definition lineOf (r : Record_) : string := marshalRec r +:+ Chain.newline.
Definition appendRecord (env : Env) (op : string) (c : Content) (s : Store) : option Record_ * Store :=
  let r := link env op c s in
  let stored d := (Some r, mkStore s.(onDisk) d (s.(recs) ++ [r]) r.(Seq) r.(Hash)) in
  if s.(onDisk) then
    match env.(writeErr) with
    | Some n => (None, mkStore true (s.(disk) +:+ String.substring 0 n (lineOf r)) s.(recs) s.(seq) s.(prev))
    | None => stored (s.(disk) +:+ lineOf r)
    end
  else stored s.(disk).

Inductive kgErr := Required | WriteFailed.
Definition AssertProv (env : Env) (id sub pred obj peer corpus source validFrom : string) (s : Store) : result kgErr Record_ * Store :=
  if (sub =? "")%string || (pred =? "")%string || (obj =? "")%string then (Err Required, s)
  else match appendRecord env "assert" (mkContent id sub pred obj peer corpus source validFrom) s with
  | (Some r, s) => (Ok r, s)
  | (None, s) => (Err WriteFailed, s)
  end.
Definition Assert (env : Env) (id sub pred obj peer : string) (s : Store) : result kgErr Record_ * Store :=
  AssertProv env id sub pred obj peer "" "" "" s.
Definition Delete (env : Env) (id peer : string) (s : Store) : result kgErr Record_ * Store :=
  match appendRecord env "delete" (mkContent id "" "" "" peer "" "" "") s with
  | (Some r, s) => (Ok r, s)
  | (None, s) => (Err WriteFailed, s)
  end.

(** ** Verification and loading *)

Inductive verr := SeqBreak (i : nat) | ChainBreak (i : nat) | Tampered (i : nat).
Fixpoint verifyFrom (i : nat) (p : string) (l : list Record_) : option verr :=
  match l with
  | [] => None
  | r :: l =>
      if negb (r.(Seq) =? Z.of_nat (S i)) then Some (SeqBreak i)
      else if negb (r.(PrevHash) =? p)%string then Some (ChainBreak i)
      else if negb (ChainHash r =? r.(Hash))%string then Some (Tampered i)
      else verifyFrom (S i) r.(Hash) l
  end.
Definition Verify (s : Store) : option verr := verifyFrom 0 "" s.(recs).

(** The loop of [Open] over the lines of the file. *)
Fixpoint openLoop (ls : list string) (s : Store) : option Store :=
  match ls with
  | [] => Some s
  | raw :: ls =>
      if Chain.maxLine <=? strlen raw then None
      else
        let line := EvLog.dropCR raw in
        if (line =? "")%string then openLoop ls s
        else match unmarshalRec line with
        | None => None
        | Some r => openLoop ls (mkStore s.(onDisk) s.(disk) (s.(recs) ++ [r]) r.(Seq) r.(Hash))
        end
  end.
Definition Open (file : string) : option Store := openLoop (Chain.lines file) (mkStore true file [] 0 "").
(** A store without a file, or with a file that is not there yet. *)
Definition fresh (path : bool) : Store := mkStore path "" [] 0 "".

(** ** Deltas *)

Definition key (op id : string) : string := op +:+ of_codes [0] +:+ id.
(** The loop of [ApplyDelta]: how many records were appended, and whether it went through. *)
Fixpoint applyLoop (envs : nat → Env) (l : list Record_) (have : gset string) (applied : nat) (s : Store) : nat * bool * Store :=
  match l with
  | [] => (applied, true, s)
  | r :: l =>
      if (r.(ID) =? "")%string || (negb (r.(Op) =? "assert")%string && negb (r.(Op) =? "delete")%string)
      then applyLoop envs l have applied s
      else if bool_decide (key r.(Op) r.(ID) ∈ have) then applyLoop envs l have applied s
      else match appendRecord (envs applied) r.(Op) (content r) s with
      | (None, s) => (applied, false, s)
      | (Some _, s) => applyLoop envs l ({[key r.(Op) r.(ID)]} ∪ have) (S applied) s
      end
  end.
Definition keys (l : list Record_) : gset string := list_to_set ((λ r, key r.(Op) r.(ID)) <$> l).
Definition ApplyDelta (envs : nat → Env) (l : list Record_) (s : Store) : nat * bool * Store :=
  applyLoop envs l (keys s.(recs)) 0 s.

(** ** Runs *)

Inductive op :=
| DoAssert (env : Env) (id sub pred obj peer corpus source validFrom : string)
| DoDelete (env : Env) (id peer : string)
| DoApply (envs : nat → Env) (delta : list Record_).
Definition step (s : Store) (o : op) : Store :=
  match o with
  | DoAssert env id sub pred obj peer corpus source validFrom => (AssertProv env id sub pred obj peer corpus source validFrom s).2
  | DoDelete env id peer => (Delete env id peer s).2
  | DoApply envs delta => (ApplyDelta envs delta s).2
  end.
Definition run (ops : list op) (s : Store) : Store := foldl step s ops.
End Store.
(** ** The chain *)

Section ChainProofs.
Context `{SHA256}.

Definition linked (i : nat) (p : string) (r : Record_) : Prop :=
  r.(Seq) = Z.of_nat (S i) ∧ r.(PrevHash) = p ∧ ChainHash r = r.(Hash).
Definition headHash (p : string) (l : list Record_) : string := from_option Hash p (list.last l).

Lemma verifyFrom_cons i p r l : verifyFrom i p (r :: l) = None ↔ linked i p r ∧ verifyFrom (S i) r.(Hash) l = None.
Proof.
  cbn [verifyFrom]. unfold linked. destruct (Z.eqb_spec r.(Seq) (Z.of_nat (S i))); cbn [negb]; [|naive_solver].
  destruct (String.eqb_spec r.(PrevHash) p); cbn [negb]; [|naive_solver].
  destruct (String.eqb_spec (ChainHash r) r.(Hash)); cbn [negb]; naive_solver.
Qed.

Lemma verifyFrom_snoc i p l r :
  verifyFrom i p (l ++ [r]) = None ↔ verifyFrom i p l = None ∧ linked (i + length l) (headHash p l) r.
Proof.
  revert i p. induction l as [|x l IH]; intros i p.
  - cbn [app length]. rewrite verifyFrom_cons, Nat.add_0_r. cbn. naive_solver.
  - cbn [app]. rewrite !verifyFrom_cons, IH. cbn [length]. replace (i + S (length l))%nat with (S i + length l)%nat by lia.
    assert (headHash x.(Hash) l = headHash p (x :: l)) as ->; [|naive_solver].
    unfold headHash. destruct l as [|y l _] using rev_ind; [done|]. by rewrite app_comm_cons, !last_snoc.
Qed.

Lemma verifyFrom_seqs i p l k r : verifyFrom i p l = None → l !! k = Some r → r.(Seq) = Z.of_nat (S (i + k)).
Proof.
  revert i p k. induction l as [|x l IH]; intros i p k Hv Hk; [done|]. apply verifyFrom_cons in Hv as [(Hs & _ & _) Hv].
  destruct k as [|k]; [injection Hk as ->; by rewrite Nat.add_0_r|]. cbn in Hk.
  rewrite (IH _ _ _ Hv Hk). f_equal. lia.
Qed.

(** What every operation keeps: the chain verifies, and the counters are those of its end. *)
Definition sealed (s : Store) : Prop :=
  Verify s = None ∧ s.(seq) = Z.of_nat (length s.(recs)) ∧ s.(prev) = headHash "" s.(recs).
Definition room (s : Store) : Prop := Z.of_nat (length s.(recs)) ≤ maxInt64.

Lemma setHash_chain h r : ChainHash (setHash h r) = ChainHash r.
Proof. done. Qed.

Lemma append_grows env o c s : ∃ l, (appendRecord env o c s).2.(recs) = s.(recs) ++ l.
Proof. unfold appendRecord. repeat case_match; cbn [snd recs]; first [by exists []; rewrite app_nil_r|by eexists]. Qed.

Lemma append_sealed env o c s : sealed s → room (appendRecord env o c s).2 → sealed (appendRecord env o c s).2.
Proof.
  intros (Hv & Hs & Hp) Hr.
  assert (Hok : ∀ d, Z.of_nat (length (s.(recs) ++ [link env o c s])) ≤ maxInt64 →
    sealed (mkStore s.(onDisk) d (s.(recs) ++ [link env o c s]) (link env o c s).(Seq) (link env o c s).(Hash))).
  { intros d Hlen. rewrite length_app in Hlen. cbn [length] in Hlen. unfold maxInt64 in Hlen.
    assert (Hseq : (link env o c s).(Seq) = Z.of_nat (S (length s.(recs)))).
    { unfold link. cbn [setHash Seq]. rewrite Hs, i64_small by lia. lia. }
    unfold sealed, Verify in *. cbn [recs seq prev]. rewrite verifyFrom_snoc. split_and!; [done| |by rewrite length_app, Hseq; cbn; lia|].
    - unfold linked. split_and!; [done|by rewrite <- Hp|]. unfold link. rewrite setHash_chain. done.
    - unfold headHash. by rewrite last_snoc. }
  unfold appendRecord in *. repeat case_match; cbn [snd] in *; try (by apply Hok); split_and!; done.
Qed.

Lemma append_room env o c s : room (appendRecord env o c s).2 → room s.
Proof. unfold room. destruct (append_grows env o c s) as [l ->]. rewrite length_app. lia. Qed.

Lemma applyLoop_grows envs l have n s : ∃ l', (applyLoop envs l have n s).2.(recs) = s.(recs) ++ l'.
Proof.
  revert have n s. induction l as [|r l IH]; intros have n s; cbn [applyLoop]; [exists []; by rewrite app_nil_r|].
  case_match; [apply IH|]. case_bool_decide; [apply IH|].
  destruct (append_grows (envs n) r.(Op) (content r) s) as [l1 Hl1].
  destruct (appendRecord _ _ _ s) as [[r'|] s'] eqn:Ha; cbn [snd] in *; [|by exists l1].
  destruct (IH ({[key r.(Op) r.(ID)]} ∪ have) (S n) s') as [l2 ->]. rewrite Hl1, <- app_assoc. by eexists.
Qed.

Lemma applyLoop_sealed envs l have n s : sealed s → room (applyLoop envs l have n s).2 → sealed (applyLoop envs l have n s).2.
Proof.
  revert have n s. induction l as [|r l IH]; intros have n s Hs Hr; cbn [applyLoop] in *; [done|].
  case_match; [by apply IH|]. case_bool_decide; [by apply IH|].
  pose proof (append_sealed (envs n) r.(Op) (content r) s Hs) as Ha.
  destruct (appendRecord _ _ _ s) as [[r'|] s'] eqn:E; cbn [snd] in *; [|by apply Ha].
  apply IH; [|done]. apply Ha. unfold room in *.
  destruct (applyLoop_grows envs l ({[key r.(Op) r.(ID)]} ∪ have) (S n) s') as [l' Hl]. rewrite Hl, length_app in Hr. lia.
Qed.

Lemma step_grows s o : ∃ l, (step s o).(recs) = s.(recs) ++ l.
Proof.
  destruct o; cbn [step].
  - unfold AssertProv. case_match; [exists []; by rewrite app_nil_r|].
    destruct (append_grows env "assert" (mkContent id sub pred obj peer corpus source validFrom) s) as [l Hl].
    destruct (appendRecord _ _ _ s) as [[r|] s'] eqn:E; cbn [snd] in *; by exists l.
  - unfold Delete. destruct (append_grows env "delete" (mkContent id "" "" "" peer "" "" "") s) as [l Hl].
    destruct (appendRecord _ _ _ s) as [[r|] s'] eqn:E; cbn [snd] in *; by exists l.
  - apply applyLoop_grows.
Qed.

Lemma step_sealed s o : sealed s → room (step s o) → sealed (step s o).
Proof.
  intros Hs. destruct o; cbn [step].
  - unfold AssertProv. case_match; [done|].
    pose proof (append_sealed env "assert" (mkContent id sub pred obj peer corpus source validFrom) s Hs).
    destruct (appendRecord _ _ _ s) as [[r|] s'] eqn:E; cbn [snd] in *; done.
  - unfold Delete. pose proof (append_sealed env "delete" (mkContent id "" "" "" peer "" "" "") s Hs).
    destruct (appendRecord _ _ _ s) as [[r|] s'] eqn:E; cbn [snd] in *; done.
  - by apply applyLoop_sealed.
Qed.

Lemma run_sealed ops s : sealed s → room (run ops s) → sealed (run ops s).
Proof.
  intros Hs. unfold run. induction ops as [|o ops IH] using rev_ind; [done|]. rewrite foldl_app. cbn [foldl]. intros Hr.
  apply step_sealed; [|done]. apply IH. unfold room in *. destruct (step_grows (foldl step s ops) o) as [l Hl].
  rewrite Hl, length_app in Hr. lia.
Qed.

Lemma fresh_sealed path : sealed (fresh path).
Proof. done. Qed.
End ChainProofs.
(** ** The view *)

Lemma foldAll_snoc l r : foldAll (l ++ [r]) = foldRec (foldAll l) r.
Proof. unfold foldAll. by rewrite foldl_app. Qed.

Lemma foldAll_deleted l i : i ∈ (foldAll l).(deleted) ↔ ∃ r, r ∈ l ∧ r.(Op) = "delete" ∧ r.(ID) = i.
Proof.
  induction l as [|r l IH] using rev_ind.
  { cbn. split; [set_solver|]. intros (r & Hr & _). by apply elem_of_nil in Hr. }
  rewrite foldAll_snoc. unfold foldRec. setoid_rewrite elem_of_app. setoid_rewrite list_elem_of_singleton.
  destruct (String.eqb_spec r.(Op) "delete") as [Ho|Ho]; cbn [deleted].
  - rewrite elem_of_union, elem_of_singleton, IH. naive_solver.
  - destruct (r.(Op) =? "assert")%string; cbn [deleted]; rewrite IH; naive_solver.
Qed.

(** The ids in order are those asserted, each once; each stands for an assertion of the log. *)
Lemma foldAll_asserts l :
  NoDup (foldAll l).(order) ∧ (∀ i, i ∈ (foldAll l).(order) ↔ is_Some ((foldAll l).(asserts) !! i)) ∧
  (∀ i, is_Some ((foldAll l).(asserts) !! i) ↔ ∃ r, r ∈ l ∧ r.(Op) = "assert" ∧ r.(ID) = i) ∧
  (∀ i r, (foldAll l).(asserts) !! i = Some r → r ∈ l ∧ r.(Op) = "assert" ∧ r.(ID) = i).
Proof.
  induction l as [|r l (Hn & Ho & Hi & Ha)] using rev_ind.
  { split_and!; [constructor|..]; cbn.
    - intros i. rewrite lookup_empty. split; [intros H; by apply elem_of_nil in H|by intros [? ?]].
    - intros i. rewrite lookup_empty. split; [by intros [? ?]|]. intros (r & Hr & _). by apply elem_of_nil in Hr.
    - intros i r. by rewrite lookup_empty. }
  rewrite foldAll_snoc. unfold foldRec. setoid_rewrite elem_of_app. setoid_rewrite list_elem_of_singleton.
  destruct (String.eqb_spec r.(Op) "delete") as [Hd|Hd]; [|destruct (String.eqb_spec r.(Op) "assert") as [Hs|Hs]]; cbn [order asserts].
  - split_and!; [done|done|intros i; rewrite Hi; naive_solver congruence|intros i r' Hr; apply Ha in Hr; naive_solver].
  - split_and!.
    + destruct (_ !! r.(ID)) eqn:Hx; [done|]. apply NoDup_app. split_and!; [done| |apply NoDup_singleton].
      intros i Hio Hir. apply list_elem_of_singleton in Hir as ->. apply Ho in Hio. rewrite Hx in Hio. by destruct Hio.
    + intros i. destruct (decide (i = r.(ID))) as [->|Hne].
      * rewrite lookup_insert_eq. split; [by eexists|]. intros _. destruct (_ !! r.(ID)) eqn:Hx; [by apply Ho; rewrite Hx|].
        apply elem_of_app. right. by left.
      * rewrite lookup_insert_ne, <- Ho by done. destruct (_ !! r.(ID)); [done|]. rewrite elem_of_app, list_elem_of_singleton. naive_solver.
    + intros i. destruct (decide (i = r.(ID))) as [->|Hne].
      * rewrite lookup_insert_eq. split; [|by eexists]. intros _. exists r. naive_solver.
      * rewrite lookup_insert_ne, Hi by done. naive_solver.
    + intros i r'. rewrite lookup_insert_Some. intros [[<- <-]|[Hne Hr]]; [naive_solver|]. apply Ha in Hr. naive_solver.
  - split_and!; [done|done|intros i; rewrite Hi; naive_solver congruence|intros i r' Hr; apply Ha in Hr; naive_solver].
Qed.

Lemma live_elem l r : r ∈ live (foldAll l) ↔ (foldAll l).(asserts) !! r.(ID) = Some r ∧ r.(ID) ∉ (foldAll l).(deleted).
Proof.
  destruct (foldAll_asserts l) as (_ & Ho & _ & Ha). unfold live. rewrite list_elem_of_omap. split.
  - intros (i & Hi & Hr). case_bool_decide; [done|]. pose proof (Ha _ _ Hr) as (_ & _ & <-). done.
  - intros [Hr Hd]. exists r.(ID). split; [apply Ho; by eexists|]. by rewrite bool_decide_false.
Qed.

Lemma live_ids l : NoDup (ID <$> live (foldAll l)).
Proof.
  destruct (foldAll_asserts l) as (Hn & _ & _ & Ha). unfold live.
  induction Hn as [|i o Hi Hn IH]; [constructor|]. cbn. case_match eqn:E; [|done]. cbn. constructor; [|done].
  case_bool_decide; [done|]. apply Ha in E as (_ & _ & ->). intros (r' & Hr & Hin)%list_elem_of_fmap.
  apply list_elem_of_omap in Hin as (j & Hj & E'). case_bool_decide; [done|]. apply Ha in E' as (_ & _ & <-). by rewrite Hr in Hi.
Qed.

(** ** What a log says *)

Definition asserted (l : list Record_) (c : Content) : Prop := ∃ r, r ∈ l ∧ r.(Op) = "assert" ∧ content r = c.
Definition tombstoned (l : list Record_) (i : string) : Prop := ∃ r, r ∈ l ∧ r.(Op) = "delete" ∧ r.(ID) = i.
(** Two logs that assert the same facts and delete the same ids. *)
Definition says (l1 l2 : list Record_) : Prop :=
  (∀ c, asserted l1 c ↔ asserted l2 c) ∧ (∀ i, i ≠ "" → tombstoned l1 i ↔ tombstoned l2 i).
#[export] Instance says_equiv : Equivalence says.
Proof. unfold says. split; [done|by intros l1 l2 [Ha Hd]; split; intros; symmetry; auto|]. intros l1 l2 l3 [A1 D1] [A2 D2]. split; intros; [by rewrite A1|by rewrite D1, D2]. Qed.
Lemma asserted_app l1 l2 c : asserted (l1 ++ l2) c ↔ asserted l1 c ∨ asserted l2 c.
Proof. unfold asserted. setoid_rewrite elem_of_app. naive_solver. Qed.
Lemma tombstoned_app l1 l2 i : tombstoned (l1 ++ l2) i ↔ tombstoned l1 i ∨ tombstoned l2 i.
Proof. unfold tombstoned. setoid_rewrite elem_of_app. naive_solver. Qed.
#[export] Instance says_app : Proper (says ==> says ==> says) app.
Proof.
  intros l1 l2 [A1 D1] l3 l4 [A2 D2]. split.
  - intros c. by rewrite !asserted_app, A1, A2.
  - intros i Hi. by rewrite !tombstoned_app, D1, D2.
Qed.
(** An id names one fact. *)
Definition coherent (l : list Record_) : Prop :=
  (∀ c, asserted l c → c.(cID) ≠ "") ∧ ∀ c1 c2, asserted l c1 → asserted l c2 → c1.(cID) = c2.(cID) → c1 = c2.
#[export] Instance coherent_says : Proper (says ==> iff) coherent.
Proof.
  assert (∀ l1 l2, says l1 l2 → coherent l1 → coherent l2) as H.
  { intros l1 l2 [A _] [C1 C2]. split; setoid_rewrite <- A; auto. }
  intros l1 l2 Hs. split; [by apply H|]. apply H. by symmetry.
Qed.

Lemma live_content l c : coherent l →
  c ∈ content <$> live (foldAll l) ↔ asserted l c ∧ ¬ tombstoned l c.(cID).
Proof.
  intros [_ Hc]. destruct (foldAll_asserts l) as (_ & _ & Hi & Ha). rewrite list_elem_of_fmap. split.
  - intros (r & -> & [Hr Hd]%live_elem). apply Ha in Hr as (Hin & Ho & _). split; [by exists r|].
    intros Ht. by apply Hd, foldAll_deleted.
  - intros [(r & Hr & Ho & <-) Hd]. assert (is_Some ((foldAll l).(asserts) !! r.(ID))) as [r' Hr'] by (apply Hi; by exists r).
    pose proof (Ha _ _ Hr') as (Hin & Ho' & Hid). exists r'. split.
    + apply Hc; [by exists r|by exists r'|by symmetry].
    + apply live_elem. rewrite Hid. split; [done|]. intros Ht%foldAll_deleted. done.
Qed.

Lemma live_says l1 l2 : coherent l1 → says l1 l2 → content <$> live (foldAll l1) ≡ₚ content <$> live (foldAll l2).
Proof.
  intros Hc Hs. assert (Hc2 : coherent l2) by by rewrite <- Hs.
  assert (Hn : ∀ l, NoDup (content <$> live (foldAll l))).
  { intros l. apply (NoDup_fmap_1 cID). rewrite <- list_fmap_compose. apply live_ids. }
  apply NoDup_Permutation; [done..|]. intros c. rewrite !live_content by done. destruct Hs as [Ha Hd]. rewrite Ha.
  split; intros [H1 H2]; (split; [done|]); intros Ht; apply H2, Hd; try done; by apply Hc2.
Qed.

Lemma Merge_live logs : Merge logs ≡ₚ live (foldAll (concat logs)).
Proof.
  unfold Merge. rewrite sortRows_perm. destruct (foldAll_asserts (concat logs)) as (_ & _ & _ & Ha).
  assert (Hid : ∀ m : gmap string Record_, (∀ i r, m !! i = Some r → r.(ID) = i) → ID <$> (map_to_list m).*2 = (map_to_list m).*1).
  { intros m Hm. rewrite <- list_fmap_compose. apply list_fmap_ext. intros k [i r] Hk. cbn. apply Hm, elem_of_map_to_list.
    by eapply list_elem_of_lookup_2. }
  apply NoDup_Permutation.
  - apply (NoDup_fmap_1 ID). rewrite Hid; [apply NoDup_fst_map_to_list|]. intros i r [Hr _]%map_lookup_filter_Some. by apply Ha in Hr as (_ & _ & ?).
  - apply (NoDup_fmap_1 ID), live_ids.
  - intros r. rewrite live_elem, list_elem_of_fmap. split.
    + intros ([i r'] & -> & [Hr Hd]%elem_of_map_to_list%map_lookup_filter_Some). cbn in *.
      pose proof (Ha _ _ Hr) as (_ & _ & ->). done.
    + intros [Hr Hd]. exists (r.(ID), r). split; [done|]. apply elem_of_map_to_list, map_lookup_filter_Some. done.
Qed.
(** ** Replicas *)

Section Replicas.
Context `{SHA256}.

Definition succeeds (e : Env) : Prop := e.(writeErr) = None.
Definition valid (o : string) : Prop := o = "assert" ∨ o = "delete".

Lemma kg_append_ok env o c s : succeeds env →
  ∃ d, appendRecord env o c s = (Some (link env o c s), mkStore s.(onDisk) d (s.(recs) ++ [link env o c s]) (link env o c s).(Seq) (link env o c s).(Hash)).
Proof. intros He. unfold appendRecord. rewrite He. destruct s.(onDisk); by eexists. Qed.

Lemma keys_elem o i l : valid o → (∀ r, r ∈ l → valid r.(Op)) → key o i ∈ keys l ↔ ∃ r, r ∈ l ∧ r.(Op) = o ∧ r.(ID) = i.
Proof.
  intros Ho Hl. unfold keys. rewrite elem_of_list_to_set, list_elem_of_fmap. split.
  - intros (r & Hk & Hr). exists r. split; [done|]. specialize (Hl r Hr).
    destruct Ho as [-> | ->], Hl as [Hv|Hv]; rewrite Hv in *; unfold key in Hk; cbn in Hk; by simplify_eq.
  - intros (r & Hr & <- & <-). by exists r.
Qed.

Lemma says_skip l1 r l2 : (r ∈ l1 ∨ r.(Op) ≠ "assert" ∧ (r.(Op) = "delete" → r.(ID) = "" ∨ tombstoned l1 r.(ID))) → says (l1 ++ r :: l2) (l1 ++ l2).
Proof.
  change (r :: l2) with ([r] ++ l2). rewrite app_assoc. intros Hr. f_equiv. split.
  - intros c. rewrite asserted_app. split; [|by left]. intros [Hc|(r' & Hin & Ho & Hc)]; [done|].
    apply list_elem_of_singleton in Hin as ->. destruct Hr as [Hr|[Hr _]]; [by exists r|done].
  - intros i Hi. rewrite tombstoned_app. split; [|by left]. intros [Hc|(r' & Hin & Ho & <-)]; [done|].
    apply list_elem_of_singleton in Hin as ->. destruct Hr as [Hr|[_ Hr]]; [by exists r|]. by destruct (Hr Ho).
Qed.

Lemma says_link env o c s r : r.(Op) = o → content r = c → says [link env o c s] [r].
Proof.
  intros <- <-. split.
  - intros c. split; intros (r' & ->%list_elem_of_singleton & Ho & Hc); [exists r|exists (link env r.(Op) (content r) s)];
      (split; [by apply list_elem_of_singleton|]); destruct r; done.
  - intros i _. split; intros (r' & ->%list_elem_of_singleton & Ho & Hc); [exists r|exists (link env r.(Op) (content r) s)];
      (split; [by apply list_elem_of_singleton|]); destruct r; done.
Qed.

Lemma applyLoop_says envs l have n s :
  (∀ k, succeeds (envs k)) → coherent (s.(recs) ++ l) → (∀ x, x ∈ s.(recs) → valid x.(Op)) → have = keys s.(recs) →
  let '(_, ok, s') := applyLoop envs l have n s in
  ok = true ∧ says s'.(recs) (s.(recs) ++ l) ∧ ∀ r, r ∈ s'.(recs) → valid r.(Op).
Proof.
  intros Hok. revert have n s. induction l as [|r l IH]; intros have n s Hc Hv ->; cbn [applyLoop].
  { by rewrite app_nil_r. }
  destruct ((r.(ID) =? "")%string || _) eqn:Hbad.
  { assert (Hs : says (s.(recs) ++ r :: l) (s.(recs) ++ l)).
    { apply says_skip. right. apply orb_true_iff in Hbad as [He%String.eqb_eq|Hb].
      - split; [|by left]. intros Ho. destruct Hc as [Hc _]. apply (Hc (content r)); [|done].
        exists r. split; [apply elem_of_app; right; by left|done].
      - apply andb_true_iff in Hb as [H1 H2]. apply negb_true_iff in H1, H2. apply String.eqb_neq in H1, H2. done. }
    specialize (IH (keys s.(recs)) n s). rewrite Hs in Hc. specialize (IH Hc Hv eq_refl).
    destruct (applyLoop _ _ _ _ s) as [[? ?] s']. by rewrite Hs. }
  apply orb_false_iff in Hbad as [Hid Hb]. apply String.eqb_neq in Hid.
  assert (Ho : valid r.(Op)).
  { apply andb_false_iff in Hb as [Hb|Hb]; apply negb_false_iff, String.eqb_eq in Hb; rewrite Hb; [by left|by right]. }
  case_bool_decide as Hk.
  { apply keys_elem in Hk as (r0 & Hr0 & Ho0 & Hi0); [|done..].
    assert (Hs : says (s.(recs) ++ r :: l) (s.(recs) ++ l)).
    { destruct Ho as [Ha|Hd].
      - split; [|intros i Hi; rewrite !tombstoned_app; split; (intros [|(r' & Hr' & Hd & He)]; [by left|right]); [|exists r'; split; [by right|done]];
          apply elem_of_cons in Hr' as [->|Hr']; [congruence|by exists r'] ].
        intros c. rewrite !asserted_app. split; (intros [|(r' & Hr' & Ho' & He)]; [by left|]); [|right; exists r'; split; [by right|done] ].
        apply elem_of_cons in Hr' as [->|Hr']; [|right; by exists r']. left. subst c.
        exists r0. split_and!; [done|congruence|]. apply Hc; [| |by cbn]; [exists r0|exists r]; (split_and!; [|congruence|done]);
          apply elem_of_app; [by left|right; by left].
      - apply says_skip. right. split; [congruence|]. intros _. right. exists r0. split_and!; congruence. }
    specialize (IH (keys s.(recs)) n s). rewrite Hs in Hc. specialize (IH Hc Hv eq_refl).
    destruct (applyLoop _ _ _ _ s) as [[? ?] s']. by rewrite Hs. }
  destruct (kg_append_ok (envs n) r.(Op) (content r) s (Hok n)) as [d ->].
  assert (Hs : says ((s.(recs) ++ [link (envs n) r.(Op) (content r) s]) ++ l) (s.(recs) ++ r :: l)).
  { rewrite <- app_assoc. change (r :: l) with ([r] ++ l). f_equiv. f_equiv. by apply says_link. }
  specialize (IH ({[key r.(Op) r.(ID)]} ∪ keys s.(recs)) (S n)
    (mkStore s.(onDisk) d (s.(recs) ++ [link (envs n) r.(Op) (content r) s]) (link (envs n) r.(Op) (content r) s).(Seq) (link (envs n) r.(Op) (content r) s).(Hash))).
  cbn [recs] in IH. rewrite Hs in IH. destruct (applyLoop _ _ _ _ _) as [[? ?] s']. rewrite <- Hs. apply IH.
  - done.
  - intros r' [Hr'|Hr'%list_elem_of_singleton]%elem_of_app; [by apply Hv|by subst r'].
  - unfold keys. rewrite fmap_app, list_to_set_app_L. cbn. set_solver.
Qed.
Lemma ApplyDelta_says envs l s :
  (∀ k, succeeds (envs k)) → coherent (s.(recs) ++ l) → (∀ x, x ∈ s.(recs) → valid x.(Op)) →
  let '(_, ok, s') := ApplyDelta envs l s in ok = true ∧ says s'.(recs) (s.(recs) ++ l) ∧ ∀ r, r ∈ s'.(recs) → valid r.(Op).
Proof. intros. by apply applyLoop_says. Qed.

(** *** The file *)

Definition rec_ok (r : Record_) : Prop := Forall field_ok (recFields r) ∧ strlen (marshalRec r) < Chain.maxLine.
Definition fileOf (l : list Record_) : string := foldr (λ r t, lineOf r +:+ t) "" l.
Definition faithful (s : Store) : Prop := s.(onDisk) = true ∧ s.(disk) = fileOf s.(recs).
Definition opSucceeds (o : op) : Prop :=
  match o with DoAssert env _ _ _ _ _ _ _ _ | DoDelete env _ _ => succeeds env | DoApply envs _ => ∀ k, succeeds (envs k) end.

Lemma fileOf_app l1 l2 : fileOf (l1 ++ l2) = fileOf l1 +:+ fileOf l2.
Proof. induction l1 as [|r l1 IH]; [done|]. change (lineOf r +:+ fileOf (l1 ++ l2) = (lineOf r +:+ fileOf l1) +:+ fileOf l2). by rewrite IH, append_assoc_s. Qed.

Lemma append_faithful env o c s : succeeds env → faithful s → faithful (appendRecord env o c s).2.
Proof.
  intros He [Hd Hf]. unfold appendRecord. rewrite Hd, He. split; [done|]. cbn [disk recs snd].
  rewrite fileOf_app, Hf. cbn [fileOf foldr]. by rewrite Chain.append_nil_r.
Qed.

Lemma applyLoop_faithful envs l have n s : (∀ k, succeeds (envs k)) → faithful s → faithful (applyLoop envs l have n s).2.
Proof.
  intros He. revert have n s. induction l as [|r l IH]; intros have n s Hs; cbn [applyLoop]; [done|].
  case_match; [by apply IH|]. case_bool_decide; [by apply IH|].
  pose proof (append_faithful (envs n) r.(Op) (content r) s (He n) Hs) as Ha.
  destruct (appendRecord _ _ _ s) as [[r'|] s']; cbn [snd] in *; [by apply IH|done].
Qed.

Lemma step_faithful s o : opSucceeds o → faithful s → faithful (step s o).
Proof.
  destruct o; cbn [opSucceeds step]; intros He Hs.
  - unfold AssertProv. case_match; [done|].
    pose proof (append_faithful env "assert" (mkContent id sub pred obj peer corpus source validFrom) s He Hs).
    by destruct (appendRecord _ _ _ s) as [[r|] s'].
  - unfold Delete. pose proof (append_faithful env "delete" (mkContent id "" "" "" peer "" "" "") s He Hs).
    by destruct (appendRecord _ _ _ s) as [[r|] s'].
  - by apply applyLoop_faithful.
Qed.

Lemma rec_roundtrip r : rec_ok r → unmarshalRec (marshalRec r) = Some r.
Proof.
  intros [Hr _]. unfold unmarshalRec, marshalRec. change (recFields zeroRec) with (zeroes (recFields r)).
  rewrite struct_roundtrip; [by destruct r| |done|done]. apply (bool_decide_unpack _). by vm_compute.
Qed.

Lemma openLoop_file l s : Forall rec_ok l →
  openLoop (Chain.lines (fileOf l)) s =
  Some (mkStore s.(onDisk) s.(disk) (s.(recs) ++ l) (from_option Seq s.(seq) (list.last l)) (headHash s.(prev) l)).
Proof.
  intros Hl. revert s. induction Hl as [|r l Hr Hl IH]; intros s.
  { cbn. rewrite app_nil_r. by destruct s. }
  assert (Hn : Chain.noNL (marshalRec r)).
  { apply Chain.on_line_noNL. unfold marshalRec. rewrite codes_marshal. apply structCodes_line, Hr. }
  change (fileOf (r :: l)) with (lineOf r +:+ fileOf l). unfold lineOf.
  rewrite append_assoc_s, Chain.lines_newline by done. cbn [openLoop].
  destruct (Z.leb_spec Chain.maxLine (strlen (marshalRec r))); [destruct Hr; lia|].
  unfold marshalRec at 1. rewrite EvLog.dropCR_struct. fold (marshalRec r).
  assert ((marshalRec r =? "")%string = false) as ->.
  { destruct (EvLog.marshalStruct_cons (recFields r)) as (c & t & Hc). unfold marshalRec. by rewrite Hc. }
  unfold marshalRec at 1. rewrite EvLog.dropCR_struct. fold (marshalRec r). rewrite rec_roundtrip by done.
  rewrite IH. cbn [onDisk disk recs seq prev]. rewrite <- app_assoc. f_equal. f_equal.
  - by destruct l as [|y l _] using rev_ind; [|rewrite app_comm_cons, !last_snoc].
  - unfold headHash. by destruct l as [|y l _] using rev_ind; [|rewrite app_comm_cons, !last_snoc].
Qed.

(** *** As of a sequence number *)

Lemma upTo_all l n : (∀ r, r ∈ l → r.(Seq) ≤ n) → upTo n l = l.
Proof.
  induction l as [|r l IH]; intros Hl; [done|]. cbn [upTo]. destruct (Z.ltb_spec n r.(Seq)).
  - specialize (Hl r (list_elem_of_here _ _)). lia.
  - f_equal. apply IH. intros r' Hr'. apply Hl. by apply elem_of_cons; right.
Qed.
Lemma upTo_prefix l1 l2 n : (∀ r, r ∈ l1 → r.(Seq) ≤ n) → (∀ r, r ∈ l2 → n < r.(Seq)) → upTo n (l1 ++ l2) = l1.
Proof.
  induction l1 as [|r l1 IH]; intros H1 H2; cbn [app upTo].
  - destruct l2 as [|r l2]; [done|]. cbn [upTo]. destruct (Z.ltb_spec n r.(Seq)); [done|].
    specialize (H2 r (list_elem_of_here _ _)). lia.
  - destruct (Z.ltb_spec n r.(Seq)).
    + specialize (H1 r (list_elem_of_here _ _)). lia.
    + f_equal. apply IH; [|done]. intros r' Hr'. apply H1. by apply elem_of_cons; right.
Qed.
Lemma sealed_seq s k r : sealed s → s.(recs) !! k = Some r → r.(Seq) = Z.of_nat (S k).
Proof. intros (Hv & _ & _) Hk. by apply (verifyFrom_seqs _ _ _ _ _ Hv) in Hk. Qed.
Lemma Active_now s : sealed s → Active 0 s = live (foldAll s.(recs)).
Proof.
  intros Hs. pose proof Hs as (_ & Hseq & _). unfold Active. cbn [Z.leb Z.compare]. rewrite upTo_all; [done|].
  intros r [k Hk]%list_elem_of_lookup. rewrite (sealed_seq _ _ _ Hs Hk), Hseq. apply lookup_lt_Some in Hk. lia.
Qed.

Lemma run_grows ops s : ∃ l, (run ops s).(recs) = s.(recs) ++ l.
Proof.
  unfold run. induction ops as [|o ops [l IH]] using rev_ind; [exists []; by rewrite app_nil_r|].
  rewrite foldl_app. cbn [foldl]. destruct (step_grows (foldl step s ops) o) as [l' ->]. rewrite IH, <- app_assoc. by eexists.
Qed.

(** The chain stays verifiable. After any assertions, deletions and applied deltas on a
    fresh store, with writes that fail at any point, the log in memory verifies and the counters
    are those of its end. *)
Theorem store_always_verifies path ops :
  room (run ops (fresh path)) →
  let s := run ops (fresh path) in
  Verify s = None ∧ Head s = Z.of_nat (length s.(recs)) ∧ ∀ k r, s.(recs) !! k = Some r → r.(Seq) = Z.of_nat (S k).
Proof.
  intros Hr s. pose proof (run_sealed ops (fresh path) (fresh_sealed path) Hr) as Hs. fold s in Hs.
  split; [apply Hs|]. split; [apply Hs|]. intros k r. by apply sealed_seq.
Qed.

(** A reopened store is the same store: when no write failed, opening the file gives the
    same records, head and counters. *)
Theorem reopened_store_is_the_same ops :
  let s := run ops (fresh true) in
  Forall opSucceeds ops → room s → Forall rec_ok s.(recs) → Open s.(disk) = Some s.
Proof.
  intros s Hops Hr Hok. assert (faithful s) as [Hd Hf].
  { subst s. clear Hr Hok. unfold run. induction ops as [|o ops IH] using rev_ind; [done|].
    apply Forall_app in Hops as [Hops Ho]. rewrite foldl_app. apply step_faithful; [by apply Forall_inv in Ho|by apply IH]. }
  pose proof (run_sealed ops (fresh true) (fresh_sealed true) Hr) as (Hv & Hseq & Hp). fold s in Hv, Hseq, Hp.
  unfold Open. rewrite Hf at 1. rewrite openLoop_file by done. cbn [onDisk disk recs seq prev app].
  destruct s as [od dk l sq pv] eqn:Es. cbn [onDisk disk recs seq prev] in *. subst od sq pv. f_equal. f_equal.
  destruct l as [|r l _] using rev_ind; [done|]. rewrite last_snoc. cbn.
  apply (verifyFrom_seqs _ _ _ (length l) r) in Hv; cbn [recs] in *; [rewrite Hv, length_app; cbn; f_equal; lia|].
  rewrite lookup_app_r by lia. by rewrite Nat.sub_diag.
Qed.

(** History can be replayed: what was active at some head is what a later query as of that
    head sees, whatever was asserted, deleted, merged or failed in between. *)
Theorem history_is_replayable path ops later :
  let s := run ops (fresh path) in let s' := run later s in
  room s' → s.(recs) ≠ [] → Active (Head s) s' = Active 0 s.
Proof.
  intros s s' Hr Hne. assert (sealed s') as Hs'.
  { subst s' s. unfold run in *. rewrite <- foldl_app in *. by apply (run_sealed (ops ++ later)); [apply fresh_sealed|]. }
  destruct (run_grows later s) as [l Hl]. fold s' in Hl.
  assert (sealed s) as Hs. { apply run_sealed; [apply fresh_sealed|]. unfold room in *. rewrite Hl, length_app in Hr. fold s. lia. }
  rewrite (Active_now s Hs). unfold Active, Head. pose proof Hs as (_ & Hseq & _).
  assert (0 < length s.(recs))%nat by (destruct s.(recs); [done|cbn; lia]).
  destruct (Z.leb_spec s.(seq) 0); [lia|]. f_equal. f_equal. rewrite Hl, Hseq. apply upTo_prefix.
  - intros r [k Hk]%list_elem_of_lookup. rewrite (sealed_seq _ _ _ Hs Hk). apply lookup_lt_Some in Hk. lia.
  - intros r [k Hk]%list_elem_of_lookup.
    assert (s'.(recs) !! (length s.(recs) + k)%nat = Some r) as Hk' by (rewrite Hl, lookup_app_r by lia; by replace (length s.(recs) + k - length s.(recs))%nat with k by lia).
    rewrite (sealed_seq _ _ _ Hs' Hk'). lia.
Qed.

(** A replica and the deltas it applied, in order. *)
Definition pulls (ds : list ((nat → Env) * list Record_)) : list op := (λ d, DoApply d.1 d.2) <$> ds.
Definition pulled (ds : list ((nat → Env) * list Record_)) : list Record_ := concat (snd <$> ds).

Lemma coherent_prefix l1 l2 : coherent (l1 ++ l2) → coherent l1.
Proof.
  intros [C1 C2]. split; [intros c Hc; apply C1; apply asserted_app; by left|].
  intros c1 c2 H1 H2. apply C2; apply asserted_app; by left.
Qed.

Lemma pulls_say ds s :
  Forall (λ d, ∀ k, succeeds (d.1 k)) ds → coherent (s.(recs) ++ pulled ds) → (∀ r, r ∈ s.(recs) → valid r.(Op)) →
  says (run (pulls ds) s).(recs) (s.(recs) ++ pulled ds) ∧ ∀ r, r ∈ (run (pulls ds) s).(recs) → valid r.(Op).
Proof.
  intros Hok. revert s. induction Hok as [|[envs l] ds He Hok IH]; intros s Hc Hv.
  { cbn. by rewrite app_nil_r. }
  change (pulled ((envs, l) :: ds)) with (l ++ pulled ds) in *. rewrite app_assoc in *.
  pose proof (ApplyDelta_says envs l s He (coherent_prefix _ _ Hc) Hv) as Ha.
  change (run (pulls ((envs, l) :: ds)) s) with (run (pulls ds) (ApplyDelta envs l s).2).
  destruct (ApplyDelta envs l s) as [[n ok] s']. destruct Ha as (_ & Hs & Hv'). cbn [snd].
  destruct (IH s') as [Hi Hvi]; [by rewrite Hs|done|]. split; [|done]. by rewrite Hi, Hs.
Qed.

Lemma run_valid ops s : Forall (λ o, match o with DoApply _ _ => False | _ => True end) ops →
  (∀ r, r ∈ s.(recs) → valid r.(Op)) → ∀ r, r ∈ (run ops s).(recs) → valid r.(Op).
Proof.
  intros Hops Hs. unfold run. induction ops as [|o ops IH] using rev_ind; [done|]. apply Forall_app in Hops as [Hops Ho].
  apply Forall_inv in Ho. rewrite foldl_app. cbn [foldl]. specialize (IH Hops).
  assert (∀ env o c s, valid o → (∀ r, r ∈ s.(recs) → valid r.(Op)) → ∀ r, r ∈ (appendRecord env o c s).2.(recs) → valid r.(Op)) as Ha.
  { intros env o' c s' Ho' Hs' r. unfold appendRecord. repeat case_match; cbn [snd recs]; try apply Hs'; rewrite elem_of_app, list_elem_of_singleton;
      (intros [Hr|Hr]; [by apply Hs'|by subst r]). }
  destruct o; cbn [step]; [| |done].
  - unfold AssertProv. case_match; [done|].
    specialize (Ha env "assert" (mkContent id sub pred obj peer corpus source validFrom) _ (or_introl eq_refl) IH).
    by destruct (appendRecord _ _ _ _) as [[r|] s'].
  - unfold Delete. specialize (Ha env "delete" (mkContent id "" "" "" peer "" "" "") _ (or_intror eq_refl) IH).
    by destruct (appendRecord _ _ _ _) as [[r|] s'].
Qed.


Lemma says_comm l1 l2 : says (l1 ++ l2) (l2 ++ l1).
Proof. split; intros; rewrite ?asserted_app, ?tombstoned_app; naive_solver. Qed.
Definition facts (l : list Record_) : list Content := content <$> List.filter (λ r, (r.(Op) =? "assert")%string) l.
Lemma coherent_facts l : Forall (λ c, c.(cID) ≠ "") (facts l) → NoDup (cID <$> facts l) → coherent l.
Proof.
  assert (∀ c, asserted l c → c ∈ facts l) as Hf.
  { intros c (r & Hr & Ho & <-). apply list_elem_of_fmap_2, list_elem_of_In, filter_In. rewrite Ho. by apply list_elem_of_In in Hr. }
  intros Hid Hn. rewrite Forall_forall in Hid. split; [auto|]. intros c1 c2 [i H1]%Hf%list_elem_of_lookup [j H2]%Hf%list_elem_of_lookup Heq.
  assert (i = j) as ->; [|congruence]. eapply NoDup_lookup; [exact Hn|..]; rewrite list_lookup_fmap.
  - by rewrite H1.
  - by rewrite H2; cbn; rewrite Heq.
Qed.

(** The log carries no mark of its end: cut after any record, it still verifies. *)
Lemma cut_log_verifies s k : Verify s = None → Verify (mkStore s.(onDisk) s.(disk) (take k s.(recs)) s.(seq) s.(prev)) = None.
Proof.
  unfold Verify. cbn [recs]. generalize 0%nat "" k. induction s.(recs) as [|r l IH]; intros i p k' Hv; [by rewrite take_nil|].
  destruct k' as [|k']; [done|]. cbn [take]. apply verifyFrom_cons in Hv as [Hl Hv]. apply verifyFrom_cons. auto.
Qed.

(** *** Deltas again *)

Lemma applyLoop_known envs l have n s :
  (∀ r, r ∈ l → r.(ID) = "" ∨ ¬ valid r.(Op) ∨ key r.(Op) r.(ID) ∈ have) → applyLoop envs l have n s = (n, true, s).
Proof.
  induction l as [|r l IH]; intros Hl; [done|]. cbn [applyLoop]. rewrite IH by (intros r' Hr'; apply Hl; by apply elem_of_cons; right).
  destruct (Hl r (list_elem_of_here _ _)) as [->|[Hv|Hk]].
  - done.
  - destruct (String.eqb_spec r.(Op) "assert") as [He|]; [by destruct Hv; left|].
    destruct (String.eqb_spec r.(Op) "delete") as [He|]; [by destruct Hv; right|]. cbn [negb andb]. by rewrite orb_true_r.
  - case_match; [done|]. by rewrite bool_decide_true.
Qed.

Lemma append_cases env o c s :
  (∃ s', appendRecord env o c s = (None, s') ∧ s'.(recs) = s.(recs)) ∨
  (∃ s', appendRecord env o c s = (Some (link env o c s), s') ∧ s'.(recs) = s.(recs) ++ [link env o c s]).
Proof. unfold appendRecord. destruct s.(onDisk); [destruct env.(writeErr)|]; [left|right|right]; by eexists. Qed.

Lemma applyLoop_covers envs l have n s :
  have ⊆ keys s.(recs) → let '(_, ok, s') := applyLoop envs l have n s in
  keys s.(recs) ⊆ keys s'.(recs) ∧ (ok = true → ∀ r, r ∈ l → r.(ID) = "" ∨ ¬ valid r.(Op) ∨ key r.(Op) r.(ID) ∈ keys s'.(recs)).
Proof.
  revert have n s. induction l as [|r l IH]; intros have n s Hh; cbn [applyLoop].
  { split; [done|]. intros _ r Hr. by apply elem_of_nil in Hr. }
  destruct ((r.(ID) =? "")%string || _) eqn:Hbad; [|case_bool_decide as Hk].
  - specialize (IH have n s Hh). destruct (applyLoop _ _ _ _ s) as [[? ok] s']. destruct IH as [Hm IH]. split; [done|].
    intros Ho x [->|Hx]%elem_of_cons; [|by apply IH]. apply orb_true_iff in Hbad as [He%String.eqb_eq|Hb]; [by left|right; left].
    apply andb_true_iff in Hb as [H1 H2]. apply negb_true_iff in H1, H2. apply String.eqb_neq in H1, H2. by intros [?|?].
  - specialize (IH have n s Hh). destruct (applyLoop _ _ _ _ s) as [[? ok] s']. destruct IH as [Hm IH]. split; [done|].
    intros Ho x [->|Hx]%elem_of_cons; [right; right; set_solver|by apply IH].
  - destruct (append_cases (envs n) r.(Op) (content r) s) as [(s1 & -> & Hr)|(s1 & -> & Hr)]; [by rewrite Hr|].
    assert (Hk1 : keys s1.(recs) = {[key r.(Op) r.(ID)]} ∪ keys s.(recs)).
    { rewrite Hr. unfold keys. rewrite fmap_app, list_to_set_app_L. cbn. set_solver. }
    specialize (IH ({[key r.(Op) r.(ID)]} ∪ have) (S n) s1 ltac:(set_solver)).
    destruct (applyLoop _ _ _ _ s1) as [[? ok] s']. destruct IH as [Hm IH]. split; [set_solver|].
    intros Ho x [->|Hx]%elem_of_cons; [right; right; set_solver|by apply IH].
Qed.

(** A delta is applied once: when it went through, applying it again appends nothing,
    whatever it holds. *)
Theorem delta_applies_once envs envs' l s n s' :
  ApplyDelta envs l s = (n, true, s') → ApplyDelta envs' l s' = (0%nat, true, s').
Proof.
  unfold ApplyDelta. intros Ha. pose proof (applyLoop_covers envs l (keys s.(recs)) 0 s (reflexivity _)) as Hc.
  rewrite Ha in Hc. apply applyLoop_known. by apply Hc.
Qed.
End Replicas.
End KgStore.

Module KgRuns.
Import KgStore.

Definition at_ (t : string) : Env := mkEnv t None.
Definition failing (t : string) (n : nat) : Env := mkEnv t (Some n).
Section Runs.
Context `{SHA256}.
(** Two replicas: each asserts a fact, and the second also asserts and deletes one. *)
Definition editsA : list op := [DoAssert (at_ "1") "t_1" "alice" "knows" "bob" "wg:a" "team" "" ""].
Definition editsB : list op :=
  [DoAssert (at_ "2") "t_2" "carol" "knows" "dave" "wg:b" "team" "" "";
   DoAssert (at_ "3") "t_3" "erin" "role" "eng" "wg:b" "team" "" ""; DoDelete (at_ "4") "t_3" "wg:b"].
Definition a : Store := run editsA (fresh true).
Definition b : Store := run editsB (fresh true).
Definition da : list ((nat → Env) * list Record_) := [(λ _, at_ "5", DeltaSince 0 b)].
Definition db : list ((nat → Env) * list Record_) := [(λ _, at_ "6", DeltaSince 0 a)].
End Runs.
#[local] Existing Instance toySHA256.
Definition idsOf (l : list Record_) : list string := ID <$> l.
Example run_ab : idsOf (Active 0 (run (pulls da) a)) = ["t_1"; "t_2"] ∧ idsOf (Active 0 (run (pulls db) b)) = ["t_2"; "t_1"] ∧
  idsOf (Active 2 b) = ["t_2"; "t_3"] ∧ idsOf (Query "carol" "" "" 0 b) = ["t_2"] ∧ idsOf (Neighbors "bob" 0 a) = ["t_1"].
Proof. vm_compute. by split_and!. Qed.

Definition torn : Store :=
  run [DoAssert (at_ "1") "t_1" "a" "p" "o" "wg" "" "" ""; DoAssert (failing "2" 7) "t_2" "a" "p" "q" "wg" "" "" "";
       DoAssert (at_ "3") "t_3" "a" "p" "r" "wg" "" "" ""] (fresh true).
Definition unclosed : Store :=
  run [DoAssert (at_ "1") "t_1" "a" "p" "o" "wg" "" "" ""; DoAssert (failing "2" 1000) "t_2" "a" "p" "q" "wg" "" "" "";
       DoAssert (at_ "3") "t_3" "a" "p" "r" "wg" "" "" ""] (fresh true).

(** A write that stops in the middle leaves its bytes in the file: the next record joins the
    torn line, and the file cannot be opened again. *)
Theorem torn_append_blocks_reopen : Verify torn = None ∧ idsOf torn.(recs) = ["t_1"; "t_3"] ∧ Open torn.(disk) = None.
Proof. vm_compute. by split_and!. Qed.

(** When only the close fails, the record is in the file but not in memory, and the next one
    takes its number: the file opens and its chain does not verify. *)
Theorem failed_close_breaks_the_file :
  Verify unclosed = None ∧ (idsOf ∘ recs <$> Open unclosed.(disk)) = Some ["t_1"; "t_2"; "t_3"] ∧
  (Open unclosed.(disk) ≫= Verify) = Some (SeqBreak 2).
Proof. vm_compute. by split_and!. Qed.

(** [Merge] depends on the order of the logs: two replicas that have synchronised hold the same
    facts under different numbers and hashes, and the last log wins. *)
Theorem merge_depends_on_order :
  let la := (run (pulls da) a).(recs) in let lb := (run (pulls db) b).(recs) in
  Merge [la; lb] ≠ Merge [lb; la] ∧ content <$> Merge [la; lb] = content <$> Merge [lb; la].
Proof. vm_compute. split; [discriminate|reflexivity]. Qed.
End KgRuns.

Lemma store_always_verifies_witness : @KgStore.Verify toySHA256 KgRuns.torn = None.
Proof. apply (@KgStore.store_always_verifies toySHA256 true). vm_compute. discriminate. Defined.

Lemma reopened_store_is_the_same_witness :
  @KgStore.Open (@KgStore.disk (@KgRuns.b toySHA256)) = Some (@KgRuns.b toySHA256).
Proof.
  apply (@KgStore.reopened_store_is_the_same toySHA256 KgRuns.editsB).
  - repeat constructor.
  - vm_compute. discriminate.
  - repeat constructor; vm_compute; first [reflexivity|discriminate|split; discriminate|intros; discriminate|idtac].
Defined.

Lemma history_is_replayable_witness :
  KgStore.Active (KgStore.Head (@KgRuns.a toySHA256)) (@KgStore.run toySHA256 KgRuns.editsB (@KgRuns.a toySHA256)) = KgStore.Active 0 (@KgRuns.a toySHA256).
Proof. apply (@KgStore.history_is_replayable toySHA256 true KgRuns.editsA KgRuns.editsB); vm_compute; discriminate. Defined.


Lemma delta_applies_once_witness :
  @KgStore.ApplyDelta toySHA256 (λ _, KgRuns.failing "9" 0) (KgStore.recs (@KgRuns.b toySHA256)) (@KgStore.run toySHA256 (KgStore.pulls (@KgRuns.da toySHA256)) (@KgRuns.a toySHA256)) =
  (0%nat, true, @KgStore.run toySHA256 (KgStore.pulls (@KgRuns.da toySHA256)) (@KgRuns.a toySHA256)).
Proof.
  apply (@KgStore.delta_applies_once toySHA256 (λ _, KgRuns.at_ "5") _ (KgStore.recs (@KgRuns.b toySHA256)) (@KgRuns.a toySHA256) 3).
  vm_compute. reflexivity.
Defined.
