(* ===== verification/HttpPolicy.v ===== *)
(** * HttpPolicy: enforcement for Streamable-HTTP backends

    [cmd/meshmcp/httppolicy.go], [httpsession.go] and [httprewrite.go]: the enforcer that
    applies the policy engine, the capabilities and the secrets broker to the body of a POST,
    the labels it keeps per peer and session id, the redactors it keeps per peer, and the
    rewriting of responses. It is the counterpart of [Filter] for HTTP; [http_agrees_with_stdio]
    relates the two. Requests run concurrently in the code; [sysStep] interleaves their steps
    between the locks they take. Message texts of denials and the SPIFFE label of records are
    left out. *)
From stdpp Require Import base list strings gmap.
From Stdlib Require Import ZArith Lia Ascii.
From S2P Require Import Prelude GoStd Json Classify Crypto Policy Engine Capability Delegation Filter Secrets.
Open Scope Z_scope.

Module Http.

(** ** Session state *)

Record labelState := mkLabels { lset : gset string; lastSeen : Instant }.
Record peerRedactor := mkRedactor { vals : list (list Z); lastUse : Instant }.
Record httpSessionStore := mkSessions {
  perPeer : nat; global : nat; idleTTL : Z; redCap : nat; lastSweep : Instant;
  slabels : gmap string (gmap string labelState); redactors : gmap string peerRedactor }.

Definition httpSessionMaxIDLen : Z := 512.
Definition httpSessionsPerPeer : nat := 256.
Definition httpSessionsGlobal : nat := Z.to_nat 65536.
Definition httpSessionIdleTTL : Z := 24 * 3600 * Second.
Definition httpSessionSweepEvery : Z := 60 * Second.
Definition httpRedactorMaxValues : nat := Z.to_nat 1024.
Definition newHTTPSessionStore : httpSessionStore :=
  mkSessions httpSessionsPerPeer httpSessionsGlobal httpSessionIdleTTL httpRedactorMaxValues (-62135596800 * Second) ∅ ∅.

Definition validSessionID (sid : string) : bool :=
  negb (sid =? "")%string && (strlen sid <=? httpSessionMaxIDLen) && forallb (λ c, (33 <=? c) && (c <=? 126)) (codes sid).

Definition setLabels m (s : httpSessionStore) :=
  mkSessions s.(perPeer) s.(global) s.(idleTTL) s.(redCap) s.(lastSweep) m s.(redactors).
Definition setRedactors m (s : httpSessionStore) :=
  mkSessions s.(perPeer) s.(global) s.(idleTTL) s.(redCap) s.(lastSweep) s.(slabels) m.

Definition alive (ttl now t : Z) : bool := negb (ttl <? timeSub now t).
Definition sweepLocked (now : Instant) (s : httpSessionStore) : httpSessionStore :=
  if timeSub now s.(lastSweep) <? httpSessionSweepEvery then s
  else mkSessions s.(perPeer) s.(global) s.(idleTTL) s.(redCap) now
    (omap (λ sess, let sess := filter (λ x : string * labelState, alive s.(idleTTL) now x.2.(lastSeen) = true) sess in
                   if bool_decide (size sess = 0%nat) then None else Some sess) s.(slabels))
    (filter (λ x : string * peerRedactor, alive s.(idleTTL) now x.2.(lastUse) = true) s.(redactors)).

Definition total (m : gmap string (gmap string labelState)) : nat := map_fold (λ _ sess n, (size sess + n)%nat) 0%nat m.
Definition peerFull : string := "session-state capacity for this peer is exhausted".
Definition gatewayFull : string := "gateway session-state capacity is exhausted".
(** [ensure]: the reason of a refusal; the clock is read for the sweep and for the stamp. *)
Definition ensure (pk sid : string) (t1 t2 : Instant) (s : httpSessionStore) : option string * httpSessionStore :=
  let s := sweepLocked t1 s in
  let sess := default ∅ (s.(slabels) !! pk) in
  match sess !! sid with
  | Some st => (None, setLabels (<[pk := <[sid := mkLabels st.(lset) t2]> sess]> s.(slabels)) s)
  | None =>
      if (s.(perPeer) <=? size sess)%nat then (Some peerFull, s)
      else if (s.(global) <=? total s.(slabels))%nat then (Some gatewayFull, s)
      else (None, setLabels (<[pk := <[sid := mkLabels ∅ t2]> sess]> s.(slabels)) s)
  end.
Definition entryOf (pk sid : string) (s : httpSessionStore) : option labelState :=
  match s.(slabels) !! pk with Some sess => sess !! sid | None => None end.
Definition snapshot (pk sid : string) (s : httpSessionStore) : gset string :=
  match entryOf pk sid s with Some st => st.(lset) | None => ∅ end.
Definition addLabels (pk sid : string) (ls : list string) (t : Instant) (s : httpSessionStore) : httpSessionStore :=
  match ls, s.(slabels) !! pk with
  | _ :: _, Some sess =>
      match sess !! sid with
      | Some st => setLabels (<[pk := <[sid := mkLabels (list_to_set ls ∪ st.(lset)) t]> sess]> s.(slabels)) s
      | None => s
      end
  | _, _ => s
  end.
Definition drop (pk sid : string) (s : httpSessionStore) : httpSessionStore :=
  match s.(slabels) !! pk with
  | Some sess =>
      let sess := delete sid sess in
      setLabels (if bool_decide (size sess = 0%nat) then delete pk s.(slabels) else <[pk := sess]> s.(slabels)) s
  | None => s
  end.
Definition redactorFor (pk : string) (t1 t2 : Instant) (s : httpSessionStore) : peerRedactor * httpSessionStore :=
  let s := sweepLocked t1 s in
  let red := mkRedactor (match s.(redactors) !! pk with Some r => r.(vals) | None => [] end) t2 in
  (red, setRedactors (<[pk := red]> s.(redactors)) s).
Definition lookupRedactor (pk : string) (t : Instant) (s : httpSessionStore) : option peerRedactor * httpSessionStore :=
  match s.(redactors) !! pk with
  | Some r => let r := mkRedactor r.(vals) t in (Some r, setRedactors (<[pk := r]> s.(redactors)) s)
  | None => (None, s)
  end.

(** ** The enforcer *)

Inductive reqBody := NoBody | Unreadable | Body (text : string).
Record request := mkRequest { rMethod : string; rSession : string; rBody : reqBody }.
(** What the proxy does: forward (with the body, where it was read), or answer the peer. *)
Inductive refusal := Answered (id : string) (d : Denial) | Blocked (id tool why : string) | Dropped.
Inductive verdict := Proceed (body : option string) | Refused (r : refusal).

(** A tools/call under way: who sent it, its session header, its class, its body without the
    capability token, that token, and whether its session is tracked. *)
Record flight := mkFlight {
  fPeer : string; fKey : string; fSid : string; fClass : RPCClass; fBody : string; fToken : string; fTracked : bool }.
(** The clock as a tools/call reads it. *)
Record times := mkTimes { tSweep : Instant; tStamp : Instant; tDecide : Instant; tAdd : Instant; tSweep2 : Instant; tRed : Instant }.

Definition maxHTTPBody : Z := 16 * 1024 * 1024.
Definition limited (s : string) : string := if strlen s <=? maxHTTPBody then s else String.substring 0 (Z.to_nat maxHTTPBody) s.
Definition noKey : string := "this backend's policy tracks session labels, which need a transport-proven peer identity".
Definition noSession : string := "this backend's policy tracks session labels; tools/call must carry a valid Mcp-Session-Id header".
Definition noRedactor : string := "secret injection needs a transport-proven peer identity".
Definition redactorFull : string := "secret-redaction capacity for this peer is exhausted".

Section Enforcer.
Context `{Float64} {A : Type} `{RequestApprovalStore A} `{Ed25519} `{SHA256} `{Cap.CapCodec}.
Context {N : Type} `{NonceStore N} {L : Type} `{AuditSink L}.
Context (LoadLocation : string → option Location) (ParseDuration : string → option Z) (canonicalArgsHash : string → string).

Record httpEnforcer := mkEnforcer {
  eng : Engine A; audit : L; pending : option (list PendingReq); backend : string;
  capVerifier : option (Cap.CapabilityVerifier N); capRequired : bool;
  secrets : option SecretResolver; grantsUseLabels : bool; sessions : httpSessionStore }.
Definition set_eng g e := mkEnforcer g e.(audit) e.(pending) e.(backend) e.(capVerifier) e.(capRequired) e.(secrets) e.(grantsUseLabels) e.(sessions).
Definition set_audit l e := mkEnforcer e.(eng) l e.(pending) e.(backend) e.(capVerifier) e.(capRequired) e.(secrets) e.(grantsUseLabels) e.(sessions).
Definition set_cap v e := mkEnforcer e.(eng) e.(audit) e.(pending) e.(backend) v e.(capRequired) e.(secrets) e.(grantsUseLabels) e.(sessions).
Definition set_sessions s e := mkEnforcer e.(eng) e.(audit) e.(pending) e.(backend) e.(capVerifier) e.(capRequired) e.(secrets) e.(grantsUseLabels) s.
Definition holdCall p e := mkEnforcer e.(eng) e.(audit) ((λ l, l ++ [p]) <$> e.(pending)) e.(backend) e.(capVerifier) e.(capRequired) e.(secrets) e.(grantsUseLabels) e.(sessions).

Definition sessionsRequired (e : httpEnforcer) : bool := e.(grantsUseLabels) || UsesLabels (Some e.(eng).(pol)).
Definition record (e : httpEnforcer) (peer pk method tool id : string) (dec : Decision) : AuditRecord :=
  mkAudit e.(backend) peer pk method tool id dec.(outcome) dec.(reason) dec.(RuleID) dec.(Cost) "" "" "".
Definition audited (r : AuditRecord) (e : httpEnforcer) : bool * httpEnforcer :=
  let '(ok, l) := auditWrite e.(audit) r in (ok, set_audit l e).
Definition refusalDecision (why : string) : Decision := mkDecision false (-1) OutcomeDeny (Rejected why) [] 0 0.
(** The closure [denyTool]. *)
Definition denyTool (fl : flight) (why : string) (e : httpEnforcer) : verdict * httpEnforcer :=
  let c := fl.(fClass) in
  let '(_, e) := audited (record e fl.(fPeer) fl.(fKey) "tools/call" c.(Tool) c.(RID) (refusalDecision why)) e in
  (Refused (Blocked c.(RID) c.(Tool) why), e).

(** The steps of a tools/call between the locks: admission of its session, the labels it sees,
    the decision with its consumption and record, the labels it contributes, the injection. *)
Definition admitCall (fl : flight) (t1 t2 : Instant) (e : httpEnforcer) : option string * httpEnforcer :=
  if negb fl.(fTracked) then (None, e)
  else if (fl.(fKey) =? "")%string then (Some noKey, e)
  else if negb (validSessionID fl.(fSid)) then (Some noSession, e)
  else let '(why, s) := ensure fl.(fKey) fl.(fSid) t1 t2 e.(sessions) in (why, set_sessions s e).
Definition labelsOf (fl : flight) (e : httpEnforcer) : gset string :=
  if fl.(fTracked) then snapshot fl.(fKey) fl.(fSid) e.(sessions) else ∅.
Definition judge (fl : flight) (labels : gset string) (now : Instant) (e : httpEnforcer) : Decision * httpEnforcer :=
  let c := fl.(fClass) in
  let '(dec, g) := DecideToolCallBound LoadLocation ParseDuration canonicalArgsHash fl.(fPeer) fl.(fKey) e.(backend) c.(Tool) c.(Args) labels now e.(eng) in
  let e := set_eng g e in
  match e.(capVerifier) with
  | None => (dec, e)
  | Some v =>
      let '(dec, pendingCap) := Cap.FoldCapability dec (Some v) e.(capRequired) fl.(fToken) fl.(fKey) e.(backend) c.(Tool) now in
      match pendingCap with
      | None => (dec, e)
      | Some cap =>
          if bool_decide (dec.(outcome) = OutcomeAllow) then
            match Cap.Consume v cap now with
            | (Ok _, v) => (dec, set_cap (Some v) e)
            | (Err why, v) => (mkDecision false dec.(RuleID) OutcomeDeny (CapabilityInvalid why) [] 0 0, set_cap (Some v) e)
            end
          else (dec, e)
      end
  end.
Definition recordCall (fl : flight) (dec : Decision) (e : httpEnforcer) : bool * httpEnforcer :=
  audited (record e fl.(fPeer) fl.(fKey) "tools/call" fl.(fClass).(Tool) fl.(fClass).(RID) dec) e.
Definition publish (fl : flight) (dec : Decision) (t : Instant) (e : httpEnforcer) : httpEnforcer :=
  if fl.(fTracked) then set_sessions (addLabels fl.(fKey) fl.(fSid) dec.(AddLabels) t e.(sessions)) e else e.
(** The injection: the line with its secrets, and the values that responses must not echo, once
    the peer's redactor has room for them ([redactorFor] and [Len]); then [Add]. *)
Definition injectCheck (fl : flight) (t1 t2 : Instant) (e : httpEnforcer) : (verdict + string * list string) * httpEnforcer :=
  let c := fl.(fClass) in
  let refuse why e := let '(v, e) := denyTool fl why e in (inl v, e) in
  match e.(secrets) with
  | None => (inr (fl.(fBody), []), e)
  | Some resolve =>
      match resolve (mkCaller e.(backend) fl.(fPeer) fl.(fKey) "") c.(Tool) fl.(fBody) (labelsOf fl e) with
      | None => (inl (Refused (Answered c.(RID) (DeniedSecret c.(Tool)))), e)
      | Some (out, []) => (inr (out, []), e)
      | Some (out, injected) =>
          if (fl.(fKey) =? "")%string then refuse noRedactor e
          else
            let '(red, s) := redactorFor fl.(fKey) t1 t2 e.(sessions) in
            let e := set_sessions s e in
            if (s.(redCap) <? length red.(vals) + length injected)%nat then refuse redactorFull e
            else (inr (out, injected), e)
      end
  end.
Definition remember (pk : string) (injected : list string) (e : httpEnforcer) : httpEnforcer :=
  match injected, e.(sessions).(redactors) !! pk with
  | _ :: _, Some red => set_sessions (setRedactors (<[pk := mkRedactor (Secrets.Add (codes <$> injected) red.(vals)) red.(lastUse)]> e.(sessions).(redactors)) e.(sessions)) e
  | _, _ => e
  end.
Definition inject (fl : flight) (t1 t2 : Instant) (e : httpEnforcer) : verdict * httpEnforcer :=
  match injectCheck fl t1 t2 e with
  | (inl v, e) => (v, e)
  | (inr (out, injected), e) => (Proceed (Some out), remember fl.(fKey) injected e)
  end.
(** What follows an outcome, up to the labels of an allowed call: [None] goes on to [inject]. *)
Definition settle (fl : flight) (dec : Decision) (written : bool) (t : Instant) (e : httpEnforcer) : option verdict * httpEnforcer :=
  let c := fl.(fClass) in
  match dec.(outcome) with
  | OutcomeAllow =>
      if negb written && FailClosed e.(audit) then (Some (Refused (Answered c.(RID) (DeniedAudit c.(Tool)))), e)
      else (None, publish fl dec t e)
  | OutcomeCosign =>
      (Some (Refused (Answered c.(RID) (DeniedCosign c.(Tool) dec.(reason)))),
       holdCall (mkPending fl.(fPeer) fl.(fKey) e.(backend) c.(Tool) c.(RID) (canonicalArgsHash c.(Args)) e.(eng).(ph)) e)
  | OutcomeDeny => (Some (Refused (Answered c.(RID) (DeniedTool c.(Tool) dec.(reason) dec.(RetryAfter)))), e)
  end.
Definition toolCall (fl : flight) (ts : times) (e : httpEnforcer) : verdict * httpEnforcer :=
  match admitCall fl ts.(tSweep) ts.(tStamp) e with
  | (Some why, e) => denyTool fl why e
  | (None, e) =>
      let '(dec, e) := judge fl (labelsOf fl e) ts.(tDecide) e in
      let '(written, e) := recordCall fl dec e in
      match settle fl dec written ts.(tAdd) e with
      | (Some v, e) => (v, e)
      | (None, e) => inject fl ts.(tSweep2) ts.(tRed) e
      end
  end.

Definition handleMethod (class : RPCClass) (body peer pk : string) (e : httpEnforcer) : verdict * httpEnforcer :=
  let md := DecideMethod e.(eng).(pol) peer pk class.(Method) in
  if md.(RuleID) =? -1 then (Proceed (Some body), e)
  else
    let '(written, e) := audited (record e peer pk class.(Method) "" class.(RID) md) e in
    if md.(Allow) then
      if negb written && FailClosed e.(audit) then (Refused (Answered class.(RID) (DeniedAudit class.(Method))), e)
      else (Proceed (Some body), e)
    else (Refused (Answered class.(RID) (DeniedMethod class.(Method))), e).
Definition handleNotification (class : RPCClass) (body peer pk : string) (e : httpEnforcer) : verdict * httpEnforcer :=
  let md := DecideMethod e.(eng).(pol) peer pk class.(Method) in
  if negb (md.(RuleID) =? -1) && negb md.(Allow) then
    (Refused Dropped, (audited (record e peer pk class.(Method) "" "" md) e).2)
  else (Proceed (Some body), e).

Definition stripToken (class : RPCClass) (body : string) (e : httpEnforcer) : string * string :=
  if negb (isNone e.(capVerifier)) && governed class.(Kind) then stripCapability body else ("", body).
Definition flightOf (peer pk sid : string) (body : string) (e : httpEnforcer) : flight :=
  let class := ClassifyRPC body in
  let '(token, body) := stripToken class body e in mkFlight peer pk sid class body token (sessionsRequired e).
Definition decideBody (peer pk sid body : string) (ts : times) (e : httpEnforcer) : verdict * httpEnforcer :=
  let class := ClassifyRPC body in
  let '(token, body') := stripToken class body e in
  match class.(Kind) with
  | RPCEmpty => (Proceed (Some body'), e)
  | RPCBatch =>
      let '(_, e) := audited (record e peer pk "<batch>" "" "" (refusalDecision "batches unsupported")) e in
      (Refused (Answered "null" DeniedBatch), e)
  | RPCInvalid =>
      let method := if (class.(Method) =? "")%string then "<invalid>" else class.(Method) in
      let '(_, e) := audited (record e peer pk method class.(Tool) class.(RID) (refusalDecision (classReasonText class.(CReason)))) e in
      (Refused (Answered class.(RID) (DeniedInvalid class.(CReason))), e)
  | RPCNotification => handleNotification class body' peer pk e
  | RPCMethod => handleMethod class body' peer pk e
  | RPCToolCall => toolCall (mkFlight peer pk sid class body' token (sessionsRequired e)) ts e
  end.
Definition decide (peer pk : string) (r : request) (ts : times) (e : httpEnforcer) : verdict * httpEnforcer :=
  if (r.(rMethod) =? "DELETE")%string then
    (Proceed None, if validSessionID r.(rSession) then set_sessions (drop pk r.(rSession) e.(sessions)) e else e)
  else if negb (r.(rMethod) =? "POST")%string then (Proceed None, e)
  else match r.(rBody) with
  | NoBody | Unreadable => (Proceed None, e)
  | Body text => decideBody peer pk r.(rSession) (limited text) ts e
  end.

(** ** Interleaved requests

    A tools/call takes its steps one by one, while other calls, other requests, hot swaps of
    the policy and the teardown of sessions happen in between. *)

Inductive stage :=
| Arrived
| Entered
| Saw (labels : gset string)
| Decided (labels : gset string) (dec : Decision) (p : Policy) (written : bool)
| Settled (labels : gset string) (dec : Decision) (p : Policy)
| Checked (labels : gset string) (dec : Decision) (p : Policy) (out : string) (injected : list string).
(** A call that was forwarded: what it saw, the decision and the policy it was taken under. *)
Record sentCall := mkSent { sFlight : flight; sSaw : gset string; sDec : Decision; sPol : Policy; sText : string }.
Record system := mkSystem { enf : httpEnforcer; flights : gmap nat (flight * stage); sent : list sentCall }.

Inductive event :=
| EvArrive (i : nat) (peer pk sid body : string)
| EvEnter (i : nat) (t1 t2 : Instant)
| EvSee (i : nat)
| EvDecide (i : nat) (now : Instant)
| EvSettle (i : nat) (t : Instant)
| EvCheck (i : nat) (t1 t2 : Instant)
| EvInject (i : nat)
| EvDelete (pk sid : string)
| EvOther (peer pk sid body : string) (ts : times)
| EvRespond (pk : string) (t : Instant)
| EvSwap (p : Policy) (hash : string).

Definition arrivals (i : nat) (peer pk sid body : string) (s : system) : system :=
  match (ClassifyRPC body).(Kind), s.(flights) !! i with
  | RPCToolCall, None => mkSystem s.(enf) (<[i := (flightOf peer pk sid body s.(enf), Arrived)]> s.(flights)) s.(sent)
  | _, _ => s
  end.
Definition leave (i : nat) (e : httpEnforcer) (s : system) : system := mkSystem e (delete i s.(flights)) s.(sent).
Definition stay (i : nat) (fl : flight) (st : stage) (e : httpEnforcer) (s : system) : system :=
  mkSystem e (<[i := (fl, st)]> s.(flights)) s.(sent).

Definition sysStep (s : system) (ev : event) : system :=
  match ev with
  | EvArrive i peer pk sid body => arrivals i peer pk sid body s
  | EvEnter i t1 t2 =>
      match s.(flights) !! i with
      | Some (fl, Arrived) =>
          match admitCall fl t1 t2 s.(enf) with
          | (Some why, e) => leave i (denyTool fl why e).2 s
          | (None, e) => stay i fl Entered e s
          end
      | _ => s
      end
  | EvSee i =>
      match s.(flights) !! i with
      | Some (fl, Entered) => stay i fl (Saw (labelsOf fl s.(enf))) s.(enf) s
      | _ => s
      end
  | EvDecide i now =>
      match s.(flights) !! i with
      | Some (fl, Saw labels) =>
          let p := s.(enf).(eng).(pol) in
          let '(dec, e) := judge fl labels now s.(enf) in
          let '(written, e) := recordCall fl dec e in
          stay i fl (Decided labels dec p written) e s
      | _ => s
      end
  | EvSettle i t =>
      match s.(flights) !! i with
      | Some (fl, Decided labels dec p written) =>
          match settle fl dec written t s.(enf) with
          | (Some _, e) => leave i e s
          | (None, e) => stay i fl (Settled labels dec p) e s
          end
      | _ => s
      end
  | EvCheck i t1 t2 =>
      match s.(flights) !! i with
      | Some (fl, Settled labels dec p) =>
          match injectCheck fl t1 t2 s.(enf) with
          | (inl _, e) => leave i e s
          | (inr (out, injected), e) => stay i fl (Checked labels dec p out injected) e s
          end
      | _ => s
      end
  | EvInject i =>
      match s.(flights) !! i with
      | Some (fl, Checked labels dec p out injected) =>
          mkSystem (remember fl.(fKey) injected s.(enf)) (delete i s.(flights)) (s.(sent) ++ [mkSent fl labels dec p out])
      | _ => s
      end
  | EvDelete pk sid =>
      if validSessionID sid then mkSystem (set_sessions (drop pk sid s.(enf).(sessions)) s.(enf)) s.(flights) s.(sent) else s
  | EvOther peer pk sid body ts =>
      match (ClassifyRPC body).(Kind) with
      | RPCToolCall => s
      | _ => mkSystem (decideBody peer pk sid body ts s.(enf)).2 s.(flights) s.(sent)
      end
  | EvRespond pk t => mkSystem (set_sessions (lookupRedactor pk t s.(enf).(sessions)).2 s.(enf)) s.(flights) s.(sent)
  | EvSwap p hash =>
      let g := s.(enf).(eng) in
      mkSystem (set_eng (mkEngine p g.(cosign) g.(reqApprovals) g.(groups) g.(buckets) hash) s.(enf)) s.(flights) s.(sent)
  end.
Definition sysRun (s : system) (evs : list event) : system := foldl sysStep s evs.
End Enforcer.

(** ** Responses *)

(** A response as it comes from the backend: its encoding, its media type, and the reads of its
    body, each with the values the peer's redactor holds by then. *)
Record response := mkResponse { rEncoding : string; rMedia : string; rReads : list (list (list Z) * list Z) }.
Inductive delivery := Untouched (bytes : list Z) | Rewritten (bytes : list Z) | BadGateway | Torn (bytes : list Z).

(** [sseRedactReader]: the rounds of [Read] over the reads of the source. *)
Fixpoint sseRead (last : list (list Z)) (reads : list (list (list Z) * list Z)) (buf : list Z) : list Z * bool :=
  match reads with
  | [] => (Secrets.pumpEOF last buf, true)
  | (vals, chunk) :: reads =>
      let '(out, buf) := Secrets.pumpRead vals chunk buf in
      if maxHTTPBody <? Z.of_nat (length buf) then ([], false)
      else let '(more, ok) := sseRead vals reads buf in (out ++ more, ok)
  end.
Definition bytesOf (r : response) : list Z := concat (snd <$> r.(rReads)).
(** [redactResponse] for a redactor that holds [vals] when the headers arrive, [final] once a
    document has been read. *)
Definition redactResponse (vals final : list (list Z)) (r : response) : delivery :=
  match vals with
  | [] => Untouched (bytesOf r)
  | _ =>
      if negb (r.(rEncoding) =? "")%string && negb (toLower r.(rEncoding) =? "identity")%string then BadGateway
      else if (r.(rMedia) =? "text/event-stream")%string then
        match sseRead vals r.(rReads) [] with (out, true) => Rewritten out | (out, false) => Torn out end
      else if maxHTTPBody <? Z.of_nat (length (bytesOf r)) then BadGateway
      else Rewritten (Secrets.Redact final (bytesOf r))
  end.
(** [ModifyResponse]: without a redactor of the peer nothing is touched. *)
Definition modifyResponse (red : option peerRedactor) (final : list (list Z)) (r : response) : delivery :=
  match red with None => Untouched (bytesOf r) | Some red => redactResponse red.(vals) final r end.
End Http.
