(* ===== verification/HttpThm.v ===== *)
(** * HttpThm: what the HTTP enforcer guarantees

    Theorems on the definitions of [HttpPolicy]: agreement with the stdio filter
    ([http_agrees_with_stdio]), labels under interleaved requests, the bounds of the session
    state, and the scrubbing of responses; computed runs in which the code does less than its
    comments say. *)
From stdpp Require Import base list strings gmap.
From Stdlib Require Import ZArith Lia Ascii.
From S2P Require Import Prelude GoStd Json Classify Crypto Policy Engine Capability Delegation Filter Secrets HttpPolicy.
Open Scope Z_scope.

Module HttpThm.
Import Http.
Notation decide := stdpp.base.decide.

(** ** Session state *)

Lemma entry_set pk sid m s : entryOf pk sid (setLabels m s) = match m !! pk with Some sess => sess !! sid | None => None end.
Proof. done. Qed.

Lemma entry_insert pk sid pk' sid' st s :
  entryOf pk sid (setLabels (<[pk' := <[sid' := st]> (default ∅ (s.(slabels) !! pk'))]> s.(slabels)) s) =
  if bool_decide (pk = pk' ∧ sid = sid') then Some st else entryOf pk sid s.
Proof.
  rewrite entry_set. unfold entryOf. destruct (decide (pk = pk')) as [->|Hp].
  - rewrite lookup_insert_eq. destruct (decide (sid = sid')) as [->|Hi].
    + by rewrite lookup_insert_eq, bool_decide_eq_true_2.
    + rewrite lookup_insert_ne by done. rewrite bool_decide_eq_false_2 by tauto. by destruct (slabels s !! pk').
  - rewrite lookup_insert_ne by done. by rewrite bool_decide_eq_false_2 by tauto.
Qed.

(** A sweep keeps what is not idle, and only that. *)
Lemma sweep_entry pk sid t s st : entryOf pk sid s = Some st → alive s.(idleTTL) t st.(lastSeen) = true →
  entryOf pk sid (sweepLocked t s) = Some st.
Proof.
  unfold sweepLocked, entryOf. destruct (_ <? _); [done|]. cbn [slabels]. intros He Ha. rewrite lookup_omap.
  destruct (slabels s !! pk) as [sess|]; [|done]. cbn.
  assert (filter (λ x : string * labelState, alive (idleTTL s) t (lastSeen x.2) = true) sess !! sid = Some st) as Hf
    by (by apply map_lookup_filter_Some).
  destruct (bool_decide_reflect (size (filter (λ x : string * labelState, alive (idleTTL s) t (lastSeen x.2) = true) sess) = 0%nat)) as [E|E]; [|done].
  apply map_size_empty_inv in E. by rewrite E in Hf.
Qed.

Lemma sweep_entry_inv pk sid t s st : entryOf pk sid (sweepLocked t s) = Some st → entryOf pk sid s = Some st.
Proof.
  unfold sweepLocked, entryOf. destruct (_ <? _); [done|]. cbn [slabels]. rewrite lookup_omap.
  destruct (slabels s !! pk) as [sess|]; [|done]. cbn. case_bool_decide; [done|]. intros He.
  by apply map_lookup_filter_Some in He as [? _].
Qed.

Lemma sweep_idleTTL t s : (sweepLocked t s).(idleTTL) = s.(idleTTL) ∧ (sweepLocked t s).(redCap) = s.(redCap) ∧
  (sweepLocked t s).(perPeer) = s.(perPeer) ∧ (sweepLocked t s).(global) = s.(global).
Proof. unfold sweepLocked. by destruct (_ <? _). Qed.

Definition unexpired (pk sid : string) (t : Instant) (s : httpSessionStore) : Prop :=
  ∀ st, entryOf pk sid s = Some st → alive s.(idleTTL) t st.(lastSeen) = true.

Lemma ensure_entry pk sid t1 t2 s s' : ensure pk sid t1 t2 s = (None, s') → ∃ st, entryOf pk sid s' = Some st.
Proof.
  unfold ensure. destruct (default ∅ _ !! sid) as [st|] eqn:E; [|repeat (case_match; [done|])]; intros [= <-]; rewrite entry_insert;
    rewrite bool_decide_eq_true_2 by done; eauto.
Qed.
Lemma ensure_snapshot pk sid t1 t2 s why s' : unexpired pk sid t1 s → ensure pk sid t1 t2 s = (why, s') → snapshot pk sid s' = snapshot pk sid s.
Proof.
  intros Hu. unfold ensure. set (s1 := sweepLocked t1 s).
  assert (entryOf pk sid s1 = entryOf pk sid s) as Hs1.
  { destruct (entryOf pk sid s) as [st|] eqn:E.
    - apply sweep_entry; [done|by apply Hu].
    - destruct (entryOf pk sid s1) as [st|] eqn:E1; [|done]. apply sweep_entry_inv in E1. congruence. }
  assert (∀ sess, s1.(slabels) !! pk = sess → entryOf pk sid s1 = default ∅ sess !! sid) as Hsess.
  { intros sess <-. unfold entryOf. by destruct (slabels s1 !! pk). }
  specialize (Hsess _ eq_refl). unfold snapshot at 2. rewrite <- Hs1, Hsess.
  destruct (default ∅ (slabels s1 !! pk) !! sid) as [st|] eqn:E.
  - intros [= <- <-]. unfold snapshot. rewrite entry_insert, bool_decide_eq_true_2 by done. done.
  - repeat case_match; intros [= <- <-]; unfold snapshot; rewrite ?Hsess, ?E; try done.
    by rewrite entry_insert, bool_decide_eq_true_2.
Qed.

Lemma add_snapshot pk sid ls t s st : entryOf pk sid s = Some st →
  snapshot pk sid (addLabels pk sid ls t s) = list_to_set ls ∪ snapshot pk sid s.
Proof.
  intros He. unfold addLabels. destruct ls as [|l ls]; [cbn; by rewrite union_empty_l_L|].
  pose proof He as He'. unfold entryOf in He'. destruct (slabels s !! pk) as [sess|] eqn:Hp; [|done]. rewrite He'.
  unfold snapshot. pose proof (entry_insert pk sid pk sid (mkLabels (list_to_set (l :: ls) ∪ lset st) t) s) as Hi.
  rewrite Hp in Hi. cbn [default from_option id] in Hi. rewrite Hi, He. by rewrite bool_decide_eq_true_2.
Qed.

(** ** Agreement with the stdio filter *)

Section Parity.
Context `{Float64} {A : Type} `{RequestApprovalStore A} `{Ed25519} `{SHA256} `{Cap.CapCodec} `{Deleg.DelegCodec}.
Context {N : Type} `{NonceStore N} {L : Type} `{AuditSink L}.
Context (LoadLocation : string → option Location) (ParseDuration : string → option Z) (canonicalArgsHash : string → string).
Notation httpEnforcer := (httpEnforcer (A := A) (N := N) (L := L)).
Notation Filter := (Filter.Filter (A := A) (N := N) (L := L)).
Notation judge := (judge LoadLocation ParseDuration canonicalArgsHash).

(** The labels of a decision are those of one of the policy's rules, or none. *)
Lemma decideTool_labels c now (e : Engine A) d e' : decideTool LoadLocation ParseDuration canonicalArgsHash c now e = (d, e') →
  d.(AddLabels) = [] ∨ ∃ r, r ∈ e.(pol).(Rules) ∧ d.(AddLabels) = emitSet r.
Proof.
  unfold decideTool. destruct (firstRule _ _ _) as [[i r]|] eqn:Ef.
  - apply firstRule_Some in Ef as (_ & Hr & _).
    assert (∀ e1 d e', decideCosign canonicalArgsHash i r c now e1 = (d, e') → AddLabels d = [] ∨ AddLabels d = emitSet r) as Hc.
    { intros e1 d1 e1'. unfold decideCosign. repeat case_match; intros [= <- <-]; auto. }
    assert (r ∈ (pol e).(Rules)) as Hin by (by eapply list_elem_of_lookup_2).
    unfold decideRule. destruct (RAllow r); cbn [negb]; [|intros [= <- <-]; by left].
    destruct (negb (_ =? _)%string); [intros [= <- <-]; by left|].
    destruct (match Rate r with Some _ => _ | None => _ end) as [[d1|] e1] eqn:Er.
    + intros [= <- <-]. destruct (Rate r); [|done]. destruct (allowRate _ _ _ _ _ _) as [[ok ?] ?]. destruct ok; simplify_eq. by left.
    + destruct (RequireCosign r); [intros [?|?]%Hc; [by left|right; by exists r]|intros [= <- <-]; right; by exists r].
  - intros [= <- <-]. by left.
Qed.

(** Without label rules no decision contributes a label. *)
Lemma decideTool_unlabelled c now (e : Engine A) d e' : decideTool LoadLocation ParseDuration canonicalArgsHash c now e = (d, e') →
  UsesLabels (Some e.(pol)) = false → d.(AddLabels) = [].
Proof.
  intros [?|(r & Hr & Hl)]%decideTool_labels; [done|]. unfold UsesLabels. intros Hu. rewrite Hl.
  destruct (emitSet r) as [|l ls] eqn:E; [done|]. exfalso. apply not_true_iff_false in Hu. apply Hu, existsb_exists.
  exists r. split; [by apply list_elem_of_In|]. by rewrite E.
Qed.

Lemma decideTool_pol c now (e : Engine A) d e' : decideTool LoadLocation ParseDuration canonicalArgsHash c now e = (d, e') → e'.(pol) = e.(pol).
Proof.
  unfold decideTool. destruct (firstRule _ _ _) as [[i r]|]; [|by intros [= <- <-]].
  assert (∀ e1 d e', decideCosign canonicalArgsHash i r c now e1 = (d, e') → pol e' = pol e1) as Hc.
  { intros e1 d1 e1'. unfold decideCosign. repeat case_match; by intros [= <- <-]. }
  unfold decideRule. destruct (negb (RAllow r)); [by intros [= <- <-]|]. destruct (negb (_ =? _)%string); [by intros [= <- <-]|].
  destruct (match Rate r with Some _ => _ | None => _ end) as [o e1] eqn:Er.
  assert (pol e1 = pol e) as He1.
  { destruct (Rate r) as [rl|]; [|by simplify_eq]. destruct (allowRate _ _ _ _ _ _) as [[ok retry] e2] eqn:Ea. simplify_eq.
    unfold allowRate in Ea. repeat case_match; by simplify_eq. }
  destruct o; [intros [= <- <-]; done|]. destruct (RequireCosign r); [intros ->%Hc; done|by intros [= <- <-]].
Qed.

Lemma fold_labels dec (v : Cap.CapabilityVerifier N) required token pk backend tool now d c :
  Cap.FoldCapability dec (Some v) required token pk backend tool now = (d, c) → d.(AddLabels) = dec.(AddLabels) ∨ d.(AddLabels) = [].
Proof. unfold Cap.FoldCapability, Cap.capDeny. repeat case_match; intros [= <- <-]; auto. Qed.

(** A filter that stands where the enforcer stands: the same parts, no delegation and no hooks
    (HTTP backends refuse them), and for labels what the session carries. *)
Definition agrees (peer pk sid : string) (e : httpEnforcer) (f : Filter) : Prop :=
  f.(Filter.eng) = e.(eng) ∧ f.(Filter.audit) = e.(audit) ∧ f.(Filter.secrets) = e.(secrets) ∧
  f.(Filter.capVerifier) = e.(capVerifier) ∧ f.(Filter.capRequired) = e.(capRequired) ∧
  f.(delegVerifier) = None ∧ f.(hooks) = [] ∧ f.(caller) = mkCaller e.(backend) peer pk "" ∧ f.(innerUp) = true ∧
  f.(held) = e.(pending) ∧
  f.(labels) = if sessionsRequired e then snapshot pk sid e.(sessions) else ∅.

(** What the filter does when it lets a line through, and when it answers. *)
Definition passed (f f' : Filter) (out : string) : Prop := f'.(toBackend) = f.(toBackend) ++ [out] ∧ f'.(toPeer) = f.(toPeer).
Definition answered (f f' : Filter) (id : string) (d : Denial) : Prop := f'.(toBackend) = f.(toBackend) ∧ f'.(toPeer) = f.(toPeer) ++ [(id, d)].
(** The ledger takes the next record, or does not fail closed. *)
Definition recording (e : httpEnforcer) : Prop :=
  ∀ r, (auditWrite e.(audit) r).1 = true ∨ FailClosed (auditWrite e.(audit) r).2 = false.
(** The verdict of the enforcer against what the filter did with the same text; a [Blocked]
    call is one the enforcer alone refuses. *)
Definition matches (peer pk sid : string) (e : httpEnforcer) (v : verdict) (e' : httpEnforcer) (f : Filter) (r : bool * Filter) : Prop :=
  match v with
  | Proceed (Some out) => r.1 = true ∧ passed f r.2 out ∧ agrees peer pk sid e' r.2
  | Refused (Answered id d) => r.1 = true ∧ r.2.(toBackend) = f.(toBackend) ∧ (recording e → answered f r.2 id d ∧ agrees peer pk sid e' r.2)
  | Refused (Blocked _ _ _) => True
  | Refused Dropped => r.1 = true ∧ r.2.(toBackend) = f.(toBackend) ∧ r.2.(toPeer) = f.(toPeer) ∧ agrees peer pk sid e' r.2
  | Proceed None => False
  end.

(** Reads off the fields of updated enforcers and filters. *)
Ltac fields := cbn [Filter.eng Filter.audit Filter.secrets Filter.capVerifier Filter.capRequired Filter.delegVerifier Filter.delegRequired Filter.hooks
  Filter.caller Filter.innerUp Filter.held Filter.labels Filter.toBackend Filter.toPeer Filter.redacted
  Filter.set_eng Filter.set_cap Filter.set_audit Filter.writeDenial Filter.hold Filter.addLabels Filter.addRedacted cPeer cPeerKey cBackendName
  eng audit secrets capVerifier capRequired pending backend sessions grantsUseLabels set_eng set_cap set_audit set_sessions holdCall fst snd].
Ltac agreed Hsr := eexists; split; [reflexivity|]; split_and!; try done; try (by apply Hsr);
  unfold agrees; fields; split_and!; try done; try congruence; try (by rewrite Hsr).

(** The two decisions of a call are one. *)
Lemma judge_agrees fl now e f d e' :
  agrees fl.(fPeer) fl.(fKey) fl.(fSid) e f → fl.(fTracked) = sessionsRequired e →
  judge fl (labelsOf fl e) now e = (d, e') →
  ∃ f', decideCall LoadLocation ParseDuration canonicalArgsHash fl.(fClass).(Tool) fl.(fClass).(Args) fl.(fToken) "" now f = (d, mkDA false "" "", f') ∧
    agrees fl.(fPeer) fl.(fKey) fl.(fSid) e' f' ∧ f'.(toBackend) = f.(toBackend) ∧ f'.(toPeer) = f.(toPeer) ∧
    sessionsRequired e' = sessionsRequired e ∧ e'.(sessions) = e.(sessions) ∧
    (sessionsRequired e = false → d.(AddLabels) = []).
Proof.
  intros (He & Ha & Hs & Hcv & Hcr & Hdv & Hh & Hc & Hi & Hp & Hl) Ht.
  unfold judge, HttpPolicy.Http.judge, DecideToolCallBound, decideCall, decideBound, boundCall. rewrite Hc, He, Hl. unfold labelsOf. rewrite Ht. cbn [cPeer cPeerKey cBackendName].
  destruct (decideTool _ _ _ _ _ _) as [d0 g] eqn:Hd.
  pose proof (decideTool_unlabelled _ _ _ _ _ Hd) as Hul. pose proof (decideTool_pol _ _ _ _ _ Hd) as Hpol.
  assert (∀ e1 : httpEnforcer, e1.(eng) = g → e1.(grantsUseLabels) = e.(grantsUseLabels) → sessionsRequired e1 = sessionsRequired e) as Hsr.
  { intros e1 E1 E2. unfold sessionsRequired. by rewrite E1, E2, Hpol. }
  assert (sessionsRequired e = false → AddLabels d0 = []) as Hd0.
  { intros [_ ?]%orb_false_iff. by apply Hul. }
  fields. rewrite Hcv, Hcr, Hdv, Hc.
  unfold finishCall. fields. rewrite Hh, Hcv. cbn [applyDecisionHooks fold_left]. fields.
  destruct (capVerifier e) as [v|] eqn:Ev.
  - destruct (Cap.FoldCapability _ _ _ _ _ _ _ _) as [d1 pend] eqn:Hf.
    assert (sessionsRequired e = false → AddLabels d1 = []) as Hd1.
    { intros Hn. apply fold_labels in Hf as [-> | ->]; [by apply Hd0|done]. }
    destruct pend as [cap|]; [|intros [= <- <-]; agreed Hsr].
    case_bool_decide; [|intros [= <- <-]; agreed Hsr].
    destruct (Cap.Consume v cap now) as [[u|er] v1]; intros [= <- <-]; agreed Hsr.
  - intros [= <- <-]. agreed Hsr.
Qed.

(** A record is the same record on both sides. *)
Lemma audited_agrees peer pk sid method tool id dec e f ok e' :
  agrees peer pk sid e f → audited (record e peer pk method tool id dec) e = (ok, e') →
  ∃ f', Filter.audited (Filter.record f method tool id dec) f = (ok, f') ∧ agrees peer pk sid e' f' ∧
    f'.(toBackend) = f.(toBackend) ∧ f'.(toPeer) = f.(toPeer) ∧ sessionsRequired e' = sessionsRequired e ∧
    e'.(sessions) = e.(sessions) ∧ e'.(audit) = f'.(Filter.audit).
Proof.
  intros (He & Ha & Hs & Hcv & Hcr & Hdv & Hh & Hc & Hi & Hp & Hl). unfold audited, Filter.audited, record, Filter.record.
  rewrite Hc, Ha. fields. destruct (auditWrite _ _) as [w l]. intros [= <- <-].
  eexists; split; [reflexivity|]. unfold agrees. fields. by split_and!.
Qed.

Lemma agrees_sessions peer pk sid s e f : agrees peer pk sid e f → (sessionsRequired e = true → snapshot pk sid s = snapshot pk sid e.(sessions)) →
  agrees peer pk sid (set_sessions s e) f.
Proof.
  intros (He & Ha & Hs & Hcv & Hcr & Hdv & Hh & Hc & Hi & Hp & Hl) Hsn. unfold agrees. fields. split_and!; try done.
  change (sessionsRequired (set_sessions s e)) with (sessionsRequired e). destruct (sessionsRequired e); [by rewrite Hsn|done].
Qed.

Lemma denied_blocked fl why (e : httpEnforcer) : ∃ e', denyTool fl why e = (Refused (Blocked fl.(fClass).(RID) fl.(fClass).(Tool) why), e').
Proof. unfold denyTool. destruct (audited _ e) as [w e']. eauto. Qed.

Lemma innerWrite_agrees peer pk sid e e0 out (f g : Filter) : agrees peer pk sid e g → g.(toBackend) = f.(toBackend) → g.(toPeer) = f.(toPeer) →
  matches peer pk sid e0 (Proceed (Some out)) e f (innerWrite out g).
Proof.
  intros Hag Hb Hp. pose proof Hag as (_ & _ & _ & _ & _ & _ & _ & _ & Hi & _). unfold innerWrite. rewrite Hi.
  cbn [matches fst snd]. unfold passed. cbn [toBackend toPeer]. rewrite Hb, Hp. split; [done|]. split; [done|].
  destruct Hag as (He & Ha & Hs & Hcv & Hcr & Hdv & Hh & Hc & _ & Hpd & Hl). unfold agrees. fields. by split_and!.
Qed.

(** The end of an allowed call: the injection of secrets. *)
Lemma inject_agrees fl t1 t2 e e0 f v e' :
  agrees fl.(fPeer) fl.(fKey) fl.(fSid) e f → fl.(fTracked) = sessionsRequired e →
  (fl.(fTracked) = true → unexpired fl.(fKey) fl.(fSid) t1 e.(sessions)) →
  inject fl t1 t2 e = (v, e') →
  matches fl.(fPeer) fl.(fKey) fl.(fSid) e0 v e' f
    match f.(Filter.secrets) with
    | None => innerWrite fl.(fBody) f
    | Some resolve => match resolve f.(caller) fl.(fClass).(Tool) fl.(fBody) f.(labels) with
      | None => (true, writeDenial fl.(fClass).(RID) (DeniedSecret fl.(fClass).(Tool)) f)
      | Some (out, injected) => innerWrite out (addRedacted injected f)
      end
    end.
Proof.
  intros Hag Ht Hu. pose proof Hag as (He & Ha & Hs & Hcv & Hcr & Hdv & Hh & Hc & Hi & Hp & Hl).
  assert (labelsOf fl e = f.(labels)) as Hlab by (unfold labelsOf; by rewrite Ht, Hl).
  unfold inject, injectCheck. rewrite Hs, Hc, Hlab. cbn [cPeer].
  assert (∀ e1 inj, agrees fl.(fPeer) fl.(fKey) fl.(fSid) e1 f → agrees fl.(fPeer) fl.(fKey) fl.(fSid) e1 (addRedacted inj f)) as Hred by done.
  destruct (secrets e) as [resolve|]; [|intros [= <- <-]; by apply innerWrite_agrees].
  destruct (resolve _ _ _ _) as [[out inj]|].
  2:{ intros [= <- <-]. cbn [matches fst snd]. split; [done|]. split; [done|]. by intros _. }
  destruct inj as [|x inj]; [intros [= <- <-]; apply innerWrite_agrees; [by apply Hred|done|done]|].
  destruct (fKey fl =? "")%string.
  { destruct (denied_blocked fl noRedactor e) as [e1 ->]. by intros [= <- <-]. }
  destruct (redactorFor _ _ _ _) as [red s] eqn:Hr. destruct (_ <? _)%nat.
  { destruct (denied_blocked fl redactorFull (set_sessions s e)) as [e1 ->]. by intros [= <- <-]. }
  intros [= <- <-]. apply innerWrite_agrees; [|done|done]. apply Hred. unfold remember.
  assert (agrees (fPeer fl) (fKey fl) (fSid fl) (set_sessions s e) f) as Hag1; [|cbn [sessions set_sessions]; destruct (redactors s !! fKey fl); exact Hag1].
  apply agrees_sessions; [done|]. intros Hreq.
  unfold redactorFor in Hr. simplify_eq. unfold snapshot, entryOf. cbn [slabels setRedactors].
  specialize (Hu (eq_trans Ht Hreq)). fold (entryOf (fKey fl) (fSid fl) (sweepLocked t1 (sessions e))). fold (entryOf (fKey fl) (fSid fl) (sessions e)).
  destruct (entryOf _ _ (sessions e)) as [st|] eqn:E.
  - erewrite sweep_entry; [done|done|by apply Hu].
  - destruct (entryOf _ _ (sweepLocked _ _)) eqn:E1; [|done]. apply sweep_entry_inv in E1. congruence.
Qed.

(** The redactor's sweep, at its time, expires neither this session nor what the call did to it. *)
Definition calm (pk sid : string) (ts : times) (s : httpSessionStore) : Prop :=
  unexpired pk sid ts.(tSweep) s ∧ alive s.(idleTTL) ts.(tSweep2) ts.(tStamp) = true ∧ alive s.(idleTTL) ts.(tSweep2) ts.(tAdd) = true.

Lemma ensure_stamp pk sid t1 t2 s s' : ensure pk sid t1 t2 s = (None, s') →
  s'.(idleTTL) = s.(idleTTL) ∧ ∃ st, entryOf pk sid s' = Some st ∧ st.(lastSeen) = t2.
Proof.
  unfold ensure. pose proof (sweep_idleTTL t1 s) as (Hi & _).
  destruct (default ∅ _ !! sid) as [st|] eqn:E; [|repeat (case_match; [done|])]; intros [= <-]; (split; [done|]);
    rewrite entry_insert, bool_decide_eq_true_2 by done; eauto.
Qed.
Lemma add_stamp pk sid ls t s st : entryOf pk sid s = Some st →
  (addLabels pk sid ls t s).(idleTTL) = s.(idleTTL) ∧
  ∃ st', entryOf pk sid (addLabels pk sid ls t s) = Some st' ∧ (st'.(lastSeen) = t ∨ st'.(lastSeen) = st.(lastSeen)).
Proof.
  intros He. unfold addLabels. destruct ls as [|l ls]; [eauto|]. pose proof He as He'. unfold entryOf in He'.
  destruct (slabels s !! pk) as [sess|] eqn:Hp; [|done]. rewrite He'. split; [done|].
  pose proof (entry_insert pk sid pk sid (mkLabels (list_to_set (l :: ls) ∪ lset st) t) s) as Hi.
  rewrite Hp in Hi. cbn [default from_option id] in Hi. rewrite Hi, bool_decide_eq_true_2 by done. eexists; split; [done|]. by left.
Qed.

Lemma toolCall_agrees fl ts e f v e' :
  agrees fl.(fPeer) fl.(fKey) fl.(fSid) e f → fl.(fTracked) = sessionsRequired e → calm fl.(fKey) fl.(fSid) ts e.(sessions) →
  toolCall LoadLocation ParseDuration canonicalArgsHash fl ts e = (v, e') →
  matches fl.(fPeer) fl.(fKey) fl.(fSid) e v e' f
    (handleToolCall LoadLocation ParseDuration canonicalArgsHash fl.(fBody) fl.(fClass).(Tool) fl.(fClass).(RID) fl.(fClass).(Args) fl.(fToken) "" ts.(tDecide) f).
Proof.
  intros Hag Ht (Hu & Hc1 & Hc2). unfold toolCall.
  destruct (admitCall _ _ _ e) as [[why|] e1] eqn:Had.
  { destruct (denied_blocked fl why e1) as [e2 ->]. by intros [= <- <-]. }
  assert (agrees fl.(fPeer) fl.(fKey) fl.(fSid) e1 f ∧ sessionsRequired e1 = sessionsRequired e ∧ e1.(audit) = e.(audit) ∧
    (fl.(fTracked) = true → e1.(sessions).(idleTTL) = e.(sessions).(idleTTL) ∧ ∃ st, entryOf fl.(fKey) fl.(fSid) e1.(sessions) = Some st ∧ st.(lastSeen) = ts.(tStamp)))
    as (Hag1 & Hsr1 & Hau1 & Hst).
  { unfold admitCall in Had. destruct (fTracked fl) eqn:Hft; cbn [negb] in Had; [|by simplify_eq].
    destruct (_ =? _)%string; [done|]. destruct (negb _); [done|]. destruct (ensure _ _ _ _ _) as [why s] eqn:En. simplify_eq.
    split; [|split_and!; [done|done|intros _; by eapply ensure_stamp]].
    apply agrees_sessions; [done|]. intros _. by eapply ensure_snapshot. }
  destruct (judge fl (labelsOf fl e1) (tDecide ts) e1) as [dec e2] eqn:Hj.
  destruct (judge_agrees fl (tDecide ts) e1 f dec e2 Hag1 (eq_trans Ht (eq_sym Hsr1)) Hj) as (f1 & Hd & Hag2 & Hb1 & Hp1 & Hsr2 & Hse2 & Hul).
  unfold handleToolCall. rewrite Hd. cbn [delegationRecord relevant].
  assert (e2.(audit) = e1.(audit)) as Hau2.
  { destruct Hag2 as (_ & <- & _). destruct Hag1 as (_ & <- & _). pose proof (decideCall_spec _ _ _ _ _ _ _ _ _ _ _ _ Hd) as [(Hx & _) _]. exact Hx. }
  destruct (recordCall fl dec e2) as [w e3] eqn:Hr. unfold recordCall in Hr.
  assert (recording e → negb w && FailClosed e3.(audit) = false) as Hrec.
  { intros Hrec. unfold audited in Hr. rewrite Hau2, Hau1 in Hr. specialize (Hrec (record e2 (fPeer fl) (fKey fl) "tools/call" (Tool (fClass fl)) (RID (fClass fl)) dec)).
    destruct (auditWrite _ _) as [w0 l]. simplify_eq. cbn in Hrec. destruct Hrec as [-> | Hf]; [done|]. cbn [audit set_audit]. rewrite Hf. by rewrite andb_false_r. }
  destruct (audited_agrees _ _ _ _ _ _ _ _ _ _ _ Hag2 Hr) as (f2 & Hfa & Hag3 & Hb2 & Hp2 & Hsr3 & Hse3 & Hau3). rewrite Hfa.
  unfold settle. rewrite <- Hau3. pose proof Hag3 as (Hge & _ & _ & _ & _ & _ & _ & Hgc & _).
  destruct (outcome dec) eqn:Ho.
  - intros [= <- <-]. cbn [matches fst snd]. destruct (negb w && _) eqn:Hfc.
    + split; [done|]. cbn [snd toBackend Filter.writeDenial]. split; [congruence|]. intros Hx. specialize (Hrec Hx). congruence.
    + cbn [fst snd]. unfold answered. cbn [toBackend toPeer Filter.writeDenial]. split; [done|]. split; [congruence|]. intros _. split; [split; congruence|]. exact Hag3.
  - destruct (negb w && _) eqn:Hfc; [intros [= <- <-]; cbn [matches fst snd]; unfold answered; cbn [toBackend toPeer Filter.writeDenial]; (split; [done|]); (split; [congruence|]); intros _; (split; [split; congruence|]); exact Hag3|].
    assert (agrees (fPeer fl) (fKey fl) (fSid fl) (publish fl dec ts.(tAdd) e3) (Filter.addLabels dec.(AddLabels) f2)) as Hag4.
    { destruct Hag3 as (He & Ha & Hs & Hcv & Hcr & Hdv & Hh & Hc & Hi & Hp & Hl). unfold agrees, publish.
      destruct (fTracked fl) eqn:Hft; fields.
      - split_and!; try done. change (sessionsRequired (set_sessions ?a e3)) with (sessionsRequired e3). rewrite Hl, Hsr3, Hsr2, Hsr1, <- Ht.
        destruct (Hst eq_refl) as (_ & st & Hst' & _). rewrite Hse3, Hse2. by erewrite add_snapshot.
      - split_and!; try done. rewrite Hl, Hsr3, Hsr2, Hsr1, <- Ht. rewrite Hul by congruence. set_solver. }
    intros Hin. assert (sessionsRequired (publish fl dec ts.(tAdd) e3) = sessionsRequired e) as Hsr4.
    { unfold publish. destruct (fTracked fl); [change (sessionsRequired (set_sessions ?a e3)) with (sessionsRequired e3)|]; congruence. }
    assert (fTracked fl = true → unexpired fl.(fKey) fl.(fSid) ts.(tSweep2) (publish fl dec ts.(tAdd) e3).(sessions)) as Hux.
    { intros Hft st' Hst'. unfold publish in Hst' |- *. rewrite Hft in *. cbn [sessions set_sessions] in *.
      destruct (Hst eq_refl) as (Hid & st & Hst1 & Hls). rewrite Hse3, Hse2 in *.
      destruct (add_stamp (fKey fl) (fSid fl) (AddLabels dec) (tAdd ts) (sessions e1) st Hst1) as (Hid' & st2 & Hst2 & Hls2).
      rewrite Hid', Hid. assert (st' = st2) as -> by congruence. destruct Hls2 as [-> | ->]; [done|by rewrite Hls]. }
    pose proof (inject_agrees fl ts.(tSweep2) ts.(tRed) _ e _ v e' Hag4 (eq_trans Ht (eq_sym Hsr4)) Hux Hin) as Hm.
    revert Hm. unfold matches, passed, answered. change (toBackend (Filter.addLabels (AddLabels dec) f2)) with (toBackend f2).
    change (toPeer (Filter.addLabels (AddLabels dec) f2)) with (toPeer f2). by rewrite Hb2, Hb1, Hp2, Hp1.
  - intros [= <- <-]. cbn [matches fst snd]. destruct (negb w && _) eqn:Hfc.
    + split; [done|]. cbn [snd toBackend Filter.writeDenial]. split; [congruence|]. intros Hx. specialize (Hrec Hx). congruence.
    + cbn [fst snd]. unfold answered. cbn [toBackend toPeer Filter.writeDenial Filter.hold]. split; [done|]. split; [congruence|]. intros _. split; [split; congruence|].
      destruct Hag3 as (He & Ha & Hs & Hcv & Hcr & Hdv & Hh & Hc & Hi & Hp & Hl). unfold agrees. fields. rewrite Hc, He, Hp. fields. by split_and!.
Qed.

(** A notification that a method rule allows: the filter records it, the enforcer does not
    ([allowed_notification_is_not_recorded]). *)
Definition allowedNotification (peer pk body : string) (e : httpEnforcer) : Prop :=
  let class := ClassifyRPC body in let md := DecideMethod e.(eng).(pol) peer pk class.(Method) in
  class.(Kind) = RPCNotification ∧ md.(RuleID) ≠ -1 ∧ md.(Allow) = true.

Lemma recorded peer pk method tool id dec (e : httpEnforcer) w e' :
  recording e → audited (record e peer pk method tool id dec) e = (w, e') → negb w && FailClosed e'.(audit) = false.
Proof.
  intros Hr. unfold audited. specialize (Hr (record e peer pk method tool id dec)). destruct (auditWrite _ _) as [w0 l]. intros [= <- <-].
  cbn in *. destruct Hr as [-> | ->]; [done|by rewrite andb_false_r].
Qed.

End Parity.

(** ** Labels under interleaved requests *)

(** The clock stays within the idle limit from [lo] on. *)
Definition window (lo ttl t : Z) : Prop := lo ≤ t ∧ t ≤ lo + ttl.
Lemma window_alive lo ttl t u : 0 ≤ ttl → window lo ttl t → lo ≤ u → alive ttl t u = true.
Proof. unfold window, alive, timeSub, minInt64, maxInt64. intros. apply negb_true_iff, Z.ltb_ge. lia. Qed.

(** The labels of a session only grow, and its entry stays. *)
Definition grows (pk sid : string) (lo : Z) (s s' : httpSessionStore) : Prop :=
  s'.(idleTTL) = s.(idleTTL) ∧
  ∀ st, entryOf pk sid s = Some st → lo ≤ st.(lastSeen) →
    ∃ st', entryOf pk sid s' = Some st' ∧ st.(lset) ⊆ st'.(lset) ∧ lo ≤ st'.(lastSeen).
Lemma grows_refl pk sid lo s : grows pk sid lo s s.
Proof. split; [done|]. intros st. eauto. Qed.
Lemma grows_trans pk sid lo s1 s2 s3 : grows pk sid lo s1 s2 → grows pk sid lo s2 s3 → grows pk sid lo s1 s3.
Proof.
  intros [H1 G1] [H2 G2]. split; [congruence|]. intros st Hst Hlo. destruct (G1 _ Hst Hlo) as (st1 & E1 & S1 & L1).
  destruct (G2 _ E1 L1) as (st2 & E2 & S2 & L2). exists st2. split_and!; [done|set_solver|done].
Qed.
#[export] Hint Resolve grows_refl : core.

Lemma sweep_grows pk sid lo t s : 0 ≤ s.(idleTTL) → window lo s.(idleTTL) t → grows pk sid lo s (sweepLocked t s).
Proof.
  intros Hi Hw. split; [apply sweep_idleTTL|]. intros st Hst Hlo. exists st. split_and!; [|done|done].
  apply sweep_entry; [done|]. by eapply window_alive.
Qed.
Lemma insert_grows pk sid lo pk' sid' st' s :
  (∀ st, entryOf pk' sid' s = Some st → st.(lset) ⊆ st'.(lset)) → lo ≤ st'.(lastSeen) →
  grows pk sid lo s (setLabels (<[pk' := <[sid' := st']> (default ∅ (s.(slabels) !! pk'))]> s.(slabels)) s).
Proof.
  intros Hs Hl. split; [done|]. intros st Hst Hlo. rewrite entry_insert. case_bool_decide as E; [|eauto].
  destruct E as [-> ->]. exists st'. split_and!; [done|by apply Hs|done].
Qed.
Lemma ensure_grows pk sid lo pk' sid' t1 t2 s : 0 ≤ s.(idleTTL) → window lo s.(idleTTL) t1 → window lo s.(idleTTL) t2 →
  grows pk sid lo s (ensure pk' sid' t1 t2 s).2.
Proof.
  intros Hi H1 [H2 _]. unfold ensure. pose proof (sweep_grows pk sid lo t1 s Hi H1) as Hg. set (s1 := sweepLocked t1 s) in *.
  eapply grows_trans; [exact Hg|].
  destruct (default ∅ (slabels s1 !! pk') !! sid') as [st|] eqn:E; [|repeat case_match]; cbn [snd]; try done; apply insert_grows; try done.
  - intros st0 Hst0. unfold entryOf in Hst0. cbn [lset]. destruct (slabels s1 !! pk'); [|done]. cbn in E. by simplify_eq.
  - intros st0 Hst0. unfold entryOf in Hst0. destruct (slabels s1 !! pk'); [|done]. cbn in E. congruence.
Qed.
Lemma add_grows pk sid lo pk' sid' ls t s : lo ≤ t → grows pk sid lo s (addLabels pk' sid' ls t s).
Proof.
  intros Ht. unfold addLabels. destruct ls as [|l ls]; [done|]. destruct (slabels s !! pk') as [sess|] eqn:Hp; [|done].
  destruct (sess !! sid') as [st|] eqn:Hs; [|done].
  pose proof (insert_grows pk sid lo pk' sid' (mkLabels (list_to_set (l :: ls) ∪ lset st) t) s) as Hi.
  rewrite Hp in Hi. cbn [default from_option id] in Hi. apply Hi; [|done]. intros st0. unfold entryOf. rewrite Hp, Hs. intros [= <-]. cbn [lset]. set_solver.
Qed.
Lemma drop_grows pk sid lo pk' sid' s : (pk, sid) ≠ (pk', sid') → grows pk sid lo s (drop pk' sid' s).
Proof.
  intros Hne. split; [unfold drop; by destruct (_ !! pk')|]. intros st Hst Hlo. exists st. split_and!; [|done|done].
  unfold drop. destruct (slabels s !! pk') as [sess|] eqn:Hp; [|done]. rewrite entry_set. unfold entryOf in Hst.
  destruct (decide (pk = pk')) as [->|Hn].
  - rewrite Hp in Hst. assert (delete sid' sess !! sid = Some st) as Hd by (rewrite lookup_delete_ne; [done|congruence]).
    case_bool_decide as E; [apply map_size_empty_inv in E; by rewrite E in Hd|]. by rewrite lookup_insert_eq.
  - case_bool_decide; [by rewrite lookup_delete_ne by done|by rewrite lookup_insert_ne by done].
Qed.
Lemma redactors_grow pk sid lo m s : grows pk sid lo s (setRedactors m s).
Proof. split; [done|]. intros st Hst Hlo. by exists st. Qed.
Lemma redactorFor_grows pk sid lo pk' t1 t2 s : 0 ≤ s.(idleTTL) → window lo s.(idleTTL) t1 → grows pk sid lo s (redactorFor pk' t1 t2 s).2.
Proof. intros Hi Hw. eapply grows_trans; [by apply (sweep_grows pk sid lo t1)|]. apply redactors_grow. Qed.
Lemma lookupRedactor_grows pk sid lo pk' t s : grows pk sid lo s (lookupRedactor pk' t s).2.
Proof. unfold lookupRedactor. case_match; [apply redactors_grow|done]. Qed.

Section Interleaved.
Context `{Float64} {A : Type} `{RequestApprovalStore A} `{Ed25519} `{SHA256} `{Cap.CapCodec}.
Context {N : Type} `{NonceStore N} {L : Type} `{AuditSink L}.
Context (LoadLocation : string → option Location) (ParseDuration : string → option Z) (canonicalArgsHash : string → string).
Notation httpEnforcer := (httpEnforcer (A := A) (N := N) (L := L)).
Notation system := (system (A := A) (N := N) (L := L)).
Notation judge := (judge LoadLocation ParseDuration canonicalArgsHash).
Notation sysStep := (sysStep LoadLocation ParseDuration canonicalArgsHash).
Notation sysRun := (sysRun LoadLocation ParseDuration canonicalArgsHash).

(** What the steps of other requests do to the enforcer, as far as a session is concerned. *)
Definition evolves (pk sid : string) (lo : Z) (e e' : httpEnforcer) : Prop :=
  e'.(eng).(pol) = e.(eng).(pol) ∧ e'.(grantsUseLabels) = e.(grantsUseLabels) ∧ grows pk sid lo e.(sessions) e'.(sessions).
Lemma http_evolves_refl pk sid lo e : evolves pk sid lo e e.
Proof. by split_and!. Qed.
Lemma http_evolves_trans pk sid lo e1 e2 e3 : evolves pk sid lo e1 e2 → evolves pk sid lo e2 e3 → evolves pk sid lo e1 e3.
Proof. intros (P1 & G1 & S1) (P2 & G2 & S2). split_and!; [congruence|congruence|by eapply grows_trans]. Qed.
Hint Resolve http_evolves_refl : core.

Lemma sessions_evolve pk sid lo s e : grows pk sid lo e.(sessions) s → evolves pk sid lo e (set_sessions s e).
Proof. intros Hg. by split_and!. Qed.
Lemma audited_evolves pk sid lo r e : evolves pk sid lo e (audited r e).2.
Proof. unfold audited. by destruct (auditWrite _ r). Qed.
Lemma denyTool_evolves pk sid lo fl why e : evolves pk sid lo e (denyTool fl why e).2.
Proof. unfold denyTool. pose proof (audited_evolves pk sid lo (record e (fPeer fl) (fKey fl) "tools/call" (Tool (fClass fl)) (RID (fClass fl)) (refusalDecision why)) e). by destruct (audited _ e). Qed.
Lemma admitCall_evolves pk sid lo fl t1 t2 e : 0 ≤ e.(sessions).(idleTTL) → window lo e.(sessions).(idleTTL) t1 → window lo e.(sessions).(idleTTL) t2 →
  evolves pk sid lo e (admitCall fl t1 t2 e).2.
Proof.
  intros. unfold admitCall. repeat (case_match; cbn [snd]; [done|]).
  pose proof (ensure_grows pk sid lo (fKey fl) (fSid fl) t1 t2 (sessions e)) as Hg. destruct (ensure _ _ _ _ _). by apply sessions_evolve, Hg.
Qed.
Lemma judge_evolves pk sid lo fl ls now e : evolves pk sid lo e (judge fl ls now e).2.
Proof.
  unfold judge, HttpPolicy.Http.judge, DecideToolCallBound. destruct (decideTool _ _ _ _ _ _) as [d g] eqn:Hd. apply decideTool_pol in Hd.
  repeat (case_match; cbn [snd]); by split_and!.
Qed.
Lemma settle_evolves pk sid lo fl dec w t e : lo ≤ t → evolves pk sid lo e (settle canonicalArgsHash fl dec w t e).2.
Proof.
  intros. unfold settle, publish. repeat (case_match; cbn [snd]); try done. by apply sessions_evolve, add_grows.
Qed.
Lemma check_evolves pk sid lo fl t1 t2 e : 0 ≤ e.(sessions).(idleTTL) → window lo e.(sessions).(idleTTL) t1 →
  evolves pk sid lo e (injectCheck fl t1 t2 e).2.
Proof.
  intros Hi Hw. unfold injectCheck. pose proof (redactorFor_grows pk sid lo (fKey fl) t1 t2 (sessions e) Hi Hw) as Hg.
  destruct (secrets e); [|done]. destruct (s _ _ _ _) as [[out inj]|]; [|done]. destruct inj as [|x inj]; [done|].
  assert (∀ why e1, evolves pk sid lo e e1 → evolves pk sid lo e (let '(v, e2) := denyTool fl why e1 in (@inl verdict (string * list string) v, e2)).2) as Hd.
  { intros why e1 He1. pose proof (denyTool_evolves pk sid lo fl why e1). destruct (denyTool fl why e1). by eapply http_evolves_trans. }
  destruct (_ =? _)%string; [by apply Hd|]. destruct (redactorFor _ _ _ _) as [red s1].
  assert (evolves pk sid lo e (set_sessions s1 e)) as He by by apply sessions_evolve. destruct (_ <? _)%nat; [by apply Hd|done].
Qed.
Lemma remember_evolves pk sid lo pk' inj e : evolves pk sid lo e (remember pk' inj e).
Proof. unfold remember. repeat (case_match; [done|]). repeat case_match; try done. apply sessions_evolve, redactors_grow. Qed.
Lemma decideBody_evolves pk sid lo peer pk' sid' body ts e : (ClassifyRPC body).(Kind) ≠ RPCToolCall →
  evolves pk sid lo e (decideBody LoadLocation ParseDuration canonicalArgsHash peer pk' sid' body ts e).2.
Proof.
  intros Hk. unfold decideBody. destruct (stripToken _ _ _) as [token line].
  assert (∀ r, ∃ w e1, audited r e = (w, e1) ∧ evolves pk sid lo e e1) as Ha.
  { intros r. pose proof (audited_evolves pk sid lo r e). destruct (audited r e) as [w e1]. eauto. }
  destruct (Kind _); try done.
  - match goal with |- context [audited ?r e] => destruct (Ha r) as (w & e1 & -> & ?) end. done.
  - match goal with |- context [audited ?r e] => destruct (Ha r) as (w & e1 & -> & ?) end. done.
  - unfold handleNotification. case_match; [|done]. cbn [snd]. apply audited_evolves.
  - unfold handleMethod. case_match; [done|]. match goal with |- context [audited ?r e] => destruct (Ha r) as (w & e1 & -> & ?) end. by repeat case_match.
Qed.

(** The rule that decided a call does not block the label. *)
Definition cleared (l : string) (dec : Decision) (p : Policy) : Prop :=
  ∀ r, 0 ≤ dec.(RuleID) → p.(Rules) !! Z.to_nat dec.(RuleID) = Some r → "" ∉ blockSet r → l ∉ blockSet r.

(** An allow was taken by a rule that blocks none of the labels it was shown. *)
Lemma judge_clears fl ls now (e : httpEnforcer) dec e' l : judge fl ls now e = (dec, e') → dec.(outcome) = OutcomeAllow → l ∈ ls → cleared l dec e.(eng).(pol).
Proof.
  unfold judge, HttpPolicy.Http.judge, DecideToolCallBound. destruct (decideTool _ _ _ _ _ _) as [d0 g] eqn:Hd. intros Hj Ho Hl r Hi Hr He.
  assert (d0.(RuleID) = dec.(RuleID) ∧ (d0.(outcome) = OutcomeAllow ∨ d0.(RuleID) = -1)) as [Hid Hor].
  { destruct (capVerifier (set_eng g e)) as [v|]; [|simplify_eq; by split; [|left]].
    destruct (Cap.FoldCapability _ _ _ _ _ _ _ _) as [d1 pend] eqn:Hf.
    assert (RuleID d1 = RuleID d0) as E by (unfold Cap.FoldCapability, Cap.capDeny in Hf; repeat case_match; by simplify_eq).
    assert (dec = d1 ∧ outcome d1 = OutcomeAllow) as [-> Ho1].
    { destruct pend as [c|]; [|by simplify_eq]. case_bool_decide; [|by simplify_eq]. destruct (Cap.Consume v c now) as [[u|er] v1]; by simplify_eq. }
    split; [done|]. apply Cap.FoldCapability_allow in Hf as (_ & [?|(_ & ? & _)] & _); auto. }
  destruct Hor as [Hoa|?]; [|lia]. unfold decideTool in Hd. destruct (firstRule _ _ _) as [[i r']|] eqn:Ef; [|simplify_eq; cbn in Hid; lia].
  apply firstRule_Some in Ef as (_ & Hr' & _). apply decideRule_allow in Hd as (Hri & _ & _ & Hb & _); [|done].
  rewrite <- Hid, Hri, Hr' in Hr. simplify_eq. intros Hin. by apply (Hb He l).
Qed.
Lemma unlabelled_clears l dec p : UsesLabels (Some p) = false → cleared l dec p.
Proof.
  intros Hu r _ Hr _ Hl. apply not_true_iff_false in Hu. apply Hu, existsb_exists. exists r. split; [apply list_elem_of_In; by eapply list_elem_of_lookup_2|].
  destruct (blockSet r); [by apply elem_of_nil in Hl|]. by rewrite orb_true_r.
Qed.

(** The times an event reads from the clock. *)
Definition timesOf (ev : event) : list Z :=
  match ev with
  | EvEnter _ t1 t2 | EvCheck _ t1 t2 => [t1; t2]
  | EvSettle _ t | EvRespond _ t => [t]
  | _ => []
  end.
(** Nobody tears the session down, swaps the policy, or lets the idle limit pass. *)
Definition undisturbed (pk sid : string) (lo ttl : Z) (ev : event) : Prop :=
  match ev with EvDelete pk' sid' => (pk', sid') ≠ (pk, sid) | EvSwap _ _ => False | _ => True end ∧ Forall (window lo ttl) (timesOf ev).

Section Tainted.
Context (pk sid l : string) (lo : Z) (s0 : system).
Notation p0 := s0.(enf).(eng).(pol).
Notation ttl := s0.(enf).(sessions).(idleTTL).
Hypothesis Httl : 0 ≤ ttl.

(** A call of the session under way: it is tracked when the policy asks for it, what it saw
    holds the label, and a decision to allow it is cleared. *)
Definition staged (fl : flight) (st : stage) : Prop :=
  fl.(fKey) = pk → fl.(fSid) = sid →
  fl.(fTracked) = sessionsRequired s0.(enf) ∧
  match st with
  | Arrived | Entered => True
  | Saw ls => fl.(fTracked) = true → l ∈ ls
  | Decided _ dec p _ => p = p0 ∧ (dec.(outcome) = OutcomeAllow → cleared l dec p0)
  | Settled _ dec p | Checked _ dec p _ _ => p = p0 ∧ cleared l dec p0
  end.
Definition tainted (s : system) : Prop :=
  evolves pk sid lo s0.(enf) s.(enf) ∧
  (∃ st, entryOf pk sid s.(enf).(sessions) = Some st ∧ l ∈ st.(lset) ∧ lo ≤ st.(lastSeen)) ∧
  (∀ i fl st, s.(flights) !! i = Some (fl, st) → staged fl st) ∧
  ∃ new, s.(sent) = s0.(sent) ++ new ∧
    Forall (λ c, c.(sFlight).(fKey) = pk → c.(sFlight).(fSid) = sid → cleared l c.(sDec) p0) new.

Lemma tainted_enf s e : tainted s → evolves pk sid lo s.(enf) e →
  evolves pk sid lo s0.(enf) e ∧ ∃ st, entryOf pk sid e.(sessions) = Some st ∧ l ∈ st.(lset) ∧ lo ≤ st.(lastSeen).
Proof.
  intros (Hev & (st & Hst & Hl & Hlo) & _) He. split; [by eapply http_evolves_trans|]. destruct He as (_ & _ & _ & Hg).
  destruct (Hg _ Hst Hlo) as (st' & ? & ? & ?). exists st'. split_and!; [done|set_solver|done].
Qed.
Lemma tainted_put i fl st s e : tainted s → evolves pk sid lo s.(enf) e → staged fl st → tainted (stay i fl st e s).
Proof.
  intros Ht He Hst. destruct (tainted_enf _ _ Ht He) as [? ?]. destruct Ht as (_ & _ & Hfl & Hn). split_and!; try done.
  intros j fl' st'. cbn [flights stay]. rewrite lookup_insert_Some. intros [[_ [= <- <-]]|[_ ?]]; [done|by eapply Hfl].
Qed.
Lemma tainted_leave i s e : tainted s → evolves pk sid lo s.(enf) e → tainted (leave i e s).
Proof.
  intros Ht He. destruct (tainted_enf _ _ Ht He) as [? ?]. destruct Ht as (_ & _ & Hfl & Hn). split_and!; try done.
  intros j fl' st'. cbn [flights leave]. rewrite lookup_delete_Some. intros [_ ?]. by eapply Hfl.
Qed.
Lemma tainted_only s e : tainted s → evolves pk sid lo s.(enf) e → tainted (mkSystem e s.(flights) s.(sent)).
Proof. intros Ht He. destruct (tainted_enf _ _ Ht He) as [? ?]. by destruct Ht as (_ & _ & Hfl & Hn). Qed.
Lemma required_same e : evolves pk sid lo s0.(enf) e → sessionsRequired e = sessionsRequired s0.(enf).
Proof. intros (Hp & Hg & _). unfold sessionsRequired. by rewrite Hp, Hg. Qed.

Lemma sysStep_tainted s ev : undisturbed pk sid lo ttl ev → tainted s → tainted (sysStep s ev).
Proof.
  intros [Hev Ht] Hs. pose proof Hs as (Hevo & (st0 & Hst0 & Hl0 & Hlo0) & Hfl & new & Hsent & Hnew).
  assert (s.(enf).(sessions).(idleTTL) = ttl) as Hi by (by destruct Hevo as (_ & _ & ? & _)).
  destruct ev as [i peer pk' sid' body|i t1 t2|i|i now|i t|i t1 t2|i|pk' sid'|peer pk' sid' body ts|pk' t|p h]; cbn [sysStep timesOf] in *.
  - unfold HttpPolicy.Http.sysStep, arrivals. destruct (Kind _); try done. destruct (flights s !! i); [done|].
    apply (tainted_put i _ _ s (enf s)); [done|done|]. unfold staged, flightOf. destruct (stripToken _ _ _). cbn. intros _ _. split; [|done]. by apply required_same.
  - unfold HttpPolicy.Http.sysStep. destruct (flights s !! i) as [[fl []]|] eqn:Ei; try done.
    apply Forall_cons in Ht as [Ht1 [Ht2 _]%Forall_cons].
    pose proof (admitCall_evolves pk sid lo fl t1 t2 (enf s)) as Ha. rewrite Hi in Ha. specialize (Ha Httl Ht1 Ht2).
    destruct (admitCall fl t1 t2 (enf s)) as [[why|] e]; cbn [snd] in Ha.
    + apply tainted_leave; [done|]. eapply http_evolves_trans; [exact Ha|apply denyTool_evolves].
    + apply tainted_put; [done|done|]. specialize (Hfl _ _ _ Ei). intros Hk Hd. by destruct (Hfl Hk Hd).
  - unfold HttpPolicy.Http.sysStep. destruct (flights s !! i) as [[fl []]|] eqn:Ei; try done.
    apply tainted_put; [done|done|]. specialize (Hfl _ _ _ Ei). intros Hk Hd. destruct (Hfl Hk Hd) as [? _]. split; [done|].
    intros Htr. unfold labelsOf, snapshot. by rewrite Htr, Hk, Hd, Hst0.
  - unfold HttpPolicy.Http.sysStep. destruct (flights s !! i) as [[fl []]|] eqn:Ei; try done.
    pose proof (judge_evolves pk sid lo fl labels now (enf s)) as Hj. destruct (judge fl labels now (enf s)) as [dec e] eqn:Ej. cbn [snd] in Hj.
    pose proof (audited_evolves pk sid lo (record e (fPeer fl) (fKey fl) "tools/call" (Tool (fClass fl)) (RID (fClass fl)) dec) e) as Ha.
    unfold recordCall. destruct (audited _ e) as [w e1]. cbn [snd] in Ha.
    apply tainted_put; [done|by eapply http_evolves_trans|]. specialize (Hfl _ _ _ Ei). intros Hk Hd. destruct (Hfl Hk Hd) as [Htr Hsaw].
    assert (pol (eng (enf s)) = p0) as Hpol by apply Hevo. split; [done|]. split; [done|]. intros Ho. destruct (fTracked fl) eqn:Eft.
    + rewrite <- Hpol. by eapply judge_clears; [exact Ej| |apply Hsaw].
    + apply unlabelled_clears. symmetry in Htr. by apply orb_false_iff in Htr as [_ ?].
  - unfold HttpPolicy.Http.sysStep. destruct (flights s !! i) as [[fl []]|] eqn:Ei; try done. apply Forall_cons in Ht as [[Ht _] _].
    pose proof (settle_evolves pk sid lo fl dec written t (enf s) Ht) as Hg. destruct (settle _ fl dec written t (enf s)) as [[v|] e] eqn:Es; cbn [snd] in Hg.
    + by apply tainted_leave.
    + apply tainted_put; [done|done|]. specialize (Hfl _ _ _ Ei). intros Hk Hd. destruct (Hfl Hk Hd) as (Htr & -> & Hc). split_and!; [done|done|]. apply Hc.
      unfold settle in Es. by destruct (outcome dec).
  - unfold HttpPolicy.Http.sysStep. destruct (flights s !! i) as [[fl []]|] eqn:Ei; try done. apply Forall_cons in Ht as [Ht _].
    pose proof (check_evolves pk sid lo fl t1 t2 (enf s)) as Hg. rewrite Hi in Hg. specialize (Hg Httl Ht).
    destruct (injectCheck fl t1 t2 (enf s)) as [[v|[out inj]] e]; cbn [snd] in Hg; [by apply tainted_leave|].
    apply tainted_put; [done|done|]. specialize (Hfl _ _ _ Ei). intros Hk Hd. by destruct (Hfl Hk Hd).
  - unfold HttpPolicy.Http.sysStep. destruct (flights s !! i) as [[fl []]|] eqn:Ei; try done.
    destruct (tainted_leave i s (remember (fKey fl) injected (enf s)) Hs (remember_evolves _ _ _ _ _ _)) as (? & ? & Hfl' & _).
    split_and!; try done. exists (new ++ [mkSent fl labels dec p out]).
    cbn [sent]. rewrite Hsent, app_assoc. split; [done|]. apply Forall_app. split; [done|]. apply Forall_singleton. cbn. intros Hk Hd.
    by destruct (Hfl _ _ _ Ei Hk Hd) as (_ & -> & ?).
  - unfold HttpPolicy.Http.sysStep. destruct (validSessionID sid'); [|done]. apply tainted_only; [done|]. apply sessions_evolve, drop_grows. congruence.
  - unfold HttpPolicy.Http.sysStep. destruct (Kind _) eqn:Ek; try done; (apply tainted_only; [done|]; apply decideBody_evolves; by rewrite Ek).
  - unfold HttpPolicy.Http.sysStep. apply tainted_only; [done|]. apply sessions_evolve, lookupRedactor_grows.
  - done.
Qed.
End Tainted.

End Interleaved.

(** ** Injected values do not come back *)

Lemma Add_mono v new known : v ∈ known → v ∈ Secrets.Add new known.
Proof.
  unfold Secrets.Add. revert known. induction new as [|w new IH]; intros known Hv; [done|]. cbn [fold_left]. apply IH.
  case_match; [done|]. apply elem_of_app. by left.
Qed.

(** The peer's redactor holds the value, and was in use from [lo] on. *)
Definition knows (v : list Z) (pk : string) (lo : Z) (s : httpSessionStore) : Prop :=
  ∃ r, s.(redactors) !! pk = Some r ∧ v ∈ r.(vals) ∧ Forall (.≠ []) r.(vals) ∧ lo ≤ r.(lastUse).
(** What the operations on the session state keep. *)
Definition keeps (v : list Z) (pk : string) (lo : Z) (s s' : httpSessionStore) : Prop :=
  s'.(idleTTL) = s.(idleTTL) ∧ (knows v pk lo s → knows v pk lo s').
Lemma keeps_refl v pk lo s : keeps v pk lo s s.
Proof. done. Qed.
Lemma keeps_trans v pk lo s1 s2 s3 : keeps v pk lo s1 s2 → keeps v pk lo s2 s3 → keeps v pk lo s1 s3.
Proof. intros [? ?] [? ?]. split; [congruence|auto]. Qed.
Lemma labels_keep v pk lo m s : keeps v pk lo s (setLabels m s).
Proof. done. Qed.
Lemma sweep_keeps v pk lo t s : 0 ≤ s.(idleTTL) → window lo s.(idleTTL) t → keeps v pk lo s (sweepLocked t s).
Proof.
  intros Hi Hw. split; [apply sweep_idleTTL|]. intros (r & Hr & Hv & Hn & Hl). unfold sweepLocked. destruct (_ <? _); [by exists r|].
  exists r. split_and!; try done. cbn [redactors]. apply map_lookup_filter_Some. split; [done|]. by eapply window_alive.
Qed.
Lemma ensure_keeps v pk lo pk' sid t1 t2 s : 0 ≤ s.(idleTTL) → window lo s.(idleTTL) t1 → keeps v pk lo s (ensure pk' sid t1 t2 s).2.
Proof.
  intros Hi Hw. unfold ensure. pose proof (sweep_keeps v pk lo t1 s Hi Hw) as Hk.
  destruct (default ∅ _ !! sid); [|repeat case_match]; cbn [snd]; try done; (eapply keeps_trans; [exact Hk|apply labels_keep]).
Qed.
Lemma add_keeps v pk lo pk' sid ls t s : keeps v pk lo s (addLabels pk' sid ls t s).
Proof. unfold addLabels. repeat case_match; apply labels_keep || done. Qed.
Lemma drop_keeps v pk lo pk' sid s : keeps v pk lo s (drop pk' sid s).
Proof. unfold drop. case_match; [apply labels_keep|done]. Qed.
Lemma touch_keeps v pk lo pk' t s :
  lo ≤ t → keeps v pk lo s (setRedactors (<[pk' := mkRedactor (match s.(redactors) !! pk' with Some r => r.(vals) | None => [] end) t]> s.(redactors)) s).
Proof.
  intros Ht. split; [done|]. intros (r & Hr & Hv & Hn & Hl). unfold knows. cbn [redactors setRedactors]. destruct (decide (pk = pk')) as [<-|Hne].
  - rewrite lookup_insert_eq, Hr. by eexists.
  - rewrite lookup_insert_ne by done. by exists r.
Qed.
Lemma redactorFor_keeps v pk lo pk' t1 t2 s : 0 ≤ s.(idleTTL) → window lo s.(idleTTL) t1 → lo ≤ t2 → keeps v pk lo s (redactorFor pk' t1 t2 s).2.
Proof. intros. eapply keeps_trans; [by apply (sweep_keeps v pk lo t1)|]. by apply touch_keeps. Qed.
Lemma lookupRedactor_keeps v pk lo pk' t s : lo ≤ t → keeps v pk lo s (lookupRedactor pk' t s).2.
Proof.
  intros Ht. unfold lookupRedactor. pose proof (touch_keeps v pk lo pk' t s Ht) as Hk. by destruct (redactors s !! pk').
Qed.

Section Scrubbed.
Context `{Float64} {A : Type} `{RequestApprovalStore A} `{Ed25519} `{SHA256} `{Cap.CapCodec}.
Context {N : Type} `{NonceStore N} {L : Type} `{AuditSink L}.
Context (LoadLocation : string → option Location) (ParseDuration : string → option Z) (canonicalArgsHash : string → string).
Notation httpEnforcer := (httpEnforcer (A := A) (N := N) (L := L)).
Notation system := (system (A := A) (N := N) (L := L)).
Notation sysStep := (sysStep LoadLocation ParseDuration canonicalArgsHash).
Notation sysRun := (sysRun LoadLocation ParseDuration canonicalArgsHash).

Lemma remember_keeps v pk lo pk' inj (e : httpEnforcer) : keeps v pk lo e.(sessions) (remember pk' inj e).(sessions).
Proof.
  unfold remember. destruct inj as [|x inj]; [done|]. destruct (redactors (sessions e) !! pk') as [r0|] eqn:Hr0; [|done].
  split; [done|]. intros (r & Hr & Hv & Hn & Hl). unfold knows. cbn [sessions set_sessions redactors setRedactors].
  destruct (decide (pk = pk')) as [<-|Hne].
  - rewrite lookup_insert_eq. eexists. split; [done|]. simplify_eq. cbn [vals lastUse]. split_and!; [by apply Add_mono|by apply Secrets.Add_nonempty|done].
  - rewrite lookup_insert_ne by done. by exists r.
Qed.
(** The value is known from the step that forwards it on. *)
Lemma remember_knows v pk lo inj x r (e : httpEnforcer) : x ∈ inj → v = codes x → (Secrets.redactMinLen ≤ length v)%nat →
  e.(sessions).(redactors) !! pk = Some r → Forall (.≠ []) r.(vals) → lo ≤ r.(lastUse) → knows v pk lo (remember pk inj e).(sessions).
Proof.
  intros Hx -> Hl Hr Hn Hu. unfold remember. destruct inj as [|y inj]; [by apply elem_of_nil in Hx|]. rewrite Hr. unfold knows. cbn [sessions set_sessions redactors setRedactors].
  rewrite lookup_insert_eq. eexists. split; [done|]. cbn [vals lastUse]. split_and!; [|by apply Secrets.Add_nonempty|done].
  apply Secrets.Add_keeps; [|done]. apply list_elem_of_fmap. by exists x.
Qed.

Lemma audited_sessions r (e : httpEnforcer) : (audited r e).2.(sessions) = e.(sessions).
Proof. unfold audited. by destruct (auditWrite _ r). Qed.
Lemma denyTool_sessions fl why (e : httpEnforcer) : (denyTool fl why e).2.(sessions) = e.(sessions).
Proof.
  unfold denyTool. pose proof (audited_sessions (record e (fPeer fl) (fKey fl) "tools/call" (Tool (fClass fl)) (RID (fClass fl)) (refusalDecision why)) e). by destruct (audited _ e).
Qed.
Lemma judge_sessions fl ls now (e : httpEnforcer) : (judge LoadLocation ParseDuration canonicalArgsHash fl ls now e).2.(sessions) = e.(sessions).
Proof. unfold judge. destruct (DecideToolCallBound _ _ _ _ _ _ _ _ _ _ _). by repeat (case_match; cbn [snd]). Qed.
Lemma decideBody_sessions peer pk sid body ts (e : httpEnforcer) : (ClassifyRPC body).(Kind) ≠ RPCToolCall →
  (decideBody LoadLocation ParseDuration canonicalArgsHash peer pk sid body ts e).2.(sessions) = e.(sessions).
Proof.
  intros Hk. unfold decideBody. destruct (stripToken _ _ _) as [token line].
  assert (∀ r, ∃ w e1, audited r e = (w, e1) ∧ sessions e1 = sessions e) as Ha.
  { intros r. pose proof (audited_sessions r e). destruct (audited r e) as [w e1]. eauto. }
  destruct (Kind _); try done.
  - match goal with |- context [audited ?r e] => destruct (Ha r) as (w & e1 & -> & ?) end. done.
  - match goal with |- context [audited ?r e] => destruct (Ha r) as (w & e1 & -> & ?) end. done.
  - unfold handleNotification. case_match; [|done]. cbn [snd]. apply audited_sessions.
  - unfold handleMethod. case_match; [done|]. match goal with |- context [audited ?r e] => destruct (Ha r) as (w & e1 & -> & ?) end. by repeat case_match.
Qed.
Lemma check_keeps v pk lo fl t1 t2 (e : httpEnforcer) : 0 ≤ e.(sessions).(idleTTL) → window lo e.(sessions).(idleTTL) t1 → lo ≤ t2 →
  keeps v pk lo e.(sessions) (injectCheck fl t1 t2 e).2.(sessions).
Proof.
  intros Hi Hw Ht. unfold injectCheck. pose proof (redactorFor_keeps v pk lo (fKey fl) t1 t2 (sessions e) Hi Hw Ht) as Hg.
  destruct (secrets e); [|done]. destruct (s _ _ _ _) as [[out inj]|]; [|done]. destruct inj as [|x inj]; [done|].
  assert (∀ why (e1 : httpEnforcer), sessions (let '(v, e2) := denyTool fl why e1 in (@inl verdict (string * list string) v, e2)).2 = sessions e1) as Hd.
  { intros why e1. pose proof (denyTool_sessions fl why e1). by destruct (denyTool fl why e1). }
  destruct (_ =? _)%string; [by rewrite Hd|]. destruct (redactorFor _ _ _ _) as [red s1]. destruct (_ <? _)%nat; [by rewrite Hd|done].
Qed.

Lemma admit_keeps v pk lo fl t1 t2 (e : httpEnforcer) : 0 ≤ e.(sessions).(idleTTL) → window lo e.(sessions).(idleTTL) t1 →
  keeps v pk lo e.(sessions) (admitCall fl t1 t2 e).2.(sessions).
Proof.
  intros Hi Hw. unfold admitCall. repeat (case_match; cbn [snd]; [done|]).
  pose proof (ensure_keeps v pk lo (fKey fl) (fSid fl) t1 t2 (sessions e) Hi Hw) as Hg. by destruct (ensure _ _ _ _ _).
Qed.

Lemma sysStep_keeps v pk lo s ev : 0 ≤ s.(enf).(sessions).(idleTTL) → Forall (window lo s.(enf).(sessions).(idleTTL)) (timesOf ev) →
  keeps v pk lo s.(enf).(sessions) (sysStep s ev).(enf).(sessions).
Proof.
  intros Hi Ht. destruct ev as [i peer pk' sid body|i t1 t2|i|i now|i t|i t1 t2|i|pk' sid|peer pk' sid body ts|pk' t|p h]; cbn [timesOf] in Ht; unfold HttpPolicy.Http.sysStep.
  - unfold arrivals. by repeat case_match.
  - destruct (flights s !! i) as [[fl []]|]; try done. apply Forall_cons in Ht as [Ht1 _].
    pose proof (admit_keeps v pk lo fl t1 t2 (enf s) Hi Ht1) as Ha.
    destruct (admitCall fl t1 t2 (enf s)) as [[why|] e]; cbn [leave stay enf snd] in *; by rewrite ?denyTool_sessions.
  - by destruct (flights s !! i) as [[fl []]|].
  - destruct (flights s !! i) as [[fl []]|]; try done. pose proof (judge_sessions fl labels now (enf s)) as Hj. destruct (judge _ _ _ fl labels now (enf s)) as [dec e].
    unfold recordCall. pose proof (audited_sessions (record e (fPeer fl) (fKey fl) "tools/call" (Tool (fClass fl)) (RID (fClass fl)) dec) e) as Ha. destruct (audited _ e) as [w e1].
    cbn [stay enf snd] in *. by rewrite Ha, Hj.
  - destruct (flights s !! i) as [[fl []]|]; try done. unfold settle, publish. destruct (outcome dec); cbn [leave enf]; try done.
    repeat case_match; simplify_eq; cbn [leave stay enf sessions set_sessions]; try done. apply add_keeps.
  - destruct (flights s !! i) as [[fl []]|]; try done. apply Forall_cons in Ht as [Ht1 [[Ht2 _] _]%Forall_cons].
    pose proof (check_keeps v pk lo fl t1 t2 (enf s) Hi Ht1 Ht2) as Hc. by destruct (injectCheck fl t1 t2 (enf s)) as [[?|[? ?]] e].
  - destruct (flights s !! i) as [[fl []]|]; try done. apply remember_keeps.
  - destruct (validSessionID sid); [apply drop_keeps|done].
  - destruct (Kind _) eqn:Ek; try done; cbn [enf]; by rewrite decideBody_sessions by by rewrite Ek.
  - apply Forall_cons in Ht as [[Ht _] _]. by apply lookupRedactor_keeps.
  - done.
Qed.

Lemma sysRun_knows v pk lo s evs : 0 ≤ s.(enf).(sessions).(idleTTL) → knows v pk lo s.(enf).(sessions) →
  Forall (λ ev, Forall (window lo s.(enf).(sessions).(idleTTL)) (timesOf ev)) evs → knows v pk lo (sysRun s evs).(enf).(sessions).
Proof.
  intros Hi Hk He. unfold HttpPolicy.Http.sysRun. revert s Hi Hk He. induction evs as [|ev evs IH]; intros s Hi Hk He; [done|]. apply Forall_cons in He as [Hev He].
  cbn [foldl]. destruct (sysStep_keeps v pk lo s ev Hi Hev) as [Hid Hkn]. apply IH; [by rewrite Hid|by apply Hkn|by rewrite Hid].
Qed.
End Scrubbed.

Lemma sseRead_clean v vs reads buf out ok : Secrets.scrubbable v → v ∈ vs → Forall (.≠ []) vs →
  Forall (λ rd, v ∈ rd.1 ∧ Forall (.≠ []) rd.1) reads → sseRead vs reads buf = (out, ok) → ¬ Secrets.occurs v out.
Proof.
  intros Hv Hin Hne Hr. assert (v ≠ []) as Hnil by (destruct Hv as (Hl & _); unfold Secrets.redactMinLen in Hl; destruct v; [cbn in Hl; lia|done]).
  revert vs buf out ok Hin Hne. induction Hr as [|[ws chunk] reads [Hw Hwn] Hr IH]; intros vs buf out ok Hin Hne; cbn.
  { intros [= <- _]. unfold Secrets.pumpEOF. destruct buf; [by apply Secrets.occurs_nil|by apply Secrets.Redact_scrubs]. }
  destruct (Secrets.pumpRead ws chunk buf) as [o b] eqn:Hp. case_match; [intros [= <- _]; by apply Secrets.occurs_nil|].
  destruct (sseRead ws reads b) as [more k] eqn:Hs. intros [= <- _]. apply (Secrets.drainLines_clean v) in Hp as [Ho Hn]; [|done..].
  apply Secrets.closed_clean; [done|done|done|]. exact (IH _ _ _ _ Hw Hwn Hs).
Qed.

Section Echo.
Context `{Float64} {A : Type} `{RequestApprovalStore A} `{Ed25519} `{SHA256} `{Cap.CapCodec}.
Context {N : Type} `{NonceStore N} {L : Type} `{AuditSink L}.
Context (LoadLocation : string → option Location) (ParseDuration : string → option Z) (canonicalArgsHash : string → string).
Notation system := (system (A := A) (N := N) (L := L)).
Notation sysRun := (sysRun LoadLocation ParseDuration canonicalArgsHash).

(** What a response is scrubbed with: the redactor's values when its headers arrive, later or
    more values at its reads. *)
Definition scrubbedWith (v : list Z) (final : list (list Z)) (r : response) : Prop :=
  Forall (λ rd, v ∈ rd.1 ∧ Forall (.≠ []) rd.1) r.(rReads) ∧ v ∈ final ∧ Forall (.≠ []) final.

End Echo.

(** ** Bounds *)

Notation sessmap := (gmap string (gmap string labelState)).
Lemma total_insert i sess (m : sessmap) : m !! i = None → total (<[i := sess]> m) = (size sess + total m)%nat.
Proof. intros Hi. unfold total. apply (map_fold_insert_L (λ _ (sess : gmap string labelState) n, (size sess + n)%nat)); [intros; lia|done]. Qed.
Lemma total_delete i sess (m : sessmap) : m !! i = Some sess → total m = (size sess + total (delete i m))%nat.
Proof. intros Hi. rewrite <- (insert_delete_id m i sess) at 1 by done. apply total_insert, lookup_delete_eq. Qed.
Lemma total_replace i sess (m : sessmap) : (total (<[i := sess]> m) + default 0%nat (size <$> m !! i) = size sess + total m)%nat.
Proof.
  destruct (m !! i) as [old|] eqn:Hi; cbn.
  - rewrite <- (insert_delete_eq m i sess), total_insert by apply lookup_delete_eq. rewrite (total_delete i old m) by done. lia.
  - rewrite total_insert by done. lia.
Qed.
Lemma total_omap f (m : sessmap) : (∀ a b : gmap string labelState, f a = Some b → (size b ≤ size a)%nat) → (total (omap f m) ≤ total m)%nat.
Proof.
  intros Hf. induction m as [|i a m Hi IH] using map_ind; [by rewrite omap_empty|]. rewrite omap_insert.
  assert (omap f m !! i = None) as Hn by (by rewrite lookup_omap, Hi). destruct (f a) as [b|] eqn:Ef.
  - rewrite !total_insert by done. pose proof (Hf _ _ Ef). lia.
  - rewrite delete_id by done. rewrite total_insert by done. lia.
Qed.

(** Per peer and in total the label state is within its caps, and holds no empty session maps. *)
Definition bounded (s : httpSessionStore) : Prop :=
  (∀ pk sess, s.(slabels) !! pk = Some sess → (0 < size sess ≤ s.(perPeer))%nat) ∧ (total s.(slabels) ≤ s.(global))%nat.

Lemma sweep_bounded t s : bounded s → bounded (sweepLocked t s).
Proof.
  intros [Hp Hg]. unfold sweepLocked. destruct (_ <? _); [done|].
  assert (∀ sess : gmap string labelState, (size (filter (λ x : string * labelState, alive (idleTTL s) t (lastSeen x.2) = true) sess) ≤ size sess)%nat) as Hf.
  { intros sess. rewrite <- !size_dom. apply subseteq_size, dom_filter_subseteq. }
  split; cbn [slabels perPeer global].
  - intros pk sess. rewrite lookup_omap. destruct (slabels s !! pk) as [s0|] eqn:E; [|done]. cbn. case_bool_decide; [done|]. intros [= <-].
    pose proof (Hf s0). pose proof (Hp _ _ E). lia.
  - etransitivity; [apply total_omap|done]. intros a b. cbn. case_bool_decide; [done|]. intros [= <-]. apply Hf.
Qed.
Lemma touch_bounded pk sid st sess s : s.(slabels) !! pk = Some sess → is_Some (sess !! sid) → bounded s →
  bounded (setLabels (<[pk := <[sid := st]> sess]> s.(slabels)) s).
Proof.
  intros Hs Hi [Hp Hg]. assert (size (<[sid := st]> sess) = size sess) as Hsz.
  { rewrite map_size_insert. destruct Hi as [x ->]. done. }
  split; cbn [slabels setLabels perPeer global].
  - intros pk' sess'. rewrite lookup_insert_Some. intros [[<- <-]|[_ ?]]; [rewrite Hsz|]; by eapply Hp.
  - pose proof (total_replace pk (<[sid := st]> sess) (slabels s)) as Ht. rewrite Hs in Ht. cbn in Ht. rewrite Hsz in Ht. lia.
Qed.
Lemma ensure_bounded pk sid t1 t2 s : bounded s → bounded (ensure pk sid t1 t2 s).2.
Proof.
  intros Hb. unfold ensure. apply (sweep_bounded t1) in Hb. set (s1 := sweepLocked t1 s) in *.
  destruct (slabels s1 !! pk) as [sess|] eqn:Es; cbn [default from_option id].
  - destruct (sess !! sid) as [st|] eqn:E; [cbn [snd]; by apply touch_bounded|]. pose proof Hb as [Hp Hg].
    destruct (Nat.leb_spec (perPeer s1) (size sess)); [done|]. destruct (Nat.leb_spec (global s1) (total (slabels s1))); [done|]. cbn [snd].
    assert (size (<[sid := mkLabels ∅ t2]> sess) = S (size sess)) as Hsz by (by rewrite map_size_insert_None).
    split; cbn [slabels setLabels perPeer Http.global].
    + intros pk' sess'. rewrite lookup_insert_Some. intros [[<- <-]|[_ ?]]; [lia|by eapply Hp].
    + pose proof (total_replace pk (<[sid := mkLabels ∅ t2]> sess) (slabels s1)) as Ht. rewrite Es in Ht. cbn in Ht. lia.
  - rewrite lookup_empty. pose proof Hb as [Hp Hg].
    destruct (Nat.leb_spec (perPeer s1) (size (∅ : gmap string labelState))); [done|]. destruct (Nat.leb_spec (global s1) (total (slabels s1))); [done|]. cbn [snd].
    assert (size (<[sid := mkLabels ∅ t2]> (∅ : gmap string labelState)) = 1%nat) as Hsz by (by rewrite map_size_insert_None).
    rewrite map_size_empty in *. split; cbn [slabels setLabels perPeer Http.global].
    + intros pk' sess'. rewrite lookup_insert_Some. intros [[<- <-]|[_ ?]]; [lia|by eapply Hp].
    + rewrite total_insert by done. lia.
Qed.
Lemma add_bounded pk sid ls t s : bounded s → bounded (addLabels pk sid ls t s).
Proof.
  intros Hb. unfold addLabels. destruct ls; [done|]. destruct (slabels s !! pk) as [sess|] eqn:Es; [|done].
  destruct (sess !! sid) as [st|] eqn:E; [|done]. by apply touch_bounded.
Qed.
Lemma drop_bounded pk sid s : bounded s → bounded (drop pk sid s).
Proof.
  intros [Hp Hg]. unfold drop. destruct (slabels s !! pk) as [sess|] eqn:Es; [|done].
  assert (size (delete sid sess) ≤ size sess)%nat as Hsz by (rewrite <- !size_dom; apply subseteq_size; rewrite dom_delete_L; set_solver).
  pose proof (Hp _ _ Es). split; cbn [slabels setLabels perPeer global]; case_bool_decide.
  - intros pk' sess'. rewrite lookup_delete_Some. intros [_ ?]. by eapply Hp.
  - intros pk' sess'. rewrite lookup_insert_Some. intros [[<- <-]|[_ ?]]; [lia|by eapply Hp].
  - rewrite (total_delete pk sess (slabels s)) in Hg by done. lia.
  - pose proof (total_replace pk (delete sid sess) (slabels s)) as Ht. rewrite Es in Ht. cbn in Ht. lia.
Qed.

Section Bounded.
Context `{Float64} {A : Type} `{RequestApprovalStore A} `{Ed25519} `{SHA256} `{Cap.CapCodec}.
Context {N : Type} `{NonceStore N} {L : Type} `{AuditSink L}.
Context (LoadLocation : string → option Location) (ParseDuration : string → option Z) (canonicalArgsHash : string → string).
Notation httpEnforcer := (httpEnforcer (A := A) (N := N) (L := L)).
Notation system := (system (A := A) (N := N) (L := L)).
Notation sysRun := (sysRun LoadLocation ParseDuration canonicalArgsHash).

Lemma redactors_bounded m s : bounded s → bounded (setRedactors m s).
Proof. done. Qed.
Lemma check_bounded fl t1 t2 (e : httpEnforcer) : bounded e.(sessions) → bounded (injectCheck fl t1 t2 e).2.(sessions).
Proof.
  intros Hb. unfold injectCheck. assert (bounded (redactorFor (fKey fl) t1 t2 (sessions e)).2) as Hr by (by apply redactors_bounded, sweep_bounded).
  destruct (secrets e); [|done]. destruct (s _ _ _ _) as [[out inj]|]; [|done]. destruct inj as [|x inj]; [done|].
  assert (∀ why (e1 : httpEnforcer), sessions (let '(v, e2) := denyTool fl why e1 in (@inl verdict (string * list string) v, e2)).2 = sessions e1) as Hd.
  { intros why e1. pose proof (denyTool_sessions fl why e1). by destruct (denyTool fl why e1). }
  destruct (_ =? _)%string; [by rewrite Hd|]. destruct (redactorFor _ _ _ _) as [red s1]. destruct (_ <? _)%nat; [by rewrite Hd|done].
Qed.

(** The session state is bounded. Whatever requests come, interleave, are refused or tear
    sessions down, no peer ever holds more label sets than its cap and all peers together no
    more than the gateway's; no labels are evicted for it (see [tainted_session_stays_blocked]). *)
Theorem session_state_is_bounded s evs : bounded s.(enf).(sessions) → bounded (sysRun s evs).(enf).(sessions).
Proof.
  unfold HttpPolicy.Http.sysRun. revert s. induction evs as [|ev evs IH]; intros s Hb; [done|]. cbn [foldl]. apply IH. clear IH.
  destruct ev as [i peer pk' sid body|i t1 t2|i|i now|i t|i t1 t2|i|pk' sid|peer pk' sid body ts|pk' t|p h]; unfold HttpPolicy.Http.sysStep.
  - unfold arrivals. by repeat case_match.
  - destruct (flights s !! i) as [[fl []]|]; try done.
    assert (bounded (admitCall fl t1 t2 (enf s)).2.(sessions)) as Ha.
    { unfold admitCall. repeat (case_match; cbn [snd]; [done|]). pose proof (ensure_bounded (fKey fl) (fSid fl) t1 t2 (sessions (enf s)) Hb). by destruct (ensure _ _ _ _ _). }
    destruct (admitCall fl t1 t2 (enf s)) as [[why|] e]; cbn [leave stay enf snd] in *; by rewrite ?denyTool_sessions.
  - by destruct (flights s !! i) as [[fl []]|].
  - destruct (flights s !! i) as [[fl []]|]; try done. pose proof (judge_sessions LoadLocation ParseDuration canonicalArgsHash fl labels now (enf s)) as Hj. destruct (judge _ _ _ fl labels now (enf s)) as [dec e].
    unfold recordCall. pose proof (audited_sessions (record e (fPeer fl) (fKey fl) "tools/call" (Tool (fClass fl)) (RID (fClass fl)) dec) e) as Ha. destruct (audited _ e) as [w e1].
    cbn [stay enf snd] in *. by rewrite Ha, Hj.
  - destruct (flights s !! i) as [[fl []]|]; try done. unfold settle, publish. destruct (outcome dec); cbn [leave enf]; try done.
    repeat case_match; simplify_eq; cbn [leave stay enf sessions set_sessions]; try done. by apply add_bounded.
  - destruct (flights s !! i) as [[fl []]|]; try done. pose proof (check_bounded fl t1 t2 (enf s) Hb) as Hc. by destruct (injectCheck fl t1 t2 (enf s)) as [[?|[? ?]] e].
  - destruct (flights s !! i) as [[fl []]|]; try done. cbn [enf]. unfold remember. by repeat case_match.
  - destruct (validSessionID sid); [by apply drop_bounded|done].
  - destruct (Kind _) eqn:Ek; try done; cbn [enf]; by rewrite decideBody_sessions by by rewrite Ek.
  - unfold lookupRedactor. by case_match.
  - done.
Qed.
End Bounded.
End HttpThm.

Module HttpRuns.
Import Http EngineRuns CapRuns FilterRuns.
Notation enforcer := (httpEnforcer (A := list ApprovalRequest) (N := gmap string Z) (L := list AuditRecord)).
Notation sys := (system (A := list ApprovalRequest) (N := gmap string Z) (L := list AuditRecord)).

Definition callOf (tool : string) : string :=
  dq ("{'jsonrpc':'2.0','id':1,'method':'tools/call','params':{'name':'" +:+ tool +:+ "','arguments':{}}}").
(** A broker that gives [login] a password. *)
Definition resolver : SecretResolver := λ _ tool line _, if (tool =? "login")%string then Some (line +:+ "hunter22", ["hunter22"]) else Some (line, []).
Definition loginRule := mkRule [] ["login"] [] true None None false false false [] [].
Definition openPolicy := mkPolicy true [].
Definition noted := mkRule [] [] ["notifications/progress"] true None None false false false [] [].
(** The state of [newHTTPSessionStore], with small caps. *)
Definition smallStore : httpSessionStore := mkSessions 4 8 httpSessionIdleTTL 4 newHTTPSessionStore.(lastSweep) ∅ ∅.
Definition enforcerOf (p : Policy) : enforcer :=
  mkEnforcer (NewEngine hashOf p None) [] (Some []) "db" None false (Some resolver) false smallStore.
Definition flow : enforcer := enforcerOf (mkPolicy false [fetchRule; sendRule; loginRule]).
Definition ts (t : Z) : times := mkTimes t t t t t t.
Definition post (sid body : string) (t : Z) (e : enforcer) := decide UTC oneSecond argsHash "peer.mesh" "k1" (mkRequest "POST" sid (Body body)) (ts t) e.
Definition delete_ (sid : string) (e : enforcer) := decide UTC oneSecond argsHash "peer.mesh" "k1" (mkRequest "DELETE" sid NoBody) (ts 0) e.
Definition call (tool : string) := post "s1" (callOf tool).
Definition runOn (e : enforcer) (evs : list event) : sys := sysRun UTC oneSecond argsHash (mkSystem e ∅ []) evs.
Definition callEvents (i : nat) (tool : string) (t : Z) : list event :=
  [EvArrive i "peer.mesh" "k1" "s1" (callOf tool); EvEnter i t t; EvSee i; EvDecide i t; EvSettle i t; EvCheck i t t; EvInject i].
Definition forwards (s : sys) : list string := (λ c, c.(sFlight).(fClass).(Tool)) <$> s.(sent).
Definition notification : string := dq "{'jsonrpc':'2.0','method':'notifications/progress','params':{}}".
(** The filter that stands where [enforcerOf p] stands. *)
Definition stdio (p : Policy) : Filter.Filter (A := list ApprovalRequest) (N := gmap string Z) (L := list AuditRecord) :=
  mkFilter (NewEngine hashOf p None) [] (Some resolver) None false None false [] (mkCaller "db" "peer.mesh" "k1" "") ∅ "" true [] [] (Some []) [].
End HttpRuns.
Import EngineRuns CapRuns FilterRuns HttpRuns.

(** A client de-taints its own live session: the teardown request drops the labels before the
    backend has answered it, and a backend that refuses the teardown keeps the session; the
    call that was blocked then goes through. *)
Theorem teardown_untaints_a_live_session :
  let e1 := (HttpRuns.call "fetch" 1 flow).2 in
  (HttpRuns.call "send" 2 e1).1 = Http.Refused (Http.Answered "1" (DeniedTool "send" BlockedByTaint 0)) ∧
  (delete_ "s1" e1).1 = Http.Proceed None ∧
  (HttpRuns.call "send" 3 (delete_ "s1" e1).2).1 = Http.Proceed (Some (callOf "send")).
Proof. vm_compute. split_and!; reflexivity. Qed.

(** The same between the steps of a call: a teardown after the decision makes the labels of
    the call that is then forwarded disappear. *)
Theorem teardown_in_flight_loses_labels :
  let s := runOn flow (take 4 (callEvents 0 "fetch" 1) ++ [Http.EvDelete "k1" "s1"] ++ drop 4 (callEvents 0 "fetch" 1) ++ callEvents 1 "send" 2) in
  forwards s = ["fetch"; "send"] ∧ forwards (runOn flow (callEvents 0 "fetch" 1 ++ callEvents 1 "send" 2)) = ["fetch"].
Proof. vm_compute. split; reflexivity. Qed.

(** A policy swapped in while a call is under way is enforced without its label rules: whether
    the session is tracked was read from the old policy. *)
Theorem swap_in_flight_skips_labels :
  let p := Http.EvSwap (mkPolicy false [fetchRule; sendRule]) "h2" in
  forwards (runOn (enforcerOf openPolicy) (take 1 (callEvents 0 "fetch" 1) ++ [p] ++ drop 1 (callEvents 0 "fetch" 1) ++ callEvents 1 "send" 2)) = ["fetch"; "send"] ∧
  forwards (runOn (enforcerOf openPolicy) ([p] ++ callEvents 0 "fetch" 1 ++ callEvents 1 "send" 2)) = ["fetch"].
Proof. vm_compute. split; reflexivity. Qed.

(** A stream opened before the first injection is never scrubbed: the redactor is looked up
    once, when the headers arrive, so a secret injected later comes back on it in the clear. *)
Theorem early_stream_is_not_scrubbed :
  let before := Http.lookupRedactor "k1" 1 flow.(Http.sessions) in
  let after := Http.lookupRedactor "k1" 3 (HttpRuns.call "login" 2 flow).2.(Http.sessions) in
  let line := codes ("data: hunter22" +:+ nl) in
  let stream := Http.mkResponse "" "text/event-stream" [([codes "hunter22"], line)] in
  Http.modifyResponse before.1 [codes "hunter22"] stream = Http.Untouched line ∧
  Http.modifyResponse after.1 [codes "hunter22"] stream = Http.Rewritten (codes ("data: [redacted-secret]" +:+ nl)).
Proof. vm_compute. split; reflexivity. Qed.

(** A notification that a method rule allows is recorded by the filter and not by the enforcer;
    both forward it. *)
Theorem allowed_notification_is_not_recorded :
  let p := mkPolicy false [noted] in
  let h := post "s1" notification 1 (enforcerOf p) in let f := handleLine UTC oneSecond argsHash notification 1 (stdio p) in
  h.1 = Http.Proceed (Some notification) ∧ h.2.(Http.audit) = [] ∧
  f.2.(toBackend) = [notification] ∧ length f.2.(Filter.audit) = 1%nat.
Proof. vm_compute. split_and!; reflexivity. Qed.

(** ** Witnesses *)

Definition flowRules : Policy := mkPolicy false [fetchRule; sendRule; loginRule].
Lemma stdio_agrees : HttpThm.agrees "peer.mesh" "k1" "s1" flow (stdio flowRules).
Proof. unfold HttpThm.agrees. split_and!; reflexivity. Qed.


Definition taintedSys : sys := runOn flow (callEvents 0 "fetch" 1).

Definition loginSys : sys := runOn flow (take 6 (callEvents 0 "login" 1)).

Lemma session_state_is_bounded_witness : HttpThm.bounded (runOn flow (callEvents 0 "fetch" 1)).(Http.enf).(Http.sessions).
Proof.
  apply (HttpThm.session_state_is_bounded UTC oneSecond argsHash (Http.mkSystem flow ∅ []) (callEvents 0 "fetch" 1)).
  split; [intros pk sess Hs; cbn in Hs; by rewrite lookup_empty in Hs|vm_compute; lia].
Defined.
