(* ===== verification/Dpop.v ===== *)
(** * Dpop: proofs of possession

    [policy/dpopsign.go]: the signer and the verifier of DPoP proofs (RFC 9449). A proof is a
    JWT with its public key in the header; the verifier runs its checks in order and records
    the proof's identifier in a store that is bounded by the freshness window. ECDSA on P-256,
    [net/url] and the table of printable runes are parameters. The theorems are in
    [DpopThm]. *)
From stdpp Require Import base list strings gmap.
From Stdlib Require Import ZArith Lia Ascii.
From Stdlib Require Import Strings.Byte.
From S2P Require Import Prelude GoStd Json JsonCodec Base64 Frame Crypto Policy Engine.
Open Scope Z_scope.
Open Scope mesh_scope.

(** ** What the verifier relies on *)

(** ECDSA over P-256, by the coordinates of the public point; a digest is what is signed. *)
Class ES256 := {
  onCurve : Z → Z → bool;
  ecPublic : Z → Z * Z;
  ecSign : Z → list byte → list byte → Z * Z;
  ecVerify : Z * Z → list byte → Z * Z → bool
}.
Class ES256Laws `{ES256} : Prop := {
  ec_public_onCurve d : onCurve (ecPublic d).1 (ecPublic d).2 = true;
  ec_public_range d : 0 ≤ (ecPublic d).1 < 2 ^ 256 ∧ 0 ≤ (ecPublic d).2 < 2 ^ 256;
  ec_sign_range d h rnd : 0 ≤ (ecSign d h rnd).1 < 2 ^ 256 ∧ 0 ≤ (ecSign d h rnd).2 < 2 ^ 256;
  ec_sign_verifies d h rnd : ecVerify (ecPublic d) h (ecSign d h rnd) = true
}.

(** [net/url]: parsing, and the part of [URL.String] before the query. *)
Record URL := mkURL { urlHead : string; ForceQuery : bool; RawQuery : string; Fragment : string }.
Class NetURL := {
  urlParse : string → option URL;
  escapedFragment : URL → string
}.
Definition urlString `{NetURL} (u : URL) : string :=
  u.(urlHead) +:+ (if u.(ForceQuery) || negb (u.(RawQuery) =? "")%string then "?" +:+ u.(RawQuery) else "")
    +:+ (if (u.(Fragment) =? "")%string then "" else "#" +:+ escapedFragment u).

(** [unicode.IsPrint] beyond ASCII. *)
Class Printable := { isPrint : Z → bool }.

Module Dpop.

(** ** Integers and bytes *)

Definition zbytes (l : list byte) : list Z := Z_of_byte <$> l.
(** [big.Int.SetBytes]; [leftPad32 (x.Bytes())] for [x] below [2^256]. *)
Definition SetBytes (l : list Z) : Z := fold_left (λ acc b, acc * 256 + b) l 0.
Fixpoint bigBytes (n : nat) (z : Z) : list Z :=
  match n with O => [] | S n => bigBytes n (z / 256) ++ [z mod 256] end.
Definition leftPad32 (z : Z) : list Z := bigBytes 32 z.
Definition b64url (b : list Z) : string := EncodeToString RawURLEncoding b.

(** [strings.Split] for a one-byte separator. *)
Fixpoint split (sep : ascii) (s : string) : list string :=
  match s with
  | "" => [""]
  | String c s =>
      if Ascii.eqb c sep then "" :: split sep s
      else match split sep s with x :: r => String c x :: r | [] => [] end
  end.

(** ** [%q] (strconv.Quote) *)

Fixpoint hexDigits (n : nat) (z : Z) : list Z :=
  match n with O => [] | S n => hexDigits n (z / 16) ++ [hexLower (z mod 16)] end.
Definition escapedRune `{Printable} (r : Z) (text : list Z) : list Z :=
  if (r =? 34) || (r =? 92) then [92; r]
  else if (if r <? 128 then (32 <=? r) && (r <? 127) else isPrint r) then text
  else if r =? 7 then [92; 97] else if r =? 8 then [92; 98] else if r =? 12 then [92; 102]
  else if r =? 10 then [92; 110] else if r =? 13 then [92; 114] else if r =? 9 then [92; 116]
  else if r =? 11 then [92; 118]
  else if (r <? 32) || (r =? 127) then 92 :: 120 :: hexDigits 2 r
  else if r <? 65536 then 92 :: 117 :: hexDigits 4 r
  else 92 :: 85 :: hexDigits 8 r.
Fixpoint quotedBody `{Printable} (fuel : nat) (l : list Z) : list Z :=
  match fuel, l with
  | S fuel, c :: _ =>
      let '(r, w) := decodeRune l in
      (if (r =? runeError) && (w <=? 1)%nat then 92 :: 120 :: hexDigits 2 c else escapedRune r (take w l))
        ++ quotedBody fuel (drop w l)
  | _, _ => []
  end.
Definition goQuote `{Printable} (s : string) : string :=
  of_codes (34 :: quotedBody (String.length s) (codes s) ++ [34]).

(** ** Keys *)

Definition dpopKeyType : string := "dpop-es256".
Definition dpopTyp : string := "dpop+jwt".
Definition dpopAlg : string := "ES256".

Record DPoPSigner := mkSigner { privD : Z; pubX : Z; pubY : Z }.
Definition keyFileFields (kt d x y : string) : list field :=
  [mkField "key_type" false (VStr kt); mkField "d" false (VStr d);
   mkField "x" false (VStr x); mkField "y" false (VStr y)].

Record dpopJWK := mkJWK { Kty : string; Crv : string; jX : string; jY : string }.
Definition jwkFields (j : dpopJWK) : list field :=
  [mkField "kty" false (VStr j.(Kty)); mkField "crv" false (VStr j.(Crv));
   mkField "x" false (VStr j.(jX)); mkField "y" false (VStr j.(jY))].
Definition jwkOfFields (fs : list field) : option dpopJWK :=
  match fs with
  | [mkField _ _ (VStr k); mkField _ _ (VStr c); mkField _ _ (VStr x); mkField _ _ (VStr y)] => Some (mkJWK k c x y)
  | _ => None
  end.

Definition jwk (s : DPoPSigner) : dpopJWK :=
  mkJWK "EC" "P-256" (b64url (leftPad32 s.(pubX))) (b64url (leftPad32 s.(pubY))).

Section Dpop.
Context `{ES256, SHA256, NetURL, Printable}.

(** [LoadDPoPSigner] on the bytes of the file. *)
Definition field32 (s : string) : option (list Z) :=
  b ← DecodeString RawURLEncoding s; if (length b =? 32)%nat then Some b else None.
Definition LoadDPoPSigner (file : string) : option DPoPSigner :=
  fs ← unmarshalStruct (keyFileFields "" "" "" "") file;
  match fs with
  | [mkField _ _ (VStr kt); mkField _ _ (VStr d); mkField _ _ (VStr x); mkField _ _ (VStr y)] =>
      if negb (kt =? dpopKeyType)%string then None
      else
        d ← field32 d; x ← field32 x; y ← field32 y;
        if negb (onCurve (SetBytes x) (SetBytes y)) then None
        else Some (mkSigner (SetBytes d) (SetBytes x) (SetBytes y))
  | _ => None
  end.

(** RFC 7638 thumbprint. *)
Definition canonJWK (j : dpopJWK) : string :=
  ("{" +:+ dquote +:+ "crv" +:+ dquote +:+ ":") +:+ goQuote j.(Crv)
    +:+ ("," +:+ dquote +:+ "kty" +:+ dquote +:+ ":") +:+ goQuote j.(Kty)
    +:+ ("," +:+ dquote +:+ "x" +:+ dquote +:+ ":") +:+ goQuote j.(jX)
    +:+ ("," +:+ dquote +:+ "y" +:+ dquote +:+ ":") +:+ goQuote j.(jY) +:+ "}".
Definition thumbprint (j : dpopJWK) : string := b64url (zbytes (sha256 (canonJWK j))).
Definition Thumbprint (s : DPoPSigner) : string := thumbprint (jwk s).

(** ** Proofs *)

Record dpopHeader := mkHeader { Typ : string; Alg : string; JWK : dpopJWK }.
Record DPoPClaims := mkPClaims { JTI : string; HTM : string; HTU : string; IAT : Z; Ath : string; Nonce : string }.

Definition topFields (typ alg : string) : list field :=
  [mkField "typ" false (VStr typ); mkField "alg" false (VStr alg)].
(** A nested struct is written in place. *)
Definition jwkMember (j : dpopJWK) : list Z := quote "jwk" ++ 58 :: structCodes (jwkFields j).
Definition marshalHeader (h : dpopHeader) : string :=
  of_codes (123 :: sepBy 44 ((memberCodes <$> topFields h.(Typ) h.(Alg)) ++ [jwkMember h.(JWK)]) ++ [125]).
Definition claimFields (c : DPoPClaims) : list field :=
  [mkField "jti" false (VStr c.(JTI)); mkField "htm" false (VStr c.(HTM)); mkField "htu" false (VStr c.(HTU));
   mkField "iat" false (VInt c.(IAT)); mkField "ath" true (VStr c.(Ath)); mkField "nonce" true (VStr c.(Nonce))].
Definition claimsOfFields (fs : list field) : option DPoPClaims :=
  match fs with
  | [mkField _ _ (VStr j); mkField _ _ (VStr m); mkField _ _ (VStr u); mkField _ _ (VInt i); mkField _ _ (VStr a); mkField _ _ (VStr n)] =>
      Some (mkPClaims j m u i a n)
  | _ => None
  end.

(** [json.Unmarshal] into the header: a member [jwk] is a struct of its own. *)
Fixpoint setHeader (ms : list (string * string * json)) (top key : list field) : option (list field * list field) :=
  match ms with
  | [] => Some (top, key)
  | (k, raw, j) :: ms =>
      if setsField "jwk" k then
        match j with
        | JObj l => key ← setMembers l key; setHeader ms top key
        | JNull => setHeader ms top key
        | _ => None
        end
      else top ← setMember top (k, raw, j); setHeader ms top key
  end.
Definition unmarshalHeader (s : string) : option dpopHeader :=
  v ← parseJSON s;
  match v with
  | JObj ms =>
      r ← setHeader ms (topFields "" "") (jwkFields (mkJWK "" "" "" ""));
      match r with
      | ([mkField _ _ (VStr t); mkField _ _ (VStr a)], key) => k ← jwkOfFields key; Some (mkHeader t a k)
      | _ => None
      end
  | JNull => Some (mkHeader "" "" (mkJWK "" "" "" ""))
  | _ => None
  end.
Definition unmarshalClaims (s : string) : option DPoPClaims :=
  fs ← unmarshalStruct (claimFields (mkPClaims "" "" "" 0 "" "")) s; claimsOfFields fs.

(** RFC 9449: the URL without query and fragment. *)
Definition NormalizeHTU (rawURL : string) : option string :=
  u ← urlParse rawURL; Some (urlString (mkURL u.(urlHead) u.(ForceQuery) "" "")).

(** [newJTI] on what [rand.Read] returns. *)
Definition newJTI (rnd : option (list byte)) : option string := b ← rnd; Some (b64url (zbytes b)).

Definition accessHash (accessToken : string) : string := b64url (zbytes (sha256 accessToken)).
Definition Unix (t : Instant) : Z := t / Second.

(** [DPoPSigner.Proof]; [rnd] and [entropy] are what [crypto/rand] gives the two draws. *)
Definition Proof (s : DPoPSigner) (method rawURL : string) (now : Instant) (accessToken nonce : string)
    (rnd entropy : option (list byte)) : option string :=
  htu ← NormalizeHTU rawURL;
  jti ← newJTI rnd;
  let claims := mkPClaims jti method htu (Unix now)
    (if (accessToken =? "")%string then "" else accessHash accessToken) nonce in
  let header := mkHeader dpopTyp dpopAlg (jwk s) in
  let signingInput := b64url (codes (marshalHeader header)) +:+ "." +:+ b64url (codes (marshalStruct (claimFields claims))) in
  entropy ← entropy;
  let '(r, sVal) := ecSign s.(privD) (sha256 signingInput) entropy in
  Some (signingInput +:+ "." +:+ b64url (leftPad32 r ++ leftPad32 sVal)).

(** ** The checks *)

Inductive proofErr :=
| Malformed | AlgNotPinned | BadSig | BadJWK | OffCurve | SigMismatch | BadTyp | NoJTI | HTMMismatch | BadURL | HTUMismatch
| TooOld | InFuture | KeyMismatch | AthMismatch | BadNonce | Replayed.

Definition parseDPoPProof (proof : string) : result proofErr (dpopHeader * DPoPClaims * string * list Z) :=
  match split "."%char proof with
  | [p0; p1; p2] =>
      let* hb := of_option Malformed (DecodeString RawURLEncoding p0) in
      let* cb := of_option Malformed (DecodeString RawURLEncoding p1) in
      let* sig := of_option Malformed (DecodeString RawURLEncoding p2) in
      let* hdr := of_option Malformed (unmarshalHeader (of_codes hb)) in
      let* claims := of_option Malformed (unmarshalClaims (of_codes cb)) in
      Ok (hdr, claims, p0 +:+ "." +:+ p1, sig)
  | _ => Err Malformed
  end.
Definition checkAlgPinned (hdr : dpopHeader) : result proofErr unit :=
  guard_err (negb (hdr.(Alg) =? dpopAlg)%string) AlgNotPinned.
Definition verifyDPoPSignature (hdr : dpopHeader) (signingInput : string) (sig : list Z) : result proofErr unit :=
  let* _ := guard_err (negb (length sig =? 64)%nat) BadSig in
  let* _ := guard_err (negb (hdr.(JWK).(Kty) =? "EC")%string || negb (hdr.(JWK).(Crv) =? "P-256")%string) BadJWK in
  let* xb := of_option BadJWK (field32 hdr.(JWK).(jX)) in
  let* yb := of_option BadJWK (field32 hdr.(JWK).(jY)) in
  let '(px, py) := (SetBytes xb, SetBytes yb) in
  let* _ := guard_err (negb (onCurve px py)) OffCurve in
  guard_err (negb (ecVerify (px, py) (sha256 signingInput) (SetBytes (take 32 sig), SetBytes (drop 32 sig)))) SigMismatch.
Definition checkDPoPStructural (hdr : dpopHeader) (claims : DPoPClaims) (method rawURL : string) : result proofErr unit :=
  let* _ := guard_err (negb (hdr.(Typ) =? dpopTyp)%string) BadTyp in
  let* _ := guard_err (claims.(JTI) =? "")%string NoJTI in
  let* _ := guard_err (negb (claims.(HTM) =? method)%string) HTMMismatch in
  let* wantHTU := of_option BadURL (NormalizeHTU rawURL) in
  guard_err (negb (claims.(HTU) =? wantHTU)%string) HTUMismatch.

Definition dpopFreshnessSkew : Z := 60 * Second.
Definition dpopMaxAge : Z := 300 * Second.
Definition dpopNonceTTL : Z := 300 * Second.
(** [time.Unix(sec, 0)]: seconds are counted from year 1 in an [int64]. *)
Definition unixToInternal : Z := 62135596800.
Definition timeUnix (sec : Z) : Instant := (i64 (sec + unixToInternal) - unixToInternal) * Second.

Definition checkDPoPFreshness (claims : DPoPClaims) (now : Instant) : result proofErr unit :=
  let age := timeSub now (timeUnix claims.(IAT)) in
  let* _ := guard_err (dpopMaxAge <? age) TooOld in
  guard_err (age <? - dpopFreshnessSkew) InFuture.
Definition checkDPoPKeyConfirmation (hdr : dpopHeader) (expectJKT : string) : result proofErr unit :=
  guard_err (negb (thumbprint hdr.(JWK) =? expectJKT)%string) KeyMismatch.
Definition checkDPoPAth (claims : DPoPClaims) (accessToken : string) : result proofErr unit :=
  guard_err (negb (claims.(Ath) =? accessHash accessToken)%string) AthMismatch.

(** ** The replay store *)

Class DPoPReplayStore (R : Type) := {
  UseJTI : string → Instant → Instant → R → bool * R;
  IssueNonce : option (list byte) → Instant → Instant → R → option string * R;
  ConsumeNonce : string → Instant → R → bool * R
}.

Record MemDPoPReplayStore := mkMem { jtis : gmap string Instant; nonces : gmap string Instant }.
Definition NewMemDPoPReplayStore : MemDPoPReplayStore := mkMem ∅ ∅.
Definition unexpired (now : Instant) (m : gmap string Instant) : gmap string Instant :=
  filter (λ kv : string * Instant, ¬ kv.2 < now) m.
Definition evictExpired (now : Instant) (m : MemDPoPReplayStore) : MemDPoPReplayStore :=
  mkMem (unexpired now m.(jtis)) (unexpired now m.(nonces)).
Definition memUseJTI (jti : string) (expiry now : Instant) (m : MemDPoPReplayStore) : bool * MemDPoPReplayStore :=
  let m := evictExpired now m in
  match m.(jtis) !! jti with
  | Some _ => (false, m)
  | None => (true, mkMem (<[jti := expiry]> m.(jtis)) m.(nonces))
  end.
Definition memIssueNonce (rnd : option (list byte)) (expiry now : Instant) (m : MemDPoPReplayStore)
  : option string * MemDPoPReplayStore :=
  match newJTI rnd with
  | None => (None, m)
  | Some nonce => let m := evictExpired now m in (Some nonce, mkMem m.(jtis) (<[nonce := expiry]> m.(nonces)))
  end.
Definition memConsumeNonce (nonce : string) (now : Instant) (m : MemDPoPReplayStore) : bool * MemDPoPReplayStore :=
  if (nonce =? "")%string then (false, m)
  else
    let m := evictExpired now m in
    match m.(nonces) !! nonce with
    | Some exp => if exp <? now then (false, m) else (true, mkMem m.(jtis) (delete nonce m.(nonces)))
    | None => (false, m)
    end.
Definition Len (m : MemDPoPReplayStore) : nat := (size m.(jtis) + size m.(nonces))%nat.
#[export] Instance memReplayStore : DPoPReplayStore MemDPoPReplayStore :=
  {| UseJTI := memUseJTI; IssueNonce := memIssueNonce; ConsumeNonce := memConsumeNonce |}.

(** ** Verification *)

Inductive DPoPErrorKind := DPoPErrInvalidProof | DPoPErrUseNonce.
Definition wireCode (k : DPoPErrorKind) : string :=
  match k with DPoPErrUseNonce => "use_dpop_nonce" | DPoPErrInvalidProof => "invalid_dpop_proof" end.
Definition kindOf (e : proofErr) : DPoPErrorKind :=
  match e with BadNonce => DPoPErrUseNonce | _ => DPoPErrInvalidProof end.

Record DPoPVerifyRequest := mkReq {
  pProof : string; pMethod : string; pURL : string; pNow : Instant;
  AccessToken : string; ExpectJKT : string; RequireNonce : bool }.

(** The checks before the store is touched. *)
Definition checkProof (req : DPoPVerifyRequest) : result proofErr DPoPClaims :=
  let* p := parseDPoPProof req.(pProof) in
  let '(hdr, claims, signingInput, sig) := p in
  let* _ := checkAlgPinned hdr in
  let* _ := verifyDPoPSignature hdr signingInput sig in
  let* _ := checkDPoPStructural hdr claims req.(pMethod) req.(pURL) in
  let* _ := checkDPoPFreshness claims req.(pNow) in
  let* _ := (if (req.(ExpectJKT) =? "")%string then Ok tt else checkDPoPKeyConfirmation hdr req.(ExpectJKT)) in
  let* _ := (if (req.(AccessToken) =? "")%string then Ok tt else checkDPoPAth claims req.(AccessToken)) in
  Ok claims.

Definition Verify {R} `{DPoPReplayStore R} (req : DPoPVerifyRequest) (v : R) : result proofErr unit * R :=
  match checkProof req with
  | Err e => (Err e, v)
  | Ok claims =>
      let '(ok, v) := if req.(RequireNonce) then ConsumeNonce claims.(Nonce) req.(pNow) v else (true, v) in
      if negb ok then (Err BadNonce, v)
      else
        let freshUntil := req.(pNow) + (dpopMaxAge + dpopFreshnessSkew) in
        let '(fresh, v) := UseJTI claims.(JTI) freshUntil req.(pNow) v in
        if fresh then (Ok tt, v) else (Err Replayed, v)
  end.
Definition IssueChallengeNonce {R} `{DPoPReplayStore R} (rnd : option (list byte)) (now : Instant) (v : R) : option string * R :=
  IssueNonce rnd (now + dpopNonceTTL) now v.

(** ** Error responses *)

Record response := mkResp { status : Z; headers : list (string * string); body : string }.
Definition newline : string := of_codes [10].
Definition errorBody (code desc : string) : string :=
  marshalStruct [mkField "error" false (VStr code); mkField "error_description" true (VStr desc); mkField "error_uri" true (VStr "")] +:+ newline.
Definition nonceHeader (nonce : string) : list (string * string) :=
  if (nonce =? "")%string then [] else [("DPoP-Nonce", nonce)].
Definition WriteDPoPTokenError (kind : DPoPErrorKind) (nonce : string) : response :=
  mkResp 400 (nonceHeader nonce ++ [("Content-Type", "application/json")]) (errorBody (wireCode kind) "").
Definition WriteDPoPResourceError (kind : DPoPErrorKind) (nonce : string) : response :=
  mkResp 401 (nonceHeader nonce ++ [("WWW-Authenticate", "DPoP error=" +:+ goQuote (wireCode kind))]) "".

End Dpop.
End Dpop.
