(* ===== verification/DpopThm.v ===== *)
(** * DpopThm: what an accepted proof of possession shows

    [verified_proof_is_bound] says what acceptance means, [bound_key_signed] ties it to the key
    of a token, [proof_accepted_once] and [nonce_redeemed_once] hold over every interleaving of
    the verifications' steps, [honest_proof_is_accepted] is the round trip of the signer and
    the verifier. [late_step_replays] shows why the steps' clock order is assumed. *)
From stdpp Require Import base list strings gmap sorting.
From Stdlib Require Import ZArith Lia Ascii.
From Stdlib Require Import Strings.Byte.
From S2P Require Import Prelude GoStd Json JsonCodec Base64 Frame Crypto Policy Engine Dpop.
Open Scope Z_scope.
Open Scope mesh_scope.

Module DpopThm.
Import Dpop.
Section Thm.
Context `{ES256, SHA256, NetURL, Printable}.

(** ** Freshness *)

Definition fresh (iat : Z) (now : Instant) : Prop := - dpopFreshnessSkew ≤ timeSub now (timeUnix iat) ≤ dpopMaxAge.

Lemma checkDPoPFreshness_spec claims now : checkDPoPFreshness claims now = Ok tt ↔ fresh claims.(IAT) now.
Proof.
  unfold checkDPoPFreshness, fresh, guard_err, rbind. cbv zeta.
  destruct (Z.ltb_spec dpopMaxAge (timeSub now (timeUnix (IAT claims)))); [split; [done|lia]|].
  destruct (Z.ltb_spec (timeSub now (timeUnix (IAT claims))) (- dpopFreshnessSkew)); [split; [done|lia]|]. split; [lia|done].
Qed.

(** Two moments at which one proof is fresh are at most the retention apart. *)
Lemma fresh_span iat t1 t2 : fresh iat t1 → fresh iat t2 → t2 ≤ t1 + (dpopMaxAge + dpopFreshnessSkew).
Proof. unfold fresh, timeSub, dpopMaxAge, dpopFreshnessSkew, Second, minInt64, maxInt64. lia. Qed.

(** ** What acceptance means *)

(** The request matches what was signed, under the key in the header. *)
Record bound (req : DPoPVerifyRequest) (hdr : dpopHeader) (c : DPoPClaims) (signingInput : string) (sig : list Z) : Prop := mkBound {
  bd_parse : parseDPoPProof req.(pProof) = Ok (hdr, c, signingInput, sig);
  bd_alg : hdr.(Alg) = dpopAlg;
  bd_sig : verifyDPoPSignature hdr signingInput sig = Ok tt;
  bd_typ : hdr.(Typ) = dpopTyp;
  bd_jti : c.(JTI) ≠ "";
  bd_method : c.(HTM) = req.(pMethod);
  bd_url : NormalizeHTU req.(pURL) = Some c.(HTU);
  bd_fresh : fresh c.(IAT) req.(pNow);
  bd_key : req.(ExpectJKT) ≠ "" → thumbprint hdr.(JWK) = req.(ExpectJKT);
  bd_ath : req.(AccessToken) ≠ "" → c.(Ath) = accessHash req.(AccessToken) }.

Lemma checkDPoPStructural_spec hdr c m u : checkDPoPStructural hdr c m u = Ok tt ↔
  hdr.(Typ) = dpopTyp ∧ c.(JTI) ≠ "" ∧ c.(HTM) = m ∧ NormalizeHTU u = Some c.(HTU).
Proof.
  unfold checkDPoPStructural. split.
  - intros Hc. inv_ok. breflect. repeat match goal with Hx : of_option _ _ = Ok _ |- _ => apply of_option_ok in Hx end. by subst.
  - intros (-> & Hj & -> & ->). rewrite !String.eqb_refl. cbn. destruct (String.eqb_spec c.(JTI) ""); [done|]. cbn.
    by rewrite String.eqb_refl.
Qed.

Lemma optional_check_spec (x : string) (chk : result proofErr unit) (P : Prop) :
  (chk = Ok tt ↔ P) → (if (x =? "")%string then Ok tt else chk) = Ok tt ↔ (x ≠ "" → P).
Proof. intros HP. destruct (String.eqb_spec x ""); [by split|]. rewrite HP. tauto. Qed.
Lemma eqb_check_spec (x y : string) (e : proofErr) : guard_err (negb (x =? y)%string) e = Ok tt ↔ x = y.
Proof. rewrite guard_err_ok, negb_false_iff. apply String.eqb_eq. Qed.

Lemma checkProof_spec req c : checkProof req = Ok c ↔ ∃ hdr si sig, bound req hdr c si sig.
Proof.
  unfold checkProof, checkAlgPinned, checkDPoPKeyConfirmation, checkDPoPAth. rewrite rbind_ok. split.
  - intros ([[[hdr c'] si] sig] & Hp & Hr). exists hdr, si, sig. rewrite !rbind_ok in Hr.
    destruct Hr as ([] & Ha & Hr). rewrite rbind_ok in Hr. destruct Hr as ([] & Hs & Hr). rewrite rbind_ok in Hr. destruct Hr as ([] & Ht & Hr).
    rewrite rbind_ok in Hr. destruct Hr as ([] & Hf & Hr). rewrite rbind_ok in Hr. destruct Hr as ([] & Hk & Hr). rewrite rbind_ok in Hr. destruct Hr as ([] & Hat & [= ->]).
    apply checkDPoPStructural_spec in Ht as (? & ? & ? & ?). apply eqb_check_spec in Ha. apply checkDPoPFreshness_spec in Hf.
    rewrite (optional_check_spec _ _ _ (eqb_check_spec _ _ _)) in Hk.
    rewrite (optional_check_spec _ _ _ (eqb_check_spec _ _ _)) in Hat. by constructor.
  - intros (hdr & si & sig & [Hp Ha Hs Ht Hj Hm Hu Hf Hk Hat]). exists (hdr, c, si, sig). split; [done|].
    rewrite (proj2 (eqb_check_spec _ _ _) Ha). cbn [rbind]. rewrite Hs. cbn [rbind]. rewrite (proj2 (checkDPoPStructural_spec _ _ _ _)) by done. cbn [rbind].
    rewrite (proj2 (checkDPoPFreshness_spec _ _) Hf). cbn [rbind].
    rewrite (proj2 (optional_check_spec _ _ _ (eqb_check_spec _ _ _)) Hk). cbn [rbind].
    by rewrite (proj2 (optional_check_spec _ _ _ (eqb_check_spec _ _ _)) Hat).
Qed.

(** Acceptance by [Verify], on any replay store: the proof parses to a header and claims that name the
    pinned algorithm and type, its signature verifies under the key in the header, its method
    and URL are the request's, it is fresh, the key is the one the token is bound to and the
    token the one presented; and the store accepted the nonce, where one is asked for, and
    then the identifier. *)
Theorem verified_proof_is_bound {R} `{DPoPReplayStore R} req v v' :
  Verify req v = (Ok tt, v') ↔
  ∃ hdr c si sig v1, bound req hdr c si sig ∧
    (if req.(RequireNonce) then ConsumeNonce c.(Nonce) req.(pNow) v = (true, v1) else v1 = v) ∧
    UseJTI c.(JTI) (req.(pNow) + (dpopMaxAge + dpopFreshnessSkew)) req.(pNow) v1 = (true, v').
Proof.
  unfold Verify. split.
  - destruct (checkProof req) as [c|] eqn:Hc; [|done]. apply checkProof_spec in Hc as (hdr & si & sig & Hb). cbv zeta.
    destruct (if RequireNonce req then _ else _) as [ok v1] eqn:Hn. destruct ok; [|done]. cbn [negb].
    destruct (UseJTI _ _ _ v1) as [fr v2] eqn:Hu. destruct fr; [|done]. intros [= <-]. exists hdr, c, si, sig, v1.
    split_and!; [done| |done]. by destruct (RequireNonce req); [|injection Hn as ->].
  - intros (hdr & c & si & sig & v1 & Hb & Hn & Hu). rewrite (proj2 (checkProof_spec req c)) by eauto. cbv zeta.
    replace (if RequireNonce req then _ else (true, v)) with (true, v1) by (destruct (RequireNonce req); [done|by rewrite Hn]).
    cbn [negb]. by rewrite Hu.
Qed.

(** A rejected proof leaves no identifier behind. *)
Lemma rejected_spends_nothing req (m m' : MemDPoPReplayStore) e k t :
  Verify req m = (Err e, m') → m'.(jtis) !! k = Some t → m.(jtis) !! k = Some t.
Proof.
  assert (∀ n k t, unexpired n m.(jtis) !! k = Some t → m.(jtis) !! k = Some t) as Hun.
  { intros n k0 t0 Hk. by apply map_lookup_filter_Some in Hk as [? _]. }
  unfold Verify. destruct (checkProof req) as [c|]; [|by intros [= _ <-]]. cbv zeta.
  destruct (if RequireNonce req then _ else _) as [ok v1] eqn:Hn.
  assert (∀ k t, v1.(jtis) !! k = Some t → m.(jtis) !! k = Some t) as Hv1.
  { intros k0 t0. destruct (RequireNonce req); [|by injection Hn as <- <-]. cbn in Hn. unfold memConsumeNonce in Hn.
    repeat case_match; injection Hn as <- <-; try done; apply Hun. }
  destruct ok; cbn [negb]; [|by intros [= _ <-] ?; apply Hv1].
  cbn. unfold memUseJTI. cbn. destruct (unexpired _ _ !! _); [|done]. intros [= _ <-]. cbn.
  intros [Hk _]%map_lookup_filter_Some. by apply Hv1.
Qed.

(** ** Interleaved verifications

    Each operation of the store runs under its lock; between them the verifications of other
    requests run. [VNonce] and [VReplay] are the two sections of a [Verify] that has passed its
    checks, [VIssue] is a challenge. *)
Inductive section :=
| VNonce (req : DPoPVerifyRequest)
| VReplay (req : DPoPVerifyRequest)
| VIssue (rnd : option (list byte)) (now : Instant).
Definition at_ (o : section) : Instant :=
  match o with VNonce req | VReplay req => req.(pNow) | VIssue _ now => now end.

(** Whether the section succeeded, and the store after it. *)
Definition runSection (o : section) (m : MemDPoPReplayStore) : bool * MemDPoPReplayStore :=
  match o with
  | VNonce req => match checkProof req with Ok c => ConsumeNonce c.(Nonce) req.(pNow) m | Err _ => (false, m) end
  | VReplay req =>
      match checkProof req with
      | Ok c => UseJTI c.(JTI) (req.(pNow) + (dpopMaxAge + dpopFreshnessSkew)) req.(pNow) m
      | Err _ => (false, m)
      end
  | VIssue rnd now => let '(n, m) := IssueChallengeNonce rnd now m in (negb (isNone n), m)
  end.
Fixpoint runSections (os : list section) (m : MemDPoPReplayStore) : list (section * bool) * MemDPoPReplayStore :=
  match os with
  | [] => ([], m)
  | o :: os => let '(b, m) := runSection o m in let '(l, m) := runSections os m in ((o, b) :: l, m)
  end.

(** A [Verify] that nothing interrupts is its two sections. *)
Lemma Verify_sections req m : ∃ bs m',
  runSections (if req.(RequireNonce) then [VNonce req; VReplay req] else [VReplay req]) m = (bs, m') ∧
  ((Verify req m).1 = Ok tt ↔ Forall (λ ob, ob.2 = true) bs).
Proof.
  unfold Verify. destruct (RequireNonce req); cbn [runSections runSection]; destruct (checkProof req) as [c|]; cbv zeta.
  2,4: by eexists _, _; split; [reflexivity|]; split; [done|intros Hf; apply Forall_inv in Hf].
  - destruct (ConsumeNonce _ _ m) as [[|] m1]; destruct (UseJTI _ _ _ m1) as [[|] m2]; cbn [negb fst];
      (eexists _, _; split; [reflexivity|]; split; [by repeat constructor|intros Hf; by inversion_clear Hf as [|?? Hx Hy]; inversion_clear Hy]).
  - cbn [negb]. destruct (UseJTI _ _ _ m) as [[|] m2]; cbn [fst];
      (eexists _, _; split; [reflexivity|]; split; [by repeat constructor|intros Hf; by inversion_clear Hf]).
Qed.

(** The steps of a run in the order of their clocks. *)
Definition inOrder (os : list section) : Prop := Sorted Z.le (at_ <$> os).
Lemma inOrder_cons o os : inOrder (o :: os) → inOrder os ∧ ∀ o', o' ∈ os → at_ o ≤ at_ o'.
Proof.
  unfold inOrder. cbn. intros Ho. apply Sorted_StronglySorted in Ho; [|intros x y z; lia].
  apply StronglySorted_inv in Ho as [Hs Hf]. split; [by apply StronglySorted_Sorted|].
  intros o' Ho'. rewrite Forall_forall in Hf. apply Hf. by apply list_elem_of_fmap_2.
Qed.

(** The claims of a proof, and the acceptances of proofs with one identifier and issue time. *)
Definition claimsOf (req : DPoPVerifyRequest) : option DPoPClaims :=
  match parseDPoPProof req.(pProof) with Ok (_, c, _, _) => Some c | Err _ => None end.
Definition spends (jti : string) (iat : Z) (ob : section * bool) : bool :=
  ob.2 && match ob.1 with
          | VReplay req => match claimsOf req with Some c => (c.(JTI) =? jti)%string && (c.(IAT) =? iat) | None => false end
          | _ => false
          end.
Definition acceptances (jti : string) (iat : Z) (l : list (section * bool)) : nat := length (List.filter (spends jti iat) l).

Lemma checkProof_claims req c : checkProof req = Ok c → claimsOf req = Some c ∧ fresh c.(IAT) req.(pNow).
Proof. intros (hdr & si & sig & Hb)%checkProof_spec. unfold claimsOf. rewrite (bd_parse _ _ _ _ _ Hb). split; [done|apply Hb]. Qed.

(** The identifier stays in the store up to its expiry. *)
Lemma section_keeps o m b m' jti (e : Instant) : runSection o m = (b, m') → m.(jtis) !! jti = Some e → at_ o ≤ e → m'.(jtis) !! jti = Some e.
Proof.
  intros Hr Hj He. assert (unexpired (at_ o) m.(jtis) !! jti = Some e) as Hu.
  { apply map_lookup_filter_Some. split; [done|]. cbn. lia. }
  destruct o as [req|req|rnd now]; cbn in Hr, Hu; [destruct (checkProof req) as [c|]|destruct (checkProof req) as [c|]|].
  - unfold memConsumeNonce in Hr. repeat case_match; by injection Hr as <- <-.
  - by injection Hr as <- <-.
  - unfold memUseJTI in Hr. cbn in Hr. destruct (unexpired _ m.(jtis) !! JTI c) as [x|] eqn:Hx; injection Hr as <- <-; [done|]. cbn.
    rewrite lookup_insert_ne; [done|]. intros E. rewrite E in Hx. congruence.
  - by injection Hr as <- <-.
  - unfold memIssueNonce in Hr. destruct (newJTI rnd); by injection Hr as <- <-.
Qed.

Lemma section_spends o m b m' jti iat : runSection o m = (b, m') → spends jti iat (o, b) = true →
  fresh iat (at_ o) ∧ unexpired (at_ o) m.(jtis) !! jti = None ∧ m'.(jtis) !! jti = Some (at_ o + (dpopMaxAge + dpopFreshnessSkew)).
Proof.
  intros Hr Hs. unfold spends in Hs. cbn in Hs. breflect. subst. destruct o as [req|req|rnd now]; try done. cbn in Hr.
  destruct (checkProof req) as [c|] eqn:Hc; [|done]. apply checkProof_claims in Hc as [Hc Hf]. rewrite Hc in *. breflect. subst.
  split; [done|]. unfold memUseJTI in Hr. cbn in Hr |- *. destruct (unexpired _ _ !! _) eqn:Hu; [done|]. injection Hr as <-. split; [done|].
  cbn. by rewrite lookup_insert_eq.
Qed.

(** Once the identifier is in the store past every moment its proof is fresh, it is spent. *)
Lemma spent_stays_spent jti iat (e : Instant) os m :
  inOrder os → (∀ t, fresh iat t → t ≤ e) → (m.(jtis) !! jti = Some e ∨ ∀ o, o ∈ os → e < at_ o) →
  acceptances jti iat (runSections os m).1 = 0%nat.
Proof.
  intros Ho Hf. revert m. induction os as [|o os IH]; intros m Hm; [done|]. apply inOrder_cons in Ho as [Ho Hle]. cbn [runSections].
  destruct (runSection o m) as [b m1] eqn:Hr. destruct (runSections os m1) as [l m2] eqn:Hrs. unfold acceptances. cbn [fst List.filter].
  assert (spends jti iat (o, b) = false) as ->.
  { apply not_true_iff_false. intros Hs. destruct (section_spends _ _ _ _ _ _ Hr Hs) as (Hfr & Hn & _). apply Hf in Hfr.
    destruct Hm as [Hm|Hm]; [|specialize (Hm o (list_elem_of_here _ _)); lia].
    apply map_lookup_filter_None in Hn as [Hn|Hn]; [congruence|]. specialize (Hn _ Hm). cbn in Hn. lia. }
  specialize (IH Ho m1). rewrite Hrs in IH. apply IH. destruct Hm as [Hm|Hm]; [|right; intros o' Ho'; apply Hm; by constructor].
  destruct (Z.leb_spec (at_ o) e); [left; by eapply section_keeps|right]. intros o' Ho'. specialize (Hle o' Ho'). lia.
Qed.

(** C21. A proof is accepted once. However the sections of concurrent verifications and challenges interleave in
    the order of their clocks, from any store, at most one verification of proofs with a given
    identifier and issue time succeeds: the store keeps an identifier as long as its proof can
    be fresh. *)
Theorem proof_accepted_once jti iat os m :
  inOrder os → (acceptances jti iat (runSections os m).1 ≤ 1)%nat.
Proof.
  revert m. induction os as [|o os IH]; intros m Ho; [cbn; lia|]. apply inOrder_cons in Ho as [Ho Hle]. cbn [runSections].
  destruct (runSection o m) as [b m1] eqn:Hr. destruct (runSections os m1) as [l m2] eqn:Hrs. unfold acceptances. cbn [fst List.filter].
  destruct (spends jti iat (o, b)) eqn:Hs; [|specialize (IH m1 Ho); by rewrite Hrs in IH].
  destruct (section_spends _ _ _ _ _ _ Hr Hs) as (Hfr & _ & Hm1).
  assert (acceptances jti iat (runSections os m1).1 = 0%nat) as Hz.
  { eapply spent_stays_spent; [done| |by left]. intros t Ht. by apply (fresh_span iat). }
  rewrite Hrs in Hz. cbn [fst] in Hz. unfold acceptances in Hz. cbn [length]. lia.
Qed.

(** ** Challenge nonces *)

Definition redeems (n : string) (ob : section * bool) : bool :=
  ob.2 && match ob.1 with VNonce req => match claimsOf req with Some c => (c.(Nonce) =? n)%string | None => false end | _ => false end.
Definition issues (n : string) (ob : section * bool) : bool :=
  match ob.1 with VIssue rnd _ => match newJTI rnd with Some x => (x =? n)%string | None => false end | _ => false end.
Definition outstanding (n : string) (m : MemDPoPReplayStore) : nat := match m.(nonces) !! n with Some _ => 1%nat | None => 0%nat end.

Lemma unexpired_Some now (m : gmap string Instant) k (e : Instant) : unexpired now m !! k = Some e → m !! k = Some e ∧ now ≤ e.
Proof. intros [Hk Hl]%map_lookup_filter_Some. cbn in Hl. split; [done|lia]. Qed.

(** A redemption takes an unexpired nonce out of the store. *)
Lemma section_redeems o m b m' n : runSection o m = (b, m') → redeems n (o, b) = true →
  m'.(nonces) !! n = None ∧ ∃ e : Instant, m.(nonces) !! n = Some e ∧ at_ o ≤ e.
Proof.
  intros Hr Hs. unfold redeems in Hs. cbn in Hs. breflect. subst. destruct o as [req|req|rnd now]; try done. cbn in Hr.
  destruct (checkProof req) as [c|] eqn:Hc; [|done]. apply checkProof_claims in Hc as [Hc _]. rewrite Hc in *. breflect. subst.
  unfold memConsumeNonce in Hr. destruct (Nonce c =? "")%string; [done|]. cbn in Hr. destruct (unexpired _ m.(nonces) !! Nonce c) as [e|] eqn:Hu; [|done].
  destruct (e <? pNow req); [done|]. injection Hr as <-. cbn. split; [apply lookup_delete_eq|]. exists e. by apply unexpired_Some.
Qed.

(** What is in the store was there or was issued now. *)
Lemma section_nonces o m b m' n (e : Instant) : runSection o m = (b, m') → m'.(nonces) !! n = Some e →
  m.(nonces) !! n = Some e ∨ issues n (o, b) = true ∧ e = at_ o + dpopNonceTTL.
Proof.
  intros Hr He. destruct o as [req|req|rnd now]; cbn in Hr; [destruct (checkProof req) as [c|]|destruct (checkProof req) as [c|]|].
  - left. unfold memConsumeNonce in Hr. repeat case_match; injection Hr as <- <-; cbn in He; try done.
    1,3: by apply unexpired_Some in He as [? _].
    apply lookup_delete_Some in He as [_ He]. by apply unexpired_Some in He as [? _].
  - injection Hr as <- <-. by left.
  - left. unfold memUseJTI in Hr. cbn in Hr. destruct (unexpired _ m.(jtis) !! JTI c); injection Hr as <- <-; cbn in He; by apply unexpired_Some in He as [? _].
  - injection Hr as <- <-. by left.
  - unfold memIssueNonce in Hr. destruct (newJTI rnd) as [x|] eqn:Hx; injection Hr as <- <-; cbn in He; [|by left].
    apply lookup_insert_Some in He as [[<- <-]|[_ He]]; [right|left; by apply unexpired_Some in He as [? _]].
    unfold issues. cbn. by rewrite Hx, String.eqb_refl.
Qed.

Lemma section_outstanding o m b m' n : runSection o m = (b, m') →
  (Nat.b2n (redeems n (o, b)) + outstanding n m' ≤ outstanding n m + Nat.b2n (issues n (o, b)))%nat.
Proof.
  intros Hr. assert (redeems n (o, b) = true → issues n (o, b) = false) as Hx.
  { unfold redeems, issues. cbn. by destruct o; rewrite ?andb_false_r. }
  unfold outstanding. destruct (m'.(nonces) !! n) as [e|] eqn:He.
  - destruct (redeems n (o, b)) eqn:Hd; [destruct (section_redeems _ _ _ _ _ Hr Hd) as [Hn _]; congruence|].
    destruct (section_nonces _ _ _ _ _ _ Hr He) as [-> | [-> _]]; cbn; [lia|]. destruct (m.(nonces) !! n); cbn; lia.
  - destruct (redeems n (o, b)) eqn:Hd; [|cbn; lia]. destruct (section_redeems _ _ _ _ _ Hr Hd) as (_ & e & -> & _). cbn. lia.
Qed.

Lemma run_outstanding n os m l m' : runSections os m = (l, m') →
  (length (List.filter (redeems n) l) + outstanding n m' ≤ outstanding n m + length (List.filter (issues n) l))%nat.
Proof.
  revert m l. induction os as [|o os IH]; intros m l; cbn [runSections]; [intros [= <- <-]; cbn; lia|].
  destruct (runSection o m) as [b m1] eqn:Hr. destruct (runSections os m1) as [l2 m2] eqn:Hrs. intros [= <- <-].
  apply IH in Hrs. pose proof (section_outstanding _ _ _ _ n Hr) as Ho. cbn [List.filter].
  destruct (redeems n (o, b)), (issues n (o, b)); cbn [Nat.b2n length] in *; lia.
Qed.

Lemma run_nonces n (e : Instant) os m l m' : runSections os m = (l, m') → m'.(nonces) !! n = Some e →
  m.(nonces) !! n = Some e ∨ ∃ rnd t, VIssue rnd t ∈ os ∧ newJTI rnd = Some n ∧ e = t + dpopNonceTTL.
Proof.
  revert m l. induction os as [|o os IH]; intros m l; cbn [runSections]; [intros [= <- <-]; by left|].
  destruct (runSection o m) as [b m1] eqn:Hr. destruct (runSections os m1) as [l2 m2] eqn:Hrs. intros [= <- <-] He.
  destruct (IH _ _ Hrs He) as [Hm1 | (rnd & t & Hi & Hn & Ht)]; [|right; exists rnd, t; split_and!; [by constructor|done..]].
  destruct (section_nonces _ _ _ _ _ _ Hr Hm1) as [|[Hi Ht]]; [by left|right]. unfold issues in Hi. cbn in Hi.
  destruct o as [| |rnd t]; try done. destruct (newJTI rnd) as [x|] eqn:Hx; [|done]. breflect. subst. exists rnd, t. split_and!; [by constructor|done..].
Qed.

(** A challenge nonce is good once, and not for long: over any interleaving of sections from the
    empty store, a nonce is redeemed at most as often as it was drawn, and a redemption is
    within the lifetime of an earlier challenge that drew it. *)
Theorem nonce_redeemed_once n os l m :
  runSections os NewMemDPoPReplayStore = (l, m) →
  (length (List.filter (redeems n) l) ≤ length (List.filter (issues n) l))%nat ∧
  ∀ o m', runSection o m = (true, m') → redeems n (o, true) = true →
    ∃ rnd t, VIssue rnd t ∈ os ∧ newJTI rnd = Some n ∧ at_ o ≤ t + dpopNonceTTL.
Proof.
  intros Hr. split.
  - apply (run_outstanding n) in Hr. change (outstanding n NewMemDPoPReplayStore) with 0%nat in Hr. lia.
  - intros o m' Ho Hd. destruct (section_redeems _ _ _ _ _ Ho Hd) as (_ & e & He & Hle).
    destruct (run_nonces _ _ _ _ _ _ Hr He) as [Hm1 | (rnd & t & Hi & Hn & ->)]; [done|]. by exists rnd, t.
Qed.

(** ** The key *)

Lemma Z_of_byte_inj a b : Z_of_byte a = Z_of_byte b → a = b.
Proof. unfold Z_of_byte. intros E%N2Z.inj. pose proof (Byte.of_to_N a) as Ha. rewrite E, Byte.of_to_N in Ha. congruence. Qed.
Lemma zbytes_bytes l : Forall isByte (zbytes l).
Proof. unfold zbytes. apply Forall_fmap, Forall_true. intros b. apply Z_of_byte_range. Qed.
Lemma b64_zbytes_inj a b : b64url (zbytes a) = b64url (zbytes b) → a = b.
Proof.
  intros E%EncodeToString_inj; try apply zbytes_bytes. unfold zbytes in E. revert b E.
  induction a as [|x a IH]; intros [|y b]; try done. cbn. intros [= ->%Z_of_byte_inj E]. f_equal. by apply IH.
Qed.

Lemma thumbprint_inj j1 j2 : thumbprint j1 = thumbprint j2 → canonJWK j1 = canonJWK j2 ∨ collision (canonJWK j1) (canonJWK j2).
Proof. intros E%b64_zbytes_inj. destruct (decide (canonJWK j1 = canonJWK j2)); [by left|by right]. Qed.

Lemma bigBytes_bytes n z : Forall isByte (bigBytes n z).
Proof.
  revert z. induction n as [|n IH]; intros z; [constructor|]. cbn. apply Forall_app. split; [apply IH|].
  repeat constructor; apply Z.mod_pos_bound; lia.
Qed.
Lemma bigBytes_length n z : length (bigBytes n z) = n.
Proof. revert z. induction n as [|n IH]; intros z; [done|]. cbn. rewrite length_app, IH. cbn. lia. Qed.
Lemma SetBytes_snoc l b : SetBytes (l ++ [b]) = SetBytes l * 256 + b.
Proof. unfold SetBytes. by rewrite fold_left_app. Qed.
Lemma SetBytes_bigBytes n z : 0 ≤ z < 256 ^ Z.of_nat n → SetBytes (bigBytes n z) = z.
Proof.
  revert z. induction n as [|n IH]; intros z Hz; [cbn in *; lia|]. cbn [bigBytes]. rewrite SetBytes_snoc.
  rewrite Nat2Z.inj_succ, Z.pow_succ_r in Hz by lia. rewrite IH; [pose proof (Z.div_mod z 256); lia|].
  split; [apply Z.div_pos; lia|apply Z.div_lt_upper_bound; lia].
Qed.
Lemma field32_leftPad z : 0 ≤ z < 2 ^ 256 → ∃ b, field32 (b64url (leftPad32 z)) = Some b ∧ SetBytes b = z.
Proof.
  intros Hz. exists (leftPad32 z). unfold field32, b64url, leftPad32. rewrite b64_roundtrip by apply bigBytes_bytes. cbn [mbind option_bind].
  rewrite bigBytes_length. split; [done|]. by apply SetBytes_bigBytes.
Qed.

(** The characters that a decoded coordinate can have, and how [%q] writes them. *)
Definition keyChar (c : Z) : Prop := is_Some (sextet RawURLEncoding c) ∨ c = 10 ∨ c = 13.
Definition escaped (c : Z) : list Z := if c =? 10 then [92; 110] else if c =? 13 then [92; 114] else [c].

Lemma sextet_range c s : sextet RawURLEncoding c = Some s → 45 ≤ c ≤ 122 ∧ c ≠ 46 ∧ c ≠ 92.
Proof.
  unfold sextet, char62, char63. cbn [urlAlphabet RawURLEncoding].
  repeat match goal with |- context [?a <=? ?b] => destruct (Z.leb_spec a b) | |- context [?a =? ?b] => destruct (Z.eqb_spec a b) end; cbn [andb]; intros E; try discriminate E; lia.
Qed.
Lemma quanta_chars l r : quanta RawURLEncoding l = Some r → Forall (λ c, is_Some (sextet RawURLEncoding c)) l.
Proof.
  revert r. induction l as [|a|a b|a b c|a b c d l IH] using list_ind4; intros r; cbn [quanta padded RawURLEncoding andb].
  - constructor.
  - done.
  - unfold tail1. destruct (sextet _ a) eqn:Ea; [|done]. destruct (sextet _ b) eqn:Eb; [|done]. intros _. by repeat (apply Forall_cons_2; [by eexists|]); constructor.
  - unfold tail2. destruct (sextet _ a) eqn:Ea; [|done]. destruct (sextet _ b) eqn:Eb; [|done]. destruct (sextet _ c) eqn:Ec; [|done]. intros _.
    by repeat (apply Forall_cons_2; [by eexists|]); constructor.
  - destruct (sextet _ a) eqn:Ea; [|done]. destruct (sextet _ b) eqn:Eb; [|done]. destruct (sextet _ c) eqn:Ec; [|done]. destruct (sextet _ d) eqn:Ed; [|done]. cbn.
    destruct (quanta RawURLEncoding l) as [q|]; [|done]. intros _. repeat (apply Forall_cons_2; [by eexists|]). by eapply IH.
Qed.
Lemma field32_chars s b : field32 s = Some b → Forall keyChar (codes s).
Proof.
  unfold field32, DecodeString, decode64. destruct (quanta _ _) as [r|] eqn:Hq; [|done]. intros _. apply quanta_chars in Hq.
  rewrite List.Forall_forall in *. intros c Hc. destruct (isEOL c) eqn:He.
  - right. unfold isEOL in He. destruct (Z.eqb_spec c 10); [by left|]. destruct (Z.eqb_spec c 13); [by right|done].
  - left. apply Hq. apply List.filter_In. by rewrite He.
Qed.
Lemma keyChar_ascii c : keyChar c → 10 ≤ c < 128 ∧ c ≠ 34 ∧ c ≠ 92.
Proof. intros [[s Hs%sextet_range] | [-> | ->]]; lia. Qed.

Lemma quotedBody_keyChars n l : Forall keyChar l → (length l ≤ n)%nat → quotedBody n l = flat_map escaped l.
Proof.
  intros Hl. revert n. induction Hl as [|c l Hc Hl IH]; intros n Hn; [by destruct n|]. destruct n as [|n]; [cbn in Hn; lia|]. cbn in Hn.
  pose proof (keyChar_ascii _ Hc) as Ha. cbn [quotedBody flat_map]. cbn [decodeRune]. destruct (Z.ltb_spec c 128); [|lia].
  assert ((c =? runeError) = false) as -> by (apply Z.eqb_neq; unfold runeError; lia). cbn [andb take drop]. rewrite IH by lia. f_equal.
  unfold escapedRune, escaped. destruct (Z.eqb_spec c 34); [lia|]. destruct (Z.eqb_spec c 92); [lia|]. cbn [orb]. destruct (Z.ltb_spec c 128); [|lia].
  destruct Hc as [[s Hs%sextet_range] | [-> | ->]]; [|done..].
  destruct (Z.leb_spec 32 c); [|lia]. destruct (Z.ltb_spec c 127); [|lia]. cbn [andb].
  destruct (Z.eqb_spec c 10); [lia|]. destruct (Z.eqb_spec c 13); [lia|done].
Qed.
Lemma escaped_chars l : Forall keyChar l → Forall (λ c, is_byte c ∧ c ≠ 34) (flat_map escaped l).
Proof.
  induction 1 as [|c l Hc Hl IH]; [constructor|]. cbn. apply Forall_app. split; [|done]. pose proof (keyChar_ascii _ Hc).
  unfold escaped, is_byte. destruct (c =? 10); [repeat constructor; lia|]. destruct (c =? 13); repeat constructor; lia.
Qed.
Lemma codes_goQuote s : Forall keyChar (codes s) → codes (goQuote s) = 34 :: flat_map escaped (codes s) ++ [34].
Proof.
  intros Hs. unfold goQuote. rewrite quotedBody_keyChars by (done || by rewrite length_codes). apply codes_of_codes.
  constructor; [unfold is_byte; lia|]. apply Forall_app. split; [|repeat constructor; unfold is_byte; lia].
  eapply Forall_impl; [by apply escaped_chars|]. by intros c [Hc _].
Qed.

(** Text up to the first quote is determined. *)
Lemma quote_split (a b r r' : list Z) : Forall (λ c, is_byte c ∧ c ≠ 34) a → Forall (λ c, is_byte c ∧ c ≠ 34) b →
  a ++ 34 :: r = b ++ 34 :: r' → a = b ∧ r = r'.
Proof.
  intros Ha. revert b. induction Ha as [|x a [_ Hx] Ha IH]; intros b Hb E; destruct Hb as [|y b [_ Hy] Hb]; cbn in E; simplify_eq; [done|].
  destruct (IH b Hb) as [-> ->]; done.
Qed.
(** Without a backslash nothing was escaped. *)
Lemma escaped_plain l : Forall (λ c, c ≠ 92) (flat_map escaped l) → flat_map escaped l = l.
Proof.
  induction l as [|c l IH]; [done|]. cbn. unfold escaped at 1 3. rewrite Forall_app.
  destruct (Z.eqb_spec c 10) as [->|]; [intros [Hf _]; by inversion_clear Hf|]. destruct (Z.eqb_spec c 13) as [->|]; [intros [Hf _]; by inversion_clear Hf|].
  intros [_ Hf]. cbn. by rewrite IH.
Qed.
Lemma leftPad_chars z : Forall (λ c, is_Some (sextet RawURLEncoding c)) (codes (b64url (leftPad32 z))).
Proof.
  assert (DecodeString RawURLEncoding (b64url (leftPad32 z)) = Some (leftPad32 z)) as Hd by apply b64_roundtrip, bigBytes_bytes.
  rewrite decode_noEOL in Hd; [by eapply quanta_chars|]. unfold hasEOL, b64url, EncodeToString.
  pose proof (encode_codes RawURLEncoding _ (bigBytes_bytes 32 z)) as He. rewrite codes_of_codes64; [|eapply Forall_impl; [exact He|]; intros c [_ Hc]; lia].
  apply not_true_iff_false. intros (c & Hc & Hn)%existsb_exists. rewrite List.Forall_forall in He. apply He in Hc as [Hc _]. congruence.
Qed.

Lemma canonJWK_inj j s : Forall keyChar (codes j.(jX)) → Forall keyChar (codes j.(jY)) → j.(Kty) = "EC" → j.(Crv) = "P-256" →
  canonJWK j = canonJWK (jwk s) → j = jwk s.
Proof.
  destruct j as [k c x y]. cbn [Kty Crv jX jY]. intros Hx Hy -> -> E. unfold canonJWK in E. cbn [Kty Crv jX jY jwk] in E.
  assert (∀ z, Forall keyChar (codes (b64url (leftPad32 z)))) as Hk.
  { intros z. eapply Forall_impl; [apply leftPad_chars|]. intros c Hc. by left. }
  assert (∀ z, Forall (λ c, c ≠ 92) (codes (b64url (leftPad32 z)))) as Hb.
  { intros z. eapply Forall_impl; [apply leftPad_chars|]. intros c [t Ht%sextet_range]. lia. }
  assert (∀ z, flat_map escaped (codes (b64url (leftPad32 z))) = codes (b64url (leftPad32 z))) as Hp.
  { intros z. clear -z. pose proof (leftPad_chars z) as Hl. induction Hl as [|c l [t Ht%sextet_range] Hl IH]; [done|]. cbn. rewrite IH. unfold escaped.
    destruct (Z.eqb_spec c 10); [lia|]. by destruct (Z.eqb_spec c 13); [lia|]. }
  do 5 apply (inj (String.append _)) in E. apply (f_equal codes) in E. rewrite !codes_app, !codes_goQuote in E by done. rewrite !Hp in E. cbn [app] in E.
  apply (f_equal tail) in E. cbn [tail] in E. rewrite <- !(app_assoc _ [34]) in E. cbn [app] in E. apply quote_split in E as [Ex E]; [|by apply escaped_chars|rewrite <- Hp; by apply escaped_chars].
  apply app_inv_head, (f_equal tail) in E. cbn [tail] in E.
  apply quote_split in E as [Ey _]; [|by apply escaped_chars|rewrite <- Hp; by apply escaped_chars].
  rewrite escaped_plain in Ex by (rewrite Ex; apply Hb). rewrite escaped_plain in Ey by (rewrite Ey; apply Hb).
  unfold jwk. f_equal; by apply codes_inj.
Qed.

(** The signature that a request's proof carries verifies under a public key. *)
Definition signedBy (pub : Z * Z) (signingInput : string) (sig : list Z) : Prop :=
  ecVerify pub (sha256 signingInput) (SetBytes (take 32 sig), SetBytes (drop 32 sig)) = true.

Lemma verifyDPoPSignature_inv hdr si sig : verifyDPoPSignature hdr si sig = Ok tt →
  hdr.(JWK).(Kty) = "EC" ∧ hdr.(JWK).(Crv) = "P-256" ∧ ∃ x y, field32 hdr.(JWK).(jX) = Some x ∧ field32 hdr.(JWK).(jY) = Some y ∧
  onCurve (SetBytes x) (SetBytes y) = true ∧ signedBy (SetBytes x, SetBytes y) si sig.
Proof.
  unfold verifyDPoPSignature. intros Hs. apply rbind_ok in Hs as ([] & _ & Hs). apply rbind_ok in Hs as ([] & Hk & Hs).
  apply rbind_ok in Hs as (x & Hx & Hs). apply rbind_ok in Hs as (y & Hy & Hs). cbv beta iota zeta in Hs. apply rbind_ok in Hs as ([] & Hc & Hs).
  apply guard_err_ok in Hk, Hc, Hs. apply of_option_ok in Hx, Hy. breflect. split_and!; [done..|]. by exists x, y.
Qed.

(** A proof accepted under the thumbprint of a key is signed with that key. When the
    request expects the thumbprint of a signer's key, the header of an accepted proof is
    that very key and the signature over the proof's claims verifies under its point, or
    the two canonical keys exhibit a SHA-256 collision. *)
Theorem bound_key_signed req c s :
  checkProof req = Ok c → req.(ExpectJKT) = Thumbprint s → req.(ExpectJKT) ≠ "" →
  0 ≤ s.(pubX) < 2 ^ 256 → 0 ≤ s.(pubY) < 2 ^ 256 →
  ∃ hdr si sig, parseDPoPProof req.(pProof) = Ok (hdr, c, si, sig) ∧
    (hdr.(JWK) = jwk s ∧ signedBy (s.(pubX), s.(pubY)) si sig ∨ collision (canonJWK hdr.(JWK)) (canonJWK (jwk s))).
Proof.
  intros (hdr & si & sig & Hb)%checkProof_spec Hj Hne Hx Hy. exists hdr, si, sig. split; [apply Hb|].
  pose proof (bd_key _ _ _ _ _ Hb Hne) as Hk. rewrite Hj in Hk.
  destruct (verifyDPoPSignature_inv _ _ _ (bd_sig _ _ _ _ _ Hb)) as (Hkt & Hcr & x & y & Hfx & Hfy & _ & Hs).
  destruct (thumbprint_inj _ _ Hk) as [E|]; [left|by right].
  apply canonJWK_inj in E; [|by eapply field32_chars..|done|done]. split; [done|]. rewrite E in Hfx, Hfy. cbn [jwk jX jY] in Hfx, Hfy.
  destruct (field32_leftPad _ Hx) as (x' & Hx' & <-). destruct (field32_leftPad _ Hy) as (y' & Hy' & <-).
  rewrite Hx' in Hfx. rewrite Hy' in Hfy. injection Hfx as <-. injection Hfy as <-. exact Hs.
Qed.

(** ** The signer and the verifier *)

Lemma b64_chars l : Forall isByte l → Forall (λ c, is_Some (sextet RawURLEncoding c)) (codes (b64url l)).
Proof.
  intros Hl. assert (DecodeString RawURLEncoding (b64url l) = Some l) as Hd by by apply b64_roundtrip.
  rewrite decode_noEOL in Hd; [by eapply quanta_chars|]. unfold hasEOL, b64url, EncodeToString.
  pose proof (encode_codes RawURLEncoding _ Hl) as He. rewrite codes_of_codes64; [|eapply Forall_impl; [exact He|]; intros c [_ Hc]; lia].
  apply not_true_iff_false. intros (c & Hc & Hn)%existsb_exists. rewrite List.Forall_forall in He. apply He in Hc as [Hc _]. congruence.
Qed.
Lemma b64_valid l : Forall isByte l → validUTF8 (b64url l) = true.
Proof. intros Hl%b64_chars. apply validUTF8_ascii. eapply Forall_impl; [exact Hl|]. intros c [t Ht%sextet_range]. lia. Qed.

Lemma split_sep (a b : string) : Forall (λ c, c ≠ 46) (codes a) → split "."%char (a +:+ "." +:+ b) = a :: split "."%char b.
Proof.
  induction a as [|x a IH]; [done|]. rewrite codes_cons, append_cons. intros [Hx Ha]%Forall_cons. cbn [split].
  destruct (Ascii.eqb_spec x "."%char) as [->|]; [by destruct Hx|]. by rewrite IH.
Qed.
Lemma split_last (a : string) : Forall (λ c, c ≠ 46) (codes a) → split "."%char a = [a].
Proof.
  induction a as [|x a IH]; [done|]. rewrite codes_cons. intros [Hx Ha]%Forall_cons. cbn [split].
  destruct (Ascii.eqb_spec x "."%char) as [->|]; [by destruct Hx|]. by rewrite IH.
Qed.
Lemma b64_noDot l : Forall isByte l → Forall (λ c, c ≠ 46) (codes (b64url l)).
Proof. intros Hl%b64_chars. eapply Forall_impl; [exact Hl|]. intros c [t Ht%sextet_range]. lia. Qed.

(** Objects whose members are strings, at any depth. *)
Definition strField (kv : string * string) : field := mkField kv.1 false (VStr kv.2).
Definition strMember (kv : string * string) : string * string * json := (kv.1, of_codes (quote kv.2), JStr kv.2).
Definition textual (kv : string * string) : Prop := validUTF8 kv.1 = true ∧ validUTF8 kv.2 = true.

Lemma parse_str_value fuel depth s rest : validUTF8 s = true →
  parseValue (S fuel) depth (skipWS (valCodes (VStr s) ++ rest)) = Some (JStr s, rest).
Proof. intros Hs. rewrite skipWS_value by done. by apply parse_quote. Qed.

Lemma parse_str_members l fuel depth rest : l ≠ [] → Forall textual l → (length l < fuel)%nat →
  parseMembers fuel depth (sepBy 44 (memberCodes <$> (strField <$> l)) ++ 125 :: rest) = Some (strMember <$> l, rest).
Proof.
  revert fuel. induction l as [|[k v] l IH]; intros fuel Hne Hl Hf; [done|]. apply Forall_cons in Hl as [[Hk Hv] Hl].
  cbn [length] in Hf. destruct fuel as [|[|fuel]]; [lia|lia|]. destruct l as [|kv l].
  - change (sepBy 44 (memberCodes <$> (strField <$> [(k, v)]))) with (memberCodes (strField (k, v))).
    rewrite memberCodes_app, parseMembers_S by done. cbn [strField fName fVal fst snd].
    rewrite parse_str_value, skipWS_value by done. cbv zeta. rewrite rawText_app. done.
  - change (sepBy 44 (memberCodes <$> (strField <$> (k, v) :: kv :: l)))
      with (memberCodes (strField (k, v)) ++ 44 :: sepBy 44 (memberCodes <$> (strField <$> kv :: l))). rewrite <- app_assoc.
    rewrite memberCodes_app, parseMembers_S by done. cbn [strField fName fVal fst snd].
    rewrite parse_str_value, skipWS_value by done. cbv zeta. rewrite rawText_app. cbn [app skipWS isWS Z.eqb Pos.eqb orb].
    rewrite IH by (done || cbn [length] in *; lia). done.
Qed.

Lemma parse_object fuel depth k r : depth < maxNestingDepth →
  parseValue (S fuel) depth (123 :: quote k ++ r) =
  match parseMembers fuel (depth + 1) (quote k ++ r) with Some (ms, r) => Some (JObj ms, r) | None => None end.
Proof.
  intros Hd. rewrite quote_app. cbn [parseValue skipWS isWS Z.eqb Pos.eqb orb].
  by destruct (Z.ltb_spec maxNestingDepth (depth + 1)); [lia|].
Qed.

Definition jwkPairs (j : dpopJWK) : list (string * string) := [("kty", j.(Kty)); ("crv", j.(Crv)); ("x", j.(jX)); ("y", j.(jY))].
Lemma jwk_struct j : structCodes (jwkFields j) = 123 :: sepBy 44 (memberCodes <$> (strField <$> jwkPairs j)) ++ [125].
Proof. done. Qed.

(** A header is read back as it was written. *)
Lemma header_roundtrip h : validUTF8 h.(Typ) = true → validUTF8 h.(Alg) = true → Forall textual (jwkPairs h.(JWK)) →
  unmarshalHeader (marshalHeader h) = Some h.
Proof.
  intros Ht Ha Hj. unfold unmarshalHeader, parseJSON, marshalHeader.
  assert (∀ l, Forall is_byte l → String.length (of_codes l) = length l ∧ codes (of_codes l) = l) as Hlen.
  { intros l Hl. by rewrite <- length_codes, codes_of_codes. }
  set (l := 123 :: sepBy 44 ((memberCodes <$> topFields (Typ h) (Alg h)) ++ [jwkMember (JWK h)]) ++ [125]).
  assert (Forall is_byte l) as Hl.
  { constructor; [unfold is_byte; lia|]. apply Forall_app. split; [|repeat constructor; unfold is_byte; lia]. apply sepBy_bytes; [unfold is_byte; lia|].
    assert (∀ k v, Forall is_byte v → Forall is_byte (quote k ++ 58 :: v)) as Hmem.
    { intros k v Hv. apply Forall_app. split; [apply quote_bytes|]. constructor; [unfold is_byte; lia|done]. }
    cbn [fmap list_fmap topFields app]. unfold memberCodes, jwkMember.
    repeat (apply Forall_cons_2; [apply Hmem, valCodes_bytes || apply Hmem, structCodes_bytes|]). constructor. }
  destruct (Hlen l Hl) as [-> ->].
  assert (∃ n, (2 * length l)%nat = (16 + n)%nat) as [n ->].
  { exists (2 * length l - 16)%nat. unfold l. cbn [fmap list_fmap topFields app sepBy length]. unfold memberCodes. repeat rewrite ?length_app, ?length_cons.
    pose proof (quote_length "typ"). pose proof (quote_length "alg"). pose proof (quote_length (Typ h)). pose proof (quote_length (Alg h)). cbn [fName fVal valCodes]. lia. }
  unfold l. clear l Hl Hlen. cbn [fmap list_fmap topFields app sepBy].
  assert (∀ fuel rest, parseMembers (12 + fuel) 1 (memberCodes (strField ("typ", Typ h)) ++ 44 :: memberCodes (strField ("alg", Alg h)) ++ 44 :: jwkMember (JWK h) ++ 125 :: rest)
    = Some ([strMember ("typ", Typ h); strMember ("alg", Alg h); ("jwk", of_codes (structCodes (jwkFields (JWK h))), JObj (strMember <$> jwkPairs (JWK h)))], rest)) as Hm.
  { intros fuel rest. change (12 + fuel)%nat with (S (11 + fuel)). rewrite memberCodes_app, parseMembers_S by done. cbn [strField fName fVal fst snd Nat.add].
    rewrite parse_str_value, skipWS_value by done. cbv zeta. rewrite rawText_app. cbn [skipWS isWS Z.eqb Pos.eqb orb].
    rewrite memberCodes_app, parseMembers_S by done. cbn [strField fName fVal fst snd].
    rewrite parse_str_value, skipWS_value by done. cbv zeta. rewrite rawText_app. cbn [skipWS isWS Z.eqb Pos.eqb orb].
    unfold jwkMember. rewrite <- app_assoc. cbn [app]. rewrite parseMembers_S by done.
    set (q := structCodes (jwkFields (JWK h)) ++ 125 :: rest). assert (q = structCodes (jwkFields (JWK h)) ++ 125 :: rest) as Hq by done.
    assert (parseValue (S (8 + fuel)) 1 q = Some (JObj (strMember <$> jwkPairs (JWK h)), 125 :: rest)) as Hv.
    { unfold q. rewrite jwk_struct. cbn [app]. rewrite <- app_assoc. cbn [app].
      assert (∃ r, sepBy 44 (memberCodes <$> (strField <$> jwkPairs (JWK h))) ++ 125 :: 125 :: rest = quote "kty" ++ r) as [r Hr].
      { cbn [jwkPairs fmap list_fmap sepBy]. rewrite <- app_assoc, memberCodes_app. by eexists. }
      rewrite Hr, parse_object, <- Hr, parse_str_members by (done || cbn; lia). done. }
    assert (skipWS q = q) as -> by (unfold q; by rewrite jwk_struct). cbn [Nat.add] in Hv. rewrite Hv. cbv zeta. rewrite Hq, rawText_app. done. }
  specialize (Hm (4 + n)%nat []).
  change (memberCodes (mkField "typ" false (VStr (Typ h)))) with (memberCodes (strField ("typ", Typ h))).
  change (memberCodes (mkField "alg" false (VStr (Alg h)))) with (memberCodes (strField ("alg", Alg h))).
  rewrite <- !(app_assoc _ (44 :: _)). cbn [app]. rewrite <- !(app_assoc _ (44 :: _)). cbn [app].
  change (S (16 + n)) with (S (12 + (4 + n))).
  match type of Hm with parseMembers _ _ ?t = _ => assert (∃ r, t = quote "typ" ++ r) as [r Hr] by (rewrite memberCodes_app; by eexists) end.
  rewrite Hr in *. rewrite parse_object by done. change (0 + 1) with 1. rewrite Hm.
  cbn [mbind option_bind skipWS]. destruct h as [t a [k c x y]]. reflexivity.
Qed.

Lemma claims_roundtrip c : Forall (λ s, validUTF8 s = true) [c.(JTI); c.(HTM); c.(HTU); c.(Ath); c.(Nonce)] → is_int c.(IAT) →
  unmarshalClaims (marshalStruct (claimFields c)) = Some c.
Proof.
  intros Hs Hi. unfold unmarshalClaims. change (claimFields (mkPClaims "" "" "" 0 "" "")) with (zeroes (claimFields c)).
  repeat (apply Forall_cons in Hs as [? Hs]). rewrite struct_roundtrip; [by destruct c| | |done].
  - by apply (bool_decide_unpack _).
  - by repeat (apply Forall_cons_2; [split_and!; done|]).
Qed.

(** What a signer writes parses to its header and claims, over its signing input. *)
Lemma parse_joined (h c g : string) hb cb sig hdr claims :
  Forall (λ z, z ≠ 46) (codes h) → Forall (λ z, z ≠ 46) (codes c) → Forall (λ z, z ≠ 46) (codes g) →
  DecodeString RawURLEncoding h = Some hb → DecodeString RawURLEncoding c = Some cb → DecodeString RawURLEncoding g = Some sig →
  unmarshalHeader (of_codes hb) = Some hdr → unmarshalClaims (of_codes cb) = Some claims →
  parseDPoPProof ((h +:+ "." +:+ c) +:+ "." +:+ g) = Ok (hdr, claims, h +:+ "." +:+ c, sig).
Proof.
  intros Hh Hc Hg Eh Ec Eg Eu Ev. unfold parseDPoPProof. rewrite !append_assoc_s, !split_sep, split_last by done.
  rewrite Eh, Ec, Eg. cbn [of_option rbind]. rewrite Eu, Ev. reflexivity.
Qed.

Definition claimsFor (rnd : list byte) (method htu : string) (now : Instant) (accessToken nonce : string) : DPoPClaims :=
  mkPClaims (b64url (zbytes rnd)) method htu (Unix now) (if (accessToken =? "")%string then "" else accessHash accessToken) nonce.

Lemma pad_bytes r v : Forall isByte (leftPad32 r ++ leftPad32 v).
Proof. apply Forall_app_2; apply bigBytes_bytes. Qed.

Lemma Proof_parses s method rawURL now at_tok nonce rnd ent p :
  0 ≤ s.(pubX) < 2 ^ 256 → 0 ≤ s.(pubY) < 2 ^ 256 → is_int (Unix now) →
  (∀ u, NormalizeHTU rawURL = Some u → validUTF8 u = true) → validUTF8 method = true → validUTF8 nonce = true →
  Proof s method rawURL now at_tok nonce (Some rnd) (Some ent) = Some p →
  ∃ htu si, NormalizeHTU rawURL = Some htu ∧
    parseDPoPProof p = Ok (mkHeader dpopTyp dpopAlg (jwk s), claimsFor rnd method htu now at_tok nonce, si,
      leftPad32 (ecSign s.(privD) (sha256 si) ent).1 ++ leftPad32 (ecSign s.(privD) (sha256 si) ent).2).
Proof.
  intros Hx Hy Hi Hu Hm Hn. unfold Proof. destruct (NormalizeHTU rawURL) as [htu|]; [|done]. cbn [newJTI mbind option_bind]. cbv zeta.
  specialize (Hu htu eq_refl). set (c := mkPClaims _ _ _ _ _ _). set (si := b64url _ +:+ _). destruct (ecSign _ _ _) as [r v] eqn:Hsig. intros [= <-].
  exists htu, si. split; [done|]. rewrite Hsig. cbn [fst snd]. subst si.
  eapply parse_joined; try (apply b64_noDot); try (apply b64_roundtrip).
  1,2,4,5: eapply Forall_impl; [apply codes_bytes|]; done.
  1,2: exact (pad_bytes _ _).
  - rewrite of_codes_codes. apply header_roundtrip; [done..|]. unfold jwkPairs, jwk. cbn [Kty Crv jX jY JWK].
    repeat (apply Forall_cons_2; [split; [done|]; done || apply b64_valid, bigBytes_bytes|]). constructor.
  - rewrite of_codes_codes. apply claims_roundtrip; [|done]. apply Forall_cons_2; [apply b64_valid, zbytes_bytes|].
    do 2 (apply Forall_cons_2; [done|]). apply Forall_cons_2; [|by repeat constructor].
    cbn [claimsFor Ath]. destruct (at_tok =? "")%string; [done|apply b64_valid, zbytes_bytes].
Qed.

Lemma honest_signature s si ent hdr : ES256Laws → (s.(pubX), s.(pubY)) = ecPublic s.(privD) → hdr.(JWK) = jwk s →
  verifyDPoPSignature hdr si (leftPad32 (ecSign s.(privD) (sha256 si) ent).1 ++ leftPad32 (ecSign s.(privD) (sha256 si) ent).2) = Ok tt.
Proof.
  intros HL Hp Hj. destruct (ec_public_range s.(privD)) as [Hx Hy]. pose proof (ec_public_onCurve s.(privD)) as Hc.
  destruct (ec_sign_range s.(privD) (sha256 si) ent) as [Hr Hv]. pose proof (ec_sign_verifies s.(privD) (sha256 si) ent) as Hver.
  rewrite <- Hp in *. cbn [fst snd] in Hx, Hy, Hc. destruct (ecSign _ _ _) as [r v]. cbn [fst snd] in *.
  destruct (field32_leftPad _ Hx) as (x & Hfx & Ex). destruct (field32_leftPad _ Hy) as (y & Hfy & Ey).
  unfold verifyDPoPSignature, leftPad32 at 1 2. rewrite length_app, !bigBytes_length, Hj. cbn [guard_err Nat.eqb Nat.add negb rbind jwk Kty Crv jX jY String.eqb Ascii.eqb Bool.eqb orb].
  rewrite Hfx, Hfy. cbn [of_option rbind]. rewrite Ex, Ey, Hc. cbn [negb guard_err rbind].
  unfold leftPad32. rewrite take_app_length', drop_app_length' by by rewrite bigBytes_length. rewrite !SetBytes_bigBytes by done. by rewrite Hver.
Qed.

Lemma timeUnix_small sec : 0 ≤ sec < 2 ^ 62 → timeUnix sec = sec * Second.
Proof. intros Hs. unfold timeUnix, unixToInternal. rewrite i64_small by lia. lia. Qed.

(** C22. A proof built by the signer is accepted. For a signer whose point is that of its
    scalar, a proof made for a method, URL, token and nonce passes the verifier's checks
    on any request with that method, token and normalized URL, within the freshness window,
    whether or not the signer's thumbprint is expected; so it is accepted by a store that
    holds the nonce, where one is asked for, and not the identifier. *)
Theorem honest_proof_is_accepted s method rawURL now accessToken nonce rnd ent p req (m : MemDPoPReplayStore) :
  ES256Laws → (s.(pubX), s.(pubY)) = ecPublic s.(privD) → 0 ≤ Unix now < 2 ^ 62 → rnd ≠ [] →
  (∀ u, NormalizeHTU rawURL = Some u → validUTF8 u = true) → validUTF8 method = true → validUTF8 nonce = true →
  Proof s method rawURL now accessToken nonce (Some rnd) (Some ent) = Some p →
  req.(pProof) = p → req.(pMethod) = method → NormalizeHTU req.(pURL) = NormalizeHTU rawURL → req.(AccessToken) = accessToken →
  req.(ExpectJKT) = "" ∨ req.(ExpectJKT) = Thumbprint s →
  - dpopFreshnessSkew ≤ req.(pNow) - Unix now * Second ≤ dpopMaxAge →
  (req.(RequireNonce) = true → nonce ≠ "" ∧ ∃ e : Instant, m.(nonces) !! nonce = Some e ∧ req.(pNow) ≤ e) →
  m.(jtis) !! b64url (zbytes rnd) = None →
  (Verify req m).1 = Ok tt.
Proof.
  intros HL Hp Hn Hr Hu Hm Hno HP Hpr Hme Hurl Hat Hj Hf Hnon Hjti. destruct (ec_public_range s.(privD)) as [Hx Hy]. rewrite <- Hp in Hx, Hy.
  assert (is_int (Unix now)) as Hi by (unfold is_int, minInt64, maxInt64; lia).
  destruct (Proof_parses _ _ _ _ _ _ _ _ _ Hx Hy Hi Hu Hm Hno HP) as (htu & si & Hh & Hpa).
  set (c := claimsFor rnd method htu now accessToken nonce) in *.
  assert (checkProof req = Ok c) as Hc.
  { apply checkProof_spec. do 3 eexists. constructor; [by rewrite Hpr, Hpa|done|by apply honest_signature|done| |done|by rewrite Hurl| | |].
    - cbn. destruct rnd as [|b rnd]; [done|]. intros E. pose proof (b64_roundtrip RawURLEncoding (zbytes (b :: rnd)) (zbytes_bytes _)) as Hb. unfold b64url in E. by rewrite E in Hb.
    - unfold fresh, c, timeSub. cbn [claimsFor IAT]. rewrite timeUnix_small by done. unfold dpopFreshnessSkew, dpopMaxAge, minInt64, maxInt64, Second in *. lia.
    - intros Hne. by destruct Hj.
    - rewrite Hat. intros Hne. cbn. by destruct (String.eqb_spec accessToken ""). }
  unfold Verify. rewrite Hc. cbv zeta. cbn [c claimsFor Nonce JTI].
  assert (∃ m1, (if req.(RequireNonce) then ConsumeNonce nonce req.(pNow) m else (true, m)) = (true, m1) ∧ m1.(jtis) !! b64url (zbytes rnd) = None) as (m1 & -> & Hm1).
  { destruct (RequireNonce req); [|by exists m]. destruct (Hnon eq_refl) as (Hne & e & He & Hle). cbn. unfold memConsumeNonce.
    destruct (String.eqb_spec nonce ""); [done|]. cbn. replace (unexpired _ m.(nonces) !! nonce) with (Some e) by (symmetry; apply map_lookup_filter_Some; split; [done|cbn; lia]).
    destruct (Z.ltb_spec e (pNow req)); [lia|]. eexists. split; [done|]. cbn. apply map_lookup_filter_None. by left. }
  cbn [negb]. cbn. unfold memUseJTI. cbn. replace (unexpired _ _ !! _) with (@None Instant); [done|]. symmetry. apply map_lookup_filter_None. by left.
Qed.

End Thm.
End DpopThm.

(** ** Concrete runs *)

Import Dpop DpopThm.

(** Instances for evaluation: a signature is a checksum and the key. *)
Definition digestSum (h : list byte) : Z := fold_left (λ acc b, (acc * 31 + Z_of_byte b) mod 65521) h 7.
Definition toyES256 : ES256 := {|
  onCurve x y := x =? y;
  ecPublic d := (d mod 2 ^ 256, d mod 2 ^ 256);
  ecSign d h rnd := (digestSum h, d mod 2 ^ 256);
  ecVerify pub h sg := (sg.1 =? digestSum h) && (sg.2 =? pub.1)
|}.
Definition toyURL : NetURL := {| urlParse s := Some (mkURL s false "" ""); escapedFragment u := u.(Fragment) |}.
Definition toyPrintable : Printable := {| isPrint r := false |}.
#[local] Existing Instances toyES256 toyURL toyPrintable toySHA256.

Lemma toyES256_laws : ES256Laws.
Proof.
  assert (∀ h acc, 0 ≤ acc < 65521 → 0 ≤ fold_left (λ acc b, (acc * 31 + Z_of_byte b) mod 65521) h acc < 65521) as Hs.
  { induction h as [|b h IH]; intros acc Ha; [done|]. cbn [fold_left]. apply IH, Z.mod_pos_bound. lia. }
  split.
  - intros d. apply Z.eqb_refl.
  - intros d. split; apply Z.mod_pos_bound; lia.
  - intros d h rnd. split; [|apply Z.mod_pos_bound; lia]. cbn [ecSign toyES256 fst]. specialize (Hs h 7). unfold digestSum. lia.
  - intros d h rnd. cbn [ecVerify ecSign ecPublic toyES256 fst snd]. by rewrite !Z.eqb_refl.
Qed.

Definition key5 : DPoPSigner := mkSigner 5 5 5.
Definition proofAt (rnd : list byte) (now : Instant) (nonce : string) : string :=
  default "" (Proof key5 "POST" "https://m/t" now "" nonce (Some rnd) (Some [])).
Definition reqAt (proof : string) (now : Instant) (jkt : string) (nonced : bool) : DPoPVerifyRequest :=
  mkReq proof "POST" "https://m/t" now "" jkt nonced.

Lemma honest_proof_is_accepted_witness :
  (Verify (reqAt (proofAt [x01] Second "AQ") (2 * Second) (Thumbprint key5) true) (mkMem ∅ {[ "AQ" := 9 * Second ]})).1 = Ok tt.
Proof.
  apply (honest_proof_is_accepted key5 "POST" "https://m/t" Second "" "AQ" [x01] [] (proofAt [x01] Second "AQ")); try reflexivity; try done.
  - exact toyES256_laws.
  - intros u E. injection E as <-. reflexivity.
  - by right.
  - intros _. split; [done|]. by exists (9 * Second).
Defined.

Lemma bound_key_signed_witness : ∃ hdr c si sig,
  parseDPoPProof (proofAt [x01] Second "AQ") = Ok (hdr, c, si, sig) ∧
  (hdr.(JWK) = jwk key5 ∧ signedBy (5, 5) si sig ∨ collision (canonJWK hdr.(JWK)) (canonJWK (jwk key5))).
Proof.
  assert (checkProof (reqAt (proofAt [x01] Second "AQ") Second (Thumbprint key5) false) = Ok (claimsFor [x01] "POST" "https://m/t" Second "" "AQ")) as Hc by (vm_compute; reflexivity).
  destruct (bound_key_signed _ _ key5 Hc eq_refl) as (hdr & si & sig & Hp); [vm_compute; discriminate|cbn; lia..|]. by exists hdr, (claimsFor [x01] "POST" "https://m/t" Second "" "AQ"), si, sig.
Defined.

(** The second presentation of a proof fails. *)
Definition twice : list section :=
  let r := reqAt (proofAt [x01] Second "") Second "" false in [VReplay r; VReplay r].
Lemma proof_accepted_once_witness : (acceptances "AQ" 1 (runSections twice NewMemDPoPReplayStore).1 ≤ 1)%nat ∧
  acceptances "AQ" 1 (runSections twice NewMemDPoPReplayStore).1 = 1%nat.
Proof.
  split; [|vm_compute; reflexivity]. apply (proof_accepted_once "AQ" 1). unfold inOrder. cbn. repeat constructor; unfold Second; lia.
Defined.

(** A challenge, its nonce redeemed, and redeemed again. *)
Definition challenged : list section :=
  let r := reqAt (proofAt [x02] Second "AQ") Second "" true in [VIssue (Some [x01]) Second; VNonce r; VNonce r].
Lemma nonce_redeemed_once_witness : ∃ l m, runSections challenged NewMemDPoPReplayStore = (l, m) ∧
  (length (List.filter (redeems "AQ") l) ≤ length (List.filter (issues "AQ") l))%nat ∧ length (List.filter (redeems "AQ") l) = 1%nat.
Proof.
  destruct (runSections challenged NewMemDPoPReplayStore) as [l m] eqn:Hr. exists l, m. split; [done|].
  destruct (nonce_redeemed_once "AQ" challenged l m Hr) as [Hle _]. split; [exact Hle|].
  vm_compute in Hr. injection Hr as <- _. reflexivity.
Defined.

(** A request's clock is read before the store is locked. A proof dated at the edge of the skew is
    presented; then a request that read a clock just past the retention takes the lock and
    evicts; then a request that read its clock just before presents the proof again: it is
    fresh by its own clock, and accepted a second time. *)
Definition late : list section :=
  let p := proofAt [x01] (60 * Second) "" in
  [VReplay (reqAt p 0 "" false);
   VReplay (reqAt (proofAt [x02] (361 * Second) "") (361 * Second) "" false);
   VReplay (reqAt p (360 * Second) "" false)].
Theorem late_step_replays : acceptances "AQ" 60 (runSections late NewMemDPoPReplayStore).1 = 2%nat.
Proof. vm_compute. reflexivity. Qed.
