(* ===== verification/FedThm.v ===== *)
(** * FedThm: what the boundary and its usage report guarantee

    [advertised_is_admitted], [distinct_orgs_have_distinct_labels], [usage_is_exact] and
    [crossings_are_metered]: from the decision of a crossing through the audit log to the
    exported numbers. *)
From stdpp Require Import base list strings gmap sorting.
From Stdlib Require Import ZArith Lia Ascii.
From Stdlib Require Import Strings.Byte.
From S2P Require Import Prelude GoStd Json JsonCodec Base64 Crypto Checkpoint Ledger Policy EventLog Rows Dpop Federation.
Open Scope Z_scope.

Module FedThm.
Import Chain Fed.

(** ** Labels *)

Lemma split_slash (a b r r' : list Z) : Forall (λ c, c ≠ 47) a → Forall (λ c, c ≠ 47) b → a ++ 47 :: r = b ++ 47 :: r' → a = b ∧ r = r'.
Proof.
  intros Ha. revert b. induction Ha as [|x a Hx Ha IH]; intros b Hb E; destruct Hb as [|y b Hy Hb]; cbn in E; simplify_eq; [done|].
  destruct (IH b Hb) as [-> ->]; done.
Qed.

Lemma alnum_noslash c : alnum c = true → c ≠ 47.
Proof. unfold alnum. intros Ha ->. done. Qed.
Lemma dnsLabel_noslash s : dnsLabel s = true → Forall (λ c, c ≠ 47) (codes s).
Proof.
  unfold dnsLabel. destruct (codes s) as [|c l] eqn:Hc; [done|]. intros Hd. apply andb_true_iff in Hd as [_ Hf].
  rewrite forallb_forall in Hf. apply List.Forall_forall. intros x Hx. specialize (Hf x Hx). apply orb_true_iff in Hf as [Hf|Hf]; [by apply alnum_noslash|].
  apply Z.eqb_eq in Hf. lia.
Qed.
Lemma split_nonempty sep s : ∃ x r, Dpop.split sep s = x :: r.
Proof.
  induction s as [|c s (x & r & IH)]; [by exists "", []|]. cbn [Dpop.split]. destruct (Ascii.eqb c sep); [by eexists _, _|]. rewrite IH. by eexists _, _.
Qed.
Lemma split_noslash s : forallb dnsLabel (Dpop.split "."%char s) = true → Forall (λ c, c ≠ 47) (codes s).
Proof.
  assert (∀ s x r, Dpop.split "."%char s = x :: r → Forall (λ c, c ≠ 47) (codes x) → forallb dnsLabel r = true → Forall (λ c, c ≠ 47) (codes s)) as Hs.
  { clear s. induction s as [|c s IH]; intros x r; cbn [Dpop.split]; [constructor|].
    destruct (Ascii.eqb_spec c "."%char) as [->|].
    - intros [= <- <-] _ Hf. rewrite codes_cons. constructor; [done|]. destruct (split_nonempty "."%char s) as (y & q & E). rewrite E in *.
      cbn in Hf. apply andb_true_iff in Hf as [Hy Hq]. eapply IH; [reflexivity|by apply dnsLabel_noslash|done].
    - destruct (split_nonempty "."%char s) as (y & q & E). rewrite E in *. intros [= <- <-]. rewrite codes_cons. intros [Hc Hy]%Forall_cons Hq.
      rewrite codes_cons. constructor; [done|]. by eapply IH. }
  destruct (split_nonempty "."%char s) as (x & r & E). rewrite E. cbn. intros [Hx Hr]%andb_true_iff.
  by eapply Hs; [|apply dnsLabel_noslash|].
Qed.

Lemma SpiffeID_inv td k : SpiffeID td k ≠ "" → ∃ raw, hasEOL k = false ∧ DecodeString StdStrict k = Some raw ∧ Forall (λ c, c ≠ 47) (codes td) ∧
  SpiffeID td k = "spiffe://" +:+ td +:+ "/peer/" +:+ EncodeToString RawURLEncoding raw.
Proof.
  unfold SpiffeID. destruct (_ || _)%bool; [done|]. destruct (ValidTrustDomain td) eqn:Hv; [|done]. destruct (maxSpiffeKeyBase64 <? strlen k); [done|]. cbn [negb orb].
  destruct (hasEOL k); [done|]. destruct (DecodeString StdStrict k) as [raw|]; [|done]. intros _. exists raw. split_and!; try done.
  unfold ValidTrustDomain in Hv. destruct (_ || _)%bool; [done|]. by apply split_noslash.
Qed.

(** A label names one key of one trust domain: two records that carry the same label carry the
    label of the same domain and of the same key text. *)
Theorem spiffe_label_names_key td1 k1 td2 k2 :
  SpiffeID td1 k1 = SpiffeID td2 k2 → SpiffeID td1 k1 ≠ "" → td1 = td2 ∧ k1 = k2.
Proof.
  intros E Hne. assert (SpiffeID td2 k2 ≠ "") as Hne2 by by rewrite <- E.
  destruct (SpiffeID_inv _ _ Hne) as (r1 & He1 & Hd1 & Hs1 & E1). destruct (SpiffeID_inv _ _ Hne2) as (r2 & He2 & Hd2 & Hs2 & E2).
  rewrite E1, E2 in E. apply (inj (String.append _)), (f_equal codes) in E. rewrite !codes_app in E. cbn [app] in E.
  change (codes "/peer/") with (47 :: codes "peer/") in E. rewrite <- !app_comm_cons in E.
  apply split_slash in E as [Ht E]; [|done..]. apply app_inv_head, codes_inj in E.
  apply EncodeToString_inj in E; [|by eapply DecodeString_bytes..]. split; [by apply codes_inj|]. subst. by eapply b64_strict_inj.
Qed.

Section Thm.
Context `{Ed25519} `{SHA256}.

(** ** The boundary *)

(** Every trust domain has an owner, who is its only organisation unless it is listed. *)
Definition owned (st : Boundary * gmap string string) : Prop :=
  ∀ org td, st.1.(trustDomain) !! org = Some td → ∃ o, st.2 !! td = Some o ∧ (o = org ∨ td ∈ st.1.(collisions)).

Lemma addMapping_owned st m : owned st → owned (addMapping st m).
Proof.
  destruct st as [b owner]. unfold owned. intros Ho org td. unfold addMapping. cbn [fst snd] in Ho |- *.
  destruct (String.eqb_spec (TrustDomain m) "") as [|Hne]; [apply Ho|].
  destruct (owner !! TrustDomain m) as [o|] eqn:Hw.
  - destruct (String.eqb_spec o (Org m)) as [->|Hno].
    + cbn. intros [[<- <-]|[Hd Htd]]%lookup_insert_Some; [rewrite lookup_insert_eq; eauto|]. destruct (Ho _ _ Htd) as (o & Ho' & Hc).
      destruct (decide (td = TrustDomain m)) as [->|]; [rewrite lookup_insert_eq; exists (Org m); rewrite Hw in Ho'; injection Ho' as <-; done|].
      rewrite lookup_insert_ne by done. eauto.
    + case_bool_decide as Hin; cbn; (intros [[<- <-]|[Hd Htd]]%lookup_insert_Some; [exists o; split; [done|right; set_solver]|]);
        destruct (Ho _ _ Htd) as (o' & Ho' & Hc); exists o'; (split; [done|]); destruct Hc; [by left|right; set_solver|by left|right; set_solver].
  - cbn. intros [[<- <-]|[Hd Htd]]%lookup_insert_Some; [rewrite lookup_insert_eq; eauto|]. destruct (Ho _ _ Htd) as (o & Ho' & Hc).
    rewrite lookup_insert_ne; [eauto|]. intros E. rewrite E in Hw. congruence.
Qed.
Lemma NewBoundary_owned gs ms a : ∃ owner, owned (NewBoundary gs ms a, owner).
Proof.
  unfold NewBoundary. assert (∀ gs b, b.(trustDomain) = ∅ → (fold_left addGrant gs b).(trustDomain) = ∅) as Hg.
  { induction gs0 as [|g gs0 IH]; intros b Hb; [done|]. apply IH. done. }
  assert (∀ st, owned st → owned (fold_left addMapping ms st)) as Hf.
  { induction ms as [|m ms IH]; intros st Hs; [done|]. apply IH. by apply addMapping_owned. }
  match goal with |- context [fold_left addMapping ms ?s] => pose proof (Hf s) as Hx; destruct (fold_left addMapping ms s) as [b owner] eqn:E end.
  exists owner. apply Hx. intros org td. cbn [fst]. rewrite Hg by done. by rewrite lookup_empty.
Qed.

(** If no trust domain is reported as claimed twice, then two organisations never have the same label on
    their crossings. *)
Theorem distinct_orgs_have_distinct_labels gs ms a org1 org2 :
  let b := NewBoundary gs ms a in
  TrustDomainCollisions b = [] → spiffeForOrg b org1 = spiffeForOrg b org2 → spiffeForOrg b org1 ≠ "" → org1 = org2.
Proof.
  intros b Hc E Hne. destruct (NewBoundary_owned gs ms a) as [owner Ho]. fold b in Ho.
  assert (∀ org, spiffeForOrg b org ≠ "" → ∃ td k, b.(trustDomain) !! org = Some td ∧ spiffeForOrg b org = SpiffeID td k) as Hs.
  { intros org. unfold spiffeForOrg, BoundarySpiffeID. destruct (trustDomain b !! org) as [td|] eqn:Ht; [|done]. cbn [default].
    destruct (_ || _)%bool; [done|]. intros _. by eexists _, _. }
  destruct (Hs _ Hne) as (td1 & k1 & Ht1 & E1). rewrite E in Hne. destruct (Hs _ Hne) as (td2 & k2 & Ht2 & E2).
  rewrite E2 in Hne. rewrite E1, E2 in E. symmetry in E. apply spiffe_label_names_key in E as [-> _]; [|done].
  unfold TrustDomainCollisions in Hc. destruct (Ho _ _ Ht1) as (o1 & Ho1 & C1), (Ho _ _ Ht2) as (o2 & Ho2 & C2). cbn in *. rewrite Hc in C1, C2.
  destruct C1 as [<-|C1]; [|by apply not_elem_of_nil in C1]. destruct C2 as [<-|C2]; [|by apply not_elem_of_nil in C2]. congruence.
Qed.

(** The decision of a check, and its reason. *)
Definition toolReason (b : Boundary) (org tool : string) : string :=
  if Allowed b org tool then "" else if (org =? "")%string then unrecognized
  else if b.(grants) !! org then "tool not granted to org" else "org has no federation grant".
Definition corpusAllowed (b : Boundary) (org corpus : string) : bool :=
  negb (org =? "")%string && granted (default [] (b.(corpora) !! org)) corpus.
Definition corpusReason (b : Boundary) (org corpus : string) : string :=
  if corpusAllowed b org corpus then "" else if (org =? "")%string then unrecognized else "corpus not granted to org".

(** What the boundary advertises to an organisation is what it admits: the audited check of a call
    decides as [Allowed] does when the tools are listed, and leaves one record of that
    decision. *)
Theorem advertised_is_admitted io org tool b :
  Check_ io org tool b = (Allowed b org tool, toolReason b org tool, record io org tool (Allowed b org tool) (toolReason b org tool) b).
Proof.
  unfold Check_, toolReason, Allowed. destruct (String.eqb_spec org "") as [->|]; [by destruct (grants b !! "")|].
  destruct (grants b !! org) as [globs|]; [|done]. by destruct (granted globs tool).
Qed.
Lemma CheckCorpus_spec io org c b :
  CheckCorpus io org c b = (corpusAllowed b org c, corpusReason b org c, recordCorpus io org c (corpusAllowed b org c) (corpusReason b org c) b).
Proof.
  unfold CheckCorpus, corpusReason, corpusAllowed. destruct (String.eqb_spec org "") as [->|]; [done|]. cbn [negb andb].
  by destruct (granted _ c).
Qed.

(** ** Metering *)

(** How many records satisfy a predicate. *)
Definition cnt (f : AuditRecord → bool) (l : list AuditRecord) : Z := Z.of_nat (length (List.filter f l)).
Definition isAllow (r : AuditRecord) : bool := (r.(Decision) =? "allow")%string.

Lemma cnt_snoc f l x : cnt f (l ++ [x]) = cnt f l + (if f x then 1 else 0).
Proof. unfold cnt. rewrite List.filter_app, length_app. cbn. destruct (f x); cbn; lia. Qed.
Lemma cnt_ext f g l : (∀ x, f x = g x) → cnt f l = cnt g l.
Proof. intros E. unfold cnt. induction l as [|x l IH]; [done|]. cbn. rewrite E. destruct (g x); cbn; lia. Qed.

(** The two counters for the records selected by [sel]. *)
Definition exact (sel : AuditRecord → bool) (l : list AuditRecord) (a d : Z) : Prop :=
  a = i64 (cnt (λ r, sel r && isAllow r) l) ∧ d = i64 (cnt (λ r, sel r && negb (isAllow r)) l).
Definition exactStats (sel : AuditRecord → bool) (l : list AuditRecord) (m : gmap string UsageStat) : Prop :=
  ∀ name, match m !! name with
          | None => cnt (λ r, sel r && (r.(Tool) =? name)%string) l = 0
          | Some s => s.(sName) = name ∧ exact (λ r, sel r && (r.(Tool) =? name)%string) l s.(sAllowed) s.(sDenied)
          end.
Definition toolOnly (sel : AuditRecord → bool) (r : AuditRecord) : bool := sel r && negb (r.(Method) =? boundaryMethodCorpus)%string.
Definition corpusOnly (sel : AuditRecord → bool) (r : AuditRecord) : bool := sel r && (r.(Method) =? boundaryMethodCorpus)%string.
Definition exactTally (sel : AuditRecord → bool) (l : list AuditRecord) (t : tally) : Prop :=
  exact sel l t.(tAllowed) t.(tDenied) ∧ exactStats (toolOnly sel) l t.(tTools) ∧ exactStats (corpusOnly sel) l t.(tCorpora).

Lemma cnt_zero sel f l : cnt sel l = 0 → cnt (λ r, sel r && f r) l = 0.
Proof.
  unfold cnt. induction l as [|x l IH]; [done|]. cbn. destruct (sel x); cbn; [lia|]. apply IH.
Qed.
Lemma exact_zero sel l : cnt sel l = 0 → exact sel l 0 0.
Proof. intros Hz. split; by rewrite cnt_zero. Qed.
Lemma exactStats_zero sel l : cnt sel l = 0 → exactStats sel l ∅.
Proof. intros Hz name. rewrite lookup_empty. by apply cnt_zero. Qed.
Lemma exactTally_zero sel l : cnt sel l = 0 → exactTally sel l zeroTally.
Proof. intros Hz. split_and!; [by apply exact_zero|apply exactStats_zero; by apply cnt_zero..]. Qed.

(** One more record. *)
Lemma exact_snoc sel l x a d : exact sel l a d → exact sel (l ++ [x])
  (if sel x && isAllow x then i64 (a + 1) else a) (if sel x && negb (isAllow x) then i64 (d + 1) else d).
Proof.
  intros [-> ->]. unfold exact. rewrite !cnt_snoc. destruct (sel x); cbn [andb]; [|by rewrite !Z.add_0_r].
  destruct (isAllow x); cbn [negb]; rewrite ?i64_idem_add, ?Z.add_0_r; done.
Qed.
Lemma exactStats_other sel l x m : sel x = false → exactStats sel l m → exactStats sel (l ++ [x]) m.
Proof.
  intros Hx Hm name. specialize (Hm name). destruct (m !! name) as [s|].
  - destruct Hm as [Hn He]. split; [done|]. pose proof (exact_snoc _ l x _ _ He) as Hs. cbv beta in Hs. by rewrite Hx in Hs.
  - rewrite cnt_snoc, Hx. cbn. lia.
Qed.
Lemma exactStats_bump sel l x m : sel x = true → exactStats sel l m → exactStats sel (l ++ [x]) (bumpName (isAllow x) x.(Tool) m).
Proof.
  intros Hx Hm name. unfold bumpName. specialize (Hm name). destruct (decide (x.(Tool) = name)) as [<-|Hne].
  - rewrite lookup_insert_eq. set (s := default _ _). assert (s.(sName) = x.(Tool) ∧ exact (λ r, sel r && (r.(Tool) =? x.(Tool))%string) l s.(sAllowed) s.(sDenied)) as [Hs He].
    { unfold s. destruct (m !! x.(Tool)) as [s0|]; [done|]. split; [done|]. by apply exact_zero. }
    apply (exact_snoc _ l x) in He. cbv beta in He. rewrite Hx, String.eqb_refl in He. cbn [andb] in He. unfold bumpStat. destruct (isAllow x); cbn [negb] in He; by split.
  - rewrite lookup_insert_ne by done. assert ((x.(Tool) =? name)%string = false) as Hn by by apply String.eqb_neq. destruct (m !! name) as [s|].
    + destruct Hm as [Hs He]. split; [done|]. apply (exact_snoc _ l x) in He. cbv beta in He. by rewrite Hx, Hn in He.
    + rewrite cnt_snoc, Hx, Hn. cbn. lia.
Qed.
Lemma exactTally_bump sel l x t : sel x = true → exactTally sel l t → exactTally sel (l ++ [x]) (bump x t).
Proof.
  intros Hx (He & Ht & Hc). apply (exact_snoc _ l x) in He. cbv beta in He. rewrite Hx in He. cbn [andb] in He. unfold bump. fold (isAllow x).
  assert (∀ f g, exactTally sel (l ++ [x]) (mkTally (if isAllow x then i64 (tAllowed t + 1) else tAllowed t) (if negb (isAllow x) then i64 (tDenied t + 1) else tDenied t) f g)
    ↔ exactStats (toolOnly sel) (l ++ [x]) f ∧ exactStats (corpusOnly sel) (l ++ [x]) g) as Hm by (intros f g; unfold exactTally; tauto).
  destruct (x.(Method) =? boundaryMethodCorpus)%string eqn:Hmeth.
  - assert (exactStats (toolOnly sel) (l ++ [x]) t.(tTools) ∧ exactStats (corpusOnly sel) (l ++ [x]) (bumpName (isAllow x) x.(Tool) t.(tCorpora))) as Hp.
    { split; [apply exactStats_other|apply exactStats_bump]; try done; unfold toolOnly, corpusOnly; by rewrite Hx, Hmeth. }
    apply Hm in Hp. by destruct (isAllow x).
  - assert (exactStats (toolOnly sel) (l ++ [x]) (bumpName (isAllow x) x.(Tool) t.(tTools)) ∧ exactStats (corpusOnly sel) (l ++ [x]) t.(tCorpora)) as Hp.
    { split; [apply exactStats_bump|apply exactStats_other]; try done; unfold toolOnly, corpusOnly; by rewrite Hx, Hmeth. }
    apply Hm in Hp. by destruct (isAllow x).
Qed.
Lemma exactTally_other sel l x t : sel x = false → exactTally sel l t → exactTally sel (l ++ [x]) t.
Proof.
  intros Hx (He & Ht & Hc). split_and!.
  - apply (exact_snoc _ l x) in He. cbv beta in He. by rewrite Hx in He.
  - apply exactStats_other; [|done]. unfold toolOnly. by rewrite Hx.
  - apply exactStats_other; [|done]. unfold corpusOnly. by rewrite Hx.
Qed.

(** The maps after the records [l]. *)
Definition forOrg (since until_ org : string) (r : AuditRecord) : bool := counted since until_ r && (orgOf r =? org)%string.
Definition metered (since until_ : string) (l : list AuditRecord) (st : Z * gmap string tally) : Prop :=
  st.1 = i64 (cnt (counted since until_) l) ∧
  ∀ org, match st.2 !! org with
         | None => cnt (forOrg since until_ org) l = 0
         | Some t => exactTally (forOrg since until_ org) l t ∧ 0 < cnt (forOrg since until_ org) l
         end.

Lemma step_metered since until_ l x st : metered since until_ l st → metered since until_ (l ++ [x]) (step since until_ x st).
Proof.
  intros [Hn Hm]. unfold step. destruct (counted since until_ x) eqn:Hx.
  - split; cbn [fst snd]; [rewrite Hn, cnt_snoc, Hx; apply i64_idem_add|]. intros org. specialize (Hm org).
    destruct (decide (orgOf x = org)) as [<-|Hne].
    + assert (forOrg since until_ (orgOf x) x = true) as Hf by (unfold forOrg; by rewrite Hx, String.eqb_refl).
      rewrite lookup_insert_eq. split; [|rewrite cnt_snoc, Hf; unfold cnt; lia]. apply exactTally_bump; [done|].
      destruct (st.2 !! orgOf x) as [t|]; [by destruct Hm|]. by apply exactTally_zero.
    + assert (forOrg since until_ org x = false) as Hf by (unfold forOrg; rewrite Hx; by apply String.eqb_neq).
      rewrite lookup_insert_ne by done. destruct (st.2 !! org) as [t|].
      * destruct Hm as [Ht Hp]. split; [by apply exactTally_other|]. rewrite cnt_snoc, Hf. lia.
      * rewrite cnt_snoc, Hf. lia.
  - split; [rewrite cnt_snoc, Hx, Hn; f_equal; lia|]. intros org. specialize (Hm org).
    assert (forOrg since until_ org x = false) as Hf by (unfold forOrg; by rewrite Hx). destruct (st.2 !! org) as [t|].
    + destruct Hm as [Ht Hp]. split; [by apply exactTally_other|]. rewrite cnt_snoc, Hf. lia.
    + rewrite cnt_snoc, Hf. lia.
Qed.


(** The records a scan reads. *)
Fixpoint scanned (ls : list string) : option (list AuditRecord) :=
  match ls with
  | [] => Some []
  | raw :: ls =>
      if maxLine <=? strlen raw then None
      else if (EvLog.dropCR raw =? "")%string then scanned ls
      else r ← unmarshalRecord (EvLog.dropCR raw); rs ← scanned ls; Some (r :: rs)
  end.

Lemma scan_spec since until_ ls st : scan since until_ ls st = rs ← scanned ls; Some (fold_left (λ st r, step since until_ r st) rs st).
Proof.
  revert st. induction ls as [|raw ls IH]; intros st; [done|]. cbn [scan scanned]. destruct (maxLine <=? strlen raw); [done|].
  destruct (EvLog.dropCR raw =? "")%string; [apply IH|]. destruct (unmarshalRecord _) as [r|]; [|done]. cbn [mbind option_bind]. rewrite IH.
  by destruct (scanned ls).
Qed.
Lemma fold_metered since until_ rs : metered since until_ rs (fold_left (λ st r, step since until_ r st) rs (0, ∅)).
Proof.
  induction rs as [|r rs IH] using rev_ind; [split; [done|]; intros org; cbn [fold_left snd]; by rewrite lookup_empty|].
  rewrite fold_left_app. cbn [fold_left]. by apply step_metered.
Qed.

Definition exactUsage (since until_ : string) (rs : list AuditRecord) (u : OrgUsage) : Prop :=
  exact (forOrg since until_ u.(uOrg)) rs u.(uAllowed) u.(uDenied) ∧
  (∀ s, s ∈ u.(uTools) → exact (λ r, toolOnly (forOrg since until_ u.(uOrg)) r && (r.(Tool) =? s.(sName))%string) rs s.(sAllowed) s.(sDenied)) ∧
  (∀ s, s ∈ u.(uCorpora) → exact (λ r, corpusOnly (forOrg since until_ u.(uOrg)) r && (r.(Tool) =? s.(sName))%string) rs s.(sAllowed) s.(sDenied)).

Lemma sortRows_elem {A} (by_ : A → list string) (m : gmap string A) x : x ∈ sortRows by_ m ↔ ∃ k, m !! k = Some x.
Proof.
  rewrite sortRows_perm, list_elem_of_fmap. split.
  - intros ([k y] & -> & Hin). exists k. by apply elem_of_map_to_list.
  - intros [k Hk]. exists (k, x). split; [done|]. by apply elem_of_map_to_list.
Qed.
Lemma stats_exact sel l m s : exactStats sel l m → s ∈ sortedStats m → exact (λ r, sel r && (r.(Tool) =? s.(sName))%string) l s.(sAllowed) s.(sDenied).
Proof.
  intros Hm [k Hk]%sortRows_elem. specialize (Hm k). rewrite Hk in Hm. by destruct Hm as [-> He].
Qed.

(** The usage report is exact. Its number of crossings and, for each organisation and each of its tools and
    corpora, its numbers of admitted and refused crossings are the numbers of records of the
    log that the bounds select; every organisation with such a record is in the report, and
    none is there twice. A log with a line that is not a record gives no report. *)
Theorem usage_is_exact data since until_ rep :
  AggregateUsage data since until_ = Some rep →
  ∃ rs, scanned (lines data) = Some rs ∧ rep.(Crossings) = i64 (cnt (counted since until_) rs) ∧
    (∀ u, u ∈ rep.(Orgs) → exactUsage since until_ rs u) ∧
    (∀ r, r ∈ rs → counted since until_ r = true → ∃ u, u ∈ rep.(Orgs) ∧ u.(uOrg) = orgOf r) ∧
    NoDup (uOrg <$> rep.(Orgs)).
Proof.
  unfold AggregateUsage. rewrite scan_spec. destruct (scanned (lines data)) as [rs|]; [|done]. cbn [mbind option_bind].
  pose proof (fold_metered since until_ rs) as [Hn Hm]. destruct (fold_left _ rs (0, ∅)) as [n m]. cbn [fst snd] in *. intros [= <-]. cbn [Crossings Orgs].
  set (um := map_imap (λ org t, Some (usageOf org t)) m).
  assert (∀ k u, um !! k = Some u ↔ ∃ t, m !! k = Some t ∧ u = usageOf k t) as Hum.
  { intros k u. unfold um. rewrite map_lookup_imap. destruct (m !! k) as [t|]; cbn; [|naive_solver]. split; [intros [= <-]; by exists t|by intros (t' & [= <-] & ->)]. }
  exists rs. split_and!; [done|done| | |].
  - intros u [k (t & Hk & ->)%Hum]%sortRows_elem. specialize (Hm k). rewrite Hk in Hm. destruct Hm as [(He & Ht & Hc) _].
    split_and!; [done|intros s Hs; by eapply stats_exact..].
  - intros r Hr Hc. assert (forOrg since until_ (orgOf r) r = true) as Hf by (unfold forOrg; by rewrite Hc, String.eqb_refl).
    specialize (Hm (orgOf r)). destruct (m !! orgOf r) as [t|] eqn:Ht.
    + exists (usageOf (orgOf r) t). split; [|done]. apply sortRows_elem. exists (orgOf r). apply Hum. by exists t.
    + exfalso. assert (r ∈ List.filter (forOrg since until_ (orgOf r)) rs) as Hin by (apply list_elem_of_In, List.filter_In; split; [by apply list_elem_of_In|done]).
      unfold cnt in Hm. destruct (List.filter _ rs); [by apply not_elem_of_nil in Hin|cbn in Hm; lia].
  - rewrite sortRows_perm. assert (uOrg <$> (map_to_list um).*2 = (map_to_list um).*1) as ->; [|apply NoDup_fst_map_to_list].
    rewrite <- list_fmap_compose. apply list_fmap_ext. intros i [k u] Hi. cbn.
    assert (um !! k = Some u) as Hk by (apply elem_of_map_to_list; by eapply list_elem_of_lookup_2). apply Hum in Hk as (t & _ & ->). done.
Qed.

(** ** From decisions to numbers *)

(** A crossing asked of the boundary, of a tool or of a corpus, and what the sink does. *)
Record request := mkRequest { qIO : IO; qCorpus : bool; qOrg : string; qName : string }.
Definition cross (q : request) (b : Boundary) : bool * Boundary :=
  let '(ok, _, b) := if q.(qCorpus) then CheckCorpus q.(qIO) q.(qOrg) q.(qName) b else Check_ q.(qIO) q.(qOrg) q.(qName) b in (ok, b).
Definition decision (q : request) (b : Boundary) : bool :=
  if q.(qCorpus) then corpusAllowed b q.(qOrg) q.(qName) else Allowed b q.(qOrg) q.(qName).
Definition recordOf (q : request) (b : Boundary) : AuditRecord :=
  if q.(qCorpus) then crossing b boundaryMethodCorpus q.(qOrg) q.(qName) (decision q b) (corpusReason b q.(qOrg) q.(qName))
  else crossing b boundaryMethodTool q.(qOrg) q.(qName) (decision q b) (toolReason b q.(qOrg) q.(qName)).
Lemma cross_spec q b : cross q b = (decision q b, match b.(audit) with None => b | Some a => setAudit (Some (write q.(qIO) (recordOf q b) a).2) b end).
Proof.
  unfold cross, decision, recordOf, decision. destruct (qCorpus q); [rewrite CheckCorpus_spec|rewrite advertised_is_admitted]; reflexivity.
Qed.
Fixpoint runCross (qs : list request) (b : Boundary) : list bool * Boundary :=
  match qs with
  | [] => ([], b)
  | q :: qs => let '(ok, b) := cross q b in let '(l, b) := runCross qs b in (ok :: l, b)
  end.


(** The sink takes each record whole. *)
Definition taken (q : request) (b : Boundary) : Prop :=
  match b.(audit) with
  | None => False
  | Some a => fits q.(qIO) (recordOf q b) a ∧ q.(qIO).(ioErr) = false ∧
              q.(qIO).(ioTaken) = String.length (lineOf (linked q.(qIO).(ioNow) (recordOf q b) a))
  end.
Fixpoint allTaken (qs : list request) (b : Boundary) : Prop :=
  match qs with [] => True | q :: qs => taken q b ∧ allTaken qs (cross q b).2 end.

(** The log holds the lines of the records [rs]. *)
Definition written (a : AuditLog) (rs : list AuditRecord) : Prop :=
  ends a.(disk) ∧ lines a.(disk) = marshalRecord <$> rs ∧
  Forall (λ r, rec_ok r ∧ strlen (marshalRecord r) < maxLine) rs ∧ validUTF8 a.(prev) = true.

Lemma write_written io rec a rs :
  fits io rec a → io.(ioErr) = false → io.(ioTaken) = String.length (lineOf (linked io.(ioNow) rec a)) →
  written a rs → written (write io rec a).2 (rs ++ [linked io.(ioNow) rec a]).
Proof.
  intros [Hr Hlen] Herr Htk (He & Hl & Hrs & Hp). unfold write. rewrite Herr, Htk, Nat.eqb_refl. cbn [orb negb]. set (r := linked (ioNow io) rec a) in *.
  assert (rec_ok r) as Hrec.
  { apply rec_ok_setHash; [apply chainHash_ascii|]. by apply rec_ok_setLink; [apply is_int_i64| |]. }
  assert (Hgoal : ∀ c obs, written (mkLog (a.(disk) +:+ lineOf r) r.(Seq) r.(Hash) c r.(Seq) r.(Hash) a.(failClosed) a.(sync) obs) (rs ++ [r])).
  { intros c obs. split_and!; cbn [disk prev].
    - apply ends_app; [by right; exists (marshalRecord r)|]. unfold lineOf, marshalRecord. by destruct (marshalStruct (fields r)).
    - rewrite lines_ends, Hl, fmap_app by done. f_equal. unfold lineOf. rewrite <- (append_nil_r newline), lines_newline by by apply marshalRecord_line. done.
    - apply Forall_app. split; [done|]. by apply Forall_singleton.
    - apply chainHash_ascii. }
  destruct (a.(sync) && negb io.(ioSync)); apply Hgoal.
Qed.

Lemma scanned_written rs : Forall (λ r, rec_ok r ∧ strlen (marshalRecord r) < maxLine) rs → scanned (marshalRecord <$> rs) = Some rs.
Proof.
  induction 1 as [|r rs [Hr Hl] Hrs IH]; [done|]. cbn [fmap list_fmap scanned]. destruct (Z.leb_spec maxLine (strlen (marshalRecord r))); [lia|].
  assert (EvLog.dropCR (marshalRecord r) = marshalRecord r) as -> by apply EvLog.dropCR_struct.
  destruct (String.eqb_spec (marshalRecord r) "") as [E|_]; [by unfold marshalRecord, marshalStruct in E|]. rewrite record_roundtrip by done. cbn [mbind option_bind].
  change (list_fmap _ _ marshalRecord rs) with (marshalRecord <$> rs). by rewrite IH.
Qed.

(** A record tells its crossing. *)
Definition tells (r : AuditRecord) (qd : request * bool) : Prop :=
  r.(Backend) = boundaryAuditBackend ∧ r.(Method) = (if qd.1.(qCorpus) then boundaryMethodCorpus else boundaryMethodTool) ∧
  r.(Peer) = qd.1.(qOrg) ∧ isAllow r = qd.2.
Lemma linked_fields now r a : let l := linked now r a in
  Backend l = Backend r ∧ Method l = clipField (Method r) ∧ Peer l = Peer r ∧ Decision l = Decision r.
Proof. done. Qed.
Lemma linked_tells q b a : tells (linked q.(qIO).(ioNow) (recordOf q b) a) (q, decision q b).
Proof.
  destruct (linked_fields q.(qIO).(ioNow) (recordOf q b) a) as (Hb & Hm & Hp & Hd). unfold tells, isAllow. rewrite Hb, Hm, Hp, Hd. cbn [fst snd].
  unfold recordOf. destruct (qCorpus q), (decision q b); done.
Qed.

Lemma crossings_written qs b a rs : b.(audit) = Some a → written a rs → allTaken qs b →
  ∃ a' rs', (runCross qs b).2.(audit) = Some a' ∧ written a' (rs ++ rs') ∧ Forall2 tells rs' (zip qs (runCross qs b).1).
Proof.
  revert b a rs. induction qs as [|q qs IH]; intros b a rs Ha Hw Ht; [exists a, []; rewrite app_nil_r; split_and!; [done..|constructor]|].
  destruct Ht as [Hq Ht]. unfold taken in Hq. rewrite Ha in Hq. destruct Hq as (Hf & He & Hk). cbn [runCross].
  rewrite cross_spec, Ha in Ht |- *. cbn [snd] in Ht.
  destruct (IH (setAudit (Some (write (qIO q) (recordOf q b) a).2) b) _ _ eq_refl (write_written _ _ _ _ Hf He Hk Hw) Ht) as (a' & rs' & Ha' & Hw' & Hm).
  destruct (runCross qs _) as [l b'] eqn:E. cbn [fst snd] in *. exists a', (linked (ioNow (qIO q)) (recordOf q b) a :: rs'). split_and!; [done| |].
  - by rewrite <- app_assoc in Hw'.
  - cbn [zip zip_with]. constructor; [apply linked_tells|done].
Qed.

(** How many crossings satisfy a predicate. *)
Definition shownOrg (q : request) : string := if (q.(qOrg) =? "")%string then unrecognizedOrg else q.(qOrg).
Definition decided (qds : list (request * bool)) (org : string) (d : bool) : Z :=
  Z.of_nat (length (List.filter (λ qd : request * bool, (shownOrg qd.1 =? org)%string && Bool.eqb qd.2 d) qds)).

Lemma tells_counted r qd : tells r qd → counted "" "" r = true.
Proof. intros (Hb & Hm & _). unfold counted. rewrite Hb, Hm. by destruct (qCorpus qd.1). Qed.
Lemma cnt_decided rs qds org d : Forall2 tells rs qds → cnt (λ r, forOrg "" "" org r && Bool.eqb (isAllow r) d) rs = decided qds org d.
Proof.
  unfold cnt, decided. intros Hf. f_equal. induction Hf as [|r qd rs qds Hr Hf IH]; [done|]. cbn [List.filter].
  assert (forOrg "" "" org r && Bool.eqb (isAllow r) d = (shownOrg qd.1 =? org)%string && Bool.eqb qd.2 d) as ->.
  { unfold forOrg. rewrite (tells_counted _ _ Hr). destruct Hr as (_ & _ & Hp & ->). unfold orgOf, shownOrg. by rewrite Hp. }
  destruct (_ && _); cbn [length]; by rewrite IH.
Qed.

(** C24. The usage export is what the boundary decided. Starting from an empty audit log that takes every
    record, after any sequence of tool and corpus crossings the log replays to a report
    whose total is the number of crossings, and whose numbers of admitted and refused
    crossings of an organisation are the numbers of its crossings that the boundary
    admitted and refused; every organisation that asked is in it. *)
Theorem crossings_are_metered qs b a :
  b.(audit) = Some a → a.(disk) = "" → a.(prev) = "" → allTaken qs b →
  ∃ a' rep, (runCross qs b).2.(audit) = Some a' ∧ AggregateUsage a'.(disk) "" "" = Some rep ∧
    rep.(Crossings) = i64 (Z.of_nat (length qs)) ∧
    (∀ u, u ∈ rep.(Orgs) → u.(uAllowed) = i64 (decided (zip qs (runCross qs b).1) u.(uOrg) true) ∧
                           u.(uDenied) = i64 (decided (zip qs (runCross qs b).1) u.(uOrg) false)) ∧
    (∀ q, q ∈ qs → ∃ u, u ∈ rep.(Orgs) ∧ u.(uOrg) = shownOrg q).
Proof.
  intros Ha Hd Hp Ht. assert (written a []) as Hw by (unfold written; rewrite Hd, Hp; split_and!; [by left|done|constructor|done]).
  destruct (crossings_written qs b a [] Ha Hw Ht) as (a' & rs & Ha' & (_ & Hl & Hok & _) & Hm). cbn [app] in Hl, Hok.
  assert (length (runCross qs b).1 = length qs) as Hlen.
  { clear. revert b. induction qs as [|q qs IH]; intros b; [done|]. cbn [runCross]. destruct (cross q b) as [d b1]. specialize (IH b1).
    destruct (runCross qs b1) as [l b2]. cbn in *. by rewrite IH. }
  assert (∃ rep, AggregateUsage a'.(disk) "" "" = Some rep) as [rep Hrep].
  { unfold AggregateUsage. rewrite scan_spec, Hl, scanned_written by done. cbn [mbind option_bind]. destruct (fold_left _ rs _). by eexists. }
  exists a', rep. destruct (usage_is_exact _ _ _ _ Hrep) as (rs' & Hrs & Hn & Hu & Hin & _). rewrite Hl, scanned_written in Hrs by done. injection Hrs as <-.
  split_and!; [done|done| | |].
  - rewrite Hn. f_equal. unfold cnt. rewrite (List.forallb_filter_id (counted "" "") rs).
    + apply Forall2_length in Hm. rewrite Hm, length_zip_with. lia.
    + apply forallb_forall. intros r Hr. apply list_elem_of_In, list_elem_of_lookup_1 in Hr as [i Hi]. destruct (Forall2_lookup_l _ _ _ _ _ Hm Hi) as (qd & _ & Hqd). by eapply tells_counted.
  - intros u [[Hua Hud] _]%Hu. rewrite Hua, Hud. split; f_equal; rewrite <- (cnt_decided rs) by done; apply cnt_ext; intros r; by destruct (isAllow r).
  - intros q [i Hq]%list_elem_of_lookup_1. destruct (lookup_lt_is_Some_2 (runCross qs b).1 i) as [d Hdd]; [rewrite Hlen; by eapply lookup_lt_Some|].
    assert (zip qs (runCross qs b).1 !! i = Some (q, d)) as Hz by (apply lookup_zip_with_Some; by exists q, d).
    destruct (Forall2_lookup_r _ _ _ _ _ Hm Hz) as (r & Hri & Hr). pose proof (tells_counted _ _ Hr) as Hc.
    destruct (Hin r) as (u & Hu1 & Hu2); [by eapply list_elem_of_lookup_2|done|]. exists u. split; [done|]. rewrite Hu2. destruct Hr as (_ & _ & Hpr & _). unfold orgOf, shownOrg. by rewrite Hpr.
Qed.

End Thm.
End FedThm.

(** ** Concrete runs *)

Import Chain Chain.AuditRuns Fed FedThm.

(** A crossing whose record the sink takes whole. *)
Definition ask (corpus : bool) (org name : string) (b : Boundary) : request :=
  let q n := mkRequest (mkIO "t" n false true cpEnv) corpus org name in
  match b.(audit) with
  | Some a => q (String.length (lineOf (linked "t" (recordOf (q 0%nat) b) a)))
  | None => q 0%nat
  end.
Definition acme : Boundary :=
  NewBoundary [mkGrant "acme" ["db_*"] ["docs"]] [mkMapping "pubkey:AQID" "acme" "svc" "acme.example"] (Some (NewAuditLog "")).
Definition q1 : request := ask false "acme" "db_read" acme.
Definition acme1 : Boundary := (cross q1 acme).2.
Definition q2 : request := ask true "" "docs" acme1.

(** The check of [allTaken]. *)
Definition takenb (q : request) (b : Boundary) : bool :=
  match b.(audit) with
  | None => false
  | Some a => forallb val_okb (fVal <$> fields (prepare q.(qIO).(ioNow) (recordOf q b))) && (strlen (marshalRecord (linked q.(qIO).(ioNow) (recordOf q b) a)) <? maxLine)
              && negb q.(qIO).(ioErr) && (q.(qIO).(ioTaken) =? String.length (lineOf (linked q.(qIO).(ioNow) (recordOf q b) a)))%nat
  end.
Fixpoint allTakenb (qs : list request) (b : Boundary) : bool :=
  match qs with [] => true | q :: qs => takenb q b && allTakenb qs (cross q b).2 end.
Lemma allTakenb_sound qs b : allTakenb qs b = true → allTaken qs b.
Proof.
  revert b. induction qs as [|q qs IH]; intros b; [done|]. cbn [allTakenb allTaken]. intros [Ht Hq]%andb_true_iff. split; [|by apply IH].
  unfold takenb in Ht. unfold taken. destruct (audit b) as [a|]; [|done]. rewrite !andb_true_iff, negb_true_iff in Ht. destruct Ht as [[[Hr Hl] He] Hk].
  split_and!; [split; [by apply rec_okb|by apply Z.ltb_lt]|done|by apply Nat.eqb_eq].
Qed.

Lemma crossings_are_metered_witness : ∃ a' rep, (runCross [q1; q2] acme).2.(audit) = Some a' ∧ AggregateUsage a'.(disk) "" "" = Some rep ∧
  rep.(Crossings) = 2 ∧ rep.(Orgs) = [mkUsage "(unrecognized)" 0 1 [] [mkStat "docs" 0 1]; mkUsage "acme" 1 0 [mkStat "db_read" 1 0] []].
Proof.
  destruct (crossings_are_metered [q1; q2] acme (NewAuditLog "")) as (a' & rep & Ha & Hr & Hn & _); [reflexivity..| |].
  - apply allTakenb_sound. vm_compute. reflexivity.
  - exists a', rep. split_and!; [exact Ha|exact Hr|exact Hn|].
    assert ((a0 ← (runCross [q1; q2] acme).2.(audit); Orgs <$> AggregateUsage a0.(disk) "" "") =
      Some [mkUsage "(unrecognized)" 0 1 [] [mkStat "docs" 0 1]; mkUsage "acme" 1 0 [mkStat "db_read" 1 0] []]) as Ho by (vm_compute; reflexivity).
    rewrite Ha in Ho. cbn [mbind option_bind] in Ho. rewrite Hr in Ho. injection Ho as Ho. exact Ho.
Defined.

Lemma spiffe_label_names_key_witness : SpiffeID "acme.example" "AQID" = "spiffe://acme.example/peer/AQID" ∧ ("AQID" : string) = "AQID".
Proof. split; [reflexivity|]. apply (spiffe_label_names_key "acme.example" "AQID" "acme.example" "AQID"); [reflexivity|vm_compute; discriminate]. Defined.

Lemma distinct_orgs_have_distinct_labels_witness : spiffeForOrg acme "acme" ≠ "" ∧ ("acme" : string) = "acme".
Proof.
  split; [vm_compute; discriminate|]. apply (distinct_orgs_have_distinct_labels [mkGrant "acme" ["db_*"] ["docs"]]
    [mkMapping "pubkey:AQID" "acme" "svc" "acme.example"] (Some (NewAuditLog "")) "acme" "acme"); [reflexivity..|vm_compute; discriminate].
Defined.

Lemma usage_is_exact_witness : ∃ rs, scanned (lines "") = Some rs ∧ cnt (counted "" "") rs = 0.
Proof.
  destruct (usage_is_exact "" "" "" (mkReport "" "" 0 []) eq_refl) as (rs & Hs & _). exists rs. split; [exact Hs|]. injection Hs as <-. reflexivity.
Defined.

(** A crossing is admitted although its record could not be written, also when the log is
    set to fail closed: the boundary drops the error. *)
Theorem unrecorded_crossing_is_admitted :
  let b := setAudit (Some (WithFailClosed true (NewAuditLog ""))) acme in
  let '(ok, _, b') := Check_ (mkIO "t" 0 true true cpEnv) "acme" "db_read" b in
  ok = true ∧ disk <$> b'.(audit) = Some "".
Proof. vm_compute. done. Qed.

(** A mapping of a token issuer is also read as a pattern for the names of peers. *)
Theorem issuer_mapping_admits_peer :
  OrgFor (NewBoundary [] [mkMapping "issuer:*" "acme" "" ""] None) "issuer:x" "" = "acme" ∧
  OrgForIssuer (NewBoundary [] [mkMapping "issuer:*" "acme" "" ""] None) "x" = "".
Proof. done. Qed.
