(* ===== verification/Exchange.v ===== *)
(** * Exchange: capabilities for partner organisations

    [federation/exchange.go]: the token-exchange endpoint. A request carries a proof of
    possession ([Dpop]), a subject token signed by a pinned issuer, and the details it asks
    for; the endpoint mints a capability ([Capability]) for what the organisation of the
    issuer is granted at the boundary ([Federation]). The parsing of forms is [net/http]'s and
    a parameter; message texts are left out. A key that is repeated in one entry of the
    details is read as its last value. *)
From stdpp Require Import base list strings gmap.
From Stdlib Require Import ZArith Lia Ascii.
From Stdlib Require Import Strings.Byte.
From S2P Require Import Prelude GoStd Json JsonCodec Base64 Crypto Checkpoint Ledger Policy Engine Capability Dpop Federation.
Open Scope Z_scope.
Open Scope mesh_scope.

(** [Request.ParseForm] on a body of at most so many bytes: content type and body to the
    values of each key. *)
Class HTTPForm := { ParseForm : Z → string → string → option (gmap string (list string)) }.

Module Exch.
Import Dpop.

Definition exchangeMaxBodyBytes : Z := 32 * 1024.
Definition federationGrantMaxLifetime : Z := 3600 * Second.
Definition subjectTokenAlg : string := "ES256".
Definition authDetailsType : string := "urn:meshmcp:federation-grant".
Definition GrantTokenExchange : string := "urn:ietf:params:oauth:grant-type:token-exchange".
Definition TokenTypeAccessToken : string := "urn:ietf:params:oauth:token-type:access_token".

(** ** Subject tokens *)

Definition audience := list string.
Definition audienceContains (a : audience) (want : string) : bool := existsb (λ v, (v =? want)%string) a.
(** [jwtAudience.UnmarshalJSON]: a string, or an array of strings. *)
Definition decodeAudience (j : json) : option audience :=
  match j with
  | JStr s => Some [s]
  | JNull => Some [""]
  | JArr l => strings l
  | _ => None
  end.

Record subjectTokenClaims := mkSubject {
  stIssuer : string; stSubject : string; stAudience : audience; stIssuedAt : Z; stNotBefore : Z; stExpiresAt : Z }.

Definition subjectFields : list field :=
  [mkField "iss" false (VStr ""); mkField "sub" false (VStr ""); mkField "iat" true (VInt 0);
   mkField "nbf" true (VInt 0); mkField "exp" false (VInt 0)].
Fixpoint setSubject (ms : list (string * string * json)) (fs : list field) (aud : audience) : option (list field * audience) :=
  match ms with
  | [] => Some (fs, aud)
  | (k, raw, j) :: ms =>
      if setsField "aud" k then aud ← decodeAudience j; setSubject ms fs aud
      else fs ← setMember fs (k, raw, j); setSubject ms fs aud
  end.
Definition unmarshalSubject (s : string) : option subjectTokenClaims :=
  v ← parseJSON s;
  match v with
  | JObj ms =>
      r ← setSubject ms subjectFields [];
      match r with
      | ([mkField _ _ (VStr iss); mkField _ _ (VStr sub); mkField _ _ (VInt iat); mkField _ _ (VInt nbf); mkField _ _ (VInt exp)], aud) =>
          Some (mkSubject iss sub aud iat nbf exp)
      | _ => None
      end
  | JNull => Some (mkSubject "" "" [] 0 0 0)
  | _ => None
  end.
Definition unmarshalAlg (s : string) : option string :=
  fs ← unmarshalStruct [mkField "alg" false (VStr "")] s;
  match fs with [mkField _ _ (VStr alg)] => Some alg | _ => None end.

Inductive tokenErr := BadToken | WrongAlg | UnpinnedIssuer | BadTokenSig | WrongAudience | TokenExpired | TokenNotYet.

Definition parseSubjectToken (token : string) : result tokenErr (string * subjectTokenClaims * string * list Z) :=
  match split "."%char token with
  | [p0; p1; p2] =>
      let* hb := of_option BadToken (DecodeString RawURLEncoding p0) in
      let* cb := of_option BadToken (DecodeString RawURLEncoding p1) in
      let* sig := of_option BadToken (DecodeString RawURLEncoding p2) in
      let* alg := of_option BadToken (unmarshalAlg (of_codes hb)) in
      let* claims := of_option BadToken (unmarshalSubject (of_codes cb)) in
      Ok (alg, claims, p0 +:+ "." +:+ p1, sig)
  | _ => Err BadToken
  end.

Section Exch.
Context `{Ed25519} `{SHA256} `{ES256} `{NetURL} `{Printable} `{HTTPForm} `{Cap.CapCodec}.

Definition verifySubjectTokenSignature (pub : Z * Z) (signingInput : string) (sig : list Z) : result tokenErr unit :=
  let* _ := guard_err (negb (length sig =? 64)%nat) BadTokenSig in
  guard_err (negb (ecVerify pub (sha256 signingInput) (SetBytes (take 32 sig), SetBytes (drop 32 sig)))) BadTokenSig.
Definition checkSubjectTokenAudience (c : subjectTokenClaims) (want : string) : result tokenErr unit :=
  guard_err ((want =? "")%string || negb (audienceContains c.(stAudience) want)) WrongAudience.
Definition checkSubjectTokenTimeWindow (c : subjectTokenClaims) (now : Instant) : result tokenErr unit :=
  let* _ := guard_err ((c.(stExpiresAt) =? 0) || (c.(stExpiresAt) <=? Capability.Unix now)) TokenExpired in
  guard_err (negb (c.(stNotBefore) =? 0) && (Capability.Unix now <? c.(stNotBefore))) TokenNotYet.

Record ExchangeServer := mkExchange {
  Signer : PrivateKey;
  Bound : Fed.Boundary;
  PinnedIssuers : gmap string (option (Z * Z));     (* a pinned key may be nil *)
  ExchangeAudience : string;
  Scheme : string }.

Definition validateSubjectToken (s : ExchangeServer) (token : string) (now : Instant) : result tokenErr subjectTokenClaims :=
  let* p := parseSubjectToken token in
  let '(alg, claims, signingInput, sig) := p in
  let* _ := guard_err (negb (alg =? subjectTokenAlg)%string) WrongAlg in
  let* pub := of_option UnpinnedIssuer (mjoin (s.(PinnedIssuers) !! claims.(stIssuer))) in
  let* _ := verifySubjectTokenSignature pub signingInput sig in
  let* _ := checkSubjectTokenAudience claims s.(ExchangeAudience) in
  let* _ := checkSubjectTokenTimeWindow claims now in
  Ok claims.

(** ** Authorization details *)

Record authDetailEntry := mkEntry { eType : string; Actions : list string; Locations : list string; Datatypes : list string }.
Definition entryFields : list field :=
  [mkField "type" false (VStr ""); mkField "actions" true (VStrs []); mkField "locations" true (VStrs []); mkField "datatypes" true (VStrs [])].
(** [DisallowUnknownFields]: every member sets a field. *)
Definition decodeEntry (j : json) : option authDetailEntry :=
  match j with
  | JObj ms =>
      if forallb (λ m : string * string * json, existsb (λ f, setsField f.(fName) m.1.1) entryFields) ms then
        fs ← setMembers ms entryFields;
        match fs with
        | [mkField _ _ (VStr t); mkField _ _ (VStrs a); mkField _ _ (VStrs l); mkField _ _ (VStrs d)] => Some (mkEntry t a l d)
        | _ => None
        end
      else None
  | JNull => Some (mkEntry "" [] [] [])
  | _ => None
  end.
Fixpoint decodeEntries (l : list json) : option (list authDetailEntry) :=
  match l with
  | [] => Some []
  | j :: l =>
      e ← decodeEntry j;
      if (e.(eType) =? authDetailsType)%string then es ← decodeEntries l; Some (e :: es) else None
  end.
Definition decodeAuthorizationDetails (raw : string) : option (list authDetailEntry) :=
  if (raw =? "")%string then None
  else
    v ← parseJSON raw;
    match v with
    | JArr [] => None
    | JArr l => decodeEntries l
    | _ => None
    end.

(** A value that is not empty and not there yet goes to the end. *)
Definition addNew (acc : list string) (x : string) : list string :=
  if (x =? "")%string || bool_decide (x ∈ acc) then acc else acc ++ [x].
Definition collect (f : authDetailEntry → list string) (es : list authDetailEntry) : list string :=
  fold_left addNew (concat (f <$> es)) [].
Definition unionAuthDetails (es : list authDetailEntry) : option (list string * list string * string) :=
  let tools := collect Actions es in
  match collect Locations es with
  | [audience] => if nonempty tools then Some (tools, collect Datatypes es, audience) else None
  | _ => None
  end.

Definition exchangeMeta : string := "*?[".
Definition covered (granted : list string) (req : string) : bool :=
  existsb (λ g, (g =? "*")%string || (g =? req)%string || negb (containsAny req exchangeMeta) && pathMatchOk g req) granted.
Definition intersectGranted (requested granted : list string) : list string :=
  fold_left (λ out req, if covered granted req then addNew out req else out) requested [].

Definition federationDenyAllCorpus : string := of_codes (0 :: codes "-federation-no-corpus").
Definition clampCorpora (corpora : list string) : list string :=
  match corpora with [] => [federationDenyAllCorpus] | _ => corpora end.

(** ** The endpoint *)

Record httpRequest := mkHttp { hMethod : string; hHost : string; hPath : string; hDPoP : string; hType : string; hBody : string }.

Definition scheme (s : ExchangeServer) : string := if (s.(Scheme) =? "")%string then "https" else s.(Scheme).
Definition requestURL (s : ExchangeServer) (r : httpRequest) : string := scheme s +:+ "://" +:+ r.(hHost) +:+ r.(hPath).

(** [PostFormValue]. *)
Definition postValue (form : gmap string (list string)) (k : string) : string := default "" (form !! k ≫= head).

Inductive exchangeErr := InvalidRequest | UnsupportedGrantType | InvalidGrant (e : tokenErr) | InvalidTarget | InvalidScope | ServerError (e : capErr).
Definition lift {E E' A} (f : E → E') (r : result E A) : result E' A := match r with Ok a => Ok a | Err e => Err (f e) end.

(** What is minted for a form, after the proof was verified. *)
Definition grantFor (s : ExchangeServer) (form : gmap string (list string)) (rnd : option (list byte)) (now : Instant)
  : result exchangeErr string :=
  let* _ := guard_err (negb (postValue form "grant_type" =? GrantTokenExchange)%string) UnsupportedGrantType in
  let subjectToken := postValue form "subject_token" in
  let* _ := guard_err (subjectToken =? "")%string InvalidRequest in
  let* _ := guard_err (postValue form "subject_token_type" =? "")%string InvalidRequest in
  let* claims := lift InvalidGrant (validateSubjectToken s subjectToken now) in
  let org := Fed.OrgForIssuer s.(Bound) claims.(stIssuer) in
  let* _ := guard_err (org =? "")%string InvalidTarget in
  let* entries := of_option InvalidRequest (decodeAuthorizationDetails (postValue form "authorization_details")) in
  let* u := of_option InvalidRequest (unionAuthDetails entries) in
  let '(tools, corpora, audience) := u in
  let tools := intersectGranted tools (default [] (s.(Bound).(Fed.grants) !! org)) in
  let corpora := clampCorpora (intersectGranted corpora (default [] (s.(Bound).(Fed.corpora) !! org))) in
  let* _ := guard_err (negb (nonempty tools)) InvalidScope in
  let exp := now + federationGrantMaxLifetime in
  lift ServerError (Cap.IssueCapability s.(Signer)
    (Cap.mkClaims 0 "" ("federation-exchange:" +:+ org) (Fed.Principal s.(Bound) org) audience tools corpora false 0 0
       (Capability.Unix exp) "" "" "" "") rnd now).

Definition errCode (e : exchangeErr) : Z * string :=
  match e with
  | InvalidRequest => (400, "invalid_request")
  | UnsupportedGrantType => (400, "unsupported_grant_type")
  | InvalidGrant _ => (400, "invalid_grant")
  | InvalidTarget => (400, "invalid_target")
  | InvalidScope => (400, "invalid_scope")
  | ServerError _ => (500, "server_error")
  end.

(** A response: the method is refused, the proof is, the exchange is, or a token is minted. *)
Inductive reply := MethodNotAllowed | ProofRefused (r : response) | Refused (status : Z) (code : string) | Minted (token : string).

(** The body of a successful response. *)
Definition tokenBody (token : string) : string :=
  marshalStruct [mkField "access_token" false (VStr token); mkField "issued_token_type" false (VStr TokenTypeAccessToken);
    mkField "token_type" false (VStr "N_A"); mkField "expires_in" true (VInt (Z.quot federationGrantMaxLifetime Second));
    mkField "scope" true (VStr ""); mkField "refresh_token" true (VStr "")] +:+ newline.

(** [rndNonce] and [rnd] are the draws for a challenge nonce and for the capability's id. *)
Definition handleExchange {R} `{DPoPReplayStore R} (s : ExchangeServer) (r : httpRequest) (now : Instant)
    (rndNonce rnd : option (list byte)) (v : R) : reply * R :=
  if negb (r.(hMethod) =? "POST")%string then (MethodNotAllowed, v)
  else if (r.(hDPoP) =? "")%string then (ProofRefused (WriteDPoPTokenError DPoPErrInvalidProof ""), v)
  else
    match Verify (mkReq r.(hDPoP) r.(hMethod) (requestURL s r) now "" "" false) v with
    | (Err e, v) =>
        match kindOf e with
        | DPoPErrUseNonce =>
            let '(nonce, v) := IssueChallengeNonce rndNonce now v in
            (ProofRefused (WriteDPoPTokenError DPoPErrUseNonce (default "" nonce)), v)
        | kind => (ProofRefused (WriteDPoPTokenError kind ""), v)
        end
    | (Ok _, v) =>
        match ParseForm exchangeMaxBodyBytes r.(hType) r.(hBody) with
        | None => (Refused 400 "invalid_request", v)
        | Some form =>
            match grantFor s form rnd now with
            | Ok token => (Minted token, v)
            | Err e => (Refused (errCode e).1 (errCode e).2, v)
            end
        end
    end.

End Exch.
End Exch.
