(* ===== verification/ExchThm.v ===== *)
(** * ExchThm: what the exchange endpoint mints

    [minted_grant_stays_within_org]: a capability is minted for a verified token of a pinned
    issuer and opens no more than the boundary grants the issuer's organisation;
    [proof_gates_the_body]: without a valid proof of possession nothing else of the request is
    looked at. [escape_widens_grant] shows the exception to the first. *)
From stdpp Require Import base list strings gmap.
From Stdlib Require Import ZArith Lia Ascii.
From Stdlib Require Import Strings.Byte.
From S2P Require Import Prelude GoStd Json JsonCodec Base64 Crypto Checkpoint Ledger Policy Engine Capability Dpop DpopThm Federation FedThm Exchange.
Open Scope Z_scope.
Open Scope mesh_scope.

Module ExchThm.
Import Dpop Exch.

(** ** Scopes *)

Definition backslash : string := "\".

Lemma containsAny_meta s : containsAny s exchangeMeta = false → containsAny s backslash = false → containsAny s globChars = false.
Proof.
  unfold exchangeMeta, backslash. induction s as [|c s IH]; [done|]. cbn [containsAny]. intros [H1 H2]%orb_false_iff [H3 H4]%orb_false_iff.
  rewrite IH by done. rewrite orb_false_r. clear -H1 H3. unfold globChars. cbn in *. by repeat (apply orb_false_iff in H1 as [? H1]; apply orb_false_iff; split; [done|]).
Qed.

Lemma addNew_elem acc x y : y ∈ addNew acc x → y ∈ acc ∨ y = x.
Proof. unfold addNew. destruct (_ || _); [by left|]. rewrite elem_of_app, list_elem_of_singleton. tauto. Qed.

Lemma intersectGranted_elem req granted t : t ∈ intersectGranted req granted → t ∈ req ∧ covered granted t = true.
Proof.
  unfold intersectGranted. assert (∀ acc, t ∈ fold_left (λ out r, if covered granted r then addNew out r else out) req acc →
    t ∈ acc ∨ t ∈ req ∧ covered granted t = true) as Hf.
  { induction req as [|r req IH]; intros acc Ht; [by left|]. cbn [fold_left] in Ht. apply IH in Ht as [Ht|[Ht Hc]]; [|right; split; [by constructor|done]].
    destruct (covered granted r) eqn:Hc; [|by left]. apply addNew_elem in Ht as [Ht| ->]; [by left|right; split; [by constructor|done]]. }
  intros Ht. apply Hf in Ht as [Ht|Ht]; [by apply not_elem_of_nil in Ht|done].
Qed.

(** A pattern that is covered by a grant and has no escape matches only what the grant matches. *)
Lemma covered_sound granted t v : covered granted t = true → containsAny t backslash = false → matchPattern t v = true →
  Fed.granted granted v = true.
Proof.
  intros (g & Hg & Hc)%existsb_exists Hb Hm. apply existsb_exists. exists g. split; [done|]. apply orb_true_iff in Hc as [Hc|Hc].
  - apply orb_true_iff in Hc as [->%String.eqb_eq| ->%String.eqb_eq]; [done|done].
  - apply andb_true_iff in Hc as [Hc Hp]. apply negb_true_iff in Hc. pose proof (containsAny_meta t Hc Hb) as Hg2.
    unfold matchPattern in Hm. apply orb_true_iff in Hm as [Hm|Hm].
    + apply orb_true_iff in Hm as [->%String.eqb_eq|E%String.eqb_eq]; [done|]. subst. unfold matchPattern. rewrite Hp. by rewrite orb_true_r.
    + unfold pathMatchOk in Hm. rewrite pathMatch_literal in Hm by done. cbn in Hm. breflect. subst. unfold matchPattern. by rewrite Hp, orb_true_r.
Qed.

Lemma intersect_sound req granted v : Forall (λ t, containsAny t backslash = false) req →
  Cap.matchAnyGlob (intersectGranted req granted) v = true → Fed.granted granted v = true.
Proof.
  intros Hb (t & Ht & Hm)%existsb_exists. apply list_elem_of_In, intersectGranted_elem in Ht as [Hr Hc].
  rewrite Forall_forall in Hb. eapply covered_sound; [done|by apply Hb|done].
Qed.

(** The sentinel allows no other name. *)
Lemma clamp_sound corpora n : Cap.matchAnyGlob (clampCorpora corpora) n = true → n = federationDenyAllCorpus ∨ Cap.matchAnyGlob corpora n = true.
Proof.
  destruct corpora as [|c cs]; [|by right]. cbn [clampCorpora Cap.matchAnyGlob existsb]. rewrite orb_false_r. unfold matchPattern. intros Hm. left.
  apply orb_true_iff in Hm as [Hm|Hm].
  - apply orb_true_iff in Hm as [E|E%String.eqb_eq]; [by vm_compute in E|done].
  - unfold pathMatchOk in Hm. rewrite pathMatch_literal in Hm by by vm_compute. cbn [default] in Hm. by apply bool_decide_eq_true_1 in Hm.
Qed.

Section Thm.
Context `{Ed25519} `{SHA256} `{ES256} `{NetURL} `{Printable} `{HTTPForm} `{Cap.CapCodec}.

(** ** The subject token *)

(** The token is signed with the key pinned for its issuer, for this endpoint, and current. *)
Definition vouched (s : ExchangeServer) (token : string) (now : Instant) (c : subjectTokenClaims) : Prop :=
  ∃ si sig pub, parseSubjectToken token = Ok (subjectTokenAlg, c, si, sig) ∧
    s.(PinnedIssuers) !! c.(stIssuer) = Some (Some pub) ∧ length sig = 64%nat ∧ DpopThm.signedBy pub si sig ∧
    s.(ExchangeAudience) ∈ c.(stAudience) ∧ Capability.Unix now < c.(stExpiresAt) ∧
    (c.(stNotBefore) = 0 ∨ c.(stNotBefore) ≤ Capability.Unix now).

Lemma validateSubjectToken_sound s token now c : validateSubjectToken s token now = Ok c → vouched s token now c.
Proof.
  unfold validateSubjectToken, verifySubjectTokenSignature, checkSubjectTokenAudience, checkSubjectTokenTimeWindow.
  intros ([[[alg c'] si] sig] & Hp & Hv)%rbind_ok. apply rbind_ok in Hv as ([] & Ha & Hv). apply rbind_ok in Hv as (pub & Hpub & Hv).
  apply rbind_ok in Hv as ([] & Hs & Hv). apply rbind_ok in Hv as ([] & Hau & Hv). apply rbind_ok in Hv as ([] & Ht & [= ->]).
  apply rbind_ok in Hs as ([] & Hl & Hs). apply rbind_ok in Ht as ([] & Hx & Hn). apply guard_err_ok in Ha, Hl, Hs, Hau, Hx, Hn. apply of_option_ok in Hpub.
  breflect. exists si, sig, pub. split_and!; try done.
  - by subst.
  - destruct (s.(PinnedIssuers) !! stIssuer c) as [o|]; [|done]. cbn in Hpub. by subst.
  - match goal with Hy : audienceContains _ _ = true |- _ => apply existsb_exists in Hy as (x & Hy & E%String.eqb_eq) end. rewrite <- E. by apply list_elem_of_In.
  - apply andb_false_iff in Hn as [Hn|Hn]; [left; apply negb_false_iff, Z.eqb_eq in Hn; done|right; apply Z.ltb_ge in Hn; done].
Qed.

(** ** Minting *)

Lemma IssueCapability_inv k claims rnd now token : Cap.IssueCapability k claims rnd now = Ok token →
  ∃ c, token = Cap.cap_wire (Cap.signed k c) ∧ c.(Cap.Issuer) = claims.(Cap.Issuer) ∧ c.(Cap.Subject) = claims.(Cap.Subject) ∧
    c.(Cap.Audience) = claims.(Cap.Audience) ∧ c.(Cap.Tools) = claims.(Cap.Tools) ∧ c.(Cap.Corpora) = claims.(Cap.Corpora) ∧
    c.(Cap.IssuedAt) = Capability.Unix now ∧ c.(Cap.ExpiresAt) = claims.(Cap.ExpiresAt) ∧ c.(Cap.DelegatePub) = claims.(Cap.DelegatePub) ∧
    c.(Cap.Parent) = "".
Proof.
  unfold Cap.IssueCapability. intros (id & Hid & Hr)%rbind_ok. set (c := Cap.mkClaims _ _ _ _ _ _ _ _ _ _ _ _ _ _ _) in Hr.
  apply rbind_ok in Hr as ([] & _ & Hr). apply rbind_ok in Hr as ([] & Hp & Hr). do 4 (apply rbind_ok in Hr as ([] & _ & Hr)). injection Hr as <-.
  exists c. apply guard_err_ok, negb_false_iff, String.eqb_eq in Hp. by split_and!.
Qed.

(** What the details of a form ask for. *)
Definition asked (form : gmap string (list string)) : option (list string * list string * string) :=
  entries ← decodeAuthorizationDetails (postValue form "authorization_details"); unionAuthDetails entries.
(** The patterns asked for have no escapes. *)
Definition plain (form : gmap string (list string)) : Prop :=
  match asked form with
  | Some (tools, corpora, _) => Forall (λ t, containsAny t backslash = false) (tools ++ corpora)
  | None => True
  end.

(** C23. What the exchange mints stays within the organisation's grant. If a token is minted for a form, its
    subject token was signed with the key pinned for its issuer, named this endpoint and
    was current; the capability is signed by this server for the principal of the
    issuer's organisation and the one backend that was asked for, cannot be delegated,
    and lasts an hour; and when no pattern of the request has an escape, every tool that
    it covers is one the boundary allows the organisation, and every corpus, but for the
    name that stands for none, one that the boundary admits. *)
Theorem minted_grant_stays_within_org s form rnd now token :
  grantFor s form rnd now = Ok token →
  ∃ claims org c, vouched s (postValue form "subject_token") now claims ∧
    org = Fed.OrgForIssuer s.(Bound) claims.(stIssuer) ∧ org ≠ "" ∧
    token = Cap.cap_wire (Cap.signed s.(Signer) c) ∧ c.(Cap.Subject) = Fed.Principal s.(Bound) org ∧ c.(Cap.DelegatePub) = "" ∧
    (∃ tools corpora, asked form = Some (tools, corpora, c.(Cap.Audience))) ∧
    c.(Cap.ExpiresAt) - c.(Cap.IssuedAt) = 3600 ∧
    (plain form →
      (∀ tool, Cap.matchAnyGlob c.(Cap.Tools) tool = true → Fed.Allowed s.(Bound) org tool = true) ∧
      (∀ n, Cap.AllowsCorpus c n = true → n = federationDenyAllCorpus ∨ FedThm.corpusAllowed s.(Bound) org n = true)).
Proof.
  unfold grantFor. intros Hg. apply rbind_ok in Hg as ([] & _ & Hg). cbv zeta in Hg. apply rbind_ok in Hg as ([] & _ & Hg). apply rbind_ok in Hg as ([] & _ & Hg).
  apply rbind_ok in Hg as (claims & Hv & Hg). destruct (validateSubjectToken _ _ _) as [claims'|] eqn:Hvs; [|done]. injection Hv as ->.
  apply rbind_ok in Hg as ([] & Ho & Hg). apply rbind_ok in Hg as (es & He & Hg). apply rbind_ok in Hg as ([[tools corpora] aud] & Hu & Hg). cbv beta iota in Hg.
  apply rbind_ok in Hg as ([] & _ & Hg). apply guard_err_ok, String.eqb_neq in Ho. apply of_option_ok in He, Hu.
  set (org := Fed.OrgForIssuer _ _) in *. destruct (Cap.IssueCapability _ _ _ _) as [tk|] eqn:Hi; [|done]. injection Hg as ->.
  destruct (IssueCapability_inv _ _ _ _ _ Hi) as (c & -> & _ & Hsub & Haud & Ht & Hco & Hia & Hex & Hdp & _). cbn [Cap.Subject Cap.Audience Cap.Tools Cap.Corpora Cap.ExpiresAt Cap.DelegatePub] in *.
  assert (asked form = Some (tools, corpora, aud)) as Hask by (unfold asked; by rewrite He).
  exists claims, org, c. split_and!; [by apply validateSubjectToken_sound|done|done|done|done|done|exists tools, corpora; by rewrite Haud| |].
  - rewrite Hex, Hia. unfold Capability.Unix, federationGrantMaxLifetime. rewrite Z.div_add by done. lia.
  - unfold plain. rewrite Hask. intros [Hpt Hpc]%Forall_app. split.
    + intros tool. rewrite Ht. intros Hm%intersect_sound; [|done]. unfold Fed.Allowed. destruct (Fed.grants (Bound s) !! org) as [globs|]; [|done]. by destruct (String.eqb_spec org "").
    + intros n. unfold Cap.AllowsCorpus. rewrite Hco. intros Hm. assert (Cap.matchAnyGlob (clampCorpora (intersectGranted corpora (default [] (Fed.corpora (Bound s) !! org)))) n = true) as Hm'.
      { destruct (clampCorpora _) eqn:Ec; [by destruct (intersectGranted corpora _)|done]. }
      apply clamp_sound in Hm' as [->|Hm']; [by left|right]. apply intersect_sound in Hm'; [|done]. unfold FedThm.corpusAllowed. rewrite Hm'.
      by destruct (String.eqb_spec org "").
Qed.

(** The proof of possession comes first. A request without a proof that verifies gets the same answer,
    and leaves the same state, whatever its body and content type. *)
Theorem proof_gates_the_body {R} `{DPoPReplayStore R} s meth host path proof t1 b1 t2 b2 now rndNonce rnd (v v' : R) e :
  Verify (mkReq proof meth (requestURL s (mkHttp meth host path proof t1 b1)) now "" "" false) v = (Err e, v') →
  handleExchange s (mkHttp meth host path proof t1 b1) now rndNonce rnd v = handleExchange s (mkHttp meth host path proof t2 b2) now rndNonce rnd v ∧
  (∀ token, (handleExchange s (mkHttp meth host path proof t1 b1) now rndNonce rnd v).1 ≠ Minted token).
Proof.
  intros Hv. unfold handleExchange. cbn [hMethod hDPoP hType hBody]. change (requestURL s (mkHttp meth host path proof t2 b2)) with (requestURL s (mkHttp meth host path proof t1 b1)).
  rewrite Hv. destruct (negb _); [done|]. destruct (proof =? "")%string; [done|]. split; [done|]. intros token.
  destruct (kindOf e); [done|]. by destruct (IssueChallengeNonce rndNonce now v').
Qed.

End Thm.
End ExchThm.

(** ** Concrete runs *)

Import Dpop DpopThm Exch ExchThm.
#[local] Existing Instances toyES256 toyURL toyPrintable toyEd25519 toySHA256 CapRuns.toyCodec.
Definition toyForm : HTTPForm := {| ParseForm limit ct body := None |}.
#[local] Existing Instance toyForm.

(** A subject token of the issuer [iss], signed with the scalar 5. *)
Definition subjectToken (iss : string) : string :=
  let input := b64url (codes (marshalStruct [mkField "alg" false (VStr "ES256")])) +:+ "." +:+
    b64url (codes (marshalStruct [mkField "iss" false (VStr iss); mkField "aud" false (VStrs ["mesh"]); mkField "exp" false (VInt 99)])) in
  let '(r, v) := ecSign 5 (sha256 input) [] in input +:+ "." +:+ b64url (leftPad32 r ++ leftPad32 v).
Definition details (tools corpora : list string) : string :=
  "[" +:+ marshalStruct [mkField "type" false (VStr authDetailsType); mkField "actions" true (VStrs tools);
    mkField "locations" true (VStrs ["db"]); mkField "datatypes" true (VStrs corpora)] +:+ "]".
Definition formFor (tools corpora : list string) : gmap string (list string) :=
  {[ "grant_type" := [GrantTokenExchange]; "subject_token" := [subjectToken "https://p"]; "subject_token_type" := ["jwt"];
     "authorization_details" := [details tools corpora] ]}.
Definition partner : ExchangeServer :=
  mkExchange x05 (Fed.NewBoundary [Fed.mkGrant "acme" ["db?x"; "read_*"] []] [Fed.mkMapping "issuer:https://p" "acme" "svc" ""] None)
    {[ "https://p" := Some (5, 5) ]} "mesh" "".
Definition mintedFor (tools : list string) : string :=
  match grantFor partner (formFor tools ["docs"]) (Some [x01]) Second with Ok t => t | Err _ => "" end.

Lemma minted_grant_stays_within_org_witness : ∃ c, mintedFor ["read_a"; "write"] = Cap.cap_wire (Cap.signed x05 c) ∧ c.(Cap.Subject) = "svc" ∧
  (∀ tool, Cap.matchAnyGlob c.(Cap.Tools) tool = true → Fed.Allowed partner.(Bound) "acme" tool = true).
Proof.
  assert (grantFor partner (formFor ["read_a"; "write"] ["docs"]) (Some [x01]) Second = Ok (mintedFor ["read_a"; "write"])) as Hg by (vm_compute; reflexivity).
  destruct (minted_grant_stays_within_org _ _ _ _ _ Hg) as (claims & org & c & (si & sig & pub & Hp & _) & Ho & _ & Ht & Hs & _ & _ & _ & Hw).
  assert (org = "acme") as ->.
  { vm_compute in Hp. injection Hp as <- _ _. rewrite Ho. reflexivity. }
  exists c. split_and!; [exact Ht|exact Hs|]. apply Hw. vm_compute. repeat constructor.
Defined.

Lemma proof_gates_the_body_witness :
  handleExchange partner (mkHttp "POST" "m" "/t" "x" "form" "a") 0 None None NewMemDPoPReplayStore =
  handleExchange partner (mkHttp "POST" "m" "/t" "x" "json" "b") 0 None None NewMemDPoPReplayStore.
Proof.
  apply (proof_gates_the_body partner "POST" "m" "/t" "x" "form" "a" "json" "b" 0 None None NewMemDPoPReplayStore NewMemDPoPReplayStore Malformed).
  reflexivity.
Defined.

(** The endpoint takes a name with a backslash for a plain name, the capability's matcher takes it for a
    pattern: a partner that is granted [db?x] asks for [db\x] and gets a capability that
    opens [dbx], which the boundary refuses it. *)
Definition verifierOfPartner : Cap.CapabilityVerifier MemNonceStore :=
  default (Cap.mkVerifier ∅ None None None) (Cap.NewCapabilityVerifier [PubKeyHex x05]).
Theorem escape_widens_grant :
  match Cap.verifyClaims verifierOfPartner (mintedFor ["db\x"]) "svc" "db" "dbx" Second with Ok _ => True | Err _ => False end ∧
  Fed.Allowed partner.(Bound) "acme" "dbx" = false.
Proof. vm_compute. done. Qed.

(** The name that stands for no corpus is a well-formed pattern, and matches itself. *)
Theorem sentinel_is_a_pattern : pathMatch federationDenyAllCorpus federationDenyAllCorpus = Some true.
Proof. reflexivity. Qed.
